(* ===== verification/_CoqProject ===== *)
-Q . S2P
Prelude.v
StatusCode.v
Abilities.v
Identifier.v
FileFormat.v
BinaryCommon.v
Uleb.v
Serializer.v
Deserializer.v
WellFormed.v
DeserializerSafety.v
Codec.v
TokenCodec.v
Tables.v
RoundTrip.v
BinaryTheorems.v
Access.v
BoundsChecker.v
BoundsSpec.v
BoundsTheorems.v
ControlFlow.v
ControlFlowSpec.v
ControlFlowTheorems.v
BTree.v
ControlFlowGraph.v
PostOrder.v
ControlFlowGraphTheorems.v
FunctionView.v
GraphLaws.v
StackUsage.v
StackUsageTheorems.v
Absint.v
AbsintTheorems.v
LocalsSafety.v
LocalsSafetyTheorems.v
SignatureChecker.v
InstructionConsistency.v
Constants.v
TypeSafety.v
TypingRules.v
TypeSafetyTheorems.v
TypeSafetyTotal.v
DuplicationChecker.v
DuplicationTheorems.v
StructDefs.v
StructDefsTheorems.v
InstantiationLoops.v
InstantiationTheorems.v
FieldAbilities.v
Acquires.v
Friends.v
BorrowGraph.v
BorrowGraphFacts.v
BorrowGraphTheorems.v
ReferenceSafety.v
Verifier.v
AccessPaths.v
PlaceMachine.v
ReferenceSoundness.v
ReferenceSteps.v
ReferenceSoundTheorems.v
Dependencies.v
CyclicDependencies.v
Normalized.v
Compatibility.v
LinkingChecks.v
LinkingTheorems.v
VmValues.v
VmOwnership.v
VmReferences.v
VmVectors.v
VmValueTheorems.v
Runtime.v
Interpreter.v
InterpreterFacts.v
InterpreterSteps.v
Loading.v
LoadingFacts.v
LoadingTheorems.v
InterpreterTheorems.v
