(* ===== verification/Prelude.v ===== *)
(** * The Move binary format, the bytecode verifier and the virtual machine

    This development models the code by which a Move module or script gets from bytes
    to a program that the rest of the system may trust: the data model of compiled units,
    the serializer and the deserializer, the bounds checker that every deserialized unit
    goes through, and the passes of the bytecode verifier on modules and on function
    bodies; and the virtual machine that loads and runs such a program: its
    loader, its values, its gas metering and its interpreter.  Paths below are relative to src/language/.

    ** The parts and how they interact

    [CompiledModule::deserialize] (move-binary-format/src/deserializer.rs) reads a binary
    into a [CompiledModule] (file_format.rs) with the cursors and integer readers of
    file_format_common.rs, and then runs [BoundsChecker::verify_module] (check_bounds.rs)
    on the result.  [CompiledModule::serialize] (serializer.rs) goes the other way.  The
    accessors of access.rs and binary_views.rs index the tables of a module without
    checks and rely on the bounds checker.  For each function body, the bytecode
    verifier first runs move-bytecode-verifier/src/control_flow.rs, which relies on
    jumps that stay inside the body, and then builds [VMControlFlowGraph]
    (control_flow_graph.rs), whose construction relies on both.  The passes on bodies run
    on that graph in the order stack usage, types, locals, references; each relies on the
    ones before it, and the type checker also on the passes on signatures, instructions
    and constants.  Reference safety keeps the borrows between references in the graph of
    move-borrow-graph.  The passes on modules (duplication, recursive structs, instantiation
    loops, abilities of fields, friends, acquires lists) rely on the bounds checker and
    on each other.  verifier.rs and code_unit_verifier.rs run all passes in order.  What a unit
    takes from other modules is checked against them by dependencies.rs, their graph by
    cyclic_dependencies.rs, and a new version of a module against the old one, both
    normalized, by compatibility.rs.  The theorems follow the same chain: each part is proved correct
    under what the parts before it establish.  The virtual machine keeps values in
    containers that references share (move-vm/types/src/values/values_impl.rs); its theorems
    assume of the values only what the verifier promises, that they have their layouts and
    that a reference is not the last pointer to what it refers to.  The interpreter
    (move-vm/runtime/src/interpreter.rs) runs the instructions on these values: it asks the
    resolver (loader.rs) what the indices of an instruction mean, charges gas
    (move-vm/types/src/gas_schedule.rs), reads and changes global storage through the
    [DataStore] and calls native functions.  The loader (loader.rs) takes modules as bytes
    from the data store, runs the deserializer and the verifier on them, links them with the
    modules of its cache and builds the tables of the resolver; the publication of modules
    (runtime.rs) makes the same checks.  The data cache of a transaction (data_cache.rs) is
    a data store over the storage.  The theorem on the operand stack goes through all of
    this: from bytes in the data store over the deserializer, the bounds checker, the stack
    usage verifier and the dependency checker to the run.

    ** Files

    - [Prelude] (this file): machine integers, results, the state-and-error monad,
      loops, tactics and the lemmas shared by the components.
    - [StatusCode], [Abilities], [Identifier]: the enumeration of move-core/types/src/
      vm_status.rs; [Ability], [AbilitySet], its iterator and [polymorphic_abilities] of
      file_format.rs; the validity of identifiers of move-core/types/src/identifier.rs.
    - [FileFormat]: the types of file_format.rs with the source's constructors and
      fields (each record in a [Module] of its name), the preorder iterators of
      [SignatureToken], [Bytecode::get_successors] and the sample units.
    - [BinaryCommon]: file_format_common.rs, that is the limits, the table, type and opcode
      enumerations, [BinaryData], the ULEB128 and little-endian readers and writers,
      [VersionedBinary] and [VersionedCursor].  [Uleb] proves the ULEB128 layer.
    - [Serializer]: serializer.rs, one definition per function.  [CommonSerializer] and
      [ModuleSerializer] are the mutable serializers, threaded explicitly.
    - [Deserializer]: deserializer.rs, one definition per function, for the versions 1
      to 5, with the stack machine [load_signature_token] as it is written.
    - [WellFormed]: the values that inhabit the Rust types, as boolean functions.
    - [Codec], [TokenCodec], [Tables], [RoundTrip]: the round trip.  A codec
      pairs a writer with the reader that undoes it; tables and whole
      units are assembled from codecs.
    - [DeserializerSafety]: totality of the readers and the types of what they return.
    - [Access]: access.rs and binary_views.rs.  [BoundsChecker]: check_bounds.rs.
      [BoundsSpec]: the declarative specification of a unit in bounds, and the proof
      that the checker decides it.
    - [ControlFlow]: control_flow.rs.  [ControlFlowSpec]: the loops of a body as a
      relation on offsets, and the three rules of the documentation.
    - [BTree]: the ordered maps and sets of the Rust library that the graph uses.
      [ControlFlowGraph]: control_flow_graph.rs.  [PostOrder]: its worklist on any graph
      whose edges ascend.
    - [FunctionView]: the views of a function on which the passes run (binary_views.rs).
      [GraphLaws]: the laws of the graph as a record, and [view_ok], what the passes
      before a pass on bodies establish; and passes that run every block from
      one state, and the state they give to each offset.
    - [StackUsage] (stack_usage_verifier.rs), [StackUsageTheorems].
    - [Absint]: absint.rs, with the traits [AbstractDomain] and [TransferFunctions] as
      classes.  [AbsintTheorems]: the interpreter on any analysis that satisfies the laws
      of a class.  [LocalsSafety] (locals_safety/), [LocalsSafetyTheorems]: an instance.
    - [SignatureChecker] (signature.rs), [InstructionConsistency]
      (instruction_consistency.rs), [Constants] (constants.rs, of
      move-binary-format constant.rs, and the type tags of language_storage.rs).
    - [TypeSafety]: type_safety.rs.  [TypingRules]: the typing rules of the instructions
      as a relation.  [TypeSafetyTheorems], [TypeSafetyTotal].
    - [DuplicationChecker] (check_duplication.rs), [DuplicationTheorems].
    - [StructDefs] (struct_defs.rs), [StructDefsTheorems]; [InstantiationLoops]
      (instantiation_loops.rs), [InstantiationTheorems].  Both proofs are built on the loops
      of [Prelude] that only add elements to a collection.
    - [FieldAbilities] (ability_field_requirements.rs), [Acquires]
      (acquires_list_verifier.rs), [Friends] (friends.rs), each with its theorems.
    - [BorrowGraph]: move-borrow-graph/src (graph.rs, references.rs, paths.rs, shared.rs).
      [BorrowGraphFacts]: its operations under the asserted invariant and the borrows that
      they keep tracked.  [BorrowGraphTheorems].
    - [ReferenceSafety]: reference_safety/abstract_state.rs and mod.rs, the second instance
      of the interpreter.  [AccessPaths]: the places in memory that references stand for,
      the invariant by which the borrow graph accounts for how they overlap, and what the
      questions to the graph say about places.
    - [PlaceMachine]: a specification of what reference safety is about, a machine whose
      values are references to places, with what each instruction accesses and what must
      not refer there at that time.  [ReferenceSoundness]: the frame that an abstract state
      stands for, and what the checks allow.  [ReferenceSteps]: the refinement, one operation
      and one instruction at a time.
      [ReferenceSoundTheorems]: also entry, return and the origin of references,
      and modules that show the gaps of the analysis, two of them with the bad runs that
      they have on the machine.
    - [Verifier]: script_signature.rs, code_unit_verifier.rs and verifier.rs.
    - [Dependencies] (dependencies.rs), [CyclicDependencies] (cyclic_dependencies.rs);
      [Normalized] (normalized.rs of move-binary-format), [Compatibility] (compatibility.rs).  [LinkingChecks]: what it means
      that a unit links, the maps of the checker and its checks.  [LinkingTheorems]: also what
      it means that two versions are compatible, replacing a dependency, and the cycles of
      the module graph.
    - [VmValues]: values_impl.rs and the types of loaded_data/runtime_types.rs.  Containers
      live in a store of reference-counted boxes; clones and drops of pointers are explicit.
      [VmOwnership]: the tree that a value stands for and the boxes that hold it, with copies,
      comparison, drops and sizes.  [VmReferences]: references as paths in a tree.
      [VmVectors]: vectors behind references, packing and unpacking.  [VmValueTheorems]: also
      the slots of global storage and the locals of a frame.
    - [Runtime]: what the interpreter runs on, each part in a [Module] of its name.  Gas
      ([GasConstants], [GasAlgebra], [GasCost], [CostTable], [GasStatus], [CostSchedule]:
      gas_schedule.rs of move-core and of move-vm/types), loaded code and the [Resolver]
      (loader.rs), the class [DataStore] and the results of native functions.
    - [Interpreter]: interpreter.rs.  [Machine] is the state: the store of boxes, the operand
      stack, the call stack, the gas, the data store and the extensions.  One definition per
      function, and [execute_instruction] for the body of the loop of [execute_code_impl].
      [InterpreterFacts]: what each operation does to the gas and to the stack, and that more
      fuel does not change a result.  [InterpreterSteps]: the interpreter as a step relation
      on frames and machines, with the run of [execute_frames] as a sequence of steps, and
      the discipline of the operand stack as an invariant of it.  [InterpreterTheorems].
    - [Loading]: [ModuleCache] and [BinaryCache], [NewModule] and [NewScript] ([Module::new]
      and [Script::new]), [CodeLoader] (the functions of [Loader], which thread a
      [LoaderState], and the publication of runtime.rs), [TypeLoader] and [TypeCache] (tags
      and layouts of types), all of loader.rs; [TransactionDataCache] (data_cache.rs).
      [LoaderState.loader] is what the interpreter reads of a loader.  The class [ModuleStore]
      is what the loader uses of a data store, [PublishLaw] what it relies on; the data cache
      is an instance of both.  [LoadingFacts]: the invariant of the loader, kept by every
      operation also when it fails, the states of a loader and its data store as the relation
      [system], and that a loader in such a state holds a program as the interpreter
      assumes.  [LoadingTheorems]: publication, types and resources.
    - [BinaryTheorems], [BoundsTheorems],
      [ControlFlowTheorems], [ControlFlowGraphTheorems]: the properties of the parts,
      each with an instance at a concrete input where it has hypotheses.

    ** Conventions

    A [w]-bit integer is a [Z]; [in_range] states its range, and where the source
    truncates or shifts the wrap-around is written out.  [usize] has 64 bits.  A byte is a
    [Z] and a string its UTF-8 bytes.  [AccountAddress::LENGTH] is 16, as it is without
    the features address20 and address32.

    A fallible function returns a [result]: [Ok], [Err] with the [StatusCode] of the
    error, [Panic], or [OutOfFuel].  Everything that panics in Rust does so here:
    indexing out of range, [unwrap] on [None], [assert!], [unreachable!], [debug_assert!]
    and an overflowing addition or subtraction (both of the latter as in a debug build).
    The offsets, indices and messages attached to an error are not recorded.

    Loops that are not structurally recursive have fuel, chosen from the input at the
    call, and it suffices wherever the recursion of the source ends:
    - ULEB128: ten rounds of seven bits cover a [u64]; the reader stops when its shift
      passes 64;
    - [load_signature_token]: twice the number of unread bytes plus two, since each round
      reads a byte or pops what an earlier round pushed;
    - the table loops: the byte count of the table plus one, since each round of a
      successful reader consumes a byte;
    - the token iterators: the number of nodes of the token;
    - the post-order worklist: twice the number of edges plus three, since each edge
      pushes at most one entry, which is popped twice;
    - [traverse_by]: the number of blocks plus two, since each block is visited once;
    - [analyze_function]: with [b] blocks and invariants that change at most [h] times,
      [b * (h + 1) * (b + 1) + b + 2], since a sweep over the blocks takes at most [b]
      rounds and starts again only after a change;
    - [pop_n] of the type checker: the height of the stack plus one, whatever the count;
    - copies, comparisons, drops and sizes of values: the number of boxes of the store plus
      one or two.  A drop frees a box each time it recurses, so it always ends.  A value
      without a cycle nests no deeper than it has boxes, and for the values that stand for
      trees the theorems on copies and comparisons show their results.  Unverified code can
      write a reference to a struct into that struct; on such a cyclic value the recursion
      of the source has no end, and [OutOfFuel] stands for that;
    - the exploration of the module graph: the number of modules it can reach plus one; it
      is an argument, since the graph is;
    - the loops of the interpreter, which need not end without metering: the fuel is an
      argument, a run without enough of it is [None], and more units of fuel than of gas are
      enough when metering is on (whether each single instruction ends is the point before);
    - loading modules with their dependencies and friends: the fuel is an argument, the
      depth of the module graph is enough; the theorems speak of loads that return, with a
      result or an error;
    - [type_to_type_layout]: the 128 levels that a layout may have.

    Functions of other packages are parameters: the encoding of values (bcs) in
    [Constants], of which nothing is assumed, and [toposort] and [tarjan_scc] (petgraph),
    of which the theorems assume what their documentation says.  So are the native functions,
    the hash of scripts, the storage and the deserialization of values, and the decoding of
    constants.  Of them the theorem on the stack assumes that native functions return as many
    values as they declare, that neither natives, the data store nor constants report an error
    of the stack ([QuietEnv]), and that what the data store holds at first under a name is
    a binary of a module of that name ([store_ok]) with tables of at most 2^16 handles and
    bodies of fewer than 65535 instructions, the same for scripts and published modules.

    ** What the theorems show

    - Binary format ([BinaryTheorems], [Uleb], [TokenCodec]): what is
      written for a well-formed unit is read back as that unit, also with more bytes
      behind it; on every byte string the deserializer returns a well-formed unit or an
      error; the serializer of a well-formed unit does not panic; a binary of any version
      that is read and written again is stable; ULEB128 is canonical; [check_tables]
      accepts exactly the tables that tile a segment; the three opcode tables agree; and
      the corners where the format has two encodings or a reader has a wrong limit.
    - Bounds ([BoundsTheorems]): the checker accepts exactly the units
      of the declarative specification and does not panic; after it, no accessor panics at
      an index of the unit, [abilities] is defined on the types of the signature pool,
      and the successors of every instruction are in the body.
    - Control flow ([ControlFlowTheorems]): the verifier does not panic on such bodies,
      accepts exactly those that follow its three rules, and in those every loop is
      entered through its head only.
    - Graph ([ControlFlowGraphTheorems]): [new] does not panic, its blocks partition the
      body, the traversal order is topological and, after the control flow verifier,
      contains all the blocks that control can reach; the loop heads are the heads of
      the verifier's loops; [reachable_from] computes reachability.
    - Bodies ([StackUsageTheorems], [TypeSafetyTheorems], [TypeSafetyTotal],
      [AbsintTheorems], [LocalsSafetyTheorems]): on the bodies that the earlier passes
      let through, the passes return and do not panic (the stack height overflows only
      if an instruction pushes more than 2^32 values, and a module shows that it can);
      in accepted bodies every path reaches an offset with the same stack height and the
      same types, on which the instruction is well typed, and a return finds exactly the
      results; [verify_instr] is equivalent to the typing rules, apart from the operands
      of VecPack, which it does not compare; the abstract interpreter terminates and
      excludes the violations on all paths; the locals pass accepts exactly the bodies in
      which no path uses a local without a value or loses one that cannot be dropped.
    - Modules ([DuplicationTheorems], [StructDefsTheorems], [InstantiationTheorems],
      [FieldAbilities], [Acquires], [Friends]): the duplication checker accepts exactly
      the modules with distinct elements and one definition for each own handle; the
      struct checker exactly those with structs of finite depth; the instantiation
      checker, without native functions, rejects exactly the growing cycles of generic
      calls, and a module with a native function shows a cycle that it misses; an
      instance of a struct has an ability only if its fields have what it requires; the
      acquires list of a function contains every resource it may access through calls.
    - References ([BorrowGraphTheorems], [ReferenceSoundTheorems]): the operations of the borrow graph do not panic under its
      invariant, keep it and keep track of every borrow; the analysis of the instructions
      of a block refines the machine of places, so what it accepts makes only allowed
      accesses, and an accepted function without branches keeps the contract that the
      analysis of a call assumes.  Both theorems have a premise, [all_checked], on the
      states of the analysis: what the source does not check when a local is borrowed
      mutably (that no edge from the frame has an empty path, as an edge set that overflows
      gets) and when an element is borrowed immutably from a mutable reference (that nothing
      is borrowed mutably from that reference).  It is needed: accepted functions for which it fails have
      runs that write under a live immutable reference.  Modules show other gaps of the analysis
      (the renaming of exchanged references, the stack left by an error, 256 locals).
    - Linking ([LinkingTheorems]): the dependency checker returns and
      accepts exactly the units that link; the compatibility check of normalized modules
      decides its specification, and a dependency can be replaced by a compatible version
      under every unit that links with it; the checker of cyclic dependencies finds exactly
      the cycles through the module and the friends among its dependencies.
    - Values ([VmValueTheorems]): a copy is deep, and dropping it restores the store;
      comparison is equality of trees; a reference reads and writes the tree at its path and
      nothing else, borrowing goes one step down the path, vector operations are list
      operations at the path; packing and unpacking are inverse; after any transaction on a
      slot of global storage the reported effect is the difference between what the slot held
      and what it holds, so no write through a reference is lost; integer operations are exact
      or fail; the substitution of types is exact up to 256 levels.
    - Loading ([LoadingTheorems]): what is published has passed the verifier and links with
      modules of the loader, and replaces only a version it is compatible with; the tag of a
      type that was loaded from a tag is that tag, whatever the type cache holds; the layout
      of a type does not depend on the type cache, up to 128 levels; around any struct with a
      field, 127 vectors are too deep or not depending on it; the data cache reads a resource once, under the tag of
      its type, and returns what was written last.
    - Interpreter ([InterpreterTheorems]): in every state that a run of a loaded function or
      script reaches, the operand stack holds above the values of the callers exactly as many values
      as the stack usage verifier computed for the offset, so the run does not find the stack
      empty or leave its code, and it returns exactly the results of the signature; all this
      up to an [Unpack] of a struct with another number of fields than its type, of which the
      interpreter checks nothing (the types of the values of a run are not modelled, so that
      no such [Unpack] is met from well-typed arguments is not shown).  With metering on, a
      run of any code makes no more steps than there are units of gas, and the loops of the
      interpreter end with the same result for any fuel above that.
    - Abilities: [polymorphic_abilities] grants an ability exactly when it is declared and
      every non-phantom argument has what it requires.

    ** What is not modelled

    Display, Debug, printing and the random generators; the views of views.rs; the
    serialization of values, which is a library (bcs) applied through serde; in move-vm,
    [into_effects] of the data cache, which serializes values in the order of their types, the
    sessions, the arguments of entry points and the native functions; the locks, since a
    loader is used by one thread at a time; what is left of the gas and of the machine after a
    run that fails, since an error ends it; the compiler, the prover and the command line
    tools.  The invariant of the loader covers the publication of one module at a time; the
    definitions also run on bundles of several.

    The order in which the development is to grow: soundness of reference safety for
    functions with branches (joins and canonical states, where the renaming of references
    and the edges that overflow need premises); the types of the values on the operand stack,
    for which the theorems on type safety and on values are the two halves; bundles of several
    modules. *)
From Stdlib Require Export ZArith Lia.
From stdpp Require Export base tactics list list_numbers numbers option.

(** * Machine integers

    A [w]-bit unsigned integer of the source is a [Z]; wrap-around is written
    out where the source wraps, and the range is a predicate. *)

Open Scope Z_scope.

Definition u8_max : Z := 2 ^ 8 - 1.
Definition u16_max : Z := 2 ^ 16 - 1.
Definition u32_max : Z := 2 ^ 32 - 1.
Definition u64_max : Z := 2 ^ 64 - 1.
Definition u128_max : Z := 2 ^ 128 - 1.
(** [usize] of a 64-bit target. *)
Definition usize_max : Z := u64_max.

(** [in_range max x]: [x] is a value of the unsigned type whose largest
    element is [max]. *)
Definition in_range (max x : Z) : bool := (0 <=? x) && (x <=? max).
Arguments in_range : simpl never.

Abbreviation is_u8 := (in_range u8_max).
Abbreviation is_u16 := (in_range u16_max).
Abbreviation is_u32 := (in_range u32_max).
Abbreviation is_u64 := (in_range u64_max).
Abbreviation is_u128 := (in_range u128_max).

(** A vector length as a [usize]. *)
Abbreviation zlen l := (Z.of_nat (length l)).

(** * Results

    [Err] is a returned error, [Panic] is a Rust panic ([assert!],
    [unreachable!], [unwrap] on [None], an out-of-range slice, an arithmetic
    overflow), and [OutOfFuel] marks that the fuel of a recursion was too small: theorems
    show that this does not happen, apart from values with cycles. *)

Inductive result (E A : Type) : Type :=
| Ok (a : A)
| Err (e : E)
| Panic
| OutOfFuel.
Arguments Ok {E A} a.
Arguments Err {E A} e.
Arguments Panic {E A}.
Arguments OutOfFuel {E A}.

#[export] Instance result_ret {E} : MRet (result E) := fun A a => Ok a.
#[export] Instance result_bind {E} : MBind (result E) := fun A B f r =>
  match r with
  | Ok a => f a
  | Err e => Err e
  | Panic => Panic
  | OutOfFuel => OutOfFuel
  end.
#[export] Instance result_fmap {E} : FMap (result E) := fun A B f r =>
  r ← r; Ok (f r).

(** [map_err(|_| e)] *)
Definition map_err {E F A} (e : F) (r : result E A) : result F A :=
  match r with
  | Ok a => Ok a
  | Err _ => Err e
  | Panic => Panic
  | OutOfFuel => OutOfFuel
  end.

(** [Option::ok_or] and [Option::unwrap]. *)
Definition ok_or {E A} (o : option A) (e : E) : result E A :=
  match o with Some a => Ok a | None => Err e end.
Definition unwrap {E A} (o : option A) : result E A :=
  match o with Some a => Ok a | None => Panic end.

Definition is_ok {E A} (r : result E A) : bool :=
  match r with Ok _ => true | _ => false end.

(** A run that neither panics nor runs out of fuel: it returns a value or an
    error. *)
Definition safe {E A} (r : result E A) : Prop :=
  match r with Ok _ | Err _ => True | Panic | OutOfFuel => False end.

(** * State and errors

    [ST S E A] threads a mutable value of type [S] (a cursor, a binary being
    written, a serializer) through calls that may fail with [E]. *)

Definition ST (S E A : Type) : Type := S -> result E (A * S).

#[export] Instance ST_ret {S E} : MRet (ST S E) := fun A a s => Ok (a, s).
#[export] Instance ST_bind {S E} : MBind (ST S E) := fun A B f m s =>
  match m s with
  | Ok (a, s') => f a s'
  | Err e => Err e
  | Panic => Panic
  | OutOfFuel => OutOfFuel
  end.

Definition st_err {S E A} (e : E) : ST S E A := fun _ => Err e.
Definition st_panic {S E A} : ST S E A := fun _ => Panic.
(** A computation that does not touch the state. *)
Definition st_lift {S E A} (r : result E A) : ST S E A := fun s =>
  match r with
  | Ok a => Ok (a, s)
  | Err e => Err e
  | Panic => Panic
  | OutOfFuel => OutOfFuel
  end.
Definition st_map_err {S E F A} (e : F) (m : ST S E A) : ST S F A := fun s =>
  map_err e (m s).

(** [for _ in 0..n { v.push(m?) }] *)
Fixpoint st_repeat {S E A} (n : nat) (m : ST S E A) : ST S E (list A) :=
  match n with
  | O => mret []
  | S n => x ← m; xs ← st_repeat n m; mret (x :: xs)
  end.

(** [for x in xs { f(x)? }] *)
Fixpoint st_for {S E A} (xs : list A) (f : A -> ST S E ()) : ST S E () :=
  match xs with
  | [] => mret ()
  | x :: xs => f x;; st_for xs f
  end.

(** [for x in xs { f(x)? }] without state. *)
Fixpoint res_for {E A} (xs : list A) (f : A -> result E ()) : result E () :=
  match xs with
  | [] => mret ()
  | x :: xs => f x;; res_for xs f
  end.

(** * Automation *)

Create HintDb move.

Ltac zify_bounds :=
  unfold in_range, usize_max, u8_max, u16_max, u32_max, u64_max, u128_max in *.

(** Turn boolean tests of the code into propositions. *)
Ltac bool_hyps :=
  repeat match goal with
  | H : (_ && _) = true |- _ => apply andb_true_iff in H; destruct H
  | H : (_ || _) = false |- _ => apply orb_false_iff in H; destruct H
  | H : negb _ = true |- _ => apply negb_true_iff in H
  | H : negb _ = false |- _ => apply negb_false_iff in H
  | H : (_ <=? _) = true |- _ => apply Z.leb_le in H
  | H : (_ <=? _) = false |- _ => apply Z.leb_gt in H
  | H : (_ <? _) = true |- _ => apply Z.ltb_lt in H
  | H : (_ <? _) = false |- _ => apply Z.ltb_ge in H
  | H : (_ >? _) = true |- _ => rewrite Z.gtb_ltb in H
  | H : (_ >? _) = false |- _ => rewrite Z.gtb_ltb in H
  | H : (_ =? _) = true |- _ => apply Z.eqb_eq in H
  | H : (_ =? _) = false |- _ => apply Z.eqb_neq in H
  end.

Lemma in_range_spec max x : in_range max x = true <-> 0 <= x <= max.
Proof. unfold in_range. rewrite andb_true_iff, !Z.leb_le. done. Qed.

Lemma safe_bind {E A B} (r : result E A) (f : A -> result E B) :
  safe r -> (forall a, r = Ok a -> safe (f a)) -> safe (r ≫= f).
Proof. destruct r; simpl; auto. Qed.

Lemma st_bind_ok {S E A B} (m : ST S E A) (f : A -> ST S E B) s b s' :
  (m ≫= f) s = Ok (b, s') <-> exists a s1, m s = Ok (a, s1) /\ f a s1 = Ok (b, s').
Proof.
  unfold mbind, ST_bind. destruct (m s) as [[a s1]| | |]; split;
    try (intros (? & ? & ? & ?)); try discriminate; naive_solver.
Qed.

Lemma res_bind_ok {E A B} (r : result E A) (f : A -> result E B) b :
  (r ≫= f) = Ok b <-> exists a, r = Ok a /\ f a = Ok b.
Proof. destruct r; simpl; split; try (intros (? & ? & ?)); try discriminate; naive_solver. Qed.

Lemma res_for_ok {E A} (xs : list A) (f : A -> result E ()) :
  res_for xs f = Ok () <-> Forall (fun x => f x = Ok ()) xs.
Proof.
  induction xs as [|x xs IH]; simpl; [split; auto|].
  rewrite Forall_cons_iff, <- IH. destruct (f x) as [[]| | |]; simpl; naive_solver.
Qed.

(** Split a successful monadic run into its steps. *)
Ltac inv_ok :=
  repeat match goal with
  | H : (_ ≫= _) _ = Ok _ |- _ => apply st_bind_ok in H as (? & ? & ? & H)
  | H : (_ ≫= _) = Ok _ |- _ => apply res_bind_ok in H as (? & ? & H)
  | H : Ok _ = Ok _ |- _ => injection H as H; subst
  | H : Err _ = Ok _ |- _ => discriminate H
  | H : Panic = Ok _ |- _ => discriminate H
  | H : mret _ _ = Ok _ |- _ => unfold mret, ST_ret in H
  | H : (_, _) = (_, _) |- _ => injection H as ? ?; subst
  end.

(** * Building graphs *)

(** Computations that build a graph edge by edge: each succeeds, keeps an invariant of the
    state and adds a known set of edges. *)
Section adds.
Context {St Er X Y : Type} (inv : St -> Prop) (has : St -> X -> Y -> Prop).
Abbreviation M := (ST St Er).

(** The computation succeeds and adds the edges [E]. *)
Definition adds (c : M ()) (E : X -> Y -> Prop) : Prop :=
  forall s, inv s -> exists s', c s = Ok ((), s') /\ inv s' /\ forall a b, has s' a b <-> has s a b \/ E a b.

Lemma adds_ret (E : X -> Y -> Prop) : (forall a b, ~ E a b) -> adds (mret ()) E.
Proof. intros HE s Hs. exists s. split; [done|]. split; [done|]. naive_solver. Qed.

Lemma adds_seq c1 c2 E1 E2 (E : X -> Y -> Prop) :
  adds c1 E1 -> adds c2 E2 -> (forall a b, E a b <-> E1 a b \/ E2 a b) -> adds (c1;; c2) E.
Proof.
  intros H1 H2 HE s Hs. destruct (H1 s Hs) as (s1 & R1 & S1 & A1). destruct (H2 s1 S1) as (s2 & R2 & S2 & A2).
  exists s2. unfold mbind, ST_bind. rewrite R1. split; [done|]. split; [done|].
  intros a b. rewrite A2, A1, HE. tauto.
Qed.

Lemma adds_iff c E E' : adds c E -> (forall a b, E a b <-> E' a b) -> adds c E'.
Proof.
  intros H HE s Hs. destruct (H s Hs) as (s' & R & S & A). exists s'. split; [done|]. split; [done|].
  intros a b. by rewrite A, HE.
Qed.

Lemma adds_for {A} (l : list A) (f : A -> M ()) (E : A -> X -> Y -> Prop) :
  (forall x, x ∈ l -> adds (f x) (E x)) -> adds (st_for l f) (fun a b => exists x, x ∈ l /\ E x a b).
Proof.
  induction l as [|x l IH]; intros Hf; cbn [st_for].
  - apply adds_ret. by intros a b (x & Hx%elem_of_nil & _).
  - eapply adds_seq; [apply Hf; by left|apply IH; intros y Hy; apply Hf; by right|].
    intros a b. setoid_rewrite elem_of_cons. naive_solver.
Qed.

(** A computation that starts with reads that succeed. *)
Lemma adds_lift {A} (r : result Er A) x (f : A -> M ()) E :
  r = Ok x -> adds (f x) E -> adds (y ← st_lift r; f y) E.
Proof. intros -> Hf s Hs. destruct (Hf s Hs) as (s' & R & ?). exists s'. split; [exact R|done]. Qed.
End adds.
