(* ===== verification/Abilities.v ===== *)
(** Abilities and ability sets: [Ability], [AbilitySet] and its iterator of
    move-binary-format/src/file_format.rs.  An [AbilitySet] is the [u8] bit set
    of the source. *)
From S2P Require Import Prelude StatusCode.

Module Ability.

Inductive Ability : Set := Copy | Drop | Store | Key.

#[global] Instance Ability_eq_dec : EqDecision Ability.
Proof. solve_decision. Defined.

(** The discriminant, [ability as u8]. *)
Definition as_u8 (a : Ability) : Z :=
  match a with Copy => 1 | Drop => 2 | Store => 4 | Key => 8 end.

Definition from_u8 (u : Z) : option Ability :=
  match u with
  | 1 => Some Copy
  | 2 => Some Drop
  | 4 => Some Store
  | 8 => Some Key
  | _ => None
  end.

Definition requires (a : Ability) : Ability :=
  match a with
  | Copy => Copy
  | Drop => Drop
  | Store => Store
  | Key => Store
  end.

End Ability.

Abbreviation Ability := Ability.Ability.

Module AbilitySet.

Definition AbilitySet : Set := Z.

Definition EMPTY : AbilitySet := 0.

(** [impl BitOr<Ability> for AbilitySet] *)
Definition bitor (s : AbilitySet) (a : Ability) : AbilitySet :=
  Z.lor s (Ability.as_u8 a).

Definition PRIMITIVES : AbilitySet :=
  Z.lor (Z.lor (Ability.as_u8 Ability.Copy) (Ability.as_u8 Ability.Drop))
        (Ability.as_u8 Ability.Store).
Definition REFERENCES : AbilitySet :=
  Z.lor (Ability.as_u8 Ability.Copy) (Ability.as_u8 Ability.Drop).
Definition SIGNER : AbilitySet := Ability.as_u8 Ability.Drop.
Definition VECTOR : AbilitySet :=
  Z.lor (Z.lor (Ability.as_u8 Ability.Copy) (Ability.as_u8 Ability.Drop))
        (Ability.as_u8 Ability.Store).
Definition ALL : AbilitySet :=
  Z.lor (Z.lor (Z.lor (Ability.as_u8 Ability.Copy) (Ability.as_u8 Ability.Drop))
               (Ability.as_u8 Ability.Store))
        (Ability.as_u8 Ability.Key).

Definition has_ability (s : AbilitySet) (ability : Ability) : bool :=
  let a := Ability.as_u8 ability in
  Z.land a s =? a.

Definition has_copy (s : AbilitySet) : bool := has_ability s Ability.Copy.
Definition has_drop (s : AbilitySet) : bool := has_ability s Ability.Drop.
Definition has_store (s : AbilitySet) : bool := has_ability s Ability.Store.
Definition has_key (s : AbilitySet) : bool := has_ability s Ability.Key.

(** [!(ability as u8)] is the complement on eight bits. *)
Definition remove (s : AbilitySet) (ability : Ability) : AbilitySet :=
  Z.land s (Z.lxor u8_max (Ability.as_u8 ability)).

Definition intersect (s other : AbilitySet) : AbilitySet := Z.land s other.
Definition union (s other : AbilitySet) : AbilitySet := Z.lor s other.

Definition is_subset_bits (sub sup : Z) : bool := Z.land sub sup =? sub.
Definition is_subset (s other : AbilitySet) : bool := is_subset_bits s other.

Definition from_u8 (byte : Z) : option AbilitySet :=
  if is_subset_bits byte ALL then Some byte else None.
Definition into_u8 (s : AbilitySet) : Z := s.

Definition required_by (a : Ability) : AbilitySet :=
  match a with
  | Ability.Copy => bitor EMPTY Ability.Copy
  | Ability.Drop => bitor EMPTY Ability.Drop
  | Ability.Store => bitor (bitor EMPTY Ability.Store) Ability.Key
  | Ability.Key => EMPTY
  end.

(** ** The iterator: [idx] walks over the bits 1, 2, 4, 8. *)

Record AbilitySetIterator : Set := { set : AbilitySet; idx : Z }.

(** The [while self.idx <= 0x8] loop of [next]; [fuel] bounds the number of
    shifts of the eight-bit [idx]. *)
Fixpoint next_loop (fuel : nat) (it : AbilitySetIterator) :
    option Ability * AbilitySetIterator :=
  match fuel with
  | O => (None, it)
  | S fuel =>
    if it.(idx) <=? 8 then
      let next := Ability.from_u8 (Z.land it.(set) it.(idx)) in
      let it := {| set := it.(set); idx := Z.shiftl it.(idx) 1 mod 2 ^ 8 |} in
      match next with
      | Some a => (Some a, it)
      | None => next_loop fuel it
      end
    else (None, it)
  end.

Definition next (it : AbilitySetIterator) : option Ability * AbilitySetIterator :=
  next_loop 5 it.

Definition into_iter (s : AbilitySet) : AbilitySetIterator := {| set := s; idx := 1 |}.

(** The elements a [for] loop over the set visits. *)
Fixpoint collect (fuel : nat) (it : AbilitySetIterator) : list Ability :=
  match fuel with
  | O => []
  | S fuel =>
    match next it with
    | (Some a, it) => a :: collect fuel it
    | (None, _) => []
    end
  end.
Definition elements (s : AbilitySet) : list Ability := collect 5 (into_iter s).

(** ** [polymorphic_abilities] *)

Definition polymorphic_abilities (declared_abilities : AbilitySet)
    (declared_phantom_parameters : list bool) (type_arguments : list AbilitySet) :
    result StatusCode AbilitySet :=
  if negb (Nat.eqb (length declared_phantom_parameters) (length type_arguments)) then
    Err VERIFIER_INVARIANT_VIOLATION
  else
    let abs :=
      foldl intersect declared_abilities
        (map (fun '(ty_arg_abilities, _) =>
                foldl union EMPTY (map required_by (elements ty_arg_abilities)))
             (filter (fun '(_, is_phantom) => is_phantom = false)
                     (zip type_arguments declared_phantom_parameters))) in
    Ok abs.

End AbilitySet.

Abbreviation AbilitySet := AbilitySet.AbilitySet.

(** * Lemmas *)

Module AbilitySetFacts.
Import AbilitySet.

(** The bit of an ability. *)
Definition bit (a : Ability) : Z :=
  match a with
  | Ability.Copy => 0 | Ability.Drop => 1 | Ability.Store => 2 | Ability.Key => 3
  end.

Lemma as_u8_pow a : Ability.as_u8 a = 2 ^ bit a.
Proof. by destruct a. Qed.

Lemma bit_nonneg a : 0 <= bit a.
Proof. destruct a; simpl; lia. Qed.

Lemma bit_inj a b : bit a = bit b -> a = b.
Proof. by destruct a, b. Qed.

Lemma land_pow2_eqb s n : 0 <= n -> (Z.land (2 ^ n) s =? 2 ^ n) = Z.testbit s n.
Proof.
  intros Hn. apply Bool.eq_iff_eq_true. rewrite Z.eqb_eq. split; intros H.
  - apply (f_equal (fun z => Z.testbit z n)) in H.
    rewrite Z.land_spec, Z.pow2_bits_true in H by done. by rewrite andb_true_l in H.
  - apply Z.bits_inj'. intros m Hm. rewrite Z.land_spec.
    destruct (decide (m = n)) as [->|Hne]; [by rewrite H, andb_true_r|].
    by rewrite Z.pow2_bits_false.
Qed.

Lemma has_ability_testbit s a : has_ability s a = Z.testbit s (bit a).
Proof. unfold has_ability. rewrite as_u8_pow. apply land_pow2_eqb, bit_nonneg. Qed.

Lemma has_ability_empty a : has_ability EMPTY a = false.
Proof. by destruct a. Qed.

Lemma has_ability_union s t a : has_ability (union s t) a = has_ability s a || has_ability t a.
Proof. rewrite !has_ability_testbit. apply Z.lor_spec. Qed.

Lemma has_ability_intersect s t a :
  has_ability (intersect s t) a = has_ability s a && has_ability t a.
Proof. rewrite !has_ability_testbit. apply Z.land_spec. Qed.

Lemma has_ability_bitor s a b :
  has_ability (bitor s a) b = has_ability s b || bool_decide (a = b).
Proof.
  rewrite !has_ability_testbit. unfold bitor. rewrite Z.lor_spec, as_u8_pow. f_equal.
  case_bool_decide as E; [subst; apply Z.pow2_bits_true, bit_nonneg|].
  apply Z.pow2_bits_false. intros Hb. apply E, bit_inj; done.
Qed.

Lemma has_ability_remove s a b :
  has_ability (remove s a) b = has_ability s b && negb (bool_decide (a = b)).
Proof.
  rewrite !has_ability_testbit. unfold remove. rewrite Z.land_spec, Z.lxor_spec, as_u8_pow.
  f_equal. case_bool_decide as E.
  - subst. rewrite Z.pow2_bits_true by apply bit_nonneg. by destruct b.
  - rewrite Z.pow2_bits_false by (intros Hb; apply E, bit_inj; done). by destruct b.
Qed.

Lemma required_by_spec a x : has_ability (required_by a) x = bool_decide (Ability.requires x = a).
Proof. by destruct a, x. Qed.

(** A set is determined by, and decided on, its four low bits. *)
Definition valid (s : AbilitySet) : bool := is_subset s ALL.

Lemma valid_range s : 0 <= s -> valid s = true -> s <= 15.
Proof.
  unfold valid, is_subset, is_subset_bits. intros H0 H. apply Z.eqb_eq in H.
  change ALL with (Z.ones 4) in H. rewrite Z.land_ones in H by lia.
  pose proof (Z.mod_pos_bound s (2 ^ 4) ltac:(lia)). lia.
Qed.

Lemma valid_of_range s : 0 <= s <= 15 -> valid s = true.
Proof.
  intros H. unfold valid, is_subset, is_subset_bits. apply Z.eqb_eq.
  change ALL with (Z.ones 4). rewrite Z.land_ones by lia. apply Z.mod_small. lia.
Qed.

Lemma from_u8_pow n :
  0 <= n <= 3 -> exists a, Ability.from_u8 (2 ^ n) = Some a /\ bit a = n.
Proof.
  intros H. assert (n = 0 \/ n = 1 \/ n = 2 \/ n = 3) as [-> | [-> | [-> | ->]]] by lia;
    simpl; eauto.
Qed.

Lemma land_pow2 s n : 0 <= n -> Z.land s (2 ^ n) = if Z.testbit s n then 2 ^ n else 0.
Proof.
  intros Hn. apply Z.bits_inj'. intros m Hm. rewrite Z.land_spec.
  destruct (decide (m = n)) as [->|Hne].
  - rewrite Z.pow2_bits_true by done. rewrite andb_true_r.
    destruct (Z.testbit s n); [by rewrite Z.pow2_bits_true|by rewrite Z.bits_0].
  - rewrite (Z.pow2_bits_false n m) by done. rewrite andb_false_r.
    destruct (Z.testbit s n); [by rewrite Z.pow2_bits_false|by rewrite Z.bits_0].
Qed.

(** The iterator yields the abilities of the set, in bit order. *)
Lemma elements_filter s :
  elements s = filter (fun a => has_ability s a = true)
                 [Ability.Copy; Ability.Drop; Ability.Store; Ability.Key].
Proof.
  assert (E1 := land_pow2 s 0 ltac:(lia)). assert (E2 := land_pow2 s 1 ltac:(lia)).
  assert (E4 := land_pow2 s 2 ltac:(lia)). assert (E8 := land_pow2 s 3 ltac:(lia)).
  change (2 ^ 0) with 1 in E1. change (2 ^ 1) with 2 in E2.
  change (2 ^ 2) with 4 in E4. change (2 ^ 3) with 8 in E8.
  rewrite !filter_cons, filter_nil, !has_ability_testbit. unfold bit, elements, into_iter.
  destruct (Z.testbit s 0), (Z.testbit s 1), (Z.testbit s 2), (Z.testbit s 3);
    repeat (cbn -[Z.land Z.shiftl Z.modulo];
            try change (Z.shiftl 1 1 mod 2 ^ 8) with 2; try change (Z.shiftl 2 1 mod 2 ^ 8) with 4;
            try change (Z.shiftl 4 1 mod 2 ^ 8) with 8; try change (Z.shiftl 8 1 mod 2 ^ 8) with 16;
            rewrite ?E1, ?E2, ?E4, ?E8); reflexivity.
Qed.

Lemma elem_of_elements s a : a ∈ elements s <-> has_ability s a = true.
Proof.
  rewrite elements_filter, list_elem_of_filter. split; [tauto|]. intros; split; [done|].
  apply list_elem_of_In. destruct a; simpl; tauto.
Qed.

Lemma foldl_union_spec (l : list AbilitySet) s a :
  has_ability (foldl union s l) a = has_ability s a || existsb (fun t => has_ability t a) l.
Proof.
  revert s. induction l as [|t l IH]; intros s; simpl; [by rewrite orb_false_r|].
  by rewrite IH, has_ability_union, orb_assoc.
Qed.

Lemma foldl_intersect_spec (l : list AbilitySet) s a :
  has_ability (foldl intersect s l) a = has_ability s a && forallb (fun t => has_ability t a) l.
Proof.
  revert s. induction l as [|t l IH]; intros s; simpl; [by rewrite andb_true_r|].
  by rewrite IH, has_ability_intersect, andb_assoc.
Qed.

(** The set of abilities a type argument allows its container to keep. *)
Lemma required_by_set_spec t a :
  has_ability (foldl union EMPTY (map required_by (elements t))) a =
  has_ability t (Ability.requires a).
Proof.
  rewrite foldl_union_spec, has_ability_empty, orb_false_l.
  apply Bool.eq_iff_eq_true. rewrite existsb_exists. split.
  - intros (u & Hin & Hu). apply in_map_iff in Hin as (b & <- & Hb).
    rewrite required_by_spec in Hu. apply bool_decide_eq_true in Hu as ->.
    by apply elem_of_elements, list_elem_of_In.
  - intros Ht. exists (required_by (Ability.requires a)). split.
    + apply in_map, list_elem_of_In, elem_of_elements, Ht.
    + rewrite required_by_spec. by apply bool_decide_eq_true.
Qed.

(** What [polymorphic_abilities] grants. *)
Lemma polymorphic_abilities_spec declared phantoms args :
  match polymorphic_abilities declared phantoms args with
  | Ok r =>
      length phantoms = length args /\
      forall a, has_ability r a = true <->
        has_ability declared a = true /\
        forall i arg, args !! i = Some arg -> phantoms !! i = Some false ->
          has_ability arg (Ability.requires a) = true
  | Err e => e = VERIFIER_INVARIANT_VIOLATION /\ length phantoms <> length args
  | Panic | OutOfFuel => False
  end.
Proof.
  unfold polymorphic_abilities. destruct (Nat.eqb_spec (length phantoms) (length args)) as [El|El];
    simpl; [|done].
  split; [done|]. intros a. rewrite foldl_intersect_spec, andb_true_iff, forallb_forall.
  f_equiv. split.
  - intros H i arg Harg Hph. rewrite <- required_by_set_spec. apply H.
    apply in_map_iff. exists (arg, false). split; [done|].
    apply list_elem_of_In, list_elem_of_filter. split; [done|].
    apply list_elem_of_lookup. exists i. by apply lookup_zip_Some.
  - intros H t Ht. apply in_map_iff in Ht as ([arg ph] & <- & Hin).
    apply list_elem_of_In, list_elem_of_filter in Hin as [-> Hin].
    rewrite required_by_set_spec.
    apply list_elem_of_lookup in Hin as (i & [Hi1 Hi2]%lookup_zip_Some). eauto.
Qed.

End AbilitySetFacts.

Module AbilityTheorems.
Import AbilitySet AbilitySetFacts.

(** [AbilitySet::polymorphic_abilities] computes what its comment says: for
    equally long lists it succeeds, and the result has ability [a] exactly when
    the declared set has it and every non-phantom type argument has
    [a.requires()]; for lists of different lengths it returns the invariant
    violation. *)
Theorem polymorphic_abilities_correct declared phantoms args :
  match polymorphic_abilities declared phantoms args with
  | Ok r =>
      length phantoms = length args /\
      forall a, has_ability r a = true <->
        has_ability declared a = true /\
        forall i arg, args !! i = Some arg -> phantoms !! i = Some false ->
          has_ability arg (Ability.requires a) = true
  | Err e => e = VERIFIER_INVARIANT_VIOLATION /\ length phantoms <> length args
  | Panic | OutOfFuel => False
  end.
Proof.
  apply polymorphic_abilities_spec.
Qed.

End AbilityTheorems.
