(* ===== verification/Identifier.v ===== *)
(** Identifiers: move-core/types/src/identifier.rs.  A Rust [str] is its list of
    UTF-8 bytes, each a [Z] in the range of a [u8]. *)
From S2P Require Import Prelude.

(** * UTF-8

    [String::from_utf8] accepts exactly the well-formed byte sequences of the
    Unicode standard (table 3-7). *)
Definition utf8_cont (b : Z) : bool := (0x80 <=? b) && (b <=? 0xBF).

Fixpoint utf8_valid (bs : list Z) : bool :=
  match bs with
  | [] => true
  | b0 :: bs =>
    if (0 <=? b0) && (b0 <=? 0x7F) then utf8_valid bs
    else if (0xC2 <=? b0) && (b0 <=? 0xDF) then
      match bs with
      | b1 :: bs => utf8_cont b1 && utf8_valid bs
      | _ => false
      end
    else if (0xE0 <=? b0) && (b0 <=? 0xEF) then
      match bs with
      | b1 :: b2 :: bs =>
        utf8_cont b1 && utf8_cont b2
        && implb (b0 =? 0xE0) (0xA0 <=? b1)
        && implb (b0 =? 0xED) (b1 <=? 0x9F)
        && utf8_valid bs
      | _ => false
      end
    else if (0xF0 <=? b0) && (b0 <=? 0xF4) then
      match bs with
      | b1 :: b2 :: b3 :: bs =>
        utf8_cont b1 && utf8_cont b2 && utf8_cont b3
        && implb (b0 =? 0xF0) (0x90 <=? b1)
        && implb (b0 =? 0xF4) (b1 <=? 0x8F)
        && utf8_valid bs
      | _ => false
      end
    else false
  end.

Module Identifier.

Definition Identifier : Set := list Z.

Definition is_lower (c : Z) : bool := (97 <=? c) && (c <=? 122).
Definition is_upper (c : Z) : bool := (65 <=? c) && (c <=? 90).
Definition is_digit (c : Z) : bool := (48 <=? c) && (c <=? 57).
Definition underscore : Z := 95.

Definition is_valid_identifier_char (c : Z) : bool :=
  (c =? underscore) || is_lower c || is_upper c || is_digit c.

(** The [while i < b.len()] loop from [start_offset]. *)
Definition all_bytes_valid (b : list Z) (start_offset : nat) : bool :=
  forallb is_valid_identifier_char (drop start_offset b).

(** The bytes of ["<SELF>"]. *)
Definition self_bytes : list Z := [60; 83; 69; 76; 70; 62].

Definition is_valid (b : list Z) : bool :=
  if bool_decide (b = self_bytes) then true
  else
    match b with
    | c :: _ =>
      if is_lower c || is_upper c then all_bytes_valid b 1
      else if (c =? underscore) && Nat.ltb 1 (length b) then all_bytes_valid b 1
      else false
    | [] => false
    end.

Inductive IdentifierError : Set := InvalidUtf8 | InvalidIdentifier.

Definition new (s : list Z) : result IdentifierError Identifier :=
  if is_valid s then Ok s else Err InvalidIdentifier.

Definition from_utf8 (vec : list Z) : result IdentifierError Identifier :=
  s ← (if utf8_valid vec then Ok vec else Err InvalidUtf8); new s.

Definition is_self (i : Identifier) : bool := bool_decide (i = self_bytes).

End Identifier.

Abbreviation Identifier := Identifier.Identifier.

Module IdentifierFacts.
Import Identifier.

Lemma ident_char_ascii c : is_valid_identifier_char c = true -> 0 <= c <= 0x7F.
Proof.
  unfold is_valid_identifier_char, is_lower, is_upper, is_digit, underscore.
  rewrite !orb_true_iff, !andb_true_iff, !Z.leb_le, Z.eqb_eq. lia.
Qed.

Lemma is_valid_ascii b : is_valid b = true -> Forall (fun c => 0 <= c <= 0x7F) b.
Proof.
  unfold is_valid, all_bytes_valid. case_bool_decide as E.
  { intros _. subst b. unfold self_bytes. repeat constructor; lia. }
  destruct b as [|c b]; [done|]. cbn [drop]. intros H. rewrite drop_0 in H.
  assert (is_valid_identifier_char c = true /\ forallb is_valid_identifier_char b = true)
    as [Hc Hb].
  { unfold is_valid_identifier_char.
    destruct (is_lower c), (is_upper c), (c =? underscore), (Nat.ltb 1 _);
      try discriminate H; by rewrite ?orb_true_r. }
  constructor; [by apply ident_char_ascii|]. apply Forall_forall. intros x Hx.
  apply ident_char_ascii. rewrite forallb_forall in Hb. by apply Hb.
Qed.

Lemma ascii_utf8 b : Forall (fun c => 0 <= c <= 0x7F) b -> utf8_valid b = true.
Proof.
  induction 1 as [|c b Hc Hb IH]; [done|]. simpl.
  destruct (Z.leb_spec 0 c); [|lia]. destruct (Z.leb_spec c 0x7F); [done|lia].
Qed.

(** [from_utf8] accepts exactly the valid identifiers and returns them
    unchanged. *)
Lemma from_utf8_ok b : is_valid b = true -> from_utf8 b = Ok b.
Proof.
  intros H. unfold from_utf8, new. rewrite ascii_utf8 by (by apply is_valid_ascii).
  simpl. by rewrite H.
Qed.

Lemma from_utf8_inv b i : from_utf8 b = Ok i -> i = b /\ is_valid b = true.
Proof.
  unfold from_utf8, new. destruct (utf8_valid b); simpl; [|done].
  destruct (is_valid b); naive_solver.
Qed.

Lemma is_valid_nonempty b : is_valid b = true -> b <> [].
Proof. by intros H ->. Qed.

End IdentifierFacts.
