(* ===== verification/FileFormat.v ===== *)
(** The in-memory binary format of move-binary-format/src/file_format.rs:
    indices, handles, definitions, signature tokens, bytecode, compiled modules
    and scripts, with their methods.  The index newtypes of [define_index!] are
    erased to their [u16]; each [Record] sits in a [Module] of its name so that
    its fields keep the source's names. *)
From S2P Require Import Prelude StatusCode Abilities Identifier.

(** * Indices *)

Definition TableIndex : Set := Z.
Definition ModuleHandleIndex : Set := TableIndex.
Definition StructHandleIndex : Set := TableIndex.
Definition FunctionHandleIndex : Set := TableIndex.
Definition FieldHandleIndex : Set := TableIndex.
Definition StructDefInstantiationIndex : Set := TableIndex.
Definition FunctionInstantiationIndex : Set := TableIndex.
Definition FieldInstantiationIndex : Set := TableIndex.
Definition IdentifierIndex : Set := TableIndex.
Definition AddressIdentifierIndex : Set := TableIndex.
Definition ConstantPoolIndex : Set := TableIndex.
Definition SignatureIndex : Set := TableIndex.
Definition StructDefinitionIndex : Set := TableIndex.
Definition FunctionDefinitionIndex : Set := TableIndex.
Definition LocalIndex : Set := Z.
Definition MemberCount : Set := Z.
Definition CodeOffset : Set := Z.
Definition TypeParameterIndex : Set := Z.

(** [ModuleIndex::into_index]: the index as a [usize]. *)
Definition into_index (idx : TableIndex) : nat := Z.to_nat idx.

Inductive IndexKind : Set :=
| ModuleHandleKind | StructHandleKind | FunctionHandleKind | FieldHandleKind
| FriendDeclarationKind | StructDefInstantiationKind | FunctionInstantiationKind
| FieldInstantiationKind | StructDefinitionKind | FunctionDefinitionKind
| FieldDefinitionKind | SignatureKind | IdentifierKind | AddressIdentifierKind
| ConstantPoolKind | LocalPoolKind | CodeDefinitionKind | TypeParameterKind
| MemberCountKind.

(** * Account addresses: [AccountAddress::LENGTH] bytes (default features). *)

Definition AccountAddress : Set := list Z.
Definition AccountAddress_LENGTH : nat := 16.
Definition AccountAddress_ZERO : AccountAddress := replicate AccountAddress_LENGTH 0.

(** * Handles *)

Module ModuleHandle.
Record ModuleHandle : Set := mk {
  address : AddressIdentifierIndex;
  name : IdentifierIndex }.
End ModuleHandle.
Abbreviation ModuleHandle := ModuleHandle.ModuleHandle.

Module StructTypeParameter.
Record StructTypeParameter : Set := mk {
  constraints : AbilitySet;
  is_phantom : bool }.
End StructTypeParameter.
Abbreviation StructTypeParameter := StructTypeParameter.StructTypeParameter.

Module StructHandle.
Record StructHandle : Set := mk {
  module : ModuleHandleIndex;
  name : IdentifierIndex;
  abilities : AbilitySet;
  type_parameters : list StructTypeParameter }.

Definition type_param_constraints (sh : StructHandle) : list AbilitySet :=
  map StructTypeParameter.constraints sh.(type_parameters).
End StructHandle.
Abbreviation StructHandle := StructHandle.StructHandle.

Module FunctionHandle.
Record FunctionHandle : Set := mk {
  module : ModuleHandleIndex;
  name : IdentifierIndex;
  parameters : SignatureIndex;
  return_ : SignatureIndex;
  type_parameters : list AbilitySet }.
End FunctionHandle.
Abbreviation FunctionHandle := FunctionHandle.FunctionHandle.

Module FieldHandle.
Record FieldHandle : Set := mk {
  owner : StructDefinitionIndex;
  field : MemberCount }.
End FieldHandle.
Abbreviation FieldHandle := FieldHandle.FieldHandle.

(** * Instantiations *)

Module StructDefInstantiation.
Record StructDefInstantiation : Set := mk {
  def : StructDefinitionIndex;
  type_parameters : SignatureIndex }.
End StructDefInstantiation.
Abbreviation StructDefInstantiation := StructDefInstantiation.StructDefInstantiation.

Module FunctionInstantiation.
Record FunctionInstantiation : Set := mk {
  handle : FunctionHandleIndex;
  type_parameters : SignatureIndex }.
End FunctionInstantiation.
Abbreviation FunctionInstantiation := FunctionInstantiation.FunctionInstantiation.

Module FieldInstantiation.
Record FieldInstantiation : Set := mk {
  handle : FieldHandleIndex;
  type_parameters : SignatureIndex }.
End FieldInstantiation.
Abbreviation FieldInstantiation := FieldInstantiation.FieldInstantiation.

(** * Signature tokens *)

Inductive SignatureTokenKind : Set :=
| ValueToken | ReferenceToken | MutableReferenceToken.

Module SignatureToken.

Inductive SignatureToken : Set :=
| Bool
| U8
| U64
| U128
| Address
| Signer
| Vector (tok : SignatureToken)
| Struct (idx : StructHandleIndex)
| StructInstantiation (idx : StructHandleIndex) (toks : list SignatureToken)
| Reference (tok : SignatureToken)
| MutableReference (tok : SignatureToken)
| TypeParameter (idx : TypeParameterIndex).

(** The induction principle with a hypothesis for every type argument. *)
Section induction.
Variable P : SignatureToken -> Prop.
Hypothesis HBool : P Bool.
Hypothesis HU8 : P U8.
Hypothesis HU64 : P U64.
Hypothesis HU128 : P U128.
Hypothesis HAddress : P Address.
Hypothesis HSigner : P Signer.
Hypothesis HVector : forall tok, P tok -> P (Vector tok).
Hypothesis HStruct : forall idx, P (Struct idx).
Hypothesis HInst : forall idx toks, Forall P toks -> P (StructInstantiation idx toks).
Hypothesis HRef : forall tok, P tok -> P (Reference tok).
Hypothesis HMut : forall tok, P tok -> P (MutableReference tok).
Hypothesis HParam : forall idx, P (TypeParameter idx).

Fixpoint token_ind (t : SignatureToken) : P t :=
  match t with
  | Bool => HBool
  | U8 => HU8
  | U64 => HU64
  | U128 => HU128
  | Address => HAddress
  | Signer => HSigner
  | Vector tok => HVector tok (token_ind tok)
  | Struct idx => HStruct idx
  | StructInstantiation idx toks =>
    HInst idx toks
      ((fix go (l : list SignatureToken) : Forall P l :=
          match l with
          | [] => List.Forall_nil P
          | t :: l => List.Forall_cons P t l (token_ind t) (go l)
          end) toks)
  | Reference tok => HRef tok (token_ind tok)
  | MutableReference tok => HMut tok (token_ind tok)
  | TypeParameter idx => HParam idx
  end.
End induction.

#[global] Instance SignatureToken_eq_dec : EqDecision SignatureToken.
Proof.
  unfold EqDecision, Decision. fix go 1. intros x y. decide equality; try apply Z.eq_dec.
  apply (list_eq_dec go).
Defined.

(** The number of nodes of a token. *)
Fixpoint size (t : SignatureToken) : nat :=
  match t with
  | Vector tok | Reference tok | MutableReference tok => S (size tok)
  | StructInstantiation _ toks => S (sum_list_with size toks)
  | _ => 1
  end.

(** The number of nodes on the longest path from the root. *)
Fixpoint depth (t : SignatureToken) : nat :=
  match t with
  | Vector tok | Reference tok | MutableReference tok => S (depth tok)
  | StructInstantiation _ toks => S (max_list_with depth toks)
  | _ => 1
  end.

(** ** Preorder traversal with an explicit stack

    The head of the list is the top of the iterator's stack, so pushing
    [inner_toks.iter().rev()] is consing [inner_toks] in order. *)

Definition next (stack : list SignatureToken) :
    option (SignatureToken * list SignatureToken) :=
  match stack with
  | tok :: stack =>
    let stack :=
      match tok with
      | Reference inner_tok | MutableReference inner_tok | Vector inner_tok =>
        inner_tok :: stack
      | StructInstantiation _ inner_toks => inner_toks ++ stack
      | Signer | Bool | Address | U8 | U64 | U128 | Struct _ | TypeParameter _ => stack
      end in
    Some (tok, stack)
  | [] => None
  end.

Definition next_with_depth (stack : list (SignatureToken * Z)) :
    option ((SignatureToken * Z) * list (SignatureToken * Z)) :=
  match stack with
  | (tok, depth) :: stack =>
    let stack :=
      match tok with
      | Reference inner_tok | MutableReference inner_tok | Vector inner_tok =>
        (inner_tok, depth + 1) :: stack
      | StructInstantiation _ inner_toks =>
        map (fun tok => (tok, depth + 1)) inner_toks ++ stack
      | Signer | Bool | Address | U8 | U64 | U128 | Struct _ | TypeParameter _ => stack
      end in
    Some ((tok, depth), stack)
  | [] => None
  end.

(** The items a [for] loop over an iterator visits. *)
Fixpoint iterate {S A} (fuel : nat) (next : S -> option (A * S)) (s : S) : list A :=
  match fuel with
  | O => []
  | S fuel =>
    match next s with
    | Some (a, s) => a :: iterate fuel next s
    | None => []
    end
  end.

Definition preorder_traversal (t : SignatureToken) : list SignatureToken :=
  iterate (size t) next [t].

Definition preorder_traversal_with_depth (t : SignatureToken) : list (SignatureToken * Z) :=
  iterate (size t) next_with_depth [(t, 1)].

(** ** Classification *)

Definition signature_token_kind (t : SignatureToken) : SignatureTokenKind :=
  match t with
  | Reference _ => ReferenceToken
  | MutableReference _ => MutableReferenceToken
  | Bool | U8 | U64 | U128 | Address | Signer | Struct _ | StructInstantiation _ _
  | Vector _ => ValueToken
  | TypeParameter _ => ValueToken
  end.

Definition is_integer (t : SignatureToken) : bool :=
  match t with
  | U8 | U64 | U128 => true
  | Bool | Address | Signer | Vector _ | Struct _ | StructInstantiation _ _
  | Reference _ | MutableReference _ | TypeParameter _ => false
  end.

Definition is_reference (t : SignatureToken) : bool :=
  match t with Reference _ | MutableReference _ => true | _ => false end.

Definition is_mutable_reference (t : SignatureToken) : bool :=
  match t with MutableReference _ => true | _ => false end.

Definition is_signer (t : SignatureToken) : bool :=
  match t with Signer => true | _ => false end.

Fixpoint is_valid_for_constant (t : SignatureToken) : bool :=
  match t with
  | Bool | U8 | U64 | U128 | Address => true
  | Vector inner => is_valid_for_constant inner
  | Signer | Struct _ | StructInstantiation _ _ | Reference _ | MutableReference _
  | TypeParameter _ => false
  end.

End SignatureToken.
Abbreviation SignatureToken := SignatureToken.SignatureToken.

Definition Signature : Set := list SignatureToken.
Definition TypeSignature : Set := SignatureToken.

Module Constant.
Record Constant : Set := mk { type_ : SignatureToken; data : list Z }.
End Constant.
Abbreviation Constant := Constant.Constant.

(** * Bytecode *)

Module Bytecode.

Inductive Bytecode : Set :=
| Pop
| Ret
| BrTrue (a : CodeOffset)
| BrFalse (a : CodeOffset)
| Branch (a : CodeOffset)
| LdU8 (a : Z)
| LdU64 (a : Z)
| LdU128 (a : Z)
| CastU8
| CastU64
| CastU128
| LdConst (a : ConstantPoolIndex)
| LdTrue
| LdFalse
| CopyLoc (a : LocalIndex)
| MoveLoc (a : LocalIndex)
| StLoc (a : LocalIndex)
| Call (a : FunctionHandleIndex)
| CallGeneric (a : FunctionInstantiationIndex)
| Pack (a : StructDefinitionIndex)
| PackGeneric (a : StructDefInstantiationIndex)
| Unpack (a : StructDefinitionIndex)
| UnpackGeneric (a : StructDefInstantiationIndex)
| ReadRef
| WriteRef
| FreezeRef
| MutBorrowLoc (a : LocalIndex)
| ImmBorrowLoc (a : LocalIndex)
| MutBorrowField (a : FieldHandleIndex)
| MutBorrowFieldGeneric (a : FieldInstantiationIndex)
| ImmBorrowField (a : FieldHandleIndex)
| ImmBorrowFieldGeneric (a : FieldInstantiationIndex)
| MutBorrowGlobal (a : StructDefinitionIndex)
| MutBorrowGlobalGeneric (a : StructDefInstantiationIndex)
| ImmBorrowGlobal (a : StructDefinitionIndex)
| ImmBorrowGlobalGeneric (a : StructDefInstantiationIndex)
| Add
| Sub
| Mul
| Mod
| Div
| BitOr
| BitAnd
| Xor
| Or
| And
| Not
| Eq
| Neq
| Lt
| Gt
| Le
| Ge
| Abort
| Nop
| Exists (a : StructDefinitionIndex)
| ExistsGeneric (a : StructDefInstantiationIndex)
| MoveFrom (a : StructDefinitionIndex)
| MoveFromGeneric (a : StructDefInstantiationIndex)
| MoveTo (a : StructDefinitionIndex)
| MoveToGeneric (a : StructDefInstantiationIndex)
| Shl
| Shr
| VecPack (a : SignatureIndex) (n : Z)
| VecLen (a : SignatureIndex)
| VecImmBorrow (a : SignatureIndex)
| VecMutBorrow (a : SignatureIndex)
| VecPushBack (a : SignatureIndex)
| VecPopBack (a : SignatureIndex)
| VecUnpack (a : SignatureIndex) (n : Z)
| VecSwap (a : SignatureIndex).

Definition is_unconditional_branch (b : Bytecode) : bool :=
  match b with Ret | Abort | Branch _ => true | _ => false end.

Definition is_conditional_branch (b : Bytecode) : bool :=
  match b with BrFalse _ | BrTrue _ => true | _ => false end.

Definition is_branch (b : Bytecode) : bool :=
  is_conditional_branch b || is_unconditional_branch b.

Definition offset (b : Bytecode) : option CodeOffset :=
  match b with
  | BrFalse offset | BrTrue offset | Branch offset => Some offset
  | _ => None
  end.

(** [get_successors]: the [assert!] on the program counter is a panic, and
    [code.len() as CodeOffset] keeps the low 16 bits of the length. *)
Definition get_successors (pc : CodeOffset) (code : list Bytecode) :
    result StatusCode (list CodeOffset) :=
  if (pc <=? u16_max - 2) && (pc <? zlen code) then
    bytecode ← unwrap (code !! Z.to_nat pc);
    let v := match offset bytecode with Some offset => [offset] | None => [] end in
    let next_pc := pc + 1 in
    if zlen code mod 2 ^ 16 <=? next_pc then Ok v
    else
      let v :=
        if negb (is_unconditional_branch bytecode) && negb (bool_decide (next_pc ∈ v))
        then v ++ [pc + 1] else v in
      Ok (match v with
          | v0 :: v1 :: v' => if v1 <? v0 then v1 :: v0 :: v' else v
          | _ => v
          end)
  else Panic.

End Bytecode.
Abbreviation Bytecode := Bytecode.Bytecode.

Module CodeUnit.
Record CodeUnit : Set := mk { locals : SignatureIndex; code : list Bytecode }.
End CodeUnit.
Abbreviation CodeUnit := CodeUnit.CodeUnit.

(** * Definitions *)

Module FieldDefinition.
Record FieldDefinition : Set := mk {
  name : IdentifierIndex;
  signature : TypeSignature }.
End FieldDefinition.
Abbreviation FieldDefinition := FieldDefinition.FieldDefinition.

Inductive StructFieldInformation : Set :=
| Native
| Declared (fields : list FieldDefinition).

Module StructDefinition.
Record StructDefinition : Set := mk {
  struct_handle : StructHandleIndex;
  field_information : StructFieldInformation }.

Definition declared_field_count (sd : StructDefinition) : result StatusCode MemberCount :=
  match sd.(field_information) with
  | Native => Err LINKER_ERROR
  | Declared fields => Ok (zlen fields mod 2 ^ 16)
  end.

Definition field (sd : StructDefinition) (offset : nat) : option FieldDefinition :=
  match sd.(field_information) with
  | Native => None
  | Declared fields => fields !! offset
  end.
End StructDefinition.
Abbreviation StructDefinition := StructDefinition.StructDefinition.

Module Visibility.
Inductive Visibility : Set := Private | Public | Script | Friend.

Definition as_u8 (v : Visibility) : Z :=
  match v with Private => 0 | Public => 1 | Script => 2 | Friend => 3 end.

Definition try_from (v : Z) : option Visibility :=
  if v =? as_u8 Private then Some Private
  else if v =? as_u8 Public then Some Public
  else if v =? as_u8 Script then Some Script
  else if v =? as_u8 Friend then Some Friend
  else None.
End Visibility.
Abbreviation Visibility := Visibility.Visibility.

Module FunctionDefinition.
Record FunctionDefinition : Set := mk {
  function : FunctionHandleIndex;
  visibility : Visibility;
  acquires_global_resources : list StructDefinitionIndex;
  code : option CodeUnit }.

Definition is_native (fd : FunctionDefinition) : bool :=
  match fd.(code) with None => true | Some _ => false end.

Definition NATIVE : Z := 2.
End FunctionDefinition.
Abbreviation FunctionDefinition := FunctionDefinition.FunctionDefinition.

(** * Compiled modules and scripts *)

Module CompiledScript.
Record CompiledScript : Set := mk {
  version : Z;
  module_handles : list ModuleHandle;
  struct_handles : list StructHandle;
  function_handles : list FunctionHandle;
  function_instantiations : list FunctionInstantiation;
  signatures : list Signature;
  identifiers : list Identifier;
  address_identifiers : list AccountAddress;
  constant_pool : list Constant;
  type_parameters : list AbilitySet;
  parameters : SignatureIndex;
  code : CodeUnit }.
End CompiledScript.
Abbreviation CompiledScript := CompiledScript.CompiledScript.

Module CompiledModule.
Record CompiledModule : Set := mk {
  version : Z;
  self_module_handle_idx : ModuleHandleIndex;
  module_handles : list ModuleHandle;
  struct_handles : list StructHandle;
  function_handles : list FunctionHandle;
  field_handles : list FieldHandle;
  friend_decls : list ModuleHandle;
  struct_def_instantiations : list StructDefInstantiation;
  function_instantiations : list FunctionInstantiation;
  field_instantiations : list FieldInstantiation;
  signatures : list Signature;
  identifiers : list Identifier;
  address_identifiers : list AccountAddress;
  constant_pool : list Constant;
  struct_defs : list StructDefinition;
  function_defs : list FunctionDefinition }.

(** [kind_count]; the kinds that have no table are [unreachable!]. *)
Definition kind_count (m : CompiledModule) (kind : IndexKind) : result StatusCode nat :=
  match kind with
  | ModuleHandleKind => Ok (length m.(module_handles))
  | StructHandleKind => Ok (length m.(struct_handles))
  | FunctionHandleKind => Ok (length m.(function_handles))
  | FieldHandleKind => Ok (length m.(field_handles))
  | FriendDeclarationKind => Ok (length m.(friend_decls))
  | StructDefInstantiationKind => Ok (length m.(struct_def_instantiations))
  | FunctionInstantiationKind => Ok (length m.(function_instantiations))
  | FieldInstantiationKind => Ok (length m.(field_instantiations))
  | StructDefinitionKind => Ok (length m.(struct_defs))
  | FunctionDefinitionKind => Ok (length m.(function_defs))
  | SignatureKind => Ok (length m.(signatures))
  | IdentifierKind => Ok (length m.(identifiers))
  | AddressIdentifierKind => Ok (length m.(address_identifiers))
  | ConstantPoolKind => Ok (length m.(constant_pool))
  | LocalPoolKind | CodeDefinitionKind | FieldDefinitionKind | TypeParameterKind
  | MemberCountKind => Panic
  end.
End CompiledModule.
Abbreviation CompiledModule := CompiledModule.CompiledModule.

(** The version number of the latest format, [file_format_common::VERSION_MAX]. *)
Definition VERSION_1 : Z := 1.
Definition VERSION_2 : Z := 2.
Definition VERSION_3 : Z := 3.
Definition VERSION_4 : Z := 4.
Definition VERSION_5 : Z := 5.
Definition VERSION_MAX : Z := VERSION_5.

(** * The sample modules and scripts of the source *)

Definition self_module_name : Identifier := Identifier.self_bytes.

Definition empty_module : CompiledModule :=
  {| CompiledModule.version := VERSION_MAX;
     CompiledModule.module_handles :=
       [{| ModuleHandle.address := 0; ModuleHandle.name := 0 |}];
     CompiledModule.self_module_handle_idx := 0;
     CompiledModule.identifiers := [self_module_name];
     CompiledModule.address_identifiers := [AccountAddress_ZERO];
     CompiledModule.constant_pool := [];
     CompiledModule.function_defs := [];
     CompiledModule.struct_defs := [];
     CompiledModule.struct_handles := [];
     CompiledModule.function_handles := [];
     CompiledModule.field_handles := [];
     CompiledModule.friend_decls := [];
     CompiledModule.struct_def_instantiations := [];
     CompiledModule.function_instantiations := [];
     CompiledModule.field_instantiations := [];
     CompiledModule.signatures := [[]] |}.

(** [basic_test_module]: a struct [Bar { x: u64 }] and a function [foo()]. *)
Definition basic_test_module : CompiledModule :=
  {| CompiledModule.version := VERSION_MAX;
     CompiledModule.module_handles :=
       [{| ModuleHandle.address := 0; ModuleHandle.name := 0 |}];
     CompiledModule.self_module_handle_idx := 0;
     CompiledModule.identifiers :=
       [self_module_name; [102; 111; 111]; [66; 97; 114]; [120]];
     CompiledModule.address_identifiers := [AccountAddress_ZERO];
     CompiledModule.constant_pool := [];
     CompiledModule.function_defs :=
       [{| FunctionDefinition.function := 0;
           FunctionDefinition.visibility := Visibility.Private;
           FunctionDefinition.acquires_global_resources := [];
           FunctionDefinition.code :=
             Some {| CodeUnit.locals := 0; CodeUnit.code := [Bytecode.Ret] |} |}];
     CompiledModule.struct_defs :=
       [{| StructDefinition.struct_handle := 0;
           StructDefinition.field_information :=
             Declared [{| FieldDefinition.name := 3;
                          FieldDefinition.signature := SignatureToken.U64 |}] |}];
     CompiledModule.struct_handles :=
       [{| StructHandle.module := 0; StructHandle.name := 2;
           StructHandle.abilities := AbilitySet.EMPTY;
           StructHandle.type_parameters := [] |}];
     CompiledModule.function_handles :=
       [{| FunctionHandle.module := 0; FunctionHandle.name := 1;
           FunctionHandle.parameters := 0; FunctionHandle.return_ := 0;
           FunctionHandle.type_parameters := [] |}];
     CompiledModule.field_handles := [];
     CompiledModule.friend_decls := [];
     CompiledModule.struct_def_instantiations := [];
     CompiledModule.function_instantiations := [];
     CompiledModule.field_instantiations := [];
     CompiledModule.signatures := [[]] |}.

Definition empty_script : CompiledScript :=
  {| CompiledScript.version := VERSION_MAX;
     CompiledScript.module_handles := [];
     CompiledScript.struct_handles := [];
     CompiledScript.function_handles := [];
     CompiledScript.function_instantiations := [];
     CompiledScript.signatures := [[]];
     CompiledScript.identifiers := [];
     CompiledScript.address_identifiers := [];
     CompiledScript.constant_pool := [];
     CompiledScript.type_parameters := [];
     CompiledScript.parameters := 0;
     CompiledScript.code :=
       {| CodeUnit.locals := 0; CodeUnit.code := [Bytecode.Ret] |} |}.
