(* ===== verification/BinaryCommon.v ===== *)
(** Constants and primitive readers and writers of the binary format:
    move-binary-format/src/file_format_common.rs.  [BinaryData] is the list of
    bytes written so far; a cursor keeps its position and the bytes it has not
    read yet. *)
From S2P Require Import Prelude StatusCode FileFormat.

(** * Constants *)

Definition DIEM_MAGIC_SIZE : nat := 4.
Definition DIEM_MAGIC : list Z := [0xA1; 0x1C; 0xEB; 0x0B].

Definition TABLE_COUNT_MAX : Z := 255.
Definition TABLE_OFFSET_MAX : Z := 0xffffffff.
Definition TABLE_SIZE_MAX : Z := 0xffffffff.
Definition TABLE_CONTENT_SIZE_MAX : Z := 0xffffffff.
Definition TABLE_INDEX_MAX : Z := 65535.
Definition SIGNATURE_INDEX_MAX : Z := TABLE_INDEX_MAX.
Definition ADDRESS_INDEX_MAX : Z := TABLE_INDEX_MAX.
Definition IDENTIFIER_INDEX_MAX : Z := TABLE_INDEX_MAX.
Definition MODULE_HANDLE_INDEX_MAX : Z := TABLE_INDEX_MAX.
Definition STRUCT_HANDLE_INDEX_MAX : Z := TABLE_INDEX_MAX.
Definition STRUCT_DEF_INDEX_MAX : Z := TABLE_INDEX_MAX.
Definition FUNCTION_HANDLE_INDEX_MAX : Z := TABLE_INDEX_MAX.
Definition FUNCTION_INST_INDEX_MAX : Z := TABLE_INDEX_MAX.
Definition FIELD_HANDLE_INDEX_MAX : Z := TABLE_INDEX_MAX.
Definition FIELD_INST_INDEX_MAX : Z := TABLE_INDEX_MAX.
Definition STRUCT_DEF_INST_INDEX_MAX : Z := TABLE_INDEX_MAX.
Definition CONSTANT_INDEX_MAX : Z := TABLE_INDEX_MAX.
Definition BYTECODE_COUNT_MAX : Z := 65535.
Definition BYTECODE_INDEX_MAX : Z := 65535.
Definition LOCAL_INDEX_MAX : Z := 255.
Definition IDENTIFIER_SIZE_MAX : Z := 65535.
Definition CONSTANT_SIZE_MAX : Z := 65535.
Definition SIGNATURE_SIZE_MAX : Z := 255.
Definition ACQUIRES_COUNT_MAX : Z := 255.
Definition FIELD_COUNT_MAX : Z := 255.
Definition FIELD_OFFSET_MAX : Z := 255.
Definition TYPE_PARAMETER_COUNT_MAX : Z := 255.
Definition TYPE_PARAMETER_INDEX_MAX : Z := 65536.
Definition SIGNATURE_TOKEN_DEPTH_MAX : Z := 256.

Module TableType.
Inductive TableType : Set :=
| MODULE_HANDLES | STRUCT_HANDLES | FUNCTION_HANDLES | FUNCTION_INST | SIGNATURES
| CONSTANT_POOL | IDENTIFIERS | ADDRESS_IDENTIFIERS | STRUCT_DEFS | STRUCT_DEF_INST
| FUNCTION_DEFS | FIELD_HANDLE | FIELD_INST | FRIEND_DECLS.

#[global] Instance TableType_eq_dec : EqDecision TableType.
Proof. solve_decision. Defined.

Definition as_u8 (t : TableType) : Z :=
  match t with
  | MODULE_HANDLES => 0x1 | STRUCT_HANDLES => 0x2 | FUNCTION_HANDLES => 0x3
  | FUNCTION_INST => 0x4 | SIGNATURES => 0x5 | CONSTANT_POOL => 0x6
  | IDENTIFIERS => 0x7 | ADDRESS_IDENTIFIERS => 0x8 | STRUCT_DEFS => 0xA
  | STRUCT_DEF_INST => 0xB | FUNCTION_DEFS => 0xC | FIELD_HANDLE => 0xD
  | FIELD_INST => 0xE | FRIEND_DECLS => 0xF
  end.
End TableType.
Abbreviation TableType := TableType.TableType.

Module SerializedType.
Inductive SerializedType : Set :=
| BOOL | U8 | U64 | U128 | ADDRESS | REFERENCE | MUTABLE_REFERENCE | STRUCT
| TYPE_PARAMETER | VECTOR | STRUCT_INST | SIGNER.

Definition as_u8 (t : SerializedType) : Z :=
  match t with
  | BOOL => 0x1 | U8 => 0x2 | U64 => 0x3 | U128 => 0x4 | ADDRESS => 0x5
  | REFERENCE => 0x6 | MUTABLE_REFERENCE => 0x7 | STRUCT => 0x8
  | TYPE_PARAMETER => 0x9 | VECTOR => 0xA | STRUCT_INST => 0xB | SIGNER => 0xC
  end.
End SerializedType.
Abbreviation SerializedType := SerializedType.SerializedType.

Module SerializedNativeStructFlag.
Inductive SerializedNativeStructFlag : Set := NATIVE | DECLARED.
Definition as_u8 (f : SerializedNativeStructFlag) : Z :=
  match f with NATIVE => 0x1 | DECLARED => 0x2 end.
End SerializedNativeStructFlag.
Abbreviation SerializedNativeStructFlag := SerializedNativeStructFlag.SerializedNativeStructFlag.

Module Opcodes.
Inductive Opcodes : Set :=
| POP | RET | BR_TRUE | BR_FALSE | BRANCH | LD_U64 | LD_CONST | LD_TRUE | LD_FALSE
| COPY_LOC | MOVE_LOC | ST_LOC | MUT_BORROW_LOC | IMM_BORROW_LOC | MUT_BORROW_FIELD
| IMM_BORROW_FIELD | CALL | PACK | UNPACK | READ_REF | WRITE_REF | ADD | SUB | MUL | MOD
| DIV | BIT_OR | BIT_AND | XOR | OR | AND | NOT | EQ | NEQ | LT | GT | LE | GE | ABORT
| NOP | EXISTS | MUT_BORROW_GLOBAL | IMM_BORROW_GLOBAL | MOVE_FROM | MOVE_TO
| FREEZE_REF | SHL | SHR | LD_U8 | LD_U128 | CAST_U8 | CAST_U64 | CAST_U128
| MUT_BORROW_FIELD_GENERIC | IMM_BORROW_FIELD_GENERIC | CALL_GENERIC | PACK_GENERIC
| UNPACK_GENERIC | EXISTS_GENERIC | MUT_BORROW_GLOBAL_GENERIC
| IMM_BORROW_GLOBAL_GENERIC | MOVE_FROM_GENERIC | MOVE_TO_GENERIC | VEC_PACK | VEC_LEN
| VEC_IMM_BORROW | VEC_MUT_BORROW | VEC_PUSH_BACK | VEC_POP_BACK | VEC_UNPACK
| VEC_SWAP.

Definition as_u8 (o : Opcodes) : Z :=
  match o with
  | POP => 0x01 | RET => 0x02 | BR_TRUE => 0x03 | BR_FALSE => 0x04 | BRANCH => 0x05
  | LD_U64 => 0x06 | LD_CONST => 0x07 | LD_TRUE => 0x08 | LD_FALSE => 0x09
  | COPY_LOC => 0x0A | MOVE_LOC => 0x0B | ST_LOC => 0x0C | MUT_BORROW_LOC => 0x0D
  | IMM_BORROW_LOC => 0x0E | MUT_BORROW_FIELD => 0x0F | IMM_BORROW_FIELD => 0x10
  | CALL => 0x11 | PACK => 0x12 | UNPACK => 0x13 | READ_REF => 0x14 | WRITE_REF => 0x15
  | ADD => 0x16 | SUB => 0x17 | MUL => 0x18 | MOD => 0x19 | DIV => 0x1A | BIT_OR => 0x1B
  | BIT_AND => 0x1C | XOR => 0x1D | OR => 0x1E | AND => 0x1F | NOT => 0x20 | EQ => 0x21
  | NEQ => 0x22 | LT => 0x23 | GT => 0x24 | LE => 0x25 | GE => 0x26 | ABORT => 0x27
  | NOP => 0x28 | EXISTS => 0x29 | MUT_BORROW_GLOBAL => 0x2A | IMM_BORROW_GLOBAL => 0x2B
  | MOVE_FROM => 0x2C | MOVE_TO => 0x2D | FREEZE_REF => 0x2E | SHL => 0x2F | SHR => 0x30
  | LD_U8 => 0x31 | LD_U128 => 0x32 | CAST_U8 => 0x33 | CAST_U64 => 0x34
  | CAST_U128 => 0x35 | MUT_BORROW_FIELD_GENERIC => 0x36
  | IMM_BORROW_FIELD_GENERIC => 0x37 | CALL_GENERIC => 0x38 | PACK_GENERIC => 0x39
  | UNPACK_GENERIC => 0x3A | EXISTS_GENERIC => 0x3B | MUT_BORROW_GLOBAL_GENERIC => 0x3C
  | IMM_BORROW_GLOBAL_GENERIC => 0x3D | MOVE_FROM_GENERIC => 0x3E
  | MOVE_TO_GENERIC => 0x3F | VEC_PACK => 0x40 | VEC_LEN => 0x41 | VEC_IMM_BORROW => 0x42
  | VEC_MUT_BORROW => 0x43 | VEC_PUSH_BACK => 0x44 | VEC_POP_BACK => 0x45
  | VEC_UNPACK => 0x46 | VEC_SWAP => 0x47
  end.
End Opcodes.
Abbreviation Opcodes := Opcodes.Opcodes.

(** * Writing *)

Definition BinaryData : Set := list Z.

(** The [bail!] sites of the serializer. *)
Inductive SerError : Set :=
| BinarySizeLimit        (* BinaryData::push, BinaryData::extend *)
| ValueExceedsMax        (* write_as_uleb128 *)
| TableContentTooBig     (* serialize *)
| CompilationUnitTooBig  (* check_index_in_binary *)
| MaxRecursionDepth.     (* serialize_signature_token *)

Definition Writer : Type -> Type := ST BinaryData SerError.
#[global] Instance Writer_ret : MRet Writer := ST_ret.
#[global] Instance Writer_bind : MBind Writer := ST_bind.

Definition push (item : Z) : Writer () := fun binary =>
  if zlen binary + 1 <=? usize_max then Ok ((), binary ++ [item]) else Err BinarySizeLimit.

Definition extend (vec : list Z) : Writer () := fun binary =>
  if zlen binary + zlen vec <=? usize_max then Ok ((), binary ++ vec) else Err BinarySizeLimit.

(** The [loop] of [write_u64_as_uleb128]. *)
Fixpoint write_uleb_loop (fuel : nat) (val : Z) : Writer () :=
  match fuel with
  | O => fun _ => OutOfFuel
  | S fuel =>
    let cur := Z.land val 0x7f in
    if negb (cur =? val) then
      push (Z.lor cur 0x80 mod 2 ^ 8);; write_uleb_loop fuel (Z.shiftr val 7)
    else push (cur mod 2 ^ 8)
  end.

(** Ten groups of seven bits cover a [u64]. *)
Definition write_u64_as_uleb128 (val : Z) : Writer () := write_uleb_loop 10 val.

(** [value.to_le_bytes()] on [n] bytes, and its inverse. *)
Fixpoint to_le_bytes (n : nat) (value : Z) : list Z :=
  match n with
  | O => []
  | S n => value mod 2 ^ 8 :: to_le_bytes n (value / 2 ^ 8)
  end.

Fixpoint from_le_bytes (bytes : list Z) : Z :=
  match bytes with
  | [] => 0
  | b :: bytes => b + 2 ^ 8 * from_le_bytes bytes
  end.

Definition write_u16 (value : Z) : Writer () := extend (to_le_bytes 2 value).
Definition write_u32 (value : Z) : Writer () := extend (to_le_bytes 4 value).
Definition write_u64 (value : Z) : Writer () := extend (to_le_bytes 8 value).
Definition write_u128 (value : Z) : Writer () := extend (to_le_bytes 16 value).

(** * Reading *)

Module Cursor.
Record Cursor : Set := mk { position : Z; rest : list Z }.
End Cursor.
Abbreviation Cursor := Cursor.Cursor.

Inductive ReadError : Set := UnexpectedEof | InvalidUleb.

Definition cursor_new (binary : list Z) : Cursor := Cursor.mk 0 binary.

(** [Cursor::read]: fills the buffer as far as the bytes go. *)
Definition cursor_read (n : nat) : ST Cursor ReadError (list Z) := fun c =>
  let bytes := take n c.(Cursor.rest) in
  Ok (bytes, Cursor.mk (c.(Cursor.position) + zlen bytes) (drop n c.(Cursor.rest))).

(** [Cursor::read_exact] *)
Definition cursor_read_exact (n : nat) : ST Cursor ReadError (list Z) := fun c =>
  if Nat.leb n (length c.(Cursor.rest)) then cursor_read n c else Err UnexpectedEof.

Definition read_u8 : ST Cursor ReadError Z :=
  buf ← cursor_read_exact 1; st_lift (unwrap (buf !! 0%nat)).

Definition read_u32 : ST Cursor ReadError Z :=
  buf ← cursor_read_exact 4; mret (from_le_bytes buf).

(** [x << s] and [x >> s] on a [u64]; a shift by 64 or more panics. *)
Definition u64_shl (x s : Z) : Z := Z.shiftl x s mod 2 ^ 64.
Definition u64_shr (x s : Z) : Z := Z.shiftr x s.

(** The [while let Ok(byte) = read_u8(cursor)] loop of [read_uleb128_as_u64]. *)
Fixpoint read_uleb_loop (fuel : nat) (value shift : Z) : ST Cursor ReadError Z := fun c =>
  match fuel with
  | O => OutOfFuel
  | S fuel =>
    match read_u8 c with
    | Ok (byte, c) =>
      let cur := Z.land byte 0x7f in
      if 64 <=? shift then Panic
      else if negb (u64_shr (u64_shl cur shift) shift =? cur) then Err InvalidUleb
      else
        let value := Z.lor value (u64_shl cur shift) in
        if Z.land byte 0x80 =? 0 then
          if (0 <? shift) && (cur =? 0) then Err InvalidUleb else Ok (value, c)
        else
          let shift := shift + 7 in
          if 64 <? shift then Err InvalidUleb else read_uleb_loop fuel value shift c
    | Err _ => Err InvalidUleb
    | Panic => Panic
    | OutOfFuel => OutOfFuel
    end
  end.

Definition read_uleb128_as_u64 : ST Cursor ReadError Z := read_uleb_loop 10 0 0.

(** * Versioned data *)

Module VersionedBinary.
Record VersionedBinary : Set := mk { version : Z; binary : list Z }.
End VersionedBinary.
Abbreviation VersionedBinary := VersionedBinary.VersionedBinary.

Module VersionedCursor.
Record VersionedCursor : Set := mk { version : Z; cursor : Cursor }.
End VersionedCursor.
Abbreviation VersionedCursor := VersionedCursor.VersionedCursor.

Definition VersionedBinary_new (binary : list Z) :
    result StatusCode (VersionedBinary * Cursor) :=
  let cursor := cursor_new binary in
  match cursor_read DIEM_MAGIC_SIZE cursor with
  | Ok (magic, cursor) =>
    if negb (Nat.eqb (length magic) DIEM_MAGIC_SIZE) || negb (bool_decide (magic = DIEM_MAGIC))
    then Err BAD_MAGIC
    else
      match read_u32 cursor with
      | Ok (version, cursor) =>
        if (version =? 0) || (VERSION_MAX <? version) then Err UNKNOWN_VERSION
        else Ok (VersionedBinary.mk version binary, cursor)
      | Err _ => Err MALFORMED
      | Panic => Panic
      | OutOfFuel => OutOfFuel
      end
  | Err _ => Err MALFORMED
  | Panic => Panic
  | OutOfFuel => OutOfFuel
  end.

(** [&binary[start..end]]: a slice out of range panics. *)
Definition slice {E} (binary : list Z) (start end_ : Z) : result E (list Z) :=
  if (0 <=? start) && (start <=? end_) && (end_ <=? zlen binary) then
    Ok (take (Z.to_nat (end_ - start)) (drop (Z.to_nat start) binary))
  else Panic.

Definition new_cursor (b : VersionedBinary) (start end_ : Z) :
    result StatusCode VersionedCursor :=
  s ← slice b.(VersionedBinary.binary) start end_;
  Ok (VersionedCursor.mk b.(VersionedBinary.version) (cursor_new s)).

Definition VersionedCursor_new (binary : list Z) : result StatusCode VersionedCursor :=
  '(binary, cursor) ← VersionedBinary_new binary;
  Ok (VersionedCursor.mk binary.(VersionedBinary.version) cursor).

(** Readers over a versioned cursor. *)
Definition Reader : Type -> Type := ST VersionedCursor StatusCode.
#[global] Instance Reader_ret : MRet Reader := ST_ret.
#[global] Instance Reader_bind : MBind Reader := ST_bind.

(** A method of the inner cursor, its error mapped to a status code. *)
Definition on_cursor {A} (e : StatusCode) (m : ST Cursor ReadError A) : Reader A := fun c =>
  match m c.(VersionedCursor.cursor) with
  | Ok (a, cursor) => Ok (a, VersionedCursor.mk c.(VersionedCursor.version) cursor)
  | Err _ => Err e
  | Panic => Panic
  | OutOfFuel => OutOfFuel
  end.

Definition cursor_version : Reader Z := fun c => Ok (c.(VersionedCursor.version), c).
Definition cursor_position : Reader Z := fun c =>
  Ok (c.(VersionedCursor.cursor).(Cursor.position), c).

(** [read_new_binary]: the next [n] bytes as a binary of the same version. *)
Definition read_new_binary (n : nat) : Reader VersionedBinary :=
  buffer ← on_cursor MALFORMED (cursor_read_exact n);
  version ← cursor_version;
  mret (VersionedBinary.mk version buffer).

(** * Instruction keys *)

Definition instruction_key (instruction : Bytecode) : Z :=
  let opcode :=
    match instruction with
    | Bytecode.Pop => Opcodes.POP
    | Bytecode.Ret => Opcodes.RET
    | Bytecode.BrTrue _ => Opcodes.BR_TRUE
    | Bytecode.BrFalse _ => Opcodes.BR_FALSE
    | Bytecode.Branch _ => Opcodes.BRANCH
    | Bytecode.LdU8 _ => Opcodes.LD_U8
    | Bytecode.LdU64 _ => Opcodes.LD_U64
    | Bytecode.LdU128 _ => Opcodes.LD_U128
    | Bytecode.CastU8 => Opcodes.CAST_U8
    | Bytecode.CastU64 => Opcodes.CAST_U64
    | Bytecode.CastU128 => Opcodes.CAST_U128
    | Bytecode.LdConst _ => Opcodes.LD_CONST
    | Bytecode.LdTrue => Opcodes.LD_TRUE
    | Bytecode.LdFalse => Opcodes.LD_FALSE
    | Bytecode.CopyLoc _ => Opcodes.COPY_LOC
    | Bytecode.MoveLoc _ => Opcodes.MOVE_LOC
    | Bytecode.StLoc _ => Opcodes.ST_LOC
    | Bytecode.Call _ => Opcodes.CALL
    | Bytecode.CallGeneric _ => Opcodes.CALL_GENERIC
    | Bytecode.Pack _ => Opcodes.PACK
    | Bytecode.PackGeneric _ => Opcodes.PACK_GENERIC
    | Bytecode.Unpack _ => Opcodes.UNPACK
    | Bytecode.UnpackGeneric _ => Opcodes.UNPACK_GENERIC
    | Bytecode.ReadRef => Opcodes.READ_REF
    | Bytecode.WriteRef => Opcodes.WRITE_REF
    | Bytecode.FreezeRef => Opcodes.FREEZE_REF
    | Bytecode.MutBorrowLoc _ => Opcodes.MUT_BORROW_LOC
    | Bytecode.ImmBorrowLoc _ => Opcodes.IMM_BORROW_LOC
    | Bytecode.MutBorrowField _ => Opcodes.MUT_BORROW_FIELD
    | Bytecode.MutBorrowFieldGeneric _ => Opcodes.MUT_BORROW_FIELD_GENERIC
    | Bytecode.ImmBorrowField _ => Opcodes.IMM_BORROW_FIELD
    | Bytecode.ImmBorrowFieldGeneric _ => Opcodes.IMM_BORROW_FIELD_GENERIC
    | Bytecode.MutBorrowGlobal _ => Opcodes.MUT_BORROW_GLOBAL
    | Bytecode.MutBorrowGlobalGeneric _ => Opcodes.MUT_BORROW_GLOBAL_GENERIC
    | Bytecode.ImmBorrowGlobal _ => Opcodes.IMM_BORROW_GLOBAL
    | Bytecode.ImmBorrowGlobalGeneric _ => Opcodes.IMM_BORROW_GLOBAL_GENERIC
    | Bytecode.Add => Opcodes.ADD
    | Bytecode.Sub => Opcodes.SUB
    | Bytecode.Mul => Opcodes.MUL
    | Bytecode.Mod => Opcodes.MOD
    | Bytecode.Div => Opcodes.DIV
    | Bytecode.BitOr => Opcodes.BIT_OR
    | Bytecode.BitAnd => Opcodes.BIT_AND
    | Bytecode.Xor => Opcodes.XOR
    | Bytecode.Shl => Opcodes.SHL
    | Bytecode.Shr => Opcodes.SHR
    | Bytecode.Or => Opcodes.OR
    | Bytecode.And => Opcodes.AND
    | Bytecode.Not => Opcodes.NOT
    | Bytecode.Eq => Opcodes.EQ
    | Bytecode.Neq => Opcodes.NEQ
    | Bytecode.Lt => Opcodes.LT
    | Bytecode.Gt => Opcodes.GT
    | Bytecode.Le => Opcodes.LE
    | Bytecode.Ge => Opcodes.GE
    | Bytecode.Abort => Opcodes.ABORT
    | Bytecode.Nop => Opcodes.NOP
    | Bytecode.Exists _ => Opcodes.EXISTS
    | Bytecode.ExistsGeneric _ => Opcodes.EXISTS_GENERIC
    | Bytecode.MoveFrom _ => Opcodes.MOVE_FROM
    | Bytecode.MoveFromGeneric _ => Opcodes.MOVE_FROM_GENERIC
    | Bytecode.MoveTo _ => Opcodes.MOVE_TO
    | Bytecode.MoveToGeneric _ => Opcodes.MOVE_TO_GENERIC
    | Bytecode.VecPack _ _ => Opcodes.VEC_PACK
    | Bytecode.VecLen _ => Opcodes.VEC_LEN
    | Bytecode.VecImmBorrow _ => Opcodes.VEC_IMM_BORROW
    | Bytecode.VecMutBorrow _ => Opcodes.VEC_MUT_BORROW
    | Bytecode.VecPushBack _ => Opcodes.VEC_PUSH_BACK
    | Bytecode.VecPopBack _ => Opcodes.VEC_POP_BACK
    | Bytecode.VecUnpack _ _ => Opcodes.VEC_UNPACK
    | Bytecode.VecSwap _ => Opcodes.VEC_SWAP
    end in
  Opcodes.as_u8 opcode.
