(* ===== verification/Uleb.v ===== *)
(** ULEB128: the writer and the reader of file_format_common.rs against the
    reference encoding [uleb_bytes]. *)
From S2P Require Import Prelude StatusCode FileFormat BinaryCommon.

(** * Reference encoding: base-128 digits, least significant first *)

Fixpoint uleb_bytes (n : nat) (v : Z) : list Z :=
  match n with
  | O => []
  | S n => if v <? 128 then [v] else v mod 128 + 128 :: uleb_bytes n (v / 128)
  end.

Lemma land_127 x : Z.land x 0x7f = x mod 128.
Proof. change 0x7f with (Z.ones 7). by rewrite Z.land_ones. Qed.

Lemma testbit_above a k i : 0 <= a < 2 ^ k -> 0 <= k <= i -> Z.testbit a i = false.
Proof.
  intros Ha Hk. rewrite <- (Z.mod_small a (2 ^ k)) by lia. apply Z.mod_pow2_bits_high. lia.
Qed.

Lemma lor_disjoint a b k : 0 <= k -> 0 <= a < 2 ^ k -> Z.lor a (b * 2 ^ k) = a + b * 2 ^ k.
Proof.
  intros Hk Ha. rewrite <- Z.shiftl_mul_pow2 by done.
  assert (Z.land (Z.shiftl b k) a = 0) as E.
  { apply Z.bits_inj'. intros i Hi. rewrite Z.land_spec, Z.bits_0.
    destruct (Z.lt_ge_cases i k).
    - by rewrite Z.shiftl_spec_low.
    - by rewrite (testbit_above a k i), andb_false_r. }
  rewrite Z.lor_comm, Z.add_comm. symmetry. by apply Z.add_nocarry_lor.
Qed.

Lemma lor_128 c : 0 <= c < 128 -> Z.lor c 0x80 = c + 128.
Proof. intros H. exact (lor_disjoint c 1 7 ltac:(lia) H). Qed.

Lemma land_128_low x : 0 <= x < 128 -> Z.land x 0x80 = 0.
Proof.
  intros H. change 0x80 with (Z.shiftl 1 7). apply Z.bits_inj'. intros i Hi.
  rewrite Z.land_spec, Z.bits_0. destruct (Z.lt_ge_cases i 7).
  - by rewrite (Z.shiftl_spec_low 1), andb_false_r.
  - by rewrite (testbit_above x 7 i) by (simpl; lia).
Qed.

Lemma land_128_high x : 128 <= x < 256 -> Z.land x 0x80 <> 0.
Proof.
  intros H E. apply (f_equal (fun z => Z.testbit z 7)) in E.
  rewrite Z.land_spec in E. change (Z.testbit 0x80 7) with true in E.
  rewrite andb_true_r, Z.bits_0, Z.testbit_false in E by lia.
  change (2 ^ 7) with 128 in E.
  assert (x / 128 = 1) as Hd by (symmetry; apply (Z.div_unique _ _ _ (x - 128)); lia).
  rewrite Hd in E. discriminate E.
Qed.

(** [cur << shift] does not lose bits exactly when the product fits. *)
Lemma u64_shl_shr cur shift :
  0 <= cur -> 0 <= shift < 64 ->
  (u64_shr (u64_shl cur shift) shift =? cur) = (cur * 2 ^ shift <? 2 ^ 64).
Proof.
  intros Hc Hs. unfold u64_shr, u64_shl.
  rewrite Z.shiftl_mul_pow2, Z.shiftr_div_pow2 by lia.
  assert (0 < 2 ^ shift) by (apply Z.pow_pos_nonneg; lia).
  destruct (Z.ltb_spec (cur * 2 ^ shift) (2 ^ 64)) as [Hlt|Hge].
  - rewrite Z.mod_small by nia. rewrite Z.div_mul by lia. apply Z.eqb_refl.
  - apply Z.eqb_neq. intros E.
    pose proof (Z.mod_pos_bound (cur * 2 ^ shift) (2 ^ 64) ltac:(lia)) as Hm.
    pose proof (Z.mul_div_le ((cur * 2 ^ shift) mod 2 ^ 64) (2 ^ shift) ltac:(lia)).
    rewrite E in *. lia.
Qed.

(** * The writer *)

Lemma uleb_bytes_nonempty n v : n <> 0%nat -> uleb_bytes n v <> [].
Proof. destruct n; [done|]. simpl. by destruct (v <? 128). Qed.

Lemma uleb_bytes_range n v : 0 <= v -> Forall (fun b => is_u8 b = true) (uleb_bytes n v).
Proof.
  revert v. induction n as [|n IH]; intros v Hv; simpl; [constructor|].
  destruct (Z.ltb_spec v 128).
  - repeat constructor. apply in_range_spec. unfold u8_max. lia.
  - constructor.
    + apply in_range_spec. unfold u8_max. pose proof (Z.mod_pos_bound v 128 ltac:(lia)). lia.
    + apply IH. apply Z.div_pos; lia.
Qed.

Lemma write_uleb_loop_spec n v b :
  n <> 0%nat -> 0 <= v < 128 ^ Z.of_nat n ->
  write_uleb_loop n v b = st_for (uleb_bytes n v) push b.
Proof.
  revert v b. induction n as [|n IH]; intros v b Hn Hv; [done|].
  cbn [write_uleb_loop uleb_bytes]. rewrite land_127.
  destruct (Z.ltb_spec v 128).
  - rewrite Z.mod_small, Z.eqb_refl by lia. cbn [negb st_for].
    rewrite Z.mod_small by lia. unfold mbind, ST_bind, push.
    by destruct (zlen b + 1 <=? usize_max).
  - destruct (Z.eqb_spec (v mod 128) v) as [E|E].
    { pose proof (Z.mod_pos_bound v 128 ltac:(lia)). lia. }
    cbn [negb st_for]. pose proof (Z.mod_pos_bound v 128 ltac:(lia)).
    rewrite lor_128, (Z.mod_small (v mod 128 + 128)) by lia.
    unfold mbind, Writer_bind, ST_bind.
    destruct (push _ b) as [[[] b']| | |]; [|done..].
    change (Z.shiftr v 7) with (Z.shiftr v (Z.of_nat 7)).
    rewrite Z.shiftr_div_pow2 by lia. change (2 ^ Z.of_nat 7) with 128.
    apply IH; [intros ->; simpl in Hv; lia|]. split; [apply Z.div_pos; lia|].
    apply Z.div_lt_upper_bound; [lia|].
    rewrite Nat2Z.inj_succ, Z.pow_succ_r in Hv by lia. lia.
Qed.

(** * The reader *)

Lemma read_u8_cons b pos rest :
  read_u8 (Cursor.mk pos (b :: rest)) = Ok (b, Cursor.mk (pos + 1) rest).
Proof. reflexivity. Qed.

Lemma read_u8_nil pos : read_u8 (Cursor.mk pos []) = Err UnexpectedEof.
Proof. reflexivity. Qed.

Lemma pow_shift_split v shift : 0 <= shift ->
  (v mod 128) * 2 ^ shift + (v / 128) * 2 ^ (shift + 7) = v * 2 ^ shift.
Proof.
  intros. rewrite Z.pow_add_r by lia. change (2 ^ 7) with 128.
  rewrite (Z.div_mod v 128) at 3 by lia. ring.
Qed.

(** From accumulator [value] at bit [shift], the reader adds the digits of [v]. *)
Lemma read_uleb_loop_spec n v value shift pos rest :
  shift = 7 * (10 - Z.of_nat n) -> (n <= 10)%nat ->
  0 <= v -> v * 2 ^ shift < 2 ^ 64 -> 0 <= value < 2 ^ shift -> (0 < shift -> 0 < v) ->
  read_uleb_loop n value shift (Cursor.mk pos (uleb_bytes n v ++ rest)) =
  Ok (value + v * 2 ^ shift, Cursor.mk (pos + zlen (uleb_bytes n v)) rest).
Proof.
  revert v value shift pos. induction n as [|n IH];
    intros v value shift pos Hs Hn Hv Hfit Hval Hpos.
  { exfalso. subst shift. change (7 * (10 - Z.of_nat 0)) with 70 in *. nia. }
  assert (0 < 2 ^ shift) by (apply Z.pow_pos_nonneg; lia).
  cbn [uleb_bytes]. destruct (Z.ltb_spec v 128) as [Hlt|Hge].
  - cbn [app read_uleb_loop]. rewrite read_u8_cons, land_127, (Z.mod_small v) by lia.
    destruct (Z.leb_spec 64 shift); [lia|]. rewrite u64_shl_shr by lia.
    destruct (Z.ltb_spec (v * 2 ^ shift) (2 ^ 64)); [|lia]. cbn [negb].
    rewrite land_128_low, Z.eqb_refl by lia. unfold u64_shl.
    rewrite Z.shiftl_mul_pow2, Z.mod_small, lor_disjoint by (lia || nia).
    destruct (Z.ltb_spec 0 shift), (Z.eqb_spec v 0); cbn [andb]; try reflexivity. lia.
  - set (c := v mod 128). assert (0 <= c < 128) as Hc by (apply Z.mod_pos_bound; lia).
    cbn [app read_uleb_loop]. rewrite read_u8_cons, land_127.
    replace ((c + 128) mod 128) with c
      by (rewrite <- (Z.mul_1_l 128) at 1; rewrite Z.mod_add, Z.mod_small; lia).
    assert (shift + 7 < 64) as Hs7.
    { apply (Z.pow_lt_mono_r_iff 2); [lia..|].
      rewrite Z.pow_add_r by lia. change (2 ^ 7) with 128. nia. }
    destruct (Z.leb_spec 64 shift); [lia|]. rewrite u64_shl_shr by lia.
    assert (c * 2 ^ shift < 2 ^ 64) by nia.
    destruct (Z.ltb_spec (c * 2 ^ shift) (2 ^ 64)); [|lia]. cbn [negb].
    destruct (Z.eqb_spec (Z.land (c + 128) 0x80) 0) as [E|_];
      [exfalso; apply (land_128_high (c + 128)); [lia|done]|].
    destruct (Z.ltb_spec 64 (shift + 7)); [lia|]. unfold u64_shl.
    rewrite Z.shiftl_mul_pow2, Z.mod_small, lor_disjoint by (lia || nia).
    pose proof (pow_shift_split v shift ltac:(lia)) as Hsplit. fold c in Hsplit.
    rewrite IH; try lia.
    + f_equal. f_equal; [lia|]. f_equal. simpl length. lia.
    + apply Z.div_pos; lia.
    + rewrite Z.pow_add_r by lia. change (2 ^ 7) with 128. nia.
    + intros _. apply Z.div_str_pos. lia.
Qed.

(** The reader accepts canonical encodings only. *)
Lemma read_uleb_loop_canonical n value shift c x c' :
  shift = 7 * (10 - Z.of_nat n) -> (n <= 10)%nat -> 0 <= value < 2 ^ shift ->
  Forall (fun b => is_u8 b = true) c.(Cursor.rest) ->
  read_uleb_loop n value shift c = Ok (x, c') ->
  exists v, 0 <= v /\ v * 2 ^ shift < 2 ^ 64 /\ x = value + v * 2 ^ shift /\
    (0 < shift -> 0 < v) /\
    c.(Cursor.rest) = uleb_bytes n v ++ c'.(Cursor.rest).
Proof.
  revert value shift c. induction n as [|n IH]; intros value shift [pos rest] Hs Hn Hval Hb H;
    [done|].
  cbn [read_uleb_loop] in H. destruct rest as [|b rest]; [by rewrite read_u8_nil in H|].
  rewrite read_u8_cons, land_127 in H. cbn [Cursor.rest] in *.
  inversion_clear Hb as [|? ? Hb0 Hbs]. apply in_range_spec in Hb0.
  unfold u8_max in Hb0. assert (0 < 2 ^ shift) by (apply Z.pow_pos_nonneg; lia).
  destruct (Z.leb_spec 64 shift); [done|].
  set (c := b mod 128) in *. assert (0 <= c < 128) as Hc by (apply Z.mod_pos_bound; lia).
  rewrite u64_shl_shr in H by lia.
  destruct (Z.ltb_spec (c * 2 ^ shift) (2 ^ 64)) as [Hfit|]; [|done]. cbn [negb] in H.
  unfold u64_shl in H.
  rewrite Z.shiftl_mul_pow2, Z.mod_small, lor_disjoint in H by (lia || nia).
  destruct (Z.eqb_spec (Z.land b 0x80) 0) as [E|E].
  - assert (b < 128) as Hb1.
    { destruct (Z.lt_ge_cases b 128); [done|].
      exfalso; apply (land_128_high b); [lia|done]. }
    assert (c = b) as Hcb by (apply Z.mod_small; lia).
    destruct ((0 <? shift) && (c =? 0)) eqn:Et; [done|]. injection H as <- <-.
    exists c. rewrite Hcb in *. cbn [uleb_bytes Cursor.rest].
    destruct (Z.ltb_spec b 128); [|lia]. split; [lia|]. split; [lia|]. split; [done|].
    split; [|done]. intros. destruct (Z.ltb_spec 0 shift), (Z.eqb_spec b 0); try done; lia.
  - destruct (Z.ltb_spec 64 (shift + 7)); [done|].
    assert (128 <= b).
    { destruct (Z.lt_ge_cases b 128); [|done]. exfalso. apply E, land_128_low. lia. }
    apply IH in H as (v & Hv0 & Hv1 & -> & Hv2 & Heq); [|lia|lia| |done].
    2: { rewrite Z.pow_add_r by lia. change (2 ^ 7) with 128. nia. }
    cbn [Cursor.rest] in Heq. exists (c + 128 * v).
    assert (0 < v) by (apply Hv2; lia).
    assert ((c + 128 * v) * 2 ^ shift = c * 2 ^ shift + v * 2 ^ (shift + 7)) as Hx.
    { rewrite (Z.pow_add_r 2 shift 7) by lia. change (2 ^ 7) with 128. ring. }
    split; [lia|]. split.
    { (* the top digit is below 2^(64 - shift - 7) and an integer *)
      rewrite Hx. rewrite (Z.pow_add_r 2 shift 7) in * by lia. change (2 ^ 7) with 128 in *.
      assert (2 ^ 64 = 2 ^ shift * 128 * 2 ^ (64 - shift - 7)) as H64.
      { change 128 with (2 ^ 7). rewrite <- !Z.pow_add_r by lia. f_equal. lia. }
      assert (0 < 2 ^ (64 - shift - 7)) by (apply Z.pow_pos_nonneg; lia).
      assert (v < 2 ^ (64 - shift - 7)) by nia. nia. }
    split; [lia|]. split; [lia|].
    cbn [uleb_bytes]. destruct (Z.ltb_spec (c + 128 * v) 128); [lia|].
    replace ((c + 128 * v) mod 128) with c
      by (apply (Z.mod_unique _ _ v); lia).
    replace ((c + 128 * v) / 128) with v
      by (apply (Z.div_unique _ _ _ c); lia).
    cbn [app]. rewrite Heq. f_equal. unfold c.
    assert (b / 128 = 1) as Hd by (symmetry; apply (Z.div_unique _ _ _ (b - 128)); lia).
    pose proof (Z.div_mod b 128 ltac:(lia)). lia.
Qed.

(** * The codec *)

Lemma uleb_bytes_length n v : (length (uleb_bytes n v) <= n)%nat.
Proof.
  revert v. induction n as [|n IH]; intros v; simpl; [lia|].
  destruct (v <? 128); simpl; [lia|]. specialize (IH (v / 128)). lia.
Qed.

Lemma st_for_push_room bs b :
  zlen b + zlen bs <= usize_max -> st_for bs push b = Ok ((), b ++ bs).
Proof.
  revert b. induction bs as [|x bs IH]; intros b Hr; simpl; [by rewrite app_nil_r|].
  simpl in Hr. unfold mbind, ST_bind, Writer_bind, push.
  destruct (Z.leb_spec (zlen b + 1) usize_max); [|lia].
  rewrite IH by (rewrite length_app; simpl; lia). by rewrite <- app_assoc.
Qed.

Lemma write_u64_as_uleb128_room v b :
  is_u64 v = true -> zlen b + 10 <= usize_max ->
  write_u64_as_uleb128 v b = Ok ((), b ++ uleb_bytes 10 v).
Proof.
  intros Hv%in_range_spec Hr. unfold write_u64_as_uleb128.
  rewrite write_uleb_loop_spec by (zify_bounds; simpl; lia). apply st_for_push_room.
  pose proof (uleb_bytes_length 10 v). lia.
Qed.

(** ULEB128 round trip.  A [u64] is written, wherever there is room, as one to ten
    bytes from which the reader gets the number back, leaving the rest unread. *)
Theorem uleb128_round_trip (v : Z) (b : BinaryData) (pos : Z) (rest : list Z) :
  is_u64 v = true -> zlen b + 10 <= usize_max ->
  exists bs, write_u64_as_uleb128 v b = Ok ((), b ++ bs) /\ (1 <= length bs <= 10)%nat /\
    read_uleb128_as_u64 (Cursor.mk pos (bs ++ rest))
    = Ok (v, Cursor.mk (pos + zlen bs) rest).
Proof.
  intros Hv Hr. exists (uleb_bytes 10 v). split; [by apply write_u64_as_uleb128_room|].
  split.
  { pose proof (uleb_bytes_length 10 v). pose proof (uleb_bytes_nonempty 10 v ltac:(done)).
    destruct (uleb_bytes 10 v); simpl in *; [done|lia]. }
  apply in_range_spec in Hv. unfold read_uleb128_as_u64.
  rewrite read_uleb_loop_spec by (zify_bounds; simpl; lia).
  change (2 ^ 0) with 1. by rewrite Z.mul_1_r, Z.add_0_l.
Qed.

Lemma uleb128_round_trip_witness :
  exists bs, write_u64_as_uleb128 u64_max [7] = Ok ((), [7] ++ bs) /\ (1 <= length bs <= 10)%nat /\
    read_uleb128_as_u64 (Cursor.mk 1 (bs ++ [9])) = Ok (u64_max, Cursor.mk (1 + zlen bs) [9]).
Proof. apply uleb128_round_trip; [reflexivity|vm_compute; discriminate]. Defined.

(** ULEB128 is canonical.  Whatever the reader accepts is a [u64], and the bytes it
    consumed are exactly those the writer writes for it: no number has two
    encodings. *)
Theorem uleb128_canonical (c c' : Cursor) (x : Z) (b : BinaryData) :
  Forall (fun y => is_u8 y = true) c.(Cursor.rest) ->
  read_uleb128_as_u64 c = Ok (x, c') -> zlen b + 10 <= usize_max ->
  is_u64 x = true /\
  exists bs, c.(Cursor.rest) = bs ++ c'.(Cursor.rest) /\
    write_u64_as_uleb128 x b = Ok ((), b ++ bs).
Proof.
  intros Hb Hx Hr. unfold read_uleb128_as_u64 in Hx.
  apply read_uleb_loop_canonical in Hx as (v & H0 & H1 & -> & _ & E); [|lia|lia|simpl; lia|done].
  change (2 ^ 0) with 1 in *. rewrite Z.mul_1_r, Z.add_0_l in *.
  assert (is_u64 v = true) as Hv by (apply in_range_spec; zify_bounds; lia).
  split; [done|]. exists (uleb_bytes 10 v). split; [done|]. by apply write_u64_as_uleb128_room.
Qed.

Lemma uleb128_canonical_witness :
  is_u64 300 = true /\
  exists bs, [172; 2; 5] = bs ++ [5] /\ write_u64_as_uleb128 300 [] = Ok ((), [] ++ bs).
Proof.
  apply (uleb128_canonical (Cursor.mk 0 [172; 2; 5]) (Cursor.mk 2 [5]));
    [repeat constructor|reflexivity|vm_compute; discriminate].
Defined.
