(* ===== verification/Serializer.v ===== *)
(** The serializer: move-binary-format/src/serializer.rs.  A function
    [serialize_x(binary, x)] of the source is a [Writer]: it appends the bytes of
    [x] to the binary, or fails at a [bail!]. *)
From S2P Require Import Prelude StatusCode Abilities Identifier FileFormat BinaryCommon.

(** * Bounded ULEB128 writers *)

Definition write_as_uleb128 (x max : Z) : Writer () :=
  if max <? x then st_err ValueExceedsMax else write_u64_as_uleb128 x.

Definition serialize_signature_index (idx : SignatureIndex) : Writer () :=
  write_as_uleb128 idx SIGNATURE_INDEX_MAX.
Definition serialize_module_handle_index (idx : ModuleHandleIndex) : Writer () :=
  write_as_uleb128 idx MODULE_HANDLE_INDEX_MAX.
Definition serialize_identifier_index (idx : IdentifierIndex) : Writer () :=
  write_as_uleb128 idx IDENTIFIER_INDEX_MAX.
Definition serialize_struct_handle_index (idx : StructHandleIndex) : Writer () :=
  write_as_uleb128 idx STRUCT_HANDLE_INDEX_MAX.
Definition serialize_address_identifier_index (idx : AddressIdentifierIndex) : Writer () :=
  write_as_uleb128 idx ADDRESS_INDEX_MAX.
Definition serialize_struct_def_index (idx : StructDefinitionIndex) : Writer () :=
  write_as_uleb128 idx STRUCT_DEF_INDEX_MAX.
Definition serialize_function_handle_index (idx : FunctionHandleIndex) : Writer () :=
  write_as_uleb128 idx FUNCTION_HANDLE_INDEX_MAX.
Definition serialize_field_handle_index (idx : FieldHandleIndex) : Writer () :=
  write_as_uleb128 idx FIELD_HANDLE_INDEX_MAX.
Definition serialize_field_inst_index (idx : FieldInstantiationIndex) : Writer () :=
  write_as_uleb128 idx FIELD_INST_INDEX_MAX.
Definition serialize_function_inst_index (idx : FunctionInstantiationIndex) : Writer () :=
  write_as_uleb128 idx FUNCTION_INST_INDEX_MAX.
Definition serialize_struct_def_inst_index (idx : StructDefInstantiationIndex) : Writer () :=
  write_as_uleb128 idx STRUCT_DEF_INST_INDEX_MAX.
Definition seiralize_table_offset (offset : Z) : Writer () := write_as_uleb128 offset TABLE_OFFSET_MAX.
Definition serialize_table_size (size : Z) : Writer () := write_as_uleb128 size TABLE_SIZE_MAX.
Definition serialize_constant_pool_index (idx : ConstantPoolIndex) : Writer () :=
  write_as_uleb128 idx CONSTANT_INDEX_MAX.
Definition serialize_bytecode_count (len : Z) : Writer () := write_as_uleb128 len BYTECODE_COUNT_MAX.
Definition serialize_identifier_size (len : Z) : Writer () := write_as_uleb128 len IDENTIFIER_SIZE_MAX.
Definition serialize_constant_size (len : Z) : Writer () := write_as_uleb128 len CONSTANT_SIZE_MAX.
Definition serialize_field_count (len : Z) : Writer () := write_as_uleb128 len FIELD_COUNT_MAX.
Definition serialize_acquires_count (len : Z) : Writer () := write_as_uleb128 len ACQUIRES_COUNT_MAX.
Definition serialize_signature_size (len : Z) : Writer () := write_as_uleb128 len SIGNATURE_SIZE_MAX.
Definition serialize_type_parameter_count (len : Z) : Writer () := write_as_uleb128 len TYPE_PARAMETER_COUNT_MAX.
Definition serialize_field_offset (offset : Z) : Writer () := write_as_uleb128 offset FIELD_OFFSET_MAX.
Definition serialize_type_parameter_index (idx : Z) : Writer () := write_as_uleb128 idx TYPE_PARAMETER_INDEX_MAX.
Definition serialize_bytecode_offset (offset : Z) : Writer () := write_as_uleb128 offset BYTECODE_INDEX_MAX.
Definition serialize_table_count (len : Z) : Writer () := write_as_uleb128 len TABLE_COUNT_MAX.
Definition serialize_local_index (idx : Z) : Writer () := write_as_uleb128 idx LOCAL_INDEX_MAX.

(** * Handles, pools and instantiations *)

Definition serialize_module_handle (h : ModuleHandle) : Writer () :=
  serialize_address_identifier_index h.(ModuleHandle.address);;
  serialize_identifier_index h.(ModuleHandle.name).

Definition serialize_ability_set (set : AbilitySet) : Writer () :=
  write_as_uleb128 (AbilitySet.into_u8 set) (AbilitySet.into_u8 AbilitySet.ALL).

Definition serialize_ability_sets (sets : list AbilitySet) : Writer () :=
  serialize_type_parameter_count (zlen sets);;
  st_for sets serialize_ability_set.

Definition serialize_type_parameter (p : StructTypeParameter) : Writer () :=
  serialize_ability_set p.(StructTypeParameter.constraints);;
  write_as_uleb128 (if p.(StructTypeParameter.is_phantom) then 1 else 0) 1.

Definition serialize_type_parameters (ps : list StructTypeParameter) : Writer () :=
  serialize_type_parameter_count (zlen ps);;
  st_for ps serialize_type_parameter.

Definition serialize_struct_handle (h : StructHandle) : Writer () :=
  serialize_module_handle_index h.(StructHandle.module);;
  serialize_identifier_index h.(StructHandle.name);;
  serialize_ability_set h.(StructHandle.abilities);;
  serialize_type_parameters h.(StructHandle.type_parameters).

Definition serialize_function_handle (h : FunctionHandle) : Writer () :=
  serialize_module_handle_index h.(FunctionHandle.module);;
  serialize_identifier_index h.(FunctionHandle.name);;
  serialize_signature_index h.(FunctionHandle.parameters);;
  serialize_signature_index h.(FunctionHandle.return_);;
  serialize_ability_sets h.(FunctionHandle.type_parameters).

Definition serialize_function_instantiation (i : FunctionInstantiation) : Writer () :=
  serialize_function_handle_index i.(FunctionInstantiation.handle);;
  serialize_signature_index i.(FunctionInstantiation.type_parameters).

Definition serialize_identifier (string : Identifier) : Writer () :=
  serialize_identifier_size (zlen string);;
  st_for string push.

Definition serialize_address (address : AccountAddress) : Writer () :=
  st_for address push.

(** * Signature tokens *)

Definition serialize_signature_token_single_node_impl (token : SignatureToken) : Writer () :=
  match token with
  | SignatureToken.Bool => push (SerializedType.as_u8 SerializedType.BOOL)
  | SignatureToken.U8 => push (SerializedType.as_u8 SerializedType.U8)
  | SignatureToken.U64 => push (SerializedType.as_u8 SerializedType.U64)
  | SignatureToken.U128 => push (SerializedType.as_u8 SerializedType.U128)
  | SignatureToken.Address => push (SerializedType.as_u8 SerializedType.ADDRESS)
  | SignatureToken.Signer => push (SerializedType.as_u8 SerializedType.SIGNER)
  | SignatureToken.Vector _ => push (SerializedType.as_u8 SerializedType.VECTOR)
  | SignatureToken.Struct idx =>
    push (SerializedType.as_u8 SerializedType.STRUCT);;
    serialize_struct_handle_index idx
  | SignatureToken.StructInstantiation idx type_params =>
    push (SerializedType.as_u8 SerializedType.STRUCT_INST);;
    serialize_struct_handle_index idx;;
    serialize_signature_size (zlen type_params)
  | SignatureToken.Reference _ => push (SerializedType.as_u8 SerializedType.REFERENCE)
  | SignatureToken.MutableReference _ =>
    push (SerializedType.as_u8 SerializedType.MUTABLE_REFERENCE)
  | SignatureToken.TypeParameter idx =>
    push (SerializedType.as_u8 SerializedType.TYPE_PARAMETER);;
    serialize_type_parameter_index idx
  end.

Definition serialize_signature_token (token : SignatureToken) : Writer () :=
  st_for (SignatureToken.preorder_traversal_with_depth token) (fun '(token, depth) =>
    if SIGNATURE_TOKEN_DEPTH_MAX <? depth then st_err MaxRecursionDepth
    else serialize_signature_token_single_node_impl token).

Definition serialize_signature_tokens (tokens : list SignatureToken) : Writer () :=
  serialize_signature_size (zlen tokens);;
  st_for tokens serialize_signature_token.

Definition serialize_signature (signature : Signature) : Writer () :=
  serialize_signature_tokens signature.

Definition serialize_constant (constant : Constant) : Writer () :=
  serialize_signature_token constant.(Constant.type_);;
  serialize_constant_size (zlen constant.(Constant.data));;
  st_for constant.(Constant.data) push.

(** * Definitions *)

Definition serialize_field_definition (f : FieldDefinition) : Writer () :=
  serialize_identifier_index f.(FieldDefinition.name);;
  serialize_signature_token f.(FieldDefinition.signature).

Definition serialize_field_definitions (fields : list FieldDefinition) : Writer () :=
  serialize_field_count (zlen fields);;
  st_for fields serialize_field_definition.

Definition serialize_struct_definition (sd : StructDefinition) : Writer () :=
  serialize_struct_handle_index sd.(StructDefinition.struct_handle);;
  match sd.(StructDefinition.field_information) with
  | Native => push (SerializedNativeStructFlag.as_u8 SerializedNativeStructFlag.NATIVE)
  | Declared fields =>
    push (SerializedNativeStructFlag.as_u8 SerializedNativeStructFlag.DECLARED);;
    serialize_field_definitions fields
  end.

Definition serialize_struct_def_instantiation (i : StructDefInstantiation) : Writer () :=
  serialize_struct_def_index i.(StructDefInstantiation.def);;
  serialize_signature_index i.(StructDefInstantiation.type_parameters).

Definition serialize_field_handle (h : FieldHandle) : Writer () :=
  serialize_struct_def_index h.(FieldHandle.owner);;
  serialize_field_offset h.(FieldHandle.field).

Definition serialize_field_instantiation (i : FieldInstantiation) : Writer () :=
  serialize_field_handle_index i.(FieldInstantiation.handle);;
  serialize_signature_index i.(FieldInstantiation.type_parameters).

Definition serialize_acquires (indices : list StructDefinitionIndex) : Writer () :=
  serialize_acquires_count (zlen indices);;
  st_for indices serialize_struct_def_index.

(** * Code *)

Definition serialize_instruction_inner (opcode : Bytecode) : Writer () :=
  match opcode with
  | Bytecode.FreezeRef => push (Opcodes.as_u8 Opcodes.FREEZE_REF)
  | Bytecode.Pop => push (Opcodes.as_u8 Opcodes.POP)
  | Bytecode.Ret => push (Opcodes.as_u8 Opcodes.RET)
  | Bytecode.BrTrue code_offset =>
    push (Opcodes.as_u8 Opcodes.BR_TRUE);;
    serialize_bytecode_offset code_offset
  | Bytecode.BrFalse code_offset =>
    push (Opcodes.as_u8 Opcodes.BR_FALSE);;
    serialize_bytecode_offset code_offset
  | Bytecode.Branch code_offset =>
    push (Opcodes.as_u8 Opcodes.BRANCH);;
    serialize_bytecode_offset code_offset
  | Bytecode.LdU8 value =>
    push (Opcodes.as_u8 Opcodes.LD_U8);;
    push value
  | Bytecode.LdU64 value =>
    push (Opcodes.as_u8 Opcodes.LD_U64);;
    write_u64 value
  | Bytecode.LdU128 value =>
    push (Opcodes.as_u8 Opcodes.LD_U128);;
    write_u128 value
  | Bytecode.CastU8 => push (Opcodes.as_u8 Opcodes.CAST_U8)
  | Bytecode.CastU64 => push (Opcodes.as_u8 Opcodes.CAST_U64)
  | Bytecode.CastU128 => push (Opcodes.as_u8 Opcodes.CAST_U128)
  | Bytecode.LdConst const_idx =>
    push (Opcodes.as_u8 Opcodes.LD_CONST);;
    serialize_constant_pool_index const_idx
  | Bytecode.LdTrue => push (Opcodes.as_u8 Opcodes.LD_TRUE)
  | Bytecode.LdFalse => push (Opcodes.as_u8 Opcodes.LD_FALSE)
  | Bytecode.CopyLoc local_idx =>
    push (Opcodes.as_u8 Opcodes.COPY_LOC);;
    serialize_local_index local_idx
  | Bytecode.MoveLoc local_idx =>
    push (Opcodes.as_u8 Opcodes.MOVE_LOC);;
    serialize_local_index local_idx
  | Bytecode.StLoc local_idx =>
    push (Opcodes.as_u8 Opcodes.ST_LOC);;
    serialize_local_index local_idx
  | Bytecode.MutBorrowLoc local_idx =>
    push (Opcodes.as_u8 Opcodes.MUT_BORROW_LOC);;
    serialize_local_index local_idx
  | Bytecode.ImmBorrowLoc local_idx =>
    push (Opcodes.as_u8 Opcodes.IMM_BORROW_LOC);;
    serialize_local_index local_idx
  | Bytecode.MutBorrowField field_idx =>
    push (Opcodes.as_u8 Opcodes.MUT_BORROW_FIELD);;
    serialize_field_handle_index field_idx
  | Bytecode.MutBorrowFieldGeneric field_idx =>
    push (Opcodes.as_u8 Opcodes.MUT_BORROW_FIELD_GENERIC);;
    serialize_field_inst_index field_idx
  | Bytecode.ImmBorrowField field_idx =>
    push (Opcodes.as_u8 Opcodes.IMM_BORROW_FIELD);;
    serialize_field_handle_index field_idx
  | Bytecode.ImmBorrowFieldGeneric field_idx =>
    push (Opcodes.as_u8 Opcodes.IMM_BORROW_FIELD_GENERIC);;
    serialize_field_inst_index field_idx
  | Bytecode.Call method_idx =>
    push (Opcodes.as_u8 Opcodes.CALL);;
    serialize_function_handle_index method_idx
  | Bytecode.Pack class_idx =>
    push (Opcodes.as_u8 Opcodes.PACK);;
    serialize_struct_def_index class_idx
  | Bytecode.Unpack class_idx =>
    push (Opcodes.as_u8 Opcodes.UNPACK);;
    serialize_struct_def_index class_idx
  | Bytecode.CallGeneric method_idx =>
    push (Opcodes.as_u8 Opcodes.CALL_GENERIC);;
    serialize_function_inst_index method_idx
  | Bytecode.PackGeneric class_idx =>
    push (Opcodes.as_u8 Opcodes.PACK_GENERIC);;
    serialize_struct_def_inst_index class_idx
  | Bytecode.UnpackGeneric class_idx =>
    push (Opcodes.as_u8 Opcodes.UNPACK_GENERIC);;
    serialize_struct_def_inst_index class_idx
  | Bytecode.ReadRef => push (Opcodes.as_u8 Opcodes.READ_REF)
  | Bytecode.WriteRef => push (Opcodes.as_u8 Opcodes.WRITE_REF)
  | Bytecode.Add => push (Opcodes.as_u8 Opcodes.ADD)
  | Bytecode.Sub => push (Opcodes.as_u8 Opcodes.SUB)
  | Bytecode.Mul => push (Opcodes.as_u8 Opcodes.MUL)
  | Bytecode.Mod => push (Opcodes.as_u8 Opcodes.MOD)
  | Bytecode.Div => push (Opcodes.as_u8 Opcodes.DIV)
  | Bytecode.BitOr => push (Opcodes.as_u8 Opcodes.BIT_OR)
  | Bytecode.BitAnd => push (Opcodes.as_u8 Opcodes.BIT_AND)
  | Bytecode.Xor => push (Opcodes.as_u8 Opcodes.XOR)
  | Bytecode.Shl => push (Opcodes.as_u8 Opcodes.SHL)
  | Bytecode.Shr => push (Opcodes.as_u8 Opcodes.SHR)
  | Bytecode.Or => push (Opcodes.as_u8 Opcodes.OR)
  | Bytecode.And => push (Opcodes.as_u8 Opcodes.AND)
  | Bytecode.Not => push (Opcodes.as_u8 Opcodes.NOT)
  | Bytecode.Eq => push (Opcodes.as_u8 Opcodes.EQ)
  | Bytecode.Neq => push (Opcodes.as_u8 Opcodes.NEQ)
  | Bytecode.Lt => push (Opcodes.as_u8 Opcodes.LT)
  | Bytecode.Gt => push (Opcodes.as_u8 Opcodes.GT)
  | Bytecode.Le => push (Opcodes.as_u8 Opcodes.LE)
  | Bytecode.Ge => push (Opcodes.as_u8 Opcodes.GE)
  | Bytecode.Abort => push (Opcodes.as_u8 Opcodes.ABORT)
  | Bytecode.Nop => push (Opcodes.as_u8 Opcodes.NOP)
  | Bytecode.Exists class_idx =>
    push (Opcodes.as_u8 Opcodes.EXISTS);;
    serialize_struct_def_index class_idx
  | Bytecode.MutBorrowGlobal class_idx =>
    push (Opcodes.as_u8 Opcodes.MUT_BORROW_GLOBAL);;
    serialize_struct_def_index class_idx
  | Bytecode.ImmBorrowGlobal class_idx =>
    push (Opcodes.as_u8 Opcodes.IMM_BORROW_GLOBAL);;
    serialize_struct_def_index class_idx
  | Bytecode.MoveFrom class_idx =>
    push (Opcodes.as_u8 Opcodes.MOVE_FROM);;
    serialize_struct_def_index class_idx
  | Bytecode.MoveTo class_idx =>
    push (Opcodes.as_u8 Opcodes.MOVE_TO);;
    serialize_struct_def_index class_idx
  | Bytecode.ExistsGeneric class_idx =>
    push (Opcodes.as_u8 Opcodes.EXISTS_GENERIC);;
    serialize_struct_def_inst_index class_idx
  | Bytecode.MutBorrowGlobalGeneric class_idx =>
    push (Opcodes.as_u8 Opcodes.MUT_BORROW_GLOBAL_GENERIC);;
    serialize_struct_def_inst_index class_idx
  | Bytecode.ImmBorrowGlobalGeneric class_idx =>
    push (Opcodes.as_u8 Opcodes.IMM_BORROW_GLOBAL_GENERIC);;
    serialize_struct_def_inst_index class_idx
  | Bytecode.MoveFromGeneric class_idx =>
    push (Opcodes.as_u8 Opcodes.MOVE_FROM_GENERIC);;
    serialize_struct_def_inst_index class_idx
  | Bytecode.MoveToGeneric class_idx =>
    push (Opcodes.as_u8 Opcodes.MOVE_TO_GENERIC);;
    serialize_struct_def_inst_index class_idx
  | Bytecode.VecPack sig_idx num =>
    push (Opcodes.as_u8 Opcodes.VEC_PACK);;
    serialize_signature_index sig_idx;;
    write_u64 num
  | Bytecode.VecLen sig_idx =>
    push (Opcodes.as_u8 Opcodes.VEC_LEN);;
    serialize_signature_index sig_idx
  | Bytecode.VecImmBorrow sig_idx =>
    push (Opcodes.as_u8 Opcodes.VEC_IMM_BORROW);;
    serialize_signature_index sig_idx
  | Bytecode.VecMutBorrow sig_idx =>
    push (Opcodes.as_u8 Opcodes.VEC_MUT_BORROW);;
    serialize_signature_index sig_idx
  | Bytecode.VecPushBack sig_idx =>
    push (Opcodes.as_u8 Opcodes.VEC_PUSH_BACK);;
    serialize_signature_index sig_idx
  | Bytecode.VecPopBack sig_idx =>
    push (Opcodes.as_u8 Opcodes.VEC_POP_BACK);;
    serialize_signature_index sig_idx
  | Bytecode.VecUnpack sig_idx num =>
    push (Opcodes.as_u8 Opcodes.VEC_UNPACK);;
    serialize_signature_index sig_idx;;
    write_u64 num
  | Bytecode.VecSwap sig_idx =>
    push (Opcodes.as_u8 Opcodes.VEC_SWAP);;
    serialize_signature_index sig_idx
  end.

Definition serialize_code (code : list Bytecode) : Writer () :=
  serialize_bytecode_count (zlen code);;
  st_for code serialize_instruction_inner.

Definition serialize_code_unit (code : CodeUnit) : Writer () :=
  serialize_signature_index code.(CodeUnit.locals);;
  serialize_code code.(CodeUnit.code).

Definition serialize_function_definition (fd : FunctionDefinition) : Writer () :=
  serialize_function_handle_index fd.(FunctionDefinition.function);;
  push (Visibility.as_u8 fd.(FunctionDefinition.visibility));;
  push (if FunctionDefinition.is_native fd then FunctionDefinition.NATIVE else 0);;
  serialize_acquires fd.(FunctionDefinition.acquires_global_resources);;
  match fd.(FunctionDefinition.code) with
  | Some code => serialize_code_unit code
  | None => mret ()
  end.

(** * Headers and tables *)

Definition check_index_in_binary (index : Z) : result SerError Z :=
  if u32_max <? index then Err CompilationUnitTooBig else Ok index.

Definition serialize_table_index (kind : TableType) (offset count : Z) : Writer () :=
  if negb (count =? 0) then
    push (TableType.as_u8 kind);;
    seiralize_table_offset offset;;
    serialize_table_size count
  else mret ().

Definition serialize_magic : Writer () := st_for DIEM_MAGIC push.

(** The [assert!] that the table start is before its end is a panic. *)
Definition checked_calculate_table_size (binary : BinaryData) (start : Z) : result SerError Z :=
  offset ← check_index_in_binary (zlen binary);
  if start <=? offset then Ok (offset - start) else Panic.

Module CommonSerializer.
Record CommonSerializer : Set := mk {
  major_version : Z;
  table_count : Z;
  module_handles : Z * Z;
  struct_handles : Z * Z;
  function_handles : Z * Z;
  function_instantiations : Z * Z;
  signatures : Z * Z;
  identifiers : Z * Z;
  address_identifiers : Z * Z;
  constant_pool : Z * Z }.

Definition new (major_version : Z) : CommonSerializer :=
  mk major_version 0 (0, 0) (0, 0) (0, 0) (0, 0) (0, 0) (0, 0) (0, 0) (0, 0).

Definition set_table_count (n : Z) (s : CommonSerializer) : CommonSerializer :=
  mk s.(major_version) n s.(module_handles) s.(struct_handles) s.(function_handles) s.(function_instantiations) s.(signatures) s.(identifiers) s.(address_identifiers) s.(constant_pool).
Definition set_module_handles (p : Z * Z) (s : CommonSerializer) : CommonSerializer :=
  mk s.(major_version) s.(table_count) p s.(struct_handles) s.(function_handles) s.(function_instantiations) s.(signatures) s.(identifiers) s.(address_identifiers) s.(constant_pool).
Definition set_struct_handles (p : Z * Z) (s : CommonSerializer) : CommonSerializer :=
  mk s.(major_version) s.(table_count) s.(module_handles) p s.(function_handles) s.(function_instantiations) s.(signatures) s.(identifiers) s.(address_identifiers) s.(constant_pool).
Definition set_function_handles (p : Z * Z) (s : CommonSerializer) : CommonSerializer :=
  mk s.(major_version) s.(table_count) s.(module_handles) s.(struct_handles) p s.(function_instantiations) s.(signatures) s.(identifiers) s.(address_identifiers) s.(constant_pool).
Definition set_function_instantiations (p : Z * Z) (s : CommonSerializer) : CommonSerializer :=
  mk s.(major_version) s.(table_count) s.(module_handles) s.(struct_handles) s.(function_handles) p s.(signatures) s.(identifiers) s.(address_identifiers) s.(constant_pool).
Definition set_signatures (p : Z * Z) (s : CommonSerializer) : CommonSerializer :=
  mk s.(major_version) s.(table_count) s.(module_handles) s.(struct_handles) s.(function_handles) s.(function_instantiations) p s.(identifiers) s.(address_identifiers) s.(constant_pool).
Definition set_identifiers (p : Z * Z) (s : CommonSerializer) : CommonSerializer :=
  mk s.(major_version) s.(table_count) s.(module_handles) s.(struct_handles) s.(function_handles) s.(function_instantiations) s.(signatures) p s.(address_identifiers) s.(constant_pool).
Definition set_address_identifiers (p : Z * Z) (s : CommonSerializer) : CommonSerializer :=
  mk s.(major_version) s.(table_count) s.(module_handles) s.(struct_handles) s.(function_handles) s.(function_instantiations) s.(signatures) s.(identifiers) p s.(constant_pool).
Definition set_constant_pool (p : Z * Z) (s : CommonSerializer) : CommonSerializer :=
  mk s.(major_version) s.(table_count) s.(module_handles) s.(struct_handles) s.(function_handles) s.(function_instantiations) s.(signatures) s.(identifiers) s.(address_identifiers) p.

(** [self.table_count += 1] on a [u8]: overflow panics. *)
Definition incr_table_count (s : CommonSerializer) : result SerError CommonSerializer :=
  if u8_max <? s.(table_count) + 1 then Panic else Ok (set_table_count (s.(table_count) + 1) s).

(** [self.table_count.wrapping_add(1)] *)
Definition wrapping_incr_table_count (s : CommonSerializer) :
    result SerError CommonSerializer :=
  Ok (set_table_count ((s.(table_count) + 1) mod 2 ^ 8) s).
End CommonSerializer.
Abbreviation CommonSerializer := CommonSerializer.CommonSerializer.

Module ModuleSerializer.
Record ModuleSerializer : Set := mk {
  common : CommonSerializer;
  struct_defs : Z * Z;
  struct_def_instantiations : Z * Z;
  function_defs : Z * Z;
  field_handles : Z * Z;
  field_instantiations : Z * Z;
  friend_decls : Z * Z }.

Definition new (major_version : Z) : ModuleSerializer :=
  mk (CommonSerializer.new major_version) (0, 0) (0, 0) (0, 0) (0, 0) (0, 0) (0, 0).

Definition set_common (c : CommonSerializer) (s : ModuleSerializer) : ModuleSerializer :=
  mk c s.(struct_defs) s.(struct_def_instantiations) s.(function_defs) s.(field_handles) s.(field_instantiations) s.(friend_decls).
Definition set_struct_defs (p : Z * Z) (s : ModuleSerializer) : ModuleSerializer :=
  mk s.(common) p s.(struct_def_instantiations) s.(function_defs) s.(field_handles) s.(field_instantiations) s.(friend_decls).
Definition set_struct_def_instantiations (p : Z * Z) (s : ModuleSerializer) : ModuleSerializer :=
  mk s.(common) s.(struct_defs) p s.(function_defs) s.(field_handles) s.(field_instantiations) s.(friend_decls).
Definition set_function_defs (p : Z * Z) (s : ModuleSerializer) : ModuleSerializer :=
  mk s.(common) s.(struct_defs) s.(struct_def_instantiations) p s.(field_handles) s.(field_instantiations) s.(friend_decls).
Definition set_field_handles (p : Z * Z) (s : ModuleSerializer) : ModuleSerializer :=
  mk s.(common) s.(struct_defs) s.(struct_def_instantiations) s.(function_defs) p s.(field_instantiations) s.(friend_decls).
Definition set_field_instantiations (p : Z * Z) (s : ModuleSerializer) : ModuleSerializer :=
  mk s.(common) s.(struct_defs) s.(struct_def_instantiations) s.(function_defs) s.(field_handles) p s.(friend_decls).
Definition set_friend_decls (p : Z * Z) (s : ModuleSerializer) : ModuleSerializer :=
  mk s.(common) s.(struct_defs) s.(struct_def_instantiations) s.(function_defs) s.(field_handles) s.(field_instantiations) p.
End ModuleSerializer.
Abbreviation ModuleSerializer := ModuleSerializer.ModuleSerializer.

(** A serializer method works on [&mut self] and the binary being written. *)
Definition SerM (S : Type) : Type -> Type := ST (S * BinaryData) SerError.
#[global] Instance SerM_ret {S} : MRet (SerM S) := ST_ret.
#[global] Instance SerM_bind {S} : MBind (SerM S) := ST_bind.

(** The body all table functions share: unless the table is empty, count it,
    record where it starts, write its entries, record its size. *)
Definition serialize_table {S A} (count : S -> result SerError S) (set : Z * Z -> S -> S)
    (serialize : A -> Writer ()) (items : list A) : SerM S () := fun '(self, binary) =>
  match items with
  | [] => Ok ((), (self, binary))
  | _ :: _ =>
    self ← count self;
    start ← check_index_in_binary (zlen binary);
    '(_, binary) ← st_for items serialize binary;
    size ← checked_calculate_table_size binary start;
    Ok ((), (set (start, size) self, binary))
  end.

Definition serialize_module_handles :=
  serialize_table CommonSerializer.incr_table_count CommonSerializer.set_module_handles
    serialize_module_handle.
Definition serialize_struct_handles :=
  serialize_table CommonSerializer.incr_table_count CommonSerializer.set_struct_handles
    serialize_struct_handle.
Definition serialize_function_handles :=
  serialize_table CommonSerializer.incr_table_count CommonSerializer.set_function_handles
    serialize_function_handle.
Definition serialize_function_instantiations :=
  serialize_table CommonSerializer.incr_table_count CommonSerializer.set_function_instantiations
    serialize_function_instantiation.
Definition serialize_identifiers :=
  serialize_table CommonSerializer.incr_table_count CommonSerializer.set_identifiers
    serialize_identifier.
Definition serialize_address_identifiers :=
  serialize_table CommonSerializer.incr_table_count CommonSerializer.set_address_identifiers
    serialize_address.
Definition serialize_constants :=
  serialize_table CommonSerializer.incr_table_count CommonSerializer.set_constant_pool
    serialize_constant.
Definition serialize_signatures :=
  serialize_table CommonSerializer.incr_table_count CommonSerializer.set_signatures
    serialize_signature.

(** The [CommonTables] trait: what a script and a module share. *)
Class CommonTables (T : Type) := {
  get_module_handles : T -> list ModuleHandle;
  get_struct_handles : T -> list StructHandle;
  get_function_handles : T -> list FunctionHandle;
  get_function_instantiations : T -> list FunctionInstantiation;
  get_identifiers : T -> list Identifier;
  get_address_identifiers : T -> list AccountAddress;
  get_constant_pool : T -> list Constant;
  get_signatures : T -> list Signature }.

#[global] Instance CompiledScript_CommonTables : CommonTables CompiledScript := {
  get_module_handles := CompiledScript.module_handles;
  get_struct_handles := CompiledScript.struct_handles;
  get_function_handles := CompiledScript.function_handles;
  get_function_instantiations := CompiledScript.function_instantiations;
  get_identifiers := CompiledScript.identifiers;
  get_address_identifiers := CompiledScript.address_identifiers;
  get_constant_pool := CompiledScript.constant_pool;
  get_signatures := CompiledScript.signatures }.

#[global] Instance CompiledModule_CommonTables : CommonTables CompiledModule := {
  get_module_handles := CompiledModule.module_handles;
  get_struct_handles := CompiledModule.struct_handles;
  get_function_handles := CompiledModule.function_handles;
  get_function_instantiations := CompiledModule.function_instantiations;
  get_identifiers := CompiledModule.identifiers;
  get_address_identifiers := CompiledModule.address_identifiers;
  get_constant_pool := CompiledModule.constant_pool;
  get_signatures := CompiledModule.signatures }.

Definition serialize_common_tables {T} `{CommonTables T} (tables : T) :
    SerM CommonSerializer () :=
  serialize_module_handles (get_module_handles tables);;
  serialize_struct_handles (get_struct_handles tables);;
  serialize_function_handles (get_function_handles tables);;
  serialize_function_instantiations (get_function_instantiations tables);;
  serialize_signatures (get_signatures tables);;
  serialize_identifiers (get_identifiers tables);;
  serialize_address_identifiers (get_address_identifiers tables);;
  serialize_constants (get_constant_pool tables).

Definition serialize_header (self : CommonSerializer) : Writer () :=
  serialize_magic;;
  write_u32 self.(CommonSerializer.major_version).

Definition serialize_common_table_indices (self : CommonSerializer) : Writer () :=
  serialize_table_count self.(CommonSerializer.table_count);;
  serialize_table_index TableType.MODULE_HANDLES self.(CommonSerializer.module_handles).1 self.(CommonSerializer.module_handles).2;;
  serialize_table_index TableType.STRUCT_HANDLES self.(CommonSerializer.struct_handles).1 self.(CommonSerializer.struct_handles).2;;
  serialize_table_index TableType.FUNCTION_HANDLES self.(CommonSerializer.function_handles).1 self.(CommonSerializer.function_handles).2;;
  serialize_table_index TableType.FUNCTION_INST self.(CommonSerializer.function_instantiations).1 self.(CommonSerializer.function_instantiations).2;;
  serialize_table_index TableType.SIGNATURES self.(CommonSerializer.signatures).1 self.(CommonSerializer.signatures).2;;
  serialize_table_index TableType.IDENTIFIERS self.(CommonSerializer.identifiers).1 self.(CommonSerializer.identifiers).2;;
  serialize_table_index TableType.ADDRESS_IDENTIFIERS self.(CommonSerializer.address_identifiers).1 self.(CommonSerializer.address_identifiers).2;;
  serialize_table_index TableType.CONSTANT_POOL self.(CommonSerializer.constant_pool).1 self.(CommonSerializer.constant_pool).2.

(** [self.common] as the receiver. *)
Definition count_common (count : CommonSerializer -> result SerError CommonSerializer)
    (self : ModuleSerializer) : result SerError ModuleSerializer :=
  c ← count self.(ModuleSerializer.common); Ok (ModuleSerializer.set_common c self).

Definition on_common (m : SerM CommonSerializer ()) : SerM ModuleSerializer () :=
  fun '(self, binary) =>
    '(_, (c, binary)) ← m (self.(ModuleSerializer.common), binary);
    Ok ((), (ModuleSerializer.set_common c self, binary)).

Definition serialize_struct_definitions :=
  serialize_table (count_common CommonSerializer.wrapping_incr_table_count)
    ModuleSerializer.set_struct_defs serialize_struct_definition.
Definition serialize_struct_def_instantiations :=
  serialize_table (count_common CommonSerializer.wrapping_incr_table_count)
    ModuleSerializer.set_struct_def_instantiations serialize_struct_def_instantiation.
Definition serialize_field_handles :=
  serialize_table (count_common CommonSerializer.incr_table_count)
    ModuleSerializer.set_field_handles serialize_field_handle.
Definition serialize_field_instantiations :=
  serialize_table (count_common CommonSerializer.incr_table_count)
    ModuleSerializer.set_field_instantiations serialize_field_instantiation.
Definition serialize_function_definitions :=
  serialize_table (count_common CommonSerializer.wrapping_incr_table_count)
    ModuleSerializer.set_function_defs serialize_function_definition.
Definition serialize_friend_declarations :=
  serialize_table (count_common CommonSerializer.wrapping_incr_table_count)
    ModuleSerializer.set_friend_decls serialize_module_handle.

Definition serialize_tables (module : CompiledModule) : SerM ModuleSerializer () :=
  on_common (serialize_common_tables module);;
  serialize_struct_definitions module.(CompiledModule.struct_defs);;
  serialize_struct_def_instantiations module.(CompiledModule.struct_def_instantiations);;
  serialize_function_definitions module.(CompiledModule.function_defs);;
  serialize_field_handles module.(CompiledModule.field_handles);;
  serialize_field_instantiations module.(CompiledModule.field_instantiations);;
  serialize_friend_declarations module.(CompiledModule.friend_decls).

Definition serialize_module_table_indices (self : ModuleSerializer) : Writer () :=
  serialize_common_table_indices self.(ModuleSerializer.common);;
  serialize_table_index TableType.STRUCT_DEFS self.(ModuleSerializer.struct_defs).1 self.(ModuleSerializer.struct_defs).2;;
  serialize_table_index TableType.STRUCT_DEF_INST self.(ModuleSerializer.struct_def_instantiations).1 self.(ModuleSerializer.struct_def_instantiations).2;;
  serialize_table_index TableType.FUNCTION_DEFS self.(ModuleSerializer.function_defs).1 self.(ModuleSerializer.function_defs).2;;
  serialize_table_index TableType.FIELD_HANDLE self.(ModuleSerializer.field_handles).1 self.(ModuleSerializer.field_handles).2;;
  serialize_table_index TableType.FIELD_INST self.(ModuleSerializer.field_instantiations).1 self.(ModuleSerializer.field_instantiations).2;;
  serialize_table_index TableType.FRIEND_DECLS self.(ModuleSerializer.friend_decls).1 self.(ModuleSerializer.friend_decls).2.

(** [ScriptSerializer::serialize_main] *)
Definition serialize_main (script : CompiledScript) : Writer () :=
  serialize_ability_sets script.(CompiledScript.type_parameters);;
  serialize_signature_index script.(CompiledScript.parameters);;
  serialize_code_unit script.(CompiledScript.code).

(** * Entry points *)

(** [CompiledModule::serialize] *)
Definition serialize_module (m : CompiledModule) (binary : list Z) :
    result SerError (list Z) :=
  '(_, (ser, temp)) ← serialize_tables m (ModuleSerializer.new VERSION_MAX, []);
  if u32_max <? zlen temp then Err TableContentTooBig
  else
    '(_, binary) ←
      (serialize_header ser.(ModuleSerializer.common);;
       serialize_module_table_indices ser;;
       extend temp;;
       serialize_module_handle_index m.(CompiledModule.self_module_handle_idx)) binary;
    Ok binary.

(** [CompiledScript::serialize] *)
Definition serialize_script (s : CompiledScript) (binary : list Z) :
    result SerError (list Z) :=
  '(_, (ser, temp)) ← serialize_common_tables s (CommonSerializer.new VERSION_MAX, []);
  if TABLE_CONTENT_SIZE_MAX <? zlen temp then Err TableContentTooBig
  else
    '(_, binary) ←
      (serialize_header ser;;
       serialize_common_table_indices ser;;
       extend temp;;
       serialize_main s) binary;
    Ok binary.
