(* ===== verification/Deserializer.v ===== *)
(** The deserializer: move-binary-format/src/deserializer.rs.  A function that
    takes the cursor is a [Reader]; errors are the [StatusCode] of the
    [PartialVMError] it returns. *)
From S2P Require Import Prelude StatusCode Abilities Identifier FileFormat BinaryCommon.

Module Table.
Record Table : Set := mk { kind : TableType; offset : Z; count : Z }.
End Table.
Abbreviation Table := Table.Table.

(** * Primitive readers *)

Definition read_u64_internal : Reader Z :=
  u64_bytes ← on_cursor BAD_U64 (cursor_read_exact 8); mret (from_le_bytes u64_bytes).

Definition read_u128_internal : Reader Z :=
  u128_bytes ← on_cursor BAD_U128 (cursor_read_exact 16); mret (from_le_bytes u128_bytes).

(** [read_uleb_internal::<T>(cursor, max)]: [tmax] is the largest value of [T],
    for the [try_into]. *)
Definition read_uleb_internal (tmax max : Z) : Reader Z :=
  x ← on_cursor MALFORMED read_uleb128_as_u64;
  if max <? x then st_err MALFORMED
  else if tmax <? x then st_err UNKNOWN_INVARIANT_VIOLATION_ERROR
  else mret x.

Definition load_signature_index : Reader SignatureIndex :=
  read_uleb_internal u16_max SIGNATURE_INDEX_MAX.
Definition load_module_handle_index : Reader ModuleHandleIndex :=
  read_uleb_internal u16_max MODULE_HANDLE_INDEX_MAX.
Definition load_identifier_index : Reader IdentifierIndex :=
  read_uleb_internal u16_max IDENTIFIER_INDEX_MAX.
Definition load_struct_handle_index : Reader StructHandleIndex :=
  read_uleb_internal u16_max STRUCT_HANDLE_INDEX_MAX.
Definition load_address_identifier_index : Reader AddressIdentifierIndex :=
  read_uleb_internal u16_max ADDRESS_INDEX_MAX.
Definition load_struct_def_index : Reader StructDefinitionIndex :=
  read_uleb_internal u16_max STRUCT_DEF_INDEX_MAX.
Definition load_function_handle_index : Reader FunctionHandleIndex :=
  read_uleb_internal u16_max FUNCTION_HANDLE_INDEX_MAX.
Definition load_field_handle_index : Reader FieldHandleIndex :=
  read_uleb_internal u16_max FIELD_HANDLE_INDEX_MAX.
Definition load_field_inst_index : Reader FieldInstantiationIndex :=
  read_uleb_internal u16_max FIELD_INST_INDEX_MAX.
Definition load_function_inst_index : Reader FunctionInstantiationIndex :=
  read_uleb_internal u16_max FUNCTION_INST_INDEX_MAX.
Definition load_struct_def_inst_index : Reader StructDefInstantiationIndex :=
  read_uleb_internal u16_max STRUCT_DEF_INST_INDEX_MAX.
Definition load_constant_pool_index : Reader ConstantPoolIndex :=
  read_uleb_internal u16_max CONSTANT_INDEX_MAX.
Definition load_bytecode_count : Reader Z := read_uleb_internal usize_max BYTECODE_COUNT_MAX.
Definition load_bytecode_index : Reader Z := read_uleb_internal u16_max BYTECODE_INDEX_MAX.
Definition load_acquires_count : Reader Z := read_uleb_internal u64_max ACQUIRES_COUNT_MAX.
Definition load_field_count : Reader Z := read_uleb_internal u64_max FIELD_COUNT_MAX.
Definition load_type_parameter_count : Reader Z := read_uleb_internal usize_max TYPE_PARAMETER_COUNT_MAX.
Definition load_signature_size : Reader Z := read_uleb_internal u64_max SIGNATURE_SIZE_MAX.
Definition load_constant_size : Reader Z := read_uleb_internal usize_max CONSTANT_SIZE_MAX.
Definition load_identifier_size : Reader Z := read_uleb_internal usize_max IDENTIFIER_SIZE_MAX.
Definition load_type_parameter_index : Reader Z := read_uleb_internal u16_max TYPE_PARAMETER_INDEX_MAX.
Definition load_field_offset : Reader Z := read_uleb_internal u16_max FIELD_OFFSET_MAX.
Definition load_table_count : Reader Z := read_uleb_internal u8_max TABLE_COUNT_MAX.
Definition load_table_offset : Reader Z := read_uleb_internal u32_max TABLE_OFFSET_MAX.
Definition load_table_size : Reader Z := read_uleb_internal u32_max TABLE_SIZE_MAX.
Definition load_local_index : Reader Z := read_uleb_internal u8_max LOCAL_INDEX_MAX.

(** [cursor.read_u8().map_err(|_| MALFORMED)] *)
Definition read_u8_malformed : Reader Z := on_cursor MALFORMED read_u8.

(** * Conversions from bytes *)

Definition TableType_from_u8 (value : Z) : result StatusCode TableType :=
  match value with
  | 0x1 => Ok TableType.MODULE_HANDLES
  | 0x2 => Ok TableType.STRUCT_HANDLES
  | 0x3 => Ok TableType.FUNCTION_HANDLES
  | 0x4 => Ok TableType.FUNCTION_INST
  | 0x5 => Ok TableType.SIGNATURES
  | 0x6 => Ok TableType.CONSTANT_POOL
  | 0x7 => Ok TableType.IDENTIFIERS
  | 0x8 => Ok TableType.ADDRESS_IDENTIFIERS
  | 0xA => Ok TableType.STRUCT_DEFS
  | 0xB => Ok TableType.STRUCT_DEF_INST
  | 0xC => Ok TableType.FUNCTION_DEFS
  | 0xD => Ok TableType.FIELD_HANDLE
  | 0xE => Ok TableType.FIELD_INST
  | 0xF => Ok TableType.FRIEND_DECLS
  | _ => Err UNKNOWN_TABLE_TYPE
  end.

Definition SerializedType_from_u8 (value : Z) : result StatusCode SerializedType :=
  match value with
  | 0x1 => Ok SerializedType.BOOL
  | 0x2 => Ok SerializedType.U8
  | 0x3 => Ok SerializedType.U64
  | 0x4 => Ok SerializedType.U128
  | 0x5 => Ok SerializedType.ADDRESS
  | 0x6 => Ok SerializedType.REFERENCE
  | 0x7 => Ok SerializedType.MUTABLE_REFERENCE
  | 0x8 => Ok SerializedType.STRUCT
  | 0x9 => Ok SerializedType.TYPE_PARAMETER
  | 0xA => Ok SerializedType.VECTOR
  | 0xB => Ok SerializedType.STRUCT_INST
  | 0xC => Ok SerializedType.SIGNER
  | _ => Err UNKNOWN_SERIALIZED_TYPE
  end.

Module DeprecatedNominalResourceFlag.
Inductive DeprecatedNominalResourceFlag : Set := NOMINAL_RESOURCE | NORMAL_STRUCT.
End DeprecatedNominalResourceFlag.
Abbreviation DeprecatedNominalResourceFlag :=
  DeprecatedNominalResourceFlag.DeprecatedNominalResourceFlag.

Definition DeprecatedNominalResourceFlag_from_u8 (value : Z) : result StatusCode DeprecatedNominalResourceFlag :=
  match value with
  | 0x1 => Ok DeprecatedNominalResourceFlag.NOMINAL_RESOURCE
  | 0x2 => Ok DeprecatedNominalResourceFlag.NORMAL_STRUCT
  | _ => Err UNKNOWN_ABILITY
  end.

Module DeprecatedKind.
Inductive DeprecatedKind : Set := ALL | COPYABLE | RESOURCE.
End DeprecatedKind.
Abbreviation DeprecatedKind := DeprecatedKind.DeprecatedKind.

Definition DeprecatedKind_from_u8 (value : Z) : result StatusCode DeprecatedKind :=
  match value with
  | 0x1 => Ok DeprecatedKind.ALL
  | 0x2 => Ok DeprecatedKind.COPYABLE
  | 0x3 => Ok DeprecatedKind.RESOURCE
  | _ => Err UNKNOWN_ABILITY
  end.

Definition SerializedNativeStructFlag_from_u8 (value : Z) : result StatusCode SerializedNativeStructFlag :=
  match value with
  | 0x1 => Ok SerializedNativeStructFlag.NATIVE
  | 0x2 => Ok SerializedNativeStructFlag.DECLARED
  | _ => Err UNKNOWN_NATIVE_STRUCT_FLAG
  end.

Definition Opcodes_from_u8 (value : Z) : result StatusCode Opcodes :=
  match value with
  | 0x01 => Ok Opcodes.POP
  | 0x02 => Ok Opcodes.RET
  | 0x03 => Ok Opcodes.BR_TRUE
  | 0x04 => Ok Opcodes.BR_FALSE
  | 0x05 => Ok Opcodes.BRANCH
  | 0x06 => Ok Opcodes.LD_U64
  | 0x07 => Ok Opcodes.LD_CONST
  | 0x08 => Ok Opcodes.LD_TRUE
  | 0x09 => Ok Opcodes.LD_FALSE
  | 0x0A => Ok Opcodes.COPY_LOC
  | 0x0B => Ok Opcodes.MOVE_LOC
  | 0x0C => Ok Opcodes.ST_LOC
  | 0x0D => Ok Opcodes.MUT_BORROW_LOC
  | 0x0E => Ok Opcodes.IMM_BORROW_LOC
  | 0x0F => Ok Opcodes.MUT_BORROW_FIELD
  | 0x10 => Ok Opcodes.IMM_BORROW_FIELD
  | 0x11 => Ok Opcodes.CALL
  | 0x12 => Ok Opcodes.PACK
  | 0x13 => Ok Opcodes.UNPACK
  | 0x14 => Ok Opcodes.READ_REF
  | 0x15 => Ok Opcodes.WRITE_REF
  | 0x16 => Ok Opcodes.ADD
  | 0x17 => Ok Opcodes.SUB
  | 0x18 => Ok Opcodes.MUL
  | 0x19 => Ok Opcodes.MOD
  | 0x1A => Ok Opcodes.DIV
  | 0x1B => Ok Opcodes.BIT_OR
  | 0x1C => Ok Opcodes.BIT_AND
  | 0x1D => Ok Opcodes.XOR
  | 0x1E => Ok Opcodes.OR
  | 0x1F => Ok Opcodes.AND
  | 0x20 => Ok Opcodes.NOT
  | 0x21 => Ok Opcodes.EQ
  | 0x22 => Ok Opcodes.NEQ
  | 0x23 => Ok Opcodes.LT
  | 0x24 => Ok Opcodes.GT
  | 0x25 => Ok Opcodes.LE
  | 0x26 => Ok Opcodes.GE
  | 0x27 => Ok Opcodes.ABORT
  | 0x28 => Ok Opcodes.NOP
  | 0x29 => Ok Opcodes.EXISTS
  | 0x2A => Ok Opcodes.MUT_BORROW_GLOBAL
  | 0x2B => Ok Opcodes.IMM_BORROW_GLOBAL
  | 0x2C => Ok Opcodes.MOVE_FROM
  | 0x2D => Ok Opcodes.MOVE_TO
  | 0x2E => Ok Opcodes.FREEZE_REF
  | 0x2F => Ok Opcodes.SHL
  | 0x30 => Ok Opcodes.SHR
  | 0x31 => Ok Opcodes.LD_U8
  | 0x32 => Ok Opcodes.LD_U128
  | 0x33 => Ok Opcodes.CAST_U8
  | 0x34 => Ok Opcodes.CAST_U64
  | 0x35 => Ok Opcodes.CAST_U128
  | 0x36 => Ok Opcodes.MUT_BORROW_FIELD_GENERIC
  | 0x37 => Ok Opcodes.IMM_BORROW_FIELD_GENERIC
  | 0x38 => Ok Opcodes.CALL_GENERIC
  | 0x39 => Ok Opcodes.PACK_GENERIC
  | 0x3A => Ok Opcodes.UNPACK_GENERIC
  | 0x3B => Ok Opcodes.EXISTS_GENERIC
  | 0x3C => Ok Opcodes.MUT_BORROW_GLOBAL_GENERIC
  | 0x3D => Ok Opcodes.IMM_BORROW_GLOBAL_GENERIC
  | 0x3E => Ok Opcodes.MOVE_FROM_GENERIC
  | 0x3F => Ok Opcodes.MOVE_TO_GENERIC
  | 0x40 => Ok Opcodes.VEC_PACK
  | 0x41 => Ok Opcodes.VEC_LEN
  | 0x42 => Ok Opcodes.VEC_IMM_BORROW
  | 0x43 => Ok Opcodes.VEC_MUT_BORROW
  | 0x44 => Ok Opcodes.VEC_PUSH_BACK
  | 0x45 => Ok Opcodes.VEC_POP_BACK
  | 0x46 => Ok Opcodes.VEC_UNPACK
  | 0x47 => Ok Opcodes.VEC_SWAP
  | _ => Err UNKNOWN_OPCODE
  end.

(** * Signature tokens

    A partially built type on the stack of [load_signature_token]. *)

Module TypeBuilder.
Inductive TypeBuilder : Set :=
| Saturated (tok : SignatureToken)
| Vector
| Reference
| MutableReference
| StructInst (sh_idx : StructHandleIndex) (arity : Z) (ty_args : list SignatureToken).

Definition apply (self : TypeBuilder) (tok : SignatureToken) : result StatusCode TypeBuilder :=
  match self with
  | Vector => Ok (Saturated (SignatureToken.Vector tok))
  | Reference => Ok (Saturated (SignatureToken.Reference tok))
  | MutableReference => Ok (Saturated (SignatureToken.MutableReference tok))
  | StructInst sh_idx arity ty_args =>
    let ty_args := ty_args ++ [tok] in
    if arity <=? zlen ty_args then
      Ok (Saturated (SignatureToken.StructInstantiation sh_idx ty_args))
    else Ok (StructInst sh_idx arity ty_args)
  | Saturated _ => Panic
  end.

Definition is_saturated (self : TypeBuilder) : bool :=
  match self with Saturated _ => true | _ => false end.

Definition unwrap_saturated (self : TypeBuilder) : result StatusCode SignatureToken :=
  match self with Saturated tok => Ok tok | _ => Panic end.
End TypeBuilder.
Abbreviation TypeBuilder := TypeBuilder.TypeBuilder.

(** The closure [read_next]. *)
Definition read_next : Reader TypeBuilder :=
  byte ← read_u8_malformed;
  s ← st_lift (SerializedType_from_u8 byte);
  match s with
  | SerializedType.BOOL => mret (TypeBuilder.Saturated SignatureToken.Bool)
  | SerializedType.U8 => mret (TypeBuilder.Saturated SignatureToken.U8)
  | SerializedType.U64 => mret (TypeBuilder.Saturated SignatureToken.U64)
  | SerializedType.U128 => mret (TypeBuilder.Saturated SignatureToken.U128)
  | SerializedType.ADDRESS => mret (TypeBuilder.Saturated SignatureToken.Address)
  | SerializedType.SIGNER => mret (TypeBuilder.Saturated SignatureToken.Signer)
  | SerializedType.VECTOR => mret TypeBuilder.Vector
  | SerializedType.REFERENCE => mret TypeBuilder.Reference
  | SerializedType.MUTABLE_REFERENCE => mret TypeBuilder.MutableReference
  | SerializedType.STRUCT =>
    sh_idx ← load_struct_handle_index;
    mret (TypeBuilder.Saturated (SignatureToken.Struct sh_idx))
  | SerializedType.STRUCT_INST =>
    sh_idx ← load_struct_handle_index;
    arity ← load_type_parameter_count;
    mret (TypeBuilder.StructInst sh_idx arity [])
  | SerializedType.TYPE_PARAMETER =>
    idx ← load_type_parameter_index;
    mret (TypeBuilder.Saturated (SignatureToken.TypeParameter idx))
  end.

(** The [loop]; the head of [stack] is the top of the source's stack. *)
Fixpoint load_signature_token_loop (fuel : nat) (stack : list TypeBuilder) :
    Reader SignatureToken :=
  match fuel with
  | O => fun _ => OutOfFuel
  | S fuel =>
    if SIGNATURE_TOKEN_DEPTH_MAX <? zlen stack then st_err MALFORMED
    else
      match stack with
      | [] => st_panic
      | last :: rest =>
        if TypeBuilder.is_saturated last then
          tok ← st_lift (TypeBuilder.unwrap_saturated last);
          match rest with
          | t :: rest =>
            t ← st_lift (TypeBuilder.apply t tok);
            load_signature_token_loop fuel (t :: rest)
          | [] => mret tok
          end
        else
          t ← read_next;
          load_signature_token_loop fuel (t :: stack)
      end
  end.

(** Each iteration reads a byte or shrinks the stack, so twice the number of
    unread bytes bounds the iterations. *)
Definition load_signature_token_from (t : TypeBuilder) : Reader SignatureToken := fun c =>
  match t with
  | TypeBuilder.Saturated tok => Ok (tok, c)
  | t =>
    load_signature_token_loop (2 * length c.(VersionedCursor.cursor).(Cursor.rest) + 2) [t] c
  end.

Definition load_signature_token : Reader SignatureToken :=
  t ← read_next; load_signature_token_from t.

Definition load_signature_tokens : Reader (list SignatureToken) :=
  len ← load_signature_size;
  st_repeat (Z.to_nat len) load_signature_token.

(** * Ability sets *)

Inductive AbilitySetPosition : Set :=
| FunctionTypeParameters | StructTypeParameters | StructHandlePosition.

Definition load_ability_set (pos : AbilitySetPosition) : Reader AbilitySet :=
  version ← cursor_version;
  if version <? 2 then
    byte ← read_u8_malformed;
    match pos with
    | StructHandlePosition =>
      flag ← st_lift (DeprecatedNominalResourceFlag_from_u8 byte);
      mret (match flag with
            | DeprecatedNominalResourceFlag.NOMINAL_RESOURCE =>
              AbilitySet.bitor (AbilitySet.bitor AbilitySet.EMPTY Ability.Store) Ability.Key
            | DeprecatedNominalResourceFlag.NORMAL_STRUCT =>
              AbilitySet.bitor
                (AbilitySet.bitor (AbilitySet.bitor AbilitySet.EMPTY Ability.Store) Ability.Copy)
                Ability.Drop
            end)
    | FunctionTypeParameters | StructTypeParameters =>
      kind ← st_lift (DeprecatedKind_from_u8 byte);
      let set :=
        match kind with
        | DeprecatedKind.ALL => AbilitySet.EMPTY
        | DeprecatedKind.COPYABLE =>
          AbilitySet.bitor (AbilitySet.bitor AbilitySet.EMPTY Ability.Copy) Ability.Drop
        | DeprecatedKind.RESOURCE => AbilitySet.bitor AbilitySet.EMPTY Ability.Key
        end in
      match pos with
      | StructHandlePosition => st_panic
      | FunctionTypeParameters => mret (AbilitySet.bitor set Ability.Store)
      | StructTypeParameters => mret set
      end
    end
  else
    u ← read_uleb_internal u8_max (AbilitySet.into_u8 AbilitySet.ALL);
    match AbilitySet.from_u8 u with
    | Some abilities => mret abilities
    | None => st_err UNKNOWN_ABILITY
    end.

Definition load_ability_sets (pos : AbilitySetPosition) : Reader (list AbilitySet) :=
  len ← load_type_parameter_count;
  st_repeat (Z.to_nat len) (load_ability_set pos).

Definition load_struct_type_parameter : Reader StructTypeParameter :=
  constraints ← load_ability_set StructTypeParameters;
  version ← cursor_version;
  is_phantom ←
    (if version <? VERSION_3 then mret false
     else byte ← read_uleb_internal u8_max 1; mret (negb (byte =? 0)));
  mret (StructTypeParameter.mk constraints is_phantom).

Definition load_struct_type_parameters : Reader (list StructTypeParameter) :=
  len ← load_type_parameter_count;
  st_repeat (Z.to_nat len) load_struct_type_parameter.

(** * Table entries: the bodies of the table loops *)

Definition load_module_handle : Reader ModuleHandle :=
  address ← load_address_identifier_index;
  name ← load_identifier_index;
  mret (ModuleHandle.mk address name).

Definition load_struct_handle : Reader StructHandle :=
  module ← load_module_handle_index;
  name ← load_identifier_index;
  abilities ← load_ability_set StructHandlePosition;
  type_parameters ← load_struct_type_parameters;
  mret (StructHandle.mk module name abilities type_parameters).

Definition load_function_handle : Reader FunctionHandle :=
  module ← load_module_handle_index;
  name ← load_identifier_index;
  parameters ← load_signature_index;
  return_ ← load_signature_index;
  type_parameters ← load_ability_sets FunctionTypeParameters;
  mret (FunctionHandle.mk module name parameters return_ type_parameters).

Definition load_struct_instantiation : Reader StructDefInstantiation :=
  def ← load_struct_def_index;
  type_parameters ← load_signature_index;
  mret (StructDefInstantiation.mk def type_parameters).

Definition load_function_instantiation : Reader FunctionInstantiation :=
  handle ← load_function_handle_index;
  type_parameters ← load_signature_index;
  mret (FunctionInstantiation.mk handle type_parameters).

(** Reading from a cursor never fails, so the [if let Ok(count)] always takes its
    branch. *)
Definition load_identifier : Reader Identifier :=
  size ← load_identifier_size;
  buffer ← on_cursor MALFORMED (cursor_read (Z.to_nat size));
  if negb (zlen buffer =? size) then st_err MALFORMED
  else st_lift (map_err MALFORMED (Identifier.from_utf8 buffer)).

Definition load_constant : Reader Constant :=
  type_ ← load_signature_token;
  size ← load_constant_size;
  data ← on_cursor MALFORMED (cursor_read (Z.to_nat size));
  if negb (zlen data =? size) then st_err MALFORMED
  else mret (Constant.mk type_ data).

Definition load_field_def : Reader FieldDefinition :=
  name ← load_identifier_index;
  signature ← load_signature_token;
  mret (FieldDefinition.mk name signature).

Definition load_field_defs : Reader (list FieldDefinition) :=
  field_count ← load_field_count;
  st_repeat (Z.to_nat field_count) load_field_def.

Definition load_struct_def : Reader StructDefinition :=
  struct_handle ← load_struct_handle_index;
  byte ← read_u8_malformed;
  field_information_flag ← st_lift (SerializedNativeStructFlag_from_u8 byte);
  field_information ←
    match field_information_flag with
    | SerializedNativeStructFlag.NATIVE => mret Native
    | SerializedNativeStructFlag.DECLARED =>
      fields ← load_field_defs; mret (Declared fields)
    end;
  mret (StructDefinition.mk struct_handle field_information).

Definition load_field_handle : Reader FieldHandle :=
  struct_idx ← load_struct_def_index;
  offset ← load_field_offset;
  mret (FieldHandle.mk struct_idx offset).

Definition load_field_instantiation : Reader FieldInstantiation :=
  handle ← load_field_handle_index;
  type_parameters ← load_signature_index;
  mret (FieldInstantiation.mk handle type_parameters).

Definition load_struct_definition_indices : Reader (list StructDefinitionIndex) :=
  len ← load_acquires_count;
  st_repeat (Z.to_nat len) load_struct_def_index.

(** * Code *)

(** The version check of [load_code]. *)
Definition is_vector_opcode (opcode : Opcodes) : bool :=
  match opcode with
  | Opcodes.VEC_PACK | Opcodes.VEC_LEN | Opcodes.VEC_IMM_BORROW | Opcodes.VEC_MUT_BORROW
  | Opcodes.VEC_PUSH_BACK | Opcodes.VEC_POP_BACK | Opcodes.VEC_UNPACK
  | Opcodes.VEC_SWAP => true
  | _ => false
  end.

(** The conversion of an opcode, reading its operands. *)
Definition load_operands (opcode : Opcodes) : Reader Bytecode :=
  match opcode with
  | Opcodes.POP => mret Bytecode.Pop
  | Opcodes.RET => mret Bytecode.Ret
  | Opcodes.BR_TRUE => x ← load_bytecode_index; mret (Bytecode.BrTrue x)
  | Opcodes.BR_FALSE => x ← load_bytecode_index; mret (Bytecode.BrFalse x)
  | Opcodes.BRANCH => x ← load_bytecode_index; mret (Bytecode.Branch x)
  | Opcodes.LD_U8 => x ← read_u8_malformed; mret (Bytecode.LdU8 x)
  | Opcodes.LD_U64 => x ← read_u64_internal; mret (Bytecode.LdU64 x)
  | Opcodes.LD_U128 => x ← read_u128_internal; mret (Bytecode.LdU128 x)
  | Opcodes.CAST_U8 => mret Bytecode.CastU8
  | Opcodes.CAST_U64 => mret Bytecode.CastU64
  | Opcodes.CAST_U128 => mret Bytecode.CastU128
  | Opcodes.LD_CONST => x ← load_constant_pool_index; mret (Bytecode.LdConst x)
  | Opcodes.LD_TRUE => mret Bytecode.LdTrue
  | Opcodes.LD_FALSE => mret Bytecode.LdFalse
  | Opcodes.COPY_LOC => x ← load_local_index; mret (Bytecode.CopyLoc x)
  | Opcodes.MOVE_LOC => x ← load_local_index; mret (Bytecode.MoveLoc x)
  | Opcodes.ST_LOC => x ← load_local_index; mret (Bytecode.StLoc x)
  | Opcodes.MUT_BORROW_LOC => x ← load_local_index; mret (Bytecode.MutBorrowLoc x)
  | Opcodes.IMM_BORROW_LOC => x ← load_local_index; mret (Bytecode.ImmBorrowLoc x)
  | Opcodes.MUT_BORROW_FIELD => x ← load_field_handle_index; mret (Bytecode.MutBorrowField x)
  | Opcodes.MUT_BORROW_FIELD_GENERIC => x ← load_field_inst_index; mret (Bytecode.MutBorrowFieldGeneric x)
  | Opcodes.IMM_BORROW_FIELD => x ← load_field_handle_index; mret (Bytecode.ImmBorrowField x)
  | Opcodes.IMM_BORROW_FIELD_GENERIC => x ← load_field_inst_index; mret (Bytecode.ImmBorrowFieldGeneric x)
  | Opcodes.CALL => x ← load_function_handle_index; mret (Bytecode.Call x)
  | Opcodes.CALL_GENERIC => x ← load_function_inst_index; mret (Bytecode.CallGeneric x)
  | Opcodes.PACK => x ← load_struct_def_index; mret (Bytecode.Pack x)
  | Opcodes.PACK_GENERIC => x ← load_struct_def_inst_index; mret (Bytecode.PackGeneric x)
  | Opcodes.UNPACK => x ← load_struct_def_index; mret (Bytecode.Unpack x)
  | Opcodes.UNPACK_GENERIC => x ← load_struct_def_inst_index; mret (Bytecode.UnpackGeneric x)
  | Opcodes.READ_REF => mret Bytecode.ReadRef
  | Opcodes.WRITE_REF => mret Bytecode.WriteRef
  | Opcodes.ADD => mret Bytecode.Add
  | Opcodes.SUB => mret Bytecode.Sub
  | Opcodes.MUL => mret Bytecode.Mul
  | Opcodes.MOD => mret Bytecode.Mod
  | Opcodes.DIV => mret Bytecode.Div
  | Opcodes.BIT_OR => mret Bytecode.BitOr
  | Opcodes.BIT_AND => mret Bytecode.BitAnd
  | Opcodes.XOR => mret Bytecode.Xor
  | Opcodes.SHL => mret Bytecode.Shl
  | Opcodes.SHR => mret Bytecode.Shr
  | Opcodes.OR => mret Bytecode.Or
  | Opcodes.AND => mret Bytecode.And
  | Opcodes.NOT => mret Bytecode.Not
  | Opcodes.EQ => mret Bytecode.Eq
  | Opcodes.NEQ => mret Bytecode.Neq
  | Opcodes.LT => mret Bytecode.Lt
  | Opcodes.GT => mret Bytecode.Gt
  | Opcodes.LE => mret Bytecode.Le
  | Opcodes.GE => mret Bytecode.Ge
  | Opcodes.ABORT => mret Bytecode.Abort
  | Opcodes.NOP => mret Bytecode.Nop
  | Opcodes.EXISTS => x ← load_struct_def_index; mret (Bytecode.Exists x)
  | Opcodes.EXISTS_GENERIC => x ← load_struct_def_inst_index; mret (Bytecode.ExistsGeneric x)
  | Opcodes.MUT_BORROW_GLOBAL => x ← load_struct_def_index; mret (Bytecode.MutBorrowGlobal x)
  | Opcodes.MUT_BORROW_GLOBAL_GENERIC => x ← load_struct_def_inst_index; mret (Bytecode.MutBorrowGlobalGeneric x)
  | Opcodes.IMM_BORROW_GLOBAL => x ← load_struct_def_index; mret (Bytecode.ImmBorrowGlobal x)
  | Opcodes.IMM_BORROW_GLOBAL_GENERIC => x ← load_struct_def_inst_index; mret (Bytecode.ImmBorrowGlobalGeneric x)
  | Opcodes.MOVE_FROM => x ← load_struct_def_index; mret (Bytecode.MoveFrom x)
  | Opcodes.MOVE_FROM_GENERIC => x ← load_struct_def_inst_index; mret (Bytecode.MoveFromGeneric x)
  | Opcodes.MOVE_TO => x ← load_struct_def_index; mret (Bytecode.MoveTo x)
  | Opcodes.MOVE_TO_GENERIC => x ← load_struct_def_inst_index; mret (Bytecode.MoveToGeneric x)
  | Opcodes.FREEZE_REF => mret Bytecode.FreezeRef
  | Opcodes.VEC_PACK =>
    x ← load_signature_index; n ← read_u64_internal; mret (Bytecode.VecPack x n)
  | Opcodes.VEC_LEN => x ← load_signature_index; mret (Bytecode.VecLen x)
  | Opcodes.VEC_IMM_BORROW => x ← load_signature_index; mret (Bytecode.VecImmBorrow x)
  | Opcodes.VEC_MUT_BORROW => x ← load_signature_index; mret (Bytecode.VecMutBorrow x)
  | Opcodes.VEC_PUSH_BACK => x ← load_signature_index; mret (Bytecode.VecPushBack x)
  | Opcodes.VEC_POP_BACK => x ← load_signature_index; mret (Bytecode.VecPopBack x)
  | Opcodes.VEC_UNPACK =>
    x ← load_signature_index; n ← read_u64_internal; mret (Bytecode.VecUnpack x n)
  | Opcodes.VEC_SWAP => x ← load_signature_index; mret (Bytecode.VecSwap x)
  end.

(** The body of the [while] loop of [load_code]. *)
Definition load_bytecode : Reader Bytecode :=
  byte ← read_u8_malformed;
  opcode ← st_lift (Opcodes_from_u8 byte);
  version ← cursor_version;
  if is_vector_opcode opcode && (version <? VERSION_4) then st_err MALFORMED
  else load_operands opcode.

(** [while code.len() < bytecode_count] pushes one instruction per iteration. *)
Definition load_code : Reader (list Bytecode) :=
  bytecode_count ← load_bytecode_count;
  st_repeat (Z.to_nat bytecode_count) load_bytecode.

Definition load_code_unit : Reader CodeUnit :=
  locals ← load_signature_index;
  code ← load_code;
  mret (CodeUnit.mk locals code).

Definition load_function_def : Reader FunctionDefinition :=
  function ← load_function_handle_index;
  flags ← read_u8_malformed;
  version ← cursor_version;
  '(visibility, extra_flags) ←
    (if version =? VERSION_1 then
       let is_public_bit := Visibility.as_u8 Visibility.Public in
       if negb (Z.land flags is_public_bit =? 0)
       then mret (Visibility.Public, Z.lxor flags is_public_bit)
       else mret (Visibility.Private, flags)
     else
       vis ← st_lift (ok_or (Visibility.try_from flags) MALFORMED);
       extra_flags ← read_u8_malformed;
       mret (vis, extra_flags));
  acquires_global_resources ← load_struct_definition_indices;
  '(code_unit, extra_flags) ←
    (if negb (Z.land extra_flags FunctionDefinition.NATIVE =? 0)
     then mret (None, Z.lxor extra_flags FunctionDefinition.NATIVE)
     else code ← load_code_unit; mret (Some code, extra_flags));
  if negb (extra_flags =? 0) then st_err INVALID_FLAG_BITS
  else mret (FunctionDefinition.mk function visibility acquires_global_resources code_unit).

(** * Table loops *)

(** [while cursor.position() < count { v.push(load(cursor)?) }] *)
Fixpoint load_while {A} (fuel : nat) (count : Z) (load : Reader A) (acc : list A) :
    Reader (list A) :=
  match fuel with
  | O => fun _ => OutOfFuel
  | S fuel =>
    position ← cursor_position;
    if position <? count then x ← load; load_while fuel count load (acc ++ [x])
    else mret acc
  end.

(** [loop { if cursor.position() == count { break; } v.push(load(cursor)?) }] *)
Fixpoint load_until {A} (fuel : nat) (count : Z) (load : Reader A) (acc : list A) :
    Reader (list A) :=
  match fuel with
  | O => fun _ => OutOfFuel
  | S fuel =>
    position ← cursor_position;
    if position =? count then mret acc
    else x ← load; load_until fuel count load (acc ++ [x])
  end.

(** A table is read from a cursor over its slice of the contents; every entry
    takes at least one byte, so [count] iterations are enough. *)
Definition with_table {A} (binary : VersionedBinary) (table : Table)
    (body : Reader (list A)) : result StatusCode (list A) :=
  let start := table.(Table.offset) in
  let end_ := start + table.(Table.count) in
  cursor ← new_cursor binary start end_;
  '(items, _) ← body cursor;
  Ok items.

Definition table_fuel (table : Table) : nat := S (Z.to_nat table.(Table.count)).

Definition load_module_handles (binary : VersionedBinary) (table : Table) (acc : list ModuleHandle) :
    result StatusCode (list ModuleHandle) :=
  with_table binary table
    (load_while (table_fuel table) table.(Table.count) load_module_handle acc).

Definition load_struct_handles (binary : VersionedBinary) (table : Table) (acc : list StructHandle) :
    result StatusCode (list StructHandle) :=
  with_table binary table
    (load_while (table_fuel table) table.(Table.count) load_struct_handle acc).

Definition load_function_handles (binary : VersionedBinary) (table : Table) (acc : list FunctionHandle) :
    result StatusCode (list FunctionHandle) :=
  with_table binary table
    (load_while (table_fuel table) table.(Table.count) load_function_handle acc).

Definition load_struct_instantiations (binary : VersionedBinary) (table : Table) (acc : list StructDefInstantiation) :
    result StatusCode (list StructDefInstantiation) :=
  with_table binary table
    (load_while (table_fuel table) table.(Table.count) load_struct_instantiation acc).

Definition load_function_instantiations (binary : VersionedBinary) (table : Table) (acc : list FunctionInstantiation) :
    result StatusCode (list FunctionInstantiation) :=
  with_table binary table
    (load_while (table_fuel table) table.(Table.count) load_function_instantiation acc).

Definition load_identifiers (binary : VersionedBinary) (table : Table) (acc : list Identifier) :
    result StatusCode (list Identifier) :=
  with_table binary table
    (load_while (table_fuel table) table.(Table.count) load_identifier acc).

Definition load_constant_pool (binary : VersionedBinary) (table : Table) (acc : list Constant) :
    result StatusCode (list Constant) :=
  with_table binary table
    (load_while (table_fuel table) table.(Table.count) load_constant acc).

Definition load_signatures (binary : VersionedBinary) (table : Table) (acc : list Signature) :
    result StatusCode (list Signature) :=
  with_table binary table
    (load_while (table_fuel table) table.(Table.count) load_signature_tokens acc).

Definition load_struct_defs (binary : VersionedBinary) (table : Table) (acc : list StructDefinition) :
    result StatusCode (list StructDefinition) :=
  with_table binary table
    (load_while (table_fuel table) table.(Table.count) load_struct_def acc).

Definition load_function_defs (binary : VersionedBinary) (table : Table) (acc : list FunctionDefinition) :
    result StatusCode (list FunctionDefinition) :=
  with_table binary table
    (load_while (table_fuel table) table.(Table.count) load_function_def acc).

Definition load_field_handles (binary : VersionedBinary) (table : Table) (acc : list FieldHandle) :
    result StatusCode (list FieldHandle) :=
  with_table binary table
    (load_until (table_fuel table) table.(Table.count) load_field_handle acc).

Definition load_field_instantiations (binary : VersionedBinary) (table : Table) (acc : list FieldInstantiation) :
    result StatusCode (list FieldInstantiation) :=
  with_table binary table
    (load_until (table_fuel table) table.(Table.count) load_field_instantiation acc).

(** [AccountAddress::try_from(slice)] *)
Definition address_try_from (bytes : list Z) : option AccountAddress :=
  if Nat.eqb (length bytes) AccountAddress_LENGTH then Some bytes else None.

Fixpoint load_address_loop (n : nat) (binary : VersionedBinary) (start : Z)
    (addresses : list AccountAddress) : result StatusCode (list AccountAddress) :=
  match n with
  | O => Ok addresses
  | S n =>
    let end_addr := start + Z.of_nat AccountAddress_LENGTH in
    bytes ← slice binary.(VersionedBinary.binary) start end_addr;
    match address_try_from bytes with
    | None => Err MALFORMED
    | Some address => load_address_loop n binary end_addr (addresses ++ [address])
    end
  end.

Definition load_address_identifiers (binary : VersionedBinary) (table : Table)
    (addresses : list AccountAddress) : result StatusCode (list AccountAddress) :=
  if negb (table.(Table.count) mod Z.of_nat AccountAddress_LENGTH =? 0) then Err MALFORMED
  else
    load_address_loop (Z.to_nat (table.(Table.count) / Z.of_nat AccountAddress_LENGTH))
      binary table.(Table.offset) addresses.

(** * Table headers *)

Definition read_table : Reader Table :=
  kind ← read_u8_malformed;
  table_offset ← load_table_offset;
  count ← load_table_size;
  kind ← st_lift (TableType_from_u8 kind);
  mret (Table.mk kind table_offset count).

Definition read_tables (table_count : Z) : Reader (list Table) :=
  st_repeat (Z.to_nat table_count) read_table.

Definition read_table_contents (n : Z) : Reader VersionedBinary :=
  read_new_binary (Z.to_nat n).

(** [sort_by(|t1, t2| t1.offset.cmp(&t2.offset))] is a stable sort. *)
Fixpoint insert_table (t : Table) (ts : list Table) : list Table :=
  match ts with
  | [] => [t]
  | t' :: ts' =>
    if t.(Table.offset) <=? t'.(Table.offset) then t :: ts else t' :: insert_table t ts'
  end.
Definition sort_tables (ts : list Table) : list Table := foldr insert_table [] ts.

Fixpoint check_tables_loop (tables : list Table) (binary_len current_offset : Z)
    (table_types : list TableType) : result StatusCode Z :=
  match tables with
  | [] => Ok current_offset
  | table :: tables =>
    if negb (table.(Table.offset) =? current_offset) then Err BAD_HEADER_TABLE
    else if table.(Table.count) =? 0 then Err BAD_HEADER_TABLE
    else
      let checked_offset := current_offset + table.(Table.count) in
      if u32_max <? checked_offset then Err BAD_HEADER_TABLE
      else if bool_decide (table.(Table.kind) ∈ table_types) then Err DUPLICATE_TABLE
      else if binary_len <? checked_offset then Err BAD_HEADER_TABLE
      else
        check_tables_loop tables binary_len checked_offset (table.(Table.kind) :: table_types)
  end.

(** Returns the length of the contents and the sorted tables. *)
Definition check_tables (tables : list Table) (binary_len : Z) :
    result StatusCode (Z * list Table) :=
  let tables := sort_tables tables in
  current_offset ← check_tables_loop tables binary_len 0 [];
  Ok (current_offset, tables).

(** * Building the compiled unit

    The deserializer's [CommonTables] trait hands out [&mut] to each common
    table: a getter and a setter here. *)
Class CommonTablesMut (T : Type) := {
  mut_module_handles : T -> list ModuleHandle;
  put_module_handles : list ModuleHandle -> T -> T;
  mut_struct_handles : T -> list StructHandle;
  put_struct_handles : list StructHandle -> T -> T;
  mut_function_handles : T -> list FunctionHandle;
  put_function_handles : list FunctionHandle -> T -> T;
  mut_function_instantiations : T -> list FunctionInstantiation;
  put_function_instantiations : list FunctionInstantiation -> T -> T;
  mut_signatures : T -> list Signature;
  put_signatures : list Signature -> T -> T;
  mut_identifiers : T -> list Identifier;
  put_identifiers : list Identifier -> T -> T;
  mut_address_identifiers : T -> list AccountAddress;
  put_address_identifiers : list AccountAddress -> T -> T;
  mut_constant_pool : T -> list Constant;
  put_constant_pool : list Constant -> T -> T }.

#[global] Instance CompiledScript_CommonTablesMut : CommonTablesMut CompiledScript := {
  mut_module_handles := CompiledScript.module_handles;
  put_module_handles := fun x s =>
    CompiledScript.mk s.(CompiledScript.version) x s.(CompiledScript.struct_handles)
      s.(CompiledScript.function_handles) s.(CompiledScript.function_instantiations)
      s.(CompiledScript.signatures) s.(CompiledScript.identifiers)
      s.(CompiledScript.address_identifiers) s.(CompiledScript.constant_pool)
      s.(CompiledScript.type_parameters) s.(CompiledScript.parameters)
      s.(CompiledScript.code);
  mut_struct_handles := CompiledScript.struct_handles;
  put_struct_handles := fun x s =>
    CompiledScript.mk s.(CompiledScript.version) s.(CompiledScript.module_handles) x
      s.(CompiledScript.function_handles) s.(CompiledScript.function_instantiations)
      s.(CompiledScript.signatures) s.(CompiledScript.identifiers)
      s.(CompiledScript.address_identifiers) s.(CompiledScript.constant_pool)
      s.(CompiledScript.type_parameters) s.(CompiledScript.parameters)
      s.(CompiledScript.code);
  mut_function_handles := CompiledScript.function_handles;
  put_function_handles := fun x s =>
    CompiledScript.mk s.(CompiledScript.version) s.(CompiledScript.module_handles)
      s.(CompiledScript.struct_handles) x s.(CompiledScript.function_instantiations)
      s.(CompiledScript.signatures) s.(CompiledScript.identifiers)
      s.(CompiledScript.address_identifiers) s.(CompiledScript.constant_pool)
      s.(CompiledScript.type_parameters) s.(CompiledScript.parameters)
      s.(CompiledScript.code);
  mut_function_instantiations := CompiledScript.function_instantiations;
  put_function_instantiations := fun x s =>
    CompiledScript.mk s.(CompiledScript.version) s.(CompiledScript.module_handles)
      s.(CompiledScript.struct_handles) s.(CompiledScript.function_handles) x
      s.(CompiledScript.signatures) s.(CompiledScript.identifiers)
      s.(CompiledScript.address_identifiers) s.(CompiledScript.constant_pool)
      s.(CompiledScript.type_parameters) s.(CompiledScript.parameters)
      s.(CompiledScript.code);
  mut_signatures := CompiledScript.signatures;
  put_signatures := fun x s =>
    CompiledScript.mk s.(CompiledScript.version) s.(CompiledScript.module_handles)
      s.(CompiledScript.struct_handles) s.(CompiledScript.function_handles)
      s.(CompiledScript.function_instantiations) x s.(CompiledScript.identifiers)
      s.(CompiledScript.address_identifiers) s.(CompiledScript.constant_pool)
      s.(CompiledScript.type_parameters) s.(CompiledScript.parameters)
      s.(CompiledScript.code);
  mut_identifiers := CompiledScript.identifiers;
  put_identifiers := fun x s =>
    CompiledScript.mk s.(CompiledScript.version) s.(CompiledScript.module_handles)
      s.(CompiledScript.struct_handles) s.(CompiledScript.function_handles)
      s.(CompiledScript.function_instantiations) s.(CompiledScript.signatures) x
      s.(CompiledScript.address_identifiers) s.(CompiledScript.constant_pool)
      s.(CompiledScript.type_parameters) s.(CompiledScript.parameters)
      s.(CompiledScript.code);
  mut_address_identifiers := CompiledScript.address_identifiers;
  put_address_identifiers := fun x s =>
    CompiledScript.mk s.(CompiledScript.version) s.(CompiledScript.module_handles)
      s.(CompiledScript.struct_handles) s.(CompiledScript.function_handles)
      s.(CompiledScript.function_instantiations) s.(CompiledScript.signatures)
      s.(CompiledScript.identifiers) x s.(CompiledScript.constant_pool)
      s.(CompiledScript.type_parameters) s.(CompiledScript.parameters)
      s.(CompiledScript.code);
  mut_constant_pool := CompiledScript.constant_pool;
  put_constant_pool := fun x s =>
    CompiledScript.mk s.(CompiledScript.version) s.(CompiledScript.module_handles)
      s.(CompiledScript.struct_handles) s.(CompiledScript.function_handles)
      s.(CompiledScript.function_instantiations) s.(CompiledScript.signatures)
      s.(CompiledScript.identifiers) s.(CompiledScript.address_identifiers) x
      s.(CompiledScript.type_parameters) s.(CompiledScript.parameters)
      s.(CompiledScript.code) }.

#[global] Instance CompiledModule_CommonTablesMut : CommonTablesMut CompiledModule := {
  mut_module_handles := CompiledModule.module_handles;
  put_module_handles := fun x s =>
    CompiledModule.mk s.(CompiledModule.version) s.(CompiledModule.self_module_handle_idx)
      x s.(CompiledModule.struct_handles) s.(CompiledModule.function_handles)
      s.(CompiledModule.field_handles) s.(CompiledModule.friend_decls)
      s.(CompiledModule.struct_def_instantiations)
      s.(CompiledModule.function_instantiations) s.(CompiledModule.field_instantiations)
      s.(CompiledModule.signatures) s.(CompiledModule.identifiers)
      s.(CompiledModule.address_identifiers) s.(CompiledModule.constant_pool)
      s.(CompiledModule.struct_defs) s.(CompiledModule.function_defs);
  mut_struct_handles := CompiledModule.struct_handles;
  put_struct_handles := fun x s =>
    CompiledModule.mk s.(CompiledModule.version) s.(CompiledModule.self_module_handle_idx)
      s.(CompiledModule.module_handles) x s.(CompiledModule.function_handles)
      s.(CompiledModule.field_handles) s.(CompiledModule.friend_decls)
      s.(CompiledModule.struct_def_instantiations)
      s.(CompiledModule.function_instantiations) s.(CompiledModule.field_instantiations)
      s.(CompiledModule.signatures) s.(CompiledModule.identifiers)
      s.(CompiledModule.address_identifiers) s.(CompiledModule.constant_pool)
      s.(CompiledModule.struct_defs) s.(CompiledModule.function_defs);
  mut_function_handles := CompiledModule.function_handles;
  put_function_handles := fun x s =>
    CompiledModule.mk s.(CompiledModule.version) s.(CompiledModule.self_module_handle_idx)
      s.(CompiledModule.module_handles) s.(CompiledModule.struct_handles) x
      s.(CompiledModule.field_handles) s.(CompiledModule.friend_decls)
      s.(CompiledModule.struct_def_instantiations)
      s.(CompiledModule.function_instantiations) s.(CompiledModule.field_instantiations)
      s.(CompiledModule.signatures) s.(CompiledModule.identifiers)
      s.(CompiledModule.address_identifiers) s.(CompiledModule.constant_pool)
      s.(CompiledModule.struct_defs) s.(CompiledModule.function_defs);
  mut_function_instantiations := CompiledModule.function_instantiations;
  put_function_instantiations := fun x s =>
    CompiledModule.mk s.(CompiledModule.version) s.(CompiledModule.self_module_handle_idx)
      s.(CompiledModule.module_handles) s.(CompiledModule.struct_handles)
      s.(CompiledModule.function_handles) s.(CompiledModule.field_handles)
      s.(CompiledModule.friend_decls) s.(CompiledModule.struct_def_instantiations) x
      s.(CompiledModule.field_instantiations) s.(CompiledModule.signatures)
      s.(CompiledModule.identifiers) s.(CompiledModule.address_identifiers)
      s.(CompiledModule.constant_pool) s.(CompiledModule.struct_defs)
      s.(CompiledModule.function_defs);
  mut_signatures := CompiledModule.signatures;
  put_signatures := fun x s =>
    CompiledModule.mk s.(CompiledModule.version) s.(CompiledModule.self_module_handle_idx)
      s.(CompiledModule.module_handles) s.(CompiledModule.struct_handles)
      s.(CompiledModule.function_handles) s.(CompiledModule.field_handles)
      s.(CompiledModule.friend_decls) s.(CompiledModule.struct_def_instantiations)
      s.(CompiledModule.function_instantiations) s.(CompiledModule.field_instantiations) x
      s.(CompiledModule.identifiers) s.(CompiledModule.address_identifiers)
      s.(CompiledModule.constant_pool) s.(CompiledModule.struct_defs)
      s.(CompiledModule.function_defs);
  mut_identifiers := CompiledModule.identifiers;
  put_identifiers := fun x s =>
    CompiledModule.mk s.(CompiledModule.version) s.(CompiledModule.self_module_handle_idx)
      s.(CompiledModule.module_handles) s.(CompiledModule.struct_handles)
      s.(CompiledModule.function_handles) s.(CompiledModule.field_handles)
      s.(CompiledModule.friend_decls) s.(CompiledModule.struct_def_instantiations)
      s.(CompiledModule.function_instantiations) s.(CompiledModule.field_instantiations)
      s.(CompiledModule.signatures) x s.(CompiledModule.address_identifiers)
      s.(CompiledModule.constant_pool) s.(CompiledModule.struct_defs)
      s.(CompiledModule.function_defs);
  mut_address_identifiers := CompiledModule.address_identifiers;
  put_address_identifiers := fun x s =>
    CompiledModule.mk s.(CompiledModule.version) s.(CompiledModule.self_module_handle_idx)
      s.(CompiledModule.module_handles) s.(CompiledModule.struct_handles)
      s.(CompiledModule.function_handles) s.(CompiledModule.field_handles)
      s.(CompiledModule.friend_decls) s.(CompiledModule.struct_def_instantiations)
      s.(CompiledModule.function_instantiations) s.(CompiledModule.field_instantiations)
      s.(CompiledModule.signatures) s.(CompiledModule.identifiers) x
      s.(CompiledModule.constant_pool) s.(CompiledModule.struct_defs)
      s.(CompiledModule.function_defs);
  mut_constant_pool := CompiledModule.constant_pool;
  put_constant_pool := fun x s =>
    CompiledModule.mk s.(CompiledModule.version) s.(CompiledModule.self_module_handle_idx)
      s.(CompiledModule.module_handles) s.(CompiledModule.struct_handles)
      s.(CompiledModule.function_handles) s.(CompiledModule.field_handles)
      s.(CompiledModule.friend_decls) s.(CompiledModule.struct_def_instantiations)
      s.(CompiledModule.function_instantiations) s.(CompiledModule.field_instantiations)
      s.(CompiledModule.signatures) s.(CompiledModule.identifiers)
      s.(CompiledModule.address_identifiers) x s.(CompiledModule.struct_defs)
      s.(CompiledModule.function_defs) }.

Definition put_struct_defs (x : list StructDefinition) (s : CompiledModule) : CompiledModule :=
  CompiledModule.mk s.(CompiledModule.version) s.(CompiledModule.self_module_handle_idx)
    s.(CompiledModule.module_handles) s.(CompiledModule.struct_handles)
    s.(CompiledModule.function_handles) s.(CompiledModule.field_handles)
    s.(CompiledModule.friend_decls) s.(CompiledModule.struct_def_instantiations)
    s.(CompiledModule.function_instantiations) s.(CompiledModule.field_instantiations)
    s.(CompiledModule.signatures) s.(CompiledModule.identifiers)
    s.(CompiledModule.address_identifiers) s.(CompiledModule.constant_pool) x
    s.(CompiledModule.function_defs).

Definition put_struct_def_instantiations (x : list StructDefInstantiation) (s : CompiledModule) : CompiledModule :=
  CompiledModule.mk s.(CompiledModule.version) s.(CompiledModule.self_module_handle_idx)
    s.(CompiledModule.module_handles) s.(CompiledModule.struct_handles)
    s.(CompiledModule.function_handles) s.(CompiledModule.field_handles)
    s.(CompiledModule.friend_decls) x s.(CompiledModule.function_instantiations)
    s.(CompiledModule.field_instantiations) s.(CompiledModule.signatures)
    s.(CompiledModule.identifiers) s.(CompiledModule.address_identifiers)
    s.(CompiledModule.constant_pool) s.(CompiledModule.struct_defs)
    s.(CompiledModule.function_defs).

Definition put_function_defs (x : list FunctionDefinition) (s : CompiledModule) : CompiledModule :=
  CompiledModule.mk s.(CompiledModule.version) s.(CompiledModule.self_module_handle_idx)
    s.(CompiledModule.module_handles) s.(CompiledModule.struct_handles)
    s.(CompiledModule.function_handles) s.(CompiledModule.field_handles)
    s.(CompiledModule.friend_decls) s.(CompiledModule.struct_def_instantiations)
    s.(CompiledModule.function_instantiations) s.(CompiledModule.field_instantiations)
    s.(CompiledModule.signatures) s.(CompiledModule.identifiers)
    s.(CompiledModule.address_identifiers) s.(CompiledModule.constant_pool)
    s.(CompiledModule.struct_defs) x.

Definition put_field_handles (x : list FieldHandle) (s : CompiledModule) : CompiledModule :=
  CompiledModule.mk s.(CompiledModule.version) s.(CompiledModule.self_module_handle_idx)
    s.(CompiledModule.module_handles) s.(CompiledModule.struct_handles)
    s.(CompiledModule.function_handles) x s.(CompiledModule.friend_decls)
    s.(CompiledModule.struct_def_instantiations) s.(CompiledModule.function_instantiations)
    s.(CompiledModule.field_instantiations) s.(CompiledModule.signatures)
    s.(CompiledModule.identifiers) s.(CompiledModule.address_identifiers)
    s.(CompiledModule.constant_pool) s.(CompiledModule.struct_defs)
    s.(CompiledModule.function_defs).

Definition put_field_instantiations (x : list FieldInstantiation) (s : CompiledModule) : CompiledModule :=
  CompiledModule.mk s.(CompiledModule.version) s.(CompiledModule.self_module_handle_idx)
    s.(CompiledModule.module_handles) s.(CompiledModule.struct_handles)
    s.(CompiledModule.function_handles) s.(CompiledModule.field_handles)
    s.(CompiledModule.friend_decls) s.(CompiledModule.struct_def_instantiations)
    s.(CompiledModule.function_instantiations) x s.(CompiledModule.signatures)
    s.(CompiledModule.identifiers) s.(CompiledModule.address_identifiers)
    s.(CompiledModule.constant_pool) s.(CompiledModule.struct_defs)
    s.(CompiledModule.function_defs).

Definition put_friend_decls (x : list ModuleHandle) (s : CompiledModule) : CompiledModule :=
  CompiledModule.mk s.(CompiledModule.version) s.(CompiledModule.self_module_handle_idx)
    s.(CompiledModule.module_handles) s.(CompiledModule.struct_handles)
    s.(CompiledModule.function_handles) s.(CompiledModule.field_handles) x
    s.(CompiledModule.struct_def_instantiations) s.(CompiledModule.function_instantiations)
    s.(CompiledModule.field_instantiations) s.(CompiledModule.signatures)
    s.(CompiledModule.identifiers) s.(CompiledModule.address_identifiers)
    s.(CompiledModule.constant_pool) s.(CompiledModule.struct_defs)
    s.(CompiledModule.function_defs).

Definition build_common_table {T} `{CommonTablesMut T} (binary : VersionedBinary)
    (table : Table) (common : T) : result StatusCode T :=
  match table.(Table.kind) with
  | TableType.MODULE_HANDLES =>
    x ← load_module_handles binary table (mut_module_handles common); Ok (put_module_handles x common)
  | TableType.STRUCT_HANDLES =>
    x ← load_struct_handles binary table (mut_struct_handles common); Ok (put_struct_handles x common)
  | TableType.FUNCTION_HANDLES =>
    x ← load_function_handles binary table (mut_function_handles common); Ok (put_function_handles x common)
  | TableType.FUNCTION_INST =>
    x ← load_function_instantiations binary table (mut_function_instantiations common); Ok (put_function_instantiations x common)
  | TableType.SIGNATURES =>
    x ← load_signatures binary table (mut_signatures common); Ok (put_signatures x common)
  | TableType.IDENTIFIERS =>
    x ← load_identifiers binary table (mut_identifiers common); Ok (put_identifiers x common)
  | TableType.ADDRESS_IDENTIFIERS =>
    x ← load_address_identifiers binary table (mut_address_identifiers common); Ok (put_address_identifiers x common)
  | TableType.CONSTANT_POOL =>
    x ← load_constant_pool binary table (mut_constant_pool common); Ok (put_constant_pool x common)
  | TableType.FUNCTION_DEFS | TableType.STRUCT_DEFS | TableType.STRUCT_DEF_INST
  | TableType.FIELD_HANDLE | TableType.FIELD_INST => Ok common
  | TableType.FRIEND_DECLS =>
    if binary.(VersionedBinary.version) <? VERSION_2 then Err MALFORMED else Ok common
  end.

Fixpoint build_common_tables {T} `{CommonTablesMut T} (binary : VersionedBinary)
    (tables : list Table) (common : T) : result StatusCode T :=
  match tables with
  | [] => Ok common
  | table :: tables =>
    common ← build_common_table binary table common;
    build_common_tables binary tables common
  end.

Definition build_module_table (binary : VersionedBinary) (table : Table)
    (module : CompiledModule) : result StatusCode CompiledModule :=
  match table.(Table.kind) with
  | TableType.STRUCT_DEFS =>
    x ← load_struct_defs binary table module.(CompiledModule.struct_defs); Ok (put_struct_defs x module)
  | TableType.STRUCT_DEF_INST =>
    x ← load_struct_instantiations binary table module.(CompiledModule.struct_def_instantiations); Ok (put_struct_def_instantiations x module)
  | TableType.FUNCTION_DEFS =>
    x ← load_function_defs binary table module.(CompiledModule.function_defs); Ok (put_function_defs x module)
  | TableType.FIELD_HANDLE =>
    x ← load_field_handles binary table module.(CompiledModule.field_handles); Ok (put_field_handles x module)
  | TableType.FIELD_INST =>
    x ← load_field_instantiations binary table module.(CompiledModule.field_instantiations); Ok (put_field_instantiations x module)
  | TableType.FRIEND_DECLS =>
    x ← load_module_handles binary table module.(CompiledModule.friend_decls); Ok (put_friend_decls x module)
  | TableType.MODULE_HANDLES | TableType.STRUCT_HANDLES | TableType.FUNCTION_HANDLES
  | TableType.FUNCTION_INST | TableType.IDENTIFIERS | TableType.ADDRESS_IDENTIFIERS
  | TableType.CONSTANT_POOL | TableType.SIGNATURES => Ok module
  end.

Fixpoint build_module_tables (binary : VersionedBinary) (tables : list Table)
    (module : CompiledModule) : result StatusCode CompiledModule :=
  match tables with
  | [] => Ok module
  | table :: tables =>
    module ← build_module_table binary table module;
    build_module_tables binary tables module
  end.

Fixpoint build_script_tables (tables : list Table) : result StatusCode () :=
  match tables with
  | [] => Ok ()
  | table :: tables =>
    match table.(Table.kind) with
    | TableType.MODULE_HANDLES | TableType.STRUCT_HANDLES | TableType.FUNCTION_HANDLES
    | TableType.FUNCTION_INST | TableType.SIGNATURES | TableType.IDENTIFIERS
    | TableType.ADDRESS_IDENTIFIERS | TableType.CONSTANT_POOL => build_script_tables tables
    | TableType.STRUCT_DEFS | TableType.STRUCT_DEF_INST | TableType.FUNCTION_DEFS
    | TableType.FIELD_INST | TableType.FIELD_HANDLE | TableType.FRIEND_DECLS => Err MALFORMED
    end
  end.

Definition build_compiled_module (module : CompiledModule) (binary : VersionedBinary)
    (tables : list Table) : result StatusCode CompiledModule :=
  module ← build_common_tables binary tables module;
  build_module_tables binary tables module.

Definition build_compiled_script (script : CompiledScript) (binary : VersionedBinary)
    (tables : list Table) : result StatusCode CompiledScript :=
  script ← build_common_tables binary tables script;
  build_script_tables tables;;
  Ok script.

(** * Entry points *)

(** [CompiledModule { version, self_module_handle_idx, ..Default::default() }] *)
Definition default_module (version : Z) (self_module_handle_idx : ModuleHandleIndex) :
    CompiledModule :=
  CompiledModule.mk version self_module_handle_idx [] [] [] [] [] [] [] [] [] [] [] [] [] [].

Definition default_script (version : Z) (type_parameters : list AbilitySet)
    (parameters : SignatureIndex) (code : CodeUnit) : CompiledScript :=
  CompiledScript.mk version [] [] [] [] [] [] [] [] type_parameters parameters code.

(** The header part shared by modules and scripts: the table headers, sorted and
    checked, and the table contents. *)
Definition load_header (binary : list Z) : Reader (list Table * VersionedBinary) :=
  table_count ← load_table_count;
  tables ← read_tables table_count;
  '(content_len, tables) ← st_lift (check_tables tables (zlen binary));
  table_contents ← read_table_contents content_len;
  mret (tables, table_contents).

Definition deserialize_compiled_module (binary : list Z) : result StatusCode CompiledModule :=
  cursor ← VersionedCursor_new binary;
  '(module, tables, table_contents, _) ←
    ('(tables, table_contents) ← load_header binary;
     version ← cursor_version;
     self_module_handle_idx ← load_module_handle_index;
     mret (default_module version self_module_handle_idx, tables, table_contents)) cursor;
  build_compiled_module module table_contents tables.

Definition deserialize_compiled_script (binary : list Z) : result StatusCode CompiledScript :=
  cursor ← VersionedCursor_new binary;
  '(script, tables, table_contents, _) ←
    ('(tables, table_contents) ← load_header binary;
     version ← cursor_version;
     type_parameters ← load_ability_sets FunctionTypeParameters;
     parameters ← load_signature_index;
     code ← load_code_unit;
     mret (default_script version type_parameters parameters code, tables, table_contents))
      cursor;
  build_compiled_script script table_contents tables.
