(* ===== verification/WellFormed.v ===== *)
(** Well-formed compiled modules and scripts: the values that inhabit the Rust
    types of file_format.rs.  A field of type [u16] is in the range of a [u16], an
    [Identifier] satisfies the invariant of its constructor, an [AbilitySet] has
    only the four defined bits, an [AccountAddress] has its length; and a struct
    instantiation has a type argument.  Everything is a boolean function. *)
From S2P Require Import Prelude StatusCode Abilities Identifier FileFormat.

Definition wf_ability_set (s : AbilitySet) : bool := in_range (AbilitySet.into_u8 AbilitySet.ALL) s.

Definition wf_bytes (bs : list Z) : bool := forallb is_u8 bs.

Definition wf_address (a : AccountAddress) : bool :=
  Nat.eqb (length a) AccountAddress_LENGTH && wf_bytes a.

Definition wf_module_handle (h : ModuleHandle) : bool :=
  is_u16 h.(ModuleHandle.address) && is_u16 h.(ModuleHandle.name).

Definition wf_struct_type_parameter (p : StructTypeParameter) : bool :=
  wf_ability_set p.(StructTypeParameter.constraints).

Definition wf_struct_handle (h : StructHandle) : bool :=
  is_u16 h.(StructHandle.module) && is_u16 h.(StructHandle.name) &&
  wf_ability_set h.(StructHandle.abilities) &&
  forallb wf_struct_type_parameter h.(StructHandle.type_parameters).

Definition wf_function_handle (h : FunctionHandle) : bool :=
  is_u16 h.(FunctionHandle.module) && is_u16 h.(FunctionHandle.name) &&
  is_u16 h.(FunctionHandle.parameters) && is_u16 h.(FunctionHandle.return_) &&
  forallb wf_ability_set h.(FunctionHandle.type_parameters).

Definition wf_field_handle (h : FieldHandle) : bool :=
  is_u16 h.(FieldHandle.owner) && is_u16 h.(FieldHandle.field).

Definition wf_struct_def_instantiation (i : StructDefInstantiation) : bool :=
  is_u16 i.(StructDefInstantiation.def) && is_u16 i.(StructDefInstantiation.type_parameters).

Definition wf_function_instantiation (i : FunctionInstantiation) : bool :=
  is_u16 i.(FunctionInstantiation.handle) && is_u16 i.(FunctionInstantiation.type_parameters).

Definition wf_field_instantiation (i : FieldInstantiation) : bool :=
  is_u16 i.(FieldInstantiation.handle) && is_u16 i.(FieldInstantiation.type_parameters).

Fixpoint wf_token (t : SignatureToken) : bool :=
  match t with
  | SignatureToken.Bool | SignatureToken.U8 | SignatureToken.U64 | SignatureToken.U128
  | SignatureToken.Address | SignatureToken.Signer => true
  | SignatureToken.Vector tok | SignatureToken.Reference tok
  | SignatureToken.MutableReference tok => wf_token tok
  | SignatureToken.Struct idx | SignatureToken.TypeParameter idx => is_u16 idx
  | SignatureToken.StructInstantiation idx toks =>
    is_u16 idx && negb (Nat.eqb (length toks) 0) && forallb wf_token toks
  end.

Definition wf_signature (s : Signature) : bool := forallb wf_token s.

Definition wf_constant (c : Constant) : bool :=
  wf_token c.(Constant.type_) && wf_bytes c.(Constant.data).

(** The operands of an instruction are in the range of their type. *)
Definition wf_bytecode (b : Bytecode) : bool :=
  match b with
  | Bytecode.LdU8 n | Bytecode.CopyLoc n | Bytecode.MoveLoc n | Bytecode.StLoc n
  | Bytecode.MutBorrowLoc n | Bytecode.ImmBorrowLoc n => is_u8 n
  | Bytecode.LdU64 n => is_u64 n
  | Bytecode.LdU128 n => is_u128 n
  | Bytecode.VecPack a n | Bytecode.VecUnpack a n => is_u16 a && is_u64 n
  | Bytecode.BrTrue a | Bytecode.BrFalse a | Bytecode.Branch a | Bytecode.LdConst a
  | Bytecode.Call a | Bytecode.CallGeneric a | Bytecode.Pack a | Bytecode.PackGeneric a
  | Bytecode.Unpack a | Bytecode.UnpackGeneric a | Bytecode.MutBorrowField a
  | Bytecode.MutBorrowFieldGeneric a | Bytecode.ImmBorrowField a
  | Bytecode.ImmBorrowFieldGeneric a | Bytecode.MutBorrowGlobal a
  | Bytecode.MutBorrowGlobalGeneric a | Bytecode.ImmBorrowGlobal a
  | Bytecode.ImmBorrowGlobalGeneric a | Bytecode.Exists a | Bytecode.ExistsGeneric a
  | Bytecode.MoveFrom a | Bytecode.MoveFromGeneric a | Bytecode.MoveTo a
  | Bytecode.MoveToGeneric a | Bytecode.VecLen a | Bytecode.VecImmBorrow a
  | Bytecode.VecMutBorrow a | Bytecode.VecPushBack a | Bytecode.VecPopBack a
  | Bytecode.VecSwap a => is_u16 a
  | _ => true
  end.

Definition wf_code_unit (c : CodeUnit) : bool :=
  is_u16 c.(CodeUnit.locals) && forallb wf_bytecode c.(CodeUnit.code).

Definition wf_field_definition (f : FieldDefinition) : bool :=
  is_u16 f.(FieldDefinition.name) && wf_token f.(FieldDefinition.signature).

Definition wf_struct_definition (d : StructDefinition) : bool :=
  is_u16 d.(StructDefinition.struct_handle) &&
  match d.(StructDefinition.field_information) with
  | Native => true
  | Declared fields => forallb wf_field_definition fields
  end.

Definition wf_function_definition (d : FunctionDefinition) : bool :=
  is_u16 d.(FunctionDefinition.function) &&
  forallb is_u16 d.(FunctionDefinition.acquires_global_resources) &&
  match d.(FunctionDefinition.code) with Some c => wf_code_unit c | None => true end.

Definition wf_module (m : CompiledModule) : bool :=
  is_u16 m.(CompiledModule.self_module_handle_idx) &&
  forallb wf_module_handle m.(CompiledModule.module_handles) &&
  forallb wf_struct_handle m.(CompiledModule.struct_handles) &&
  forallb wf_function_handle m.(CompiledModule.function_handles) &&
  forallb wf_field_handle m.(CompiledModule.field_handles) &&
  forallb wf_module_handle m.(CompiledModule.friend_decls) &&
  forallb wf_struct_def_instantiation m.(CompiledModule.struct_def_instantiations) &&
  forallb wf_function_instantiation m.(CompiledModule.function_instantiations) &&
  forallb wf_field_instantiation m.(CompiledModule.field_instantiations) &&
  forallb wf_signature m.(CompiledModule.signatures) &&
  forallb Identifier.is_valid m.(CompiledModule.identifiers) &&
  forallb wf_address m.(CompiledModule.address_identifiers) &&
  forallb wf_constant m.(CompiledModule.constant_pool) &&
  forallb wf_struct_definition m.(CompiledModule.struct_defs) &&
  forallb wf_function_definition m.(CompiledModule.function_defs).

Definition wf_script (s : CompiledScript) : bool :=
  forallb wf_module_handle s.(CompiledScript.module_handles) &&
  forallb wf_struct_handle s.(CompiledScript.struct_handles) &&
  forallb wf_function_handle s.(CompiledScript.function_handles) &&
  forallb wf_function_instantiation s.(CompiledScript.function_instantiations) &&
  forallb wf_signature s.(CompiledScript.signatures) &&
  forallb Identifier.is_valid s.(CompiledScript.identifiers) &&
  forallb wf_address s.(CompiledScript.address_identifiers) &&
  forallb wf_constant s.(CompiledScript.constant_pool) &&
  forallb wf_ability_set s.(CompiledScript.type_parameters) &&
  is_u16 s.(CompiledScript.parameters) &&
  wf_code_unit s.(CompiledScript.code).

(** * Splitting the boolean conjunctions *)

Lemma forallb_Forall {A} (f : A -> bool) l : forallb f l = true <-> Forall (fun x => f x = true) l.
Proof.
  induction l as [|x l IH]; simpl; [split; auto|].
  by rewrite andb_true_iff, Forall_cons_iff, IH.
Qed.

Ltac wf_split :=
  repeat match goal with
  | H : (_ && _) = true |- _ => apply andb_true_iff in H as [? ?]
  | H : in_range _ _ = true |- _ => apply in_range_spec in H
  | H : forallb _ _ = true |- _ => apply forallb_Forall in H
  end.
