(* ===== verification/DeserializerSafety.v ===== *)
(** Totality of the deserializer: on every byte string each reader returns a value
    or an error, never panics and never runs out of fuel, and a successful read
    consumes a prefix of the cursor.  What the deserializer returns inhabits the Rust types:
    every module or script it accepts is well formed in the sense of [WellFormed]. *)
From S2P Require Import Prelude StatusCode Abilities Identifier FileFormat BinaryCommon Uleb Deserializer.
From S2P Require Import WellFormed.
(** * Reader contracts *)

(** [advances n c c']: [c'] is [c] after reading at least [n] bytes. *)
Definition advances (n : nat) (c c' : VersionedCursor) : Prop :=
  exists bs, (n <= length bs)%nat /\
    c.(VersionedCursor.cursor).(Cursor.rest)
      = bs ++ c'.(VersionedCursor.cursor).(Cursor.rest) /\
    c'.(VersionedCursor.cursor).(Cursor.position)
      = c.(VersionedCursor.cursor).(Cursor.position) + zlen bs /\
    c'.(VersionedCursor.version) = c.(VersionedCursor.version).

(** [total n r Q]: [r] is safe from every cursor; when it succeeds it has read at
    least [n] bytes and its value satisfies [Q]. *)
Definition total {A} (n : nat) (r : Reader A) (Q : A -> Prop) : Prop :=
  forall c, match r c with
            | Ok (a, c') => advances n c c' /\ Q a
            | Err _ => True
            | Panic | OutOfFuel => False
            end.

Lemma advances_refl c : advances 0 c c.
Proof. exists []. simpl. repeat split; lia. Qed.

Lemma advances_trans n m c1 c2 c3 :
  advances n c1 c2 -> advances m c2 c3 -> advances (n + m) c1 c3.
Proof.
  intros (bs1 & L1 & E1 & P1 & V1) (bs2 & L2 & E2 & P2 & V2). exists (bs1 ++ bs2).
  rewrite length_app. split; [lia|]. split; [by rewrite E1, E2, app_assoc|].
  split; [lia|congruence].
Qed.

Lemma advances_le n m c c' : advances n c c' -> (m <= n)%nat -> advances m c c'.
Proof. intros (bs & L & H) Hm. exists bs. split; [lia|done]. Qed.

Lemma total_weaken {A} n m (r : Reader A) (Q Q' : A -> Prop) :
  total n r Q -> (m <= n)%nat -> (forall a, Q a -> Q' a) -> total m r Q'.
Proof.
  intros H Hm HQ c. specialize (H c). destruct (r c) as [[a c']| | |]; [|done..].
  destruct H. eauto using advances_le.
Qed.

Lemma total_any {A} n (r : Reader A) (Q : A -> Prop) : total n r Q -> total n r (fun _ => True).
Proof. intros H. by eapply total_weaken. Qed.

Lemma total_ret {A} (a : A) (Q : A -> Prop) : Q a -> total 0 (mret a) Q.
Proof. intros Ha c. simpl. split; [apply advances_refl|done]. Qed.

Lemma total_err {A} n e (Q : A -> Prop) : total n (st_err e) Q.
Proof. by intros c. Qed.

Lemma total_bind {A B} n m (r : Reader A) (k : A -> Reader B) (P : A -> Prop) (Q : B -> Prop) :
  total n r P -> (forall a, P a -> total m (k a) Q) -> total (n + m) (r ≫= k) Q.
Proof.
  intros Hr Hk c. specialize (Hr c). unfold mbind, Reader_bind, ST_bind.
  destruct (r c) as [[a c1]| | |]; [|done..]. destruct Hr as [Hadv HP].
  specialize (Hk a HP c1). destruct (k a c1) as [[b c2]| | |]; [|done..].
  destruct Hk. eauto using advances_trans.
Qed.

(** The form used step by step: the first read decides that a byte is consumed. *)
Lemma total_bind0 {A B} n (r : Reader A) (k : A -> Reader B) (P : A -> Prop) (Q : B -> Prop) :
  total n r P -> (forall a, P a -> total 0 (k a) Q) -> total n (r ≫= k) Q.
Proof.
  intros Hr Hk. eapply total_weaken; [eapply (total_bind n 0); eauto|lia|done].
Qed.

Lemma total_lift {A} (x : result StatusCode A) (Q : A -> Prop) :
  safe x -> (forall a, x = Ok a -> Q a) -> total 0 (st_lift x) Q.
Proof.
  intros Hs HQ c. unfold st_lift. destruct x; [|done..]. split; [apply advances_refl|eauto].
Qed.

Lemma total_version (Q : Z -> Prop) : (forall v, Q v) -> total 0 cursor_version Q.
Proof. intros HQ c. split; [apply advances_refl|done]. Qed.

Lemma total_repeat {A} n (r : Reader A) (Q : A -> Prop) :
  total 0 r Q -> total 0 (st_repeat n r) (Forall Q).
Proof.
  intros Hr. induction n as [|n IH]; simpl; [apply total_ret; constructor|].
  eapply total_bind0; [exact Hr|]. intros a Ha. simpl.
  eapply total_bind0; [exact IH|]. intros l Hl. apply total_ret. by constructor.
Qed.

(** * Primitive readers *)

Lemma total_on_cursor {A} n e (m : ST Cursor ReadError A) (Q : A -> Prop) :
  (forall c, match m c with
        | Ok (a, c') => Q a /\ exists bs, (n <= length bs)%nat /\
            c.(Cursor.rest) = bs ++ c'.(Cursor.rest) /\
            c'.(Cursor.position) = c.(Cursor.position) + zlen bs
        | Err _ => True
        | Panic | OutOfFuel => False end) ->
  total n (on_cursor e m) Q.
Proof.
  intros H [v c]. unfold on_cursor. specialize (H c). simpl.
  destruct (m c) as [[a c']| | |]; [|done..]. destruct H as (HQ & bs & L & E & P).
  split; [|done]. exists bs. simpl. auto.
Qed.

Lemma total_read_u8 e : total 1 (on_cursor e read_u8) (fun _ => True).
Proof.
  apply total_on_cursor. intros [pos [|b rest]]; [done|].
  rewrite read_u8_cons. split; [done|]. exists [b]. simpl. auto with lia.
Qed.

Lemma total_read_u8_malformed : total 1 read_u8_malformed (fun _ => True).
Proof. apply total_read_u8. Qed.

Lemma total_read n e :
  total 0 (on_cursor e (cursor_read n)) (fun bs => (length bs <= n)%nat).
Proof.
  apply total_on_cursor. intros [pos rest]. simpl. split; [rewrite length_take; lia|].
  exists (take n rest). split; [lia|]. by rewrite take_drop.
Qed.

Lemma total_read_exact n e :
  total n (on_cursor e (cursor_read_exact n)) (fun bs => length bs = n).
Proof.
  apply total_on_cursor. intros [pos rest]. unfold cursor_read_exact. simpl.
  destruct (Nat.leb_spec n (length rest)); [|done]. simpl.
  assert (length (take n rest) = n) by (rewrite length_take; lia).
  split; [done|]. exists (take n rest). rewrite take_drop. auto with lia.
Qed.

(** The ULEB128 reader stops within its ten iterations and never shifts by 64. *)
Lemma read_uleb_loop_total n value shift c :
  shift = 7 * (10 - Z.of_nat n) -> (1 <= n <= 10)%nat -> 0 <= value ->
  match read_uleb_loop n value shift c with
  | Ok (a, c') => 0 <= a /\ exists bs, (1 <= length bs)%nat /\
      c.(Cursor.rest) = bs ++ c'.(Cursor.rest) /\
      c'.(Cursor.position) = c.(Cursor.position) + zlen bs
  | Err _ => True
  | Panic | OutOfFuel => False
  end.
Proof.
  revert value shift c. induction n as [|n IH]; intros value shift [pos rest] Hs Hn Hv; [lia|].
  cbn [read_uleb_loop]. destruct rest as [|b rest]; [done|]. rewrite read_u8_cons.
  destruct (Z.leb_spec 64 shift); [lia|].
  destruct (negb _); [done|].
  assert (0 <= u64_shl (Z.land b 127) shift) by (apply Z.mod_pos_bound; lia).
  assert (0 <= Z.lor value (u64_shl (Z.land b 127) shift)) by (apply Z.lor_nonneg; lia).
  destruct (Z.land b 128 =? 0).
  - destruct (_ && _); [done|]. split; [done|]. exists [b]. simpl. auto with lia.
  - destruct (Z.ltb_spec 64 (shift + 7)); [done|].
    specialize (IH (Z.lor value (u64_shl (Z.land b 127) shift)) (shift + 7)
                  (Cursor.mk (pos + 1) rest) ltac:(lia) ltac:(lia) ltac:(done)).
    destruct (read_uleb_loop n _ _ _) as [[a c']| | |]; [|done..].
    destruct IH as (Ha & bs & L & E & P). split; [done|]. exists (b :: bs). simpl in *.
    split; [lia|]. split; [by rewrite E|lia].
Qed.

Lemma total_uleb tmax max :
  total 1 (read_uleb_internal tmax max) (fun x => 0 <= x <= max /\ x <= tmax).
Proof.
  eapply total_bind0 with (P := fun x => 0 <= x).
  - apply total_on_cursor. intros c. apply read_uleb_loop_total; lia.
  - intros x Hx. destruct (Z.ltb_spec max x); [apply total_err|].
    destruct (Z.ltb_spec tmax x); [apply total_err|]. apply total_ret. lia.
Qed.

(** * Automation: run through a reader, one bind at a time

    [total1] and [total0] are the contracts of readers whose value is not
    constrained: with and without progress. *)

Abbreviation total1 r := (total 1 r (fun _ => True)).
Abbreviation total0 r := (total 0 r (fun _ => True)).

Lemma total_1_0 {A} (r : Reader A) : total1 r -> total0 r.
Proof. intros H. by eapply total_weaken; [apply H|lia|]. Qed.

Lemma total1_any {A} (r : Reader A) Q : total 1 r Q -> total1 r.
Proof. apply total_any. Qed.

Lemma total0_any {A} n (r : Reader A) Q : total n r Q -> total0 r.
Proof. intros H. by eapply total_weaken; [apply H|lia|]. Qed.

Lemma total_ret_any {A} (a : A) : total0 (mret a).
Proof. by apply total_ret. Qed.

Lemma total_lift_any {A} (x : result StatusCode A) : safe x -> total0 (st_lift x).
Proof. intros. by apply total_lift. Qed.

Lemma total_bind1 {A B} n (r : Reader A) (k : A -> Reader B) :
  total n r (fun _ => True) -> (forall a, total0 (k a)) -> total n (r ≫= k) (fun _ => True).
Proof. intros Hr Hk. eapply total_bind0; [apply Hr|auto]. Qed.

(** Asking for the version reads nothing: progress is due to the continuation. *)
Lemma total_version_bind {A} n (k : Z -> Reader A) Q :
  (forall v, total n (k v) Q) -> total n (cursor_version ≫= k) Q.
Proof.
  intros H. apply (total_bind 0 n _ _ (fun _ => True)); [by apply total_version|auto].
Qed.

Lemma total_repeat_any {A} n (r : Reader A) : total0 r -> total0 (st_repeat n r).
Proof. intros H. eapply total0_any, total_repeat, H. Qed.

Lemma total_uleb1 tmax max : total1 (read_uleb_internal tmax max).
Proof. eapply total1_any, total_uleb. Qed.

Lemma total_read_any n e : total0 (on_cursor e (cursor_read n)).
Proof. eapply total0_any, total_read. Qed.

Lemma total_read_exact_any n e : total0 (on_cursor e (cursor_read_exact n)).
Proof. eapply total0_any, total_read_exact. Qed.

Create HintDb total.
#[export] Hint Resolve total_uleb1 total_read_u8_malformed total_read_exact_any
  total_read_any total_ret_any total_err total_lift_any : total.

Ltac total_unfold := unfold load_signature_index, load_module_handle_index,
    load_identifier_index,
    load_struct_handle_index, load_address_identifier_index, load_struct_def_index,
    load_function_handle_index, load_field_handle_index, load_field_inst_index,
    load_function_inst_index, load_struct_def_inst_index, load_constant_pool_index,
    load_bytecode_count, load_bytecode_index, load_acquires_count, load_field_count,
    load_type_parameter_count, load_signature_size, load_constant_size,
    load_identifier_size, load_type_parameter_index, load_field_offset, load_table_count,
    load_table_offset, load_table_size, load_local_index,
    read_u64_internal, read_u128_internal, read_new_binary, read_table_contents.

Ltac total_step :=
  match goal with
  | |- total _ (cursor_version ≫= _) _ => apply total_version_bind; intros ?
  | |- total _ (_ ≫= _) _ => apply total_bind1; [|intros ?]
  | |- total _ (if ?b then _ else _) _ => destruct b
  | |- total _ (match ?x with _ => _ end) _ => destruct x
  | |- total _ (st_repeat _ _) _ => apply total_repeat_any
  | |- total _ _ _ => solve [auto with total | apply total_1_0; auto with total]
  end.
Ltac total_auto := total_unfold; cbv beta zeta; repeat total_step.

Lemma Opcodes_from_u8_safe b : safe (Opcodes_from_u8 b).
Proof. unfold Opcodes_from_u8. by repeat case_match. Qed.
Lemma SerializedType_from_u8_safe b : safe (SerializedType_from_u8 b).
Proof. unfold SerializedType_from_u8. by repeat case_match. Qed.
Lemma TableType_from_u8_safe b : safe (TableType_from_u8 b).
Proof. unfold TableType_from_u8. by repeat case_match. Qed.
Lemma NativeStructFlag_from_u8_safe b : safe (SerializedNativeStructFlag_from_u8 b).
Proof. unfold SerializedNativeStructFlag_from_u8. by repeat case_match. Qed.
Lemma DeprecatedKind_from_u8_safe b : safe (DeprecatedKind_from_u8 b).
Proof. unfold DeprecatedKind_from_u8. by repeat case_match. Qed.
Lemma DeprecatedNominalResourceFlag_from_u8_safe b :
  safe (DeprecatedNominalResourceFlag_from_u8 b).
Proof. unfold DeprecatedNominalResourceFlag_from_u8. by repeat case_match. Qed.
Lemma ok_or_safe {A} (o : option A) (e : StatusCode) : safe (ok_or o e).
Proof. by destruct o. Qed.
Lemma from_utf8_safe bs : safe (map_err MALFORMED (Identifier.from_utf8 bs)).
Proof.
  unfold Identifier.from_utf8, Identifier.new. destruct (utf8_valid bs); [|done].
  simpl. by destruct (Identifier.is_valid bs).
Qed.

#[export] Hint Resolve Opcodes_from_u8_safe SerializedType_from_u8_safe
  TableType_from_u8_safe NativeStructFlag_from_u8_safe DeprecatedKind_from_u8_safe
  DeprecatedNominalResourceFlag_from_u8_safe ok_or_safe from_utf8_safe : total.

(** * Signature tokens *)

Lemma total_read_next : total1 read_next.
Proof. unfold read_next. total_auto. Qed.

(** The loop of [load_signature_token]: only the top of the stack can be
    saturated, so [apply] never panics, and every iteration pops the stack or
    reads a byte, so the fuel lasts. *)
Lemma load_signature_token_loop_total fuel stack c :
  stack <> [] -> Forall (fun t => TypeBuilder.is_saturated t = false) (tail stack) ->
  (2 * length c.(VersionedCursor.cursor).(Cursor.rest) + length stack <= fuel)%nat ->
  match load_signature_token_loop fuel stack c with
  | Ok (_, c') => advances 0 c c'
  | Err _ => True
  | Panic | OutOfFuel => False
  end.
Proof.
  revert stack c. induction fuel as [|fuel IH]; intros stack c Hne Hun Hf.
  { destruct stack; simpl in *; [done|lia]. }
  cbn [load_signature_token_loop]. destruct (_ <? _); [done|].
  destruct stack as [|last rest]; [done|]. simpl tail in Hun.
  destruct (TypeBuilder.is_saturated last) eqn:Hsat.
  - destruct last; try done. simpl.
    unfold mbind, Reader_bind, ST_bind, st_lift. destruct rest as [|t rest].
    { simpl. apply advances_refl. }
    apply Forall_cons_iff in Hun as [Ht Hrest].
    assert (exists t', TypeBuilder.apply t tok = Ok t') as [t' ->].
    { destruct t; try done; cbn [TypeBuilder.apply]; repeat case_match; eauto. }
    apply IH; [done|done|]. simpl in *. lia.
  - unfold mbind, Reader_bind, ST_bind. pose proof (total_read_next c) as Hr.
    destruct (read_next c) as [[t c1]| | |]; [|done..]. destruct Hr as [Hadv _].
    assert (length c1.(VersionedCursor.cursor).(Cursor.rest) <
            length c.(VersionedCursor.cursor).(Cursor.rest))%nat as Hlt.
    { destruct Hadv as (bs & Hn & -> & _). rewrite length_app. lia. }
    specialize (IH (t :: last :: rest) c1 ltac:(done)).
    simpl in IH, Hf. specialize (IH ltac:(by constructor) ltac:(lia)).
    destruct (load_signature_token_loop _ _ c1) as [[a c2]| | |]; [|done..].
    by apply (advances_le (1 + 0)); [apply (advances_trans 1 0 c c1 c2)|lia].
Qed.

Lemma total_load_signature_token : total1 load_signature_token.
Proof.
  apply total_bind1; [apply total_read_next|]. intros t c. unfold load_signature_token_from.
  assert (forall t, TypeBuilder.is_saturated t = false -> match load_signature_token_loop
      (2 * length c.(VersionedCursor.cursor).(Cursor.rest) + 2) [t] c with
    | Ok (_, c') => advances 0 c c' /\ True
    | Err _ => True
    | Panic | OutOfFuel => False end) as H.
  { intros t' _. pose proof (load_signature_token_loop_total
      (2 * length c.(VersionedCursor.cursor).(Cursor.rest) + 2) [t'] c) as H.
    specialize (H ltac:(done) ltac:(constructor) ltac:(simpl; lia)).
    by destruct (load_signature_token_loop _ _ _) as [[]| | |]. }
  destruct t; try (by apply H). by split; [apply advances_refl|].
Qed.
#[export] Hint Resolve total_load_signature_token : total.

(** * Entries *)

Lemma total_load_signature_tokens : total1 load_signature_tokens.
Proof. unfold load_signature_tokens. total_auto. Qed.

Lemma total_load_ability_set pos : total1 (load_ability_set pos).
Proof. unfold load_ability_set. total_auto. Qed.
#[export] Hint Resolve total_load_ability_set : total.

Lemma total_load_ability_sets pos : total1 (load_ability_sets pos).
Proof. unfold load_ability_sets. total_auto. Qed.

Lemma total_load_struct_type_parameter : total1 load_struct_type_parameter.
Proof. unfold load_struct_type_parameter. total_auto. Qed.
#[export] Hint Resolve total_load_struct_type_parameter total_load_ability_sets : total.

Lemma total_load_struct_type_parameters : total1 load_struct_type_parameters.
Proof. unfold load_struct_type_parameters. total_auto. Qed.
#[export] Hint Resolve total_load_struct_type_parameters : total.

Lemma total_load_module_handle : total1 load_module_handle.
Proof. unfold load_module_handle. total_auto. Qed.
Lemma total_load_struct_handle : total1 load_struct_handle.
Proof. unfold load_struct_handle. total_auto. Qed.
Lemma total_load_function_handle : total1 load_function_handle.
Proof. unfold load_function_handle. total_auto. Qed.
Lemma total_load_struct_instantiation : total1 load_struct_instantiation.
Proof. unfold load_struct_instantiation. total_auto. Qed.
Lemma total_load_function_instantiation : total1 load_function_instantiation.
Proof. unfold load_function_instantiation. total_auto. Qed.
Lemma total_load_identifier : total1 load_identifier.
Proof. unfold load_identifier. total_auto. Qed.
Lemma total_load_constant : total1 load_constant.
Proof. unfold load_constant. total_auto. Qed.
Lemma total_load_field_def : total1 load_field_def.
Proof. unfold load_field_def. total_auto. Qed.
#[export] Hint Resolve total_load_field_def : total.
Lemma total_load_field_defs : total1 load_field_defs.
Proof. unfold load_field_defs. total_auto. Qed.
#[export] Hint Resolve total_load_field_defs : total.
Lemma total_load_struct_def : total1 load_struct_def.
Proof. unfold load_struct_def. total_auto. Qed.
Lemma total_load_field_handle : total1 load_field_handle.
Proof. unfold load_field_handle. total_auto. Qed.
Lemma total_load_field_instantiation : total1 load_field_instantiation.
Proof. unfold load_field_instantiation. total_auto. Qed.

Lemma total_load_operands opcode : total0 (load_operands opcode).
Proof. unfold load_operands. destruct opcode; total_auto. Qed.
#[export] Hint Resolve total_load_operands : total.
Lemma total_load_bytecode : total1 load_bytecode.
Proof. unfold load_bytecode. total_auto. Qed.
#[export] Hint Resolve total_load_bytecode : total.
Lemma total_load_code_unit : total1 load_code_unit.
Proof. unfold load_code_unit, load_code. total_auto. Qed.
#[export] Hint Resolve total_load_code_unit : total.
Lemma total_load_function_def : total1 load_function_def.
Proof. unfold load_function_def, load_struct_definition_indices. total_auto. Qed.
#[export] Hint Resolve total_load_module_handle total_load_struct_handle
  total_load_function_handle total_load_struct_instantiation
  total_load_function_instantiation total_load_identifier total_load_constant
  total_load_signature_tokens total_load_struct_def total_load_field_handle
  total_load_field_instantiation total_load_function_def : total.

(** * Table loops *)

Abbreviation unread c := (length c.(VersionedCursor.cursor).(Cursor.rest)).

Lemma advances_unread n c c' : advances n c c' -> (unread c' + n <= unread c)%nat.
Proof. intros (bs & Hn & -> & _). rewrite length_app. lia. Qed.

Lemma load_while_safe {A} fuel count (load : Reader A) acc c :
  total1 load -> (unread c < fuel)%nat -> safe (load_while fuel count load acc c).
Proof.
  intros Hl. revert acc c. induction fuel as [|fuel IH]; intros acc c Hf; [lia|].
  cbn [load_while]. unfold mbind, Reader_bind, ST_bind, cursor_position.
  destruct (_ <? count); [|done]. specialize (Hl c) as Hc.
  destruct (load c) as [[a c1]| | |]; [|done..].
  destruct Hc as [Hadv%advances_unread _]. apply IH. lia.
Qed.

Lemma load_until_safe {A} fuel count (load : Reader A) acc c :
  total1 load -> (unread c < fuel)%nat -> safe (load_until fuel count load acc c).
Proof.
  intros Hl. revert acc c. induction fuel as [|fuel IH]; intros acc c Hf; [lia|].
  cbn [load_until]. unfold mbind, Reader_bind, ST_bind, cursor_position.
  destruct (_ =? count); [done|]. specialize (Hl c) as Hc.
  destruct (load c) as [[a c1]| | |]; [|done..].
  destruct Hc as [Hadv%advances_unread _]. apply IH. lia.
Qed.

(** What [check_tables] establishes of every table: it is a non-empty slice of
    the contents. *)
Definition table_in (len : Z) (t : Table) : Prop :=
  0 <= t.(Table.offset) /\ 0 < t.(Table.count) /\
  t.(Table.offset) + t.(Table.count) <= len.

Lemma slice_ok {E} bin start end_ :
  0 <= start <= end_ -> end_ <= zlen bin ->
  slice (E:=E) bin start end_
  = Ok (take (Z.to_nat (end_ - start)) (drop (Z.to_nat start) bin)).
Proof.
  intros. unfold slice. destruct (Z.leb_spec 0 start), (Z.leb_spec start end_),
    (Z.leb_spec end_ (zlen bin)); simpl; done || lia.
Qed.

Lemma with_table_safe {A} binary table (body : Reader (list A)) :
  table_in (zlen binary.(VersionedBinary.binary)) table ->
  (forall c, (unread c < table_fuel table)%nat -> safe (body c)) ->
  safe (with_table binary table body).
Proof.
  intros (Ho & Hc & He) Hb. unfold with_table, new_cursor. cbv zeta.
  rewrite slice_ok by lia. simpl.
  match goal with |- context [body ?c] => specialize (Hb c); destruct (body c) as [[]| | |] end;
    try done; apply Hb; simpl; rewrite length_take; unfold table_fuel; lia.
Qed.

Lemma with_table_while_safe {A} binary table (load : Reader A) acc :
  total1 load -> table_in (zlen binary.(VersionedBinary.binary)) table ->
  safe (with_table binary table
          (load_while (table_fuel table) table.(Table.count) load acc)).
Proof. intros Hl Ht. apply with_table_safe; [done|]. intros c. by apply load_while_safe. Qed.

Lemma with_table_until_safe {A} binary table (load : Reader A) acc :
  total1 load -> table_in (zlen binary.(VersionedBinary.binary)) table ->
  safe (with_table binary table
          (load_until (table_fuel table) table.(Table.count) load acc)).
Proof. intros Hl Ht. apply with_table_safe; [done|]. intros c. by apply load_until_safe. Qed.

Lemma load_address_loop_safe n binary start acc :
  0 <= start ->
  start + Z.of_nat n * Z.of_nat AccountAddress_LENGTH
    <= zlen binary.(VersionedBinary.binary) ->
  safe (load_address_loop n binary start acc).
Proof.
  revert start acc. induction n as [|n IH]; intros start acc Hs Hn; [done|].
  cbn [load_address_loop]. unfold AccountAddress_LENGTH in *. rewrite slice_ok by lia. simpl.
  destruct (address_try_from _); [|done]. apply IH; lia.
Qed.

Lemma load_address_identifiers_safe binary table acc :
  table_in (zlen binary.(VersionedBinary.binary)) table ->
  safe (load_address_identifiers binary table acc).
Proof.
  intros (Ho & Hc & He). unfold load_address_identifiers.
  destruct (negb _) eqn:E; [done|]. bool_hyps. apply load_address_loop_safe; [done|].
  unfold AccountAddress_LENGTH in *.
  rewrite Z2Nat.id by (apply Z.div_pos; lia).
  pose proof (Z.mul_div_le table.(Table.count) (Z.of_nat 16)). lia.
Qed.

#[export] Hint Resolve with_table_while_safe with_table_until_safe
  load_address_identifiers_safe : total.

(** * Table headers *)

Lemma total_read_table :
  total 1 read_table (fun t => 0 <= t.(Table.offset) /\ 0 <= t.(Table.count)).
Proof.
  unfold read_table. eapply total_bind0; [apply total_read_u8_malformed|]. intros k _.
  eapply total_bind0; [eapply total_weaken; [apply total_uleb|lia|intros ? HP; exact HP]|].
  intros o Ho. simpl in Ho.
  eapply total_bind0; [eapply total_weaken; [apply total_uleb|lia|intros ? HP; exact HP]|].
  intros n Hn. simpl in Hn. eapply total_bind0; [apply total_lift_any, TableType_from_u8_safe|].
  intros k' _. apply total_ret. simpl. lia.
Qed.

Lemma insert_table_Forall (P : Table -> Prop) t ts :
  P t -> Forall P ts -> Forall P (insert_table t ts).
Proof.
  intros Ht. induction 1 as [|t' ts Ht' Hts IH]; simpl; [by constructor|].
  destruct (_ <=? _); by repeat constructor.
Qed.

Lemma sort_tables_Forall (P : Table -> Prop) ts : Forall P ts -> Forall P (sort_tables ts).
Proof.
  induction 1; simpl; [constructor|]. by apply insert_table_Forall.
Qed.

Lemma check_tables_loop_safe tables len off kinds :
  safe (check_tables_loop tables len off kinds).
Proof.
  revert off kinds. induction tables as [|t ts IH]; intros off kinds; simpl; [done|].
  repeat (case_match; [done|]). apply IH.
Qed.

Lemma check_tables_loop_in tables len off kinds off' :
  0 <= off -> Forall (fun t => 0 <= t.(Table.offset) /\ 0 <= t.(Table.count)) tables ->
  check_tables_loop tables len off kinds = Ok off' ->
  off <= off' /\ Forall (table_in off') tables.
Proof.
  intros Hoff Hts. revert off kinds Hoff.
  induction Hts as [|t ts [Ho Hc] Hts IH]; intros off kinds Hoff; simpl;
    [intros [= ->]; split; [lia|constructor]|].
  destruct (Z.eqb_spec t.(Table.offset) off) as [E|]; [|done]. simpl.
  destruct (Z.eqb_spec t.(Table.count) 0); [done|].
  do 3 (case_match; [done|]). intros Hrec%IH; [|lia]. destruct Hrec as [Hle Hin].
  split; [lia|]. constructor; [|done]. unfold table_in. lia.
Qed.

Lemma check_tables_in tables len off tables' :
  Forall (fun t => 0 <= t.(Table.offset) /\ 0 <= t.(Table.count)) tables ->
  check_tables tables len = Ok (off, tables') -> 0 <= off /\ Forall (table_in off) tables'.
Proof.
  intros Hts. unfold check_tables. intros H. inv_ok.
  eapply check_tables_loop_in; [done|by apply sort_tables_Forall|done].
Qed.

Lemma check_tables_safe tables len : safe (check_tables tables len).
Proof. apply safe_bind; [apply check_tables_loop_safe|done]. Qed.

Definition header_ok (h : list Table * VersionedBinary) : Prop :=
  Forall (table_in (zlen h.2.(VersionedBinary.binary))) h.1.

Lemma total_load_header binary : total 1 (load_header binary) header_ok.
Proof.
  unfold load_header. eapply total_bind0; [apply total_uleb|]. intros n _.
  eapply total_bind0; [apply total_repeat; eapply total_weaken;
    [apply total_read_table|lia|intros ? HP; exact HP]|].
  intros ts Hts. cbv beta in Hts.
  eapply total_bind0; [apply total_lift; [apply check_tables_safe|intros a HP; exact HP]|].
  intros [off ts'] H. cbn beta iota in H. apply check_tables_in in H as [Hoff Hin]; [|done].
  eapply total_bind0 with (P := fun b => zlen b.(VersionedBinary.binary) = off).
  - unfold read_table_contents, read_new_binary.
    eapply total_bind0; [eapply total_weaken; [apply total_read_exact|lia|intros ? HP; exact HP]|].
    intros bs Hbs. cbv beta in Hbs. apply total_version_bind. intros v. apply total_ret.
    simpl. lia.
  - intros b Hb. apply total_ret. unfold header_ok. simpl. by rewrite Hb.
Qed.

(** * Building the compiled unit *)

#[export] Hint Unfold load_module_handles load_struct_handles load_function_handles
  load_struct_instantiations load_function_instantiations load_identifiers
  load_constant_pool load_signatures load_struct_defs load_function_defs
  load_field_handles load_field_instantiations : total.

Lemma build_common_table_safe {T} `{CommonTablesMut T} binary table (common : T) :
  table_in (zlen binary.(VersionedBinary.binary)) table ->
  safe (build_common_table binary table common).
Proof.
  intros Ht. unfold build_common_table.
  destruct table.(Table.kind) eqn:E; try done; [..|by destruct (_ <? _)];
    (apply safe_bind; [|done]); autounfold with total; auto with total.
Qed.

Lemma build_common_tables_safe {T} `{CommonTablesMut T} binary tables (common : T) :
  Forall (table_in (zlen binary.(VersionedBinary.binary))) tables ->
  safe (build_common_tables binary tables common).
Proof.
  intros Hts. revert common. induction Hts as [|t ts Ht Hts IH]; intros common; [done|].
  cbn [build_common_tables]. apply safe_bind; [by apply build_common_table_safe|auto].
Qed.

Lemma build_module_table_safe binary table m :
  table_in (zlen binary.(VersionedBinary.binary)) table ->
  safe (build_module_table binary table m).
Proof.
  intros Ht. unfold build_module_table.
  destruct table.(Table.kind) eqn:E; try done; (apply safe_bind; [|done]); autounfold with total; auto with total.
Qed.

Lemma build_module_tables_safe binary tables m :
  Forall (table_in (zlen binary.(VersionedBinary.binary))) tables ->
  safe (build_module_tables binary tables m).
Proof.
  intros Hts. revert m. induction Hts as [|t ts Ht Hts IH]; intros m; [done|].
  cbn [build_module_tables]. apply safe_bind; [by apply build_module_table_safe|auto].
Qed.

Lemma build_script_tables_safe tables : safe (build_script_tables tables).
Proof. induction tables as [|t ts IH]; simpl; [done|]. by destruct t.(Table.kind). Qed.

Lemma VersionedCursor_new_safe binary : safe (VersionedCursor_new binary).
Proof.
  apply safe_bind; [|by intros []]. unfold VersionedBinary_new. cbn [cursor_read].
  case_match; [done|]. unfold read_u32, cursor_read_exact. 
  unfold mbind, ST_bind. cbn [Cursor.rest]. case_match eqn:E; try done; repeat case_match; done.
Qed.

(** * The deserializer is total *)

(** A run of a reader from a cursor, with what its contract gives. *)
Lemma total_run {A B} n (r : Reader A) (Q : A -> Prop) c (k : A * VersionedCursor -> result StatusCode B) :
  total n r Q -> (forall a c', Q a -> safe (k (a, c'))) -> safe (r c ≫= k).
Proof.
  intros Hr Hk. specialize (Hr c). destruct (r c) as [[a c']| | |]; simpl; try done.
  apply Hk, Hr.
Qed.

Lemma build_compiled_module_safe m binary tables :
  header_ok (tables, binary) -> safe (build_compiled_module m binary tables).
Proof.
  intros H. apply safe_bind; [by apply build_common_tables_safe|].
  intros ? _. by apply build_module_tables_safe.
Qed.

Lemma build_compiled_script_safe s binary tables :
  header_ok (tables, binary) -> safe (build_compiled_script s binary tables).
Proof.
  intros H. apply safe_bind; [by apply build_common_tables_safe|].
  intros ? _. by apply safe_bind; [apply build_script_tables_safe|].
Qed.

Lemma deserialize_compiled_module_safe (binary : list Z) :
  safe (deserialize_compiled_module binary).
Proof.
  apply safe_bind; [apply VersionedCursor_new_safe|]. intros c _.
  eapply (total_run 0) with (Q := fun '(_, ts, b) => header_ok (ts, b)).
  - eapply total_bind0; [eapply total_weaken;
      [apply total_load_header|lia|intros ? HP; exact HP]|].
    intros [ts b] Hh. apply total_version_bind. intros v.
    eapply total_bind0; [eapply total0_any, total_uleb|]. intros i _. by apply total_ret.
  - intros [[m ts] b] c'. apply build_compiled_module_safe.
Qed.

Lemma deserialize_compiled_script_safe (binary : list Z) :
  safe (deserialize_compiled_script binary).
Proof.
  apply safe_bind; [apply VersionedCursor_new_safe|]. intros c _.
  eapply (total_run 0) with (Q := fun '(_, ts, b) => header_ok (ts, b)).
  - eapply total_bind0; [eapply total_weaken;
      [apply total_load_header|lia|intros ? HP; exact HP]|].
    intros [ts b] Hh. apply total_version_bind. intros v.
    eapply total_bind0; [eapply total0_any, total_load_ability_sets|]. intros ps _.
    eapply total_bind0; [eapply total0_any, total_uleb|]. intros i _.
    eapply total_bind0; [eapply total0_any, total_load_code_unit|]. intros code _.
    by apply total_ret.
  - intros [[m ts] b] c'. apply build_compiled_script_safe.
Qed.

(** * Contracts *)

Abbreviation bytes_of c := (wf_bytes c.(VersionedCursor.cursor).(Cursor.rest) = true).

(** [yields r Q]: from a cursor over bytes, a value [r] returns satisfies [Q]. *)
Definition yields {A} (r : Reader A) (Q : A -> Prop) : Prop :=
  forall c a c', bytes_of c -> r c = Ok (a, c') -> Q a /\ bytes_of c'.

(** A boolean well-formedness predicate as a contract. *)
Abbreviation yields_wf r f := (yields r (fun x => f x = true)).

Lemma wf_bytes_app bs1 bs2 : wf_bytes (bs1 ++ bs2) = wf_bytes bs1 && wf_bytes bs2.
Proof. apply forallb_app. Qed.

Lemma yields_total {A} n (r : Reader A) Q : total n r Q -> yields r Q.
Proof.
  intros H c a c' Hb E. specialize (H c). rewrite E in H.
  destruct H as [(bs & _ & Hr & _) HQ]. split; [done|].
  rewrite Hr, wf_bytes_app in Hb. by apply andb_true_iff in Hb as [_ ?].
Qed.

Lemma yields_weaken {A} (r : Reader A) (Q Q' : A -> Prop) :
  yields r Q -> (forall a, Q a -> Q' a) -> yields r Q'.
Proof. intros H HQ c a c' Hb E. destruct (H c a c' Hb E). auto. Qed.

Lemma yields_bind {A B} (r : Reader A) (k : A -> Reader B) (P : A -> Prop) (Q : B -> Prop) :
  yields r P -> (forall a, P a -> yields (k a) Q) -> yields (r ≫= k) Q.
Proof.
  intros Hr Hk c b c' Hb (a & c1 & E1 & E2)%st_bind_ok.
  destruct (Hr _ _ _ Hb E1) as [HP Hb1]. by eapply Hk.
Qed.

Lemma yields_ret {A} (a : A) (Q : A -> Prop) : Q a -> yields (mret a) Q.
Proof. intros HQ c b c' Hb [= <- <-]. done. Qed.

Lemma yields_err {A} e (Q : A -> Prop) : yields (st_err e) Q.
Proof. by intros c a c' _ [=]. Qed.

Lemma yields_panic {A} (Q : A -> Prop) : yields st_panic Q.
Proof. by intros c a c' _ [=]. Qed.

Lemma yields_lift {A} (x : result StatusCode A) : yields (st_lift x) (fun a => x = Ok a).
Proof. intros c a c' Hb. unfold st_lift. destruct x; intros [= <- <-]. done. Qed.

Lemma yields_version : yields cursor_version (fun _ => True).
Proof. by intros c a c' Hb [= <- <-]. Qed.

Lemma yields_repeat {A} n (r : Reader A) f :
  yields_wf r f -> yields_wf (st_repeat n r) (forallb f).
Proof.
  intros Hr. induction n as [|n IH]; simpl; [by apply yields_ret|].
  eapply yields_bind; [exact Hr|]. intros a Ha. eapply yields_bind; [exact IH|].
  intros l Hl. apply yields_ret. simpl. by rewrite Ha, Hl.
Qed.

(** * Primitive readers *)

Lemma yields_u8 : yields_wf read_u8_malformed is_u8.
Proof.
  intros [v [pos rest]] a c' Hb. unfold read_u8_malformed, on_cursor. simpl in *.
  destruct rest as [|b rest]; [done|]. rewrite read_u8_cons. intros [= <- <-].
  simpl in Hb. apply andb_true_iff in Hb as [Hb Hr]. done.
Qed.

Lemma wf_bytes_take_drop n bs :
  wf_bytes bs = true -> wf_bytes (take n bs) = true /\ wf_bytes (drop n bs) = true.
Proof. rewrite <- (take_drop n bs) at 1. rewrite wf_bytes_app. by intros [? ?]%andb_true_iff. Qed.

Lemma yields_read n e : yields_wf (on_cursor e (cursor_read n)) wf_bytes.
Proof.
  intros [v [pos rest]] a c' Hb. unfold on_cursor. simpl in *. intros [= <- <-].
  by apply wf_bytes_take_drop.
Qed.

Lemma yields_read_exact n e :
  yields (on_cursor e (cursor_read_exact n)) (fun bs => wf_bytes bs = true /\ length bs = n).
Proof.
  intros [v [pos rest]] a c' Hb. unfold on_cursor, cursor_read_exact. simpl in *.
  destruct (Nat.leb_spec n (length rest)); [|done]. intros [= <- <-].
  rewrite length_take. pose proof (wf_bytes_take_drop n rest Hb) as [? ?]. simpl.
  split; [split; [done|lia]|done].
Qed.

Lemma from_le_bytes_range bs :
  wf_bytes bs = true -> 0 <= from_le_bytes bs < 2 ^ (8 * zlen bs).
Proof.
  induction bs as [|b bs IH]; simpl wf_bytes; intros H; [simpl; lia|].
  apply andb_true_iff in H as [Hb%in_range_spec Hbs]. specialize (IH Hbs).
  cbn [from_le_bytes length]. unfold u8_max in Hb.
  replace (8 * Z.of_nat (S (length bs))) with (8 + 8 * zlen bs) by lia.
  rewrite Z.pow_add_r by lia. change (2 ^ 8) with 256 in *. nia.
Qed.

Lemma yields_u64 : yields_wf read_u64_internal is_u64.
Proof.
  eapply yields_bind; [apply yields_read_exact|]. intros bs [Hb Hl]. apply yields_ret.
  apply in_range_spec. pose proof (from_le_bytes_range bs Hb) as Hr. rewrite Hl in Hr.
  change (2 ^ (8 * Z.of_nat 8)) with (2 ^ 64) in Hr. zify_bounds. lia.
Qed.

Lemma yields_u128 : yields_wf read_u128_internal is_u128.
Proof.
  eapply yields_bind; [apply yields_read_exact|]. intros bs [Hb Hl]. apply yields_ret.
  apply in_range_spec. pose proof (from_le_bytes_range bs Hb) as Hr. rewrite Hl in Hr.
  change (2 ^ (8 * Z.of_nat 16)) with (2 ^ 128) in Hr. zify_bounds. lia.
Qed.

Lemma yields_uleb tmax max : yields_wf (read_uleb_internal tmax max) (in_range tmax).
Proof.
  eapply yields_weaken; [eapply yields_total, total_uleb|]. intros x Hx.
  apply in_range_spec. simpl in Hx. lia.
Qed.

(** * Automation *)

Create HintDb yields.
#[export] Hint Resolve yields_uleb yields_u8 yields_u64 yields_u128 yields_read
  yields_repeat yields_lift yields_version yields_err yields_panic : yields.

Ltac yields_end :=
  apply yields_ret; simpl;
  repeat match goal with H : ?x = true |- context [?x] => rewrite H end;
  repeat case_match; done.

Ltac yields_step :=
  match goal with
  | |- yields (_ ≫= _) _ => eapply yields_bind; [solve [eauto with yields]|intros ? ?; cbv beta in *]
  | |- yields (mret _) _ => yields_end
  | |- yields (st_err _) _ => apply yields_err
  | |- yields st_panic _ => apply yields_panic
  | |- yields (if ?b then _ else _) _ => destruct b
  | |- yields (match ?x with _ => _ end) _ => destruct x
  end.
Ltac yields_auto := total_unfold; cbv beta zeta; repeat yields_step; eauto with yields.

(** * Entries *)

Lemma yields_ability_set pos : yields_wf (load_ability_set pos) wf_ability_set.
Proof.
  unfold load_ability_set. eapply yields_bind; [apply yields_version|]. intros v _.
  destruct (v <? 2).
  - destruct pos; yields_auto.
  - eapply yields_bind; [eapply yields_total, total_uleb|]. intros u Hu. simpl in Hu.
    destruct (AbilitySet.from_u8 u) as [a|] eqn:E; [|apply yields_err]. apply yields_ret.
    unfold AbilitySet.from_u8 in E. destruct (AbilitySet.is_subset_bits _ _); [|done].
    injection E as <-. apply in_range_spec. lia.
Qed.
#[export] Hint Resolve yields_ability_set : yields.

Lemma yields_ability_sets pos : yields_wf (load_ability_sets pos) (forallb wf_ability_set).
Proof. unfold load_ability_sets. yields_auto. Qed.
#[export] Hint Resolve yields_ability_sets : yields.

Lemma yields_struct_type_parameter :
  yields_wf load_struct_type_parameter wf_struct_type_parameter.
Proof.
  unfold load_struct_type_parameter. yields_step. yields_step.
  eapply (yields_bind _ _ (fun _ => True)); [|intros ? _; by apply yields_ret].
  destruct (_ <? _); [by apply yields_ret|]. eapply yields_bind; [apply yields_uleb|].
  intros ? _. by apply yields_ret.
Qed.
#[export] Hint Resolve yields_struct_type_parameter : yields.

Lemma yields_struct_type_parameters :
  yields_wf load_struct_type_parameters (forallb wf_struct_type_parameter).
Proof. unfold load_struct_type_parameters. yields_auto. Qed.
#[export] Hint Resolve yields_struct_type_parameters : yields.

Lemma yields_module_handle : yields_wf load_module_handle wf_module_handle.
Proof. unfold load_module_handle, wf_module_handle. yields_auto. Qed.
Lemma yields_struct_handle : yields_wf load_struct_handle wf_struct_handle.
Proof. unfold load_struct_handle, wf_struct_handle. yields_auto. Qed.
Lemma yields_function_handle : yields_wf load_function_handle wf_function_handle.
Proof. unfold load_function_handle, wf_function_handle. yields_auto. Qed.
Lemma yields_struct_instantiation :
  yields_wf load_struct_instantiation wf_struct_def_instantiation.
Proof. unfold load_struct_instantiation, wf_struct_def_instantiation. yields_auto. Qed.
Lemma yields_function_instantiation :
  yields_wf load_function_instantiation wf_function_instantiation.
Proof. unfold load_function_instantiation, wf_function_instantiation. yields_auto. Qed.
Lemma yields_field_handle : yields_wf load_field_handle wf_field_handle.
Proof. unfold load_field_handle, wf_field_handle. yields_auto. Qed.
Lemma yields_field_instantiation : yields_wf load_field_instantiation wf_field_instantiation.
Proof. unfold load_field_instantiation, wf_field_instantiation. yields_auto. Qed.

Lemma yields_identifier : yields_wf load_identifier Identifier.is_valid.
Proof.
  unfold load_identifier. yields_auto. eapply yields_weaken; [apply yields_lift|].
  intros i E. destruct (Identifier.from_utf8 _) as [j| | |] eqn:Ej; simpl in E; try done.
  injection E as ->. by apply IdentifierFacts.from_utf8_inv in Ej as [-> ?].
Qed.

(** * Signature tokens *)

Definition wf_builder (b : TypeBuilder) : bool :=
  match b with
  | TypeBuilder.Saturated t => wf_token t
  | TypeBuilder.StructInst idx _ args => is_u16 idx && forallb wf_token args
  | _ => true
  end.

Lemma yields_read_next : yields_wf read_next wf_builder.
Proof. unfold read_next. yields_auto. Qed.

(** Applying a builder always leaves a type argument behind. *)
Lemma apply_wf b tok b' :
  wf_builder b = true -> wf_token tok = true -> TypeBuilder.apply b tok = Ok b' ->
  wf_builder b' = true.
Proof.
  intros Hb Ht. destruct b; simpl; try done; try (by intros [= <-]).
  simpl in Hb. apply andb_true_iff in Hb as [Hi Ha].
  assert (forallb wf_token (ty_args ++ [tok]) = true) as Hall
    by (rewrite forallb_app; simpl; by rewrite Ha, Ht).
  destruct (_ <=? _); intros [= <-]; simpl; rewrite Hi, Hall; [|done].
  by rewrite length_app, Nat.add_comm.
Qed.

Lemma yields_token_loop fuel stack :
  forallb wf_builder stack = true -> yields_wf (load_signature_token_loop fuel stack) wf_token.
Proof.
  revert stack. induction fuel as [|fuel IH]; intros stack Hs; [by intros c a c' _ [=]|].
  cbn [load_signature_token_loop]. destruct (_ <? _); [apply yields_err|].
  destruct stack as [|last rest]; [apply yields_panic|]. pose proof Hs as Hs0.
  simpl in Hs. apply andb_true_iff in Hs as [Hl Hr].
  destruct (TypeBuilder.is_saturated last).
  - eapply yields_bind; [apply yields_lift|]. intros tok Htok.
    assert (wf_token tok = true) as Hw by (destruct last; simpl in *; congruence).
    destruct rest as [|t rest]; [by apply yields_ret|].
    simpl in Hr. apply andb_true_iff in Hr as [Ht Hr].
    eapply yields_bind; [apply yields_lift|]. intros t' Ht'. apply IH. simpl.
    by rewrite (apply_wf _ _ _ Ht Hw Ht').
  - eapply yields_bind; [apply yields_read_next|]. intros t Ht. apply IH.
    cbv beta in Ht. cbn [forallb]. by rewrite Ht, Hl, Hr.
Qed.

Lemma yields_signature_token : yields_wf load_signature_token wf_token.
Proof.
  eapply yields_bind; [apply yields_read_next|]. intros t Ht c a c' Hb E.
  unfold load_signature_token_from in E. cbv beta in Ht.
  destruct t; [by injection E as <- <-|..]; (eapply yields_token_loop; [|done|exact E]);
    simpl in *; by rewrite ?andb_true_r.
Qed.
#[export] Hint Resolve yields_signature_token : yields.

Lemma yields_signature_tokens : yields_wf load_signature_tokens wf_signature.
Proof. unfold load_signature_tokens. yields_auto. Qed.
Lemma yields_constant : yields_wf load_constant wf_constant.
Proof. unfold load_constant, wf_constant. yields_auto. Qed.
Lemma yields_field_def : yields_wf load_field_def wf_field_definition.
Proof. unfold load_field_def, wf_field_definition. yields_auto. Qed.
#[export] Hint Resolve yields_field_def : yields.
Lemma yields_field_defs : yields_wf load_field_defs (forallb wf_field_definition).
Proof. unfold load_field_defs. yields_auto. Qed.
#[export] Hint Resolve yields_field_defs : yields.

Lemma yields_struct_def : yields_wf load_struct_def wf_struct_definition.
Proof.
  unfold load_struct_def, wf_struct_definition. yields_step. yields_step. yields_step.
  eapply (yields_bind _ _ (fun f =>
    match f with Native => true | Declared fields => forallb wf_field_definition fields end = true)).
  - yields_auto.
  - intros f Hf. yields_auto.
Qed.

(** * Code *)

Lemma yields_operands op : yields_wf (load_operands op) wf_bytecode.
Proof. destruct op; cbn [load_operands]; yields_auto. Qed.
#[export] Hint Resolve yields_operands : yields.

Lemma yields_bytecode : yields_wf load_bytecode wf_bytecode.
Proof. unfold load_bytecode. yields_auto. Qed.
#[export] Hint Resolve yields_bytecode : yields.

Lemma yields_code : yields_wf load_code (forallb wf_bytecode).
Proof. unfold load_code. yields_auto. Qed.
#[export] Hint Resolve yields_code : yields.

Lemma yields_code_unit : yields_wf load_code_unit wf_code_unit.
Proof. unfold load_code_unit, wf_code_unit. yields_auto. Qed.
#[export] Hint Resolve yields_code_unit : yields.

Lemma yields_acquires : yields_wf load_struct_definition_indices (forallb is_u16).
Proof. unfold load_struct_definition_indices. yields_auto. Qed.

Lemma yields_function_def : yields_wf load_function_def wf_function_definition.
Proof.
  unfold load_function_def, wf_function_definition. do 3 yields_step.
  eapply (yields_bind _ _ (fun _ => True)).
  { destruct (_ =? _); [cbv zeta; destruct (negb _); by apply yields_ret|].
    eapply yields_bind; [apply yields_lift|]. intros ? _.
    eapply yields_bind; [apply yields_u8|]. intros ? _. by apply yields_ret. }
  intros [vis flags] _. eapply yields_bind; [apply yields_acquires|]. intros acq Hacq.
  eapply (yields_bind _ _ (fun p =>
    match p.1 with Some c => wf_code_unit c | None => true end = true)).
  { destruct (negb _); yields_auto. }
  intros [code flags'] Hcode. cbv beta in *. simpl in Hcode. destruct (negb _); [apply yields_err|].
  yields_end.
Qed.
#[export] Hint Resolve yields_module_handle yields_struct_handle yields_function_handle
  yields_struct_instantiation yields_function_instantiation yields_field_handle
  yields_field_instantiation yields_identifier yields_signature_tokens yields_constant
  yields_struct_def yields_function_def : yields.

(** * Tables *)

Lemma forallb_snoc {A} (f : A -> bool) l x :
  forallb f l = true -> f x = true -> forallb f (l ++ [x]) = true.
Proof. intros Hl Hx. rewrite forallb_app. simpl. by rewrite Hl, Hx. Qed.

Lemma yields_while {A} fuel count (load : Reader A) f acc :
  yields_wf load f -> forallb f acc = true ->
  yields_wf (load_while fuel count load acc) (forallb f).
Proof.
  intros Hl. revert acc. induction fuel as [|fuel IH]; intros acc Ha; [by intros c a c' _ [=]|].
  cbn [load_while]. eapply (yields_bind _ _ (fun _ => True)); [by intros c a c' ? [= <- <-]|].
  intros pos _. destruct (_ <? _); [|by apply yields_ret].
  eapply yields_bind; [exact Hl|]. intros x Hx. apply IH. by apply forallb_snoc.
Qed.

Lemma yields_until {A} fuel count (load : Reader A) f acc :
  yields_wf load f -> forallb f acc = true ->
  yields_wf (load_until fuel count load acc) (forallb f).
Proof.
  intros Hl. revert acc. induction fuel as [|fuel IH]; intros acc Ha; [by intros c a c' _ [=]|].
  cbn [load_until]. eapply (yields_bind _ _ (fun _ => True)); [by intros c a c' ? [= <- <-]|].
  intros pos _. destruct (_ =? _); [by apply yields_ret|].
  eapply yields_bind; [exact Hl|]. intros x Hx. apply IH. by apply forallb_snoc.
Qed.

Abbreviation bytes_in b := (wf_bytes b.(VersionedBinary.binary) = true).

Lemma slice_wf {E} bs start end_ s :
  wf_bytes bs = true -> slice (E:=E) bs start end_ = Ok s -> wf_bytes s = true.
Proof.
  intros Hb. unfold slice. destruct (_ && _); [|done]. intros [= <-].
  by apply wf_bytes_take_drop, wf_bytes_take_drop.
Qed.

Lemma with_table_wf {A} binary table (body : Reader (list A)) f l :
  bytes_in binary -> yields_wf body (forallb f) ->
  with_table binary table body = Ok l -> forallb f l = true.
Proof.
  intros Hb Hy. unfold with_table, new_cursor. cbv zeta. intros H.
  apply res_bind_ok in H as (c & Hc & H). apply res_bind_ok in Hc as (s & Hs & [= <-]).
  apply res_bind_ok in H as ([items c'] & Hi & [= <-]).
  apply slice_wf in Hs; [|done]. by eapply Hy in Hi as [? _].
Qed.

Lemma load_address_loop_wf n binary start acc l :
  bytes_in binary -> forallb wf_address acc = true ->
  load_address_loop n binary start acc = Ok l -> forallb wf_address l = true.
Proof.
  intros Hb. revert start acc. induction n as [|n IH]; intros start acc Ha; [by intros [= <-]|].
  cbn [load_address_loop]. intros (bs & Hs & H)%res_bind_ok.
  destruct (address_try_from bs) as [a|] eqn:E; [|done]. eapply IH; [|exact H].
  apply forallb_snoc; [done|]. unfold address_try_from in E. destruct (Nat.eqb _ _) eqn:El; [|done].
  injection E as <-. unfold wf_address. rewrite El. by eapply slice_wf.
Qed.

Lemma load_address_identifiers_wf binary table acc l :
  bytes_in binary -> forallb wf_address acc = true ->
  load_address_identifiers binary table acc = Ok l -> forallb wf_address l = true.
Proof.
  intros Hb Ha. unfold load_address_identifiers. destruct (negb _); [done|].
  by apply load_address_loop_wf.
Qed.

(** * Units *)

Ltac wf_hyps :=
  repeat match goal with H : (_ && _) = true |- _ => apply andb_true_iff in H as [? ?] end.

(** The new value of a table is well formed, the others are unchanged. *)
Ltac table_wf :=
  match goal with
  | Hx : _ _ _ _ = Ok _ |- _ =>
    first [ apply load_address_identifiers_wf in Hx; [|done..]
          | autounfold with total in Hx; eapply with_table_wf in Hx;
            [|done|first [apply yields_while | apply yields_until]; [solve [eauto with yields]|done]] ]
  end.

Ltac unit_wf :=
  repeat match goal with |- (_ && _) = true => apply andb_true_iff; split end; assumption.

Lemma build_common_table_module_wf binary table (m m' : CompiledModule) :
  bytes_in binary -> wf_module m = true -> build_common_table binary table m = Ok m' ->
  wf_module m' = true.
Proof.
  intros Hb Hm. unfold build_common_table. unfold wf_module in Hm. wf_hyps.
  destruct table.(Table.kind); try (intros [= <-]; unfold wf_module; unit_wf);
    try (intros (x & Hx & [= <-])%res_bind_ok; table_wf; unfold wf_module; simpl; unit_wf).
  destruct (_ <? _); [done|]. intros [= <-]; unfold wf_module; unit_wf.
Qed.

Lemma build_common_table_script_wf binary table (s s' : CompiledScript) :
  bytes_in binary -> wf_script s = true -> build_common_table binary table s = Ok s' ->
  wf_script s' = true.
Proof.
  intros Hb Hm. unfold build_common_table. unfold wf_script in Hm. wf_hyps.
  destruct table.(Table.kind); try (intros [= <-]; unfold wf_script; unit_wf);
    try (intros (x & Hx & [= <-])%res_bind_ok; table_wf; unfold wf_script; simpl; unit_wf).
  destruct (_ <? _); [done|]. intros [= <-]; unfold wf_script; unit_wf.
Qed.

Lemma build_module_table_wf binary table m m' :
  bytes_in binary -> wf_module m = true -> build_module_table binary table m = Ok m' ->
  wf_module m' = true.
Proof.
  intros Hb Hm. unfold build_module_table. unfold wf_module in Hm. wf_hyps.
  destruct table.(Table.kind); try (intros [= <-]; unfold wf_module; unit_wf);
    intros (x & Hx & [= <-])%res_bind_ok; table_wf; unfold wf_module; simpl; unit_wf.
Qed.

(** The table loops preserve whatever one table preserves. *)
Lemma build_common_tables_inv {T} `{CommonTablesMut T} (I : T -> Prop) binary tables (t t' : T) :
  (forall table t t', I t -> build_common_table binary table t = Ok t' -> I t') ->
  I t -> build_common_tables binary tables t = Ok t' -> I t'.
Proof.
  intros HI. revert t. induction tables as [|x xs IH]; intros t Ht; simpl; [by intros [= <-]|].
  intros (t1 & H1 & H2)%res_bind_ok. eauto.
Qed.

Lemma build_module_tables_inv (I : CompiledModule -> Prop) binary tables m m' :
  (forall table m m', I m -> build_module_table binary table m = Ok m' -> I m') ->
  I m -> build_module_tables binary tables m = Ok m' -> I m'.
Proof.
  intros HI. revert m. induction tables as [|x xs IH]; intros m Hm; simpl; [by intros [= <-]|].
  intros (t1 & H1 & H2)%res_bind_ok. eauto.
Qed.

(** * Entry points *)

Lemma VersionedCursor_new_wf binary c :
  wf_bytes binary = true -> VersionedCursor_new binary = Ok c -> bytes_of c.
Proof.
  intros Hb. unfold VersionedCursor_new, VersionedBinary_new, cursor_read. cbv zeta.
  cbn [cursor_new Cursor.rest Cursor.position].
  intros ([vb cur] & H & [= <-])%res_bind_ok. cbn [VersionedCursor.cursor].
  destruct (negb _ || _); [done|].
  set (c1 := Cursor.mk _ _) in H. destruct (read_u32 c1) as [[v c2]| | |] eqn:E; try done.
  destruct (_ || _); [done|]. injection H as <- <-.
  unfold read_u32 in E. apply st_bind_ok in E as (bs & c3 & E & [= <- <-]).
  unfold cursor_read_exact in E. destruct (Nat.leb _ _); [|done]. injection E as _ <-.
  cbn [Cursor.rest c1]. by apply wf_bytes_take_drop, wf_bytes_take_drop.
Qed.

Lemma yields_header binary : yields (load_header binary) (fun h => bytes_in h.2).
Proof.
  unfold load_header. eapply yields_bind; [apply yields_uleb|]. intros n _.
  eapply (yields_bind _ _ (fun _ => True)).
  { eapply yields_total, total_repeat_any, total_1_0, total1_any, total_read_table. }
  intros ts _. eapply yields_bind; [apply yields_lift|]. intros [len ts'] _.
  eapply (yields_bind _ _ (fun b => bytes_in b)).
  - unfold read_table_contents, read_new_binary. eapply yields_bind; [apply yields_read_exact|].
    intros bs [Hbs _]. eapply yields_bind; [apply yields_version|]. intros v _. by apply yields_ret.
  - intros b Hb. by apply yields_ret.
Qed.

Lemma deserialize_module_wf (binary : list Z) (m : CompiledModule) :
  wf_bytes binary = true -> deserialize_compiled_module binary = Ok m -> wf_module m = true.
Proof.
  intros Hb H. unfold deserialize_compiled_module in H.
  apply res_bind_ok in H as (c & Hc & H). apply VersionedCursor_new_wf in Hc; [|done].
  apply res_bind_ok in H as ([[[m0 ts] b] c'] & Hr & H).
  assert (wf_module m0 = true /\ bytes_in b) as [Hm0 Hbb].
  { eapply (yields_bind _ _ _ (fun '(m0, _, b) => wf_module m0 = true /\ bytes_in b)
      (yields_header binary)) in Hr as [? _]; [done| |done].
    intros [ts1 b1] Hb1. eapply yields_bind; [apply yields_version|]. intros v _.
    eapply yields_bind; [apply yields_uleb|]. intros i Hi. apply yields_ret. split; [|done].
    unfold wf_module. simpl. by rewrite Hi. }
  unfold build_compiled_module in H. apply res_bind_ok in H as (m1 & H1 & H2).
  apply (build_common_tables_inv (fun m => wf_module m = true)) in H1; [| |done].
  2: { intros t y y' Hy. by apply build_common_table_module_wf. }
  apply (build_module_tables_inv (fun m => wf_module m = true)) in H2; [done| |done].
  intros t y y' Hy. by apply build_module_table_wf.
Qed.

Lemma deserialize_script_wf (binary : list Z) (s : CompiledScript) :
  wf_bytes binary = true -> deserialize_compiled_script binary = Ok s -> wf_script s = true.
Proof.
  intros Hb H. unfold deserialize_compiled_script in H.
  apply res_bind_ok in H as (c & Hc & H). apply VersionedCursor_new_wf in Hc; [|done].
  apply res_bind_ok in H as ([[[s0 ts] b] c'] & Hr & H).
  assert (wf_script s0 = true /\ bytes_in b) as [Hs0 Hbb].
  { eapply (yields_bind _ _ _ (fun '(s0, _, b) => wf_script s0 = true /\ bytes_in b)
      (yields_header binary)) in Hr as [? _]; [done| |done].
    intros [ts1 b1] Hb1. eapply yields_bind; [apply yields_version|]. intros v _.
    eapply yields_bind; [apply yields_ability_sets|]. intros ps Hps.
    eapply yields_bind; [apply yields_uleb|]. intros i Hi.
    eapply yields_bind; [apply yields_code_unit|]. intros cu Hcu. apply yields_ret. split; [|done].
    unfold wf_script. simpl. by rewrite Hps, Hi, Hcu. }
  unfold build_compiled_script in H. apply res_bind_ok in H as (s1 & H1 & H2).
  apply res_bind_ok in H2 as (u & _ & [= <-]). clear u.
  apply (build_common_tables_inv (fun s => wf_script s = true)) in H1; [done| |done].
  intros t y y' Hy. by apply build_common_table_script_wf.
Qed.
