(* ===== verification/Codec.v ===== *)
(** Codecs: a writer of the serializer paired with the reader of the deserializer
    that undoes it, and the entries of the binary format as codecs. *)
From S2P Require Import Prelude StatusCode Abilities Identifier FileFormat BinaryCommon Uleb.
From S2P Require Import Serializer Deserializer DeserializerSafety WellFormed.

(** * Contracts *)

(** A cursor of the latest version over [bs]. *)
Definition at_ (pos : Z) (bs : list Z) : VersionedCursor :=
  VersionedCursor.mk VERSION_MAX (Cursor.mk pos bs).

(** [reads r bs a]: wherever [bs] comes next, [r] consumes exactly [bs] and
    returns [a]. *)
Definition reads {A} (r : Reader A) (bs : list Z) (a : A) : Prop :=
  forall pos rest, r (at_ pos (bs ++ rest)) = Ok (a, at_ (pos + zlen bs) rest).

(** [writes w P]: when [w] succeeds it appends bytes that satisfy [P]. *)
Definition writes (w : Writer ()) (P : list Z -> Prop) : Prop :=
  forall b b', w b = Ok ((), b') -> exists bs, b' = b ++ bs /\ P bs.

(** [codec n w r a]: what [w] appends is at least [n] bytes, which [r] reads
    back as [a]. *)
Definition codec {A} (n : nat) (w : Writer ()) (r : Reader A) (a : A) : Prop :=
  writes w (fun bs => (n <= length bs)%nat /\ reads r bs a).

(** * Composition *)

Lemma reads_bind {A B} (r : Reader A) (k : A -> Reader B) bs1 bs2 a b :
  reads r bs1 a -> reads (k a) bs2 b -> reads (r ≫= k) (bs1 ++ bs2) b.
Proof.
  intros H1 H2 pos rest. unfold mbind, Reader_bind, ST_bind.
  rewrite <- app_assoc, H1, H2, length_app. do 3 f_equal. lia.
Qed.

Lemma reads_ret {A} (a : A) : reads (mret a) [] a.
Proof. intros pos rest. simpl. by rewrite Z.add_0_r. Qed.

Lemma writes_bind (w1 w2 : Writer ()) P Q :
  writes w1 P -> writes w2 Q ->
  writes (w1;; w2) (fun bs => exists bs1 bs2, bs = bs1 ++ bs2 /\ P bs1 /\ Q bs2).
Proof.
  intros H1 H2 b b' H. inv_ok. destruct x.
  apply H1 in H0 as (bs1 & -> & HP). apply H2 in H as (bs2 & -> & HQ).
  exists (bs1 ++ bs2). rewrite app_assoc. eauto 6.
Qed.

Lemma writes_impl w (P Q : list Z -> Prop) :
  writes w P -> (forall bs, P bs -> Q bs) -> writes w Q.
Proof. intros H HPQ b b' (bs & -> & HP)%H. eauto. Qed.

Lemma codec_bind {A B} n w1 w2 (r : Reader A) (k : A -> Reader B) a b :
  codec n w1 r a -> codec 0 w2 (k a) b -> codec n (w1;; w2) (r ≫= k) b.
Proof.
  intros H1 H2. eapply writes_impl; [by apply writes_bind|].
  intros ? (bs1 & bs2 & -> & [L1 R1] & [_ R2]). rewrite length_app.
  split; [lia|]. by eapply reads_bind.
Qed.

(** The reader goes on without reading. *)
Lemma codec_last {A B} n w (r : Reader A) (k : A -> Reader B) a b :
  codec n w r a -> reads (k a) [] b -> codec n w (r ≫= k) b.
Proof.
  intros H Hk. eapply writes_impl; [exact H|]. intros bs [L R]. split; [done|].
  rewrite <- (app_nil_r bs). by eapply reads_bind.
Qed.

Lemma codec_pre {A B} n w (r : Reader A) (k : A -> Reader B) a b :
  reads r [] a -> codec n w (k a) b -> codec n w (r ≫= k) b.
Proof.
  intros Hr H. eapply writes_impl; [exact H|]. intros bs [L R]. split; [done|].
  by apply (reads_bind r k [] bs a).
Qed.

Lemma codec_ret {A} (a : A) : codec 0 (mret ()) (mret a) a.
Proof.
  intros b b' [= <-]. exists []. rewrite app_nil_r. split; [done|]. split; [done|].
  apply reads_ret.
Qed.

Lemma codec_weaken {A} n w (r : Reader A) a : codec n w r a -> codec 0 w r a.
Proof. intros H. eapply writes_impl; [exact H|]. intros bs [_ R]. split; [lia|done]. Qed.

Lemma reads_version : reads cursor_version [] VERSION_MAX.
Proof. intros pos rest. simpl. by rewrite Z.add_0_r. Qed.

Lemma reads_lift {A} (x : result StatusCode A) a : x = Ok a -> reads (st_lift x) [] a.
Proof. intros -> pos rest. simpl. by rewrite Z.add_0_r. Qed.

Lemma codec_version {B} n w (k : Z -> Reader B) b :
  codec n w (k VERSION_MAX) b -> codec n w (cursor_version ≫= k) b.
Proof. apply codec_pre, reads_version. Qed.

Lemma codec_lift {A B} n w (x : result StatusCode A) a (k : A -> Reader B) b :
  x = Ok a -> codec n w (k a) b -> codec n w (st_lift x ≫= k) b.
Proof. intros. eapply codec_pre; [by apply reads_lift|done]. Qed.

(** [for x in xs { write(x) }] against [for _ in 0..len { read() }]. *)
Lemma codec_for {A} (w : A -> Writer ()) (r : Reader A) xs :
  Forall (fun x => codec 0 (w x) r x) xs ->
  codec 0 (st_for xs w) (st_repeat (length xs) r) xs.
Proof.
  induction 1 as [|x xs Hx Hxs IH]; simpl; [apply codec_ret|].
  eapply codec_bind; [exact Hx|]. eapply codec_last; [exact IH|]. apply reads_ret.
Qed.

(** * Primitive codecs *)

Lemma codec_push x : codec 1 (push x) read_u8_malformed x.
Proof.
  intros b b'. unfold push. destruct (_ <=? _); [|done]. intros [= <-].
  exists [x]. split; [done|]. split; [done|]. intros pos rest. reflexivity.
Qed.

Lemma st_for_push bs b b' : st_for bs push b = Ok ((), b') -> b' = b ++ bs.
Proof.
  revert b. induction bs as [|x bs IH]; intros b H; simpl in H; inv_ok.
  - by rewrite app_nil_r.
  - unfold push in H0. destruct (_ <=? _); [|done]. injection H0 as _ <-.
    apply IH in H as ->. by rewrite <- app_assoc.
Qed.

Lemma writes_extend bs : writes (extend bs) (eq bs).
Proof.
  intros b b'. unfold extend. destruct (_ <=? _); [|done]. intros [= <-]. eauto.
Qed.

Lemma writes_push_all bs : writes (st_for bs push) (eq bs).
Proof. intros b b' ->%st_for_push. eauto. Qed.

Lemma cursor_read_app n pos bs rest :
  length bs = n ->
  cursor_read n (Cursor.mk pos (bs ++ rest)) = Ok (bs, Cursor.mk (pos + zlen bs) rest).
Proof.
  intros <-. unfold cursor_read. simpl. by rewrite take_app_length, drop_app_length.
Qed.

Lemma reads_read e n bs : length bs = n -> reads (on_cursor e (cursor_read n)) bs bs.
Proof.
  intros Hn pos rest. unfold on_cursor. simpl VersionedCursor.cursor.
  by rewrite cursor_read_app.
Qed.

Lemma reads_read_exact e n bs :
  length bs = n -> reads (on_cursor e (cursor_read_exact n)) bs bs.
Proof.
  intros Hn pos rest. unfold on_cursor, cursor_read_exact. simpl VersionedCursor.cursor.
  cbn [Cursor.rest]. rewrite length_app. destruct (Nat.leb_spec n (length bs + length rest)); [|lia].
  by rewrite cursor_read_app.
Qed.

Lemma reads_uleb x tmax max :
  0 <= x <= max -> x <= tmax -> x <= u64_max ->
  reads (read_uleb_internal tmax max) (uleb_bytes 10 x) x.
Proof.
  intros Hx Ht Hu pos rest. unfold read_uleb_internal, mbind, Reader_bind, ST_bind, on_cursor.
  unfold at_. cbn [VersionedCursor.cursor VersionedCursor.version]. unfold read_uleb128_as_u64.
  rewrite read_uleb_loop_spec by (zify_bounds; simpl; lia).
  change (2 ^ 0) with 1. rewrite Z.mul_1_r, Z.add_0_l.
  destruct (Z.ltb_spec max x); [lia|]. destruct (Z.ltb_spec tmax x); [lia|]. reflexivity.
Qed.

Lemma writes_uleb x max :
  0 <= x -> max <= u64_max -> writes (write_as_uleb128 x max) (fun bs => x <= max /\ bs = uleb_bytes 10 x).
Proof.
  intros Hx Hm b b'. unfold write_as_uleb128. destruct (Z.ltb_spec max x); [done|].
  unfold write_u64_as_uleb128. rewrite write_uleb_loop_spec by (zify_bounds; simpl; lia).
  intros ->%st_for_push. eauto.
Qed.

(** An index: the writer's bound is the reader's. *)
Lemma codec_uleb x tmax max :
  0 <= x <= tmax -> max <= u64_max ->
  codec 1 (write_as_uleb128 x max) (read_uleb_internal tmax max) x.
Proof.
  intros Hx Hm. eapply writes_impl; [apply writes_uleb; lia|]. intros bs [Hle ->]. split.
  - pose proof (uleb_bytes_nonempty 10 x ltac:(done)). destruct (uleb_bytes 10 x); simpl; [done|lia].
  - apply reads_uleb; lia.
Qed.

(** A length: it fits whenever it was accepted. *)
Lemma codec_len {A} (l : list A) tmax max :
  max <= tmax -> max <= u64_max ->
  codec 1 (write_as_uleb128 (zlen l) max) (read_uleb_internal tmax max) (zlen l).
Proof.
  intros Ht Hm. eapply writes_impl; [apply writes_uleb; lia|]. intros bs [Hle ->]. split.
  - pose proof (uleb_bytes_nonempty 10 (zlen l) ltac:(done)).
    destruct (uleb_bytes 10 (zlen l)); simpl; [done|lia].
  - apply reads_uleb; lia.
Qed.

Lemma length_to_le_bytes n v : length (to_le_bytes n v) = n.
Proof. revert v. induction n as [|n IH]; intros v; simpl; [done|]. by rewrite IH. Qed.

Lemma from_to_le_bytes n v : 0 <= v < 2 ^ (8 * Z.of_nat n) -> from_le_bytes (to_le_bytes n v) = v.
Proof.
  revert v. induction n as [|n IH]; intros v Hv.
  { change (2 ^ (8 * Z.of_nat 0)) with 1 in Hv. cbn [to_le_bytes from_le_bytes]. lia. }
  cbn [to_le_bytes from_le_bytes]. rewrite IH.
  - pose proof (Z.div_mod v (2 ^ 8)). lia.
  - split; [apply Z.div_pos; lia|]. apply Z.div_lt_upper_bound; [lia|].
    rewrite <- Z.pow_add_r by lia. replace (8 + 8 * Z.of_nat n) with (8 * Z.of_nat (S n)) by lia.
    lia.
Qed.

Lemma codec_u64 v : is_u64 v = true -> codec 1 (write_u64 v) read_u64_internal v.
Proof.
  intros Hv%in_range_spec. eapply writes_impl; [apply writes_extend|]. intros ? <-.
  rewrite length_to_le_bytes. split; [lia|]. rewrite <- (app_nil_r (to_le_bytes 8 v)).
  eapply reads_bind; [by apply reads_read_exact, length_to_le_bytes|].
  rewrite from_to_le_bytes by (zify_bounds; simpl; lia). apply reads_ret.
Qed.

Lemma codec_u128 v : is_u128 v = true -> codec 1 (write_u128 v) read_u128_internal v.
Proof.
  intros Hv%in_range_spec. eapply writes_impl; [apply writes_extend|]. intros ? <-.
  rewrite length_to_le_bytes. split; [lia|]. rewrite <- (app_nil_r (to_le_bytes 16 v)).
  eapply reads_bind; [by apply reads_read_exact, length_to_le_bytes|].
  rewrite from_to_le_bytes by (zify_bounds; simpl; lia). apply reads_ret.
Qed.

Lemma codec_read_bytes e bs :
  codec 0 (st_for bs push) (on_cursor e (cursor_read (Z.to_nat (zlen bs)))) bs.
Proof.
  eapply writes_impl; [apply writes_push_all|]. intros ? <-. split; [lia|].
  apply reads_read. lia.
Qed.

(** A vector: its length, then its elements. *)
Lemma codec_vec {A} n (wlen : Writer ()) (rlen : Reader Z) (w : A -> Writer ()) (r : Reader A) l :
  codec n wlen rlen (zlen l) -> Forall (fun x => codec 0 (w x) r x) l ->
  codec n (wlen;; st_for l w) (rlen ≫= fun len => st_repeat (Z.to_nat len) r) l.
Proof.
  intros Hlen Hl. eapply codec_bind; [exact Hlen|]. rewrite Nat2Z.id. by apply codec_for.
Qed.

Lemma codec_Forall {A} (f : A -> bool) (w : A -> Writer ()) (r : Reader A) n l :
  (forall x, f x = true -> codec n (w x) r x) -> forallb f l = true ->
  Forall (fun x => codec 0 (w x) r x) l.
Proof.
  intros H Hl%forallb_Forall. eapply Forall_impl; [|exact Hl].
  intros x Hx. eapply codec_weaken, H, Hx.
Qed.

(** * Automation *)

Create HintDb codec.
#[export] Hint Resolve codec_push codec_u64 codec_u128 : codec.

Ltac codec_range :=
  repeat match goal with H : in_range _ _ = true |- _ => apply in_range_spec in H end;
  simpl in *; zify_bounds; lia.

Ltac codec_prim :=
  solve [ eauto with codec
        | apply codec_uleb; [codec_range | done]
        | apply codec_len; done
        | apply codec_vec; [apply codec_len; done | eauto using codec_Forall with codec] ].

Ltac codec_solve := first [codec_prim | apply (codec_weaken 1); codec_prim].

Ltac codec_step :=
  match goal with
  | |- codec _ _ (cursor_version ≫= _) _ => apply codec_version
  | |- codec _ (_ ≫= _) (_ ≫= _) _ => eapply codec_bind; [codec_solve|]
  | |- codec _ _ (_ ≫= _) _ => eapply codec_last; [codec_solve|apply reads_ret]
  end.

Ltac codec_auto := repeat codec_step; try codec_solve.

(** Bring the fields of an entry and their ranges into the context. *)
Ltac codec_entry x :=
  intros Hwf; destruct x;
  repeat match goal with H : (_ && _) = true |- _ => apply andb_true_iff in H as [? ?] end.

(** * Handles and instantiations *)

Lemma codec_module_handle h :
  wf_module_handle h = true -> codec 1 (serialize_module_handle h) load_module_handle h.
Proof.
  unfold wf_module_handle. codec_entry h. simpl in *.
  unfold serialize_module_handle, load_module_handle. codec_auto.
Qed.

Lemma codec_ability_set pos s :
  wf_ability_set s = true -> codec 1 (serialize_ability_set s) (load_ability_set pos) s.
Proof.
  intros Hs. unfold serialize_ability_set, load_ability_set. codec_step.
  change (VERSION_MAX <? 2) with false. cbv iota.
  eapply codec_last; [apply codec_uleb; [|done]|].
  - unfold AbilitySet.into_u8. apply in_range_spec in Hs.
    change (AbilitySet.into_u8 AbilitySet.ALL) with 15 in Hs. zify_bounds. lia.
  - unfold AbilitySet.into_u8, AbilitySet.from_u8.
    pose proof (AbilitySetFacts.valid_of_range s) as Hv. unfold AbilitySetFacts.valid, AbilitySet.is_subset in Hv.
    rewrite Hv by (by apply in_range_spec in Hs). apply reads_ret.
Qed.
#[export] Hint Resolve codec_ability_set : codec.

Lemma codec_ability_sets pos ss :
  forallb wf_ability_set ss = true ->
  codec 1 (serialize_ability_sets ss) (load_ability_sets pos) ss.
Proof. intros H. unfold serialize_ability_sets, load_ability_sets. codec_solve. Qed.

Lemma codec_struct_type_parameter p :
  wf_struct_type_parameter p = true ->
  codec 1 (serialize_type_parameter p) load_struct_type_parameter p.
Proof.
  unfold wf_struct_type_parameter. codec_entry p. simpl in *.
  unfold serialize_type_parameter, load_struct_type_parameter. simpl.
  codec_step. codec_step. change (VERSION_MAX <? VERSION_3) with false. cbv iota.
  apply (codec_weaken 1). destruct is_phantom.
  - eapply (codec_last _ _ _ _ true); [|apply reads_ret].
    eapply codec_last; [apply codec_uleb; done|]. apply (reads_ret true).
  - eapply (codec_last _ _ _ _ false); [|apply reads_ret].
    eapply codec_last; [apply codec_uleb; done|]. apply (reads_ret false).
Qed.
#[export] Hint Resolve codec_struct_type_parameter codec_ability_sets : codec.

Lemma codec_struct_type_parameters ps :
  forallb wf_struct_type_parameter ps = true ->
  codec 1 (serialize_type_parameters ps) load_struct_type_parameters ps.
Proof. intros H. unfold serialize_type_parameters, load_struct_type_parameters. codec_solve. Qed.
#[export] Hint Resolve codec_struct_type_parameters : codec.

Lemma codec_struct_handle h :
  wf_struct_handle h = true -> codec 1 (serialize_struct_handle h) load_struct_handle h.
Proof.
  unfold wf_struct_handle. codec_entry h. simpl in *.
  unfold serialize_struct_handle, load_struct_handle. codec_auto.
Qed.

Lemma codec_function_handle h :
  wf_function_handle h = true -> codec 1 (serialize_function_handle h) load_function_handle h.
Proof.
  unfold wf_function_handle. codec_entry h. simpl in *.
  unfold serialize_function_handle, load_function_handle. codec_auto.
Qed.

Lemma codec_struct_def_instantiation i :
  wf_struct_def_instantiation i = true ->
  codec 1 (serialize_struct_def_instantiation i) load_struct_instantiation i.
Proof.
  unfold wf_struct_def_instantiation. codec_entry i. simpl in *.
  unfold serialize_struct_def_instantiation, load_struct_instantiation. codec_auto.
Qed.

Lemma codec_function_instantiation i :
  wf_function_instantiation i = true ->
  codec 1 (serialize_function_instantiation i) load_function_instantiation i.
Proof.
  unfold wf_function_instantiation. codec_entry i. simpl in *.
  unfold serialize_function_instantiation, load_function_instantiation. codec_auto.
Qed.

Lemma codec_field_handle h :
  wf_field_handle h = true -> codec 1 (serialize_field_handle h) load_field_handle h.
Proof.
  unfold wf_field_handle. codec_entry h. simpl in *.
  unfold serialize_field_handle, load_field_handle. codec_auto.
Qed.

Lemma codec_field_instantiation i :
  wf_field_instantiation i = true ->
  codec 1 (serialize_field_instantiation i) load_field_instantiation i.
Proof.
  unfold wf_field_instantiation. codec_entry i. simpl in *.
  unfold serialize_field_instantiation, load_field_instantiation. codec_auto.
Qed.

Lemma codec_identifier i :
  Identifier.is_valid i = true -> codec 1 (serialize_identifier i) load_identifier i.
Proof.
  intros Hi. unfold serialize_identifier, load_identifier.
  eapply codec_bind; [apply codec_len; done|].
  eapply codec_last; [apply codec_read_bytes|]. rewrite Z.eqb_refl. simpl.
  apply reads_lift. by rewrite IdentifierFacts.from_utf8_ok.
Qed.
