(* ===== verification/TokenCodec.v ===== *)
(** Signature tokens: the iterative preorder traversal of file_format.rs against a
    recursive reference, and the stack machine of [load_signature_token] as the
    inverse of [serialize_signature_token]. *)
From S2P Require Import Prelude StatusCode Abilities Identifier FileFormat BinaryCommon Uleb.
From S2P Require Import Serializer Deserializer DeserializerSafety WellFormed Codec.

(** * The traversals *)

(** The tokens directly below a token. *)
Definition children (t : SignatureToken) : list SignatureToken :=
  match t with
  | SignatureToken.Vector tok | SignatureToken.Reference tok
  | SignatureToken.MutableReference tok => [tok]
  | SignatureToken.StructInstantiation _ toks => toks
  | _ => []
  end.

(** Reference: the nodes of a token in preorder, each with its depth. *)
Fixpoint preorder (d : Z) (t : SignatureToken) : list (SignatureToken * Z) :=
  (t, d) ::
  match t with
  | SignatureToken.Vector tok | SignatureToken.Reference tok
  | SignatureToken.MutableReference tok => preorder (d + 1) tok
  | SignatureToken.StructInstantiation _ toks => flat_map (preorder (d + 1)) toks
  | _ => []
  end.

Lemma preorder_children d t :
  preorder d t = (t, d) :: flat_map (preorder (d + 1)) (children t).
Proof. destruct t; simpl; by rewrite ?app_nil_r. Qed.

Lemma size_children t : SignatureToken.size t = S (sum_list_with SignatureToken.size (children t)).
Proof. destruct t; simpl; lia. Qed.

Lemma next_with_depth_children t d stack :
  SignatureToken.next_with_depth ((t, d) :: stack)
  = Some ((t, d), map (fun tok => (tok, d + 1)) (children t) ++ stack).
Proof. by destruct t. Qed.

Lemma next_children t stack :
  SignatureToken.next (t :: stack) = Some (t, children t ++ stack).
Proof. by destruct t. Qed.

Lemma flat_map_map {A B C} (f : B -> list C) (g : A -> B) l :
  flat_map f (map g l) = flat_map (fun x => f (g x)) l.
Proof. induction l as [|x l IH]; simpl; [done|]. by rewrite IH. Qed.

Lemma zip_replicate {A B} (l : list A) (b : B) :
  zip l (replicate (length l) b) = map (fun x => (x, b)) l.
Proof. induction l as [|x l IH]; simpl; [done|]. by rewrite IH. Qed.

Lemma sum_size_map (d : Z) l :
  sum_list_with (fun p : SignatureToken * Z => SignatureToken.size p.1)
    (map (fun tok => (tok, d)) l) = sum_list_with SignatureToken.size l.
Proof. induction l as [|x l IH]; simpl; [done|]. by rewrite IH. Qed.

(** Enough steps of the iterator visit the preorder of everything on the stack. *)
Lemma iterate_preorder n stack :
  (sum_list_with (fun p => SignatureToken.size p.1) stack <= n)%nat ->
  SignatureToken.iterate n SignatureToken.next_with_depth stack
  = flat_map (fun '(t, d) => preorder d t) stack.
Proof.
  revert stack. induction n as [|n IH]; intros [|[t d] stack] Hn.
  - done.
  - simpl in Hn. rewrite size_children in Hn. lia.
  - done.
  - cbn [SignatureToken.iterate flat_map]. rewrite next_with_depth_children, preorder_children.
    cbn [app]. f_equal. simpl in Hn. rewrite size_children in Hn.
    rewrite IH by (rewrite sum_list_with_app, sum_size_map; lia).
    by rewrite flat_map_app, flat_map_map.
Qed.

Lemma iterate_next n stack ds :
  length ds = length stack ->
  SignatureToken.iterate n SignatureToken.next stack
  = map fst (SignatureToken.iterate n SignatureToken.next_with_depth (zip stack ds)).
Proof.
  revert stack ds. induction n as [|n IH]; intros stack ds Hl; [done|].
  destruct stack as [|t stack], ds as [|d ds]; try done. simpl zip.
  cbn [SignatureToken.iterate]. rewrite next_children, next_with_depth_children. cbn [map].
  f_equal. rewrite (IH _ (replicate (length (children t)) (d + 1) ++ ds)).
  - f_equal. f_equal. rewrite zip_with_app by (by rewrite length_replicate).
    by rewrite zip_replicate.
  - rewrite !length_app, length_replicate. simpl in Hl. lia.
Qed.

Lemma preorder_traversal_with_depth_ref t :
  SignatureToken.preorder_traversal_with_depth t = preorder 1 t.
Proof.
  unfold SignatureToken.preorder_traversal_with_depth.
  rewrite iterate_preorder by (simpl; lia). simpl. apply app_nil_r.
Qed.

Lemma preorder_length d t : length (preorder d t) = SignatureToken.size t.
Proof.
  revert d. induction t using SignatureToken.token_ind; intros d; simpl; auto.
  f_equal. match goal with H : Forall _ toks |- _ => induction H as [|x l Hx Hl IHl] end;
    simpl; [done|]. by rewrite length_app, Hx, IHl.
Qed.

Lemma max_list_with_le (f : SignatureToken -> nat) x l : x ∈ l -> (f x <= max_list_with f l)%nat.
Proof.
  induction l as [|y l IH]; intros Hx; [by apply elem_of_nil in Hx|].
  apply elem_of_cons in Hx as [-> |Hx]; simpl; [lia|]. specialize (IH Hx). lia.
Qed.

Lemma preorder_depth d t x e :
  (x, e) ∈ preorder d t -> d <= e /\ e < d + Z.of_nat (SignatureToken.depth t).
Proof.
  revert d. induction t as [ | | | | | |tok IH| |idx toks IH|tok IH|tok IH| ]
    using SignatureToken.token_ind; intros d; simpl;
    try (intros [= -> ->]%list_elem_of_singleton; lia);
    try (intros [[= -> ->] |H%IH]%elem_of_cons; lia).
  intros [[= -> ->] |H]%elem_of_cons; [lia|].
  apply list_elem_of_In, in_flat_map in H as (y & Hy & H%list_elem_of_In).
  rewrite Forall_forall in IH. apply (IH y Hy) in H.
  apply list_elem_of_In in Hy. pose proof (max_list_with_le SignatureToken.depth y toks Hy). lia.
Qed.

(** the explicit-stack iterators are the recursive preorder: the traversal with
    depth lists every node of the token once, root first and each with its depth,
    and the plain traversal lists the same nodes. *)
Theorem preorder_traversals_correct (t : SignatureToken) :
  SignatureToken.preorder_traversal_with_depth t = preorder 1 t /\
  SignatureToken.preorder_traversal t = map fst (preorder 1 t) /\
  length (SignatureToken.preorder_traversal t) = SignatureToken.size t /\
  (forall x d, (x, d) ∈ SignatureToken.preorder_traversal_with_depth t ->
     1 <= d <= Z.of_nat (SignatureToken.depth t)).
Proof.
  assert (SignatureToken.preorder_traversal t = map fst (preorder 1 t)) as Hp.
  { unfold SignatureToken.preorder_traversal. rewrite (iterate_next _ _ [1]) by done.
    simpl zip. rewrite <- preorder_traversal_with_depth_ref. done. }
  split; [apply preorder_traversal_with_depth_ref|]. split; [done|].
  rewrite Hp, length_map, preorder_length. split; [done|]. intros x d.
  rewrite preorder_traversal_with_depth_ref. intros H%preorder_depth. lia.
Qed.

(** * The reader's stack machine *)

(** What [read_next] pushes for the root of a token. *)
Definition builder (t : SignatureToken) : TypeBuilder :=
  match t with
  | SignatureToken.Vector _ => TypeBuilder.Vector
  | SignatureToken.Reference _ => TypeBuilder.Reference
  | SignatureToken.MutableReference _ => TypeBuilder.MutableReference
  | SignatureToken.StructInstantiation idx toks => TypeBuilder.StructInst idx (zlen toks) []
  | t => TypeBuilder.Saturated t
  end.

(** The body of the loop of [serialize_signature_token]. *)
Definition serialize_node : SignatureToken * Z -> Writer () := fun '(token, depth) =>
  if SIGNATURE_TOKEN_DEPTH_MAX <? depth then st_err MaxRecursionDepth
  else serialize_signature_token_single_node_impl token.

Lemma codec_root t :
  wf_token t = true ->
  codec 1 (serialize_signature_token_single_node_impl t) read_next (builder t).
Proof.
  intros Hwf. unfold serialize_signature_token_single_node_impl, read_next.
  destruct t; simpl in Hwf; wf_split;
    try (eapply codec_last; [apply codec_push|]; intros pos rest; simpl;
         by rewrite Z.add_0_r).
  all: eapply codec_bind; [apply codec_push|]; eapply codec_lift; [reflexivity|]; cbv iota.
  - codec_auto.
  - codec_step. eapply codec_last; [|apply reads_ret]. apply (codec_weaken 1).
    by apply codec_len.
  - codec_auto.
Qed.

Lemma codec_node t d :
  wf_token t = true ->
  writes (serialize_node (t, d))
    (fun bs => d <= SIGNATURE_TOKEN_DEPTH_MAX /\ (1 <= length bs)%nat /\
               reads read_next bs (builder t)).
Proof.
  intros Hwf b b'. unfold serialize_node. destruct (Z.ltb_spec SIGNATURE_TOKEN_DEPTH_MAX d); [done|].
  intros (bs & -> & H1)%codec_root; [|done]. eauto.
Qed.

(** One iteration on an unsaturated top reads the next root. *)
Lemma loop_read fuel top stack pos bs rest t :
  TypeBuilder.is_saturated top = false ->
  zlen (top :: stack) <= SIGNATURE_TOKEN_DEPTH_MAX -> reads read_next bs t ->
  load_signature_token_loop (S fuel) (top :: stack) (at_ pos (bs ++ rest))
  = load_signature_token_loop fuel (t :: top :: stack) (at_ (pos + zlen bs) rest).
Proof.
  intros Hs Hd Hr. cbn [load_signature_token_loop].
  destruct (Z.ltb_spec SIGNATURE_TOKEN_DEPTH_MAX (zlen (top :: stack))); [lia|]. rewrite Hs.
  unfold mbind, Reader_bind, ST_bind. by rewrite Hr.
Qed.

(** One iteration on a saturated top applies it to the builder below. *)
Lemma loop_apply fuel tok t stack c t' :
  zlen (t :: stack) + 1 <= SIGNATURE_TOKEN_DEPTH_MAX -> TypeBuilder.apply t tok = Ok t' ->
  load_signature_token_loop (S fuel) (TypeBuilder.Saturated tok :: t :: stack) c
  = load_signature_token_loop fuel (t' :: stack) c.
Proof.
  intros Hd Ha. cbn [load_signature_token_loop].
  destruct (Z.ltb_spec SIGNATURE_TOKEN_DEPTH_MAX
              (zlen (TypeBuilder.Saturated tok :: t :: stack))) as [Hlt|];
    [cbn [length] in *; lia|].
  cbn [TypeBuilder.is_saturated TypeBuilder.unwrap_saturated].
  unfold mbind, Reader_bind, ST_bind, st_lift. by rewrite Ha.
Qed.

(** [steps bs s s']: the loop consumes [bs] and goes from stack [s] to [s']. *)
Definition steps (bs : list Z) (s s' : list TypeBuilder) : Prop :=
  forall pos rest, exists n, forall fuel,
    load_signature_token_loop (n + fuel) s (at_ pos (bs ++ rest))
    = load_signature_token_loop fuel s' (at_ (pos + zlen bs) rest).

Lemma steps_refl s : steps [] s s.
Proof. intros pos rest. exists 0%nat. intros fuel. simpl. by rewrite Z.add_0_r. Qed.

Lemma steps_trans bs1 bs2 s1 s2 s3 :
  steps bs1 s1 s2 -> steps bs2 s2 s3 -> steps (bs1 ++ bs2) s1 s3.
Proof.
  intros H1 H2 pos rest. destruct (H1 pos (bs2 ++ rest)) as [n1 E1].
  destruct (H2 (pos + zlen bs1) rest) as [n2 E2]. exists (n1 + n2)%nat. intros fuel.
  rewrite <- app_assoc, <- Nat.add_assoc, E1, E2, length_app. do 2 f_equal. lia.
Qed.

Lemma steps_read top stack bs t :
  TypeBuilder.is_saturated top = false ->
  zlen (top :: stack) <= SIGNATURE_TOKEN_DEPTH_MAX -> reads read_next bs t ->
  steps bs (top :: stack) (t :: top :: stack).
Proof. intros Hs Hd Hr pos rest. exists 1%nat. intros fuel. by apply loop_read. Qed.

Lemma steps_apply tok t stack t' :
  zlen (t :: stack) + 1 <= SIGNATURE_TOKEN_DEPTH_MAX -> TypeBuilder.apply t tok = Ok t' ->
  steps [] (TypeBuilder.Saturated tok :: t :: stack) (t' :: stack).
Proof.
  intros Hd Ha pos rest. exists 1%nat. intros fuel. simpl app. rewrite Z.add_0_r.
  by apply loop_apply.
Qed.

Lemma st_for_app {A} (xs ys : list A) (f : A -> Writer ()) b :
  st_for (xs ++ ys) f b = (st_for xs f;; st_for ys f) b.
Proof.
  revert b. induction xs as [|x xs IH]; intros b; [done|]. simpl.
  unfold mbind, Writer_bind, ST_bind. by destruct (f x b) as [[[] b1]| | |].
Qed.

(** The tokens below a root, written at depth [d + 1], turn its builder into the
    saturated token. *)
Definition saturates (t : SignatureToken) : Prop :=
  forall d stack, zlen stack + 1 = d ->
    writes (st_for (flat_map (preorder (d + 1)) (children t)) serialize_node)
      (fun bs => steps bs (builder t :: stack) (TypeBuilder.Saturated t :: stack)).

(** Reading a whole token on top of an unsaturated builder. *)
Lemma writes_token t d top stack :
  wf_token t = true -> saturates t -> TypeBuilder.is_saturated top = false ->
  zlen (top :: stack) + 1 = d ->
  writes (st_for (preorder d t) serialize_node)
    (fun bs => d <= SIGNATURE_TOKEN_DEPTH_MAX /\
               steps bs (top :: stack) (TypeBuilder.Saturated t :: top :: stack)).
Proof.
  intros Hwf Hsat Htop Hd. rewrite preorder_children. cbn [st_for].
  eapply writes_impl; [apply writes_bind; [by apply codec_node|by apply (Hsat d (top :: stack))]|].
  intros ? (bs1 & bs2 & -> & (Hle & _ & Hr) & Hs). split; [done|].
  eapply steps_trans; [|exact Hs]. apply steps_read; [done|lia|done].
Qed.

(** A builder with one argument. *)
Lemma saturates_unary t tok :
  children t = [tok] -> TypeBuilder.is_saturated (builder t) = false ->
  TypeBuilder.apply (builder t) tok = Ok (TypeBuilder.Saturated t) ->
  wf_token tok = true -> saturates tok -> saturates t.
Proof.
  intros Hc Hs Ha Hwf Htok d stack Hd. rewrite Hc. cbn [flat_map]. rewrite app_nil_r.
  eapply writes_impl; [apply (writes_token tok (d + 1) (builder t) stack); try done|].
  { cbn [length]. lia. }
  intros bs [Hle Hst]. rewrite <- (app_nil_r bs). eapply steps_trans; [exact Hst|].
  apply steps_apply; [cbn [length]; lia|done].
Qed.

(** The arguments of an instantiation, after [read] of them have been read. *)
Lemma saturates_args idx read todo d stack :
  Forall (fun t => wf_token t = true) todo -> Forall saturates todo -> todo <> [] ->
  zlen stack + 1 = d ->
  writes (st_for (flat_map (preorder (d + 1)) todo) serialize_node)
    (fun bs => steps bs
       (TypeBuilder.StructInst idx (zlen (read ++ todo)) read :: stack)
       (TypeBuilder.Saturated (SignatureToken.StructInstantiation idx (read ++ todo)) :: stack)).
Proof.
  intros Hwf. revert read. induction Hwf as [|t todo Hwf Hwfs IH]; intros read Hsat Hne Hd;
    [congruence|].
  apply Forall_cons_iff in Hsat as [Ht Hts]. cbn [flat_map].
  intros b b' Hw. rewrite st_for_app in Hw.
  set (top := TypeBuilder.StructInst idx (zlen (read ++ t :: todo)) read) in *.
  inv_ok. destruct x.
  apply (writes_token t (d + 1) top stack Hwf Ht eq_refl ltac:(cbn [length]; lia))
    in H as (bs1 & -> & Hle & H1).
  destruct todo as [|t2 todo].
  - injection Hw as <-. exists bs1. split; [done|].
    rewrite <- (app_nil_r bs1). eapply steps_trans; [exact H1|].
    apply steps_apply; [cbn [length]; lia|]. cbn [TypeBuilder.apply top].
    by rewrite Z.leb_refl.
  - apply (IH (read ++ [t]) Hts ltac:(done) Hd) in Hw as (bs2 & -> & H2).
    exists (bs1 ++ bs2). rewrite app_assoc. split; [done|].
    rewrite <- app_assoc in H2. cbn [app] in H2. eapply steps_trans; [exact H1|].
    apply (steps_trans [] bs2 _ _ _) with (2 := H2).
    apply steps_apply; [cbn [length]; lia|]. cbn [TypeBuilder.apply top].
    destruct (Z.leb_spec (zlen (read ++ t :: t2 :: todo)) (zlen (read ++ [t]))) as [Hl|]; [|done].
    rewrite !length_app in Hl. cbn [length] in Hl. lia.
Qed.

Lemma saturates_wf t : wf_token t = true -> saturates t.
Proof.
  induction t as [ | | | | | |tok IH| |idx toks IH|tok IH|tok IH| ]
    using SignatureToken.token_ind; intros Hwf;
    try (intros d stack _ b b' [= <-]; exists []; rewrite app_nil_r;
         split; [done|apply steps_refl]);
    try (apply (saturates_unary _ tok); auto; fail).
  simpl in Hwf. apply andb_true_iff in Hwf as [[_ Hne]%andb_true_iff Hwf].
  intros d stack Hd. apply (saturates_args idx [] toks); [by apply forallb_Forall| | |done].
  - apply forallb_Forall in Hwf. rewrite Forall_forall in *. auto.
  - intros ->. done.
Qed.

(** * Whole tokens *)

Lemma loop_fuel_mono n m stack c :
  load_signature_token_loop n stack c <> OutOfFuel -> (n <= m)%nat ->
  load_signature_token_loop m stack c = load_signature_token_loop n stack c.
Proof.
  revert m stack c. induction n as [|n IH]; intros m stack c Hn Hm; [done|].
  destruct m as [|m]; [lia|]. cbn [load_signature_token_loop] in *.
  destruct (_ <? _); [done|]. destruct stack as [|t stack]; [done|].
  destruct (TypeBuilder.is_saturated t).
  - unfold mbind, Reader_bind, ST_bind, st_lift in *.
    destruct (TypeBuilder.unwrap_saturated t); try done.
    destruct stack as [|t2 stack]; [done|]. destruct (TypeBuilder.apply t2 a); try done.
    apply IH; [done|lia].
  - unfold mbind, Reader_bind, ST_bind in *. destruct (read_next c) as [[]| | |]; try done.
    apply IH; [done|lia].
Qed.

(** Steps to a lone saturated token are what [load_signature_token_from] runs. *)
Lemma load_from_steps b t bs :
  steps bs [b] [TypeBuilder.Saturated t] -> TypeBuilder.is_saturated b = false ->
  reads (load_signature_token_from b) bs t.
Proof.
  intros Hs Hb pos rest. destruct (Hs pos rest) as [n Hn]. specialize (Hn 1%nat).
  set (c := at_ pos (bs ++ rest)) in *.
  assert (load_signature_token_from b c = load_signature_token_loop
    (2 * length c.(VersionedCursor.cursor).(Cursor.rest) + 2) [b] c) as -> by (by destruct b).
  set (f := (2 * _ + 2)%nat).
  change (load_signature_token_loop 1 [TypeBuilder.Saturated t] (at_ (pos + zlen bs) rest))
    with (Ok (E:=StatusCode) (t, at_ (pos + zlen bs) rest)) in Hn.
  rewrite <- Hn. pose proof (load_signature_token_loop_total f [b] c) as Ht.
  specialize (Ht ltac:(done) ltac:(constructor) ltac:(subst f; simpl; lia)).
  destruct (Nat.le_ge_cases f (n + 1)).
  - symmetry. apply loop_fuel_mono; [|done].
    by destruct (load_signature_token_loop f [b] c) as [[]| | |].
  - apply loop_fuel_mono; [by rewrite Hn|done].
Qed.

Lemma codec_signature_token t :
  wf_token t = true -> codec 1 (serialize_signature_token t) load_signature_token t.
Proof.
  intros Hwf. unfold serialize_signature_token. rewrite preorder_traversal_with_depth_ref.
  fold serialize_node. rewrite preorder_children. cbn [st_for].
  assert (writes (st_for (flat_map (preorder (1 + 1)) (children t)) serialize_node)
            (fun bs => reads (load_signature_token_from (builder t)) bs t)) as Hrest.
  { destruct (TypeBuilder.is_saturated (builder t)) eqn:Hb.
    - assert (builder t = TypeBuilder.Saturated t /\ children t = []) as [-> ->] by (by destruct t).
      intros b b' [= <-]. exists []. rewrite app_nil_r. split; [done|].
      intros pos rest. simpl. by rewrite Z.add_0_r.
    - eapply writes_impl; [by apply (saturates_wf t Hwf 1 [])|].
      intros bs Hs. by apply load_from_steps. }
  eapply writes_impl; [apply writes_bind; [by apply codec_node|exact Hrest]|].
  intros ? (bs1 & bs2 & -> & (_ & Hl & Hr) & Hs). rewrite length_app. split; [lia|].
  by eapply reads_bind.
Qed.
#[export] Hint Resolve codec_signature_token : codec.
