(* ===== verification/Tables.v ===== *)
(** The tables of a binary.  First the entries that contain signature tokens or code, as
    codecs; then how [serialize_table] lays entries out, how [check_tables] accepts the
    layout and how the table loops read it back.  A layout is the list of tables in the
    order they are written, each with its bytes; empty tables leave no trace. *)
From S2P Require Import Prelude StatusCode Abilities Identifier FileFormat BinaryCommon Uleb Serializer.
From S2P Require Import Deserializer WellFormed DeserializerSafety Codec TokenCodec.
Lemma codec_signature s :
  wf_signature s = true -> codec 1 (serialize_signature s) load_signature_tokens s.
Proof.
  intros H. unfold serialize_signature, serialize_signature_tokens, load_signature_tokens.
  codec_solve.
Qed.

Lemma codec_constant k : wf_constant k = true -> codec 1 (serialize_constant k) load_constant k.
Proof.
  unfold wf_constant. codec_entry k. simpl in *. unfold serialize_constant, load_constant.
  codec_step. eapply codec_bind; [apply (codec_weaken 1); by apply codec_len|].
  eapply codec_last; [apply codec_read_bytes|]. simpl Constant.data.
  rewrite Z.eqb_refl. apply reads_ret.
Qed.

Lemma codec_field_definition f :
  wf_field_definition f = true -> codec 1 (serialize_field_definition f) load_field_def f.
Proof.
  unfold wf_field_definition. codec_entry f. simpl in *.
  unfold serialize_field_definition, load_field_def. codec_auto.
Qed.
#[export] Hint Resolve codec_field_definition : codec.

Lemma codec_field_definitions fs :
  forallb wf_field_definition fs = true ->
  codec 1 (serialize_field_definitions fs) load_field_defs fs.
Proof. intros H. unfold serialize_field_definitions, load_field_defs. codec_solve. Qed.
#[export] Hint Resolve codec_field_definitions : codec.

Lemma codec_struct_definition d :
  wf_struct_definition d = true -> codec 1 (serialize_struct_definition d) load_struct_def d.
Proof.
  unfold wf_struct_definition. codec_entry d. simpl in *.
  unfold serialize_struct_definition, load_struct_def. codec_step. simpl.
  destruct field_information as [|fields].
  - eapply codec_last; [apply (codec_weaken 1), codec_push|].
    intros pos rest. simpl. by rewrite Z.add_0_r.
  - eapply codec_bind; [apply (codec_weaken 1), codec_push|].
    eapply codec_lift; [reflexivity|]. cbv iota.
    eapply codec_last; [|apply reads_ret]. codec_auto.
Qed.

(** * Code *)

Lemma Opcodes_round_trip op : Opcodes_from_u8 (Opcodes.as_u8 op) = Ok op.
Proof. by destruct op. Qed.

(** An opcode byte followed by the operands the opcode calls for. *)
Lemma codec_opcode op w b :
  codec 0 w (load_operands op) b -> codec 1 (push (Opcodes.as_u8 op);; w) load_bytecode b.
Proof.
  intros H. eapply codec_bind; [apply codec_push|]. eapply codec_lift; [apply Opcodes_round_trip|].
  apply codec_version. change (VERSION_MAX <? VERSION_4) with false. by rewrite andb_false_r.
Qed.

Lemma codec_opcode_only op b :
  reads (load_operands op) [] b -> codec 1 (push (Opcodes.as_u8 op)) load_bytecode b.
Proof.
  intros H. eapply codec_last; [apply codec_push|].
  rewrite Opcodes_round_trip. intros pos rest. unfold mbind, Reader_bind, ST_bind, st_lift.
  cbn [cursor_version at_ VersionedCursor.version].
  change (VERSION_MAX <? VERSION_4) with false. rewrite andb_false_r. apply H.
Qed.

Lemma codec_instruction b :
  wf_bytecode b = true -> codec 1 (serialize_instruction_inner b) load_bytecode b.
Proof.
  intros Hwf. destruct b; cbn [wf_bytecode serialize_instruction_inner] in *;
    repeat match type of Hwf with (_ && _) = true => apply andb_true_iff in Hwf as [? Hwf] end;
    first [ apply codec_opcode_only; apply reads_ret
          | apply codec_opcode; cbn [load_operands]; codec_auto ].
Qed.
#[export] Hint Resolve codec_instruction : codec.

Lemma codec_code_unit c : wf_code_unit c = true -> codec 1 (serialize_code_unit c) load_code_unit c.
Proof.
  unfold wf_code_unit. codec_entry c. simpl in *.
  unfold serialize_code_unit, load_code_unit. codec_step.
  eapply codec_last; [|apply reads_ret]. unfold serialize_code, load_code. codec_solve.
Qed.

Lemma Visibility_round_trip v : Visibility.try_from (Visibility.as_u8 v) = Some v.
Proof. by destruct v. Qed.

Lemma codec_acquires l :
  forallb is_u16 l = true -> codec 1 (serialize_acquires l) load_struct_definition_indices l.
Proof.
  intros H. unfold serialize_acquires, load_struct_definition_indices.
  apply codec_vec; [by apply codec_len|]. eapply codec_Forall; [|exact H].
  intros x Hx. codec_solve.
Qed.

Lemma codec_assoc {A B C} n w (r : Reader A) (k : A -> Reader B) (j : B -> Reader C) c :
  codec n w (r ≫= fun a => k a ≫= j) c -> codec n w ((r ≫= k) ≫= j) c.
Proof.
  intros H. eapply writes_impl; [exact H|]. intros bs [L R]. split; [done|].
  intros pos rest. rewrite <- R. unfold mbind, Reader_bind, ST_bind.
  by destruct (r _) as [[]| | |].
Qed.

Lemma codec_function_definition d :
  wf_function_definition d = true ->
  codec 1 (serialize_function_definition d) load_function_def d.
Proof.
  unfold wf_function_definition. codec_entry d. simpl in *.
  unfold serialize_function_definition, load_function_def. codec_step. codec_step.
  apply codec_version. change (VERSION_MAX =? VERSION_1) with false. cbv iota. simpl.
  apply codec_assoc. eapply codec_lift; [by rewrite Visibility_round_trip|].
  apply codec_assoc. eapply codec_bind; [apply (codec_weaken 1), codec_push|].
  eapply codec_pre; [apply reads_ret|]. cbv beta iota.
  eapply codec_bind; [apply (codec_weaken 1); by apply codec_acquires|].
  destruct code as [code|]; simpl.
  - apply codec_assoc. eapply codec_last; [apply (codec_weaken 1); by apply codec_code_unit|].
    intros pos rest. simpl. by rewrite Z.add_0_r.
  - eapply codec_pre; [apply reads_ret|]. cbv beta iota. simpl. apply codec_ret.
Qed.

(** * The bytes of one table *)

(** [blob r items bs]: [bs] is one chunk per item, each read back by [r]. *)
Definition blob {A} (r : Reader A) (items : list A) (bs : list Z) : Prop :=
  exists chunks, bs = concat chunks /\
    Forall2 (fun x ch => (1 <= length ch)%nat /\ reads r ch x) items chunks.

Lemma blob_nil {A} (r : Reader A) items bs : blob r items bs -> bs = [] -> items = [].
Proof.
  intros (chunks & -> & H) E. destruct H as [|x ch items chunks [L _] H]; [done|].
  destruct ch; simpl in *; [lia|done].
Qed.

Lemma writes_blob {A} (w : A -> Writer ()) (r : Reader A) items :
  Forall (fun x => codec 1 (w x) r x) items -> writes (st_for items w) (blob r items).
Proof.
  induction 1 as [|x items Hx Hxs IH]; simpl.
  - intros b b' [= <-]. exists []. rewrite app_nil_r. split; [done|]. exists []. by split.
  - eapply writes_impl; [by apply writes_bind|].
    intros ? (bs1 & bs2 & -> & Hbs1 & (chunks & -> & Hc)).
    exists (bs1 :: chunks). split; [done|]. by constructor.
Qed.

Lemma load_while_blob {A} (r : Reader A) items bs fuel count acc pos :
  blob r items bs -> pos + zlen bs = count -> (length bs < fuel)%nat ->
  load_while fuel count r acc (at_ pos bs) = Ok (acc ++ items, at_ count []).
Proof.
  intros (chunks & -> & H). revert fuel acc pos.
  induction H as [|x ch items chunks [L R] H IH]; intros fuel acc pos Hc Hf;
    (destruct fuel as [|fuel]; [lia|]); cbn [load_while concat] in *;
    unfold mbind, Reader_bind, ST_bind, cursor_position;
    cbn [at_ VersionedCursor.cursor Cursor.position].
  - simpl in Hc. destruct (Z.ltb_spec pos count); [lia|]. rewrite app_nil_r.
    by replace count with pos by lia.
  - rewrite length_app in *. destruct (Z.ltb_spec pos count); [|lia].
    fold (at_ pos (ch ++ concat chunks)). rewrite R, IH by lia.
    by rewrite <- app_assoc.
Qed.

Lemma load_until_blob {A} (r : Reader A) items bs fuel count acc pos :
  blob r items bs -> pos + zlen bs = count -> (length bs < fuel)%nat ->
  load_until fuel count r acc (at_ pos bs) = Ok (acc ++ items, at_ count []).
Proof.
  intros (chunks & -> & H). revert fuel acc pos.
  induction H as [|x ch items chunks [L R] H IH]; intros fuel acc pos Hc Hf;
    (destruct fuel as [|fuel]; [lia|]); cbn [load_until concat] in *;
    unfold mbind, Reader_bind, ST_bind, cursor_position;
    cbn [at_ VersionedCursor.cursor Cursor.position].
  - simpl in Hc. destruct (Z.eqb_spec pos count); [|lia]. rewrite app_nil_r.
    by replace count with pos by lia.
  - rewrite length_app in *. destruct (Z.eqb_spec pos count); [lia|].
    fold (at_ pos (ch ++ concat chunks)). rewrite R, IH by lia.
    by rewrite <- app_assoc.
Qed.

(** * A table inside the contents *)

(** The contents, split around a table. *)
Definition contents (pre bs post : list Z) : VersionedBinary :=
  VersionedBinary.mk VERSION_MAX (pre ++ bs ++ post).

Lemma new_cursor_contents pre bs post :
  new_cursor (contents pre bs post) (zlen pre) (zlen pre + zlen bs) = Ok (at_ 0 bs).
Proof.
  unfold new_cursor, contents. cbn [VersionedBinary.binary].
  rewrite slice_ok by (rewrite ?length_app; lia). simpl.
  replace (Z.to_nat (zlen pre + zlen bs - zlen pre)) with (length bs) by lia.
  by rewrite Nat2Z.id, drop_app_length, take_app_length.
Qed.

Lemma with_table_while {A} kind pre bs post (r : Reader A) items acc :
  blob r items bs ->
  with_table (contents pre bs post) (Table.mk kind (zlen pre) (zlen bs))
    (load_while (table_fuel (Table.mk kind (zlen pre) (zlen bs))) (zlen bs) r acc)
  = Ok (acc ++ items).
Proof.
  intros Hb. unfold with_table. cbn [Table.offset Table.count]. rewrite new_cursor_contents.
  unfold mbind, result_bind.
  by rewrite (load_while_blob r items) by (done || unfold table_fuel; simpl; lia).
Qed.

Lemma with_table_until {A} kind pre bs post (r : Reader A) items acc :
  blob r items bs ->
  with_table (contents pre bs post) (Table.mk kind (zlen pre) (zlen bs))
    (load_until (table_fuel (Table.mk kind (zlen pre) (zlen bs))) (zlen bs) r acc)
  = Ok (acc ++ items).
Proof.
  intros Hb. unfold with_table. cbn [Table.offset Table.count]. rewrite new_cursor_contents.
  unfold mbind, result_bind.
  by rewrite (load_until_blob r items) by (done || unfold table_fuel; simpl; lia).
Qed.

(** Addresses are raw bytes of a fixed size. *)
Lemma load_address_loop_concat addrs binary pre post start acc :
  Forall (fun a => length a = AccountAddress_LENGTH) addrs ->
  binary.(VersionedBinary.binary) = pre ++ concat addrs ++ post -> start = zlen pre ->
  load_address_loop (length addrs) binary start acc = Ok (acc ++ addrs).
Proof.
  intros Ha. revert pre start acc. induction Ha as [|a addrs Ha Has IH];
    intros pre start acc Hb ->; [by rewrite app_nil_r|].
  cbn [length load_address_loop concat] in *. rewrite Hb, <- app_assoc.
  rewrite slice_ok by (rewrite ?length_app, ?Ha; lia). simpl mbind.
  replace (Z.to_nat (_ - _)) with AccountAddress_LENGTH by lia.
  rewrite Nat2Z.id, drop_app_length, take_app_length' by done.
  unfold address_try_from. rewrite Ha. simpl Nat.eqb. cbv iota.
  rewrite (IH (pre ++ a)); [by rewrite <- app_assoc| |rewrite length_app, Ha; lia].
  by rewrite Hb, <- !app_assoc.
Qed.

Lemma load_address_identifiers_contents kind pre post addrs acc :
  forallb wf_address addrs = true ->
  load_address_identifiers (contents pre (concat addrs) post)
    (Table.mk kind (zlen pre) (zlen (concat addrs))) acc = Ok (acc ++ addrs).
Proof.
  intros Hwf%forallb_Forall.
  assert (Forall (fun a => length a = AccountAddress_LENGTH) addrs) as Ha.
  { eapply Forall_impl; [|exact Hwf]. intros a [H _]%andb_true_iff. by apply Nat.eqb_eq in H. }
  assert (zlen (concat addrs) = zlen addrs * Z.of_nat AccountAddress_LENGTH) as Hl.
  { clear Hwf. induction Ha as [|a l Ha Hl IH]; [done|]. cbn [concat length].
    rewrite length_app, Ha. lia. }
  unfold load_address_identifiers. cbn [Table.offset Table.count].
  rewrite Hl, Z.mod_mul, Z.div_mul, Nat2Z.id by done. simpl.
  by apply (load_address_loop_concat addrs _ pre post).
Qed.

(** * Layouts *)

(** The header entry of a table at [off]: none when it is empty. *)
Definition header_entry (kind : TableType) (off : Z) (bs : list Z) : list Table :=
  match bs with [] => [] | _ => [Table.mk kind off (zlen bs)] end.

Fixpoint tables_of (off : Z) (layout : list (TableType * list Z)) : list Table :=
  match layout with
  | [] => []
  | (kind, bs) :: layout => header_entry kind off bs ++ tables_of (off + zlen bs) layout
  end.

Abbreviation layout_bytes layout := (concat (map snd layout)).

Lemma header_entry_cons kind off bs :
  bs <> [] -> header_entry kind off bs = [Table.mk kind off (zlen bs)].
Proof. by destruct bs. Qed.

Lemma tables_of_above off layout :
  Forall (fun t => off <= t.(Table.offset)) (tables_of off layout).
Proof.
  revert off. induction layout as [|[kind bs] layout IH]; intros off; [constructor|].
  cbn [tables_of]. apply Forall_app. split.
  - destruct bs; repeat constructor. simpl. lia.
  - eapply Forall_impl; [|apply IH]. intros t Ht. simpl in Ht. lia.
Qed.

(** The tables are written in the order of their offsets: sorting keeps them. *)
Lemma sort_tables_of off layout : sort_tables (tables_of off layout) = tables_of off layout.
Proof.
  unfold sort_tables. revert off. induction layout as [|[kind bs] layout IH]; intros off; [done|].
  cbn [tables_of]. rewrite foldr_app, IH. destruct bs as [|b bs]; [done|]. simpl.
  pose proof (tables_of_above (off + zlen (b :: bs)) layout) as Ha. simpl in Ha.
  destruct Ha as [|t ts Ht Hts]; simpl; [done|].
  destruct (Z.leb_spec off t.(Table.offset)); [done|lia].
Qed.

Lemma check_tables_loop_of layout len off kinds :
  0 <= off -> NoDup (map fst layout) -> (forall k, k ∈ map fst layout -> k ∉ kinds) ->
  off + zlen (layout_bytes layout) <= u32_max ->
  off + zlen (layout_bytes layout) <= len ->
  check_tables_loop (tables_of off layout) len off kinds
  = Ok (off + zlen (layout_bytes layout)).
Proof.
  revert off kinds. induction layout as [|[kind bs] layout IH];
    intros off kinds Hoff Hnd Hk Hu Hl; [simpl; f_equal; lia|].
  cbn [map snd fst concat tables_of] in *. rewrite length_app in *.
  inversion_clear Hnd as [|? ? Hnin Hnd'].
  destruct bs as [|b bs].
  - cbn [header_entry app length Nat.add] in *. change (Z.of_nat 0) with 0. rewrite Z.add_0_r.
    apply IH; try done. intros k Hin. apply Hk. by right.
  - rewrite header_entry_cons by done. cbn [app check_tables_loop].
    cbn [Table.offset Table.count Table.kind]. rewrite Z.eqb_refl. cbn [negb].
    destruct (Z.eqb_spec (zlen (b :: bs)) 0) as [E|_]; [simpl in E; lia|].
    destruct (Z.ltb_spec u32_max (off + zlen (b :: bs))); [lia|].
    rewrite bool_decide_false by (apply Hk; by left).
    destruct (Z.ltb_spec len (off + zlen (b :: bs))); [lia|].
    rewrite IH; [f_equal; lia|lia|done| |lia|lia].
    intros k Hin [-> |Hin']%elem_of_cons; [done|]. apply (Hk k); [by right|done].
Qed.

Lemma check_tables_of layout len :
  NoDup (map fst layout) -> zlen (layout_bytes layout) <= u32_max ->
  zlen (layout_bytes layout) <= len ->
  check_tables (tables_of 0 layout) len
  = Ok (zlen (layout_bytes layout), tables_of 0 layout).
Proof.
  intros Hnd Hu Hl. unfold check_tables. rewrite sort_tables_of.
  rewrite check_tables_loop_of; [done|lia|done| |lia|lia].
  intros k _ H. by apply elem_of_nil in H.
Qed.

(** * What the serializer records of a table *)

(** The (offset, size) pair of a table in the serializer, and its share of the
    table count. *)
Definition location (off : Z) (bs : list Z) : Z * Z :=
  match bs with [] => (0, 0) | _ => (off, zlen bs) end.
Definition counted (bs : list Z) : Z := match bs with [] => 0 | _ => 1 end.

Lemma location_cons off bs : bs <> [] -> location off bs = (off, zlen bs).
Proof. by destruct bs. Qed.

Lemma counted_entry kind off bs : counted bs = zlen (header_entry kind off bs).
Proof. by destruct bs. Qed.

Lemma check_index_ok i j : check_index_in_binary i = Ok j -> j = i.
Proof. unfold check_index_in_binary. case_match; [done|]. by intros [= ->]. Qed.

(** [serialize_table] appends the bytes of the entries, records their location
    and counts the table, unless there is nothing to write. *)
Lemma serialize_table_ok {S A} (count : S -> result SerError S) (set : Z * Z -> S -> S)
    (ser : A -> Writer ()) (P : list Z -> Prop) items self b self' b' (bump : Z -> S -> S) :
  serialize_table count set ser items (self, b) = Ok ((), (self', b')) ->
  writes (st_for items ser) P -> (P [] -> items = []) ->
  set (0, 0) (bump 0 self) = self ->
  (forall self1, count self = Ok self1 -> self1 = bump 1 self) ->
  exists bs, b' = b ++ bs /\ P bs /\
    self' = set (location (zlen b) bs) (bump (counted bs) self).
Proof.
  intros H Hw Hnil Hset Hcount. unfold serialize_table in H. destruct items as [|x items].
  - injection H as <- <-. destruct (Hw b b eq_refl) as (bs & E & HP).
    assert (bs = []) as -> by (apply (app_inv_head b); by rewrite app_nil_r).
    exists []. by rewrite app_nil_r.
  - set (xs := x :: items) in *. apply res_bind_ok in H as (self1 & Hc & H).
    apply res_bind_ok in H as (start & Hi & H). apply check_index_ok in Hi as ->.
    apply res_bind_ok in H as ([[] b1] & Hf & H). apply Hw in Hf as (bs & -> & HP).
    apply res_bind_ok in H as (size & Hs & H). injection H as <- <-.
    unfold checked_calculate_table_size in Hs. apply res_bind_ok in Hs as (o & Ho & Hs).
    apply check_index_ok in Ho as ->. destruct (_ <=? _); [|done]. injection Hs as <-.
    exists bs. split; [done|]. split; [done|].
    assert (bs <> []) as Hne by (intros ->; by apply Hnil in HP).
    rewrite location_cons, (Hcount _ Hc) by done. rewrite length_app.
    destruct bs; [done|]. simpl counted. f_equal. f_equal. lia.
Qed.

(** * Header entries *)

(** A writer of header entries and the entries read back. *)
Definition codec_entries (w : Writer ()) (ts : list Table) : Prop :=
  codec 0 w (st_repeat (length ts) read_table) ts.

Lemma st_repeat_app {A} n m (r : Reader A) bs1 bs2 l1 l2 :
  reads (st_repeat n r) bs1 l1 -> reads (st_repeat m r) bs2 l2 ->
  reads (st_repeat (n + m) r) (bs1 ++ bs2) (l1 ++ l2).
Proof.
  intros H1 H2 pos rest.
  assert (forall c, st_repeat (n + m) r c
    = (st_repeat n r ≫= fun l1 => st_repeat m r ≫= fun l2 => mret (l1 ++ l2)) c) as ->.
  { clear. induction n as [|n IH]; intros c; cbn [Nat.add st_repeat];
      unfold mbind, Reader_bind, ST_bind in *; simpl.
    - by destruct (st_repeat m r c) as [[]| | |].
    - destruct (r c) as [[x c1]| | |]; [|done..]. rewrite IH.
      destruct (st_repeat n r c1) as [[l c2]| | |]; [|done..]. 
      unfold mret, Reader_ret, ST_ret. by destruct (st_repeat m r c2) as [[]| | |]. }
  unfold mbind, Reader_bind, ST_bind. 
  by rewrite <- app_assoc, H1, H2, length_app, Nat2Z.inj_add, Z.add_assoc.
Qed.

Lemma codec_entries_bind w1 w2 l1 l2 :
  codec_entries w1 l1 -> codec_entries w2 l2 -> codec_entries (w1;; w2) (l1 ++ l2).
Proof.
  intros H1 H2. eapply writes_impl; [by apply writes_bind|].
  intros ? (bs1 & bs2 & -> & [_ R1] & [_ R2]). split; [lia|].
  rewrite length_app. by apply st_repeat_app.
Qed.

Lemma codec_wassoc {A} n (w1 w2 w3 : Writer ()) (r : Reader A) a :
  codec n (w1;; (w2;; w3)) r a -> codec n ((w1;; w2);; w3) r a.
Proof.
  intros H b b' Hw. apply H. unfold mbind, Writer_bind, ST_bind in *.
  by destruct (w1 b) as [[]| | |].
Qed.

Lemma TableType_round_trip k : TableType_from_u8 (TableType.as_u8 k) = Ok k.
Proof. by destruct k. Qed.

Lemma codec_table_index kind off bs :
  0 <= off <= u32_max -> zlen bs <= u32_max ->
  codec_entries (serialize_table_index kind (location off bs).1 (location off bs).2)
    (header_entry kind off bs).
Proof.
  intros Ho Hl. unfold codec_entries, serialize_table_index. destruct bs as [|b bs].
  { simpl. apply codec_ret. }
  rewrite location_cons, header_entry_cons by done. cbn [fst snd length st_repeat].
  destruct (Z.eqb_spec (zlen (b :: bs)) 0) as [E|_]; [simpl in E; lia|]. cbn [negb].
  unfold read_table. apply codec_assoc.
  eapply codec_bind; [apply (codec_weaken 1), codec_push|].
  apply codec_assoc. eapply codec_bind; [apply (codec_weaken 1), codec_uleb; done|].
  apply codec_assoc. eapply codec_last; [apply (codec_weaken 1), codec_uleb; [split; [lia|done]|done]|].
  rewrite TableType_round_trip. intros pos rest. simpl. by rewrite Z.add_0_r.
Qed.
