(* ===== verification/RoundTrip.v ===== *)
(** The round trip of whole binaries: what [CompiledModule::serialize] and
    [CompiledScript::serialize] write is what [CompiledModule::deserialize] and
    [CompiledScript::deserialize] read back. *)
From S2P Require Import Prelude StatusCode Abilities Identifier FileFormat BinaryCommon Uleb Serializer.
From S2P Require Import Deserializer WellFormed DeserializerSafety Codec TokenCodec Tables.
(** * The common tables *)

Module CommonBlobs.
Record CommonBlobs : Set := mk {
  module_handles : list Z; struct_handles : list Z; function_handles : list Z;
  function_instantiations : list Z; signatures : list Z; identifiers : list Z;
  address_identifiers : list Z; constant_pool : list Z }.

Definition layout (B : CommonBlobs) : list (TableType * list Z) :=
  [(TableType.MODULE_HANDLES, B.(module_handles));
   (TableType.STRUCT_HANDLES, B.(struct_handles));
   (TableType.FUNCTION_HANDLES, B.(function_handles));
   (TableType.FUNCTION_INST, B.(function_instantiations));
   (TableType.SIGNATURES, B.(signatures));
   (TableType.IDENTIFIERS, B.(identifiers));
   (TableType.ADDRESS_IDENTIFIERS, B.(address_identifiers));
   (TableType.CONSTANT_POOL, B.(constant_pool))].
End CommonBlobs.
Abbreviation CommonBlobs := CommonBlobs.CommonBlobs.

Definition wf_common {T} `{CommonTables T} (t : T) : bool :=
  forallb wf_module_handle (get_module_handles t) &&
  forallb wf_struct_handle (get_struct_handles t) &&
  forallb wf_function_handle (get_function_handles t) &&
  forallb wf_function_instantiation (get_function_instantiations t) &&
  forallb wf_signature (get_signatures t) &&
  forallb Identifier.is_valid (get_identifiers t) &&
  forallb wf_address (get_address_identifiers t) &&
  forallb wf_constant (get_constant_pool t).

(** The blobs hold the tables of [t]. *)
Record blobs_of {T} `{CommonTables T} (t : T) (B : CommonBlobs) : Prop := {
  of_module_handles : blob load_module_handle (get_module_handles t) B.(CommonBlobs.module_handles);
  of_struct_handles : blob load_struct_handle (get_struct_handles t) B.(CommonBlobs.struct_handles);
  of_function_handles : blob load_function_handle (get_function_handles t) B.(CommonBlobs.function_handles);
  of_function_instantiations :
    blob load_function_instantiation (get_function_instantiations t) B.(CommonBlobs.function_instantiations);
  of_signatures : blob load_signature_tokens (get_signatures t) B.(CommonBlobs.signatures);
  of_identifiers : blob load_identifier (get_identifiers t) B.(CommonBlobs.identifiers);
  of_address_identifiers :
    B.(CommonBlobs.address_identifiers) = concat (get_address_identifiers t) /\
    forallb wf_address (get_address_identifiers t) = true;
  of_constant_pool : blob load_constant (get_constant_pool t) B.(CommonBlobs.constant_pool) }.

(** The serializer after its tables were written at offset 0. *)
Definition common_serializer (v : Z) (B : CommonBlobs) : CommonSerializer :=
  let '(CommonBlobs.mk b1 b2 b3 b4 b5 b6 b7 b8) := B in
  CommonSerializer.mk v
    (0 + counted b1 + counted b2 + counted b3 + counted b4 + counted b5 + counted b6
       + counted b7 + counted b8)
    (location 0 b1) (location (0 + zlen b1) b2) (location (0 + zlen b1 + zlen b2) b3)
    (location (0 + zlen b1 + zlen b2 + zlen b3) b4)
    (location (0 + zlen b1 + zlen b2 + zlen b3 + zlen b4) b5)
    (location (0 + zlen b1 + zlen b2 + zlen b3 + zlen b4 + zlen b5) b6)
    (location (0 + zlen b1 + zlen b2 + zlen b3 + zlen b4 + zlen b5 + zlen b6) b7)
    (location (0 + zlen b1 + zlen b2 + zlen b3 + zlen b4 + zlen b5 + zlen b6 + zlen b7) b8).

Definition bump (k : Z) (s : CommonSerializer) : CommonSerializer :=
  CommonSerializer.set_table_count (s.(CommonSerializer.table_count) + k) s.

Lemma incr_bump s s' : CommonSerializer.incr_table_count s = Ok s' -> s' = bump 1 s.
Proof. unfold CommonSerializer.incr_table_count. case_match; [done|]. by intros [= <-]. Qed.

Lemma wf_blob {A} (f : A -> bool) (w : A -> Writer ()) (r : Reader A) l :
  forallb f l = true -> (forall x, f x = true -> codec 1 (w x) r x) ->
  writes (st_for l w) (blob r l).
Proof.
  intros Hl Hc. apply writes_blob. apply forallb_Forall in Hl.
  eapply Forall_impl; [|exact Hl]. exact Hc.
Qed.

Lemma writes_addresses addrs :
  forallb wf_address addrs = true ->
  writes (st_for addrs serialize_address)
    (fun bs => bs = concat addrs /\ forallb wf_address addrs = true).
Proof.
  intros Hwf. cut (writes (st_for addrs serialize_address) (fun bs => bs = concat addrs)).
  { intros H. eapply writes_impl; [exact H|done]. }
  clear Hwf. induction addrs as [|a addrs IH]; simpl.
  - intros b b' [= <-]. exists []. by rewrite app_nil_r.
  - eapply writes_impl; [apply writes_bind; [apply writes_push_all|exact IH]|].
    by intros ? (? & ? & -> & <- & ->).
Qed.

Lemma addresses_nil addrs : [] = concat addrs /\ forallb wf_address addrs = true -> addrs = [].
Proof.
  intros [E Hwf]. destruct addrs as [|a addrs]; [done|]. exfalso.
  simpl in *. wf_split. destruct a; [done|]. simpl in E. discriminate E.
Qed.

(** Compute the fields of a serializer after a few updates. *)
Ltac common_norm :=
  cbv beta iota delta [bump CommonSerializer.new CommonSerializer.set_table_count
       CommonSerializer.set_module_handles CommonSerializer.set_struct_handles
       CommonSerializer.set_function_handles CommonSerializer.set_function_instantiations
       CommonSerializer.set_signatures CommonSerializer.set_identifiers
       CommonSerializer.set_address_identifiers CommonSerializer.set_constant_pool
       CommonSerializer.major_version CommonSerializer.table_count
       CommonSerializer.module_handles CommonSerializer.struct_handles
       CommonSerializer.function_handles CommonSerializer.function_instantiations
       CommonSerializer.signatures CommonSerializer.identifiers
       CommonSerializer.address_identifiers CommonSerializer.constant_pool] in *.

(** One table of the common serializer. *)
Ltac common_table H :=
  eapply (serialize_table_ok _ _ _ _ _ _ _ _ _ bump) in H as (? & -> & ? & ->);
  [ | eauto using wf_blob, codec_module_handle, codec_struct_handle, codec_function_handle,
        codec_function_instantiation, codec_signature, codec_identifier, codec_constant,
        writes_addresses
    | eauto using blob_nil, addresses_nil
    | common_norm; by rewrite ?Z.add_0_r
    | apply incr_bump ];
  common_norm.

Lemma serialize_common_tables_ok {T} `{CommonTables T} (t : T) v self temp :
  wf_common t = true ->
  serialize_common_tables t (CommonSerializer.new v, []) = Ok ((), (self, temp)) ->
  exists B, blobs_of t B /\ temp = layout_bytes (CommonBlobs.layout B) /\
    self = common_serializer v B.
Proof.
  intros Hwf Hs. unfold wf_common in Hwf.
  repeat match goal with H : (_ && _) = true |- _ => apply andb_true_iff in H as [? ?] end.
  unfold serialize_common_tables in Hs.
  do 7 (apply st_bind_ok in Hs as ([] & [] & Hk & Hs); common_table Hk).
  common_table Hs.
  eexists (CommonBlobs.mk _ _ _ _ _ _ _ _). split; [constructor; cbn; eassumption|]. split.
  - cbn. by rewrite app_nil_r, <- !app_assoc.
  - unfold common_serializer, bump. rewrite !length_app, !Nat2Z.inj_add. reflexivity.
Qed.

(** * Header entries *)

(** [serialize_common_table_indices] after the table count. *)
Definition common_entries (self : CommonSerializer) : Writer () :=
  serialize_table_index TableType.MODULE_HANDLES self.(CommonSerializer.module_handles).1 self.(CommonSerializer.module_handles).2;;
  serialize_table_index TableType.STRUCT_HANDLES self.(CommonSerializer.struct_handles).1 self.(CommonSerializer.struct_handles).2;;
  serialize_table_index TableType.FUNCTION_HANDLES self.(CommonSerializer.function_handles).1 self.(CommonSerializer.function_handles).2;;
  serialize_table_index TableType.FUNCTION_INST self.(CommonSerializer.function_instantiations).1 self.(CommonSerializer.function_instantiations).2;;
  serialize_table_index TableType.SIGNATURES self.(CommonSerializer.signatures).1 self.(CommonSerializer.signatures).2;;
  serialize_table_index TableType.IDENTIFIERS self.(CommonSerializer.identifiers).1 self.(CommonSerializer.identifiers).2;;
  serialize_table_index TableType.ADDRESS_IDENTIFIERS self.(CommonSerializer.address_identifiers).1 self.(CommonSerializer.address_identifiers).2;;
  serialize_table_index TableType.CONSTANT_POOL self.(CommonSerializer.constant_pool).1 self.(CommonSerializer.constant_pool).2.

Lemma tables_of_app off l1 l2 :
  tables_of off (l1 ++ l2) = tables_of off l1 ++ tables_of (off + zlen (layout_bytes l1)) l2.
Proof.
  revert off. induction l1 as [|[k bs] l1 IH]; intros off; simpl; [by rewrite Z.add_0_r|].
  rewrite IH, length_app, <- app_assoc. do 3 f_equal. lia.
Qed.

Ltac layout_lia := simpl in *; rewrite ?length_app in *; simpl in *; lia.

Lemma codec_common_entries v B :
  zlen (layout_bytes (CommonBlobs.layout B)) <= u32_max ->
  codec_entries (common_entries (common_serializer v B)) (tables_of 0 (CommonBlobs.layout B)).
Proof.
  destruct B as [b1 b2 b3 b4 b5 b6 b7 b8]. intros Hl.
  unfold common_entries, CommonBlobs.layout. cbn [common_serializer].
  common_norm. cbn [tables_of]. rewrite app_nil_r.
  do 7 (apply codec_entries_bind; [apply codec_table_index; layout_lia|]).
  apply codec_table_index; layout_lia.
Qed.

Lemma common_count v B :
  (common_serializer v B).(CommonSerializer.table_count)
  = zlen (tables_of 0 (CommonBlobs.layout B)).
Proof.
  destruct B as [b1 b2 b3 b4 b5 b6 b7 b8]. unfold CommonBlobs.layout.
  cbn [common_serializer CommonSerializer.table_count tables_of].
  rewrite !length_app, !Nat2Z.inj_add, <- !counted_entry. simpl. lia.
Qed.

(** The table count and the entries, read by the first two steps of the loader. *)
Lemma codec_headers (w : Writer ()) n ts :
  n = zlen ts -> codec_entries w ts ->
  codec 1 (serialize_table_count n;; w) (load_table_count ≫= read_tables) ts.
Proof.
  intros -> Hw. eapply codec_bind; [by apply codec_len|]. unfold read_tables.
  rewrite Nat2Z.id. exact Hw.
Qed.

(** * Building from a layout *)

(** What a unit of type [T] promises the loader of its common tables: putting
    back what is there changes nothing. *)
Class CommonTablesLaws (T : Type) `{CommonTablesMut T} : Prop := {
  put_mut_module_handles (t : T) : put_module_handles (mut_module_handles t) t = t;
  put_mut_struct_handles (t : T) : put_struct_handles (mut_struct_handles t) t = t;
  put_mut_function_handles (t : T) : put_function_handles (mut_function_handles t) t = t;
  put_mut_function_instantiations (t : T) :
    put_function_instantiations (mut_function_instantiations t) t = t;
  put_mut_signatures (t : T) : put_signatures (mut_signatures t) t = t;
  put_mut_identifiers (t : T) : put_identifiers (mut_identifiers t) t = t;
  put_mut_address_identifiers (t : T) :
    put_address_identifiers (mut_address_identifiers t) t = t;
  put_mut_constant_pool (t : T) : put_constant_pool (mut_constant_pool t) t = t }.

#[export] Instance CompiledScript_CommonTablesLaws : CommonTablesLaws CompiledScript.
Proof. constructor; by intros []. Qed.
#[export] Instance CompiledModule_CommonTablesLaws : CommonTablesLaws CompiledModule.
Proof. constructor; by intros []. Qed.

Section build.
Context {M : Type}.
Variable step : VersionedBinary -> Table -> M -> result StatusCode M.

(** The loop of [build_common_tables] and of [build_module_tables]. *)
Fixpoint build_all (binary : VersionedBinary) (tables : list Table) (m : M) :
    result StatusCode M :=
  match tables with
  | [] => Ok m
  | table :: tables => m ← step binary table m; build_all binary tables m
  end.

(** [eff] is what loading a table of the layout does, wherever it is. *)
Definition loads (eff : TableType -> M -> M) (entry : TableType * list Z) : Prop :=
  forall pre post m,
    if bool_decide (entry.2 = []) then eff entry.1 m = m
    else step (contents pre entry.2 post)
           (Table.mk entry.1 (zlen pre) (zlen entry.2)) m = Ok (eff entry.1 m).

Lemma build_all_layout eff layout pre m :
  Forall (loads eff) layout ->
  build_all (VersionedBinary.mk VERSION_MAX (pre ++ layout_bytes layout))
    (tables_of (zlen pre) layout) m
  = Ok (foldl (fun m entry => eff entry.1 m) m layout).
Proof.
  intros Hl. revert pre m. induction Hl as [|[kind bs] layout He Hl IH]; intros pre m; [done|].
  cbn [tables_of map concat snd foldl fst]. specialize (He pre (layout_bytes layout) m).
  cbn [fst snd] in He. specialize (IH (pre ++ bs)).
  rewrite length_app, Nat2Z.inj_add, <- app_assoc in IH. unfold contents in He.
  destruct bs as [|b bs].
  - rewrite bool_decide_true in He by done. rewrite He. apply IH.
  - rewrite bool_decide_false in He by done. rewrite header_entry_cons by done.
    cbn [app build_all]. cbn [app] in He. rewrite He. apply IH.
Qed.

Lemma build_all_contents eff layout m :
  Forall (loads eff) layout ->
  build_all (VersionedBinary.mk VERSION_MAX (layout_bytes layout)) (tables_of 0 layout) m
  = Ok (foldl (fun m entry => eff entry.1 m) m layout).
Proof. apply (build_all_layout eff layout []). Qed.
End build.

Lemma build_common_tables_all {T} `{CommonTablesMut T} binary tables (t : T) :
  build_common_tables binary tables t = build_all build_common_table binary tables t.
Proof.
  revert t. induction tables as [|x xs IH]; intros t; [done|]. simpl.
  destruct (build_common_table binary x t); simpl; auto.
Qed.

Lemma build_module_tables_all binary tables m :
  build_module_tables binary tables m = build_all build_module_table binary tables m.
Proof.
  revert m. induction tables as [|x xs IH]; intros m; [done|]. simpl.
  destruct (build_module_table binary x m); simpl; auto.
Qed.

(** The effect of loading the common tables of [t]. *)
Definition common_effect {S T} `{CommonTables S} `{CommonTablesMut T} (s : S)
    (kind : TableType) (t : T) : T :=
  match kind with
  | TableType.MODULE_HANDLES =>
    put_module_handles (mut_module_handles t ++ get_module_handles s) t
  | TableType.STRUCT_HANDLES =>
    put_struct_handles (mut_struct_handles t ++ get_struct_handles s) t
  | TableType.FUNCTION_HANDLES =>
    put_function_handles (mut_function_handles t ++ get_function_handles s) t
  | TableType.FUNCTION_INST =>
    put_function_instantiations (mut_function_instantiations t ++ get_function_instantiations s) t
  | TableType.SIGNATURES => put_signatures (mut_signatures t ++ get_signatures s) t
  | TableType.IDENTIFIERS => put_identifiers (mut_identifiers t ++ get_identifiers s) t
  | TableType.ADDRESS_IDENTIFIERS =>
    put_address_identifiers (mut_address_identifiers t ++ get_address_identifiers s) t
  | TableType.CONSTANT_POOL => put_constant_pool (mut_constant_pool t ++ get_constant_pool s) t
  | _ => t
  end.

(** A table loaded by a loop: [Hb] says what its bytes hold, [law] that putting
    back what is there changes nothing. *)
Ltac loads_blob Hb law :=
  intros ? ? ?; cbn [fst snd];
  let E := fresh "E" in
  case_bool_decide as E;
  [ cbn [common_effect]; rewrite (blob_nil _ _ _ Hb E), app_nil_r; apply law
  | unfold build_common_table; cbn [Table.kind]; autounfold with total;
    cbn [Table.offset Table.count]; by rewrite (with_table_while _ _ _ _ _ _ _ Hb) ].

Lemma loads_common {S T} `{CommonTables S} `{CommonTablesLaws T} (s : S) B :
  blobs_of s B ->
  Forall (loads (build_common_table (T:=T)) (common_effect s)) (CommonBlobs.layout B).
Proof.
  intros [M1 M2 M3 M4 M5 M6 [M7 W7] M8]. unfold CommonBlobs.layout.
  repeat apply List.Forall_cons; try apply List.Forall_nil.
  - loads_blob M1 put_mut_module_handles.
  - loads_blob M2 put_mut_struct_handles.
  - loads_blob M3 put_mut_function_handles.
  - loads_blob M4 put_mut_function_instantiations.
  - loads_blob M5 put_mut_signatures.
  - loads_blob M6 put_mut_identifiers.
  - intros pre post t. cbn [fst snd]. rewrite M7. case_bool_decide as E.
    + cbn [common_effect]. rewrite (addresses_nil (get_address_identifiers s)) by done.
      rewrite app_nil_r. apply put_mut_address_identifiers.
    + unfold build_common_table. cbn [Table.kind].
      by rewrite load_address_identifiers_contents.
  - loads_blob M8 put_mut_constant_pool.
Qed.

(** * Whole binaries *)

Lemma writes_extend_len bs : writes (extend bs) (fun bs' => bs' = bs).
Proof. eapply writes_impl; [apply writes_extend|]. by intros ? <-. Qed.

(** The headers, the contents and what follows, against [load_header] and a
    continuation. *)
Lemma writes_unit {A} (whdr wtail : Writer ()) ts temp (k : list Table * VersionedBinary -> Reader A) a :
  codec 1 whdr (load_table_count ≫= read_tables) ts ->
  (forall len, zlen temp <= len -> check_tables ts len = Ok (zlen temp, ts)) ->
  codec 0 wtail (k (ts, VersionedBinary.mk VERSION_MAX temp)) a ->
  writes (whdr;; extend temp;; wtail)
    (fun bs => zlen temp <= zlen bs /\
       forall binary, zlen temp <= zlen binary -> reads (load_header binary ≫= k) bs a).
Proof.
  intros Hh Hc Ht. eapply writes_impl;
    [apply writes_bind; [exact Hh|apply writes_bind; [apply writes_extend_len|exact Ht]]|].
  intros ? (bh & ? & -> & [_ Rh] & bt & btl & -> & -> & [_ Rt]).
  rewrite !length_app. split; [lia|]. intros binary Hb pos rest.
  unfold load_header. specialize (Rh pos ((temp ++ btl) ++ rest)).
  rewrite app_assoc in Rh. unfold mbind, Reader_bind, ST_bind in *.
  destruct (load_table_count _) as [[n c]| | |]; [|done..]. rewrite Rh.
  unfold st_lift. rewrite Hc by done. unfold read_table_contents, read_new_binary.
  unfold mbind, Reader_bind, ST_bind. rewrite Nat2Z.id, <- app_assoc.
  rewrite reads_read_exact by done. cbn [cursor_version at_ VersionedCursor.version].
  unfold mret, Reader_ret, ST_ret. fold (at_ (pos + zlen bh + zlen temp) (btl ++ rest)).
  rewrite Rt, !length_app. do 3 f_equal. lia.
Qed.

(** The magic number and the version. *)
Definition preamble : list Z := DIEM_MAGIC ++ to_le_bytes 4 VERSION_MAX.

Lemma VersionedCursor_new_preamble bs :
  VersionedCursor_new (preamble ++ bs) = Ok (at_ 8 bs).
Proof. by destruct bs. Qed.

Lemma writes_header self :
  self.(CommonSerializer.major_version) = VERSION_MAX ->
  writes (serialize_header self) (fun bs => bs = preamble).
Proof.
  intros Hv. unfold serialize_header, serialize_magic, write_u32. rewrite Hv.
  eapply writes_impl; [apply writes_bind; [apply writes_push_all|apply writes_extend]|].
  by intros ? (? & ? & -> & <- & <-).
Qed.

(** The module with the version the serializer writes. *)
Definition latest_module (m : CompiledModule) : CompiledModule :=
  CompiledModule.mk VERSION_MAX m.(CompiledModule.self_module_handle_idx)
    m.(CompiledModule.module_handles) m.(CompiledModule.struct_handles)
    m.(CompiledModule.function_handles) m.(CompiledModule.field_handles)
    m.(CompiledModule.friend_decls) m.(CompiledModule.struct_def_instantiations)
    m.(CompiledModule.function_instantiations) m.(CompiledModule.field_instantiations)
    m.(CompiledModule.signatures) m.(CompiledModule.identifiers)
    m.(CompiledModule.address_identifiers) m.(CompiledModule.constant_pool)
    m.(CompiledModule.struct_defs) m.(CompiledModule.function_defs).

Definition latest_script (s : CompiledScript) : CompiledScript :=
  CompiledScript.mk VERSION_MAX s.(CompiledScript.module_handles)
    s.(CompiledScript.struct_handles) s.(CompiledScript.function_handles)
    s.(CompiledScript.function_instantiations) s.(CompiledScript.signatures)
    s.(CompiledScript.identifiers) s.(CompiledScript.address_identifiers)
    s.(CompiledScript.constant_pool) s.(CompiledScript.type_parameters)
    s.(CompiledScript.parameters) s.(CompiledScript.code).

(** ** Scripts *)

Lemma wf_script_common s : wf_script s = true -> wf_common s = true.
Proof.
  unfold wf_script, wf_common. intros H.
  repeat match goal with H : (_ && _) = true |- _ => apply andb_true_iff in H as [H ?] end.
  repeat (apply andb_true_iff; split); done.
Qed.

Lemma common_kinds_NoDup B : NoDup (map fst (CommonBlobs.layout B)).
Proof. apply (bool_decide_unpack _). vm_compute. exact I. Qed.

(** The loader after the headers. *)
Definition script_body (h : list Table * VersionedBinary) :
    Reader (CompiledScript * list Table * VersionedBinary) :=
  let '(tables, table_contents) := h in
  version ← cursor_version;
  type_parameters ← load_ability_sets FunctionTypeParameters;
  parameters ← load_signature_index;
  code ← load_code_unit;
  mret (default_script version type_parameters parameters code, tables, table_contents).

Lemma codec_main s ts b :
  wf_script s = true ->
  codec 0 (serialize_main s) (script_body (ts, b))
    (default_script VERSION_MAX s.(CompiledScript.type_parameters)
       s.(CompiledScript.parameters) s.(CompiledScript.code), ts, b).
Proof.
  unfold wf_script. intros H.
  apply andb_true_iff in H as [[[_ H1]%andb_true_iff H2]%andb_true_iff H3].
  unfold serialize_main. apply codec_version.
  eapply codec_bind; [apply (codec_weaken 1); by apply codec_ability_sets|].
  codec_step. eapply codec_last; [apply (codec_weaken 1); by apply codec_code_unit|].
  apply reads_ret.
Qed.

Lemma build_script_tables_common B off :
  build_script_tables (tables_of off (CommonBlobs.layout B)) = Ok ().
Proof.
  destruct B as [b1 b2 b3 b4 b5 b6 b7 b8]. unfold CommonBlobs.layout. cbn [tables_of].
  destruct b1, b2, b3, b4, b5, b6, b7, b8; reflexivity.
Qed.

Lemma script_codec (s : CompiledScript) (bin extra : list Z) :
  wf_script s = true -> serialize_script s [] = Ok bin ->
  deserialize_compiled_script (bin ++ extra) = Ok (latest_script s).
Proof.
  intros Hwf Hs. unfold serialize_script in Hs.
  apply res_bind_ok in Hs as ([[] [ser temp]] & Ht & Hs).
  apply serialize_common_tables_ok in Ht as (B & HB & Etemp & ->); [|by apply wf_script_common].
  destruct (Z.ltb_spec TABLE_CONTENT_SIZE_MAX (zlen temp)) as [|Hle]; [done|].
  apply res_bind_ok in Hs as ([[] bin'] & Hw & [= ->]).
  assert (zlen (layout_bytes (CommonBlobs.layout B)) <= u32_max) as Hlen by (by rewrite <- Etemp).
  assert (codec 1 (serialize_common_table_indices (common_serializer VERSION_MAX B))
            (load_table_count ≫= read_tables) (tables_of 0 (CommonBlobs.layout B))) as Hh.
  { apply codec_headers; [apply common_count|by apply codec_common_entries]. }
  assert (forall len, zlen temp <= len -> check_tables (tables_of 0 (CommonBlobs.layout B)) len
            = Ok (zlen temp, tables_of 0 (CommonBlobs.layout B))) as Hc.
  { intros len Hl. rewrite Etemp in *. apply check_tables_of; [apply common_kinds_NoDup|done..]. }
  destruct (writes_bind _ _ _ _
    (writes_header (common_serializer VERSION_MAX B) ltac:(by destruct B))
    (writes_unit _ _ _ _ script_body _ Hh Hc (codec_main s _ _ Hwf)) _ _ Hw)
    as (bs & -> & b1 & b2 & -> & -> & Hlb & Hr).
  unfold deserialize_compiled_script. cbn [app]. rewrite <- app_assoc, VersionedCursor_new_preamble.
  cbn [mbind result_bind]. fold script_body. rewrite Hr by (rewrite !length_app; lia). cbn [mbind result_bind].
  unfold build_compiled_script. rewrite build_common_tables_all, Etemp.
  rewrite (build_all_contents _ (common_effect s)) by (by apply loads_common).
  cbn [mbind result_bind]. rewrite build_script_tables_common. by destruct s.
Qed.

(** ** Modules *)

Module ModuleBlobs.
Record ModuleBlobs : Set := mk {
  common : CommonBlobs; struct_defs : list Z; struct_def_instantiations : list Z;
  function_defs : list Z; field_handles : list Z; field_instantiations : list Z;
  friend_decls : list Z }.

(** The tables of a module only. *)
Definition own_layout (B : ModuleBlobs) : list (TableType * list Z) :=
  [(TableType.STRUCT_DEFS, B.(struct_defs));
   (TableType.STRUCT_DEF_INST, B.(struct_def_instantiations));
   (TableType.FUNCTION_DEFS, B.(function_defs));
   (TableType.FIELD_HANDLE, B.(field_handles));
   (TableType.FIELD_INST, B.(field_instantiations));
   (TableType.FRIEND_DECLS, B.(friend_decls))].

Definition layout (B : ModuleBlobs) : list (TableType * list Z) :=
  CommonBlobs.layout B.(common) ++ own_layout B.
End ModuleBlobs.
Abbreviation ModuleBlobs := ModuleBlobs.ModuleBlobs.

Record module_blobs_of (m : CompiledModule) (B : ModuleBlobs) : Prop := {
  of_common : blobs_of m B.(ModuleBlobs.common);
  of_struct_defs : blob load_struct_def m.(CompiledModule.struct_defs) B.(ModuleBlobs.struct_defs);
  of_struct_def_instantiations :
    blob load_struct_instantiation m.(CompiledModule.struct_def_instantiations)
      B.(ModuleBlobs.struct_def_instantiations);
  of_function_defs :
    blob load_function_def m.(CompiledModule.function_defs) B.(ModuleBlobs.function_defs);
  of_field_handles :
    blob load_field_handle m.(CompiledModule.field_handles) B.(ModuleBlobs.field_handles);
  of_field_instantiations :
    blob load_field_instantiation m.(CompiledModule.field_instantiations)
      B.(ModuleBlobs.field_instantiations);
  of_friend_decls :
    blob load_module_handle m.(CompiledModule.friend_decls) B.(ModuleBlobs.friend_decls) }.

(** The offset of the first table of a module only. *)
Definition own_offset (B : ModuleBlobs) : Z :=
  zlen (layout_bytes (CommonBlobs.layout B.(ModuleBlobs.common))).

Definition module_serializer (v : Z) (B : ModuleBlobs) : ModuleSerializer :=
  let o := own_offset B in
  let '(ModuleBlobs.mk bc b1 b2 b3 b4 b5 b6) := B in
  ModuleSerializer.mk
    (bump (counted b1 + counted b2 + counted b3 + counted b4 + counted b5 + counted b6)
       (common_serializer v bc))
    (location o b1) (location (o + zlen b1) b2) (location (o + zlen b1 + zlen b2) b3)
    (location (o + zlen b1 + zlen b2 + zlen b3) b4)
    (location (o + zlen b1 + zlen b2 + zlen b3 + zlen b4) b5)
    (location (o + zlen b1 + zlen b2 + zlen b3 + zlen b4 + zlen b5) b6).

Definition module_bump (k : Z) (s : ModuleSerializer) : ModuleSerializer :=
  ModuleSerializer.set_common (bump k s.(ModuleSerializer.common)) s.

(** The count of tables is far from wrapping. *)
Lemma counted_range bs : 0 <= counted bs <= 1.
Proof. destruct bs; simpl; lia. Qed.

Lemma common_count_range v B : 0 <= (common_serializer v B).(CommonSerializer.table_count) <= 8.
Proof.
  destruct B as [b1 b2 b3 b4 b5 b6 b7 b8]. cbn [common_serializer CommonSerializer.table_count].
  pose proof (counted_range b1). pose proof (counted_range b2). pose proof (counted_range b3).
  pose proof (counted_range b4). pose proof (counted_range b5). pose proof (counted_range b6).
  pose proof (counted_range b7). pose proof (counted_range b8). lia.
Qed.

Lemma count_common_incr s s' :
  count_common CommonSerializer.incr_table_count s = Ok s' -> s' = module_bump 1 s.
Proof.
  unfold count_common. intros (c & Hc & [= <-])%res_bind_ok. by rewrite (incr_bump _ _ Hc).
Qed.

Lemma count_common_wrapping s s' :
  0 <= s.(ModuleSerializer.common).(CommonSerializer.table_count) < 255 ->
  count_common CommonSerializer.wrapping_incr_table_count s = Ok s' -> s' = module_bump 1 s.
Proof.
  intros Hr. unfold count_common, CommonSerializer.wrapping_incr_table_count. intros [= <-].
  unfold module_bump, bump. by rewrite Z.mod_small by lia.
Qed.

Ltac module_norm :=
  cbv beta iota delta [module_bump ModuleSerializer.new ModuleSerializer.set_common
    ModuleSerializer.set_struct_defs ModuleSerializer.set_struct_def_instantiations
    ModuleSerializer.set_function_defs ModuleSerializer.set_field_handles
    ModuleSerializer.set_field_instantiations ModuleSerializer.set_friend_decls
    ModuleSerializer.common ModuleSerializer.struct_defs
    ModuleSerializer.struct_def_instantiations ModuleSerializer.function_defs
    ModuleSerializer.field_handles ModuleSerializer.field_instantiations
    ModuleSerializer.friend_decls] in *.

Lemma bump_0 s : bump 0 s = s.
Proof. destruct s. unfold bump. common_norm. by rewrite Z.add_0_r. Qed.

Lemma bump_bump k l s : bump k (bump l s) = bump (l + k) s.
Proof. destruct s. unfold bump. common_norm. f_equal. lia. Qed.

Lemma bump_count k s :
  (bump k s).(CommonSerializer.table_count) = s.(CommonSerializer.table_count) + k.
Proof. done. Qed.

(** The bound on the count of tables is in the context. *)
Ltac count_bound :=
  module_norm; rewrite ?bump_count;
  repeat match goal with
  | |- context [counted ?b] =>
    lazymatch goal with
    | H : 0 <= counted b <= 1 |- _ => fail
    | _ => pose proof (counted_range b)
    end
  end; lia.

(** One table of the module serializer. *)
Ltac module_table H :=
  eapply (serialize_table_ok _ _ _ _ _ _ _ _ _ module_bump) in H as (? & -> & ? & ->);
  [ | eauto using wf_blob, codec_struct_definition, codec_struct_def_instantiation,
        codec_function_definition, codec_field_handle, codec_field_instantiation,
        codec_module_handle
    | eauto using blob_nil
    | module_norm; by rewrite bump_0
    | first [ apply count_common_incr | intros ?; apply count_common_wrapping; count_bound ] ];
  module_norm.

Lemma wf_module_common m : wf_module m = true -> wf_common m = true.
Proof.
  unfold wf_module, wf_common. intros H.
  repeat match goal with H : (_ && _) = true |- _ => apply andb_true_iff in H as [H ?] end.
  repeat (apply andb_true_iff; split); done.
Qed.

Lemma serialize_tables_ok m v self temp :
  wf_module m = true ->
  serialize_tables m (ModuleSerializer.new v, []) = Ok ((), (self, temp)) ->
  exists B, module_blobs_of m B /\ temp = layout_bytes (ModuleBlobs.layout B) /\
    self = module_serializer v B.
Proof.
  intros Hwf Hs. pose proof (wf_module_common m Hwf) as Hwc. unfold wf_module in Hwf.
  repeat match goal with H : (_ && _) = true |- _ => apply andb_true_iff in H as [H ?] end.
  unfold serialize_tables in Hs. apply st_bind_ok in Hs as ([] & [self1 b1] & Hc & Hs).
  unfold on_common in Hc. apply res_bind_ok in Hc as ([[] [c b]] & Hc & [= <- <-]).
  apply serialize_common_tables_ok in Hc as (Bc & HBc & -> & ->); [|done].
  pose proof (common_count_range v Bc) as Hcount. module_norm.
  do 5 (apply st_bind_ok in Hs as ([] & [] & Hk & Hs); module_table Hk).
  module_table Hs.
  eexists (ModuleBlobs.mk Bc _ _ _ _ _ _). split; [constructor; cbn; eassumption|]. split.
  - unfold ModuleBlobs.layout. rewrite map_app, concat_app. cbn [ModuleBlobs.common].
    rewrite <- !app_assoc. cbn. by rewrite !app_nil_r.
  - unfold module_serializer, own_offset. cbn [ModuleBlobs.common].
    rewrite !length_app, !Nat2Z.inj_add, !bump_bump, !Z.add_assoc. reflexivity.
Qed.

(** [serialize_module_table_indices] after the common part. *)
Definition own_entries (self : ModuleSerializer) : Writer () :=
  serialize_table_index TableType.STRUCT_DEFS self.(ModuleSerializer.struct_defs).1 self.(ModuleSerializer.struct_defs).2;;
  serialize_table_index TableType.STRUCT_DEF_INST self.(ModuleSerializer.struct_def_instantiations).1 self.(ModuleSerializer.struct_def_instantiations).2;;
  serialize_table_index TableType.FUNCTION_DEFS self.(ModuleSerializer.function_defs).1 self.(ModuleSerializer.function_defs).2;;
  serialize_table_index TableType.FIELD_HANDLE self.(ModuleSerializer.field_handles).1 self.(ModuleSerializer.field_handles).2;;
  serialize_table_index TableType.FIELD_INST self.(ModuleSerializer.field_instantiations).1 self.(ModuleSerializer.field_instantiations).2;;
  serialize_table_index TableType.FRIEND_DECLS self.(ModuleSerializer.friend_decls).1 self.(ModuleSerializer.friend_decls).2.

Lemma layout_bytes_app (l1 l2 : list (TableType * list Z)) :
  layout_bytes (l1 ++ l2) = layout_bytes l1 ++ layout_bytes l2.
Proof. by rewrite map_app, concat_app. Qed.

Lemma codec_own_entries v B :
  zlen (layout_bytes (ModuleBlobs.layout B)) <= u32_max ->
  codec_entries (own_entries (module_serializer v B))
    (tables_of (own_offset B) (ModuleBlobs.own_layout B)).
Proof.
  intros Hl. unfold ModuleBlobs.layout in Hl. rewrite layout_bytes_app, length_app in Hl.
  assert (0 <= own_offset B /\
    own_offset B + zlen (layout_bytes (ModuleBlobs.own_layout B)) <= u32_max) as [H0 Hu]
    by (unfold own_offset; lia).
  clear Hl. revert H0 Hu. unfold own_entries, module_serializer. generalize (own_offset B) as o.
  destruct B as [bc b1 b2 b3 b4 b5 b6]. intros o H0 Hu. module_norm.
  unfold ModuleBlobs.own_layout in *. cbn [tables_of].
  rewrite app_nil_r. do 5 (apply codec_entries_bind; [apply codec_table_index; layout_lia|]).
  apply codec_table_index; layout_lia.
Qed.

Lemma module_count v B :
  (module_serializer v B).(ModuleSerializer.common).(CommonSerializer.table_count)
  = zlen (tables_of 0 (ModuleBlobs.layout B)).
Proof.
  unfold ModuleBlobs.layout. rewrite tables_of_app, length_app, Nat2Z.inj_add.
  rewrite <- (common_count v). unfold module_serializer.
  generalize (0 + zlen (layout_bytes (CommonBlobs.layout B.(ModuleBlobs.common)))) as o.
  intros o. generalize (own_offset B) as o'. intros o'.
  destruct B as [bc b1 b2 b3 b4 b5 b6]. unfold ModuleBlobs.own_layout.
  cbn [ModuleSerializer.common tables_of ModuleBlobs.common]. rewrite bump_count.
  rewrite !length_app, !Nat2Z.inj_add, <- !counted_entry. simpl. lia.
Qed.

Lemma codec_module_headers v B :
  zlen (layout_bytes (ModuleBlobs.layout B)) <= u32_max ->
  codec 1 (serialize_module_table_indices (module_serializer v B))
    (load_table_count ≫= read_tables) (tables_of 0 (ModuleBlobs.layout B)).
Proof.
  intros Hl. unfold serialize_module_table_indices, serialize_common_table_indices.
  apply codec_wassoc, codec_headers; [apply module_count|].
  unfold ModuleBlobs.layout at 1. rewrite tables_of_app. apply codec_entries_bind.
  - assert (common_entries (module_serializer v B).(ModuleSerializer.common)
      = common_entries (common_serializer v B.(ModuleBlobs.common))) as E.
    { by destruct B as [[]]. }
    change (codec_entries (common_entries (module_serializer v B).(ModuleSerializer.common))
      (tables_of 0 (CommonBlobs.layout B.(ModuleBlobs.common)))).
    rewrite E. apply codec_common_entries.
    unfold ModuleBlobs.layout in Hl. rewrite layout_bytes_app, length_app in Hl. lia.
  - by apply codec_own_entries.
Qed.

Lemma module_kinds_NoDup B : NoDup (map fst (ModuleBlobs.layout B)).
Proof. apply (bool_decide_unpack _). vm_compute. exact I. Qed.

(** The effect of loading the tables of a module only. *)
Definition own_effect (s : CompiledModule) (kind : TableType) (m : CompiledModule) : CompiledModule :=
  match kind with
  | TableType.STRUCT_DEFS =>
    put_struct_defs (m.(CompiledModule.struct_defs) ++ s.(CompiledModule.struct_defs)) m
  | TableType.STRUCT_DEF_INST =>
    put_struct_def_instantiations
      (m.(CompiledModule.struct_def_instantiations) ++ s.(CompiledModule.struct_def_instantiations)) m
  | TableType.FUNCTION_DEFS =>
    put_function_defs (m.(CompiledModule.function_defs) ++ s.(CompiledModule.function_defs)) m
  | TableType.FIELD_HANDLE =>
    put_field_handles (m.(CompiledModule.field_handles) ++ s.(CompiledModule.field_handles)) m
  | TableType.FIELD_INST =>
    put_field_instantiations
      (m.(CompiledModule.field_instantiations) ++ s.(CompiledModule.field_instantiations)) m
  | TableType.FRIEND_DECLS =>
    put_friend_decls (m.(CompiledModule.friend_decls) ++ s.(CompiledModule.friend_decls)) m
  | _ => m
  end.

Ltac loads_own Hb :=
  intros ? ? mm; cbn [fst snd];
  let E := fresh "E" in
  case_bool_decide as E;
  [ cbn [own_effect]; rewrite (blob_nil _ _ _ Hb E), app_nil_r; by destruct mm
  | unfold build_module_table; cbn [Table.kind]; autounfold with total;
    cbn [Table.offset Table.count];
    first [ by rewrite (with_table_while _ _ _ _ _ _ _ Hb)
          | by rewrite (with_table_until _ _ _ _ _ _ _ Hb) ] ].

(** A table the pass ignores. *)
Ltac loads_nothing := intros ? ? mm; cbn [fst snd]; by case_bool_decide.

Lemma loads_own_tables m B :
  module_blobs_of m B ->
  Forall (loads build_module_table (own_effect m)) (ModuleBlobs.layout B).
Proof.
  intros [_ M1 M2 M3 M4 M5 M6]. apply Forall_app. split.
  { unfold CommonBlobs.layout. repeat apply List.Forall_cons; try apply List.Forall_nil;
      loads_nothing. }
  unfold ModuleBlobs.own_layout. repeat apply List.Forall_cons; try apply List.Forall_nil.
  - loads_own M1.
  - loads_own M2.
  - loads_own M3.
  - loads_own M4.
  - loads_own M5.
  - loads_own M6.
Qed.

Lemma loads_common_of_module m B :
  module_blobs_of m B ->
  Forall (loads (build_common_table (T:=CompiledModule)) (common_effect m)) (ModuleBlobs.layout B).
Proof.
  intros HB. apply Forall_app. split; [by apply loads_common, HB|].
  unfold ModuleBlobs.own_layout. repeat apply List.Forall_cons; try apply List.Forall_nil;
    loads_nothing.
Qed.

(** The loader after the headers. *)
Definition module_body (h : list Table * VersionedBinary) :
    Reader (CompiledModule * list Table * VersionedBinary) :=
  let '(tables, table_contents) := h in
  version ← cursor_version;
  self_module_handle_idx ← load_module_handle_index;
  mret (default_module version self_module_handle_idx, tables, table_contents).

Lemma codec_module_body m ts b :
  wf_module m = true ->
  codec 0 (serialize_module_handle_index m.(CompiledModule.self_module_handle_idx))
    (module_body (ts, b))
    (default_module VERSION_MAX m.(CompiledModule.self_module_handle_idx), ts, b).
Proof.
  unfold wf_module. intros H.
  repeat match goal with H : (_ && _) = true |- _ => apply andb_true_iff in H as [H _] end.
  apply codec_version. codec_auto.
Qed.

Lemma module_codec (m : CompiledModule) (bin extra : list Z) :
  wf_module m = true -> serialize_module m [] = Ok bin ->
  deserialize_compiled_module (bin ++ extra) = Ok (latest_module m).
Proof.
  intros Hwf Hs. unfold serialize_module in Hs.
  apply res_bind_ok in Hs as ([[] [ser temp]] & Ht & Hs).
  apply serialize_tables_ok in Ht as (B & HB & Etemp & ->); [|done].
  destruct (Z.ltb_spec u32_max (zlen temp)) as [|Hle]; [done|].
  apply res_bind_ok in Hs as ([[] bin'] & Hw & [= ->]).
  assert (zlen (layout_bytes (ModuleBlobs.layout B)) <= u32_max) as Hlen by (by rewrite <- Etemp).
  assert (forall len, zlen temp <= len -> check_tables (tables_of 0 (ModuleBlobs.layout B)) len
            = Ok (zlen temp, tables_of 0 (ModuleBlobs.layout B))) as Hc.
  { intros len Hl. rewrite Etemp in *. apply check_tables_of; [apply module_kinds_NoDup|done..]. }
  destruct (writes_bind _ _ _ _
    (writes_header (module_serializer VERSION_MAX B).(ModuleSerializer.common)
       ltac:(by destruct B as [[]]))
    (writes_unit _ _ _ _ module_body _ (codec_module_headers VERSION_MAX B Hlen) Hc
       (codec_module_body m _ _ Hwf)) _ _ Hw)
    as (bs & -> & b1 & b2 & -> & -> & Hlb & Hr).
  unfold deserialize_compiled_module. cbn [app]. rewrite <- app_assoc, VersionedCursor_new_preamble.
  cbn [mbind result_bind]. fold module_body. rewrite Hr by (rewrite !length_app; lia).
  cbn [mbind result_bind]. unfold build_compiled_module.
  rewrite build_common_tables_all, Etemp.
  rewrite (build_all_contents _ (common_effect m)) by (by apply loads_common_of_module).
  cbn [mbind result_bind]. rewrite build_module_tables_all.
  rewrite (build_all_contents _ (own_effect m)) by (by apply loads_own_tables).
  by destruct m.
Qed.
