(* ===== verification/BinaryTheorems.v ===== *)
(** The properties of the binary format: the serializer and the deserializer of
    move-binary-format against each other, and the layers below the whole round trip: the
    totality of the serializer, the table of contents, the instruction keys, and the corners
    of the format where two encodings or two error codes meet. *)
From Stdlib Require Import Sorting.Sorted Sorting.Permutation.
From S2P Require Import Prelude StatusCode Abilities Identifier FileFormat BinaryCommon Uleb Serializer.
From S2P Require Import Deserializer WellFormed DeserializerSafety Codec TokenCodec Tables RoundTrip.
(** * Round trips *)

(** C1: the round trip of modules.  Whatever [CompiledModule::serialize] writes for a
    well-formed module, [CompiledModule::deserialize] reads back as that module (at
    the version the serializer writes), also when other bytes follow. *)
Theorem module_round_trip (m : CompiledModule) (bin extra : list Z) :
  wf_module m = true -> serialize_module m [] = Ok bin ->
  deserialize_compiled_module (bin ++ extra) = Ok (latest_module m).
Proof. apply module_codec. Qed.

(** A module with a generic struct, a friend and most kinds of tables. *)
Definition sample_module : CompiledModule :=
  CompiledModule.mk VERSION_MAX 0
    [ModuleHandle.mk 0 0]
    [StructHandle.mk 0 1 AbilitySet.PRIMITIVES [StructTypeParameter.mk AbilitySet.EMPTY true];
     StructHandle.mk 0 2 AbilitySet.EMPTY []]
    [FunctionHandle.mk 0 1 0 1 [AbilitySet.ALL]]
    [FieldHandle.mk 0 0] [ModuleHandle.mk 0 2] [StructDefInstantiation.mk 0 1]
    [FunctionInstantiation.mk 0 1] [FieldInstantiation.mk 0 1]
    [[]; [SignatureToken.Vector (SignatureToken.StructInstantiation 0
            [SignatureToken.Struct 1; SignatureToken.Vector SignatureToken.Bool]);
          SignatureToken.Reference (SignatureToken.TypeParameter 0)]]
    [Identifier.self_bytes; [102; 111; 111]; [66; 97; 114]] [AccountAddress_ZERO]
    [Constant.mk SignatureToken.U64 [1; 0; 0; 0; 0; 0; 0; 255]]
    [StructDefinition.mk 0 (Declared [FieldDefinition.mk 1 SignatureToken.U64]);
     StructDefinition.mk 1 Native]
    [FunctionDefinition.mk 0 Visibility.Friend [0]
       (Some (CodeUnit.mk 1 [Bytecode.LdU64 300; Bytecode.VecPack 1 70000; Bytecode.BrTrue 200;
                             Bytecode.CopyLoc 3; Bytecode.LdU128 (2 ^ 127); Bytecode.Ret]));
     FunctionDefinition.mk 0 Visibility.Public [] None].

Lemma module_round_trip_witness :
  exists bin, wf_module sample_module = true /\ serialize_module sample_module [] = Ok bin /\
    deserialize_compiled_module (bin ++ [1; 2; 3]) = Ok (latest_module sample_module).
Proof.
  eexists. split; [reflexivity|]. split; [vm_compute; reflexivity|].
  apply module_round_trip; vm_compute; reflexivity.
Defined.

(** The round trip of scripts, in the same sense. *)
Theorem script_round_trip (s : CompiledScript) (bin extra : list Z) :
  wf_script s = true -> serialize_script s [] = Ok bin ->
  deserialize_compiled_script (bin ++ extra) = Ok (latest_script s).
Proof. apply script_codec. Qed.

Lemma script_round_trip_witness :
  exists bin, wf_script empty_script = true /\ serialize_script empty_script [] = Ok bin /\
    deserialize_compiled_script (bin ++ []) = Ok (latest_script empty_script).
Proof.
  eexists. split; [reflexivity|]. split; [vm_compute; reflexivity|].
  apply script_round_trip; vm_compute; reflexivity.
Defined.

(** * Totality *)

(** C3: [deserialize_compiled_module] is total.  On every byte string it returns a
    module or an error; no slice is out of range, no [unwrap], [assert!] or
    [unreachable!] is reached, and every loop terminates. *)
Theorem deserialize_module_total (binary : list Z) :
  safe (deserialize_compiled_module binary).
Proof. apply deserialize_compiled_module_safe. Qed.

(** * Types *)

(** Every module the deserializer accepts inhabits the Rust types: indices are in
    the range of their integer type, identifiers and addresses satisfy the invariant
    of their type, ability sets have only the defined bits, and no struct
    instantiation is without type arguments. *)
Theorem deserialize_module_well_formed (binary : list Z) (m : CompiledModule) :
  wf_bytes binary = true -> deserialize_compiled_module binary = Ok m -> wf_module m = true.
Proof. apply deserialize_module_wf. Qed.

(** The bytes of [basic_test_module]. *)
Definition basic_test_binary : list Z :=
  match serialize_module basic_test_module [] with Ok b => b | _ => [] end.

Lemma deserialize_module_well_formed_witness : wf_module basic_test_module = true.
Proof. apply (deserialize_module_well_formed basic_test_binary); vm_compute; reflexivity. Defined.

(** Every script the deserializer accepts inhabits the Rust types. *)
Theorem deserialize_script_well_formed (binary : list Z) (s : CompiledScript) :
  wf_bytes binary = true -> deserialize_compiled_script binary = Ok s -> wf_script s = true.
Proof. apply deserialize_script_wf. Qed.

Definition empty_script_binary : list Z :=
  match serialize_script empty_script [] with Ok b => b | _ => [] end.

Lemma deserialize_script_well_formed_witness : wf_script empty_script = true.
Proof. apply (deserialize_script_well_formed empty_script_binary); vm_compute; reflexivity. Defined.

(** Re-serializing is stable.  A module read from any binary, of any version, and
    written again is read back as the same module at the latest version: upgrading
    the version of a binary by a round trip through the library loses nothing. *)
Theorem reserialize_stable (binary bin extra : list Z) (m : CompiledModule) :
  wf_bytes binary = true -> deserialize_compiled_module binary = Ok m ->
  serialize_module m [] = Ok bin ->
  deserialize_compiled_module (bin ++ extra) = Ok (latest_module m).
Proof. intros Hb Hd. apply module_codec. by eapply deserialize_module_wf. Qed.

Lemma reserialize_stable_witness :
  deserialize_compiled_module (basic_test_binary ++ [0]) = Ok (latest_module basic_test_module).
Proof. apply (reserialize_stable basic_test_binary); vm_compute; reflexivity. Defined.

(** * Writers *)

(** A safe writer never shrinks the binary. *)
Definition wsafe (w : Writer ()) : Prop :=
  forall b, match w b with
            | Ok (_, b') => (length b <= length b')%nat
            | Err _ => True
            | Panic | OutOfFuel => False
            end.

Lemma wsafe_bind w1 w2 : wsafe w1 -> wsafe w2 -> wsafe (w1;; w2).
Proof.
  intros H1 H2 b. specialize (H1 b). unfold mbind, Writer_bind, ST_bind.
  destruct (w1 b) as [[[] b1]| | |]; try done. specialize (H2 b1).
  destruct (w2 b1) as [[[] b2]| | |]; try done. lia.
Qed.

Lemma wsafe_push x : wsafe (push x).
Proof. intros b. unfold push. destruct (_ <=? _); [|done]. rewrite length_app. lia. Qed.

Lemma wsafe_extend bs : wsafe (extend bs).
Proof. intros b. unfold extend. destruct (_ <=? _); [|done]. rewrite length_app. lia. Qed.

Lemma wsafe_ret : wsafe (mret ()).
Proof. intros b. simpl. lia. Qed.

Lemma wsafe_err e : wsafe (st_err e).
Proof. by intros b. Qed.

Lemma wsafe_safe w b : wsafe w -> safe (w b).
Proof. intros H. specialize (H b). by destruct (w b) as [[]| | |]. Qed.

Lemma wsafe_for {A} (f : A -> Writer ()) l : Forall (fun x => wsafe (f x)) l -> wsafe (st_for l f).
Proof. induction 1; simpl; [apply wsafe_ret|]. by apply wsafe_bind. Qed.

Lemma wsafe_for_wf {A} (p : A -> bool) (f : A -> Writer ()) l :
  (forall x, p x = true -> wsafe (f x)) -> forallb p l = true -> wsafe (st_for l f).
Proof.
  intros H Hl%forallb_Forall. apply wsafe_for. eapply Forall_impl; [|exact Hl]. exact H.
Qed.

Lemma wsafe_push_all bs : wsafe (st_for bs push).
Proof. apply wsafe_for. induction bs; constructor; auto using wsafe_push. Qed.

(** Ten rounds are enough for every [u64]. *)
Lemma wsafe_uleb x max : 0 <= x -> max <= u64_max -> wsafe (write_as_uleb128 x max).
Proof.
  intros Hx Hm b. unfold write_as_uleb128. destruct (Z.ltb_spec max x); [done|].
  unfold write_u64_as_uleb128. rewrite write_uleb_loop_spec by (zify_bounds; simpl; lia).
  apply wsafe_push_all.
Qed.

Create HintDb wsafe.
#[export] Hint Resolve wsafe_bind wsafe_push wsafe_extend wsafe_ret wsafe_err wsafe_push_all : wsafe.

Ltac wsafe_hyps :=
  repeat match goal with H : (_ && _) = true |- _ => apply andb_true_iff in H as [? ?] end.

Ltac wsafe_step :=
  match goal with
  | |- wsafe (_ ≫= _) => apply wsafe_bind
  | |- wsafe (if ?b then _ else _) => destruct b
  | |- wsafe (match ?x with _ => _ end) => destruct x
  | |- wsafe (st_for _ _) => solve [eauto using wsafe_for_wf with wsafe]
  | |- wsafe _ =>
    solve [ eauto with wsafe
          | apply wsafe_uleb;
            [repeat match goal with H : in_range _ _ = true |- _ => apply in_range_spec in H end; lia
            |done] ]
  end.
Ltac wsafe_auto := wsafe_hyps; repeat wsafe_step.

Lemma wsafe_module_handle h : wf_module_handle h = true -> wsafe (serialize_module_handle h).
Proof. unfold wf_module_handle, serialize_module_handle. intros. wsafe_auto. Qed.

Lemma wsafe_ability_set s : wf_ability_set s = true -> wsafe (serialize_ability_set s).
Proof.
  unfold wf_ability_set, serialize_ability_set, AbilitySet.into_u8.
  intros H%in_range_spec. apply wsafe_uleb; [lia|done].
Qed.
#[export] Hint Resolve wsafe_ability_set : wsafe.

Lemma wsafe_ability_sets ss :
  forallb wf_ability_set ss = true -> wsafe (serialize_ability_sets ss).
Proof. unfold serialize_ability_sets. intros. wsafe_auto. Qed.

Lemma wsafe_struct_type_parameter p :
  wf_struct_type_parameter p = true -> wsafe (serialize_type_parameter p).
Proof.
  unfold wf_struct_type_parameter, serialize_type_parameter. intros.
  apply wsafe_bind; [by apply wsafe_ability_set|].
  apply wsafe_uleb; [by destruct (StructTypeParameter.is_phantom p)|done].
Qed.
#[export] Hint Resolve wsafe_struct_type_parameter wsafe_ability_sets : wsafe.

Lemma wsafe_struct_handle h : wf_struct_handle h = true -> wsafe (serialize_struct_handle h).
Proof.
  unfold wf_struct_handle, serialize_struct_handle, serialize_type_parameters. intros. wsafe_auto.
Qed.

Lemma wsafe_function_handle h : wf_function_handle h = true -> wsafe (serialize_function_handle h).
Proof. unfold wf_function_handle, serialize_function_handle. intros. wsafe_auto. Qed.

Lemma wsafe_function_instantiation i :
  wf_function_instantiation i = true -> wsafe (serialize_function_instantiation i).
Proof. unfold wf_function_instantiation, serialize_function_instantiation. intros. wsafe_auto. Qed.

Lemma wsafe_struct_def_instantiation i :
  wf_struct_def_instantiation i = true -> wsafe (serialize_struct_def_instantiation i).
Proof.
  unfold wf_struct_def_instantiation, serialize_struct_def_instantiation. intros. wsafe_auto.
Qed.

Lemma wsafe_field_handle h : wf_field_handle h = true -> wsafe (serialize_field_handle h).
Proof. unfold wf_field_handle, serialize_field_handle. intros. wsafe_auto. Qed.

Lemma wsafe_field_instantiation i :
  wf_field_instantiation i = true -> wsafe (serialize_field_instantiation i).
Proof. unfold wf_field_instantiation, serialize_field_instantiation. intros. wsafe_auto. Qed.

Lemma wsafe_identifier i : wsafe (serialize_identifier i).
Proof. unfold serialize_identifier. wsafe_auto. Qed.

Lemma wsafe_address a : wsafe (serialize_address a).
Proof. apply wsafe_push_all. Qed.

(** Every node of a well-formed token is well formed. *)
Definition wf_root (t : SignatureToken) : bool :=
  match t with
  | SignatureToken.Struct idx | SignatureToken.StructInstantiation idx _
  | SignatureToken.TypeParameter idx => is_u16 idx
  | _ => true
  end.

Lemma wf_token_root t : wf_token t = true -> wf_root t = true.
Proof. destruct t; simpl; auto. intros H. wsafe_hyps. done. Qed.

Lemma wsafe_node t :
  wf_root t = true -> wsafe (serialize_signature_token_single_node_impl t).
Proof. destruct t; simpl; intros; wsafe_auto. Qed.

(** The traversal meets well-formed nodes only. *)
Lemma iterate_wf n stack :
  Forall (fun p : SignatureToken * Z => wf_token p.1 = true) stack ->
  Forall (fun p => wf_token p.1 = true)
    (SignatureToken.iterate n SignatureToken.next_with_depth stack).
Proof.
  revert stack. induction n as [|n IH]; intros stack Hs; [constructor|].
  cbn [SignatureToken.iterate]. destruct stack as [|[t d] stack]; [constructor|].
  apply Forall_cons_iff in Hs as [Ht Hs]. cbn [fst] in Ht.
  destruct t; cbn [SignatureToken.next_with_depth]; constructor; try done; apply IH; try done;
    try (by constructor).
  simpl in Ht. wsafe_hyps. apply Forall_app. split; [|done].
  apply Forall_map. by apply forallb_Forall.
Qed.

Lemma wsafe_signature_token t : wf_token t = true -> wsafe (serialize_signature_token t).
Proof.
  intros Ht. unfold serialize_signature_token, SignatureToken.preorder_traversal_with_depth.
  apply wsafe_for. eapply Forall_impl; [|apply iterate_wf; by constructor].
  intros [tok d] Hw. destruct (_ <? _); [apply wsafe_err|]. by apply wsafe_node, wf_token_root.
Qed.
#[export] Hint Resolve wsafe_signature_token : wsafe.

Lemma wsafe_signature s : wf_signature s = true -> wsafe (serialize_signature s).
Proof.
  unfold wf_signature, serialize_signature, serialize_signature_tokens. intros. wsafe_auto.
Qed.

Lemma wsafe_constant c : wf_constant c = true -> wsafe (serialize_constant c).
Proof. unfold wf_constant, serialize_constant. intros. wsafe_auto. Qed.

Lemma wsafe_field_definition f :
  wf_field_definition f = true -> wsafe (serialize_field_definition f).
Proof. unfold wf_field_definition, serialize_field_definition. intros. wsafe_auto. Qed.
#[export] Hint Resolve wsafe_field_definition : wsafe.

Lemma wsafe_struct_definition d :
  wf_struct_definition d = true -> wsafe (serialize_struct_definition d).
Proof.
  unfold wf_struct_definition, serialize_struct_definition, serialize_field_definitions.
  intros. wsafe_hyps. destruct (StructDefinition.field_information d); wsafe_auto.
Qed.

Lemma wsafe_instruction b : wf_bytecode b = true -> wsafe (serialize_instruction_inner b).
Proof.
  destruct b; cbn [wf_bytecode serialize_instruction_inner]; intros;
    unfold write_u64, write_u128; wsafe_auto.
Qed.
#[export] Hint Resolve wsafe_instruction : wsafe.

Lemma wsafe_code_unit c : wf_code_unit c = true -> wsafe (serialize_code_unit c).
Proof. unfold wf_code_unit, serialize_code_unit, serialize_code. intros. wsafe_auto. Qed.
#[export] Hint Resolve wsafe_code_unit : wsafe.

Lemma wsafe_struct_def_index i : is_u16 i = true -> wsafe (serialize_struct_def_index i).
Proof. intros. wsafe_auto. Qed.
#[export] Hint Resolve wsafe_struct_def_index : wsafe.

Lemma wsafe_function_definition d :
  wf_function_definition d = true -> wsafe (serialize_function_definition d).
Proof.
  unfold wf_function_definition, serialize_function_definition, serialize_acquires. intros.
  wsafe_hyps. destruct (FunctionDefinition.code d); wsafe_auto.
Qed.

(** * Tables *)

(** What holds of a serializer between two tables: at most [n] tables are counted
    and the recorded locations are unsigned. *)
Definition located (p : Z * Z) : Prop := 0 <= p.1 /\ 0 <= p.2.

Definition common_inv (n : Z) (s : CommonSerializer) : Prop :=
  0 <= s.(CommonSerializer.table_count) <= n /\
  located s.(CommonSerializer.module_handles) /\ located s.(CommonSerializer.struct_handles) /\
  located s.(CommonSerializer.function_handles) /\
  located s.(CommonSerializer.function_instantiations) /\
  located s.(CommonSerializer.signatures) /\ located s.(CommonSerializer.identifiers) /\
  located s.(CommonSerializer.address_identifiers) /\ located s.(CommonSerializer.constant_pool).

Definition module_inv (n : Z) (s : ModuleSerializer) : Prop :=
  common_inv n s.(ModuleSerializer.common) /\
  located s.(ModuleSerializer.struct_defs) /\
  located s.(ModuleSerializer.struct_def_instantiations) /\
  located s.(ModuleSerializer.function_defs) /\ located s.(ModuleSerializer.field_handles) /\
  located s.(ModuleSerializer.field_instantiations) /\ located s.(ModuleSerializer.friend_decls).

(** [msafe I n k m]: started with at most [n] tables counted, [m] is safe and
    counts at most [k] more. *)
Definition msafe {S} (I : Z -> S -> Prop) (n k : Z) (m : SerM S ()) : Prop :=
  forall self b, I n self ->
    match m (self, b) with
    | Ok (_, (self', _)) => I (n + k) self'
    | Err _ => True
    | Panic | OutOfFuel => False
    end.

Lemma msafe_bind {S} (I : Z -> S -> Prop) n k1 k2 m1 m2 :
  msafe I n k1 m1 -> msafe I (n + k1) k2 m2 -> msafe I n (k1 + k2) (m1;; m2).
Proof.
  intros H1 H2 self b H0. specialize (H1 self b H0).
  unfold mbind, SerM_bind, ST_bind.
  destruct (m1 (self, b)) as [[[] [self1 b1]]| | |]; try done.
  specialize (H2 self1 b1 H1). rewrite Z.add_assoc.
  by destruct (m2 (self1, b1)) as [[[] [self2 b2]]| | |].
Qed.

(** A function that counts a table. *)
Definition counts {S} (I : Z -> S -> Prop) (n : Z) (count : S -> result SerError S) : Prop :=
  forall self, I n self -> exists self', count self = Ok self' /\ I (n + 1) self'.

Lemma msafe_table {S A} (I : Z -> S -> Prop) n count set (ser : A -> Writer ()) p items :
  counts I n count -> (forall l self, located l -> I (n + 1) self -> I (n + 1) (set l self)) ->
  (forall self, I n self -> I (n + 1) self) ->
  (forall x, p x = true -> wsafe (ser x)) -> forallb p items = true ->
  msafe I n 1 (serialize_table count set ser items).
Proof.
  intros Hcount Hset Hle Hser Hp self b H0. unfold serialize_table.
  destruct items as [|x items]; [by apply Hle|]. set (xs := x :: items) in *.
  destruct (Hcount self H0) as (self1 & -> & Htc). unfold mbind, result_bind at 1.
  unfold check_index_in_binary at 1. destruct (_ <? zlen b); [done|].
  pose proof (wsafe_for_wf p ser xs Hser Hp b) as Hw.
  destruct (st_for xs ser b) as [[[] b1]| | |]; try done.
  unfold checked_calculate_table_size, check_index_in_binary. unfold mbind, result_bind.
  destruct (_ <? zlen b1); [done|]. destruct (Z.leb_spec (zlen b) (zlen b1)); [|lia].
  apply Hset; [|done]. split; simpl; lia.
Qed.

Lemma counts_incr n : n < u8_max -> counts common_inv n CommonSerializer.incr_table_count.
Proof.
  intros Hn self [H0 Hl]. unfold CommonSerializer.incr_table_count.
  destruct (Z.ltb_spec u8_max (CommonSerializer.table_count self + 1)); [lia|].
  eexists. split; [done|]. split; [simpl; lia|done].
Qed.

Lemma counts_wrapping n :
  n < u8_max -> counts common_inv n CommonSerializer.wrapping_incr_table_count.
Proof.
  intros Hn self [H0 Hl]. eexists. split; [reflexivity|]. split; [|done]. simpl.
  unfold u8_max in Hn. rewrite Z.mod_small; lia.
Qed.

Lemma counts_module n count : counts common_inv n count -> counts module_inv n (count_common count).
Proof.
  intros Hc self [H0 Hl]. destruct (Hc _ H0) as (c & E & Htc). unfold count_common.
  rewrite E. eexists. split; [done|]. by split.
Qed.

Lemma msafe_on_common n k m : msafe common_inv n k m -> msafe module_inv n k (on_common m).
Proof.
  intros Hm self b [H0 Hl]. specialize (Hm _ b H0). unfold on_common.
  by destruct (m (ModuleSerializer.common self, b)) as [[[] [c b1]]| | |].
Qed.

(** A table function of either serializer. *)
Ltac table_safe ser :=
  first [ eapply (msafe_table _ _ _ _ _ _ _) with (4 := ser)
        | eapply (msafe_table _ _ _ _ _ (fun _ => true)) with (4 := fun x _ => ser x) ];
  [ first [ apply counts_incr | apply counts_module, counts_incr
          | apply counts_module, counts_wrapping ]; done
  | unfold module_inv, common_inv; intros; simpl in *; tauto
  | unfold module_inv, common_inv; intros; intuition lia
  | first [ done | match goal with |- forallb _ ?l = true => by induction l end ] ].

Lemma msafe_common_tables {T} `{CommonTables T} (t : T) :
  forallb wf_module_handle (get_module_handles t) = true ->
  forallb wf_struct_handle (get_struct_handles t) = true ->
  forallb wf_function_handle (get_function_handles t) = true ->
  forallb wf_function_instantiation (get_function_instantiations t) = true ->
  forallb wf_signature (get_signatures t) = true ->
  forallb wf_constant (get_constant_pool t) = true ->
  msafe common_inv 0 8 (serialize_common_tables t).
Proof.
  intros. unfold serialize_common_tables.
  change 8 with (1 + (1 + (1 + (1 + (1 + (1 + (1 + 1))))))).
  apply msafe_bind; [table_safe wsafe_module_handle|].
  apply msafe_bind; [table_safe wsafe_struct_handle|].
  apply msafe_bind; [table_safe wsafe_function_handle|].
  apply msafe_bind; [table_safe wsafe_function_instantiation|].
  apply msafe_bind; [table_safe wsafe_signature|].
  apply msafe_bind; [table_safe wsafe_identifier|].
  apply msafe_bind; [table_safe wsafe_address|].
  table_safe wsafe_constant.
Qed.

Lemma msafe_tables m : wf_module m = true -> msafe module_inv 0 (8 + 6) (serialize_tables m).
Proof.
  unfold wf_module. intros. wsafe_hyps. unfold serialize_tables.
  apply msafe_bind; [by apply msafe_on_common, msafe_common_tables|].
  change 6 with (1 + (1 + (1 + (1 + (1 + 1))))).
  apply msafe_bind; [table_safe wsafe_struct_definition|].
  apply msafe_bind; [table_safe wsafe_struct_def_instantiation|].
  apply msafe_bind; [table_safe wsafe_function_definition|].
  apply msafe_bind; [table_safe wsafe_field_handle|].
  apply msafe_bind; [table_safe wsafe_field_instantiation|].
  table_safe wsafe_module_handle.
Qed.

(** * Entry points *)

Lemma wsafe_table_index kind p : located p -> wsafe (serialize_table_index kind p.1 p.2).
Proof.
  intros [H1 H2]. unfold serialize_table_index. destruct (negb _); [|apply wsafe_ret].
  apply wsafe_bind; [apply wsafe_push|]. by apply wsafe_bind; apply wsafe_uleb.
Qed.
#[export] Hint Resolve wsafe_table_index : wsafe.

Lemma wsafe_header self : wsafe (serialize_header self).
Proof. apply wsafe_bind; [apply wsafe_push_all|apply wsafe_extend]. Qed.

Lemma wsafe_common_indices n self :
  common_inv n self -> wsafe (serialize_common_table_indices self).
Proof.
  intros (Hn & Hl). unfold serialize_common_table_indices. destruct_and!.
  repeat apply wsafe_bind; auto with wsafe. apply wsafe_uleb; [lia|done].
Qed.

Lemma wsafe_module_indices n self :
  module_inv n self -> wsafe (serialize_module_table_indices self).
Proof.
  intros (Hc & Hl). unfold serialize_module_table_indices. destruct_and!.
  apply wsafe_bind; [by eapply wsafe_common_indices|]. repeat apply wsafe_bind; auto with wsafe.
Qed.

Lemma serialize_module_safe m binary : wf_module m = true -> safe (serialize_module m binary).
Proof.
  intros Hwf. unfold serialize_module. pose proof (msafe_tables m Hwf
    (ModuleSerializer.new VERSION_MAX) [] ltac:(vm_compute; intuition congruence)) as Ht.
  destruct (serialize_tables m _) as [[[] [ser temp]]| | |]; try done.
  unfold mbind, result_bind. destruct (_ <? _); [done|].
  match goal with |- context [match ?w binary with _ => _ end] =>
    assert (wsafe w) as Hw; [|specialize (Hw binary); by destruct (w binary) as [[]| | |]] end.
  apply wsafe_bind; [apply wsafe_header|].
  apply wsafe_bind; [by eapply wsafe_module_indices|].
  apply wsafe_bind; [apply wsafe_extend|]. unfold wf_module in Hwf. wsafe_hyps. wsafe_auto.
Qed.

Lemma serialize_script_safe s binary : wf_script s = true -> safe (serialize_script s binary).
Proof.
  intros Hwf. unfold serialize_script. unfold wf_script in Hwf. wsafe_hyps.
  assert (msafe common_inv 0 8 (serialize_common_tables s)) as Hs
    by (apply msafe_common_tables; assumption).
  specialize (Hs (CommonSerializer.new VERSION_MAX) [] ltac:(vm_compute; intuition congruence)).
  destruct (serialize_common_tables s _) as [[[] [ser temp]]| | |]; try done.
  unfold mbind, result_bind. destruct (_ <? _); [done|].
  match goal with |- context [match ?w binary with _ => _ end] =>
    assert (wsafe w) as Hw; [|specialize (Hw binary); by destruct (w binary) as [[]| | |]] end.
  apply wsafe_bind; [apply wsafe_header|].
  apply wsafe_bind; [by eapply wsafe_common_indices|].
  apply wsafe_bind; [apply wsafe_extend|]. unfold serialize_main. wsafe_auto.
Qed.

(** * The table of contents *)

(** The tables follow each other without gap or overlap from [off] to [n], none is
    empty. *)
Inductive tiles : Z -> list Table -> Z -> Prop :=
| tiles_nil off : tiles off [] off
| tiles_cons off t ts n :
    t.(Table.offset) = off -> 0 < t.(Table.count) ->
    tiles (off + t.(Table.count)) ts n -> tiles off (t :: ts) n.

Definition before (t1 t2 : Table) : Prop := t1.(Table.offset) <= t2.(Table.offset).
Definition strictly_before (t1 t2 : Table) : Prop := t1.(Table.offset) < t2.(Table.offset).

Lemma insert_table_perm t ts : Permutation (insert_table t ts) (t :: ts).
Proof.
  induction ts as [|t' ts IH]; simpl; [done|]. case_match; [done|].
  rewrite IH. constructor.
Qed.

Lemma sort_tables_perm ts : Permutation (sort_tables ts) ts.
Proof. induction ts as [|t ts IH]; simpl; [done|]. by rewrite insert_table_perm, IH. Qed.

Lemma insert_table_sorted t ts : StronglySorted before ts -> StronglySorted before (insert_table t ts).
Proof.
  induction 1 as [|t' ts Hs IH Ht]; simpl; [repeat constructor|].
  destruct (Z.leb_spec t.(Table.offset) t'.(Table.offset)) as [Hle|Hlt].
  - constructor; [by constructor|]. constructor; [done|].
    eapply Forall_impl; [|exact Ht]. unfold before. simpl. lia.
  - constructor; [done|]. rewrite insert_table_perm. constructor; [unfold before; lia|done].
Qed.

Lemma sort_tables_sorted ts : StronglySorted before (sort_tables ts).
Proof. induction ts; simpl; [constructor|by apply insert_table_sorted]. Qed.

Lemma sorted_unique l1 l2 :
  StronglySorted before l1 -> StronglySorted strictly_before l2 -> Permutation l1 l2 -> l1 = l2.
Proof.
  intros H1 H2. revert l1 H1. induction H2 as [|t l2 Hs IH Ht]; intros l1 H1 Hp.
  { symmetry in Hp. by apply Permutation_nil in Hp. }
  destruct H1 as [|x l1 Hs1 Hx]; [by apply Permutation_nil in Hp|].
  assert (x = t) as ->.
  { assert (In x (t :: l2)) as [|Hxl] by (rewrite <- Hp; by left); [done|].
    assert (In t (x :: l1)) as [|Htl] by (rewrite Hp; by left); [done|].
    rewrite Forall_forall in Ht, Hx. apply Ht in Hxl. apply Hx in Htl.
    unfold before, strictly_before in *. lia. }
  f_equal. apply IH; [done|]. by apply Permutation_cons_inv in Hp.
Qed.

Lemma tiles_above off ts n :
  tiles off ts n -> off <= n /\ Forall (fun t => off <= t.(Table.offset)) ts.
Proof.
  induction 1 as [|off t ts n Ho Hc Hts [IHn IH]]; [split; [lia|constructor]|].
  split; [lia|]. constructor; [lia|]. eapply Forall_impl; [|exact IH]. simpl. lia.
Qed.

Lemma tiles_sorted off ts n : tiles off ts n -> StronglySorted strictly_before ts.
Proof.
  induction 1 as [|off t ts n Ho Hc Hts IH]; constructor; [done|].
  apply tiles_above in Hts as [_ Hts]. eapply Forall_impl; [|exact Hts].
  unfold strictly_before. simpl. lia.
Qed.

Lemma check_tables_loop_ok ts len off kinds n :
  Forall (fun t => 0 <= t.(Table.count)) ts -> off <= len -> off <= u32_max ->
  check_tables_loop ts len off kinds = Ok n <->
  tiles off ts n /\ NoDup (map Table.kind ts) /\ (forall t, t ∈ ts -> t.(Table.kind) ∉ kinds) /\
  n <= u32_max /\ n <= len.
Proof.
  intros Hts. revert off kinds. induction Hts as [|t ts Hc Hts IH]; intros off kinds Hl Hu; simpl.
  { split.
    - intros [= <-]. repeat split; try done; [constructor|constructor|].
      intros t Ht. by apply elem_of_nil in Ht.
    - intros (Ht & _). by inversion Ht. }
  destruct (Z.eqb_spec t.(Table.offset) off) as [Eo|Eo]; simpl;
    [|split; [done|intros (Ht & _); by inversion Ht]].
  destruct (Z.eqb_spec t.(Table.count) 0) as [E0|E0];
    [split; [done|intros (Ht & _); inversion Ht; lia]|].
  assert (forall n, tiles off (t :: ts) n <-> tiles (off + t.(Table.count)) ts n) as Ht.
  { intros k. split; [by inversion 1|intros; constructor; [done|lia|done]]. }
  destruct (Z.ltb_spec u32_max (off + t.(Table.count))).
  { split; [done|]. intros ([Hn _]%Ht%tiles_above & _ & _ & ? & _). lia. }
  case_bool_decide as Hk.
  { split; [done|]. intros (_ & _ & Hn & _). destruct (Hn t); [by left|done]. }
  destruct (Z.ltb_spec len (off + t.(Table.count))).
  { split; [done|]. intros ([Hn _]%Ht%tiles_above & _ & _ & _ & ?). lia. }
  rewrite IH, Ht by lia. setoid_rewrite not_elem_of_cons. rewrite list.NoDup_cons. split.
  - intros (H1 & H2 & H3 & H4). split; [done|]. split; [split; [|done]|].
    + intros (t' & Et & Ht')%list_elem_of_fmap. destruct (H3 t' Ht') as [Hne _]. congruence.
    + split; [|done]. intros t' [-> |Ht']%elem_of_cons; [done|]. by apply H3.
  - intros (H1 & [H2 H2'] & H3 & H4). split; [done|]. split; [done|]. split; [|done].
    intros t' Ht'. split; [|apply H3; by right]. intros E. apply H2. rewrite <- E.
    by apply list_elem_of_fmap_2.
Qed.

(** [check_tables] accepts exactly the tables of contents whose tables, in some
    order, tile an initial segment of the contents: contiguous from offset 0, none
    empty, no kind twice, ending within the bytes that follow the header and within a
    [u32]; it returns the length of that segment and the tables in that order. *)
Theorem check_tables_correct (tables ts : list Table) (len n : Z) :
  0 <= len -> Forall (fun t => 0 <= t.(Table.count)) tables ->
  check_tables tables len = Ok (n, ts) <->
  Permutation tables ts /\ tiles 0 ts n /\ NoDup (map Table.kind ts) /\
  n <= u32_max /\ n <= len.
Proof.
  intros Hlen Hc. unfold check_tables.
  assert (Forall (fun t => 0 <= t.(Table.count)) (sort_tables tables)) as Hs
    by by rewrite sort_tables_perm.
  assert (forall n, check_tables_loop (sort_tables tables) len 0 [] = Ok n <-> _) as Hl
    by (intros k; apply check_tables_loop_ok; [done|lia|by zify_bounds]).
  split.
  - intros H. inv_ok. match goal with H : check_tables_loop _ _ _ _ = _ |- _ =>
      apply Hl in H as (? & ? & _ & ? & ?) end.
    split; [by rewrite sort_tables_perm|done].
  - intros (Hp & Ht & Hd & Hb). assert (sort_tables tables = ts) as E.
    { apply sorted_unique; [apply sort_tables_sorted|by eapply tiles_sorted|].
      by rewrite sort_tables_perm. }
    rewrite (proj2 (Hl n)); [by rewrite E|]. rewrite E. split; [done|]. split; [done|].
    split; [|done]. intros t _ H. by apply elem_of_nil in H.
Qed.

Lemma check_tables_correct_witness :
  let tables := [Table.mk TableType.SIGNATURES 4 2; Table.mk TableType.IDENTIFIERS 0 4] in
  check_tables tables 9 = Ok (6, rev tables) <->
  Permutation tables (rev tables) /\ tiles 0 (rev tables) 6 /\
  NoDup (map Table.kind (rev tables)) /\ 6 <= u32_max /\ 6 <= 9.
Proof. apply check_tables_correct; [lia|repeat constructor; simpl; lia]. Defined.

(** * The serializer is total *)

(** [CompiledModule::serialize] is total on well-formed modules.  It returns the
    bytes or an error (a table or the binary is too large): the [assert!] and
    [checked_add] of the serializer never panic, and every loop terminates. *)
Theorem serialize_module_total (m : CompiledModule) (binary : BinaryData) :
  wf_module m = true -> safe (serialize_module m binary).
Proof. apply serialize_module_safe. Qed.

Lemma serialize_module_total_witness : safe (serialize_module basic_test_module [0]).
Proof. apply serialize_module_total. reflexivity. Defined.

(** [CompiledScript::serialize] is total on well-formed scripts, in the same
    sense. *)
Theorem serialize_script_total (s : CompiledScript) (binary : BinaryData) :
  wf_script s = true -> safe (serialize_script s binary).
Proof. apply serialize_script_safe. Qed.

Lemma serialize_script_total_witness : safe (serialize_script empty_script [0]).
Proof. apply serialize_script_total. reflexivity. Defined.

(** * Instruction keys *)

Definition any (_ : list Z) : Prop := True.

Lemma writes_push x : writes (push x) (eq [x]).
Proof. intros b b'. unfold push. destruct (_ <=? _); [|done]. intros [= <-]. eauto. Qed.

Lemma writes_key x : writes (push x) (fun bs => exists tl, bs = x :: tl).
Proof. eapply writes_impl; [apply writes_push|]. intros ? <-. eauto. Qed.

Lemma writes_keyed x w : writes w any -> writes (push x;; w) (fun bs => exists tl, bs = x :: tl).
Proof.
  intros Hw. eapply writes_impl; [apply writes_bind; [apply writes_push|exact Hw]|].
  intros ? (? & tl & -> & <- & _). by exists tl.
Qed.

Lemma writes_any_bind w1 w2 : writes w1 any -> writes w2 any -> writes (w1;; w2) any.
Proof. intros H1 H2. by eapply writes_impl; [apply writes_bind|]. Qed.

Lemma writes_any_uleb x max : 0 <= x -> max <= u64_max -> writes (write_as_uleb128 x max) any.
Proof. intros Hx Hm. by eapply writes_impl; [apply writes_uleb|]. Qed.

Lemma writes_any_push x : writes (push x) any.
Proof. by eapply writes_impl; [apply writes_key|]. Qed.

Lemma writes_any_extend bs : writes (extend bs) any.
Proof. by eapply writes_impl; [apply writes_extend|]. Qed.

Ltac writes_any :=
  repeat apply writes_any_bind;
  first [ apply writes_any_push | apply writes_any_extend
        | apply writes_any_uleb;
          [repeat match goal with H : in_range _ _ = true |- _ => apply in_range_spec in H end; lia
          |done] ].

Lemma serialize_instruction_key b :
  wf_bytecode b = true ->
  writes (serialize_instruction_inner b) (fun bs => exists operands, bs = instruction_key b :: operands).
Proof.
  destruct b; cbn [wf_bytecode serialize_instruction_inner]; intros; wsafe_hyps;
    first [apply writes_key | apply writes_keyed; writes_any].
Qed.

(** The first byte of a serialized instruction is its [instruction_key], and the
    reader's table of opcodes knows it: the three tables of opcodes (of the serializer,
    of the deserializer and of [instruction_key]) agree. *)
Theorem instruction_key_is_opcode (b : Bytecode) (binary bin : BinaryData) :
  wf_bytecode b = true -> serialize_instruction_inner b binary = Ok ((), bin) ->
  (exists operands, bin = binary ++ instruction_key b :: operands) /\
  exists op, Opcodes_from_u8 (instruction_key b) = Ok op /\ Opcodes.as_u8 op = instruction_key b.
Proof.
  intros Hwf E. split.
  - destruct (serialize_instruction_key b Hwf _ _ E) as (bs & -> & tl & ->). eauto.
  - destruct b; eexists; split; reflexivity.
Qed.

Lemma instruction_key_is_opcode_witness :
  (exists operands, [9; 3; 200; 1] = [9] ++ instruction_key (Bytecode.BrTrue 200) :: operands) /\
  exists op, Opcodes_from_u8 (instruction_key (Bytecode.BrTrue 200)) = Ok op /\
    Opcodes.as_u8 op = instruction_key (Bytecode.BrTrue 200).
Proof. apply instruction_key_is_opcode; vm_compute; reflexivity. Defined.

(** * Corners of the format *)

(** The stacks of two readers that differ only in the arity, 0 or 1, of an
    instantiation at the bottom that has no argument yet. *)
Lemma arity_0_1_loop fuel idx stack c :
  load_signature_token_loop fuel (stack ++ [TypeBuilder.StructInst idx 0 []]) c =
  load_signature_token_loop fuel (stack ++ [TypeBuilder.StructInst idx 1 []]) c.
Proof.
  revert stack c. induction fuel as [|fuel IH]; intros stack c; [done|].
  cbn [load_signature_token_loop]. rewrite !length_app. simpl length.
  destruct (_ <? _); [done|]. destruct stack as [|t stack]; cbn [app].
  - cbn [TypeBuilder.is_saturated]. unfold mbind, Reader_bind, ST_bind.
    destruct (read_next c) as [[t c']| | |]; try done. apply (IH [t]).
  - destruct (TypeBuilder.is_saturated t) eqn:Et.
    + destruct t as [tok| | | |]; try done. unfold mbind, Reader_bind, ST_bind. simpl.
      destruct stack as [|t' stack]; simpl; [done|].
      unfold st_lift. destruct (TypeBuilder.apply t' tok) as [t''| | |]; try done.
      apply (IH (t'' :: stack)).
    + unfold mbind, Reader_bind, ST_bind.
      destruct (read_next c) as [[t' c']| | |]; try done. apply (IH (t' :: t :: stack)).
Qed.

(** An instantiation of arity 0 is read as one of arity 1.  Whatever bytes follow,
    [STRUCT_INST idx 0 ..] and [STRUCT_INST idx 1 ..] give the same type, so the two
    encodings denote one type; and the bytes the serializer writes for an
    instantiation without arguments are not readable alone. *)
Theorem struct_inst_arity_0_is_1 :
  (forall idx c, load_signature_token_from (TypeBuilder.StructInst idx 0 []) c =
                 load_signature_token_from (TypeBuilder.StructInst idx 1 []) c) /\
  serialize_signature_token (SignatureToken.StructInstantiation 3 []) [] = Ok ((), [11; 3; 0]) /\
  load_signature_token (at_ 0 [11; 3; 0]) = Err MALFORMED.
Proof.
  split; [|by vm_compute]. intros idx c. unfold load_signature_token_from.
  apply (arity_0_1_loop _ idx []).
Qed.

(** A reader that does not confuse a value out of range with a broken invariant. *)
Definition reports_malformed (r : Reader Z) : Prop :=
  forall c, r c <> Err UNKNOWN_INVARIANT_VIOLATION_ERROR.

Lemma read_uleb_reports tmax max : max <= tmax -> reports_malformed (read_uleb_internal tmax max).
Proof.
  intros Hm c. unfold read_uleb_internal, mbind, Reader_bind, ST_bind, on_cursor.
  destruct (read_uleb128_as_u64 _) as [[x c']| | |]; try done.
  destruct (Z.ltb_spec max x); [done|]. destruct (Z.ltb_spec tmax x); [lia|done].
Qed.

(** the bounds of the integer readers.  Every index, count and size that is out of
    range is reported as [MALFORMED] by its reader, except the index of a type
    parameter: its limit 65536 is not a [u16], so that value passes the check of
    the limit and the conversion reports an invariant violation instead. *)
Theorem uleb_reader_errors :
  Forall reports_malformed
    [load_signature_index; load_module_handle_index; load_identifier_index;
     load_struct_handle_index; load_address_identifier_index; load_struct_def_index;
     load_function_handle_index; load_field_handle_index; load_field_inst_index;
     load_function_inst_index; load_struct_def_inst_index; load_constant_pool_index;
     load_bytecode_count; load_bytecode_index; load_acquires_count; load_field_count;
     load_type_parameter_count; load_signature_size; load_constant_size;
     load_identifier_size; load_field_offset; load_table_count; load_table_offset;
     load_table_size; load_local_index] /\
  load_type_parameter_index (at_ 0 [0x80; 0x80; 0x04]) = Err UNKNOWN_INVARIANT_VIOLATION_ERROR /\
  load_type_parameter_index (at_ 0 [0x81; 0x80; 0x04]) = Err MALFORMED.
Proof.
  split; [|by vm_compute].
  repeat (constructor; [by apply read_uleb_reports|]). constructor.
Qed.
