(* ===== verification/Access.v ===== *)
(** Accessors of compiled modules and scripts: move-binary-format/src/access.rs and
    binary_views.rs.  Indexing a vector out of range panics, and so does a
    [debug_assert!] that fails. *)
From S2P Require Import Prelude StatusCode Abilities Identifier FileFormat.

(** [language_storage::ModuleId] *)
Definition ModuleId : Set := AccountAddress * Identifier.

(** [&pool[idx.into_index()]] *)
Definition index {E A} (pool : list A) (idx : TableIndex) : result E A :=
  unwrap (pool !! into_index idx).

(** [idx.into_index() < pool.len()] *)
Definition in_pool {A} (pool : list A) (idx : TableIndex) : bool :=
  Nat.ltb (into_index idx) (length pool).

Definition debug_assert {E} (b : bool) : result E () := if b then Ok () else Panic.

(** * Modules *)

Module ModuleAccess.
Section module_access.
Context (self : CompiledModule).
Abbreviation R := (result StatusCode).

Definition self_handle_idx : ModuleHandleIndex := self.(CompiledModule.self_module_handle_idx).

Definition module_handle_at (idx : ModuleHandleIndex) : R ModuleHandle :=
  handle ← index self.(CompiledModule.module_handles) idx;
  debug_assert (in_pool self.(CompiledModule.address_identifiers) handle.(ModuleHandle.address));;
  debug_assert (in_pool self.(CompiledModule.identifiers) handle.(ModuleHandle.name));;
  Ok handle.

Definition struct_handle_at (idx : StructHandleIndex) : R StructHandle :=
  handle ← index self.(CompiledModule.struct_handles) idx;
  debug_assert (in_pool self.(CompiledModule.module_handles) handle.(StructHandle.module));;
  Ok handle.

Definition function_handle_at (idx : FunctionHandleIndex) : R FunctionHandle :=
  handle ← index self.(CompiledModule.function_handles) idx;
  debug_assert (in_pool self.(CompiledModule.signatures) handle.(FunctionHandle.parameters));;
  debug_assert (in_pool self.(CompiledModule.signatures) handle.(FunctionHandle.return_));;
  Ok handle.

Definition field_handle_at (idx : FieldHandleIndex) : R FieldHandle :=
  handle ← index self.(CompiledModule.field_handles) idx;
  debug_assert (in_pool self.(CompiledModule.struct_defs) handle.(FieldHandle.owner));;
  Ok handle.

Definition struct_instantiation_at (idx : StructDefInstantiationIndex) : R StructDefInstantiation :=
  index self.(CompiledModule.struct_def_instantiations) idx.
Definition function_instantiation_at (idx : FunctionInstantiationIndex) : R FunctionInstantiation :=
  index self.(CompiledModule.function_instantiations) idx.
Definition field_instantiation_at (idx : FieldInstantiationIndex) : R FieldInstantiation :=
  index self.(CompiledModule.field_instantiations) idx.
Definition signature_at (idx : SignatureIndex) : R Signature :=
  index self.(CompiledModule.signatures) idx.
Definition identifier_at (idx : IdentifierIndex) : R Identifier :=
  index self.(CompiledModule.identifiers) idx.
Definition address_identifier_at (idx : AddressIdentifierIndex) : R AccountAddress :=
  index self.(CompiledModule.address_identifiers) idx.
Definition constant_at (idx : ConstantPoolIndex) : R Constant :=
  index self.(CompiledModule.constant_pool) idx.
Definition struct_def_at (idx : StructDefinitionIndex) : R StructDefinition :=
  index self.(CompiledModule.struct_defs) idx.

Definition function_def_at (idx : FunctionDefinitionIndex) : R FunctionDefinition :=
  result ← index self.(CompiledModule.function_defs) idx;
  debug_assert (in_pool self.(CompiledModule.function_handles) result.(FunctionDefinition.function));;
  debug_assert (match result.(FunctionDefinition.code) with
                | Some code => in_pool self.(CompiledModule.signatures) code.(CodeUnit.locals)
                | None => true
                end);;
  Ok result.

Definition self_handle : R ModuleHandle :=
  handle ← module_handle_at self_handle_idx;
  debug_assert (in_pool self.(CompiledModule.address_identifiers) handle.(ModuleHandle.address));;
  debug_assert (in_pool self.(CompiledModule.identifiers) handle.(ModuleHandle.name));;
  Ok handle.

Definition name : R Identifier := handle ← self_handle; identifier_at handle.(ModuleHandle.name).
Definition address : R AccountAddress :=
  handle ← self_handle; address_identifier_at handle.(ModuleHandle.address).

Definition module_id_for_handle (module_handle : ModuleHandle) : R ModuleId :=
  address ← address_identifier_at module_handle.(ModuleHandle.address);
  name ← identifier_at module_handle.(ModuleHandle.name);
  Ok (address, name).

Definition self_id : R ModuleId := handle ← self_handle; module_id_for_handle handle.

(** [ModuleHandle] derives [PartialEq]. *)
Definition module_handle_eqb (h1 h2 : ModuleHandle) : bool :=
  (h1.(ModuleHandle.address) =? h2.(ModuleHandle.address)) &&
  (h1.(ModuleHandle.name) =? h2.(ModuleHandle.name)).

(** [iter().map(f).collect()] of a function that may panic. *)
Fixpoint map_res {A B} (f : A -> R B) (l : list A) : R (list B) :=
  match l with
  | [] => Ok []
  | x :: l => y ← f x; ys ← map_res f l; Ok (y :: ys)
  end.

Definition immediate_dependencies : R (list ModuleId) :=
  self_handle ← self_handle;
  map_res module_id_for_handle
    (List.filter (fun handle => negb (module_handle_eqb handle self_handle))
       self.(CompiledModule.module_handles)).

Definition immediate_friends : R (list ModuleId) :=
  map_res module_id_for_handle self.(CompiledModule.friend_decls).

Definition find_struct_def (idx : StructHandleIndex) : option StructDefinition :=
  find (fun d => d.(StructDefinition.struct_handle) =? idx) self.(CompiledModule.struct_defs).

(** [iter().find(..)] with a predicate that may panic. *)
Fixpoint find_res {A} (f : A -> R bool) (l : list A) : R (option A) :=
  match l with
  | [] => Ok None
  | x :: l => b ← f x; if (b : bool) then Ok (Some x) else find_res f l
  end.

Definition find_struct_def_by_name (name : Identifier) : R (option StructDefinition) :=
  find_res (fun def =>
    handle ← struct_handle_at def.(StructDefinition.struct_handle);
    n ← identifier_at handle.(StructHandle.name);
    Ok (bool_decide (name = n))) self.(CompiledModule.struct_defs).
End module_access.
End ModuleAccess.

(** * Scripts *)

Module ScriptAccess.
Section script_access.
Context (self : CompiledScript).
Abbreviation R := (result StatusCode).

Definition module_handle_at (idx : ModuleHandleIndex) : R ModuleHandle :=
  index self.(CompiledScript.module_handles) idx.
Definition struct_handle_at (idx : StructHandleIndex) : R StructHandle :=
  index self.(CompiledScript.struct_handles) idx.
Definition function_handle_at (idx : FunctionHandleIndex) : R FunctionHandle :=
  index self.(CompiledScript.function_handles) idx.
Definition signature_at (idx : SignatureIndex) : R Signature :=
  index self.(CompiledScript.signatures) idx.
Definition identifier_at (idx : IdentifierIndex) : R Identifier :=
  index self.(CompiledScript.identifiers) idx.
Definition address_identifier_at (idx : AddressIdentifierIndex) : R AccountAddress :=
  index self.(CompiledScript.address_identifiers) idx.
Definition constant_at (idx : ConstantPoolIndex) : R Constant :=
  index self.(CompiledScript.constant_pool) idx.
Definition function_instantiation_at (idx : FunctionInstantiationIndex) : R FunctionInstantiation :=
  index self.(CompiledScript.function_instantiations) idx.

Definition module_id_of (handle : ModuleHandle) : R ModuleId :=
  address ← address_identifier_at handle.(ModuleHandle.address);
  name ← identifier_at handle.(ModuleHandle.name);
  Ok (address, name).

Definition immediate_dependencies : R (list ModuleId) :=
  ModuleAccess.map_res module_id_of self.(CompiledScript.module_handles).
End script_access.
End ScriptAccess.

(** * Views *)

Module BinaryIndexedView.
Inductive BinaryIndexedView : Set :=
| Module_ (module : CompiledModule)
| Script_ (script : CompiledScript).

Section view.
Context (self : BinaryIndexedView).

Definition module_handles : list ModuleHandle :=
  match self with
  | Module_ module => module.(CompiledModule.module_handles)
  | Script_ script => script.(CompiledScript.module_handles)
  end.
Definition struct_handles : list StructHandle :=
  match self with
  | Module_ module => module.(CompiledModule.struct_handles)
  | Script_ script => script.(CompiledScript.struct_handles)
  end.
Definition function_handles : list FunctionHandle :=
  match self with
  | Module_ module => module.(CompiledModule.function_handles)
  | Script_ script => script.(CompiledScript.function_handles)
  end.
Definition identifiers : list Identifier :=
  match self with
  | Module_ module => module.(CompiledModule.identifiers)
  | Script_ script => script.(CompiledScript.identifiers)
  end.
Definition address_identifiers : list AccountAddress :=
  match self with
  | Module_ module => module.(CompiledModule.address_identifiers)
  | Script_ script => script.(CompiledScript.address_identifiers)
  end.
Definition constant_pool : list Constant :=
  match self with
  | Module_ module => module.(CompiledModule.constant_pool)
  | Script_ script => script.(CompiledScript.constant_pool)
  end.
Definition signatures : list Signature :=
  match self with
  | Module_ module => module.(CompiledModule.signatures)
  | Script_ script => script.(CompiledScript.signatures)
  end.
Definition function_instantiations : list FunctionInstantiation :=
  match self with
  | Module_ module => module.(CompiledModule.function_instantiations)
  | Script_ script => script.(CompiledScript.function_instantiations)
  end.
Definition field_handles : option (list FieldHandle) :=
  match self with
  | Module_ module => Some module.(CompiledModule.field_handles)
  | Script_ _ => None
  end.
Definition friend_decls : option (list ModuleHandle) :=
  match self with
  | Module_ module => Some module.(CompiledModule.friend_decls)
  | Script_ _ => None
  end.
Definition struct_instantiations : option (list StructDefInstantiation) :=
  match self with
  | Module_ module => Some module.(CompiledModule.struct_def_instantiations)
  | Script_ _ => None
  end.
Definition field_instantiations : option (list FieldInstantiation) :=
  match self with
  | Module_ module => Some module.(CompiledModule.field_instantiations)
  | Script_ _ => None
  end.
Definition struct_defs : option (list StructDefinition) :=
  match self with
  | Module_ module => Some module.(CompiledModule.struct_defs)
  | Script_ _ => None
  end.
Definition function_defs : option (list FunctionDefinition) :=
  match self with
  | Module_ module => Some module.(CompiledModule.function_defs)
  | Script_ _ => None
  end.
Definition self_handle_idx : option ModuleHandleIndex :=
  match self with
  | Module_ m => Some (ModuleAccess.self_handle_idx m)
  | Script_ _ => None
  end.
Definition version : Z :=
  match self with
  | Module_ module => module.(CompiledModule.version)
  | Script_ script => script.(CompiledScript.version)
  end.

Definition struct_handle_at (idx : StructHandleIndex) : result StatusCode StructHandle :=
  match self with
  | Module_ module => ModuleAccess.struct_handle_at module idx
  | Script_ script => ScriptAccess.struct_handle_at script idx
  end.
Definition signature_at (idx : SignatureIndex) : result StatusCode Signature :=
  match self with
  | Module_ module => ModuleAccess.signature_at module idx
  | Script_ script => ScriptAccess.signature_at script idx
  end.
Definition function_handle_at (idx : FunctionHandleIndex) : result StatusCode FunctionHandle :=
  match self with
  | Module_ module => ModuleAccess.function_handle_at module idx
  | Script_ script => ScriptAccess.function_handle_at script idx
  end.
Definition field_handle_at (idx : FieldHandleIndex) : result StatusCode FieldHandle :=
  match self with
  | Module_ module => ModuleAccess.field_handle_at module idx
  | Script_ _ => Err INVALID_OPERATION_IN_SCRIPT
  end.
Definition struct_def_at (idx : StructDefinitionIndex) : result StatusCode StructDefinition :=
  match self with
  | Module_ module => ModuleAccess.struct_def_at module idx
  | Script_ _ => Err INVALID_OPERATION_IN_SCRIPT
  end.

Definition identifier_at (idx : IdentifierIndex) : result StatusCode Identifier :=
  match self with
  | Module_ module => ModuleAccess.identifier_at module idx
  | Script_ script => ScriptAccess.identifier_at script idx
  end.
Definition address_identifier_at (idx : AddressIdentifierIndex) : result StatusCode AccountAddress :=
  match self with
  | Module_ module => ModuleAccess.address_identifier_at module idx
  | Script_ script => ScriptAccess.address_identifier_at script idx
  end.
Definition constant_at (idx : ConstantPoolIndex) : result StatusCode Constant :=
  match self with
  | Module_ module => ModuleAccess.constant_at module idx
  | Script_ script => ScriptAccess.constant_at script idx
  end.
Definition module_handle_at (idx : ModuleHandleIndex) : result StatusCode ModuleHandle :=
  match self with
  | Module_ module => ModuleAccess.module_handle_at module idx
  | Script_ script => ScriptAccess.module_handle_at script idx
  end.
Definition function_instantiation_at (idx : FunctionInstantiationIndex) :
    result StatusCode FunctionInstantiation :=
  match self with
  | Module_ module => ModuleAccess.function_instantiation_at module idx
  | Script_ script => ScriptAccess.function_instantiation_at script idx
  end.
Definition struct_instantiation_at (idx : StructDefInstantiationIndex) :
    result StatusCode StructDefInstantiation :=
  match self with
  | Module_ module => ModuleAccess.struct_instantiation_at module idx
  | Script_ _ => Err INVALID_OPERATION_IN_SCRIPT
  end.
Definition field_instantiation_at (idx : FieldInstantiationIndex) :
    result StatusCode FieldInstantiation :=
  match self with
  | Module_ module => ModuleAccess.field_instantiation_at module idx
  | Script_ _ => Err INVALID_OPERATION_IN_SCRIPT
  end.
Definition function_def_at (idx : FunctionDefinitionIndex) : result StatusCode FunctionDefinition :=
  match self with
  | Module_ module => ModuleAccess.function_def_at module idx
  | Script_ _ => Err INVALID_OPERATION_IN_SCRIPT
  end.
Definition module_id_for_handle (module_handle : ModuleHandle) : result StatusCode ModuleId :=
  address ← address_identifier_at module_handle.(ModuleHandle.address);
  name ← identifier_at module_handle.(ModuleHandle.name);
  Ok (address, name).
(** [Some(m.self_id())]: the accessor may panic. *)
Definition self_id : result StatusCode (option ModuleId) :=
  match self with
  | Module_ m => id ← ModuleAccess.self_id m; Ok (Some id)
  | Script_ _ => Ok None
  end.

(** [abilities]: the abilities of a type, given those of the type parameters in
    scope. *)
Fixpoint abilities (ty : SignatureToken) (constraints : list AbilitySet) :
    result StatusCode AbilitySet :=
  match ty with
  | SignatureToken.Bool | SignatureToken.U8 | SignatureToken.U64 | SignatureToken.U128
  | SignatureToken.Address => Ok AbilitySet.PRIMITIVES
  | SignatureToken.Reference _ | SignatureToken.MutableReference _ => Ok AbilitySet.REFERENCES
  | SignatureToken.Signer => Ok AbilitySet.SIGNER
  | SignatureToken.TypeParameter idx => index constraints idx
  | SignatureToken.Vector ty =>
    a ← abilities ty constraints;
    AbilitySet.polymorphic_abilities AbilitySet.VECTOR [false] [a]
  | SignatureToken.Struct idx =>
    sh ← struct_handle_at idx;
    Ok sh.(StructHandle.abilities)
  | SignatureToken.StructInstantiation idx type_args =>
    sh ← struct_handle_at idx;
    type_arguments ←
      (fix go (args : list SignatureToken) : result StatusCode (list AbilitySet) :=
         match args with
         | [] => Ok []
         | arg :: args => a ← abilities arg constraints; l ← go args; Ok (a :: l)
         end) type_args;
    AbilitySet.polymorphic_abilities sh.(StructHandle.abilities)
      (map StructTypeParameter.is_phantom sh.(StructHandle.type_parameters)) type_arguments
  end.
End view.
End BinaryIndexedView.
Abbreviation BinaryIndexedView := BinaryIndexedView.BinaryIndexedView.

Lemma map_res_length {A B} (h : A -> result StatusCode B) l l' :
  ModuleAccess.map_res h l = Ok l' -> length l' = length l.
Proof.
  revert l'. induction l as [|x l IH]; intros l' E; cbn in E; [by injection E as <-|].
  destruct (h x); try done. cbn in E. destruct (ModuleAccess.map_res h l); try done.
  injection E as <-. simpl. by rewrite (IH _ eq_refl).
Qed.
