(* ===== verification/BoundsChecker.v ===== *)
(** The bounds checker, move-binary-format/src/check_bounds.rs: every index of a
    deserialized unit points into its table before anything else looks at it.  The
    errors are the [StatusCode] of the [PartialVMError]. *)
From S2P Require Import Prelude StatusCode Abilities Identifier FileFormat BinaryCommon.
From S2P Require Import Deserializer Access.

Inductive BoundsCheckingContext : Set :=
| ModuleContext
| ModuleFunctionContext (idx : FunctionDefinitionIndex)
| ScriptContext.

(** * Pools *)

Definition check_bounds_impl {A} (pool : list A) (idx : TableIndex) : result StatusCode () :=
  if Nat.leb (length pool) (into_index idx) then Err INDEX_OUT_OF_BOUNDS else Ok ().

Definition check_bounds_impl_opt {A} (pool : option (list A)) (idx : TableIndex) :
    result StatusCode () :=
  match pool with Some p => check_bounds_impl p idx | None => Ok () end.

Definition offset_out_of_bounds (context : BoundsCheckingContext) (status : StatusCode) :
    StatusCode :=
  match context with
  | ModuleContext => UNKNOWN_INVARIANT_VIOLATION_ERROR
  | ModuleFunctionContext _ => status
  | ScriptContext => status
  end.

Definition check_code_unit_bounds_impl {A} (context : BoundsCheckingContext) (pool : list A)
    (idx : TableIndex) : result StatusCode () :=
  if Nat.leb (length pool) (into_index idx)
  then Err (offset_out_of_bounds context INDEX_OUT_OF_BOUNDS) else Ok ().

Definition check_code_unit_bounds_impl_opt {A} (context : BoundsCheckingContext)
    (pool : option (list A)) (idx : TableIndex) : result StatusCode () :=
  match pool with
  | Some p => check_code_unit_bounds_impl context p idx
  | None => Ok ()
  end.

Module BoundsChecker.
Import BinaryIndexedView.
Section checker.
Context (view : BinaryIndexedView).
Abbreviation R := (result StatusCode).

(** * Types *)

(** The body of the loop of [check_type]. *)
Definition check_type_node (ty : SignatureToken) : R () :=
  match ty with
  | SignatureToken.Bool | SignatureToken.U8 | SignatureToken.U64 | SignatureToken.U128
  | SignatureToken.Address | SignatureToken.Signer | SignatureToken.TypeParameter _
  | SignatureToken.Reference _ | SignatureToken.MutableReference _
  | SignatureToken.Vector _ => Ok ()
  | SignatureToken.Struct idx =>
    check_bounds_impl (struct_handles view) idx;;
    match struct_handles view !! into_index idx with
    | Some sh =>
      if negb (Nat.eqb (length sh.(StructHandle.type_parameters)) 0)
      then Err NUMBER_OF_TYPE_ARGUMENTS_MISMATCH else Ok ()
    | None => Ok ()
    end
  | SignatureToken.StructInstantiation idx type_params =>
    check_bounds_impl (struct_handles view) idx;;
    match struct_handles view !! into_index idx with
    | Some sh =>
      if negb (Nat.eqb (length sh.(StructHandle.type_parameters)) (length type_params))
      then Err NUMBER_OF_TYPE_ARGUMENTS_MISMATCH else Ok ()
    | None => Ok ()
    end
  end.

Definition check_type (ty : SignatureToken) : R () :=
  res_for (SignatureToken.preorder_traversal ty) check_type_node.

(** The body of the loop of [check_type_parameter]. *)
Definition check_type_parameter_node (type_param_count : nat) (ty : SignatureToken) : R () :=
  match ty with
  | SignatureToken.TypeParameter idx =>
    if Nat.leb type_param_count (into_index idx) then Err INDEX_OUT_OF_BOUNDS else Ok ()
  | _ => Ok ()
  end.

Definition check_type_parameter (ty : SignatureToken) (type_param_count : nat) : R () :=
  res_for (SignatureToken.preorder_traversal ty) (check_type_parameter_node type_param_count).

(** [if let Some(sig) = signatures.get(idx) { for ty in &sig.0 { .. } }] *)
Definition check_type_parameters_of (idx : SignatureIndex) (type_param_count : nat) : R () :=
  match signatures view !! into_index idx with
  | Some sig => res_for sig (fun ty => check_type_parameter ty type_param_count)
  | None => Ok ()
  end.

(** * Tables *)

Definition check_signature (signature : Signature) : R () := res_for signature check_type.
Definition check_constant (constant : Constant) : R () := check_type constant.(Constant.type_).

Definition check_module_handle (module_handle : ModuleHandle) : R () :=
  check_bounds_impl (address_identifiers view) module_handle.(ModuleHandle.address);;
  check_bounds_impl (identifiers view) module_handle.(ModuleHandle.name).

Definition check_self_module_handle : R () :=
  match self_handle_idx view with
  | Some idx => check_bounds_impl (module_handles view) idx
  | None => Ok ()
  end.

Definition check_struct_handle (struct_handle : StructHandle) : R () :=
  check_bounds_impl (module_handles view) struct_handle.(StructHandle.module);;
  check_bounds_impl (identifiers view) struct_handle.(StructHandle.name).

Definition check_function_handle (function_handle : FunctionHandle) : R () :=
  check_bounds_impl (module_handles view) function_handle.(FunctionHandle.module);;
  check_bounds_impl (identifiers view) function_handle.(FunctionHandle.name);;
  check_bounds_impl (signatures view) function_handle.(FunctionHandle.parameters);;
  check_bounds_impl (signatures view) function_handle.(FunctionHandle.return_);;
  let type_param_count := length function_handle.(FunctionHandle.type_parameters) in
  check_type_parameters_of function_handle.(FunctionHandle.parameters) type_param_count;;
  check_type_parameters_of function_handle.(FunctionHandle.return_) type_param_count.

Definition check_field_handle (field_handle : FieldHandle) : R () :=
  check_bounds_impl_opt (struct_defs view) field_handle.(FieldHandle.owner);;
  match struct_defs view ≫= (fun d => d !! into_index field_handle.(FieldHandle.owner)) with
  | Some struct_def =>
    let fields_count :=
      match struct_def.(StructDefinition.field_information) with
      | Native => 0
      | Declared fields => zlen fields
      end in
    if fields_count <=? field_handle.(FieldHandle.field) then Err INDEX_OUT_OF_BOUNDS else Ok ()
  | None => Ok ()
  end.

Definition check_struct_instantiation (i : StructDefInstantiation) : R () :=
  check_bounds_impl_opt (struct_defs view) i.(StructDefInstantiation.def);;
  check_bounds_impl (signatures view) i.(StructDefInstantiation.type_parameters).

Definition check_function_instantiation (i : FunctionInstantiation) : R () :=
  check_bounds_impl (function_handles view) i.(FunctionInstantiation.handle);;
  check_bounds_impl (signatures view) i.(FunctionInstantiation.type_parameters).

Definition check_field_instantiation (i : FieldInstantiation) : R () :=
  check_bounds_impl_opt (field_handles view) i.(FieldInstantiation.handle);;
  check_bounds_impl (signatures view) i.(FieldInstantiation.type_parameters).

Definition check_struct_def (struct_def : StructDefinition) : R () :=
  check_bounds_impl (struct_handles view) struct_def.(StructDefinition.struct_handle);;
  match struct_def.(StructDefinition.field_information) with
  | Declared fields =>
    let type_param_count :=
      match struct_handles view !! into_index struct_def.(StructDefinition.struct_handle) with
      | Some sh => length sh.(StructHandle.type_parameters)
      | None => 0%nat
      end in
    res_for fields (fun field =>
      check_bounds_impl (identifiers view) field.(FieldDefinition.name);;
      check_type field.(FieldDefinition.signature);;
      check_type_parameter field.(FieldDefinition.signature) type_param_count)
  | Native => Ok ()
  end.

(** * Code *)

Definition get_locals (code_unit : CodeUnit) : R (list SignatureToken) :=
  ok_or (signatures view !! into_index code_unit.(CodeUnit.locals)) INDEX_OUT_OF_BOUNDS.

(** The body of the loop over the bytecode. *)
Definition check_bytecode (context : BoundsCheckingContext) (type_param_count : nat)
    (code_len locals_count : Z) (bytecode : Bytecode) : R () :=
  match bytecode with
  | Bytecode.LdConst idx => check_code_unit_bounds_impl context (constant_pool view) idx
  | Bytecode.MutBorrowField idx | Bytecode.ImmBorrowField idx =>
    check_code_unit_bounds_impl_opt context (field_handles view) idx
  | Bytecode.MutBorrowFieldGeneric idx | Bytecode.ImmBorrowFieldGeneric idx =>
    check_code_unit_bounds_impl_opt context (field_instantiations view) idx;;
    match field_instantiations view ≫= (fun f => f !! into_index idx) with
    | Some field_inst =>
      check_type_parameters_of field_inst.(FieldInstantiation.type_parameters) type_param_count
    | None => Ok ()
    end
  | Bytecode.Call idx => check_code_unit_bounds_impl context (function_handles view) idx
  | Bytecode.CallGeneric idx =>
    check_code_unit_bounds_impl context (function_instantiations view) idx;;
    match function_instantiations view !! into_index idx with
    | Some func_inst =>
      check_type_parameters_of func_inst.(FunctionInstantiation.type_parameters) type_param_count
    | None => Ok ()
    end
  | Bytecode.Pack idx | Bytecode.Unpack idx | Bytecode.Exists idx
  | Bytecode.ImmBorrowGlobal idx | Bytecode.MutBorrowGlobal idx | Bytecode.MoveFrom idx
  | Bytecode.MoveTo idx => check_code_unit_bounds_impl_opt context (struct_defs view) idx
  | Bytecode.PackGeneric idx | Bytecode.UnpackGeneric idx | Bytecode.ExistsGeneric idx
  | Bytecode.ImmBorrowGlobalGeneric idx | Bytecode.MutBorrowGlobalGeneric idx
  | Bytecode.MoveFromGeneric idx | Bytecode.MoveToGeneric idx =>
    check_code_unit_bounds_impl_opt context (struct_instantiations view) idx;;
    match struct_instantiations view ≫= (fun s => s !! into_index idx) with
    | Some struct_inst =>
      check_type_parameters_of struct_inst.(StructDefInstantiation.type_parameters)
        type_param_count
    | None => Ok ()
    end
  | Bytecode.BrTrue offset | Bytecode.BrFalse offset | Bytecode.Branch offset =>
    if code_len <=? offset then Err (offset_out_of_bounds context INDEX_OUT_OF_BOUNDS) else Ok ()
  | Bytecode.CopyLoc idx | Bytecode.MoveLoc idx | Bytecode.StLoc idx
  | Bytecode.MutBorrowLoc idx | Bytecode.ImmBorrowLoc idx =>
    if locals_count <=? idx then Err (offset_out_of_bounds context INDEX_OUT_OF_BOUNDS) else Ok ()
  | Bytecode.VecPack idx _ | Bytecode.VecLen idx | Bytecode.VecImmBorrow idx
  | Bytecode.VecMutBorrow idx | Bytecode.VecPushBack idx | Bytecode.VecPopBack idx
  | Bytecode.VecUnpack idx _ | Bytecode.VecSwap idx =>
    check_code_unit_bounds_impl context (signatures view) idx;;
    check_type_parameters_of idx type_param_count
  | Bytecode.FreezeRef | Bytecode.Pop | Bytecode.Ret | Bytecode.LdU8 _ | Bytecode.LdU64 _
  | Bytecode.LdU128 _ | Bytecode.CastU8 | Bytecode.CastU64 | Bytecode.CastU128
  | Bytecode.LdTrue | Bytecode.LdFalse | Bytecode.ReadRef | Bytecode.WriteRef | Bytecode.Add
  | Bytecode.Sub | Bytecode.Mul | Bytecode.Mod | Bytecode.Div | Bytecode.BitOr
  | Bytecode.BitAnd | Bytecode.Xor | Bytecode.Shl | Bytecode.Shr | Bytecode.Or | Bytecode.And
  | Bytecode.Not | Bytecode.Eq | Bytecode.Neq | Bytecode.Lt | Bytecode.Gt | Bytecode.Le
  | Bytecode.Ge | Bytecode.Abort | Bytecode.Nop => Ok ()
  end.

Definition check_code (context : BoundsCheckingContext) (code_unit : CodeUnit)
    (type_parameters : list AbilitySet) (parameters : Signature) : R () :=
  check_bounds_impl (signatures view) code_unit.(CodeUnit.locals);;
  locals ← get_locals code_unit;
  let locals_count := zlen locals + zlen parameters in
  let type_param_count := length type_parameters in
  res_for locals (fun local => check_type_parameter local type_param_count);;
  res_for code_unit.(CodeUnit.code)
    (check_bytecode context type_param_count (zlen code_unit.(CodeUnit.code)) locals_count).

Definition check_function_def (function_def_idx : Z) (function_def : FunctionDefinition) : R () :=
  let context := ModuleFunctionContext (function_def_idx mod 2 ^ 16) in
  check_bounds_impl (function_handles view) function_def.(FunctionDefinition.function);;
  res_for function_def.(FunctionDefinition.acquires_global_resources)
    (check_bounds_impl_opt (struct_defs view));;
  match function_def.(FunctionDefinition.code) with
  | None => Ok ()
  | Some code_unit =>
    function_handle ← index (function_handles view) function_def.(FunctionDefinition.function);
    parameters ← index (signatures view) function_handle.(FunctionHandle.parameters);
    locals ← get_locals code_unit;
    let locals_count := zlen locals + zlen (parameters : Signature) in
    if u8_max + 1 <? locals_count then Err TOO_MANY_LOCALS
    else check_code context code_unit function_handle.(FunctionHandle.type_parameters) parameters
  end.

(** * The passes *)

Definition check_signatures : R () := res_for (signatures view) check_signature.
Definition check_constants : R () := res_for (constant_pool view) check_constant.
Definition check_module_handles : R () := res_for (module_handles view) check_module_handle.
Definition check_struct_handles : R () := res_for (struct_handles view) check_struct_handle.
Definition check_function_handles : R () := res_for (function_handles view) check_function_handle.

(** [view.x().into_iter().flatten()] *)
Definition flatten {A} (pool : option (list A)) : list A := default [] pool.

Definition check_field_handles : R () := res_for (flatten (field_handles view)) check_field_handle.
Definition check_friend_decls : R () := res_for (flatten (friend_decls view)) check_module_handle.
Definition check_struct_instantiations : R () :=
  res_for (flatten (struct_instantiations view)) check_struct_instantiation.
Definition check_function_instantiations : R () :=
  res_for (function_instantiations view) check_function_instantiation.
Definition check_field_instantiations : R () :=
  res_for (flatten (field_instantiations view)) check_field_instantiation.
Definition check_struct_defs : R () := res_for (flatten (struct_defs view)) check_struct_def.

(** [enumerate()] *)
Fixpoint check_function_defs_from (function_def_idx : Z) (defs : list FunctionDefinition) : R () :=
  match defs with
  | [] => Ok ()
  | function_def :: defs =>
    check_function_def function_def_idx function_def;;
    check_function_defs_from (function_def_idx + 1) defs
  end.
Definition check_function_defs : R () := check_function_defs_from 0 (flatten (function_defs view)).

Definition verify_impl : R () :=
  check_signatures;;
  check_constants;;
  check_module_handles;;
  check_self_module_handle;;
  check_struct_handles;;
  check_function_handles;;
  check_field_handles;;
  check_friend_decls;;
  check_struct_instantiations;;
  check_function_instantiations;;
  check_field_instantiations;;
  check_struct_defs;;
  check_function_defs.
End checker.

Definition verify_module (module : CompiledModule) : result StatusCode () :=
  let view := Module_ module in
  if Nat.eqb (length (module_handles view)) 0 then Err NO_MODULE_HANDLES
  else verify_impl view.

Definition verify_script (script : CompiledScript) : result StatusCode () :=
  let view := Script_ script in
  verify_impl view;;
  let type_param_count := length script.(CompiledScript.type_parameters) in
  check_bounds_impl (signatures view) script.(CompiledScript.parameters);;
  check_type_parameters_of view script.(CompiledScript.parameters) type_param_count;;
  parameters ← unwrap (signatures view !! into_index script.(CompiledScript.parameters));
  check_code view ScriptContext script.(CompiledScript.code)
    script.(CompiledScript.type_parameters) parameters.
End BoundsChecker.

(** * [CompiledModule::deserialize] and [CompiledScript::deserialize] *)

Definition deserialize_module (binary : list Z) : result StatusCode CompiledModule :=
  module ← deserialize_compiled_module binary;
  BoundsChecker.verify_module module;;
  Ok module.

Definition deserialize_script (binary : list Z) : result StatusCode CompiledScript :=
  script ← deserialize_compiled_script binary;
  BoundsChecker.verify_script script;;
  Ok script.
