(* ===== verification/BoundsSpec.v ===== *)
(** What the bounds checker establishes: a declarative specification of a unit whose
    indices are in bounds, the proof that [verify_module] and [verify_script] accept
    exactly those units, and what the accessors of access.rs may then rely on. *)
From S2P Require Import Prelude StatusCode Abilities Identifier FileFormat BinaryCommon Uleb.
From S2P Require Import Serializer Deserializer DeserializerSafety WellFormed Codec TokenCodec.
From S2P Require Import Access BoundsChecker.
Import BinaryIndexedView BoundsChecker.

(** * The specification *)

(** [idx] points into [pool]. *)
Definition idx_ok {A} (pool : list A) (idx : TableIndex) : Prop :=
  (into_index idx < length pool)%nat.
Definition idx_ok_opt {A} (pool : option (list A)) (idx : TableIndex) : Prop :=
  match pool with Some p => idx_ok p idx | None => True end.

Section spec.
Context (v : BinaryIndexedView).

(** The struct handles of a type exist and it gives each as many type arguments as
    it has parameters. *)
Inductive type_ok : SignatureToken -> Prop :=
| type_ok_bool : type_ok SignatureToken.Bool
| type_ok_u8 : type_ok SignatureToken.U8
| type_ok_u64 : type_ok SignatureToken.U64
| type_ok_u128 : type_ok SignatureToken.U128
| type_ok_address : type_ok SignatureToken.Address
| type_ok_signer : type_ok SignatureToken.Signer
| type_ok_param idx : type_ok (SignatureToken.TypeParameter idx)
| type_ok_vector t : type_ok t -> type_ok (SignatureToken.Vector t)
| type_ok_reference t : type_ok t -> type_ok (SignatureToken.Reference t)
| type_ok_mutable_reference t : type_ok t -> type_ok (SignatureToken.MutableReference t)
| type_ok_struct idx sh :
    struct_handles v !! into_index idx = Some sh ->
    sh.(StructHandle.type_parameters) = [] -> type_ok (SignatureToken.Struct idx)
| type_ok_inst idx args sh :
    struct_handles v !! into_index idx = Some sh ->
    length args = length sh.(StructHandle.type_parameters) ->
    Forall type_ok args -> type_ok (SignatureToken.StructInstantiation idx args).

(** The type parameters of a type are among the [n] in scope. *)
Inductive params_ok (n : nat) : SignatureToken -> Prop :=
| params_ok_param idx : (into_index idx < n)%nat -> params_ok n (SignatureToken.TypeParameter idx)
| params_ok_node t :
    (forall idx, t <> SignatureToken.TypeParameter idx) ->
    Forall (params_ok n) (children t) -> params_ok n t.

(** The types of a signature use only the [n] parameters in scope. *)
Definition signature_params_ok (n : nat) (idx : SignatureIndex) : Prop :=
  forall sig, signatures v !! into_index idx = Some sig -> Forall (params_ok n) sig.

(** An instruction in a body of [code_len] instructions with [locals_count] locals
    and [n] type parameters in scope. *)
Definition instr_ok (n : nat) (code_len locals_count : Z) (b : Bytecode) : Prop :=
  match b with
  | Bytecode.LdConst idx => idx_ok (constant_pool v) idx
  | Bytecode.MutBorrowField idx | Bytecode.ImmBorrowField idx => idx_ok_opt (field_handles v) idx
  | Bytecode.MutBorrowFieldGeneric idx | Bytecode.ImmBorrowFieldGeneric idx =>
    idx_ok_opt (field_instantiations v) idx /\
    forall l fi, field_instantiations v = Some l -> l !! into_index idx = Some fi ->
      signature_params_ok n fi.(FieldInstantiation.type_parameters)
  | Bytecode.Call idx => idx_ok (function_handles v) idx
  | Bytecode.CallGeneric idx =>
    idx_ok (function_instantiations v) idx /\
    forall fi, function_instantiations v !! into_index idx = Some fi ->
      signature_params_ok n fi.(FunctionInstantiation.type_parameters)
  | Bytecode.Pack idx | Bytecode.Unpack idx | Bytecode.Exists idx
  | Bytecode.ImmBorrowGlobal idx | Bytecode.MutBorrowGlobal idx | Bytecode.MoveFrom idx
  | Bytecode.MoveTo idx => idx_ok_opt (struct_defs v) idx
  | Bytecode.PackGeneric idx | Bytecode.UnpackGeneric idx | Bytecode.ExistsGeneric idx
  | Bytecode.ImmBorrowGlobalGeneric idx | Bytecode.MutBorrowGlobalGeneric idx
  | Bytecode.MoveFromGeneric idx | Bytecode.MoveToGeneric idx =>
    idx_ok_opt (struct_instantiations v) idx /\
    forall l si, struct_instantiations v = Some l -> l !! into_index idx = Some si ->
      signature_params_ok n si.(StructDefInstantiation.type_parameters)
  | Bytecode.BrTrue offset | Bytecode.BrFalse offset | Bytecode.Branch offset => offset < code_len
  | Bytecode.CopyLoc idx | Bytecode.MoveLoc idx | Bytecode.StLoc idx
  | Bytecode.MutBorrowLoc idx | Bytecode.ImmBorrowLoc idx => idx < locals_count
  | Bytecode.VecPack idx _ | Bytecode.VecLen idx | Bytecode.VecImmBorrow idx
  | Bytecode.VecMutBorrow idx | Bytecode.VecPushBack idx | Bytecode.VecPopBack idx
  | Bytecode.VecUnpack idx _ | Bytecode.VecSwap idx =>
    idx_ok (signatures v) idx /\ signature_params_ok n idx
  | _ => True
  end.

Definition module_handle_ok (h : ModuleHandle) : Prop :=
  idx_ok (address_identifiers v) h.(ModuleHandle.address) /\
  idx_ok (identifiers v) h.(ModuleHandle.name).

Definition struct_handle_ok (h : StructHandle) : Prop :=
  idx_ok (module_handles v) h.(StructHandle.module) /\
  idx_ok (identifiers v) h.(StructHandle.name).

Definition function_handle_ok (h : FunctionHandle) : Prop :=
  idx_ok (module_handles v) h.(FunctionHandle.module) /\
  idx_ok (identifiers v) h.(FunctionHandle.name) /\
  idx_ok (signatures v) h.(FunctionHandle.parameters) /\
  idx_ok (signatures v) h.(FunctionHandle.return_) /\
  let n := length h.(FunctionHandle.type_parameters) in
  signature_params_ok n h.(FunctionHandle.parameters) /\
  signature_params_ok n h.(FunctionHandle.return_).

Definition field_count (d : StructDefinition) : Z :=
  match d.(StructDefinition.field_information) with Native => 0 | Declared fs => zlen fs end.

Definition field_handle_ok (h : FieldHandle) : Prop :=
  idx_ok_opt (struct_defs v) h.(FieldHandle.owner) /\
  forall l d, struct_defs v = Some l -> l !! into_index h.(FieldHandle.owner) = Some d ->
    h.(FieldHandle.field) < field_count d.

Definition struct_instantiation_ok (i : StructDefInstantiation) : Prop :=
  idx_ok_opt (struct_defs v) i.(StructDefInstantiation.def) /\
  idx_ok (signatures v) i.(StructDefInstantiation.type_parameters).

Definition function_instantiation_ok (i : FunctionInstantiation) : Prop :=
  idx_ok (function_handles v) i.(FunctionInstantiation.handle) /\
  idx_ok (signatures v) i.(FunctionInstantiation.type_parameters).

Definition field_instantiation_ok (i : FieldInstantiation) : Prop :=
  idx_ok_opt (field_handles v) i.(FieldInstantiation.handle) /\
  idx_ok (signatures v) i.(FieldInstantiation.type_parameters).

Definition struct_def_ok (d : StructDefinition) : Prop :=
  exists sh, struct_handles v !! into_index d.(StructDefinition.struct_handle) = Some sh /\
    forall fs, d.(StructDefinition.field_information) = Declared fs ->
      Forall (fun f => idx_ok (identifiers v) f.(FieldDefinition.name) /\
                type_ok f.(FieldDefinition.signature) /\
                params_ok (length sh.(StructHandle.type_parameters)) f.(FieldDefinition.signature))
        fs.

(** A body, given the type parameters and the parameters of its function. *)
Definition code_ok (c : CodeUnit) (type_parameters : list AbilitySet) (parameters : Signature) :
    Prop :=
  exists locals, signatures v !! into_index c.(CodeUnit.locals) = Some locals /\
    Forall (params_ok (length type_parameters)) locals /\
    Forall (instr_ok (length type_parameters) (zlen c.(CodeUnit.code))
              (zlen locals + zlen parameters)) c.(CodeUnit.code).

Definition function_def_ok (d : FunctionDefinition) : Prop :=
  idx_ok (function_handles v) d.(FunctionDefinition.function) /\
  Forall (idx_ok_opt (struct_defs v)) d.(FunctionDefinition.acquires_global_resources) /\
  forall c, d.(FunctionDefinition.code) = Some c ->
    exists h (parameters locals : Signature),
      function_handles v !! into_index d.(FunctionDefinition.function) = Some h /\
      signatures v !! into_index h.(FunctionHandle.parameters) = Some parameters /\
      signatures v !! into_index c.(CodeUnit.locals) = Some locals /\
      zlen locals + zlen parameters <= 256 /\
      code_ok c h.(FunctionHandle.type_parameters) parameters.

Record in_bounds : Prop := {
  signatures_in : Forall (Forall type_ok) (signatures v);
  constants_in : Forall (fun c => type_ok c.(Constant.type_)) (constant_pool v);
  module_handles_in : Forall module_handle_ok (module_handles v);
  self_handle_in : forall idx, self_handle_idx v = Some idx -> idx_ok (module_handles v) idx;
  struct_handles_in : Forall struct_handle_ok (struct_handles v);
  function_handles_in : Forall function_handle_ok (function_handles v);
  field_handles_in : Forall field_handle_ok (flatten (field_handles v));
  friend_decls_in : Forall module_handle_ok (flatten (friend_decls v));
  struct_instantiations_in :
    Forall struct_instantiation_ok (flatten (struct_instantiations v));
  function_instantiations_in : Forall function_instantiation_ok (function_instantiations v);
  field_instantiations_in : Forall field_instantiation_ok (flatten (field_instantiations v));
  struct_defs_in : Forall struct_def_ok (flatten (struct_defs v));
  function_defs_in : Forall function_def_ok (flatten (function_defs v)) }.
End spec.

Definition script_in_bounds (s : CompiledScript) : Prop :=
  in_bounds (Script_ s) /\
  exists parameters,
    s.(CompiledScript.signatures) !! into_index s.(CompiledScript.parameters) = Some parameters /\
    Forall (params_ok (length s.(CompiledScript.type_parameters))) parameters /\
    code_ok (Script_ s) s.(CompiledScript.code) s.(CompiledScript.type_parameters) parameters.

(** * Pools *)

Lemma check_bounds_impl_ok {A} (pool : list A) idx :
  check_bounds_impl pool idx = Ok () <-> idx_ok pool idx.
Proof.
  unfold check_bounds_impl, idx_ok. destruct (Nat.leb_spec (length pool) (into_index idx));
    split; intros; try done; lia.
Qed.

Lemma check_bounds_impl_opt_ok {A} (pool : option (list A)) idx :
  check_bounds_impl_opt pool idx = Ok () <-> idx_ok_opt pool idx.
Proof. destruct pool; simpl; [apply check_bounds_impl_ok|done]. Qed.

Lemma check_code_unit_bounds_impl_ok {A} ctx (pool : list A) idx :
  check_code_unit_bounds_impl ctx pool idx = Ok () <-> idx_ok pool idx.
Proof.
  unfold check_code_unit_bounds_impl, idx_ok.
  destruct (Nat.leb_spec (length pool) (into_index idx)); split; intros; try done; lia.
Qed.

Lemma check_code_unit_bounds_impl_opt_ok {A} ctx (pool : option (list A)) idx :
  check_code_unit_bounds_impl_opt ctx pool idx = Ok () <-> idx_ok_opt pool idx.
Proof. destruct pool; simpl; [apply check_code_unit_bounds_impl_ok|done]. Qed.

Lemma seq_ok {E} (a b : result E ()) : (a;; b) = Ok () <-> a = Ok () /\ b = Ok ().
Proof. destruct a as [[]| | |]; simpl; naive_solver. Qed.

Lemma idx_ok_lookup {A} (pool : list A) idx :
  idx_ok pool idx <-> exists x, pool !! into_index idx = Some x.
Proof. unfold idx_ok. rewrite <- lookup_lt_is_Some. done. Qed.

Lemma res_for_spec {E A} (l : list A) (f : A -> result E ()) (P : A -> Prop) :
  (forall x, f x = Ok () <-> P x) -> res_for l f = Ok () <-> Forall P l.
Proof.
  intros H. rewrite res_for_ok. split; intros Hl; eapply Forall_impl; try exact Hl;
    intros x Hx; by apply H.
Qed.

(** * Types *)

Lemma preorder_traversal_ref t : SignatureToken.preorder_traversal t = map fst (preorder 1 t).
Proof.
  unfold SignatureToken.preorder_traversal. rewrite (iterate_next _ _ [1]) by done.
  simpl zip. by rewrite <- preorder_traversal_with_depth_ref.
Qed.

(** A check of every node of a token, by recursion on the token. *)
Lemma check_preorder {E} (f : SignatureToken -> result E ()) d t :
  res_for (map fst (preorder d t)) f = Ok () <->
  f t = Ok () /\ Forall (fun c => res_for (map fst (preorder (d + 1) c)) f = Ok ()) (children t).
Proof.
  rewrite preorder_children. cbn [map fst res_for]. rewrite seq_ok. apply and_iff_compat_l.
  rewrite res_for_ok. induction (children t) as [|c l IH]; cbn [flat_map]; [split; constructor|].
  rewrite map_app, Forall_app, Forall_cons_iff, IH, res_for_ok. done.
Qed.

(** A struct handle with the right number of type parameters. *)
Lemma check_struct_node v idx n :
  (check_bounds_impl (struct_handles v) idx;;
   match struct_handles v !! into_index idx with
   | Some sh =>
     if negb (Nat.eqb (length sh.(StructHandle.type_parameters)) n)
     then Err NUMBER_OF_TYPE_ARGUMENTS_MISMATCH else Ok ()
   | None => Ok ()
   end) = Ok () <->
  exists sh, struct_handles v !! into_index idx = Some sh /\
    length sh.(StructHandle.type_parameters) = n.
Proof.
  rewrite seq_ok, check_bounds_impl_ok, idx_ok_lookup. split.
  - intros [[sh E] H]. exists sh. rewrite E in H. split; [done|].
    destruct (Nat.eqb_spec (length sh.(StructHandle.type_parameters)) n); [done|discriminate].
  - intros (sh & E & <-). split; [by exists sh|]. by rewrite E, Nat.eqb_refl.
Qed.

Lemma check_type_ok v t : check_type v t = Ok () <-> type_ok v t.
Proof.
  unfold check_type. rewrite preorder_traversal_ref. generalize 1 as d.
  induction t as [ | | | | | |tok IH|idx|idx toks IH|tok IH|tok IH|idx]
    using SignatureToken.token_ind; intros d; rewrite check_preorder; cbn [children check_type_node].
  1-6,12: split; [intros _; constructor|intros _; split; [done|constructor]].
  1,4,5: rewrite Forall_cons_iff, IH; split; [intros (_ & ? & _); by constructor|];
    intros H; inversion H; subst; by repeat split; auto.
  - rewrite check_struct_node. split.
    + intros [(sh & E & Hn) _]. econstructor; [done|].
      by destruct (StructHandle.type_parameters sh).
    + intros H. inversion H as [| | | | | | | | | |? sh E Hp|]; subst.
      split; [|constructor]. exists sh. by rewrite Hp.
  - rewrite check_struct_node.
    assert (Forall (fun c => res_for (map fst (preorder (d + 1) c)) (check_type_node v) = Ok ()) toks
            <-> Forall (type_ok v) toks) as ->.
    { rewrite !Forall_forall in *. split; intros H x Hx; by apply (IH x Hx (d + 1)), H. }
    split.
    + intros [(sh & E & Hn) Ha]. by econstructor.
    + intros H. inversion H as [| | | | | | | | | | |? ? sh E Hn Ha]; subst.
      split; [|done]. by exists sh.
Qed.

Lemma params_ok_children n t :
  params_ok n t -> (forall idx, t <> SignatureToken.TypeParameter idx) ->
  Forall (params_ok n) (children t).
Proof. intros Hp Hne. destruct Hp as [idx _|t _ Hc]; [by destruct (Hne idx)|done]. Qed.

Lemma check_type_parameter_ok n t : check_type_parameter t n = Ok () <-> params_ok n t.
Proof.
  unfold check_type_parameter. rewrite preorder_traversal_ref. generalize 1 as d.
  induction t as [ | | | | | |tok IH|idx|idx toks IH|tok IH|tok IH|idx]
    using SignatureToken.token_ind; intros d; rewrite check_preorder;
    cbn [children check_type_parameter_node].
  1-6,8: split; [intros _; by constructor 2|intros _; split; [done|constructor]].
  1,3,4: rewrite Forall_cons_iff, IH; split;
    [intros (_ & ? & _); constructor 2; [done|by constructor; [|constructor]]
    |intros Hp%params_ok_children; [|done]; apply Forall_cons_iff in Hp as [? _];
     split; [done|by split]].
  - assert (Forall (fun c => res_for (map fst (preorder (d + 1) c)) (check_type_parameter_node n)
              = Ok ()) toks <-> Forall (params_ok n) toks) as ->.
    { rewrite !Forall_forall in *. split; intros H x Hx; by apply (IH x Hx (d + 1)), H. }
    split; [intros [_ H]; by constructor 2|]. intros Hp%params_ok_children; done.
  - destruct (Nat.leb_spec n (into_index idx)).
    + split; [by intros [? _]|]. intros H1. inversion H1 as [? Hi|? Hne ?]; subst; [lia|].
      exfalso. by eapply Hne.
    + split; [intros _; by constructor|]. intros _. split; [done|constructor].
Qed.

Lemma check_type_parameters_of_ok v idx n :
  check_type_parameters_of v idx n = Ok () <-> signature_params_ok v n idx.
Proof.
  unfold check_type_parameters_of, signature_params_ok.
  destruct (signatures v !! into_index idx) as [sig|].
  - rewrite (res_for_spec _ _ (params_ok n)) by (intros x; apply check_type_parameter_ok).
    naive_solver.
  - naive_solver.
Qed.

(** * Tables *)

Create HintDb bounds.
#[export] Hint Rewrite @seq_ok @check_bounds_impl_ok @check_bounds_impl_opt_ok
  @check_code_unit_bounds_impl_ok @check_code_unit_bounds_impl_opt_ok check_type_ok
  check_type_parameter_ok check_type_parameters_of_ok : bounds.

Lemma check_module_handle_ok v h : check_module_handle v h = Ok () <-> module_handle_ok v h.
Proof. unfold check_module_handle. by autorewrite with bounds. Qed.

Lemma check_struct_handle_ok v h : check_struct_handle v h = Ok () <-> struct_handle_ok v h.
Proof. unfold check_struct_handle. by autorewrite with bounds. Qed.

Lemma check_function_handle_ok v h : check_function_handle v h = Ok () <-> function_handle_ok v h.
Proof. unfold check_function_handle, function_handle_ok. cbv zeta. by autorewrite with bounds. Qed.

Lemma check_field_handle_ok v h : check_field_handle v h = Ok () <-> field_handle_ok v h.
Proof.
  unfold check_field_handle, field_handle_ok. autorewrite with bounds. apply and_iff_compat_l.
  destruct (struct_defs v) as [l|]; simpl; [|naive_solver].
  destruct (l !! _) as [d|] eqn:E; [|naive_solver]. fold (field_count d).
  destruct (Z.leb_spec (field_count d) h.(FieldHandle.field)); split; try done; try naive_solver.
  intros Hx. specialize (Hx l d eq_refl E). lia.
Qed.

Lemma check_struct_instantiation_ok v i :
  check_struct_instantiation v i = Ok () <-> struct_instantiation_ok v i.
Proof. unfold check_struct_instantiation. by autorewrite with bounds. Qed.

Lemma check_function_instantiation_ok v i :
  check_function_instantiation v i = Ok () <-> function_instantiation_ok v i.
Proof. unfold check_function_instantiation. by autorewrite with bounds. Qed.

Lemma check_field_instantiation_ok v i :
  check_field_instantiation v i = Ok () <-> field_instantiation_ok v i.
Proof. unfold check_field_instantiation. by autorewrite with bounds. Qed.

Lemma check_struct_def_ok v d : check_struct_def v d = Ok () <-> struct_def_ok v d.
Proof.
  unfold check_struct_def, struct_def_ok. rewrite seq_ok, check_bounds_impl_ok, idx_ok_lookup.
  destruct (struct_handles v !! _) as [sh|] eqn:E; [|naive_solver].
  destruct d.(StructDefinition.field_information) as [|fs].
  - split; [intros _; exists sh; by split|]. intros _. split; [by exists sh|done].
  - rewrite (res_for_spec _ _ (fun f => idx_ok (identifiers v) f.(FieldDefinition.name) /\
      type_ok v f.(FieldDefinition.signature) /\
      params_ok (length sh.(StructHandle.type_parameters)) f.(FieldDefinition.signature)))
      by (intros f; by autorewrite with bounds).
    naive_solver.
Qed.

(** * Code *)

(** An optional pool and what the checker asks of the entry it finds. *)
Lemma opt_entry_ok {A} (pool : option (list A)) idx (f : A -> result StatusCode ()) (P : A -> Prop) :
  (forall x, f x = Ok () <-> P x) ->
  match pool ≫= (fun l => l !! into_index idx) with Some x => f x | None => Ok () end = Ok () <->
  (forall l x, pool = Some l -> l !! into_index idx = Some x -> P x).
Proof.
  intros Hf. destruct pool as [l|]; simpl; [|naive_solver].
  destruct (l !! into_index idx) as [x|] eqn:E; [rewrite Hf|]; naive_solver.
Qed.

Lemma entry_ok {A} (pool : list A) idx (f : A -> result StatusCode ()) (P : A -> Prop) :
  (forall x, f x = Ok () <-> P x) ->
  match pool !! into_index idx with Some x => f x | None => Ok () end = Ok () <->
  (forall x, pool !! into_index idx = Some x -> P x).
Proof.
  intros Hf. destruct (pool !! into_index idx) as [x|] eqn:E; [rewrite Hf|]; naive_solver.
Qed.

Lemma leb_err_ok (a b : Z) (e : StatusCode) :
  (if a <=? b then Err e else Ok ()) = Ok () <-> b < a.
Proof. destruct (Z.leb_spec a b); split; try done; lia. Qed.

Lemma check_bytecode_ok v ctx n code_len locals_count b :
  check_bytecode v ctx n code_len locals_count b = Ok () <-> instr_ok v n code_len locals_count b.
Proof.
  destruct b; cbn [check_bytecode instr_ok]; try done;
    rewrite ?leb_err_ok, ?seq_ok, ?check_code_unit_bounds_impl_ok,
      ?check_code_unit_bounds_impl_opt_ok, ?check_type_parameters_of_ok; try done;
    apply and_iff_compat_l;
    first [ apply opt_entry_ok | apply entry_ok ]; intros x; apply check_type_parameters_of_ok.
Qed.

Lemma get_locals_ok v c locals :
  get_locals v c = Ok locals <-> signatures v !! into_index c.(CodeUnit.locals) = Some locals.
Proof. unfold get_locals. destruct (signatures v !! _); simpl; naive_solver. Qed.

Lemma check_code_ok v ctx c type_parameters parameters :
  check_code v ctx c type_parameters parameters = Ok () <-> code_ok v c type_parameters parameters.
Proof.
  unfold check_code, code_ok. rewrite seq_ok, check_bounds_impl_ok, idx_ok_lookup.
  assert (forall locals,
    (res_for locals (fun local => check_type_parameter local (length type_parameters));;
     res_for c.(CodeUnit.code) (check_bytecode v ctx (length type_parameters)
       (zlen c.(CodeUnit.code)) (zlen locals + zlen parameters))) = Ok () <->
    Forall (params_ok (length type_parameters)) locals /\
    Forall (instr_ok v (length type_parameters) (zlen c.(CodeUnit.code))
              (zlen locals + zlen parameters)) c.(CodeUnit.code)) as Hbody.
  { intros locals. rewrite seq_ok.
    rewrite (res_for_spec locals _ _ (check_type_parameter_ok (length type_parameters))).
    by rewrite (res_for_spec _ _ _
      (check_bytecode_ok v ctx (length type_parameters) _ (zlen locals + zlen parameters))). }
  split.
  - intros [_ H]. apply res_bind_ok in H as (locals & Hl%get_locals_ok & H).
    exists locals. split; [done|]. by apply Hbody.
  - intros (locals & Hl & H). split; [eauto|]. apply get_locals_ok in Hl. rewrite Hl.
    by apply Hbody.
Qed.

Lemma index_ok {A} (pool : list A) idx x :
  index (E:=StatusCode) pool idx = Ok x <-> pool !! into_index idx = Some x.
Proof. unfold index. destruct (pool !! _); simpl; naive_solver. Qed.

Lemma check_function_def_ok v i d : check_function_def v i d = Ok () <-> function_def_ok v d.
Proof.
  unfold check_function_def, function_def_ok. cbv zeta.
  rewrite !seq_ok, check_bounds_impl_ok.
  rewrite (res_for_spec _ _ (idx_ok_opt (struct_defs v)))
    by (intros x; apply check_bounds_impl_opt_ok).
  do 2 apply and_iff_compat_l. destruct d.(FunctionDefinition.code) as [c|]; [|naive_solver].
  split.
  - intros H c' [= <-].
    apply res_bind_ok in H as (h & Hh%index_ok & H).
    apply res_bind_ok in H as (ps & Hp%index_ok & H).
    apply res_bind_ok in H as (locals & Hl%get_locals_ok & H).
    destruct (Z.ltb_spec (u8_max + 1) (zlen locals + zlen ps)); [done|].
    exists h, ps, locals. apply check_code_ok in H. unfold u8_max in *. auto with lia.
  - intros H. destruct (H c eq_refl) as (h & ps & locals & Hh & Hp & Hl & Hc & H').
    apply index_ok in Hh, Hp. apply get_locals_ok in Hl. rewrite Hh. cbn [mbind result_bind].
    rewrite Hp. cbn [mbind result_bind]. rewrite Hl. cbn [mbind result_bind]. destruct (Z.ltb_spec (u8_max + 1) (zlen locals + zlen ps));
      [unfold u8_max in *; lia|]. by apply check_code_ok.
Qed.

Lemma check_function_defs_ok v : check_function_defs v = Ok () <->
  Forall (function_def_ok v) (flatten (function_defs v)).
Proof.
  unfold check_function_defs. generalize 0 as i.
  induction (flatten (function_defs v)) as [|d l IH]; intros i; simpl; [split; auto|].
  by rewrite seq_ok, Forall_cons_iff, check_function_def_ok, IH.
Qed.

(** * The checker against the specification *)

Lemma check_self_module_handle_ok v :
  check_self_module_handle v = Ok () <->
  (forall idx, self_handle_idx v = Some idx -> idx_ok (module_handles v) idx).
Proof.
  unfold check_self_module_handle. destruct (self_handle_idx v) as [idx|]; [|naive_solver].
  rewrite check_bounds_impl_ok. naive_solver.
Qed.

Lemma verify_impl_ok v : verify_impl v = Ok () <-> in_bounds v.
Proof.
  unfold verify_impl, check_signatures, check_constants, check_module_handles,
    check_struct_handles, check_function_handles, check_field_handles, check_friend_decls,
    check_struct_instantiations, check_function_instantiations, check_field_instantiations,
    check_struct_defs.
  rewrite !seq_ok, check_self_module_handle_ok, check_function_defs_ok.
  rewrite (res_for_spec _ _ (Forall (type_ok v))) by (intros s; apply res_for_spec, check_type_ok).
  rewrite (res_for_spec _ _ (fun c => type_ok v c.(Constant.type_))) by (intros c; apply check_type_ok).
  rewrite !(res_for_spec _ _ _ (check_module_handle_ok v)).
  rewrite (res_for_spec _ _ _ (check_struct_handle_ok v)).
  rewrite (res_for_spec _ _ _ (check_function_handle_ok v)).
  rewrite (res_for_spec _ _ _ (check_field_handle_ok v)).
  rewrite (res_for_spec _ _ _ (check_struct_instantiation_ok v)).
  rewrite (res_for_spec _ _ _ (check_function_instantiation_ok v)).
  rewrite (res_for_spec _ _ _ (check_field_instantiation_ok v)).
  rewrite (res_for_spec _ _ _ (check_struct_def_ok v)).
  split; [intros H; destruct_and!; by constructor|]. intros []. tauto.
Qed.

Lemma verify_module_ok m :
  verify_module m = Ok () <-> m.(CompiledModule.module_handles) <> [] /\ in_bounds (Module_ m).
Proof.
  unfold verify_module. cbn [module_handles].
  destruct m.(CompiledModule.module_handles) as [|h l] eqn:E; simpl.
  - split; [done|]. by intros [? _].
  - rewrite verify_impl_ok. split; [by split|]. by intros [_ ?].
Qed.

Lemma verify_script_ok s : verify_script s = Ok () <-> script_in_bounds s.
Proof.
  unfold verify_script, script_in_bounds. rewrite !seq_ok, verify_impl_ok, check_bounds_impl_ok,
    idx_ok_lookup, check_type_parameters_of_ok. apply and_iff_compat_l.
  unfold signature_params_ok. cbn [signatures].
  destruct (s.(CompiledScript.signatures) !! _) as [ps|]; simpl.
  - rewrite check_code_ok. naive_solver.
  - naive_solver.
Qed.

(** * Safety *)

Lemma safe_seq {E} (a b : result E ()) : safe a -> (a = Ok () -> safe b) -> safe (a;; b).
Proof. intros Ha Hb. apply safe_bind; [done|]. intros [] E1. auto. Qed.

Lemma res_for_safe {E A} (l : list A) (f : A -> result E ()) :
  (forall x, x ∈ l -> safe (f x)) -> safe (res_for l f).
Proof.
  induction l as [|x l IH]; intros H; simpl; [done|]. apply safe_seq.
  - apply H. by left.
  - intros _. apply IH. intros y Hy. apply H. by right.
Qed.

Create HintDb safe.
#[export] Hint Resolve safe_seq res_for_safe : safe.
Ltac safe_auto :=
  repeat (first [ done | apply safe_seq; [|intros ?] | apply res_for_safe; intros ? ?
                | progress case_match ]).

Lemma check_bounds_impl_safe {A} (pool : list A) idx : safe (check_bounds_impl pool idx).
Proof. unfold check_bounds_impl. by case_match. Qed.
Lemma check_bounds_impl_opt_safe {A} (pool : option (list A)) idx :
  safe (check_bounds_impl_opt pool idx).
Proof. destruct pool; [apply check_bounds_impl_safe|done]. Qed.
Lemma check_code_unit_bounds_impl_safe {A} ctx (pool : list A) idx :
  safe (check_code_unit_bounds_impl ctx pool idx).
Proof. unfold check_code_unit_bounds_impl. by case_match. Qed.
Lemma check_code_unit_bounds_impl_opt_safe {A} ctx (pool : option (list A)) idx :
  safe (check_code_unit_bounds_impl_opt ctx pool idx).
Proof. destruct pool; [apply check_code_unit_bounds_impl_safe|done]. Qed.

Lemma check_type_safe v t : safe (check_type v t).
Proof.
  apply res_for_safe. intros x _. destruct x; try done;
    (apply safe_seq; [apply check_bounds_impl_safe|]; intros _; by repeat case_match).
Qed.

Lemma check_type_parameter_safe t n : safe (check_type_parameter t n).
Proof. apply res_for_safe. intros x _. destruct x; try done. simpl. by case_match. Qed.

Lemma check_type_parameters_of_safe v idx n : safe (check_type_parameters_of v idx n).
Proof.
  unfold check_type_parameters_of. case_match; [|done].
  apply res_for_safe. intros x _. apply check_type_parameter_safe.
Qed.

#[export] Hint Resolve check_bounds_impl_safe check_bounds_impl_opt_safe
  check_code_unit_bounds_impl_safe check_code_unit_bounds_impl_opt_safe check_type_safe
  check_type_parameter_safe check_type_parameters_of_safe : safe.

Lemma check_bytecode_safe v ctx n code_len locals_count b :
  safe (check_bytecode v ctx n code_len locals_count b).
Proof.
  destruct b; cbn [check_bytecode]; auto with safe; try done; try (by case_match);
    (apply safe_seq; [auto with safe|intros _]; repeat case_match; auto with safe; done).
Qed.

Lemma check_code_safe v ctx c tps ps : safe (check_code v ctx c tps ps).
Proof.
  unfold check_code. apply safe_seq; [auto with safe|]. intros _.
  apply safe_bind; [unfold get_locals; by destruct (_ !! _)|]. intros locals _.
  apply safe_seq; [apply res_for_safe; auto with safe|]. intros _.
  apply res_for_safe. intros b _. apply check_bytecode_safe.
Qed.

(** Indexing the tables in [check_function_def] cannot go wrong once the handles
    have been checked. *)
Lemma check_function_def_safe v i d :
  Forall (function_handle_ok v) (function_handles v) -> safe (check_function_def v i d).
Proof.
  intros Hf. unfold check_function_def. cbv zeta. apply safe_seq; [auto with safe|].
  intros H%check_bounds_impl_ok. apply safe_seq; [apply res_for_safe; auto with safe|]. intros _.
  destruct d.(FunctionDefinition.code) as [c|]; [|done].
  apply idx_ok_lookup in H as [h Hh]. pose proof Hh as Hi. apply index_ok in Hi. rewrite Hi.
  cbn [mbind result_bind].
  apply list_elem_of_lookup_2, list_elem_of_In in Hh. rewrite Forall_forall in Hf.
  destruct (Hf h Hh) as (_ & _ & Hp & _).
  apply idx_ok_lookup in Hp as [ps Hp]. apply index_ok in Hp. rewrite Hp.
  cbn [mbind result_bind].
  apply safe_bind; [unfold get_locals; by destruct (_ !! _)|]. intros locals _.
  case_match; [done|]. apply check_code_safe.
Qed.

Lemma check_field_handle_safe v h : safe (check_field_handle v h).
Proof.
  unfold check_field_handle. apply safe_seq; [auto with safe|intros _].
  destruct (struct_defs v ≫= _); [|done]. cbv zeta. by destruct (_ <=? _).
Qed.

Lemma verify_impl_safe v : safe (verify_impl v).
Proof.
  unfold verify_impl.
  do 3 (apply safe_seq; [apply res_for_safe; intros; unfold check_signature, check_constant,
    check_module_handle; eauto with safe|intros _]).
  apply safe_seq; [unfold check_self_module_handle; case_match; auto with safe; done|intros _].
  apply safe_seq; [apply res_for_safe; intros; apply safe_seq; auto with safe|intros _].
  apply safe_seq; [apply res_for_safe; intros; unfold check_function_handle; cbv zeta;
    eauto 10 with safe|].
  intros Hf%(res_for_spec _ _ _ (check_function_handle_ok v)).
  apply safe_seq; [apply res_for_safe; intros; apply check_field_handle_safe|intros _].
  do 4 (apply safe_seq; [apply res_for_safe; intros; apply safe_seq; auto with safe|intros _]).
  apply safe_seq.
  - apply res_for_safe. intros d _. apply safe_seq; [auto with safe|intros _].
    case_match; [done|]. apply res_for_safe. intros; eauto with safe.
  - intros _. unfold check_function_defs. generalize 0 as i.
    induction (flatten (function_defs v)) as [|d l IH]; intros i; simpl; [done|].
    apply safe_seq; [by apply check_function_def_safe|]. intros _. apply IH.
Qed.

Lemma verify_module_safe m : safe (verify_module m).
Proof. unfold verify_module. case_match; [done|]. apply verify_impl_safe. Qed.

Lemma verify_script_safe s : safe (verify_script s).
Proof.
  unfold verify_script. apply safe_seq; [apply verify_impl_safe|intros _].
  apply safe_seq; [auto with safe|]. intros Hp%check_bounds_impl_ok.
  apply safe_seq; [auto with safe|]. intros _. apply idx_ok_lookup in Hp as [ps Hp].
  rewrite Hp. apply check_code_safe.
Qed.

(** * What the accessors may rely on *)

Section accessors.
Context (m : CompiledModule) (Hin : in_bounds (Module_ m)).

Lemma in_pool_true {A} (pool : list A) idx : idx_ok pool idx -> in_pool pool idx = true.
Proof. intros H. by apply Nat.ltb_lt. Qed.

Lemma index_in {A} (pool : list A) (P : A -> Prop) idx :
  Forall P pool -> idx_ok pool idx -> exists x, index (E:=StatusCode) pool idx = Ok x /\ P x.
Proof.
  intros HP [x Hx]%idx_ok_lookup. exists x. split; [by apply index_ok|].
  rewrite Forall_forall in HP. by apply HP, list_elem_of_In, list_elem_of_lookup_2 with (into_index idx).
Qed.

Lemma index_ok_ex {A} (pool : list A) idx : idx_ok pool idx -> exists x, index (E:=StatusCode) pool idx = Ok x.
Proof. intros [x Hx]%idx_ok_lookup. exists x. by apply index_ok. Qed.

Lemma module_handle_at_ok idx :
  idx_ok m.(CompiledModule.module_handles) idx ->
  exists h, ModuleAccess.module_handle_at m idx = Ok h /\ module_handle_ok (Module_ m) h.
Proof.
  intros Hi. destruct (index_in _ _ idx (module_handles_in _ Hin) Hi) as (h & E & Ha & Hn).
  exists h. unfold ModuleAccess.module_handle_at. cbn [module_handles] in E. rewrite E. simpl.
  by rewrite !in_pool_true.
Qed.

Lemma struct_handle_at_ok idx :
  idx_ok m.(CompiledModule.struct_handles) idx ->
  exists h, ModuleAccess.struct_handle_at m idx = Ok h /\ struct_handle_ok (Module_ m) h.
Proof.
  intros Hi. destruct (index_in _ _ idx (struct_handles_in _ Hin) Hi) as (h & E & Hm & Hn).
  exists h. unfold ModuleAccess.struct_handle_at. cbn [struct_handles] in E. rewrite E. simpl.
  by rewrite !in_pool_true.
Qed.

Lemma function_handle_at_ok idx :
  idx_ok m.(CompiledModule.function_handles) idx ->
  exists h, ModuleAccess.function_handle_at m idx = Ok h.
Proof.
  intros Hi. destruct (index_in _ _ idx (function_handles_in _ Hin) Hi)
    as (h & E & _ & _ & Hp & Hr & _).
  exists h. unfold ModuleAccess.function_handle_at. cbn [function_handles] in E. rewrite E. simpl.
  by rewrite !in_pool_true.
Qed.

Lemma field_handle_at_ok idx :
  idx_ok m.(CompiledModule.field_handles) idx ->
  exists h, ModuleAccess.field_handle_at m idx = Ok h.
Proof.
  intros Hi. destruct (index_in _ _ idx (field_handles_in _ Hin) Hi) as (h & E & Ho & _).
  exists h. unfold ModuleAccess.field_handle_at. 
  change (flatten (field_handles (Module_ m))) with (CompiledModule.field_handles m) in E.
  rewrite E. simpl. by rewrite in_pool_true.
Qed.

Lemma function_def_at_ok idx :
  idx_ok m.(CompiledModule.function_defs) idx ->
  exists d, ModuleAccess.function_def_at m idx = Ok d.
Proof.
  intros Hi. destruct (index_in _ _ idx (function_defs_in _ Hin) Hi) as (d & E & Hf & _ & Hc).
  exists d. unfold ModuleAccess.function_def_at. 
  change (flatten (function_defs (Module_ m))) with (CompiledModule.function_defs m) in E.
  rewrite E. simpl.
  rewrite in_pool_true by done. simpl. destruct (FunctionDefinition.code d) as [c|]; [|done].
  destruct (Hc c eq_refl) as (_ & _ & locals & _ & _ & Hl & _).
  rewrite in_pool_true; [done|]. apply idx_ok_lookup. by exists locals.
Qed.

Lemma self_handle_ok : exists h, ModuleAccess.self_handle m = Ok h /\ module_handle_ok (Module_ m) h.
Proof.
  destruct (module_handle_at_ok _ (self_handle_in _ Hin _ eq_refl)) as (h & E & Ha & Hn).
  exists h. unfold ModuleAccess.self_handle. rewrite E. simpl. by rewrite !in_pool_true.
Qed.

Lemma module_id_ok h :
  module_handle_ok (Module_ m) h -> exists id, ModuleAccess.module_id_for_handle m h = Ok id.
Proof.
  intros [Ha Hn]. apply index_ok_ex in Ha as [a Ha]. apply index_ok_ex in Hn as [n Hn].
  exists (a, n). unfold ModuleAccess.module_id_for_handle, ModuleAccess.address_identifier_at,
    ModuleAccess.identifier_at. cbn [address_identifiers identifiers] in *.
  rewrite Ha. cbn [mbind result_bind]. by rewrite Hn.
Qed.

Lemma map_res_ok {A B} (f : A -> result StatusCode B) (P : A -> Prop) l :
  (forall x, P x -> exists y, f x = Ok y) -> Forall P l -> exists ys, ModuleAccess.map_res f l = Ok ys.
Proof.
  intros Hf. induction 1 as [|x l Hx Hl [ys IH]]; simpl; [by exists []|].
  destruct (Hf x Hx) as [y ->]. simpl. rewrite IH. by exists (y :: ys).
Qed.

Lemma find_res_ok {A} (f : A -> result StatusCode bool) (P : A -> Prop) l :
  (forall x, P x -> exists b, f x = Ok b) -> Forall P l -> exists r, ModuleAccess.find_res f l = Ok r.
Proof.
  intros Hf. induction 1 as [|x l Hx Hl [r IH]]; simpl; [by exists None|].
  destruct (Hf x Hx) as [[] ->]; simpl; [by exists (Some x)|]. by exists r.
Qed.

Lemma find_struct_def_by_name_ok name : exists r, ModuleAccess.find_struct_def_by_name m name = Ok r.
Proof.
  apply (find_res_ok _ (struct_def_ok (Module_ m))); [|apply (struct_defs_in _ Hin)].
  intros d (sh & Hsh & _). destruct (struct_handle_at_ok d.(StructDefinition.struct_handle))
    as (h & E & _ & Hn); [apply idx_ok_lookup; by exists sh|].
  rewrite E. cbn [mbind result_bind]. apply index_ok_ex in Hn as [n Hn].
  unfold ModuleAccess.identifier_at. cbn [identifiers] in Hn. rewrite Hn.
  cbn [mbind result_bind]. eauto.
Qed.

Lemma immediate_dependencies_ok : exists l, ModuleAccess.immediate_dependencies m = Ok l.
Proof.
  unfold ModuleAccess.immediate_dependencies. destruct self_handle_ok as (h & -> & _).
  cbn [mbind result_bind]. eapply map_res_ok; [exact module_id_ok|].
  apply Forall_forall. intros x [Hx _]%filter_In.
  pose proof (module_handles_in _ Hin) as Hm. rewrite Forall_forall in Hm. by apply Hm.
Qed.
End accessors.

(** The abilities of a type in bounds are defined. *)
Lemma polymorphic_abilities_len d ps args :
  length ps = length args -> exists a, AbilitySet.polymorphic_abilities d ps args = Ok a.
Proof.
  intros Hl. unfold AbilitySet.polymorphic_abilities.
  rewrite Hl, Nat.eqb_refl. simpl. eauto.
Qed.

Section views.
Context (v : BinaryIndexedView) (Hin : in_bounds v).

Lemma forall_lookup {A} (P : A -> Prop) (l : list A) i x : Forall P l -> l !! i = Some x -> P x.
Proof.
  intros HP Hx. rewrite Forall_forall in HP. by apply HP, list_elem_of_In, list_elem_of_lookup_2 with i.
Qed.

Lemma view_struct_handle_at idx sh :
  struct_handles v !! into_index idx = Some sh -> struct_handle_at v idx = Ok sh.
Proof.
  intros E. destruct (forall_lookup _ _ _ _ (struct_handles_in _ Hin) E) as [Hm _].
  destruct v as [m|sc]; cbn in *; unfold ModuleAccess.struct_handle_at, ScriptAccess.struct_handle_at,
    index; rewrite E; simpl; [|done]. by rewrite in_pool_true.
Qed.

Lemma view_function_handle_at idx h :
  function_handles v !! into_index idx = Some h -> function_handle_at v idx = Ok h.
Proof.
  intros E. destruct (forall_lookup _ _ _ _ (function_handles_in _ Hin) E) as (_ & _ & Hp & Hr & _).
  destruct v as [m|sc]; cbn in *; unfold ModuleAccess.function_handle_at,
    ScriptAccess.function_handle_at, index; rewrite E; simpl; [|done]. by rewrite !in_pool_true.
Qed.

Lemma view_signature_at idx sig :
  signatures v !! into_index idx = Some sig -> signature_at v idx = Ok sig.
Proof. clear Hin. intros E. destruct v; by apply index_ok. Qed.

Lemma abilities_ok constraints t :
  type_ok v t -> params_ok (length constraints) t -> exists a, abilities v t constraints = Ok a.
Proof.
  induction t as [ | | | | | |tok IH|idx|idx toks IH|tok IH|tok IH|idx]
    using SignatureToken.token_ind; intros Ht Hp; cbn [abilities]; try (by eexists).
  - inversion Ht; subst. apply params_ok_children in Hp; [|done].
    apply Forall_cons_iff in Hp as [Hp _]. destruct IH as [a ->]; [done..|].
    cbn [mbind result_bind]. by apply polymorphic_abilities_len.
  - inversion Ht as [| | | | | | | | | |? sh E Hn|]; subst.
    rewrite (view_struct_handle_at _ _ E). by eexists.
  - inversion Ht as [| | | | | | | | | | |? ? sh E Hn Ha]; subst.
    apply params_ok_children in Hp; [|done]. cbn [children] in Hp.
    rewrite (view_struct_handle_at _ _ E). cbn [mbind result_bind].
    match goal with |- context [?go toks ≫= _] =>
      assert (exists l, go toks = Ok l /\ length l = length toks) as (l & -> & Hlen) end.
    { clear E Hn Ht. induction IH as [|x toks Hx Hxs IHl]; [by exists []|].
      apply Forall_cons_iff in Ha as [Hax Ha]. apply Forall_cons_iff in Hp as [Hpx Hp].
      destruct (Hx Hax Hpx) as [a ->]. cbn [mbind result_bind].
      destruct (IHl Hp Ha) as (l & -> & Hl). exists (a :: l). simpl. by rewrite Hl. }
    cbn [mbind result_bind]. apply polymorphic_abilities_len. rewrite length_map. congruence.
  - inversion Hp as [? Hi|? Hne]; subst; [|by destruct (Hne idx)]. by apply index_ok_ex.
Qed.
End views.
