(* ===== verification/BoundsTheorems.v ===== *)
(** The properties of the bounds checker and of [CompiledModule::deserialize] and
    [CompiledScript::deserialize], which run it on whatever they read; and the successors
    of an instruction, [Bytecode::get_successors]: what they are, that they stay inside a
    verified body, and the length at which the function panics. *)
From Stdlib Require Import Sorting.Sorted.
From S2P Require Import Prelude StatusCode Abilities Identifier FileFormat BinaryCommon Uleb Serializer.
From S2P Require Import Deserializer WellFormed DeserializerSafety Codec TokenCodec Tables RoundTrip Access.
From S2P Require Import BoundsChecker BoundsSpec.
Import BinaryIndexedView BoundsChecker.

(** * The checker against its specification *)

(** C2: [BoundsChecker::verify_module] never panics and accepts exactly the modules that
    have a module handle and whose every index, type argument count, type parameter,
    field offset, branch target and local is in bounds. *)
Theorem verify_module_correct (m : CompiledModule) :
  safe (verify_module m) /\
  (verify_module m = Ok () <-> m.(CompiledModule.module_handles) <> [] /\ in_bounds (Module_ m)).
Proof. split; [apply verify_module_safe|apply verify_module_ok]. Qed.

(** [BoundsChecker::verify_script] never panics (its [unwrap] of the parameters
    included) and accepts exactly the scripts in bounds. *)
Theorem verify_script_correct (s : CompiledScript) :
  safe (verify_script s) /\ (verify_script s = Ok () <-> script_in_bounds s).
Proof. split; [apply verify_script_safe|apply verify_script_ok]. Qed.

(** * Checked deserialization *)

Lemma deserialize_module_inv binary m :
  deserialize_module binary = Ok m ->
  deserialize_compiled_module binary = Ok m /\ verify_module m = Ok ().
Proof.
  unfold deserialize_module. destruct (deserialize_compiled_module binary) as [m'| | |]; try done.
  cbn [mbind result_bind]. destruct (verify_module m') as [[]| | |] eqn:E; try done.
  intros [= ->]. done.
Qed.

(** [CompiledModule::deserialize] is total, and what it returns inhabits the Rust
    types and is in bounds. *)
Theorem deserialize_module_sound (binary : list Z) :
  safe (deserialize_module binary) /\
  forall m, wf_bytes binary = true -> deserialize_module binary = Ok m ->
    wf_module m = true /\ m.(CompiledModule.module_handles) <> [] /\ in_bounds (Module_ m).
Proof.
  split.
  - apply safe_bind; [apply deserialize_compiled_module_safe|]. intros m _.
    apply safe_bind; [apply verify_module_safe|done].
  - intros m Hb [Hd Hv]%deserialize_module_inv. split; [by eapply deserialize_module_wf|].
    by apply verify_module_ok.
Qed.

Lemma deserialize_module_sound_witness :
  wf_module basic_test_module = true /\
  basic_test_module.(CompiledModule.module_handles) <> [] /\ in_bounds (Module_ basic_test_module).
Proof.
  apply (proj2 (deserialize_module_sound
    (match serialize_module basic_test_module [] with Ok b => b | _ => [] end)));
    vm_compute; reflexivity.
Defined.

(** [CompiledScript::deserialize] is total, and what it returns inhabits the Rust
    types and is in bounds. *)
Theorem deserialize_script_sound (binary : list Z) :
  safe (deserialize_script binary) /\
  forall s, wf_bytes binary = true -> deserialize_script binary = Ok s ->
    wf_script s = true /\ script_in_bounds s.
Proof.
  split.
  - apply safe_bind; [apply deserialize_compiled_script_safe|]. intros s _.
    apply safe_bind; [apply verify_script_safe|done].
  - intros s Hb. unfold deserialize_script.
    destruct (deserialize_compiled_script binary) as [s'| | |] eqn:Ed; try done.
    cbn [mbind result_bind]. destruct (verify_script s') as [[]| | |] eqn:Ev; try done.
    intros [= ->]. split; [by eapply deserialize_script_wf|by apply verify_script_ok].
Qed.

Lemma deserialize_script_sound_witness :
  wf_script empty_script = true /\ script_in_bounds empty_script.
Proof.
  apply (proj2 (deserialize_script_sound
    (match serialize_script empty_script [] with Ok b => b | _ => [] end)));
    vm_compute; reflexivity.
Defined.

(** The checked round trip.  A well-formed module in bounds that serializes is
    accepted back by the whole of [CompiledModule::deserialize]; one out of bounds is
    rejected with the error of the bounds checker. *)
Theorem checked_round_trip (m : CompiledModule) (bin : list Z) :
  wf_module m = true -> serialize_module m [] = Ok bin ->
  deserialize_module bin =
    match verify_module m with
    | Ok _ => Ok (latest_module m)
    | Err e => Err e
    | Panic => Panic
    | OutOfFuel => OutOfFuel
    end.
Proof.
  intros Hw Hs. unfold deserialize_module. rewrite <- (app_nil_r bin).
  rewrite (module_codec m bin []) by done. cbn [mbind result_bind].
  change (verify_module (latest_module m)) with (verify_module m).
  by destruct (verify_module m).
Qed.

Lemma checked_round_trip_witness :
  exists bin, wf_module basic_test_module = true /\ serialize_module basic_test_module [] = Ok bin /\
    deserialize_module bin = Ok (latest_module basic_test_module).
Proof.
  eexists. split; [reflexivity|]. split; [vm_compute; reflexivity|].
  rewrite (checked_round_trip basic_test_module); vm_compute; reflexivity.
Defined.

(** * What the checker gives to the accessors *)

(** On a module the checker accepts, no accessor of access.rs panics: each
    [.._at] returns the entry at an index of its table, with its [debug_assert!]s,
    and the queries built on them return. *)
Theorem verified_accessors_total (m : CompiledModule) :
  verify_module m = Ok () ->
  (forall i, idx_ok m.(CompiledModule.module_handles) i ->
     exists h, ModuleAccess.module_handle_at m i = Ok h) /\
  (forall i, idx_ok m.(CompiledModule.struct_handles) i ->
     exists h, ModuleAccess.struct_handle_at m i = Ok h) /\
  (forall i, idx_ok m.(CompiledModule.function_handles) i ->
     exists h, ModuleAccess.function_handle_at m i = Ok h) /\
  (forall i, idx_ok m.(CompiledModule.field_handles) i ->
     exists h, ModuleAccess.field_handle_at m i = Ok h) /\
  (forall i, idx_ok m.(CompiledModule.function_defs) i ->
     exists d, ModuleAccess.function_def_at m i = Ok d) /\
  (exists id, ModuleAccess.self_id m = Ok id) /\
  (exists ids, ModuleAccess.immediate_dependencies m = Ok ids) /\
  (exists ids, ModuleAccess.immediate_friends m = Ok ids) /\
  (forall name, exists d, ModuleAccess.find_struct_def_by_name m name = Ok d).
Proof.
  intros [_ Hin]%verify_module_ok.
  split; [intros i Hi; destruct (module_handle_at_ok m Hin i Hi) as (h & ? & _); eauto|].
  split; [intros i Hi; destruct (struct_handle_at_ok m Hin i Hi) as (h & ? & _); eauto|].
  split; [by apply function_handle_at_ok|]. split; [by apply field_handle_at_ok|].
  split; [by apply function_def_at_ok|]. split.
  { unfold ModuleAccess.self_id. destruct (self_handle_ok m Hin) as (h & -> & Hh).
    by apply module_id_ok. }
  split; [by apply immediate_dependencies_ok|]. split.
  { eapply map_res_ok; [exact (module_id_ok m)|exact (friend_decls_in _ Hin)]. }
  by apply find_struct_def_by_name_ok.
Qed.

Lemma verified_accessors_total_witness :
  exists id, ModuleAccess.self_id basic_test_module = Ok id.
Proof. apply (verified_accessors_total basic_test_module). vm_compute. reflexivity. Defined.

(** On a module the checker accepts, [BinaryIndexedView::abilities] is defined on
    every type of the signature pool whose type parameters are in scope: the lookups
    do not panic and the arguments of every instantiation match the declaration. *)
Theorem verified_abilities_total (m : CompiledModule) (i : SignatureIndex) (sig : Signature)
    (t : SignatureToken) (constraints : list AbilitySet) :
  verify_module m = Ok () -> ModuleAccess.signature_at m i = Ok sig -> t ∈ sig ->
  check_type_parameter t (length constraints) = Ok () ->
  exists a, abilities (Module_ m) t constraints = Ok a.
Proof.
  intros [_ Hin]%verify_module_ok Hs Ht Hp%check_type_parameter_ok.
  apply abilities_ok; [done| |done]. apply index_ok in Hs.
  pose proof (signatures_in _ Hin) as Hall. rewrite Forall_forall in Hall.
  assert (Forall (type_ok (Module_ m)) sig) as Hsig.
  { apply Hall, list_elem_of_In, list_elem_of_lookup. by exists (into_index i). }
  rewrite Forall_forall in Hsig. by apply Hsig, list_elem_of_In.
Qed.

(** A module with the type [vector<S<T0>>] in its pool. *)
Definition generic_module : CompiledModule :=
  CompiledModule.mk VERSION_MAX 0 [ModuleHandle.mk 0 0]
    [StructHandle.mk 0 0 AbilitySet.PRIMITIVES [StructTypeParameter.mk AbilitySet.EMPTY false]]
    [] [] [] [] [] []
    [[SignatureToken.Vector (SignatureToken.StructInstantiation 0 [SignatureToken.TypeParameter 0])]]
    [Identifier.self_bytes] [AccountAddress_ZERO] [] [] [].

Lemma verified_abilities_total_witness :
  exists a, abilities (Module_ generic_module)
    (SignatureToken.Vector (SignatureToken.StructInstantiation 0 [SignatureToken.TypeParameter 0]))
    [AbilitySet.SIGNER] = Ok a.
Proof.
  eapply (verified_abilities_total generic_module 0);
    [vm_compute; reflexivity|reflexivity|left|vm_compute; reflexivity].
Defined.

Import BinaryIndexedView BoundsChecker.

(** The successors in the abstract: the target of a branch, and the next instruction
    unless control never falls through. *)
Definition successor (code : list Bytecode) (pc : Z) (b : Bytecode) (s : Z) : Prop :=
  Bytecode.offset b = Some s \/
  (s = pc + 1 /\ s < zlen code /\ Bytecode.is_unconditional_branch b = false).

Lemma get_successors_spec pc code b :
  0 <= pc -> code !! Z.to_nat pc = Some b -> zlen code <= u16_max - 1 ->
  exists l, Bytecode.get_successors pc code = Ok l /\ StronglySorted Z.lt l /\
    forall s, s ∈ l <-> successor code pc b s.
Proof.
  intros Hpc Hb Hlen. pose proof (lookup_lt_Some _ _ _ Hb) as Hlt. unfold u16_max in *.
  unfold Bytecode.get_successors, successor. rewrite Hb. cbn [unwrap mbind result_bind].
  rewrite (proj2 (andb_true_iff _ _)) by (rewrite Z.leb_le, Z.ltb_lt; unfold u16_max; lia).
  rewrite Z.mod_small by lia. destruct (Z.leb_spec (zlen code) (pc + 1)) as [Hn|Hn].
  - eexists; split; [reflexivity|]. destruct (Bytecode.offset b) as [o|].
    + split; [repeat constructor|]. intros s. rewrite list_elem_of_singleton.
      split; [intros ->; by left|intros [[= ->]|(? & ? & _)]; [done|lia]].
    + split; [constructor|]. intros s. rewrite elem_of_nil.
      split; [done|intros [?|(? & ? & _)]; [done|lia]].
  - eexists; split; [reflexivity|].
    destruct (Bytecode.offset b) as [o|]; destruct (Bytecode.is_unconditional_branch b);
      simpl; repeat case_bool_decide; simpl; try case_match; bool_hyps;
      rewrite ?list_elem_of_singleton in *; subst;
      (split; [repeat constructor; try lia|]); intros s;
      rewrite ?elem_of_cons, ?elem_of_nil; naive_solver lia.
Qed.

(** [get_successors] is correct.  In a body of fewer than 65535 instructions it
    returns, for the instruction at [pc], exactly its successors, in strictly ascending
    order (so without duplicates). *)
Theorem get_successors_correct (pc : CodeOffset) (code : list Bytecode) (b : Bytecode) :
  0 <= pc -> code !! Z.to_nat pc = Some b -> zlen code <= u16_max - 1 ->
  exists l, Bytecode.get_successors pc code = Ok l /\ StronglySorted Z.lt l /\
    forall s, s ∈ l <-> successor code pc b s.
Proof. apply get_successors_spec. Qed.

Lemma get_successors_correct_witness :
  exists l, Bytecode.get_successors 1 [Bytecode.LdTrue; Bytecode.BrTrue 0; Bytecode.Ret] = Ok l /\
    StronglySorted Z.lt l /\
    forall s, s ∈ l <-> successor [Bytecode.LdTrue; Bytecode.BrTrue 0; Bytecode.Ret] 1
                          (Bytecode.BrTrue 0) s.
Proof. apply get_successors_correct; [lia|reflexivity|vm_compute; discriminate]. Defined.

Lemma offset_in_bounds v n len locals b s :
  instr_ok v n len locals b -> Bytecode.offset b = Some s -> s < len.
Proof. destruct b; simpl; try done; by intros ? [= <-]. Qed.

(** Control stays inside a verified body.  For a function of a module the bounds
    checker accepts, every instruction of a body of fewer than 65535 instructions has
    successors, and they are instructions of the body. *)
Theorem verified_successors_in_code (m : CompiledModule) (d : FunctionDefinition)
    (c : CodeUnit) (pc : CodeOffset) :
  verify_module m = Ok () -> d ∈ m.(CompiledModule.function_defs) ->
  d.(FunctionDefinition.code) = Some c ->
  0 <= pc < zlen c.(CodeUnit.code) -> zlen c.(CodeUnit.code) <= u16_max - 1 ->
  exists l, Bytecode.get_successors pc c.(CodeUnit.code) = Ok l /\
    Forall (fun s => s < zlen c.(CodeUnit.code)) l.
Proof.
  intros [_ Hin]%verify_module_ok Hd Hc Hpc Hlen.
  destruct (lookup_lt_is_Some_2 c.(CodeUnit.code) (Z.to_nat pc)) as [b Hb]; [lia|].
  destruct (get_successors_spec pc _ b ltac:(lia) Hb Hlen) as (l & El & _ & Hl).
  exists l. split; [done|]. apply Forall_forall. intros s [Ho|(-> & ? & _)]%list_elem_of_In%Hl;
    [|done].
  pose proof (function_defs_in _ Hin) as Hdefs. rewrite Forall_forall in Hdefs.
  destruct (Hdefs d) as (_ & _ & Hok); [by apply list_elem_of_In|].
  destruct (Hok c Hc) as (h & ps & ls & _ & _ & _ & _ & ls' & _ & _ & Hi).
  rewrite Forall_forall in Hi. eapply offset_in_bounds; [apply Hi|exact Ho].
  by apply list_elem_of_In, list_elem_of_lookup_2 with (Z.to_nat pc).
Qed.

Lemma verified_successors_in_code_witness :
  exists l, Bytecode.get_successors 0 [Bytecode.Ret] = Ok l /\ Forall (fun s => s < 1) l.
Proof.
  eapply (verified_successors_in_code basic_test_module _ (CodeUnit.mk 0 [Bytecode.Ret]));
    [vm_compute; reflexivity|left|reflexivity|simpl; lia|vm_compute; discriminate].
Defined.

(** [basic_test_module] with a body of 65535 instructions, the largest number of
    instructions that BYTECODE_COUNT_MAX allows. *)
Definition long_code : list Bytecode := repeat Bytecode.Nop 65534 ++ [Bytecode.Ret].
Definition long_module : CompiledModule :=
  CompiledModule.mk VERSION_MAX 0
    basic_test_module.(CompiledModule.module_handles)
    basic_test_module.(CompiledModule.struct_handles)
    basic_test_module.(CompiledModule.function_handles) [] [] [] [] []
    basic_test_module.(CompiledModule.signatures)
    basic_test_module.(CompiledModule.identifiers)
    basic_test_module.(CompiledModule.address_identifiers) []
    basic_test_module.(CompiledModule.struct_defs)
    [FunctionDefinition.mk 0 Visibility.Private [] (Some (CodeUnit.mk 0 long_code))].

(** the largest body.  The bounds checker accepts a module with a body of 65535
    instructions, and [get_successors] panics on the last instruction of that body:
    its [assert!] reserves two offsets although one is enough. *)
Theorem get_successors_limit :
  verify_module long_module = Ok () /\ zlen long_code = 65535 /\
  Bytecode.get_successors 65534 long_code = Panic.
Proof. vm_compute. done. Qed.
