(* ===== verification/ControlFlow.v ===== *)
(** The control flow verifier: move-bytecode-verifier/src/control_flow.rs.  It labels
    the loops of a body and checks that jumps respect them.  The head of [loop_stack]
    is the last element of the source's vector. *)
From S2P Require Import Prelude StatusCode Abilities Identifier FileFormat.

Module ControlFlow.
Abbreviation R := (result StatusCode).

Inductive Label : Set :=
| Loop (last_continue : Z)
| Code.

Module ControlFlowVerifier.
Record ControlFlowVerifier : Set := mk {
  current_function : FunctionDefinitionIndex;
  code : list Bytecode }.
End ControlFlowVerifier.
Abbreviation ControlFlowVerifier := ControlFlowVerifier.ControlFlowVerifier.

(** The pattern [Branch(target) | BrTrue(target) | BrFalse(target)]. *)
Definition jump (instr : Bytecode) : option CodeOffset :=
  match instr with
  | Bytecode.Branch target | Bytecode.BrTrue target | Bytecode.BrFalse target => Some target
  | _ => None
  end.

Definition is_back_edge (cur_instr target_instr : CodeOffset) : bool := target_instr <=? cur_instr.

(** [idx.try_into().unwrap()] from [usize] to [u16]. *)
Definition code_offset (idx : Z) : R CodeOffset := if u16_max <? idx then Panic else Ok idx.

(** * Labels *)

(** [labels[loop_idx as usize] = Label::Loop { last_continue }] *)
Definition loop_continue (loop_idx last_continue : CodeOffset) (labels : list Label) :
    R (list Label) :=
  if Nat.ltb (Z.to_nat loop_idx) (length labels)
  then Ok (<[Z.to_nat loop_idx := Loop last_continue]> labels) else Panic.

(** The loop over [context.code()], from position [idx]. *)
Fixpoint instruction_labels_loop (idx : Z) (code : list Bytecode) (labels : list Label) :
    R (list Label) :=
  match code with
  | [] => Ok labels
  | instr :: code =>
    i ← code_offset idx;
    labels ←
      match jump instr with
      | Some prev => if is_back_edge i prev then loop_continue prev i labels else Ok labels
      | None => Ok labels
      end;
    instruction_labels_loop (idx + 1) code labels
  end.

Definition instruction_labels (context : ControlFlowVerifier) : R (list Label) :=
  let code := context.(ControlFlowVerifier.code) in
  instruction_labels_loop 0 code (repeat Code (length code)).

(** * The walk over the code *)

Abbreviation LoopStack := (list (CodeOffset * CodeOffset)).

(** Pop if last continue. *)
Definition pop_loop (cur_instr : CodeOffset) (instr : Bytecode) (loop_stack : LoopStack) :
    R LoopStack :=
  match jump instr with
  | Some target =>
    if is_back_edge cur_instr target then
      match loop_stack with
      | [] => Panic
      | (_, last_continue) :: rest => Ok (if cur_instr =? last_continue then rest else loop_stack)
      end
    else Ok loop_stack
  | None => Ok loop_stack
  end.

(** The loop over [context.labeled_code(labels)]. *)
Fixpoint check_code_loop (check : LoopStack -> CodeOffset -> Bytecode -> R ()) (idx : Z)
    (code : list Bytecode) (labels : list Label) (loop_stack : LoopStack) : R () :=
  match code with
  | [] => Ok ()
  | instr :: code =>
    cur_instr ← code_offset idx;
    match labels with
    | [] => Ok ()
    | label :: labels =>
      let loop_stack :=
        match label with
        | Loop last_continue => (cur_instr, last_continue) :: loop_stack
        | Code => loop_stack
        end in
      check loop_stack cur_instr instr;;
      loop_stack ← pop_loop cur_instr instr loop_stack;
      check_code_loop check (idx + 1) code labels loop_stack
    end
  end.

Definition check_code (context : ControlFlowVerifier) (labels : list Label)
    (check : LoopStack -> CodeOffset -> Bytecode -> R ()) : R () :=
  check_code_loop check 0 context.(ControlFlowVerifier.code) labels [].

(** All back jumps are only to the current loop. *)
Definition check_continue (loop_stack : LoopStack) (cur_instr : CodeOffset) (instr : Bytecode) :
    R () :=
  match jump instr with
  | Some target =>
    if is_back_edge cur_instr target then
      match loop_stack with
      | [] => Panic
      | (cur_loop_head, _) :: _ =>
        if negb (target =? cur_loop_head) then Err INVALID_LOOP_CONTINUE else Ok ()
      end
    else Ok ()
  | None => Ok ()
  end.

Definition check_continues (context : ControlFlowVerifier) (labels : list Label) : R () :=
  check_code context labels check_continue.

(** All breaks go to the instruction after the last continue; the sum is a [u16]. *)
Definition check_break (loop_stack : LoopStack) (cur_instr : CodeOffset) (instr : Bytecode) :
    R () :=
  match jump instr with
  | Some target =>
    if negb (is_back_edge cur_instr target) then
      match loop_stack with
      | (_, last_continue) :: _ =>
        if last_continue <? target then
          after ← code_offset (last_continue + 1);
          if negb (target =? after) then Err INVALID_LOOP_BREAK else Ok ()
        else Ok ()
      | [] => Ok ()
      end
    else Ok ()
  | None => Ok ()
  end.

Definition check_breaks (context : ControlFlowVerifier) (labels : list Label) : R () :=
  check_code context labels check_break.

(** * Loop depths *)

(** [last_continues]: the set of the last continues of the labels. *)
Definition last_continues (labels : list Label) : list CodeOffset :=
  omap (fun label => match label with Loop last_continue => Some last_continue | Code => None end)
    labels.

(** The loop of [count_loop_depth]; [count -= 1] on a [usize] panics below zero. *)
Fixpoint count_loop_depth_loop (continues : list CodeOffset) (idx : Z) (labels : list Label)
    (count : Z) : R (list Z) :=
  match labels with
  | [] => Ok []
  | label :: labels =>
    let count := match label with Loop _ => count + 1 | Code => count end in
    i ← code_offset idx;
    count' ←
      (if bool_decide (i ∈ continues) then if count =? 0 then Panic else Ok (count - 1)
       else Ok count);
    counts ← count_loop_depth_loop continues (idx + 1) labels count';
    Ok (count :: counts)
  end.

Definition count_loop_depth (labels : list Label) : R (list Z) :=
  count_loop_depth_loop (last_continues labels) 0 labels 0.

Definition is_break (loop_stack : LoopStack) (jump_target : CodeOffset) : bool :=
  match loop_stack with
  | [] => false
  | (_, last_continue) :: _ => last_continue <? jump_target
  end.

(** Forward jumps that are not breaks do not enter the middle of a loop. *)
Definition check_no_loop_split (labels : list Label) (loop_depth : list Z)
    (loop_stack : LoopStack) (i : CodeOffset) (instr : Bytecode) : R () :=
  match jump instr with
  | Some j =>
    if (i <? j) && negb (is_break loop_stack j) then
      before_depth ← unwrap (loop_depth !! Z.to_nat i);
      label ← unwrap (labels !! Z.to_nat j);
      depth ← unwrap (loop_depth !! Z.to_nat j);
      after_depth ←
        match label with
        | Loop _ => if depth =? 0 then Panic else Ok (depth - 1)
        | Code => Ok depth
        end;
      if negb (before_depth =? after_depth) then Err INVALID_LOOP_SPLIT else Ok ()
    else Ok ()
  | None => Ok ()
  end.

Definition check_no_loop_splits (context : ControlFlowVerifier) (labels : list Label) : R () :=
  loop_depth ← count_loop_depth labels;
  check_code context labels (check_no_loop_split labels loop_depth).

Definition check_jumps (context : ControlFlowVerifier) (labels : list Label) : R () :=
  check_continues context labels;;
  check_breaks context labels;;
  check_no_loop_splits context labels.

Definition verify (current_function_opt : option FunctionDefinitionIndex) (code : CodeUnit) : R () :=
  let current_function := default 0 current_function_opt in
  match list.last code.(CodeUnit.code) with
  | None => Err EMPTY_CODE_UNIT
  | Some last =>
    if negb (Bytecode.is_unconditional_branch last) then Err INVALID_FALL_THROUGH
    else
      let context := ControlFlowVerifier.mk current_function code.(CodeUnit.code) in
      labels ← instruction_labels context;
      check_jumps context labels
  end.
End ControlFlow.
