(* ===== verification/ControlFlowSpec.v ===== *)
(** What the control flow verifier computes: its labels are the loops of the body, its
    stack at an instruction is the list of the loops around it, and it accepts a body
    exactly when the three rules of its documentation hold. *)
From S2P Require Import Prelude StatusCode Abilities Identifier FileFormat ControlFlow.
Import ControlFlow.

(** * Loops in the abstract *)

Section spec.
Context (code : list Bytecode).

(** The instruction at [i] may jump to [t]. *)
Definition jumps (i t : Z) : Prop :=
  0 <= i /\ exists b, code !! Z.to_nat i = Some b /\ jump b = Some t.
Definition back_edge (i h : Z) : Prop := jumps i h /\ h <= i.

(** A loop: its head is the target of a back edge, its end is the last of them. *)
Definition is_loop (h e : Z) : Prop := back_edge e h /\ forall i, back_edge i h -> i <= e.

(** The innermost loop around [i]. *)
Definition innermost (i h e : Z) : Prop :=
  is_loop h e /\ h <= i <= e /\ forall h' e', is_loop h' e' -> h' <= i <= e' -> h' <= h.

(** The three rules: continues are to the innermost loop, breaks go to the instruction
    after it, and forward jumps do not enter the middle of a loop. *)
Record well_structured : Prop := {
  continues_innermost : forall i h, back_edge i h -> exists e, innermost i h e;
  breaks_to_end : forall i t h e, jumps i t -> i < t -> innermost i h e -> e < t -> t = e + 1;
  no_loop_split : forall i t h e, jumps i t -> i < t -> is_loop h e -> h < t <= e -> h <= i }.

(** What the bounds checker ensures of jumps. *)
Definition targets_ok : Prop := forall i t, jumps i t -> 0 <= t < zlen code.
End spec.

(** * Labels *)

Definition labels_upto (code : list Bytecode) (n : Z) (labels : list Label) : Prop :=
  length labels = length code /\
  forall h e, 0 <= h ->
    labels !! Z.to_nat h = Some (Loop e) <->
    back_edge code e h /\ e < n /\ forall i, i < n -> back_edge code i h -> i <= e.

Definition labels_for (code : list Bytecode) (labels : list Label) : Prop :=
  length labels = length code /\
  forall h e, 0 <= h -> labels !! Z.to_nat h = Some (Loop e) <-> is_loop code h e.

Lemma jumps_lt code i t : jumps code i t -> 0 <= i < zlen code.
Proof. intros (Hi & b & Hb & _). apply lookup_lt_Some in Hb. lia. Qed.

Lemma jumps_inj code i t t' : jumps code i t -> jumps code i t' -> t = t'.
Proof. intros (_ & b & Hb & Ht) (_ & b' & Hb' & Ht'). congruence. Qed.

Lemma labels_upto_all code labels : labels_upto code (zlen code) labels -> labels_for code labels.
Proof.
  intros [Hl H]. split; [done|]. intros h e Hh. rewrite H by done. split.
  - intros (Hb & _ & Hm). split; [done|]. intros i Hi. apply Hm; [|done].
    destruct Hi as [Hi _]. apply jumps_lt in Hi. lia.
  - intros [Hb Hm]. split; [done|]. split; [|by intros; apply Hm].
    destruct Hb as [Hb _]. apply jumps_lt in Hb. lia.
Qed.

Lemma code_offset_ok idx : idx <= u16_max -> code_offset idx = Ok idx.
Proof. intros H. unfold code_offset. destruct (Z.ltb_spec u16_max idx); [lia|done]. Qed.

(** One instruction that is not a back edge leaves the labels as they are. *)
Lemma labels_upto_skip code n labels :
  labels_upto code n labels -> (forall h, ~ back_edge code n h) -> labels_upto code (n + 1) labels.
Proof.
  intros [Hl H] Hn. split; [done|]. intros h e Hh. rewrite H by done. split.
  - intros (Hb & He & Hm). split; [done|]. split; [lia|]. intros i Hi Hbi.
    destruct (Z.eq_dec i n) as [-> |]; [by apply Hn in Hbi|]. apply Hm; [lia|done].
  - intros (Hb & He & Hm). split; [done|]. split; [|intros i Hi; apply Hm; lia].
    destruct (Z.eq_dec e n) as [-> |]; [by apply Hn in Hb|lia].
Qed.

Lemma labels_upto_back code n labels p :
  labels_upto code n labels -> back_edge code n p -> 0 <= p < zlen code ->
  labels_upto code (n + 1) (<[Z.to_nat p := Loop n]> labels).
Proof.
  intros [Hl H] Hb Hp. split; [by rewrite length_insert|]. intros h e Hh.
  destruct (Z.eq_dec h p) as [-> |Hne].
  - rewrite list_lookup_insert_eq by lia. split.
    + intros [= <-]. split; [done|]. split; [lia|]. intros i Hi _. lia.
    + intros (He & Hlt & Hm). do 2 f_equal. apply Z.le_antisymm; [|lia].
      apply Hm; [lia|done].
  - rewrite list_lookup_insert_ne by lia. rewrite H by done.
    assert (~ back_edge code n h) as Hn
      by (intros [Hj _]; destruct Hb as [Hb _]; apply Hne; by eapply jumps_inj).
    split.
    + intros (He & Hlt & Hm). split; [done|]. split; [lia|]. intros i Hi Hbi.
      destruct (Z.eq_dec i n) as [-> |]; [done|]. apply Hm; [lia|done].
    + intros (He & Hlt & Hm). split; [done|]. split; [|intros i Hi; apply Hm; lia].
      destruct (Z.eq_dec e n) as [-> |]; [done|lia].
Qed.

Lemma instruction_labels_loop_ok code pre rest labels :
  code = pre ++ rest -> zlen code <= u16_max + 1 -> targets_ok code ->
  labels_upto code (zlen pre) labels ->
  exists labels', instruction_labels_loop (zlen pre) rest labels = Ok labels' /\
    labels_for code labels'.
Proof.
  intros E Hlen Ht. revert pre labels E. induction rest as [|instr rest IH]; intros pre labels E Hl.
  { exists labels. split; [done|]. apply labels_upto_all. by rewrite app_nil_r in E; subst. }
  assert (code !! length pre = Some instr) as Hi by (rewrite E; by apply list_lookup_middle).
  assert (zlen (pre ++ [instr]) = zlen pre + 1) as Hpre by (rewrite length_app; simpl; lia).
  assert (zlen pre < zlen code) as Hlt by (rewrite E, length_app; simpl; lia).
  assert (forall t, jump instr = Some t -> jumps code (zlen pre) t) as Hj.
  { intros t Hjt. split; [lia|]. rewrite Nat2Z.id. eauto. }
  specialize (IH (pre ++ [instr])). rewrite Hpre in IH. rewrite <- app_assoc in IH.
  assert (forall h, back_edge code (zlen pre) h -> jump instr = Some h) as Hbe.
  { intros h [(_ & b & Hb & Hjb) _]. rewrite Nat2Z.id in Hb. congruence. }
  cbn [instruction_labels_loop]. rewrite code_offset_ok by lia. cbn [mbind result_bind].
  destruct (jump instr) as [prev|] eqn:Ej; cycle 1.
  { cbn [mbind result_bind]. apply IH; [done|]. apply labels_upto_skip; [done|].
    intros h Hb. by apply Hbe in Hb. }
  unfold is_back_edge. destruct (Z.leb_spec prev (zlen pre)) as [Hle|Hgt]; cycle 1.
  { cbn [mbind result_bind]. apply IH; [done|]. apply labels_upto_skip; [done|].
    intros h Hb. pose proof (Hbe _ Hb) as [= ->]. destruct Hb as [_ Hb]. lia. }
  pose proof (Ht _ _ (Hj _ eq_refl)) as Hp. destruct Hl as [Hll Hl].
  unfold loop_continue. destruct (Nat.ltb_spec (Z.to_nat prev) (length labels)); [|lia].
  cbn [mbind result_bind]. apply IH; [done|]. apply labels_upto_back; [done| |done].
  split; [by apply Hj|done].
Qed.

Lemma instruction_labels_ok f code :
  zlen code <= u16_max + 1 -> targets_ok code ->
  exists labels, instruction_labels (ControlFlowVerifier.mk f code) = Ok labels /\
    labels_for code labels.
Proof.
  intros Hlen Ht. apply (instruction_labels_loop_ok code []); try done.
  split; [apply repeat_length|]. intros h e Hh. split.
  - intros H. apply list_elem_of_lookup_2, list_elem_of_In, repeat_spec in H. done.
  - intros (Hb & He & _). destruct Hb as [Hb _]. apply jumps_lt in Hb. simpl in He. lia.
Qed.

(** * The loops of a body, in order *)

(** The heads and ends that the labels record, from position [k] on. *)
Fixpoint loops_from (k : Z) (labels : list Label) : list (Z * Z) :=
  match labels with
  | [] => []
  | Loop e :: labels => (k, e) :: loops_from (k + 1) labels
  | Code :: labels => loops_from (k + 1) labels
  end.

(** The loops around [i] and those open when the walk arrives at [i], innermost
    first. *)
Definition around (labels : list Label) (i : Z) : list (Z * Z) :=
  reverse (filter (fun p => p.1 <= i <= p.2) (loops_from 0 labels)).
Definition pending (labels : list Label) (i : Z) : list (Z * Z) :=
  reverse (filter (fun p => p.1 < i <= p.2) (loops_from 0 labels)).

Lemma elem_of_loops_from k labels h e :
  (h, e) ∈ loops_from k labels <->
  k <= h /\ labels !! Z.to_nat (h - k) = Some (Loop e).
Proof.
  revert k. induction labels as [|l labels IH]; intros k; simpl.
  { rewrite elem_of_nil. by split; [|intros [_ ?]]. }
  assert ((h, e) ∈ loops_from (k + 1) labels <->
          k < h /\ (l :: labels) !! Z.to_nat (h - k) = Some (Loop e)) as Htl.
  { rewrite IH. split.
    - intros [Hh Hl]. split; [lia|].
      replace (Z.to_nat (h - k)) with (S (Z.to_nat (h - (k + 1)))) by lia. done.
    - intros [Hh Hl]. split; [lia|].
      replace (Z.to_nat (h - k)) with (S (Z.to_nat (h - (k + 1)))) in Hl by lia. done. }
  destruct (Z.eq_dec h k) as [-> |Hne].
  - assert (~ (k, e) ∈ loops_from (k + 1) labels) as Hn by (rewrite Htl; lia).
    rewrite Z.sub_diag. destruct l as [e'|]; simpl.
    + rewrite elem_of_cons. split; [intros [[= ->] |]; [|done]; split; [lia|done]|].
      intros [_ [= ->]]. by left.
    + split; [done|]. by intros [_ ?].
  - destruct l as [e'|]; [rewrite elem_of_cons|]; rewrite Htl; split.
    + intros [[= -> ->] |[? ?]]; [done|]. split; [lia|done].
    + intros [? ?]. right. split; [lia|done].
    + intros [? ?]. split; [lia|done].
    + intros [? ?]. split; [lia|done].
Qed.

Lemma loops_from_app k l1 l2 :
  loops_from k (l1 ++ l2) = loops_from k l1 ++ loops_from (k + zlen l1) l2.
Proof.
  revert k. induction l1 as [|[e|] l1 IH]; intros k; cbn [app loops_from length].
  - by rewrite Z.add_0_r.
  - rewrite IH, Nat2Z.inj_succ. by replace (k + 1 + zlen l1) with (k + Z.succ (zlen l1)) by lia.
  - rewrite IH, Nat2Z.inj_succ. by replace (k + 1 + zlen l1) with (k + Z.succ (zlen l1)) by lia.
Qed.

Lemma loops_from_NoDup k labels : NoDup (loops_from k labels).
Proof.
  revert k. induction labels as [|[e|] labels IH]; intros k; cbn [loops_from]; [constructor| |done].
  constructor; [|done]. rewrite elem_of_loops_from. lia.
Qed.

Lemma filter_ext_in {A} (P Q : A -> Prop) `{forall x, Decision (P x)} `{forall x, Decision (Q x)}
    (l : list A) :
  (forall x, x ∈ l -> P x <-> Q x) -> filter P l = filter Q l.
Proof.
  induction l as [|x l IH]; intros Hl; [done|]. rewrite !filter_cons, IH.
  - destruct (Hl x ltac:(by left)). by repeat case_decide; [|tauto|tauto|].
  - intros y Hy. apply Hl. by right.
Qed.

Lemma filter_none {A} (P : A -> Prop) `{forall x, Decision (P x)} (l : list A) :
  (forall x, x ∈ l -> ~ P x) -> filter P l = [].
Proof.
  intros Hl. rewrite (filter_ext_in P (fun _ => False)).
  - induction l as [|x l IH]; [done|]. rewrite filter_cons_False by tauto. apply IH.
    intros y Hy. apply Hl. by right.
  - intros x Hx. split; [apply Hl; done|done].
Qed.

Lemma filter_always {A} (l : list A) : filter (fun _ => True) l = l.
Proof. induction l as [|x l IH]; [done|]. by rewrite filter_cons_True, IH. Qed.

Lemma around_NoDup labels i : NoDup (around labels i).
Proof. unfold around. rewrite reverse_Permutation. apply list.NoDup_filter, loops_from_NoDup. Qed.

Lemma filter_loops_last (P : Z * Z -> Prop) `{forall p, Decision (P p)} k labels l h e h' e' :
  filter P (loops_from k labels) = l ++ [(h, e)] -> (h', e') ∈ l -> h' < h.
Proof.
  revert k l. induction labels as [|[e0|] labels IH]; intros k l; cbn [loops_from].
  - by destruct l.
  - rewrite filter_cons. case_decide; [|by apply IH]. destruct l as [|p l]; cbn [app].
    { intros _ Hin. by apply elem_of_nil in Hin. }
    intros [= <- Hf]. rewrite elem_of_cons. intros [[= -> ->] |Hin]; [|by eapply IH].
    assert ((h, e) ∈ filter P (loops_from (k + 1) labels)) as Hin
      by (rewrite Hf; apply elem_of_app; right; by left).
    apply list_elem_of_filter in Hin as [_ [? _]%elem_of_loops_from]. lia.
  - by apply IH.
Qed.

Section walk.
Context (code : list Bytecode) (labels : list Label).
Hypothesis Hlen : zlen code <= u16_max + 1.
Hypothesis Htgt : targets_ok code.
Hypothesis Hlab : labels_for code labels.

Lemma is_loop_nonneg h e : is_loop code h e -> 0 <= h <= e.
Proof. intros [[Hj Hle] _]. apply Htgt in Hj. lia. Qed.

Lemma elem_of_loops h e : (h, e) ∈ loops_from 0 labels <-> is_loop code h e.
Proof.
  rewrite elem_of_loops_from, Z.sub_0_r. destruct Hlab as [_ Hl]. split.
  - intros [Hh H]. by apply Hl.
  - intros H. pose proof (is_loop_nonneg _ _ H). split; [lia|]. apply Hl; [lia|done].
Qed.

Lemma elem_of_around i h e : (h, e) ∈ around labels i <-> is_loop code h e /\ h <= i <= e.
Proof. unfold around. rewrite elem_of_reverse, list_elem_of_filter, elem_of_loops. simpl. tauto. Qed.

(** At most one loop ends at an instruction: the one it jumps back to. *)
Lemma loop_end_unique h h' e : is_loop code h e -> is_loop code h' e -> h = h'.
Proof. intros [[Hj _] _] [[Hj' _] _]. by eapply jumps_inj. Qed.

Lemma loop_head_unique h e e' : is_loop code h e -> is_loop code h e' -> e = e'.
Proof. intros [Hb Hm] [Hb' Hm']. apply Z.le_antisymm; auto. Qed.

(** The stack after the push at [i]. *)
Lemma around_push i lab :
  0 <= i -> labels !! Z.to_nat i = Some lab ->
  around labels i = match lab with Loop e => (i, e) :: pending labels i | Code => pending labels i end.
Proof.
  intros Hi Hl. unfold around, pending. rewrite <- (take_drop_middle _ _ _ Hl).
  set (pre := take (Z.to_nat i) labels). set (post := drop (S (Z.to_nat i)) labels).
  assert (zlen pre = i) as Hpre
    by (apply lookup_lt_Some in Hl; subst pre; rewrite length_take; lia).
  rewrite !loops_from_app, !list.filter_app. simpl (0 + _). rewrite Hpre.
  rewrite (filter_ext_in (fun p => p.1 <= i <= p.2) (fun p => p.1 < i <= p.2) (loops_from 0 pre)).
  2:{ intros [h e] [Hh He]%elem_of_loops_from. apply lookup_lt_Some in He. simpl. lia. }
  destruct lab as [e|]; cbn [loops_from].
  - rewrite filter_cons_True, filter_cons_False; simpl; [|lia|].
    2:{ assert (is_loop code i e) as H%is_loop_nonneg by (by apply Hlab). lia. }
    rewrite !(filter_none _ (loops_from (i + 1) post)), !reverse_app; [done| |];
      intros [h' e'] [Hh _]%elem_of_loops_from; simpl; lia.
  - rewrite !(filter_none _ (loops_from (i + 1) post)); [done| |];
      intros [h' e'] [Hh _]%elem_of_loops_from; simpl; lia.
Qed.

(** The stack after the pop at [i]. *)
Lemma pending_pop i : pending labels (i + 1) = filter (fun p => p.2 <> i) (around labels i).
Proof.
  unfold around, pending. rewrite filter_reverse, list_filter_filter. f_equal.
  apply list_filter_iff. intros [h e]. simpl. lia.
Qed.

(** A continue of the innermost loop pops it exactly at its end. *)
Definition continues_to_top (i : Z) (instr : Bytecode) : Prop :=
  forall t, jump instr = Some t -> t <= i -> exists e rest, around labels i = (t, e) :: rest.

Lemma pop_loop_around i instr :
  0 <= i -> code !! Z.to_nat i = Some instr -> continues_to_top i instr ->
  pop_loop i instr (around labels i) = Ok (pending labels (i + 1)).
Proof.
  intros Hi Hc Htop. rewrite pending_pop.
  assert (forall h, is_loop code h i -> jump instr = Some h /\ h <= i) as Hend.
  { intros h [[(_ & b & Hb & Hj) Hle] _]. split; [congruence|done]. }
  assert ((forall h, ~ is_loop code h i) -> filter (fun p => p.2 <> i) (around labels i) = around labels i)
    as Hkeep.
  { intros Hn. rewrite (filter_ext_in _ (fun _ => True)).
    - apply filter_always.
    - intros [h e] [Hl _]%elem_of_around. simpl. split; [done|]. intros _ ->. by apply (Hn h). }
  unfold pop_loop. destruct (jump instr) as [t|] eqn:Ej.
  2:{ rewrite Hkeep; [done|]. intros h [? _]%Hend. done. }
  unfold is_back_edge. destruct (Z.leb_spec t i) as [Hle|Hgt].
  2:{ rewrite Hkeep; [done|]. intros h [[= ->] ?]%Hend. lia. }
  destruct (Htop t Ej Hle) as (e & rest & Ea). rewrite Ea.
  destruct (Z.eqb_spec i e) as [-> |Hne]; [|rewrite <- Ea].
  - pose proof (around_NoDup labels e) as Hnd. rewrite Ea in Hnd.
    apply list.NoDup_cons in Hnd as [Hnin _]. rewrite filter_cons_False by (simpl; tauto).
    rewrite (filter_ext_in _ (fun _ => True)), filter_always; [done|].
    intros [h e'] Hin. simpl. split; [done|]. intros _ ->.
    assert ((h, e) ∈ around labels e) as [Hl _]%elem_of_around by (rewrite Ea; by right).
    apply Hend in Hl as [[= ->] _]. done.
  - rewrite Hkeep; [done|]. intros h Hl. pose proof (Hend _ Hl) as [[= <-] _].
    assert ((t, e) ∈ around labels i) as [Hl' _]%elem_of_around by (rewrite Ea; by left).
    apply Hne. by eapply loop_head_unique.
Qed.

(** The first loop of [around] is the innermost. *)
Lemma around_top i h e rest : around labels i = (h, e) :: rest -> innermost code i h e.
Proof.
  intros E. assert ((h, e) ∈ around labels i) as [Hl Hi]%elem_of_around by (rewrite E; by left).
  split; [done|]. split; [done|]. intros h' e' Hl' Hi'.
  assert ((h', e') ∈ around labels i) as Hin by by apply elem_of_around.
  rewrite E in Hin. apply elem_of_cons in Hin as [[= -> ->] |Hin]; [lia|].
  unfold around in E. apply (f_equal reverse) in E. rewrite reverse_involutive, reverse_cons in E.
  apply Z.lt_le_incl. eapply filter_loops_last; [exact E|by apply elem_of_reverse].
Qed.

Lemma innermost_top i h e : innermost code i h e -> exists rest, around labels i = (h, e) :: rest.
Proof.
  intros (Hl & Hi & Hm). assert ((h, e) ∈ around labels i) as Hin by by apply elem_of_around.
  destruct (around labels i) as [|[h' e'] rest] eqn:E; [by apply elem_of_nil in Hin|].
  apply around_top in E as (Hl' & Hi' & Hm'). exists rest.
  assert (h = h') as -> by (apply Z.le_antisymm; [by eapply Hm'|by eapply Hm]).
  by rewrite (loop_head_unique _ _ _ Hl Hl').
Qed.

(** * The walk *)

(** The walk with the stack computed from the labels. *)
Fixpoint visit (check : LoopStack -> CodeOffset -> Bytecode -> result StatusCode ()) (i : Z)
    (rest : list Bytecode) : result StatusCode () :=
  match rest with
  | [] => Ok ()
  | instr :: rest => check (around labels i) i instr;; visit check (i + 1) rest
  end.

Lemma check_code_loop_visit check pre rest :
  code = pre ++ rest ->
  (forall i instr, 0 <= i -> code !! Z.to_nat i = Some instr ->
     check (around labels i) i instr = Ok () -> continues_to_top i instr) ->
  check_code_loop check (zlen pre) rest (drop (length pre) labels) (pending labels (zlen pre))
  = visit check (zlen pre) rest.
Proof.
  intros E Htop. revert pre E. induction rest as [|instr rest IH]; intros pre E; [done|].
  assert (code !! length pre = Some instr) as Hi by (rewrite E; by apply list_lookup_middle).
  assert (zlen pre < zlen code) as Hlt by (rewrite E, length_app; simpl; lia).
  destruct (lookup_lt_is_Some_2 labels (length pre)) as [lab Hl]; [destruct Hlab; lia|].
  cbn [check_code_loop visit]. rewrite code_offset_ok by lia. cbn [mbind result_bind].
  rewrite (drop_S _ _ _ Hl). cbv zeta.
  assert (0 <= zlen pre) as H0 by lia.
  pose proof (around_push (zlen pre) lab H0 ltac:(by rewrite Nat2Z.id)) as Ea.
  match goal with |- context [check ?st _ instr] =>
    replace st with (around labels (zlen pre)) by (rewrite Ea; by destruct lab) end.
  destruct (check (around labels (zlen pre)) (zlen pre) instr) as [[]| | |] eqn:Ec; try done.
  cbn [mbind result_bind]. rewrite pop_loop_around; [|lia|by rewrite Nat2Z.id|].
  2:{ apply Htop; [lia|by rewrite Nat2Z.id|done]. }
  cbn [mbind result_bind]. specialize (IH (pre ++ [instr])). rewrite length_app in IH. simpl in IH.
  rewrite Nat2Z.inj_add in IH. rewrite Nat.add_1_r in IH. apply IH. by rewrite <- app_assoc.
Qed.

Lemma pending_0 : pending labels 0 = [].
Proof.
  unfold pending. rewrite filter_none; [done|]. intros [h e] [Hh _]%elem_of_loops_from. simpl. lia.
Qed.

Lemma check_code_visit f check :
  (forall i instr, 0 <= i -> code !! Z.to_nat i = Some instr ->
     check (around labels i) i instr = Ok () -> continues_to_top i instr) ->
  check_code (ControlFlowVerifier.mk f code) labels check = visit check 0 code.
Proof.
  intros H. pose proof (check_code_loop_visit check [] code eq_refl H) as Hv.
  change (zlen []) with 0 in Hv. by rewrite pending_0 in Hv.
Qed.

Lemma visit_ok check pre rest :
  code = pre ++ rest ->
  visit check (zlen pre) rest = Ok () <->
  forall i instr, zlen pre <= i -> code !! Z.to_nat i = Some instr ->
    check (around labels i) i instr = Ok ().
Proof.
  intros E. revert pre E. induction rest as [|instr rest IH]; intros pre E; cbn [visit].
  { split; [|done]. intros _ i b Hi Hb%lookup_lt_Some. rewrite E, app_nil_r in Hb. lia. }
  assert (code !! length pre = Some instr) as Hi by (rewrite E; by apply list_lookup_middle).
  specialize (IH (pre ++ [instr])). rewrite length_app, Nat2Z.inj_add in IH. simpl in IH.
  rewrite <- app_assoc in IH. specialize (IH E). rewrite res_bind_ok. split.
  - intros ([] & Hc & Hv) i b Hle Hb. destruct (Z.eq_dec i (zlen pre)) as [-> |Hne].
    + rewrite Nat2Z.id in Hb. congruence.
    + apply (proj1 IH Hv); [lia|done].
  - intros H. exists (). split; [apply H; [lia|by rewrite Nat2Z.id]|].
    apply IH. intros i b Hle. apply H. lia.
Qed.

Lemma visit_safe check pre rest :
  code = pre ++ rest ->
  (forall i instr, 0 <= i -> code !! Z.to_nat i = Some instr -> safe (check (around labels i) i instr)) ->
  safe (visit check (zlen pre) rest).
Proof.
  intros E H. revert pre E. induction rest as [|instr rest IH]; intros pre E; cbn [visit]; [done|].
  assert (code !! length pre = Some instr) as Hi by (rewrite E; by apply list_lookup_middle).
  apply safe_bind; [apply H; [lia|by rewrite Nat2Z.id]|]. intros _ _.
  specialize (IH (pre ++ [instr])). rewrite length_app, Nat2Z.inj_add in IH. apply IH.
  by rewrite <- app_assoc.
Qed.

(** * Loop depths *)

Lemma elem_of_last_continues i : i ∈ last_continues labels <-> exists h, is_loop code h i.
Proof.
  unfold last_continues. rewrite list_elem_of_omap. split.
  - intros (lab & Hin & Hlab'). destruct lab as [e|]; [|done]. injection Hlab' as ->.
    apply list_elem_of_lookup in Hin as [n Hn]. exists (Z.of_nat n).
    apply elem_of_loops, elem_of_loops_from. rewrite Z.sub_0_r, Nat2Z.id. split; [lia|done].
  - intros [h H%elem_of_loops%elem_of_loops_from]. rewrite Z.sub_0_r in H. destruct H as [_ H].
    exists (Loop i). split; [by eapply list_elem_of_lookup_2|done].
Qed.

Lemma pending_length i h :
  is_loop code h i -> zlen (around labels i) = zlen (pending labels (i + 1)) + 1.
Proof.
  intros Hl. rewrite pending_pop. pose proof (is_loop_nonneg _ _ Hl).
  assert ((h, i) ∈ around labels i) as [l Hp]%elem_of_Permutation
    by (apply elem_of_around; split; [done|lia]).
  pose proof (around_NoDup labels i) as Hnd. rewrite Hp in Hnd.
  apply list.NoDup_cons in Hnd as [Hnin _].
  rewrite (Permutation_length (filter_Permutation _ _ _ Hp)), (Permutation_length Hp).
  rewrite filter_cons_False by (simpl; tauto).
  rewrite (filter_ext_in _ (fun _ => True)), filter_always; [simpl; lia|].
  intros [h' e'] Hin. simpl. split; [done|]. intros _ ->. apply Hnin.
  assert ((h', i) ∈ around labels i) as [Hl' _]%elem_of_around by (rewrite Hp; by right).
  by rewrite (loop_end_unique _ _ _ Hl Hl').
Qed.

Lemma pending_same i : (forall h, ~ is_loop code h i) -> pending labels (i + 1) = around labels i.
Proof.
  intros Hn. rewrite pending_pop, (filter_ext_in _ (fun _ => True)), filter_always; [done|].
  intros [h e] [Hl _]%elem_of_around. simpl. split; [done|]. intros _ ->. by eapply Hn.
Qed.

Lemma count_loop_depth_loop_ok pre rest :
  labels = pre ++ rest ->
  count_loop_depth_loop (last_continues labels) (zlen pre) rest (zlen (pending labels (zlen pre)))
  = Ok (map (fun i => zlen (around labels i)) (seqZ (zlen pre) (zlen rest))).
Proof.
  revert pre. induction rest as [|lab rest IH]; intros pre E; [done|].
  assert (labels !! length pre = Some lab) as Hl by (rewrite E; by apply list_lookup_middle).
  assert (zlen pre < zlen code) as Hlt
    by (destruct Hlab as [<- _]; rewrite E, length_app; simpl; lia).
  rewrite seqZ_cons by (simpl; lia). cbn [count_loop_depth_loop map].
  assert (0 <= zlen pre) as H0 by lia.
  pose proof (around_push (zlen pre) lab H0 ltac:(by rewrite Nat2Z.id)) as Ea.
  replace (match lab with Loop _ => zlen (pending labels (zlen pre)) + 1
           | Code => zlen (pending labels (zlen pre)) end) with (zlen (around labels (zlen pre)))
    by (rewrite Ea; destruct lab; simpl; lia).
  rewrite code_offset_ok by lia. cbn [mbind result_bind].
  replace (Z.pred (zlen (lab :: rest))) with (zlen rest) by (simpl; lia).
  specialize (IH (pre ++ [lab])). rewrite length_app, Nat2Z.inj_add in IH.
  rewrite <- app_assoc in IH. specialize (IH E). change (zlen [lab]) with 1 in IH.
  case_bool_decide as Hc; rewrite elem_of_last_continues in Hc.
  - destruct Hc as [h Hh]. pose proof (pending_length _ _ Hh) as Hpl.
    destruct (Z.eqb_spec (zlen (around labels (zlen pre))) 0); [lia|]. cbn [mbind result_bind].
    replace (zlen (around labels (zlen pre)) - 1) with (zlen (pending labels (zlen pre + 1))) by lia.
    by rewrite IH.
  - cbn [mbind result_bind]. rewrite pending_same in IH; [|intros h Hh; apply Hc; by exists h].
    by rewrite IH.
Qed.

Lemma count_loop_depth_ok :
  exists depths, count_loop_depth labels = Ok depths /\
    forall i, 0 <= i < zlen code -> depths !! Z.to_nat i = Some (zlen (around labels i)).
Proof.
  pose proof (count_loop_depth_loop_ok [] labels eq_refl) as H.
  change (zlen []) with 0 in H. rewrite pending_0 in H. eexists. split; [exact H|].
  intros i Hi. rewrite list_lookup_fmap, lookup_seqZ_lt; [simpl; by rewrite Z2Nat.id by lia|].
  destruct Hlab as [-> _]. lia.
Qed.
End walk.
