(* ===== verification/ControlFlowTheorems.v ===== *)
(** The properties of the control flow verifier: it is total on bounds-checked code, it
    accepts exactly the bodies that follow the three rules of its documentation, and
    the loops of an accepted body have a single entry, their head. *)
From S2P Require Import Prelude StatusCode Abilities Identifier FileFormat BinaryCommon WellFormed Access.
From S2P Require Import BoundsChecker BoundsSpec BoundsTheorems ControlFlow ControlFlowSpec.
Import ControlFlow.

Lemma filter_length_eq {A} (P Q : A -> Prop) `{forall x, Decision (P x)} `{forall x, Decision (Q x)}
    (l : list A) :
  (forall x, x ∈ l -> P x -> Q x) ->
  length (filter P l) = length (filter Q l) <-> (forall x, x ∈ l -> Q x -> P x).
Proof.
  intros HPQ. split; [|intros HQP; f_equal; apply filter_ext_in; intros x Hx; split; eauto].
  intros E x Hx HQ. destruct (decide (P x)) as [|Hn]; [done|exfalso].
  assert (filter P l = filter P (filter Q l)) as Ef.
  { rewrite list_filter_filter. apply filter_ext_in. intros y Hy. split; [|tauto]. eauto. }
  assert (length (filter P (filter Q l)) < length (filter Q l))%nat as Hlt
    by (eapply length_filter_lt; [by apply list_elem_of_filter|done]).
  rewrite <- Ef in Hlt. lia.
Qed.

Section accept.
Context (code : list Bytecode) (labels : list Label).
Hypothesis Hlen : zlen code <= u16_max + 1.
Hypothesis Htgt : targets_ok code.
Hypothesis Hlab : labels_for code labels.

Lemma jumps_at i instr t :
  0 <= i -> code !! Z.to_nat i = Some instr -> jumps code i t <-> jump instr = Some t.
Proof.
  intros Hi Hc. split; [|intros Hj; split; [done|by exists instr]].
  intros (_ & b & Hb & Hj). congruence.
Qed.

Lemma back_edge_dec i h : 0 <= i -> back_edge code i h \/ ~ back_edge code i h.
Proof.
  intros Hi. destruct (code !! Z.to_nat i) as [b|] eqn:E.
  - destruct (decide (jump b = Some h /\ h <= i)) as [[Hj Hle]|Hn].
    + left. split; [by eapply jumps_at|done].
    + right. intros [Hj Hle]. apply Hn. split; [by eapply jumps_at|done].
  - right. intros [(_ & b & Hb & _) _]. congruence.
Qed.

Lemma last_back_edge (n : nat) h i :
  i < Z.of_nat n -> back_edge code i h ->
  exists e, back_edge code e h /\ forall j, j < Z.of_nat n -> back_edge code j h -> j <= e.
Proof.
  revert i. induction n as [|n IH]; intros i Hi Hb.
  { destruct Hb as [Hb _]. apply jumps_lt in Hb. lia. }
  destruct (back_edge_dec (Z.of_nat n) h ltac:(lia)) as [Hn|Hn].
  - exists (Z.of_nat n). split; [done|]. intros j Hj _. lia.
  - assert (forall j, j < Z.of_nat (S n) -> back_edge code j h -> j < Z.of_nat n) as Hlt.
    { intros j Hj Hbj. destruct (Z.eq_dec j (Z.of_nat n)) as [-> |]; [done|lia]. }
    destruct (IH i (Hlt i Hi Hb) Hb) as (e & He & Hm). exists e. split; [done|]. eauto.
Qed.

(** A back edge is inside the loop it closes. *)
Lemma back_edge_loop i h : back_edge code i h -> exists e, is_loop code h e /\ h <= i <= e.
Proof.
  intros Hb. pose proof Hb as [Hj Hle]. pose proof (jumps_lt _ _ _ Hj).
  destruct (last_back_edge (length code) h i ltac:(lia) Hb) as (e & He & Hm).
  exists e. assert (is_loop code h e) as Hl.
  { split; [done|]. intros j Hbj. apply Hm; [|done]. destruct Hbj as [Hjj _].
    apply jumps_lt in Hjj. lia. }
  split; [done|]. split; [done|]. by apply Hl.
Qed.

(** * Each check at one instruction *)

Section instruction.
Context (i : Z) (instr : Bytecode).
Hypothesis Hi : 0 <= i.
Hypothesis Hc : code !! Z.to_nat i = Some instr.

Lemma check_continue_safe : safe (check_continue (around labels i) i instr).
Proof.
  unfold check_continue. destruct (jump instr) as [t|] eqn:Ej; [|done].
  unfold is_back_edge. destruct (Z.leb_spec t i) as [Hle|]; [|done].
  destruct (back_edge_loop i t) as (e & Hl); [split; [by eapply jumps_at|done]|].
  apply (elem_of_around code labels) in Hl; [|done..].
  destruct (around labels i) as [|[h e'] rest]; [by apply elem_of_nil in Hl|].
  by destruct (negb _).
Qed.

Lemma check_continue_top :
  check_continue (around labels i) i instr = Ok () <-> continues_to_top labels i instr.
Proof.
  unfold check_continue, continues_to_top, is_back_edge.
  destruct (jump instr) as [t|]; [|by split].
  destruct (Z.leb_spec t i) as [Hle|]; [|split; [intros _ ? [= <-]; lia|done]].
  destruct (around labels i) as [|[h e] rest].
  { split; [done|]. intros H. by destruct (H t eq_refl Hle) as (? & ? & ?). }
  destruct (Z.eqb_spec t h) as [-> |Hne]; simpl.
  - split; [|done]. intros _ t [= <-] _. eauto.
  - split; [done|]. intros H. destruct (H t eq_refl Hle) as (? & ? & [= -> -> ->]). done.
Qed.

Lemma check_continue_ok :
  check_continue (around labels i) i instr = Ok () <->
  forall h, back_edge code i h -> exists e, innermost code i h e.
Proof.
  rewrite check_continue_top. split.
  - intros H h [Hj Hle]. apply (jumps_at i instr) in Hj; [|done..].
    destruct (H h Hj Hle) as (e & rest & E). exists e. by eapply around_top.
  - intros H t Hj Hle. destruct (H t) as (e & Hin); [split; [by eapply jumps_at|done]|].
    apply (innermost_top code labels) in Hin as [rest E]; [|done..]. eauto.
Qed.

Lemma check_break_safe : safe (check_break (around labels i) i instr).
Proof.
  unfold check_break. destruct (jump instr) as [t|] eqn:Ej; [|done].
  assert (0 <= t < zlen code) as Ht by (eapply Htgt, jumps_at; done).
  destruct (negb _); [|done]. destruct (around labels i) as [|[h e] rest]; [done|].
  destruct (Z.ltb_spec e t); [|done]. rewrite code_offset_ok by lia. simpl. by destruct (negb _).
Qed.

Lemma check_break_ok :
  check_break (around labels i) i instr = Ok () <->
  forall t h e, jumps code i t -> i < t -> innermost code i h e -> e < t -> t = e + 1.
Proof.
  unfold check_break. destruct (jump instr) as [t|] eqn:Ej.
  2:{ split; [|done]. intros _ t h e Hj. apply (jumps_at i instr) in Hj; [|done..]. congruence. }
  assert (jumps code i t) as Hjt by (by eapply jumps_at).
  assert (0 <= t < zlen code) as Ht by (by eapply Htgt).
  unfold is_back_edge. destruct (Z.leb_spec t i) as [Hle|Hgt]; simpl.
  { split; [|done]. intros _ t' h e Hj Hlt. rewrite (jumps_inj _ _ _ _ Hj Hjt) in Hlt. lia. }
  destruct (around labels i) as [|[h e] rest] eqn:Ea.
  { split; [|done]. intros _ t' h e _ _ Hin.
    apply (innermost_top code labels) in Hin as [? E]; [congruence|done..]. }
  assert (innermost code i h e) as Hin by (by eapply around_top).
  assert (forall h' e', innermost code i h' e' -> e' = e) as Heq.
  { intros h' e' Hin'. apply (innermost_top code labels) in Hin' as [? E]; [congruence|done..]. }
  destruct (Z.ltb_spec e t) as [Het|Het].
  - rewrite code_offset_ok by lia. cbn [mbind result_bind].
    destruct (Z.eqb_spec t (e + 1)) as [E|E]; simpl.
    + split; [|done]. intros _ t' h' e' Hj _ ->%Heq _. by rewrite (jumps_inj _ _ _ _ Hj Hjt).
    + split; [done|]. intros H. by destruct (E (H t h e Hjt Hgt Hin Het)).
  - split; [|done]. intros _ t' h' e' Hj _ ->%Heq. rewrite (jumps_inj _ _ _ _ Hj Hjt). lia.
Qed.
End instruction.

(** * Nesting *)

Section nested.
Hypothesis Hcont : forall i h, back_edge code i h -> exists e, innermost code i h e.

(** Loops are properly nested. *)
Lemma loops_nested h1 e1 h2 e2 :
  is_loop code h1 e1 -> is_loop code h2 e2 -> h1 < h2 <= e1 -> e2 < e1.
Proof.
  intros Hl1 Hl2 Hh. destruct (Z.lt_ge_cases e2 e1) as [|Hge]; [done|exfalso].
  destruct (Hcont e1 h1) as (e & _ & _ & Hm); [apply Hl1|].
  specialize (Hm h2 e2 Hl2 ltac:(lia)). lia.
Qed.

(** A forward jump that does not leave the innermost loop leaves none. *)
Lemma around_contains i t h e :
  i < t -> (forall h0 e0, innermost code i h0 e0 -> t <= e0) ->
  is_loop code h e -> h <= i <= e -> h < t <= e.
Proof.
  intros Hlt Hin Hl Hie. split; [lia|].
  assert ((h, e) ∈ around labels i) as Ha by (by apply (elem_of_around code)).
  destruct (around labels i) as [|[h0 e0] rest] eqn:Ea; [by apply elem_of_nil in Ha|].
  assert (innermost code i h0 e0) as Hi0 by (by eapply around_top).
  pose proof (Hin _ _ Hi0) as Ht. destruct Hi0 as (Hl0 & Hr0 & Hm0).
  specialize (Hm0 h e Hl Hie). destruct (Z.eq_dec h h0) as [-> |Hne].
  - by rewrite (loop_head_unique code _ _ _ Hl Hl0).
  - pose proof (loops_nested h e h0 e0 Hl Hl0 ltac:(lia)). lia.
Qed.

Lemma depth_eq i t :
  0 <= i -> i < t -> (forall h0 e0, innermost code i h0 e0 -> t <= e0) ->
  zlen (around labels i) = zlen (pending labels t) <->
  forall h e, is_loop code h e -> h < t <= e -> h <= i.
Proof.
  intros Hi Hlt Hin. unfold around, pending. rewrite !length_reverse, Nat2Z.inj_iff.
  rewrite filter_length_eq.
  - split.
    + intros H h e Hl He. apply (elem_of_loops code labels) in Hl; [|done..].
      by destruct (H (h, e) Hl He).
    + intros H [h e] Hl He. apply (elem_of_loops code labels) in Hl; [|done..]. simpl in *.
      specialize (H h e Hl He). lia.
  - intros [h e] Hl He. apply (elem_of_loops code labels) in Hl; [|done..]. simpl in *.
    by eapply around_contains.
Qed.

Section split.
Context (depths : list Z).
Hypothesis Hdep : forall i, 0 <= i < zlen code -> depths !! Z.to_nat i = Some (zlen (around labels i)).
Context (i : Z) (instr : Bytecode).
Hypothesis Hi : 0 <= i.
Hypothesis Hc : code !! Z.to_nat i = Some instr.

Lemma is_break_spec t :
  is_break (around labels i) t = false <-> forall h e, innermost code i h e -> t <= e.
Proof.
  unfold is_break. destruct (around labels i) as [|[h e] rest] eqn:Ea.
  { split; [|done]. intros _ h e Hin.
    apply (innermost_top code labels) in Hin as [? E]; [congruence|done..]. }
  rewrite Z.ltb_ge. split.
  - intros Hle h' e' Hin. apply (innermost_top code labels) in Hin as [? E]; [|done..].
    rewrite Ea in E. by injection E as <- <- _.
  - intros H. apply (H h). by eapply around_top.
Qed.

(** The check computes the two depths and compares them. *)
Lemma check_no_loop_split_eq t :
  jump instr = Some t -> i < t -> is_break (around labels i) t = false ->
  check_no_loop_split labels depths (around labels i) i instr =
    if negb (zlen (around labels i) =? zlen (pending labels t)) then Err INVALID_LOOP_SPLIT
    else Ok ().
Proof.
  intros Ej Hlt Hb. unfold check_no_loop_split. rewrite Ej, Hb.
  destruct (Z.ltb_spec i t); [|lia]. cbn [andb negb].
  assert (0 <= t < zlen code) as Ht by (eapply Htgt, jumps_at; done).
  destruct (lookup_lt_is_Some_2 labels (Z.to_nat t)) as [lab El]; [destruct Hlab; lia|].
  rewrite !Hdep, El by lia. cbn [unwrap mbind result_bind].
  pose proof (around_push code labels Htgt Hlab t lab ltac:(lia) El) as Ea.
  destruct lab as [e|]; rewrite Ea; [|done]. simpl length.
  destruct (Z.eqb_spec (Z.of_nat (S (length (pending labels t)))) 0); [lia|]. cbn [mbind result_bind].
  by replace (Z.of_nat (S (length (pending labels t))) - 1) with (zlen (pending labels t)) by lia.
Qed.

Lemma check_no_loop_split_safe :
  safe (check_no_loop_split labels depths (around labels i) i instr).
Proof.
  destruct (jump instr) as [t|] eqn:Ej; [|by unfold check_no_loop_split; rewrite Ej].
  destruct (decide (i < t /\ is_break (around labels i) t = false)) as [[Hlt Hb]|Hn].
  - rewrite (check_no_loop_split_eq t) by done. by destruct (negb _).
  - unfold check_no_loop_split. rewrite Ej.
    destruct (Z.ltb_spec i t), (is_break (around labels i) t); simpl; try done. tauto.
Qed.

Lemma check_no_loop_split_ok :
  check_no_loop_split labels depths (around labels i) i instr = Ok () <->
  forall t h e, jumps code i t -> i < t -> (forall h0 e0, innermost code i h0 e0 -> t <= e0) ->
    is_loop code h e -> h < t <= e -> h <= i.
Proof.
  destruct (jump instr) as [t|] eqn:Ej.
  2:{ unfold check_no_loop_split. rewrite Ej. split; [|done]. intros _ t h e Hj.
      apply (jumps_at i instr) in Hj; [|done..]. congruence. }
  assert (jumps code i t) as Hjt by (by eapply jumps_at).
  destruct (decide (i < t /\ is_break (around labels i) t = false)) as [[Hlt Hb]|Hn].
  - rewrite (check_no_loop_split_eq t) by done. rewrite is_break_spec in Hb.
    pose proof (depth_eq i t Hi Hlt Hb) as Hd.
    destruct (Z.eqb_spec (zlen (around labels i)) (zlen (pending labels t))) as [E|E]; simpl.
    + split; [|done]. intros _ t' h e Hj. rewrite (jumps_inj _ _ _ _ Hj Hjt). intros _ _.
      by apply Hd.
    + split; [done|]. intros H. destruct E. apply Hd. intros h e. by apply (H t).
  - assert (check_no_loop_split labels depths (around labels i) i instr = Ok ()) as ->.
    { unfold check_no_loop_split. rewrite Ej.
      destruct (Z.ltb_spec i t), (is_break (around labels i) t); simpl; try done. tauto. }
    split; [|done]. intros _ t' h e Hj. rewrite (jumps_inj _ _ _ _ Hj Hjt).
    intros Hlt Hb. rewrite <- is_break_spec in Hb. tauto.
Qed.
End split.
End nested.

(** * The three passes *)

Abbreviation continues_rule :=
  (forall i h, back_edge code i h -> exists e, innermost code i h e).

Lemma visit_all check :
  visit labels check 0 code = Ok () <->
  forall i instr, 0 <= i -> code !! Z.to_nat i = Some instr ->
    check (around labels i) i instr = Ok ().
Proof. apply (visit_ok code labels check [] code eq_refl). Qed.

Lemma check_continues_visit f :
  check_continues (ControlFlowVerifier.mk f code) labels = visit labels check_continue 0 code.
Proof.
  apply check_code_visit; [done..|]. intros i instr Hi Hc. by apply check_continue_top.
Qed.

Lemma check_continues_ok f :
  check_continues (ControlFlowVerifier.mk f code) labels = Ok () <-> continues_rule.
Proof.
  rewrite check_continues_visit, visit_all. split.
  - intros H i h Hb. pose proof Hb as [(Hi & b & Hc & _) _].
    by apply (check_continue_ok i b Hi Hc); [apply H|].
  - intros H i instr Hi Hc. apply check_continue_ok; eauto.
Qed.

(** After the first pass the other two walk over the same stacks. *)
Lemma check_code_after f check :
  continues_rule ->
  check_code (ControlFlowVerifier.mk f code) labels check = visit labels check 0 code.
Proof.
  intros H. apply check_code_visit; [done..|]. intros i instr Hi Hc _.
  apply check_continue_top. apply check_continue_ok; eauto.
Qed.

Lemma check_breaks_ok f :
  continues_rule ->
  check_breaks (ControlFlowVerifier.mk f code) labels = Ok () <->
  forall i t h e, jumps code i t -> i < t -> innermost code i h e -> e < t -> t = e + 1.
Proof.
  intros Hcont. unfold check_breaks. rewrite check_code_after, visit_all by done. split.
  - intros H i t h e Hj. pose proof Hj as (Hi & b & Hc & _).
    by apply (check_break_ok i b Hi Hc); [apply H|].
  - intros H i instr Hi Hc. apply check_break_ok; eauto.
Qed.

(** A break lands right after its loop, so it enters no other loop in the middle. *)
Lemma break_no_split i t h0 e0 h e :
  continues_rule -> innermost code i h0 e0 -> t = e0 + 1 ->
  is_loop code h e -> h < t <= e -> h <= i.
Proof.
  intros Hcont (Hl0 & Hi0 & Hm0) -> Hl He. destruct (Z.le_gt_cases h i) as [|Hgt]; [done|exfalso].
  pose proof (loops_nested Hcont h0 e0 h e Hl0 Hl ltac:(lia)). lia.
Qed.

Lemma check_jumps_ok f :
  safe (check_jumps (ControlFlowVerifier.mk f code) labels) /\
  (check_jumps (ControlFlowVerifier.mk f code) labels = Ok () <-> well_structured code).
Proof.
  unfold check_jumps, check_no_loop_splits.
  destruct (count_loop_depth_ok code labels) as (depths & -> & Hdep); [done..|].
  cbn [mbind result_bind].
  destruct (check_continues (ControlFlowVerifier.mk f code) labels) as [[]|e| |] eqn:Ec.
  2,3,4: pose proof (visit_safe code labels check_continue [] code eq_refl) as Hs;
    change (zlen []) with 0 in Hs; rewrite <- (check_continues_visit f), Ec in Hs;
    (split; [apply Hs; intros; by apply check_continue_safe|]);
    (split; [done|]); intros [Hcont _ _]; apply (check_continues_ok f) in Hcont; congruence.
  cbn [mbind result_bind]. pose proof (proj1 (check_continues_ok f) Ec) as Hcont. split.
  - apply safe_bind; [|intros _ _]; unfold check_breaks; rewrite check_code_after by done;
      apply (visit_safe code labels _ [] code eq_refl); intros i instr Hi Hc;
      [by apply check_break_safe|by apply check_no_loop_split_safe].
  - rewrite seq_ok, (check_code_after f _ Hcont), visit_all. split.
    + intros (Hb & Hs). rewrite check_breaks_ok in Hb by done. constructor; [done|done|].
      intros i t h e Hj Hlt Hl He. pose proof Hj as (Hi & b & Hc & _).
      destruct (is_break (around labels i) t) eqn:Eb.
      * unfold is_break in Eb. destruct (around labels i) as [|[h0 e0] rest] eqn:Ea; [done|].
        apply Z.ltb_lt in Eb. assert (innermost code i h0 e0) as Hin by (by eapply around_top).
        eapply (break_no_split i t h0 e0); eauto.
      * rewrite is_break_spec in Eb.
        pose proof (proj1 (check_no_loop_split_ok Hcont depths Hdep i b Hi Hc) (Hs i b Hi Hc)). eauto.
    + intros [_ Hb Hs]. split; [by apply check_breaks_ok|].
      intros i instr Hi Hc. apply check_no_loop_split_ok; eauto.
Qed.
End accept.

(** * The verifier *)

(** The body ends with an instruction that does not fall through. *)
Definition ends_with_branch (code : list Bytecode) : Prop :=
  exists b, list.last code = Some b /\ Bytecode.is_unconditional_branch b = true.

Lemma verify_ok f (c : CodeUnit) :
  zlen c.(CodeUnit.code) <= u16_max + 1 -> targets_ok c.(CodeUnit.code) ->
  safe (verify f c) /\
  (verify f c = Ok () <-> ends_with_branch c.(CodeUnit.code) /\ well_structured c.(CodeUnit.code)).
Proof.
  intros Hlen Ht. unfold verify, ends_with_branch.
  destruct (instruction_labels_ok (default 0 f) _ Hlen Ht) as (labels & El & Hlab).
  destruct (list.last c.(CodeUnit.code)) as [b|]; [|by split; [|split; [|intros [(? & ? & _) _]]]].
  destruct (Bytecode.is_unconditional_branch b) eqn:Eb; cbn [negb].
  - rewrite El. cbn [mbind result_bind].
    destruct (check_jumps_ok _ labels Hlen Ht Hlab (default 0 f)) as [Hs Ho].
    split; [done|]. rewrite Ho. split; [|by intros [_ ?]]. intros Hw. split; [by exists b|done].
  - split; [done|]. split; [done|]. intros [(b' & [= <-] & E) _]. congruence.
Qed.

(** C4: the control flow verifier is correct.  On a body whose jumps stay inside it,
    [control_flow::verify] does not panic (its stack is never empty at a back edge,
    its loop depths never underflow), and it accepts exactly the bodies that end with
    an unconditional branch and follow the three rules of its documentation: continues
    are to the innermost loop, breaks go right after it, forward jumps do not enter
    the middle of a loop. *)
Theorem control_flow_verify_correct (f : option FunctionDefinitionIndex) (c : CodeUnit) :
  zlen c.(CodeUnit.code) <= u16_max + 1 -> targets_ok c.(CodeUnit.code) ->
  safe (verify f c) /\
  (verify f c = Ok () <-> ends_with_branch c.(CodeUnit.code) /\ well_structured c.(CodeUnit.code)).
Proof. apply verify_ok. Qed.

(** A loop with a conditional continue and a break. *)
Definition loop_code : list Bytecode :=
  [Bytecode.LdTrue; Bytecode.BrTrue 4; Bytecode.LdFalse; Bytecode.BrFalse 0; Bytecode.Ret].

Lemma targets_ok_forallb code :
  forallb (fun b => match jump b with Some t => (0 <=? t) && (t <? zlen code) | None => true end) code
  = true -> targets_ok code.
Proof.
  intros H i t (_ & b & Hb & Hj). rewrite forallb_forall in H.
  specialize (H b (proj1 (list_elem_of_In _ _) (list_elem_of_lookup_2 _ _ _ Hb))).
  rewrite Hj in H. bool_hyps. lia.
Qed.

Lemma control_flow_verify_correct_witness :
  safe (verify None (CodeUnit.mk 0 loop_code)) /\
  (verify None (CodeUnit.mk 0 loop_code) = Ok () <->
   ends_with_branch loop_code /\ well_structured loop_code).
Proof.
  apply (control_flow_verify_correct None (CodeUnit.mk 0 loop_code));
    [vm_compute; discriminate|apply targets_ok_forallb; reflexivity].
Defined.

(** * Verified modules *)

Lemma jump_offset b : jump b = Bytecode.offset b.
Proof. by destruct b. Qed.

Lemma wf_offset b t : wf_bytecode b = true -> Bytecode.offset b = Some t -> 0 <= t.
Proof. destruct b; simpl; try done; intros H%in_range_spec [= <-]; lia. Qed.

Lemma verified_targets_ok m d c :
  wf_module m = true -> BoundsChecker.verify_module m = Ok () ->
  d ∈ m.(CompiledModule.function_defs) -> d.(FunctionDefinition.code) = Some c ->
  targets_ok c.(CodeUnit.code).
Proof.
  intros Hwf [_ Hin]%verify_module_ok Hd Hc i t (Hi & b & Hb & Hj). rewrite jump_offset in Hj.
  apply list_elem_of_lookup_2, list_elem_of_In in Hb.
  pose proof (function_defs_in _ Hin) as Hdefs. rewrite Forall_forall in Hdefs.
  destruct (Hdefs d) as (_ & _ & Hok); [by apply list_elem_of_In|].
  destruct (Hok c Hc) as (h & ps & ls & _ & _ & _ & _ & ls' & _ & _ & Hio).
  rewrite Forall_forall in Hio. split; [|by eapply offset_in_bounds; [apply Hio|]].
  eapply wf_offset; [|exact Hj]. unfold wf_module in Hwf. bool_hyps.
  match goal with H : forallb wf_function_definition _ = true |- _ => rename H into Hfd end.
  rewrite forallb_forall in Hfd. specialize (Hfd d (proj1 (list_elem_of_In _ _) Hd)).
  unfold wf_function_definition, wf_code_unit in Hfd. rewrite Hc in Hfd. bool_hyps.
  match goal with H : forallb wf_bytecode _ = true |- _ => rewrite forallb_forall in H; by apply H end.
Qed.

(** The passes compose.  For every function with a body of at most 65536
    instructions in a module that the bounds checker accepts, the control flow verifier
    returns success or an error and does not panic. *)
Theorem verified_control_flow_total (m : CompiledModule) (d : FunctionDefinition) (c : CodeUnit)
    (f : option FunctionDefinitionIndex) :
  wf_module m = true -> BoundsChecker.verify_module m = Ok () ->
  d ∈ m.(CompiledModule.function_defs) -> d.(FunctionDefinition.code) = Some c ->
  zlen c.(CodeUnit.code) <= u16_max + 1 -> safe (verify f c).
Proof. intros. apply verify_ok; [done|by eapply verified_targets_ok]. Qed.

Lemma verified_control_flow_total_witness : safe (verify (Some 0) (CodeUnit.mk 0 [Bytecode.Ret])).
Proof.
  eapply (verified_control_flow_total basic_test_module);
    [reflexivity|vm_compute; reflexivity|left|reflexivity|vm_compute; discriminate].
Defined.

(** * Loops of an accepted body *)

(** The only way into a loop is through its head. *)
Lemma single_entry code i b s h e :
  targets_ok code -> well_structured code -> 0 <= i -> code !! Z.to_nat i = Some b ->
  successor code i b s -> is_loop code h e -> h < s <= e -> h <= i <= e.
Proof.
  intros Ht Hw Hi Hb Hs Hl He. destruct Hs as [Ho|(-> & _ & _)]; [|lia].
  assert (jumps code i s) as Hj by (split; [done|exists b; by rewrite jump_offset]).
  destruct (Z.lt_ge_cases i s) as [Hlt|Hge].
  - pose proof (no_loop_split _ Hw i s h e Hj Hlt Hl He). lia.
  - destruct (back_edge_loop code i s) as (e' & Hl' & Hi'); [by split|].
    pose proof (loops_nested code (continues_innermost _ Hw) h e s e' Hl Hl' He). lia.
Qed.

(** The instructions that control reaches from the first one without passing through
    the instruction [avoid]. *)
Inductive reaches_avoiding (code : list Bytecode) (avoid : Z) : Z -> Prop :=
| reaches_entry : avoid <> 0 -> reaches_avoiding code avoid 0
| reaches_step i b s :
    reaches_avoiding code avoid i -> code !! Z.to_nat i = Some b ->
    successor code i b s -> s <> avoid -> reaches_avoiding code avoid s.

Lemma reaches_nonneg code avoid i : targets_ok code -> reaches_avoiding code avoid i -> 0 <= i.
Proof.
  intros Ht. induction 1 as [|i b s _ IH Hb [Ho|(-> & _)] _]; [done| |lia].
  apply (Ht i). split; [done|]. exists b. by rewrite jump_offset.
Qed.

Lemma dominated code h e i :
  targets_ok code -> well_structured code -> is_loop code h e ->
  reaches_avoiding code h i -> ~ (h <= i <= e).
Proof.
  intros Ht Hw Hl Hr. pose proof (is_loop_nonneg _ Ht _ _ Hl) as H0.
  induction Hr as [|i b s Hr IH Hb Hs Hne]; [lia|]. intros He. apply IH.
  eapply single_entry; [done|done|by eapply reaches_nonneg|done|done|done|lia].
Qed.

(** C5: accepted bodies are reducible.  If [control_flow::verify] accepts a body, the
    head of each of its loops dominates the loop: control cannot get from the first
    instruction to an instruction of the loop without passing through the head.  This
    is what the abstract interpreter relies on when it takes a jump to a smaller
    offset for a loop back edge. *)
Theorem loop_head_dominates (f : option FunctionDefinitionIndex) (c : CodeUnit) (h e i : Z) :
  zlen c.(CodeUnit.code) <= u16_max + 1 -> targets_ok c.(CodeUnit.code) ->
  verify f c = Ok () -> is_loop c.(CodeUnit.code) h e ->
  reaches_avoiding c.(CodeUnit.code) h i -> ~ (h <= i <= e).
Proof.
  intros Hlen Ht Hv. pose proof (proj1 (proj2 (verify_ok f c Hlen Ht)) Hv) as [_ Hw].
  by apply dominated.
Qed.

(** A body that may skip its loop, which is from 2 to 4. *)
Definition skip_code : list Bytecode :=
  [Bytecode.LdTrue; Bytecode.BrTrue 5; Bytecode.LdTrue; Bytecode.BrFalse 5; Bytecode.Branch 2;
   Bytecode.Ret].

Lemma skip_code_loop : is_loop skip_code 2 4.
Proof.
  split; [split; [split; [lia|by exists (Bytecode.Branch 2)]|lia]|].
  intros i [Hj _]. pose proof (jumps_lt _ _ _ Hj) as Hi. destruct Hj as (_ & b & Hb & Hj).
  destruct (Z.le_gt_cases i 4) as [|Hgt]; [done|]. change (zlen skip_code) with 6 in Hi.
  replace i with 5 in Hb by lia. injection Hb as <-. done.
Qed.

Lemma skip_code_reaches : reaches_avoiding skip_code 2 5.
Proof.
  eapply (reaches_step _ _ 1 (Bytecode.BrTrue 5)); [|done|by left|done].
  eapply (reaches_step _ _ 0 Bytecode.LdTrue); [by constructor|done| |done]. right. done.
Qed.

Lemma loop_head_dominates_witness : ~ (2 <= 5 <= 4).
Proof.
  apply (loop_head_dominates None (CodeUnit.mk 0 skip_code) 2 4 5);
    [vm_compute; discriminate|apply targets_ok_forallb; reflexivity|vm_compute; reflexivity
    |apply skip_code_loop|apply skip_code_reaches].
Defined.
