(* ===== verification/BTree.v ===== *)
(** [BTreeSet] and [BTreeMap] with [u16] keys: lists in strictly ascending order of
    their keys, which is the order in which the library iterates over them. *)
From Stdlib Require Import Sorting.Sorted.
From S2P Require Import Prelude.

Module BTreeSet.
Definition BTreeSet : Set := list Z.
Definition empty : BTreeSet := [].

Fixpoint insert (x : Z) (s : BTreeSet) : BTreeSet :=
  match s with
  | [] => [x]
  | y :: s' => if x <? y then x :: s else if x =? y then s else y :: insert x s'
  end.

Definition contains (x : Z) (s : BTreeSet) : bool := bool_decide (x ∈ s).

(** [iter.collect()] *)
Definition collect (l : list Z) : BTreeSet := foldl (fun s x => insert x s) empty l.

Definition sorted (s : BTreeSet) : Prop := StronglySorted Z.lt s.

Lemma elem_of_insert x y s : y ∈ insert x s <-> y = x \/ y ∈ s.
Proof.
  induction s as [|z s IH]; simpl; [by rewrite list_elem_of_singleton, elem_of_nil; tauto|].
  destruct (Z.ltb_spec x z); [by rewrite elem_of_cons|].
  destruct (Z.eqb_spec x z) as [-> |]; rewrite !elem_of_cons; [tauto|]. rewrite IH. tauto.
Qed.

Lemma set_insert_sorted x s : sorted s -> sorted (insert x s).
Proof.
  induction 1 as [|y s Hs IH Hy]; simpl; [repeat constructor|].
  destruct (Z.ltb_spec x y) as [Hlt|Hge].
  - constructor; [by constructor|]. constructor; [done|].
    eapply Forall_impl; [|exact Hy]. simpl. lia.
  - destruct (Z.eqb_spec x y) as [-> |Hne]; [by constructor|]. constructor; [done|].
    apply Forall_forall. intros z [-> |Hz]%list_elem_of_In%elem_of_insert; [lia|].
    rewrite Forall_forall in Hy. by apply Hy, list_elem_of_In.
Qed.

Lemma foldl_insert l s x : x ∈ foldl (fun s x => insert x s) s l <-> x ∈ l \/ x ∈ s.
Proof.
  revert s. induction l as [|y l IH]; intros s; simpl; [rewrite elem_of_nil; tauto|].
  rewrite IH, elem_of_insert, elem_of_cons. tauto.
Qed.

Lemma elem_of_collect l x : x ∈ collect l <-> x ∈ l.
Proof. unfold collect. rewrite foldl_insert, elem_of_nil. tauto. Qed.

Lemma set_collect_sorted l : sorted (collect l).
Proof.
  unfold collect. assert (sorted empty) as H by constructor. revert H. generalize empty.
  induction l as [|y l IH]; intros s Hs; simpl; [done|]. by apply IH, set_insert_sorted.
Qed.

Lemma sorted_NoDup s : sorted s -> NoDup s.
Proof.
  induction 1 as [|x s Hs IH Hx]; constructor; [|done].
  intros Hin%list_elem_of_In. rewrite Forall_forall in Hx. specialize (Hx x Hin). lia.
Qed.

(** The set without [x]; [contains] tells whether [BTreeSet::remove] found it. *)
Fixpoint remove (x : Z) (s : BTreeSet) : BTreeSet :=
  match s with
  | [] => []
  | y :: s => if x =? y then s else y :: remove x s
  end.

Lemma elem_of_remove x y s : sorted s -> y ∈ remove x s <-> y ∈ s /\ y <> x.
Proof.
  induction 1 as [|z s Hs IH Hz]; simpl; [rewrite elem_of_nil; tauto|].
  rewrite elem_of_cons. destruct (Z.eqb_spec x z) as [-> |Hne].
  - split; [|by intros [[-> |?] ?]]. intros Hy. split; [by right|]. intros ->.
    rewrite Forall_forall in Hz. apply list_elem_of_In, Hz in Hy. lia.
  - rewrite elem_of_cons, IH. naive_solver congruence.
Qed.

Lemma set_remove_sorted x s : sorted s -> sorted (remove x s).
Proof.
  induction 1 as [|z s Hs IH Hz]; simpl; [constructor|].
  destruct (Z.eqb_spec x z); [done|]. constructor; [done|]. apply Forall_forall.
  intros y Hy%list_elem_of_In. apply elem_of_remove in Hy as [Hy _]; [|done].
  rewrite Forall_forall in Hz. by apply Hz, list_elem_of_In.
Qed.
End BTreeSet.
Abbreviation BTreeSet := BTreeSet.BTreeSet.

Module BTreeMap.
Definition BTreeMap (V : Set) : Set := list (Z * V).

Section map.
Context {V : Set}.
Definition empty : BTreeMap V := [].

Fixpoint insert (k : Z) (v : V) (m : BTreeMap V) : BTreeMap V :=
  match m with
  | [] => [(k, v)]
  | (k', v') :: m' =>
    if k <? k' then (k, v) :: m else if k =? k' then (k, v) :: m' else (k', v') :: insert k v m'
  end.

Fixpoint get (k : Z) (m : BTreeMap V) : option V :=
  match m with
  | [] => None
  | (k', v) :: m => if k =? k' then Some v else get k m
  end.

Definition contains_key (k : Z) (m : BTreeMap V) : bool :=
  match get k m with Some _ => true | None => false end.

Definition keys (m : BTreeMap V) : list Z := map fst m.

(** [iter.collect()] *)
Definition collect (l : list (Z * V)) : BTreeMap V :=
  foldl (fun m kv => insert kv.1 kv.2 m) empty l.

Lemma get_insert_eq k v m : get k (insert k v m) = Some v.
Proof.
  induction m as [|[k' v'] m IH]; simpl; [by rewrite Z.eqb_refl|].
  destruct (Z.ltb_spec k k'); simpl; [by rewrite Z.eqb_refl|].
  destruct (Z.eqb_spec k k') as [-> |Hne]; simpl; [by rewrite Z.eqb_refl|].
  by destruct (Z.eqb_spec k k').
Qed.

Lemma get_insert_ne k k' v m : k <> k' -> get k (insert k' v m) = get k m.
Proof.
  intros Hne. induction m as [|[k0 v0] m IH]; simpl.
  { by destruct (Z.eqb_spec k k'). }
  destruct (Z.ltb_spec k' k0); simpl; [by destruct (Z.eqb_spec k k')|].
  destruct (Z.eqb_spec k' k0) as [-> |]; simpl.
  { by destruct (Z.eqb_spec k k0). }
  by rewrite IH.
Qed.

Lemma get_insert k k' v m : get k (insert k' v m) = if k =? k' then Some v else get k m.
Proof.
  destruct (Z.eqb_spec k k') as [-> |]; [apply get_insert_eq|by apply get_insert_ne].
Qed.

Definition sorted (m : BTreeMap V) : Prop := StronglySorted Z.lt (keys m).

Lemma elem_of_keys k m : k ∈ keys m <-> is_Some (get k m).
Proof.
  induction m as [|[k' v] m IH]; simpl.
  { rewrite elem_of_nil. split; [done|]. by intros [? ?]. }
  rewrite elem_of_cons, IH. destruct (Z.eqb_spec k k') as [-> |]; [|naive_solver].
  split; [intros _; by exists v|by left].
Qed.

Lemma keys_insert k k' v m : k ∈ keys (insert k' v m) <-> k = k' \/ k ∈ keys m.
Proof.
  rewrite !elem_of_keys, get_insert. destruct (Z.eqb_spec k k') as [-> |]; [|naive_solver].
  split; [by left|intros _; by exists v].
Qed.

Lemma insert_sorted k v m : sorted m -> sorted (insert k v m).
Proof.
  unfold sorted. induction m as [|[k' v'] m IH]; simpl; [repeat constructor|].
  intros Hs. inversion Hs as [|? ? Hs' Hk]; subst.
  destruct (Z.ltb_spec k k') as [Hlt|Hge]; simpl.
  - constructor; [done|]. constructor; [done|]. eapply Forall_impl; [|exact Hk]. simpl. lia.
  - destruct (Z.eqb_spec k k') as [-> |Hne]; simpl; [by constructor|].
    constructor; [by apply IH|]. apply Forall_forall.
    intros z [-> |Hz]%list_elem_of_In%keys_insert; [lia|].
    rewrite Forall_forall in Hk. by apply Hk, list_elem_of_In.
Qed.

Lemma get_elem k v m : sorted m -> get k m = Some v <-> (k, v) ∈ m.
Proof.
  unfold sorted. induction m as [|[k' v'] m IH]; simpl; intros Hs.
  { rewrite elem_of_nil. done. }
  inversion Hs as [|? ? Hs' Hk]; subst. rewrite elem_of_cons, <- IH by done.
  destruct (Z.eqb_spec k k') as [-> |Hne]; [|naive_solver].
  split; [intros [= ->]; by left|]. intros [[= ->] |Hg]; [done|].
  assert (k' ∈ keys m) as Hin%list_elem_of_In by (apply elem_of_keys; by exists v).
  rewrite Forall_forall in Hk. specialize (Hk _ Hin). lia.
Qed.

Lemma foldl_insert_sorted l m : sorted m -> sorted (foldl (fun m kv => insert kv.1 kv.2 m) m l).
Proof. revert m. induction l as [|[k v] l IH]; intros m Hm; simpl; [done|]. by apply IH, insert_sorted. Qed.

Lemma collect_sorted l : sorted (collect l).
Proof. apply foldl_insert_sorted. constructor. Qed.

Lemma get_foldl_insert k v l m :
  NoDup (map fst l) ->
  get k (foldl (fun m kv => insert kv.1 kv.2 m) m l) = Some v <->
  (k, v) ∈ l \/ (k ∉ map fst l /\ get k m = Some v).
Proof.
  revert m. induction l as [|[k' v'] l IH]; intros m Hnd; simpl.
  { rewrite !elem_of_nil. tauto. }
  apply list.NoDup_cons in Hnd as [Hnin Hnd]. rewrite IH, get_insert by done. simpl.
  rewrite !elem_of_cons. destruct (Z.eqb_spec k k') as [-> |Hne].
  - assert ((k', v) ∉ l) as Hn by (intros Hin; apply Hnin, list_elem_of_fmap; by exists (k', v)).
    split.
    + intros [?|[_ [= ->]]]; [done|]. left. by left.
    + intros [[[= ->] |?]|[H _]]; [by right|done|]. exfalso. apply H. by left.
  - split.
    + intros [?|[H ?]]; [left; by right|right]. split; [|done]. intros [->|?]; done.
    + intros [[[= -> ->] |?]|[H ?]]; [done|by left|]. right. split; [|done]. tauto.
Qed.

Lemma get_collect k v l :
  NoDup (map fst l) -> get k (collect l) = Some v <-> (k, v) ∈ l.
Proof. intros Hnd. unfold collect. rewrite get_foldl_insert by done. simpl. naive_solver. Qed.

Lemma keys_NoDup m : sorted m -> NoDup (keys m).
Proof. apply BTreeSet.sorted_NoDup. Qed.

Fixpoint remove (k : Z) (m : BTreeMap V) : BTreeMap V :=
  match m with
  | [] => []
  | (k', v) :: m => if k =? k' then m else (k', v) :: remove k m
  end.

Lemma get_remove k k' m : sorted m -> get k (remove k' m) = if k =? k' then None else get k m.
Proof.
  unfold sorted. induction m as [|[k0 v0] m IH]; simpl; intros Hs; [by destruct (k =? k')|].
  inversion Hs as [|? ? Hs' Hk]; subst. destruct (Z.eqb_spec k' k0) as [-> |Hne]; simpl.
  - destruct (Z.eqb_spec k k0) as [-> |]; [|done]. apply eq_None_not_Some.
    intros Hin%elem_of_keys%list_elem_of_In. rewrite Forall_forall in Hk. specialize (Hk _ Hin). lia.
  - rewrite IH by done. destruct (Z.eqb_spec k k0) as [-> |], (Z.eqb_spec k0 k'); congruence.
Qed.

Lemma keys_remove k k' m : sorted m -> k ∈ keys (remove k' m) <-> k ∈ keys m /\ k <> k'.
Proof.
  intros Hs. rewrite !elem_of_keys, get_remove by done.
  destruct (Z.eqb_spec k k') as [-> |]; [|tauto]. split; [by intros [? ?]|tauto].
Qed.

Lemma remove_sorted k m : sorted m -> sorted (remove k m).
Proof.
  unfold sorted. induction m as [|[k' v'] m IH]; simpl; [done|]. intros Hs.
  inversion Hs as [|? ? Hs' Hk]; subst. destruct (Z.eqb_spec k k'); [done|]. simpl.
  constructor; [by apply IH|]. apply Forall_forall. intros z Hz%list_elem_of_In.
  apply keys_remove in Hz as [Hz _]; [|done]. rewrite Forall_forall in Hk. by apply Hk, list_elem_of_In.
Qed.
End map.
End BTreeMap.
Abbreviation BTreeMap := BTreeMap.BTreeMap.
