(* ===== verification/ControlFlowGraph.v ===== *)
(** The control flow graph of a body: move-binary-format/src/control_flow_graph.rs.
    Indexing a map at a key that it does not have panics, and so do [assert_eq!] and
    [debug_assert!]. *)
From S2P Require Import Prelude StatusCode Abilities Identifier FileFormat Access BTree.

Definition BlockId : Set := CodeOffset.

Module BasicBlock.
Record BasicBlock : Set := mk { exit : CodeOffset; successors : list BlockId }.
End BasicBlock.
Abbreviation BasicBlock := BasicBlock.BasicBlock.

Module VMControlFlowGraph.
Abbreviation R := (result StatusCode).

Record VMControlFlowGraph : Set := mk {
  blocks : BTreeMap BasicBlock;
  traversal_successors : BTreeMap BlockId;
  loop_heads : BTreeMap BTreeSet }.

Definition ENTRY_BLOCK_ID : BlockId := 0.

(** [pc as CodeOffset] *)
Definition as_code_offset (pc : Z) : CodeOffset := pc mod 2 ^ 16.
(** [pc + 1] on a [u16]. *)
Definition next_pc (pc : CodeOffset) : R CodeOffset :=
  if u16_max <? pc + 1 then Panic else Ok (pc + 1).

(** [for i in i..i + n { s = f(i, s)? }] *)
Fixpoint for_range {S} (n : nat) (i : Z) (f : Z -> S -> R S) (s : S) : R S :=
  match n with
  | O => Ok s
  | S n => s ← f i s; for_range n (i + 1) f s
  end.

Definition is_back_edge_ids (cur_block target_block : BlockId) : bool := target_block <=? cur_block.

(** The state of the loop that creates the blocks. *)
Module Blocks.
Record Blocks : Set := mk {
  blocks : BTreeMap BasicBlock;
  entry : CodeOffset;
  exit_to_entry : BTreeMap CodeOffset }.
End Blocks.
Abbreviation Blocks := Blocks.Blocks.

Section new.
Context (code : list Bytecode).
Definition code_len : CodeOffset := as_code_offset (zlen code).

(** * Basic blocks *)

Definition record_block_ids (pc : CodeOffset) (block_ids : BTreeSet) : R BTreeSet :=
  bytecode ← unwrap (code !! Z.to_nat pc);
  let block_ids :=
    match Bytecode.offset bytecode with
    | Some offset => BTreeSet.insert offset block_ids
    | None => block_ids
    end in
  if Bytecode.is_branch bytecode then
    next ← next_pc pc;
    Ok (if next <? code_len then BTreeSet.insert next block_ids else block_ids)
  else Ok block_ids.

Definition is_end_of_block (pc : CodeOffset) (block_ids : BTreeSet) : R bool :=
  next ← next_pc pc;
  Ok ((next =? code_len) || BTreeSet.contains next block_ids).

Definition create_block (block_ids : BTreeSet) (pc : Z) (s : Blocks) : R Blocks :=
  let co_pc := as_code_offset pc in
  is_end ← is_end_of_block co_pc block_ids;
  if (is_end : bool) then
    let exit := co_pc in
    let exit_to_entry := BTreeMap.insert exit s.(Blocks.entry) s.(Blocks.exit_to_entry) in
    successors ← Bytecode.get_successors co_pc code;
    let bb := BasicBlock.mk exit successors in
    let blocks := BTreeMap.insert s.(Blocks.entry) bb s.(Blocks.blocks) in
    entry ← next_pc co_pc;
    Ok (Blocks.mk blocks entry exit_to_entry)
  else Ok s.

Definition collect_block_ids : R BTreeSet :=
  for_range (length code) 0 (fun pc => record_block_ids (as_code_offset pc))
    (BTreeSet.insert ENTRY_BLOCK_ID BTreeSet.empty).

Definition create_blocks : R (BTreeMap BasicBlock) :=
  block_ids ← collect_block_ids;
  s ← for_range (length code) 0 (create_block block_ids)
        (Blocks.mk BTreeMap.empty 0 BTreeMap.empty);
  debug_assert (s.(Blocks.entry) =? code_len);;
  Ok s.(Blocks.blocks).
End new.

(** * Traversal order *)

(** The graph without the loop back edges. *)
Definition dag_of (blocks : BTreeMap BasicBlock) : BTreeMap BTreeSet :=
  BTreeMap.collect
    (map (fun '(id, block) =>
       (id, BTreeSet.collect
              (List.filter (fun successor => negb (is_back_edge_ids id successor))
                 block.(BasicBlock.successors)))) blocks).

Definition is_dag (dag : BTreeMap BTreeSet) : bool :=
  forallb (fun '(id, successors) =>
    forallb (fun successor => negb (is_back_edge_ids id successor)) successors) dag.

(** The [while] loop; the head of [stack] is the top. *)
Fixpoint post_order_loop (fuel : nat) (dag : BTreeMap BTreeSet) (stack : list (BlockId * bool))
    (finished : BTreeSet) (post_order : list BlockId) : R (list BlockId) :=
  match fuel with
  | O => OutOfFuel
  | S fuel =>
    match stack with
    | [] => Ok post_order
    | (cur, true) :: stack =>
      successors ← unwrap (BTreeMap.get cur dag);
      let pushed :=
        map (fun successor => (successor, true))
          (List.filter (fun successor => negb (BTreeSet.contains successor finished)) successors) in
      post_order_loop fuel dag (rev pushed ++ (cur, false) :: stack) finished post_order
    | (cur, false) :: stack =>
      successors ← unwrap (BTreeMap.get cur dag);
      debug_assert (forallb (fun successor => BTreeSet.contains successor finished) successors);;
      if BTreeSet.contains cur finished then post_order_loop fuel dag stack finished post_order
      else post_order_loop fuel dag stack (BTreeSet.insert cur finished) (post_order ++ [cur])
    end
  end.

(** Every edge of the graph pushes at most one entry that is visited twice. *)
Definition edges (dag : BTreeMap BTreeSet) : nat := sum_list_with (fun '(_, s) => length s) dag.

Definition traversal_order (dag : BTreeMap BTreeSet) : R (list BlockId) :=
  post_order ← post_order_loop (2 * edges dag + 3) dag [(ENTRY_BLOCK_ID, true)] BTreeSet.empty [];
  Ok (rev post_order).

(** [windows(2)] *)
Fixpoint windows (order : list BlockId) : list (BlockId * BlockId) :=
  match order with
  | x :: (y :: _) as order => (x, y) :: windows order
  | _ => []
  end.

(** * Loop heads *)

(** [loop_heads.entry(successor).or_default().insert(id)] *)
Definition add_loop_head (id successor : BlockId) (loop_heads : BTreeMap BTreeSet) :
    BTreeMap BTreeSet :=
  let back_edges := default BTreeSet.empty (BTreeMap.get successor loop_heads) in
  BTreeMap.insert successor (BTreeSet.insert id back_edges) loop_heads.

Definition gather_loop_heads (blocks : BTreeMap BasicBlock) : BTreeMap BTreeSet :=
  foldl (fun loop_heads '(id, block) =>
    foldl (fun loop_heads successor =>
      if is_back_edge_ids id successor then add_loop_head id successor loop_heads else loop_heads)
      loop_heads block.(BasicBlock.successors)) BTreeMap.empty blocks.

Definition new (code : list Bytecode) : R VMControlFlowGraph :=
  blocks ← create_blocks code;
  let dag := dag_of blocks in
  debug_assert (is_dag dag);;
  order ← traversal_order dag;
  let traversal_successors := BTreeMap.collect (windows order) in
  Ok (mk blocks traversal_successors (gather_loop_heads blocks)).

(** * Queries *)

Section queries.
Context (self : VMControlFlowGraph).

Definition block_start (block_id : BlockId) : CodeOffset := block_id.

Definition block_end (block_id : BlockId) : R CodeOffset :=
  block ← unwrap (BTreeMap.get block_id self.(blocks));
  Ok block.(BasicBlock.exit).

Definition successors (block_id : BlockId) : R (list BlockId) :=
  block ← unwrap (BTreeMap.get block_id self.(blocks));
  Ok block.(BasicBlock.successors).

Definition next_block (block_id : BlockId) : R (option CodeOffset) :=
  debug_assert (BTreeMap.contains_key block_id self.(blocks));;
  Ok (BTreeMap.get block_id self.(traversal_successors)).

(** [block_start..=block_end] *)
Definition instr_indexes (block_id : BlockId) : R (list CodeOffset) :=
  end_ ← block_end block_id;
  let start := block_start block_id in
  Ok (seqZ start (end_ - start + 1)).

Definition block_ids : list BlockId := BTreeMap.keys self.(blocks).
Definition num_blocks : Z := zlen self.(blocks) mod 2 ^ 16.
Definition entry_block_id : BlockId := ENTRY_BLOCK_ID.
Definition is_loop_head (block_id : BlockId) : bool :=
  BTreeMap.contains_key block_id self.(loop_heads).
Definition is_back_edge (cur next : BlockId) : bool :=
  match BTreeMap.get next self.(loop_heads) with
  | Some back_edges => BTreeSet.contains cur back_edges
  | None => false
  end.

(** The body of the loop over the successors in [traverse_by]; [todo] is
    [ret[index..]]. *)
Definition visit_successor (state : list BlockId * list BlockId * BTreeSet) (block_id : BlockId) :
    list BlockId * list BlockId * BTreeSet :=
  let '(ret, todo, seen) := state in
  if BTreeSet.contains block_id seen then (ret, todo, seen)
  else (ret ++ [block_id], todo ++ [block_id], BTreeSet.insert block_id seen).

(** The [while] loop of [traverse_by]. *)
Fixpoint traverse_loop (fuel : nat) (ret todo : list BlockId) (seen : BTreeSet) :
    R (list BlockId) :=
  match fuel with
  | O => OutOfFuel
  | S fuel =>
    match todo with
    | [] => Ok ret
    | block_id :: todo =>
      successors ← successors block_id;
      let '(ret, todo, seen) :=
        foldl visit_successor (ret, todo, seen) successors in
      traverse_loop fuel ret todo seen
    end
  end.

Definition traverse_by (block_id : BlockId) : R (list BlockId) :=
  traverse_loop (S (S (length self.(blocks)))) [block_id] [block_id]
    (BTreeSet.insert block_id BTreeSet.empty).

Definition reachable_from (block_id : BlockId) : R (list BlockId) := traverse_by block_id.
End queries.
End VMControlFlowGraph.
Abbreviation VMControlFlowGraph := VMControlFlowGraph.VMControlFlowGraph.

(** A loop from 0 to 3 and its exit. *)
Example cfg_of_a_loop :
  VMControlFlowGraph.new
    [Bytecode.LdTrue; Bytecode.BrTrue 4; Bytecode.Nop; Bytecode.Branch 0; Bytecode.Ret] =
  Ok (VMControlFlowGraph.mk
        [(0, BasicBlock.mk 1 [2; 4]); (2, BasicBlock.mk 3 [0]); (4, BasicBlock.mk 4 [])]
        [(0, 2); (2, 4)] [(0, [2])]).
Proof. vm_compute. reflexivity. Qed.
