(* ===== verification/PostOrder.v ===== *)
(** The traversal order of the control flow graph: on a graph whose edges go to greater
    identifiers, the explicit-stack loop of [VMControlFlowGraph::new] terminates within
    its fuel, trips no assertion, and returns the reachable nodes, each after all of
    its successors. *)
From S2P Require Import Prelude StatusCode Abilities Identifier FileFormat Access BTree.
From S2P Require Import ControlFlowGraph.
Import VMControlFlowGraph.

Section post_order.
Context (dag : BTreeMap BTreeSet).

(** The successors of a node. *)
Definition succs (x : Z) : list Z := default [] (BTreeMap.get x dag).
Definition node (x : Z) : Prop := is_Some (BTreeMap.get x dag).

Hypothesis edges_up : forall x y, y ∈ succs x -> x < y /\ node y.

Lemma node_get x : node x -> BTreeMap.get x dag = Some (succs x).
Proof. intros [s E]. unfold succs. by rewrite E. Qed.

(** * Invariants of the loop *)

(** Entries above a revisit are greater than it. *)
Fixpoint ordered (stack : list (Z * bool)) : Prop :=
  match stack with
  | [] => True
  | (x, _) :: stack => (forall y, (y, false) ∈ stack -> y < x) /\ ordered stack
  end.

(** The successors of a revisit are finished or above it on the stack. *)
Fixpoint covered (finished above : list Z) (stack : list (Z * bool)) : Prop :=
  match stack with
  | [] => True
  | (x, first) :: stack =>
    (first = false -> forall y, y ∈ succs x -> y ∈ finished \/ y ∈ above) /\
    covered finished (x :: above) stack
  end.

(** Each node comes after its successors. *)
Definition post_ordered (l : list Z) : Prop :=
  forall l1 x l2, l = l1 ++ x :: l2 -> forall y, y ∈ succs x -> y ∈ l1.

Inductive reach : Z -> Prop :=
| reach_entry : reach ENTRY_BLOCK_ID
| reach_edge x y : reach x -> y ∈ succs x -> reach y.

Record inv (stack : list (Z * bool)) (finished : BTreeSet) (post : list Z) : Prop := {
  inv_node : forall x b, (x, b) ∈ stack -> node x;
  inv_reach : forall x b, (x, b) ∈ stack -> reach x;
  inv_ordered : ordered stack;
  inv_covered : covered finished [] stack;
  inv_closed : forall x y, x ∈ finished -> y ∈ succs x -> y ∈ finished;
  inv_post : forall x, x ∈ post <-> x ∈ finished;
  inv_post_reach : forall x, x ∈ post -> reach x;
  inv_nodup : NoDup post;
  inv_post_ordered : post_ordered post;
  inv_entry : ENTRY_BLOCK_ID ∈ finished \/ exists b, (ENTRY_BLOCK_ID, b) ∈ stack }.

(** * The measure *)

(** The edges of the nodes not yet started. *)
Definition unstarted (started : list Z) (l : list (Z * BTreeSet)) : nat :=
  sum_list_with (fun p => if bool_decide (p.1 ∈ started) then 0%nat else length p.2) l.

Definition weight (stack : list (Z * bool)) : nat :=
  sum_list_with (fun p : Z * bool => if p.2 then 2%nat else 1%nat) stack.

Definition is_started (stack : list (Z * bool)) (finished started : list Z) : Prop :=
  forall x, x ∈ started <-> x ∈ finished \/ (x, false) ∈ stack.

Lemma unstarted_mono s1 s2 l :
  (forall x, x ∈ s1 -> x ∈ s2) -> (unstarted s2 l <= unstarted s1 l)%nat.
Proof.
  intros H. unfold unstarted. induction l as [|[k s] l IH]; simpl; [lia|].
  repeat case_bool_decide; simpl; solve [lia|exfalso; eauto].
Qed.

Lemma unstarted_nil l : unstarted [] l = edges l.
Proof.
  unfold unstarted, edges. induction l as [|[k s] l IH]; [done|].
  cbn [sum_list_with fst snd]. rewrite IH.
  rewrite bool_decide_false by apply not_elem_of_nil. done.
Qed.

Lemma unstarted_start x s started l :
  BTreeMap.get x l = Some s -> x ∉ started ->
  (unstarted (x :: started) l + length s <= unstarted started l)%nat.
Proof.
  intros Hg Hn. induction l as [|[k s'] l IH]; simpl in *; [done|].
  pose proof (unstarted_mono started (x :: started) l ltac:(intros; by right)) as Hm.
  unfold unstarted in *. simpl. destruct (Z.eqb_spec x k) as [<- |Hne].
  - injection Hg as ->. rewrite bool_decide_true by (by left). rewrite bool_decide_false by done. lia.
  - specialize (IH Hg). assert (k ∈ x :: started <-> k ∈ started) as He
      by (rewrite elem_of_cons; naive_solver).
    rewrite (bool_decide_ext _ _ He). destruct (bool_decide (k ∈ started)); lia.
Qed.

Lemma weight_app s1 s2 : weight (s1 ++ s2) = (weight s1 + weight s2)%nat.
Proof. unfold weight. by rewrite sum_list_with_app. Qed.

Lemma weight_true l : weight (rev (map (fun y => (y, true)) l)) = (2 * length l)%nat.
Proof.
  rewrite <- map_rev. rewrite <- (length_rev l). generalize (rev l). intros k.
  unfold weight. induction k as [|x k IH]; simpl in *; [done|]. rewrite IH. lia.
Qed.

(** * Steps *)

Lemma covered_weaken f1 f2 a1 a2 stack :
  (forall x, x ∈ f1 -> x ∈ f2) -> (forall x, x ∈ a1 -> x ∈ f2 \/ x ∈ a2) ->
  covered f1 a1 stack -> covered f2 a2 stack.
Proof.
  intros Hf. revert a1 a2. induction stack as [|[x b] stack IH]; intros a1 a2 Ha; simpl; [done|].
  intros [H1 H2]. split.
  - intros Hb y Hy. destruct (H1 Hb y Hy) as [?|?]; [left; by apply Hf|]. by apply Ha.
  - eapply IH; [|exact H2]. intros z [-> |Hz]%elem_of_cons; [right; by left|].
    destruct (Ha z Hz); [by left|right; by right].
Qed.

Lemma covered_app f a s1 s2 :
  covered f a (s1 ++ s2) <-> covered f a s1 /\ covered f (rev (map fst s1) ++ a) s2.
Proof.
  revert a. induction s1 as [|[x b] s1 IH]; intros a; simpl; [tauto|].
  rewrite IH, <- app_assoc. simpl. tauto.
Qed.

Lemma covered_true f a l : covered f a (rev (map (fun y => (y, true)) l)).
Proof.
  rewrite <- map_rev. revert a. induction (rev l) as [|x k IH]; intros a; simpl; [done|].
  split; [done|apply IH].
Qed.

Lemma ordered_app s1 s2 :
  ordered s1 -> ordered s2 ->
  (forall x b y, (x, b) ∈ s1 -> (y, false) ∈ s2 -> y < x) -> ordered (s1 ++ s2).
Proof.
  intros H1 H2 Hlt. induction s1 as [|[x b] s1 IH]; simpl in *; [done|]. destruct H1 as [Hx H1].
  split.
  - intros y [Hy|Hy]%elem_of_app; [by apply Hx|]. eapply Hlt; [by left|done].
  - apply IH; [done|]. intros x' b' y Hx' Hy. eapply Hlt; [by right|done].
Qed.

Lemma ordered_true l : ordered (rev (map (fun y => (y, true)) l)).
Proof.
  rewrite <- map_rev. induction (rev l) as [|x k IH]; simpl; [done|]. split; [|done].
  intros y (z & E & _)%list_elem_of_fmap. done.
Qed.

Definition push (cur : Z) (finished : BTreeSet) : list Z :=
  List.filter (fun successor => negb (BTreeSet.contains successor finished)) (succs cur).

Lemma elem_of_push cur finished y :
  y ∈ push cur finished <-> y ∈ succs cur /\ y ∉ finished.
Proof.
  unfold push, BTreeSet.contains. rewrite list_elem_of_In, filter_In, <- list_elem_of_In.
  rewrite negb_true_iff, bool_decide_eq_false. done.
Qed.

Lemma elem_of_pushed cur finished y b :
  (y, b) ∈ rev (map (fun successor => (successor, true)) (push cur finished)) <->
  b = true /\ y ∈ succs cur /\ y ∉ finished.
Proof.
  rewrite list_elem_of_In, <- in_rev, <- list_elem_of_In, list_elem_of_fmap. split.
  - intros (z & [= -> ->] & Hz%elem_of_push). done.
  - intros (-> & Hy). exists y. split; [done|]. by apply elem_of_push.
Qed.

Lemma inv_first cur stack finished post :
  inv ((cur, true) :: stack) finished post ->
  inv (rev (map (fun successor => (successor, true)) (push cur finished)) ++ (cur, false) :: stack)
    finished post.
Proof.
  intros [Hn Hr Ho Hc Hcl Hp Hpr Hnd Hpo He]. simpl in Ho, Hc. destruct Ho as [Hox Ho], Hc as [_ Hc].
  assert (forall x b, (x, b) ∈ (cur, false) :: stack -> exists b', (x, b') ∈ (cur, true) :: stack) as Hsub.
  { intros x b [[= -> ->] |H]%elem_of_cons; [exists true; by left|exists b; by right]. }
  constructor; try done.
  - intros x b [(_ & Hx & _)%elem_of_pushed|H]%elem_of_app; [by eapply edges_up|].
    apply Hsub in H as [b' H]. by eapply Hn.
  - intros x b [(_ & Hx & _)%elem_of_pushed|H]%elem_of_app.
    + eapply reach_edge; [|exact Hx]. eapply Hr. by left.
    + apply Hsub in H as [b' H]. by eapply Hr.
  - apply ordered_app; [apply ordered_true|simpl; done|].
    intros x b y (_ & Hx & _)%elem_of_pushed [[= ->] |Hy]%elem_of_cons; apply edges_up in Hx as [Hx _];
      [done|]. specialize (Hox y Hy). lia.
  - apply covered_app. split; [apply covered_true|]. simpl. split.
    + intros _ y Hy. destruct (decide (y ∈ finished)) as [|Hf]; [by left|right].
      rewrite app_nil_r, map_rev, rev_involutive. apply list_elem_of_fmap. exists (y, true).
      split; [done|]. apply list_elem_of_fmap. exists y. split; [done|]. by apply elem_of_push.
    + eapply covered_weaken; [done| |exact Hc]. intros x Hx. right. simpl in Hx.
      apply list_elem_of_singleton in Hx as ->. by left.
  - destruct He as [He|[b He]]; [by left|]. right. apply elem_of_cons in He as [[= <- <-] |He].
    + exists false. apply elem_of_app. right. by left.
    + exists b. apply elem_of_app. right. by right.
Qed.

Lemma inv_top_finished cur stack finished post y :
  inv ((cur, false) :: stack) finished post -> y ∈ succs cur -> y ∈ finished.
Proof.
  intros [_ _ _ [Hc _] _ _ _ _ _ _] Hy. destruct (Hc eq_refl y Hy) as [|H]; [done|].
  by apply elem_of_nil in H.
Qed.

Lemma inv_done cur stack finished post :
  inv ((cur, false) :: stack) finished post -> cur ∈ finished -> inv stack finished post.
Proof.
  intros [Hn Hr [_ Ho] [_ Hc] Hcl Hp Hpr Hnd Hpo He] Hf. constructor; try done.
  - intros x b H. eapply Hn. by right.
  - intros x b H. eapply Hr. by right.
  - eapply covered_weaken; [done| |exact Hc]. intros x ->%list_elem_of_singleton. by left.
  - destruct He as [|[b [[= <- ->] |He]%elem_of_cons]]; [by left|by left|right; by exists b].
Qed.

Lemma post_ordered_snoc l x :
  post_ordered l -> (forall y, y ∈ succs x -> y ∈ l) -> post_ordered (l ++ [x]).
Proof.
  intros Hl Hx l1 z l2 E y Hy. destruct l2 as [|w l2 _] using rev_ind.
  - apply app_inj_tail in E as [-> ->]. by apply Hx.
  - rewrite app_comm_cons, app_assoc in E. apply app_inj_tail in E as [-> _]. by eapply Hl.
Qed.

Lemma inv_finish cur stack finished post :
  inv ((cur, false) :: stack) finished post -> cur ∉ finished ->
  inv stack (BTreeSet.insert cur finished) (post ++ [cur]).
Proof.
  intros Hi Hf. pose proof (fun y => inv_top_finished _ _ _ _ y Hi) as Htop.
  destruct Hi as [Hn Hr [_ Ho] [_ Hc] Hcl Hp Hpr Hnd Hpo He]. constructor.
  - intros x b H. eapply Hn. by right.
  - intros x b H. eapply Hr. by right.
  - done.
  - eapply covered_weaken; [| |exact Hc].
    + intros x Hx. apply BTreeSet.elem_of_insert. by right.
    + intros x ->%list_elem_of_singleton. left. apply BTreeSet.elem_of_insert. by left.
  - intros x y [-> |Hx]%BTreeSet.elem_of_insert Hy; apply BTreeSet.elem_of_insert; right; [eauto|].
    by eapply Hcl.
  - intros x. rewrite elem_of_app, list_elem_of_singleton, BTreeSet.elem_of_insert, Hp. tauto.
  - intros x [Hx| ->%list_elem_of_singleton]%elem_of_app; [by apply Hpr|]. eapply Hr. by left.
  - apply list.NoDup_app. split; [done|]. split; [|apply NoDup_singleton].
    intros x Hx ->%list_elem_of_singleton. by apply Hf, Hp.
  - apply post_ordered_snoc; [done|]. intros y Hy. apply Hp. eauto.
  - destruct He as [He|[b [[= <- ->] |He]%elem_of_cons]]; [left|left|right; by exists b];
      apply BTreeSet.elem_of_insert; [by right|by left].
Qed.

(** * The loop *)

Lemma post_order_loop_ok fuel stack finished post started :
  inv stack finished post -> is_started stack finished started ->
  (2 * unstarted started dag + weight stack < fuel)%nat ->
  exists post' finished', post_order_loop fuel dag stack finished post = Ok post' /\
    inv [] finished' post'.
Proof.
  revert stack finished post started. induction fuel as [|fuel IH];
    intros stack finished post started Hi Hst Hm; [lia|]. cbn [post_order_loop].
  destruct stack as [|[cur [|]] stack]; [by exists post, finished| |].
  - rewrite (node_get cur) by (eapply inv_node; [exact Hi|by left]). cbn [unwrap mbind result_bind].
    pose proof (inv_first _ _ _ _ Hi) as Hi'. fold (push cur finished).
    assert (length (push cur finished) <= length (succs cur))%nat as Hlen
      by (unfold push; apply List.filter_length_le).
    destruct (decide (cur ∈ finished)) as [Hf|Hf].
    + assert (push cur finished = []) as Ep.
      { destruct (push cur finished) as [|y l] eqn:E; [done|exfalso].
        assert (y ∈ push cur finished) as [Hy Hn]%elem_of_push by (rewrite E; by left).
        apply Hn. by eapply (inv_closed _ _ _ Hi). }
      eapply (IH _ _ _ started); [exact Hi'| |].
      * intros x. rewrite (Hst x), Ep. simpl. rewrite !elem_of_cons. split; [naive_solver|].
        intros [|[[= ->] |]]; [by left|by left|]. right. by right.
      * rewrite weight_app, weight_true, Ep. simpl in Hm |- *. unfold weight in *. simpl in *. lia.
    + assert (cur ∉ started) as Hns.
      { rewrite (Hst cur). intros [|[|H]%elem_of_cons]; [done|done|].
        destruct (inv_ordered _ _ _ Hi) as [Ho _]. specialize (Ho cur H). lia. }
      pose proof (unstarted_start cur (succs cur) started dag) as Hu.
      specialize (Hu (node_get _ (inv_node _ _ _ Hi cur true ltac:(by left))) Hns).
      eapply (IH _ _ _ (cur :: started)); [exact Hi'| |].
      * intros x. rewrite elem_of_cons, (Hst x), elem_of_app, elem_of_pushed, !elem_of_cons. naive_solver.
      * rewrite weight_app, weight_true. unfold weight in *. simpl in *. lia.
  - rewrite (node_get cur) by (eapply inv_node; [exact Hi|by left]). cbn [unwrap mbind result_bind].
    assert (forallb (fun successor => BTreeSet.contains successor finished) (succs cur) = true) as ->.
    { apply forallb_forall. intros y Hy%list_elem_of_In. apply bool_decide_eq_true.
      by eapply inv_top_finished. }
    cbn [debug_assert mbind result_bind]. unfold BTreeSet.contains. case_bool_decide as Hf.
    + eapply (IH _ _ _ started); [by eapply inv_done| |unfold weight in *; simpl in *; lia].
      intros x. rewrite (Hst x), elem_of_cons. naive_solver.
    + eapply (IH _ _ _ started); [by eapply inv_finish| |unfold weight in *; simpl in *; lia].
      intros x. rewrite (Hst x), BTreeSet.elem_of_insert, elem_of_cons. naive_solver.
Qed.

(** * The order *)

(** [x] comes before [y] in [l]. *)
Definition before_in (l : list Z) (x y : Z) : Prop := exists l1 l2, l = l1 ++ x :: l2 /\ y ∈ l2.

Lemma traversal_order_ok :
  node ENTRY_BLOCK_ID ->
  exists order, traversal_order dag = Ok order /\ NoDup order /\
    (forall x, x ∈ order <-> reach x) /\
    (forall x y, x ∈ order -> y ∈ succs x -> before_in order x y).
Proof.
  intros Hn. destruct (post_order_loop_ok (2 * edges dag + 3) [(ENTRY_BLOCK_ID, true)]
    BTreeSet.empty [] [])
    as (post & finished & E & Hi).
  - constructor; try done; simpl.
    + by intros x b [= -> ->]%list_elem_of_singleton.
    + intros x b [= -> ->]%list_elem_of_singleton. constructor.
    + split; [|done]. intros y H. by apply elem_of_nil in H.
    + intros x y H. by apply elem_of_nil in H.
    + intros x H. by apply elem_of_nil in H.
    + constructor.
    + intros l1 x l2 Eq. by destruct l1.
    + right. exists true. by left.
  - intros x. unfold BTreeSet.empty. rewrite !elem_of_nil, list_elem_of_singleton. naive_solver.
  - rewrite unstarted_nil. unfold weight. simpl. lia.
  - exists (rev post).
    apply (f_equal (fun r => post_order ← r; Ok (rev post_order))) in E.
    assert (forall x, x ∈ rev post <-> x ∈ post) as Hrev
      by (intros x; rewrite !list_elem_of_In; symmetry; apply in_rev).
    split; [exact E|]. split; [rewrite <- (Permutation_rev post); apply Hi|]. split.
    + intros x. rewrite Hrev. split; [apply Hi|]. rewrite (inv_post _ _ _ Hi).
      induction 1 as [|x y _ IH Hy]; [|by eapply (inv_closed _ _ _ Hi)].
      destruct (inv_entry _ _ _ Hi) as [|[b H]]; [done|]. by apply elem_of_nil in H.
    + intros x y Hx Hy. apply Hrev, list_elem_of_split in Hx as (l1 & l2 & Eq).
      pose proof (inv_post_ordered _ _ _ Hi l1 x l2 Eq y Hy) as Hl1.
      exists (rev l2), (rev l1). split; [|by apply list_elem_of_In, in_rev; rewrite rev_involutive; apply list_elem_of_In].
      rewrite Eq, rev_app_distr. simpl. by rewrite <- app_assoc.
Qed.
End post_order.
