(* ===== verification/ControlFlowGraphTheorems.v ===== *)
(** The properties of the control flow graph: [VMControlFlowGraph::new] returns on every
    body that the earlier passes accept, its blocks partition the body into runs of
    straight-line code, and its traversal order is a topological order of the forward
    edges. *)
From S2P Require Import Prelude StatusCode Abilities Identifier FileFormat BinaryCommon WellFormed Access.
From S2P Require Import BoundsChecker BoundsSpec BoundsTheorems ControlFlow ControlFlowSpec ControlFlowTheorems.
From S2P Require Import BTree ControlFlowGraph PostOrder.
Import VMControlFlowGraph.

Lemma for_range_ok {S} (Inv : Z -> S -> Prop) n i f s :
  Inv i s ->
  (forall j s, i <= j < i + Z.of_nat n -> Inv j s -> exists s', f j s = Ok s' /\ Inv (j + 1) s') ->
  exists s', for_range n i f s = Ok s' /\ Inv (i + Z.of_nat n) s'.
Proof.
  revert i s. induction n as [|n IH]; intros i s Hs Hf; cbn [for_range].
  { exists s. by rewrite Z.add_0_r. }
  destruct (Hf i s) as (s1 & -> & H1); [lia|done|]. cbn [mbind result_bind].
  destruct (IH (i + 1) s1 H1) as (s2 & E & H2); [intros j s' Hj; apply Hf; lia|].
  exists s2. split; [exact E|].
  by replace (i + Z.of_nat (Datatypes.S n)) with (i + 1 + Z.of_nat n) by lia.
Qed.

Section blocks.
Context (code : list Bytecode).
Hypothesis Hne : code <> [].
Hypothesis Hlen : zlen code <= u16_max - 1.
Hypothesis Htgt : targets_ok code.

Lemma as_code_offset_id i : 0 <= i <= zlen code -> as_code_offset i = i.
Proof. intros Hi. unfold as_code_offset. apply Z.mod_small. unfold u16_max in *. lia. Qed.

Lemma code_len_eq : code_len code = zlen code.
Proof. apply as_code_offset_id. lia. Qed.

Lemma next_pc_ok i : i < zlen code -> next_pc i = Ok (i + 1).
Proof. intros Hi. unfold next_pc. destruct (Z.ltb_spec u16_max (i + 1)); [lia|done]. Qed.

(** * Leaders *)

(** Where blocks begin, as far as the instructions before [j] tell. *)
Definition leader_upto (j x : Z) : Prop :=
  x = 0 \/ exists i b, 0 <= i < j /\ code !! Z.to_nat i = Some b /\
    (Bytecode.offset b = Some x \/ (Bytecode.is_branch b = true /\ x = i + 1 /\ x < zlen code)).
Definition leader : Z -> Prop := leader_upto (zlen code).

Lemma leader_upto_step j b x :
  0 <= j -> code !! Z.to_nat j = Some b ->
  leader_upto (j + 1) x <-> leader_upto j x \/ Bytecode.offset b = Some x \/
    (Bytecode.is_branch b = true /\ x = j + 1 /\ x < zlen code).
Proof.
  intros Hj Hb. unfold leader_upto. split.
  - intros [|(i & b' & Hi & Hb' & H)]; [by left; left|].
    destruct (Z.eq_dec i j) as [-> |Hne']; [right; congruence|].
    left. right. exists i, b'. split; [lia|done].
  - intros [[|(i & b' & Hi & Hb' & H)]|H]; [by left|right; exists i, b'; split; [lia|done]|].
    right. exists j, b. split; [lia|done].
Qed.

Lemma record_block_ids_ok j ids :
  0 <= j < zlen code -> (forall x, x ∈ ids <-> leader_upto j x) ->
  exists ids', record_block_ids code (as_code_offset j) ids = Ok ids' /\
    forall x, x ∈ ids' <-> leader_upto (j + 1) x.
Proof.
  intros Hj Hids. rewrite as_code_offset_id by lia. unfold record_block_ids.
  destruct (lookup_lt_is_Some_2 code (Z.to_nat j)) as [b Hb]; [lia|]. rewrite Hb.
  cbn [unwrap mbind result_bind].
  set (ids1 := match Bytecode.offset b with Some o => BTreeSet.insert o ids | None => ids end).
  assert (forall x, x ∈ ids1 <-> leader_upto j x \/ Bytecode.offset b = Some x) as H1.
  { intros x. subst ids1. destruct (Bytecode.offset b) as [o|]; [|rewrite Hids; naive_solver].
    rewrite BTreeSet.elem_of_insert, Hids. naive_solver. }
  rewrite next_pc_ok by lia. rewrite code_len_eq. cbn [mbind result_bind].
  destruct (Bytecode.is_branch b) eqn:Eb; cycle 1.
  { exists ids1. split; [done|]. intros x. rewrite H1, (leader_upto_step j b) by (done || lia).
    split; [tauto|]. rewrite Eb. intros [?|[?|[? _]]]; [by left|by right|done]. }
  eexists. split; [reflexivity|]. intros x. rewrite (leader_upto_step j b) by (done || lia).
  destruct (Z.ltb_spec (j + 1) (zlen code));
    [rewrite BTreeSet.elem_of_insert|]; rewrite H1.
  - split; [intros [-> |[?|?]]; tauto|]. intros [?|[?|(_ & -> & _)]]; tauto.
  - split; [tauto|]. intros [?|[?|(_ & -> & ?)]]; [tauto|tauto|lia].
Qed.

Lemma collect_block_ids_ok :
  exists ids, collect_block_ids code = Ok ids /\ forall x, x ∈ ids <-> leader x.
Proof.
  destruct (for_range_ok (fun j ids => forall x, x ∈ ids <-> leader_upto j x) (length code) 0
    (fun pc => record_block_ids code (as_code_offset pc))
    (BTreeSet.insert ENTRY_BLOCK_ID BTreeSet.empty)) as (ids & E & H).
  - intros x. rewrite BTreeSet.elem_of_insert. unfold BTreeSet.empty. rewrite elem_of_nil.
    split; [intros [-> |]; [by left|done]|].
    intros [-> |(i & b & Hi & _)]; [by left|lia].
  - intros j s Hj. apply record_block_ids_ok. lia.
  - exists ids. split; [done|]. exact H.
Qed.

Lemma leader_range x : leader x -> 0 <= x < zlen code.
Proof.
  intros [-> |(i & b & Hi & Hb & [Ho|(_ & -> & ?)])]; [destruct code; simpl in *; [done|lia]| |lia].
  apply (Htgt i). split; [lia|]. exists b. by rewrite jump_offset.
Qed.

(** * Blocks *)

(** The instruction at [k] ends a block. *)
Definition block_ends (k : Z) : Prop := k + 1 = zlen code \/ leader (k + 1).

(** A block from [id]: it ends at the first such instruction, and its successors are
    those of that instruction. *)
Definition block_ok (id : Z) (bb : BasicBlock) : Prop :=
  id <= bb.(BasicBlock.exit) < zlen code /\ block_ends bb.(BasicBlock.exit) /\
  (forall k, id <= k < bb.(BasicBlock.exit) -> ~ block_ends k) /\
  Bytecode.get_successors bb.(BasicBlock.exit) code = Ok bb.(BasicBlock.successors).

Record blocks_upto (j : Z) (s : Blocks) : Prop := {
  upto_entry : 0 <= s.(Blocks.entry) <= j;
  upto_leader : leader s.(Blocks.entry) \/ s.(Blocks.entry) = zlen code;
  upto_open : forall k, s.(Blocks.entry) <= k < j -> ~ block_ends k;
  upto_sorted : BTreeMap.sorted s.(Blocks.blocks);
  upto_blocks : forall id bb, BTreeMap.get id s.(Blocks.blocks) = Some bb ->
    leader id /\ block_ok id bb /\ bb.(BasicBlock.exit) < s.(Blocks.entry);
  upto_all : forall id, leader id -> id < s.(Blocks.entry) -> is_Some (BTreeMap.get id s.(Blocks.blocks)) }.

Lemma is_end_of_block_ok ids j :
  (forall x, x ∈ ids <-> leader x) -> 0 <= j < zlen code ->
  exists b, is_end_of_block code j ids = Ok b /\ (b = true <-> block_ends j).
Proof.
  intros Hids Hj. unfold is_end_of_block. rewrite next_pc_ok, code_len_eq by lia.
  eexists. split; [reflexivity|]. unfold block_ends, BTreeSet.contains.
  by rewrite orb_true_iff, Z.eqb_eq, bool_decide_eq_true, Hids.
Qed.

Lemma create_block_ok ids j s :
  (forall x, x ∈ ids <-> leader x) -> 0 <= j < zlen code -> blocks_upto j s ->
  exists s', create_block code ids j s = Ok s' /\ blocks_upto (j + 1) s'.
Proof.
  intros Hids Hj [He Hl Ho Hs Hb Ha]. unfold create_block. rewrite as_code_offset_id by lia.
  destruct (is_end_of_block_ok ids j Hids Hj) as ([|] & -> & Hend); cbn [mbind result_bind]; cycle 1.
  { exists s. split; [done|]. constructor; try done; [lia|]. intros k Hk.
    destruct (Z.eq_dec k j) as [-> |]; [by intros ?%Hend|]. apply Ho. lia. }
  assert (block_ends j) as Hej by by apply Hend.
  destruct (lookup_lt_is_Some_2 code (Z.to_nat j)) as [b Hcb]; [lia|].
  destruct (get_successors_spec j code b) as (succs & Es & _ & _); [lia|done|unfold u16_max in *; lia|].
  rewrite Es. cbn [mbind result_bind]. rewrite next_pc_ok by lia. cbn [mbind result_bind].
  eexists. split; [reflexivity|].
  assert (leader (Blocks.entry s)) as Hls by (destruct Hl as [|Hl]; [done|lia]).
  constructor; cbn [Blocks.entry Blocks.blocks].
  - lia.
  - destruct Hej as [E|]; [by right|by left].
  - intros k Hk. lia.
  - by apply BTreeMap.insert_sorted.
  - intros id bb. rewrite BTreeMap.get_insert. destruct (Z.eqb_spec id (Blocks.entry s)) as [-> |Hid].
    + intros [= <-]. cbn [BasicBlock.exit]. split; [done|]. split; [|lia].
      split; [simpl; lia|]. split; [done|]. split; [|done]. intros k Hk. apply Ho. simpl in Hk. lia.
    + intros Hg. destruct (Hb id bb Hg) as (? & ? & ?). split; [done|]. split; [done|lia].
  - intros id Hlid Hlt. rewrite BTreeMap.get_insert.
    destruct (Z.eqb_spec id (Blocks.entry s)) as [-> |Hid]; [by eexists|]. apply Ha; [done|].
    destruct (Z.lt_ge_cases id (Blocks.entry s)) as [|Hge]; [done|exfalso].
    apply (Ho (id - 1)); [lia|]. right. by replace (id - 1 + 1) with id by lia.
Qed.

Lemma create_blocks_ok :
  exists blocks, create_blocks code = Ok blocks /\ BTreeMap.sorted blocks /\
    (forall id, is_Some (BTreeMap.get id blocks) <-> leader id) /\
    (forall id bb, BTreeMap.get id blocks = Some bb -> block_ok id bb).
Proof.
  unfold create_blocks. destruct collect_block_ids_ok as (ids & -> & Hids). cbn [mbind result_bind].
  assert (0 < zlen code) as H0 by (destruct code; simpl in *; [done|lia]).
  destruct (for_range_ok blocks_upto (length code) 0 (create_block code ids)
    (Blocks.mk BTreeMap.empty 0 BTreeMap.empty)) as (s & -> & [He Hl Ho Hs Hb Ha]).
  - constructor; simpl; try done; try lia; [left; by left|constructor|].
    intros id Hid%leader_range Hlt. lia.
  - intros j s Hj. apply create_block_ok; [done|lia].
  - cbn [mbind result_bind]. rewrite Z.add_0_l in *.
    assert (Blocks.entry s = zlen code) as Ee.
    { destruct (Z.eq_dec (Blocks.entry s) (zlen code)) as [|Hn]; [done|exfalso].
      apply (Ho (zlen code - 1)); [lia|]. left. lia. }
    rewrite code_len_eq, Ee, Z.eqb_refl. cbn [debug_assert mbind result_bind].
    eexists. split; [reflexivity|]. split; [done|]. split.
    + intros id. split; [intros [bb Hg]; by apply Hb in Hg as [? _]|].
      intros Hid. apply Ha; [done|]. rewrite Ee. by apply leader_range.
    + intros id bb Hg. by apply Hb in Hg as (_ & ? & _).
Qed.

(** Control goes from block to block. *)
Lemma block_successors id bb s :
  0 <= id -> block_ok id bb -> s ∈ bb.(BasicBlock.successors) -> leader s.
Proof.
  intros Hid (Hr & He & _ & Es) Hs. revert Hr He Es. generalize (BasicBlock.exit bb).
  intros x Hr He Es.
  destruct (lookup_lt_is_Some_2 code (Z.to_nat x)) as [b Hb]; [lia|].
  destruct (get_successors_spec x code b) as (l & El & _ & Hl); [lia|done|unfold u16_max in *; lia|].
  rewrite Es in El. injection El as <-. destruct (proj1 (Hl s) Hs) as [Ho|(Ex & Hlt & _)].
  - right. exists x, b. split; [lia|]. split; [done|by left].
  - rewrite Ex. destruct He as [He|He]; [lia|done].
Qed.

(** Only the last instruction of a block may branch. *)
Lemma block_straight id bb k :
  0 <= id -> block_ok id bb -> id <= k < bb.(BasicBlock.exit) ->
  exists b, code !! Z.to_nat k = Some b /\ Bytecode.is_branch b = false.
Proof.
  intros Hid (Hr & _ & Hm & _) Hk.
  destruct (lookup_lt_is_Some_2 code (Z.to_nat k)) as [b Hb]; [lia|]. exists b. split; [done|].
  destruct (Bytecode.is_branch b) eqn:E; [exfalso|done]. apply (Hm k Hk). right. right.
  exists k, b. split; [lia|]. split; [done|]. right. split; [done|]. lia.
Qed.

(** * The graph without back edges *)

Section dag.
Context (blocks : BTreeMap BasicBlock).
Hypothesis Hsorted : BTreeMap.sorted blocks.
Hypothesis Hids : forall id, is_Some (BTreeMap.get id blocks) <-> leader id.
Hypothesis Hblocks : forall id bb, BTreeMap.get id blocks = Some bb -> block_ok id bb.

Definition forward_successors (id : Z) (bb : BasicBlock) : BTreeSet :=
  BTreeSet.collect (List.filter (fun successor => negb (is_back_edge_ids id successor))
                      bb.(BasicBlock.successors)).

Lemma elem_of_forward id bb s :
  s ∈ forward_successors id bb <-> s ∈ bb.(BasicBlock.successors) /\ id < s.
Proof.
  unfold forward_successors, is_back_edge_ids.
  rewrite BTreeSet.elem_of_collect, list_elem_of_In, filter_In, <- list_elem_of_In.
  by rewrite negb_true_iff, Z.leb_gt.
Qed.

Lemma get_dag id s :
  BTreeMap.get id (dag_of blocks) = Some s <->
  exists bb, BTreeMap.get id blocks = Some bb /\ s = forward_successors id bb.
Proof.
  unfold dag_of. rewrite BTreeMap.get_collect.
  - rewrite list_elem_of_fmap. split.
    + intros ([id' bb] & [= -> ->] & Hin). exists bb. split; [by apply BTreeMap.get_elem|done].
    + intros (bb & Hg & ->). exists (id, bb). split; [done|by apply BTreeMap.get_elem].
  - rewrite map_map. rewrite (map_ext _ fst) by (by intros []). by apply BTreeMap.keys_NoDup.
Qed.

Lemma node_dag id : node (dag_of blocks) id <-> leader id.
Proof.
  unfold node. rewrite <- Hids. split.
  - intros [s (bb & Hg & _)%get_dag]. by exists bb.
  - intros [bb Hg]. exists (forward_successors id bb). apply get_dag. by exists bb.
Qed.

Lemma elem_of_succs id s :
  s ∈ succs (dag_of blocks) id <->
  exists bb, BTreeMap.get id blocks = Some bb /\ s ∈ bb.(BasicBlock.successors) /\ id < s.
Proof using Hsorted.
  unfold succs. destruct (BTreeMap.get id (dag_of blocks)) as [l|] eqn:E; simpl.
  - apply get_dag in E as (bb & Hg & ->). rewrite elem_of_forward, Hg.
    split; [by exists bb|]. by intros (bb' & [= <-] & H).
  - rewrite elem_of_nil. split; [done|]. intros (bb & Hg & _).
    assert (BTreeMap.get id (dag_of blocks) = Some (forward_successors id bb)); [|congruence].
    apply get_dag. by exists bb.
Qed.

Lemma dag_up x y : y ∈ succs (dag_of blocks) x -> x < y /\ node (dag_of blocks) y.
Proof.
  intros (bb & Hg & Hy & Hlt)%elem_of_succs. split; [done|]. apply node_dag.
  eapply block_successors; [|by apply Hblocks|done].
  assert (leader x) as Hx%leader_range by (apply Hids; by exists bb). lia.
Qed.

Lemma is_dag_ok : is_dag (dag_of blocks) = true.
Proof.
  apply forallb_forall. intros [id s] Hin%list_elem_of_In. apply BTreeMap.get_elem in Hin;
    [|apply BTreeMap.collect_sorted]. apply get_dag in Hin as (bb & _ & ->).
  apply forallb_forall. intros y [_ Hy]%list_elem_of_In%elem_of_forward. unfold is_back_edge_ids.
  apply negb_true_iff, Z.leb_gt. lia.
Qed.
End dag.

Lemma new_ok :
  exists g order, new code = Ok g /\ BTreeMap.sorted g.(blocks) /\
    (forall id, is_Some (BTreeMap.get id g.(blocks)) <-> leader id) /\
    (forall id bb, BTreeMap.get id g.(blocks) = Some bb -> block_ok id bb) /\
    g.(traversal_successors) = BTreeMap.collect (windows order) /\
    g.(loop_heads) = gather_loop_heads g.(blocks) /\
    NoDup order /\ (forall x, x ∈ order <-> reach (dag_of g.(blocks)) x) /\
    (forall x y, x ∈ order -> y ∈ succs (dag_of g.(blocks)) x -> before_in order x y).
Proof.
  unfold new. destruct create_blocks_ok as (blocks & -> & Hs & Hids & Hb). cbn [mbind result_bind].
  rewrite is_dag_ok by done. cbn [debug_assert mbind result_bind].
  destruct (traversal_order_ok (dag_of blocks)) as (order & -> & Hnd & Hr & Ht).
  - intros x y. by apply dag_up.
  - apply node_dag; [done..|]. by left.
  - cbn [mbind result_bind]. eexists _, order. split; [reflexivity|]. done.
Qed.
End blocks.

(** * Blocks partition the body *)

Section partition.
Context (code : list Bytecode).
Hypothesis Hlen : zlen code <= u16_max - 1.
Hypothesis Htgt : targets_ok code.
Context (blocks : BTreeMap BasicBlock).
Hypothesis Hids : forall id, is_Some (BTreeMap.get id blocks) <-> leader code id.
Hypothesis Hblocks : forall id bb, BTreeMap.get id blocks = Some bb -> block_ok code id bb.

(** [pc] is in the block [id]. *)
Definition in_block (pc id : Z) (bb : BasicBlock) : Prop :=
  BTreeMap.get id blocks = Some bb /\ id <= pc <= bb.(BasicBlock.exit).

Lemma block_of (n : nat) : Z.of_nat n < zlen code -> exists id bb, in_block (Z.of_nat n) id bb.
Proof.
  induction n as [|n IH]; intros Hn.
  - destruct (proj2 (Hids 0)) as [bb Hg]; [by left|]. exists 0, bb. split; [done|].
    pose proof (Hblocks _ _ Hg) as [Hr _]. simpl. lia.
  - destruct (BTreeMap.get (Z.of_nat (S n)) blocks) as [bb|] eqn:Eg.
    { exists (Z.of_nat (S n)), bb. split; [done|]. pose proof (Hblocks _ _ Eg) as [Hr _]. lia. }
    destruct IH as (id & bb & Hg & Hr); [lia|]. exists id, bb. split; [done|]. split; [lia|].
    destruct (Z.eq_dec (BasicBlock.exit bb) (Z.of_nat n)) as [E|]; [exfalso|lia].
    pose proof (Hblocks _ _ Hg) as (_ & [He|He] & _); rewrite E in He; [lia|].
    apply Hids in He as [bb' Hg']. replace (Z.of_nat n + 1) with (Z.of_nat (S n)) in Hg' by lia.
    congruence.
Qed.

Lemma block_of_unique pc id bb id' bb' :
  in_block pc id bb -> in_block pc id' bb' -> id = id'.
Proof.
  assert (forall id bb id' bb', in_block pc id bb -> in_block pc id' bb' -> ~ id < id') as Hlt.
  { intros i b i' b' [Hg Hr] [Hg' Hr'] Hlt. pose proof (Hblocks _ _ Hg) as (_ & _ & Hm & _).
    apply (Hm (i' - 1)); [lia|]. right. replace (i' - 1 + 1) with i' by lia. apply Hids. by exists b'. }
  intros H H'. pose proof (Hlt _ _ _ _ H H'). pose proof (Hlt _ _ _ _ H' H). lia.
Qed.
End partition.

(** the blocks of the control flow graph.  [VMControlFlowGraph::new] returns on every
    non-empty body of fewer than 65535 instructions whose jumps stay inside it, no
    assertion and no map index panics, and in the graph: every instruction is in
    exactly one block; only the last instruction of a block may branch; the successors
    of a block are those of its last instruction; and they, like all jump targets, are
    blocks themselves. *)
Theorem cfg_blocks_partition (code : list Bytecode) :
  code <> [] -> zlen code <= u16_max - 1 -> targets_ok code ->
  exists g, new code = Ok g /\
    (forall pc, 0 <= pc < zlen code ->
       exists id bb, in_block g.(blocks) pc id bb /\
         forall id' bb', in_block g.(blocks) pc id' bb' -> id' = id) /\
    (forall id bb, BTreeMap.get id g.(blocks) = Some bb ->
       Bytecode.get_successors bb.(BasicBlock.exit) code = Ok bb.(BasicBlock.successors) /\
       (forall k, id <= k < bb.(BasicBlock.exit) ->
          exists b, code !! Z.to_nat k = Some b /\ Bytecode.is_branch b = false) /\
       forall s, s ∈ bb.(BasicBlock.successors) -> is_Some (BTreeMap.get s g.(blocks))) /\
    (forall i t, jumps code i t -> is_Some (BTreeMap.get t g.(blocks))).
Proof.
  intros Hne Hlen Ht. destruct (new_ok code Hne Hlen Ht) as (g & order & E & _ & Hids & Hb & _).
  exists g. split; [done|]. split; [|split].
  - intros pc Hpc. destruct (block_of code _ Hids Hb (Z.to_nat pc)) as (id & bb & Hin); [lia|].
    rewrite Z2Nat.id in Hin by lia. exists id, bb. split; [done|]. intros id' bb' Hin'.
    by eapply block_of_unique.
  - intros id bb Hg. pose proof (Hb _ _ Hg) as Hok.
    assert (0 <= id) as Hid.
    { assert (leader code id) as Hl%leader_range by (apply Hids; by exists bb); [lia|done..]. }
    split; [apply Hok|]. split; [intros k; by eapply block_straight|].
    intros s Hs. apply Hids. by eapply block_successors.
  - intros i t (Hi & b & Hc & Hj). apply Hids. right. exists i, b.
    pose proof (lookup_lt_Some _ _ _ Hc). split; [lia|]. split; [done|]. left.
    by rewrite <- jump_offset.
Qed.

Lemma cfg_blocks_partition_witness :
  exists g, new skip_code = Ok g /\ forall i t, jumps skip_code i t -> is_Some (BTreeMap.get t g.(blocks)).
Proof.
  destruct (cfg_blocks_partition skip_code) as (g & E & _ & _ & H);
    [discriminate|vm_compute; discriminate|apply targets_ok_forallb; reflexivity|].
  exists g. split; assumption.
Defined.

(** * The traversal order *)

Lemma elem_of_windows l x y :
  (x, y) ∈ windows l <-> exists l1 l2, l = l1 ++ x :: y :: l2.
Proof.
  induction l as [|a l IH]; [|destruct l as [|b l]].
  - simpl. rewrite elem_of_nil. split; [done|]. by intros ([|? ?] & ? & ?).
  - simpl. rewrite elem_of_nil. split; [done|]. intros ([|? [|? ?]] & ? & ?); simplify_eq.
  - change (windows (a :: b :: l)) with ((a, b) :: windows (b :: l)). rewrite elem_of_cons, IH. split.
    + intros [[= -> ->] |(l1 & l2 & E)]; [by exists [], l|]. exists (a :: l1), l2. by rewrite E.
    + intros ([|c l1] & l2 & E); simpl in E; [injection E as -> -> _; by left|].
      injection E as -> E. right. by exists l1, l2.
Qed.

Lemma windows_NoDup l : NoDup l -> NoDup (map fst (windows l)).
Proof.
  induction l as [|a [|b l] IH]; intros Hnd; [constructor..|].
  change (windows (a :: b :: l)) with ((a, b) :: windows (b :: l)). cbn [map fst].
  apply list.NoDup_cons in Hnd as [Hnin Hnd]. apply list.NoDup_cons. split; [|by apply IH].
  intros ([x y] & -> & Hin)%list_elem_of_fmap. apply elem_of_windows in Hin as (l1 & l2 & E).
  apply Hnin. rewrite E. simpl. apply elem_of_app. right. by left.
Qed.

Lemma get_windows l l1 x l2 :
  NoDup l -> l = l1 ++ x :: l2 -> BTreeMap.get x (BTreeMap.collect (windows l)) = head l2.
Proof.
  intros Hnd E. destruct (BTreeMap.get x (BTreeMap.collect (windows l))) as [y|] eqn:Eg.
  - apply BTreeMap.get_collect in Eg; [|by apply windows_NoDup].
    apply elem_of_windows in Eg as (k1 & k2 & E').
    assert (l1 = k1 /\ l2 = y :: k2) as [_ ->]; [|done].
    assert (length l1 = length k1) as El.
    { eapply (list.NoDup_lookup l _ _ x); [done| |]; [rewrite E|rewrite E']; by apply list_lookup_middle. }
    rewrite E in E'. apply app_inj_1 in E' as [-> E']; [|done]. by injection E'.
  - destruct l2 as [|y l2]; [done|exfalso].
    assert (BTreeMap.get x (BTreeMap.collect (windows l)) = Some y); [|congruence].
    apply BTreeMap.get_collect; [by apply windows_NoDup|]. apply elem_of_windows. by exists l1, l2.
Qed.

(** The edges of the graph that are not loop back edges, and what they reach from the
    entry block. *)
Definition forward_edge (g : VMControlFlowGraph) (x y : BlockId) : Prop :=
  exists l, successors g x = Ok l /\ y ∈ l /\ x < y.

Inductive forward_reachable (g : VMControlFlowGraph) : BlockId -> Prop :=
| forward_entry : forward_reachable g (entry_block_id)
| forward_step x y : forward_reachable g x -> forward_edge g x y -> forward_reachable g y.

Lemma forward_edge_succs g x y :
  BTreeMap.sorted g.(blocks) -> forward_edge g x y <-> y ∈ succs (dag_of g.(blocks)) x.
Proof.
  intros Hs. rewrite elem_of_succs by done. unfold forward_edge, successors.
  destruct (BTreeMap.get x (blocks g)) as [bb|]; simpl; naive_solver.
Qed.

Lemma reach_forward g x :
  BTreeMap.sorted g.(blocks) -> reach (dag_of g.(blocks)) x <-> forward_reachable g x.
Proof.
  intros Hs. split; induction 1 as [|x y _ IH Hxy]; try constructor;
    (econstructor; [exact IH|]); by apply forward_edge_succs.
Qed.

(** The order begins with the entry block. *)
Lemma order_head dag order :
  NoDup order -> (forall x, x ∈ order <-> reach dag x) ->
  (forall x y, x ∈ order -> y ∈ succs dag x -> before_in order x y) ->
  exists rest, order = ENTRY_BLOCK_ID :: rest.
Proof.
  intros Hnd Hr Ht. destruct order as [|h rest].
  { assert (ENTRY_BLOCK_ID ∈ []) as H by (apply Hr; constructor). by apply elem_of_nil in H. }
  exists rest. f_equal. assert (reach dag h) as Hh by (apply Hr; by left).
  destruct Hh as [|p h Hp Hs]; [done|exfalso]. destruct (Ht p h) as (l1 & l2 & E & Hin); [by apply Hr|done|].
  apply list.NoDup_cons in Hnd as [Hnin _]. apply Hnin. destruct l1 as [|c l1]; simplify_eq/=; [done|].
  apply elem_of_app. right. by right.
Qed.

(** The traversal order.  The order in which [next_block] leads from the entry block
    through the graph lists each block once, exactly the blocks that forward edges
    reach from the entry, and it is topological: a block comes before every block it
    has a forward edge to.  The worklist terminates, and its assertion that the
    successors of a block are finished before it holds. *)
Theorem cfg_traversal_topological (code : list Bytecode) :
  code <> [] -> zlen code <= u16_max - 1 -> targets_ok code ->
  exists g order, new code = Ok g /\
    head order = Some entry_block_id /\ NoDup order /\
    (forall x, x ∈ order <-> forward_reachable g x) /\
    (forall x y, x ∈ order -> forward_edge g x y -> before_in order x y) /\
    (forall l1 x l2, order = l1 ++ x :: l2 -> next_block g x = Ok (head l2)).
Proof.
  intros Hne Hlen Ht.
  destruct (new_ok code Hne Hlen Ht) as (g & order & E & Hs & Hids & Hb & Ets & _ & Hnd & Hr & Hto).
  exists g, order. split; [done|]. split.
  { destruct (order_head _ order Hnd Hr Hto) as [rest ->]. done. }
  split; [done|]. split; [intros x; by rewrite Hr, reach_forward|]. split.
  { intros x y Hx He. apply Hto; [done|]. by apply forward_edge_succs. }
  intros l1 x l2 Eo. unfold next_block. rewrite Ets, (get_windows order l1 x l2) by done.
  assert (is_Some (BTreeMap.get x (blocks g))) as [bb Hg].
  { assert (reach (dag_of (blocks g)) x) as Hx by (apply Hr; rewrite Eo; apply elem_of_app; right; by left).
    destruct Hx as [|y x _ Hy]; [apply Hids; by left|].
    apply (dag_up code) in Hy as [_ Hn]; [|done..]. by apply Hids, (node_dag code (blocks g)). }
  unfold BTreeMap.contains_key. by rewrite Hg.
Qed.

Lemma cfg_traversal_topological_witness :
  exists g order, new skip_code = Ok g /\ head order = Some entry_block_id /\
    (forall x y, x ∈ order -> forward_edge g x y -> before_in order x y).
Proof.
  destruct (cfg_traversal_topological skip_code) as (g & order & E & Hh & _ & _ & Ht & _);
    [discriminate|vm_compute; discriminate|apply targets_ok_forallb; reflexivity|].
  exists g, order. split; [assumption|]. split; assumption.
Defined.

(** * Reachability *)

Definition edge (g : VMControlFlowGraph) (x y : BlockId) : Prop :=
  exists l, successors g x = Ok l /\ y ∈ l.

Inductive reachable (g : VMControlFlowGraph) (from : BlockId) : BlockId -> Prop :=
| reachable_refl : reachable g from from
| reachable_step x y : reachable g from x -> edge g x y -> reachable g from y.

Lemma forward_is_reachable g x : forward_reachable g x -> reachable g entry_block_id x.
Proof.
  induction 1 as [|x y _ IH (l & E & Hy & _)]; [constructor|].
  eapply reachable_step; [exact IH|]. by exists l.
Qed.

Section complete.
Context (code : list Bytecode) (g : VMControlFlowGraph).
Hypothesis Hlen : zlen code <= u16_max - 1.
Hypothesis Htgt : targets_ok code.
Hypothesis Hne : code <> [].
Hypothesis Hids : forall id, is_Some (BTreeMap.get id g.(blocks)) <-> leader code id.
Hypothesis Hblocks : forall id bb, BTreeMap.get id g.(blocks) = Some bb -> block_ok code id bb.

Lemma edge_block x y :
  edge g x y -> exists bb, BTreeMap.get x g.(blocks) = Some bb /\ block_ok code x bb /\ 0 <= x /\
    y ∈ bb.(BasicBlock.successors).
Proof.
  intros (l & E & Hy). unfold successors in E.
  destruct (BTreeMap.get x (blocks g)) as [bb|] eqn:Eg; [|done]. injection E as <-.
  exists bb. split; [done|]. split; [by apply Hblocks|]. split; [|done].
  assert (leader code x) as Hx%leader_range by (apply Hids; by exists bb); [lia|done..].
Qed.

(** An edge of the graph is a step of the code at the end of its block. *)
Lemma edge_successor x y bb :
  block_ok code x bb -> 0 <= x -> y ∈ bb.(BasicBlock.successors) ->
  exists b, code !! Z.to_nat bb.(BasicBlock.exit) = Some b /\
    successor code bb.(BasicBlock.exit) b y.
Proof.
  intros (Hr & _ & _ & Es) Hx Hy.
  destruct (lookup_lt_is_Some_2 code (Z.to_nat bb.(BasicBlock.exit))) as [b Hb]; [lia|].
  destruct (get_successors_spec bb.(BasicBlock.exit) code b) as (l & El & _ & Hl);
    [lia|done|unfold u16_max in *; lia|].
  exists b. split; [done|]. apply Hl. rewrite Es in El. by injection El as <-.
Qed.

(** Control runs through a block without meeting another leader. *)
Lemma block_walk h x bb (n : nat) :
  leader code h -> block_ok code x bb -> 0 <= x -> reaches_avoiding code h x ->
  x + Z.of_nat n <= bb.(BasicBlock.exit) -> reaches_avoiding code h (x + Z.of_nat n).
Proof.
  intros Hh Hok Hx Hr. induction n as [|n IH]; intros Hn; [by rewrite Z.add_0_r|].
  destruct (block_straight code x bb (x + Z.of_nat n)) as (b & Hb & Hbr); [done|done|lia|].
  replace (x + Z.of_nat (S n)) with (x + Z.of_nat n + 1) by lia.
  eapply reaches_step; [apply IH; lia|exact Hb| |].
  - right. split; [done|]. destruct Hok as [Hr' _]. split; [lia|].
    unfold Bytecode.is_branch in Hbr. by apply orb_false_iff in Hbr as [_ ?].
  - destruct Hok as (_ & _ & Hm & _). intros E. apply (Hm (x + Z.of_nat n)); [lia|]. right. by rewrite E.
Qed.

(** A block reached by forward edges is reached without passing [h], unless [h] is
    itself reached by forward edges. *)
Lemma forward_or_avoiding h x :
  leader code h -> forward_reachable g x -> forward_reachable g h \/ reaches_avoiding code h x.
Proof.
  intros Hh. induction 1 as [|x y Hfx [IH|IH] Hxy]; [|by left|].
  - destruct (Z.eq_dec h 0) as [-> |Hn]; [left; constructor|right; by constructor].
  - pose proof Hxy as (l & El & Hy & Hlt). destruct (edge_block x y) as (bb & Hg & Hok & Hx & Hyb).
    { by exists l. }
    destruct (Z.eq_dec y h) as [<- |Hne']; [left; by eapply forward_step|right].
    destruct (edge_successor x y bb Hok Hx Hyb) as (b & Hb & Hs). pose proof Hok as [Hr _].
    assert (reaches_avoiding code h bb.(BasicBlock.exit)) as Hre.
    { replace bb.(BasicBlock.exit) with (x + Z.of_nat (Z.to_nat (bb.(BasicBlock.exit) - x))) by lia.
      eapply block_walk; eauto. lia. }
    by eapply reaches_step.
Qed.

Hypothesis dominates : forall h e i,
  is_loop code h e -> reaches_avoiding code h i -> ~ (h <= i <= e).

Lemma reachable_is_forward x : reachable g entry_block_id x -> forward_reachable g x.
Proof.
  induction 1 as [|x y _ IH Hxy]; [constructor|].
  destruct (Z.lt_ge_cases x y) as [Hlt|Hge].
  { eapply forward_step; [exact IH|]. destruct Hxy as (l & E & Hy). by exists l. }
  destruct (edge_block x y Hxy) as (bb & Hg & Hok & Hx & Hyb).
  destruct (edge_successor x y bb Hok Hx Hyb) as (b & Hb & Hs). pose proof Hok as [Hr _].
  assert (back_edge code bb.(BasicBlock.exit) y) as Hbe.
  { destruct Hs as [Ho|(-> & _ & _)]; [|lia]. split; [|lia]. split; [lia|].
    exists b. by rewrite jump_offset. }
  destruct (back_edge_loop code _ _ Hbe) as (e & Hl & He).
  destruct (forward_or_avoiding y x) as [|Hav]; [by eapply block_successors|done|done|exfalso].
  eapply dominates; [exact Hl|exact Hav|lia].
Qed.
End complete.

(** The traversal is complete.  For a body that the control flow verifier accepts,
    the blocks of the traversal order, those that forward edges reach, are all the
    blocks that control can reach: no block needs a loop back edge to be reached.  The
    abstract interpreter, which follows [next_block], therefore visits all the code
    that can run. *)
Theorem cfg_traversal_complete (f : option FunctionDefinitionIndex) (c : CodeUnit) :
  zlen c.(CodeUnit.code) <= u16_max - 1 -> targets_ok c.(CodeUnit.code) ->
  ControlFlow.verify f c = Ok () ->
  exists g, new c.(CodeUnit.code) = Ok g /\
    forall x, reachable g entry_block_id x <-> forward_reachable g x.
Proof.
  intros Hlen Ht Hv. assert (zlen c.(CodeUnit.code) <= u16_max + 1) as Hlen' by lia.
  pose proof (proj1 (proj2 (verify_ok f c Hlen' Ht)) Hv) as [(b & Hb & _) Hw].
  assert (c.(CodeUnit.code) <> []) as Hne by (intros E; by rewrite E in Hb).
  destruct (new_ok _ Hne Hlen Ht) as (g & order & E & _ & Hids & Hbl & _).
  exists g. split; [done|]. intros x. split; [|apply forward_is_reachable].
  eapply reachable_is_forward; eauto. intros h e i. by apply dominated.
Qed.

Lemma cfg_traversal_complete_witness :
  exists g, new skip_code = Ok g /\
    forall x, reachable g entry_block_id x <-> forward_reachable g x.
Proof.
  apply (cfg_traversal_complete None (CodeUnit.mk 0 skip_code));
    [vm_compute; discriminate|apply targets_ok_forallb; reflexivity|vm_compute; reflexivity].
Defined.

(** * Back edges *)

Definition back_edges_at (v : BlockId) (heads : BTreeMap BTreeSet) : BTreeSet :=
  default BTreeSet.empty (BTreeMap.get v heads).

Lemma add_loop_head_spec id s v u heads :
  u ∈ back_edges_at v (add_loop_head id s heads) <->
  (v = s /\ u = id) \/ u ∈ back_edges_at v heads.
Proof.
  unfold add_loop_head, back_edges_at. rewrite BTreeMap.get_insert.
  destruct (Z.eqb_spec v s) as [-> |Hn]; simpl; [|naive_solver].
  rewrite BTreeSet.elem_of_insert. naive_solver.
Qed.

Lemma fold_successors_spec id l heads v u :
  u ∈ back_edges_at v (foldl (fun loop_heads successor =>
      if is_back_edge_ids id successor then add_loop_head id successor loop_heads else loop_heads)
    heads l) <-> (u = id /\ v ∈ l /\ v <= id) \/ u ∈ back_edges_at v heads.
Proof.
  revert heads. induction l as [|s l IH]; intros heads; simpl; [rewrite elem_of_nil; naive_solver|].
  rewrite IH, elem_of_cons. unfold is_back_edge_ids. destruct (Z.leb_spec s id) as [Hle|Hgt].
  - rewrite add_loop_head_spec. naive_solver.
  - split; [naive_solver|]. intros [(-> & [-> |?] & ?)|?]; [lia|naive_solver..].
Qed.

Lemma gather_spec (bs : BTreeMap BasicBlock) heads v u :
  u ∈ back_edges_at v (foldl (fun loop_heads '(id, block) =>
    foldl (fun loop_heads successor =>
      if is_back_edge_ids id successor then add_loop_head id successor loop_heads else loop_heads)
      loop_heads block.(BasicBlock.successors)) heads bs) <->
  (exists bb, (u, bb) ∈ bs /\ v ∈ bb.(BasicBlock.successors) /\ v <= u) \/ u ∈ back_edges_at v heads.
Proof.
  revert heads. induction bs as [|[id bb] bs IH]; intros heads; simpl.
  { setoid_rewrite elem_of_nil. naive_solver. }
  rewrite IH, fold_successors_spec. setoid_rewrite elem_of_cons. split.
  - intros [(b & ? & ? & ?)|[(-> & ? & ?)|?]]; [left; exists b; tauto| |by right].
    left. exists bb. split; [by left|done].
  - intros [(b & [[= -> ->] |?] & ? & ?)|?]; [right; left; done|left; by exists b|by right; right].
Qed.

(** Every recorded loop head has a back edge. *)
Definition heads_nonempty (heads : BTreeMap BTreeSet) : Prop :=
  forall v set, BTreeMap.get v heads = Some set -> exists u, u ∈ set.

Lemma foldl_inv {A B} (P : A -> Prop) (f : A -> B -> A) l a :
  P a -> (forall a b, P a -> P (f a b)) -> P (foldl f a l).
Proof. intros Ha Hf. revert a Ha. induction l as [|b l IH]; intros a Ha; simpl; eauto. Qed.

Lemma gather_nonempty bs : heads_nonempty (gather_loop_heads bs).
Proof.
  unfold gather_loop_heads. apply (foldl_inv heads_nonempty); [done|].
  intros heads [id bb] Hh. apply (foldl_inv heads_nonempty); [done|].
  intros heads' s Hh'. destruct (is_back_edge_ids id s); [|done]. intros v set.
  unfold add_loop_head. rewrite BTreeMap.get_insert. destruct (Z.eqb_spec v s) as [-> |]; [|apply Hh'].
  intros [= <-]. exists id. apply BTreeSet.elem_of_insert. by left.
Qed.

(** A back edge of the code leaves from the end of a block that does not begin before
    its target. *)
Lemma back_edge_block code bs e v :
  zlen code <= u16_max - 1 ->
  (forall id, is_Some (BTreeMap.get id bs) <-> leader code id) ->
  (forall id bb, BTreeMap.get id bs = Some bb -> block_ok code id bb) ->
  back_edge code e v ->
  exists u bb, BTreeMap.get u bs = Some bb /\ bb.(BasicBlock.exit) = e /\ v <= u.
Proof.
  intros Hlen Hids Hb [(He & b & Hbe & Hj) Hle]. pose proof (lookup_lt_Some _ _ _ Hbe).
  destruct (block_of code bs Hids Hb (Z.to_nat e)) as (u & bb & Hg & Hr); [lia|].
  rewrite Z2Nat.id in Hr by lia. rewrite jump_offset in Hj.
  assert (leader code v) as Hlv by (right; exists e, b; split; [lia|]; split; [done|by left]).
  pose proof (Hb _ _ Hg) as (_ & _ & Hm & _). exists u, bb. split; [done|].
  assert (bb.(BasicBlock.exit) = e) as Ee.
  { destruct (Z.eq_dec bb.(BasicBlock.exit) e) as [|Hn]; [done|exfalso].
    apply (Hm e); [lia|]. destruct (Z.eq_dec (e + 1) (zlen code)) as [|Hn']; [by left|].
    right. right. exists e, b. split; [lia|]. split; [done|]. right. split; [by destruct b|lia]. }
  split; [done|]. destruct (Z.le_gt_cases v u) as [|Hgt]; [done|exfalso].
  apply (Hm (v - 1)); [lia|]. right. by replace (v - 1 + 1) with v by lia.
Qed.

(** The back edges that the graph records. *)
Lemma back_edges_at_spec g v u :
  BTreeMap.sorted g.(blocks) -> g.(loop_heads) = gather_loop_heads g.(blocks) ->
  u ∈ back_edges_at v (loop_heads g) <-> edge g u v /\ v <= u.
Proof.
  intros Hs Elh. rewrite Elh. unfold gather_loop_heads. rewrite gather_spec.
  unfold back_edges_at. simpl. rewrite elem_of_nil. unfold edge, successors. split.
  - intros [(bb & Hin & Hv & Hle)|[]]. apply BTreeMap.get_elem in Hin; [|done]. rewrite Hin. eauto.
  - intros ((l & El & Hv) & Hle). destruct (BTreeMap.get u (blocks g)) as [bb|] eqn:Eg; [|done].
    injection El as <-. left. exists bb. split; [by apply BTreeMap.get_elem|done].
Qed.

Lemma back_edges_spec g u v :
  BTreeMap.sorted g.(blocks) -> g.(loop_heads) = gather_loop_heads g.(blocks) ->
  is_back_edge g u v = true <-> edge g u v /\ v <= u.
Proof.
  intros Hs Elh. rewrite <- back_edges_at_spec by done. unfold is_back_edge, back_edges_at.
  destruct (BTreeMap.get v (loop_heads g)) as [set|]; simpl; [apply bool_decide_eq_true|].
  rewrite elem_of_nil. done.
Qed.

(** The loop information of the graph.  [is_back_edge] answers whether there is an
    edge to a block that does not begin later, [is_loop_head] whether a block is the
    target of such an edge, and the loop heads are exactly the heads of the loops that
    the control flow verifier finds in the code. *)
Theorem cfg_loop_heads_correct (code : list Bytecode) :
  code <> [] -> zlen code <= u16_max - 1 -> targets_ok code ->
  exists g, new code = Ok g /\
    (forall u v, is_back_edge g u v = true <-> edge g u v /\ v <= u) /\
    (forall v, is_loop_head g v = true <-> exists u, edge g u v /\ v <= u) /\
    (forall v, is_loop_head g v = true <-> exists e, is_loop code v e).
Proof.
  intros Hne Hlen Ht.
  destruct (new_ok code Hne Hlen Ht) as (g & order & E & Hs & Hids & Hb & _ & Elh & _).
  exists g. split; [done|].
  assert (forall v u, u ∈ back_edges_at v (loop_heads g) <-> edge g u v /\ v <= u) as Hspec.
  { intros v u. by apply back_edges_at_spec. }
  assert (forall v, is_loop_head g v = true <-> exists u, edge g u v /\ v <= u) as Hhead.
  { intros v. setoid_rewrite <- Hspec. unfold is_loop_head, BTreeMap.contains_key, back_edges_at.
    destruct (BTreeMap.get v (loop_heads g)) as [set|] eqn:Eg; simpl.
    - split; [intros _|done]. rewrite Elh in Eg. by eapply gather_nonempty.
    - split; [done|]. intros [u Hu]. by apply elem_of_nil in Hu. }
  split; [|split; [done|]].
  - intros u v. by apply back_edges_spec.
  - intros v. rewrite Hhead. split.
    + intros (u & Hu & Hle). destruct (edge_block code g) with (x := u) (y := v)
        as (bb & _ & Hok & H0 & Hv); [done..|].
      destruct (edge_successor code Hlen u v bb Hok H0 Hv) as (b & Hbb & Hsu).
      pose proof Hok as [Hr _]. destruct Hsu as [Ho|(-> & _)]; [|lia].
      destruct (back_edge_loop code bb.(BasicBlock.exit) v) as (e & Hl & _); [|by exists e].
      split; [|lia]. split; [lia|]. exists b. by rewrite jump_offset.
    + intros (e & [Hbe _]). destruct (back_edge_block code (blocks g) e v) as (u & bb & Hg & Ee & Hle);
        [done..|]. exists u. split; [|done]. exists bb.(BasicBlock.successors).
      unfold successors. rewrite Hg. split; [done|]. pose proof (Hb _ _ Hg) as (_ & _ & _ & Es).
      destruct Hbe as [(He & b & Hbb & Hj) _]. rewrite Ee in Es.
      destruct (get_successors_spec e code b) as (l & El & _ & Hl); [lia|done|unfold u16_max in *; lia|].
      rewrite Es in El. injection El as <-. apply Hl. left. by rewrite <- jump_offset.
Qed.

Lemma cfg_loop_heads_correct_witness :
  exists g, new skip_code = Ok g /\
    forall v, is_loop_head g v = true <-> exists e, is_loop skip_code v e.
Proof.
  destruct (cfg_loop_heads_correct skip_code) as (g & E & _ & _ & H);
    [discriminate|vm_compute; discriminate|apply targets_ok_forallb; reflexivity|].
  exists g. split; assumption.
Defined.

(** * [reachable_from] *)

(** The inner loop over the successors of a block: it appends the new ones. *)
Lemma visit_successors_spec (l ret todo : list BlockId) (seen : BTreeSet) :
  (forall x, x ∈ seen <-> x ∈ ret) -> NoDup ret ->
  exists new seen',
    foldl visit_successor (ret, todo, seen) l = (ret ++ new, todo ++ new, seen') /\
    (forall x, x ∈ seen' <-> x ∈ ret ++ new) /\ NoDup (ret ++ new) /\
    (forall x, x ∈ new -> x ∈ l) /\ (forall x, x ∈ l -> x ∈ ret ++ new).
Proof.
  revert ret todo seen. induction l as [|y l IH]; intros ret todo seen Hs Hnd; simpl.
  { exists [], seen. rewrite !app_nil_r. split; [done|]. split; [done|]. split; [done|].
    split; intros x Hx; by apply elem_of_nil in Hx. }
  unfold BTreeSet.contains. case_bool_decide as Hy.
  - destruct (IH ret todo seen Hs Hnd) as (new & seen' & E & H1 & H2 & H3 & H4).
    exists new, seen'. split; [exact E|]. split; [done|]. split; [done|]. split.
    + intros x Hx. right. by apply H3.
    + intros x [-> |Hx]%elem_of_cons; [|by apply H4]. apply elem_of_app. left. by apply Hs.
  - destruct (IH (ret ++ [y]) (todo ++ [y]) (BTreeSet.insert y seen))
      as (new & seen' & E & H1 & H2 & H3 & H4).
    { intros x. rewrite BTreeSet.elem_of_insert, elem_of_app, list_elem_of_singleton, Hs. tauto. }
    { apply list.NoDup_app. split; [done|]. split; [|apply NoDup_singleton].
      intros x Hx ->%list_elem_of_singleton. by apply Hy, Hs. }
    exists (y :: new), seen'. rewrite <- !app_assoc in *. split; [exact E|]. split; [done|].
    split; [done|]. split.
    + intros x [-> |Hx]%elem_of_cons; [by left|right; by apply H3].
    + intros x [-> |Hx]%elem_of_cons; [|by apply H4]. apply elem_of_app. right. by left.
Qed.

Section traverse.
Context (g : VMControlFlowGraph) (from : BlockId).
Hypothesis Hsorted : BTreeMap.sorted g.(blocks).
Hypothesis Hclosed : forall x y bb, BTreeMap.get x g.(blocks) = Some bb ->
  y ∈ bb.(BasicBlock.successors) -> is_Some (BTreeMap.get y g.(blocks)).

Lemma traverse_loop_ok fuel (visited todo : list BlockId) seen :
  (forall x, x ∈ seen <-> x ∈ visited ++ todo) -> NoDup (visited ++ todo) ->
  (forall x, x ∈ visited ++ todo -> is_Some (BTreeMap.get x g.(blocks)) /\ reachable g from x) ->
  (forall x y, x ∈ visited -> edge g x y -> y ∈ visited ++ todo) ->
  (length g.(blocks) < fuel + length visited)%nat ->
  exists ret, traverse_loop g fuel (visited ++ todo) todo seen = Ok ret /\ NoDup ret /\
    (forall x, x ∈ visited ++ todo -> x ∈ ret) /\ (forall x, x ∈ ret -> reachable g from x) /\
    (forall x y, x ∈ ret -> edge g x y -> y ∈ ret).
Proof.
  revert visited todo seen. induction fuel as [|fuel IH]; intros visited todo seen Hs Hnd Hb Hv Hm.
  { exfalso. assert (length (visited ++ todo) <= length g.(blocks))%nat as Hl; cycle 1.
    { rewrite length_app in Hl. lia. }
    rewrite <- (length_map fst g.(blocks)). apply submseteq_length, NoDup_submseteq; [done|].
    intros x Hx. apply BTreeMap.elem_of_keys. by apply Hb. }
  cbn [traverse_loop]. destruct todo as [|x todo].
  { exists (visited ++ []). split; [done|]. rewrite app_nil_r in *. split; [done|]. split; [done|].
    split; [intros x Hx; by apply Hb|exact Hv]. }
  destruct (Hb x) as [[bb Hg] Hr]; [apply elem_of_app; right; by left|].
  unfold successors at 1. rewrite Hg. cbn [unwrap mbind result_bind].
  destruct (visit_successors_spec bb.(BasicBlock.successors) (visited ++ x :: todo) todo seen Hs Hnd)
    as (new & seen' & -> & H1 & H2 & H3 & H4).
  assert (visited ++ x :: todo = (visited ++ [x]) ++ todo) as Ev by by rewrite <- app_assoc.
  rewrite Ev in *. clear Ev. rewrite <- (app_assoc (visited ++ [x]) todo new) in *.
  assert (forall y, y ∈ bb.(BasicBlock.successors) -> edge g x y) as Hedge.
  { intros y Hy. exists bb.(BasicBlock.successors). unfold successors.
    rewrite Hg. split; [reflexivity|exact Hy]. }
  destruct (IH (visited ++ [x]) (todo ++ new) seen') as (ret & E & Hndr & Hin & Hre & Hcl); try done.
  - intros y. rewrite (app_assoc (visited ++ [x]) todo new). intros [Hy|Hy]%elem_of_app; [by apply Hb|].
    apply H3 in Hy. split; [by eapply Hclosed|]. eapply reachable_step; [exact Hr|by apply Hedge].
  - intros y z [Hy| ->%list_elem_of_singleton]%elem_of_app Hyz.
    + specialize (Hv y z Hy Hyz). rewrite (app_assoc (visited ++ [x]) todo new).
      apply elem_of_app. by left.
    + destruct Hyz as (l & El & Hz). unfold successors in El. rewrite Hg in El.
      injection El as <-. by apply H4.
  - rewrite length_app. simpl. lia.
  - exists ret. split; [exact E|]. split; [done|]. split; [|done].
    intros y Hy. apply Hin. rewrite (app_assoc (visited ++ [x]) todo new).
    apply elem_of_app. by left.
Qed.
End traverse.

(** [reachable_from] terminates and is correct: from a block of the graph it returns,
    each once, exactly the blocks that its edges lead to. *)
Theorem cfg_reachable_from_correct (code : list Bytecode) :
  code <> [] -> zlen code <= u16_max - 1 -> targets_ok code ->
  exists g, new code = Ok g /\
    forall id, id ∈ block_ids g ->
      exists ret, reachable_from g id = Ok ret /\ NoDup ret /\ forall x, x ∈ ret <-> reachable g id x.
Proof.
  intros Hne Hlen Ht. destruct (new_ok code Hne Hlen Ht) as (g & order & E & Hs & Hids & Hb & _).
  exists g. split; [done|]. intros id Hid%BTreeMap.elem_of_keys.
  assert (forall x y bb, BTreeMap.get x (blocks g) = Some bb -> y ∈ BasicBlock.successors bb ->
            is_Some (BTreeMap.get y (blocks g))) as Hcl.
  { intros x y bb Hg Hy. apply Hids. eapply block_successors; [done..| |by apply Hb|done].
    assert (leader code x) as Hx%leader_range by (apply Hids; by exists bb); [lia|done..]. }
  unfold reachable_from, traverse_by.
  destruct (traverse_loop_ok g id Hcl (S (S (length (blocks g)))) [] [id]
    (BTreeSet.insert id BTreeSet.empty)) as (ret & Er & Hnd & Hin & Hre & Hclo).
  - intros x. rewrite BTreeSet.elem_of_insert. unfold BTreeSet.empty. simpl.
    rewrite elem_of_nil, list_elem_of_singleton. tauto.
  - apply NoDup_singleton.
  - intros x ->%list_elem_of_singleton. split; [done|constructor].
  - intros x y Hx. by apply elem_of_nil in Hx.
  - simpl. lia.
  - exists ret. split; [exact Er|]. split; [done|]. intros x. split; [apply Hre|].
    induction 1 as [|x y _ IH Hxy]; [apply Hin; by left|by eapply Hclo].
Qed.

Lemma cfg_reachable_from_correct_witness :
  exists g, new skip_code = Ok g /\
    forall id, id ∈ block_ids g ->
      exists ret, reachable_from g id = Ok ret /\ NoDup ret /\ forall x, x ∈ ret <-> reachable g id x.
Proof.
  apply (cfg_reachable_from_correct skip_code);
    [discriminate|vm_compute; discriminate|apply targets_ok_forallb; reflexivity].
Defined.

(** The empty body.  [VMControlFlowGraph::new] panics on it: no block is created, so
    the entry block that the traversal starts from is not in the graph.  The control
    flow verifier rejects the empty body first. *)
Theorem cfg_empty_body :
  new [] = Panic /\ ControlFlow.verify None (CodeUnit.mk 0 []) = Err EMPTY_CODE_UNIT.
Proof. by vm_compute. Qed.
