(* ===== verification/FunctionView.v ===== *)
(** A function as the verifier sees it: [FunctionView] of
    move-binary-format/src/binary_views.rs.  Building a view builds the control flow
    graph of the body. *)
From S2P Require Import Prelude StatusCode Abilities Identifier FileFormat Access BTree.
From S2P Require Import ControlFlowGraph.

Module FunctionView.
Record FunctionView : Set := mk {
  index : option FunctionDefinitionIndex;
  code : CodeUnit;
  parameters : Signature;
  return_ : Signature;
  locals : Signature;
  type_parameters : list AbilitySet;
  cfg : VMControlFlowGraph }.

Definition EMPTY_SIGNATURE : Signature := [].

Definition function (module : CompiledModule) (index : FunctionDefinitionIndex)
    (code : CodeUnit) (function_handle : FunctionHandle) : result StatusCode FunctionView :=
  parameters ← ModuleAccess.signature_at module function_handle.(FunctionHandle.parameters);
  return_ ← ModuleAccess.signature_at module function_handle.(FunctionHandle.return_);
  locals ← ModuleAccess.signature_at module code.(CodeUnit.locals);
  cfg ← VMControlFlowGraph.new code.(CodeUnit.code);
  Ok (mk (Some index) code parameters return_ locals
        function_handle.(FunctionHandle.type_parameters) cfg).

Definition script (script : CompiledScript) : result StatusCode FunctionView :=
  let code := script.(CompiledScript.code) in
  parameters ← ScriptAccess.signature_at script script.(CompiledScript.parameters);
  locals ← ScriptAccess.signature_at script code.(CodeUnit.locals);
  cfg ← VMControlFlowGraph.new code.(CodeUnit.code);
  Ok (mk None code parameters EMPTY_SIGNATURE locals script.(CompiledScript.type_parameters) cfg).
End FunctionView.
Abbreviation FunctionView := FunctionView.FunctionView.
