(* ===== verification/GraphLaws.v ===== *)
(** What the passes over the control flow graph rely on: the interface [GraphLaws], proved
    for the graph of every body that the control flow verifier accepts, and the function
    views that the verifier builds; and passes that run the instructions of each block from
    the same state and must come back to it, so that the state at an instruction does not
    depend on the path taken there. *)
From S2P Require Import Prelude StatusCode Abilities Identifier FileFormat BinaryCommon Uleb WellFormed Access.
From S2P Require Import BoundsChecker BoundsSpec BoundsTheorems ControlFlow ControlFlowSpec ControlFlowTheorems.
From S2P Require Import BTree ControlFlowGraph PostOrder ControlFlowGraphTheorems FunctionView.
Import VMControlFlowGraph.

(** Blocks that a path from the entry reaches without passing [h]. *)
Inductive path_avoiding (g : VMControlFlowGraph) (h : BlockId) : BlockId -> Prop :=
| path_entry : entry_block_id <> h -> path_avoiding g h entry_block_id
| path_step x y : path_avoiding g h x -> edge g x y -> y <> h -> path_avoiding g h y.

(** [order] is the order in which [next_block] leads through the graph [g] of [code]. *)
Class GraphLaws (code : list Bytecode) (g : VMControlFlowGraph) (order : list BlockId) : Prop := {
  law_length : zlen code <= u16_max - 1;
  law_leaders : forall id, is_Some (BTreeMap.get id g.(blocks)) <-> leader code id;
  law_blocks : forall id bb, BTreeMap.get id g.(blocks) = Some bb ->
    0 <= id /\ block_ok code id bb;
  law_order : forall x, x ∈ order -> is_Some (BTreeMap.get x g.(blocks));
  law_size : (length order <= length g.(blocks))%nat;
  law_entry : exists rest, order = entry_block_id :: rest;
  law_nodup : NoDup order;
  law_next : forall l1 x l2, order = l1 ++ x :: l2 -> next_block g x = Ok (head l2);
  law_closed : forall x y, x ∈ order -> edge g x y -> y ∈ order;
  law_forward : forall x y, x ∈ order -> edge g x y -> x < y -> before_in order x y;
  law_backward : forall x y, x ∈ order -> edge g x y -> y <= x -> y = x \/ before_in order y x;
  law_back_edge : forall x y, is_back_edge g x y = true <-> edge g x y /\ y <= x;
  law_dominates : forall x y, edge g x y -> y <= x -> ~ path_avoiding g y x }.

(** * Positions in an order *)

Lemma before_in_index (l : list Z) x y :
  before_in l x y <-> exists i j, (i < j)%nat /\ l !! i = Some x /\ l !! j = Some y.
Proof.
  split.
  - intros (l1 & l2 & -> & [k Hk]%list_elem_of_lookup). exists (length l1), (length l1 + S k)%nat.
    split; [lia|]. split; [by apply list_lookup_middle|].
    rewrite lookup_app_r by lia. by replace (length l1 + S k - length l1)%nat with (S k) by lia.
  - intros (i & j & Hij & Hx & Hy). exists (take i l), (drop (S i) l).
    split; [by rewrite take_drop_middle|]. apply list_elem_of_lookup. exists (j - S i)%nat.
    rewrite lookup_drop. by replace (S i + (j - S i))%nat with j by lia.
Qed.

Lemma before_in_trans (l : list Z) x y z :
  NoDup l -> before_in l x y -> before_in l y z -> before_in l x z.
Proof.
  intros Hnd (i & j & Hij & Hx & Hy)%before_in_index (j' & k & Hjk & Hy' & Hz)%before_in_index.
  apply before_in_index. exists i, k. split; [|done].
  assert (j = j') as -> by by eapply list.NoDup_lookup. lia.
Qed.

Section laws.
Context (code : list Bytecode) (g : VMControlFlowGraph).
Hypothesis Hlen : zlen code <= u16_max - 1.
Hypothesis Htgt : targets_ok code.
Hypothesis Hne : code <> [].
Hypothesis Hids : forall id, is_Some (BTreeMap.get id g.(blocks)) <-> leader code id.
Hypothesis Hblocks : forall id bb, BTreeMap.get id g.(blocks) = Some bb -> block_ok code id bb.
Hypothesis dominates : forall h e i,
  is_loop code h e -> reaches_avoiding code h i -> ~ (h <= i <= e).

(** A step of the graph is a step of the code that avoids [h] if its target does. *)
Lemma avoiding_step h x y :
  leader code h -> reaches_avoiding code h x -> edge g x y -> y <> h -> reaches_avoiding code h y.
Proof using Hlen Htgt Hne Hids Hblocks.
  intros Hh Hr Hxy Hn.
  destruct (edge_block code g) with (x := x) (y := y) as (bb & Hg & Hok & Hx & Hyb); [done..|].
  destruct (edge_successor code Hlen x y bb Hok Hx Hyb) as (b & Hb & Hs). pose proof Hok as [Hre _].
  eapply reaches_step; [|exact Hb|exact Hs|exact Hn].
  replace bb.(BasicBlock.exit) with (x + Z.of_nat (Z.to_nat (bb.(BasicBlock.exit) - x))) by lia.
  eapply block_walk; eauto. lia.
Qed.

Lemma path_reaches h x : leader code h -> path_avoiding g h x -> reaches_avoiding code h x.
Proof using Hlen Htgt Hne Hids Hblocks.
  intros Hh. induction 1 as [Hn|x y _ IH Hxy Hn]; [by constructor|]. by eapply avoiding_step.
Qed.

(** The head of a back edge cannot be avoided on the way to its source. *)
Lemma back_edge_dominates x y : edge g x y -> y <= x -> ~ reaches_avoiding code y x.
Proof using Hlen Htgt Hne Hids Hblocks dominates.
  intros Hxy Hle Hav.
  destruct (edge_block code g) with (x := x) (y := y) as (bb & Hg & Hok & Hx & Hyb); [done..|].
  destruct (edge_successor code Hlen x y bb Hok Hx Hyb) as (b & Hb & Hs). pose proof Hok as [Hr _].
  assert (back_edge code bb.(BasicBlock.exit) y) as Hbe.
  { destruct Hs as [Ho|(-> & _ & _)]; [|lia]. split; [|lia]. split; [lia|].
    exists b. by rewrite jump_offset. }
  destruct (back_edge_loop code _ _ Hbe) as (e & Hl & He).
  eapply dominates; [exact Hl|exact Hav|lia].
Qed.

Lemma edge_leader x y : edge g x y -> leader code y.
Proof using Hlen Htgt Hne Hids Hblocks.
  intros Hxy. destruct (edge_block code g) with (x := x) (y := y) as (bb & Hg & Hok & Hx & Hyb);
    [done..|]. by eapply block_successors.
Qed.

(** In a topological order, a block that is not reached without [h] comes after [h]. *)
Lemma forward_after h x order :
  NoDup order -> leader code h ->
  (forall u v, u ∈ order -> forward_edge g u v -> before_in order u v) ->
  (forall u, u ∈ order <-> forward_reachable g u) ->
  forward_reachable g x -> h = x \/ before_in order h x \/ reaches_avoiding code h x.
Proof using Hlen Htgt Hne Hids Hblocks.
  intros Hnd Hh Hto Hr. induction 1 as [|u v Hu IH Huv].
  - destruct (Z.eq_dec h 0) as [-> |Hn]; [by left|]. right. right. by constructor.
  - assert (before_in order u v) as Hb by (apply Hto; [by apply Hr|done]).
    destruct (Z.eq_dec h v) as [|Hn]; [by left|right].
    destruct IH as [-> |[Hb'|Hav]]; [by left| |right].
    + left. by eapply before_in_trans.
    + eapply avoiding_step; [done|exact Hav| |done]. destruct Huv as (l & E & Hl & _). by exists l.
Qed.
End laws.

Lemma graph_laws f (c : CodeUnit) :
  zlen c.(CodeUnit.code) <= u16_max - 1 -> targets_ok c.(CodeUnit.code) ->
  ControlFlow.verify f c = Ok () ->
  exists g order, new c.(CodeUnit.code) = Ok g /\ GraphLaws c.(CodeUnit.code) g order.
Proof.
  intros Hlen Ht Hv. assert (zlen c.(CodeUnit.code) <= u16_max + 1) as Hlen' by lia.
  pose proof (proj1 (proj2 (verify_ok f c Hlen' Ht)) Hv) as [(b & Hb & _) Hw].
  assert (c.(CodeUnit.code) <> []) as Hne by (intros E; by rewrite E in Hb).
  assert (forall h e i, is_loop c.(CodeUnit.code) h e ->
            reaches_avoiding c.(CodeUnit.code) h i -> ~ (h <= i <= e)) as Hdom.
  { intros h e i. by apply dominated. }
  revert Hne Hdom Ht Hlen. clear. generalize (CodeUnit.code c). clear c. intros code Hne Hdom Ht Hlen.
  destruct (new_ok code Hne Hlen Ht) as (g & order & E & Hs & Hids & Hb & Ets & Elh & Hnd & Hr & Hto).
  exists g, order. split; [done|].
  assert (forall x, x ∈ order <-> forward_reachable g x) as Hr'.
  { intros x. by rewrite Hr, reach_forward. }
  assert (forall x y, x ∈ order -> forward_edge g x y -> before_in order x y) as Hto'.
  { intros x y Hx Hxy. apply Hto; [done|]. by apply forward_edge_succs. }
  assert (forall x y, x ∈ order -> edge g x y -> y ∈ order) as Hcl.
  { intros x y Hx Hxy. apply Hr'. apply (reachable_is_forward code g); try done.
    eapply reachable_step; [|exact Hxy]. by apply forward_is_reachable, Hr'. }
  assert (forall x, x ∈ order -> is_Some (BTreeMap.get x g.(blocks))) as Hin.
  { intros x Hx. destruct (proj1 (Hr' x) Hx) as [|u v _ (l & El & Hy & _)]; [apply Hids; by left|].
    apply Hids. apply (edge_leader code g Hlen Ht Hne Hids Hb u). by exists l. }
  constructor; try done.
  - intros id bb Hg. split; [|by apply Hb].
    assert (leader code id) as Hl%leader_range by (apply Hids; by exists bb); [lia|done..].
  - rewrite <- (length_map fst g.(blocks)). apply submseteq_length, NoDup_submseteq; [done|].
    intros x Hx. by apply BTreeMap.elem_of_keys, Hin.
  - destruct (order_head _ order Hnd Hr Hto) as [rest ->]. by exists rest.
  - intros l1 x l2 Eo. unfold next_block. rewrite Ets, (get_windows order l1 x l2) by done.
    destruct (Hin x) as [bb Hg]; [rewrite Eo; apply elem_of_app; right; by left|].
    unfold BTreeMap.contains_key. by rewrite Hg.
  - intros x y Hx (l & El & Hy) Hlt. apply Hto'; [done|]. by exists l.
  - intros x y Hx Hxy Hle. assert (leader code y) as Hy by by eapply (edge_leader code g).
    destruct (forward_after code g Hlen Ht Hne Hids Hb y x order) as [?|[?|Hav]]; try done;
      [by apply Hr'|by left|by right|exfalso].
    by eapply (back_edge_dominates code g Hlen Ht Hne Hids Hb Hdom x y).
  - intros x y. by apply back_edges_spec.
  - intros x y Hxy Hle Hp. eapply (back_edge_dominates code g Hlen Ht Hne Hids Hb Hdom x y Hxy Hle).
    eapply (path_reaches code g); try done. by eapply (edge_leader code g).
Qed.

(** The instructions of a block from its start to [pc], and the rest. *)
Lemma seqZ_split id pc exit :
  id <= pc <= exit -> seqZ id (exit - id + 1) = seqZ id (pc - id) ++ pc :: seqZ (pc + 1) (exit - pc).
Proof.
  intros H. replace (exit - id + 1) with ((pc - id) + (exit - pc + 1)) by lia.
  rewrite seqZ_app by lia. f_equal. rewrite seqZ_cons by lia.
  replace (id + (pc - id)) with pc by lia. unfold Z.succ, Z.pred. do 2 f_equal. lia.
Qed.

Lemma seqZ_next id pc : id <= pc -> seqZ id (pc + 1 - id) = seqZ id (pc - id) ++ [pc].
Proof.
  intros H. replace (pc + 1 - id) with ((pc - id) + 1) by lia. rewrite seqZ_app by lia.
  f_equal. by replace (id + (pc - id)) with pc by lia.
Qed.

(** * Function views *)

(** The views that the code unit verifier builds: of a function of a module, or of a
    script, that the bounds checker accepts, with a body that the control flow verifier
    accepts and that is not of the length at which [get_successors] panics. *)
Inductive checked_view : BinaryIndexedView -> FunctionView -> Prop :=
| checked_function m d c h i fv :
    wf_module m = true -> BoundsChecker.verify_module m = Ok () ->
    d ∈ m.(CompiledModule.function_defs) -> d.(FunctionDefinition.code) = Some c ->
    ModuleAccess.function_handle_at m d.(FunctionDefinition.function) = Ok h ->
    ControlFlow.verify (Some i) c = Ok () -> zlen c.(CodeUnit.code) <= u16_max - 1 ->
    FunctionView.function m i c h = Ok fv -> checked_view (BinaryIndexedView.Module_ m) fv
| checked_script s fv :
    wf_script s = true -> BoundsChecker.verify_script s = Ok () ->
    ControlFlow.verify None s.(CompiledScript.code) = Ok () ->
    zlen s.(CompiledScript.code).(CodeUnit.code) <= u16_max - 1 ->
    FunctionView.script s = Ok fv -> checked_view (BinaryIndexedView.Script_ s) fv.

(** A type in bounds, with [n] type parameters in scope. *)
Definition scoped (v : BinaryIndexedView) (n : nat) (t : SignatureToken) : Prop :=
  type_ok v t /\ params_ok n t.

(** What the passes over a view rely on. *)
Record view_ok (v : BinaryIndexedView) (fv : FunctionView) : Prop := {
  view_in : in_bounds v;
  view_laws : exists order, GraphLaws fv.(FunctionView.code).(CodeUnit.code) fv.(FunctionView.cfg) order;
  view_instrs : Forall (instr_ok v (length fv.(FunctionView.type_parameters))
      (zlen fv.(FunctionView.code).(CodeUnit.code))
      (zlen fv.(FunctionView.locals) + zlen fv.(FunctionView.parameters)))
    fv.(FunctionView.code).(CodeUnit.code);
  view_wf : Forall (fun b => wf_bytecode b = true) fv.(FunctionView.code).(CodeUnit.code);
  view_scoped : Forall (scoped v (length fv.(FunctionView.type_parameters)))
    (fv.(FunctionView.parameters) ++ fv.(FunctionView.locals));
  view_fields : Forall (fun h => 0 <= h.(FieldHandle.field)) (BoundsChecker.flatten (BinaryIndexedView.field_handles v)) }.

Lemma view_types v fv : view_ok v fv ->
  Forall (fun t => exists a, BinaryIndexedView.abilities v t fv.(FunctionView.type_parameters) = Ok a)
    (fv.(FunctionView.parameters) ++ fv.(FunctionView.locals)).
Proof.
  intros Hv. eapply List.Forall_impl; [|apply (view_scoped _ _ Hv)]. intros t [Ht Hp].
  by apply abilities_ok; [apply (view_in _ _ Hv)|..].
Qed.

Lemma targets_of_instrs v n locals (code : list Bytecode) :
  Forall (instr_ok v n (zlen code) locals) code -> Forall (fun b => wf_bytecode b = true) code ->
  targets_ok code.
Proof.
  intros Hi Hw i t (H0 & b & Hb & Hj). rewrite jump_offset in Hj.
  pose proof (forall_lookup _ _ _ _ Hi Hb) as Hi'. pose proof (forall_lookup _ _ _ _ Hw Hb) as Hw'.
  split; [exact (wf_offset _ _ Hw' Hj)|exact (offset_in_bounds _ _ _ _ _ _ Hi' Hj)].
Qed.

Lemma signature_types v n idx sig :
  in_bounds v -> BinaryIndexedView.signatures v !! into_index idx = Some sig ->
  Forall (params_ok n) sig -> Forall (scoped v n) sig.
Proof.
  intros Hin Hs Hp. pose proof (forall_lookup _ _ _ _ (signatures_in _ Hin) Hs) as Ht.
  rewrite Forall_forall in *. intros t Hin'. split; [by apply Ht|by apply Hp].
Qed.

(** A body in bounds has a view, and the view is as the passes expect. *)
Lemma code_view v f c tps ps (locals : Signature) :
  in_bounds v -> code_ok v c tps ps ->
  Forall (scoped v (length tps)) ps ->
  Forall (fun b => wf_bytecode b = true) c.(CodeUnit.code) ->
  BinaryIndexedView.signatures v !! into_index c.(CodeUnit.locals) = Some locals ->
  Forall (fun h => 0 <= h.(FieldHandle.field)) (BoundsChecker.flatten (BinaryIndexedView.field_handles v)) ->
  ControlFlow.verify f c = Ok () -> zlen c.(CodeUnit.code) <= u16_max - 1 ->
  exists g, new c.(CodeUnit.code) = Ok g /\
    forall i r, view_ok v (FunctionView.mk i c ps r locals tps g).
Proof.
  intros Hin (locals' & Hl' & Hlp & Hi) Hps Hw Hl Hfh Hv Hlen. pose proof (eq_trans (eq_sym Hl') Hl) as [= ->].
  pose proof (targets_of_instrs v _ _ _ Hi Hw) as Ht.
  destruct (graph_laws f c Hlen Ht Hv) as (g & order & E & HG). exists g. split; [done|].
  intros i r. constructor; try done; [by exists order|]. simpl. apply Forall_app. split; [done|].
  by eapply signature_types.
Qed.

Lemma wf_module_code m d c :
  wf_module m = true -> d ∈ m.(CompiledModule.function_defs) -> d.(FunctionDefinition.code) = Some c ->
  Forall (fun b => wf_bytecode b = true) c.(CodeUnit.code).
Proof.
  intros Hwf Hd Hc. unfold wf_module in Hwf. bool_hyps.
  match goal with H : forallb wf_function_definition _ = true |- _ => rename H into Hfd end.
  rewrite forallb_forall in Hfd. specialize (Hfd d (proj1 (list_elem_of_In _ _) Hd)).
  unfold wf_function_definition, wf_code_unit in Hfd. rewrite Hc in Hfd. bool_hyps.
  by apply forallb_Forall.
Qed.

Lemma wf_module_fields m :
  wf_module m = true -> Forall (fun h => 0 <= h.(FieldHandle.field)) m.(CompiledModule.field_handles).
Proof.
  intros Hwf. unfold wf_module in Hwf. bool_hyps.
  match goal with H : forallb wf_field_handle _ = true |- _ => rename H into Hf end.
  apply forallb_Forall in Hf. eapply List.Forall_impl; [|exact Hf]. intros h Hh.
  unfold wf_field_handle in Hh. bool_hyps.
  match goal with H : in_range _ h.(FieldHandle.field) = true |- _ => apply in_range_spec in H; lia end.
Qed.

Lemma function_view_ok m d c h i :
  wf_module m = true -> BoundsChecker.verify_module m = Ok () ->
  d ∈ m.(CompiledModule.function_defs) -> d.(FunctionDefinition.code) = Some c ->
  ModuleAccess.function_handle_at m d.(FunctionDefinition.function) = Ok h ->
  ControlFlow.verify (Some i) c = Ok () -> zlen c.(CodeUnit.code) <= u16_max - 1 ->
  exists fv, FunctionView.function m i c h = Ok fv /\ view_ok (BinaryIndexedView.Module_ m) fv.
Proof.
  intros Hwf [_ Hin]%verify_module_ok Hd Hc Hh Hv Hlen.
  pose proof (function_defs_in _ Hin) as Hdefs. rewrite Forall_forall in Hdefs.
  destruct (Hdefs d) as (_ & _ & Hok); [by apply list_elem_of_In|].
  destruct (Hok c Hc) as (h' & ps & ls & Eh & Ep & El & _ & Hcode).
  assert (h' = h) as ->.
  { apply (view_function_handle_at _ Hin) in Eh. cbn in Eh. congruence. }
  destruct (forall_lookup _ _ _ _ (function_handles_in _ Hin) Eh) as (_ & _ & _ & Hr & Hpp & _).
  apply idx_ok_lookup in Hr as [r Er]. unfold FunctionView.function.
  pose proof (view_signature_at _ _ _ Ep) as Ap. pose proof (view_signature_at _ _ _ Er) as Ar.
  pose proof (view_signature_at _ _ _ El) as Al. cbn in Ap, Ar, Al. rewrite Ap, Ar, Al.
  destruct (code_view _ (Some i) c _ ps ls Hin Hcode) as (g & Eg & Hg); try done.
  { eapply signature_types; [done|exact Ep|]. by apply Hpp. }
  { by eapply wf_module_code. }
  { by apply wf_module_fields. }
  cbn [mbind result_bind]. rewrite Eg. eexists. split; [reflexivity|]. apply Hg.
Qed.

Lemma script_view_ok s :
  wf_script s = true -> BoundsChecker.verify_script s = Ok () ->
  ControlFlow.verify None s.(CompiledScript.code) = Ok () ->
  zlen s.(CompiledScript.code).(CodeUnit.code) <= u16_max - 1 ->
  exists fv, FunctionView.script s = Ok fv /\ view_ok (BinaryIndexedView.Script_ s) fv.
Proof.
  intros Hwf (Hin & ps & Ep & Hpp & Hcode)%verify_script_ok Hv Hlen.
  pose proof Hcode as (ls & El & _). unfold FunctionView.script.
  pose proof (view_signature_at (BinaryIndexedView.Script_ s) _ _ Ep) as Ap.
  pose proof (view_signature_at _ _ _ El) as Al. cbn in Ap, Al. rewrite Ap, Al.
  destruct (code_view _ None s.(CompiledScript.code) _ ps ls Hin Hcode) as (g & Eg & Hg); try done.
  { by eapply signature_types; [|exact Ep|]. }
  { unfold wf_script, wf_code_unit in Hwf. bool_hyps. by apply forallb_Forall. }
  cbn [mbind result_bind]. rewrite Eg. eexists. split; [reflexivity|]. apply Hg.
Qed.

Lemma checked_view_ok v fv : checked_view v fv -> view_ok v fv.
Proof.
  destruct 1 as [m d c h i fv Hw Hb Hd Hc Hh Hv Hl E|s fv Hw Hb Hv Hl E].
  - destruct (function_view_ok m d c h i) as (fv' & E' & Hok); try done. congruence.
  - destruct (script_view_ok s) as (fv' & E' & Hok); try done. congruence.
Qed.

Import VMControlFlowGraph.

Section run.
Context {X : Type} (exec : Z -> X -> option X).

Fixpoint exec_all (pcs : list Z) (x : X) : option X :=
  match pcs with
  | [] => Some x
  | pc :: pcs => exec pc x ≫= exec_all pcs
  end.

Lemma exec_all_app l1 l2 x : exec_all (l1 ++ l2) x = exec_all l1 x ≫= exec_all l2.
Proof. revert x. induction l1 as [|i l1 IH]; intros x; [done|]. simpl. destruct (exec i x); simpl; auto. Qed.

Context (body : list Bytecode) (g : VMControlFlowGraph) (order : list BlockId).
Context `{HG : GraphLaws body g order} (x0 : X).
Hypothesis Hok : forall id bb, BTreeMap.get id g.(blocks) = Some bb ->
  exec_all (seqZ id (bb.(BasicBlock.exit) - id + 1)) x0 = Some x0.

(** The state in which the block of [pc] gets to [pc]. *)
Definition state_at (pc : Z) (x : X) : Prop :=
  exists id bb, in_block g.(blocks) pc id bb /\ exec_all (seqZ id (pc - id)) x0 = Some x.

Lemma state_at_unique pc x x' : state_at pc x -> state_at pc x' -> x = x'.
Proof using HG.
  intros (id & bb & Hin & E) (id' & bb' & Hin' & E').
  assert (id = id') as -> by
    (eapply (block_of_unique body); [apply law_leaders|intros ? ? ?; by eapply law_blocks|exact Hin|exact Hin']).
  congruence.
Qed.

Lemma state_at_leader s : leader body s -> state_at s x0.
Proof using HG.
  intros [bb Hg]%law_leaders. destruct (law_blocks s bb Hg) as [_ [Hr _]].
  exists s, bb. split; [split; [done|lia]|]. by rewrite Z.sub_diag.
Qed.

Lemma state_at_entry : state_at 0 x0.
Proof using HG. apply state_at_leader. by left. Qed.

(** The instruction at [pc] runs; at the end of the block it gives back [x0]. *)
Lemma state_at_exec pc x :
  state_at pc x -> exists b x', body !! Z.to_nat pc = Some b /\ exec pc x = Some x' /\
    exists id bb, in_block g.(blocks) pc id bb /\
      exec_all (seqZ id (pc + 1 - id)) x0 = Some x' /\ (bb.(BasicBlock.exit) = pc -> x' = x0).
Proof using HG Hok.
  intros (id & bb & [Hg Hr] & E). pose proof (Hok id bb Hg) as Hrun.
  destruct (law_blocks id bb Hg) as [Hid [Hrange _]].
  rewrite (seqZ_split id pc), exec_all_app, E in Hrun by lia. simpl in Hrun.
  destruct (lookup_lt_is_Some_2 body (Z.to_nat pc)) as [b Hb]; [lia|].
  destruct (exec pc x) as [x'|] eqn:Ex; [|done]. simpl in Hrun. exists b, x'.
  split; [done|]. split; [done|]. exists id, bb. split; [done|]. split.
  - rewrite seqZ_next, exec_all_app, E by lia. simpl. by rewrite Ex.
  - intros E'. rewrite E', Z.sub_diag in Hrun. by injection Hrun.
Qed.

Lemma state_at_step pc x b x' s :
  state_at pc x -> body !! Z.to_nat pc = Some b -> exec pc x = Some x' -> successor body pc b s ->
  state_at s x'.
Proof using HG Hok.
  intros Hx Hb He Hs. pose proof Hx as (b' & x1 & Hb' & He' & id & bb & [Hg Hr] & Hv & Hex)%state_at_exec.
  rewrite Hb in Hb'. injection Hb' as <-. rewrite He in He'. injection He' as <-.
  destruct (law_blocks id bb Hg) as [Hid Hblk]. pose proof Hblk as (Hrange & _ & _ & Es).
  destruct (Z.eq_dec pc bb.(BasicBlock.exit)) as [-> |Hne].
  - rewrite Hex by done. apply state_at_leader.
    eapply block_successors; [exact law_length|exact Hid|exact Hblk|].
    destruct (get_successors_spec bb.(BasicBlock.exit) body b) as (l & El & _ & Hl);
      [lia|done|apply law_length|]. rewrite Es in El. injection El as ->. by apply Hl.
  - destruct (block_straight body id bb pc) as (b' & Hb' & Hbr); [done|done|lia|].
    rewrite Hb in Hb'. injection Hb' as <-.
    assert (s = pc + 1) as -> by (destruct Hs as [Ho|[-> _]]; [exfalso; by destruct b|done]).
    exists id, bb. split; [split; [done|lia]|done].
Qed.

(** An instruction that leaves the block gives back [x0]. *)
Lemma state_at_branch pc x b :
  state_at pc x -> body !! Z.to_nat pc = Some b -> Bytecode.is_branch b = true -> exec pc x = Some x0.
Proof using HG Hok.
  intros Hx Hb Hbr. pose proof Hx as (b' & x1 & Hb' & He & id & bb & [Hg Hr] & _ & Hex)%state_at_exec.
  destruct (law_blocks id bb Hg) as [Hid Hblk].
  destruct (Z.eq_dec bb.(BasicBlock.exit) pc) as [Ex|Hne]; [by rewrite He, Hex|exfalso].
  destruct (block_straight body id bb pc) as (b2 & Hb2 & Hbr2); [done|done|lia|]. congruence.
Qed.
End run.
