(* ===== verification/StackUsage.v ===== *)
(** The stack usage verifier: move-bytecode-verifier/src/stack_usage_verifier.rs.  Each
    block must leave the evaluation stack as high as it found it and must not reach
    below.  Heights are [u64]: an addition that overflows panics. *)
From S2P Require Import Prelude StatusCode Abilities Identifier FileFormat Access BTree.
From S2P Require Import ControlFlowGraph FunctionView.

Module StackUsageVerifier.
Abbreviation R := (result StatusCode).

Record StackUsageVerifier : Set := mk {
  resolver : BinaryIndexedView;
  current_function : option FunctionDefinitionIndex;
  code : CodeUnit;
  return_ : Signature }.

Section verifier.
Context (self : StackUsageVerifier).

(** The number of fields that [Pack] takes; that of a native struct is 0. *)
Definition field_count (struct_definition : StructDefinition) : Z :=
  match struct_definition.(StructDefinition.field_information) with
  | Native => 0
  | Declared fields => zlen fields
  end.

Definition call_effect (idx : FunctionHandleIndex) : R (Z * Z) :=
  function_handle ← BinaryIndexedView.function_handle_at self.(resolver) idx;
  parameters ←
    BinaryIndexedView.signature_at self.(resolver) function_handle.(FunctionHandle.parameters);
  return_ ←
    BinaryIndexedView.signature_at self.(resolver) function_handle.(FunctionHandle.return_);
  Ok (zlen parameters, zlen return_).

(** The number of values an instruction pops and the number it pushes. *)
Definition instruction_effect (instruction : Bytecode) : R (Z * Z) :=
  match instruction with
  | Bytecode.Pop | Bytecode.BrTrue _ | Bytecode.BrFalse _ | Bytecode.StLoc _
  | Bytecode.Abort => Ok (1, 0)
  | Bytecode.LdU8 _ | Bytecode.LdU64 _ | Bytecode.LdU128 _ | Bytecode.LdTrue
  | Bytecode.LdFalse | Bytecode.LdConst _ | Bytecode.CopyLoc _ | Bytecode.MoveLoc _
  | Bytecode.MutBorrowLoc _ | Bytecode.ImmBorrowLoc _ => Ok (0, 1)
  | Bytecode.Not | Bytecode.FreezeRef | Bytecode.ReadRef | Bytecode.Exists _
  | Bytecode.ExistsGeneric _ | Bytecode.MutBorrowGlobal _ | Bytecode.MutBorrowGlobalGeneric _
  | Bytecode.ImmBorrowGlobal _ | Bytecode.ImmBorrowGlobalGeneric _ | Bytecode.MutBorrowField _
  | Bytecode.MutBorrowFieldGeneric _ | Bytecode.ImmBorrowField _
  | Bytecode.ImmBorrowFieldGeneric _ | Bytecode.MoveFrom _ | Bytecode.MoveFromGeneric _
  | Bytecode.CastU8 | Bytecode.CastU64 | Bytecode.CastU128 | Bytecode.VecLen _
  | Bytecode.VecPopBack _ => Ok (1, 1)
  | Bytecode.Add | Bytecode.Sub | Bytecode.Mul | Bytecode.Mod | Bytecode.Div
  | Bytecode.BitOr | Bytecode.BitAnd | Bytecode.Xor | Bytecode.Shl | Bytecode.Shr
  | Bytecode.Or | Bytecode.And | Bytecode.Eq | Bytecode.Neq | Bytecode.Lt | Bytecode.Gt
  | Bytecode.Le | Bytecode.Ge => Ok (2, 1)
  | Bytecode.VecPack _ num => Ok (num, 1)
  | Bytecode.VecUnpack _ num => Ok (1, num)
  | Bytecode.VecImmBorrow _ | Bytecode.VecMutBorrow _ => Ok (2, 1)
  | Bytecode.MoveTo _ | Bytecode.MoveToGeneric _ | Bytecode.WriteRef
  | Bytecode.VecPushBack _ => Ok (2, 0)
  | Bytecode.VecSwap _ => Ok (3, 0)
  | Bytecode.Branch _ | Bytecode.Nop => Ok (0, 0)
  | Bytecode.Ret => Ok (zlen self.(return_), 0)
  | Bytecode.Call idx => call_effect idx
  | Bytecode.CallGeneric idx =>
    func_inst ← BinaryIndexedView.function_instantiation_at self.(resolver) idx;
    call_effect func_inst.(FunctionInstantiation.handle)
  | Bytecode.Pack idx =>
    struct_definition ← BinaryIndexedView.struct_def_at self.(resolver) idx;
    Ok (field_count struct_definition, 1)
  | Bytecode.PackGeneric idx =>
    struct_inst ← BinaryIndexedView.struct_instantiation_at self.(resolver) idx;
    struct_definition ←
      BinaryIndexedView.struct_def_at self.(resolver) struct_inst.(StructDefInstantiation.def);
    Ok (field_count struct_definition, 1)
  | Bytecode.Unpack idx =>
    struct_definition ← BinaryIndexedView.struct_def_at self.(resolver) idx;
    Ok (1, field_count struct_definition)
  | Bytecode.UnpackGeneric idx =>
    struct_inst ← BinaryIndexedView.struct_instantiation_at self.(resolver) idx;
    struct_definition ←
      BinaryIndexedView.struct_def_at self.(resolver) struct_inst.(StructDefInstantiation.def);
    Ok (1, field_count struct_definition)
  end.

(** [stack_size_increment -= num_pops; stack_size_increment += num_pushes] *)
Definition apply_effect (stack_size_increment num_pops num_pushes : Z) : R Z :=
  if stack_size_increment <? num_pops then Err NEGATIVE_STACK_SIZE_WITHIN_BLOCK
  else
    let stack_size_increment := stack_size_increment - num_pops + num_pushes in
    if u64_max <? stack_size_increment then Panic else Ok stack_size_increment.

(** The loop over the instructions of a block. *)
Fixpoint verify_instrs (indexes : list CodeOffset) (stack_size_increment : Z) : R Z :=
  match indexes with
  | [] => Ok stack_size_increment
  | i :: indexes =>
    instr ← unwrap (self.(code).(CodeUnit.code) !! Z.to_nat i);
    '(num_pops, num_pushes) ← instruction_effect instr;
    stack_size_increment ← apply_effect stack_size_increment num_pops num_pushes;
    verify_instrs indexes stack_size_increment
  end.

Definition verify_block (cfg : VMControlFlowGraph) (block_id : BlockId) : R () :=
  let block_start := VMControlFlowGraph.block_start block_id in
  block_end ← VMControlFlowGraph.block_end cfg block_id;
  stack_size_increment ← verify_instrs (seqZ block_start (block_end - block_start + 1)) 0;
  if stack_size_increment =? 0 then Ok () else Err POSITIVE_STACK_SIZE_AT_BLOCK_END.
End verifier.

Definition verify (resolver : BinaryIndexedView) (function_view : FunctionView) : R () :=
  let verifier := mk resolver function_view.(FunctionView.index) function_view.(FunctionView.code)
                    function_view.(FunctionView.return_) in
  let cfg := function_view.(FunctionView.cfg) in
  res_for (VMControlFlowGraph.block_ids cfg) (verify_block verifier cfg).
End StackUsageVerifier.
Abbreviation StackUsageVerifier := StackUsageVerifier.StackUsageVerifier.
