(* ===== verification/StackUsageTheorems.v ===== *)
(** The properties of the stack usage verifier: what it accepts runs, along every path,
    at a height of the evaluation stack that depends only on the instruction, never
    reaches below what the function pushed, and returns with exactly the results on the
    stack; and the verifier does not panic, unless the height overflows. *)
From S2P Require Import Prelude StatusCode Abilities Identifier FileFormat BinaryCommon Uleb WellFormed Access.
From S2P Require Import BoundsChecker BoundsSpec BoundsTheorems ControlFlow ControlFlowSpec ControlFlowTheorems.
From S2P Require Import BTree ControlFlowGraph PostOrder ControlFlowGraphTheorems FunctionView GraphLaws.
From S2P Require Import StackUsage.
Import VMControlFlowGraph StackUsageVerifier.

(** The verifier that [StackUsageVerifier::verify] makes for a view. *)
Definition verifier_of (v : BinaryIndexedView) (fv : FunctionView) : StackUsageVerifier :=
  StackUsageVerifier.mk v fv.(FunctionView.index) fv.(FunctionView.code) fv.(FunctionView.return_).

(** [runs_to pc h]: some path through the body reaches the instruction at [pc] with [h]
    values on the stack; every instruction before it found the values it pops. *)
Inductive runs_to (self : StackUsageVerifier) : Z -> Z -> Prop :=
| runs_entry : runs_to self 0 0
| runs_step pc h b num_pops num_pushes s :
    runs_to self pc h -> self.(code).(CodeUnit.code) !! Z.to_nat pc = Some b ->
    instruction_effect self b = Ok (num_pops, num_pushes) -> num_pops <= h ->
    successor self.(code).(CodeUnit.code) pc b s -> runs_to self s (h - num_pops + num_pushes).

(** * Soundness *)

Section sound.
Context (self : StackUsageVerifier) (g : VMControlFlowGraph) (order : list BlockId).
Abbreviation body := (self.(code).(CodeUnit.code)).
Context `{HG : GraphLaws body g order}.
Hypothesis Hok : forall id, id ∈ block_ids g -> verify_block self g id = Ok ().

(** One instruction, on the height. *)
Definition step_height (pc h : Z) : option Z :=
  match verify_instrs self [pc] h with Ok h' => Some h' | _ => None end.

Lemma step_height_ok pc h h' :
  step_height pc h = Some h' <-> exists b p q, body !! Z.to_nat pc = Some b /\
    instruction_effect self b = Ok (p, q) /\ p <= h /\ h' = h - p + q /\ h' <= u64_max.
Proof.
  unfold step_height. cbn [verify_instrs]. destruct (body !! Z.to_nat pc) as [b|]; cbn [unwrap mbind result_bind].
  2: { by split; [|intros (? & ? & ? & ? & _)]. }
  destruct (instruction_effect self b) as [[p q]| | |] eqn:E; cbn [mbind result_bind];
    try (by split; [|intros (? & ? & ? & [= <-] & ? & _); congruence]).
  unfold apply_effect. destruct (Z.ltb_spec h p).
  { split; [done|]. intros (? & ? & ? & [= <-] & [= <- <-]%(eq_trans (eq_sym E)) & ?). lia. }
  destruct (Z.ltb_spec u64_max (h - p + q)); cbn [mbind result_bind].
  { split; [done|]. intros (? & ? & ? & [= <-] & [= <- <-]%(eq_trans (eq_sym E)) & ? & -> & ?). lia. }
  split; [intros [= <-]; by exists b, p, q|].
  by intros (? & ? & ? & [= <-] & [= <- <-]%(eq_trans (eq_sym E)) & ? & -> & ?).
Qed.

Lemma verify_instrs_exec l h h' : verify_instrs self l h = Ok h' -> exec_all step_height l h = Some h'.
Proof.
  revert h. induction l as [|i l IH]; intros h; [by intros [= <-]|]. cbn [verify_instrs exec_all].
  assert (step_height i h = match verify_instrs self [i] h with Ok h' => Some h' | _ => None end) as -> by done.
  cbn [verify_instrs]. destruct (unwrap _) as [b| | |]; try done. cbn [mbind result_bind].
  destruct (instruction_effect self b) as [[p q]| | |]; try done. cbn [mbind result_bind].
  destruct (apply_effect h p q) as [h''| | |]; try done. cbn [mbind result_bind option_bind]. apply IH.
Qed.

Lemma block_run id bb :
  BTreeMap.get id g.(blocks) = Some bb ->
  exec_all step_height (seqZ id (bb.(BasicBlock.exit) - id + 1)) 0 = Some 0.
Proof using Hok.
  intros Hg. assert (id ∈ block_ids g) as Hin by (apply BTreeMap.elem_of_keys; by exists bb).
  pose proof (Hok id Hin) as Hb. clear Hok. revert Hb. unfold verify_block, block_end, block_start.
  rewrite Hg. cbn [unwrap mbind result_bind].
  destruct (verify_instrs self _ 0) as [h'| | |] eqn:E; try done. cbn [mbind result_bind].
  destruct (Z.eqb_spec h' 0) as [-> |]; [|done]. intros _. by apply verify_instrs_exec.
Qed.

(** The height at [pc] as its block gives it. *)
Abbreviation height_at := (state_at step_height g 0).

Lemma runs_height pc h : runs_to self pc h -> height_at pc h.
Proof using HG Hok.
  induction 1 as [|pc h b p q s _ IH Hb He Hp Hs]; [by apply (state_at_entry _ body g order)|].
  pose proof IH as (b' & h' & _ & (b1 & p1 & q1 & Hb1 & He1 & Hp1 & -> & Hu)%step_height_ok & _)%(
    state_at_exec _ body g order 0 block_run).
  eapply (state_at_step _ body g order 0 block_run); [exact IH|exact Hb| |exact Hs].
  rewrite Hb in Hb1. injection Hb1 as <-. rewrite He in He1. injection He1 as <- <-.
  apply step_height_ok. by exists b, p, q.
Qed.

(** The instruction at [pc] finds what it pops, and [Ret] exactly the results. *)
Lemma height_at_effect pc h :
  height_at pc h -> exists b p q, body !! Z.to_nat pc = Some b /\
    instruction_effect self b = Ok (p, q) /\ p <= h /\ h - p + q <= u64_max /\
    (b = Bytecode.Ret -> h = zlen self.(return_)).
Proof using HG Hok.
  intros Hh. pose proof Hh as (_ & h' & _ & (b & p & q & Hb & He & Hp & -> & Hu)%step_height_ok & _)%(
    state_at_exec _ body g order 0 block_run).
  exists b, p, q. split; [done|]. split; [done|]. split; [lia|]. split; [done|]. intros ->.
  pose proof (state_at_branch _ body g order 0 block_run pc h _ Hh Hb eq_refl)
    as (b1 & p1 & q1 & Hb1 & He1 & _ & E & _)%step_height_ok.
  rewrite Hb in Hb1. injection Hb1 as <-. injection He1 as <- <-. lia.
Qed.
End sound.

Lemma verify_blocks v fv :
  StackUsageVerifier.verify v fv = Ok () -> forall id, id ∈ block_ids fv.(FunctionView.cfg) ->
  verify_block (verifier_of v fv) fv.(FunctionView.cfg) id = Ok ().
Proof.
  intros Hv id Hid. unfold StackUsageVerifier.verify in Hv. rewrite res_for_ok in Hv.
  rewrite Forall_forall in Hv. by apply Hv, list_elem_of_In.
Qed.

(** C37: the stack discipline of an accepted body.  Whichever path control takes to an
    instruction of a body that the stack usage verifier accepts, the stack there has the
    same height, at least the number of values that the instruction pops, the height after
    it fits [u64], and before a return it is exactly the number of results. *)
Theorem stack_usage_sound (v : BinaryIndexedView) (fv : FunctionView) (pc h : Z) :
  checked_view v fv -> StackUsageVerifier.verify v fv = Ok () -> runs_to (verifier_of v fv) pc h ->
  exists b num_pops num_pushes,
    fv.(FunctionView.code).(CodeUnit.code) !! Z.to_nat pc = Some b /\
    instruction_effect (verifier_of v fv) b = Ok (num_pops, num_pushes) /\
    num_pops <= h /\ h - num_pops + num_pushes <= u64_max /\ (b = Bytecode.Ret -> h = zlen fv.(FunctionView.return_)) /\
    forall h', runs_to (verifier_of v fv) pc h' -> h' = h.
Proof.
  intros [Hin [order HG] _ _ _]%checked_view_ok Hv Hrun. pose proof (verify_blocks v fv Hv) as Hb.
  pose proof (runs_height (verifier_of v fv) _ order Hb pc h Hrun) as Hh.
  destruct (height_at_effect (verifier_of v fv) _ order Hb pc h Hh)
    as (b & p & q & Hc & He & Hp & Hu & Hr).
  exists b, p, q. split; [done|]. split; [done|]. split; [done|]. split; [done|]. split; [done|].
  intros h' Hrun'. eapply (state_at_unique _ _ _ order); [|exact Hh].
  by eapply runs_height.
Qed.

(** A module with a function that stores a local in one branch of a conditional and then
    returns a vector of two numbers. *)
Definition vector_body : list Bytecode :=
  [Bytecode.LdTrue; Bytecode.BrTrue 4; Bytecode.LdU64 1; Bytecode.StLoc 0;
   Bytecode.LdU64 2; Bytecode.LdU64 3; Bytecode.VecPack 2 2; Bytecode.Ret].
Definition vector_module : CompiledModule :=
  CompiledModule.mk VERSION_MAX 0 [ModuleHandle.mk 0 0] [] [FunctionHandle.mk 0 0 0 1 []]
    [] [] [] [] [] [[]; [SignatureToken.Vector SignatureToken.U64]; [SignatureToken.U64]]
    [Identifier.self_bytes] [AccountAddress_ZERO] [] []
    [FunctionDefinition.mk 0 Visibility.Private [] (Some (CodeUnit.mk 2 vector_body))].
Definition vector_view : FunctionView :=
  match FunctionView.function vector_module 0 (CodeUnit.mk 2 vector_body)
          (FunctionHandle.mk 0 0 0 1 []) with
  | Ok fv => fv
  | _ => FunctionView.mk None (CodeUnit.mk 0 []) [] [] [] [] (VMControlFlowGraph.mk [] [] [])
  end.

Lemma vector_view_checked : checked_view (BinaryIndexedView.Module_ vector_module) vector_view.
Proof.
  eapply checked_function; [vm_compute; reflexivity|vm_compute; reflexivity|left|reflexivity
    |vm_compute; reflexivity|vm_compute; reflexivity|vm_compute; discriminate|vm_compute; reflexivity].
Qed.

Lemma vector_view_runs :
  runs_to (verifier_of (BinaryIndexedView.Module_ vector_module) vector_view) 4 0.
Proof.
  eapply (runs_step _ 1 1 (Bytecode.BrTrue 4) 1 0 4); [|reflexivity|reflexivity|lia|by left].
  eapply (runs_step _ 0 0 Bytecode.LdTrue 0 1 1); [constructor|reflexivity|reflexivity|lia|].
  right. split; [done|]. split; [vm_compute; reflexivity|done].
Qed.

Lemma stack_usage_sound_witness :
  exists b num_pops num_pushes, vector_body !! 4%nat = Some b /\
    instruction_effect (verifier_of (BinaryIndexedView.Module_ vector_module) vector_view) b =
      Ok (num_pops, num_pushes) /\ num_pops <= 0.
Proof.
  destruct (stack_usage_sound (BinaryIndexedView.Module_ vector_module) vector_view 4 0)
    as (b & p & q & Hb & He & Hp & _);
    [apply vector_view_checked|vm_compute; reflexivity|apply vector_view_runs|].
  exists b, p, q. split; [exact Hb|]. split; [exact He|lia].
Defined.

(** * Totality *)

Section total.
Context (v : BinaryIndexedView) (fv : FunctionView) (Hview : view_ok v fv).
Abbreviation self := (verifier_of v fv).
Abbreviation body := (fv.(FunctionView.code).(CodeUnit.code)).

Lemma struct_def_at_safe idx :
  idx_ok_opt (BinaryIndexedView.struct_defs v) idx -> safe (BinaryIndexedView.struct_def_at v idx).
Proof.
  clear Hview. destruct v as [m|s]; [|done]. cbn. intros [d Hd]%idx_ok_lookup.
  unfold ModuleAccess.struct_def_at, index. by rewrite Hd.
Qed.

Lemma call_effect_safe idx :
  idx_ok (BinaryIndexedView.function_handles v) idx -> safe (call_effect self idx).
Proof.
  pose proof (view_in _ _ Hview) as Hin. intros [h Hh]%idx_ok_lookup. unfold call_effect. simpl.
  rewrite (view_function_handle_at v Hin _ _ Hh). cbn [mbind result_bind].
  destruct (forall_lookup _ _ _ _ (function_handles_in _ Hin) Hh)
    as (_ & _ & [p Hp]%idx_ok_lookup & [r Hr]%idx_ok_lookup & _).
  rewrite (view_signature_at v _ _ Hp). cbn [mbind result_bind].
  by rewrite (view_signature_at v _ _ Hr).
Qed.

Lemma struct_inst_effect_safe idx (k : StructDefinition -> result StatusCode (Z * Z)) :
  idx_ok_opt (BinaryIndexedView.struct_instantiations v) idx -> (forall d, safe (k d)) ->
  safe (i ← BinaryIndexedView.struct_instantiation_at v idx;
        d ← BinaryIndexedView.struct_def_at v i.(StructDefInstantiation.def); k d).
Proof.
  pose proof (view_in _ _ Hview) as Hin. clear Hview. intros Hi Hk.
  destruct v as [m|s]; [|done]. cbn in Hi. apply idx_ok_lookup in Hi as [i Hi].
  destruct (forall_lookup _ _ _ _ (struct_instantiations_in _ Hin) Hi) as [Hd _].
  cbn. unfold ModuleAccess.struct_instantiation_at, index. rewrite Hi. cbn [unwrap mbind result_bind].
  apply safe_bind; [|done]. cbn in Hd. apply idx_ok_lookup in Hd as [d Hd].
  unfold ModuleAccess.struct_def_at, index. by rewrite Hd.
Qed.

Lemma instruction_effect_safe n len locals b :
  instr_ok v n len locals b -> safe (instruction_effect self b).
Proof.
  pose proof (view_in _ _ Hview) as Hin. intros Hb. destruct b; cbn in Hb |- *; try done;
    try (by apply call_effect_safe);
    try (by apply safe_bind; [apply struct_def_at_safe|]);
    try (by apply struct_inst_effect_safe; [apply Hb|]).
  destruct Hb as [[i Hi]%idx_ok_lookup _].
  match goal with |- context [BinaryIndexedView.function_instantiation_at v ?idx] =>
    assert (BinaryIndexedView.function_instantiation_at v idx = Ok i) as -> end.
  { clear Hview Hin. destruct v; by apply index_ok. }
  apply call_effect_safe. by apply (forall_lookup _ _ _ _ (function_instantiations_in _ Hin) Hi).
Qed.

(** The pops and pushes of an instruction are not negative. *)
Lemma instruction_effect_nonneg b p q :
  wf_bytecode b = true -> instruction_effect self b = Ok (p, q) -> 0 <= p /\ 0 <= q.
Proof.
  clear Hview. intros Hw He. unfold wf_bytecode in Hw.
  destruct b; cbn in He; try (injection He as <- <-; try apply andb_true_iff in Hw as [? Hw%in_range_spec]; lia);
    unfold call_effect, field_count in He; simpl in He;
    repeat match type of He with
    | (?x ≫= _) = Ok _ => destruct x; try done; cbn [mbind result_bind] in He
    | context [match ?x with Native => _ | _ => _ end] => destruct x
    end; injection He as <- <-; lia.
Qed.

(** No instruction of the body pushes more than [u32::MAX] values. *)
Hypothesis Hpush : forall b p q,
  b ∈ body -> instruction_effect self b = Ok (p, q) -> q <= u32_max.

Lemma verify_instrs_safe (l : list CodeOffset) h :
  Forall (fun i => 0 <= i < zlen body) l -> 0 <= h -> h + zlen l * u32_max <= u64_max ->
  safe (verify_instrs self l h).
Proof.
  pose proof (view_instrs _ _ Hview) as Hi. pose proof (view_wf _ _ Hview) as Hw. revert h.
  induction l as [|i l IH]; intros h Hl H0 Hu; [done|]. apply Forall_cons_iff in Hl as [Hir Hl].
  cbn [verify_instrs]. simpl code. destruct (lookup_lt_is_Some_2 body (Z.to_nat i)) as [b Hb]; [lia|].
  rewrite Hb. cbn [unwrap mbind result_bind].
  pose proof (forall_lookup _ _ _ _ Hi Hb) as Hib. pose proof (forall_lookup _ _ _ _ Hw Hb) as Hwb.
  pose proof (instruction_effect_safe _ _ _ _ Hib) as Hs.
  destruct (instruction_effect self b) as [[p q]| | |] eqn:E; try done. cbn [mbind result_bind].
  destruct (instruction_effect_nonneg b p q Hwb E) as [Hp Hq].
  assert (q <= u32_max) as Hq' by (eapply Hpush; [by eapply list_elem_of_lookup_2|exact E]).
  assert (zlen (i :: l) = zlen l + 1) as Elen by (simpl; lia). rewrite Elen in Hu.
  assert (0 <= u32_max) as Hu32 by done.
  unfold apply_effect. destruct (Z.ltb_spec h p); [done|].
  destruct (Z.ltb_spec u64_max (h - p + q)); [exfalso; nia|]. cbn [mbind result_bind].
  apply IH; [done|lia|nia].
Qed.

Lemma verify_block_safe id : id ∈ block_ids fv.(FunctionView.cfg) ->
  safe (verify_block self fv.(FunctionView.cfg) id).
Proof.
  intros [bb Hg]%BTreeMap.elem_of_keys. destruct (view_laws _ _ Hview) as [order HG].
  destruct (law_blocks id bb Hg) as [H0 [Hr _]]. pose proof (@law_length _ _ _ HG) as Hlen.
  unfold verify_block, block_end, block_start. rewrite Hg. cbn [unwrap mbind result_bind].
  apply safe_bind; [|intros h _; by destruct (h =? 0)]. apply verify_instrs_safe; [|done|].
  - apply Forall_forall. intros i Hi%list_elem_of_In%elem_of_seqZ. lia.
  - rewrite length_seqZ. unfold u16_max, u32_max, u64_max in *. nia.
Qed.
End total.

(** The stack usage verifier returns.  On every view that the earlier checks let
    through it answers with success or an error, if no instruction of the body pushes
    more than 2^32 - 1 values at once; a height that grows over [u64::MAX] is the only
    way to panic. *)
Theorem stack_usage_total (v : BinaryIndexedView) (fv : FunctionView) :
  checked_view v fv ->
  (forall b p q, b ∈ fv.(FunctionView.code).(CodeUnit.code) ->
     instruction_effect (verifier_of v fv) b = Ok (p, q) -> q <= u32_max) ->
  safe (StackUsageVerifier.verify v fv).
Proof.
  intros Hview%checked_view_ok Hpush. apply res_for_safe.
  intros id Hid. by apply verify_block_safe.
Qed.

Lemma stack_usage_total_witness :
  safe (StackUsageVerifier.verify (BinaryIndexedView.Module_ vector_module) vector_view).
Proof.
  apply stack_usage_total; [apply vector_view_checked|].
  assert (Forall (fun b => forall p q, instruction_effect
            (verifier_of (BinaryIndexedView.Module_ vector_module) vector_view) b = Ok (p, q) ->
            q <= u32_max) vector_body) as H.
  { repeat constructor; intros p q [= <- <-]; unfold u32_max; simpl; lia. }
  rewrite Forall_forall in H. intros b p q Hb%list_elem_of_In. exact (H b Hb p q).
Defined.

(** A body that unpacks a constant vector into [u64::MAX] values and pushes one more. *)
Definition overflow_body : list Bytecode :=
  [Bytecode.LdConst 0; Bytecode.VecUnpack 1 u64_max; Bytecode.LdTrue; Bytecode.Ret].
Definition overflow_module : CompiledModule :=
  CompiledModule.mk VERSION_MAX 0 [ModuleHandle.mk 0 0] [] [FunctionHandle.mk 0 0 0 0 []]
    [] [] [] [] [] [[]; [SignatureToken.U64]]
    [Identifier.self_bytes] [AccountAddress_ZERO]
    [Constant.mk (SignatureToken.Vector SignatureToken.U64) [0]] []
    [FunctionDefinition.mk 0 Visibility.Private [] (Some (CodeUnit.mk 0 overflow_body))].

(** The height overflows.  There is a module that the bounds checker accepts, with a
    body that the control flow verifier accepts, on which the addition of the pushes of
    [VecUnpack] overflows the [u64] height: the count of the instruction is not
    limited.  (Without overflow checks the height would wrap to 0 and the unbalanced
    block would pass.) *)
Theorem stack_usage_overflow :
  wf_module overflow_module = true /\ BoundsChecker.verify_module overflow_module = Ok () /\
  exists fv, FunctionView.function overflow_module 0 (CodeUnit.mk 0 overflow_body)
               (FunctionHandle.mk 0 0 0 0 []) = Ok fv /\
    ControlFlow.verify (Some 0) (CodeUnit.mk 0 overflow_body) = Ok () /\
    StackUsageVerifier.verify (BinaryIndexedView.Module_ overflow_module) fv = Panic.
Proof.
  split; [vm_compute; reflexivity|]. split; [vm_compute; reflexivity|].
  eexists. split; [vm_compute; reflexivity|]. repeat split; vm_compute; reflexivity.
Qed.
