(* ===== verification/Absint.v ===== *)
(** The abstract interpreter: move-bytecode-verifier/src/absint.rs.  The traits
    [AbstractDomain] and [TransferFunctions] are classes; an analysis is an instance of
    both.  A [join] or a transfer function may panic; an analysis error is a value, since
    the interpreter records it and goes on. *)
From S2P Require Import Prelude StatusCode Abilities Identifier FileFormat Access BTree.
From S2P Require Import ControlFlowGraph FunctionView.

Inductive JoinResult : Set := Changed | Unchanged.

(** [join] mutates its receiver: it returns the receiver after the call. *)
Class AbstractDomain (State : Set) := {
  join : State -> State -> result StatusCode (State * JoinResult) }.

Inductive BlockPostcondition (AnalysisError : Set) : Set :=
| Unprocessed
| Success
| Error (e : AnalysisError).
Arguments Unprocessed {AnalysisError}.
Arguments Success {AnalysisError}.
Arguments Error {AnalysisError} e.

Module BlockInvariant.
Record BlockInvariant (State AnalysisError : Set) : Set := mk {
  pre : State;
  post : BlockPostcondition AnalysisError }.
Arguments mk {State AnalysisError} pre post.
Arguments pre {State AnalysisError} b.
Arguments post {State AnalysisError} b.
End BlockInvariant.
Abbreviation BlockInvariant := BlockInvariant.BlockInvariant.

Definition InvariantMap (State AnalysisError : Set) : Set :=
  BTreeMap (BlockInvariant State AnalysisError).

(** [execute] mutates the analysis and the state; it returns both, or the analysis and
    an error (the state is then dropped by its callers). *)
Class TransferFunctions (Self State AnalysisError : Set) := {
  execute : Self -> State -> Bytecode -> CodeOffset -> CodeOffset ->
    result StatusCode (Self * (AnalysisError + State)) }.

Module AbstractInterpreter.
Section interpreter.
Context {Self State AnalysisError : Set}.
Context `{!AbstractDomain State} `{!TransferFunctions Self State AnalysisError}.
Context (function_view : FunctionView).
Abbreviation R := (result StatusCode).
Abbreviation Map := (InvariantMap State AnalysisError).
Abbreviation cfg := (function_view.(FunctionView.cfg)).

(** The loop of [execute_block] over the instructions of a block. *)
Fixpoint execute_instrs (self : Self) (state_acc : State) (block_end : CodeOffset)
    (offsets : list CodeOffset) : R (Self * (AnalysisError + State)) :=
  match offsets with
  | [] => Ok (self, inr state_acc)
  | offset :: offsets =>
    instr ← unwrap (function_view.(FunctionView.code).(CodeUnit.code) !! Z.to_nat offset);
    '(self, r) ← execute self state_acc instr offset block_end;
    match r with
    | inl e => Ok (self, inl e)
    | inr state_acc => execute_instrs self state_acc block_end offsets
    end
  end.

Definition execute_block (self : Self) (block_id : BlockId) (pre_state : State) :
    R (Self * (AnalysisError + State)) :=
  block_end ← VMControlFlowGraph.block_end cfg block_id;
  offsets ← VMControlFlowGraph.instr_indexes cfg block_id;
  execute_instrs self pre_state block_end offsets.

(** The loop that propagates the postcondition of [block_id] to its successors; it
    threads the map and the next block. *)
Fixpoint propagate (block_id : BlockId) (post_state : State) (successors : list BlockId)
    (inv_map : Map) (next_block_candidate : option BlockId) : R (Map * option BlockId) :=
  match successors with
  | [] => Ok (inv_map, next_block_candidate)
  | successor_block_id :: successors =>
    match BTreeMap.get successor_block_id inv_map with
    | Some next_block_invariant =>
      '(pre, join_result) ← join next_block_invariant.(BlockInvariant.pre) post_state;
      match join_result with
      | Unchanged =>
        let inv := BlockInvariant.mk pre next_block_invariant.(BlockInvariant.post) in
        propagate block_id post_state successors (BTreeMap.insert successor_block_id inv inv_map)
          next_block_candidate
      | Changed =>
        let next_block_candidate :=
          if VMControlFlowGraph.is_back_edge cfg block_id successor_block_id
          then Some successor_block_id else next_block_candidate in
        let inv := BlockInvariant.mk pre Unprocessed in
        propagate block_id post_state successors (BTreeMap.insert successor_block_id inv inv_map)
          next_block_candidate
      end
    | None =>
      let inv := BlockInvariant.mk post_state Success in
      propagate block_id post_state successors (BTreeMap.insert successor_block_id inv inv_map)
        next_block_candidate
    end
  end.

(** The [while] loop of [analyze_function]. *)
Fixpoint analyze_loop (fuel : nat) (self : Self) (next_block : option BlockId) (inv_map : Map) :
    R (Self * Map) :=
  match fuel with
  | O => OutOfFuel
  | S fuel =>
    match next_block with
    | None => Ok (self, inv_map)
    | Some block_id =>
      match BTreeMap.get block_id inv_map with
      | None =>
        next_block ← VMControlFlowGraph.next_block cfg block_id;
        analyze_loop fuel self next_block inv_map
      | Some block_invariant =>
        let pre_state := block_invariant.(BlockInvariant.pre) in
        '(self, r) ← execute_block self block_id pre_state;
        match r with
        | inl e =>
          let inv_map := BTreeMap.insert block_id (BlockInvariant.mk pre_state (Error e)) inv_map in
          next_block ← VMControlFlowGraph.next_block cfg block_id;
          analyze_loop fuel self next_block inv_map
        | inr post_state =>
          let inv_map := BTreeMap.insert block_id (BlockInvariant.mk pre_state Success) inv_map in
          next_block_candidate ← VMControlFlowGraph.next_block cfg block_id;
          successors ← VMControlFlowGraph.successors cfg block_id;
          '(inv_map, next_block) ←
            propagate block_id post_state successors inv_map next_block_candidate;
          analyze_loop fuel self next_block inv_map
        end
      end
    end
  end.

(** [height] bounds how often the precondition of a block can change; a pass over the
    blocks in which nothing changes is the last one. *)
Definition analysis_fuel (height : nat) : nat :=
  let n := length cfg.(VMControlFlowGraph.blocks) in n * S height * S n + n + 2.

Definition analyze_function (height : nat) (self : Self) (initial_state : State) :
    R (Self * Map) :=
  let entry_block_id := VMControlFlowGraph.entry_block_id in
  let inv_map := BTreeMap.insert entry_block_id (BlockInvariant.mk initial_state Unprocessed)
                   BTreeMap.empty in
  analyze_loop (analysis_fuel height) self (Some entry_block_id) inv_map.
End interpreter.
End AbstractInterpreter.
