(* ===== verification/AbsintTheorems.v ===== *)
(** Soundness and termination of the abstract interpreter, for any analysis: on the graph
    of a body that the control flow verifier accepts, [analyze_function] terminates and
    returns a map that is closed under the analysis.  The proof uses what that verifier
    guarantees: a loop is entered through its head only, so that going back to the head,
    and from there on in the traversal order, misses no block. *)
From S2P Require Import Prelude StatusCode Abilities Identifier FileFormat Access BoundsChecker BoundsSpec.
From S2P Require Import BoundsTheorems ControlFlow ControlFlowSpec ControlFlowTheorems BTree ControlFlowGraph.
From S2P Require Import PostOrder ControlFlowGraphTheorems FunctionView GraphLaws Absint.
Import VMControlFlowGraph AbstractInterpreter.

(** * Positions *)

Lemma before_in_prefix (order l1 l2 : list Z) x z :
  NoDup order -> order = l1 ++ x :: l2 -> before_in order z x -> z ∈ l1.
Proof.
  intros Hnd -> (i & j & Hij & Hz & Hx)%before_in_index.
  assert (j = length l1) as -> by (eapply list.NoDup_lookup; [done|exact Hx|by apply list_lookup_middle]).
  rewrite lookup_app_l in Hz by lia. by eapply list_elem_of_lookup_2.
Qed.

Lemma prefix_before (l1 l2 : list Z) x z : z ∈ l1 -> before_in (l1 ++ x :: l2) z x.
Proof.
  intros [i Hi]%list_elem_of_lookup. pose proof (lookup_lt_Some _ _ _ Hi).
  apply before_in_index. exists i, (length l1). split; [done|].
  split; [by rewrite lookup_app_l|by apply list_lookup_middle].
Qed.

Lemma before_in_irrefl (l : list Z) x : NoDup l -> ~ before_in l x x.
Proof.
  intros Hnd (i & j & Hij & Hx & Hy)%before_in_index.
  assert (i = j) by (by eapply list.NoDup_lookup). lia.
Qed.

(** * Sums *)

Lemma sum_list_with_mono {A} (f g : A -> nat) l :
  (forall x, x ∈ l -> f x <= g x)%nat -> (sum_list_with f l <= sum_list_with g l)%nat.
Proof.
  induction l as [|x l IH]; intros H; simpl; [lia|].
  pose proof (H x ltac:(by left)). assert (forall y, y ∈ l -> f y <= g y)%nat as H' by (intros; apply H; by right).
  specialize (IH H'). lia.
Qed.

Lemma sum_list_with_strict {A} (f g : A -> nat) l y :
  (forall x, x ∈ l -> f x <= g x)%nat -> y ∈ l -> (f y < g y)%nat ->
  (sum_list_with f l < sum_list_with g l)%nat.
Proof.
  intros H Hy Hlt. apply list_elem_of_split in Hy as (l1 & l2 & ->).
  rewrite !sum_list_with_app. simpl.
  assert (sum_list_with f l1 <= sum_list_with g l1)%nat.
  { apply sum_list_with_mono. intros x Hx. apply H, elem_of_app. by left. }
  assert (sum_list_with f l2 <= sum_list_with g l2)%nat.
  { apply sum_list_with_mono. intros x Hx. apply H, elem_of_app. right. by right. }
  lia.
Qed.

(** A block has at most one back edge. *)
Lemma back_edge_unique code g order x y y' :
  GraphLaws code g order -> edge g x y -> y <= x -> edge g x y' -> y' <= x -> y = y'.
Proof.
  intros HG Hy Hle Hy' Hle'.
  assert (forall z, edge g x z -> z <= x -> exists bb b, BTreeMap.get x (blocks g) = Some bb /\
            code !! Z.to_nat (BasicBlock.exit bb) = Some b /\ Bytecode.offset b = Some z) as H.
  { intros z (l & El & Hz) Hlez. unfold successors in El.
    destruct (BTreeMap.get x (blocks g)) as [bb|] eqn:Eg; [|done]. injection El as <-.
    destruct (law_blocks x bb Eg) as [H0 Hok].
    destruct (edge_successor code law_length x z bb Hok H0 Hz) as (b & Hb & [Ho|(-> & _)]).
    - by exists bb, b.
    - destruct Hok as [Hr _]. lia. }
  destruct (H y Hy Hle) as (bb & b & Eg & Eb & Ho). destruct (H y' Hy' Hle') as (bb' & b' & Eg' & Eb' & Ho').
  rewrite Eg in Eg'. injection Eg' as <-. rewrite Eb in Eb'. injection Eb' as <-. congruence.
Qed.

(** * Analyses *)

(** What an analysis has to satisfy on a view whose traversal order is [order]: [I x]
    holds of the states at the start of the block [x], [J] of the analysis itself between
    blocks, [leq] is the order of the domain and [rank] bounds how often a state can still
    change. *)
Section analysis.
Context {Self State AnalysisError : Set}.
Context `{!AbstractDomain State} `{!TransferFunctions Self State AnalysisError}.
Context (fv : FunctionView).
Abbreviation g := (fv.(FunctionView.cfg)).
Abbreviation Map := (InvariantMap State AnalysisError).

(** The analysis of a block, which must not depend on the analysis so far. *)
Definition block_result (J : Self -> Prop) (x : BlockId) (s : State) (r : AnalysisError + State) : Prop :=
  forall self, J self -> exists self', execute_block fv self x s = Ok (self', r) /\ J self'.

Record SoundAnalysis (order : list BlockId) (J : Self -> Prop) (I : BlockId -> State -> Prop)
    (leq : State -> State -> Prop) (rank : State -> nat) (height : nat) : Prop := {
  sound_order : PreOrder leq;
  sound_block : forall x s, x ∈ order -> I x s ->
    exists r, block_result J x s r /\ forall s', r = inr s' -> forall y, edge g x y -> I y s';
  sound_join : forall x s t, x ∈ order -> I x s -> I x t ->
    exists s' c, join s t = Ok (s', c) /\ I x s' /\ leq s s' /\ leq t s' /\
      match c with Unchanged => s' = s | Changed => (rank s' < rank s)%nat end;
  sound_rank : forall x s, I x s -> (rank s <= height)%nat }.

(** The outcome for a block: an error that is recorded, or a state that the invariants
    of the successors cover. *)
Definition consistent (J : Self -> Prop) (leq : State -> State -> Prop) (inv : Map) (x : BlockId) : Prop :=
  forall bi, BTreeMap.get x inv = Some bi ->
    (exists e, block_result J x bi.(BlockInvariant.pre) (inl e) /\ bi.(BlockInvariant.post) = Error e) \/
    (exists s', block_result J x bi.(BlockInvariant.pre) (inr s') /\ bi.(BlockInvariant.post) = Success /\
       forall y, edge g x y -> exists bj, BTreeMap.get y inv = Some bj /\ leq s' bj.(BlockInvariant.pre)).
End analysis.
Arguments SoundAnalysis {Self State AnalysisError _ _} fv.
Arguments consistent {Self State AnalysisError _} fv.
Arguments block_result {Self State AnalysisError _} fv.

Section proof.
Context {Self State AnalysisError : Set}.
Context `{!AbstractDomain State} `{!TransferFunctions Self State AnalysisError}.
Context (fv : FunctionView) (code : list Bytecode) (order : list BlockId).
Abbreviation g := (fv.(FunctionView.cfg)).
Abbreviation Map := (InvariantMap State AnalysisError).
Context `{HG : !GraphLaws code g order}.
Context (J : Self -> Prop) (I : BlockId -> State -> Prop) (leq : State -> State -> Prop).
Context (rank : State -> nat) (height : nat) (init : State).
Hypothesis HA : SoundAnalysis fv order J I leq rank height.

(** Every block of the map is reached through blocks of the map. *)
Inductive keyed (inv : Map) : BlockId -> Prop :=
| keyed_entry : keyed inv entry_block_id
| keyed_step x y : keyed inv x -> edge g x y -> is_Some (BTreeMap.get y inv) -> keyed inv y.

Record inv_ok (inv : Map) : Prop := {
  ok_keys : forall x bi, BTreeMap.get x inv = Some bi ->
    x ∈ order /\ I x bi.(BlockInvariant.pre) /\ keyed inv x;
  ok_entry : exists bi, BTreeMap.get entry_block_id inv = Some bi /\ leq init bi.(BlockInvariant.pre) }.

(** The map only grows. *)
Definition grows (inv inv' : Map) : Prop :=
  forall x bi, BTreeMap.get x inv = Some bi ->
    exists bi', BTreeMap.get x inv' = Some bi' /\ leq bi.(BlockInvariant.pre) bi'.(BlockInvariant.pre).

#[local] Instance leq_preorder : PreOrder leq := sound_order _ _ _ _ _ _ _ HA.

Lemma grows_refl inv : grows inv inv.
Proof using HA. intros x bi Hx. exists bi. split; [done|]. reflexivity. Qed.

Lemma grows_trans inv1 inv2 inv3 : grows inv1 inv2 -> grows inv2 inv3 -> grows inv1 inv3.
Proof using HA.
  intros H12 H23 x bi Hx. destruct (H12 x bi Hx) as (bi2 & H2 & L2). destruct (H23 x bi2 H2) as (bi3 & H3 & L3).
  exists bi3. split; [done|]. by transitivity bi2.(BlockInvariant.pre).
Qed.

Lemma keyed_grows inv inv' x : grows inv inv' -> keyed inv x -> keyed inv' x.
Proof using.
  intros Hg. induction 1 as [|x y _ IH Hxy [bi Hy]]; [constructor|].
  eapply keyed_step; [exact IH|exact Hxy|]. destruct (Hg y bi Hy) as (bi' & ? & _). by exists bi'.
Qed.

(** A loop head is in the map when a block of the loop is. *)
Lemma head_keyed inv x y :
  inv_ok inv -> keyed inv x -> edge g x y -> y <= x -> is_Some (BTreeMap.get y inv).
Proof using HG.
  intros Hok Hx Hxy Hle. destruct (BTreeMap.get y inv) as [bi|] eqn:Ey; [by exists bi|exfalso].
  apply (law_dominates x y Hxy Hle). clear Hxy Hle. induction Hx as [|u v _ IH Huv [bi Hv]].
  - constructor. destruct (ok_entry _ Hok) as (bi & Hb & _). congruence.
  - eapply path_step; [exact IH|exact Huv|]. congruence.
Qed.

(** * The measure *)

Definition weight_of (inv : Map) (x : BlockId) : nat :=
  match BTreeMap.get x inv with
  | None => S height
  | Some bi => rank bi.(BlockInvariant.pre)
  end.
Definition potential (inv : Map) : nat := sum_list_with (weight_of inv) order.

Lemma weight_insert (inv : Map) y bi x :
  weight_of (BTreeMap.insert y bi inv) x =
  if x =? y then rank bi.(BlockInvariant.pre) else weight_of inv x.
Proof using. unfold weight_of. rewrite BTreeMap.get_insert. by destruct (x =? y). Qed.

Lemma potential_insert (inv : Map) y bi :
  (rank bi.(BlockInvariant.pre) <= weight_of inv y)%nat ->
  (potential (BTreeMap.insert y bi inv) <= potential inv)%nat.
Proof using.
  intros H. apply sum_list_with_mono. intros x _. rewrite weight_insert.
  destruct (Z.eqb_spec x y) as [-> |]; [done|lia].
Qed.

Lemma potential_insert_strict (inv : Map) y bi :
  y ∈ order -> (rank bi.(BlockInvariant.pre) < weight_of inv y)%nat ->
  (potential (BTreeMap.insert y bi inv) < potential inv)%nat.
Proof using.
  intros Hy H. apply (sum_list_with_strict _ _ _ y); [|done|by rewrite weight_insert, Z.eqb_refl].
  intros x _. rewrite weight_insert. destruct (Z.eqb_spec x y) as [-> |]; lia.
Qed.

(** * Inserting into the map *)

Lemma grows_insert (inv : Map) y bi :
  (forall bj, BTreeMap.get y inv = Some bj -> leq bj.(BlockInvariant.pre) bi.(BlockInvariant.pre)) ->
  grows inv (BTreeMap.insert y bi inv).
Proof using HA.
  intros H x bj Hx. rewrite BTreeMap.get_insert. destruct (Z.eqb_spec x y) as [-> |].
  - exists bi. split; [done|]. by apply H.
  - exists bj. split; [done|]. reflexivity.
Qed.

Lemma inv_ok_insert (inv : Map) y bi :
  inv_ok inv -> y ∈ order -> I y bi.(BlockInvariant.pre) ->
  (forall bj, BTreeMap.get y inv = Some bj -> leq bj.(BlockInvariant.pre) bi.(BlockInvariant.pre)) ->
  (BTreeMap.get y inv = None -> exists x, keyed inv x /\ edge g x y) ->
  inv_ok (BTreeMap.insert y bi inv).
Proof using HA.
  intros [Hk He] Hy HI Hle Hnew. pose proof (grows_insert inv y bi Hle) as Hg. constructor.
  - intros x bj. rewrite BTreeMap.get_insert. destruct (Z.eqb_spec x y) as [-> |].
    + intros [= <-]. split; [done|]. split; [done|].
      destruct (BTreeMap.get y inv) as [bj|] eqn:Ey.
      * destruct (Hk y bj Ey) as (_ & _ & Hyk). by eapply keyed_grows.
      * destruct (Hnew eq_refl) as (x & Hx & Hxy). eapply keyed_step; [by eapply keyed_grows|exact Hxy|].
        rewrite BTreeMap.get_insert_eq. by eexists.
    + intros Hx. destruct (Hk x bj Hx) as (? & ? & ?). split; [done|]. split; [done|]. by eapply keyed_grows.
  - destruct He as (be & Eb & Hl). destruct (Hg _ _ Eb) as (be' & Eb' & Hl').
    exists be'. split; [done|]. by transitivity be.(BlockInvariant.pre).
Qed.

Lemma consistent_grows (inv inv' : Map) x :
  consistent fv J leq inv x -> BTreeMap.get x inv' = BTreeMap.get x inv -> grows inv inv' ->
  consistent fv J leq inv' x.
Proof using HA.
  intros Hc Hx Hg bi Hbi. rewrite Hx in Hbi.
  destruct (Hc bi Hbi) as [He|(s' & Hr & Hp & Hs)]; [by left|right].
  exists s'. split; [done|]. split; [done|]. intros y Hxy. destruct (Hs y Hxy) as (bj & Hy & Hl).
  destruct (Hg y bj Hy) as (bj' & Hy' & Hl'). exists bj'. split; [done|]. by transitivity bj.(BlockInvariant.pre).
Qed.

(** * Propagation *)

(** The effect of visiting the successors [succs] of [x], from the map [inv] and the next
    block [nb]. *)
Record propagated (x : BlockId) (s' : State) (inv : Map) (nb : option BlockId)
    (succs : list BlockId) (inv' : Map) (nb' : option BlockId) : Prop := {
  pr_ok : inv_ok inv';
  pr_grows : grows inv inv';
  pr_cover : forall y, y ∈ succs -> exists bj, BTreeMap.get y inv' = Some bj /\ leq s' bj.(BlockInvariant.pre);
  pr_frame : forall z, z ∉ succs -> BTreeMap.get z inv' = BTreeMap.get z inv;
  pr_le : (potential inv' <= potential inv)%nat;
  pr_next :
    (nb' = nb /\ forall z, z <= x -> BTreeMap.get z inv' = BTreeMap.get z inv) \/
    (exists y, nb' = Some y /\ edge g x y /\ y <= x /\ (potential inv' < potential inv)%nat) }.

Lemma propagated_cons x s' inv nb y succs inv1 nb1 inv' nb' :
  propagated x s' inv nb [y] inv1 nb1 -> propagated x s' inv1 nb1 succs inv' nb' ->
  propagated x s' inv nb (y :: succs) inv' nb'.
Proof using HA.
  intros [Ho1 Hg1 Hc1 Hf1 Hl1 Hn1] [Ho Hg Hc Hf Hl Hn]. constructor.
  - done.
  - by eapply grows_trans.
  - intros z [-> |Hz]%elem_of_cons; [|by apply Hc].
    destruct (Hc1 y) as (bj & Ey & L); [by left|]. destruct (Hg y bj Ey) as (bj' & Ey' & L').
    exists bj'. split; [done|]. by transitivity bj.(BlockInvariant.pre).
  - intros z [Hzy Hz]%not_elem_of_cons. rewrite Hf by done. apply Hf1.
    by intros ->%list_elem_of_singleton.
  - lia.
  - destruct Hn as [[-> Hs]|(z & -> & Hz & Hle & Hlt)]; [|right; exists z; repeat split; try done; lia].
    destruct Hn1 as [[-> Hs1]|(z & -> & Hz & Hle & Hlt)].
    + left. split; [done|]. intros z Hz. by rewrite Hs, Hs1.
    + right. exists z. repeat split; try done. lia.
Qed.

(** Joining into an invariant that is already there. *)
Lemma visit_present x s' y inv nb bj :
  inv_ok inv -> y ∈ order -> edge g x y -> I y s' -> BTreeMap.get y inv = Some bj ->
  exists inv1 nb1, (forall rest, propagate fv x s' (y :: rest) inv nb = propagate fv x s' rest inv1 nb1) /\
    propagated x s' inv nb [y] inv1 nb1.
Proof using HA HG.
  intros Hok Hy Hxy HI Ey. destruct (ok_keys _ Hok y bj Ey) as (_ & HIj & _).
  destruct (sound_join _ _ _ _ _ _ _ HA y _ s' Hy HIj HI) as (t & c & Ej & HIt & L1 & L2 & Hc).
  set (inv1 := fun p => BTreeMap.insert y (BlockInvariant.mk t p) inv : Map).
  assert (forall p, grows inv (inv1 p)) as Hg.
  { intros p. apply grows_insert. intros b' Eb. rewrite Ey in Eb. by injection Eb as <-. }
  assert (forall p, inv_ok (inv1 p)) as Ho.
  { intros p. apply inv_ok_insert; try done; [|congruence]. intros b' Eb. rewrite Ey in Eb. by injection Eb as <-. }
  assert (forall p z, z ∈ [y] -> exists b', BTreeMap.get z (inv1 p) = Some b' /\ leq s' b'.(BlockInvariant.pre)) as Hcov.
  { intros p z ->%list_elem_of_singleton. eexists. split; [apply BTreeMap.get_insert_eq|done]. }
  assert (forall p z, z ∉ [y] -> BTreeMap.get z (inv1 p) = BTreeMap.get z inv) as Hfr.
  { intros p z Hz. apply BTreeMap.get_insert_ne. intros ->. apply Hz. by left. }
  assert (weight_of inv y = rank bj.(BlockInvariant.pre)) as Hw by (unfold weight_of; by rewrite Ey).
  destruct c.
  - (* changed *)
    exists (inv1 Unprocessed), (if is_back_edge g x y then Some y else nb). split.
    { intros rest. cbn [propagate]. rewrite Ey, Ej. done. }
    assert (potential (inv1 Unprocessed) < potential inv)%nat as Hpot.
    { apply potential_insert_strict; [done|]. simpl. lia. }
    constructor; [apply Ho|apply Hg|apply Hcov|apply Hfr|lia|]. destruct (is_back_edge g x y) eqn:Eb.
    + right. exists y. apply law_back_edge in Eb as [_ Hle]. done.
    + left. split; [done|]. intros z Hz. apply Hfr. intros ->%list_elem_of_singleton.
      assert (is_back_edge g x y = true); [|congruence]. by apply law_back_edge.
  - (* unchanged *)
    exists (inv1 bj.(BlockInvariant.post)), nb. split.
    { intros rest. cbn [propagate]. rewrite Ey, Ej. done. }
    assert (forall z, BTreeMap.get z (inv1 bj.(BlockInvariant.post)) = BTreeMap.get z inv) as Hsame.
    { intros z. unfold inv1. rewrite BTreeMap.get_insert. destruct (Z.eqb_spec z y) as [-> |]; [|done].
      rewrite Ey, Hc. by destruct bj. }
    constructor; [apply Ho|apply Hg|apply Hcov|apply Hfr| |by left].
    apply potential_insert. simpl. rewrite Hc. lia.
Qed.

(** A successor that is not in the map yet gets the state as its precondition. *)
Lemma visit_absent x s' y inv nb :
  inv_ok inv -> keyed inv x -> y ∈ order -> edge g x y -> I y s' -> BTreeMap.get y inv = None ->
  exists inv1, (forall rest, propagate fv x s' (y :: rest) inv nb = propagate fv x s' rest inv1 nb) /\
    propagated x s' inv nb [y] inv1 nb.
Proof using HA HG.
  intros Hok Hx Hy Hxy HI Ey. exists (BTreeMap.insert y (BlockInvariant.mk s' Success) inv). split.
  { intros rest. cbn [propagate]. by rewrite Ey. }
  assert (x < y) as Hlt.
  { destruct (Z.lt_ge_cases x y) as [|Hle]; [done|exfalso].
    destruct (head_keyed inv x y Hok Hx Hxy Hle) as [? ?]. congruence. }
  constructor.
  - apply inv_ok_insert; try done; [congruence|]. intros _. by exists x.
  - apply grows_insert. congruence.
  - intros z ->%list_elem_of_singleton. eexists. split; [apply BTreeMap.get_insert_eq|]. reflexivity.
  - intros z Hz. apply BTreeMap.get_insert_ne. intros ->. apply Hz. by left.
  - apply potential_insert. unfold weight_of. rewrite Ey. simpl.
    pose proof (sound_rank _ _ _ _ _ _ _ HA y s' HI). lia.
  - left. split; [done|]. intros z Hz. apply BTreeMap.get_insert_ne. lia.
Qed.

Lemma propagate_ok x s' (succs : list BlockId) inv nb :
  inv_ok inv -> keyed inv x -> x ∈ order -> (forall y, y ∈ succs -> edge g x y) ->
  (forall y, edge g x y -> I y s') ->
  exists inv' nb', propagate fv x s' succs inv nb = Ok (inv', nb') /\
    propagated x s' inv nb succs inv' nb'.
Proof using HA HG.
  intros Hok Hx Hxo Hs HI. revert inv nb Hok Hx. induction succs as [|y succs IH]; intros inv nb Hok Hx.
  { exists inv, nb. split; [done|]. constructor; try done; [apply grows_refl| |by left].
    intros y Hy. by apply elem_of_nil in Hy. }
  assert (edge g x y) as Hxy by (apply Hs; by left).
  assert (y ∈ order) as Hy by by eapply law_closed.
  assert (exists inv1 nb1, (forall rest, propagate fv x s' (y :: rest) inv nb = propagate fv x s' rest inv1 nb1) /\
            propagated x s' inv nb [y] inv1 nb1) as (inv1 & nb1 & E & Hp).
  { destruct (BTreeMap.get y inv) as [bj|] eqn:Ey.
    - eapply visit_present; eauto.
    - destruct (visit_absent x s' y inv nb) as (inv1 & E & Hp); eauto. }
  destruct (IH) with (inv := inv1) (nb := nb1) as (inv' & nb' & E' & Hp').
  - intros z Hz. apply Hs. by right.
  - by eapply pr_ok.
  - eapply keyed_grows; [by eapply pr_grows|done].
  - exists inv', nb'. split; [by rewrite E|]. by eapply propagated_cons.
Qed.

(** * The loop *)

(** A successful visit of a block leaves it consistent, unless it sends the loop back to
    a loop head. *)
Lemma visit_block l1 x l2 inv bi s' :
  order = l1 ++ x :: l2 -> inv_ok inv -> BTreeMap.get x inv = Some bi ->
  (forall z, z ∈ l1 -> consistent fv J leq inv z) ->
  block_result fv J x bi.(BlockInvariant.pre) (inr s') -> (forall y, edge g x y -> I y s') ->
  let inv1 := BTreeMap.insert x (BlockInvariant.mk bi.(BlockInvariant.pre) Success) inv in
  exists succs inv' nb', successors g x = Ok succs /\
    propagate fv x s' succs inv1 (head l2) = Ok (inv', nb') /\ inv_ok inv' /\
    (potential inv' <= potential inv)%nat /\
    exists k1 k2, order = k1 ++ k2 /\ nb' = head k2 /\ (forall z, z ∈ k1 -> consistent fv J leq inv' z) /\
      (k1 = l1 ++ [x] /\ k2 = l2 \/ (potential inv' < potential inv)%nat).
Proof using HA HG.
  intros Eo Hok Ex Hcons Hr HI inv1. assert (x ∈ order) as Hxo by (rewrite Eo; apply elem_of_app; right; by left).
  destruct (ok_keys _ Hok x bi Ex) as (_ & HIx & Hkx).
  assert (grows inv inv1) as Hg1.
  { apply grows_insert. intros b Hb. rewrite Ex in Hb. injection Hb as <-. reflexivity. }
  assert (inv_ok inv1) as Hok1.
  { apply inv_ok_insert; try done; [|congruence]. intros b Hb. rewrite Ex in Hb. injection Hb as <-. reflexivity. }
  assert (potential inv1 <= potential inv)%nat as Hp1.
  { apply potential_insert. unfold weight_of. rewrite Ex. simpl. lia. }
  destruct (law_order x Hxo) as [bb Hbb].
  assert (successors g x = Ok bb.(BasicBlock.successors)) as Es by (unfold successors; by rewrite Hbb).
  destruct (propagate_ok x s' bb.(BasicBlock.successors) inv1 (head l2)) as (inv' & nb' & E & [Ho Hg Hc Hf Hl Hn]);
    try done; [by eapply keyed_grows|intros y Hy; by exists bb.(BasicBlock.successors)|].
  exists bb.(BasicBlock.successors), inv', nb'. split; [done|]. split; [done|]. split; [done|]. split; [lia|].
  assert (forall z, z ∈ l1 -> (edge g x z -> BTreeMap.get z inv' = BTreeMap.get z inv1) ->
            consistent fv J leq inv' z) as Hz.
  { intros z Hz Hsame. assert (z <> x) as Hzx.
    { intros ->. eapply before_in_irrefl; [apply law_nodup|]. rewrite Eo. by apply prefix_before. }
    eapply (consistent_grows inv); [by apply Hcons| |by eapply grows_trans].
    transitivity (BTreeMap.get z inv1); [|by apply BTreeMap.get_insert_ne].
    destruct (decide (z ∈ bb.(BasicBlock.successors))) as [Hin|Hnin]; [|by apply Hf].
    apply Hsame. by exists bb.(BasicBlock.successors). }
  assert (forall z, z ∈ l1 -> edge g x z -> z <= x) as Hback.
  { intros z Hz1 Hxz. destruct (Z.lt_ge_cases x z) as [Hlt|]; [exfalso|done].
    eapply before_in_irrefl; [apply law_nodup|]. eapply before_in_trans; [apply law_nodup| |].
    - rewrite Eo. by apply prefix_before.
    - by apply law_forward. }
  destruct Hn as [[-> Hsame]|(y & -> & Hxy & Hle & Hlt)].
  - exists (l1 ++ [x]), l2. rewrite <- app_assoc. split; [done|]. split; [done|]. split; [|by left].
    intros z [Hz1| ->%list_elem_of_singleton]%elem_of_app.
    { apply Hz; [done|]. intros Hxz. by apply Hsame, Hback. }
    intros b Hb. rewrite Hsame in Hb by lia. unfold inv1 in Hb. rewrite BTreeMap.get_insert_eq in Hb.
    injection Hb as <-. right. exists s'. split; [done|]. split; [done|].
    intros y (l & El & Hy). rewrite Es in El. injection El as <-. by apply Hc.
  - assert (exists k1 k2, order = k1 ++ y :: k2 /\ forall z, z ∈ k1 -> z ∈ l1 /\ z <> y) as (k1 & k2 & Ek & Hk).
    { assert (forall k1 k2, order = k1 ++ y :: k2 -> forall z, z ∈ k1 -> z <> y) as Hzy.
      { intros k1 k2 Ek z Hzk ->. eapply before_in_irrefl; [apply law_nodup|]. rewrite Ek.
        by apply prefix_before. }
      destruct (law_backward x y Hxo Hxy Hle) as [-> |(k1 & k2 & Ek & Hin)].
      - exists l1, l2. split; [done|]. intros z Hz1. split; [done|]. by eapply Hzy.
      - exists k1, k2. split; [done|]. intros z Hzk. split; [|by eapply Hzy].
        eapply before_in_prefix; [apply law_nodup|exact Eo|].
        eapply (before_in_trans _ z y x); [apply law_nodup| |].
        + rewrite Ek. by apply prefix_before.
        + by exists k1, k2. }
    exists k1, (y :: k2). split; [done|]. split; [done|]. split; [|right; lia].
    intros z Hzk. destruct (Hk z Hzk) as [Hz1 Hzy]. apply Hz; [done|]. intros Hxz. exfalso. apply Hzy.
    eapply back_edge_unique; [exact HG|exact Hxz|by apply Hback|exact Hxy|exact Hle].
Qed.

Lemma analyze_loop_ok fuel self l1 rest inv :
  order = l1 ++ rest -> inv_ok inv -> J self -> (forall z, z ∈ l1 -> consistent fv J leq inv z) ->
  (potential inv * S (length order) + length rest < fuel)%nat ->
  exists self' inv', analyze_loop fv fuel self (head rest) inv = Ok (self', inv') /\
    inv_ok inv' /\ forall z, z ∈ order -> consistent fv J leq inv' z.
Proof using HA HG.
  revert self l1 rest inv. induction fuel as [|fuel IH]; intros self l1 rest inv Eo Hok HJ Hcons Hm; [lia|].
  cbn [analyze_loop]. destruct rest as [|x l2]; cbn [head].
  { exists self, inv. split; [done|]. split; [done|]. intros z Hz. apply Hcons.
    by rewrite Eo, app_nil_r in Hz. }
  assert (x ∈ order) as Hxo by (rewrite Eo; apply elem_of_app; right; by left).
  assert (order = (l1 ++ [x]) ++ l2) as Eo' by (by rewrite <- app_assoc).
  rewrite (law_next l1 x l2 Eo). cbn [length] in Hm.
  destruct (BTreeMap.get x inv) as [bi|] eqn:Ex; cycle 1.
  { cbn [mbind result_bind]. apply (IH self (l1 ++ [x])); try done; [|lia].
    intros z [Hz| ->%list_elem_of_singleton]%elem_of_app; [by apply Hcons|]. intros bi. by rewrite Ex. }
  destruct (ok_keys _ Hok x bi Ex) as (_ & HIx & Hkx).
  destruct (sound_block _ _ _ _ _ _ _ HA x _ Hxo HIx) as (r & Hr & HI).
  destruct (Hr self HJ) as (self' & Eb & HJ'). rewrite Eb. cbn [mbind result_bind]. destruct r as [e|s'].
  - assert (grows inv (BTreeMap.insert x (BlockInvariant.mk bi.(BlockInvariant.pre) (Error e)) inv)) as Hg.
    { apply grows_insert. intros b Hb. rewrite Ex in Hb. injection Hb as <-. reflexivity. }
    apply (IH self' (l1 ++ [x])); try done.
    + apply inv_ok_insert; try done; [|congruence]. intros b Hb. rewrite Ex in Hb. injection Hb as <-. reflexivity.
    + intros z [Hz| ->%list_elem_of_singleton]%elem_of_app.
      * eapply consistent_grows; [by apply Hcons| |exact Hg]. apply BTreeMap.get_insert_ne. intros ->.
        eapply before_in_irrefl; [apply law_nodup|]. rewrite Eo. by apply prefix_before.
      * intros b Hb. rewrite BTreeMap.get_insert_eq in Hb. injection Hb as <-. left. by exists e.
    + assert (potential (BTreeMap.insert x (BlockInvariant.mk bi.(BlockInvariant.pre) (Error e)) inv)
              <= potential inv)%nat; [|nia]. apply potential_insert. unfold weight_of. rewrite Ex. simpl. lia.
  - destruct (visit_block l1 x l2 inv bi s') as (succs & inv' & nb' & Es & Ep & Hok' & Hp & k1 & k2 & Ek & -> & Hk & Hc);
      try done; [by intros y; apply HI|].
    cbn [mbind result_bind]. rewrite Es. cbn [mbind result_bind]. rewrite Ep. cbn [mbind result_bind]. apply (IH self' k1); try done.
    destruct Hc as [[-> ->]|Hlt]; [nia|].
    assert (length k2 <= length order)%nat by (rewrite Ek, length_app; lia). nia.
Qed.

Lemma analyze_function_ok self :
  J self -> I entry_block_id init ->
  exists self' inv, analyze_function fv height self init = Ok (self', inv) /\
    inv_ok inv /\ forall z, z ∈ order -> consistent fv J leq inv z.
Proof using HA HG.
  intros HJ HI. unfold analyze_function. destruct law_entry as [rest Er].
  assert (entry_block_id ∈ order) as He by (rewrite Er; by left).
  set (inv := BTreeMap.insert _ _ _ : Map).
  assert (forall x bi, BTreeMap.get x inv = Some bi -> x = entry_block_id /\ bi.(BlockInvariant.pre) = init) as Hinv.
  { intros x bi. unfold inv. rewrite BTreeMap.get_insert.
    destruct (Z.eqb_spec x entry_block_id) as [-> |]; [by intros [= <-]|done]. }
  assert (inv_ok inv) as Hok.
  { constructor.
    - intros x bi [-> ->]%Hinv. split; [done|]. split; [done|constructor].
    - eexists. split; [apply BTreeMap.get_insert_eq|]. reflexivity. }
  replace (Some entry_block_id) with (head order) by (by rewrite Er).
  apply (analyze_loop_ok _ self []); try done.
  - intros z Hz. by apply elem_of_nil in Hz.
  - assert (potential inv <= length order * S height)%nat as Hp.
    { assert (forall x, weight_of inv x <= S height)%nat as Hw.
      { intros x. unfold weight_of. destruct (BTreeMap.get x inv) as [bi|] eqn:Ex; [|lia].
        apply Hinv in Ex as [-> ->]. pose proof (sound_rank _ _ _ _ _ _ _ HA _ _ HI). lia. }
      unfold potential. generalize order. intros l. clear -Hw. induction l as [|x l IH]; simpl; [lia|].
      specialize (Hw x). lia. }
    pose proof (@law_size _ _ _ HG) as Hsize. unfold analysis_fuel.
    assert (potential inv <= length g.(blocks) * S height)%nat as Hp' by nia.
    assert (potential inv * S (length order) <= length g.(blocks) * S height * S (length g.(blocks)))%nat
      by (apply Nat.mul_le_mono; lia). lia.
Qed.
End proof.

(** The map stays sorted. *)
Section sorted.
Context {Self State AnalysisError : Set}.
Context `{!AbstractDomain State} `{!TransferFunctions Self State AnalysisError}.
Context (fv : FunctionView).

Lemma propagate_sorted x (s : State) succs (inv inv' : InvariantMap State AnalysisError) nb nb' :
  BTreeMap.sorted inv -> propagate fv x s succs inv nb = Ok (inv', nb') -> BTreeMap.sorted inv'.
Proof.
  revert inv nb. induction succs as [|y succs IH]; intros inv nb Hs E; cbn [propagate] in E.
  { by injection E as <- <-. }
  destruct (BTreeMap.get y inv) as [bj|].
  - destruct (join _ s) as [[t []]| | |]; try done; cbn [mbind result_bind] in E;
      (eapply IH; [|exact E]); by apply BTreeMap.insert_sorted.
  - eapply IH; [|exact E]. by apply BTreeMap.insert_sorted.
Qed.

Lemma analyze_loop_sorted fuel (self self' : Self) nb (inv inv' : InvariantMap State AnalysisError) :
  BTreeMap.sorted inv -> analyze_loop fv fuel self nb inv = Ok (self', inv') -> BTreeMap.sorted inv'.
Proof.
  revert self nb inv. induction fuel as [|fuel IH]; intros self nb inv Hs E; [done|]. cbn [analyze_loop] in E.
  destruct nb as [x|]; [|by injection E as <- <-]. destruct (BTreeMap.get x inv) as [bi|].
  - destruct (execute_block fv self x _) as [[self1 [e|s]]| | |]; try done; cbn [mbind result_bind] in E;
      destruct (next_block _ x) as [nb| | |]; try done; cbn [mbind result_bind] in E.
    + eapply IH; [|exact E]. by apply BTreeMap.insert_sorted.
    + destruct (successors _ x) as [succs| | |]; try done. cbn [mbind result_bind] in E.
      destruct (propagate _ _ _ _ _ _) as [[inv1 nb1]| | |] eqn:Ep; try done. cbn [mbind result_bind] in E.
      eapply IH; [|exact E]. eapply propagate_sorted; [|exact Ep]. by apply BTreeMap.insert_sorted.
  - destruct (next_block _ x) as [nb| | |]; try done. cbn [mbind result_bind] in E. by eapply IH.
Qed.

Lemma analyze_sorted height (self self' : Self) (init : State)
    (inv : InvariantMap State AnalysisError) :
  analyze_function fv height self init = Ok (self', inv) -> BTreeMap.sorted inv.
Proof. apply analyze_loop_sorted. apply BTreeMap.insert_sorted. constructor. Qed.
End sorted.

(** * Executions *)

(** Paths through a body with a state that each instruction transforms; [None] is a
    violation of what the analysis is to exclude. *)
Inductive path_to {C : Type} (code : list Bytecode) (cstep : Bytecode -> C -> option C) (c0 : C) :
    Z -> C -> Prop :=
| path_start : path_to code cstep c0 0 c0
| path_next pc c b c' s :
    path_to code cstep c0 pc c -> code !! Z.to_nat pc = Some b -> cstep b c = Some c' ->
    successor code pc b s -> path_to code cstep c0 s c'.

(** The states of an analysis stand for states of the executions. *)
Record Concretization {Self State AnalysisError : Set} `{!TransferFunctions Self State AnalysisError}
    {C : Type} (code : list Bytecode) (cstep : Bytecode -> C -> option C)
    (cover : Self -> State -> C -> Prop) (J : Self -> Prop) (leq : State -> State -> Prop) : Prop := {
  cover_step : forall self s c b i last self' s', 0 <= i -> code !! Z.to_nat i = Some b ->
    cover self s c -> execute self s b i last = Ok (self', inr s') ->
    exists c', cstep b c = Some c' /\ cover self' s' c';
  cover_leq : forall self self' s t c, J self' -> leq s t -> cover self s c -> cover self' t c }.

Section executions.
Context {Self State AnalysisError : Set}.
Context `{!AbstractDomain State} `{!TransferFunctions Self State AnalysisError}.
Context (fv : FunctionView) (order : list BlockId).
Abbreviation g := (fv.(FunctionView.cfg)).
Abbreviation body := (fv.(FunctionView.code).(CodeUnit.code)).
Context `{HG : !GraphLaws body g order}.

Lemma execute_instrs_app self s last l1 l2 :
  execute_instrs fv self s last (l1 ++ l2) =
  ('(self, r) ← execute_instrs fv self s last l1;
   match r with
   | inl e => Ok (self, inl e)
   | inr s => execute_instrs fv self s last l2
   end).
Proof.
  revert self s. induction l1 as [|i l1 IH]; intros self s; [done|]. cbn [app execute_instrs].
  destruct (unwrap _) as [b| | |]; try done. cbn [mbind result_bind].
  destruct (execute self s b i last) as [[self' [e|s']]| | |]; try done. cbn [mbind result_bind]. apply IH.
Qed.

Lemma execute_block_eq self x bb s :
  BTreeMap.get x g.(blocks) = Some bb ->
  execute_block fv self x s =
  execute_instrs fv self s bb.(BasicBlock.exit) (seqZ x (bb.(BasicBlock.exit) - x + 1)).
Proof. intros Hx. unfold execute_block, instr_indexes, block_end, block_start. by rewrite Hx. Qed.

Lemma execute_instrs_cons self s last i l self2 s2 :
  execute_instrs fv self s last (i :: l) = Ok (self2, inr s2) ->
  exists b self1 s1, body !! Z.to_nat i = Some b /\ execute self s b i last = Ok (self1, inr s1) /\
    execute_instrs fv self1 s1 last l = Ok (self2, inr s2).
Proof.
  cbn [execute_instrs]. destruct (body !! Z.to_nat i) as [b|]; [|done]. cbn [unwrap mbind result_bind].
  destruct (execute self s b i last) as [[self1 [e|s1]]| | |] eqn:E; try done. cbn [mbind result_bind].
  intros H. by exists b, self1, s1.
Qed.

(** At the end of a block control goes along an edge, before it to the next instruction. *)
Lemma block_successor x bb pc b y :
  BTreeMap.get x g.(blocks) = Some bb -> x <= pc <= bb.(BasicBlock.exit) ->
  body !! Z.to_nat pc = Some b ->
  successor body pc b y <->
  if pc =? bb.(BasicBlock.exit) then edge g x y else y = pc + 1.
Proof using HG.
  intros Hx Hpc Hb. destruct (law_blocks x bb Hx) as [H0 Hok]. pose proof Hok as (Hr & _ & _ & Es).
  destruct (Z.eqb_spec pc bb.(BasicBlock.exit)) as [-> |Hne].
  - destruct (get_successors_spec bb.(BasicBlock.exit) body b) as (l & El & _ & Hl);
      [lia|done|apply law_length|]. rewrite Es in El. injection El as <-.
    rewrite <- Hl. unfold edge, successors. rewrite Hx. cbn. naive_solver.
  - destruct (block_straight body x bb pc) as (b' & Hb' & Hbr); [done|done|lia|].
    rewrite Hb in Hb'. injection Hb' as <-. unfold Bytecode.is_branch in Hbr.
    apply orb_false_iff in Hbr as [Hc Hu]. split.
    + intros [Ho|[-> _]]; [exfalso|done]. by destruct b.
    + intros ->. right. split; [done|]. split; [lia|done].
Qed.

Context (J : Self -> Prop) (leq : State -> State -> Prop).
Context {C : Type} (cstep : Bytecode -> C -> option C) (cover : Self -> State -> C -> Prop) (c0 : C).
Hypothesis HC : Concretization body cstep cover J leq.
Context (inv : InvariantMap State AnalysisError) (self : Self).
Hypothesis HJ : J self.
Hypothesis Hinv : forall x bi, BTreeMap.get x inv = Some bi ->
  is_Some (BTreeMap.get x g.(blocks)) /\ consistent fv J leq inv x /\
  forall e, bi.(BlockInvariant.post) <> Error e.

(** The state of the analysis at [pc] covers [c]. *)
Definition covered (pc : Z) (c : C) : Prop :=
  exists x bb bi self' s, BTreeMap.get x g.(blocks) = Some bb /\ BTreeMap.get x inv = Some bi /\
    x <= pc <= bb.(BasicBlock.exit) /\
    execute_instrs fv self bi.(BlockInvariant.pre) bb.(BasicBlock.exit) (seqZ x (pc - x)) = Ok (self', inr s) /\
    cover self' s c.

Lemma covered_start x bi c :
  BTreeMap.get x inv = Some bi -> cover self bi.(BlockInvariant.pre) c -> covered x c.
Proof using HG Hinv.
  intros Hx Hc. destruct (Hinv x bi Hx) as ([bb Hbb] & _). destruct (law_blocks x bb Hbb) as [H0 [Hr _]].
  exists x, bb, bi, self, bi.(BlockInvariant.pre). rewrite Z.sub_diag. repeat split; (done || lia).
Qed.

Lemma covered_step pc c b :
  covered pc c -> body !! Z.to_nat pc = Some b ->
  exists c', cstep b c = Some c' /\ forall y, successor body pc b y -> covered y c'.
Proof using HG HC HJ Hinv.
  intros (x & bb & bi & self1 & s & Hbb & Hx & Hpc & E & Hc) Hb.
  destruct (Hinv x bi Hx) as (_ & Hcons & Hne). destruct (law_blocks x bb Hbb) as [H0 _].
  destruct (Hcons bi Hx) as [(e & _ & He)|(s' & Hr & _ & Hsucc)]; [by destruct (Hne e)|].
  destruct (Hr self HJ) as (self' & Er & HJ').
  rewrite (execute_block_eq self x bb) in Er by done. rewrite (seqZ_split x pc) in Er by lia.
  rewrite execute_instrs_app, E in Er. cbn [mbind result_bind] in Er.
  apply execute_instrs_cons in Er as (b' & self2 & s2 & Hb' & Ex & Er).
  rewrite Hb in Hb'. injection Hb' as <-.
  destruct (cover_step _ _ _ _ _ HC self1 s c b pc _ self2 s2 ltac:(lia) Hb Hc Ex) as (c' & Ec & Hc').
  exists c'. split; [done|]. intros y Hy. rewrite (block_successor x bb) in Hy by done.
  destruct (Z.eqb_spec pc bb.(BasicBlock.exit)) as [-> |Hn].
  - rewrite Z.sub_diag in Er. injection Er as -> ->. destruct (Hsucc y Hy) as (bj & Hyj & Hl).
    eapply covered_start; [exact Hyj|]. by eapply cover_leq.
  - subst y. exists x, bb, bi, self2, s2. split; [done|]. split; [done|]. split; [lia|]. split; [|done].
    rewrite seqZ_next by lia. rewrite execute_instrs_app, E. cbn [mbind result_bind execute_instrs].
    rewrite Hb. cbn [unwrap mbind result_bind]. by rewrite Ex.
Qed.

Lemma paths_covered pc c :
  covered 0 c0 -> path_to body cstep c0 pc c -> covered pc c.
Proof using HG HC HJ Hinv.
  intros H0. induction 1 as [|pc c b c' y _ IH Hb Hc Hy]; [done|].
  destruct (covered_step pc c b IH Hb) as (c'' & Ec & Hcov). rewrite Hc in Ec. injection Ec as <-.
  by apply Hcov.
Qed.
End executions.

Section soundness.
Context {Self State AnalysisError : Set}.
Context `{!AbstractDomain State} `{!TransferFunctions Self State AnalysisError}.
Context (fv : FunctionView) (order : list BlockId).
Abbreviation g := (fv.(FunctionView.cfg)).
Abbreviation body := (fv.(FunctionView.code).(CodeUnit.code)).

Lemma analysis_sound `{HG : !GraphLaws body g order} J I leq rank height
    (self : Self) (init : State) {C : Type} (cstep : Bytecode -> C -> option C) cover (c0 : C) :
  SoundAnalysis fv order J I leq rank height -> Concretization body cstep cover J leq ->
  J self -> I entry_block_id init -> cover self init c0 ->
  exists self' inv, analyze_function fv height self init = Ok (self', inv) /\
    (forall x bi, BTreeMap.get x inv = Some bi -> x ∈ order /\ I x bi.(BlockInvariant.pre)) /\
    (forall x, x ∈ order -> consistent fv J leq inv x) /\
    ((forall x bi e, BTreeMap.get x inv = Some bi -> bi.(BlockInvariant.post) <> Error e) ->
     forall pc c b, path_to body cstep c0 pc c -> body !! Z.to_nat pc = Some b -> is_Some (cstep b c)).
Proof.
  intros HA HC HJ HI Hc0.
  destruct (analyze_function_ok fv body order J I leq rank height init HA self HJ HI)
    as (self' & inv & E & [Hk (be & Eb & Hl)] & Hcons).
  exists self', inv. split; [done|]. split; [intros x bi Hx; by destruct (Hk x bi Hx) as (? & ? & _)|].
  split; [done|]. intros Hne pc c b Hp Hb.
  assert (forall x bi, BTreeMap.get x inv = Some bi -> is_Some (BTreeMap.get x g.(blocks)) /\
            consistent fv J leq inv x /\ forall e, bi.(BlockInvariant.post) <> Error e) as Hinv.
  { intros x bi Hx. destruct (Hk x bi Hx) as (Ho & _). split; [by apply law_order|].
    split; [by apply Hcons|]. intros e. by apply (Hne x bi e Hx). }
  assert (covered fv cover inv self 0 c0) as H0.
  { eapply (covered_start fv order J leq cover inv self Hinv); [exact Eb|]. by eapply cover_leq. }
  assert (covered fv cover inv self pc c) as Hcov.
  { eapply (paths_covered fv order J leq cstep); try done. }
  destruct (covered_step fv order J leq cstep cover HC inv self HJ Hinv pc c b Hcov Hb) as (c' & Ec & _).
  by exists c'.
Qed.
End soundness.

(** C36: the abstract interpreter is sound, for every analysis.  On the graph of a body that
    the control flow verifier accepts, an analysis with joins that are upper bounds and
    preconditions that can change only boundedly often terminates within its fuel; the
    map it returns records the error, or a state that the successors cover, for every
    block; and if no block has an error, no path through the body, whatever loops it
    takes, runs into what the transfer functions exclude. *)
Theorem absint_sound {Self State AnalysisError : Set}
    `{!AbstractDomain State} `{!TransferFunctions Self State AnalysisError}
    (v : BinaryIndexedView) (fv : FunctionView) J I leq rank height (self : Self) (init : State)
    {C : Type} (cstep : Bytecode -> C -> option C) cover (c0 : C) :
  checked_view v fv ->
  (forall order, GraphLaws fv.(FunctionView.code).(CodeUnit.code) fv.(FunctionView.cfg) order ->
     SoundAnalysis fv order J I leq rank height) ->
  Concretization fv.(FunctionView.code).(CodeUnit.code) cstep cover J leq ->
  J self -> I entry_block_id init -> cover self init c0 ->
  exists self' inv, analyze_function fv height self init = Ok (self', inv) /\
    (forall x bi, BTreeMap.get x inv = Some bi -> consistent fv J leq inv x) /\
    ((forall x bi e, BTreeMap.get x inv = Some bi -> bi.(BlockInvariant.post) <> Error e) ->
     forall pc c b, path_to fv.(FunctionView.code).(CodeUnit.code) cstep c0 pc c ->
       fv.(FunctionView.code).(CodeUnit.code) !! Z.to_nat pc = Some b -> is_Some (cstep b c)).
Proof.
  intros [_ [order HG] _ _ _]%checked_view_ok HA HC HJ HI Hc0.
  destruct (analysis_sound fv order J I leq rank height self init cstep cover c0 (HA order HG) HC HJ HI Hc0)
    as (self' & inv & E & Hk & Hcons & Hs).
  exists self', inv. split; [done|]. split; [|done]. intros x bi Hx. by apply Hcons, (Hk x bi Hx).
Qed.
