(* ===== verification/LocalsSafety.v ===== *)
(** Locals safety: move-bytecode-verifier/src/locals_safety/.  An analysis of the abstract
    interpreter that tracks which locals have a value, so that none is used without one
    and no value without the ability to be dropped is lost. *)
From S2P Require Import Prelude StatusCode Abilities Identifier FileFormat Access BTree.
From S2P Require Import ControlFlowGraph FunctionView Absint.

Module LocalState.
Inductive LocalState : Set := Unavailable | MaybeAvailable | Available.

#[global] Instance LocalState_eq_dec : EqDecision LocalState.
Proof. solve_decision. Defined.
End LocalState.
Abbreviation LocalState := LocalState.LocalState.

Module AbstractState.
Record AbstractState : Set := mk {
  current_function : option FunctionDefinitionIndex;
  all_local_abilities : list AbilitySet;
  local_states : list LocalState }.
Abbreviation R := (result StatusCode).

Definition new (resolver : BinaryIndexedView) (function_view : FunctionView) : R AbstractState :=
  let num_args := length function_view.(FunctionView.parameters) in
  let num_locals := (num_args + length function_view.(FunctionView.locals))%nat in
  let local_states :=
    map (fun i => if Nat.ltb i num_args then LocalState.Available else LocalState.Unavailable)
      (seq 0 num_locals) in
  all_local_abilities ← ModuleAccess.map_res
    (fun st => BinaryIndexedView.abilities resolver st function_view.(FunctionView.type_parameters))
    (function_view.(FunctionView.parameters) ++ function_view.(FunctionView.locals));
  Ok (mk function_view.(FunctionView.index) all_local_abilities local_states).

Section state.
Context (self : AbstractState).

Definition local_abilities (idx : LocalIndex) : R AbilitySet :=
  unwrap (self.(all_local_abilities) !! Z.to_nat idx).

Definition local_state (idx : LocalIndex) : R LocalState :=
  unwrap (self.(local_states) !! Z.to_nat idx).

(** [self.local_states[idx as usize] = state] *)
Definition set_state (idx : LocalIndex) (state : LocalState) : R AbstractState :=
  local_state idx;;
  Ok (mk self.(current_function) self.(all_local_abilities)
        (<[Z.to_nat idx := state]> self.(local_states))).

Definition set_available (idx : LocalIndex) : R AbstractState := set_state idx LocalState.Available.

Definition set_unavailable (idx : LocalIndex) : R AbstractState :=
  state ← local_state idx;
  debug_assert (bool_decide (state = LocalState.Available));;
  set_state idx LocalState.Unavailable.

Definition join_state (self_state other_state : LocalState) : LocalState :=
  match self_state, other_state with
  | LocalState.Unavailable, LocalState.Unavailable => LocalState.Unavailable
  | LocalState.MaybeAvailable, LocalState.Unavailable
  | LocalState.Unavailable, LocalState.MaybeAvailable
  | LocalState.MaybeAvailable, LocalState.MaybeAvailable
  | LocalState.MaybeAvailable, LocalState.Available
  | LocalState.Available, LocalState.MaybeAvailable
  | LocalState.Unavailable, LocalState.Available
  | LocalState.Available, LocalState.Unavailable => LocalState.MaybeAvailable
  | LocalState.Available, LocalState.Available => LocalState.Available
  end.

Definition join_ (other : AbstractState) : R AbstractState :=
  debug_assert (bool_decide (self.(current_function) = other.(current_function)));;
  debug_assert (Nat.eqb (length self.(all_local_abilities)) (length other.(all_local_abilities)));;
  debug_assert (Nat.eqb (length self.(local_states)) (length other.(local_states)));;
  Ok (mk self.(current_function) self.(all_local_abilities)
        (zip_with join_state self.(local_states) other.(local_states))).

Definition join (state : AbstractState) : R (AbstractState * JoinResult) :=
  joined ← join_ state;
  debug_assert (Nat.eqb (length self.(local_states)) (length joined.(local_states)));;
  let locals_unchanged :=
    forallb (fun '(self_state, other_state) => bool_decide (self_state = other_state))
      (zip self.(local_states) joined.(local_states)) in
  Ok (if locals_unchanged then (self, Unchanged) else (joined, Changed)).
End state.
End AbstractState.
Abbreviation AbstractState := AbstractState.AbstractState.

#[export] Instance locals_domain : AbstractDomain AbstractState := {| join := AbstractState.join |}.

Module LocalsSafety.
Abbreviation R := (result StatusCode).

(** The value in a local with this state may be lost only if it can be dropped. *)
Definition may_lose (state : LocalState) (abilities : AbilitySet) : bool :=
  match state with
  | LocalState.MaybeAvailable | LocalState.Available => AbilitySet.has_drop abilities
  | LocalState.Unavailable => true
  end.

(** The loop of [Ret] over the locals. *)
Fixpoint check_ret (local_states : list LocalState) (all_local_abilities : list AbilitySet) : R () :=
  match local_states, all_local_abilities with
  | local_state :: local_states, local_abilities :: all_local_abilities =>
    if may_lose local_state local_abilities then check_ret local_states all_local_abilities
    else Err UNSAFE_RET_UNUSED_VALUES_WITHOUT_DROP
  | _, _ => Ok ()
  end.

Definition execute_inner (state : AbstractState) (bytecode : Bytecode) : R AbstractState :=
  match bytecode with
  | Bytecode.StLoc idx =>
    local_state ← AbstractState.local_state state idx;
    match local_state with
    | LocalState.MaybeAvailable | LocalState.Available =>
      abilities ← AbstractState.local_abilities state idx;
      if negb (AbilitySet.has_drop abilities) then Err STLOC_UNSAFE_TO_DESTROY_ERROR
      else AbstractState.set_available state idx
    | LocalState.Unavailable => AbstractState.set_available state idx
    end
  | Bytecode.MoveLoc idx =>
    local_state ← AbstractState.local_state state idx;
    match local_state with
    | LocalState.MaybeAvailable | LocalState.Unavailable => Err MOVELOC_UNAVAILABLE_ERROR
    | LocalState.Available => AbstractState.set_unavailable state idx
    end
  | Bytecode.CopyLoc idx =>
    local_state ← AbstractState.local_state state idx;
    match local_state with
    | LocalState.MaybeAvailable | LocalState.Unavailable => Err COPYLOC_UNAVAILABLE_ERROR
    | LocalState.Available => Ok state
    end
  | Bytecode.MutBorrowLoc idx | Bytecode.ImmBorrowLoc idx =>
    local_state ← AbstractState.local_state state idx;
    match local_state with
    | LocalState.Unavailable | LocalState.MaybeAvailable => Err BORROWLOC_UNAVAILABLE_ERROR
    | LocalState.Available => Ok state
    end
  | Bytecode.Ret =>
    let local_states := state.(AbstractState.local_states) in
    let all_local_abilities := state.(AbstractState.all_local_abilities) in
    debug_assert (Nat.eqb (length local_states) (length all_local_abilities));;
    check_ret local_states all_local_abilities;;
    Ok state
  | _ => Ok state
  end.

(** [LocalsSafetyAnalysis] has no fields; its [execute] is [execute_inner], whose error
    the interpreter records. *)
Definition execute (self : ()) (state : AbstractState) (bytecode : Bytecode)
    (index last_index : CodeOffset) : R (() * (StatusCode + AbstractState)) :=
  match execute_inner state bytecode with
  | Ok state => Ok (self, inr state)
  | Err e => Ok (self, inl e)
  | Panic => Panic
  | OutOfFuel => OutOfFuel
  end.

#[global] Instance LocalsSafetyAnalysis : TransferFunctions () AbstractState StatusCode :=
  {| Absint.execute := execute |}.

(** The loop that reports the first error of the map. *)
Fixpoint report (inv_map : InvariantMap AbstractState StatusCode) : R () :=
  match inv_map with
  | [] => Ok ()
  | (_, inv) :: inv_map =>
    match inv.(BlockInvariant.post) with
    | Error err => Err err
    | Unprocessed | Success => report inv_map
    end
  end.

(** The precondition of a block changes at most once for each local. *)
Definition verify (resolver : BinaryIndexedView) (function_view : FunctionView) : R () :=
  initial_state ← AbstractState.new resolver function_view;
  '(_, inv_map) ← AbstractInterpreter.analyze_function function_view
    (length initial_state.(AbstractState.local_states)) () initial_state;
  report inv_map.
End LocalsSafety.
