(* ===== verification/LocalsSafetyTheorems.v ===== *)
(** The properties of locals safety: the analysis accepts a body exactly when no path
    through it uses a local without a value or loses a value that cannot be dropped. *)
From S2P Require Import Prelude StatusCode Abilities Identifier FileFormat BinaryCommon Uleb WellFormed Access.
From S2P Require Import BoundsChecker BoundsSpec BoundsTheorems ControlFlow ControlFlowSpec ControlFlowTheorems.
From S2P Require Import BTree ControlFlowGraph PostOrder ControlFlowGraphTheorems FunctionView GraphLaws.
From S2P Require Import StackUsageTheorems Absint AbsintTheorems LocalsSafety.
Import VMControlFlowGraph AbstractInterpreter LocalState LocalsSafety.

(** * What the analysis is about *)

Section semantics.
(** The abilities of the locals of a function, its parameters first. *)
Context (abilities : list AbilitySet).

(** An instruction on the locals, each of which has a value or not: what it leaves, or
    [None] when it uses a local without a value or loses a value that cannot be dropped. *)
Definition locals_step (b : Bytecode) (locals : list bool) : option (list bool) :=
  match b with
  | Bytecode.StLoc idx =>
    match locals !! Z.to_nat idx, abilities !! Z.to_nat idx with
    | Some has_value, Some a =>
      if has_value && negb (AbilitySet.has_drop a) then None else Some (<[Z.to_nat idx := true]> locals)
    | _, _ => None
    end
  | Bytecode.MoveLoc idx =>
    match locals !! Z.to_nat idx with
    | Some true => Some (<[Z.to_nat idx := false]> locals)
    | _ => None
    end
  | Bytecode.CopyLoc idx | Bytecode.MutBorrowLoc idx | Bytecode.ImmBorrowLoc idx =>
    match locals !! Z.to_nat idx with Some true => Some locals | _ => None end
  | Bytecode.Ret =>
    if forallb (fun '(has_value, a) => negb has_value || AbilitySet.has_drop a) (zip locals abilities)
    then Some locals else None
  | _ => Some locals
  end.

(** The locals that a state of the analysis stands for. *)
Definition stands_for (st : LocalState) (has_value : bool) : Prop :=
  match st with
  | Unavailable => has_value = false
  | MaybeAvailable => True
  | Available => has_value = true
  end.

Context (f : option FunctionDefinitionIndex).

Definition state_wf (s : AbstractState) : Prop :=
  s.(AbstractState.current_function) = f /\ s.(AbstractState.all_local_abilities) = abilities /\
  length s.(AbstractState.local_states) = length abilities.

Definition covers (s : AbstractState) (locals : list bool) : Prop :=
  state_wf s /\ Forall2 stands_for s.(AbstractState.local_states) locals.

(** An instruction that names only locals that there are. *)
Definition locals_in_range (b : Bytecode) : Prop :=
  match b with
  | Bytecode.StLoc idx | Bytecode.MoveLoc idx | Bytecode.CopyLoc idx
  | Bytecode.MutBorrowLoc idx | Bytecode.ImmBorrowLoc idx => (Z.to_nat idx < length abilities)%nat
  | _ => True
  end.

Lemma local_state_ok s idx :
  state_wf s -> (Z.to_nat idx < length abilities)%nat ->
  exists st, s.(AbstractState.local_states) !! Z.to_nat idx = Some st /\
    AbstractState.local_state s idx = Ok st.
Proof.
  intros (_ & _ & Hl) Hi. destruct (lookup_lt_is_Some_2 s.(AbstractState.local_states) (Z.to_nat idx)) as [st Hst];
    [lia|]. exists st. split; [done|]. unfold AbstractState.local_state. by rewrite Hst.
Qed.

Lemma local_abilities_ok s idx :
  state_wf s -> (Z.to_nat idx < length abilities)%nat ->
  exists a, abilities !! Z.to_nat idx = Some a /\ AbstractState.local_abilities s idx = Ok a.
Proof.
  intros (_ & Ha & _) Hi. destruct (lookup_lt_is_Some_2 abilities (Z.to_nat idx)) as [a Hai]; [done|].
  exists a. split; [done|]. unfold AbstractState.local_abilities. by rewrite Ha, Hai.
Qed.

(** [self] with another state for one local. *)
Definition with_state (s : AbstractState) (idx : LocalIndex) (st : LocalState) : AbstractState :=
  AbstractState.mk s.(AbstractState.current_function) s.(AbstractState.all_local_abilities)
    (<[Z.to_nat idx := st]> s.(AbstractState.local_states)).

Lemma set_state_ok s idx st :
  state_wf s -> (Z.to_nat idx < length abilities)%nat ->
  AbstractState.set_state s idx st = Ok (with_state s idx st) /\ state_wf (with_state s idx st).
Proof.
  intros Hwf Hi. destruct (local_state_ok s idx Hwf Hi) as (st' & _ & E).
  unfold AbstractState.set_state. rewrite E. split; [done|]. destruct Hwf as (? & ? & ?).
  repeat split; try done. simpl. by rewrite length_insert.
Qed.

(** [check_ret] looks at every local. *)
Lemma check_ret_spec sts l :
  check_ret sts l = (if forallb (fun '(st, a) => may_lose st a) (zip sts l) then Ok ()
                     else Err UNSAFE_RET_UNUSED_VALUES_WITHOUT_DROP).
Proof.
  revert l. induction sts as [|st sts IH]; intros [|a l]; try done. simpl.
  destruct (may_lose st a); [apply IH|done].
Qed.

(** One instruction of the analysis: an error, or the state with at most one local
    changed. *)
Definition locals_effect (b : Bytecode) (s : AbstractState) : StatusCode + AbstractState :=
  let get idx := default Unavailable (s.(AbstractState.local_states) !! Z.to_nat idx) in
  match b with
  | Bytecode.StLoc idx =>
    if may_lose (get idx) (default AbilitySet.EMPTY (abilities !! Z.to_nat idx))
    then inr (with_state s idx Available) else inl STLOC_UNSAFE_TO_DESTROY_ERROR
  | Bytecode.MoveLoc idx =>
    if bool_decide (get idx = Available) then inr (with_state s idx Unavailable)
    else inl MOVELOC_UNAVAILABLE_ERROR
  | Bytecode.CopyLoc idx =>
    if bool_decide (get idx = Available) then inr s else inl COPYLOC_UNAVAILABLE_ERROR
  | Bytecode.MutBorrowLoc idx | Bytecode.ImmBorrowLoc idx =>
    if bool_decide (get idx = Available) then inr s else inl BORROWLOC_UNAVAILABLE_ERROR
  | Bytecode.Ret =>
    if forallb (fun '(st, a) => may_lose st a) (zip s.(AbstractState.local_states) abilities)
    then inr s else inl UNSAFE_RET_UNUSED_VALUES_WITHOUT_DROP
  | _ => inr s
  end.

Lemma execute_inner_spec b s :
  state_wf s -> locals_in_range b ->
  execute_inner s b = match locals_effect b s with inl e => Err e | inr s' => Ok s' end /\
  forall s', locals_effect b s = inr s' -> state_wf s'.
Proof.
  intros Hwf Hr. destruct b; try (split; [done|by intros s' [= <-]]); cbn in Hr |- *.
  { destruct Hwf as (Hf & Ha & Hl). rewrite Ha, Hl, Nat.eqb_refl. cbn [debug_assert mbind result_bind].
    rewrite check_ret_spec. destruct (forallb _ _); split; try done. by intros s' [= <-]. }
  all: match type of Hr with (Z.to_nat ?i < _)%nat => rename i into idx end.
  all: destruct (local_state_ok s idx Hwf Hr) as (st & Hst & E); rewrite E, Hst; simpl.
  all: destruct (local_abilities_ok s idx Hwf Hr) as (a & Ha & Ea); rewrite ?Ea, ?Ha; simpl.
  all: destruct (set_state_ok s idx Unavailable Hwf Hr) as [Eu Hu].
  all: destruct (set_state_ok s idx Available Hwf Hr) as [Es Hs].
  all: unfold AbstractState.set_unavailable, AbstractState.set_available; rewrite ?E.
  all: destruct st; simpl; try destruct (AbilitySet.has_drop a); simpl;
    (split; [first [exact Es|exact Eu|done]|by intros s' [= <-]]).
Qed.

(** * Soundness of an instruction *)

Lemma covers_lookup s locals i st :
  covers s locals -> s.(AbstractState.local_states) !! i = Some st ->
  exists v, locals !! i = Some v /\ stands_for st v.
Proof. intros [_ H] Hi. by apply (Forall2_lookup_l _ _ _ _ _ H). Qed.

Lemma covers_with s locals idx st v :
  covers s locals -> stands_for st v -> state_wf (with_state s idx st) ->
  covers (with_state s idx st) (<[Z.to_nat idx := v]> locals).
Proof. intros [_ H] Hv Hw. split; [done|]. by apply Forall2_insert. Qed.

(** If every local may be lost, nothing that cannot be dropped is. *)
Lemma may_lose_covers sts (l : list AbilitySet) locals :
  Forall2 stands_for sts locals -> forallb (fun '(st, a) => may_lose st a) (zip sts l) = true ->
  forallb (fun '(has_value, a) => negb has_value || AbilitySet.has_drop a) (zip locals l) = true.
Proof.
  intros H. revert l. induction H as [|st v sts locals Hv _ IH]; intros [|a l]; try done. simpl.
  intros [Hm Ha]%andb_true_iff. apply andb_true_iff. split; [|by apply IH].
  destruct st, v; simpl in *; congruence.
Qed.

Lemma locals_effect_sound b s locals s' :
  covers s locals -> locals_in_range b -> locals_effect b s = inr s' ->
  exists locals', locals_step b locals = Some locals' /\ covers s' locals'.
Proof.
  intros Hc Hr He. pose proof Hc as [Hwf HF].
  destruct b; cbn in Hr, He |- *; try (injection He as <-; by exists locals).
  { destruct (forallb _ _) eqn:Ef in He; [|done]. injection He as <-.
    rewrite (may_lose_covers _ _ _ HF Ef). by exists locals. }
  all: match type of Hr with (Z.to_nat ?i < _)%nat => rename i into idx end.
  all: destruct (local_state_ok s idx Hwf Hr) as (st & Hst & _); rewrite Hst in He; simpl in He.
  all: destruct (covers_lookup s locals _ st Hc Hst) as (v & Hv & Hsv); rewrite Hv.
  all: destruct (local_abilities_ok s idx Hwf Hr) as (a & Ha & _); rewrite ?Ha in *; simpl in He.
  all: destruct (set_state_ok s idx Unavailable Hwf Hr) as [_ Hu].
  all: destruct (set_state_ok s idx Available Hwf Hr) as [_ Hs].
  all: destruct st; simpl in He; try done; try destruct (AbilitySet.has_drop a); try done;
    injection He as <-; simpl in Hsv; try subst v; rewrite ?andb_false_r; simpl;
    eexists; (split; [reflexivity|]); try done; by apply covers_with.
Qed.

(** * The domain *)

Definition state_le (s t : AbstractState) : Prop :=
  (state_wf s -> state_wf t) /\ Forall2 (fun st st' => forall v, stands_for st v -> stands_for st' v)
    s.(AbstractState.local_states) t.(AbstractState.local_states).

(** How often the states of the locals can still change. *)
Definition can_change (st : LocalState) : nat := match st with MaybeAvailable => 0 | _ => 1 end.
Definition state_rank (s : AbstractState) : nat :=
  sum_list_with can_change
    s.(AbstractState.local_states).

Lemma state_rank_le s : (state_rank s <= length s.(AbstractState.local_states))%nat.
Proof.
  unfold state_rank. induction (AbstractState.local_states s) as [|st l IH]; simpl; [done|].
  destruct st; simpl; lia.
Qed.

Lemma join_states_spec (l1 l2 : list LocalState) :
  length l1 = length l2 ->
  let j := zip_with AbstractState.join_state l1 l2 in
  length j = length l1 /\
  Forall2 (fun st st' => forall v, stands_for st v -> stands_for st' v) l1 j /\
  Forall2 (fun st st' => forall v, stands_for st v -> stands_for st' v) l2 j /\
  if forallb (fun '(a, b) => bool_decide (a = b)) (zip l1 j) then j = l1 else
    (sum_list_with can_change j <
     sum_list_with can_change l1)%nat.
Proof.
  revert l2. induction l1 as [|a l1 IH]; intros [|b l2] Hl; try done.
  injection Hl as Hl. destruct (IH l2 Hl) as (H1 & H2 & H3 & H4). cbn in *. split; [by f_equal|].
  split; [constructor; [by destruct a, b|done]|]. split; [constructor; [by destruct a, b|done]|].
  assert (forallb (fun '(a, b) => bool_decide (a = b)) (zip l1 (zip_with AbstractState.join_state l1 l2)) = true ->
          (sum_list_with can_change
             (zip_with AbstractState.join_state l1 l2) <=
           sum_list_with can_change l1)%nat) as Heq.
  { intros E. rewrite E in H4. by rewrite H4. }
  destruct (forallb _ (zip l1 _)) eqn:E; [specialize (Heq eq_refl)|]; destruct a, b; simpl; rewrite ?E;
    simpl; try lia; by f_equal.
Qed.

Lemma join_ok s t :
  state_wf s -> state_wf t ->
  exists s' c, AbstractState.join s t = Ok (s', c) /\ state_wf s' /\ state_le s s' /\ state_le t s' /\
    (s' = s \/ s'.(AbstractState.local_states) =
       zip_with AbstractState.join_state s.(AbstractState.local_states) t.(AbstractState.local_states)) /\
    match c with Unchanged => s' = s | Changed => (state_rank s' < state_rank s)%nat end.
Proof.
  intros Hs Ht. pose proof Hs as (Fs & As & Ls). pose proof Ht as (Ft & At & Lt).
  destruct (join_states_spec s.(AbstractState.local_states) t.(AbstractState.local_states))
    as (Hl & H1 & H2 & Hc); [congruence|].
  unfold AbstractState.join, AbstractState.join_. rewrite Fs, Ft, bool_decide_eq_true_2 by done.
  rewrite As, At, Ls, Lt, !Nat.eqb_refl. cbn [debug_assert mbind result_bind AbstractState.local_states].
  rewrite Hl, Ls, Nat.eqb_refl. cbn [debug_assert mbind result_bind].
  set (s' := AbstractState.mk f abilities _).
  assert (state_wf s') as Hw by (repeat split; simpl; congruence).
  destruct (forallb _ _).
  - exists s, Unchanged. split; [done|]. split; [done|]. rewrite Hc in H1, H2.
    repeat split; try done. by left.
  - exists s', Changed. split; [done|]. split; [done|]. split; [done|]. split; [done|].
    split; [by right|]. exact Hc.
Qed.

Lemma state_le_preorder : PreOrder state_le.
Proof.
  split.
  - intros s. split; [done|]. induction (AbstractState.local_states s); constructor; auto.
  - intros s t u [Ht H1] [Hu H2]. split; [auto|]. revert H2. generalize (AbstractState.local_states u).
    induction H1 as [|a b l1 l2 Hab _ IH]; intros l3 H; inversion H; subst; constructor; auto.
Qed.

Lemma covers_le s t locals : state_le s t -> covers s locals -> covers t locals.
Proof.
  intros [Ht Hle] [Hs Hc]. split; [auto|]. revert Hle. generalize (AbstractState.local_states t).
  induction Hc as [|a v l1 l2 Hav _ IH]; intros l3 H; inversion H; subst; constructor; auto.
Qed.

(** * Precision of an instruction *)

(** Every value that the state allows for a local is one that a member of [P] has. *)
Definition justified (P : list bool -> Prop) (s : AbstractState) : Prop :=
  forall i st v, s.(AbstractState.local_states) !! i = Some st -> stands_for st v ->
    exists locals, P locals /\ locals !! i = Some v.

Lemma stands_for_some st : exists v, stands_for st v.
Proof. destruct st; [by exists false|by exists true..]. Qed.

Lemma justified_with (P Q : list bool -> Prop) s idx st v :
  state_wf s -> (Z.to_nat idx < length abilities)%nat -> justified P s ->
  (forall v', stands_for st v' -> v' = v) ->
  (forall locals, P locals -> Q (<[Z.to_nat idx := v]> locals)) ->
  justified Q (with_state s idx st).
Proof.
  intros Hwf Hr HJ Hst HQ i st' v' Hi Hv. simpl in Hi.
  destruct (decide (i = Z.to_nat idx)) as [-> |Hne].
  - rewrite list_lookup_insert_eq in Hi by (destruct Hwf as (_ & _ & ->); done). injection Hi as <-.
    rewrite (Hst v' Hv). destruct (local_state_ok s idx Hwf Hr) as (st0 & H0 & _).
    destruct (stands_for_some st0) as [v0 Hv0]. destruct (HJ _ _ _ H0 Hv0) as (locals & HP & Hl).
    eexists. split; [by apply HQ|]. apply list_lookup_insert_eq. by eapply lookup_lt_Some.
  - rewrite list_lookup_insert_ne in Hi by done. destruct (HJ _ _ _ Hi Hv) as (locals & HP & Hl).
    eexists. split; [by apply HQ|]. by rewrite list_lookup_insert_ne.
Qed.

Lemma ret_precise P s :
  state_wf s -> justified P s -> (forall locals, P locals -> is_Some (locals_step Bytecode.Ret locals)) ->
  forallb (fun '(st, a) => may_lose st a) (zip s.(AbstractState.local_states) abilities) = true.
Proof.
  intros Hwf HJ HP. apply forallb_forall. intros [st a] Hin%list_elem_of_In.
  apply list_elem_of_lookup in Hin as [i Hi]. apply lookup_zip_Some in Hi as [Hst Ha].
  destruct st; [done| |];
    (destruct (HJ i _ true Hst) as (locals & Hl & Hi); [done|]; destruct (HP locals Hl) as [l' Hs];
     cbn in Hs; destruct (forallb _ _) eqn:E in Hs; [|done]; rewrite forallb_forall in E;
     specialize (E (true, a)); apply E, list_elem_of_In, list_elem_of_lookup;
     exists i; by apply lookup_zip_Some).
Qed.

Lemma locals_effect_precise (P : list bool -> Prop) b s :
  state_wf s -> locals_in_range b -> justified P s ->
  (forall locals, P locals -> is_Some (locals_step b locals)) ->
  exists s', locals_effect b s = inr s' /\
    justified (fun locals' => exists locals, P locals /\ locals_step b locals = Some locals') s'.
Proof.
  intros Hwf Hr HJ HP.
  assert (forall b', locals_effect b' s = inr s -> (forall l, P l -> is_Some (locals_step b' l)) ->
            (forall l l', locals_step b' l = Some l' -> l' = l) ->
            justified (fun locals' => exists locals, P locals /\ locals_step b' locals = Some locals') s) as Hsame.
  { intros b' _ Hok Hid i st v Hi Hv. destruct (HJ i st v Hi Hv) as (l & Hl & Hlv).
    exists l. split; [|done]. exists l. split; [done|]. destruct (Hok l Hl) as [l' El].
    by rewrite El, (Hid l l' El). }
  destruct b; cbn in Hr; try (exists s; split; [done|]; apply Hsame; try done; by intros l l' [= <-]).
  { cbn [locals_effect]. rewrite (ret_precise P s Hwf HJ HP). exists s. split; [done|]. apply Hsame.
    - cbn. by rewrite (ret_precise P s Hwf HJ HP).
    - done.
    - intros l l'. cbn. destruct (forallb _ _); [|done]. by intros [= <-]. }
  all: match type of Hr with (Z.to_nat ?i < _)%nat => rename i into idx end.
  all: destruct (local_state_ok s idx Hwf Hr) as (st & Hst & _).
  all: destruct (local_abilities_ok s idx Hwf Hr) as (a & Ha & _).
  all: cbn [locals_effect]; rewrite Hst; rewrite ?Ha; simpl default.
  3: {
    assert (may_lose st a = true) as ->.
    { destruct st; [done| |]; (destruct (HJ _ _ true Hst) as (l & Hl & Hi); [done|];
        destruct (HP l Hl) as [l' Hs]; cbn in Hs; rewrite Hi, Ha in Hs; simpl in *;
        by destruct (AbilitySet.has_drop a)). }
    eexists. split; [done|]. apply (justified_with P _ s idx Available true); try done.
    intros l Hl. exists l. split; [done|]. destruct (HP l Hl) as [l' Hs]. cbn in Hs |- *.
    destruct (l !! Z.to_nat idx) as [v|]; [|done]. rewrite Ha in Hs |- *. by destruct (_ && _). }
  all: assert (st = Available) as ->.
  all: try (destruct st; [| |done]; (destruct (HJ _ _ false Hst) as (l & Hl & Hi); [done|];
         destruct (HP l Hl) as [l' Hs]; cbn in Hs; by rewrite Hi in Hs)).
  all: rewrite bool_decide_eq_true_2 by done; eexists; (split; [done|]).
  2: { apply (justified_with P _ s idx Unavailable false); try done.
    intros l Hl. exists l. split; [done|]. destruct (HP l Hl) as [l' Hs]. cbn in Hs |- *.
    by destruct (l !! Z.to_nat idx) as [[]|]. }
  all: apply Hsame; [cbn; by rewrite Hst|done|];
    (intros l l'; cbn; by destruct (l !! Z.to_nat idx) as [[]|]; try intros [= <-]).
Qed.
End semantics.

(** * The analysis of a view *)

Lemma justified_mono (P Q : list bool -> Prop) s :
  (forall l, P l -> Q l) -> justified P s -> justified Q s.
Proof. intros H HJ i st v Hi Hv. destruct (HJ i st v Hi Hv) as (l & ? & ?). exists l. auto. Qed.

Section view.
Context (fv : FunctionView) (order : list BlockId) (abilities : list AbilitySet).
Abbreviation g := (fv.(FunctionView.cfg)).
Abbreviation body := (fv.(FunctionView.code).(CodeUnit.code)).
Abbreviation wf := (state_wf abilities fv.(FunctionView.index)).
Context `{HG : !GraphLaws body g order}.
Hypothesis Hrange : Forall (locals_in_range abilities) body.

Lemma execute_spec s b i last :
  wf s -> locals_in_range abilities b ->
  LocalsSafety.execute () s b i last = Ok ((), locals_effect abilities b s).
Proof using.
  intros Hwf Hr. unfold LocalsSafety.execute.
  destruct (execute_inner_spec abilities _ b s Hwf Hr) as [-> _]. by destruct (locals_effect _ _ _).
Qed.

Lemma execute_instrs_wf l last s :
  Forall (fun i => 0 <= i < zlen body) l -> wf s ->
  exists r, execute_instrs fv () s last l = Ok ((), r) /\ forall s', r = inr s' -> wf s'.
Proof using Hrange.
  revert s. induction l as [|i l IH]; intros s Hl Hwf.
  { exists (inr s). split; [done|]. by intros s' [= <-]. }
  apply Forall_cons_iff in Hl as [Hi Hl]. cbn [execute_instrs].
  destruct (lookup_lt_is_Some_2 body (Z.to_nat i)) as [b Hb]; [lia|]. rewrite Hb.
  pose proof (forall_lookup _ _ _ _ Hrange Hb) as Hr. cbn [unwrap mbind result_bind Absint.execute LocalsSafetyAnalysis].
  rewrite (execute_spec s b i last Hwf Hr). cbn [mbind result_bind].
  destruct (execute_inner_spec abilities _ b s Hwf Hr) as [_ Hw].
  destruct (locals_effect abilities b s) as [e|s']; [by exists (inl e)|]. apply IH; [done|by apply Hw].
Qed.

Definition any (self : ()) : Prop := True.

Lemma locals_block x s :
  x ∈ order -> wf s -> exists r, block_result fv any x s r /\ forall s', r = inr s' -> wf s'.
Proof using HG Hrange.
  intros Hx Hwf. destruct (law_order x Hx) as [bb Hbb]. destruct (law_blocks x bb Hbb) as [H0 [Hr _]].
  destruct (execute_instrs_wf (seqZ x (bb.(BasicBlock.exit) - x + 1)) bb.(BasicBlock.exit) s) as (r & E & Hw);
    [apply Forall_forall; intros i Hi%list_elem_of_In%elem_of_seqZ; lia|done|].
  exists r. split; [|done]. intros [] _. exists (). split; [|done]. by rewrite (execute_block_eq fv () x bb).
Qed.

(** The analysis is sound for every body with the locals in range. *)
Lemma locals_sound_analysis :
  SoundAnalysis fv order any (fun _ => wf) (state_le abilities fv.(FunctionView.index)) state_rank
    (length abilities).
Proof using HG Hrange.
  constructor.
  - apply state_le_preorder.
  - intros x s Hx Hwf. destruct (locals_block x s Hx Hwf) as (r & Hr & Hw). exists r. split; [done|].
    intros s' E y _. by apply Hw.
  - intros x s t _ Hs Ht. destruct (join_ok abilities _ s t Hs Ht) as (s' & c & E & Hw & H1 & H2 & _ & Hc).
    by exists s', c.
  - intros _ s (_ & _ & Hl). rewrite <- Hl. apply state_rank_le.
Qed.

Lemma locals_concretization :
  Concretization body (locals_step abilities) (fun _ => covers abilities fv.(FunctionView.index)) any
    (state_le abilities fv.(FunctionView.index)).
Proof using Hrange.
  constructor; [|intros _ _ s t c _; apply covers_le].
  intros [] s c b i last [] s' _ Hb Hc E. pose proof (forall_lookup _ _ _ _ Hrange Hb) as Hr.
  cbn [Absint.execute LocalsSafetyAnalysis] in E. rewrite (execute_spec s b i last) in E by (done || apply Hc).
  injection E as E. by eapply locals_effect_sound.
Qed.

(** * Precision *)

Context (init : list bool).
Abbreviation at_ pc := (path_to body (locals_step abilities) init pc).
Hypothesis no_violation : forall pc locals b, at_ pc locals -> body !! Z.to_nat pc = Some b ->
  is_Some (locals_step abilities b locals).

Lemma block_precise x bb (k : nat) s :
  BTreeMap.get x g.(blocks) = Some bb -> x <= bb.(BasicBlock.exit) - Z.of_nat k -> wf s ->
  justified (at_ (bb.(BasicBlock.exit) - Z.of_nat k)) s ->
  exists s', execute_instrs fv () s bb.(BasicBlock.exit)
      (seqZ (bb.(BasicBlock.exit) - Z.of_nat k) (Z.of_nat k + 1)) = Ok ((), inr s') /\
    wf s' /\ forall y, edge g x y -> justified (at_ y) s'.
Proof using HG Hrange no_violation.
  intros Hbb. destruct (law_blocks x bb Hbb) as [H0 [Hr _]]. revert s.
  induction k as [|k IH]; intros s Hk Hwf HJ.
  all: match type of Hk with _ <= ?p => set (pc := p) in * end.
  all: destruct (lookup_lt_is_Some_2 body (Z.to_nat pc)) as [b Hb]; [lia|].
  all: pose proof (forall_lookup _ _ _ _ Hrange Hb) as Hrb.
  all: destruct (locals_effect_precise abilities _ (at_ pc) b s Hwf Hrb HJ) as (s1 & E1 & HJ1);
    [intros l Hl; by eapply no_violation|].
  all: destruct (execute_inner_spec abilities _ b s Hwf Hrb) as [_ Hw1]; specialize (Hw1 s1 E1).
  all: rewrite seqZ_cons by lia; cbn [execute_instrs]; rewrite Hb;
    cbn [unwrap mbind result_bind Absint.execute LocalsSafetyAnalysis];
    rewrite (execute_spec s b _ _ Hwf Hrb), E1; cbn [mbind result_bind].
  - exists s1. replace (Z.pred (Z.of_nat 0 + 1)) with 0 by lia. split; [done|]. split; [done|].
    intros y Hy. eapply justified_mono; [|exact HJ1]. intros l' (l & Hl & Es).
    eapply path_next; [exact Hl|exact Hb|exact Es|]. rewrite (block_successor fv order x bb) by (done || lia).
    destruct (Z.eqb_spec pc bb.(BasicBlock.exit)); [done|lia].
  - assert (Z.succ pc = bb.(BasicBlock.exit) - Z.of_nat k) as -> by lia.
    replace (Z.pred (Z.of_nat (S k) + 1)) with (Z.of_nat k + 1) by lia. apply IH; [lia|done|].
    eapply justified_mono; [|exact HJ1]. intros l' (l & Hl & Es).
    eapply path_next; [exact Hl|exact Hb|exact Es|]. rewrite (block_successor fv order x bb) by (done || lia).
    destruct (Z.eqb_spec pc bb.(BasicBlock.exit)); lia.
Qed.

Lemma join_justified P s t s' :
  wf s -> wf t -> justified P s -> justified P t ->
  s' = s \/ s'.(AbstractState.local_states) =
    zip_with AbstractState.join_state s.(AbstractState.local_states) t.(AbstractState.local_states) ->
  justified P s'.
Proof using.
  intros _ _ Hs Ht [-> |E]; [done|]. intros i st v Hi Hv. rewrite E, lookup_zip_with in Hi.
  destruct (AbstractState.local_states s !! i) as [a|] eqn:Ea; [|done].
  destruct (AbstractState.local_states t !! i) as [b|] eqn:Eb; [|done]. injection Hi as <-.
  assert (stands_for a v \/ stands_for b v) as [H|H]; [destruct a, b, v; simpl in *; tauto || auto|..].
  - by eapply Hs.
  - by eapply Ht.
Qed.

Lemma locals_precise_analysis :
  SoundAnalysis fv order any (fun x s => wf s /\ justified (at_ x) s)
    (state_le abilities fv.(FunctionView.index)) state_rank (length abilities) /\
  forall x s e, x ∈ order -> wf s /\ justified (at_ x) s -> ~ block_result fv any x s (inl e).
Proof using HG Hrange no_violation.
  assert (forall x s, x ∈ order -> wf s /\ justified (at_ x) s -> exists s', block_result fv any x s (inr s') /\
            forall y, edge g x y -> wf s' /\ justified (at_ y) s') as Hblock.
  { intros x s Hx [Hwf HJ]. destruct (law_order x Hx) as [bb Hbb]. destruct (law_blocks x bb Hbb) as [H0 [Hr _]].
    assert (bb.(BasicBlock.exit) - Z.of_nat (Z.to_nat (bb.(BasicBlock.exit) - x)) = x) as Ex by lia.
    destruct (block_precise x bb (Z.to_nat (bb.(BasicBlock.exit) - x)) s) as (s' & E & Hw & Hy);
      [done|lia|done|by rewrite Ex|]. exists s'. split; [|by split; [|apply Hy]].
    intros [] _. exists (). split; [|done]. rewrite (execute_block_eq fv () x bb) by done.
    rewrite Ex in E. rewrite <- E. do 2 f_equal. lia. }
  split; [constructor|].
  - apply state_le_preorder.
  - intros x s Hx HI. destruct (Hblock x s Hx HI) as (s' & Hr & Hy). exists (inr s'). split; [done|].
    intros s'' [= <-] y. apply Hy.
  - intros x s t _ [Hs Js] [Ht Jt]. destruct (join_ok abilities _ s t Hs Ht) as (s' & c & E & Hw & H1 & H2 & Hj & Hc).
    exists s', c. split; [done|]. split; [|done]. split; [done|]. by eapply (join_justified _ s t).
  - intros _ s [(_ & _ & Hl) _]. rewrite <- Hl. apply state_rank_le.
  - intros x s e Hx HI He. destruct (Hblock x s Hx HI) as (s' & Hr & _).
    destruct (Hr () I) as (u & E & _). destruct (He () I) as (u' & E' & _). congruence.
Qed.
End view.

(** * The verifier *)

Lemma report_ok (inv : InvariantMap AbstractState StatusCode) :
  safe (report inv) /\
  (report inv = Ok () <-> forall x bi e, (x, bi) ∈ inv -> bi.(BlockInvariant.post) <> Error e).
Proof.
  induction inv as [|[x bi] inv [IHs IH]]; cbn [report].
  { split; [done|]. split; [|done]. intros _ y bj e H. by apply elem_of_nil in H. }
  setoid_rewrite elem_of_cons. destruct (BlockInvariant.post bi) as [| |e'] eqn:E.
  3: { split; [done|]. split; [done|]. intros H. exfalso. exact (H x bi e' (or_introl eq_refl) E). }
  all: split; [done|]; rewrite IH; split;
    [intros H y bj e [[= -> ->] |Hin]; [by rewrite E|by eapply H]|intros H y bj e Hin; by eapply H; right].
Qed.

(** The parameters have a value at the start, the other locals do not. *)
Definition initial_locals (fv : FunctionView) : list bool :=
  replicate (length fv.(FunctionView.parameters)) true ++
  replicate (length fv.(FunctionView.locals)) false.

Lemma initial_states n m :
  map (fun i => if Nat.ltb i n then Available else Unavailable) (seq 0 (n + m)) =
  replicate n Available ++ replicate m Unavailable.
Proof.
  rewrite seq_app, map_app. f_equal.
  - apply list_eq_same_length with n; rewrite ?length_map, ?length_seq, ?length_replicate; try done.
    intros i x y Hi. rewrite list_lookup_fmap, lookup_seq_lt, lookup_replicate_2 by done. simpl.
    destruct (Nat.ltb_spec i n); [congruence|lia].
  - apply list_eq_same_length with m; rewrite ?length_map, ?length_seq, ?length_replicate; try done.
    intros i x y Hi. rewrite list_lookup_fmap, lookup_seq_lt, lookup_replicate_2 by done. simpl.
    destruct (Nat.ltb_spec (n + i) n); [lia|congruence].
Qed.

Section verify.
Context (v : BinaryIndexedView) (fv : FunctionView) (Hview : view_ok v fv).
Abbreviation body := (fv.(FunctionView.code).(CodeUnit.code)).

Lemma new_state_ok :
  exists abilities,
    ModuleAccess.map_res (fun t => BinaryIndexedView.abilities v t fv.(FunctionView.type_parameters))
      (fv.(FunctionView.parameters) ++ fv.(FunctionView.locals)) = Ok abilities /\
    length abilities = (length fv.(FunctionView.parameters) + length fv.(FunctionView.locals))%nat /\
    Forall (locals_in_range abilities) body /\
    exists s, AbstractState.new v fv = Ok s /\ length s.(AbstractState.local_states) = length abilities /\
      covers abilities fv.(FunctionView.index) s (initial_locals fv) /\
      justified (fun l => l = initial_locals fv) s.
Proof.
  destruct (map_res_ok (fun t => BinaryIndexedView.abilities v t fv.(FunctionView.type_parameters)) _ _
    (fun t H => H) (view_types _ _ Hview)) as [abilities E].
  assert (length abilities = (length fv.(FunctionView.parameters) + length fv.(FunctionView.locals))%nat) as Hl.
  { by rewrite (map_res_length _ _ _ E), length_app. }
  exists abilities. split; [done|]. split; [done|]. split.
  { pose proof (view_instrs _ _ Hview) as Hi. pose proof (view_wf _ _ Hview) as Hw.
    rewrite Forall_forall in *. intros b Hb. specialize (Hi b Hb). specialize (Hw b Hb).
    destruct b; try done; cbn in Hi, Hw |- *; apply in_range_spec in Hw; lia. }
  unfold AbstractState.new. rewrite E, initial_states. cbn [mbind result_bind].
  eexists. split; [reflexivity|]. cbn [AbstractState.local_states].
  rewrite length_app, !length_replicate. split; [done|]. unfold initial_locals.
  assert (forall n m, Forall2 stands_for (replicate n Available ++ replicate m Unavailable)
            (replicate n true ++ replicate m false)) as HF.
  { intros n m. apply Forall2_app; by apply Forall2_replicate. }
  split.
  - split; [|apply HF]. split; [done|]. split; [done|]. simpl. by rewrite length_app, !length_replicate.
  - intros i st b Hi Hb. simpl in Hi.
    destruct (Forall2_lookup_l _ _ _ _ _ (HF _ _) Hi) as (b' & Hb' & Hs). eexists. split; [reflexivity|].
    rewrite Hb'. f_equal. apply lookup_app_Some in Hi as [Hi|[_ Hi]];
      apply lookup_replicate_1 in Hi as [-> _]; simpl in *; congruence.
Qed.

Lemma verify_locals_ok :
  exists abilities,
    ModuleAccess.map_res (fun t => BinaryIndexedView.abilities v t fv.(FunctionView.type_parameters))
      (fv.(FunctionView.parameters) ++ fv.(FunctionView.locals)) = Ok abilities /\
    safe (LocalsSafety.verify v fv) /\
    (LocalsSafety.verify v fv = Ok () <->
     forall pc locals b, path_to body (locals_step abilities) (initial_locals fv) pc locals ->
       body !! Z.to_nat pc = Some b -> is_Some (locals_step abilities b locals)).
Proof.
  destruct new_state_ok as (abilities & Ea & Hla & Hrange & s & Es & Hls & Hcov & Hjust).
  destruct (view_laws _ _ Hview) as [order HG]. exists abilities. split; [done|].
  pose proof (locals_sound_analysis fv order abilities Hrange) as HA.
  pose proof (locals_concretization fv abilities Hrange) as HC.
  unfold LocalsSafety.verify. rewrite Es. cbn [mbind result_bind]. rewrite Hls.
  destruct (analysis_sound fv order _ _ _ _ _ () s _ _ _ HA HC I (proj1 Hcov) Hcov)
    as ([] & inv & E & Hk & Hcons & Hsound).
  rewrite E. cbn [mbind result_bind]. destruct (report_ok inv) as [Hsafe Hrep]. split; [done|].
  assert (BTreeMap.sorted inv) as Hsorted by by eapply analyze_sorted.
  rewrite Hrep. split.
  - intros Hno. apply Hsound. intros x bi e Hx. by eapply Hno, BTreeMap.get_elem.
  - intros Hviol x bi e Hx Hpost.
    destruct (locals_precise_analysis fv order abilities Hrange (initial_locals fv) Hviol) as [HA2 Hno].
    destruct (analyze_function_ok fv body order _ _ _ _ _ s HA2 ()) as ([] & inv' & E' & [Hk' _] & Hcons').
    { done. }
    { split; [apply Hcov|]. eapply justified_mono; [|exact Hjust]. intros l ->. constructor. }
    rewrite E in E'. injection E' as <-. apply BTreeMap.get_elem in Hx; [|done].
    destruct (Hk' x bi Hx) as (Ho & HI & _).
    destruct (Hcons' x Ho bi Hx) as [(e' & He & _)|(s' & _ & Hs & _)]; [by eapply Hno|congruence].
Qed.
End verify.

(** C35: locals safety is exact.  On every view that the earlier checks let through, the
    verifier returns; and it succeeds exactly when no path through the body moves,
    copies or borrows a local that has no value there, overwrites a value that cannot
    be dropped, or returns with one. *)
Theorem locals_safety_exact (v : BinaryIndexedView) (fv : FunctionView) :
  checked_view v fv ->
  exists abilities,
    ModuleAccess.map_res (fun t => BinaryIndexedView.abilities v t fv.(FunctionView.type_parameters))
      (fv.(FunctionView.parameters) ++ fv.(FunctionView.locals)) = Ok abilities /\
    safe (LocalsSafety.verify v fv) /\
    (LocalsSafety.verify v fv = Ok () <->
     forall pc locals b,
       path_to fv.(FunctionView.code).(CodeUnit.code) (locals_step abilities) (initial_locals fv) pc locals ->
       fv.(FunctionView.code).(CodeUnit.code) !! Z.to_nat pc = Some b ->
       is_Some (locals_step abilities b locals)).
Proof. intros Hview%checked_view_ok. by apply verify_locals_ok. Qed.

Lemma locals_safety_exact_witness :
  exists abilities, safe (LocalsSafety.verify (BinaryIndexedView.Module_ vector_module) vector_view) /\
    forall pc locals b,
      path_to vector_body (locals_step abilities) [false] pc locals ->
      vector_body !! Z.to_nat pc = Some b -> is_Some (locals_step abilities b locals).
Proof.
  destruct (locals_safety_exact (BinaryIndexedView.Module_ vector_module) vector_view)
    as (abilities & _ & Hs & Hok); [apply vector_view_checked|].
  exists abilities. split; [exact Hs|]. apply (proj1 Hok). vm_compute. reflexivity.
Defined.

(** The analysis of locals as an instance of the abstract interpreter. *)
Lemma vector_locals_range : Forall (locals_in_range [AbilitySet.PRIMITIVES]) vector_body.
Proof. repeat constructor. Qed.

Lemma absint_sound_witness :
  exists self' inv,
    analyze_function (Self := ()) vector_view 1 ()
      (AbstractState.mk (Some 0) [AbilitySet.PRIMITIVES] [Unavailable]) = Ok (self', inv) /\
    forall x bi, BTreeMap.get x inv = Some bi ->
      consistent vector_view any (state_le [AbilitySet.PRIMITIVES] (Some 0)) inv x.
Proof.
  destruct (absint_sound (BinaryIndexedView.Module_ vector_module) vector_view any
      (fun _ => state_wf [AbilitySet.PRIMITIVES] (Some 0)) (state_le [AbilitySet.PRIMITIVES] (Some 0))
      state_rank 1 () (AbstractState.mk (Some 0) [AbilitySet.PRIMITIVES] [Unavailable])
      (locals_step [AbilitySet.PRIMITIVES]) (fun _ => covers [AbilitySet.PRIMITIVES] (Some 0)) [false])
    as (self' & inv & E & Hc & _).
  - apply vector_view_checked.
  - intros order HG.
    exact (locals_sound_analysis vector_view order [AbilitySet.PRIMITIVES] vector_locals_range).
  - exact (locals_concretization vector_view [AbilitySet.PRIMITIVES] vector_locals_range).
  - exact I.
  - repeat split.
  - split; [repeat split|repeat constructor].
  - exists self', inv. split; [exact E|exact Hc].
Defined.
