(* ===== verification/SignatureChecker.v ===== *)
(** The signature checker: move-bytecode-verifier/src/signature.rs.  References occur only
    at the top of a type, and the type arguments of instantiations satisfy the
    constraints of what they instantiate. *)
From S2P Require Import Prelude StatusCode Abilities Identifier FileFormat Access.

Module SignatureChecker.
Abbreviation R := (result StatusCode).

Section checker.
Context (resolver : BinaryIndexedView).

(** No references. *)
Fixpoint check_signature_token (ty : SignatureToken) : R () :=
  match ty with
  | SignatureToken.U8 | SignatureToken.U64 | SignatureToken.U128 | SignatureToken.Bool
  | SignatureToken.Address | SignatureToken.Signer | SignatureToken.Struct _
  | SignatureToken.TypeParameter _ => Ok ()
  | SignatureToken.Reference _ | SignatureToken.MutableReference _ => Err INVALID_SIGNATURE_TOKEN
  | SignatureToken.Vector ty => check_signature_token ty
  | SignatureToken.StructInstantiation _ type_arguments =>
    (fix go (tys : list SignatureToken) : R () :=
       match tys with
       | [] => Ok ()
       | ty :: tys => check_signature_token ty;; go tys
       end) type_arguments
  end.

Definition check_signature_tokens (tys : list SignatureToken) : R () :=
  res_for tys check_signature_token.

(** References only at the top. *)
Definition check_top (token : SignatureToken) : R () :=
  match token with
  | SignatureToken.Reference inner | SignatureToken.MutableReference inner =>
    check_signature_token inner
  | _ => check_signature_token token
  end.

Definition check_signature (idx : SignatureIndex) : R () :=
  sig ← BinaryIndexedView.signature_at resolver idx;
  res_for sig check_top.

(** One round of the loop over the constraints. *)
Definition check_constraint (global_abilities : list AbilitySet)
    (arg : AbilitySet * SignatureToken) : R () :=
  let '(constraint, ty) := arg in
  given ← BinaryIndexedView.abilities resolver ty global_abilities;
  if negb (AbilitySet.is_subset constraint given) then Err CONSTRAINT_NOT_SATISFIED else Ok ().

Definition check_generic_instance (type_arguments : list SignatureToken)
    (constraints global_abilities : list AbilitySet) : R () :=
  if negb (Nat.eqb (length type_arguments) (length constraints)) then
    Err NUMBER_OF_TYPE_ARGUMENTS_MISMATCH
  else res_for (zip constraints type_arguments) (check_constraint global_abilities).

Definition check_type_instantiation (type_parameters : list AbilitySet) (ty : SignatureToken) : R () :=
  match ty with
  | SignatureToken.StructInstantiation idx type_arguments =>
    sh ← BinaryIndexedView.struct_handle_at resolver idx;
    check_generic_instance type_arguments (StructHandle.type_param_constraints sh) type_parameters
  | _ => Ok ()
  end.

Definition check_instantiation (idx : SignatureIndex) (type_parameters : list AbilitySet) : R () :=
  sig ← BinaryIndexedView.signature_at resolver idx;
  res_for sig (check_type_instantiation type_parameters).

(** Phantom type parameters occur only in phantom positions. *)
Fixpoint check_phantom_params (type_parameters : list StructTypeParameter) (is_phantom_pos : bool)
    (ty : SignatureToken) : R () :=
  match ty with
  | SignatureToken.Vector ty => check_phantom_params type_parameters false ty
  | SignatureToken.StructInstantiation idx type_arguments =>
    sh ← BinaryIndexedView.struct_handle_at resolver idx;
    (fix go (i : nat) (tys : list SignatureToken) : R () :=
       match tys with
       | [] => Ok ()
       | ty :: tys =>
         param ← unwrap (sh.(StructHandle.type_parameters) !! i);
         check_phantom_params type_parameters param.(StructTypeParameter.is_phantom) ty;;
         go (S i) tys
       end) O type_arguments
  | SignatureToken.TypeParameter idx =>
    param ← unwrap (type_parameters !! Z.to_nat idx);
    if param.(StructTypeParameter.is_phantom) && negb is_phantom_pos
    then Err INVALID_PHANTOM_TYPE_PARAM_POSITION else Ok ()
  | _ => Ok ()
  end.

Definition verify_signature_pool (signatures : list Signature) : R () :=
  res_for (map (fun i => Z.of_nat i mod 2 ^ 16) (seq 0 (length signatures))) check_signature.

Definition verify_function_signature (fh : FunctionHandle) : R () :=
  check_signature fh.(FunctionHandle.return_);;
  check_instantiation fh.(FunctionHandle.return_) fh.(FunctionHandle.type_parameters);;
  check_signature fh.(FunctionHandle.parameters);;
  check_instantiation fh.(FunctionHandle.parameters) fh.(FunctionHandle.type_parameters).

Definition verify_function_signatures (function_handles : list FunctionHandle) : R () :=
  res_for function_handles verify_function_signature.

Definition verify_field (struct_handle : StructHandle) (field_def : FieldDefinition) : R () :=
  check_signature_token field_def.(FieldDefinition.signature);;
  check_type_instantiation (StructHandle.type_param_constraints struct_handle) field_def.(FieldDefinition.signature);;
  check_phantom_params struct_handle.(StructHandle.type_parameters) false
    field_def.(FieldDefinition.signature).

Definition verify_struct_def (struct_def : StructDefinition) : R () :=
  match struct_def.(StructDefinition.field_information) with
  | Native => Ok ()
  | Declared fields =>
    struct_handle ← BinaryIndexedView.struct_handle_at resolver struct_def.(StructDefinition.struct_handle);
    res_for fields (verify_field struct_handle)
  end.

Definition verify_fields (struct_defs : list StructDefinition) : R () :=
  res_for struct_defs verify_struct_def.

(** The check of an instantiation in the code: its arguments have no references and
    satisfy the constraints. *)
Definition check_type_arguments (idx : SignatureIndex) (constraints type_parameters : list AbilitySet) :
    R () :=
  type_arguments ← BinaryIndexedView.signature_at resolver idx;
  check_signature_tokens type_arguments;;
  check_generic_instance type_arguments constraints type_parameters.

Definition verify_instr (type_parameters : list AbilitySet) (instr : Bytecode) : R () :=
  match instr with
  | Bytecode.CallGeneric idx =>
    func_inst ← BinaryIndexedView.function_instantiation_at resolver idx;
    func_handle ←
      BinaryIndexedView.function_handle_at resolver func_inst.(FunctionInstantiation.handle);
    check_type_arguments func_inst.(FunctionInstantiation.type_parameters)
      func_handle.(FunctionHandle.type_parameters) type_parameters
  | Bytecode.PackGeneric idx | Bytecode.UnpackGeneric idx | Bytecode.ExistsGeneric idx
  | Bytecode.MoveFromGeneric idx | Bytecode.MoveToGeneric idx
  | Bytecode.ImmBorrowGlobalGeneric idx | Bytecode.MutBorrowGlobalGeneric idx =>
    struct_inst ← BinaryIndexedView.struct_instantiation_at resolver idx;
    struct_def ← BinaryIndexedView.struct_def_at resolver struct_inst.(StructDefInstantiation.def);
    struct_handle ←
      BinaryIndexedView.struct_handle_at resolver struct_def.(StructDefinition.struct_handle);
    check_type_arguments struct_inst.(StructDefInstantiation.type_parameters)
      (StructHandle.type_param_constraints struct_handle) type_parameters
  | Bytecode.ImmBorrowFieldGeneric idx | Bytecode.MutBorrowFieldGeneric idx =>
    field_inst ← BinaryIndexedView.field_instantiation_at resolver idx;
    field_handle ← BinaryIndexedView.field_handle_at resolver field_inst.(FieldInstantiation.handle);
    struct_def ← BinaryIndexedView.struct_def_at resolver field_handle.(FieldHandle.owner);
    struct_handle ←
      BinaryIndexedView.struct_handle_at resolver struct_def.(StructDefinition.struct_handle);
    check_type_arguments field_inst.(FieldInstantiation.type_parameters)
      (StructHandle.type_param_constraints struct_handle) type_parameters
  | Bytecode.VecPack idx _ | Bytecode.VecLen idx | Bytecode.VecImmBorrow idx
  | Bytecode.VecMutBorrow idx | Bytecode.VecPushBack idx | Bytecode.VecPopBack idx
  | Bytecode.VecUnpack idx _ | Bytecode.VecSwap idx =>
    type_arguments ← BinaryIndexedView.signature_at resolver idx;
    if negb (Nat.eqb (length type_arguments) 1) then Err NUMBER_OF_TYPE_ARGUMENTS_MISMATCH
    else check_signature_tokens type_arguments
  | _ => Ok ()
  end.

Definition verify_code (code : CodeUnit) (type_parameters : list AbilitySet) : R () :=
  check_signature code.(CodeUnit.locals);;
  check_instantiation code.(CodeUnit.locals) type_parameters;;
  res_for code.(CodeUnit.code) (verify_instr type_parameters).

Definition verify_code_unit (func_def : FunctionDefinition) : R () :=
  match func_def.(FunctionDefinition.code) with
  | Some code =>
    func_handle ← BinaryIndexedView.function_handle_at resolver func_def.(FunctionDefinition.function);
    verify_code code func_handle.(FunctionHandle.type_parameters)
  | None => Ok ()
  end.

Definition verify_code_units (function_defs : list FunctionDefinition) : R () :=
  res_for function_defs verify_code_unit.
End checker.

Definition verify_module_impl (module : CompiledModule) : R () :=
  let resolver := BinaryIndexedView.Module_ module in
  verify_signature_pool resolver module.(CompiledModule.signatures);;
  verify_function_signatures resolver module.(CompiledModule.function_handles);;
  verify_fields resolver module.(CompiledModule.struct_defs);;
  verify_code_units resolver module.(CompiledModule.function_defs).

Definition verify_script_impl (script : CompiledScript) : R () :=
  let resolver := BinaryIndexedView.Script_ script in
  verify_signature_pool resolver script.(CompiledScript.signatures);;
  verify_function_signatures resolver script.(CompiledScript.function_handles);;
  check_instantiation resolver script.(CompiledScript.parameters) script.(CompiledScript.type_parameters);;
  verify_code resolver script.(CompiledScript.code) script.(CompiledScript.type_parameters).
End SignatureChecker.
