(* ===== verification/InstructionConsistency.v ===== *)
(** Instruction consistency: move-bytecode-verifier/src/instruction_consistency.rs.  The
    generic form of an instruction is used exactly with generic members. *)
From S2P Require Import Prelude StatusCode Abilities Identifier FileFormat Access.

Module InstructionConsistency.
Abbreviation R := (result StatusCode).

Definition is_empty {A} (l : list A) : bool := match l with [] => true | _ => false end.

Section checker.
Context (resolver : BinaryIndexedView).

Definition check_type_op (struct_def_index : StructDefinitionIndex) (generic : bool) : R () :=
  struct_def ← BinaryIndexedView.struct_def_at resolver struct_def_index;
  struct_handle ←
    BinaryIndexedView.struct_handle_at resolver struct_def.(StructDefinition.struct_handle);
  if Bool.eqb (is_empty struct_handle.(StructHandle.type_parameters)) generic
  then Err GENERIC_MEMBER_OPCODE_MISMATCH else Ok ().

Definition check_field_op (field_handle_index : FieldHandleIndex) (generic : bool) : R () :=
  field_handle ← BinaryIndexedView.field_handle_at resolver field_handle_index;
  check_type_op field_handle.(FieldHandle.owner) generic.

Definition check_function_op (func_handle_index : FunctionHandleIndex) (generic : bool) : R () :=
  function_handle ← BinaryIndexedView.function_handle_at resolver func_handle_index;
  if Bool.eqb (is_empty function_handle.(FunctionHandle.type_parameters)) generic
  then Err GENERIC_MEMBER_OPCODE_MISMATCH else Ok ().

Definition check_instruction (instr : Bytecode) : R () :=
  match instr with
  | Bytecode.MutBorrowField idx | Bytecode.ImmBorrowField idx => check_field_op idx false
  | Bytecode.MutBorrowFieldGeneric idx | Bytecode.ImmBorrowFieldGeneric idx =>
    field_inst ← BinaryIndexedView.field_instantiation_at resolver idx;
    check_field_op field_inst.(FieldInstantiation.handle) true
  | Bytecode.Call idx => check_function_op idx false
  | Bytecode.CallGeneric idx =>
    func_inst ← BinaryIndexedView.function_instantiation_at resolver idx;
    check_function_op func_inst.(FunctionInstantiation.handle) true
  | Bytecode.Pack idx | Bytecode.Unpack idx | Bytecode.MutBorrowGlobal idx
  | Bytecode.ImmBorrowGlobal idx | Bytecode.Exists idx | Bytecode.MoveFrom idx
  | Bytecode.MoveTo idx => check_type_op idx false
  | Bytecode.PackGeneric idx | Bytecode.UnpackGeneric idx | Bytecode.MutBorrowGlobalGeneric idx
  | Bytecode.ImmBorrowGlobalGeneric idx | Bytecode.ExistsGeneric idx
  | Bytecode.MoveFromGeneric idx | Bytecode.MoveToGeneric idx =>
    struct_inst ← BinaryIndexedView.struct_instantiation_at resolver idx;
    check_type_op struct_inst.(StructDefInstantiation.def) true
  | _ => Ok ()
  end.

Definition check_instructions (code : CodeUnit) : R () :=
  res_for code.(CodeUnit.code) check_instruction.
End checker.

Definition check_function_def (module : CompiledModule) (func_def : FunctionDefinition) : R () :=
  match func_def.(FunctionDefinition.code) with
  | None => Ok ()
  | Some code => check_instructions (BinaryIndexedView.Module_ module) code
  end.

Definition verify_module_impl (module : CompiledModule) : R () :=
  res_for module.(CompiledModule.function_defs) (check_function_def module).

Definition verify_script_impl (script : CompiledScript) : R () :=
  check_instructions (BinaryIndexedView.Script_ script) script.(CompiledScript.code).
End InstructionConsistency.
