(* ===== verification/Constants.v ===== *)
(** Constants: move-binary-format/src/constant.rs and
    move-bytecode-verifier/src/constants.rs, with the layouts and values of
    move-core/types/src/value.rs.  The encoding of values (the crate bcs) is a
    parameter. *)
From S2P Require Import Prelude StatusCode Abilities Identifier FileFormat Access.

(** The names of types, of move-core/types/src/language_storage.rs. *)
Module TypeTag.
Inductive TypeTag : Set :=
| Bool
| U8
| U64
| U128
| Address
| Signer
| Vector (ty : TypeTag)
| Struct (tag : StructTag)
with StructTag : Set :=
| mk (address : AccountAddress) (module name : Identifier) (type_params : list TypeTag).
End TypeTag.
Abbreviation TypeTag := TypeTag.TypeTag.
Abbreviation StructTag := TypeTag.StructTag.

Module MoveValue.
Inductive MoveValue : Set :=
| U8 (n : Z)
| U64 (n : Z)
| U128 (n : Z)
| Bool (b : bool)
| Address (a : AccountAddress)
| Vector (vals : list MoveValue)
| Struct (s : MoveStruct)
| Signer (a : AccountAddress)
with MoveStruct : Set :=
| Runtime (vals : list MoveValue)
| WithFields (fields : list (Identifier * MoveValue))
| WithTypes (type_ : StructTag) (fields : list (Identifier * MoveValue)).
End MoveValue.
Abbreviation MoveValue := MoveValue.MoveValue.

Module MoveTypeLayout.
Inductive MoveTypeLayout : Set :=
| Bool
| U8
| U64
| U128
| Address
| Vector (layout : MoveTypeLayout)
| Struct (layout : MoveStructLayout)
| Signer
with MoveStructLayout : Set :=
| Runtime (layouts : list MoveTypeLayout)
| WithFields (fields : list MoveFieldLayout)
| WithTypes (type_ : StructTag) (fields : list MoveFieldLayout)
with MoveFieldLayout : Set :=
| mk_MoveFieldLayout (name : Identifier) (layout : MoveTypeLayout).
End MoveTypeLayout.
Abbreviation MoveTypeLayout := MoveTypeLayout.MoveTypeLayout.

Fixpoint sig_to_ty (sig : SignatureToken) : option MoveTypeLayout :=
  match sig with
  | SignatureToken.Signer => Some MoveTypeLayout.Signer
  | SignatureToken.Address => Some MoveTypeLayout.Address
  | SignatureToken.Bool => Some MoveTypeLayout.Bool
  | SignatureToken.U8 => Some MoveTypeLayout.U8
  | SignatureToken.U64 => Some MoveTypeLayout.U64
  | SignatureToken.U128 => Some MoveTypeLayout.U128
  | SignatureToken.Vector v => ty ← sig_to_ty v; Some (MoveTypeLayout.Vector ty)
  | SignatureToken.Reference _ | SignatureToken.MutableReference _ | SignatureToken.Struct _
  | SignatureToken.TypeParameter _ | SignatureToken.StructInstantiation _ _ => None
  end.

Fixpoint ty_to_sig (ty : MoveTypeLayout) : option SignatureToken :=
  match ty with
  | MoveTypeLayout.Address => Some SignatureToken.Address
  | MoveTypeLayout.Signer => Some SignatureToken.Signer
  | MoveTypeLayout.U8 => Some SignatureToken.U8
  | MoveTypeLayout.U64 => Some SignatureToken.U64
  | MoveTypeLayout.U128 => Some SignatureToken.U128
  | MoveTypeLayout.Vector v => sig ← ty_to_sig v; Some (SignatureToken.Vector sig)
  | MoveTypeLayout.Struct _ => None
  | MoveTypeLayout.Bool => Some SignatureToken.Bool
  end.

Section bcs.
(** [bcs::from_bytes_seed] and [bcs::to_bytes], without the reason of a failure. *)
Context (from_bytes_seed : MoveTypeLayout -> list Z -> option MoveValue).
Context (to_bytes : MoveValue -> option (list Z)).

Definition simple_deserialize (blob : list Z) (ty : MoveTypeLayout) : option MoveValue :=
  from_bytes_seed ty blob.
Definition simple_serialize (self : MoveValue) : option (list Z) := to_bytes self.

Definition serialize_constant (ty : MoveTypeLayout) (v : MoveValue) : option Constant :=
  type_ ← ty_to_sig ty;
  data ← simple_serialize v;
  Some (Constant.mk type_ data).

Definition deserialize_constant (self : Constant) : option MoveValue :=
  ty ← sig_to_ty self.(Constant.type_);
  simple_deserialize self.(Constant.data) ty.

Definition verify_constant_type (type_ : SignatureToken) : result StatusCode () :=
  if SignatureToken.is_valid_for_constant type_ then Ok () else Err INVALID_CONSTANT_TYPE.

Definition verify_constant_data (constant : Constant) : result StatusCode () :=
  match deserialize_constant constant with
  | Some _ => Ok ()
  | None => Err MALFORMED_CONSTANT_DATA
  end.

Definition verify_constant (constant : Constant) : result StatusCode () :=
  verify_constant_type constant.(Constant.type_);;
  verify_constant_data constant.

Definition verify_constants_module (module : CompiledModule) : result StatusCode () :=
  res_for module.(CompiledModule.constant_pool) verify_constant.
Definition verify_constants_script (script : CompiledScript) : result StatusCode () :=
  res_for script.(CompiledScript.constant_pool) verify_constant.
End bcs.

(** * Constants have types without structs, references and type parameters *)

Lemma sig_to_ty_to_sig t ty : sig_to_ty t = Some ty <-> ty_to_sig ty = Some t.
Proof.
  revert ty. induction t using SignatureToken.token_ind; intros ty; cbn [sig_to_ty];
    try (split; [intros [= <-]; done|]; destruct ty; cbn [ty_to_sig]; try done;
         destruct (ty_to_sig ty); cbn; naive_solver).
  - split.
    + destruct (sig_to_ty t) as [ty'|]; cbn [mbind option_bind]; [|done]. intros [= <-]. cbn [ty_to_sig].
      by rewrite (proj1 (IHt ty') eq_refl).
    + destruct ty; cbn [ty_to_sig]; try done. destruct (ty_to_sig ty) as [s|] eqn:E; [|done].
      intros [= ->]. by rewrite (proj2 (IHt ty) E).
Qed.

Lemma valid_constant_layout t :
  SignatureToken.is_valid_for_constant t = true -> exists ty, sig_to_ty t = Some ty.
Proof.
  induction t using SignatureToken.token_ind; cbn; intros Hv; try done; try (by eexists).
  destruct (IHt Hv) as [ty ->]. by eexists.
Qed.
