(* ===== verification/TypeSafety.v ===== *)
(** Type safety: move-bytecode-verifier/src/type_safety.rs.  The checker runs the
    instructions of each block on a stack of types, which is kept from block to block.
    The head of [stack] is the top; popping the empty stack panics. *)
From S2P Require Import Prelude StatusCode Abilities Identifier FileFormat Access BTree.
From S2P Require Import ControlFlowGraph FunctionView.

Module TypeSafety.
Abbreviation R := (result StatusCode).
Abbreviation M := (ST (list SignatureToken) StatusCode).

(** * Types *)

Definition materialize_type (struct_handle : StructHandleIndex) (type_args : Signature) :
    SignatureToken :=
  match type_args with
  | [] => SignatureToken.Struct struct_handle
  | _ => SignatureToken.StructInstantiation struct_handle type_args
  end.

Fixpoint instantiate (subst : Signature) (token : SignatureToken) : R SignatureToken :=
  match token with
  | SignatureToken.Bool => Ok SignatureToken.Bool
  | SignatureToken.U8 => Ok SignatureToken.U8
  | SignatureToken.U64 => Ok SignatureToken.U64
  | SignatureToken.U128 => Ok SignatureToken.U128
  | SignatureToken.Address => Ok SignatureToken.Address
  | SignatureToken.Signer => Ok SignatureToken.Signer
  | SignatureToken.Vector ty => ty ← instantiate subst ty; Ok (SignatureToken.Vector ty)
  | SignatureToken.Struct idx => Ok (SignatureToken.Struct idx)
  | SignatureToken.StructInstantiation idx struct_type_args =>
    args ← (fix go (tys : list SignatureToken) : R (list SignatureToken) :=
              match tys with
              | [] => Ok []
              | ty :: tys => ty ← instantiate subst ty; tys ← go tys; Ok (ty :: tys)
              end) struct_type_args;
    Ok (SignatureToken.StructInstantiation idx args)
  | SignatureToken.Reference ty => ty ← instantiate subst ty; Ok (SignatureToken.Reference ty)
  | SignatureToken.MutableReference ty =>
    ty ← instantiate subst ty; Ok (SignatureToken.MutableReference ty)
  | SignatureToken.TypeParameter idx =>
    debug_assert (Nat.ltb (Z.to_nat idx) (length subst));;
    unwrap (subst !! Z.to_nat idx)
  end.

Definition get_vector_element_type (vector_ref_ty : SignatureToken) (mut_ref_only : bool) :
    option SignatureToken :=
  match vector_ref_ty with
  | SignatureToken.Reference referred_type =>
    if mut_ref_only then None
    else match referred_type with
         | SignatureToken.Vector element_type => Some element_type
         | _ => None
         end
  | SignatureToken.MutableReference referred_type =>
    match referred_type with
    | SignatureToken.Vector element_type => Some element_type
    | _ => None
    end
  | _ => None
  end.

Definition reference_to (mut_ : bool) (ty : SignatureToken) : SignatureToken :=
  if mut_ then SignatureToken.MutableReference ty else SignatureToken.Reference ty.

(** * The stack *)

Definition pop : M SignatureToken := fun stack =>
  match stack with
  | operand :: stack => Ok (operand, stack)
  | [] => Panic
  end.
Definition push (ty : SignatureToken) : M () := fun stack => Ok ((), ty :: stack).

Definition error {A} (status : StatusCode) : M A := st_err status.

(** [if b { return Err(status) }] *)
Definition error_if (b : bool) (status : StatusCode) : M () := if b then error status else mret ().

(** [for _ in 0..num { .. }]; popping stops at an empty stack, whatever [num]. *)
Fixpoint pop_n (fuel : nat) (num : Z) : M () :=
  if num <=? 0 then mret ()
  else match fuel with
       | O => fun _ => OutOfFuel
       | S fuel => pop;; pop_n fuel (num - 1)
       end.
Definition push_n (num : Z) (ty : SignatureToken) : M () := fun stack =>
  Ok ((), repeat ty (Z.to_nat num) ++ stack).

(** * Instructions *)

Module Locals.
Record Locals : Set := mk { param_count : nat; parameters : Signature; locals : Signature }.

Definition new (parameters locals : Signature) : Locals := mk (length parameters) parameters locals.

Definition local_at (self : Locals) (i : LocalIndex) : R SignatureToken :=
  let idx := Z.to_nat i in
  if Nat.ltb idx self.(param_count) then unwrap (self.(parameters) !! idx)
  else unwrap (self.(locals) !! (idx - self.(param_count))%nat).
End Locals.

Section checker.
Context (resolver : BinaryIndexedView) (function_view : FunctionView).

Definition local_at (i : LocalIndex) : R SignatureToken :=
  Locals.local_at (Locals.new function_view.(FunctionView.parameters) function_view.(FunctionView.locals)) i.

Definition abilities (t : SignatureToken) : R AbilitySet :=
  BinaryIndexedView.abilities resolver t function_view.(FunctionView.type_parameters).

(** Pop a type for each element of [tys], the last first, and compare. *)
Fixpoint pop_types (status : StatusCode) (tys : list SignatureToken) : M () :=
  match tys with
  | [] => mret ()
  | ty :: tys => arg ← pop; error_if (negb (bool_decide (arg = ty))) status;; pop_types status tys
  end.

Definition borrow_field (mut_ : bool) (field_handle_index : FieldHandleIndex) (type_args : Signature) :
    M () :=
  operand ← pop;
  error_if (mut_ && negb (SignatureToken.is_mutable_reference operand)) BORROWFIELD_TYPE_MISMATCH_ERROR;;
  field_handle ← st_lift (BinaryIndexedView.field_handle_at resolver field_handle_index);
  struct_def ← st_lift (BinaryIndexedView.struct_def_at resolver field_handle.(FieldHandle.owner));
  let expected_type := materialize_type struct_def.(StructDefinition.struct_handle) type_args in
  match operand with
  | SignatureToken.Reference inner | SignatureToken.MutableReference inner =>
    error_if (negb (bool_decide (expected_type = inner))) BORROWFIELD_TYPE_MISMATCH_ERROR
  | _ => error BORROWFIELD_TYPE_MISMATCH_ERROR
  end;;
  match struct_def.(StructDefinition.field_information) with
  | Native => error BORROWFIELD_BAD_FIELD_ERROR
  | Declared fields =>
    field_def ← st_lift (unwrap (fields !! Z.to_nat field_handle.(FieldHandle.field)));
    field_type ← st_lift (instantiate type_args field_def.(FieldDefinition.signature));
    push (reference_to mut_ field_type)
  end.

Definition borrow_loc (mut_ : bool) (idx : LocalIndex) : M () :=
  loc_signature ← st_lift (local_at idx);
  error_if (SignatureToken.is_reference loc_signature) BORROWLOC_REFERENCE_ERROR;;
  push (reference_to mut_ loc_signature).

(** [if !verifier.abilities(&t)?.has_key() { return Err(status) }] *)
Definition check_ability (has : AbilitySet -> bool) (t : SignatureToken) (status : StatusCode) : M () :=
  a ← st_lift (abilities t);
  error_if (negb (has a)) status.

Definition borrow_global (mut_ : bool) (idx : StructDefinitionIndex) (type_args : Signature) : M () :=
  operand ← pop;
  error_if (negb (bool_decide (operand = SignatureToken.Address))) BORROWGLOBAL_TYPE_MISMATCH_ERROR;;
  struct_def ← st_lift (BinaryIndexedView.struct_def_at resolver idx);
  let struct_type := materialize_type struct_def.(StructDefinition.struct_handle) type_args in
  check_ability AbilitySet.has_key struct_type BORROWGLOBAL_WITHOUT_KEY_ABILITY;;
  push (reference_to mut_ struct_type).

(** The loop over the parameters, the last first; each is instantiated after its
    argument is popped. *)
Fixpoint pop_args (type_actuals : Signature) (parameters : list SignatureToken) : M () :=
  match parameters with
  | [] => mret ()
  | parameter :: parameters =>
    arg ← pop;
    ty ← st_lift (instantiate type_actuals parameter);
    error_if (negb (bool_decide (arg = ty))) CALL_TYPE_MISMATCH_ERROR;;
    pop_args type_actuals parameters
  end.

Definition call (function_handle : FunctionHandle) (type_actuals : Signature) : M () :=
  parameters ← st_lift (BinaryIndexedView.signature_at resolver function_handle.(FunctionHandle.parameters));
  pop_args type_actuals (rev parameters);;
  return_ ← st_lift (BinaryIndexedView.signature_at resolver function_handle.(FunctionHandle.return_));
  st_for return_ (fun return_type =>
    ty ← st_lift (instantiate type_actuals return_type);
    push ty).

Definition type_fields_signature (struct_def : StructDefinition) (type_args : Signature) : R Signature :=
  match struct_def.(StructDefinition.field_information) with
  | Native => Err PACK_TYPE_MISMATCH_ERROR
  | Declared fields =>
    ModuleAccess.map_res (fun field_def => instantiate type_args field_def.(FieldDefinition.signature)) fields
  end.

Definition pack (struct_def : StructDefinition) (type_args : Signature) : M () :=
  let struct_type := materialize_type struct_def.(StructDefinition.struct_handle) type_args in
  field_sig ← st_lift (type_fields_signature struct_def type_args);
  pop_types PACK_TYPE_MISMATCH_ERROR (rev field_sig);;
  push struct_type.

Definition unpack (struct_def : StructDefinition) (type_args : Signature) : M () :=
  let struct_type := materialize_type struct_def.(StructDefinition.struct_handle) type_args in
  arg ← pop;
  error_if (negb (bool_decide (arg = struct_type))) UNPACK_TYPE_MISMATCH_ERROR;;
  field_sig ← st_lift (type_fields_signature struct_def type_args);
  st_for field_sig push.

Definition exists_ (struct_def : StructDefinition) (type_args : Signature) : M () :=
  let struct_type := materialize_type struct_def.(StructDefinition.struct_handle) type_args in
  check_ability AbilitySet.has_key struct_type EXISTS_WITHOUT_KEY_ABILITY_OR_BAD_ARGUMENT;;
  operand ← pop;
  error_if (negb (bool_decide (operand = SignatureToken.Address)))
    EXISTS_WITHOUT_KEY_ABILITY_OR_BAD_ARGUMENT;;
  push SignatureToken.Bool.

Definition move_from (struct_def : StructDefinition) (type_args : Signature) : M () :=
  let struct_type := materialize_type struct_def.(StructDefinition.struct_handle) type_args in
  check_ability AbilitySet.has_key struct_type MOVEFROM_WITHOUT_KEY_ABILITY;;
  operand ← pop;
  error_if (negb (bool_decide (operand = SignatureToken.Address))) MOVEFROM_TYPE_MISMATCH_ERROR;;
  push struct_type.

Definition move_to (struct_def : StructDefinition) (type_args : Signature) : M () :=
  let struct_type := materialize_type struct_def.(StructDefinition.struct_handle) type_args in
  check_ability AbilitySet.has_key struct_type MOVETO_WITHOUT_KEY_ABILITY;;
  key_struct_operand ← pop;
  signer_reference_operand ← pop;
  error_if (negb (bool_decide (key_struct_operand = struct_type))) MOVETO_TYPE_MISMATCH_ERROR;;
  match signer_reference_operand with
  | SignatureToken.Reference SignatureToken.Signer => mret ()
  | _ => error MOVETO_TYPE_MISMATCH_ERROR
  end.

(** [match get_vector_element_type(operand, mut_ref_only) { Some(ty) if &ty == declared => ty, .. }] *)
Definition element_type_of (operand declared_element_type : SignatureToken) (mut_ref_only : bool) :
    M SignatureToken :=
  match get_vector_element_type operand mut_ref_only with
  | Some ty => error_if (negb (bool_decide (ty = declared_element_type))) TYPE_MISMATCH;; mret ty
  | None => error TYPE_MISMATCH
  end.

Definition borrow_vector_element (declared_element_type : SignatureToken) (mut_ref_only : bool) : M () :=
  operand_idx ← pop;
  operand_vec ← pop;
  error_if (negb (bool_decide (operand_idx = SignatureToken.U64))) TYPE_MISMATCH;;
  element_type ← element_type_of operand_vec declared_element_type mut_ref_only;
  push (reference_to mut_ref_only element_type).

(** [&verifier.resolver.signature_at(idx).0[0]] *)
Definition declared_element (idx : SignatureIndex) : R SignatureToken :=
  sig ← BinaryIndexedView.signature_at resolver idx;
  unwrap (sig !! 0%nat).

(** The struct definition and the type arguments of an instantiation. *)
Definition struct_inst (idx : StructDefInstantiationIndex) : R (StructDefinition * Signature) :=
  struct_inst ← BinaryIndexedView.struct_instantiation_at resolver idx;
  struct_def ← BinaryIndexedView.struct_def_at resolver struct_inst.(StructDefInstantiation.def);
  type_args ← BinaryIndexedView.signature_at resolver struct_inst.(StructDefInstantiation.type_parameters);
  Ok (struct_def, type_args).

Definition borrow_field_generic (mut_ : bool) (idx : FieldInstantiationIndex) : M () :=
  field_inst ← st_lift (BinaryIndexedView.field_instantiation_at resolver idx);
  type_inst ←
    st_lift (BinaryIndexedView.signature_at resolver field_inst.(FieldInstantiation.type_parameters));
  borrow_field mut_ field_inst.(FieldInstantiation.handle) type_inst.

Definition borrow_global_generic (mut_ : bool) (idx : StructDefInstantiationIndex) : M () :=
  struct_inst ← st_lift (BinaryIndexedView.struct_instantiation_at resolver idx);
  type_inst ←
    st_lift (BinaryIndexedView.signature_at resolver struct_inst.(StructDefInstantiation.type_parameters));
  borrow_global mut_ struct_inst.(StructDefInstantiation.def) type_inst.

Definition cast (ty : SignatureToken) : M () :=
  operand ← pop;
  error_if (negb (SignatureToken.is_integer operand)) INTEGER_OP_TYPE_MISMATCH_ERROR;;
  push ty.

Definition verify_instr (bytecode : Bytecode) : M () :=
  match bytecode with
  | Bytecode.Pop =>
    operand ← pop;
    check_ability AbilitySet.has_drop operand POP_WITHOUT_DROP_ABILITY
  | Bytecode.BrTrue _ | Bytecode.BrFalse _ =>
    operand ← pop;
    error_if (negb (bool_decide (operand = SignatureToken.Bool))) BR_TYPE_MISMATCH_ERROR
  | Bytecode.StLoc idx =>
    operand ← pop;
    ty ← st_lift (local_at idx);
    error_if (negb (bool_decide (operand = ty))) STLOC_TYPE_MISMATCH_ERROR
  | Bytecode.Abort =>
    operand ← pop;
    error_if (negb (bool_decide (operand = SignatureToken.U64))) ABORT_TYPE_MISMATCH_ERROR
  | Bytecode.Ret => pop_types RET_TYPE_MISMATCH_ERROR (rev function_view.(FunctionView.return_))
  | Bytecode.Branch _ | Bytecode.Nop => mret ()
  | Bytecode.FreezeRef =>
    operand ← pop;
    match operand with
    | SignatureToken.MutableReference inner => push (SignatureToken.Reference inner)
    | _ => error FREEZEREF_TYPE_MISMATCH_ERROR
    end
  | Bytecode.MutBorrowField idx => borrow_field true idx []
  | Bytecode.MutBorrowFieldGeneric idx => borrow_field_generic true idx
  | Bytecode.ImmBorrowField idx => borrow_field false idx []
  | Bytecode.ImmBorrowFieldGeneric idx => borrow_field_generic false idx
  | Bytecode.LdU8 _ => push SignatureToken.U8
  | Bytecode.LdU64 _ => push SignatureToken.U64
  | Bytecode.LdU128 _ => push SignatureToken.U128
  | Bytecode.LdConst idx =>
    constant ← st_lift (BinaryIndexedView.constant_at resolver idx);
    push constant.(Constant.type_)
  | Bytecode.LdTrue | Bytecode.LdFalse => push SignatureToken.Bool
  | Bytecode.CopyLoc idx =>
    local_signature ← st_lift (local_at idx);
    check_ability AbilitySet.has_copy local_signature COPYLOC_WITHOUT_COPY_ABILITY;;
    push local_signature
  | Bytecode.MoveLoc idx => local_signature ← st_lift (local_at idx); push local_signature
  | Bytecode.MutBorrowLoc idx => borrow_loc true idx
  | Bytecode.ImmBorrowLoc idx => borrow_loc false idx
  | Bytecode.Call idx =>
    function_handle ← st_lift (BinaryIndexedView.function_handle_at resolver idx);
    call function_handle []
  | Bytecode.CallGeneric idx =>
    func_inst ← st_lift (BinaryIndexedView.function_instantiation_at resolver idx);
    func_handle ←
      st_lift (BinaryIndexedView.function_handle_at resolver func_inst.(FunctionInstantiation.handle));
    type_args ←
      st_lift (BinaryIndexedView.signature_at resolver func_inst.(FunctionInstantiation.type_parameters));
    call func_handle type_args
  | Bytecode.Pack idx => d ← st_lift (BinaryIndexedView.struct_def_at resolver idx); pack d []
  | Bytecode.PackGeneric idx => '(d, type_args) ← st_lift (struct_inst idx); pack d type_args
  | Bytecode.Unpack idx => d ← st_lift (BinaryIndexedView.struct_def_at resolver idx); unpack d []
  | Bytecode.UnpackGeneric idx => '(d, type_args) ← st_lift (struct_inst idx); unpack d type_args
  | Bytecode.ReadRef =>
    operand ← pop;
    match operand with
    | SignatureToken.Reference inner | SignatureToken.MutableReference inner =>
      check_ability AbilitySet.has_copy inner READREF_WITHOUT_COPY_ABILITY;;
      push inner
    | _ => error READREF_TYPE_MISMATCH_ERROR
    end
  | Bytecode.WriteRef =>
    ref_operand ← pop;
    val_operand ← pop;
    match ref_operand with
    | SignatureToken.MutableReference inner =>
      check_ability AbilitySet.has_drop inner WRITEREF_WITHOUT_DROP_ABILITY;;
      error_if (negb (bool_decide (val_operand = inner))) WRITEREF_TYPE_MISMATCH_ERROR
    | _ => error WRITEREF_NO_MUTABLE_REFERENCE_ERROR
    end
  | Bytecode.CastU8 => cast SignatureToken.U8
  | Bytecode.CastU64 => cast SignatureToken.U64
  | Bytecode.CastU128 => cast SignatureToken.U128
  | Bytecode.Add | Bytecode.Sub | Bytecode.Mul | Bytecode.Mod | Bytecode.Div
  | Bytecode.BitOr | Bytecode.BitAnd | Bytecode.Xor =>
    operand1 ← pop;
    operand2 ← pop;
    if SignatureToken.is_integer operand1 && bool_decide (operand1 = operand2) then push operand1
    else error INTEGER_OP_TYPE_MISMATCH_ERROR
  | Bytecode.Shl | Bytecode.Shr =>
    operand1 ← pop;
    operand2 ← pop;
    if SignatureToken.is_integer operand2 && bool_decide (operand1 = SignatureToken.U8) then push operand2
    else error INTEGER_OP_TYPE_MISMATCH_ERROR
  | Bytecode.Or | Bytecode.And =>
    operand1 ← pop;
    operand2 ← pop;
    if bool_decide (operand1 = SignatureToken.Bool) && bool_decide (operand2 = SignatureToken.Bool)
    then push SignatureToken.Bool else error BOOLEAN_OP_TYPE_MISMATCH_ERROR
  | Bytecode.Not =>
    operand ← pop;
    if bool_decide (operand = SignatureToken.Bool) then push SignatureToken.Bool
    else error BOOLEAN_OP_TYPE_MISMATCH_ERROR
  | Bytecode.Eq | Bytecode.Neq =>
    operand1 ← pop;
    operand2 ← pop;
    a ← st_lift (abilities operand1);
    if AbilitySet.has_drop a && bool_decide (operand1 = operand2) then push SignatureToken.Bool
    else error EQUALITY_OP_TYPE_MISMATCH_ERROR
  | Bytecode.Lt | Bytecode.Gt | Bytecode.Le | Bytecode.Ge =>
    operand1 ← pop;
    operand2 ← pop;
    if SignatureToken.is_integer operand1 && bool_decide (operand1 = operand2)
    then push SignatureToken.Bool else error INTEGER_OP_TYPE_MISMATCH_ERROR
  | Bytecode.MutBorrowGlobal idx => borrow_global true idx []
  | Bytecode.MutBorrowGlobalGeneric idx => borrow_global_generic true idx
  | Bytecode.ImmBorrowGlobal idx => borrow_global false idx []
  | Bytecode.ImmBorrowGlobalGeneric idx => borrow_global_generic false idx
  | Bytecode.Exists idx => d ← st_lift (BinaryIndexedView.struct_def_at resolver idx); exists_ d []
  | Bytecode.ExistsGeneric idx => '(d, type_args) ← st_lift (struct_inst idx); exists_ d type_args
  | Bytecode.MoveFrom idx => d ← st_lift (BinaryIndexedView.struct_def_at resolver idx); move_from d []
  | Bytecode.MoveFromGeneric idx => '(d, type_args) ← st_lift (struct_inst idx); move_from d type_args
  | Bytecode.MoveTo idx => d ← st_lift (BinaryIndexedView.struct_def_at resolver idx); move_to d []
  | Bytecode.MoveToGeneric idx => '(d, type_args) ← st_lift (struct_inst idx); move_to d type_args
  | Bytecode.VecPack idx num =>
    element_type ← st_lift (declared_element idx);
    (fun stack => pop_n (S (length stack)) num stack);;
    push (SignatureToken.Vector element_type)
  | Bytecode.VecLen idx =>
    operand ← pop;
    declared_element_type ← st_lift (declared_element idx);
    element_type_of operand declared_element_type false;;
    push SignatureToken.U64
  | Bytecode.VecImmBorrow idx =>
    declared_element_type ← st_lift (declared_element idx);
    borrow_vector_element declared_element_type false
  | Bytecode.VecMutBorrow idx =>
    declared_element_type ← st_lift (declared_element idx);
    borrow_vector_element declared_element_type true
  | Bytecode.VecPushBack idx =>
    operand_elem ← pop;
    operand_vec ← pop;
    declared_element_type ← st_lift (declared_element idx);
    error_if (negb (bool_decide (declared_element_type = operand_elem))) TYPE_MISMATCH;;
    element_type_of operand_vec declared_element_type true;;
    mret ()
  | Bytecode.VecPopBack idx =>
    operand_vec ← pop;
    declared_element_type ← st_lift (declared_element idx);
    derived_element_type ← element_type_of operand_vec declared_element_type true;
    push derived_element_type
  | Bytecode.VecUnpack idx num =>
    operand_vec ← pop;
    declared_element_type ← st_lift (declared_element idx);
    error_if (negb (bool_decide (operand_vec = SignatureToken.Vector declared_element_type))) TYPE_MISMATCH;;
    push_n num declared_element_type
  | Bytecode.VecSwap idx =>
    operand_idx2 ← pop;
    operand_idx1 ← pop;
    operand_vec ← pop;
    error_if (negb (bool_decide (operand_idx1 = SignatureToken.U64)) ||
              negb (bool_decide (operand_idx2 = SignatureToken.U64))) TYPE_MISMATCH;;
    declared_element_type ← st_lift (declared_element idx);
    element_type_of operand_vec declared_element_type true;;
    mret ()
  end.

Definition verify_offset (offset : CodeOffset) : M () :=
  instr ← st_lift (unwrap (function_view.(FunctionView.code).(CodeUnit.code) !! Z.to_nat offset));
  verify_instr instr.

Definition verify_block (block_id : BlockId) : M () :=
  offsets ← st_lift (VMControlFlowGraph.instr_indexes function_view.(FunctionView.cfg) block_id);
  st_for offsets verify_offset.

Definition verify : R () :=
  '(_, _) ← st_for (VMControlFlowGraph.block_ids function_view.(FunctionView.cfg)) verify_block [];
  Ok ().
End checker.
End TypeSafety.
