(* ===== verification/TypingRules.v ===== *)
(** The typing rules of the bytecode, as a relation between the types on the stack before
    and after an instruction, and the proof that the checker of type_safety.rs decides
    them; except for [VecPack], whose operands the checker does not look at. *)
From S2P Require Import Prelude StatusCode Abilities Identifier FileFormat Access BTree.
From S2P Require Import BoundsChecker BoundsSpec ControlFlowGraph FunctionView TypeSafety.
Import TypeSafety.
Import SignatureToken(Bool, U8, U64, U128, Address, Signer, Vector, Reference, MutableReference).

Abbreviation types := (list SignatureToken).

Section rules.
Context (v : BinaryIndexedView) (fv : FunctionView).

(** The type [t] has an ability. *)
Definition type_has (has : AbilitySet -> bool) (t : SignatureToken) : Prop :=
  exists a, abilities v fv t = Ok a /\ has a = true.

Definition local_type (idx : LocalIndex) (t : SignatureToken) : Prop := local_at fv idx = Ok t.

(** [ts] are the types [tys] with the type parameters replaced by [args]. *)
Definition instance_of (args : Signature) (tys ts : types) : Prop :=
  Forall2 (fun ty t => instantiate args ty = Ok t) tys ts.

Definition element_type (idx : SignatureIndex) (t : SignatureToken) : Prop :=
  declared_element v idx = Ok t.

(** A struct definition and its type. *)
Definition struct_type (d : StructDefinition) (args : Signature) : SignatureToken :=
  materialize_type d.(StructDefinition.struct_handle) args.

(** A declared struct has these field types at the type arguments [args]. *)
Definition field_types (d : StructDefinition) (args : Signature) (ts : types) : Prop :=
  exists fields, d.(StructDefinition.field_information) = Declared fields /\
    instance_of args (map FieldDefinition.signature fields) ts.

Definition definition_at (idx : StructDefinitionIndex) (d : StructDefinition) (args : Signature) : Prop :=
  BinaryIndexedView.struct_def_at v idx = Ok d /\ args = [].
Definition instantiation_at (idx : StructDefInstantiationIndex) (d : StructDefinition)
    (args : Signature) : Prop := struct_inst v idx = Ok (d, args).

(** The struct that declares a field, and the type of the field. *)
Definition field_at (idx : FieldHandleIndex) (args : Signature) (d : StructDefinition)
    (t : SignatureToken) : Prop :=
  exists h fields f, BinaryIndexedView.field_handle_at v idx = Ok h /\
    BinaryIndexedView.struct_def_at v h.(FieldHandle.owner) = Ok d /\
    d.(StructDefinition.field_information) = Declared fields /\
    fields !! Z.to_nat h.(FieldHandle.field) = Some f /\
    instantiate args f.(FieldDefinition.signature) = Ok t.

Definition field_instance_at (idx : FieldInstantiationIndex) (d : StructDefinition)
    (args : Signature) (t : SignatureToken) : Prop :=
  exists i, BinaryIndexedView.field_instantiation_at v idx = Ok i /\
    BinaryIndexedView.signature_at v i.(FieldInstantiation.type_parameters) = Ok args /\
    field_at i.(FieldInstantiation.handle) args d t.

(** The parameter and result types of a function at the type arguments [args]. *)
Definition function_type (h : FunctionHandle) (args : Signature) (ps rs : types) : Prop :=
  exists parameters return_,
    BinaryIndexedView.signature_at v h.(FunctionHandle.parameters) = Ok parameters /\
    BinaryIndexedView.signature_at v h.(FunctionHandle.return_) = Ok return_ /\
    instance_of args parameters ps /\ instance_of args return_ rs.

Definition function_at (idx : FunctionHandleIndex) (ps rs : types) : Prop :=
  exists h, BinaryIndexedView.function_handle_at v idx = Ok h /\ function_type h [] ps rs.
Definition function_instance_at (idx : FunctionInstantiationIndex) (ps rs : types) : Prop :=
  exists i h args, BinaryIndexedView.function_instantiation_at v idx = Ok i /\
    BinaryIndexedView.function_handle_at v i.(FunctionInstantiation.handle) = Ok h /\
    BinaryIndexedView.signature_at v i.(FunctionInstantiation.type_parameters) = Ok args /\
    function_type h args ps rs.

(** Operations on structs at an instruction that names a definition or an instantiation. *)
Inductive struct_rule (d : StructDefinition) (args : Signature) : types -> types -> Bytecode -> Prop :=
| T_Pack idx ts S : definition_at idx d args -> field_types d args ts ->
    struct_rule d args (rev ts ++ S) (struct_type d args :: S) (Bytecode.Pack idx)
| T_PackGeneric idx ts S : instantiation_at idx d args -> field_types d args ts ->
    struct_rule d args (rev ts ++ S) (struct_type d args :: S) (Bytecode.PackGeneric idx)
| T_Unpack idx ts S : definition_at idx d args -> field_types d args ts ->
    struct_rule d args (struct_type d args :: S) (rev ts ++ S) (Bytecode.Unpack idx)
| T_UnpackGeneric idx ts S : instantiation_at idx d args -> field_types d args ts ->
    struct_rule d args (struct_type d args :: S) (rev ts ++ S) (Bytecode.UnpackGeneric idx)
| T_Exists idx S : definition_at idx d args -> type_has AbilitySet.has_key (struct_type d args) ->
    struct_rule d args (Address :: S) (Bool :: S) (Bytecode.Exists idx)
| T_ExistsGeneric idx S : instantiation_at idx d args ->
    type_has AbilitySet.has_key (struct_type d args) ->
    struct_rule d args (Address :: S) (Bool :: S) (Bytecode.ExistsGeneric idx)
| T_MoveFrom idx S : definition_at idx d args -> type_has AbilitySet.has_key (struct_type d args) ->
    struct_rule d args (Address :: S) (struct_type d args :: S) (Bytecode.MoveFrom idx)
| T_MoveFromGeneric idx S : instantiation_at idx d args ->
    type_has AbilitySet.has_key (struct_type d args) ->
    struct_rule d args (Address :: S) (struct_type d args :: S) (Bytecode.MoveFromGeneric idx)
| T_MoveTo idx S : definition_at idx d args -> type_has AbilitySet.has_key (struct_type d args) ->
    struct_rule d args (struct_type d args :: Reference Signer :: S) S (Bytecode.MoveTo idx)
| T_MoveToGeneric idx S : instantiation_at idx d args ->
    type_has AbilitySet.has_key (struct_type d args) ->
    struct_rule d args (struct_type d args :: Reference Signer :: S) S (Bytecode.MoveToGeneric idx)
| T_MutBorrowGlobal idx S : definition_at idx d args ->
    type_has AbilitySet.has_key (struct_type d args) ->
    struct_rule d args (Address :: S) (MutableReference (struct_type d args) :: S)
      (Bytecode.MutBorrowGlobal idx)
| T_MutBorrowGlobalGeneric idx S : instantiation_at idx d args ->
    type_has AbilitySet.has_key (struct_type d args) ->
    struct_rule d args (Address :: S) (MutableReference (struct_type d args) :: S)
      (Bytecode.MutBorrowGlobalGeneric idx)
| T_ImmBorrowGlobal idx S : definition_at idx d args ->
    type_has AbilitySet.has_key (struct_type d args) ->
    struct_rule d args (Address :: S) (Reference (struct_type d args) :: S)
      (Bytecode.ImmBorrowGlobal idx)
| T_ImmBorrowGlobalGeneric idx S : instantiation_at idx d args ->
    type_has AbilitySet.has_key (struct_type d args) ->
    struct_rule d args (Address :: S) (Reference (struct_type d args) :: S)
      (Bytecode.ImmBorrowGlobalGeneric idx)
| T_MutBorrowField idx t S : args = [] -> field_at idx args d t ->
    struct_rule d args (MutableReference (struct_type d args) :: S) (MutableReference t :: S)
      (Bytecode.MutBorrowField idx)
| T_MutBorrowFieldGeneric idx t S : field_instance_at idx d args t ->
    struct_rule d args (MutableReference (struct_type d args) :: S) (MutableReference t :: S)
      (Bytecode.MutBorrowFieldGeneric idx)
| T_ImmBorrowField idx mut_ t S : args = [] -> field_at idx args d t ->
    struct_rule d args (reference_to mut_ (struct_type d args) :: S) (Reference t :: S)
      (Bytecode.ImmBorrowField idx)
| T_ImmBorrowFieldGeneric idx mut_ t S : field_instance_at idx d args t ->
    struct_rule d args (reference_to mut_ (struct_type d args) :: S) (Reference t :: S)
      (Bytecode.ImmBorrowFieldGeneric idx).

(** The rules of vectors with elements of type [t]. *)
Inductive vector_rule (t : SignatureToken) : types -> types -> Bytecode -> Prop :=
| T_VecPack idx num S : element_type idx t ->
    vector_rule t (repeat t (Z.to_nat num) ++ S) (Vector t :: S) (Bytecode.VecPack idx num)
| T_VecUnpack idx num S : element_type idx t ->
    vector_rule t (Vector t :: S) (repeat t (Z.to_nat num) ++ S) (Bytecode.VecUnpack idx num)
| T_VecLen idx mut_ S : element_type idx t ->
    vector_rule t (reference_to mut_ (Vector t) :: S) (U64 :: S) (Bytecode.VecLen idx)
| T_VecImmBorrow idx mut_ S : element_type idx t ->
    vector_rule t (U64 :: reference_to mut_ (Vector t) :: S) (Reference t :: S) (Bytecode.VecImmBorrow idx)
| T_VecMutBorrow idx S : element_type idx t ->
    vector_rule t (U64 :: MutableReference (Vector t) :: S) (MutableReference t :: S)
      (Bytecode.VecMutBorrow idx)
| T_VecPushBack idx S : element_type idx t ->
    vector_rule t (t :: MutableReference (Vector t) :: S) S (Bytecode.VecPushBack idx)
| T_VecPopBack idx S : element_type idx t ->
    vector_rule t (MutableReference (Vector t) :: S) (t :: S) (Bytecode.VecPopBack idx)
| T_VecSwap idx S : element_type idx t ->
    vector_rule t (U64 :: U64 :: MutableReference (Vector t) :: S) S (Bytecode.VecSwap idx).

Definition is_arith (b : Bytecode) : bool :=
  match b with
  | Bytecode.Add | Bytecode.Sub | Bytecode.Mul | Bytecode.Mod | Bytecode.Div
  | Bytecode.BitOr | Bytecode.BitAnd | Bytecode.Xor => true
  | _ => false
  end.
Definition is_shift (b : Bytecode) : bool :=
  match b with Bytecode.Shl | Bytecode.Shr => true | _ => false end.
Definition is_logic (b : Bytecode) : bool :=
  match b with Bytecode.Or | Bytecode.And => true | _ => false end.
Definition is_equality (b : Bytecode) : bool :=
  match b with Bytecode.Eq | Bytecode.Neq => true | _ => false end.
Definition is_comparison (b : Bytecode) : bool :=
  match b with Bytecode.Lt | Bytecode.Gt | Bytecode.Le | Bytecode.Ge => true | _ => false end.

(** [instr_typed S b S']: with values of the types [S] on the stack, top first, the
    instruction [b] is well typed and leaves values of the types [S']. *)
Inductive instr_typed : types -> Bytecode -> types -> Prop :=
| T_Pop t S : type_has AbilitySet.has_drop t -> instr_typed (t :: S) Bytecode.Pop S
| T_BrTrue o S : instr_typed (Bool :: S) (Bytecode.BrTrue o) S
| T_BrFalse o S : instr_typed (Bool :: S) (Bytecode.BrFalse o) S
| T_Branch o S : instr_typed S (Bytecode.Branch o) S
| T_Nop S : instr_typed S Bytecode.Nop S
| T_Abort S : instr_typed (U64 :: S) Bytecode.Abort S
| T_Ret S : instr_typed (rev fv.(FunctionView.return_) ++ S) Bytecode.Ret S
| T_LdU8 n S : instr_typed S (Bytecode.LdU8 n) (U8 :: S)
| T_LdU64 n S : instr_typed S (Bytecode.LdU64 n) (U64 :: S)
| T_LdU128 n S : instr_typed S (Bytecode.LdU128 n) (U128 :: S)
| T_LdTrue S : instr_typed S Bytecode.LdTrue (Bool :: S)
| T_LdFalse S : instr_typed S Bytecode.LdFalse (Bool :: S)
| T_LdConst idx c S : BinaryIndexedView.constant_at v idx = Ok c ->
    instr_typed S (Bytecode.LdConst idx) (c.(Constant.type_) :: S)
| T_CopyLoc idx t S : local_type idx t -> type_has AbilitySet.has_copy t ->
    instr_typed S (Bytecode.CopyLoc idx) (t :: S)
| T_MoveLoc idx t S : local_type idx t -> instr_typed S (Bytecode.MoveLoc idx) (t :: S)
| T_StLoc idx t S : local_type idx t -> instr_typed (t :: S) (Bytecode.StLoc idx) S
| T_MutBorrowLoc idx t S : local_type idx t -> SignatureToken.is_reference t = false ->
    instr_typed S (Bytecode.MutBorrowLoc idx) (MutableReference t :: S)
| T_ImmBorrowLoc idx t S : local_type idx t -> SignatureToken.is_reference t = false ->
    instr_typed S (Bytecode.ImmBorrowLoc idx) (Reference t :: S)
| T_Call idx ps rs S : function_at idx ps rs ->
    instr_typed (rev ps ++ S) (Bytecode.Call idx) (rev rs ++ S)
| T_CallGeneric idx ps rs S : function_instance_at idx ps rs ->
    instr_typed (rev ps ++ S) (Bytecode.CallGeneric idx) (rev rs ++ S)
| T_FreezeRef t S : instr_typed (MutableReference t :: S) Bytecode.FreezeRef (Reference t :: S)
| T_ReadRef mut_ t S : type_has AbilitySet.has_copy t ->
    instr_typed (reference_to mut_ t :: S) Bytecode.ReadRef (t :: S)
| T_WriteRef t S : type_has AbilitySet.has_drop t ->
    instr_typed (MutableReference t :: t :: S) Bytecode.WriteRef S
| T_CastU8 t S : SignatureToken.is_integer t = true -> instr_typed (t :: S) Bytecode.CastU8 (U8 :: S)
| T_CastU64 t S : SignatureToken.is_integer t = true -> instr_typed (t :: S) Bytecode.CastU64 (U64 :: S)
| T_CastU128 t S : SignatureToken.is_integer t = true -> instr_typed (t :: S) Bytecode.CastU128 (U128 :: S)
| T_Arith b t S : is_arith b = true -> SignatureToken.is_integer t = true ->
    instr_typed (t :: t :: S) b (t :: S)
| T_Shift b t S : is_shift b = true -> SignatureToken.is_integer t = true ->
    instr_typed (U8 :: t :: S) b (t :: S)
| T_Logic b S : is_logic b = true -> instr_typed (Bool :: Bool :: S) b (Bool :: S)
| T_Not S : instr_typed (Bool :: S) Bytecode.Not (Bool :: S)
| T_Equality b t S : is_equality b = true -> type_has AbilitySet.has_drop t ->
    instr_typed (t :: t :: S) b (Bool :: S)
| T_Comparison b t S : is_comparison b = true -> SignatureToken.is_integer t = true ->
    instr_typed (t :: t :: S) b (Bool :: S)
| T_Struct d args S b S' : struct_rule d args S S' b -> instr_typed S b S'
| T_Vector t S b S' : vector_rule t S S' b -> instr_typed S b S'.
End rules.
