(* ===== verification/TypeSafetyTheorems.v ===== *)
(** The properties of the type checker of type_safety.rs: it accepts an instruction on a
    stack of types exactly when the typing rules do, with the same stack after it, apart
    from [VecPack]; and every instruction that control reaches in a body it accepts is
    well typed, on the same stack of types along every path. *)
From S2P Require Import Prelude StatusCode Abilities Identifier FileFormat BinaryCommon Uleb WellFormed Access.
From S2P Require Import BoundsChecker BoundsSpec BoundsTheorems ControlFlow ControlFlowSpec ControlFlowTheorems.
From S2P Require Import BTree ControlFlowGraph PostOrder ControlFlowGraphTheorems FunctionView GraphLaws.
From S2P Require Import StackUsage StackUsageTheorems SignatureChecker InstructionConsistency TypeSafety.
From S2P Require Import TypingRules.
Import TypeSafety.
Import SignatureToken(Bool, U8, U64, U128, Address, Signer, Vector, Reference, MutableReference).

(** * The steps of the checker *)

Lemma pop_ok S t S' : pop S = Ok (t, S') <-> S = t :: S'.
Proof. destruct S as [|t' S]; cbn; [done|]. split; [by intros [= -> ->]|by intros [= -> ->]]. Qed.

Lemma push_ok t S u S' : push t S = Ok (u, S') <-> S' = t :: S.
Proof. destruct u. unfold push. split; [by intros [= <-]|by intros ->]. Qed.

Lemma error_if_ok b status S u S' : error_if b status S = Ok (u, S') <-> b = false /\ S' = S.
Proof. destruct u, b; cbn; split; [done|by intros []|by intros [= ->]|by intros [_ ->]]. Qed.

Lemma lift_ok {A} (r : R A) (S : types) a S' : st_lift r S = Ok (a, S') <-> r = Ok a /\ S' = S.
Proof. destruct r; cbn; split; try done; try (by intros []); [by intros [= -> ->]|by intros [[= ->] ->]]. Qed.

Lemma mismatch_eq {A} `{EqDecision A} (x y : A) : negb (bool_decide (x = y)) = false -> x = y.
Proof. rewrite negb_false_iff. apply bool_decide_eq_true. Qed.

Lemma mismatch_false {A} `{EqDecision A} (x y : A) : negb (bool_decide (x = y)) = false <-> x = y.
Proof. rewrite negb_false_iff. apply bool_decide_eq_true. Qed.

Lemma pop_types_ok status tys S S' : pop_types status tys S = Ok ((), S') <-> S = tys ++ S'.
Proof.
  revert S. induction tys as [|t tys IH]; intros S; cbn [pop_types].
  - split; [by intros [= ->]|by intros ->].
  - rewrite st_bind_ok. setoid_rewrite pop_ok. setoid_rewrite st_bind_ok. setoid_rewrite error_if_ok.
    setoid_rewrite mismatch_false. setoid_rewrite IH. split.
    + intros (t' & S1 & -> & [] & S2 & [-> ->] & ->). done.
    + intros ->. exists t, (tys ++ S'). split; [done|]. by exists (), (tys ++ S').
Qed.

Lemma pop_args_ok args ps S S' :
  pop_args args ps S = Ok ((), S') <-> exists ts, instance_of args ps ts /\ S = ts ++ S'.
Proof.
  revert S. induction ps as [|p ps IH]; intros S; cbn [pop_args].
  - split; [intros [= ->]; exists []; split; [constructor|done]|].
    intros (ts & Hi & ->). by inversion Hi.
  - rewrite st_bind_ok. setoid_rewrite pop_ok. setoid_rewrite st_bind_ok. setoid_rewrite lift_ok.
    setoid_rewrite st_bind_ok. setoid_rewrite error_if_ok. setoid_rewrite mismatch_false.
    setoid_rewrite IH. split.
    + intros (t & S1 & -> & t' & S2 & [Ht ->] & [] & S3 & [-> ->] & ts & Hi & ->).
      exists (t' :: ts). split; [by constructor|done].
    + intros (ts & Hi & ->). inversion Hi as [|? t ? ts' Ht Hi']; subst.
      exists t, (ts' ++ S'). split; [done|]. exists t, (ts' ++ S'). split; [done|].
      exists (), (ts' ++ S'). split; [done|]. by exists ts'.
Qed.

Lemma push_all ts (S S' : types) : st_for ts push S = Ok ((), S') <-> S' = rev ts ++ S.
Proof.
  revert S. induction ts as [|t ts IH]; intros S; cbn [st_for rev].
  - split; [by intros [= ->]|by intros ->].
  - rewrite st_bind_ok. setoid_rewrite push_ok. setoid_rewrite IH. rewrite <- app_assoc. split.
    + by intros ([] & S1 & -> & ->).
    + intros ->. by exists (), (t :: S).
Qed.

Lemma push_results args rs (S S' : types) :
  st_for rs (fun r => ty ← st_lift (instantiate args r); push ty) S = Ok ((), S') <->
  exists ts, instance_of args rs ts /\ S' = rev ts ++ S.
Proof.
  revert S. induction rs as [|r rs IH]; intros S; cbn [st_for].
  - split; [intros [= ->]; exists []; split; [constructor|done]|].
    intros (ts & Hi & ->). by inversion Hi.
  - rewrite st_bind_ok. setoid_rewrite st_bind_ok. setoid_rewrite lift_ok. setoid_rewrite push_ok.
    setoid_rewrite IH. split.
    + intros ([] & S1 & (t & S2 & [Ht ->] & ->) & ts & Hi & ->). exists (t :: ts).
      split; [by constructor|]. cbn [rev]. by rewrite <- app_assoc.
    + intros (ts & Hi & ->). inversion Hi as [|? t ? ts' Ht Hi']; subst.
      exists (), (t :: S). split; [by exists t, S|]. exists ts'. split; [done|]. cbn [rev].
      by rewrite <- app_assoc.
Qed.

Lemma map_res_forall2 {A B} (f : A -> R B) l ys :
  ModuleAccess.map_res f l = Ok ys <-> Forall2 (fun x y => f x = Ok y) l ys.
Proof.
  revert ys. induction l as [|x l IH]; intros ys; cbn [ModuleAccess.map_res].
  - split; [by intros [= <-]|intros H; by inversion H].
  - rewrite res_bind_ok. setoid_rewrite res_bind_ok. split.
    + intros (y & Hy & ys' & Hys & [= <-]). constructor; [done|by apply IH].
    + intros H. inversion H as [|? y ? ys' Hy Hys]; subst. exists y. split; [done|].
      exists ys'. split; [by apply IH|done].
Qed.

Lemma forall2_rev {A B} (P : A -> B -> Prop) l k : Forall2 P l k -> Forall2 P (rev l) (rev k).
Proof. induction 1 as [|x y l k Hxy _ IH]; cbn; [constructor|]. apply Forall2_app; auto. Qed.

Lemma instance_rev args tys ts : instance_of args (rev tys) (rev ts) <-> instance_of args tys ts.
Proof.
  unfold instance_of. split; [|apply forall2_rev].
  intros H. apply forall2_rev in H. by rewrite !rev_involutive in H.
Qed.

Lemma fields_ok d args ts : type_fields_signature d args = Ok ts <-> field_types d args ts.
Proof.
  unfold type_fields_signature, field_types, instance_of.
  destruct (StructDefinition.field_information d) as [|fields]; [by split; [|intros (? & ? & _)]|].
  etransitivity; [apply map_res_forall2|]. split.
  - intros H. exists fields. split; [done|]. by apply Forall2_fmap_l.
  - intros (fs & [= <-] & H). by apply Forall2_fmap_l in H.
Qed.

Lemma pop_n_ok fuel num S S' :
  (length S < fuel)%nat ->
  pop_n fuel num S = Ok ((), S') <-> exists ts, length ts = Z.to_nat num /\ S = ts ++ S'.
Proof.
  revert num S. induction fuel as [|fuel IH]; intros num S Hf; [lia|]. cbn [pop_n].
  destruct (Z.leb_spec num 0) as [Hn|Hn].
  - split; [intros [= ->]; exists []; split; [simpl; lia|done]|].
    intros ([|] & Hl & ->); [done|simpl in Hl; lia].
  - rewrite st_bind_ok. setoid_rewrite pop_ok. split.
    + intros (t & S1 & -> & H). apply IH in H as (ts & Hl & ->); [|simpl in Hf; lia].
      exists (t :: ts). split; [simpl; lia|done].
    + intros ([|t ts] & Hl & ->); [simpl in Hl; lia|]. exists t, (ts ++ S'). split; [done|].
      apply IH; [simpl in Hf; lia|]. exists ts. split; [simpl in Hl; lia|done].
Qed.

Lemma check_ability_ok v fv has t status S u S' :
  check_ability v fv has t status S = Ok (u, S') <-> type_has v fv has t /\ S' = S.
Proof.
  unfold check_ability, type_has. rewrite st_bind_ok. setoid_rewrite lift_ok.
  setoid_rewrite error_if_ok. setoid_rewrite negb_false_iff. naive_solver.
Qed.

(** Split a run of the checker into its steps, and build one from them. *)
Ltac inv_run :=
  repeat match goal with
  | u : () |- _ => destruct u
  | H : (_ ≫= _) _ = Ok _ |- _ => apply st_bind_ok in H as (? & ? & ? & H)
  | H : pop _ = Ok _ |- _ => apply pop_ok in H; subst
  | H : push _ _ = Ok _ |- _ => apply push_ok in H; subst
  | H : error_if _ _ _ = Ok _ |- _ => apply error_if_ok in H as [? ?]; subst
  | H : error _ _ = Ok _ |- _ => discriminate H
  | H : check_ability _ _ _ _ _ _ = Ok _ |- _ => apply check_ability_ok in H as [? ?]; subst
  | H : st_lift _ _ = Ok _ |- _ => apply lift_ok in H as [? ?]; subst
  | H : mret _ _ = Ok _ |- _ => unfold mret, ST_ret in H; inversion H; clear H; subst
  | H : negb (bool_decide (_ = _)) = false |- _ => apply mismatch_eq in H; subst
  | H : _ && bool_decide (_ = _) = true |- _ =>
    apply andb_true_iff in H as [? H]; apply bool_decide_eq_true in H; subst
  | H : bool_decide (_ = _) = true |- _ => apply bool_decide_eq_true in H; subst
  | H : (if ?b then _ else _) _ = Ok _ |- _ => let E := fresh "E" in destruct b eqn:E; [|discriminate H]
  end.
Ltac step_run :=
  match goal with
  | |- pop _ = Ok _ => by apply pop_ok
  | |- push _ _ = Ok (?u, _) => try unify u (); by apply push_ok
  | |- error_if _ _ _ = Ok (?u, _) =>
    try unify u (); apply error_if_ok; split; [try first [by apply mismatch_false|assumption]|reflexivity]
  | |- check_ability _ _ _ _ _ _ = Ok (?u, _) =>
    try unify u (); apply check_ability_ok; split; [try assumption|reflexivity]
  | |- st_lift _ _ = Ok _ => apply lift_ok; split; [try done|reflexivity]
  | |- mret _ _ = Ok _ => reflexivity
  end.
Ltac run :=
  repeat first [progress step_run
    | match goal with |- (_ ≫= _) _ = Ok _ => apply st_bind_ok; do 2 eexists; split end].

Section operations.
Context (v : BinaryIndexedView) (fv : FunctionView).

Lemma element_type_of_ok op t only S t' S' :
  element_type_of op t only S = Ok (t', S') <->
  t' = t /\ S' = S /\ exists m, (only = true -> m = true) /\ op = reference_to m (Vector t).
Proof.
  unfold element_type_of. split.
  - intros H. destruct (get_vector_element_type op only) as [ty|] eqn:E; [|done]. inv_run.
    split; [done|]. split; [done|]. unfold get_vector_element_type in E.
    destruct op; try done; [destruct only; [done|]|]; destruct op; try done; injection E as ->;
      [by exists false|by exists true].
  - intros (-> & -> & m & Hm & ->). assert (get_vector_element_type (reference_to m (Vector t)) only = Some t)
      as -> by (destruct m, only; try reflexivity; discriminate (Hm eq_refl)). run.
Qed.

(** The operand of a field access is a reference to the expected struct. *)
Lemma operand_ok op expected status S S' :
  match op with
  | Reference inner | MutableReference inner =>
    error_if (negb (bool_decide (expected = inner))) status
  | _ => error status
  end S = Ok ((), S') <-> S' = S /\ exists m, op = reference_to m expected.
Proof.
  split.
  - intros H. destruct op; try discriminate H; inv_run; (split; [done|]); [by exists false|by exists true].
  - intros [-> [m ->]]. destruct m; cbn; step_run.
Qed.

Lemma borrow_field_ok mut_ idx args S S' :
  borrow_field v mut_ idx args S = Ok ((), S') <->
  exists d t m S0, field_at v idx args d t /\ S = reference_to m (struct_type d args) :: S0 /\
    (mut_ = true -> m = true) /\ S' = reference_to mut_ t :: S0.
Proof.
  unfold borrow_field, field_at, struct_type. split.
  - intros H. inv_run. destruct (StructDefinition.field_information _) as [|fields] eqn:Ef in H; [done|].
    inv_run. match goal with H : match _ with _ => _ end _ = Ok _ |- _ => apply operand_ok in H as [-> [m ->]] end.
    match goal with H : unwrap ?o = Ok _ |- _ => destruct o eqn:El; [injection H as ->|discriminate H] end.
    do 2 eexists. exists m. eexists. split; [by do 3 eexists|]. split; [reflexivity|].
    split; [|reflexivity]. intros ->. by destruct m.
  - intros (d & t & m & S0 & (h & fields & f & Hh & Hd & Hf & El & Ht) & -> & Hm & ->). run.
    + destruct mut_; [by rewrite Hm|done].
    + apply operand_ok. split; [reflexivity|by exists m].
    + rewrite Hf. run. by rewrite El.
Qed.

Lemma borrow_loc_ok mut_ idx S S' :
  borrow_loc fv mut_ idx S = Ok ((), S') <->
  exists t, local_type fv idx t /\ SignatureToken.is_reference t = false /\ S' = reference_to mut_ t :: S.
Proof.
  unfold borrow_loc, local_type. split; [intros H; inv_run; by eexists|].
  intros (t & Ht & Hr & ->). run.
Qed.

Lemma borrow_global_ok mut_ idx args S S' :
  borrow_global v fv mut_ idx args S = Ok ((), S') <->
  exists d S0, BinaryIndexedView.struct_def_at v idx = Ok d /\
    type_has v fv AbilitySet.has_key (struct_type d args) /\ S = Address :: S0 /\
    S' = reference_to mut_ (struct_type d args) :: S0.
Proof.
  unfold borrow_global, struct_type. split.
  - intros H. inv_run.
    by do 2 eexists.
  - intros (d & S0 & Hd & Hk & -> & ->). run.
Qed.

Lemma call_ok h args S S' :
  call v h args S = Ok ((), S') <->
  exists ps rs S0, function_type v h args ps rs /\ S = rev ps ++ S0 /\ S' = rev rs ++ S0.
Proof.
  unfold call, function_type. split.
  - intros H. inv_run. match goal with H : pop_args _ _ _ = Ok _ |- _ => apply pop_args_ok in H as (ts & Hi & ->) end.
    apply push_results in H as (rs & Hr & ->). exists (rev ts), rs. eexists. rewrite rev_involutive.
    split; [|done]. do 2 eexists. split; [done|]. split; [done|]. split; [|done].
    apply instance_rev. by rewrite rev_involutive.
  - intros (ps & rs & S0 & (parameters & return_ & Hp & Hr & Hps & Hrs) & -> & ->). run.
    + apply pop_args_ok. exists (rev ps). split; [by apply instance_rev|done].
    + apply push_results. by exists rs.
Qed.

Lemma pack_ok d args S S' :
  pack d args S = Ok ((), S') <->
  exists ts S0, field_types d args ts /\ S = rev ts ++ S0 /\ S' = struct_type d args :: S0.
Proof.
  unfold pack, struct_type. split.
  - intros H. inv_run. match goal with H : pop_types _ _ _ = Ok _ |- _ => apply pop_types_ok in H as -> end.
    do 2 eexists. split; [by apply fields_ok|done].
  - intros (ts & S0 & Hf%fields_ok & -> & ->). run. by apply pop_types_ok.
Qed.

Lemma unpack_ok d args S S' :
  unpack d args S = Ok ((), S') <->
  exists ts S0, field_types d args ts /\ S = struct_type d args :: S0 /\ S' = rev ts ++ S0.
Proof.
  unfold unpack, struct_type. split.
  - intros H. inv_run. apply push_all in H as ->. do 2 eexists. split; [by apply fields_ok|done].
  - intros (ts & S0 & Hf%fields_ok & -> & ->). run. by apply push_all.
Qed.

Lemma exists_ok d args S S' :
  exists_ v fv d args S = Ok ((), S') <->
  exists S0, type_has v fv AbilitySet.has_key (struct_type d args) /\ S = Address :: S0 /\ S' = Bool :: S0.
Proof.
  unfold exists_, struct_type. split.
  - intros H. inv_run.
    by eexists.
  - intros (S0 & Hk & -> & ->). run.
Qed.

Lemma move_from_ok d args S S' :
  move_from v fv d args S = Ok ((), S') <->
  exists S0, type_has v fv AbilitySet.has_key (struct_type d args) /\ S = Address :: S0 /\
    S' = struct_type d args :: S0.
Proof.
  unfold move_from, struct_type. split.
  - intros H. inv_run. by eexists.
  - intros (S0 & Hk & -> & ->). run.
Qed.

Lemma move_to_ok d args S S' :
  move_to v fv d args S = Ok ((), S') <->
  type_has v fv AbilitySet.has_key (struct_type d args) /\
  S = struct_type d args :: Reference Signer :: S'.
Proof.
  unfold move_to, struct_type. split.
  - intros H. inv_run. split; [done|].
    match type of H with match ?o with _ => _ end _ = _ => destruct o; try discriminate H end.
    match type of H with match ?o with _ => _ end _ = _ => destruct o; try discriminate H end. by inv_run.
  - intros (Hk & ->). run.
Qed.

Lemma borrow_vector_ok t only S S' :
  borrow_vector_element t only S = Ok ((), S') <->
  exists m S0, (only = true -> m = true) /\ S = U64 :: reference_to m (Vector t) :: S0 /\
    S' = reference_to only t :: S0.
Proof.
  unfold borrow_vector_element. split.
  - intros H. inv_run. match goal with H : element_type_of _ _ _ _ = Ok _ |- _ =>
      apply element_type_of_ok in H as (-> & -> & m & Hm & ->) end. by exists m; eexists.
  - intros (m & S0 & Hm & -> & ->). run. apply element_type_of_ok. split; [done|]. split; [done|].
    by exists m.
Qed.
End operations.

(** * The checker and the typing rules *)

Section exact.
Context (v : BinaryIndexedView) (fv : FunctionView).

Lemma borrow_global_generic_ok mut_ idx S S' :
  borrow_global_generic v fv mut_ idx S = Ok ((), S') <->
  exists d args S0, instantiation_at v idx d args /\
    type_has v fv AbilitySet.has_key (struct_type d args) /\ S = Address :: S0 /\
    S' = reference_to mut_ (struct_type d args) :: S0.
Proof.
  unfold borrow_global_generic, instantiation_at, struct_inst. split.
  - intros H. inv_run. apply borrow_global_ok in H as (d & S0 & Hd & Hk & -> & ->).
    do 3 eexists. split; [|done]. rewrite H0. cbn [mbind result_bind]. rewrite Hd.
    cbn [mbind result_bind]. by rewrite H1.
  - intros (d & args & S0 & Hi & Hk & -> & ->). inv_ok. run. apply borrow_global_ok. by do 2 eexists.
Qed.

Lemma borrow_field_generic_ok mut_ idx S S' :
  borrow_field_generic v mut_ idx S = Ok ((), S') <->
  exists d args t m S0, field_instance_at v idx d args t /\
    S = reference_to m (struct_type d args) :: S0 /\ (mut_ = true -> m = true) /\
    S' = reference_to mut_ t :: S0.
Proof.
  unfold borrow_field_generic, field_instance_at. split.
  - intros H. inv_run. apply borrow_field_ok in H as (d & t & m & S0 & Hf & -> & Hm & ->).
    do 5 eexists. split; [by eexists|done].
  - intros (d & args & t & m & S0 & (i & Hi & Ha & Hf) & -> & Hm & ->). run.
    apply borrow_field_ok. by exists d, t, m, S0.
Qed.

Ltac inv_ops :=
  inv_run; repeat (match goal with
  | H : match ?p with pair _ _ => _ end _ = Ok _ |- _ => destruct p
  | H : pop_types _ _ _ = Ok _ |- _ => apply pop_types_ok in H as ->
  | H : call _ _ _ _ = Ok _ |- _ => apply call_ok in H as (? & ? & ? & ? & -> & ->)
  | H : pack _ _ _ = Ok _ |- _ => apply pack_ok in H as (? & ? & ? & -> & ->)
  | H : unpack _ _ _ = Ok _ |- _ => apply unpack_ok in H as (? & ? & ? & -> & ->)
  | H : exists_ _ _ _ _ _ = Ok _ |- _ => apply exists_ok in H as (? & ? & -> & ->)
  | H : move_from _ _ _ _ _ = Ok _ |- _ => apply move_from_ok in H as (? & ? & -> & ->)
  | H : move_to _ _ _ _ _ = Ok _ |- _ => apply move_to_ok in H as (? & ->)
  | H : borrow_loc _ _ _ _ = Ok _ |- _ => apply borrow_loc_ok in H as (? & ? & ? & ->)
  | H : borrow_global _ _ _ _ _ _ = Ok _ |- _ =>
    apply borrow_global_ok in H as (? & ? & ? & ? & -> & ->)
  | H : borrow_global_generic _ _ _ _ _ = Ok _ |- _ =>
    apply borrow_global_generic_ok in H as (? & ? & ? & ? & ? & -> & ->)
  | H : borrow_field _ _ _ _ _ = Ok _ |- _ =>
    apply borrow_field_ok in H as (? & ? & m & ? & ? & -> & Hm & ->)
  | H : borrow_field_generic _ _ _ _ = Ok _ |- _ =>
    apply borrow_field_generic_ok in H as (? & ? & ? & m & ? & ? & -> & Hm & ->)
  | H : element_type_of _ _ _ _ = Ok _ |- _ =>
    apply element_type_of_ok in H as (? & ? & m & Hm & ?); subst
  | H : borrow_vector_element _ _ _ = Ok _ |- _ =>
    apply borrow_vector_ok in H as (m & ? & Hm & -> & ->)
  | H : pop_n _ _ _ = Ok _ |- _ => apply pop_n_ok in H as (? & ? & ->); [|lia]
  | H : push_n _ _ _ = Ok _ |- _ => injection H as <-
  end; inv_run); repeat match goal with Hm : true = true -> _ |- _ => rewrite (Hm eq_refl) in *; clear Hm end.

Ltac rule :=
  first [by econstructor | by eapply T_Arith | by eapply T_Shift | by eapply T_Logic
    | by eapply T_Equality | by eapply T_Comparison | eapply T_Struct; by econstructor
    | eapply T_Vector; by econstructor].

(** What the checker accepts is well typed; [VecPack] of one element or more is not
    covered. *)
Lemma accepted_typed b S S' :
  (forall idx num, b = Bytecode.VecPack idx num -> num <= 0) ->
  verify_instr v fv b S = Ok ((), S') -> instr_typed v fv S b S'.
Proof.
  intros Hvec H. destruct b; cbn [verify_instr] in H; unfold cast in H; inv_ops; bool_hyps; try rule.
  - constructor. by eexists.
  - constructor. by do 3 eexists.
  - destruct x; try discriminate H; inv_run;
      [by apply (T_ReadRef v fv false)|by apply (T_ReadRef v fv true)].
  - destruct x; try discriminate H; inv_run. by constructor.
  - destruct x; try discriminate H; inv_run. by constructor.
  - apply T_Equality; [done|by eexists].
  - apply T_Equality; [done|by eexists].
  - pose proof (Hvec _ _ eq_refl). replace (Z.to_nat n) with 0%nat in * by lia.
    match goal with H : length ?l = 0%nat |- _ => destruct l; [|discriminate H] end.
    apply (T_Vector v fv x). replace (x2) with (repeat x (Z.to_nat n) ++ x2) at 1 by (by replace (Z.to_nat n) with 0%nat by lia).
    by constructor.
  - inv_run. rule.
Qed.

(** What is well typed is accepted. *)
Lemma struct_rule_accepted d args S S' b :
  struct_rule v fv d args S S' b -> verify_instr v fv b S = Ok ((), S').
Proof.
  destruct 1; cbn [verify_instr];
    repeat match goal with
    | H : definition_at _ _ _ _ |- _ => destruct H as [? ->]
    | H : args = [] |- _ => subst args
    end; run;
    try (first [apply pack_ok|apply unpack_ok|apply exists_ok|apply move_from_ok
      |apply borrow_global_ok|apply borrow_global_generic_ok];
      first [by eexists|by do 2 eexists|by do 3 eexists]);
    try (by apply move_to_ok).
  - apply borrow_field_ok. by exists d, t, true, S.
  - apply borrow_field_generic_ok. by exists d, args, t, true, S.
  - apply borrow_field_ok. by exists d, t, mut_, S.
  - apply borrow_field_generic_ok. by exists d, args, t, mut_, S.
Qed.

Lemma vector_rule_accepted t S S' b : vector_rule v t S S' b -> verify_instr v fv b S = Ok ((), S').
Proof.
  destruct 1; cbn [verify_instr]; run;
    try (apply element_type_of_ok; split; [done|]; split; [done|]; first [by exists true|match goal with m : bool |- _ => by exists m end]);
    try (apply borrow_vector_ok; first [by exists true, S|match goal with m : bool |- _ => by exists m, S end]).
  - apply pop_n_ok; [lia|]. exists (repeat t (Z.to_nat num)). by rewrite repeat_length.
  - done.
Qed.

Lemma typed_accepted b S S' : instr_typed v fv S b S' -> verify_instr v fv b S = Ok ((), S').
Proof.
  intros H. destruct H;
    repeat match goal with
    | H : function_at _ _ _ _ |- _ => destruct H as (h & ? & ?)
    | H : function_instance_at _ _ _ _ |- _ => destruct H as (i & h & args & ? & ? & ? & ?)
    | H : is_arith ?b = true |- _ => destruct b; try discriminate H; clear H
    | H : is_shift ?b = true |- _ => destruct b; try discriminate H; clear H
    | H : is_logic ?b = true |- _ => destruct b; try discriminate H; clear H
    | H : is_equality ?b = true, H' : type_has _ _ _ _ |- _ =>
      destruct b; try discriminate H; clear H; destruct H' as (a & ? & Ha)
    | H : is_comparison ?b = true |- _ => destruct b; try discriminate H; clear H
    | H : SignatureToken.is_integer ?t = true |- _ => destruct t; try discriminate H; clear H
    | mut_ : bool |- _ => destruct mut_
    end;
    cbn [verify_instr reference_to]; unfold cast;
    try (by eapply struct_rule_accepted); try (by eapply vector_rule_accepted); run;
    try reflexivity; try (apply call_ok; by do 3 eexists); try (apply borrow_loc_ok; by eexists).
  - by apply pop_types_ok.
  - cbv beta match. run.
  - cbv beta match. run.
  - by rewrite Ha, bool_decide_true.
  - by rewrite Ha, bool_decide_true.
Qed.

(** [VecPack] as the checker has it: any operands. *)
Lemma vec_pack_accepted idx num S S' :
  verify_instr v fv (Bytecode.VecPack idx num) S = Ok ((), S') <->
  exists t ts S0, element_type v idx t /\ length ts = Z.to_nat num /\ S = ts ++ S0 /\ S' = Vector t :: S0.
Proof.
  cbn [verify_instr]. split.
  - intros H. inv_ops. by do 3 eexists.
  - intros (t & ts & S0 & Ht & Hl & -> & ->). run. apply pop_n_ok; [lia|]. by exists ts.
Qed.

(** ** The height of the stack *)

Abbreviation effect b := (StackUsageVerifier.instruction_effect (verifier_of v fv) b).

Lemma function_type_effect h args ps rs :
  function_type v h args ps rs -> exists parameters return_,
    BinaryIndexedView.signature_at v h.(FunctionHandle.parameters) = Ok parameters /\
    BinaryIndexedView.signature_at v h.(FunctionHandle.return_) = Ok return_ /\
    length parameters = length ps /\ length return_ = length rs.
Proof.
  intros (parameters & return_ & Hp & Hr & Hps%Forall2_length & Hrs%Forall2_length).
  by exists parameters, return_.
Qed.

Lemma field_types_count d args ts : field_types d args ts -> StackUsageVerifier.field_count d = zlen ts.
Proof.
  intros (fields & Hd & Hf%Forall2_length). unfold StackUsageVerifier.field_count. rewrite Hd.
  by rewrite length_map in Hf; rewrite Hf.
Qed.

(** The stack that an accepted instruction leaves has the height that the stack usage
    verifier computes. *)
Definition same_height (S S' : types) (b : Bytecode) : Prop :=
  exists p q, effect b = Ok (p, q) /\ zlen S' = zlen S - p + q.

Lemma struct_inst_effect idx d args (k : StructDefinition -> result StatusCode (Z * Z)) :
  instantiation_at v idx d args ->
  (i ← BinaryIndexedView.struct_instantiation_at v idx;
   d ← BinaryIndexedView.struct_def_at v i.(StructDefInstantiation.def); k d) = k d.
Proof.
  unfold instantiation_at, struct_inst. intros H. inv_ok.
  rewrite H0. cbn [mbind result_bind]. by rewrite H1.
Qed.

Lemma struct_rule_height d args S S' b : struct_rule v fv d args S S' b -> same_height S S' b.
Proof.
  destruct 1; unfold same_height; cbn;
    repeat match goal with H : definition_at _ _ _ _ |- _ => destruct H as [Hd _]; rewrite Hd end;
    try (erewrite struct_inst_effect by eassumption); cbn [mbind result_bind];
    try match goal with H : field_types _ _ _ |- _ => rewrite (field_types_count _ _ _ H) end;
    do 2 eexists; (split; [reflexivity|]); rewrite ?length_app, ?length_rev; cbn [length]; lia.
Qed.

Lemma vector_rule_height t S S' b :
  wf_bytecode b = true -> vector_rule v t S S' b -> same_height S S' b.
Proof.
  intros Hw Hr. destruct Hr; unfold same_height; cbn; do 2 eexists; (split; [reflexivity|]);
    unfold wf_bytecode in Hw; bool_hyps; rewrite ?length_app, ?repeat_length; cbn [length]; 
    try match goal with H : in_range _ _ = true |- _ => apply in_range_spec in H end; lia.
Qed.

Lemma typed_height b S S' : wf_bytecode b = true -> instr_typed v fv S b S' -> same_height S S' b.
Proof.
  intros Hw H. destruct H; try (by eapply struct_rule_height); try (by eapply vector_rule_height);
    unfold same_height; 
    repeat match goal with
    | H : function_at _ _ _ _ |- _ =>
      destruct H as (h & Hh & (parameters & return_ & Hp & Hr & E1 & E2)%function_type_effect)
    | H : function_instance_at _ _ _ _ |- _ =>
      destruct H as (i & h & args & Hi & Hh & _ & (parameters & return_ & Hp & Hr & E1 & E2)%function_type_effect)
    | H : is_arith ?b = true |- _ => destruct b; try discriminate H; clear H
    | H : is_shift ?b = true |- _ => destruct b; try discriminate H; clear H
    | H : is_logic ?b = true |- _ => destruct b; try discriminate H; clear H
    | H : is_equality ?b = true |- _ => destruct b; try discriminate H; clear H
    | H : is_comparison ?b = true |- _ => destruct b; try discriminate H; clear H
    end; cbn; unfold StackUsageVerifier.call_effect; cbn [StackUsageVerifier.resolver verifier_of];
    repeat match goal with H : _ = Ok _ |- _ => rewrite H; cbn [mbind result_bind] end;
    do 2 eexists; (split; [reflexivity|]); rewrite ?length_app, ?length_rev; cbn [length]; lia.
Qed.

Lemma accepted_height b S S' :
  wf_bytecode b = true -> verify_instr v fv b S = Ok ((), S') -> same_height S S' b.
Proof.
  intros Hw H.
  assert ((exists idx num, b = Bytecode.VecPack idx num) \/ (forall idx num, b <> Bytecode.VecPack idx num))
    as [(idx & num & ->)|Hn] by (destruct b; naive_solver).
  - apply vec_pack_accepted in H as (t & ts & S0 & _ & Hl & -> & ->). exists num, 1. split; [done|].
    unfold wf_bytecode in Hw. bool_hyps.
    match goal with H : in_range _ num = true |- _ => apply in_range_spec in H end.
    rewrite length_app, Hl. cbn [length]. lia.
  - apply typed_height; [done|]. apply accepted_typed; [|done]. naive_solver.
Qed.
End exact.

(** * Paths *)

(** [types_at pc S]: some path reaches the instruction at [pc] with values of the types
    [S] on the stack; every instruction before it was well typed. *)
Inductive types_at (v : BinaryIndexedView) (fv : FunctionView) : Z -> types -> Prop :=
| types_entry : types_at v fv 0 []
| types_step pc S b S' s :
    types_at v fv pc S -> fv.(FunctionView.code).(CodeUnit.code) !! Z.to_nat pc = Some b ->
    instr_typed v fv S b S' -> successor fv.(FunctionView.code).(CodeUnit.code) pc b s ->
    types_at v fv s S'.

Section sound.
Context (v : BinaryIndexedView) (fv : FunctionView) (order : list BlockId).
Abbreviation body := (fv.(FunctionView.code).(CodeUnit.code)).
Abbreviation g := (fv.(FunctionView.cfg)).
Abbreviation self := (verifier_of v fv).
Context `{HG : GraphLaws body g order}.
Hypothesis Hwf : Forall (fun b => wf_bytecode b = true) body.
Hypothesis Hheight : forall id, id ∈ VMControlFlowGraph.block_ids g ->
  StackUsageVerifier.verify_block self g id = Ok ().
Hypothesis Hok : TypeSafety.verify v fv = Ok ().

(** One instruction, on the stack of types. *)
Definition step_types (pc : Z) (S : types) : option types :=
  match verify_offset v fv pc S with Ok (_, S') => Some S' | _ => None end.

Lemma step_types_ok pc S S' :
  step_types pc S = Some S' <-> exists b, body !! Z.to_nat pc = Some b /\ verify_instr v fv b S = Ok ((), S').
Proof.
  clear. unfold step_types, verify_offset. unfold mbind, ST_bind.
  destruct (body !! Z.to_nat pc) as [b|]; cbn [unwrap st_lift]; [|by split; [|intros (? & ? & _)]].
  split.
  - intros H. exists b. split; [done|]. destruct (verify_instr v fv b S) as [[[] S1]| | |]; congruence.
  - by intros (? & [= <-] & ->).
Qed.

Lemma run_exec l S S' : st_for l (verify_offset v fv) S = Ok ((), S') -> exec_all step_types l S = Some S'.
Proof.
  clear. revert S. induction l as [|pc l IH]; intros S H; cbn [st_for] in H; [by inv_run|].
  inv_run. cbn [exec_all].
  assert (step_types pc S = Some x0) as -> by (unfold step_types; by rewrite H0). by apply IH.
Qed.

(** Both passes go through a block together. *)
Lemma run_heights l S S' h h' :
  exec_all step_types l S = Some S' -> exec_all (step_height self) l h = Some h' ->
  h = zlen S -> h' = zlen S'.
Proof using Hwf.
  clear -Hwf. revert S h. induction l as [|pc l IH]; intros S h; cbn [exec_all]; [by intros [= ->] [= ->]|].
  destruct (step_types pc S) as [S1|] eqn:E1; [|done]. destruct (step_height self pc h) as [h1|] eqn:E2; [|done].
  cbn [mbind option_bind]. intros H1 H2 ->. eapply IH; [exact H1|exact H2|].
  apply step_types_ok in E1 as (b & Hb & Hv). apply step_height_ok in E2 as (b' & p & q & Hb' & He & _ & -> & _).
  pose proof (eq_trans (eq_sym Hb) Hb') as [= <-].
  destruct (accepted_height v fv b S S1) as (p' & q' & He' & ->); [by eapply (forall_lookup _ _ _ _ Hwf)|done|].
  rewrite He in He'. injection He' as <- <-. lia.
Qed.

Lemma verify_block_run id S S' :
  verify_block v fv id S = Ok ((), S') -> exists bb, BTreeMap.get id g.(VMControlFlowGraph.blocks) = Some bb /\
    exec_all step_types (seqZ id (bb.(BasicBlock.exit) - id + 1)) S = Some S'.
Proof.
  clear. unfold verify_block, VMControlFlowGraph.instr_indexes, VMControlFlowGraph.block_end. intros H.
  destruct (BTreeMap.get id _) as [bb|]; [|done]. exists bb. split; [done|].
  cbn [unwrap mbind result_bind] in H. inv_run.
  match goal with H : Ok _ = Ok _ |- _ => injection H as <- end. by apply run_exec.
Qed.

(** Every block starts and ends with the empty stack. *)
Lemma verify_all ids :
  (forall id, id ∈ ids -> id ∈ VMControlFlowGraph.block_ids g) ->
  forall u S', st_for ids (verify_block v fv) [] = Ok (u, S') -> Forall (fun id => exists bb,
    BTreeMap.get id g.(VMControlFlowGraph.blocks) = Some bb /\
    exec_all step_types (seqZ id (bb.(BasicBlock.exit) - id + 1)) [] = Some []) ids.
Proof using Hwf Hheight.
  clear -Hwf Hheight. intros Hin u S'. induction ids as [|id ids IH]; intros H; [constructor|].
  cbn [st_for] in H. inv_run.
  match goal with H : verify_block _ _ _ _ = Ok _ |- _ => apply verify_block_run in H as (bb & Hg & Hr) end.
  assert (x0 = []) as ->.
  { destruct x0 as [|t x0]; [done|exfalso]. pose proof (block_run self g Hheight id bb Hg) as Hh.
    pose proof (run_heights _ _ _ _ _ Hr Hh eq_refl) as E. simpl in E. lia. }
  constructor; [by exists bb|]. apply IH; [|done]. intros id' Hid. apply Hin. by right.
Qed.

Lemma types_run id bb :
  BTreeMap.get id g.(VMControlFlowGraph.blocks) = Some bb ->
  exec_all step_types (seqZ id (bb.(BasicBlock.exit) - id + 1)) [] = Some [].
Proof using Hwf Hheight Hok.
  intros Hg. unfold TypeSafety.verify in Hok. inv_ok. destruct x as [u S'].
  assert (Forall (fun id => exists bb, BTreeMap.get id g.(VMControlFlowGraph.blocks) = Some bb /\
    exec_all step_types (seqZ id (bb.(BasicBlock.exit) - id + 1)) [] = Some [])
    (VMControlFlowGraph.block_ids g)) as Hall by (by eapply verify_all).
  rewrite Forall_forall in Hall. destruct (Hall id) as (bb' & Hg' & Hr).
  - apply list_elem_of_In, BTreeMap.elem_of_keys. by exists bb.
  - rewrite Hg in Hg'. by injection Hg' as <-.
Qed.

Abbreviation stack_at := (state_at step_types g []).

Lemma types_stack pc S : types_at v fv pc S -> stack_at pc S.
Proof using HG Hwf Hheight Hok.
  induction 1 as [|pc S b S' s _ IH Hb Ht Hs]; [by apply (state_at_entry _ body g order)|].
  eapply (state_at_step _ body g order [] types_run); [exact IH|exact Hb| |exact Hs].
  apply step_types_ok. exists b. split; [done|]. by apply typed_accepted.
Qed.

Lemma stack_at_typed pc S :
  stack_at pc S -> exists b S', body !! Z.to_nat pc = Some b /\ verify_instr v fv b S = Ok ((), S') /\
    (b = Bytecode.Ret -> S = rev fv.(FunctionView.return_)).
Proof using HG Hwf Hheight Hok.
  intros HS. pose proof HS as (_ & S' & _ & (b & Hb & Hv)%step_types_ok & _)%(
    state_at_exec _ body g order [] types_run).
  exists b, S'. split; [done|]. split; [done|]. intros ->.
  pose proof (state_at_branch _ body g order [] types_run pc S _ HS Hb eq_refl) as (b1 & Hb1 & Hv1)%step_types_ok.
  rewrite Hb in Hb1. injection Hb1 as <-. cbn [verify_instr] in Hv1. apply pop_types_ok in Hv1 as ->.
  by rewrite app_nil_r.
Qed.
End sound.

(** C6: the type discipline of an accepted body.  Whichever path control takes to an
    instruction of a body that the stack usage verifier and the type checker accept, the
    values on the stack there have the same types, and the instruction is well typed on
    them, unless it packs a vector of one element or more; a return finds exactly the
    results of the function. *)
Theorem type_safety_sound (v : BinaryIndexedView) (fv : FunctionView) (pc : Z) (S : types) :
  checked_view v fv -> StackUsageVerifier.verify v fv = Ok () -> TypeSafety.verify v fv = Ok () ->
  types_at v fv pc S ->
  exists b, fv.(FunctionView.code).(CodeUnit.code) !! Z.to_nat pc = Some b /\
    ((forall idx num, b = Bytecode.VecPack idx num -> num <= 0) -> exists S', instr_typed v fv S b S') /\
    (b = Bytecode.Ret -> S = rev fv.(FunctionView.return_)) /\
    forall S2, types_at v fv pc S2 -> S2 = S.
Proof.
  intros [_ [order HG] _ Hwf _]%checked_view_ok Hh Ht Hp. pose proof (verify_blocks v fv Hh) as Hb.
  pose proof (types_stack v fv order Hwf Hb Ht pc S Hp) as HS.
  destruct (stack_at_typed v fv order Hwf Hb Ht pc S HS) as (b & S' & Hc & Hv & Hr).
  exists b. split; [done|]. split; [intros Hn; exists S'; by apply accepted_typed|]. split; [done|].
  intros S2 Hp2. eapply (state_at_unique _ _ _ order); [|exact HS]. by eapply types_stack.
Qed.

Abbreviation vector_unit := (BinaryIndexedView.Module_ vector_module).

Lemma vector_view_types : types_at vector_unit vector_view 5 [U64].
Proof.
  apply (types_step _ _ 4 [] (Bytecode.LdU64 2) [U64] 5);
    [|reflexivity|constructor|right; split; [done|]; split; [vm_compute; reflexivity|done]].
  apply (types_step _ _ 1 [Bool] (Bytecode.BrTrue 4) [] 4); [|reflexivity|constructor|by left].
  apply (types_step _ _ 0 [] Bytecode.LdTrue [Bool] 1); [constructor|reflexivity|constructor|].
  right. split; [done|]. split; [vm_compute; reflexivity|done].
Qed.

Lemma type_safety_sound_witness :
  exists b, vector_body !! 5%nat = Some b /\
    ((forall idx num, b = Bytecode.VecPack idx num -> num <= 0) ->
     exists S', instr_typed vector_unit vector_view [U64] b S').
Proof.
  destruct (type_safety_sound vector_unit vector_view 5 [U64]) as (b & Hb & Ht & _);
    [apply vector_view_checked|vm_compute; reflexivity|vm_compute; reflexivity|apply vector_view_types|].
  exists b. split; [exact Hb|exact Ht].
Defined.

(** C29: the checker decides the typing rules.  On every instruction other than a
    [VecPack] of one element or more, and every stack of types, [verify_instr] succeeds
    exactly if a rule applies, and leaves the stack of the rule. *)
Theorem verify_instr_exact (v : BinaryIndexedView) (fv : FunctionView) (b : Bytecode) (S S' : types) :
  (forall idx num, b = Bytecode.VecPack idx num -> num <= 0) ->
  verify_instr v fv b S = Ok ((), S') <-> instr_typed v fv S b S'.
Proof. intros Hn. split; [by apply accepted_typed|apply typed_accepted]. Qed.

Lemma verify_instr_exact_witness :
  instr_typed vector_unit vector_view [U64; U64] Bytecode.Add [U64].
Proof. apply verify_instr_exact; [discriminate|reflexivity]. Defined.

(** A function that packs a boolean into a vector of numbers, and returns it. *)
Definition confused_body : list Bytecode := [Bytecode.LdTrue; Bytecode.VecPack 2 1; Bytecode.Ret].
Definition confused_handle : FunctionHandle := FunctionHandle.mk 0 0 0 1 [].
Definition confused_module : CompiledModule :=
  CompiledModule.mk VERSION_MAX 0 [ModuleHandle.mk 0 0] [] [confused_handle]
    [] [] [] [] [] [[]; [Vector U64]; [U64]]
    [Identifier.self_bytes] [AccountAddress_ZERO] [] []
    [FunctionDefinition.mk 0 Visibility.Private [] (Some (CodeUnit.mk 0 confused_body))].
Abbreviation confused_unit := (BinaryIndexedView.Module_ confused_module).

(** C39: [VecPack] does not look at its operands.  A function that packs [true] into a
    [vector<u64>] passes every check up to and including type safety, and it gets to the
    [VecPack] with a boolean on the stack, on which no rule applies. *)
Theorem vec_pack_operands_unchecked :
  wf_module confused_module = true /\ BoundsChecker.verify_module confused_module = Ok () /\
  SignatureChecker.verify_module_impl confused_module = Ok () /\
  InstructionConsistency.verify_module_impl confused_module = Ok () /\
  ControlFlow.verify (Some 0) (CodeUnit.mk 0 confused_body) = Ok () /\
  exists fv, FunctionView.function confused_module 0 (CodeUnit.mk 0 confused_body) confused_handle = Ok fv /\
    StackUsageVerifier.verify confused_unit fv = Ok () /\ TypeSafety.verify confused_unit fv = Ok () /\
    types_at confused_unit fv 1 [Bool] /\
    ~ exists S', instr_typed confused_unit fv [Bool] (Bytecode.VecPack 2 1) S'.
Proof.
  do 5 (split; [vm_compute; reflexivity|]). eexists. split; [vm_compute; reflexivity|].
  split; [vm_compute; reflexivity|]. split; [vm_compute; reflexivity|]. split.
  - apply (types_step _ _ 0 [] Bytecode.LdTrue [Bool] 1); [constructor|reflexivity|constructor|].
    right. split; [done|]. split; [vm_compute; reflexivity|done].
  - intros (S' & H). inversion H; subst; try discriminate;
      match goal with H : struct_rule _ _ _ _ _ _ _ |- _ => inversion H | H : vector_rule _ _ _ _ _ |- _ => inversion H end.
    subst. match goal with H : element_type _ _ _ |- _ => vm_compute in H; injection H as <- end.
    match goal with H : repeat _ _ ++ _ = _ |- _ => discriminate H end.
Qed.
