(* ===== verification/TypeSafetyTotal.v ===== *)
(** The type checker of type_safety.rs does not panic, after the passes that run before
    it: bounds, signatures, instruction consistency, constants, control flow and stack
    usage.  Each is needed: the stack is as high as the pops need, type arguments match
    type parameters, and every type on the stack is in bounds. *)
From S2P Require Import Prelude StatusCode Abilities Identifier FileFormat BinaryCommon Uleb WellFormed Access.
From S2P Require Import BoundsChecker BoundsSpec BoundsTheorems ControlFlow ControlFlowSpec ControlFlowTheorems.
From S2P Require Import BTree ControlFlowGraph PostOrder ControlFlowGraphTheorems FunctionView GraphLaws.
From S2P Require Import StackUsage StackUsageTheorems SignatureChecker InstructionConsistency Constants.
From S2P Require Import TypeSafety TypingRules TypeSafetyTheorems.
Import TypeSafety.
Import SignatureToken(Bool, U8, U64, U128, Address, Signer, Vector, Reference, MutableReference).

(** * Types in scope *)

Section scoped.
Context (v : BinaryIndexedView) (n : nat).
Abbreviation scoped := (scoped v n).

Lemma scoped_base t :
  SignatureToken.is_integer t = true \/ t = Bool \/ t = Address \/ t = Signer -> scoped t.
Proof.
  intros Ht. destruct t; try (by destruct Ht as [|[|[|]]]); (split; [constructor|apply params_ok_node; done]).
Qed.

Lemma scoped_vector t : scoped (Vector t) <-> scoped t.
Proof.
  split.
  - intros [Ht Hp]. inversion Ht; subst. apply params_ok_children in Hp; [|done].
    apply Forall_cons_iff in Hp as [Hp _]. by split.
  - intros [Ht Hp]. split; [by constructor|]. apply params_ok_node; [done|]. by apply List.Forall_cons.
Qed.

Lemma scoped_reference m t : scoped (reference_to m t) <-> scoped t.
Proof.
  destruct m; (split;
    [intros [Ht Hp]; inversion Ht; subst; apply params_ok_children in Hp; [|done];
     apply Forall_cons_iff in Hp as [Hp _]; by split
    |intros [Ht Hp]; split; [by constructor|]; apply params_ok_node; [done|]; by apply List.Forall_cons]).
Qed.

(** Type arguments in scope turn a type over as many parameters into one in scope. *)
Lemma instantiate_scoped args t :
  Forall scoped args -> type_ok v t -> params_ok (length args) t ->
  exists t', instantiate args t = Ok t' /\ scoped t'.
Proof.
  intros Ha. induction t as [ | | | | | |tok IH|idx|idx toks IH|tok IH|tok IH|idx]
    using SignatureToken.token_ind; intros Ht Hp; cbn [instantiate];
    try (eexists; split; [reflexivity|]; apply scoped_base; cbn; tauto).
  1, 4, 5: inversion Ht; subst; apply params_ok_children in Hp; [|done];
    apply Forall_cons_iff in Hp as [Hp _]; destruct IH as (t' & -> & Ht'); [done..|];
    eexists; split; [reflexivity|].
  - by apply scoped_vector.
  - by apply (scoped_reference false).
  - by apply (scoped_reference true).
  - eexists. split; [reflexivity|]. split; [done|]. by apply params_ok_node.
  - inversion Ht as [| | | | | | | | | | |? ? sh E Hn Hts]; subst.
    apply params_ok_children in Hp; [|done]. cbn [TokenCodec.children] in Hp.
    match goal with |- context [?go toks ≫= _] =>
      assert (exists l, go toks = Ok l /\ length l = length toks /\ Forall scoped l) as (l & -> & Hlen & Hl) end.
    { clear E Hn Ht. induction IH as [|x toks Hx Hxs IHl]; [by exists []|].
      apply Forall_cons_iff in Hts as [Htx Hts]. apply Forall_cons_iff in Hp as [Hpx Hp].
      destruct (Hx Htx Hpx) as (t' & -> & Ht'). cbn [mbind result_bind].
      destruct (IHl Hp Hts) as (l & -> & Hl & Hs). exists (t' :: l). cbn. rewrite Hl. split; [done|].
      split; [done|by constructor]. }
    cbn [mbind result_bind]. eexists. split; [reflexivity|]. split.
    + eapply type_ok_inst; [exact E|congruence|]. eapply List.Forall_impl; [|exact Hl]. by intros ? [? _].
    + apply params_ok_node; [done|]. cbn. eapply List.Forall_impl; [|exact Hl]. by intros ? [_ ?].
  - inversion Hp as [? Hi|? Hne]; subst; [|by destruct (Hne idx)]. unfold into_index in Hi.
    unfold debug_assert. rewrite (proj2 (Nat.ltb_lt _ _) Hi). cbn [mbind result_bind].
    destruct (lookup_lt_is_Some_2 args (Z.to_nat idx) Hi) as [t Et]. exists t.
    split; [exact (f_equal unwrap Et)|]. by eapply (forall_lookup _ _ _ _ Ha).
Qed.

Lemma instances_scoped args ts :
  Forall scoped args -> Forall (type_ok v) ts -> Forall (params_ok (length args)) ts ->
  exists ts', instance_of args ts ts' /\ Forall scoped ts'.
Proof.
  intros Ha Ht Hp. induction ts as [|t ts IH]; [exists []; split; constructor|].
  apply Forall_cons_iff in Ht as [Ht Hts]. apply Forall_cons_iff in Hp as [Hp Hps].
  destruct (instantiate_scoped args t Ha Ht Hp) as (t' & E & Hs). destruct (IH Hts Hps) as (ts' & Hi & Hss).
  exists (t' :: ts'). split; [by constructor|by constructor].
Qed.
End scoped.

(** * The tables of a view *)

Section tables.
Context (v : BinaryIndexedView) (Hin : in_bounds v).

Lemma signature_at_inv idx sig :
  BinaryIndexedView.signature_at v idx = Ok sig -> BinaryIndexedView.signatures v !! into_index idx = Some sig.
Proof.
  clear Hin. destruct v as [m|s]; cbn; unfold ModuleAccess.signature_at, ScriptAccess.signature_at, index;
    match goal with |- unwrap ?o = _ -> _ => destruct o end; by intros [= ->].
Qed.

Lemma struct_def_at_inv idx d :
  BinaryIndexedView.struct_def_at v idx = Ok d -> struct_def_ok v d.
Proof.
  intros H. pose proof (struct_defs_in _ Hin) as Hd. destruct v as [m|s]; [|done]. cbn in H, Hd.
  unfold ModuleAccess.struct_def_at, index in H. destruct (_ !! _) eqn:E in H; [|done].
  injection H as ->. by eapply (forall_lookup _ _ _ _ Hd).
Qed.

Lemma struct_handle_at_inv idx sh :
  BinaryIndexedView.struct_handle_at v idx = Ok sh ->
  BinaryIndexedView.struct_handles v !! into_index idx = Some sh.
Proof.
  clear Hin. destruct v as [m|s]; cbn; unfold ModuleAccess.struct_handle_at, ScriptAccess.struct_handle_at, index;
    match goal with |- context [unwrap ?o] => destruct o end; try done; cbn [unwrap mbind result_bind].
  - destruct (in_pool _ _); [by intros [= ->]|done].
  - by intros [= ->].
Qed.

Lemma function_handle_at_inv idx h :
  BinaryIndexedView.function_handle_at v idx = Ok h -> function_handle_ok v h.
Proof.
  intros H. assert (exists i, BinaryIndexedView.function_handles v !! i = Some h) as [i Hi].
  { exists (into_index idx). clear Hin. revert H. destruct v as [m|s]; cbn;
      unfold ModuleAccess.function_handle_at, ScriptAccess.function_handle_at, index;
      match goal with |- context [unwrap ?o] => destruct o end; try done; cbn [unwrap mbind result_bind];
      intros H; inv_ok; try done; repeat match goal with H : (if ?b then _ else _) = Ok _ |- _ => destruct b; [|done] end;
      inv_ok; congruence. }
  by eapply (forall_lookup _ _ _ _ (function_handles_in _ Hin)).
Qed.
End tables.

(** * Structs with their type arguments *)

Section ready.
Context (v : BinaryIndexedView) (Hin : in_bounds v) (n : nat).

(** The type arguments [args] fit the struct [d]. *)
Definition struct_ready (d : StructDefinition) (args : Signature) : Prop :=
  struct_def_ok v d /\ Forall (scoped v n) args /\
  exists sh, BinaryIndexedView.struct_handles v !! into_index d.(StructDefinition.struct_handle) = Some sh /\
    length args = length sh.(StructHandle.type_parameters).

Lemma ready_type d args : struct_ready d args -> scoped v n (struct_type d args).
Proof.
  intros (_ & Ha & sh & E & Hl). unfold struct_type, materialize_type. destruct args as [|a args].
  - split; [|by apply params_ok_node]. eapply type_ok_struct; [exact E|]. by destruct (StructHandle.type_parameters sh).
  - split.
    + eapply type_ok_inst; [exact E|done|]. eapply List.Forall_impl; [|exact Ha]. by intros ? [? _].
    + apply params_ok_node; [done|]. eapply List.Forall_impl; [|exact Ha]. by intros ? [_ ?].
Qed.

Lemma ready_field d args fields f :
  struct_ready d args -> d.(StructDefinition.field_information) = Declared fields -> f ∈ fields ->
  type_ok v f.(FieldDefinition.signature) /\ params_ok (length args) f.(FieldDefinition.signature).
Proof.
  intros ((sh & E & Hf) & _ & sh' & E' & Hl) Hd Hin'. rewrite E in E'. injection E' as <-.
  specialize (Hf _ Hd). rewrite Forall_forall in Hf. rewrite Hl. by apply Hf, list_elem_of_In.
Qed.

Lemma ready_fields d args :
  struct_ready d args -> match type_fields_signature d args with
  | Ok ts => Forall (scoped v n) ts /\ StackUsageVerifier.field_count d = zlen ts
  | Err _ => True
  | _ => False
  end.
Proof.
  intros Hr. destruct (StructDefinition.field_information d) as [|fields] eqn:Hd.
  { unfold type_fields_signature. by rewrite Hd. }
  destruct (instances_scoped v n args (map FieldDefinition.signature fields)) as (ts & Hi & Hs).
  - by destruct Hr as (_ & Ha & _).
  - apply Forall_map, Forall_forall. intros f Hf%list_elem_of_In. by eapply ready_field.
  - apply Forall_map, Forall_forall. intros f Hf%list_elem_of_In. by eapply ready_field.
  - assert (field_types d args ts) as Hf by by exists fields.
    rewrite (proj2 (fields_ok d args ts) Hf). split; [done|]. by eapply field_types_count.
Qed.

Lemma ready_definition idx :
  InstructionConsistency.check_type_op v idx false = Ok () ->
  exists d, BinaryIndexedView.struct_def_at v idx = Ok d /\ struct_ready d [].
Proof.
  unfold InstructionConsistency.check_type_op. intros H. inv_ok.
  match goal with H : BinaryIndexedView.struct_def_at _ _ = Ok ?d |- _ => exists d; split; [done|]; rename H into Hd end.
  match goal with H : BinaryIndexedView.struct_handle_at _ _ = Ok _ |- _ => apply struct_handle_at_inv in H; rename H into Hh end.
  split; [by eapply struct_def_at_inv|]. split; [constructor|]. eexists. split; [exact Hh|].
  by destruct (StructHandle.type_parameters _).
Qed.

(** A signature of type arguments in scope. *)
Lemma arguments_scoped idx args :
  BinaryIndexedView.signature_at v idx = Ok args -> signature_params_ok v n idx -> Forall (scoped v n) args.
Proof.
  intros Hs%signature_at_inv Hp. eapply signature_types; [done|exact Hs|]. by apply Hp.
Qed.

Lemma ready_instance idx d args sh constraints :
  BinaryIndexedView.struct_def_at v idx = Ok d ->
  BinaryIndexedView.struct_handle_at v d.(StructDefinition.struct_handle) = Ok sh ->
  Forall (scoped v n) args ->
  SignatureChecker.check_generic_instance v args (StructHandle.type_param_constraints sh) constraints = Ok () ->
  struct_ready d args.
Proof.
  intros Hd Hh%struct_handle_at_inv Ha Hg. split; [by eapply struct_def_at_inv|]. split; [done|].
  exists sh. split; [done|]. unfold SignatureChecker.check_generic_instance, StructHandle.type_param_constraints in Hg.
  destruct (Nat.eqb_spec (length args) (length (map StructTypeParameter.constraints sh.(StructHandle.type_parameters))))
    as [E|]; [|done]. by rewrite length_map in E.
Qed.
End ready.

(** * Runs that do not panic *)

(** [m] returns on the stack [S]; if it succeeds, the result satisfies [Q]. *)
Definition returns {A} (m : M A) (S : types) (Q : A -> types -> Prop) : Prop :=
  match m S with Ok (a, S') => Q a S' | Err _ => True | _ => False end.

Lemma returns_bind {A B} (m : M A) (f : A -> M B) S (Q : B -> types -> Prop) :
  returns m S (fun a S' => returns (f a) S' Q) -> returns (m ≫= f) S Q.
Proof. unfold returns, mbind, ST_bind. by destruct (m S) as [[a S']| | |]. Qed.

Lemma returns_weaken {A} (m : M A) S (Q Q' : A -> types -> Prop) :
  returns m S Q -> (forall a S', m S = Ok (a, S') -> Q a S' -> Q' a S') -> returns m S Q'.
Proof. unfold returns. destruct (m S) as [[a S']| | |]; auto. Qed.

Lemma returns_pop t S (Q : SignatureToken -> types -> Prop) : Q t S -> returns pop (t :: S) Q.
Proof. done. Qed.
Lemma returns_push t S (Q : () -> types -> Prop) : Q () (t :: S) -> returns (push t) S Q.
Proof. done. Qed.
Lemma returns_ret {A} (a : A) S (Q : A -> types -> Prop) : Q a S -> returns (mret a) S Q.
Proof. done. Qed.
Lemma returns_error {A} status S (Q : A -> types -> Prop) : returns (error status) S Q.
Proof. done. Qed.
Lemma returns_error_if b status S (Q : () -> types -> Prop) :
  (b = false -> Q () S) -> returns (error_if b status) S Q.
Proof. destruct b; [done|]. intros H. by apply H. Qed.
Lemma returns_lift {A} (r : R A) S (Q : A -> types -> Prop) :
  safe r -> (forall a, r = Ok a -> Q a S) -> returns (st_lift r) S Q.
Proof. destruct r; try done. intros _ H. by apply H. Qed.
Lemma returns_lift_ok {A} (r : R A) a S (Q : A -> types -> Prop) :
  r = Ok a -> Q a S -> returns (st_lift r) S Q.
Proof. by intros ->. Qed.

Lemma returns_pop_types status ts S (Q : () -> types -> Prop) :
  zlen ts <= zlen S -> (forall S0, S = ts ++ S0 -> Q () S0) -> returns (pop_types status ts) S Q.
Proof.
  revert S. induction ts as [|t ts IH]; intros S Hl HQ; cbn [pop_types]; [apply returns_ret; by apply HQ|].
  destruct S as [|t' S]; [simpl in Hl; lia|]. apply returns_bind, returns_pop, returns_bind, returns_error_if.
  intros ->%mismatch_eq. apply IH; [simpl in Hl; lia|]. intros S0 ->. by apply HQ.
Qed.

Lemma returns_pop_args v n args ps S (Q : () -> types -> Prop) :
  Forall (scoped v n) args -> Forall (type_ok v) ps -> Forall (params_ok (length args)) ps ->
  zlen ps <= zlen S -> (forall S0 ts, S = ts ++ S0 -> Q () S0) -> returns (pop_args args ps) S Q.
Proof.
  intros Ha. revert S. induction ps as [|p ps IH]; intros S Ht Hp Hl HQ; cbn [pop_args].
  { apply returns_ret. by apply (HQ S []). }
  apply Forall_cons_iff in Ht as [Ht Hts]. apply Forall_cons_iff in Hp as [Hp Hps].
  destruct S as [|t S]; [simpl in Hl; lia|]. apply returns_bind, returns_pop, returns_bind.
  destruct (instantiate_scoped v n args p Ha Ht Hp) as (t' & E & _).
  apply (returns_lift_ok _ _ _ _ E), returns_bind, returns_error_if. intros _.
  apply IH; [done..|simpl in Hl; lia|]. intros S0 ts ->. by apply (HQ S0 (t :: ts)).
Qed.

Lemma returns_push_results v n args rs S (Q : () -> types -> Prop) :
  Forall (scoped v n) args -> Forall (type_ok v) rs -> Forall (params_ok (length args)) rs ->
  (forall ts, Forall (scoped v n) ts -> Q () (ts ++ S)) ->
  returns (st_for rs (fun r => ty ← st_lift (instantiate args r); push ty)) S Q.
Proof.
  intros Ha Ht Hp HQ. destruct (instances_scoped v n args rs Ha Ht Hp) as (ts & Hi & Hs).
  unfold returns. rewrite (proj2 (push_results args rs S (rev ts ++ S)));
    [|by exists ts]. apply HQ. by apply Forall_rev.
Qed.

Lemma returns_pop_n fuel num S (Q : () -> types -> Prop) :
  (length S < fuel)%nat -> num <= zlen S -> (forall S0 ts, S = ts ++ S0 -> Q () S0) ->
  returns (pop_n fuel num) S Q.
Proof.
  intros Hf Hn HQ. unfold returns.
  rewrite (proj2 (pop_n_ok fuel num S (drop (Z.to_nat num) S) Hf)).
  - by apply (HQ _ (take (Z.to_nat num) S)); rewrite take_drop.
  - exists (take (Z.to_nat num) S). rewrite length_take, take_drop. split; [lia|done].
Qed.

Section operations.
Context (v : BinaryIndexedView) (fv : FunctionView) (Hin : in_bounds v).
Abbreviation n := (length fv.(FunctionView.type_parameters)).
Abbreviation scoped_stack := (fun (_ : ()) S' => Forall (scoped v n) S').

Lemma returns_check_ability has t status S (Q : () -> types -> Prop) :
  scoped v n t -> Q () S -> returns (check_ability v fv has t status) S Q.
Proof using Hin.
  intros [Ht Hp] HQ. destruct (abilities_ok v Hin fv.(FunctionView.type_parameters) t Ht Hp) as [a Ha].
  unfold check_ability, abilities. apply returns_bind, (returns_lift_ok _ _ _ _ Ha), returns_error_if. by intros _.
Qed.

Lemma returns_element_type_of op t only S (Q : SignatureToken -> types -> Prop) :
  Q t S -> returns (element_type_of op t only) S Q.
Proof.
  intros HQ. unfold element_type_of. destruct (get_vector_element_type op only) as [ty|]; [|apply returns_error].
  apply returns_bind, returns_error_if. intros ->%mismatch_eq. by apply returns_ret.
Qed.

Lemma borrow_field_returns mut_ idx h d args S :
  BinaryIndexedView.field_handle_at v idx = Ok h ->
  BinaryIndexedView.struct_def_at v h.(FieldHandle.owner) = Ok d -> struct_ready v n d args ->
  0 <= h.(FieldHandle.field) < field_count d -> 1 <= zlen S -> Forall (scoped v n) S ->
  returns (borrow_field v mut_ idx args) S scoped_stack.
Proof.
  intros Hh Hd Hr Hf Hl HS. destruct S as [|t S]; [simpl in Hl; lia|]. apply Forall_cons_iff in HS as [Ht HS].
  unfold borrow_field. apply returns_bind, returns_pop, returns_bind, returns_error_if. intros _.
  apply returns_bind, (returns_lift_ok _ _ _ _ Hh), returns_bind, (returns_lift_ok _ _ _ _ Hd), returns_bind.
  match goal with |- returns ?m S ?Q => assert (Q () S -> returns m S Q) as Hm end.
  { intros HQ. destruct t; try done; by apply returns_error_if. }
  apply Hm. clear Hm. unfold field_count in Hf. destruct (StructDefinition.field_information d) as [|fields] eqn:Ef; [done|].
  destruct (lookup_lt_is_Some_2 fields (Z.to_nat h.(FieldHandle.field))) as [f Ef']; [lia|].
  destruct (ready_field v n d args fields f Hr Ef) as [Hft Hfp]; [by eapply list_elem_of_lookup_2|].
  destruct (instantiate_scoped v n args _ (proj1 (proj2 Hr)) Hft Hfp) as (t' & E & Ht').
  apply returns_bind, (returns_lift_ok _ f); [by rewrite Ef'|].
  apply returns_bind, (returns_lift_ok _ _ _ _ E), returns_push. constructor; [|done].
  by apply scoped_reference.
Qed.

Lemma borrow_global_returns mut_ idx d args S :
  BinaryIndexedView.struct_def_at v idx = Ok d -> struct_ready v n d args ->
  1 <= zlen S -> Forall (scoped v n) S -> returns (borrow_global v fv mut_ idx args) S scoped_stack.
Proof using Hin.
  intros Hd Hr Hl HS. destruct S as [|t S]; [simpl in Hl; lia|]. apply Forall_cons_iff in HS as [Ht HS].
  pose proof (ready_type v n d args Hr) as Hs.
  apply returns_bind, returns_pop, returns_bind, returns_error_if. intros _.
  apply returns_bind, (returns_lift_ok _ _ _ _ Hd), returns_bind, returns_check_ability; [done|].
  apply returns_push. constructor; [by apply scoped_reference|done].
Qed.

Lemma call_returns h args ps S :
  function_handle_ok v h -> Forall (scoped v n) args ->
  length args = length h.(FunctionHandle.type_parameters) ->
  BinaryIndexedView.signature_at v h.(FunctionHandle.parameters) = Ok ps -> zlen ps <= zlen S ->
  Forall (scoped v n) S -> returns (call v h args) S scoped_stack.
Proof using Hin.
  intros (_ & _ & _ & [rs Hr]%idx_ok_lookup & Hpp & Hrp) Ha Hl Hps Hlen HS. rewrite <- Hl in Hpp, Hrp.
  pose proof (signature_at_inv v _ _ Hps) as Hps'.
  pose proof (forall_lookup _ _ _ _ (signatures_in _ Hin) Hps') as Htp.
  pose proof (forall_lookup _ _ _ _ (signatures_in _ Hin) Hr) as Htr.
  apply returns_bind, (returns_lift_ok _ _ _ _ Hps), returns_bind, (returns_pop_args v n); try done.
  - by apply Forall_rev.
  - apply Forall_rev. by apply Hpp.
  - by rewrite length_rev.
  - intros S0 ts ->. apply Forall_app in HS as [_ HS].
    apply returns_bind, (returns_lift_ok _ _ _ _ (view_signature_at v _ _ Hr)), (returns_push_results v n); try done.
    + by apply Hrp.
    + intros ts' Hts. by apply Forall_app.
Qed.

Lemma pack_returns d args S :
  struct_ready v n d args -> StackUsageVerifier.field_count d <= zlen S -> Forall (scoped v n) S ->
  returns (pack d args) S scoped_stack.
Proof.
  intros Hr Hl HS. pose proof (ready_fields v n d args Hr) as Hf. unfold pack. apply returns_bind.
  destruct (type_fields_signature d args) as [ts| | |] eqn:E; try done.
  apply (returns_lift_ok _ _ _ _ eq_refl). destruct Hf as [Hts Hc].
  apply returns_bind, returns_pop_types; [rewrite length_rev; lia|]. intros S0 ->.
  apply Forall_app in HS as [_ HS]. apply returns_push. constructor; [by apply ready_type|done].
Qed.

Lemma unpack_returns d args S :
  struct_ready v n d args -> 1 <= zlen S -> Forall (scoped v n) S ->
  returns (unpack d args) S scoped_stack.
Proof.
  intros Hr Hl HS. destruct S as [|t S]; [simpl in Hl; lia|]. apply Forall_cons_iff in HS as [_ HS].
  pose proof (ready_fields v n d args Hr) as Hf.
  apply returns_bind, returns_pop, returns_bind, returns_error_if. intros _. apply returns_bind.
  destruct (type_fields_signature d args) as [ts| | |] eqn:E; try done.
  apply (returns_lift_ok _ _ _ _ eq_refl). destruct Hf as [Hts _].
  unfold returns. rewrite (proj2 (push_all ts S (rev ts ++ S)) eq_refl). apply Forall_app.
  split; [by apply Forall_rev|done].
Qed.

Lemma exists_returns d args S :
  struct_ready v n d args -> 1 <= zlen S -> Forall (scoped v n) S ->
  returns (exists_ v fv d args) S scoped_stack.
Proof using Hin.
  intros Hr Hl HS. destruct S as [|t S]; [simpl in Hl; lia|]. apply Forall_cons_iff in HS as [_ HS].
  apply returns_bind, returns_check_ability; [by apply ready_type|].
  apply returns_bind, returns_pop, returns_bind, returns_error_if. intros _.
  apply returns_push. constructor; [apply scoped_base; tauto|done].
Qed.

Lemma move_from_returns d args S :
  struct_ready v n d args -> 1 <= zlen S -> Forall (scoped v n) S ->
  returns (move_from v fv d args) S scoped_stack.
Proof using Hin.
  intros Hr Hl HS. destruct S as [|t S]; [simpl in Hl; lia|]. apply Forall_cons_iff in HS as [_ HS].
  apply returns_bind, returns_check_ability; [by apply ready_type|].
  apply returns_bind, returns_pop, returns_bind, returns_error_if. intros _.
  apply returns_push. constructor; [by apply ready_type|done].
Qed.

Lemma move_to_returns d args S :
  struct_ready v n d args -> 2 <= zlen S -> Forall (scoped v n) S ->
  returns (move_to v fv d args) S scoped_stack.
Proof using Hin.
  intros Hr Hl HS. destruct S as [|t [|t' S]]; [simpl in Hl; lia..|]. rewrite !Forall_cons_iff in HS. destruct HS as (_ & _ & HS).
  apply returns_bind, returns_check_ability; [by apply ready_type|].
  apply returns_bind, returns_pop, returns_bind, returns_pop, returns_bind, returns_error_if. intros _.
  destruct t' as [| | | | | | | | |t'| |]; try apply returns_error. destruct t'; try apply returns_error.
  by apply returns_ret.
Qed.

Lemma borrow_vector_returns t only S :
  scoped v n t -> 2 <= zlen S -> Forall (scoped v n) S ->
  returns (borrow_vector_element t only) S scoped_stack.
Proof.
  intros Ht Hl HS. destruct S as [|t1 [|t2 S]]; [simpl in Hl; lia..|]. rewrite !Forall_cons_iff in HS.
  apply returns_bind, returns_pop, returns_bind, returns_pop, returns_bind, returns_error_if. intros _.
  apply returns_bind, returns_element_type_of, returns_push. constructor; [by apply scoped_reference|tauto].
Qed.

Lemma borrow_loc_returns mut_ idx t S :
  local_at fv idx = Ok t -> scoped v n t -> Forall (scoped v n) S ->
  returns (borrow_loc fv mut_ idx) S scoped_stack.
Proof.
  intros Hl Ht HS. apply returns_bind, (returns_lift_ok _ _ _ _ Hl), returns_bind, returns_error_if.
  intros _. apply returns_push. constructor; [by apply scoped_reference|done].
Qed.
End operations.

(** * Instructions *)

Section instructions.
Context (v : BinaryIndexedView) (fv : FunctionView) (Hview : view_ok v fv).
Abbreviation n := (length fv.(FunctionView.type_parameters)).
Abbreviation tps := (fv.(FunctionView.type_parameters)).
Abbreviation locals_count := (zlen fv.(FunctionView.locals) + zlen fv.(FunctionView.parameters)).
Hypothesis Hconst : Forall (fun c => scoped v n c.(Constant.type_)) (BinaryIndexedView.constant_pool v).

(** What the earlier passes established of an instruction. *)
Record instr_checked (b : Bytecode) : Prop := {
  checked_bounds : exists len, instr_ok v n len locals_count b;
  checked_wf : wf_bytecode b = true;
  checked_signature : SignatureChecker.verify_instr v tps b = Ok ();
  checked_consistency : InstructionConsistency.check_instruction v b = Ok () }.

Lemma struct_inst_ready idx :
  (exists len, instr_ok v n len locals_count (Bytecode.PackGeneric idx)) ->
  SignatureChecker.verify_instr v tps (Bytecode.PackGeneric idx) = Ok () ->
  exists i d args, BinaryIndexedView.struct_instantiation_at v idx = Ok i /\
    BinaryIndexedView.struct_def_at v i.(StructDefInstantiation.def) = Ok d /\
    BinaryIndexedView.signature_at v i.(StructDefInstantiation.type_parameters) = Ok args /\
    struct_ready v n d args.
Proof.
  pose proof (view_in _ _ Hview) as Hin. intros [len [_ Hb]] Hs. cbn [SignatureChecker.verify_instr] in Hs.
  unfold SignatureChecker.check_type_arguments in Hs. inv_ok.
  match goal with H : BinaryIndexedView.struct_instantiation_at _ _ = Ok ?i |- _ => exists i; rename H into Hi end.
  do 2 eexists. split; [done|]. split; [done|]. split; [done|].
  eapply ready_instance; [done|done|done| |done]. eapply arguments_scoped; [done|done|].
  clear Hview Hconst. destruct v as [m|sc]; [|done]. cbn in Hi. unfold ModuleAccess.struct_instantiation_at, index in Hi.
  destruct (_ !! _) eqn:E in Hi; [|done]. injection Hi as ->. by eapply Hb.
Qed.

Lemma struct_inst_eq idx i d args :
  BinaryIndexedView.struct_instantiation_at v idx = Ok i ->
  BinaryIndexedView.struct_def_at v i.(StructDefInstantiation.def) = Ok d ->
  BinaryIndexedView.signature_at v i.(StructDefInstantiation.type_parameters) = Ok args ->
  struct_inst v idx = Ok (d, args).
Proof.
  intros Hi Hd Ha. unfold struct_inst. rewrite Hi. cbn [mbind result_bind]. rewrite Hd.
  cbn [mbind result_bind]. by rewrite Ha.
Qed.

Lemma field_in_range idx h d :
  BinaryIndexedView.field_handle_at v idx = Ok h ->
  BinaryIndexedView.struct_def_at v h.(FieldHandle.owner) = Ok d ->
  0 <= h.(FieldHandle.field) < field_count d.
Proof.
  pose proof (field_handles_in _ (view_in _ _ Hview)) as Hf. pose proof (view_fields _ _ Hview) as Hz.
  clear Hview Hconst. destruct v as [m|sc]; [|done]. cbn in Hf, Hz |- *.
  unfold ModuleAccess.field_handle_at, ModuleAccess.struct_def_at, index. intros Hh Hd.
  destruct (_ !! _) as [h'|] eqn:E in Hh; [|done]. cbn [unwrap mbind result_bind] in Hh. inv_ok.
  split; [by apply (forall_lookup _ _ _ _ Hz E)|].
  destruct (forall_lookup _ _ _ _ Hf E) as [_ Hr]. eapply Hr; [done|].
  destruct (_ !! _) eqn:E' in Hd; [|done]. injection Hd as ->. exact E'.
Qed.

Lemma field_inst_ready idx :
  (exists len, instr_ok v n len locals_count (Bytecode.ImmBorrowFieldGeneric idx)) ->
  SignatureChecker.verify_instr v tps (Bytecode.ImmBorrowFieldGeneric idx) = Ok () ->
  exists i h d args, BinaryIndexedView.field_instantiation_at v idx = Ok i /\
    BinaryIndexedView.field_handle_at v i.(FieldInstantiation.handle) = Ok h /\
    BinaryIndexedView.struct_def_at v h.(FieldHandle.owner) = Ok d /\
    BinaryIndexedView.signature_at v i.(FieldInstantiation.type_parameters) = Ok args /\
    struct_ready v n d args.
Proof.
  pose proof (view_in _ _ Hview) as Hin. intros [len [_ Hb]] Hs. cbn [SignatureChecker.verify_instr] in Hs.
  unfold SignatureChecker.check_type_arguments in Hs. inv_ok.
  match goal with H : BinaryIndexedView.field_instantiation_at _ _ = Ok ?i |- _ => exists i; rename H into Hi end.
  do 3 eexists. split; [done|]. split; [done|]. split; [done|]. split; [done|].
  eapply ready_instance; [done|done|done| |done]. eapply arguments_scoped; [done|done|].
  clear Hview Hconst. destruct v as [m|sc]; [|done]. cbn in Hi. unfold ModuleAccess.field_instantiation_at, index in Hi.
  destruct (_ !! _) eqn:E in Hi; [|done]. injection Hi as ->. by eapply Hb.
Qed.

(** The type of the elements of a vector instruction. *)
Lemma element_scoped idx num :
  (exists len, instr_ok v n len locals_count (Bytecode.VecPack idx num)) ->
  SignatureChecker.verify_instr v tps (Bytecode.VecPack idx num) = Ok () ->
  exists t, declared_element v idx = Ok t /\ scoped v n t.
Proof.
  pose proof (view_in _ _ Hview) as Hin. intros [len [_ Hb]] Hs. cbn [SignatureChecker.verify_instr] in Hs.
  inv_ok. match goal with H : BinaryIndexedView.signature_at _ _ = Ok ?s |- _ => rename s into sig; rename H into Hsig end.
  unfold declared_element. rewrite Hsig. cbn [mbind result_bind].
  pose proof (arguments_scoped v Hin n idx sig Hsig Hb) as Hsc.
  destruct sig as [|t sig]; [done|]. exists t. split; [done|]. by apply Forall_cons_iff in Hsc as [? _].
Qed.

Lemma local_scoped idx : 0 <= idx < locals_count -> exists t, local_at fv idx = Ok t /\ scoped v n t.
Proof.
  intros Hi. pose proof (view_scoped _ _ Hview) as Hs. unfold local_at, Locals.local_at, Locals.new.
  cbn [Locals.param_count Locals.parameters Locals.locals].
  assert (exists t, (fv.(FunctionView.parameters) ++ fv.(FunctionView.locals)) !! Z.to_nat idx = Some t) as [t Ht].
  { apply lookup_lt_is_Some_2. rewrite length_app. lia. }
  exists t. split; [|by apply (forall_lookup _ _ _ _ Hs Ht)].
  destruct (Nat.ltb_spec (Z.to_nat idx) (length (FunctionView.parameters fv))).
  - rewrite lookup_app_l in Ht by done. exact (f_equal unwrap Ht).
  - rewrite lookup_app_r in Ht by done. exact (f_equal unwrap Ht).
Qed.

Abbreviation scoped_stack := (fun (_ : ()) S' => Forall (scoped v n) S').

(** The stack holds what the instruction pops. *)
Definition enough (b : Bytecode) (S : types) : Prop :=
  exists p q, StackUsageVerifier.instruction_effect (verifier_of v fv) b = Ok (p, q) /\ p <= zlen S.

Lemma enough_ok b S p q :
  enough b S -> StackUsageVerifier.instruction_effect (verifier_of v fv) b = Ok (p, q) -> p <= zlen S.
Proof. intros (p' & q' & E & Hp) E'. rewrite E in E'. by injection E' as <- <-. Qed.

Lemma struct_instr_returns b S :
  match b with
  | Bytecode.Pack _ | Bytecode.Unpack _ | Bytecode.Exists _ | Bytecode.MoveFrom _ | Bytecode.MoveTo _
  | Bytecode.MutBorrowGlobal _ | Bytecode.ImmBorrowGlobal _ => True
  | _ => False
  end -> instr_checked b -> enough b S -> Forall (scoped v n) S -> returns (verify_instr v fv b) S scoped_stack.
Proof.
  pose proof (view_in _ _ Hview) as Hin. intros Hb [_ _ _ Hc] He HS.
  destruct b; try done; cbn [InstructionConsistency.check_instruction] in Hc;
    apply (ready_definition v Hin n) in Hc as (d & Hd & Hr); cbn [verify_instr];
    try (by apply (borrow_global_returns v fv Hin _ _ d); [..|eapply enough_ok; [exact He|reflexivity]|]);
    apply returns_bind, (returns_lift_ok _ _ _ _ Hd).
  - apply pack_returns; [done| |done]. eapply enough_ok; [exact He|]. cbn. by rewrite Hd.
  - apply unpack_returns; [done| |done]. eapply enough_ok; [exact He|]. cbn. by rewrite Hd.
  - apply exists_returns; [done..| |done]. by eapply enough_ok.
  - apply move_from_returns; [done..| |done]. by eapply enough_ok.
  - apply move_to_returns; [done..| |done]. by eapply enough_ok.
Qed.

Lemma struct_inst_returns b S :
  match b with
  | Bytecode.PackGeneric _ | Bytecode.UnpackGeneric _ | Bytecode.ExistsGeneric _
  | Bytecode.MoveFromGeneric _ | Bytecode.MoveToGeneric _
  | Bytecode.MutBorrowGlobalGeneric _ | Bytecode.ImmBorrowGlobalGeneric _ => True
  | _ => False
  end -> instr_checked b -> enough b S -> Forall (scoped v n) S -> returns (verify_instr v fv b) S scoped_stack.
Proof.
  pose proof (view_in _ _ Hview) as Hin. intros Hb [Hi _ Hsig _] He HS.
  destruct b; try done;
    destruct (struct_inst_ready _ Hi Hsig) as (i & d & args & Ei & Ed & Ea & Hr); cbn [verify_instr];
    try (unfold borrow_global_generic; apply returns_bind, (returns_lift_ok _ _ _ _ Ei), returns_bind,
           (returns_lift_ok _ _ _ _ Ea), (borrow_global_returns v fv Hin _ _ d); [done|done| |done];
         by eapply enough_ok);
    apply returns_bind, (returns_lift_ok _ _ _ _ (struct_inst_eq _ _ _ _ Ei Ed Ea)); cbn beta iota.
  - apply pack_returns; [done| |done]. eapply enough_ok; [exact He|]. cbn. rewrite Ei. cbn. by rewrite Ed.
  - apply unpack_returns; [done| |done]. eapply enough_ok; [exact He|]. cbn. rewrite Ei. cbn. by rewrite Ed.
  - apply exists_returns; [done..| |done]. by eapply enough_ok.
  - apply move_from_returns; [done..| |done]. by eapply enough_ok.
  - apply move_to_returns; [done..| |done]. by eapply enough_ok.
Qed.

Lemma field_instr_returns b S :
  match b with
  | Bytecode.MutBorrowField _ | Bytecode.ImmBorrowField _ | Bytecode.MutBorrowFieldGeneric _
  | Bytecode.ImmBorrowFieldGeneric _ => True
  | _ => False
  end -> instr_checked b -> enough b S -> Forall (scoped v n) S -> returns (verify_instr v fv b) S scoped_stack.
Proof.
  pose proof (view_in _ _ Hview) as Hin. intros Hb [Hi _ Hsig Hc] He HS.
  assert (1 <= zlen S) as Hl by (destruct b; try done; by eapply enough_ok).
  destruct b; try done; cbn [verify_instr];
    try (destruct (field_inst_ready _ Hi Hsig) as (i & h & d & args & Ei & Eh & Ed & Ea & Hr);
         unfold borrow_field_generic; apply returns_bind, (returns_lift_ok _ _ _ _ Ei), returns_bind,
           (returns_lift_ok _ _ _ _ Ea), (borrow_field_returns v fv _ _ h d); try done; by eapply field_in_range);
    cbn [InstructionConsistency.check_instruction] in Hc; unfold InstructionConsistency.check_field_op in Hc;
    apply res_bind_ok in Hc as (h & Eh & (d & Ed & Hr)%(ready_definition v Hin n));
    apply (borrow_field_returns v fv _ _ h d); try done; by eapply field_in_range.
Qed.

Lemma vector_instr_returns b S :
  match b with
  | Bytecode.VecPack _ _ | Bytecode.VecUnpack _ _ | Bytecode.VecLen _ | Bytecode.VecImmBorrow _
  | Bytecode.VecMutBorrow _ | Bytecode.VecPushBack _ | Bytecode.VecPopBack _ | Bytecode.VecSwap _ => True
  | _ => False
  end -> instr_checked b -> enough b S -> Forall (scoped v n) S -> returns (verify_instr v fv b) S scoped_stack.
Proof.
  intros Hb [Hi Hw Hsig _] He HS.
  destruct b; try done; destruct (element_scoped _ 0 Hi Hsig) as (t & Et & Ht);
    pose proof (enough_ok _ _ _ _ He eq_refl) as Hl; cbn [verify_instr].
  - apply returns_bind, (returns_lift_ok _ _ _ _ Et), returns_bind, returns_pop_n; [lia|done|].
    intros S0 ts ->. apply Forall_app in HS as [_ HS]. apply returns_push. constructor; [by apply scoped_vector|done].
  - destruct S as [|t1 S]; [simpl in Hl; lia|]. apply Forall_cons_iff in HS as [_ HS].
    apply returns_bind, returns_pop, returns_bind, (returns_lift_ok _ _ _ _ Et), returns_bind, returns_element_type_of.
    apply returns_push. constructor; [apply scoped_base; tauto|done].
  - apply returns_bind, (returns_lift_ok _ _ _ _ Et). by apply borrow_vector_returns.
  - apply returns_bind, (returns_lift_ok _ _ _ _ Et). by apply borrow_vector_returns.
  - destruct S as [|t1 [|t2 S]]; [simpl in Hl; lia..|]. rewrite !Forall_cons_iff in HS.
    apply returns_bind, returns_pop, returns_bind, returns_pop, returns_bind, (returns_lift_ok _ _ _ _ Et).
    apply returns_bind, returns_error_if. intros _. apply returns_bind, returns_element_type_of, returns_ret. tauto.
  - destruct S as [|t1 S]; [simpl in Hl; lia|]. apply Forall_cons_iff in HS as [_ HS].
    apply returns_bind, returns_pop, returns_bind, (returns_lift_ok _ _ _ _ Et), returns_bind, returns_element_type_of.
    apply returns_push. by constructor.
  - destruct S as [|t1 S]; [simpl in Hl; lia|]. apply Forall_cons_iff in HS as [_ HS].
    apply returns_bind, returns_pop, returns_bind, (returns_lift_ok _ _ _ _ Et), returns_bind, returns_error_if.
    intros _. unfold returns, push_n. apply Forall_app. split; [|done]. apply Forall_forall.
    by intros x ->%repeat_spec.
  - destruct S as [|t1 [|t2 [|t3 S]]]; [simpl in Hl; lia..|]. rewrite !Forall_cons_iff in HS.
    apply returns_bind, returns_pop, returns_bind, returns_pop, returns_bind, returns_pop, returns_bind, returns_error_if.
    intros _. apply returns_bind, (returns_lift_ok _ _ _ _ Et), returns_bind, returns_element_type_of, returns_ret. tauto.
Qed.

Lemma call_instr_returns b S :
  match b with Bytecode.Call _ | Bytecode.CallGeneric _ => True | _ => False end ->
  instr_checked b -> enough b S -> Forall (scoped v n) S -> returns (verify_instr v fv b) S scoped_stack.
Proof.
  pose proof (view_in _ _ Hview) as Hin. intros Hb [[len Hi] _ Hsig Hc] He HS. destruct b; try done.
  - cbn [InstructionConsistency.check_instruction] in Hc. unfold InstructionConsistency.check_function_op in Hc.
    apply res_bind_ok in Hc as (h & Eh & Hg). pose proof (function_handle_at_inv v Hin _ _ Eh) as Hh.
    pose proof Hh as (_ & _ & [ps Hp%(view_signature_at v)]%idx_ok_lookup & [rs Hr%(view_signature_at v)]%idx_ok_lookup & _).
    apply returns_bind, (returns_lift_ok _ _ _ _ Eh), (call_returns v fv Hin _ _ ps); try done.
    + by destruct (FunctionHandle.type_parameters h).
    + eapply enough_ok; [exact He|]. cbn. unfold StackUsageVerifier.call_effect. cbn.
      rewrite Eh. cbn. rewrite Hp. cbn. by rewrite Hr.
  - cbn [SignatureChecker.verify_instr] in Hsig. unfold SignatureChecker.check_type_arguments in Hsig. inv_ok.
    match goal with H : BinaryIndexedView.function_instantiation_at _ _ = Ok _ |- _ => rename H into Ei end.
    match goal with H : BinaryIndexedView.function_handle_at _ _ = Ok _ |- _ => rename H into Eh end.
    match goal with H : BinaryIndexedView.signature_at _ _ = Ok _ |- _ => rename H into Ea end.
    pose proof (function_handle_at_inv v Hin _ _ Eh) as Hh.
    pose proof Hh as (_ & _ & [ps Hp%(view_signature_at v)]%idx_ok_lookup & [rs Hr%(view_signature_at v)]%idx_ok_lookup & _).
    apply returns_bind, (returns_lift_ok _ _ _ _ Ei), returns_bind, (returns_lift_ok _ _ _ _ Eh), returns_bind,
      (returns_lift_ok _ _ _ _ Ea), (call_returns v fv Hin _ _ ps); try done.
    + eapply arguments_scoped; [done|exact Ea|]. destruct Hi as [_ Hi]. apply Hi.
      clear Hview Hconst Hin Hsig. destruct v; cbn in Ei;
        unfold ModuleAccess.function_instantiation_at, ScriptAccess.function_instantiation_at, index in Ei;
        (destruct (_ !! _) eqn:E in Ei; [|discriminate Ei]); injection Ei as ->; exact E.
    + unfold SignatureChecker.check_generic_instance in Hsig.
      match type of Hsig with (if negb (Nat.eqb ?a ?b) then _ else _) = _ => by destruct (Nat.eqb_spec a b) end.
    + eapply enough_ok; [exact He|]. cbn. rewrite Ei. cbn. unfold StackUsageVerifier.call_effect. cbn.
      rewrite Eh. cbn. rewrite Hp. cbn. by rewrite Hr.
Qed.

Lemma equality_returns t t2 S :
  scoped v n t -> Forall (scoped v n) S ->
  returns (a ← st_lift (abilities v fv t);
    if AbilitySet.has_drop a && bool_decide (t = t2) then push Bool else error EQUALITY_OP_TYPE_MISMATCH_ERROR)
    S scoped_stack.
Proof.
  intros [Ht Hp] HS. destruct (abilities_ok v (view_in _ _ Hview) tps t Ht Hp) as [a Ha].
  unfold abilities. apply returns_bind, (returns_lift_ok _ _ _ _ Ha).
  destruct (_ && _); [|apply returns_error]. apply returns_push. constructor; [apply scoped_base; tauto|done].
Qed.

(** Instructions without an operand in a table of the module. *)
Lemma simple_instr_returns b S :
  match b with
  | Bytecode.Pop | Bytecode.BrTrue _ | Bytecode.BrFalse _ | Bytecode.Abort | Bytecode.FreezeRef
  | Bytecode.LdU8 _ | Bytecode.LdU64 _ | Bytecode.LdU128 _ | Bytecode.LdTrue | Bytecode.LdFalse
  | Bytecode.ReadRef | Bytecode.WriteRef | Bytecode.CastU8 | Bytecode.CastU64 | Bytecode.CastU128
  | Bytecode.Add | Bytecode.Sub | Bytecode.Mul | Bytecode.Mod | Bytecode.Div | Bytecode.BitOr
  | Bytecode.BitAnd | Bytecode.Xor | Bytecode.Shl | Bytecode.Shr | Bytecode.Or | Bytecode.And
  | Bytecode.Not | Bytecode.Eq | Bytecode.Neq | Bytecode.Lt | Bytecode.Gt | Bytecode.Le | Bytecode.Ge
  | Bytecode.Branch _ | Bytecode.Nop | Bytecode.Ret => True
  | _ => False
  end -> enough b S -> Forall (scoped v n) S -> returns (verify_instr v fv b) S scoped_stack.
Proof.
  pose proof (view_in _ _ Hview) as Hin. intros Hb He HS.
  destruct b; try done; pose proof (enough_ok _ _ _ _ He eq_refl) as Hl; cbn [verify_instr]; unfold cast;
    try (apply returns_push; constructor; [apply scoped_base; cbn; tauto|done]);
    try (by apply returns_ret);
    try (apply returns_pop_types; [by rewrite length_rev|]; intros S0 ->; by apply Forall_app in HS as [_ HS]);
    (destruct S as [|t S]; [simpl in Hl; lia|]); apply Forall_cons_iff in HS as [Ht HS];
    apply returns_bind, returns_pop;
    try (destruct S as [|t2 S]; [simpl in Hl; lia|]; apply Forall_cons_iff in HS as [Ht2 HS];
         apply returns_bind, returns_pop);
    try (apply returns_error_if; by intros _);
    try (apply returns_bind, returns_error_if; intros _; apply returns_push; constructor;
           [apply scoped_base; cbn; tauto|done]);
    try (by apply returns_check_ability);
    try (match goal with |- returns (if ?b then _ else _) _ _ => destruct b; [|apply returns_error] end;
         apply returns_push; constructor; [first [done|apply scoped_base; cbn; tauto]|done]).
  - destruct t as [| | | | | | | | |t|t|]; try apply returns_error;
      [pose proof (proj1 (scoped_reference v n false t) Ht)|pose proof (proj1 (scoped_reference v n true t) Ht)];
      apply returns_bind, returns_check_ability; try done; apply returns_push; by constructor.
  - destruct t as [| | | | | | | | |t|t|]; try apply returns_error.
    pose proof (proj1 (scoped_reference v n true t) Ht).
    apply returns_bind, returns_check_ability; [done..|]. apply returns_error_if. by intros _.
  - destruct t as [| | | | | | | | |t|t|]; try apply returns_error. apply returns_push.
    constructor; [|done]. apply (scoped_reference v n false t). by apply (scoped_reference v n true t).
  - by apply equality_returns.
  - by apply equality_returns.
Qed.

Lemma verify_instr_returns b S :
  instr_checked b -> enough b S -> Forall (scoped v n) S -> returns (verify_instr v fv b) S scoped_stack.
Proof.
  intros Hc He HS. pose proof Hc as [[len Hi] Hw _ _].
  destruct b; try (by apply simple_instr_returns); try (by apply struct_instr_returns);
    try (by apply struct_inst_returns); try (by apply field_instr_returns);
    try (by apply vector_instr_returns); try (by apply call_instr_returns);
    cbn [instr_ok wf_bytecode verify_instr] in Hi, Hw |- *; apply in_range_spec in Hw.
  1: { apply idx_ok_lookup in Hi as [c Ec]. apply returns_bind, (returns_lift_ok _ c).
       - clear Hview Hconst Hc He HS. destruct v; by apply index_ok.
       - apply returns_push. constructor; [by apply (forall_lookup _ _ _ _ Hconst Ec)|done]. }
  all: match type of Hi with ?i < _ => destruct (local_scoped i) as (t & Et & Ht); [lia|] end.
  - apply returns_bind, (returns_lift_ok _ _ _ _ Et), returns_bind, returns_check_ability;
      [by apply view_in in Hview|done|]. apply returns_push. by constructor.
  - apply returns_bind, (returns_lift_ok _ _ _ _ Et), returns_push. by constructor.
  - pose proof (enough_ok _ _ _ _ He eq_refl) as Hl. destruct S as [|t' S]; [simpl in Hl; lia|].
    apply Forall_cons_iff in HS as [_ HS].
    apply returns_bind, returns_pop, returns_bind, (returns_lift_ok _ _ _ _ Et), returns_error_if. by intros _.
  - by eapply borrow_loc_returns.
  - by eapply borrow_loc_returns.
Qed.
End instructions.

(** * Bodies *)

Section bodies.
Context (v : BinaryIndexedView) (fv : FunctionView) (Hview : view_ok v fv).
Abbreviation n := (length fv.(FunctionView.type_parameters)).
Abbreviation body := (fv.(FunctionView.code).(CodeUnit.code)).
Abbreviation g := (fv.(FunctionView.cfg)).
Abbreviation self := (verifier_of v fv).
Hypothesis Hconst : Forall (fun c => scoped v n c.(Constant.type_)) (BinaryIndexedView.constant_pool v).
Hypothesis Hcode : Forall (instr_checked v fv) body.
Hypothesis Hheight : forall id, id ∈ VMControlFlowGraph.block_ids g ->
  StackUsageVerifier.verify_block self g id = Ok ().

(** A list of instructions that the stack usage verifier went through. *)
Lemma run_returns l S h :
  exec_all (step_height self) l (zlen S) = Some h -> Forall (scoped v n) S ->
  returns (st_for l (verify_offset v fv)) S (fun _ S' => Forall (scoped v n) S' /\ zlen S' = h).
Proof using Hview Hconst Hcode.
  clear Hheight. revert S. induction l as [|pc l IH]; intros S Hh HS; cbn [st_for].
  { apply returns_ret. split; [done|]. by injection Hh. }
  cbn [exec_all] in Hh. destruct (step_height self pc (zlen S)) as [h1|] eqn:E1; [|done].
  apply step_height_ok in E1 as (b & p & q & Hb & He & Hp & -> & _). cbn [mbind option_bind] in Hh.
  pose proof (forall_lookup _ _ _ _ Hcode Hb) as Hc.
  apply returns_bind. unfold verify_offset at 1. apply returns_bind, (returns_lift_ok _ b); [exact (f_equal unwrap Hb)|].
  assert (enough v fv b S) as Hen by by exists p, q.
  eapply returns_weaken; [by apply verify_instr_returns|]. intros [] S' Ev HS'. apply IH; [|done].
  destruct (accepted_height v fv b S S') as (p' & q' & He' & ->); [apply Hc|done|].
  rewrite He in He'. by injection He' as <- <-.
Qed.

Lemma verify_block_returns id :
  id ∈ VMControlFlowGraph.block_ids g -> returns (verify_block v fv id) [] (fun _ S' => S' = []).
Proof using Hview Hconst Hcode Hheight.
  intros Hid. pose proof Hid as [bb Hg]%BTreeMap.elem_of_keys.
  pose proof (block_run self g Hheight id bb Hg) as Hrun.
  apply returns_bind, (returns_lift_ok _ (seqZ id (bb.(BasicBlock.exit) - id + 1))).
  { unfold VMControlFlowGraph.instr_indexes, VMControlFlowGraph.block_end. by rewrite Hg. }
  eapply returns_weaken; [by apply (run_returns _ [] 0 Hrun)|]. intros [] S' _ [_ Hl]. by destruct S'.
Qed.

Lemma verify_returns : safe (TypeSafety.verify v fv).
Proof using Hview Hconst Hcode Hheight.
  assert (forall ids, (forall id, id ∈ ids -> id ∈ VMControlFlowGraph.block_ids g) ->
    returns (st_for ids (verify_block v fv)) [] (fun _ _ => True)) as H.
  { induction ids as [|id ids IH]; intros Hids; cbn [st_for]; [done|]. apply returns_bind.
    eapply returns_weaken; [apply verify_block_returns, Hids; by left|]. intros [] S' _ ->. apply IH.
    intros id' Hid'. apply Hids. by right. }
  specialize (H (VMControlFlowGraph.block_ids g) (fun _ Hid => Hid)). unfold TypeSafety.verify, returns in *.
  by destruct (st_for _ _ _) as [[u S']| | |].
Qed.
End bodies.

(** * Units *)

(** The passes over the tables and the code of a unit that run before the bodies are
    verified. *)
Definition unit_passes (from_bytes_seed : MoveTypeLayout -> list Z -> option MoveValue)
    (v : BinaryIndexedView) : Prop :=
  match v with
  | BinaryIndexedView.Module_ m =>
    SignatureChecker.verify_module_impl m = Ok () /\ InstructionConsistency.verify_module_impl m = Ok () /\
    verify_constants_module from_bytes_seed m = Ok ()
  | BinaryIndexedView.Script_ s =>
    SignatureChecker.verify_script_impl s = Ok () /\ InstructionConsistency.verify_script_impl s = Ok () /\
    verify_constants_script from_bytes_seed s = Ok ()
  end.

Lemma valid_constant_scoped v n t : SignatureToken.is_valid_for_constant t = true -> scoped v n t.
Proof.
  induction t using SignatureToken.token_ind; cbn; intros Hv; try done;
    try (apply scoped_base; cbn; tauto). apply scoped_vector. auto.
Qed.

Lemma constants_scoped from_bytes_seed v n :
  unit_passes from_bytes_seed v ->
  Forall (fun c => scoped v n c.(Constant.type_)) (BinaryIndexedView.constant_pool v).
Proof.
  intros H. assert (Forall (fun c => verify_constant from_bytes_seed c = Ok ()) (BinaryIndexedView.constant_pool v)) as Hc.
  { destruct v as [m|s]; destruct H as (_ & _ & H); by apply res_for_ok in H. }
  eapply List.Forall_impl; [|exact Hc]. intros c Hv. unfold verify_constant, verify_constant_type in Hv.
  apply valid_constant_scoped. by destruct (SignatureToken.is_valid_for_constant (Constant.type_ c)).
Qed.

(** Every instruction of the body went through the passes. *)
Lemma body_checked from_bytes_seed v fv :
  checked_view v fv -> unit_passes from_bytes_seed v ->
  Forall (instr_checked v fv) fv.(FunctionView.code).(CodeUnit.code).
Proof.
  intros Hcv Hp. pose proof (checked_view_ok _ _ Hcv) as [_ _ Hi Hw _ _].
  assert (Forall (fun b => SignatureChecker.verify_instr v fv.(FunctionView.type_parameters) b = Ok ())
            fv.(FunctionView.code).(CodeUnit.code) /\
          Forall (fun b => InstructionConsistency.check_instruction v b = Ok ())
            fv.(FunctionView.code).(CodeUnit.code)) as [Hs Hc].
  { destruct Hcv as [m d c h i fv _ _ Hd Hc Hh _ _ E|s fv _ _ _ _ E];
      unfold FunctionView.function, FunctionView.script in E; inv_ok; cbn;
      destruct Hp as (Hsig & Hcons & _); cbn in Hsig, Hcons; split.
    - unfold SignatureChecker.verify_module_impl in Hsig. rewrite !seq_ok in Hsig.
      destruct Hsig as (_ & _ & _ & Hu). apply res_for_ok in Hu. rewrite Forall_forall in Hu.
      specialize (Hu d (proj1 (list_elem_of_In _ _) Hd)). unfold SignatureChecker.verify_code_unit in Hu.
      rewrite Hc in Hu. cbn in Hu. rewrite Hh in Hu. cbn [mbind result_bind] in Hu.
      unfold SignatureChecker.verify_code in Hu. rewrite !seq_ok in Hu. by apply res_for_ok, Hu.
    - apply res_for_ok in Hcons. rewrite Forall_forall in Hcons.
      specialize (Hcons d (proj1 (list_elem_of_In _ _) Hd)). unfold InstructionConsistency.check_function_def in Hcons.
      rewrite Hc in Hcons. by apply res_for_ok.
    - unfold SignatureChecker.verify_script_impl, SignatureChecker.verify_code in Hsig. rewrite !seq_ok in Hsig.
      by apply res_for_ok, Hsig.
    - by apply res_for_ok. }
  rewrite Forall_forall in *. intros b Hb. constructor; [eexists; by apply Hi|by apply Hw|by apply Hs|by apply Hc].
Qed.

(** C28: the type checker returns.  On every function of a unit that the bounds checker,
    the signature checker, the instruction consistency checker, the constants checker,
    the control flow verifier and the stack usage verifier accept, it answers with
    success or an error: no pop of an empty stack, no missing type argument, no type
    without abilities. *)
Theorem type_safety_total (from_bytes_seed : MoveTypeLayout -> list Z -> option MoveValue)
    (v : BinaryIndexedView) (fv : FunctionView) :
  checked_view v fv -> unit_passes from_bytes_seed v -> StackUsageVerifier.verify v fv = Ok () ->
  safe (TypeSafety.verify v fv).
Proof.
  intros Hcv Hp Hs. apply verify_returns.
  - by apply checked_view_ok.
  - by eapply constants_scoped.
  - by eapply body_checked.
  - by apply verify_blocks.
Qed.

Lemma type_safety_total_witness : safe (TypeSafety.verify vector_unit vector_view).
Proof.
  apply (type_safety_total (fun _ _ => None)); [apply vector_view_checked| |vm_compute; reflexivity].
  repeat split; vm_compute; reflexivity.
Defined.
