(* ===== verification/DuplicationChecker.v ===== *)
(** The duplication checker: move-bytecode-verifier/src/check_duplication.rs.  The
    elements of each table are distinct, definitions belong to the module and every handle
    of the module has a definition. *)
From S2P Require Import Prelude StatusCode Abilities Identifier FileFormat Access.

#[global] Instance ModuleHandle_eq_dec : EqDecision ModuleHandle.
Proof. solve_decision. Defined.
#[global] Instance Constant_eq_dec : EqDecision Constant.
Proof. solve_decision. Defined.
#[global] Instance FieldHandle_eq_dec : EqDecision FieldHandle.
Proof. solve_decision. Defined.
#[global] Instance StructDefInstantiation_eq_dec : EqDecision StructDefInstantiation.
Proof. solve_decision. Defined.
#[global] Instance FunctionInstantiation_eq_dec : EqDecision FunctionInstantiation.
Proof. solve_decision. Defined.
#[global] Instance FieldInstantiation_eq_dec : EqDecision FieldInstantiation.
Proof. solve_decision. Defined.

Module DuplicationChecker.
Abbreviation R := (result StatusCode).

Section distinct.
Context {A : Type} `{EqDecision A}.

(** The loop: [uniq] is the set of the elements before the [i]-th. *)
Fixpoint first_duplicate_from (uniq : list A) (i : Z) (iter : list A) : option TableIndex :=
  match iter with
  | [] => None
  | x :: iter =>
    if bool_decide (x ∈ uniq) then Some (i mod 2 ^ 16)
    else first_duplicate_from (x :: uniq) (i + 1) iter
  end.

Definition first_duplicate_element (iter : list A) : option TableIndex := first_duplicate_from [] 0 iter.

(** [match first_duplicate_element(..) { Some(idx) => Err(status), None => Ok(()) }] *)
Definition check_distinct (status : StatusCode) (iter : list A) : R () :=
  match first_duplicate_element iter with Some _ => Err status | None => Ok () end.
End distinct.

(** [Iterator::position] with a predicate that may panic. *)
Fixpoint position {A} (f : A -> R bool) (iter : list A) : R (option nat) :=
  match iter with
  | [] => Ok None
  | x :: iter =>
    b ← f x;
    if (b : bool) then Ok (Some O) else i ← position f iter; Ok (option_map S i)
  end.

(** [if let Some(idx) = iter.position(f) { return Err(status) }] *)
Definition check_position {A} (status : StatusCode) (f : A -> R bool) (iter : list A) : R () :=
  idx ← position f iter;
  match idx with Some _ => Err status | None => Ok () end.

Definition check_identifiers (identifiers : list Identifier) : R () :=
  check_distinct DUPLICATE_ELEMENT (identifiers : list (list Z)).
Definition check_address_identifiers (address_identifiers : list AccountAddress) : R () :=
  check_distinct DUPLICATE_ELEMENT (address_identifiers : list (list Z)).
Definition check_constants (constant_pool : list Constant) : R () :=
  check_distinct DUPLICATE_ELEMENT constant_pool.
Definition check_signatures (signatures : list Signature) : R () :=
  check_distinct DUPLICATE_ELEMENT (signatures : list (list SignatureToken)).
Definition check_module_handles (module_handles : list ModuleHandle) : R () :=
  check_distinct DUPLICATE_ELEMENT module_handles.
Definition check_struct_handles (struct_handles : list StructHandle) : R () :=
  check_distinct DUPLICATE_ELEMENT
    (map (fun x => (x.(StructHandle.module), x.(StructHandle.name)) : Z * Z) struct_handles).
Definition check_function_instantiations (function_instantiations : list FunctionInstantiation) : R () :=
  check_distinct DUPLICATE_ELEMENT function_instantiations.
Definition check_function_handles (function_handles : list FunctionHandle) : R () :=
  check_distinct DUPLICATE_ELEMENT
    (map (fun x => (x.(FunctionHandle.module), x.(FunctionHandle.name)) : Z * Z) function_handles).

Section checker.
Context (module : CompiledModule).

Definition check_field_handles : R () :=
  check_distinct DUPLICATE_ELEMENT module.(CompiledModule.field_handles).
Definition check_struct_instantiations : R () :=
  check_distinct DUPLICATE_ELEMENT module.(CompiledModule.struct_def_instantiations).
Definition check_field_instantiations : R () :=
  check_distinct DUPLICATE_ELEMENT module.(CompiledModule.field_instantiations).

(** The names of the fields of a struct. *)
Definition check_fields (struct_def : StructDefinition) : R () :=
  match struct_def.(StructDefinition.field_information) with
  | Native => Ok ()
  | Declared fields =>
    match fields with
    | [] => Err ZERO_SIZED_STRUCT
    | _ => check_distinct DUPLICATE_ELEMENT (map FieldDefinition.name fields : list Z)
    end
  end.

(** [(0..len).map(|x| x as u16)] *)
Definition indices (len : nat) : list Z := map (fun x => Z.of_nat x mod 2 ^ 16) (seq 0 len).

Definition check_struct_definitions : R () :=
  let struct_defs := module.(CompiledModule.struct_defs) in
  check_distinct DUPLICATE_ELEMENT (map StructDefinition.struct_handle struct_defs : list Z);;
  res_for struct_defs check_fields;;
  check_position INVALID_MODULE_HANDLE (fun x =>
    handle ← ModuleAccess.struct_handle_at module x.(StructDefinition.struct_handle);
    Ok (negb (handle.(StructHandle.module) =? ModuleAccess.self_handle_idx module))) struct_defs;;
  let implemented_struct_handles : list Z := map StructDefinition.struct_handle struct_defs in
  check_position UNIMPLEMENTED_HANDLE (fun y =>
    handle ← ModuleAccess.struct_handle_at module y;
    Ok ((handle.(StructHandle.module) =? ModuleAccess.self_handle_idx module) &&
        negb (bool_decide (y ∈ implemented_struct_handles))))
    (indices (length module.(CompiledModule.struct_handles))).

(** The acquires list of a function. *)
Definition check_acquires (function_def : FunctionDefinition) : R () :=
  check_distinct DUPLICATE_ACQUIRES_ANNOTATION
    (function_def.(FunctionDefinition.acquires_global_resources) : list Z).

Definition check_function_defintions : R () :=
  let function_defs := module.(CompiledModule.function_defs) in
  check_distinct DUPLICATE_ELEMENT (map FunctionDefinition.function function_defs : list Z);;
  res_for function_defs check_acquires;;
  check_position INVALID_MODULE_HANDLE (fun x =>
    handle ← ModuleAccess.function_handle_at module x.(FunctionDefinition.function);
    Ok (negb (handle.(FunctionHandle.module) =? ModuleAccess.self_handle_idx module))) function_defs;;
  let implemented_function_handles : list Z := map FunctionDefinition.function function_defs in
  check_position UNIMPLEMENTED_HANDLE (fun y =>
    handle ← ModuleAccess.function_handle_at module y;
    Ok ((handle.(FunctionHandle.module) =? ModuleAccess.self_handle_idx module) &&
        negb (bool_decide (y ∈ implemented_function_handles))))
    (indices (length module.(CompiledModule.function_handles))).
End checker.

Definition verify_module_impl (module : CompiledModule) : R () :=
  check_identifiers module.(CompiledModule.identifiers);;
  check_address_identifiers module.(CompiledModule.address_identifiers);;
  check_constants module.(CompiledModule.constant_pool);;
  check_signatures module.(CompiledModule.signatures);;
  check_module_handles module.(CompiledModule.module_handles);;
  check_module_handles module.(CompiledModule.friend_decls);;
  check_struct_handles module.(CompiledModule.struct_handles);;
  check_function_handles module.(CompiledModule.function_handles);;
  check_function_instantiations module.(CompiledModule.function_instantiations);;
  check_field_handles module;;
  check_field_instantiations module;;
  check_function_defintions module;;
  check_struct_definitions module;;
  check_struct_instantiations module.

Definition verify_script_impl (script : CompiledScript) : R () :=
  check_identifiers script.(CompiledScript.identifiers);;
  check_address_identifiers script.(CompiledScript.address_identifiers);;
  check_constants script.(CompiledScript.constant_pool);;
  check_signatures script.(CompiledScript.signatures);;
  check_module_handles script.(CompiledScript.module_handles);;
  check_struct_handles script.(CompiledScript.struct_handles);;
  check_function_handles script.(CompiledScript.function_handles);;
  check_function_instantiations script.(CompiledScript.function_instantiations).
End DuplicationChecker.
