(* ===== verification/DuplicationTheorems.v ===== *)
(** The duplication checker accepts exactly the modules in which every table has distinct
    elements and the definitions of the module are in bijection with its own handles. *)
From S2P Require Import Prelude StatusCode Abilities Identifier FileFormat WellFormed Access.
From S2P Require Import BoundsChecker BoundsSpec DuplicationChecker.
Import DuplicationChecker.

(** * The specification *)

(** The definitions of [defs], which have the handles [handle_of], are one for each of the
    [handles] that name the module [self]. *)
Definition defines {D H : Type} (self : ModuleHandleIndex) (handles : list H) (module_of : H -> ModuleHandleIndex)
    (defs : list D) (handle_of : D -> TableIndex) : Prop :=
  NoDup (map handle_of defs) /\
  (forall d, d ∈ defs -> exists h, handles !! into_index (handle_of d) = Some h /\ module_of h = self) /\
  (forall i h, handles !! i = Some h -> module_of h = self -> exists d, d ∈ defs /\ into_index (handle_of d) = i).

Record distinct_module (m : CompiledModule) : Prop := {
  distinct_identifiers : NoDup (m.(CompiledModule.identifiers) : list (list Z));
  distinct_addresses : NoDup (m.(CompiledModule.address_identifiers) : list (list Z));
  distinct_constants : NoDup m.(CompiledModule.constant_pool);
  distinct_signatures : NoDup (m.(CompiledModule.signatures) : list (list SignatureToken));
  distinct_module_handles : NoDup m.(CompiledModule.module_handles);
  distinct_friends : NoDup m.(CompiledModule.friend_decls);
  distinct_struct_handles :
    NoDup (map (fun h => (h.(StructHandle.module), h.(StructHandle.name))) m.(CompiledModule.struct_handles));
  distinct_function_handles :
    NoDup (map (fun h => (h.(FunctionHandle.module), h.(FunctionHandle.name))) m.(CompiledModule.function_handles));
  distinct_function_instantiations : NoDup m.(CompiledModule.function_instantiations);
  distinct_field_handles : NoDup m.(CompiledModule.field_handles);
  distinct_field_instantiations : NoDup m.(CompiledModule.field_instantiations);
  distinct_struct_instantiations : NoDup m.(CompiledModule.struct_def_instantiations);
  distinct_acquires : Forall (fun d => NoDup (d.(FunctionDefinition.acquires_global_resources) : list Z))
    m.(CompiledModule.function_defs);
  distinct_fields : Forall (fun d => forall fields, d.(StructDefinition.field_information) = Declared fields ->
    fields <> [] /\ NoDup (map FieldDefinition.name fields)) m.(CompiledModule.struct_defs);
  functions_defined : defines (ModuleAccess.self_handle_idx m) m.(CompiledModule.function_handles)
    FunctionHandle.module m.(CompiledModule.function_defs) FunctionDefinition.function;
  structs_defined : defines (ModuleAccess.self_handle_idx m) m.(CompiledModule.struct_handles)
    StructHandle.module m.(CompiledModule.struct_defs) StructDefinition.struct_handle }.

(** * The checks *)

Lemma first_duplicate_none {A} `{EqDecision A} uniq i (l : list A) :
  first_duplicate_from uniq i l = None <-> NoDup l /\ forall x, x ∈ l -> x ∉ uniq.
Proof.
  revert uniq i. induction l as [|x l IH]; intros uniq i; cbn [first_duplicate_from].
  { split; [|done]. intros _. split; [constructor|]. by intros x Hx%elem_of_nil. }
  rewrite list.NoDup_cons. destruct (bool_decide_reflect (x ∈ uniq)) as [Hx|Hx].
  - split; [done|]. intros [_ Hl]. by destruct (Hl x (list_elem_of_here _ _)).
  - rewrite IH. setoid_rewrite elem_of_cons. naive_solver.
Qed.

Lemma check_distinct_ok {A} `{EqDecision A} status (l : list A) :
  safe (check_distinct status l) /\ (check_distinct status l = Ok () <-> NoDup l).
Proof.
  unfold check_distinct, first_duplicate_element. destruct (first_duplicate_from [] 0 l) eqn:E; (split; [done|]).
  - split; [discriminate|]. intros Hl. assert (first_duplicate_from [] 0 l = None) as E'; [|congruence].
    apply first_duplicate_none. split; [done|]. intros x _. apply not_elem_of_nil.
  - split; [|reflexivity]. intros _. by apply first_duplicate_none in E as [E _].
Qed.

Lemma check_position_ok {A} status (f : A -> R bool) (P : A -> Prop) (l : list A) :
  (forall x, x ∈ l -> exists b, f x = Ok b /\ (b = false <-> P x)) ->
  safe (check_position status f l) /\
  (check_position status f l = Ok () <-> forall x, x ∈ l -> P x).
Proof.
  intros Hf. assert (exists o, position f l = Ok o /\ (o = None <-> forall x, x ∈ l -> P x)) as (o & E & Ho).
  { induction l as [|x l IH]; cbn [position]; [exists None; split; [done|]; split; [|done]; by intros _ x ?%elem_of_nil|].
    destruct (Hf x (list_elem_of_here _ _)) as ([|] & -> & Hx); cbn [mbind result_bind].
    { eexists. split; [reflexivity|]. split; [done|]. intros H. by specialize (proj2 Hx (H x (list_elem_of_here _ _))). }
    destruct IH as (o & -> & Ho); [intros y Hy; apply Hf; by right|]. cbn [mbind result_bind].
    eexists. split; [reflexivity|]. setoid_rewrite elem_of_cons. destruct o; naive_solver. }
  unfold check_position. rewrite E. cbn [mbind result_bind]. destruct o; naive_solver.
Qed.

Lemma res_for_each {A} (f : A -> R ()) (P : A -> Prop) l :
  (forall x, safe (f x) /\ (f x = Ok () <-> P x)) ->
  safe (res_for l f) /\ (res_for l f = Ok () <-> Forall P l).
Proof.
  intros Hf. split; [by apply res_for_safe; intros x _; apply Hf|]. rewrite res_for_ok.
  split; intros H; (eapply List.Forall_impl; [|exact H]); intros x; apply Hf.
Qed.

Lemma check_fields_ok d :
  safe (check_fields d) /\ (check_fields d = Ok () <-> forall fields,
    d.(StructDefinition.field_information) = Declared fields -> fields <> [] /\ NoDup (map FieldDefinition.name fields)).
Proof.
  unfold check_fields. destruct (StructDefinition.field_information d) as [|[|f fields]]; [done|naive_solver|].
  destruct (check_distinct_ok DUPLICATE_ELEMENT (map FieldDefinition.name (f :: fields) : list Z)) as [Hs Hd].
  split; [exact Hs|]. etransitivity; [exact Hd|]. naive_solver.
Qed.

(** The two checks on definitions and handles, for structs and functions alike. *)
Section defines.
Context {D H : Type} (self : ModuleHandleIndex) (handles : list H) (module_of : H -> ModuleHandleIndex).
Context (defs : list D) (handle_of : D -> TableIndex) (handle_at : TableIndex -> R H).
Hypothesis Hat : forall idx h, handles !! into_index idx = Some h -> handle_at idx = Ok h.
Hypothesis Hdefs : forall d, d ∈ defs -> 0 <= handle_of d /\ idx_ok handles (handle_of d).
Hypothesis Hlen : zlen handles <= 2 ^ 16.

Lemma self_check status :
  let c := check_position status (fun d => h ← handle_at (handle_of d); Ok (negb (module_of h =? self))) defs in
  safe c /\ (c = Ok () <-> forall d, d ∈ defs ->
    exists h, handles !! into_index (handle_of d) = Some h /\ module_of h = self).
Proof using Hat Hdefs.
  apply check_position_ok. intros d Hd. destruct (Hdefs d Hd) as [_ [h Hh]%idx_ok_lookup].
  exists (negb (module_of h =? self)). rewrite (Hat _ _ Hh). split; [done|].
  rewrite negb_false_iff, Z.eqb_eq, Hh. naive_solver.
Qed.

Lemma elem_of_indices len y : y ∈ indices len <-> exists i, (i < len)%nat /\ y = Z.of_nat i mod 2 ^ 16.
Proof.
  unfold indices. rewrite list_elem_of_In, in_map_iff. setoid_rewrite in_seq. split.
  - intros (i & <- & Hi). exists i. split; [lia|done].
  - intros (i & Hi & ->). exists i. split; [done|lia].
Qed.

Lemma implemented_check status :
  let c := check_position status (fun y => h ← handle_at y;
    Ok ((module_of h =? self) && negb (bool_decide (y ∈ (map handle_of defs : list Z))))) (indices (length handles)) in
  safe c /\ (c = Ok () <-> forall i h, handles !! i = Some h -> module_of h = self ->
    exists d, d ∈ defs /\ into_index (handle_of d) = i).
Proof using Hat Hdefs Hlen.
  cbn zeta.
  destruct (check_position_ok status (fun y => h ← handle_at y;
    Ok ((module_of h =? self) && negb (bool_decide (y ∈ (map handle_of defs : list Z)))))
    (fun y => forall h, handles !! into_index y = Some h -> module_of h = self -> y ∈ (map handle_of defs : list Z))
    (indices (length handles))) as [Hs Hp].
  - intros y (i & Hi & ->)%elem_of_indices. rewrite Z.mod_small by lia.
    destruct (lookup_lt_is_Some_2 handles i Hi) as [h Hh].
    assert (handles !! into_index (Z.of_nat i) = Some h) as Hh' by (unfold into_index; by rewrite Nat2Z.id).
    rewrite (Hat _ _ Hh'). eexists. split; [reflexivity|]. rewrite andb_false_iff, Z.eqb_neq, negb_false_iff, bool_decide_eq_true.
    rewrite Hh'. split; [naive_solver|]. intros Hy. destruct (Z.eq_dec (module_of h) self); naive_solver.
  - split; [exact Hs|]. rewrite Hp. split.
    + intros Hy i h Hh Hm. pose proof (lookup_lt_Some _ _ _ Hh) as Hi.
      assert (Z.of_nat i ∈ (map handle_of defs : list Z)) as Hin.
      { apply (Hy (Z.of_nat i)) with h; [|unfold into_index; by rewrite Nat2Z.id|done].
        apply elem_of_indices. exists i. by rewrite Z.mod_small by lia. }
      apply list_elem_of_In, in_map_iff in Hin as (d & Ed & Hd). exists d.
      split; [by apply list_elem_of_In|]. unfold into_index. lia.
    + intros Hi y (i & Hl & ->)%elem_of_indices h Hh Hm. destruct (Hi _ _ Hh Hm) as (d & Hd & E).
      destruct (Hdefs d Hd) as [H0 _]. rewrite Z.mod_small in * by lia.
      apply list_elem_of_In, in_map_iff. exists d. split; [unfold into_index in E; lia|by apply list_elem_of_In].
Qed.
End defines.

(** A sequence of checks. *)
Lemma seq_spec (a b : R ()) (P Q : Prop) :
  safe a /\ (a = Ok () <-> P) -> (a = Ok () -> safe b /\ (b = Ok () <-> Q)) ->
  safe (a;; b) /\ ((a;; b) = Ok () <-> P /\ Q).
Proof. intros [Hs Ha] Hb. destruct a as [[]| | |]; cbn; try done; naive_solver. Qed.

Section module.
Context (m : CompiledModule) (Hwf : wf_module m = true) (Hin : in_bounds (BinaryIndexedView.Module_ m)).

Lemma struct_definitions_ok :
  zlen m.(CompiledModule.struct_handles) <= 2 ^ 16 ->
  safe (check_struct_definitions m) /\ (check_struct_definitions m = Ok () <->
    Forall (fun d => forall fields, d.(StructDefinition.field_information) = Declared fields ->
      fields <> [] /\ NoDup (map FieldDefinition.name fields)) m.(CompiledModule.struct_defs) /\
    defines (ModuleAccess.self_handle_idx m) m.(CompiledModule.struct_handles)
      StructHandle.module m.(CompiledModule.struct_defs) StructDefinition.struct_handle).
Proof.
  intros Hlen.
  assert (forall d, d ∈ m.(CompiledModule.struct_defs) -> 0 <= d.(StructDefinition.struct_handle) /\
    idx_ok m.(CompiledModule.struct_handles) d.(StructDefinition.struct_handle)) as Hdefs.
  { intros d Hd%list_elem_of_In. pose proof (struct_defs_in _ Hin) as Hs. rewrite Forall_forall in Hs.
    destruct (Hs d Hd) as (sh & E & _). split; [|by apply lookup_lt_Some in E].
    unfold wf_module in Hwf. wf_split. rewrite Forall_forall in *.
    match goal with H : forall x, In x m.(CompiledModule.struct_defs) -> _ |- _ => specialize (H d Hd) end.
    unfold wf_struct_definition in *. wf_split. lia. }
  unfold check_struct_definitions.
  pose proof (self_check (ModuleAccess.self_handle_idx m) m.(CompiledModule.struct_handles) StructHandle.module
    m.(CompiledModule.struct_defs) StructDefinition.struct_handle (ModuleAccess.struct_handle_at m)
    (view_struct_handle_at _ Hin) Hdefs INVALID_MODULE_HANDLE) as Hself.
  pose proof (implemented_check (ModuleAccess.self_handle_idx m) m.(CompiledModule.struct_handles) StructHandle.module
    m.(CompiledModule.struct_defs) StructDefinition.struct_handle (ModuleAccess.struct_handle_at m)
    (view_struct_handle_at _ Hin) Hdefs Hlen UNIMPLEMENTED_HANDLE) as Himpl.
  pose proof (seq_spec _ _ _ _ Hself (fun _ => Himpl)) as H.
  pose proof (seq_spec _ _ _ _ (res_for_each check_fields _ m.(CompiledModule.struct_defs) check_fields_ok) (fun _ => H)) as H'.
  pose proof (seq_spec _ _ _ _ (check_distinct_ok DUPLICATE_ELEMENT
    (map StructDefinition.struct_handle m.(CompiledModule.struct_defs) : list Z)) (fun _ => H')) as [Hs Hr].
  split; [exact Hs|]. etransitivity; [exact Hr|]. unfold defines. tauto.
Qed.

Lemma function_definitions_ok :
  zlen m.(CompiledModule.function_handles) <= 2 ^ 16 ->
  safe (check_function_defintions m) /\ (check_function_defintions m = Ok () <->
    Forall (fun d => NoDup (d.(FunctionDefinition.acquires_global_resources) : list Z))
      m.(CompiledModule.function_defs) /\
    defines (ModuleAccess.self_handle_idx m) m.(CompiledModule.function_handles)
      FunctionHandle.module m.(CompiledModule.function_defs) FunctionDefinition.function).
Proof.
  intros Hlen.
  assert (forall d, d ∈ m.(CompiledModule.function_defs) -> 0 <= d.(FunctionDefinition.function) /\
    idx_ok m.(CompiledModule.function_handles) d.(FunctionDefinition.function)) as Hdefs.
  { intros d Hd%list_elem_of_In. pose proof (function_defs_in _ Hin) as Hs. rewrite Forall_forall in Hs.
    destruct (Hs d Hd) as (E & _). split; [|exact E].
    unfold wf_module in Hwf. wf_split. rewrite Forall_forall in *.
    match goal with H : forall x, In x m.(CompiledModule.function_defs) -> _ |- _ => specialize (H d Hd) end.
    unfold wf_function_definition in *. wf_split. lia. }
  unfold check_function_defintions.
  pose proof (self_check (ModuleAccess.self_handle_idx m) m.(CompiledModule.function_handles) FunctionHandle.module
    m.(CompiledModule.function_defs) FunctionDefinition.function (ModuleAccess.function_handle_at m)
    (view_function_handle_at _ Hin) Hdefs INVALID_MODULE_HANDLE) as Hself.
  pose proof (implemented_check (ModuleAccess.self_handle_idx m) m.(CompiledModule.function_handles) FunctionHandle.module
    m.(CompiledModule.function_defs) FunctionDefinition.function (ModuleAccess.function_handle_at m)
    (view_function_handle_at _ Hin) Hdefs Hlen UNIMPLEMENTED_HANDLE) as Himpl.
  pose proof (seq_spec _ _ _ _ Hself (fun _ => Himpl)) as H.
  pose proof (seq_spec _ _ _ _ (res_for_each check_acquires _ m.(CompiledModule.function_defs)
    (fun d => check_distinct_ok DUPLICATE_ACQUIRES_ANNOTATION
       (d.(FunctionDefinition.acquires_global_resources) : list Z))) (fun _ => H)) as H'.
  pose proof (seq_spec _ _ _ _ (check_distinct_ok DUPLICATE_ELEMENT
    (map FunctionDefinition.function m.(CompiledModule.function_defs) : list Z)) (fun _ => H')) as [Hs Hr].
  split; [exact Hs|]. etransitivity; [exact Hr|]. unfold defines. tauto.
Qed.
End module.

Lemma duplication_decides (m : CompiledModule) :
  wf_module m = true -> BoundsChecker.verify_module m = Ok () ->
  zlen m.(CompiledModule.struct_handles) <= 2 ^ 16 -> zlen m.(CompiledModule.function_handles) <= 2 ^ 16 ->
  safe (DuplicationChecker.verify_module_impl m) /\
  (DuplicationChecker.verify_module_impl m = Ok () <-> distinct_module m).
Proof.
  intros Hwf [_ Hin]%verify_module_ok Hsl Hfl.
  match goal with |- safe ?c /\ _ => assert (exists P, (safe c /\ (c = Ok () <-> P)) /\ (P <-> distinct_module m))
    as (P & [Hs HP] & Hd) end; [|split; [done|by rewrite HP]].
  eexists. split.
  - do 11 (eapply seq_spec; [apply check_distinct_ok|intros _]).
    eapply seq_spec; [by apply function_definitions_ok|intros _].
    eapply seq_spec; [by apply struct_definitions_ok|intros _]. apply check_distinct_ok.
  - split; [|by intros []].
    intros (? & ? & ? & ? & ? & ? & ? & ? & ? & ? & ? & [? ?] & [? ?] & ?). by constructor.
Qed.

(** C31: the duplication checker decides its specification.  On every module that the
    bounds checker accepts, with at most 2^16 handles, it returns, and it accepts exactly
    the modules in which each table has distinct elements, no struct is empty, and the
    struct and function definitions are in bijection with the handles of the module
    itself. *)
Theorem duplication_exact (m : CompiledModule) :
  wf_module m = true -> BoundsChecker.verify_module m = Ok () ->
  zlen m.(CompiledModule.struct_handles) <= 2 ^ 16 -> zlen m.(CompiledModule.function_handles) <= 2 ^ 16 ->
  safe (DuplicationChecker.verify_module_impl m) /\
  (DuplicationChecker.verify_module_impl m = Ok () <-> distinct_module m).
Proof. apply duplication_decides. Qed.

Lemma duplication_exact_witness :
  safe (DuplicationChecker.verify_module_impl basic_test_module) /\ distinct_module basic_test_module.
Proof.
  destruct (duplication_exact basic_test_module) as [Hs Hd];
    [vm_compute; reflexivity|vm_compute; reflexivity|vm_compute; discriminate|vm_compute; discriminate|].
  split; [exact Hs|]. apply Hd. vm_compute. reflexivity.
Defined.
