(* ===== verification/StructDefs.v ===== *)
(** Recursive structs: move-bytecode-verifier/src/struct_defs.rs.  The graph of the struct
    definitions, with an edge from a struct to each struct that its fields mention, must
    not have a cycle.  The topological sort of the crate petgraph is a parameter. *)
From S2P Require Import Prelude StatusCode Abilities Identifier FileFormat Access BTree.

(** [StructDefGraphBuilder] *)
Module StructDefGraphBuilder.
Abbreviation neighbors := (BTreeMap BTreeSet).
Abbreviation M := (ST neighbors StatusCode).

Record StructDefGraphBuilder : Set := mk { module : CompiledModule; handle_to_def : BTreeMap Z }.

(** The definitions with their indices, as [enumerate] gives them, [as TableIndex]. *)
Definition enumerate {A} (l : list A) : list (Z * A) :=
  zip (map (fun i => Z.of_nat i mod 2 ^ 16) (seq 0 (length l))) l.

Definition new (module : CompiledModule) : StructDefGraphBuilder :=
  mk module (foldl (fun m '(idx, struct_def) =>
               BTreeMap.insert struct_def.(StructDefinition.struct_handle) idx m)
             BTreeMap.empty (enumerate module.(CompiledModule.struct_defs))).

(** [neighbors.entry(cur_idx).or_insert_with(BTreeSet::new).insert(struct_def_idx)] *)
Definition add_neighbor (cur_idx struct_def_idx : StructDefinitionIndex) : M () := fun neighbors =>
  Ok ((), BTreeMap.insert cur_idx
            (BTreeSet.insert struct_def_idx (default BTreeSet.empty (BTreeMap.get cur_idx neighbors)))
            neighbors).

Section builder.
Context (self : StructDefGraphBuilder).

(** The edge to the definition of a handle, if the module defines it. *)
Definition add_handle (cur_idx : StructDefinitionIndex) (sh_idx : StructHandleIndex) : M () :=
  match BTreeMap.get sh_idx self.(handle_to_def) with
  | Some struct_def_idx => add_neighbor cur_idx struct_def_idx
  | None => mret ()
  end.

Fixpoint add_signature_token (cur_idx : StructDefinitionIndex) (token : SignatureToken) : M () :=
  match token with
  | SignatureToken.Bool | SignatureToken.U8 | SignatureToken.U64 | SignatureToken.U128
  | SignatureToken.Address | SignatureToken.Signer | SignatureToken.TypeParameter _ => mret ()
  | SignatureToken.Reference _ | SignatureToken.MutableReference _ =>
    st_err UNKNOWN_INVARIANT_VIOLATION_ERROR
  | SignatureToken.Vector inner => add_signature_token cur_idx inner
  | SignatureToken.Struct sh_idx => add_handle cur_idx sh_idx
  | SignatureToken.StructInstantiation sh_idx inners =>
    add_handle cur_idx sh_idx;;
    (fix go (tys : list SignatureToken) : M () :=
       match tys with
       | [] => mret ()
       | t :: tys => add_signature_token cur_idx t;; go tys
       end) inners
  end.

(** [StructDefinitionView::new] reads the handle of the struct. *)
Definition add_struct_defs (idx : StructDefinitionIndex) : M () :=
  struct_def ← st_lift (ModuleAccess.struct_def_at self.(module) idx);
  st_lift (ModuleAccess.struct_handle_at self.(module) struct_def.(StructDefinition.struct_handle));;
  match struct_def.(StructDefinition.field_information) with
  | Native => mret ()
  | Declared fields =>
    st_for fields (fun field => add_signature_token idx field.(FieldDefinition.signature))
  end.

(** The edges from which [DiGraphMap::from_edges] makes the graph. *)
Definition build : result StatusCode (list (Z * Z)) :=
  let indices := map fst (enumerate self.(module).(CompiledModule.struct_defs)) in
  '(_, neighbors) ← st_for indices add_struct_defs BTreeMap.empty;
  Ok (flat_map (fun '(parent, children) => map (fun child => (parent, child)) children) neighbors).
End builder.
End StructDefGraphBuilder.

Module RecursiveStructDefChecker.
Section checker.
(** [petgraph::algo::toposort]: the nodes in order, or a node of a cycle. *)
Context (toposort : list (Z * Z) -> Z + list Z).

Definition verify_module_impl (module : CompiledModule) : result StatusCode () :=
  graph ← StructDefGraphBuilder.build (StructDefGraphBuilder.new module);
  match toposort graph with
  | inr _ => Ok ()
  | inl _ => Err RECURSIVE_STRUCT_DEFINITION
  end.
End checker.
End RecursiveStructDefChecker.

(** * The graph of struct definitions *)

Import StructDefGraphBuilder.

(** A type mentions a struct handle. *)
Inductive mentions (h : StructHandleIndex) : SignatureToken -> Prop :=
| mentions_struct : mentions h (SignatureToken.Struct h)
| mentions_inst args : mentions h (SignatureToken.StructInstantiation h args)
| mentions_arg h' args t : t ∈ args -> mentions h t -> mentions h (SignatureToken.StructInstantiation h' args)
| mentions_vector t : mentions h t -> mentions h (SignatureToken.Vector t).

(** The [i]-th struct definition has a field whose type mentions the [j]-th. *)
Definition contains (m : CompiledModule) (i j : Z) : Prop :=
  exists d fields f d', m.(CompiledModule.struct_defs) !! Z.to_nat i = Some d /\
    m.(CompiledModule.struct_defs) !! Z.to_nat j = Some d' /\ 0 <= i /\ 0 <= j /\
    d.(StructDefinition.field_information) = Declared fields /\ f ∈ fields /\
    mentions d'.(StructDefinition.struct_handle) f.(FieldDefinition.signature).

(** What petgraph documents of [toposort], on one graph. *)
Definition toposort_ok (toposort : list (Z * Z) -> Z + list Z) (edges : list (Z * Z)) : Prop :=
  match toposort edges with
  | inr order => NoDup order /\ forall a b, (a, b) ∈ edges ->
      exists i j, (i < j)%nat /\ order !! i = Some a /\ order !! j = Some b
  | inl node => Relation_Operators.clos_trans Z (fun a b => (a, b) ∈ edges) node node
  end.
