(* ===== verification/StructDefsTheorems.v ===== *)
(** The recursion checker accepts exactly the modules whose structs have a finite nesting
    depth. *)
From S2P Require Import Prelude StatusCode Abilities Identifier FileFormat WellFormed Access BTree.
From S2P Require Import BoundsChecker BoundsSpec SignatureChecker DuplicationChecker DuplicationTheorems StructDefs.
Import StructDefGraphBuilder.

(** * Adding edges *)

Definition edge_in (nb : neighbors) (a b : Z) : Prop := exists s, BTreeMap.get a nb = Some s /\ b ∈ s.

Abbreviation adds := (adds (BTreeMap.sorted (V := BTreeSet)) edge_in).

Lemma adds_neighbor cur x : adds (add_neighbor cur x) (fun a b => a = cur /\ b = x).
Proof.
  intros nb Hs. eexists. split; [reflexivity|]. split; [by apply BTreeMap.insert_sorted|].
  intros a b. unfold edge_in. rewrite BTreeMap.get_insert. destruct (Z.eqb_spec a cur) as [-> |Hne].
  - split.
    + intros (s & [= <-] & [-> |Hb]%BTreeSet.elem_of_insert); [by right|].
      destruct (BTreeMap.get cur nb) as [s|]; cbn in Hb; [left; by exists s|by apply elem_of_nil in Hb].
    + intros H. eexists. split; [reflexivity|]. apply BTreeSet.elem_of_insert.
      destruct H as [(s & -> & Hb)|[_ ->]]; [by right|by left].
  - naive_solver.
Qed.

Section builder.
Context (self : StructDefGraphBuilder).

(** The definition of a struct that a type mentions. *)
Definition leads_to (t : SignatureToken) (b : Z) : Prop :=
  exists h, mentions h t /\ BTreeMap.get h self.(handle_to_def) = Some b.

Lemma adds_handle cur h :
  adds (add_handle self cur h) (fun a b => a = cur /\ BTreeMap.get h self.(handle_to_def) = Some b).
Proof.
  unfold add_handle. destruct (BTreeMap.get h self.(handle_to_def)) as [x|] eqn:E.
  - eapply adds_iff; [apply adds_neighbor|]. naive_solver.
  - apply adds_ret. naive_solver.
Qed.

Lemma adds_token cur t :
  SignatureChecker.check_signature_token t = Ok () ->
  adds (add_signature_token self cur t) (fun a b => a = cur /\ leads_to t b).
Proof.
  unfold leads_to.
  induction t as [ | | | | | |t IH|h|h args IH|t IH|t IH|i] using SignatureToken.token_ind; intros Hc;
    cbn [add_signature_token]; try discriminate Hc;
    try (apply adds_ret; intros a b (_ & h & Hm & _); by inversion Hm).
  - eapply adds_iff; [by apply IH|]. intros a b. split; intros (-> & h & Hm & Hg); (split; [done|]); exists h;
      (split; [|done]); [by constructor|by inversion Hm].
  - eapply adds_iff; [apply adds_handle|]. intros a b. split.
    + intros [-> Hg]. split; [done|]. exists h. split; [constructor|done].
    + intros (-> & h' & Hm & Hg). by inversion Hm; subst.
  - assert (adds ((fix go (tys : list SignatureToken) : M () :=
       match tys with [] => mret () | t :: tys => add_signature_token self cur t;; go tys end) args)
       (fun a b => a = cur /\ exists t, t ∈ args /\ exists h, mentions h t /\ BTreeMap.get h self.(handle_to_def) = Some b)) as Hargs.
    { cbn [SignatureChecker.check_signature_token] in Hc. induction IH as [|t args Ht _ IHl].
      - apply adds_ret. by intros a b (_ & t & Ht%elem_of_nil & _).
      - apply seq_ok in Hc as [Hc Hcs]. eapply adds_seq; [by apply Ht|by apply IHl|].
        intros a b. setoid_rewrite elem_of_cons. naive_solver. }
    eapply adds_seq; [apply adds_handle|exact Hargs|]. intros a b. split.
    + intros (-> & h' & Hm & Hg). inversion Hm; subst; [by left|]. right. split; [done|]. by eauto.
    + intros [[-> Hg]|(-> & t & Ht & h' & Hm & Hg)]; (split; [done|]); eexists; (split; [|exact Hg]); econstructor; eauto.
Qed.
End builder.

(** * Enumerations *)

Lemma elem_of_enumerate {A} (l : list A) i x :
  zlen l <= 2 ^ 16 -> (i, x) ∈ enumerate l <-> exists k, l !! k = Some x /\ i = Z.of_nat k.
Proof.
  intros Hl. unfold enumerate. rewrite list_elem_of_lookup. split.
  - intros (k & E). apply lookup_zip_Some in E as [Ei Ex]. exists k. split; [done|].
    rewrite list_lookup_fmap in Ei. pose proof (lookup_lt_Some _ _ _ Ex).
    rewrite lookup_seq_lt in Ei by lia. cbn in Ei. injection Ei as <-. apply Z.mod_small. lia.
  - intros (k & Ex & ->). exists k. apply lookup_zip_Some. split; [|done]. rewrite list_lookup_fmap.
    pose proof (lookup_lt_Some _ _ _ Ex). rewrite lookup_seq_lt by lia. cbn. f_equal. apply Z.mod_small. lia.
Qed.

Lemma enumerate_snd {A} (l : list A) : map snd (enumerate l) = l.
Proof. unfold enumerate. apply snd_zip. rewrite length_map, length_seq. lia. Qed.

(** A map from keys to indices, collected from an enumeration. *)
Lemma get_enumerate {A} (key : A -> Z) (l : list A) h j :
  NoDup (map key l) -> zlen l <= 2 ^ 16 ->
  BTreeMap.get h (BTreeMap.collect (map (fun x : Z * A => (key x.2, x.1)) (enumerate l))) = Some j <->
  exists k d, l !! k = Some d /\ key d = h /\ j = Z.of_nat k.
Proof.
  intros Hnd Hl. rewrite BTreeMap.get_collect.
  - rewrite list_elem_of_In, in_map_iff. split.
    + intros ([i d] & [= <- <-] & Hx%list_elem_of_In). apply elem_of_enumerate in Hx as (k & Hk & ->); [|done].
      by exists k, d.
    + intros (k & d & Hk & <- & ->). exists (Z.of_nat k, d). split; [done|]. apply list_elem_of_In, elem_of_enumerate; eauto.
  - rewrite map_map. cbn. rewrite <- (map_map snd key). by rewrite enumerate_snd.
Qed.

(** * The graph of a module *)

Section module.
Context (m : CompiledModule).
Hypothesis Hin : in_bounds (BinaryIndexedView.Module_ m).
Hypothesis Hfields : Forall (fun d => SignatureChecker.verify_struct_def (BinaryIndexedView.Module_ m) d = Ok ())
  m.(CompiledModule.struct_defs).
Hypothesis Hdup : NoDup (map StructDefinition.struct_handle m.(CompiledModule.struct_defs)).
Hypothesis Hlen : zlen m.(CompiledModule.struct_defs) <= 2 ^ 16.
Abbreviation defs := (m.(CompiledModule.struct_defs)).

Lemma handle_to_def_ok h j :
  BTreeMap.get h (new m).(handle_to_def) = Some j <->
  exists k d, defs !! k = Some d /\ d.(StructDefinition.struct_handle) = h /\ j = Z.of_nat k.
Proof using Hdup Hlen.
  rewrite <- get_enumerate by done. unfold new, BTreeMap.collect. cbn. generalize (BTreeMap.empty (V := Z)).
  induction (enumerate defs) as [|[i d] l IH]; intros mm; cbn; [done|]. by rewrite IH.
Qed.

Lemma adds_struct_defs k d :
  defs !! k = Some d ->
  adds (add_struct_defs (new m) (Z.of_nat k)) (fun a b => a = Z.of_nat k /\ contains m a b).
Proof using Hin Hfields Hdup Hlen.
  intros Hk nb Hs. unfold add_struct_defs.
  pose proof (forall_lookup _ _ _ _ (struct_defs_in _ Hin) Hk) as (sh & Esh & _).
  pose proof (view_struct_handle_at _ Hin _ _ Esh) as Hsh. cbn in Hsh.
  assert (ModuleAccess.struct_def_at m (Z.of_nat k) = Ok d) as Hd.
  { unfold ModuleAccess.struct_def_at, index, into_index. rewrite Nat2Z.id. by rewrite Hk. }
  unfold mbind at 1, ST_bind at 1. cbn [new module]. rewrite Hd. cbn [st_lift].
  unfold mbind at 1, ST_bind at 1. rewrite Hsh. cbn [st_lift].
  pose proof (forall_lookup _ _ _ _ Hfields Hk) as Hf. unfold SignatureChecker.verify_struct_def in Hf.
  assert (forall fields, d.(StructDefinition.field_information) = Declared fields ->
    adds (st_for fields (fun field => add_signature_token (new m) (Z.of_nat k) field.(FieldDefinition.signature)))
      (fun a b => a = Z.of_nat k /\ contains m a b)) as Hadd.
  { intros fields E. rewrite E in Hf. apply res_bind_ok in Hf as (? & _ & Hf). apply res_for_ok in Hf.
    rewrite Forall_forall in Hf. eapply adds_iff.
    { apply adds_for. intros f Hfi. apply adds_token. specialize (Hf f (proj1 (list_elem_of_In _ _) Hfi)).
      unfold SignatureChecker.verify_field in Hf. by apply seq_ok in Hf as [? _]. }
    intros a b. unfold leads_to. setoid_rewrite handle_to_def_ok. split.
    - intros (f & Hfi & -> & h & Hm & k' & d' & Hk' & <- & ->). split; [done|].
      exists d, fields, f, d'. rewrite !Nat2Z.id. repeat split; try done; lia.
    - intros (-> & d1 & fs & f & d' & Hd1 & Hd' & _ & Hb & Hfs & Hfi & Hm). rewrite Nat2Z.id in Hd1.
      rewrite Hk in Hd1. injection Hd1 as <-. rewrite E in Hfs. injection Hfs as <-.
      exists f. split; [done|]. split; [done|]. eexists. split; [exact Hm|]. exists (Z.to_nat b), d'.
      repeat split; try done. lia. }
  destruct (StructDefinition.field_information d) as [|fields] eqn:E; [|by apply Hadd].
  apply adds_ret; [|done]. intros a b [-> (d1 & fs & f & d' & Hd1 & _ & _ & _ & Hfs & _)]. rewrite Nat2Z.id in Hd1.
  congruence.
Qed.

(** The edges are the containments. *)
Lemma build_ok : exists edges, build (new m) = Ok edges /\ forall a b, (a, b) ∈ edges <-> contains m a b.
Proof using Hin Hfields Hdup Hlen.
  assert (adds (st_for (map fst (enumerate defs)) (add_struct_defs (new m))) (contains m)) as Ha.
  { eapply adds_iff; [apply (adds_for _ _ _ _ (fun i a b => a = i /\ contains m a b))|].
    - intros i Hi. apply list_elem_of_In, in_map_iff in Hi as ([i' d] & Ei & Hx%list_elem_of_In). cbn in Ei. subst i'.
      apply elem_of_enumerate in Hx as (k & Hk & ->); [|done]. by eapply adds_struct_defs.
    - intros a b. split; [by intros (i & _ & -> & ?)|]. intros Hc. exists a. split; [|done].
      destruct Hc as (d & _ & _ & _ & Hd & _ & Ha & _). apply list_elem_of_In, in_map_iff. exists (a, d).
      split; [done|]. apply list_elem_of_In, elem_of_enumerate; [done|]. exists (Z.to_nat a). split; [done|lia]. }
  destruct (Ha BTreeMap.empty) as (nb & R & Hs & HE); [constructor|]. unfold build.
  cbn [new module]. rewrite R. cbn [mbind result_bind]. eexists. split; [reflexivity|]. intros a b.
  rewrite list_elem_of_In, in_flat_map. transitivity (edge_in nb a b).
  - unfold edge_in. setoid_rewrite (BTreeMap.get_elem a _ nb Hs). split.
    + intros ([a' s] & Hx%list_elem_of_In & Hb). apply in_map_iff in Hb as (? & [= -> ->] & Hb). exists s.
      split; [done|by apply list_elem_of_In].
    + intros (s & Hx & Hb). exists (a, s). split; [by apply list_elem_of_In|]. apply in_map_iff. exists b.
      split; [done|by apply list_elem_of_In].
  - rewrite HE. split; [|by right]. intros [(s & Hn & _)|?]; done.
Qed.
End module.

(** * Nesting depth *)

(** The position of [x] in [l]. *)
Fixpoint position_of (l : list Z) (x : Z) : nat :=
  match l with
  | [] => O
  | y :: l => if y =? x then O else S (position_of l x)
  end.

Lemma position_of_lookup l x i : NoDup l -> l !! i = Some x -> position_of l x = i.
Proof.
  revert i. induction l as [|y l IH]; intros i Hnd Hi; [done|]. apply list.NoDup_cons in Hnd as [Hy Hnd].
  destruct i as [|i]; cbn in Hi |- *; [injection Hi as ->; by rewrite Z.eqb_refl|].
  destruct (Z.eqb_spec y x) as [-> |]; [by destruct Hy; eapply list_elem_of_lookup_2|]. by rewrite (IH i).
Qed.

(** A node of a cycle cannot have a rank that decreases along the edges. *)
Lemma cycle_no_rank (E : Z -> Z -> Prop) (rank : Z -> nat) a b :
  (forall i j, E i j -> (rank j < rank i)%nat) -> Relation_Operators.clos_trans Z E a b -> (rank b < rank a)%nat.
Proof. intros Hr. induction 1; [auto|lia]. Qed.

(** C32: the recursion checker is exact.  After the bounds, duplication and signature
    checks, and given a topological sort that does what petgraph documents on the graph
    at hand, [RecursiveStructDefChecker] returns, and it accepts exactly the modules whose
    structs have a finite nesting depth: a rank that decreases from each struct to every
    struct that the types of its fields mention, at any depth. *)
Theorem struct_defs_exact (toposort : list (Z * Z) -> Z + list Z) (m : CompiledModule) :
  BoundsChecker.verify_module m = Ok () -> DuplicationChecker.verify_module_impl m = Ok () ->
  SignatureChecker.verify_module_impl m = Ok () -> zlen m.(CompiledModule.struct_defs) <= 2 ^ 16 ->
  (forall edges, build (new m) = Ok edges -> toposort_ok toposort edges) ->
  safe (RecursiveStructDefChecker.verify_module_impl toposort m) /\
  (RecursiveStructDefChecker.verify_module_impl toposort m = Ok () <->
   exists rank : Z -> nat, forall i j, contains m i j -> (rank j < rank i)%nat).
Proof.
  intros [_ Hin]%verify_module_ok Hd Hs Hlen Ht.
  assert (NoDup (map StructDefinition.struct_handle m.(CompiledModule.struct_defs))) as Hdup.
  { unfold DuplicationChecker.verify_module_impl in Hd. rewrite !seq_ok in Hd.
    destruct Hd as (_ & _ & _ & _ & _ & _ & _ & _ & _ & _ & _ & _ & Hd & _).
    unfold DuplicationChecker.check_struct_definitions in Hd. rewrite seq_ok in Hd. destruct Hd as [Hd _].
    by apply check_distinct_ok in Hd. }
  assert (Forall (fun d => SignatureChecker.verify_struct_def (BinaryIndexedView.Module_ m) d = Ok ())
    m.(CompiledModule.struct_defs)) as Hf.
  { unfold SignatureChecker.verify_module_impl in Hs. rewrite !seq_ok in Hs. destruct Hs as (_ & _ & Hs & _).
    by apply res_for_ok. }
  destruct (build_ok m Hin Hf Hdup Hlen) as (edges & Eb & HE). specialize (Ht edges Eb). unfold toposort_ok in Ht.
  unfold RecursiveStructDefChecker.verify_module_impl. rewrite Eb. cbn [mbind result_bind].
  destruct (toposort edges) as [node|order]; (split; [done|]).
  - split; [done|]. intros [rank Hr]. assert (rank node < rank node)%nat; [|lia].
    eapply cycle_no_rank; [|exact Ht]. intros i j Hij%HE. by apply Hr.
  - split; [|done]. intros _. destruct Ht as [Hnd Hord]. exists (fun x => length order - position_of order x)%nat.
    intros i j Hij%HE. destruct (Hord i j Hij) as (a & b & Hab & Ha & Hb).
    rewrite (position_of_lookup order i a), (position_of_lookup order j b) by done.
    apply lookup_lt_Some in Hb. lia.
Qed.

(** A module with a struct [Inner { x: u64 }] and a struct [Outer { v: vector<Inner> }]. *)
Definition nested_module : CompiledModule :=
  CompiledModule.mk VERSION_MAX 0 [ModuleHandle.mk 0 0]
    [StructHandle.mk 0 1 AbilitySet.EMPTY []; StructHandle.mk 0 2 AbilitySet.EMPTY []] [] [] [] [] [] [] []
    [Identifier.self_bytes; [73]; [79]; [120]] [AccountAddress_ZERO] []
    [StructDefinition.mk 0 (Declared [FieldDefinition.mk 3 SignatureToken.U64]);
     StructDefinition.mk 1 (Declared [FieldDefinition.mk 3 (SignatureToken.Vector (SignatureToken.Struct 0))])] [].

Lemma struct_defs_exact_witness :
  RecursiveStructDefChecker.verify_module_impl (fun _ => inr [1; 0]) nested_module = Ok () /\
  exists rank : Z -> nat, forall i j, contains nested_module i j -> (rank j < rank i)%nat.
Proof.
  destruct (struct_defs_exact (fun _ => inr [1; 0]) nested_module) as [_ Hr];
    [vm_compute; reflexivity|vm_compute; reflexivity|vm_compute; reflexivity|vm_compute; discriminate| |].
  - intros edges E. vm_compute in E. injection E as <-. split; [apply (bool_decide_unpack _); vm_compute; reflexivity|].
    intros a b Hab%list_elem_of_singleton. injection Hab as -> ->. exists 0%nat, 1%nat. split; [lia|done].
  - split; [vm_compute; reflexivity|]. apply Hr. vm_compute. reflexivity.
Defined.
