(* ===== verification/InstantiationLoops.v ===== *)
(** Instantiation loops: move-bytecode-verifier/src/instantiation_loops.rs.  The graph of
    the type parameters of the generic functions of a module, with an edge for each type
    parameter of a caller that occurs in a type argument of a call, must not have a cycle
    on which a type grows.  The strongly connected components of the crate petgraph are
    a parameter. *)
From S2P Require Import Prelude StatusCode Abilities Identifier FileFormat Access BTree StructDefs.
Import StructDefGraphBuilder(enumerate).

Module InstantiationLoopChecker.
(** A type parameter of a function. *)
Definition Node : Set := FunctionDefinitionIndex * TypeParameterIndex.

Inductive Edge : Set :=
| Identity
| TyConApp (ty : SignatureToken).

(** [petgraph::Graph]: a node is its position in [nodes]. *)
Record Graph : Set := mk_Graph { nodes : list Node; edges : list (nat * nat * Edge) }.

Record InstantiationLoopChecker : Set := mk {
  module : CompiledModule;
  graph : Graph;
  node_map : list (Node * nat);
  func_handle_def_map : BTreeMap Z }.

Abbreviation M := (ST InstantiationLoopChecker StatusCode).

Definition new (module : CompiledModule) : InstantiationLoopChecker :=
  mk module (mk_Graph [] []) []
    (BTreeMap.collect (map (fun '(def_idx, def) => (def.(FunctionDefinition.function), def_idx))
       (enumerate module.(CompiledModule.function_defs)))).

Fixpoint node_map_get (node : Node) (node_map : list (Node * nat)) : option nat :=
  match node_map with
  | [] => None
  | (node', idx) :: node_map => if bool_decide (node = node' :> Z * Z) then Some idx else node_map_get node node_map
  end.

Definition get_or_add_node (node : Node) : M nat := fun self =>
  match node_map_get node self.(node_map) with
  | Some idx => Ok (idx, self)
  | None =>
    let idx := length self.(graph).(nodes) in
    Ok (idx, mk self.(module) (mk_Graph (self.(graph).(nodes) ++ [node]) self.(graph).(edges))
               ((node, idx) :: self.(node_map)) self.(func_handle_def_map))
  end.

(** [HashSet::insert]; the order in which the set is traversed is not specified. *)
Definition set_insert (idx : TypeParameterIndex) (type_params : list Z) : list Z :=
  if bool_decide (idx ∈ type_params) then type_params else type_params ++ [idx].

(** The function [rec] of [extract_type_parameters]. *)
Fixpoint extract_from (ty : SignatureToken) (type_params : list Z) : list Z :=
  match ty with
  | SignatureToken.Bool | SignatureToken.Address | SignatureToken.U8 | SignatureToken.U64
  | SignatureToken.U128 | SignatureToken.Signer | SignatureToken.Struct _ => type_params
  | SignatureToken.TypeParameter idx => set_insert idx type_params
  | SignatureToken.Vector ty => extract_from ty type_params
  | SignatureToken.Reference ty | SignatureToken.MutableReference ty => extract_from ty type_params
  | SignatureToken.StructInstantiation _ tys => foldl (fun type_params ty => extract_from ty type_params) type_params tys
  end.

Definition extract_type_parameters (ty : SignatureToken) : list Z := extract_from ty [].

Definition graph_add_edge (from to_ : nat) (edge : Edge) : M () := fun self =>
  Ok ((), mk self.(module) (mk_Graph self.(graph).(nodes) (self.(graph).(edges) ++ [(from, to_, edge)]))
            self.(node_map) self.(func_handle_def_map)).

Definition add_edge (node_from node_to : Node) (edge : Edge) : M () :=
  node_from_idx ← get_or_add_node node_from;
  node_to_idx ← get_or_add_node node_to;
  graph_add_edge node_from_idx node_to_idx edge.

(** The edges of one type argument. *)
Definition add_actual (caller_idx callee_idx : FunctionDefinitionIndex) (actual : Z * SignatureToken) : M () :=
  let '(formal_idx, ty) := actual in
  match ty with
  | SignatureToken.TypeParameter actual_idx =>
    add_edge (caller_idx, actual_idx) (callee_idx, formal_idx) Identity
  | _ =>
    st_for (extract_type_parameters ty) (fun type_param =>
      add_edge (caller_idx, type_param) (callee_idx, formal_idx) (TyConApp ty))
  end.

Definition build_graph_call (caller_idx callee_idx : FunctionDefinitionIndex)
    (type_actuals_idx : SignatureIndex) : M () := fun self =>
  (type_actuals ← st_lift (ModuleAccess.signature_at self.(module) type_actuals_idx);
   st_for (enumerate type_actuals) (add_actual caller_idx callee_idx)) self.

(** The edges of one instruction. *)
Definition build_graph_instr (caller_idx : FunctionDefinitionIndex) (instr : Bytecode) : M () := fun self =>
  match instr with
  | Bytecode.CallGeneric callee_inst_idx =>
    (callee_si ← st_lift (ModuleAccess.function_instantiation_at self.(module) callee_inst_idx);
     match BTreeMap.get callee_si.(FunctionInstantiation.handle) self.(func_handle_def_map) with
     | Some callee_idx =>
       build_graph_call caller_idx callee_idx callee_si.(FunctionInstantiation.type_parameters)
     | None => mret ()
     end) self
  | _ => Ok ((), self)
  end.

Definition build_graph_function_def (caller_idx : FunctionDefinitionIndex)
    (caller_def : FunctionDefinition) : M () :=
  match caller_def.(FunctionDefinition.code) with
  | Some code => st_for code.(CodeUnit.code) (build_graph_instr caller_idx)
  | None => mret ()
  end.

(** The functions are numbered after the native ones are filtered out. *)
Definition build_graph : M () := fun self =>
  st_for (enumerate (List.filter (fun def => negb (FunctionDefinition.is_native def))
            self.(module).(CompiledModule.function_defs)))
    (fun '(def_idx, func_def) => build_graph_function_def def_idx func_def) self.

Section components.
(** [petgraph::algo::tarjan_scc] *)
Context (tarjan_scc : Graph -> list (list nat)).

(** The edges of a component that stay in it. *)
Definition component_edges (g : Graph) (component : list nat) : list (nat * nat * Edge) :=
  flat_map (fun node_idx =>
    List.filter (fun '(from, to_, _) => Nat.eqb from node_idx && bool_decide (to_ ∈ component)) g.(edges))
    component.

Definition is_ty_con_app (edge : nat * nat * Edge) : bool :=
  match edge with (_, _, Identity) => false | (_, _, TyConApp _) => true end.

Definition find_non_trivial_components (g : Graph) : list (list nat * list (nat * nat * Edge)) :=
  omap (fun component =>
    let edges := component_edges g component in
    if existsb is_ty_con_app edges then Some (component, edges) else None) (tarjan_scc g).

Definition verify_module_impl (module : CompiledModule) : result StatusCode () :=
  '(_, checker) ← build_graph (new module);
  match find_non_trivial_components checker.(graph) with
  | [] => Ok ()
  | _ => Err LOOP_IN_INSTANTIATION_GRAPH
  end.
End components.
End InstantiationLoopChecker.
