(* ===== verification/InstantiationTheorems.v ===== *)
(** The instantiation loop checker finds exactly the loops on which a type grows, in a
    module without native functions; with a native function before them, it takes the
    wrong function for the caller and misses loops. *)
From Stdlib Require Import Relations.
From S2P Require Import Prelude StatusCode Abilities Identifier FileFormat WellFormed Access BTree.
From S2P Require Import BoundsChecker BoundsSpec SignatureChecker InstructionConsistency DuplicationChecker.
From S2P Require Import DuplicationTheorems StructDefs StructDefsTheorems InstantiationLoops.
Import StructDefGraphBuilder(enumerate) InstantiationLoopChecker.

(** * The specification *)

(** The type parameter [p] occurs in a type. *)
Inductive occurs (p : TypeParameterIndex) : SignatureToken -> Prop :=
| occurs_param : occurs p (SignatureToken.TypeParameter p)
| occurs_vector t : occurs p t -> occurs p (SignatureToken.Vector t)
| occurs_reference t : occurs p t -> occurs p (SignatureToken.Reference t)
| occurs_mutable t : occurs p t -> occurs p (SignatureToken.MutableReference t)
| occurs_arg h args t : t ∈ args -> occurs p t -> occurs p (SignatureToken.StructInstantiation h args).

Definition edge_of (ty : SignatureToken) : Edge :=
  match ty with SignatureToken.TypeParameter _ => Identity | _ => TyConApp ty end.

(** A call in the body of the function [f] passes a type with its parameter [p] to the
    parameter [k] of the function [g]. *)
Definition call_passes (m : CompiledModule) (d : FunctionDefinition) (p g k : Z) (w : Edge) : Prop :=
  exists c idx fi gd args ty,
    d.(FunctionDefinition.code) = Some c /\ Bytecode.CallGeneric idx ∈ c.(CodeUnit.code) /\
    m.(CompiledModule.function_instantiations) !! into_index idx = Some fi /\
    0 <= g /\ m.(CompiledModule.function_defs) !! Z.to_nat g = Some gd /\
    gd.(FunctionDefinition.function) = fi.(FunctionInstantiation.handle) /\
    m.(CompiledModule.signatures) !! into_index fi.(FunctionInstantiation.type_parameters) = Some args /\
    0 <= k /\ args !! Z.to_nat k = Some ty /\ occurs p ty /\ w = edge_of ty.

Definition instantiates (m : CompiledModule) (x y : Node) (w : Edge) : Prop :=
  exists d, 0 <= x.1 /\ m.(CompiledModule.function_defs) !! Z.to_nat x.1 = Some d /\
    call_passes m d x.2 y.1 y.2 w.

(** A loop on which a type grows: infinitely many instances. *)
Definition growing_loop (m : CompiledModule) : Prop :=
  exists x y ty, instantiates m x y (TyConApp ty) /\
    clos_refl_trans Node (fun x y => exists w, instantiates m x y w) y x.

(** What petgraph documents of [tarjan_scc], on one graph: the components partition the
    nodes into the classes of mutual reachability. *)
Definition reaches (g : Graph) : nat -> nat -> Prop :=
  clos_refl_trans nat (fun a b => exists w, (a, b, w) ∈ g.(edges)).
Definition tarjan_ok (tarjan_scc : Graph -> list (list nat)) (g : Graph) : Prop :=
  (forall a, (a < length g.(nodes))%nat -> exists c, c ∈ tarjan_scc g /\ a ∈ c) /\
  (forall c a b, c ∈ tarjan_scc g -> a ∈ c -> (b ∈ c <-> reaches g a b /\ reaches g b a)).

(** * The graph *)

Record graph_ok (m : CompiledModule) (s : InstantiationLoopChecker) : Prop := {
  ok_module : s.(module) = m;
  ok_defs : s.(func_handle_def_map) = (new m).(func_handle_def_map);
  ok_nodes : NoDup s.(graph).(nodes);
  ok_map : forall x i, node_map_get x s.(node_map) = Some i <-> s.(graph).(nodes) !! i = Some x;
  ok_edges : forall a b w, (a, b, w) ∈ s.(graph).(edges) ->
    (a < length s.(graph).(nodes))%nat /\ (b < length s.(graph).(nodes))%nat }.

Definition has_edge (s : InstantiationLoopChecker) (x : Node) (yw : Node * Edge) : Prop :=
  exists i j, s.(graph).(nodes) !! i = Some x /\ s.(graph).(nodes) !! j = Some yw.1 /\
    (i, j, yw.2) ∈ s.(graph).(edges).

Lemma get_or_add_ok m x s :
  graph_ok m s -> exists i s', get_or_add_node x s = Ok (i, s') /\ graph_ok m s' /\
    s'.(graph).(nodes) !! i = Some x /\ s'.(graph).(edges) = s.(graph).(edges) /\
    exists l, s'.(graph).(nodes) = s.(graph).(nodes) ++ l.
Proof.
  intros [Hm Hd Hn Hmap He]. unfold get_or_add_node. destruct (node_map_get x s.(node_map)) as [i|] eqn:E.
  { exists i, s. split; [done|]. split; [done|]. apply Hmap in E. split; [done|]. split; [done|]. exists [].
    by rewrite app_nil_r. }
  do 2 eexists. split; [reflexivity|]. split; [|split; [by apply list_lookup_middle|split; [done|by eexists]]].
  assert (x ∉ s.(graph).(nodes)) as Hx.
  { intros (i & Hi)%list_elem_of_lookup. apply Hmap in Hi. congruence. }
  constructor; cbn; try done.
  - apply list.NoDup_app. split; [done|]. split; [|apply NoDup_singleton].
    intros y Hy ->%list_elem_of_singleton. done.
  - intros y i. case_bool_decide as Hxy.
    + subst y. split; [intros [= <-]; by apply list_lookup_middle|]. intros Hi.
      apply lookup_snoc_Some in Hi as [[_ Hi]|[-> _]]; [|done]. destruct Hx. by eapply list_elem_of_lookup_2.
    + rewrite Hmap, lookup_snoc_Some. split; [|naive_solver]. intros Hi. left. split; [by eapply lookup_lt_Some|done].
  - intros a b w Hw%He. rewrite length_app. cbn. lia.
Qed.

Section building.
Context (m : CompiledModule).
Abbreviation adds := (Prelude.adds (graph_ok m) has_edge).

Lemma has_edge_extend s s' l :
  graph_ok m s -> s'.(graph).(edges) = s.(graph).(edges) -> s'.(graph).(nodes) = s.(graph).(nodes) ++ l ->
  forall x yw, has_edge s' x yw <-> has_edge s x yw.
Proof.
  intros Hs He Hn x yw. unfold has_edge. rewrite He, Hn. split; intros (i & j & Hi & Hj & Hw); exists i, j.
  - destruct (ok_edges _ _ Hs _ _ _ Hw). by rewrite !lookup_app_l in * by done.
  - by rewrite (lookup_app_l_Some _ _ _ _ Hi), (lookup_app_l_Some _ _ _ _ Hj).
Qed.

Lemma adds_edge x y w : adds (add_edge x y w) (fun a b => a = x /\ b = (y, w)).
Proof.
  intros s Hs. destruct (get_or_add_ok m x s Hs) as (i & s1 & R1 & H1 & Hi & E1 & l1 & N1).
  destruct (get_or_add_ok m y s1 H1) as (j & s2 & R2 & H2 & Hj & E2 & l2 & N2).
  unfold add_edge, mbind, ST_bind. rewrite R1, R2. eexists. split; [reflexivity|].
  assert (s2.(graph).(nodes) !! i = Some x) as Hi2 by (rewrite N2; by apply lookup_app_l_Some).
  pose proof H2 as [Hm Hd Hn Hmap He]. split.
  - constructor; cbn; try done. intros a b w' [Hw|[= -> -> ->]%list_elem_of_singleton]%elem_of_app; [by eapply He|].
    split; by eapply lookup_lt_Some.
  - intros a b. rewrite <- (has_edge_extend s s1 l1), <- (has_edge_extend s1 s2 l2) by done.
    unfold has_edge. cbn. setoid_rewrite elem_of_app. setoid_rewrite list_elem_of_singleton. split.
    + intros (i' & j' & Hi' & Hj' & [Hw|[= -> -> Hw]]); [left; by exists i', j'|right].
      destruct b as [y' w']. cbn in *. split; congruence.
    + intros [(i' & j' & Hi' & Hj' & Hw)|[-> ->]]; [exists i', j'; tauto|exists i, j; cbn; tauto].
Qed.

Lemma extract_from_ok t l p : p ∈ extract_from t l <-> p ∈ l \/ occurs p t.
Proof.
  revert l. induction t as [ | | | | | |t IH|h|h args IH|t IH|t IH|i] using SignatureToken.token_ind;
    intros l; cbn [extract_from];
    try (split; [by left|]; intros [?|Ho]; [done|]; by inversion Ho);
    try (rewrite IH; split; (intros [?|Ho]; [by left|]); right; [by constructor|by inversion Ho]).
  - revert l. induction IH as [|t args Ht _ IHl]; intros l; cbn [foldl].
    + split; [by left|]. intros [?|Ho]; [done|]. inversion Ho as [| | | |? ? t Hin]; subst. by apply elem_of_nil in Hin.
    + rewrite IHl, Ht. split.
      * intros [[?|Ho]|Ho]; [by left|right; by apply (occurs_arg _ _ _ t); [left|]|].
        right. inversion Ho as [| | | |? ? t' Hin]; subst. apply (occurs_arg _ _ _ t'); [by right|done].
      * intros [?|Ho]; [by left; left|]. inversion Ho as [| | | |? ? t' Hin Ho']; subst.
        apply elem_of_cons in Hin as [-> |Hin]; [by left; right|]. right. by apply (occurs_arg _ _ _ t').
  - unfold set_insert. case_bool_decide.
    + split; [by left|]. intros [?|Ho]; [done|]. by inversion Ho; subst.
    + rewrite elem_of_app, list_elem_of_singleton. split; (intros [?|Ho]; [by left|right]); [subst; constructor|].
      by inversion Ho.
Qed.

Lemma adds_actual f g k t :
  adds (add_actual f g (k, t)) (fun x yw => exists p, x = (f, p) /\ yw = ((g, k), edge_of t) /\ occurs p t).
Proof.
  cbn [add_actual].
  assert (adds (st_for (extract_type_parameters t) (fun p => add_edge (f, p) (g, k) (TyConApp t)))
    (fun x yw => exists p, x = (f, p) /\ yw = ((g, k), TyConApp t) /\ occurs p t)) as Hc.
  { eapply adds_iff; [apply adds_for; intros p _; apply adds_edge|]. intros x yw. cbn. split.
    - intros (p & Hp & -> & ->). exists p. split; [done|]. split; [done|].
      apply extract_from_ok in Hp as [Hp|?]; [by apply elem_of_nil in Hp|done].
    - intros (p & -> & -> & Ho). exists p. split; [|done]. apply extract_from_ok. by right. }
  destruct t; try exact Hc. eapply adds_iff; [apply adds_edge|]. intros x yw. cbn. split.
  - intros [-> ->]. eexists. split; [done|]. split; [done|constructor].
  - intros (p & -> & -> & Ho). by inversion Ho; subst.
Qed.

Hypothesis Hin : in_bounds (BinaryIndexedView.Module_ m).
Hypothesis Hdup : NoDup (map FunctionDefinition.function m.(CompiledModule.function_defs)).
Hypothesis Hlen : zlen m.(CompiledModule.function_defs) <= 2 ^ 16.
Hypothesis Hsig : Forall (fun sig : Signature => zlen sig <= 2 ^ 16) m.(CompiledModule.signatures).
Abbreviation defs := (m.(CompiledModule.function_defs)).

Lemma def_map_ok h j :
  BTreeMap.get h (new m).(func_handle_def_map) = Some j <->
  exists k d, defs !! k = Some d /\ d.(FunctionDefinition.function) = h /\ j = Z.of_nat k.
Proof using Hdup Hlen.
  rewrite <- get_enumerate by done. unfold new. cbn. f_equiv. f_equiv. f_equiv. apply map_ext. by intros [].
Qed.

(** A computation that reads the module in the state. *)
Lemma adds_self (c : M ()) (c' : CompiledModule -> BTreeMap Z -> M ()) E :
  (forall s, c s = c' s.(module) s.(func_handle_def_map) s) ->
  adds (c' m (new m).(func_handle_def_map)) E -> adds c E.
Proof.
  intros Hc Ha s Hs. rewrite Hc, (ok_module _ _ Hs), (ok_defs _ _ Hs). by apply Ha.
Qed.

Lemma adds_call f g idx args :
  m.(CompiledModule.signatures) !! into_index idx = Some args ->
  adds (build_graph_call f g idx) (fun x yw => exists k t p, 0 <= k /\ args !! Z.to_nat k = Some t /\ occurs p t /\
    x = (f, p) /\ yw = ((g, k), edge_of t)).
Proof using Hsig.
  intros Ha. apply (adds_self _ (fun m _ => type_actuals ← st_lift (ModuleAccess.signature_at m idx);
    st_for (enumerate type_actuals) (add_actual f g)) _ (fun _ => eq_refl)).
  apply (adds_lift _ _ _ args); [by apply index_ok|].
  assert (zlen args <= 2 ^ 16) as Hl by by apply (forall_lookup _ _ _ _ Hsig Ha).
  eapply adds_iff.
  { apply (adds_for _ _ _ _ (fun a x yw => exists p, x = (f, p) /\ yw = ((g, a.1), edge_of a.2) /\ occurs p a.2)).
    intros [k t] _. apply adds_actual. }
  intros x yw. split.
  - intros ([k t] & Hk & p & -> & -> & Ho). apply (proj1 (elem_of_enumerate _ _ _ Hl)) in Hk as (k' & Hk & ->).
    exists (Z.of_nat k'), t, p. rewrite Nat2Z.id. split; [lia|done].
  - intros (k & t & p & H0 & Hk & Ho & -> & ->). exists (k, t). split; [|by exists p].
    apply (elem_of_enumerate _ _ _ Hl). exists (Z.to_nat k). split; [done|lia].
Qed.

Lemma adds_instr f b n len locals :
  instr_ok (BinaryIndexedView.Module_ m) n len locals b ->
  adds (build_graph_instr f b) (fun x yw => exists idx fi gd args ty p g k,
    b = Bytecode.CallGeneric idx /\ m.(CompiledModule.function_instantiations) !! into_index idx = Some fi /\
    0 <= g /\ defs !! Z.to_nat g = Some gd /\
    gd.(FunctionDefinition.function) = fi.(FunctionInstantiation.handle) /\
    m.(CompiledModule.signatures) !! into_index fi.(FunctionInstantiation.type_parameters) = Some args /\
    0 <= k /\ args !! Z.to_nat k = Some ty /\ occurs p ty /\ x = (f, p) /\ yw = ((g, k), edge_of ty)).
Proof using Hin Hdup Hlen Hsig.
  intros Hb.
  assert ((exists idx, b = Bytecode.CallGeneric idx) \/ (forall idx, b <> Bytecode.CallGeneric idx)) as [[idx ->]|Hn]
    by (destruct b; naive_solver).
  2: { apply adds_iff with (fun _ _ => False); [|naive_solver].
       assert (build_graph_instr f b = mret ()) as -> by (destruct b; try reflexivity; naive_solver).
       apply adds_ret. auto. }
  destruct Hb as [[fi Hfi]%idx_ok_lookup _]. cbn in Hfi.
  destruct (forall_lookup _ _ _ _ (function_instantiations_in _ Hin) Hfi) as [_ [args Ha]%idx_ok_lookup]. cbn in Ha.
  apply (adds_self _ (fun m map => fi ← st_lift (ModuleAccess.function_instantiation_at m idx);
    match BTreeMap.get fi.(FunctionInstantiation.handle) map with
    | Some g => build_graph_call f g fi.(FunctionInstantiation.type_parameters)
    | None => mret ()
    end) _ (fun _ => eq_refl)).
  apply (adds_lift _ _ _ fi); [by apply index_ok|].
  destruct (BTreeMap.get fi.(FunctionInstantiation.handle) (new m).(func_handle_def_map)) as [g|] eqn:E.
  - apply def_map_ok in E as (gk & gd & Hgk & Hg & ->). eapply adds_iff; [by apply adds_call|].
    intros x yw. split.
    + intros (k & t & p & H0 & Hk & Ho & -> & ->). exists idx, fi, gd, args, t, p, (Z.of_nat gk), k.
      rewrite Nat2Z.id. repeat split; try done; lia.
    + intros (idx' & fi' & gd' & args' & t & p & g & k & [= <-] & Hfi' & Hg0 & Hgd & Hgf & Ha' & H0 & Hk & Ho & -> & ->).
      rewrite Hfi in Hfi'. injection Hfi' as <-. rewrite Ha in Ha'. injection Ha' as <-.
      exists k, t, p. repeat split; try done. do 2 f_equal.
      assert (BTreeMap.get fi.(FunctionInstantiation.handle) (new m).(func_handle_def_map) = Some g) as E1.
      { apply def_map_ok. exists (Z.to_nat g), gd'. repeat split; try done. lia. }
      assert (BTreeMap.get fi.(FunctionInstantiation.handle) (new m).(func_handle_def_map) = Some (Z.of_nat gk)) as E2.
      { apply def_map_ok. by exists gk, gd. }
      congruence.
  - apply adds_ret. intros x yw (idx' & fi' & gd' & args' & t & p & g & k & [= <-] & Hfi' & Hg0 & Hgd & Hgf & _).
    rewrite Hfi in Hfi'. injection Hfi' as <-.
    assert (BTreeMap.get fi.(FunctionInstantiation.handle) (new m).(func_handle_def_map) = Some g) as E1; [|congruence].
    apply def_map_ok. exists (Z.to_nat g), gd'. repeat split; try done. lia.
Qed.

Lemma adds_function f d :
  d ∈ defs -> adds (build_graph_function_def f d)
    (fun x yw => x.1 = f /\ call_passes m d x.2 yw.1.1 yw.1.2 yw.2).
Proof using Hin Hdup Hlen Hsig.
  intros Hd. pose proof (function_defs_in _ Hin) as Hdefs. rewrite Forall_forall in Hdefs.
  destruct (Hdefs d (proj1 (list_elem_of_In _ _) Hd)) as (_ & _ & Hc). unfold build_graph_function_def.
  destruct (FunctionDefinition.code d) as [c|] eqn:E.
  2: { apply adds_ret. intros x yw (_ & c & ? & ? & ? & ? & ? & Hd' & _). congruence. }
  destruct (Hc c eq_refl) as (h & ps & ls & _ & _ & _ & _ & ls' & _ & _ & Hi). rewrite Forall_forall in Hi.
  eapply adds_iff; [apply adds_for; intros b Hb; eapply adds_instr, Hi; by apply list_elem_of_In|].
  intros [f' p] [[g k] w]. cbn. split.
  - intros (b & Hb & idx & fi & gd & args & ty & p' & g' & k' & -> & Hfi & Hg0 & Hg & Hgf & Ha & Hk0 & Hk & Ho & [= -> ->] & [= -> -> ->]).
    split; [done|]. by exists c, idx, fi, gd, args, ty.
  - intros (-> & c' & idx & fi & gd & args & ty & Hc' & Hb & Hfi & Hg0 & Hg & Hgf & Ha & Hk0 & Hk & Ho & ->).
    rewrite E in Hc'. injection Hc' as <-. exists (Bytecode.CallGeneric idx). split; [done|].
    by exists idx, fi, gd, args, ty, p, g, k.
Qed.

Hypothesis Hnative : Forall (fun d => FunctionDefinition.is_native d = false) defs.

Lemma adds_graph : adds build_graph (fun x yw => instantiates m x yw.1 yw.2).
Proof using Hin Hdup Hlen Hsig Hnative.
  apply (adds_self _ (fun m _ => st_for (enumerate (List.filter (fun def => negb (FunctionDefinition.is_native def))
    m.(CompiledModule.function_defs))) (fun '(def_idx, func_def) => build_graph_function_def def_idx func_def)) _
    (fun _ => eq_refl)).
  assert (List.filter (fun def => negb (FunctionDefinition.is_native def)) defs = defs) as ->.
  { clear -Hnative. revert Hnative. generalize defs. induction l as [|d l IH]; [done|].
    intros [Hd Hl]%Forall_cons_iff. cbn [List.filter]. rewrite Hd. cbn [negb]. by rewrite IH. }
  eapply adds_iff.
  { apply (adds_for _ _ _ _ (fun a x yw => x.1 = a.1 /\ call_passes m a.2 x.2 yw.1.1 yw.1.2 yw.2)).
    intros [i d] Hi. apply adds_function. apply (elem_of_enumerate _ _ _ Hlen) in Hi as (k & Hk & _).
    by eapply list_elem_of_lookup_2. }
  intros [f p] yw. unfold instantiates. cbn [fst snd]. split.
  - intros ([i d] & Hi & Hx & Hc). cbn in Hx, Hc. apply (elem_of_enumerate _ _ _ Hlen) in Hi as (k & Hk & ->).
    subst f. exists d. rewrite Nat2Z.id. split; [lia|done].
  - intros (d & H0 & Hd & Hc). exists (f, d). split; [|done]. apply (elem_of_enumerate _ _ _ Hlen).
    exists (Z.to_nat f). split; [done|lia].
Qed.

(** The graph at the end. *)
Lemma build_graph_ok : exists s, build_graph (new m) = Ok ((), s) /\ graph_ok m s /\
  forall x y w, has_edge s x (y, w) <-> instantiates m x y w.
Proof using Hin Hdup Hlen Hsig Hnative.
  destruct (adds_graph (new m)) as (s & R & Hs & He).
  { constructor; try done; [constructor|]. intros a b w Hw. by apply elem_of_nil in Hw. }
  exists s. split; [done|]. split; [done|]. intros x y w. rewrite He. cbn.
  split; [|by right]. intros [(i & j & _ & _ & Hw)|?]; [by apply elem_of_nil in Hw|done].
Qed.
End building.

(** * Components *)

(** Equivalent relations have equivalent closures. *)
#[export] Instance clos_refl_trans_proper A :
  Proper (pointwise_relation A (pointwise_relation A iff) ==> eq ==> eq ==> iff) (clos_refl_trans A).
Proof.
  intros R R' HR x ? <- y ? <-. split; (induction 1 as [x y H|x|x y z _ IH1 _ IH2];
    [apply rt_step; by apply HR|apply rt_refl|by eapply rt_trans]).
Qed.

Lemma omap_none {A B} (f : A -> option B) l : omap f l = [] <-> forall x, x ∈ l -> f x = None.
Proof.
  induction l as [|x l IH]; cbn; [split; [by intros _ x ?%elem_of_nil|done]|].
  setoid_rewrite elem_of_cons. destruct (f x) eqn:E; [split; [done|]; intros H; rewrite (H x) in E by (by left); done|].
  rewrite IH. split; [intros H y [-> |Hy]; auto|auto].
Qed.

Section components.
Context (m : CompiledModule) (s : InstantiationLoopChecker) (Hs : graph_ok m s).
Abbreviation g := (s.(graph)).

Lemma reaches_nodes a b x :
  reaches g a b -> g.(nodes) !! a = Some x ->
  exists y, g.(nodes) !! b = Some y /\ clos_refl_trans Node (fun x y => exists w, has_edge s x (y, w)) x y.
Proof using Hs.
  intros Hr. revert x. induction Hr as [a b [w Hw]|a|a b c _ IH1 _ IH2]; intros x Hx.
  - destruct (ok_edges _ _ Hs _ _ _ Hw) as [_ Hb]. destruct (lookup_lt_is_Some_2 _ _ Hb) as [y Hy].
    exists y. split; [done|]. apply rt_step. exists w. by exists a, b.
  - exists x. split; [done|apply rt_refl].
  - destruct (IH1 x Hx) as (y & Hy & R1). destruct (IH2 y Hy) as (z & Hz & R2). exists z.
    split; [done|by eapply rt_trans].
Qed.

Lemma nodes_reach x y :
  clos_refl_trans Node (fun x y => exists w, has_edge s x (y, w)) x y ->
  forall a b, g.(nodes) !! a = Some x -> g.(nodes) !! b = Some y -> reaches g a b.
Proof using Hs.
  pose proof (ok_nodes _ _ Hs) as Hn. intros Hr. apply clos_rt_rt1n in Hr.
  induction Hr as [x|x y z (w & i & j & Hi & Hj & Hw) _ IH]; intros a b Ha Hb.
  - assert (a = b) as -> by by eapply list.NoDup_lookup. apply rt_refl.
  - assert (a = i) as -> by by eapply list.NoDup_lookup. eapply rt_trans; [|by apply (IH j b)].
    apply rt_step. by exists w.
Qed.

(** A component has a constructor edge exactly if a constructor edge is on a cycle. *)
Lemma components_ok tarjan_scc :
  tarjan_ok tarjan_scc g -> find_non_trivial_components tarjan_scc g = [] <->
  ~ exists x y ty, has_edge s x (y, TyConApp ty) /\
      clos_refl_trans Node (fun x y => exists w, has_edge s x (y, w)) y x.
Proof using Hs.
  intros [Hall Hcomp].
  assert (forall c a b w, c ∈ tarjan_scc g -> (a, b, w) ∈ component_edges g c <->
    (a, b, w) ∈ g.(edges) /\ a ∈ c /\ b ∈ c) as Hedges.
  { intros c a b w _. unfold component_edges. rewrite list_elem_of_In, in_flat_map.
    setoid_rewrite filter_In. setoid_rewrite <- list_elem_of_In. split.
    - intros (n & Hn & Hw & [-> %Nat.eqb_eq Hb%bool_decide_eq_true]%andb_true_iff). done.
    - intros (Hw & Ha & Hb). exists a. split; [done|]. split; [done|]. by rewrite Nat.eqb_refl, bool_decide_true. }
  unfold find_non_trivial_components. rewrite omap_none. split.
  - intros Hnone (x & y & ty & (i & j & Hi & Hj & Hw) & Hr). cbn [fst snd] in Hj, Hw.
    destruct (ok_edges _ _ Hs _ _ _ Hw) as [Hil _]. destruct (Hall i Hil) as (c & Hc & Hic).
    assert (j ∈ c) as Hjc.
    { apply (Hcomp c i j Hc Hic). split; [apply rt_step; by eexists|]. by eapply nodes_reach. }
    specialize (Hnone c Hc). cbn in Hnone.
    rewrite (proj2 (existsb_exists _ _)) in Hnone; [done|].
    exists (i, j, TyConApp ty). split; [|done]. apply list_elem_of_In. by apply Hedges.
  - intros Hno c Hc. cbn. destruct (existsb is_ty_con_app (component_edges g c)) eqn:E; [exfalso|done].
    apply existsb_exists in E as ([[i j] w] & Hw%list_elem_of_In & Hty). destruct w as [|ty]; [done|].
    apply (Hedges c i j _ Hc) in Hw as (Hw & Hic & Hjc). destruct (proj1 (Hcomp c i j Hc Hic) Hjc) as [_ Hr].
    destruct (ok_edges _ _ Hs _ _ _ Hw) as [Hil Hjl].
    destruct (lookup_lt_is_Some_2 _ _ Hil) as [x Hx]. destruct (lookup_lt_is_Some_2 _ _ Hjl) as [y Hy].
    apply Hno. exists x, y, ty. split; [by exists i, j|].
    destruct (reaches_nodes j i y Hr Hy) as (x' & Hx' & R). rewrite Hx in Hx'. by injection Hx' as <-.
Qed.
End components.

(** C33: the loop checker is exact without native functions.  For a module that the bounds
    and duplication checkers accept, without native functions, with at most 2^16
    functions and type arguments, and given strongly connected components as petgraph
    documents them on the graph at hand, the checker returns, and it rejects exactly the
    modules with a growing loop: a chain of generic calls that passes a type parameter
    around to itself inside a larger type. *)
Theorem instantiation_loops_exact (tarjan_scc : Graph -> list (list nat)) (m : CompiledModule) :
  BoundsChecker.verify_module m = Ok () -> DuplicationChecker.verify_module_impl m = Ok () ->
  Forall (fun d => FunctionDefinition.is_native d = false) m.(CompiledModule.function_defs) ->
  zlen m.(CompiledModule.function_defs) <= 2 ^ 16 ->
  Forall (fun sig : Signature => zlen sig <= 2 ^ 16) m.(CompiledModule.signatures) ->
  (forall s, build_graph (new m) = Ok ((), s) -> tarjan_ok tarjan_scc s.(graph)) ->
  safe (InstantiationLoopChecker.verify_module_impl tarjan_scc m) /\
  (InstantiationLoopChecker.verify_module_impl tarjan_scc m = Ok () <-> ~ growing_loop m).
Proof.
  intros [_ Hin]%verify_module_ok Hd Hnat Hlen Hsig Ht.
  assert (NoDup (map FunctionDefinition.function m.(CompiledModule.function_defs))) as Hdup.
  { unfold DuplicationChecker.verify_module_impl in Hd. rewrite !seq_ok in Hd.
    destruct Hd as (_ & _ & _ & _ & _ & _ & _ & _ & _ & _ & _ & Hd & _).
    unfold DuplicationChecker.check_function_defintions in Hd. rewrite seq_ok in Hd. destruct Hd as [Hd _].
    by apply check_distinct_ok in Hd. }
  destruct (build_graph_ok m Hin Hdup Hlen Hsig Hnat) as (s & R & Hs & HE).
  pose proof (components_ok m s Hs tarjan_scc (Ht s R)) as Hc.
  assert (growing_loop m <-> exists x y ty, has_edge s x (y, TyConApp ty) /\
    clos_refl_trans Node (fun x y => exists w, has_edge s x (y, w)) y x) as Hg.
  { unfold growing_loop. setoid_rewrite <- HE. done. }
  unfold InstantiationLoopChecker.verify_module_impl. rewrite R. cbn [mbind result_bind].
  destruct (find_non_trivial_components tarjan_scc (graph s)) as [|c cs] eqn:E; (split; [done|]).
  - split; [|done]. intros _. rewrite Hg. by apply Hc.
  - split; [done|]. intros Hn. rewrite Hg in Hn. by apply Hc in Hn.
Qed.

(** A module whose last function [f<T>] calls itself with the type argument [ty]; [natives]
    native functions are defined before it. *)
Definition loop_module (natives : list FunctionDefinition) (handles : list FunctionHandle) (ty : SignatureToken) :
    CompiledModule :=
  let f := Z.of_nat (length natives) in
  CompiledModule.mk VERSION_MAX 0 [ModuleHandle.mk 0 0] []
    (handles ++ [FunctionHandle.mk 0 1 0 0 [AbilitySet.EMPTY]]) [] [] []
    [FunctionInstantiation.mk f 1] [] [[]; [ty]]
    [Identifier.self_bytes; [102]; [110]] [AccountAddress_ZERO] [] []
    (natives ++ [FunctionDefinition.mk f Visibility.Private []
      (Some (CodeUnit.mk 0 [Bytecode.CallGeneric 0; Bytecode.Ret]))]).

Lemma singleton_tarjan_ok edges x :
  (forall a b w, (a, b, w) ∈ edges -> a = 0%nat /\ b = 0%nat) ->
  tarjan_ok (fun _ => [[0%nat]]) (mk_Graph [x] edges).
Proof.
  intros He. split.
  - intros a Ha. cbn in Ha. exists [0%nat]. split; [by left|]. apply list_elem_of_singleton. lia.
  - intros c a b ->%list_elem_of_singleton ->%list_elem_of_singleton. rewrite list_elem_of_singleton. split.
    + intros ->. split; apply rt_refl.
    + intros [Hr _]. apply clos_rt_rtn1 in Hr. induction Hr as [|b c [w Hw] _ _]; [done|]. by apply He in Hw as [_ ->].
Qed.

Lemma instantiation_loops_exact_witness :
  ~ growing_loop (loop_module [] [] (SignatureToken.TypeParameter 0)).
Proof.
  apply (instantiation_loops_exact (fun _ => [[0%nat]]));
    [vm_compute; reflexivity|vm_compute; reflexivity|repeat constructor|vm_compute; discriminate
    |repeat constructor; vm_compute; discriminate| |vm_compute; reflexivity].
  intros s E. vm_compute in E. injection E as <-. apply singleton_tarjan_ok.
  intros a b w Hw%list_elem_of_singleton. by injection Hw as -> -> ->.
Defined.

(** A native function before [f<T>]. *)
Definition native_loop_module : CompiledModule :=
  loop_module [FunctionDefinition.mk 0 Visibility.Private [] None] [FunctionHandle.mk 0 2 0 0 []]
    (SignatureToken.Vector (SignatureToken.TypeParameter 0)).

(** Callers are numbered without the native functions and callees with them, so a loop
    behind a native function is not seen: [f<T>] calls [f<vector<T>>], and the module
    passes, whatever the components, as long as they are those of the graph. *)
Theorem instantiation_loop_missed (tarjan_scc : Graph -> list (list nat)) :
  (forall s, build_graph (new native_loop_module) = Ok ((), s) -> tarjan_ok tarjan_scc s.(graph)) ->
  BoundsChecker.verify_module native_loop_module = Ok () /\
  DuplicationChecker.verify_module_impl native_loop_module = Ok () /\
  SignatureChecker.verify_module_impl native_loop_module = Ok () /\
  InstructionConsistency.verify_module_impl native_loop_module = Ok () /\
  growing_loop native_loop_module /\
  InstantiationLoopChecker.verify_module_impl tarjan_scc native_loop_module = Ok ().
Proof.
  intros Ht. do 4 (split; [vm_compute; reflexivity|]). split.
  - exists (1, 0), (1, 0), (SignatureToken.Vector (SignatureToken.TypeParameter 0)). split; [|apply rt_refl].
    eexists. split; [done|]. split; [vm_compute; reflexivity|]. do 6 eexists.
    split; [vm_compute; reflexivity|]. split; [apply list_elem_of_here|]. split; [vm_compute; reflexivity|].
    split; [done|]. split; [vm_compute; reflexivity|]. split; [vm_compute; reflexivity|].
    split; [vm_compute; reflexivity|]. split; [done|]. split; [vm_compute; reflexivity|].
    split; [repeat constructor|done].
  - unfold InstantiationLoopChecker.verify_module_impl. 
    destruct (build_graph (new native_loop_module)) as [[[] s]| | |] eqn:E; try (by vm_compute in E).
    specialize (Ht s eq_refl). vm_compute in E. injection E as <-. cbn [mbind result_bind graph].
    destruct Ht as [_ Hcomp]. unfold find_non_trivial_components. cbn [graph] in Hcomp |- *.
    match goal with |- match omap ?f ?l with _ => _ end = _ => assert (omap f l = []) as -> end; [|done].
    apply omap_none. intros c Hc. cbn beta zeta. destruct (existsb _ _) eqn:Ex; [exfalso|done].
    apply existsb_exists in Ex as ([[i j] w] & Hw & _). unfold component_edges in Hw.
    apply in_flat_map in Hw as (k & Hk%list_elem_of_In & Hw). apply filter_In in Hw as [Hw Hb].
    apply andb_true_iff in Hb as [<- %Nat.eqb_eq Hj%bool_decide_eq_true].
    destruct Hw as [[= <- <- <-]|[]]. apply (Hcomp c 0%nat 1%nat Hc Hk) in Hj as [_ Hr].
    apply clos_rt_rt1n in Hr. inversion Hr as [|y z (w' & Hw') Hrest E1]; subst.
    by apply list_elem_of_singleton in Hw'.
Qed.
