(* ===== verification/FieldAbilities.v ===== *)
(** The abilities of fields: move-bytecode-verifier/src/ability_field_requirements.rs, and
    what it gives together with the signature checker: whenever a struct type has an
    ability, the types of all its fields have the ability that it requires. *)
From S2P Require Import Prelude StatusCode Abilities Identifier FileFormat WellFormed Access BTree.
From S2P Require Import BoundsChecker BoundsSpec SignatureChecker TypeSafety.

Module AbilityFieldRequirements.
Abbreviation R := (result StatusCode).

(** [abilities.into_iter().map(|a| a.requires()).fold(EMPTY, |acc, required| acc | required)] *)
Definition required_abilities (sh : StructHandle) : AbilitySet :=
  foldl AbilitySet.bitor AbilitySet.EMPTY
    (map Ability.requires (AbilitySet.elements sh.(StructHandle.abilities))).

Definition verify_field (view : BinaryIndexedView) (required : AbilitySet)
    (type_parameter_abilities : list AbilitySet) (field : FieldDefinition) : R () :=
  field_abilities ←
    BinaryIndexedView.abilities view field.(FieldDefinition.signature) type_parameter_abilities;
  if negb (AbilitySet.is_subset required field_abilities) then Err FIELD_MISSING_TYPE_ABILITY else Ok ().

Definition verify_struct_def (module : CompiledModule) (struct_def : StructDefinition) : R () :=
  sh ← ModuleAccess.struct_handle_at module struct_def.(StructDefinition.struct_handle);
  match struct_def.(StructDefinition.field_information) with
  | Native => Ok ()
  | Declared fields =>
    let type_parameter_abilities := map (fun _ => AbilitySet.ALL) sh.(StructHandle.type_parameters) in
    res_for fields (verify_field (BinaryIndexedView.Module_ module) (required_abilities sh)
                      type_parameter_abilities)
  end.

Definition verify_module_impl (module : CompiledModule) : R () :=
  res_for module.(CompiledModule.struct_defs) (verify_struct_def module).
End AbilityFieldRequirements.

(** * Soundness *)

Import AbilitySet AbilitySetFacts.

Lemma required_has sh a :
  has_ability sh.(StructHandle.abilities) a = true ->
  has_ability (AbilityFieldRequirements.required_abilities sh) (Ability.requires a) = true.
Proof.
  intros Ha%elem_of_elements. unfold AbilityFieldRequirements.required_abilities.
  assert (forall l s b, has_ability (foldl bitor s l) b = true <-> has_ability s b = true \/ b ∈ l) as Hf.
  { induction l as [|x l IH]; intros s b; cbn [foldl]; [rewrite elem_of_nil; tauto|].
    rewrite IH, has_ability_bitor, orb_true_iff, bool_decide_eq_true, elem_of_cons. naive_solver. }
  apply Hf. right. apply list_elem_of_In, in_map. by apply list_elem_of_In.
Qed.

Lemma is_subset_has s t a : is_subset s t = true -> has_ability s a = true -> has_ability t a = true.
Proof.
  unfold is_subset, is_subset_bits. rewrite !has_ability_testbit. intros <- %Z.eqb_eq.
  rewrite Z.land_spec. by intros [_ ?]%andb_true_iff.
Qed.

(** The abilities of a list of types. *)
Definition abilities_list (v : BinaryIndexedView) (cs : list AbilitySet) (ts : list SignatureToken)
    (l : list AbilitySet) : Prop :=
  Forall2 (fun t a => BinaryIndexedView.abilities v t cs = Ok a) ts l.

Lemma polymorphic_ok declared phantoms args r a :
  polymorphic_abilities declared phantoms args = Ok r ->
  has_ability r a = true <-> has_ability declared a = true /\
    forall i arg, args !! i = Some arg -> phantoms !! i = Some false ->
      has_ability arg (Ability.requires a) = true.
Proof. intros E. pose proof (polymorphic_abilities_spec declared phantoms args) as H. rewrite E in H. apply H. Qed.

Lemma struct_abilities v idx args cs r :
  BinaryIndexedView.abilities v (SignatureToken.StructInstantiation idx args) cs = Ok r ->
  exists sh l, BinaryIndexedView.struct_handle_at v idx = Ok sh /\ abilities_list v cs args l /\
    polymorphic_abilities sh.(StructHandle.abilities)
      (map StructTypeParameter.is_phantom sh.(StructHandle.type_parameters)) l = Ok r.
Proof.
  cbn [BinaryIndexedView.abilities]. intros (sh & Hsh & (l & Hl & Hr)%res_bind_ok)%res_bind_ok.
  exists sh, l. split; [done|]. split; [|done]. clear Hr. revert l Hl.
  induction args as [|t args IH]; intros l Hl; [by injection Hl as <-; constructor|].
  apply res_bind_ok in Hl as (a & Ha & (l' & Hl' & [= <-])%res_bind_ok). constructor; [done|by apply IH].
Qed.

Lemma instantiate_args subst idx args t' :
  TypeSafety.instantiate subst (SignatureToken.StructInstantiation idx args) = Ok t' ->
  exists args', t' = SignatureToken.StructInstantiation idx args' /\
    Forall2 (fun t t' => TypeSafety.instantiate subst t = Ok t') args args'.
Proof.
  cbn [TypeSafety.instantiate]. intros (args' & Ha & [= <-])%res_bind_ok. exists args'. split; [done|].
  revert args' Ha. induction args as [|t args IH]; intros l Hl; [by injection Hl as <-; constructor|].
  apply res_bind_ok in Hl as (a & Ha & (l' & Hl' & [= <-])%res_bind_ok). constructor; [done|by apply IH].
Qed.

Section instance.
Context (v : BinaryIndexedView) (tps : list StructTypeParameter) (subst : Signature) (cs : list AbilitySet) (b : Ability).
Hypothesis Hb : Ability.requires b = b.
(** The type arguments of the parameters that are not phantom have [b]. *)
Hypothesis Hsubst : forall i tp t a, tps !! i = Some tp -> tp.(StructTypeParameter.is_phantom) = false ->
  subst !! i = Some t -> BinaryIndexedView.abilities v t cs = Ok a -> has_ability a b = true.

(** The loop of [check_phantom_params] over the arguments. *)
Lemma phantom_args idx args :
  SignatureChecker.check_phantom_params v tps false (SignatureToken.StructInstantiation idx args) = Ok () ->
  exists sh, BinaryIndexedView.struct_handle_at v idx = Ok sh /\
    forall i t, args !! i = Some t -> exists tp, sh.(StructHandle.type_parameters) !! i = Some tp /\
      SignatureChecker.check_phantom_params v tps tp.(StructTypeParameter.is_phantom) t = Ok ().
Proof.
  cbn [SignatureChecker.check_phantom_params]. intros (sh & Hsh & Hgo)%res_bind_ok. exists sh. split; [done|].
  assert (forall n args, (fix go (i : nat) (tys : list SignatureToken) : result StatusCode () :=
       match tys with
       | [] => Ok ()
       | ty :: tys =>
         param ← unwrap (sh.(StructHandle.type_parameters) !! i);
         SignatureChecker.check_phantom_params v tps param.(StructTypeParameter.is_phantom) ty;;
         go (S i) tys
       end) n args = Ok () -> forall i t, args !! i = Some t -> exists tp, sh.(StructHandle.type_parameters) !! (n + i)%nat = Some tp /\
      SignatureChecker.check_phantom_params v tps tp.(StructTypeParameter.is_phantom) t = Ok ()) as H.
  { clear Hgo args. intros n args. revert n. induction args as [|x args IH]; intros n Hgo i t Hi; [done|].
    apply res_bind_ok in Hgo as (tp & Htp & [Hx Hgo]%seq_ok).
    destruct (sh.(StructHandle.type_parameters) !! n) eqn:E; [injection Htp as ->|done].
    destruct i as [|i]; [injection Hi as ->; exists tp; by rewrite Nat.add_0_r|].
    destruct (IH (S n) Hgo i t Hi) as (tp' & Htp' & ?). exists tp'. by rewrite Nat.add_succ_r. }
  intros i t Hi. by destruct (H 0%nat args Hgo i t Hi) as (tp & ? & ?); exists tp.
Qed.

(** A type that has [b] if its parameters have all abilities has it at these arguments. *)
Lemma instance_has t t' a a' :
  SignatureChecker.check_phantom_params v tps false t = Ok () ->
  BinaryIndexedView.abilities v t (map (fun _ => ALL) tps) = Ok a -> has_ability a b = true ->
  TypeSafety.instantiate subst t = Ok t' -> BinaryIndexedView.abilities v t' cs = Ok a' ->
  has_ability a' b = true.
Proof using Hb Hsubst.
  revert t' a a'. induction t as [ | | | | | |t IH|h|h args IH|t IH|t IH|i] using SignatureToken.token_ind;
    intros t' a a' Hp Ha Hab Ht Ha'; cbn [TypeSafety.instantiate] in Ht;
    try (injection Ht as <-; cbn in Ha, Ha'; congruence).
  - inv_ok. cbn [BinaryIndexedView.abilities] in Ha, Ha'. inv_ok.
    apply (polymorphic_ok _ _ _ _ b Ha) in Hab as [Hv Hall]. apply (polymorphic_ok _ _ _ _ b Ha'). split; [done|].
    intros i arg Hi _. destruct i; [|done]. injection Hi as <-. rewrite Hb. eapply IH; try done.
    rewrite <- Hb. by apply (Hall 0%nat).
  - apply instantiate_args in Ht as (args' & -> & Hi). 
    apply struct_abilities in Ha as (sh & l & Hsh & Hl & Hr). apply struct_abilities in Ha' as (sh' & l' & Hsh' & Hl' & Hr').
    rewrite Hsh in Hsh'. injection Hsh' as <-. apply phantom_args in Hp as (sh' & Hsh' & Hph).
    rewrite Hsh in Hsh'. injection Hsh' as <-.
    apply (polymorphic_ok _ _ _ _ b Hr) in Hab as [Hd Hall]. apply (polymorphic_ok _ _ _ _ b Hr'). split; [done|].
    intros i x Hx Hphi. destruct (Forall2_lookup_r _ _ _ _ _ Hl' Hx) as (ti' & Hti' & Hax).
    destruct (Forall2_lookup_r _ _ _ _ _ Hi Hti') as (ti & Hti & Hinst).
    destruct (Forall2_lookup_l _ _ _ _ _ Hl Hti) as (y & Hy & Hay).
    destruct (Hph i ti Hti) as (tp & Htp & Hcheck).
    pose proof Hphi as Hphi'. rewrite list_lookup_fmap, Htp in Hphi'. injection Hphi' as Hphi'. rewrite Hphi' in Hcheck.
    rewrite Forall_forall in IH. rewrite Hb. eapply (IH ti); try done.
    { by eapply list_elem_of_In, list_elem_of_lookup_2. }
    rewrite <- Hb. by eapply Hall.
  - inv_ok. cbn in Ha, Ha'. congruence.
  - inv_ok. cbn in Ha, Ha'. congruence.
  - apply res_bind_ok in Ht as (_ & _ & Ht). cbn [SignatureChecker.check_phantom_params] in Hp.
    apply res_bind_ok in Hp as (tp & Htp & Hp). destruct (tps !! Z.to_nat i) as [tp'|] eqn:E; [injection Htp as ->|done].
    assert (subst !! Z.to_nat i = Some t') as Hs by (destruct (subst !! Z.to_nat i); [by injection Ht as ->|done]).
    eapply Hsubst; [exact E| |exact Hs|exact Ha']. by destruct (StructTypeParameter.is_phantom tp).
Qed.
End instance.

(** C30: the abilities of structs are sound.  In a module that the signature checker and
    [ability_field_requirements] accept, whenever an instance of a struct has an ability
    (as the type checker computes it), the type of each of its fields, at the type
    arguments of the instance, has the ability that it requires: what is copied,
    dropped or stored with the struct may be.  This needs both passes: the field types are
    checked with type parameters that have all abilities, and phantom parameters, which
    do not count for the struct, must not occur where they count for a field. *)
Theorem field_abilities_sound (m : CompiledModule) (d : StructDefinition) (fields : list FieldDefinition)
    (f : FieldDefinition) (args : Signature) (cs : list AbilitySet) (a : Ability) (A F : AbilitySet) (t : SignatureToken) :
  SignatureChecker.verify_module_impl m = Ok () -> AbilityFieldRequirements.verify_module_impl m = Ok () ->
  d ∈ m.(CompiledModule.struct_defs) -> d.(StructDefinition.field_information) = Declared fields -> f ∈ fields ->
  BinaryIndexedView.abilities (BinaryIndexedView.Module_ m)
    (TypeSafety.materialize_type d.(StructDefinition.struct_handle) args) cs = Ok A ->
  has_ability A a = true ->
  TypeSafety.instantiate args f.(FieldDefinition.signature) = Ok t ->
  BinaryIndexedView.abilities (BinaryIndexedView.Module_ m) t cs = Ok F ->
  has_ability F (Ability.requires a) = true.
Proof.
  intros Hsig Hreq Hd Hfs Hf HA Ha Ht HF.
  unfold SignatureChecker.verify_module_impl in Hsig. rewrite !seq_ok in Hsig. destruct Hsig as (_ & _ & Hsig & _).
  apply res_for_ok in Hsig. apply res_for_ok in Hreq. rewrite Forall_forall in Hsig, Hreq.
  specialize (Hsig d (proj1 (list_elem_of_In _ _) Hd)). specialize (Hreq d (proj1 (list_elem_of_In _ _) Hd)).
  unfold SignatureChecker.verify_struct_def in Hsig. unfold AbilityFieldRequirements.verify_struct_def in Hreq.
  rewrite Hfs in Hsig, Hreq. apply res_bind_ok in Hsig as (sh & Hsh & Hsig). apply res_bind_ok in Hreq as (sh' & Hsh' & Hreq).
  cbn in Hsh. rewrite Hsh in Hsh'. injection Hsh' as <-.
  apply res_for_ok in Hsig. apply res_for_ok in Hreq. rewrite Forall_forall in Hsig, Hreq.
  specialize (Hsig f (proj1 (list_elem_of_In _ _) Hf)). specialize (Hreq f (proj1 (list_elem_of_In _ _) Hf)).
  unfold SignatureChecker.verify_field in Hsig. rewrite !seq_ok in Hsig. destruct Hsig as (_ & _ & Hph).
  unfold AbilityFieldRequirements.verify_field in Hreq. apply res_bind_ok in Hreq as (fa & Hfa & Hsub).
  destruct (is_subset _ _) eqn:Esub in Hsub; [clear Hsub|done].
  assert (has_ability sh.(StructHandle.abilities) a = true /\ forall i tp t a0,
    sh.(StructHandle.type_parameters) !! i = Some tp -> tp.(StructTypeParameter.is_phantom) = false ->
    args !! i = Some t -> BinaryIndexedView.abilities (BinaryIndexedView.Module_ m) t cs = Ok a0 ->
    has_ability a0 (Ability.requires a) = true) as [Hda Hargs].
  { unfold TypeSafety.materialize_type in HA. destruct args as [|arg args].
    - cbn in HA. rewrite Hsh in HA. injection HA as <-. by split.
    - apply struct_abilities in HA as (sh' & l & Hsh' & Hl & Hr). cbn in Hsh'. rewrite Hsh in Hsh'. injection Hsh' as <-.
      apply (polymorphic_ok _ _ _ _ a Hr) in Ha as [Hda Hall]. split; [done|]. intros i tp t0 a0 Htp Hp Ht0 Ha0.
      destruct (Forall2_lookup_l _ _ _ _ _ Hl Ht0) as (x & Hx & Hax). rewrite Ha0 in Hax. injection Hax as <-.
      eapply Hall; [exact Hx|]. rewrite list_lookup_fmap, Htp. cbn. by rewrite Hp. }
  eapply (instance_has (BinaryIndexedView.Module_ m) sh.(StructHandle.type_parameters) args cs (Ability.requires a));
    [by destruct a|exact Hargs|exact Hph|exact Hfa| |exact Ht|exact HF].
  eapply is_subset_has; [exact Esub|]. by apply required_has.
Qed.

(** A module with a struct [Box<T> has copy { x: T }]. *)
Definition box_field : FieldDefinition := FieldDefinition.mk 2 (SignatureToken.TypeParameter 0).
Definition box_module : CompiledModule :=
  CompiledModule.mk VERSION_MAX 0 [ModuleHandle.mk 0 0]
    [StructHandle.mk 0 1 (Ability.as_u8 Ability.Copy) [StructTypeParameter.mk EMPTY false]] [] [] [] [] [] [] []
    [Identifier.self_bytes; [66]; [120]] [AccountAddress_ZERO] []
    [StructDefinition.mk 0 (Declared [box_field])] [].

Lemma field_abilities_sound_witness :
  has_ability PRIMITIVES (Ability.requires Ability.Copy) = true.
Proof.
  apply (field_abilities_sound box_module (StructDefinition.mk 0 (Declared [box_field])) [box_field] box_field
    [SignatureToken.U64] [] Ability.Copy (Ability.as_u8 Ability.Copy) PRIMITIVES SignatureToken.U64);
    [vm_compute; reflexivity|vm_compute; reflexivity|apply list_elem_of_here|reflexivity|apply list_elem_of_here
    |vm_compute; reflexivity|vm_compute; reflexivity|vm_compute; reflexivity|vm_compute; reflexivity].
Defined.
