(* ===== verification/Acquires.v ===== *)
(** Acquires lists: move-bytecode-verifier/src/acquires_list_verifier.rs.  The annotation of
    a function lists the resources of the module that its body accesses and those that
    the functions it calls list. *)
From S2P Require Import Prelude StatusCode Abilities Identifier FileFormat WellFormed Access BTree.
From S2P Require Import BoundsChecker BoundsSpec DuplicationChecker DuplicationTheorems.

Module AcquiresVerifier.
Abbreviation R := (result StatusCode).
(** The state is [actual_acquires]. *)
Abbreviation M := (ST BTreeSet StatusCode).

(** [actual_acquires.append(resources)] and, for one resource, [insert]. *)
Definition append (resources : BTreeSet) : M () := fun actual_acquires =>
  Ok ((), foldl (fun s x => BTreeSet.insert x s) actual_acquires resources).

Section verifier.
Context (module : CompiledModule) (annotated_acquires : BTreeSet) (handle_to_def : BTreeMap FunctionDefinition).

Definition function_acquired_resources (function_handle : FunctionHandle) (fh_idx : FunctionHandleIndex) : BTreeSet :=
  if negb (function_handle.(FunctionHandle.module) =? ModuleAccess.self_handle_idx module) then BTreeSet.empty
  else match BTreeMap.get fh_idx handle_to_def with
       | Some func_def => BTreeSet.collect func_def.(FunctionDefinition.acquires_global_resources)
       | None => BTreeSet.empty
       end.

Definition call_acquire (fh_idx : FunctionHandleIndex) : M () :=
  function_handle ← st_lift (ModuleAccess.function_handle_at module fh_idx);
  let function_acquired_resources := function_acquired_resources function_handle fh_idx in
  if forallb (fun acquired_resource => BTreeSet.contains acquired_resource annotated_acquires)
       function_acquired_resources
  then append function_acquired_resources
  else st_err MISSING_ACQUIRES_ANNOTATION.

Definition struct_acquire (sd_idx : StructDefinitionIndex) : M () :=
  if BTreeSet.contains sd_idx annotated_acquires
  then append [sd_idx]
  else st_err MISSING_ACQUIRES_ANNOTATION.

Definition verify_instruction (instruction : Bytecode) : M () :=
  match instruction with
  | Bytecode.Call idx => call_acquire idx
  | Bytecode.CallGeneric idx =>
    fi ← st_lift (ModuleAccess.function_instantiation_at module idx);
    call_acquire fi.(FunctionInstantiation.handle)
  | Bytecode.MoveFrom idx | Bytecode.MutBorrowGlobal idx | Bytecode.ImmBorrowGlobal idx => struct_acquire idx
  | Bytecode.MoveFromGeneric idx | Bytecode.MutBorrowGlobalGeneric idx
  | Bytecode.ImmBorrowGlobalGeneric idx =>
    si ← st_lift (ModuleAccess.struct_instantiation_at module idx);
    struct_acquire si.(StructDefInstantiation.def)
  | _ => mret ()
  end.

(** One round of the loop over the annotations. *)
Definition check_annotation (actual_acquires : BTreeSet) (annotation : StructDefinitionIndex) : R () :=
  if negb (BTreeSet.contains annotation actual_acquires) then Err EXTRANEOUS_ACQUIRES_ANNOTATION
  else
    struct_def ← unwrap (module.(CompiledModule.struct_defs) !! Z.to_nat annotation);
    struct_handle ← ModuleAccess.struct_handle_at module struct_def.(StructDefinition.struct_handle);
    if negb (AbilitySet.has_key struct_handle.(StructHandle.abilities))
    then Err INVALID_ACQUIRES_ANNOTATION else Ok ().
End verifier.

(** The definitions of the module by their handles. *)
Definition defs_by_handle (module : CompiledModule) : BTreeMap FunctionDefinition :=
  foldl (fun m func_def => BTreeMap.insert func_def.(FunctionDefinition.function) func_def m)
    BTreeMap.empty module.(CompiledModule.function_defs).

Definition verify (module : CompiledModule) (function_definition : FunctionDefinition) : R () :=
  let annotated_acquires := BTreeSet.collect function_definition.(FunctionDefinition.acquires_global_resources) in
  let handle_to_def := defs_by_handle module in
  code ← unwrap function_definition.(FunctionDefinition.code);
  '(_, actual_acquires) ←
    st_for code.(CodeUnit.code) (verify_instruction module annotated_acquires handle_to_def) BTreeSet.empty;
  res_for annotated_acquires (check_annotation module actual_acquires).
End AcquiresVerifier.

(** * The specification *)

(** The instruction [b] accesses the resource [s] of the module. *)
Definition accesses (m : CompiledModule) (b : Bytecode) (s : StructDefinitionIndex) : Prop :=
  match b with
  | Bytecode.MoveFrom idx | Bytecode.MutBorrowGlobal idx | Bytecode.ImmBorrowGlobal idx => s = idx
  | Bytecode.MoveFromGeneric idx | Bytecode.MutBorrowGlobalGeneric idx
  | Bytecode.ImmBorrowGlobalGeneric idx =>
    exists si, m.(CompiledModule.struct_def_instantiations) !! into_index idx = Some si /\
      s = si.(StructDefInstantiation.def)
  | _ => False
  end.

(** The instruction [b] calls the function [d] of the module. *)
Definition calls (m : CompiledModule) (b : Bytecode) (d : FunctionDefinition) : Prop :=
  d ∈ m.(CompiledModule.function_defs) /\
  match b with
  | Bytecode.Call idx => d.(FunctionDefinition.function) = idx
  | Bytecode.CallGeneric idx =>
    exists fi, m.(CompiledModule.function_instantiations) !! into_index idx = Some fi /\
      d.(FunctionDefinition.function) = fi.(FunctionInstantiation.handle)
  | _ => False
  end.

(** The resource [s] that an instruction acquires, directly or by the list of a callee. *)
Definition acquires (m : CompiledModule) (b : Bytecode) (s : StructDefinitionIndex) : Prop :=
  accesses m b s \/
  exists d, calls m b d /\ s ∈ (d.(FunctionDefinition.acquires_global_resources) : list Z).

(** A resource that a function may access, itself or through the functions it calls. *)
Inductive may_access (m : CompiledModule) : FunctionDefinition -> StructDefinitionIndex -> Prop :=
| may_access_directly d c b s :
    d.(FunctionDefinition.code) = Some c -> b ∈ c.(CodeUnit.code) -> accesses m b s -> may_access m d s
| may_access_by_call d c b d' s :
    d.(FunctionDefinition.code) = Some c -> b ∈ c.(CodeUnit.code) -> calls m b d' -> may_access m d' s ->
    may_access m d s.

(** * The verifier *)

Import AcquiresVerifier.

Lemma contains_ok x s : BTreeSet.contains x s = true <-> x ∈ s.
Proof. apply bool_decide_eq_true. Qed.

Lemma collect_elem l x : x ∈ BTreeSet.collect l -> x ∈ l.
Proof. by rewrite BTreeSet.elem_of_collect. Qed.

Section verify.
Context (m : CompiledModule) (Hin : in_bounds (BinaryIndexedView.Module_ m)).
Hypothesis Hdefs : defines (ModuleAccess.self_handle_idx m) m.(CompiledModule.function_handles)
  FunctionHandle.module m.(CompiledModule.function_defs) FunctionDefinition.function.
Abbreviation defs := (m.(CompiledModule.function_defs)).

Lemma defs_by_handle_ok idx d :
  BTreeMap.get idx (defs_by_handle m) = Some d <-> d ∈ defs /\ d.(FunctionDefinition.function) = idx.
Proof using Hdefs.
  destruct Hdefs as [Hnd _]. assert (defs_by_handle m = BTreeMap.collect
    (map (fun d => (d.(FunctionDefinition.function), d)) defs)) as ->.
  { unfold defs_by_handle, BTreeMap.collect. generalize (BTreeMap.empty (V := FunctionDefinition)).
    clear. induction defs as [|d l IH]; intros mm; cbn; [done|]. by rewrite IH. }
  rewrite BTreeMap.get_collect; [|rewrite map_map; exact Hnd].
  rewrite list_elem_of_In, in_map_iff. setoid_rewrite <- list_elem_of_In. naive_solver.
Qed.

Section body.
Context (annotated : BTreeSet).
Abbreviation run b := (verify_instruction m annotated (defs_by_handle m) b).

(** A check of the resources [l]. *)
Definition checks (c : M ()) (l : list Z) : Prop :=
  forall actual, c actual =
    if forallb (fun x => BTreeSet.contains x annotated) l then append l actual else Err MISSING_ACQUIRES_ANNOTATION.

Lemma call_checks idx :
  idx_ok m.(CompiledModule.function_handles) idx ->
  exists l, checks (call_acquire m annotated (defs_by_handle m) idx) l /\ forall s, s ∈ l <->
    exists d, d ∈ defs /\ d.(FunctionDefinition.function) = idx /\
      s ∈ (d.(FunctionDefinition.acquires_global_resources) : list Z).
Proof using Hin Hdefs.
  intros [h Hh]%idx_ok_lookup. pose proof (view_function_handle_at _ Hin _ _ Hh) as Eh. cbn in Eh.
  exists (function_acquired_resources m (defs_by_handle m) h idx). split.
  - intros actual. unfold call_acquire, mbind, ST_bind. rewrite Eh. cbn [st_lift]. by destruct (forallb _ _).
  - intros s. unfold function_acquired_resources.
    assert ((exists d, d ∈ defs /\ d.(FunctionDefinition.function) = idx /\
      s ∈ (d.(FunctionDefinition.acquires_global_resources) : list Z)) -> FunctionHandle.module h = ModuleAccess.self_handle_idx m) as Hself.
    { intros (d & Hd & Hf & _). destruct Hdefs as (_ & Hh' & _). destruct (Hh' d Hd) as (h' & Eh' & <-).
      rewrite Hf, Hh in Eh'. by injection Eh' as <-. }
    destruct (Z.eqb_spec (FunctionHandle.module h) (ModuleAccess.self_handle_idx m)) as [E|E]; cbn [negb].
    2: { split; [by intros ?%elem_of_nil|]. intros H. by destruct E, Hself. }
    destruct (BTreeMap.get idx (defs_by_handle m)) as [d|] eqn:Ed.
    + rewrite BTreeSet.elem_of_collect. pose proof Ed as [Hd Hf]%defs_by_handle_ok. split; [naive_solver|].
      intros (d' & Hd' & Hf' & Hs). assert (BTreeMap.get idx (defs_by_handle m) = Some d') as E' by by apply defs_by_handle_ok.
      congruence.
    + split; [by intros ?%elem_of_nil|]. intros (d' & Hd' & Hf' & Hs).
      assert (BTreeMap.get idx (defs_by_handle m) = Some d') as E' by by apply defs_by_handle_ok. congruence.
Qed.

Lemma struct_checks idx : checks (struct_acquire annotated idx) [idx].
Proof. intros actual. unfold struct_acquire. cbn [forallb]. rewrite andb_true_r. by destruct (BTreeSet.contains _ _). Qed.

Lemma struct_inst_checks b idx :
  (forall s, accesses m b s <-> exists si, m.(CompiledModule.struct_def_instantiations) !! into_index idx = Some si /\
    s = si.(StructDefInstantiation.def)) -> (forall d, ~ calls m b d) ->
  run b = (si ← st_lift (ModuleAccess.struct_instantiation_at m idx); struct_acquire annotated si.(StructDefInstantiation.def)) ->
  idx_ok m.(CompiledModule.struct_def_instantiations) idx ->
  exists l, checks (run b) l /\ forall s, s ∈ l <-> acquires m b s.
Proof.
  intros Ha Hn Hr [si Hsi]%idx_ok_lookup. exists [si.(StructDefInstantiation.def)]. split.
  - intros actual. rewrite Hr. unfold mbind, ST_bind.
    assert (ModuleAccess.struct_instantiation_at m idx = Ok si) as -> by by apply index_ok. apply struct_checks.
  - intros s. unfold acquires. rewrite list_elem_of_singleton, Ha, Hsi. naive_solver.
Qed.

Lemma instruction_checks b n len locals :
  instr_ok (BinaryIndexedView.Module_ m) n len locals b ->
  exists l, checks (run b) l /\ forall s, s ∈ l <-> acquires m b s.
Proof using Hin Hdefs.
  intros Hb. unfold acquires.
  destruct b; try (exists []; split; [done|]; intros s; cbn; rewrite elem_of_nil; unfold calls; cbn; naive_solver);
    try (eexists; split; [apply struct_checks|]; intros s; rewrite list_elem_of_singleton; unfold calls; cbn; naive_solver).
  - destruct (call_checks _ Hb) as (l & Hl & Hs). exists l. split; [exact Hl|]. intros s. rewrite Hs.
    unfold calls. cbn. naive_solver.
  - destruct Hb as [[fi Hfi]%idx_ok_lookup _]. cbn in Hfi.
    destruct (forall_lookup _ _ _ _ (function_instantiations_in _ Hin) Hfi) as [Hh _].
    destruct (call_checks _ Hh) as (l & Hl & Hs). exists l. split.
    + intros actual. cbn [verify_instruction]. unfold mbind, ST_bind.
      assert (ModuleAccess.function_instantiation_at m a = Ok fi) as -> by by apply index_ok. apply Hl.
    + intros s. rewrite Hs. unfold calls. cbn. rewrite Hfi. naive_solver.
  - destruct Hb as [Hb _]. apply (struct_inst_checks _ a); [done|by intros ? []|done|exact Hb].
  - destruct Hb as [Hb _]. apply (struct_inst_checks _ a); [done|by intros ? []|done|exact Hb].
  - destruct Hb as [Hb _]. apply (struct_inst_checks _ a); [done|by intros ? []|done|exact Hb].
Qed.

(** The loop over the body. *)
Lemma body_checks (code : list Bytecode) n len locals :
  Forall (instr_ok (BinaryIndexedView.Module_ m) n len locals) code ->
  exists l, checks (st_for code (fun b => run b)) l /\ forall s, s ∈ l <-> exists b, b ∈ code /\ acquires m b s.
Proof using Hin Hdefs.
  induction 1 as [|b code Hb _ (l & Hl & Hs)].
  - exists []. split; [done|]. intros s. split; [by intros ?%elem_of_nil|]. by intros (b & ?%elem_of_nil & _).
  - destruct (instruction_checks b n len locals Hb) as (lb & Hlb & Hsb). exists (lb ++ l). split.
    + intros actual. cbn [st_for]. unfold mbind, ST_bind. rewrite (Hlb actual), forallb_app.
      destruct (forallb (fun x => BTreeSet.contains x annotated) lb); [|done]. unfold append at 1. rewrite Hl.
      cbn [andb]. destruct (forallb _ l); [|done]. unfold append. by rewrite foldl_app.
    + intros s. rewrite elem_of_app, Hsb, Hs. setoid_rewrite elem_of_cons. naive_solver.
Qed.
End body.

(** A struct of the module with the ability [key]. *)
Definition has_key_struct (s : StructDefinitionIndex) : Prop :=
  exists d h, m.(CompiledModule.struct_defs) !! Z.to_nat s = Some d /\
    m.(CompiledModule.struct_handles) !! into_index d.(StructDefinition.struct_handle) = Some h /\
    AbilitySet.has_key h.(StructHandle.abilities) = true.

Lemma annotation_ok actual s :
  idx_ok m.(CompiledModule.struct_defs) s ->
  safe (check_annotation m actual s) /\ (check_annotation m actual s = Ok () <-> s ∈ actual /\ has_key_struct s).
Proof using Hin.
  intros [d Hd]%idx_ok_lookup. unfold check_annotation, has_key_struct.
  destruct (forall_lookup _ _ _ _ (struct_defs_in _ Hin) Hd) as (h & Hh & _). unfold into_index in Hd. rewrite Hd.
  pose proof (view_struct_handle_at _ Hin _ _ Hh) as Eh. cbn in Eh, Hh.
  destruct (BTreeSet.contains s actual) eqn:E; cbn [negb].
  - apply contains_ok in E. cbn [unwrap mbind result_bind]. rewrite Eh. cbn [mbind result_bind].
    destruct (AbilitySet.has_key h.(StructHandle.abilities)) eqn:Ek; cbn [negb]; (split; [done|]).
    + split; [|done]. intros _. split; [done|]. by exists d, h.
    + split; [done|]. intros (_ & d' & h' & [= <-] & Hh' & Ek'). rewrite Hh in Hh'. injection Hh' as <-. congruence.
  - split; [done|]. split; [done|]. intros [Hs _]. apply contains_ok in Hs. congruence.
Qed.

Lemma acquires_verify_ok d c :
  d ∈ defs -> d.(FunctionDefinition.code) = Some c ->
  safe (AcquiresVerifier.verify m d) /\ (AcquiresVerifier.verify m d = Ok () <->
    (forall s, s ∈ (d.(FunctionDefinition.acquires_global_resources) : list Z) <->
       exists b, b ∈ c.(CodeUnit.code) /\ acquires m b s) /\
    (forall s, s ∈ (d.(FunctionDefinition.acquires_global_resources) : list Z) -> has_key_struct s)).
Proof using Hin Hdefs.
  intros Hd Hc. pose proof (function_defs_in _ Hin) as Hfd. rewrite Forall_forall in Hfd.
  destruct (Hfd d (proj1 (list_elem_of_In _ _) Hd)) as (_ & Hacq & Hcode). cbn in Hacq.
  destruct (Hcode c Hc) as (h & ps & ls & _ & _ & _ & _ & ls' & _ & _ & Hi).
  destruct (body_checks (BTreeSet.collect d.(FunctionDefinition.acquires_global_resources)) _ _ _ _ Hi) as (l & Hl & Hs).
  unfold AcquiresVerifier.verify. rewrite Hc. cbn [unwrap mbind result_bind]. rewrite Hl.
  rewrite Forall_forall in Hacq. setoid_rewrite <- Hs.
  destruct (forallb _ l) eqn:E.
  - unfold append. cbn [mbind result_bind]. rewrite forallb_forall in E.
    assert (forall s, s ∈ BTreeSet.collect d.(FunctionDefinition.acquires_global_resources) ->
      safe (check_annotation m (foldl (fun s x => BTreeSet.insert x s) BTreeSet.empty l) s) /\
      (check_annotation m (foldl (fun s x => BTreeSet.insert x s) BTreeSet.empty l) s = Ok () <-> s ∈ l /\ has_key_struct s)) as Ha.
    { intros s Hs'%collect_elem%list_elem_of_In. destruct (annotation_ok (foldl (fun s x => BTreeSet.insert x s)
        BTreeSet.empty l) s (Hacq s Hs')) as [? ->]. split; [done|].
      by rewrite BTreeSet.elem_of_collect. }
    split; [by apply res_for_safe; intros s ?; apply Ha|]. rewrite res_for_ok, Forall_forall. split.
    + intros H. split; intros s.
      * split; [intros Hs'; apply Ha, H; [|apply list_elem_of_In]; by apply BTreeSet.elem_of_collect|].
        intros Hs'%list_elem_of_In%E%contains_ok. by apply collect_elem in Hs'.
      * intros Hs'. apply Ha, H; [|apply list_elem_of_In]; by apply BTreeSet.elem_of_collect.
    + intros [H1 H2] s Hs'%list_elem_of_In. apply Ha; [done|]. apply collect_elem in Hs'.
      split; [by apply H1|by apply H2].
  - split; [done|]. split; [done|]. intros [H1 _]. exfalso.
    assert (forallb (fun x => BTreeSet.contains x (BTreeSet.collect d.(FunctionDefinition.acquires_global_resources))) l = true)
      as E'; [|congruence].
    apply forallb_forall. intros x Hx%list_elem_of_In. apply contains_ok, BTreeSet.elem_of_collect. by apply H1.
Qed.
End verify.

Lemma checked_defines m :
  wf_module m = true -> BoundsChecker.verify_module m = Ok () -> DuplicationChecker.verify_module_impl m = Ok () ->
  zlen m.(CompiledModule.function_handles) <= 2 ^ 16 ->
  in_bounds (BinaryIndexedView.Module_ m) /\
  defines (ModuleAccess.self_handle_idx m) m.(CompiledModule.function_handles)
    FunctionHandle.module m.(CompiledModule.function_defs) FunctionDefinition.function.
Proof.
  intros Hwf [_ Hin]%verify_module_ok Hd Hl. split; [done|].
  unfold DuplicationChecker.verify_module_impl in Hd. rewrite !seq_ok in Hd.
  destruct Hd as (_ & _ & _ & _ & _ & _ & _ & _ & _ & _ & _ & Hd & _).
  by apply function_definitions_ok in Hd as [_ ?].
Qed.

(** C34: the acquires lists cover every access.  In a module whose functions all pass the
    verifier (after the bounds and duplication checks), the list of a function contains
    every resource of the module that the function may access, itself or through any
    chain of calls; and the verifier returns on every function with a body. *)
Theorem acquires_sound (m : CompiledModule) (d : FunctionDefinition) (s : StructDefinitionIndex) :
  wf_module m = true -> BoundsChecker.verify_module m = Ok () -> DuplicationChecker.verify_module_impl m = Ok () ->
  zlen m.(CompiledModule.function_handles) <= 2 ^ 16 -> d ∈ m.(CompiledModule.function_defs) ->
  (forall d', d' ∈ m.(CompiledModule.function_defs) -> FunctionDefinition.is_native d' = false ->
     safe (AcquiresVerifier.verify m d')) /\
  ((forall d', d' ∈ m.(CompiledModule.function_defs) -> FunctionDefinition.is_native d' = false ->
      AcquiresVerifier.verify m d' = Ok ()) ->
   may_access m d s -> s ∈ (d.(FunctionDefinition.acquires_global_resources) : list Z)).
Proof.
  intros Hwf Hb Hdup Hl Hd. destruct (checked_defines m Hwf Hb Hdup Hl) as [Hin Hdefs].
  assert (forall d', FunctionDefinition.is_native d' = false -> exists c, d'.(FunctionDefinition.code) = Some c) as Hcode.
  { intros d' Hn. unfold FunctionDefinition.is_native in Hn. destruct (FunctionDefinition.code d') as [c|]; [by exists c|done]. }
  split.
  { intros d' Hd' [c Hc]%Hcode. by destruct (acquires_verify_ok m Hin Hdefs d' c Hd' Hc) as [? _]. }
  intros Hok Hm. revert Hd.
  assert (forall d' c, d' ∈ m.(CompiledModule.function_defs) -> d'.(FunctionDefinition.code) = Some c ->
    forall b s, b ∈ c.(CodeUnit.code) -> acquires m b s -> s ∈ (d'.(FunctionDefinition.acquires_global_resources) : list Z)) as Hv.
  { intros d' c Hd' Hc b s' Hb' Ha. destruct (acquires_verify_ok m Hin Hdefs d' c Hd' Hc) as [_ Hiff].
    apply Hiff; [|by exists b]. apply Hok; [done|]. unfold FunctionDefinition.is_native. by rewrite Hc. }
  induction Hm as [d c b s Hc Hb' Ha|d c b d' s Hc Hb' Hcall _ IH]; intros Hd.
  - eapply Hv; [done|done|done|by left].
  - eapply Hv; [done|done|done|]. right. exists d'. split; [done|]. apply IH. by destruct Hcall.
Qed.

(** A module with a resource [R has key { x: u64 }] and a function [f(a: address)] that
    calls a function [g(a: address)] with [body]; both list [R]. *)
Definition acquiring_module (body : list Bytecode) : CompiledModule :=
  CompiledModule.mk VERSION_MAX 0 [ModuleHandle.mk 0 0]
    [StructHandle.mk 0 1 (Ability.as_u8 Ability.Key) []]
    [FunctionHandle.mk 0 2 1 0 []; FunctionHandle.mk 0 3 1 0 []] [] [] [] [] []
    [[]; [SignatureToken.Address]] [Identifier.self_bytes; [82]; [102]; [103]; [120]] [AccountAddress_ZERO] []
    [StructDefinition.mk 0 (Declared [FieldDefinition.mk 4 SignatureToken.U64])]
    [FunctionDefinition.mk 0 Visibility.Private [0]
       (Some (CodeUnit.mk 0 [Bytecode.MoveLoc 0; Bytecode.Call 1; Bytecode.Ret]));
     FunctionDefinition.mk 1 Visibility.Private [0] (Some (CodeUnit.mk 0 body))].
Definition acquiring_body : list Bytecode :=
  [Bytecode.MoveLoc 0; Bytecode.ImmBorrowGlobal 0; Bytecode.Pop; Bytecode.Ret].

Lemma acquires_sound_witness :
  0 ∈ (FunctionDefinition.acquires_global_resources (FunctionDefinition.mk 0 Visibility.Private [0]
    (Some (CodeUnit.mk 0 [Bytecode.MoveLoc 0; Bytecode.Call 1; Bytecode.Ret]))) : list Z).
Proof.
  eapply (acquires_sound (acquiring_module acquiring_body));
    [vm_compute; reflexivity|vm_compute; reflexivity|vm_compute; reflexivity|vm_compute; discriminate
    |apply list_elem_of_here| |].
  - intros d' [-> |[-> |?%elem_of_nil]%elem_of_cons]%elem_of_cons _; [vm_compute; reflexivity..|done].
  - eapply (may_access_by_call _ _ _ (Bytecode.Call 1)); [reflexivity|right; left| |].
    + split; [right; left|reflexivity].
    + eapply (may_access_directly _ _ _ (Bytecode.ImmBorrowGlobal 0)); [reflexivity|right; left|reflexivity].
Defined.

(** The lists need not be the least: with a function [g] that only calls itself, both
    functions list [R], none accesses it, and the verifier accepts them. *)
Definition idle_body : list Bytecode := [Bytecode.MoveLoc 0; Bytecode.Call 1; Bytecode.Ret].

Theorem acquires_not_least :
  BoundsChecker.verify_module (acquiring_module idle_body) = Ok () /\
  DuplicationChecker.verify_module_impl (acquiring_module idle_body) = Ok () /\
  Forall (fun d => AcquiresVerifier.verify (acquiring_module idle_body) d = Ok () /\
    d.(FunctionDefinition.acquires_global_resources) = [0] /\ forall s, ~ may_access (acquiring_module idle_body) d s)
    (acquiring_module idle_body).(CompiledModule.function_defs).
Proof.
  split; [vm_compute; reflexivity|]. split; [vm_compute; reflexivity|].
  assert (forall d s, may_access (acquiring_module idle_body) d s -> d.(FunctionDefinition.code) = Some (CodeUnit.mk 0 idle_body) -> False) as H.
  { induction 1 as [d c b s Hc Hb Ha|d c b d' s Hc Hb [Hd' _] _ IH]; intros Hcode; rewrite Hc in Hcode; injection Hcode as ->.
    - cbn [CodeUnit.code] in Hb. unfold idle_body in Hb. rewrite !elem_of_cons, elem_of_nil in Hb. by destruct Hb as [-> |[-> |[-> |[]]]].
    - apply IH. by apply elem_of_cons in Hd' as [-> |Hd'%list_elem_of_singleton]; [|subst d']. }
  repeat constructor; try (vm_compute; reflexivity); intros s Hs; by apply (H _ _ Hs).
Qed.
