(* ===== verification/Friends.v ===== *)
(** Friend declarations: move-bytecode-verifier/src/friends.rs.  A module is not its own
    friend and its friends are published under its address. *)
From S2P Require Import Prelude StatusCode Abilities Identifier FileFormat WellFormed Access BTree.
From S2P Require Import BoundsChecker BoundsSpec DuplicationChecker.

Module Friends.
Abbreviation R := (result StatusCode).

(** [iter().any(f)] with a test that may panic. *)
Fixpoint any_res {A} (f : A -> R bool) (l : list A) : R bool :=
  match l with
  | [] => Ok false
  | x :: l => b ← f x; if (b : bool) then Ok true else any_res f l
  end.

Definition verify_module_impl (module : CompiledModule) : R () :=
  self_handle ← ModuleAccess.self_handle module;
  if bool_decide (self_handle ∈ module.(CompiledModule.friend_decls)) then Err INVALID_FRIEND_DECL_WITH_SELF
  else
    self_module ← ModuleAccess.module_handle_at module (ModuleAccess.self_handle_idx module);
    self_address ← ModuleAccess.address_identifier_at module self_module.(ModuleHandle.address);
    has_external_friend ← any_res (fun handle =>
      address ← ModuleAccess.address_identifier_at module handle.(ModuleHandle.address);
      Ok (negb (bool_decide (address = self_address :> list Z)))) module.(CompiledModule.friend_decls);
    if (has_external_friend : bool) then Err INVALID_FRIEND_DECL_WITH_MODULES_OUTSIDE_ACCOUNT_ADDRESS
    else Ok ().
End Friends.

(** The address of a module handle. *)
Definition address_of (m : CompiledModule) (h : ModuleHandle) : option AccountAddress :=
  m.(CompiledModule.address_identifiers) !! into_index h.(ModuleHandle.address).

Lemma any_res_false {A} (f : A -> result StatusCode bool) (P : A -> Prop) l :
  (forall x, x ∈ l -> exists b, f x = Ok b /\ (b = false <-> P x)) ->
  exists b, Friends.any_res f l = Ok b /\ (b = false <-> Forall P l).
Proof.
  induction l as [|x l IH]; intros Hf; cbn; [by exists false|].
  destruct (Hf x (list_elem_of_here _ _)) as (b & -> & Hx). cbn [mbind result_bind].
  setoid_rewrite Forall_cons_iff. destruct b; [exists true; naive_solver|].
  destruct IH as (b & -> & Hl); [intros y Hy; apply Hf; by right|]. exists b. naive_solver.
Qed.

(** On a module in bounds, the friends check returns and accepts exactly the modules that are
    not their own friend and whose friends have the address of the module. *)
Theorem friends_exact (m : CompiledModule) :
  BoundsChecker.verify_module m = Ok () ->
  safe (Friends.verify_module_impl m) /\
  exists self, m.(CompiledModule.module_handles) !! into_index (ModuleAccess.self_handle_idx m) = Some self /\
    (Friends.verify_module_impl m = Ok () <-> self ∉ m.(CompiledModule.friend_decls) /\
       Forall (fun h => address_of m h = address_of m self) m.(CompiledModule.friend_decls)).
Proof.
  intros [_ Hin]%verify_module_ok. pose proof (self_handle_in _ Hin _ eq_refl) as [self Hs]%idx_ok_lookup. cbn in Hs.
  destruct (module_handle_at_ok m Hin (ModuleAccess.self_handle_idx m)) as (self' & Es & Hself).
  { by apply lookup_lt_Some in Hs. }
  assert (self' = self) as ->.
  { unfold ModuleAccess.module_handle_at, index in Es.
    destruct (_ !! _) as [h|] eqn:E in Es; [|done]. assert (h = self) as -> by (cbn in E; congruence).
    cbn [unwrap mbind result_bind] in Es. inv_ok. done. }
  pose proof Hself as [Hp1 Hp2].
  destruct Hself as [[a Ha]%idx_ok_lookup _]. cbn in Ha.
  assert (ModuleAccess.address_identifier_at m self.(ModuleHandle.address) = Ok a) as Ea by by apply index_ok.
  assert (ModuleAccess.self_handle m = Ok self) as Eself.
  { unfold ModuleAccess.self_handle. rewrite Es. cbn [mbind result_bind]. unfold debug_assert.
    cbn in Hp1, Hp2. by rewrite !in_pool_true. }
  unfold Friends.verify_module_impl. rewrite Eself. cbn [mbind result_bind].
  assert (forall h, h ∈ m.(CompiledModule.friend_decls) -> exists ah,
    ModuleAccess.address_identifier_at m h.(ModuleHandle.address) = Ok ah /\ address_of m h = Some ah) as Hfr.
  { intros h Hh%list_elem_of_In. pose proof (friend_decls_in _ Hin) as Hf. rewrite Forall_forall in Hf.
    destruct (Hf h Hh) as [[ah Hah]%idx_ok_lookup _]. exists ah. split; [by apply index_ok|done]. }
  destruct (any_res_false (fun handle => address ← ModuleAccess.address_identifier_at m handle.(ModuleHandle.address);
    Ok (negb (bool_decide (address = a :> list Z)))) (fun h => address_of m h = address_of m self)
    m.(CompiledModule.friend_decls)) as (ext & Eext & Hext).
  { intros h Hh. destruct (Hfr h Hh) as (ah & -> & Hah). eexists. split; [reflexivity|].
    rewrite negb_false_iff, bool_decide_eq_true, Hah. unfold address_of. rewrite Ha. naive_solver. }
  case_bool_decide as Hmem; [split; [done|]; exists self; split; [done|]; naive_solver|].
  rewrite Es. cbn [mbind result_bind]. rewrite Ea. cbn [mbind result_bind]. rewrite Eext. cbn [mbind result_bind].
  destruct ext; (split; [done|]); exists self; (split; [done|]); naive_solver.
Qed.
