(* ===== verification/BorrowGraph.v ===== *)
(** The borrow graph: move-borrow-graph/src.  A graph has a node for each reference and
    edges, labelled with access paths, from a reference to those that borrow from it.
    [Loc] and [Lbl] are the type parameters of the crate; equality and order of edges
    ignore the location.  Nothing in the crate returns an error: what can go wrong is a
    panic, of an assertion, an index or an [unwrap]. *)
From S2P Require Import Prelude Access BTree.

(** * Ordered types

    The [Ord] trait as a comparison function, and the sets and maps ordered by it. *)

Class Ord (A : Set) := cmp : A -> A -> comparison.

(** What [derive(Ord)] gives: the order agrees with equality. *)
Class LawfulOrd (A : Set) `{Ord A} := {
  cmp_refl : forall x : A, cmp x x = Eq;
  cmp_eq : forall x y : A, cmp x y = Eq -> x = y;
}.

#[export] Instance bool_ord : Ord bool := fun b c =>
  match b, c with
  | false, true => Lt
  | true, false => Gt
  | _, _ => Eq
  end.

(** Vectors are ordered lexicographically. *)
#[export] Instance list_ord {A : Set} `{Ord A} : Ord (list A) :=
  fix go l l' :=
    match l, l' with
    | [], [] => Eq
    | [], _ :: _ => Lt
    | _ :: _, [] => Gt
    | x :: l, y :: l' => match cmp x y with Eq => go l l' | c => c end
    end.

#[export] Instance bool_lawful : LawfulOrd bool.
Proof. split; [by intros []|by intros [] []]. Qed.

#[export] Instance list_lawful {A : Set} `{LawfulOrd A} : LawfulOrd (list A).
Proof.
  split.
  - intros l. induction l as [|x l IH]; [done|]. unfold cmp; simpl. by rewrite cmp_refl.
  - intros l. induction l as [|x l IH]; intros [|y l']; try done. unfold cmp; simpl.
    destruct (cmp x y) eqn:E; try done. intros Heq. by rewrite (cmp_eq _ _ E), (IH _ Heq).
Qed.

Module OrdSet.
Section set.
Context {A : Set} `{Ord A}.

(** [BTreeSet::insert] keeps an element that is equal to the new one. *)
Fixpoint insert (x : A) (s : list A) : list A :=
  match s with
  | [] => [x]
  | y :: s' =>
    match cmp x y with
    | Lt => x :: s
    | Eq => s
    | Gt => y :: insert x s'
    end
  end.

(** [BTreeSet::remove]: whether there was an element equal to [x], and the set without it. *)
Fixpoint remove (x : A) (s : list A) : bool * list A :=
  match s with
  | [] => (false, [])
  | y :: s =>
    match cmp x y with
    | Eq => (true, s)
    | _ => let '(b, s) := remove x s in (b, y :: s)
    end
  end.
End set.
End OrdSet.

Module OrdMap.
Section map.
Context {A V : Set} `{Ord A}.

Fixpoint insert (k : A) (v : V) (m : list (A * V)) : list (A * V) :=
  match m with
  | [] => [(k, v)]
  | (k', v') :: m' =>
    match cmp k k' with
    | Lt => (k, v) :: m
    | Eq => (k', v) :: m'
    | Gt => (k', v') :: insert k v m'
    end
  end.

Fixpoint get (k : A) (m : list (A * V)) : option V :=
  match m with
  | [] => None
  | (k', v) :: m => match cmp k k' with Eq => Some v | _ => get k m end
  end.
End map.
End OrdMap.

(** * Paths *)

Definition Path (Lbl : Set) : Set := list Lbl.

Module paths.
Section paths.
Context {E : Type} {Lbl : Set} `{EqDecision Lbl}.

Definition leq (lhs rhs : Path Lbl) : bool :=
  Nat.leb (length lhs) (length rhs) &&
  forallb (fun '(l, r) => bool_decide (l = r)) (combine lhs rhs).

Definition factor (lhs rhs : Path Lbl) : result E (Path Lbl * Path Lbl) :=
  debug_assert (leq lhs rhs);;
  Ok (take (length lhs) rhs, drop (length lhs) rhs).

Definition append (lhs rhs : Path Lbl) : Path Lbl := lhs ++ rhs.
End paths.
End paths.

(** * References *)

(** [RefID::new(x)] and [number] are the identity. *)
Abbreviation RefID := Z.

Module BorrowEdge.
Record BorrowEdge (Loc Lbl : Set) : Set := mk { strong : bool; path : Path Lbl; loc : Loc }.
Arguments mk {Loc Lbl}.
Arguments strong {Loc Lbl}.
Arguments path {Loc Lbl}.
Arguments loc {Loc Lbl}.

Section edge.
Context {Loc Lbl : Set} `{Ord Lbl} `{EqDecision Lbl}.

(** Through [BorrowEdgeNoLoc]: the location is skipped. *)
Definition eq (self other : BorrowEdge Loc Lbl) : bool :=
  bool_decide (self.(strong) = other.(strong)) && bool_decide (self.(path) = other.(path)).

#[global] Instance edge_cmp : Ord (BorrowEdge Loc Lbl) := fun self other =>
  match cmp self.(strong) other.(strong) with
  | Eq => cmp self.(path) other.(path)
  | c => c
  end.

Definition leq (self other : BorrowEdge Loc Lbl) : bool :=
  eq self other || (negb self.(strong) && paths.leq self.(path) other.(path)).
End edge.
End BorrowEdge.
Abbreviation BorrowEdge := BorrowEdge.BorrowEdge.

Definition MAX_EDGE_SET_SIZE : nat := 10.

Module BorrowEdgeSet.
Record BorrowEdgeSet (Loc Lbl : Set) : Set := mk { edges : list (BorrowEdge Loc Lbl); overflown : bool }.
Arguments mk {Loc Lbl}.
Arguments edges {Loc Lbl}.
Arguments overflown {Loc Lbl}.

Section set.
Context {E : Type} {Loc Lbl : Set} `{Ord Lbl}.
Abbreviation R := (result E).

Definition new : BorrowEdgeSet Loc Lbl := mk [] false.

Definition is_empty (self : BorrowEdgeSet Loc Lbl) : bool :=
  match self.(edges) with [] => true | _ => false end.

Definition len (self : BorrowEdgeSet Loc Lbl) : nat := length self.(edges).

Definition insert (edge : BorrowEdge Loc Lbl) (self : BorrowEdgeSet Loc Lbl) :
    R (BorrowEdgeSet Loc Lbl) :=
  debug_assert (Nat.leb (len self) MAX_EDGE_SET_SIZE);;
  if self.(overflown) then debug_assert (negb (is_empty self));; Ok self
  else if Nat.ltb MAX_EDGE_SET_SIZE (len self + 1)
  then Ok (mk [BorrowEdge.mk false [] edge.(BorrowEdge.loc)] true)
  else Ok (mk (OrdSet.insert edge self.(edges)) self.(overflown)).

Definition remove (edge : BorrowEdge Loc Lbl) (self : BorrowEdgeSet Loc Lbl) :
    R (bool * BorrowEdgeSet Loc Lbl) :=
  let '(was_removed, edges) := OrdSet.remove edge self.(edges) in
  debug_assert was_removed;;
  Ok (was_removed, mk edges self.(overflown)).

(** [iter] and [into_iter] *)
Definition iter (self : BorrowEdgeSet Loc Lbl) : R (list (BorrowEdge Loc Lbl)) :=
  debug_assert (self.(overflown) || negb (is_empty self));;
  Ok self.(edges).
End set.
End BorrowEdgeSet.
Abbreviation BorrowEdgeSet := BorrowEdgeSet.BorrowEdgeSet.

Definition BorrowEdges (Loc Lbl : Set) : Set := BTreeMap (BorrowEdgeSet Loc Lbl).

Module BorrowEdges.
(** [for (old, new) in id_map { if let Some(edges) = self.0.remove(old) { self.0.insert(new, edges) } }] *)
Definition remap_refs {V : Set} (id_map : BTreeMap RefID) (self : BTreeMap V) : BTreeMap V :=
  foldl (fun self '(old, new) =>
    match BTreeMap.get old self with
    | Some edges => BTreeMap.insert new edges (BTreeMap.remove old self)
    | None => self
    end) self id_map.
End BorrowEdges.

(** [shared::remap_set] *)
Definition remap_set (id_map : BTreeMap RefID) (set : BTreeSet) : BTreeSet :=
  foldl (fun set '(old, new) =>
    if BTreeSet.contains old set then BTreeSet.insert new (BTreeSet.remove old set) else set) set id_map.

Module Ref.
Record Ref (Loc Lbl : Set) : Set := mk {
  borrowed_by : BorrowEdges Loc Lbl;
  borrows_from : BTreeSet;
  mutable : bool;
}.
Arguments mk {Loc Lbl}.
Arguments borrowed_by {Loc Lbl}.
Arguments borrows_from {Loc Lbl}.
Arguments mutable {Loc Lbl}.

Section ref.
Context {Loc Lbl : Set}.
Definition new (mutable : bool) : Ref Loc Lbl := mk BTreeMap.empty BTreeSet.empty mutable.
Definition set_borrowed_by (f : BorrowEdges Loc Lbl -> BorrowEdges Loc Lbl) (self : Ref Loc Lbl) :
    Ref Loc Lbl := mk (f self.(borrowed_by)) self.(borrows_from) self.(mutable).
Definition set_borrows_from (f : BTreeSet -> BTreeSet) (self : Ref Loc Lbl) : Ref Loc Lbl :=
  mk self.(borrowed_by) (f self.(borrows_from)) self.(mutable).
Definition remap_refs (id_map : BTreeMap RefID) (self : Ref Loc Lbl) : Ref Loc Lbl :=
  set_borrows_from (remap_set id_map) (set_borrowed_by (BorrowEdges.remap_refs id_map) self).
End ref.
End Ref.
Abbreviation Ref := Ref.Ref.

(** * The graph *)

Module BorrowGraph.
Definition BorrowGraph (Loc Lbl : Set) : Set := BTreeMap (Ref Loc Lbl).

Section graph.
Context {E : Type} {Loc Lbl : Set} `{Ord Lbl} `{EqDecision Lbl}.
Abbreviation R := (result E).
Abbreviation Graph := (BorrowGraph Loc Lbl).
Abbreviation M := (ST Graph E).

Definition new : Graph := BTreeMap.empty.

Definition is_mutable (id : RefID) (self : Graph) : R bool :=
  r ← unwrap (BTreeMap.get id self);
  Ok r.(Ref.mutable).

Definition new_ref (id : RefID) (mutable : bool) : M () := fun self =>
  debug_assert (negb (BTreeMap.contains_key id self));;
  Ok ((), BTreeMap.insert id (Ref.new mutable) self).

(** [for (child, edges) in &r.borrowed_by { for edge in edges { .. } }]: the edges in
    the order of the two loops, with the assertions of the iterators. *)
Fixpoint out_edges_of (borrowed_by : BorrowEdges Loc Lbl) : R (list (RefID * BorrowEdge Loc Lbl)) :=
  match borrowed_by with
  | [] => Ok []
  | (child_id, edges) :: borrowed_by =>
    es ← BorrowEdgeSet.iter edges;
    rest ← out_edges_of borrowed_by;
    Ok (map (pair child_id) es ++ rest)
  end.

(** * Queries *)

(** The body of the two loops of [borrowed_by]. *)
Definition collect_borrow (acc : BTreeMap Loc * list (Lbl * BTreeMap Loc))
    (e : RefID * BorrowEdge Loc Lbl) : BTreeMap Loc * list (Lbl * BTreeMap Loc) :=
  let '(full_borrows, field_borrows) := acc in
  let '(borrower, edge) := e in
  match edge.(BorrowEdge.path) with
  | [] => (BTreeMap.insert borrower edge.(BorrowEdge.loc) full_borrows, field_borrows)
  | f :: _ =>
    let borrows := match OrdMap.get f field_borrows with Some m => m | None => BTreeMap.empty end in
    (full_borrows,
     OrdMap.insert f (BTreeMap.insert borrower edge.(BorrowEdge.loc) borrows) field_borrows)
  end.

Definition borrowed_by (id : RefID) (self : Graph) : R (BTreeMap Loc * list (Lbl * BTreeMap Loc)) :=
  r ← unwrap (BTreeMap.get id self);
  es ← out_edges_of r.(Ref.borrowed_by);
  Ok (foldl collect_borrow (BTreeMap.empty, []) es).

Definition between_edges (parent child : RefID) (self : Graph) : R (list (Loc * Path Lbl * bool)) :=
  r ← unwrap (BTreeMap.get parent self);
  edges ← unwrap (BTreeMap.get child r.(Ref.borrowed_by));
  es ← BorrowEdgeSet.iter edges;
  Ok (map (fun edge => (edge.(BorrowEdge.loc), edge.(BorrowEdge.path), edge.(BorrowEdge.strong))) es).

Definition out_edges (id : RefID) (self : Graph) : R (list (Loc * Path Lbl * bool * RefID)) :=
  r ← unwrap (BTreeMap.get id self);
  es ← out_edges_of r.(Ref.borrowed_by);
  Ok (map (fun '(borrower, edge) =>
    (edge.(BorrowEdge.loc), edge.(BorrowEdge.path), edge.(BorrowEdge.strong), borrower)) es).

Fixpoint in_edges_from (id : RefID) (srcs : list RefID) (self : Graph) :
    R (list (Loc * RefID * Path Lbl * bool)) :=
  match srcs with
  | [] => Ok []
  | src :: srcs =>
    es ← between_edges src id self;
    rest ← in_edges_from id srcs self;
    Ok (map (fun '(loc, path, strong) => (loc, src, path, strong)) es ++ rest)
  end.
Definition in_edges (id : RefID) (self : Graph) : R (list (Loc * RefID * Path Lbl * bool)) :=
  r ← unwrap (BTreeMap.get id self);
  in_edges_from id r.(Ref.borrows_from) self.

Definition contains_id (id : RefID) (self : Graph) : bool := BTreeMap.contains_key id self.
Definition all_refs (self : Graph) : BTreeSet := BTreeMap.keys self.

(** * Invariants *)

Definition id_consistency (self : Graph) : bool :=
  forallb (fun '(_, r) =>
    forallb (fun id => contains_id id self) (BTreeMap.keys r.(Ref.borrowed_by)) &&
    forallb (fun id => contains_id id self) r.(Ref.borrows_from)) self.

(** [iter.all(f)] for a predicate that may panic. *)
Fixpoint all_res {A} (f : A -> R bool) (l : list A) : R bool :=
  match l with
  | [] => Ok true
  | x :: l => b ← f x; if (b : bool) then all_res f l else Ok false
  end.

Definition parent_to_child_consistency (self : Graph) (cur_parent child : RefID) : R bool :=
  r ← unwrap (BTreeMap.get child self);
  Ok (BTreeSet.contains cur_parent r.(Ref.borrows_from)).

Definition child_to_parent_consistency (self : Graph) (cur_child parent : RefID) : R bool :=
  r ← unwrap (BTreeMap.get parent self);
  Ok (BTreeMap.contains_key cur_child r.(Ref.borrowed_by)).

Definition edge_consistency (self : Graph) : R bool :=
  all_res (fun '(id, r) =>
    let borrowed_by_is_bounded :=
      forallb (fun '(_, edges) => Nat.leb (BorrowEdgeSet.len edges) MAX_EDGE_SET_SIZE)
        r.(Ref.borrowed_by) in
    borrowed_by_is_consistent ←
      all_res (parent_to_child_consistency self id) (BTreeMap.keys r.(Ref.borrowed_by));
    borrows_from_is_consistent ←
      all_res (child_to_parent_consistency self id) r.(Ref.borrows_from);
    Ok (borrowed_by_is_bounded && borrowed_by_is_consistent && borrows_from_is_consistent)) self.

Definition no_self_loops (self : Graph) : bool :=
  forallb (fun '(id, r) =>
    forallb (fun to_id => negb (id =? to_id)) (BTreeMap.keys r.(Ref.borrowed_by)) &&
    forallb (fun from_id => negb (id =? from_id)) r.(Ref.borrows_from)) self.

Definition check_invariant (self : Graph) : R bool :=
  if id_consistency self
  then b ← edge_consistency self; Ok ((b : bool) && no_self_loops self)
  else Ok false.

(** [debug_assert!(self.check_invariant())] *)
Definition assert_invariant : M () := fun self =>
  b ← check_invariant self;
  debug_assert (b : bool);;
  Ok ((), self).

(** * Edges *)

(** [self.0.get_mut(&id).unwrap()] and an update through the reference. *)
Definition update (id : RefID) (f : Ref Loc Lbl -> R (Ref Loc Lbl)) : M () := fun self =>
  r ← unwrap (BTreeMap.get id self);
  r ← f r;
  Ok ((), BTreeMap.insert id r self).

Definition add_edge (parent_id : RefID) (edge : BorrowEdge Loc Lbl) (child_id : RefID) : M () :=
  st_lift (debug_assert (negb (parent_id =? child_id)));;
  update parent_id (fun parent =>
    let edges := match BTreeMap.get child_id parent.(Ref.borrowed_by) with
                 | Some edges => edges
                 | None => BorrowEdgeSet.new
                 end in
    edges ← BorrowEdgeSet.insert edge edges;
    Ok (Ref.set_borrowed_by (BTreeMap.insert child_id edges) parent));;
  update child_id (fun child => Ok (Ref.set_borrows_from (BTreeSet.insert parent_id) child)).

Definition add_path (parent_id : RefID) (loc : Loc) (strong : bool) (path : Path Lbl)
    (child_id : RefID) : M () :=
  add_edge parent_id (BorrowEdge.mk strong path loc) child_id.

(** The second loop of [factor]: take the edge out of the set of its child. *)
Definition take_out (acc : BorrowEdges Loc Lbl * BTreeSet) (e : RefID * BorrowEdge Loc Lbl) :
    R (BorrowEdges Loc Lbl * BTreeSet) :=
  let '(borrowed_by, cleanup_ids) := acc in
  let '(child_id, edge) := e in
  edges ← unwrap (BTreeMap.get child_id borrowed_by);
  '(was_removed, edges) ← BorrowEdgeSet.remove edge edges;
  debug_assert was_removed;;
  if BorrowEdgeSet.is_empty edges
  then Ok (BTreeMap.remove child_id borrowed_by, BTreeSet.insert child_id cleanup_ids)
  else Ok (BTreeMap.insert child_id edges borrowed_by, cleanup_ids).

Fixpoint take_out_all (es : list (RefID * BorrowEdge Loc Lbl)) (acc : BorrowEdges Loc Lbl * BTreeSet) :
    R (BorrowEdges Loc Lbl * BTreeSet) :=
  match es with
  | [] => Ok acc
  | e :: es => acc ← take_out acc e; take_out_all es acc
  end.

(** [assert!(self.0.get_mut(child_id).unwrap().borrows_from.remove(&parent_id))] *)
Definition cleanup (parent_id child_id : RefID) : M () :=
  update child_id (fun child =>
    debug_assert (BTreeSet.contains parent_id child.(Ref.borrows_from));;
    Ok (Ref.set_borrows_from (BTreeSet.remove parent_id) child)).

(** The last loop of [factor]: put the edge behind the intermediate reference. *)
Definition move_edge (path : Path Lbl) (intermediate_id : RefID) (e : RefID * BorrowEdge Loc Lbl) : M () :=
  let '(child_id, edge) := e in
  '(_, suffix) ← st_lift (paths.factor path edge.(BorrowEdge.path));
  add_path intermediate_id edge.(BorrowEdge.loc) edge.(BorrowEdge.strong) suffix child_id.

Definition factor (parent_id : RefID) (loc : Loc) (path : Path Lbl) (intermediate_id : RefID) : M () :=
  assert_invariant;;
  parent ← (fun self => st_lift (unwrap (BTreeMap.get parent_id self)) self);
  es ← st_lift (out_edges_of parent.(Ref.borrowed_by));
  let needs_factored := List.filter (fun '(_, edge) => paths.leq path edge.(BorrowEdge.path)) es in
  '(borrowed_by, cleanup_ids) ←
    st_lift (take_out_all needs_factored (parent.(Ref.borrowed_by), BTreeSet.empty));
  update parent_id (fun parent => Ok (Ref.set_borrowed_by (fun _ => borrowed_by) parent));;
  st_for cleanup_ids (cleanup parent_id);;
  st_for needs_factored (move_edge path intermediate_id);;
  add_path parent_id loc true path intermediate_id;;
  assert_invariant.

Definition add_strong_borrow (loc : Loc) (parent_id child_id : RefID) : M () :=
  factor parent_id loc [] child_id.
Definition add_strong_field_borrow (loc : Loc) (parent_id : RefID) (field : Lbl) (child_id : RefID) :
    M () := factor parent_id loc [field] child_id.
Definition add_weak_borrow (loc : Loc) (parent_id child_id : RefID) : M () :=
  add_path parent_id loc false [] child_id.
Definition add_weak_field_borrow (loc : Loc) (parent_id : RefID) (field : Lbl) (child_id : RefID) :
    M () := add_path parent_id loc false [field] child_id.

(** * Release *)

Definition splice_out_intermediate (parent_id : RefID) (parent_to_intermediate : BorrowEdge Loc Lbl)
    (child_id : RefID) (intermediate_to_child : BorrowEdge Loc Lbl) : M () :=
  if parent_id =? child_id then mret ()
  else
    let path :=
      if parent_to_intermediate.(BorrowEdge.strong)
      then paths.append parent_to_intermediate.(BorrowEdge.path) intermediate_to_child.(BorrowEdge.path)
      else parent_to_intermediate.(BorrowEdge.path) in
    let strong := parent_to_intermediate.(BorrowEdge.strong) && intermediate_to_child.(BorrowEdge.strong) in
    let loc := intermediate_to_child.(BorrowEdge.loc) in
    add_edge parent_id (BorrowEdge.mk strong path loc) child_id.

(** The body of the loop over the parents of the released reference. *)
Definition release_parent (id : RefID) (borrowed_by : BorrowEdges Loc Lbl) (parent_ref_id : RefID) : M () :=
  parent ← (fun self => st_lift (unwrap (BTreeMap.get parent_ref_id self)) self);
  parent_edges ← st_lift (unwrap (BTreeMap.get id parent.(Ref.borrowed_by)));
  update parent_ref_id (fun parent => Ok (Ref.set_borrowed_by (BTreeMap.remove id) parent));;
  es ← st_lift (BorrowEdgeSet.iter parent_edges);
  st_for es (fun parent_edge =>
    children ← st_lift (out_edges_of borrowed_by);
    st_for children (fun '(child_ref_id, child_edge) =>
      splice_out_intermediate parent_ref_id parent_edge child_ref_id child_edge)).

(** [self.0.remove(&id).unwrap()] *)
Definition remove_ref (id : RefID) : M (Ref Loc Lbl) := fun self =>
  r ← unwrap (BTreeMap.get id self);
  Ok (r, BTreeMap.remove id self).

Definition release (id : RefID) : M () :=
  assert_invariant;;
  r ← remove_ref id;
  st_for r.(Ref.borrows_from) (release_parent id r.(Ref.borrowed_by));;
  st_for (BTreeMap.keys r.(Ref.borrowed_by)) (fun child_ref_id =>
    update child_ref_id (fun child => Ok (Ref.set_borrows_from (BTreeSet.remove id) child)));;
  assert_invariant.

(** * Order and join *)

(** [parent_to_child.iter().any(|self_edge| self_edge.leq(other_edge))], [false] without edges. *)
Definition found_match (self_borrowed_by : BorrowEdges Loc Lbl) (child_id : RefID)
    (other_edge : BorrowEdge Loc Lbl) : R bool :=
  match BTreeMap.get child_id self_borrowed_by with
  | Some parent_to_child =>
    es ← BorrowEdgeSet.iter parent_to_child;
    Ok (existsb (fun self_edge => BorrowEdge.leq self_edge other_edge) es)
  | None => Ok false
  end.

Abbreviation Unmatched := (BTreeMap (BorrowEdges Loc Lbl)).

(** Insertion with the two [entry(..).or_insert_with(..)]. *)
Definition unmatched_insert (parent_id child_id : RefID) (edge : BorrowEdge Loc Lbl) (m : Unmatched) :
    R Unmatched :=
  debug_assert (negb (parent_id =? child_id));;
  let edges := match BTreeMap.get parent_id m with Some es => es | None => BTreeMap.empty end in
  let set := match BTreeMap.get child_id edges with Some s => s | None => BorrowEdgeSet.new end in
  set ← BorrowEdgeSet.insert edge set;
  Ok (BTreeMap.insert parent_id (BTreeMap.insert child_id set edges) m).

Definition unmatched_edge (self_borrowed_by : BorrowEdges Loc Lbl) (parent_id : RefID)
    (e : RefID * BorrowEdge Loc Lbl) : ST Unmatched E () := fun m =>
  let '(child_id, other_edge) := e in
  b ← found_match self_borrowed_by child_id other_edge;
  if (b : bool) then Ok ((), m)
  else m ← unmatched_insert parent_id child_id other_edge m; Ok ((), m).

Definition unmatched_edges (self other : Graph) : R Unmatched :=
  '(_, m) ← st_for other (fun '(parent_id, other_ref) =>
    self_ref ← st_lift (unwrap (BTreeMap.get parent_id self));
    es ← st_lift (out_edges_of other_ref.(Ref.borrowed_by));
    st_for es (unmatched_edge self_ref.(Ref.borrowed_by) parent_id)) (BTreeMap.empty : Unmatched);
  Ok m.

Definition leq (self other : Graph) : R bool :=
  m ← unmatched_edges self other;
  Ok (match m with [] => true | _ => false end).

Definition join (self other : Graph) : R Graph :=
  assert_invariant self;;
  assert_invariant other;;
  debug_assert (forallb (fun id => contains_id id other) (BTreeMap.keys self));;
  debug_assert (forallb (fun id => contains_id id self) (BTreeMap.keys other));;
  unmatched ← unmatched_edges self other;
  '(_, joined) ← st_for unmatched (fun '(parent_id, unmatched_borrowed_by) =>
    es ← st_lift (out_edges_of unmatched_borrowed_by);
    st_for es (fun '(child_id, edge) => add_edge parent_id edge child_id)) self;
  assert_invariant joined;;
  Ok joined.

(** * Remapping *)

Definition remap_refs (id_map : BTreeMap RefID) : M () :=
  assert_invariant;;
  (fun self =>
     let self := map (fun '(id, info) => (id, Ref.remap_refs id_map info)) self in
     Ok ((), BorrowEdges.remap_refs id_map self));;
  assert_invariant.
End graph.
End BorrowGraph.
