(* ===== verification/BorrowGraphFacts.v ===== *)
(** Facts about the borrow graph: edge sets, growing a graph, releasing, factoring,
    joining and remapping references.  The access paths that references stand for are
    given by a function [rho]; an edge accounts for a borrow if it covers the path from
    one reference to the other. *)
From stdpp Require Import relations.
From S2P Require Import Prelude Access BTree BorrowGraph.

(** Paths that avoid [x], given a way around it. *)
Lemma rtc_bypass {A} (R R' : A -> A -> Prop) (x a b : A) :
  (forall y z, y <> x -> z <> x -> R y z -> rtc R' y z) ->
  (forall y z, y <> x -> z <> x -> R y x -> R x z -> rtc R' y z) ->
  (~ R x x) -> (forall y, {y = x} + {y <> x}) ->
  rtc R a b -> a <> x -> b <> x -> rtc R' a b.
Proof.
  intros H1 H2 Hxx Hdec Hab Ha Hb. revert a Hab Ha.
  assert (forall a : A, rtc R a b -> (a <> x -> rtc R' a b) /\
    (a = x -> forall y, y <> x -> R y x -> rtc R' y b)) as Hgen.
  { intros a Hab. induction Hab as [a|a c b' Hac Hcb IH].
    - split; [intros; apply rtc_refl|]. intros ->. done.
    - specialize (IH Hb). split.
      + intros Hax. destruct (Hdec c) as [-> |Hc].
        * by apply (proj2 IH).
        * eapply rtc_trans; [by apply H1|]. by apply (proj1 IH).
      + intros -> y Hy Hyx. destruct (Hdec c) as [-> |Hc]; [done|].
        eapply rtc_trans; [by apply H2|]. by apply (proj1 IH). }
  intros a Hab Ha. by apply (proj1 (Hgen a Hab)).
Qed.

Lemma rtc_congruence_step {A} (R R' : A -> A -> Prop) :
  (forall x y, R x y -> rtc R' x y) -> forall x y, rtc R x y -> rtc R' x y.
Proof. intros HR x y Hxy. induction Hxy; [apply rtc_refl|]. eapply rtc_trans; eauto. Qed.

(** * Renaming *)

Definition rename_one (old new x : RefID) : RefID := if x =? old then new else x.

(** The renaming that the entries of [id_map] make one after the other. *)
Definition rename (id_map : BTreeMap RefID) (x : RefID) : RefID :=
  foldl (fun x '(old, new) => rename_one old new x) x id_map.

(** No entry renames a reference to one that is there at that time. *)
Fixpoint remap_safe (ids : list RefID) (id_map : BTreeMap RefID) : bool :=
  match id_map with
  | [] => true
  | (old, new) :: id_map =>
    if bool_decide (old ∈ ids)
    then ((new =? old) || negb (bool_decide (new ∈ ids))) && remap_safe (map (rename_one old new) ids) id_map
    else remap_safe ids id_map
  end.

Lemma rename_one_inj (ids : list RefID) old new x y :
  new = old \/ new ∉ ids -> x ∈ ids -> y ∈ ids -> rename_one old new x = rename_one old new y -> x = y.
Proof.
  unfold rename_one. intros Hn Hx Hy. destruct (Z.eqb_spec x old), (Z.eqb_spec y old); subst; try done.
  - intros ->. by destruct Hn as [-> |].
  - intros <-. by destruct Hn as [-> |].
Qed.

Lemma remap_safe_cons ids old new id_map :
  remap_safe ids ((old, new) :: id_map) = true ->
  (new = old \/ new ∉ ids \/ old ∉ ids) /\ remap_safe (map (rename_one old new) ids) id_map = true.
Proof.
  cbn [remap_safe]. case_bool_decide as Ho.
  - intros [Hn Hs]%andb_true_iff. split; [|done]. apply orb_true_iff in Hn as [->%Z.eqb_eq|Hn]; [by left|].
    apply negb_true_iff, bool_decide_eq_false in Hn. auto.
  - intros Hs. split; [auto|]. replace (map (rename_one old new) ids) with ids; [done|].
    symmetry. rewrite <- (map_id ids) at 2. apply map_ext_in. intros x Hx%list_elem_of_In.
    unfold rename_one. destruct (Z.eqb_spec x old) as [-> |]; done.
Qed.

Lemma elem_of_rename ids old new x :
  x ∈ map (rename_one old new) ids <-> exists y, y ∈ ids /\ rename_one old new y = x.
Proof. rewrite list_elem_of_In, in_map_iff. setoid_rewrite <- list_elem_of_In. naive_solver. Qed.

Lemma rename_inj ids id_map x y :
  remap_safe ids id_map = true -> x ∈ ids -> y ∈ ids -> rename id_map x = rename id_map y -> x = y.
Proof.
  revert ids x y. induction id_map as [|[old new] id_map IH]; intros ids x y Hs Hx Hy; [done|].
  apply remap_safe_cons in Hs as [Hn Hs]. unfold rename. cbn [foldl]. intros Heq.
  apply (IH _ _ _ Hs) in Heq; [|apply elem_of_rename; eauto..].
  destruct (decide (old ∈ ids)) as [Ho|Ho]; [eapply (rename_one_inj ids); naive_solver|].
  revert Heq. unfold rename_one. destruct (Z.eqb_spec x old) as [-> |]; [done|].
  by destruct (Z.eqb_spec y old) as [-> |].
Qed.

Lemma remap_one_get {V : Set} (m : BTreeMap V) (ids : list RefID) old new :
  BTreeMap.sorted m -> (forall k, is_Some (BTreeMap.get k m) -> k ∈ ids) ->
  (new = old \/ new ∉ ids \/ old ∉ ids) ->
  let m' := match BTreeMap.get old m with
            | Some edges => BTreeMap.insert new edges (BTreeMap.remove old m)
            | None => m
            end in
  BTreeMap.sorted m' /\ forall x v, BTreeMap.get x m' = Some v <->
    exists k, BTreeMap.get k m = Some v /\ rename_one old new k = x.
Proof.
  intros Hm Hids Hn. unfold rename_one. destruct (BTreeMap.get old m) as [e|] eqn:Ho; simpl.
  - assert (old ∈ ids) as Hin by (apply Hids; by exists e).
    split; [by apply BTreeMap.insert_sorted, BTreeMap.remove_sorted|]. intros x v.
    rewrite BTreeMap.get_insert, BTreeMap.get_remove by done. split.
    + destruct (Z.eqb_spec x new) as [-> |].
      * intros [= <-]. exists old. by rewrite Z.eqb_refl.
      * destruct (Z.eqb_spec x old); [done|]. intros Hv. exists x. by rewrite (proj2 (Z.eqb_neq _ _)).
    + intros (k & Hk & Hx). destruct (Z.eqb_spec k old) as [-> |Hko]; subst x.
      * rewrite Z.eqb_refl. congruence.
      * assert (k ∈ ids) by (apply Hids; by exists v).
        rewrite (proj2 (Z.eqb_neq k new)), (proj2 (Z.eqb_neq k old)); [done|done|naive_solver].
  - split; [done|]. intros x v. split.
    + intros Hv. exists x. destruct (Z.eqb_spec x old) as [-> |]; [congruence|done].
    + intros (k & Hk & <-). destruct (Z.eqb_spec k old) as [-> |]; [congruence|done].
Qed.

Lemma remap_get {V : Set} ids id_map (m : BTreeMap V) :
  BTreeMap.sorted m -> (forall k, is_Some (BTreeMap.get k m) -> k ∈ ids) -> remap_safe ids id_map = true ->
  BTreeMap.sorted (BorrowEdges.remap_refs id_map m) /\
  forall x v, BTreeMap.get x (BorrowEdges.remap_refs id_map m) = Some v <->
    exists k, BTreeMap.get k m = Some v /\ rename id_map k = x.
Proof.
  revert ids m. induction id_map as [|[old new] id_map IH]; intros ids m Hm Hids Hs.
  { split; [done|]. unfold rename. simpl. naive_solver. }
  apply remap_safe_cons in Hs as [Hn Hs].
  destruct (remap_one_get m ids old new Hm Hids Hn) as [Hm1 Hg1].
  destruct (IH (map (rename_one old new) ids) _ Hm1) as [Hm2 Hg2]; [|exact Hs|].
  { intros k [v (k' & Hk' & <-)%Hg1]. apply elem_of_rename. exists k'. split; [|done].
    apply Hids. by exists v. }
  split; [done|]. intros x v. unfold BorrowEdges.remap_refs, rename in *. cbn [foldl]. rewrite Hg2.
  setoid_rewrite Hg1. naive_solver.
Qed.

Lemma remap_set_elem ids id_map (l : BTreeSet) :
  BTreeSet.sorted l -> (forall k, k ∈ l -> k ∈ ids) -> remap_safe ids id_map = true ->
  BTreeSet.sorted (remap_set id_map l) /\
  forall x, x ∈ remap_set id_map l <-> exists k, k ∈ l /\ rename id_map k = x.
Proof.
  revert ids l. induction id_map as [|[old new] id_map IH]; intros ids l Hl Hids Hs.
  { split; [done|]. unfold rename. simpl. naive_solver. }
  apply remap_safe_cons in Hs as [Hn Hs].
  set (l1 := if BTreeSet.contains old l then BTreeSet.insert new (BTreeSet.remove old l) else l).
  assert (BTreeSet.sorted l1 /\ forall x, x ∈ l1 <-> exists k, k ∈ l /\ rename_one old new k = x) as [Hl1 Hg1].
  { unfold l1, BTreeSet.contains, rename_one. case_bool_decide as Ho.
    - split; [by apply BTreeSet.set_insert_sorted, BTreeSet.set_remove_sorted|]. intros x.
      rewrite BTreeSet.elem_of_insert, BTreeSet.elem_of_remove by done. split.
      + intros [-> |[Hx Hne]]; [exists old; by rewrite Z.eqb_refl|].
        exists x. by rewrite (proj2 (Z.eqb_neq _ _)).
      + intros (k & Hk & Hx). destruct (Z.eqb_spec k old); [by left|subst x]. by right.
    - split; [done|]. intros x. split.
      + intros Hx. exists x. destruct (Z.eqb_spec x old) as [-> |]; done.
      + intros (k & Hk & <-). destruct (Z.eqb_spec k old) as [-> |]; done. }
  destruct (IH (map (rename_one old new) ids) _ Hl1) as [Hl2 Hg2]; [|exact Hs|].
  { intros x (k & Hk & <-)%Hg1. apply elem_of_rename. eauto. }
  split; [done|]. intros x. unfold remap_set, rename in *. cbn [foldl]. fold l1. rewrite Hg2.
  setoid_rewrite Hg1. naive_solver.
Qed.

Section facts.
Context {E : Type} {Loc Lbl : Set} `{LawfulOrd Lbl} `{EqDecision Lbl}.
Abbreviation Graph := (BorrowGraph.BorrowGraph Loc Lbl).
Abbreviation Edge := (BorrowEdge Loc Lbl).
Abbreviation M := (ST Graph E).
Implicit Types (G : Graph) (e : Edge) (a b c : RefID) (q : list Lbl).

(** * Paths and edges *)

Lemma path_leq (l r : Path Lbl) : paths.leq l r = true <-> l `prefix_of` r.
Proof.
  unfold paths.leq. rewrite andb_true_iff, Nat.leb_le. split.
  - revert r. induction l as [|x l IH]; intros r [Hlen Hall]; [apply prefix_nil|].
    destruct r as [|y r]; simpl in *; [lia|]. bool_hyps. apply bool_decide_eq_true in H1 as ->.
    apply prefix_cons, IH. split; [lia|done].
  - intros [k ->]. rewrite length_app. split; [lia|].
    induction l as [|x l IH]; simpl; [done|]. by rewrite bool_decide_eq_true_2, IH.
Qed.

(** The edge accounts for a borrow at the path [q] below the borrowed reference. *)
Definition covers e q : Prop :=
  if e.(BorrowEdge.strong) then q = e.(BorrowEdge.path) else e.(BorrowEdge.path) `prefix_of` q.

(** What the order of edges looks at. *)
Definition key e : bool * list Lbl := (e.(BorrowEdge.strong), e.(BorrowEdge.path)).

Lemma key_covers e e' q : key e = key e' -> covers e q -> covers e' q.
Proof. unfold key, covers. intros [= -> ->]. done. Qed.

Lemma edge_cmp_refl e : cmp e e = Eq.
Proof. unfold cmp, BorrowEdge.edge_cmp. by rewrite !cmp_refl. Qed.

Lemma edge_cmp_key e e' : cmp e e' = Eq -> key e = key e'.
Proof.
  unfold cmp at 1, BorrowEdge.edge_cmp. destruct (cmp (BorrowEdge.strong e) _) eqn:Hs; try done.
  intros Hp. unfold key. by rewrite (cmp_eq _ _ Hs), (cmp_eq _ _ Hp).
Qed.

Lemma edge_leq_covers e e' q : BorrowEdge.leq e e' = true -> covers e' q -> covers e q.
Proof.
  unfold BorrowEdge.leq, BorrowEdge.eq, covers. rewrite orb_true_iff, !andb_true_iff, !bool_decide_eq_true.
  intros [[-> ->]|[Hw Hp%path_leq]]; [done|]. apply negb_true_iff in Hw. rewrite Hw.
  destruct (BorrowEdge.strong e'); [by intros ->|]. by etrans.
Qed.

Lemma insert_elem e e' (s : list Edge) : e' ∈ s -> e' ∈ OrdSet.insert e s.
Proof.
  induction s as [|x s IH]; simpl; [by rewrite elem_of_nil|]. rewrite elem_of_cons.
  destruct (cmp e x); rewrite ?elem_of_cons; naive_solver.
Qed.

Lemma insert_key e (s : list Edge) : exists e', e' ∈ OrdSet.insert e s /\ key e = key e'.
Proof.
  induction s as [|x s (e' & Hin & Hk)]; simpl; [exists e; by rewrite elem_of_cons; auto|].
  destruct (cmp e x) eqn:Hc.
  - exists x. split; [by left|]. by apply edge_cmp_key.
  - exists e. split; [by left|done].
  - exists e'. split; [by right|done].
Qed.

Lemma insert_length e (s : list Edge) : (1 <= length (OrdSet.insert e s) <= S (length s))%nat.
Proof. induction s as [|x s IH]; simpl; [lia|]. destruct (cmp e x); simpl; lia. Qed.

Lemma remove_key e (s : list Edge) :
  key e ∈ map key s ->
  exists s', OrdSet.remove e s = (true, s') /\ map key s ≡ₚ key e :: map key s' /\
    (forall x, x ∈ s' -> x ∈ s).
Proof.
  assert (forall x : Edge, key e = key x -> cmp e x = Eq) as Hkey.
  { intros [b p l] [= Hb Hp]. unfold cmp, BorrowEdge.edge_cmp. simpl. by rewrite Hb, Hp, !cmp_refl. }
  induction s as [|x s IH]; simpl; [by rewrite elem_of_nil|]. rewrite elem_of_cons. intros Hin.
  destruct (cmp e x) eqn:Hc.
  { exists s. split; [done|]. split; [by rewrite (edge_cmp_key _ _ Hc)|]. intros y ?. by right. }
  all: destruct IH as (s' & -> & Hp & Hs);
    [destruct Hin as [He|]; [rewrite (Hkey _ He) in Hc; discriminate|done]|];
    exists (x :: s'); split; [done|split; [simpl; rewrite Hp; constructor|
      intros y; rewrite !elem_of_cons; naive_solver]].
Qed.

(** * Edge sets *)

(** An edge set of the graph: not empty, bounded, and a single edge that covers every
    path once it has overflown. *)
Definition set_ok (s : BorrowEdgeSet Loc Lbl) : Prop :=
  (1 <= length s.(BorrowEdgeSet.edges) <= MAX_EDGE_SET_SIZE)%nat /\
  (s.(BorrowEdgeSet.overflown) = true ->
   exists l, s.(BorrowEdgeSet.edges) = [BorrowEdge.mk false [] l]).

Definition set_covers (s : BorrowEdgeSet Loc Lbl) q : Prop :=
  exists e, e ∈ s.(BorrowEdgeSet.edges) /\ covers e q.

Lemma set_iter s : set_ok s -> @BorrowEdgeSet.iter E Loc Lbl s = Ok s.(BorrowEdgeSet.edges).
Proof.
  intros [Hlen _]. unfold BorrowEdgeSet.iter, BorrowEdgeSet.is_empty.
  destruct s as [[|x l] o]; simpl in *; [lia|]. by rewrite orb_true_r.
Qed.

Lemma set_insert_ok e s :
  set_ok s \/ s = BorrowEdgeSet.new ->
  exists s', @BorrowEdgeSet.insert E Loc Lbl _ e s = Ok s' /\ set_ok s' /\
    (forall q, covers e q \/ set_covers s q -> set_covers s' q).
Proof.
  intros Hs. assert (length s.(BorrowEdgeSet.edges) <= MAX_EDGE_SET_SIZE)%nat as Hlen.
  { destruct Hs as [[? _]| ->]; simpl; unfold MAX_EDGE_SET_SIZE in *; lia. }
  unfold BorrowEdgeSet.insert, BorrowEdgeSet.len. rewrite (proj2 (Nat.leb_le _ _) Hlen). cbn [debug_assert mbind result_bind].
  destruct (BorrowEdgeSet.overflown s) eqn:Ho.
  - destruct Hs as [Hs| ->]; [|done]. destruct Hs as [Hl Hov]. destruct (Hov Ho) as [l Hl'].
    exists s. unfold BorrowEdgeSet.is_empty. rewrite Hl'. split; [done|]. split; [done|].
    intros q _. exists (BorrowEdge.mk false [] l). rewrite Hl'. split; [by left|apply prefix_nil].
  - destruct (Nat.ltb_spec MAX_EDGE_SET_SIZE (length s.(BorrowEdgeSet.edges) + 1)).
    + eexists. split; [done|]. split; [split; [simpl; unfold MAX_EDGE_SET_SIZE; lia|by eexists]|].
      intros q _. eexists. split; [by left|apply prefix_nil].
    + eexists. split; [done|]. split; [split; simpl; [|congruence]|].
      { pose proof (insert_length e s.(BorrowEdgeSet.edges)). lia. }
      intros q [He|(x & Hx & Hq)].
      * destruct (insert_key e s.(BorrowEdgeSet.edges)) as (e' & Hin & Hk). exists e'.
        split; [done|]. by eapply key_covers.
      * exists x. split; [by apply insert_elem|done].
Qed.

(** * Graphs as relations *)

Definition mutability G a : option bool := Ref.mutable <$> BTreeMap.get a G.
Definition out G a b : option (BorrowEdgeSet Loc Lbl) :=
  match BTreeMap.get a G with Some r => BTreeMap.get b r.(Ref.borrowed_by) | None => None end.
Definition inn G a b : Prop :=
  exists r, BTreeMap.get b G = Some r /\ a ∈ r.(Ref.borrows_from).
(** Some edge from [a] to [b] covers the path [q]. *)
Definition linked G a b q : Prop := exists s, out G a b = Some s /\ set_covers s q.

(** What the collections of a graph guarantee. *)
Record rep_ok G : Prop := {
  rep_keys : BTreeMap.sorted G;
  rep_refs : forall a r, BTreeMap.get a G = Some r ->
    BTreeMap.sorted r.(Ref.borrowed_by) /\ BTreeSet.sorted r.(Ref.borrows_from);
  rep_sets : forall a b s, out G a b = Some s -> set_ok s;
}.

(** The two directions of the edges agree and there are no loops. *)
Definition consistent G : Prop :=
  (forall a b, is_Some (out G a b) <-> inn G a b) /\ (forall a, ~ inn G a a).

Definition graph_ok G : Prop := rep_ok G /\ consistent G.

Lemma get_update G a b (r : Ref Loc Lbl) :
  BTreeMap.get b (BTreeMap.insert a r G) = if b =? a then Some r else BTreeMap.get b G.
Proof. apply BTreeMap.get_insert. Qed.

Lemma mutability_some G a m : mutability G a = Some m <-> exists r, BTreeMap.get a G = Some r /\ r.(Ref.mutable) = m.
Proof. unfold mutability. rewrite fmap_Some. naive_solver. Qed.

Lemma graph_node_get G a : is_Some (mutability G a) <-> is_Some (BTreeMap.get a G).
Proof. unfold mutability. by rewrite fmap_is_Some. Qed.

Lemma out_node G a b : is_Some (out G a b) -> is_Some (mutability G a).
Proof. rewrite graph_node_get. unfold out. destruct (BTreeMap.get a G); [done|]. by intros [? ?]. Qed.

Lemma inn_node G a b : inn G a b -> is_Some (mutability G b).
Proof. intros (r & Hr & _). rewrite graph_node_get. by exists r. Qed.

(** * Updates of a node *)

Lemma update_ok G a r r' (f : Ref Loc Lbl -> result E (Ref Loc Lbl)) :
  BTreeMap.get a G = Some r -> f r = Ok r' -> BorrowGraph.update a f G = Ok ((), BTreeMap.insert a r' G).
Proof. intros Hr Hf. unfold BorrowGraph.update. by rewrite Hr; cbn; rewrite Hf. Qed.

Section update.
Context (G : Graph) (a : RefID) (r : Ref Loc Lbl).
Hypothesis (Hr : BTreeMap.get a G = Some r).

Lemma mutability_insert r' :
  r'.(Ref.mutable) = r.(Ref.mutable) -> forall b, mutability (BTreeMap.insert a r' G) b = mutability G b.
Proof.
  intros Hm b. unfold mutability. rewrite get_update. destruct (Z.eqb_spec b a) as [-> |]; [|done].
  rewrite Hr. simpl. by rewrite Hm.
Qed.

Lemma out_insert r' b c :
  out (BTreeMap.insert a r' G) b c =
  if b =? a then BTreeMap.get c r'.(Ref.borrowed_by) else out G b c.
Proof. unfold out. rewrite get_update. by destruct (b =? a). Qed.

Lemma inn_insert r' b c :
  inn (BTreeMap.insert a r' G) b c <-> if c =? a then b ∈ r'.(Ref.borrows_from) else inn G b c.
Proof.
  unfold inn. rewrite get_update. destruct (c =? a); [|done].
  split; [by intros (x & [= <-] & ?)|intros Hb; by exists r'].
Qed.

Lemma rep_insert r' :
  rep_ok G -> BTreeMap.sorted r'.(Ref.borrowed_by) -> BTreeSet.sorted r'.(Ref.borrows_from) ->
  (forall c s, BTreeMap.get c r'.(Ref.borrowed_by) = Some s -> set_ok s) ->
  rep_ok (BTreeMap.insert a r' G).
Proof.
  intros [Hk Hrefs Hsets] Hb Hf Hs. split.
  - by apply BTreeMap.insert_sorted.
  - intros b x. rewrite get_update. destruct (b =? a); [by intros [= <-]|apply Hrefs].
  - intros b c s. rewrite out_insert. destruct (b =? a); [apply Hs|apply Hsets].
Qed.
End update.

Lemma rep_ref G a r :
  rep_ok G -> BTreeMap.get a G = Some r ->
  BTreeMap.sorted r.(Ref.borrowed_by) /\ BTreeSet.sorted r.(Ref.borrows_from) /\
  (forall c s, BTreeMap.get c r.(Ref.borrowed_by) = Some s -> set_ok s).
Proof.
  intros HG Hr. destruct (rep_refs _ HG _ _ Hr). split; [done|]. split; [done|].
  intros c s Hs. apply (rep_sets _ HG a c). unfold out. by rewrite Hr.
Qed.

(** * Growing graphs *)

(** [G'] has the nodes of [G], the edges of [G] and between the pairs of [T], and covers
    what [G] covers and [D]. *)
Record extends (T : RefID -> RefID -> Prop) (D : RefID -> RefID -> list Lbl -> Prop) G G' : Prop := {
  ext_rep : rep_ok G';
  ext_nodes : forall a, mutability G' a = mutability G a;
  ext_inn : forall a b, inn G' a b <-> inn G a b \/ T a b;
  ext_out : forall a b, is_Some (out G' a b) <-> is_Some (out G a b) \/ T a b;
  ext_keep : forall a b q, linked G a b q -> linked G' a b q;
  ext_new : forall a b q, D a b q -> linked G' a b q;
}.

(** The computation succeeds and extends the graph. *)
Definition grows (c : M ()) T D : Prop :=
  forall G, rep_ok G ->
    (forall a b, T a b -> a <> b /\ is_Some (mutability G a) /\ is_Some (mutability G b)) ->
    exists G', c G = Ok ((), G') /\ extends T D G G'.

Lemma grows_ret : grows (mret ()) (fun _ _ => False) (fun _ _ _ => False).
Proof. intros G HG _. exists G. split; [done|]. split; naive_solver. Qed.

Lemma grows_seq (c1 c2 : M ()) T1 D1 T2 D2 :
  grows c1 T1 D1 -> grows c2 T2 D2 ->
  grows (c1;; c2) (fun a b => T1 a b \/ T2 a b) (fun a b q => D1 a b q \/ D2 a b q).
Proof.
  intros H1 H2 G HG HT. destruct (H1 G HG) as (G1 & R1 & X1); [intros a b ?; apply HT; by left|].
  destruct (H2 G1 (ext_rep _ _ _ _ X1)) as (G2 & R2 & X2).
  { intros a b ?. rewrite !(ext_nodes _ _ _ _ X1). apply HT. by right. }
  exists G2. unfold mbind, ST_bind. rewrite R1. split; [done|].
  destruct X1 as [_ N1 I1 O1 K1 W1], X2 as [Q2 N2 I2 O2 K2 W2]. split; [done|..].
  - intros a. by rewrite N2, N1.
  - intros a b. rewrite I2, I1. tauto.
  - intros a b. rewrite O2, O1. tauto.
  - auto.
  - intros a b q [?|?]; auto.
Qed.

Lemma grows_weaken (c : M ()) (T T' : RefID -> RefID -> Prop) (D D' : RefID -> RefID -> list Lbl -> Prop) :
  grows c T D -> (forall a b, T a b <-> T' a b) -> (forall a b q, D' a b q -> D a b q) -> grows c T' D'.
Proof.
  intros Hc HT HD G HG HT'. destruct (Hc G HG) as (G' & HR & X); [intros a b ?%HT; by apply HT'|].
  exists G'. split; [done|]. destruct X as [Q N I O K W]. split; [done|done|..]; auto.
  - intros a b. by rewrite I, HT.
  - intros a b. by rewrite O, HT.
Qed.

Lemma grows_for {A} (l : list A) (f : A -> M ()) (T : A -> RefID -> RefID -> Prop)
    (D : A -> RefID -> RefID -> list Lbl -> Prop) :
  (forall x, x ∈ l -> grows (f x) (T x) (D x)) ->
  grows (st_for l f) (fun a b => exists x, x ∈ l /\ T x a b) (fun a b q => exists x, x ∈ l /\ D x a b q).
Proof.
  induction l as [|x l IH]; intros Hf; cbn [st_for].
  - eapply grows_weaken; [apply grows_ret|..]; intros a b; [split; [done|]|intros q];
      by intros (x & Hx%elem_of_nil & _).
  - eapply grows_weaken; [eapply grows_seq; [apply Hf; by left|apply IH; intros y Hy; apply Hf; by right]|..].
    + intros a b. setoid_rewrite elem_of_cons. naive_solver.
    + intros a b q (y & [-> |Hy]%elem_of_cons & Hd); [by left|right; eauto].
Qed.

Lemma grows_lift {A} (res : result E A) x (f : A -> M ()) T D :
  res = Ok x -> grows (f x) T D -> grows (y ← st_lift res; f y) T D.
Proof. intros -> Hf. exact Hf. Qed.

Lemma add_edge_grows p e c :
  grows (BorrowGraph.add_edge p e c) (fun a b => a = p /\ b = c)
    (fun a b q => a = p /\ b = c /\ covers e q).
Proof.
  intros G HG HT. destruct (HT p c) as (Hne & Hp & Hc); [done|].
  apply graph_node_get in Hp as [r Hr]. apply graph_node_get in Hc as [rc Hrc].
  destruct (rep_ref _ _ _ HG Hr) as (Hrs & Hrf & Hrset).
  destruct (set_insert_ok e match BTreeMap.get c r.(Ref.borrowed_by) with
    | Some s => s | None => BorrowEdgeSet.new end) as (s' & Hs' & Hok & Hcov).
  { destruct (BTreeMap.get c r.(Ref.borrowed_by)) eqn:Hg; [left; eauto|by right]. }
  set (r' := Ref.set_borrowed_by (BTreeMap.insert c s') r).
  set (G1 := BTreeMap.insert p r' G).
  assert (rep_ok G1) as HG1.
  { apply rep_insert; [done|by apply BTreeMap.insert_sorted|done|]. intros b s. simpl.
    rewrite BTreeMap.get_insert. destruct (b =? c); [by intros [= <-]|apply Hrset]. }
  assert (BTreeMap.get c G1 = Some rc) as Hrc1.
  { unfold G1. rewrite get_update. by destruct (Z.eqb_spec c p). }
  set (rc' := Ref.set_borrows_from (BTreeSet.insert p) rc).
  exists (BTreeMap.insert c rc' G1). split.
  { unfold BorrowGraph.add_edge. rewrite (proj2 (Z.eqb_neq _ _) Hne).
    unfold mbind, ST_bind. cbn [st_lift debug_assert negb].
    rewrite (update_ok G p r r' _ Hr); [|by rewrite Hs'].
    by apply (update_ok G1 c rc rc'). }
  destruct (rep_ref _ _ _ HG1 Hrc1) as (Hcs & Hcf & Hcset).
  assert (forall a b, out (BTreeMap.insert c rc' G1) a b =
    if bool_decide (a = p /\ b = c) then Some s' else out G a b) as Hout.
  { intros a b. rewrite out_insert. destruct (Z.eqb_spec a c) as [-> |Hac].
    - rewrite bool_decide_eq_false_2 by naive_solver. unfold out. by rewrite Hrc.
    - unfold G1. rewrite out_insert. destruct (Z.eqb_spec a p) as [-> |Hap].
      + simpl. rewrite BTreeMap.get_insert. unfold out. rewrite Hr.
        destruct (Z.eqb_spec b c) as [-> |]; [by rewrite bool_decide_eq_true_2|].
        by rewrite bool_decide_eq_false_2 by naive_solver.
      + by rewrite bool_decide_eq_false_2 by naive_solver. }
  split.
  - apply rep_insert; [done|done|by apply BTreeSet.set_insert_sorted|done].
  - intros a. rewrite (mutability_insert G1 c rc Hrc1) by done. by apply (mutability_insert G p r Hr).
  - intros a b. rewrite inn_insert. destruct (Z.eqb_spec b c) as [-> |Hbc].
    + simpl. rewrite BTreeSet.elem_of_insert. unfold inn. naive_solver.
    + unfold G1. rewrite inn_insert. destruct (Z.eqb_spec b p) as [-> |]; [|naive_solver].
      simpl. unfold inn. naive_solver.
  - intros a b. rewrite Hout. case_bool_decide as Hd; [|naive_solver].
    split; [auto|intros _; by exists s'].
  - intros a b q (s & Hs & Hq). exists (if bool_decide (a = p /\ b = c) then s' else s).
    rewrite Hout. case_bool_decide as Hd; [|done]. destruct Hd as [-> ->]. split; [done|].
    apply Hcov. right. unfold out in Hs. rewrite Hr in Hs. by rewrite Hs.
  - intros a b q (-> & -> & Hq). exists s'. rewrite Hout, bool_decide_eq_true_2 by done.
    split; [done|]. apply Hcov. by left.
Qed.

(** * The asserted invariant *)

Lemma forallb_elem {A} (f : A -> bool) l : forallb f l = true <-> forall x, x ∈ l -> f x = true.
Proof. rewrite forallb_forall. by setoid_rewrite list_elem_of_In. Qed.

Lemma all_res_true {A} (f : A -> result E bool) l :
  BorrowGraph.all_res f l = Ok true <-> forall x, x ∈ l -> f x = Ok true.
Proof.
  induction l as [|x l IH]; cbn [BorrowGraph.all_res].
  { split; [|done]. by intros _ x ?%elem_of_nil. }
  setoid_rewrite elem_of_cons. split.
  - intros Hx y Hy. apply res_bind_ok in Hx as (b & Hx & Hb). destruct b; [|discriminate].
    destruct Hy as [-> |Hy]; [done|]. by apply IH.
  - intros Hx. rewrite Hx by auto. cbn. apply IH. auto.
Qed.

Lemma contains_key_some {V : Set} k (m : BTreeMap V) :
  BTreeMap.contains_key k m = true <-> is_Some (BTreeMap.get k m).
Proof. unfold BTreeMap.contains_key. destruct (BTreeMap.get k m); naive_solver. Qed.

(** Quantification over the entries of a graph. *)
Lemma graph_elem G (P : RefID * Ref Loc Lbl -> Prop) :
  BTreeMap.sorted G -> (forall x, x ∈ G -> P x) <-> (forall a r, BTreeMap.get a G = Some r -> P (a, r)).
Proof.
  intros HG. split.
  - intros Hx a r Hr. by apply Hx, BTreeMap.get_elem.
  - intros Hx [a r] Hr. by apply Hx, BTreeMap.get_elem.
Qed.

Lemma out_key G a b r :
  BTreeMap.get a G = Some r -> b ∈ BTreeMap.keys r.(Ref.borrowed_by) <-> is_Some (out G a b).
Proof. intros Hr. unfold out. by rewrite Hr, BTreeMap.elem_of_keys. Qed.

Lemma inn_elem G a b r : BTreeMap.get b G = Some r -> a ∈ r.(Ref.borrows_from) <-> inn G a b.
Proof. intros Hr. unfold inn. rewrite Hr. naive_solver. Qed.

Lemma id_consistency_ok G :
  rep_ok G -> consistent G -> BorrowGraph.id_consistency G = true.
Proof.
  intros HG [Hoi _]. unfold BorrowGraph.id_consistency. rewrite forallb_elem.
  apply graph_elem; [apply HG|]. intros a r Hr. rewrite andb_true_iff, !forallb_elem.
  unfold BorrowGraph.contains_id. split; intros b Hb; apply contains_key_some, graph_node_get.
  - by eapply inn_node, Hoi, out_key.
  - eapply out_node, Hoi. by apply (inn_elem G b a r).
Qed.

Lemma check_invariant_ok G :
  rep_ok G -> consistent G -> @BorrowGraph.check_invariant E Loc Lbl G = Ok true.
Proof.
  intros HG Hc. unfold BorrowGraph.check_invariant. rewrite id_consistency_ok by done.
  destruct Hc as [Hoi Hl].
  assert (@BorrowGraph.edge_consistency E Loc Lbl G = Ok true) as ->.
  { unfold BorrowGraph.edge_consistency. rewrite all_res_true. apply graph_elem; [apply HG|].
    intros a r Hr. destruct (rep_ref _ _ _ HG Hr) as (Hs & _ & Hset).
    assert (BorrowGraph.all_res (BorrowGraph.parent_to_child_consistency G a)
      (BTreeMap.keys r.(Ref.borrowed_by)) = (Ok true : result E bool)) as ->.
    { rewrite all_res_true. intros b Hb. apply (out_key G a b r Hr) in Hb. apply Hoi in Hb as (rb & Hrb & Ha).
      unfold BorrowGraph.parent_to_child_consistency. rewrite Hrb. cbn.
      unfold BTreeSet.contains. by rewrite bool_decide_eq_true_2. }
    assert (BorrowGraph.all_res (BorrowGraph.child_to_parent_consistency G a)
      r.(Ref.borrows_from) = (Ok true : result E bool)) as ->.
    { rewrite all_res_true. intros b Hb. apply (inn_elem G b a r Hr), Hoi in Hb.
      unfold BorrowGraph.child_to_parent_consistency. unfold out in Hb.
      destruct (BTreeMap.get b G); [|by destruct Hb]. cbn. by rewrite (proj2 (contains_key_some _ _)). }
    cbn. rewrite !andb_true_r. f_equal. apply forallb_elem. intros [b x] Hx%BTreeMap.get_elem; [|done].
    apply Nat.leb_le. apply (Hset _ _ Hx). }
  cbn. f_equal. unfold BorrowGraph.no_self_loops. rewrite forallb_elem. apply graph_elem; [apply HG|].
  intros a r Hr. rewrite andb_true_iff, !forallb_elem. setoid_rewrite negb_true_iff.
  setoid_rewrite Z.eqb_neq. split; intros b Hb ->.
  - apply (Hl b), Hoi. by apply (out_key G b b r).
  - apply (Hl b). by apply (inn_elem G b b r).
Qed.

Lemma check_invariant_consistent G :
  rep_ok G -> @BorrowGraph.check_invariant E Loc Lbl G = Ok true -> consistent G.
Proof.
  intros HG Hc. unfold BorrowGraph.check_invariant in Hc.
  destruct (BorrowGraph.id_consistency G) eqn:Hid; [|discriminate].
  apply res_bind_ok in Hc as (b & Hec & [= Hb]). apply andb_true_iff in Hb as [-> Hns].
  unfold BorrowGraph.edge_consistency in Hec. rewrite all_res_true in Hec.
  rewrite (graph_elem G _ (rep_keys _ HG)) in Hec.
  unfold BorrowGraph.no_self_loops in Hns. rewrite forallb_elem, (graph_elem G _ (rep_keys _ HG)) in Hns.
  split.
  - intros a b. split.
    + intros Hout. pose proof Hout as Hn%out_node%graph_node_get. destruct Hn as [r Hr].
      apply (out_key G a b r Hr) in Hout. specialize (Hec a r Hr).
      apply res_bind_ok in Hec as (p2c & Hp & Hec). apply res_bind_ok in Hec as (c2p & _ & [= Hec]).
      bool_hyps. subst. rewrite all_res_true in Hp. specialize (Hp b Hout).
      unfold BorrowGraph.parent_to_child_consistency in Hp. apply res_bind_ok in Hp as (rb & Hrb & [= Hp]).
      exists rb. apply bool_decide_eq_true in Hp. destruct (BTreeMap.get b G); [|discriminate].
      by injection Hrb as ->.
    + intros (r & Hr & Ha). specialize (Hec b r Hr).
      apply res_bind_ok in Hec as (p2c & _ & Hec). apply res_bind_ok in Hec as (c2p & Hp & [= Hec]).
      bool_hyps. subst. rewrite all_res_true in Hp. specialize (Hp a Ha).
      unfold BorrowGraph.child_to_parent_consistency in Hp. apply res_bind_ok in Hp as (ra & Hra & [= Hp]).
      unfold out. destruct (BTreeMap.get a G); [|discriminate]. injection Hra as ->.
      by apply contains_key_some.
  - intros a (r & Hr & Ha). specialize (Hns a r Hr). simpl in Hns. bool_hyps.
    rewrite forallb_elem in H2. specialize (H2 a Ha). rewrite Z.eqb_refl in H2. discriminate.
Qed.

Lemma assert_invariant_ok G : graph_ok G -> @BorrowGraph.assert_invariant E Loc Lbl G = Ok ((), G).
Proof. intros [HG Hc]. unfold BorrowGraph.assert_invariant. by rewrite check_invariant_ok. Qed.

(** * Release *)

Lemma out_edges_of_ok (bb : BorrowEdges Loc Lbl) :
  BTreeMap.sorted bb -> (forall c s, BTreeMap.get c bb = Some s -> set_ok s) ->
  exists es, @BorrowGraph.out_edges_of E Loc Lbl bb = Ok es /\
    forall c e, (c, e) ∈ es <-> exists s, BTreeMap.get c bb = Some s /\ e ∈ s.(BorrowEdgeSet.edges).
Proof.
  intros Hs Hset.
  assert (forall c s, (c, s) ∈ bb -> set_ok s) as Hset'.
  { intros c s Hc. apply (Hset c). by apply BTreeMap.get_elem. }
  assert (exists es, @BorrowGraph.out_edges_of E Loc Lbl bb = Ok es /\
    forall c e, (c, e) ∈ es <-> exists s, (c, s) ∈ bb /\ e ∈ s.(BorrowEdgeSet.edges)) as (es & Hes & Hin).
  { clear Hs Hset. induction bb as [|[c s] bb IH]; cbn [BorrowGraph.out_edges_of].
    - exists []. split; [done|]. intros c e. setoid_rewrite elem_of_nil. naive_solver.
    - destruct IH as (es & -> & Hin); [intros c' s' ?; apply (Hset' c'); by right|].
      rewrite set_iter by (apply (Hset' c); by left). cbn. eexists. split; [done|].
      intros c' e. rewrite elem_of_app, Hin. setoid_rewrite elem_of_cons.
      rewrite (list_elem_of_fmap (pair c) (BorrowEdgeSet.edges s) (c', e)). naive_solver. }
  exists es. split; [done|]. intros c e. rewrite Hin. by setoid_rewrite (BTreeMap.get_elem _ _ _ Hs).
Qed.

Lemma splice_covers pe ce q1 q2 l :
  covers pe q1 -> covers ce q2 ->
  covers (BorrowEdge.mk (pe.(BorrowEdge.strong) && ce.(BorrowEdge.strong))
    (if pe.(BorrowEdge.strong) then paths.append pe.(BorrowEdge.path) ce.(BorrowEdge.path)
     else pe.(BorrowEdge.path)) l) (q1 ++ q2).
Proof.
  unfold covers, paths.append. simpl. destruct (BorrowEdge.strong pe); simpl.
  - intros ->. destruct (BorrowEdge.strong ce); [by intros ->|]. apply prefix_app.
  - intros Hp _. by apply prefix_app_r.
Qed.

Lemma splice_grows p pe c ce :
  grows (BorrowGraph.splice_out_intermediate p pe c ce) (fun a b => a = p /\ b = c /\ p <> c)
    (fun a b q => a = p /\ b = c /\ p <> c /\ exists q1 q2, q = q1 ++ q2 /\ covers pe q1 /\ covers ce q2).
Proof.
  unfold BorrowGraph.splice_out_intermediate. destruct (Z.eqb_spec p c) as [-> |Hne].
  - eapply grows_weaken; [apply grows_ret|naive_solver..].
  - eapply grows_weaken; [apply add_edge_grows|naive_solver|].
    intros a b q (-> & -> & _ & q1 & q2 & -> & H1 & H2). split; [done|]. split; [done|].
    by apply splice_covers.
Qed.

Section release.
Context (id : RefID) (bb : BorrowEdges Loc Lbl).
Hypothesis (Hbb : BTreeMap.sorted bb).
Hypothesis (Hset : forall c s, BTreeMap.get c bb = Some s -> set_ok s).

Definition child b : Prop := is_Some (BTreeMap.get b bb).
Definition child_covers b q : Prop := exists s, BTreeMap.get b bb = Some s /\ set_covers s q.

(** The edges from the references of [ps] to [id] are replaced by edges to its children. *)
Record released (ps : list RefID) G G' : Prop := {
  rel_rep : rep_ok G';
  rel_nodes : forall a, mutability G' a = mutability G a;
  rel_inn : forall a b, inn G' a b <-> inn G a b \/ (a ∈ ps /\ child b /\ a <> b);
  rel_out : forall a b, is_Some (out G' a b) <->
    (is_Some (out G a b) /\ ~ (a ∈ ps /\ b = id)) \/ (a ∈ ps /\ child b /\ a <> b);
  rel_keep : forall a b q, linked G a b q -> ~ (a ∈ ps /\ b = id) -> linked G' a b q;
  rel_new : forall a b q1 q2, a ∈ ps -> linked G a id q1 -> child_covers b q2 -> a <> b ->
    linked G' a b (q1 ++ q2);
}.

Lemma release_parent_ok p G :
  rep_ok G -> is_Some (out G p id) -> ~ child id -> (forall b, child b -> is_Some (mutability G b)) ->
  exists G', BorrowGraph.release_parent id bb p G = (Ok ((), G') : result E _) /\ released [p] G G'.
Proof.
  intros HG [ps Hps] Hid Hchild. pose proof (rep_sets _ HG _ _ _ Hps) as Hpok.
  unfold out in Hps. destruct (BTreeMap.get p G) as [r|] eqn:Hr; [|discriminate].
  destruct (rep_ref _ _ _ HG Hr) as (Hrs & Hrf & Hrset).
  set (r' := Ref.set_borrowed_by (BTreeMap.remove id) r). set (G1 := BTreeMap.insert p r' G).
  assert (forall a b, out G1 a b = if bool_decide (a = p /\ b = id) then None else out G a b) as Hout.
  { intros a b. unfold G1. rewrite out_insert. destruct (Z.eqb_spec a p) as [-> |].
    - simpl. rewrite BTreeMap.get_remove by done. unfold out. rewrite Hr.
      destruct (Z.eqb_spec b id) as [-> |]; [by rewrite bool_decide_eq_true_2|].
      by rewrite bool_decide_eq_false_2 by naive_solver.
    - by rewrite bool_decide_eq_false_2 by naive_solver. }
  assert (rep_ok G1) as HG1.
  { apply rep_insert; [done|by apply BTreeMap.remove_sorted|done|]. intros c s. simpl.
    rewrite BTreeMap.get_remove by done. destruct (c =? id); [done|apply Hrset]. }
  destruct (out_edges_of_ok bb Hbb Hset) as (es & Hes & Hin).
  assert (forall c, child c <-> exists e, (c, e) ∈ es) as Hces.
  { intros c. setoid_rewrite Hin. split; [|by intros (? & s & ? & _); exists s].
    intros [s Hs]. destruct (Hset _ _ Hs) as [Hlen _]. destruct s as [[|e l] o]; simpl in Hlen; [lia|].
    exists e, (BorrowEdgeSet.mk (e :: l) o). split; [done|]. by left. }
  destruct (grows_for ps.(BorrowEdgeSet.edges) (fun pe => children ← st_lift (BorrowGraph.out_edges_of bb);
      st_for children (fun '(c, ce) => BorrowGraph.splice_out_intermediate p pe c ce))
    (fun pe a b => exists x, x ∈ es /\ (a = p /\ b = x.1 /\ p <> x.1))
    (fun pe a b q => exists x, x ∈ es /\ (a = p /\ b = x.1 /\ p <> x.1 /\
       exists q1 q2, q = q1 ++ q2 /\ covers pe q1 /\ covers x.2 q2))) with (G := G1) as (G' & HR & X).
  { intros pe _. eapply grows_lift; [exact Hes|]. apply grows_for. intros [c ce] _. apply splice_grows. }
  { done. }
  { intros a b (pe & _ & [c ce] & Hx & -> & -> & Hne). split; [done|]. simpl in *.
    unfold G1. rewrite !(mutability_insert G p r Hr) by done. split; [rewrite graph_node_get; by exists r|].
    apply Hchild, Hces. eauto. }
  exists G'. split.
  { unfold BorrowGraph.release_parent, mbind, ST_bind. rewrite Hr. cbn [st_lift unwrap]. rewrite Hps.
    cbn [st_lift unwrap]. rewrite (update_ok G p r r' _ Hr) by done. rewrite set_iter by done.
    exact HR. }
  assert (forall a b, (exists pe, pe ∈ BorrowEdgeSet.edges ps /\ exists x, x ∈ es /\ (a = p /\ b = x.1 /\ p <> x.1))
    <-> a ∈ [p] /\ child b /\ a <> b) as HT.
  { intros a b. rewrite list_elem_of_singleton, Hces. split.
    - intros (pe & _ & [c ce] & Hx & -> & -> & Hne). eauto.
    - intros (-> & [e He] & Hne). destruct Hpok as [Hlen _].
      destruct (BorrowEdgeSet.edges ps) as [|pe l]; simpl in Hlen; [lia|].
      exists pe. split; [by left|]. by exists (b, e). }
  destruct X as [Q N I O K W]. split.
  - done.
  - intros a. rewrite N. by apply (mutability_insert G p r Hr).
  - intros a b. rewrite I, HT. unfold G1. rewrite inn_insert.
    destruct (Z.eqb_spec b p) as [-> |]; [|done]. simpl. by rewrite (inn_elem G a p r Hr).
  - intros a b. rewrite O, HT, Hout, list_elem_of_singleton. case_bool_decide; [|tauto].
    split; [intros [[? ?]|?]; [done|tauto]|tauto].
  - intros a b q (s & Hs & Hq) Hn. apply K. exists s. rewrite Hout, bool_decide_eq_false_2; [done|].
    by rewrite list_elem_of_singleton in Hn.
  - intros a b q1 q2 ->%list_elem_of_singleton (s & Hs & pe & Hpe & H1) (sc & Hsc & ce & Hce & H2) Hne.
    unfold out in Hs. rewrite Hr, Hps in Hs. injection Hs as <-. apply W.
    exists pe. split; [done|]. exists (b, ce). split; [apply Hin; eauto|]. simpl. naive_solver.
Qed.

Lemma release_parents_ok ps G :
  rep_ok G -> NoDup ps -> (forall p, p ∈ ps -> is_Some (out G p id)) -> ~ child id ->
  (forall b, child b -> is_Some (mutability G b)) ->
  exists G', st_for ps (BorrowGraph.release_parent id bb) G = (Ok ((), G') : result E _) /\ released ps G G'.
Proof.
  revert G. induction ps as [|p ps IH]; intros G HG Hnd Hps Hid Hch.
  { exists G. split; [done|]. split; try done; setoid_rewrite elem_of_nil; tauto. }
  apply list.NoDup_cons in Hnd as [Hnin Hnd].
  destruct (release_parent_ok p G) as (G1 & R1 & [Q1 N1 I1 O1 K1 W1]); [done|apply Hps; by left|done..|].
  destruct (IH G1) as (G2 & R2 & [Q2 N2 I2 O2 K2 W2]); [done|done|..].
  { intros a Ha. apply O1. left. split; [apply Hps; by right|]. intros [->%list_elem_of_singleton _]. done. }
  { done. }
  { intros b Hb. rewrite N1. by apply Hch. }
  exists G2. cbn [st_for]. unfold mbind, ST_bind. rewrite R1. split; [done|].
  setoid_rewrite list_elem_of_singleton in I1. setoid_rewrite list_elem_of_singleton in O1.
  setoid_rewrite list_elem_of_singleton in K1. setoid_rewrite list_elem_of_singleton in W1.
  split; try setoid_rewrite elem_of_cons.
  - done.
  - intros a. by rewrite N2, N1.
  - intros a b. rewrite I2, I1. naive_solver.
  - intros a b. rewrite O2, O1. split; [naive_solver|].
    intros [[Ho Hn]|([-> |Ha] & Hc & Hne)]; [left|left|right; done].
    + split; [|naive_solver]. left. split; [done|]. naive_solver.
    + split; [by right|]. by intros [? ->].
  - intros a b q Hl Hn. apply K2; [apply K1; [done|naive_solver]|naive_solver].
  - intros a b q1 q2 [-> |Ha] Hl Hc Hne.
    + apply K2; [by eapply W1|]. naive_solver.
    + eapply W2; [done| |done|done]. apply K1; [done|]. intros [-> _]. done.
Qed.
End release.

(** A loop that removes [p] from the back edges of the references of [cs]. *)
Lemma drop_back_ok p cs (f : RefID -> M ()) G :
  (forall c G r, BTreeMap.get c G = Some r -> p ∈ r.(Ref.borrows_from) ->
     f c G = Ok ((), BTreeMap.insert c (Ref.set_borrows_from (BTreeSet.remove p) r) G)) ->
  rep_ok G -> NoDup cs -> (forall c, c ∈ cs -> inn G p c) ->
  exists G', st_for cs f G = Ok ((), G') /\ rep_ok G' /\
    (forall a, mutability G' a = mutability G a) /\ (forall a b, out G' a b = out G a b) /\
    (forall a b, inn G' a b <-> inn G a b /\ ~ (a = p /\ b ∈ cs)).
Proof.
  intros Hf. revert G. induction cs as [|c cs IH]; intros G HG Hnd Hin.
  { exists G. repeat (split; [done|]). setoid_rewrite elem_of_nil. naive_solver. }
  apply list.NoDup_cons in Hnd as [Hnin Hnd].
  destruct (Hin c) as (r & Hr & Hp); [by left|]. destruct (rep_ref _ _ _ HG Hr) as (Hrs & Hrf & Hrset).
  set (r' := Ref.set_borrows_from (BTreeSet.remove p) r). set (G1 := BTreeMap.insert c r' G).
  assert (forall a b, inn G1 a b <-> inn G a b /\ ~ (a = p /\ b = c)) as Hinn.
  { intros a b. unfold G1. rewrite inn_insert. destruct (Z.eqb_spec b c) as [-> |]; [|naive_solver].
    simpl. rewrite BTreeSet.elem_of_remove, (inn_elem G a c r Hr) by done. naive_solver. }
  destruct (IH G1) as (G2 & R2 & Q2 & N2 & O2 & I2).
  { apply rep_insert; [done|done|by apply BTreeSet.set_remove_sorted|done]. }
  { done. }
  { intros b Hb. apply Hinn. split; [apply Hin; by right|]. by intros [_ ->]. }
  exists G2. cbn [st_for]. unfold mbind, ST_bind. rewrite (Hf c G r Hr Hp). split; [exact R2|].
  split; [done|]. split; [|split].
  - intros a. rewrite N2. by apply (mutability_insert G c r Hr).
  - intros a b. rewrite O2. unfold G1. rewrite out_insert. destruct (Z.eqb_spec a c) as [-> |]; [|done].
    unfold out. by rewrite Hr.
  - intros a b. rewrite I2, Hinn, elem_of_cons. naive_solver.
Qed.

(** * What the graph accounts for *)

(** [b] borrows from [a] at the paths that [rho] gives to them, along one edge. *)
Definition borrows (rho : RefID -> list Lbl) G a b : Prop :=
  exists q, linked G a b q /\ rho b = rho a ++ q.
(** Along any number of edges. *)
Definition tracked (rho : RefID -> list Lbl) G : RefID -> RefID -> Prop := rtc (borrows rho G).

Lemma get_remove_ref G id a :
  rep_ok G -> BTreeMap.get a (BTreeMap.remove id G) = if a =? id then None else BTreeMap.get a G.
Proof. intros HG. apply BTreeMap.get_remove, HG. Qed.

Lemma release_ok id G :
  graph_ok G -> is_Some (mutability G id) ->
  exists G', BorrowGraph.release id G = (Ok ((), G') : result E _) /\ graph_ok G' /\
    (forall a, mutability G' a = if a =? id then None else mutability G a) /\
    (forall a b, inn G' a b -> inn G a b \/ (inn G a id /\ inn G id b)) /\
    (forall rho a b, a <> id -> b <> id -> tracked rho G a b -> tracked rho G' a b).
Proof.
  intros HGok Hid. pose proof HGok as [HG [Hoi Hloop]]. apply graph_node_get in Hid as [r Hr].
  destruct (rep_ref _ _ _ HG Hr) as (Hrs & Hrf & Hrset).
  pose proof (get_remove_ref G id) as Hget. set (G1 := BTreeMap.remove id G) in *.
  assert (forall a b, out G1 a b = if a =? id then None else out G a b) as Ho1.
  { intros a b. unfold out. rewrite Hget by done. by destruct (a =? id). }
  assert (forall a b, inn G1 a b <-> inn G a b /\ b <> id) as Hi1.
  { intros a b. unfold inn. rewrite Hget by done. destruct (Z.eqb_spec b id); naive_solver. }
  assert (forall a, mutability G1 a = if a =? id then None else mutability G a) as Hm1.
  { intros a. unfold mutability. rewrite Hget by done. by destruct (a =? id). }
  assert (rep_ok G1) as HG1.
  { split; [apply BTreeMap.remove_sorted, HG|..].
    - intros a x. rewrite Hget by done. destruct (a =? id); [done|apply HG].
    - intros a b s. rewrite Ho1. destruct (a =? id); [done|apply HG]. }
  set (bb := r.(Ref.borrowed_by)) in *. set (ps := r.(Ref.borrows_from)) in *.
  assert (forall b, child bb b <-> is_Some (out G id b)) as Hch.
  { intros b. unfold child, out. by rewrite Hr. }
  assert (forall a, a ∈ ps <-> inn G a id) as Hps by (intros a; by apply inn_elem).
  assert (~ is_Some (out G id id)) as Hns by (intros ?%Hoi; by eapply Hloop).
  destruct (release_parents_ok id bb Hrs Hrset ps G1) as (G2 & R2 & [Q2 N2 I2 O2 K2 W2]).
  { done. }
  { by apply BTreeSet.sorted_NoDup. }
  { intros p Hp%Hps. rewrite Ho1. destruct (Z.eqb_spec p id) as [-> |]; [by apply Hloop in Hp|by apply Hoi]. }
  { by rewrite Hch. }
  { intros b Hb%Hch. rewrite Hm1. destruct (Z.eqb_spec b id) as [-> |]; [done|].
    eapply inn_node. by apply Hoi. }
  destruct (drop_back_ok id (BTreeMap.keys bb) (fun c => BorrowGraph.update c (fun x =>
    Ok (Ref.set_borrows_from (BTreeSet.remove id) x))) G2) as (G3 & R3 & Q3 & N3 & O3 & I3).
  { intros c G' x Hx _. by apply (update_ok _ _ _ _ _ Hx). }
  { done. }
  { by apply BTreeMap.keys_NoDup. }
  { intros c Hc%BTreeMap.elem_of_keys%Hch. apply I2. left. apply Hi1. split; [by apply Hoi|]. by intros ->. }
  assert (forall b, b ∈ BTreeMap.keys bb <-> is_Some (out G id b)) as Hkeys.
  { intros b. rewrite BTreeMap.elem_of_keys. apply Hch. }
  assert (forall a b, is_Some (out G3 a b) <-> a <> id /\ b <> id /\ is_Some (out G a b) \/
    inn G a id /\ is_Some (out G id b) /\ a <> b) as HO.
  { intros a b. rewrite O3, O2, Ho1, Hch, Hps. destruct (Z.eqb_spec a id) as [-> |Ha].
    - split; [|tauto]. intros [[[? ?] _]|[?%Hloop _]]; done.
    - rewrite (Hoi a b). split; [|naive_solver]. intros [[? Hn]|?]; [left|by right].
      split; [done|]. split; [|done]. intros ->. naive_solver. }
  assert (forall a b, inn G3 a b <-> a <> id /\ b <> id /\ is_Some (out G a b) \/
    inn G a id /\ is_Some (out G id b) /\ a <> b) as HI.
  { intros a b. rewrite I3, I2, Hi1, Hch, Hps, Hkeys, <- Hoi. split.
    - intros [[[? ?]|?] Hn]; [left|by right]. naive_solver.
    - intros [?|(Ha & Hb & Hne)]; [naive_solver|]. split; [by right|]. intros [-> _]. by apply Hloop in Ha. }
  assert (graph_ok G3) as HG3.
  { split; [done|]. split; [intros a b; by rewrite HO, HI|].
    intros a [(_ & _ & Ho%Hoi)|(_ & _ & Hne)]%HI; [by eapply Hloop|done]. }
  assert (forall a b q, linked G2 a b q -> linked G3 a b q) as K3.
  { intros a b q (s & Hs & Hq). exists s. by rewrite O3. }
  assert (forall a b q, a <> id -> linked G a b q -> linked G1 a b q) as K1.
  { intros a b q Ha (s & Hs & Hq). exists s. by rewrite Ho1, (proj2 (Z.eqb_neq _ _) Ha). }
  exists G3. split; [|split; [done|split; [|split]]].
  - unfold BorrowGraph.release. unfold mbind at 1, ST_bind at 1. rewrite assert_invariant_ok by done.
    unfold mbind at 1, ST_bind at 1. unfold BorrowGraph.remove_ref. rewrite Hr. cbn [unwrap mbind result_bind].
    unfold mbind, ST_bind. fold ps bb G1. rewrite R2. rewrite R3. by apply assert_invariant_ok.
  - intros a. by rewrite N3, N2, Hm1.
  - intros a b [(_ & _ & ?%Hoi)|(? & ?%Hoi & _)]%HI; [by left|by right].
  - intros rho a b Ha Hb Hab. apply (rtc_bypass (borrows rho G) (borrows rho G3) id a b); [| | |intros; apply Z.eq_dec|exact Hab|done|done].
    + intros y z Hy Hz (q & Hl & Hq). apply rtc_once. exists q. split; [|done].
      apply K3, K2; [by apply K1|]. by intros [_ ->].
    + intros y z Hy Hz (q1 & Hl1 & Hq1) (q2 & (s & Hs & Hc) & Hq2).
      destruct (decide (y = z)) as [-> |Hyz]; [apply rtc_refl|]. apply rtc_once. exists (q1 ++ q2).
      split; [|by rewrite Hq2, Hq1, (assoc_L (++))].
      apply K3, W2; [|by apply K1| |done].
      * apply Hps, Hoi. destruct Hl1 as (s1 & -> & _). by eexists.
      * exists s. unfold out in Hs. by rewrite Hr in Hs.
    + intros (q & (s & Hs & _) & _). apply Hns. by exists s.
Qed.

(** * Factoring *)

(** The edges to [c] in a list of edges and in the edges of a reference, by their keys. *)
Definition keys_to (es : list (RefID * Edge)) c : list (bool * list Lbl) :=
  map (fun x => key x.2) (List.filter (fun x => x.1 =? c) es).
Definition keys_at (bb : BorrowEdges Loc Lbl) c : list (bool * list Lbl) :=
  match BTreeMap.get c bb with Some s => map key s.(BorrowEdgeSet.edges) | None => [] end.

Definition sets_ok (bb : BorrowEdges Loc Lbl) : Prop :=
  BTreeMap.sorted bb /\ forall c s, BTreeMap.get c bb = Some s -> set_ok s.

Lemma elem_of_keys_to es c k : k ∈ keys_to es c <-> exists e, (c, e) ∈ es /\ key e = k.
Proof.
  unfold keys_to. rewrite list_elem_of_In, in_map_iff. setoid_rewrite filter_In.
  setoid_rewrite list_elem_of_In. split.
  - intros ([c' e] & <- & Hin & Hc%Z.eqb_eq). simpl in Hc. subst c'. eauto.
  - intros (e & Hin & <-). exists (c, e). by rewrite Z.eqb_refl.
Qed.

Lemma keys_at_some bb c : sets_ok bb -> is_Some (BTreeMap.get c bb) <-> keys_at bb c <> [].
Proof.
  intros [_ Hset]. unfold keys_at. destruct (BTreeMap.get c bb) as [s|] eqn:Hs; [|by split; [intros [? ?]|]].
  split; [|by eexists]. intros _ Hn%map_eq_nil. destruct (Hset _ _ Hs) as [Hlen _]. rewrite Hn in Hlen.
  simpl in Hlen. lia.
Qed.

Lemma perm_nonempty {A} (l l' : list A) : l ≡ₚ l' -> l <> [] <-> l' <> [].
Proof. intros Hp. destruct l, l'; try done; by apply Permutation_length in Hp. Qed.

Lemma out_edges_keys bb es :
  BTreeMap.sorted bb -> BorrowGraph.out_edges_of bb = (Ok es : result E _) ->
  forall c, keys_to es c = keys_at bb c.
Proof.
  unfold BTreeMap.sorted. revert es. induction bb as [|[k s] bb IH]; intros es Hs Hes c; cbn in Hes.
  { injection Hes as <-. done. }
  apply res_bind_ok in Hes as (es1 & Hes1 & Hes). apply res_bind_ok in Hes as (es2 & Hes2 & [= <-]).
  apply res_bind_ok in Hes1 as (? & _ & [= <-]). inversion Hs as [|? ? Hs' Hk]; subst.
  specialize (IH es2 Hs' Hes2). unfold keys_to, keys_at. rewrite filter_app, map_app. simpl.
  replace (map (fun x => key x.2) (List.filter (fun x => x.1 =? c) (map (pair k) (BorrowEdgeSet.edges s))))
    with (if c =? k then map key (BorrowEdgeSet.edges s) else []).
  2:{ rewrite (Z.eqb_sym c k). induction (BorrowEdgeSet.edges s) as [|e l IHl]; simpl; [by destruct (k =? c)|].
      destruct (k =? c) eqn:Hkc; simpl; by rewrite <- IHl. }
  unfold keys_to, keys_at in IH. rewrite IH. destruct (Z.eqb_spec c k) as [-> |]; [|done].
  destruct (BTreeMap.get k bb) eqn:Hg; [|by rewrite app_nil_r].
  assert (k ∈ BTreeMap.keys bb) as Hin%list_elem_of_In by (apply BTreeMap.elem_of_keys; by eexists).
  rewrite Forall_forall in Hk. specialize (Hk _ Hin). lia.
Qed.

Lemma keys_to_split (f : RefID * Edge -> bool) es c :
  keys_to es c ≡ₚ keys_to (List.filter f es) c ++ keys_to (List.filter (fun x => negb (f x)) es) c.
Proof.
  unfold keys_to. induction es as [|[d x] es IH]; [done|]. simpl. destruct (f (d, x)); simpl; destruct (d =? c); simpl.
  - by apply perm_skip.
  - done.
  - rewrite IH. by apply Permutation_middle.
  - done.
Qed.

Lemma take_out_ok bb cl c e K :
  sets_ok bb -> keys_at bb c ≡ₚ key e :: K ->
  exists bb' cl', BorrowGraph.take_out (bb, cl) (c, e) = (Ok (bb', cl') : result E _) /\ sets_ok bb' /\
    (forall d, keys_at bb' d ≡ₚ if d =? c then K else keys_at bb d) /\
    (BTreeSet.sorted cl -> BTreeSet.sorted cl') /\
    (forall d, d ∈ cl' <-> d ∈ cl \/ (d = c /\ BTreeMap.get c bb' = None)).
Proof.
  intros [Hs Hset] HK. unfold keys_at in HK. destruct (BTreeMap.get c bb) as [s|] eqn:Hg.
  2:{ by apply Permutation_nil_cons in HK. }
  destruct (remove_key e s.(BorrowEdgeSet.edges)) as (l & Hrem & Hperm & Hsub).
  { rewrite HK. by left. }
  rewrite HK in Hperm. apply Permutation_cons_inv in Hperm.
  unfold BorrowGraph.take_out. rewrite Hg. cbn [unwrap mbind result_bind].
  unfold BorrowEdgeSet.remove. rewrite Hrem. cbn [debug_assert mbind result_bind].
  unfold BorrowEdgeSet.is_empty. cbn [BorrowEdgeSet.edges]. destruct l as [|x l].
  - exists (BTreeMap.remove c bb), (BTreeSet.insert c cl). split; [done|]. split; [split|split; [|split]].
    + by apply BTreeMap.remove_sorted.
    + intros d s'. rewrite BTreeMap.get_remove by done. destruct (d =? c); [done|apply Hset].
    + intros d. unfold keys_at. rewrite BTreeMap.get_remove by done.
      destruct (Z.eqb_spec d c) as [-> |]; [by rewrite Hperm|done].
    + apply BTreeSet.set_insert_sorted.
    + intros d. rewrite BTreeSet.elem_of_insert, BTreeMap.get_remove, Z.eqb_refl by done. tauto.
  - exists (BTreeMap.insert c (BorrowEdgeSet.mk (x :: l) s.(BorrowEdgeSet.overflown)) bb), cl.
    split; [done|]. split; [split|split; [|split]].
    + by apply BTreeMap.insert_sorted.
    + intros d s'. rewrite BTreeMap.get_insert. destruct (Z.eqb_spec d c) as [-> |]; [|apply Hset].
      intros [= <-]. destruct (Hset _ _ Hg) as [Hlen Hov].
      apply Permutation_length in HK, Hperm. simpl in *. rewrite length_map in *.
      split; simpl; [lia|]. intros Ho. destruct (Hov Ho) as [? Hl]. rewrite Hl in HK. simpl in HK. lia.
    + intros d. unfold keys_at. rewrite BTreeMap.get_insert.
      destruct (Z.eqb_spec d c) as [-> |]; [by rewrite Hperm|done].
    + done.
    + intros d. rewrite BTreeMap.get_insert, Z.eqb_refl. naive_solver.
Qed.

Lemma take_out_all_ok es bb cl (K : RefID -> list (bool * list Lbl)) :
  sets_ok bb -> BTreeSet.sorted cl -> (forall c, keys_at bb c ≡ₚ keys_to es c ++ K c) ->
  exists bb' cl', BorrowGraph.take_out_all es (bb, cl) = (Ok (bb', cl') : result E _) /\ sets_ok bb' /\
    BTreeSet.sorted cl' /\ (forall c, keys_at bb' c ≡ₚ K c) /\
    (forall c, c ∈ cl' <-> c ∈ cl \/ (is_Some (BTreeMap.get c bb) /\ BTreeMap.get c bb' = None)).
Proof.
  revert bb cl. induction es as [|[c e] es IH]; intros bb cl Hbb Hcl HK.
  { exists bb, cl. do 4 (split; [done|]). intros c. split; [by left|].
    intros [?|[[? Hs] Hn]]; [done|]. congruence. }
  destruct (take_out_ok bb cl c e (keys_to es c ++ K c)) as (bb1 & cl1 & R1 & Hbb1 & HK1 & Hcl1 & Hin1).
  { done. }
  { rewrite HK. unfold keys_to. simpl. by rewrite Z.eqb_refl. }
  destruct (IH bb1 cl1) as (bb2 & cl2 & R2 & Hbb2 & Hcl2 & HK2 & Hin2).
  { done. }
  { auto. }
  { intros d. rewrite HK1. destruct (Z.eqb_spec d c) as [-> |Hne]; [done|]. rewrite HK. unfold keys_to.
    simpl. by rewrite (proj2 (Z.eqb_neq c d)) by congruence. }
  exists bb2, cl2. cbn [BorrowGraph.take_out_all]. rewrite R1. cbn [mbind result_bind].
  split; [done|]. split; [done|]. split; [done|]. split; [done|].
  assert (forall d, is_Some (BTreeMap.get d bb) <-> is_Some (BTreeMap.get d bb1) \/
    (d = c /\ BTreeMap.get c bb1 = None)) as Hdom.
  { intros d. rewrite !keys_at_some by done. pose proof (HK1 d) as Hd. revert Hd.
    destruct (Z.eqb_spec d c) as [Heq|Hne]; [rewrite Heq; intros _|intros Hd].
    - rewrite eq_None_not_Some, (keys_at_some bb1) by done. split.
      + intros _. destruct (decide (keys_at bb1 c = [])); tauto.
      + intros _ Hn. specialize (HK c). rewrite Hn in HK. unfold keys_to in HK. simpl in HK.
        rewrite Z.eqb_refl in HK. by apply Permutation_nil_cons in HK.
    - rewrite (perm_nonempty _ _ Hd). naive_solver. }
  intros d. rewrite Hin2, Hin1, Hdom.
  assert (BTreeMap.get d bb1 = None -> BTreeMap.get d bb2 = None) as Hmono.
  { rewrite !eq_None_not_Some, !keys_at_some by done. intros H1 H2. apply H1. clear H1.
    rewrite (perm_nonempty _ _ (HK2 d)) in H2. rewrite (perm_nonempty _ _ (HK1 d)).
    intros Hn. apply H2. destruct (Z.eqb_spec d c) as [-> |Hne]; [by apply app_nil in Hn as [_ ->]|].
    specialize (HK d). rewrite Hn in HK. apply Permutation_nil in HK. by apply app_nil in HK as [_ ->]. }
  naive_solver.
Qed.

Lemma suffix_covers e path q l :
  path `prefix_of` e.(BorrowEdge.path) -> covers e q ->
  exists q', q = path ++ q' /\
    covers (BorrowEdge.mk e.(BorrowEdge.strong) (drop (length path) e.(BorrowEdge.path)) l) q'.
Proof.
  intros [k Hk] Hq. rewrite Hk, drop_app_length. unfold covers in *. simpl. rewrite Hk in Hq.
  destruct (BorrowEdge.strong e); [by exists k|]. destruct Hq as [t ->].
  exists (k ++ t). split; [by rewrite <- (assoc_L (++))|]. by exists t.
Qed.

(** The edges out of [p] along [path] are moved to [i]. *)
Lemma move_edge_grows path i c e :
  path `prefix_of` e.(BorrowEdge.path) ->
  grows (BorrowGraph.move_edge path i (c, e))
    (fun a b => a = i /\ b = c) (fun a b q => a = i /\ b = c /\ covers e (path ++ q)).
Proof.
  intros Hp. eapply grows_lift with (x := (take (length path) e.(BorrowEdge.path), _)).
  { unfold paths.factor. by rewrite (proj2 (path_leq _ _) Hp). }
  eapply grows_weaken; [apply add_edge_grows|done|]. intros a b q (-> & -> & Hq).
  split; [done|]. split; [done|]. destruct (suffix_covers _ _ _ e.(BorrowEdge.loc) Hp Hq) as (q' & Heq & Hc).
  by apply app_inv_head in Heq as ->.
Qed.

(** The graph once the edges of [p] that pass the test are gone. *)
Lemma strip_ok p r f es (G : Graph) :
  graph_ok G -> BTreeMap.get p G = Some r ->
  BorrowGraph.out_edges_of r.(Ref.borrowed_by) = (Ok es : result E _) ->
  exists bb' cl G',
    BorrowGraph.take_out_all (List.filter f es) (r.(Ref.borrowed_by), BTreeSet.empty) =
      (Ok (bb', cl) : result E _) /\
    (BorrowGraph.update p (fun r => Ok (Ref.set_borrowed_by (fun _ => bb') r));;
     st_for cl (BorrowGraph.cleanup p)) G = (Ok ((), G') : result E _) /\
    graph_ok G' /\ (forall a, mutability G' a = mutability G a) /\
    (forall a b, inn G' a b -> inn G a b) /\
    (forall a b q, a <> p -> linked G a b q -> linked G' a b q) /\
    (forall b e q, (b, e) ∈ es -> f (b, e) = false ->
       (forall e', key e' = key e -> f (b, e') = f (b, e)) -> covers e q -> linked G' p b q).
Proof.
  intros HGok Hr Hes. pose proof HGok as [HG [Hoi Hloop]].
  destruct (rep_ref _ _ _ HG Hr) as (Hrs & Hrf & Hrset).
  destruct (take_out_all_ok (List.filter f es) r.(Ref.borrowed_by) BTreeSet.empty
    (keys_to (List.filter (fun x => negb (f x)) es))) as (bb' & cl & R1 & [Hbs Hbset] & Hcl & HK & Hin).
  { done. }
  { constructor. }
  { intros c. rewrite <- (out_edges_keys _ _ Hrs Hes). apply keys_to_split. }
  setoid_rewrite elem_of_nil in Hin.
  assert (forall b, is_Some (BTreeMap.get b bb') -> is_Some (out G p b)) as Hsub.
  { intros b. rewrite (keys_at_some bb') by done. rewrite (perm_nonempty _ _ (HK b)). intros Hn.
    unfold out. rewrite Hr. apply keys_at_some; [done|]. rewrite <- (out_edges_keys _ _ Hrs Hes).
    rewrite (perm_nonempty _ _ (keys_to_split f es b)). intros [_ ?]%app_nil. done. }
  set (r' := Ref.set_borrowed_by (fun _ => bb') r). set (G1 := BTreeMap.insert p r' G).
  assert (forall a b, inn G1 a b <-> inn G a b) as Hi1.
  { intros a b. unfold G1. rewrite inn_insert. destruct (Z.eqb_spec b p) as [-> |]; [|done].
    by rewrite <- (inn_elem G a p r Hr). }
  assert (forall b, b ∈ cl <-> is_Some (out G p b) /\ BTreeMap.get b bb' = None) as Hcl'.
  { intros b. rewrite Hin. unfold out. rewrite Hr. tauto. }
  destruct (drop_back_ok p cl (BorrowGraph.cleanup p) G1) as (G2 & R2 & Q2 & N2 & O2 & I2).
  { intros c G' x Hx Hp. apply (update_ok _ _ _ _ _ Hx). unfold BTreeSet.contains.
    by rewrite bool_decide_eq_true_2. }
  { by apply rep_insert. }
  { by apply BTreeSet.sorted_NoDup. }
  { intros c [Hc _]%Hcl'. by apply Hi1, Hoi. }
  assert (forall a b, out G2 a b = if a =? p then BTreeMap.get b bb' else out G a b) as Ho2.
  { intros a b. rewrite O2. unfold G1. by rewrite out_insert. }
  exists bb', cl, G2. split; [done|]. split.
  { unfold mbind, ST_bind. rewrite (update_ok G p r r' _ Hr) by done. exact R2. }
  assert (forall a b, inn G2 a b -> inn G a b) as Hi2 by (intros a b [?%Hi1 _]%I2; done).
  split; [split; [done|split]|split; [|split; [done|split]]].
  - intros a b. rewrite Ho2, I2, Hi1, Hcl'. destruct (Z.eqb_spec a p) as [-> |]; [|naive_solver].
    rewrite eq_None_not_Some, <- Hoi. split; [naive_solver|]. intros [Ho Hn].
    destruct (BTreeMap.get b bb'); [by eexists|]. exfalso. apply Hn. split; [done|]. split; [done|]. by intros [? ?].
  - intros a ?%Hi2. by eapply Hloop.
  - intros a. rewrite N2. by apply (mutability_insert G p r Hr).
  - intros a b q Ha (s & Hs & Hq). exists s. by rewrite Ho2, (proj2 (Z.eqb_neq _ _) Ha).
  - intros b e q He Hf Hkey Hq.
    assert (key e ∈ keys_at bb' b) as Hk.
    { rewrite HK. apply elem_of_keys_to. exists e. split; [|done].
      apply list_elem_of_In, filter_In. rewrite Hf. split; [by apply list_elem_of_In|done]. }
    unfold keys_at in Hk. destruct (BTreeMap.get b bb') as [s|] eqn:Hs; [|by apply elem_of_nil in Hk].
    apply list_elem_of_In, in_map_iff in Hk as (e' & Hk & He'%list_elem_of_In).
    exists s. rewrite Ho2, Z.eqb_refl. split; [done|]. exists e'. split; [done|].
    by eapply key_covers.
Qed.

(** [i] takes over the edges of [p] that extend [path]; every borrow stays tracked and
    those below [path] are tracked from [i]. *)
Lemma factor_ok p l path i G :
  graph_ok G -> is_Some (mutability G p) -> is_Some (mutability G i) -> p <> i ->
  (forall a, ~ inn G a i /\ ~ inn G i a) ->
  exists G', BorrowGraph.factor p l path i G = (Ok ((), G') : result E _) /\ graph_ok G' /\
    (forall a, mutability G' a = mutability G a) /\
    (forall a b, inn G' a b -> inn G a b \/ (a = p /\ b = i) \/
       (a = i /\ exists s e, out G p b = Some s /\ e ∈ s.(BorrowEdgeSet.edges) /\
          path `prefix_of` e.(BorrowEdge.path))) /\
    (forall rho, rho i = rho p ++ path ->
       (forall a b, tracked rho G a b -> tracked rho G' a b) /\ borrows rho G' p i /\
       (forall b s e q, out G p b = Some s -> e ∈ s.(BorrowEdgeSet.edges) ->
          path `prefix_of` e.(BorrowEdge.path) -> covers e q -> rho b = rho p ++ q -> borrows rho G' i b)).
Proof.
  intros HGok Hp Hi Hpi Hfresh. pose proof HGok as [HG [Hoi Hloop]]. pose proof Hp as Hp'.
  apply graph_node_get in Hp' as [r Hr]. destruct (rep_ref _ _ _ HG Hr) as (Hrs & Hrf & Hrset).
  destruct (out_edges_of_ok r.(Ref.borrowed_by) Hrs Hrset) as (es & Hes & Hin).
  set (f := (fun '(_, e) => paths.leq path (BorrowEdge.path e)) : RefID * Edge -> bool).
  destruct (strip_ok p r f es G HGok Hr Hes) as
    (bb' & cl & G1 & R1 & R2 & HG1 & N1 & I1 & K1 & P1).
  set (nf := List.filter f es) in *.
  assert (forall c e, (c, e) ∈ nf <-> (exists s, out G p c = Some s /\ e ∈ s.(BorrowEdgeSet.edges)) /\
    path `prefix_of` e.(BorrowEdge.path)) as Hnf.
  { intros c e. unfold nf. rewrite list_elem_of_In, filter_In, <- list_elem_of_In, Hin.
    unfold out, f. rewrite Hr. by rewrite path_leq. }
  destruct (grows_seq (st_for nf (BorrowGraph.move_edge path i))
      (BorrowGraph.add_path p l true path i)
    (fun a b => exists x, x ∈ nf /\ a = i /\ b = x.1)
    (fun a b q => exists x, x ∈ nf /\ a = i /\ b = x.1 /\ covers x.2 (path ++ q))
    (fun a b => a = p /\ b = i) (fun a b q => a = p /\ b = i /\ covers (BorrowEdge.mk true path l) q)) with (G := G1) as (G2 & R3 & X).
  { apply grows_for. intros [c e] [_ He]%Hnf. by apply move_edge_grows. }
  { apply add_edge_grows. }
  { apply HG1. }
  { intros a b. rewrite !N1. intros [([c e] & [(s & Hs & _) _]%Hnf & -> & ->)|[-> ->]]; [|done].
    simpl. assert (inn G p c) as Hc by (apply Hoi; by exists s).
    split; [|split; [done|by eapply inn_node]]. intros <-. by destruct (Hfresh p). }
  destruct X as [Q2 N2 I2 O2 K2 W2].
  assert (graph_ok G2) as HG2.
  { destruct HG1 as [Q1 [Hoi1 Hloop1]]. split; [done|]. split; [intros a b; rewrite I2, O2, Hoi1; tauto|].
    intros a [?%Hloop1|[([c e] & [(s & Hs & _) _]%Hnf & -> & Heq)|[-> ?]]]%I2; [done| |done].
    simpl in Heq. subst c. apply (proj1 (Hfresh p)), Hoi. by exists s. }
  exists G2. split; [|split; [done|split; [|split]]].
  - unfold BorrowGraph.factor. unfold mbind at 1, ST_bind at 1. rewrite assert_invariant_ok by done.
    unfold mbind at 1, ST_bind at 1. rewrite Hr. cbn [unwrap st_lift].
    unfold mbind at 1, ST_bind at 1. rewrite Hes. cbn [st_lift].
    unfold mbind at 1, ST_bind at 1. fold f. change (List.filter f es) with nf. rewrite R1. cbn [st_lift].
    revert R2 R3. unfold mbind, ST_bind.
    destruct (BorrowGraph.update _ _ G) as [[[] ?]| | |]; try done. intros ->.
    destruct (st_for nf (@BorrowGraph.move_edge E _ _ _ _ path i) G1) as [[[] ?]| | |]; try done. intros ->.
    by apply assert_invariant_ok.
  - intros a. by rewrite N2, N1.
  - intros a b [?%I1|[([c e] & [(s & Hs & He) Hpre]%Hnf & -> & ->)|[-> ->]]]%I2; [by left| |by right; left].
    right; right. split; [done|]. exists s, e. done.
  - intros rho Hrho.
    assert (borrows rho G2 p i) as Hpi'.
    { exists path. split; [|done]. apply W2. right. done. }
    assert (forall b s e q, out G p b = Some s -> e ∈ s.(BorrowEdgeSet.edges) ->
      path `prefix_of` e.(BorrowEdge.path) -> covers e q -> rho b = rho p ++ q -> borrows rho G2 i b) as Hib.
    { intros b s e q Hs He Hpre Hq Hb. destruct (suffix_covers _ _ _ l Hpre Hq) as (q' & -> & _).
      exists q'. split; [|by rewrite Hb, Hrho, (assoc_L (++))]. apply W2. left.
      exists (b, e). split; [apply Hnf; eauto|done]. }
    split; [|done]. intros a b. apply rtc_congruence_step. clear a b. intros a b (q & Hl & Hq).
    destruct (decide (a = p)) as [-> |Ha].
    + destruct Hl as (s & Hs & e & He & Hc). destruct (paths.leq path (BorrowEdge.path e)) eqn:Hle.
      * eapply rtc_l; [exact Hpi'|]. apply rtc_once. eapply Hib; try done. by apply path_leq.
      * apply rtc_once. exists q. split; [|done]. apply K2, (P1 b e); try done.
        { apply Hin. unfold out in Hs. rewrite Hr in Hs. eauto. }
        { intros e' [= _ He']. simpl. by rewrite He'. }
    + apply rtc_once. exists q. split; [|done]. by apply K2, K1.
Qed.

(** * Order and join *)

Abbreviation Unmatched := (BTreeMap (BorrowEdges Loc Lbl)).

(** The set of edges from [a] to [b] in a collection of unmatched edges. *)
Definition unm (m : Unmatched) a b : option (BorrowEdgeSet Loc Lbl) :=
  match BTreeMap.get a m with Some es => BTreeMap.get b es | None => None end.
Definition unm_covers (m : Unmatched) a b q : Prop := exists s, unm m a b = Some s /\ set_covers s q.

Definition unm_ok (m : Unmatched) : Prop :=
  BTreeMap.sorted m /\ forall a es, BTreeMap.get a m = Some es -> sets_ok es /\ es <> [].

(** Some edge of [G] from [a] to [b] is as general as [e]. *)
Definition matched G a b e : Prop :=
  exists s e0, out G a b = Some s /\ e0 ∈ s.(BorrowEdgeSet.edges) /\ BorrowEdge.leq e0 e = true.

Lemma matched_linked G a b e q : matched G a b e -> covers e q -> linked G a b q.
Proof. intros (s & e0 & Hs & He & Hle) Hq. exists s. split; [done|]. exists e0. split; [done|]. by eapply edge_leq_covers. Qed.

Lemma found_match_ok G p r c e :
  rep_ok G -> BTreeMap.get p G = Some r ->
  exists fm : bool, BorrowGraph.found_match r.(Ref.borrowed_by) c e = (Ok fm : result E bool) /\
    (fm = true <-> matched G p c e).
Proof.
  intros HG Hr. unfold BorrowGraph.found_match, matched, out. rewrite Hr.
  destruct (BTreeMap.get c r.(Ref.borrowed_by)) as [s|] eqn:Hs.
  - rewrite set_iter by (apply (rep_ref _ _ _ HG Hr) in Hs; done). cbn. eexists. split; [done|].
    rewrite existsb_exists. setoid_rewrite <- list_elem_of_In. naive_solver.
  - exists false. split; [done|]. naive_solver.
Qed.

Lemma unmatched_insert_ok p c e (m : Unmatched) :
  unm_ok m -> p <> c ->
  exists m', BorrowGraph.unmatched_insert p c e m = (Ok m' : result E _) /\ unm_ok m' /\
    (forall a b, is_Some (unm m' a b) <-> is_Some (unm m a b) \/ (a = p /\ b = c)) /\
    (forall a b q, unm_covers m a b q \/ (a = p /\ b = c /\ covers e q) -> unm_covers m' a b q).
Proof.
  intros [Hm Hes] Hne. unfold BorrowGraph.unmatched_insert. rewrite (proj2 (Z.eqb_neq _ _) Hne).
  cbn [negb debug_assert mbind result_bind].
  set (es := match BTreeMap.get p m with Some es => es | None => BTreeMap.empty end).
  assert (sets_ok es) as [Hs Hset].
  { unfold es. destruct (BTreeMap.get p m) as [x|] eqn:Hx; [by apply (Hes p)|]. split; [constructor|done]. }
  destruct (set_insert_ok e match BTreeMap.get c es with Some s => s | None => BorrowEdgeSet.new end)
    as (s' & -> & Hok & Hcov).
  { destruct (BTreeMap.get c es) eqn:Hg; [left; eauto|by right]. }
  eexists. split; [done|].
  assert (forall a b, unm (BTreeMap.insert p (BTreeMap.insert c s' es) m) a b =
    if bool_decide (a = p /\ b = c) then Some s' else unm m a b) as Hunm.
  { intros a b. unfold unm. rewrite BTreeMap.get_insert. destruct (Z.eqb_spec a p) as [-> |].
    - rewrite BTreeMap.get_insert. destruct (Z.eqb_spec b c) as [-> |]; [by rewrite bool_decide_eq_true_2|].
      rewrite bool_decide_eq_false_2 by naive_solver. unfold es. by destruct (BTreeMap.get p m).
    - by rewrite bool_decide_eq_false_2 by naive_solver. }
  split; [split|split].
  - by apply BTreeMap.insert_sorted.
  - intros a x. rewrite BTreeMap.get_insert. destruct (Z.eqb_spec a p) as [-> |]; [|apply Hes].
    intros [= <-]. split; [split; [by apply BTreeMap.insert_sorted|]|].
    + intros d y. rewrite BTreeMap.get_insert. destruct (d =? c); [by intros [= <-]|apply Hset].
    + intros Hn. pose proof (BTreeMap.get_insert c c s' es) as Hg. rewrite Hn, Z.eqb_refl in Hg. done.
  - intros a b. rewrite Hunm. case_bool_decide; [|naive_solver]. split; [auto|by eexists].
  - intros a b q Hq. unfold unm_covers. rewrite Hunm. case_bool_decide as Hd; [|naive_solver].
    destruct Hd as [-> ->]. exists s'. split; [done|]. apply Hcov.
    destruct Hq as [(s & Hs' & Hq)|(_ & _ & Hq)]; [right|by left]. unfold unm in Hs'. unfold es.
    destruct (BTreeMap.get p m); [|discriminate]. by rewrite Hs'.
Qed.

(** What is known once the edges [P] of the other graph have been visited. *)
Definition visited G (P : RefID -> RefID -> Edge -> Prop) (m : Unmatched) : Prop :=
  unm_ok m /\
  (forall a b e, P a b e -> matched G a b e \/
     (is_Some (unm m a b) /\ forall q, covers e q -> unm_covers m a b q)) /\
  (forall a b, is_Some (unm m a b) -> exists e, P a b e /\ ~ matched G a b e).

Lemma visited_iff G (P Q : RefID -> RefID -> Edge -> Prop) m :
  (forall a b e, P a b e <-> Q a b e) -> visited G P m -> visited G Q m.
Proof. intros HPQ (H1 & H2 & H3). split; [done|]. setoid_rewrite <- HPQ. done. Qed.

Lemma visit_edge_ok G p r c e P m :
  rep_ok G -> BTreeMap.get p G = Some r -> p <> c -> visited G P m ->
  exists m', BorrowGraph.unmatched_edge r.(Ref.borrowed_by) p (c, e) m = (Ok ((), m') : result E _) /\
    visited G (fun a b x => P a b x \/ (a = p /\ b = c /\ x = e)) m'.
Proof.
  intros HG Hr Hne (Hm & HP & Hd). destruct (found_match_ok G p r c e HG Hr) as (b & Hb & Hmatch).
  unfold BorrowGraph.unmatched_edge. rewrite Hb. cbn [mbind result_bind]. destruct b.
  - exists m. split; [done|]. split; [done|]. split; [|naive_solver].
    intros a b x [?|(-> & -> & ->)]; [auto|]. left. by apply Hmatch.
  - destruct (unmatched_insert_ok p c e m Hm Hne) as (m' & -> & Hm' & Hsome & Hcov).
    exists m'. split; [done|]. split; [done|]. split.
    + intros a b x [Hx|(-> & -> & ->)].
      * destruct (HP _ _ _ Hx) as [?|[Hs Hq]]; [by left|right]. split; [apply Hsome; auto|].
        intros q ?. apply Hcov. auto.
      * right. split; [apply Hsome; auto|]. intros q ?. apply Hcov. auto.
    + intros a b [Hs|[-> ->]]%Hsome; [destruct (Hd _ _ Hs) as (x & ? & ?); eauto|].
      exists e. split; [by right|]. intros ?%Hmatch. discriminate.
Qed.

Lemma visit_edges_ok G p r es P m :
  rep_ok G -> BTreeMap.get p G = Some r -> (forall c e, (c, e) ∈ es -> p <> c) -> visited G P m ->
  exists m', st_for es (BorrowGraph.unmatched_edge r.(Ref.borrowed_by) p) m = (Ok ((), m') : result E _) /\
    visited G (fun a b x => P a b x \/ (a = p /\ (b, x) ∈ es)) m'.
Proof.
  intros HG Hr. revert P m. induction es as [|[c e] es IH]; intros P m Hne Hv.
  { exists m. split; [done|]. eapply visited_iff, Hv. setoid_rewrite elem_of_nil. naive_solver. }
  destruct (visit_edge_ok G p r c e P m HG Hr) as (m1 & R1 & Hv1); [apply (Hne c e); by left|done|].
  destruct (IH _ m1 ltac:(intros d x ?; apply (Hne d x); by right) Hv1) as (m2 & R2 & Hv2).
  exists m2. cbn [st_for]. unfold mbind, ST_bind. rewrite R1. split; [done|].
  eapply visited_iff, Hv2. intros a b x. rewrite elem_of_cons. naive_solver.
Qed.

Lemma unmatched_edges_ok G G' :
  rep_ok G -> graph_ok G' -> (forall a, is_Some (mutability G' a) -> is_Some (mutability G a)) ->
  exists m, BorrowGraph.unmatched_edges G G' = (Ok m : result E _) /\
    visited G (fun a b e => exists s, out G' a b = Some s /\ e ∈ s.(BorrowEdgeSet.edges)) m.
Proof.
  intros HG [HG' [Hoi Hloop]] Hnodes.
  assert (forall l P m, (forall a r, (a, r) ∈ l -> BTreeMap.get a G' = Some r) -> visited G P m ->
    exists m', st_for l (fun '(parent_id, other_ref) =>
      self_ref ← st_lift (unwrap (BTreeMap.get parent_id G));
      es ← st_lift (BorrowGraph.out_edges_of other_ref.(Ref.borrowed_by));
      st_for es (BorrowGraph.unmatched_edge self_ref.(Ref.borrowed_by) parent_id)) m = (Ok ((), m') : result E _) /\
    visited G (fun a b e => P a b e \/ exists r s, (a, r) ∈ l /\
      BTreeMap.get b r.(Ref.borrowed_by) = Some s /\ e ∈ s.(BorrowEdgeSet.edges)) m') as Hloop'.
  { induction l as [|[p r'] l IH]; intros P m Hl Hv.
    - exists m. split; [done|]. eapply visited_iff, Hv. setoid_rewrite elem_of_nil. naive_solver.
    - assert (BTreeMap.get p G' = Some r') as Hr' by (apply Hl; by left).
      destruct (rep_ref _ _ _ HG' Hr') as (Hs & _ & Hset).
      destruct (out_edges_of_ok r'.(Ref.borrowed_by) Hs Hset) as (es & Hes & Hin).
      destruct (Hnodes p) as [mu Hmu]; [rewrite graph_node_get; by exists r'|].
      apply mutability_some in Hmu as (r & Hr & _).
      destruct (visit_edges_ok G p r es P m HG Hr) as (m1 & R1 & Hv1); [|done|].
      { intros c e (s & Hs' & _)%Hin ->. apply (Hloop c), Hoi. unfold out. rewrite Hr'. by exists s. }
      destruct (IH _ m1 ltac:(intros a x ?; apply Hl; by right) Hv1) as (m2 & R2 & Hv2).
      exists m2. cbn [st_for]. unfold mbind at 1, ST_bind at 1. rewrite Hr, Hes. cbn [unwrap st_lift].
      unfold mbind at 1 2, ST_bind at 1 2. cbn [st_lift]. rewrite R1. split; [exact R2|].
      eapply visited_iff, Hv2. intros a b e. setoid_rewrite elem_of_cons. setoid_rewrite Hin. naive_solver. }
  destruct (Hloop' G' (fun _ _ _ => False) BTreeMap.empty) as (m & HR & Hv).
  { intros a r. by apply BTreeMap.get_elem, HG'. }
  { split; [split; [constructor|done]|]. split; [done|]. by intros a b [? ?]. }
  exists m. unfold BorrowGraph.unmatched_edges. rewrite HR. split; [done|].
  eapply visited_iff, Hv. intros a b e. unfold out. setoid_rewrite <- (BTreeMap.get_elem _ _ G' (rep_keys _ HG')).
  split; [|destruct (BTreeMap.get a G'); naive_solver].
  intros [[]|(r & s & -> & ?)]. eauto.
Qed.

Lemma unm_empty (m : Unmatched) : unm_ok m -> (forall a b, ~ is_Some (unm m a b)) -> m = [].
Proof.
  intros [Hm Hes] Hn. destruct m as [|[a es] m]; [done|]. exfalso.
  assert (BTreeMap.get a ((a, es) :: m) = Some es) as Hg by (simpl; by rewrite Z.eqb_refl).
  destruct (Hes a es Hg) as [_ Hne]. destruct es as [|[b x] es]; [done|]. apply (Hn a b).
  unfold unm. rewrite Hg. simpl. rewrite Z.eqb_refl. by eexists.
Qed.

Lemma leq_ok G G' :
  rep_ok G -> graph_ok G' -> (forall a, is_Some (mutability G' a) -> is_Some (mutability G a)) ->
  exists res : bool, BorrowGraph.leq G G' = (Ok res : result E bool) /\
    (res = true <-> forall a b s e, out G' a b = Some s -> e ∈ s.(BorrowEdgeSet.edges) -> matched G a b e).
Proof.
  intros HG HG' Hn. destruct (unmatched_edges_ok G G' HG HG' Hn) as (m & HR & Hm & HP & Hd).
  unfold BorrowGraph.leq. rewrite HR. cbn [mbind result_bind]. eexists. split; [done|]. split.
  - destruct m; [|done]. intros _ a b s e Hs He. destruct (HP a b e) as [?|[[? Hu] _]]; [eauto|done|].
    discriminate.
  - intros Hall. rewrite (unm_empty m Hm); [done|]. intros a b Hs.
    destruct (Hd _ _ Hs) as (e & (s & ? & ?) & Hnm). eapply Hnm, Hall; done.
Qed.

Lemma matched_tracked G G' rho :
  (forall a b s e, out G' a b = Some s -> e ∈ s.(BorrowEdgeSet.edges) -> matched G a b e) ->
  forall a b, tracked rho G' a b -> tracked rho G a b.
Proof.
  intros Hm. apply rtc_congruence_step. intros a b (q & (s & Hs & e & He & Hc) & Hq). apply rtc_once.
  exists q. split; [|done]. eapply matched_linked; [by eapply Hm|done].
Qed.

Lemma add_unmatched_grows (m : Unmatched) :
  unm_ok m ->
  grows (st_for m (fun '(parent_id, unmatched_borrowed_by) =>
      es ← st_lift (BorrowGraph.out_edges_of unmatched_borrowed_by);
      st_for es (fun '(child_id, edge) => BorrowGraph.add_edge parent_id edge child_id)))
    (fun a b => is_Some (unm m a b)) (unm_covers m).
Proof.
  intros [Hm Hes].
  eapply grows_weaken; [apply (grows_for m _
    (fun x a b => a = x.1 /\ is_Some (BTreeMap.get b x.2))
    (fun x a b q => a = x.1 /\ exists s, BTreeMap.get b x.2 = Some s /\ set_covers s q))|..].
  - intros [p es] Hx%BTreeMap.get_elem; [|done]. destruct (Hes _ _ Hx) as [[Hs Hset] _].
    destruct (out_edges_of_ok es Hs Hset) as (l & Hl & Hin).
    eapply grows_lift; [exact Hl|]. eapply grows_weaken; [apply (grows_for l _
      (fun x a b => a = p /\ b = x.1) (fun x a b q => a = p /\ b = x.1 /\ covers x.2 q))|..].
    + intros [c e] _. apply add_edge_grows.
    + intros a b. simpl. split.
      * intros ([c e] & (s & Hs' & _)%Hin & -> & ->). split; [done|]. by exists s.
      * intros [-> [s Hs']]. destruct (Hset _ _ Hs') as [Hlen _].
        destruct (BorrowEdgeSet.edges s) as [|e es'] eqn:He; simpl in Hlen; [lia|].
        exists (b, e). split; [|done]. apply Hin. exists s. rewrite He. split; [done|]. by left.
    + intros a b q (-> & s & Hs' & e & He & Hq). exists (b, e). split; [apply Hin; eauto|done].
  - intros a b. unfold unm. split.
    + intros ([p es] & Hx%BTreeMap.get_elem & -> & Hs); [|done]. simpl in *. by rewrite Hx.
    + destruct (BTreeMap.get a m) as [es|] eqn:Ha; [|by intros [? ?]]. intros Hs.
      exists (a, es). split; [by apply BTreeMap.get_elem|done].
  - intros a b q (s & Hs & Hq). unfold unm in Hs. destruct (BTreeMap.get a m) as [es|] eqn:Ha; [|done].
    exists (a, es). split; [by apply BTreeMap.get_elem|]. eauto.
Qed.

Lemma graph_join_ok G G' :
  graph_ok G -> graph_ok G' -> (forall a, is_Some (mutability G a) <-> is_Some (mutability G' a)) ->
  exists J, BorrowGraph.join G G' = (Ok J : result E _) /\ graph_ok J /\
    (forall a, mutability J a = mutability G a) /\
    (forall a b, inn J a b -> inn G a b \/ inn G' a b) /\
    (forall rho a b, tracked rho G a b \/ tracked rho G' a b -> tracked rho J a b).
Proof.
  intros HG HG' Hn. pose proof HG as [Q [Hoi Hloop]]. pose proof HG' as [Q' [Hoi' Hloop']].
  destruct (unmatched_edges_ok G G' Q HG') as (m & HR & Hm & HP & Hd); [intros a; apply Hn|].
  assert (forall a b, is_Some (unm m a b) -> is_Some (out G' a b)) as Hsub.
  { intros a b Hs. destruct (Hd _ _ Hs) as (e & (s & ? & _) & _). by exists s. }
  destruct (add_unmatched_grows m Hm G Q) as (J & HJ & [QJ N I O K W]).
  { intros a b Hs%Hsub. rewrite !Hn. split; [|split; [by eapply out_node|by eapply inn_node, Hoi']].
    intros ->. by eapply Hloop', Hoi'. }
  assert (graph_ok J) as HJok.
  { split; [done|]. split; [intros a b; rewrite I, O, Hoi; tauto|].
    intros a [?%Hloop|Hs%Hsub]%I; [done|]. by eapply Hloop', Hoi'. }
  exists J. split; [|split; [done|split; [done|split]]].
  - unfold BorrowGraph.join. rewrite !assert_invariant_ok by done. cbn [mbind result_bind].
    assert (forall (A B : Graph), (forall a, is_Some (mutability A a) <-> is_Some (mutability B a)) ->
      forallb (fun id => BorrowGraph.contains_id id B) (BTreeMap.keys A) = true) as Hkeys.
    { intros A B HAB. apply forallb_elem. intros a Ha%BTreeMap.elem_of_keys%graph_node_get.
      unfold BorrowGraph.contains_id. by apply contains_key_some, graph_node_get, HAB. }
    rewrite (Hkeys G G') by done. rewrite (Hkeys G' G) by (intros a; symmetry; apply Hn).
    cbn [debug_assert mbind result_bind]. rewrite HR. cbn [mbind result_bind]. rewrite HJ.
    cbn [mbind result_bind]. by rewrite assert_invariant_ok.
  - intros a b [?|?%Hsub%Hoi']%I; [by left|by right].
  - intros rho a b [Ht|Ht]; revert a b Ht; apply rtc_congruence_step; intros a b (q & Hl & Hq); apply rtc_once;
      exists q; (split; [|done]).
    + by apply K.
    + destruct Hl as (s & Hs & e & He & Hc). destruct (HP a b e) as [Hma|[_ Hcov]]; [eauto|..].
      * apply K. by eapply matched_linked.
      * by apply W, Hcov.
Qed.

(** * Remapping *)

Lemma remap_ok id_map G :
  graph_ok G -> remap_safe (BTreeMap.keys G) id_map = true ->
  exists G', BorrowGraph.remap_refs id_map G = (Ok ((), G') : result E _) /\ graph_ok G' /\
    (forall x mu, mutability G' x = Some mu <-> exists a, mutability G a = Some mu /\ rename id_map a = x) /\
    (forall x y, inn G' x y -> exists a b, inn G a b /\ rename id_map a = x /\ rename id_map b = y) /\
    (forall a b q, linked G a b q -> linked G' (rename id_map a) (rename id_map b) q).
Proof.
  intros HGok Hsafe. pose proof HGok as [HG [Hoi Hloop]].
  set (f := (fun '(id, info) => (id, Ref.remap_refs id_map info)) : RefID * Ref Loc Lbl -> RefID * Ref Loc Lbl).
  set (G1 := map f G : Graph).
  assert (forall a, BTreeMap.get a G1 = Ref.remap_refs id_map <$> BTreeMap.get a G) as Hg1.
  { intros a. unfold G1. clear. induction G as [|[k r] G IH]; simpl; [done|]. by destruct (a =? k). }
  assert (BTreeMap.keys G1 = BTreeMap.keys G) as Hk1.
  { unfold G1, BTreeMap.keys. rewrite map_map. apply map_ext. by intros [? ?]. }
  assert (forall a, a ∈ BTreeMap.keys G <-> is_Some (mutability G a)) as Hkeys.
  { intros a. by rewrite BTreeMap.elem_of_keys, graph_node_get. }
  destruct (remap_get (BTreeMap.keys G) id_map G1) as [Hs2 Hg2].
  { unfold BTreeMap.sorted. rewrite Hk1. apply HG. }
  { intros k. rewrite Hg1, fmap_is_Some. apply BTreeMap.elem_of_keys. }
  { done. }
  set (G2 := BorrowEdges.remap_refs id_map G1) in *.
  assert (forall a r, BTreeMap.get a G = Some r ->
    BTreeMap.sorted (BorrowEdges.remap_refs id_map r.(Ref.borrowed_by)) /\
    (forall x v, BTreeMap.get x (BorrowEdges.remap_refs id_map r.(Ref.borrowed_by)) = Some v <->
      exists b, BTreeMap.get b r.(Ref.borrowed_by) = Some v /\ rename id_map b = x) /\
    BTreeSet.sorted (remap_set id_map r.(Ref.borrows_from)) /\
    (forall x, x ∈ remap_set id_map r.(Ref.borrows_from) <->
      exists b, b ∈ r.(Ref.borrows_from) /\ rename id_map b = x)) as Href.
  { intros a r Hr. destruct (rep_ref _ _ _ HG Hr) as (Hrs & Hrf & _).
    destruct (remap_get (BTreeMap.keys G) id_map r.(Ref.borrowed_by)) as [? ?]; [done| |done|].
    { intros b Hb. apply Hkeys. eapply inn_node, Hoi. unfold out. by rewrite Hr. }
    destruct (remap_set_elem (BTreeMap.keys G) id_map r.(Ref.borrows_from)) as [? ?]; [done| |done|].
    { intros b Hb%(inn_elem G b a r Hr). apply Hkeys. by eapply out_node, Hoi. }
    done. }
  assert (forall x r2, BTreeMap.get x G2 = Some r2 <->
    exists a r, BTreeMap.get a G = Some r /\ r2 = Ref.remap_refs id_map r /\ rename id_map a = x) as Hg.
  { intros x r2. rewrite Hg2. setoid_rewrite Hg1. setoid_rewrite fmap_Some. naive_solver. }
  assert (forall a b, is_Some (mutability G a) -> is_Some (mutability G b) ->
    rename id_map a = rename id_map b -> a = b) as Hinj.
  { intros a b Ha%Hkeys Hb%Hkeys. by eapply rename_inj. }
  assert (forall x y s, out G2 x y = Some s <->
    exists a b, out G a b = Some s /\ rename id_map a = x /\ rename id_map b = y) as Hout.
  { intros x y s. unfold out at 1. destruct (BTreeMap.get x G2) as [r2|] eqn:Hx.
    - apply Hg in Hx as (a & r & Hr & -> & <-). simpl. rewrite (proj1 (proj2 (Href a r Hr))). split.
      + intros (b & Hb & <-). exists a, b. unfold out. by rewrite Hr.
      + intros (a' & b & Ho & Ha & <-). assert (a' = a) as ->.
        { apply Hinj; [by eapply out_node; eexists|rewrite graph_node_get; by eexists|done]. }
        unfold out in Ho. rewrite Hr in Ho. eauto.
    - split; [done|]. intros (a & b & Ho & <- & _). unfold out in Ho.
      destruct (BTreeMap.get a G) as [r|] eqn:Hr; [|done].
      assert (BTreeMap.get (rename id_map a) G2 = Some (Ref.remap_refs id_map r)) by (apply Hg; eauto).
      congruence. }
  assert (forall x y, inn G2 x y <-> exists a b, inn G a b /\ rename id_map a = x /\ rename id_map b = y) as Hinn.
  { intros x y. unfold inn at 1. split.
    - intros (r2 & (b & r & Hr & -> & <-)%Hg & Hx). simpl in Hx.
      apply (proj2 (proj2 (proj2 (Href b r Hr)))) in Hx as (a & Ha & <-). exists a, b.
      split; [by exists r|done].
    - intros (a & b & (r & Hr & Ha) & <- & <-). exists (Ref.remap_refs id_map r).
      split; [apply Hg; eauto|]. simpl. apply (Href b r Hr). eauto. }
  assert (graph_ok G2) as HG2.
  { split; [split|split].
    - done.
    - intros x r2 (a & r & Hr & -> & _)%Hg. destruct (Href a r Hr) as (? & _ & ? & _). done.
    - intros x y s (a & b & Ho & _)%Hout. by eapply HG.
    - intros x y. rewrite Hinn. split.
      + intros [s (a & b & Ho & <- & <-)%Hout]. exists a, b. split; [apply Hoi; by exists s|done].
      + intros (a & b & [s Ho]%Hoi & <- & <-). exists s. apply Hout. eauto.
    - intros x (a & b & Hab & Ha & Hb)%Hinn. assert (a = b) as ->; [|by eapply Hloop].
      apply Hinj; [by eapply out_node, Hoi|by eapply inn_node|congruence]. }
  exists G2. split; [|split; [done|split; [|split]]].
  - unfold BorrowGraph.remap_refs, mbind, ST_bind. rewrite assert_invariant_ok by done.
    fold f. change (map f G) with G1. fold G2. by apply assert_invariant_ok.
  - intros x mu. rewrite mutability_some. setoid_rewrite mutability_some. setoid_rewrite Hg. naive_solver.
  - intros x y Hxy. by apply Hinn.
  - intros a b q (s & Hs & Hq). exists s. split; [|done]. apply Hout. eauto.
Qed.

(** * New references and weak borrows *)

Lemma empty_ok : graph_ok (BorrowGraph.new : Graph).
Proof.
  split; [split|split]; try done; [constructor|..].
  - intros a b. split; [by intros [? ?]|by intros (? & ? & _)].
  - by intros a (? & ? & _).
Qed.

Lemma new_ref_ok id mu G :
  graph_ok G -> mutability G id = None ->
  exists G', BorrowGraph.new_ref id mu G = (Ok ((), G') : result E _) /\ graph_ok G' /\
    (forall a, mutability G' a = if a =? id then Some mu else mutability G a) /\
    (forall a b, inn G' a b <-> inn G a b) /\ (forall a b, out G' a b = out G a b).
Proof.
  intros [HG [Hoi Hloop]] Hnone. set (G' := BTreeMap.insert id (Ref.new mu) G).
  assert (BTreeMap.get id G = None) as Hg.
  { unfold mutability in Hnone. by destruct (BTreeMap.get id G). }
  assert (forall a b, out G' a b = out G a b) as Hout.
  { intros a b. unfold G'. rewrite out_insert. destruct (Z.eqb_spec a id) as [-> |]; [|done].
    unfold out. by rewrite Hg. }
  assert (forall a b, inn G' a b <-> inn G a b) as Hinn.
  { intros a b. unfold G'. rewrite inn_insert. destruct (Z.eqb_spec b id) as [-> |]; [|done].
    unfold inn. rewrite Hg. simpl. rewrite elem_of_nil. naive_solver. }
  exists G'. split; [|split; [|split; [|done]]].
  - unfold BorrowGraph.new_ref, BTreeMap.contains_key. by rewrite Hg.
  - split; [|split; [intros a b; by rewrite Hout, Hinn|intros a; rewrite Hinn; apply Hloop]].
    apply rep_insert; [done|constructor|constructor|done].
  - intros a. unfold G', mutability. rewrite get_update. by destruct (a =? id).
Qed.

Lemma weak_borrow_ok p l path i G :
  graph_ok G -> is_Some (mutability G p) -> is_Some (mutability G i) -> p <> i ->
  exists G', BorrowGraph.add_path p l false path i G = (Ok ((), G') : result E _) /\ graph_ok G' /\
    (forall a, mutability G' a = mutability G a) /\
    (forall a b, inn G' a b -> inn G a b \/ (a = p /\ b = i)) /\
    (forall rho, (forall a b, tracked rho G a b -> tracked rho G' a b) /\
       (rho p ++ path `prefix_of` rho i -> borrows rho G' p i)).
Proof.
  intros [HG [Hoi Hloop]] Hp Hi Hne.
  destruct (add_edge_grows p (BorrowEdge.mk false path l) i G HG) as (G' & HR & [Q N I O K W]).
  { by intros a b [-> ->]. }
  exists G'. split; [done|]. split; [split; [done|split]|split; [done|split]].
  - intros a b. rewrite I, O, Hoi. done.
  - intros a [?%Hloop|[-> ?]]%I; done.
  - intros a b. apply I.
  - intros rho. split.
    + apply rtc_congruence_step. intros a b (q & Hl & Hq). apply rtc_once. exists q. auto.
    + intros [t Ht]. exists (path ++ t). split; [|by rewrite Ht, (assoc_L (++))].
      apply W. split; [done|]. split; [done|]. by exists t.
Qed.

(** A reference that has no edges yet. *)
Lemma new_ref_fresh G i mu :
  graph_ok G -> BTreeMap.get i G = Some (Ref.new mu) -> forall a, ~ inn G a i /\ ~ inn G i a.
Proof.
  intros [_ [Hoi _]] Hi a. split.
  - intros (r & Hr & Ha). rewrite Hi in Hr. injection Hr as <-. by apply elem_of_nil in Ha.
  - intros Hia%Hoi. unfold out in Hia. rewrite Hi in Hia. by destruct Hia.
Qed.
End facts.
