(* ===== verification/BorrowGraphTheorems.v ===== *)
(** What the borrow graph promises: its operations return on graphs that satisfy the
    invariant it asserts, keep the invariant, and keep track of every borrow between the
    references that stay.  [tracked rho G a b] says that the edges of [G] account for
    [b] being derived from [a], at the access paths that [rho] gives to references. *)
From stdpp Require Import relations.
From S2P Require Import Prelude StatusCode Access BTree BorrowGraph BorrowGraphFacts.

#[export] Instance Z_ord : Ord Z := Z.compare.
#[export] Instance Z_lawful : LawfulOrd Z.
Proof. split; [apply Z.compare_refl|apply Z.compare_eq]. Qed.

Section theorems.
Context {Loc Lbl : Set} `{LawfulOrd Lbl} `{EqDecision Lbl}.
Abbreviation Graph := (BorrowGraph.BorrowGraph Loc Lbl).

(** The representation is as the collections keep it, and the asserted invariant holds. *)
Definition valid (G : Graph) : Prop :=
  rep_ok G /\ BorrowGraph.check_invariant G = (Ok true : result StatusCode bool).

Lemma valid_graph_ok G : valid G <-> graph_ok G.
Proof.
  split; intros [HG Hc]; (split; [done|]); [by eapply check_invariant_consistent|by apply check_invariant_ok].
Qed.

Lemma contains_node (G : Graph) a : BorrowGraph.contains_id a G = true <-> is_Some (mutability G a).
Proof. unfold BorrowGraph.contains_id. by rewrite contains_key_some, graph_node_get. Qed.

(** C26: [release] of a reference of a valid graph returns (none of its assertions and
    unwraps fails), leaves a valid graph with the other references, and every borrow
    between two of these that the graph tracked, also through the released reference,
    it still tracks. *)
Theorem borrow_graph_release_sound (G : Graph) (id : RefID) :
  valid G -> BorrowGraph.contains_id id G = true ->
  exists G', BorrowGraph.release id G = (Ok ((), G') : result StatusCode _) /\ valid G' /\
    (forall a, mutability G' a = if a =? id then None else mutability G a) /\
    (forall rho a b, a <> id -> b <> id -> tracked rho G a b -> tracked rho G' a b).
Proof.
  rewrite valid_graph_ok, contains_node. intros HG Hid.
  destruct (release_ok (E := StatusCode) id G HG Hid) as (G' & HR & HG' & Hm & _ & Hrest).
  exists G'. by rewrite valid_graph_ok.
Qed.

(** A strong borrow at [path] from [p] by a reference [i] without edges
    ([add_strong_borrow], [add_strong_field_borrow]) returns and leaves a valid graph
    with the same references.  At access paths where [i] stands for [path] below [p],
    every borrow stays tracked, [i] borrows from [p], and whatever borrowed from [p]
    along an edge that extends [path] now borrows from [i]. *)
Theorem borrow_graph_strong_borrow_sound (G : Graph) (p i : RefID) (loc : Loc) (path : list Lbl) :
  valid G -> BorrowGraph.contains_id p G = true -> BorrowGraph.contains_id i G = true -> p <> i ->
  (forall a, ~ inn G a i /\ ~ inn G i a) ->
  exists G', BorrowGraph.factor p loc path i G = (Ok ((), G') : result StatusCode _) /\ valid G' /\
    (forall a, mutability G' a = mutability G a) /\
    (forall rho, rho i = rho p ++ path ->
       (forall a b, tracked rho G a b -> tracked rho G' a b) /\ borrows rho G' p i /\
       (forall b s e q, out G p b = Some s -> e ∈ s.(BorrowEdgeSet.edges) ->
          path `prefix_of` e.(BorrowEdge.path) -> covers e q -> rho b = rho p ++ q -> borrows rho G' i b)).
Proof.
  rewrite valid_graph_ok, !contains_node. intros HG Hp Hi Hne Hf.
  destruct (factor_ok (E := StatusCode) p loc path i G HG Hp Hi Hne Hf) as (G' & HR & HG' & Hm & _ & Hrest).
  exists G'. by rewrite valid_graph_ok.
Qed.


(** [remap_refs] with a map none of whose entries, taken in order, renames a
    reference to one that is there at that time, returns a valid graph: the given graph
    with its references renamed, none of them lost, and with their edges. *)
Theorem borrow_graph_remap_correct (G : Graph) (id_map : BTreeMap RefID) :
  valid G -> remap_safe (BorrowGraph.all_refs G) id_map = true ->
  (exists G', BorrowGraph.remap_refs id_map G = (Ok ((), G') : result StatusCode _) /\ valid G' /\
    (forall x mu, mutability G' x = Some mu <-> exists a, mutability G a = Some mu /\ rename id_map a = x) /\
    (forall a b q, linked G a b q -> linked G' (rename id_map a) (rename id_map b) q)) /\
  (forall a b, a ∈ BorrowGraph.all_refs G -> b ∈ BorrowGraph.all_refs G ->
    rename id_map a = rename id_map b -> a = b).
Proof.
  rewrite valid_graph_ok. intros HG Hs. split.
  - destruct (remap_ok (E := StatusCode) id_map G HG Hs) as (G' & HR & HG' & Hm & _ & Hrest).
    exists G'. by rewrite valid_graph_ok.
  - intros a b. by apply rename_inj.
Qed.
End theorems.

(** * Instances *)

Abbreviation SampleGraph := (BorrowGraph.BorrowGraph unit Z).

(** The graph that an operation leaves. *)
Definition run (c : ST SampleGraph StatusCode ()) (G : SampleGraph) : SampleGraph :=
  match c G with Ok (_, G') => G' | _ => G end.

Lemma run_ok (c : ST SampleGraph StatusCode ()) G (Q : SampleGraph -> Prop) :
  (exists G', c G = Ok ((), G') /\ graph_ok G' /\ Q G') -> graph_ok (run c G).
Proof. intros (G' & HR & HG & _). unfold run. by rewrite HR. Qed.

(** A mutable reference 0, and references 1 and 2 without edges. *)
Definition apart : SampleGraph :=
  run (BorrowGraph.new_ref 2 false) (run (BorrowGraph.new_ref 1 true) (run (BorrowGraph.new_ref 0 true) [])).
(** 1 borrows the field 7 of 0, and 2 borrows from 1 at some path. *)
Definition chain : SampleGraph :=
  run (BorrowGraph.add_weak_borrow tt 1 2) (run (BorrowGraph.add_strong_field_borrow tt 0 7 1) apart).

Lemma apart_ok : graph_ok apart.
Proof.
  unfold apart. eapply run_ok, new_ref_ok; [|done]. eapply run_ok, new_ref_ok; [|done].
  eapply run_ok, new_ref_ok; [|done]. apply empty_ok.
Qed.

Lemma chain_ok : graph_ok chain.
Proof.
  unfold chain. eapply run_ok, weak_borrow_ok; [|by eexists|by eexists|done].
  eapply run_ok, factor_ok; [apply apart_ok|by eexists|by eexists|done|].
  by apply (new_ref_fresh apart 1 true apart_ok).
Qed.

(** The access paths of a local with fields 7 and 9. *)
Definition sample_paths (a : RefID) : list Z := nth (Z.to_nat a) [[]; [7]; [7; 9]] [].

Lemma borrow_graph_release_sound_witness :
  exists G', BorrowGraph.release 1 chain = (Ok ((), G') : result StatusCode _) /\ valid G' /\
    BorrowGraph.contains_id 1 G' = false /\ tracked sample_paths G' 0 2.
Proof.
  destruct (borrow_graph_release_sound chain 1) as (G' & HR & HG & Hn & Ht).
  - apply valid_graph_ok, chain_ok.
  - reflexivity.
  - exists G'. split; [exact HR|]. split; [exact HG|]. split.
    + apply not_true_is_false. intros [mu Hmu]%contains_node. by rewrite Hn in Hmu.
    + apply Ht; [done|done|]. apply (rtc_l _ _ 1); [|apply rtc_once].
      * exists [7]. split; [|done]. eexists. split; [reflexivity|]. eexists. split; [by left|done].
      * exists [9]. split; [|done]. eexists. split; [reflexivity|]. eexists. split; [by left|].
        apply prefix_nil.
Defined.

Lemma borrow_graph_strong_borrow_sound_witness :
  exists G', BorrowGraph.factor 0 tt [7] 1 apart = (Ok ((), G') : result StatusCode _) /\ valid G' /\
    borrows sample_paths G' 0 1.
Proof.
  destruct (borrow_graph_strong_borrow_sound apart 0 1 tt [7]) as (G' & HR & HG & _ & Ht).
  - apply valid_graph_ok, apart_ok.
  - reflexivity.
  - reflexivity.
  - done.
  - by apply (new_ref_fresh apart 1 true apart_ok).
  - exists G'. split; [exact HR|]. split; [exact HG|]. by apply (Ht sample_paths).
Defined.


Lemma borrow_graph_remap_correct_witness :
  exists G', BorrowGraph.remap_refs [(1, 5); (2, 1)] chain = (Ok ((), G') : result StatusCode _) /\
    valid G' /\ mutability G' 5 = Some true /\ mutability G' 1 = Some false.
Proof.
  destruct (borrow_graph_remap_correct chain [(1, 5); (2, 1)]) as [(G' & HR & HG & Hm & _) _].
  - apply valid_graph_ok, chain_ok.
  - reflexivity.
  - exists G'. split; [exact HR|]. split; [exact HG|]. split; apply Hm; [exists 1|exists 2]; done.
Defined.

(** [remap_refs] does not rename simultaneously: exchanging the ids of two
    references (as the canonical state does when two reference locals were exchanged)
    loses one of them.  No assertion notices, and the next release of the lost
    reference panics. *)
Theorem remap_exchange_loses_reference :
  valid apart /\ BorrowGraph.contains_id 0 apart = true /\ BorrowGraph.contains_id 1 apart = true /\
  exists G', BorrowGraph.remap_refs [(0, 1); (1, 0)] apart = (Ok ((), G') : result StatusCode _) /\
    BorrowGraph.contains_id 1 G' = false /\
    BorrowGraph.release 1 G' = (Panic : result StatusCode (() * SampleGraph)).
Proof.
  split; [apply valid_graph_ok, apart_ok|]. split; [done|]. split; [done|].
  eexists. split; [vm_compute; reflexivity|]. done.
Qed.
