(* ===== verification/ReferenceSafety.v ===== *)
(** Reference safety: move-bytecode-verifier/src/reference_safety/.  The abstract state
    keeps a value for each available local and the borrow graph of the references in
    locals and on the stack; the analysis is an instance of the abstract interpreter.
    The offset carried by an error is not recorded. *)
From S2P Require Import Prelude StatusCode Abilities Identifier FileFormat Access BTree.
From S2P Require Import ControlFlowGraph FunctionView Absint BorrowGraph.

#[global] Instance FunctionHandle_eq_dec : EqDecision FunctionHandle.
Proof. solve_decision. Defined.

Module AbstractValue.
Inductive AbstractValue : Set :=
| Reference (id : RefID)
| NonReference.
#[export] Instance AbstractValue_eq_dec : EqDecision AbstractValue.
Proof. solve_decision. Defined.

Definition is_reference (self : AbstractValue) : bool :=
  match self with Reference _ => true | NonReference => false end.
Definition is_value (self : AbstractValue) : bool := negb (is_reference self).
Definition ref_id (self : AbstractValue) : option RefID :=
  match self with Reference id => Some id | NonReference => None end.
End AbstractValue.
Abbreviation AbstractValue := AbstractValue.AbstractValue.

Module Label.
Inductive Label : Set :=
| Local (i : LocalIndex)
| Global (i : StructDefinitionIndex)
| Field (i : FieldHandleIndex).
#[export] Instance Label_eq_dec : EqDecision Label.
Proof. solve_decision. Defined.

(** [derive(Ord)]: by the variant, then by the index. *)
#[export] Instance Label_ord : Ord Label := fun x y =>
  match x, y with
  | Local i, Local j | Global i, Global j | Field i, Field j => Z.compare i j
  | Local _, _ | Global _, Field _ => Lt
  | _, _ => Gt
  end.
#[export] Instance Label_lawful : LawfulOrd Label.
Proof.
  split; [intros []; apply Z.compare_refl|].
  intros [] []; try done; intros H%Z.compare_eq; by f_equal.
Qed.
End Label.
Abbreviation Label := Label.Label.
Export (hints) Label AbstractValue.

Module ReferenceState.
Record AbstractState : Set := mk {
  current_function : option FunctionDefinitionIndex;
  locals : BTreeMap AbstractValue;
  borrow_graph : BorrowGraph.BorrowGraph unit Label;
  num_locals : Z;
  next_id : Z;
}.
Abbreviation R := (result StatusCode).
Abbreviation Graph := (BorrowGraph.BorrowGraph unit Label).
Abbreviation M := (ST AbstractState StatusCode).

Definition set_locals (l : BTreeMap AbstractValue) (s : AbstractState) : AbstractState :=
  mk s.(current_function) l s.(borrow_graph) s.(num_locals) s.(next_id).
Definition set_graph (g : Graph) (s : AbstractState) : AbstractState :=
  mk s.(current_function) s.(locals) g s.(num_locals) s.(next_id).
Definition set_next_id (n : Z) (s : AbstractState) : AbstractState :=
  mk s.(current_function) s.(locals) s.(borrow_graph) s.(num_locals) n.

(** An operation on, and a question to, [self.borrow_graph]. *)
Definition on_graph (m : ST Graph StatusCode ()) : M () := fun s =>
  '(_, g) ← m s.(borrow_graph); Ok ((), set_graph g s).
Definition ask {A} (f : AbstractState -> R A) : M A := fun s => a ← f s; Ok (a, s).
(** [if b { return Err(status) }] *)
Definition fail_if (b : bool) (status : StatusCode) : M () := if b then st_err status else mret ().

Definition frame_root (s : AbstractState) : RefID := s.(num_locals).

(** [x as LocalIndex], a [u8]. *)
Definition as_local_index (x : Z) : LocalIndex := x mod 256.

Definition is_canonical (s : AbstractState) : bool :=
  (s.(num_locals) + 1 =? s.(next_id)) &&
  forallb (fun '(local, value) =>
    match AbstractValue.ref_id value with
    | Some id => local =? id
    | None => true
    end) s.(locals).

(** The loop of [new] over the parameters. *)
Fixpoint add_params (param_idx : Z) (params : list SignatureToken) : M () :=
  match params with
  | [] => mret ()
  | param_ty :: params =>
    value ←
      (if SignatureToken.is_reference param_ty
       then on_graph (BorrowGraph.new_ref param_idx (SignatureToken.is_mutable_reference param_ty));;
            mret (AbstractValue.Reference param_idx)
       else mret AbstractValue.NonReference);
    (fun s => Ok ((), set_locals (BTreeMap.insert (as_local_index param_idx) value s.(locals)) s));;
    add_params (param_idx + 1) params
  end.

Definition new (function_view : FunctionView) : R AbstractState :=
  let num_locals :=
    zlen function_view.(FunctionView.parameters) + zlen function_view.(FunctionView.locals) in
  let next_id := num_locals + 1 in
  let state := mk function_view.(FunctionView.index) BTreeMap.empty BorrowGraph.new num_locals next_id in
  '(_, state) ← add_params 0 function_view.(FunctionView.parameters) state;
  '(_, state) ← on_graph (BorrowGraph.new_ref (frame_root state) true) state;
  debug_assert (is_canonical state);;
  Ok state.

(** * Core API *)

Definition new_ref (mut_ : bool) : M RefID := fun s =>
  let id := s.(next_id) in
  '(_, s) ← on_graph (BorrowGraph.new_ref id mut_) s;
  Ok (id, set_next_id (s.(next_id) + 1) s).

Definition value_for (s : SignatureToken) : M AbstractValue :=
  match s with
  | SignatureToken.Reference _ => id ← new_ref false; mret (AbstractValue.Reference id)
  | SignatureToken.MutableReference _ => id ← new_ref true; mret (AbstractValue.Reference id)
  | _ => mret AbstractValue.NonReference
  end.

Definition add_copy (parent child : RefID) : M () := on_graph (BorrowGraph.add_strong_borrow tt parent child).
Definition add_borrow (parent child : RefID) : M () := on_graph (BorrowGraph.add_weak_borrow tt parent child).
Definition add_field_borrow (parent : RefID) (field : FieldHandleIndex) (child : RefID) : M () :=
  on_graph (BorrowGraph.add_strong_field_borrow tt parent (Label.Field field) child).
Definition add_local_borrow (local : LocalIndex) (id : RefID) : M () :=
  root ← ask (fun s => Ok (frame_root s));
  on_graph (BorrowGraph.add_strong_field_borrow tt root (Label.Local local) id).
Definition add_resource_borrow (resource : StructDefinitionIndex) (id : RefID) : M () :=
  root ← ask (fun s => Ok (frame_root s));
  on_graph (BorrowGraph.add_weak_field_borrow tt root (Label.Global resource) id).
Definition release (id : RefID) : M () := on_graph (BorrowGraph.release id).

(** * Core predicates *)

Definition is_mutable (id : RefID) (s : AbstractState) : R bool :=
  BorrowGraph.is_mutable id s.(borrow_graph).

(** [borrows.is_empty()] *)
Definition no_borrows (borrows : BTreeMap unit) : bool := match borrows with [] => true | _ => false end.

(** [iter.any(f)] for a predicate that may panic. *)
Fixpoint any_res {A} (f : A -> R bool) (l : list A) : R bool :=
  match l with
  | [] => Ok false
  | x :: l => b ← f x; if (b : bool) then Ok true else any_res f l
  end.

Definition all_immutable (borrows : BTreeMap unit) (s : AbstractState) : R bool :=
  b ← any_res (fun x => is_mutable x s) (BTreeMap.keys borrows);
  Ok (negb b).

Definition has_full_borrows (id : RefID) (s : AbstractState) : R bool :=
  '(full_borrows, _) ← BorrowGraph.borrowed_by id s.(borrow_graph);
  Ok (negb (no_borrows full_borrows)).

Definition has_consistent_borrows (id : RefID) (label_opt : option Label) (s : AbstractState) : R bool :=
  '(full_borrows, field_borrows) ← BorrowGraph.borrowed_by id s.(borrow_graph);
  if negb (no_borrows full_borrows) then Ok true
  else match label_opt with
       | None => Ok (existsb (fun '(_, borrows) => negb (no_borrows borrows)) field_borrows)
       | Some label =>
         match OrdMap.get label field_borrows with
         | Some borrows => Ok (negb (no_borrows borrows))
         | None => Ok false
         end
       end.

Definition has_consistent_mutable_borrows (id : RefID) (label_opt : option Label) (s : AbstractState) :
    R bool :=
  '(full_borrows, field_borrows) ← BorrowGraph.borrowed_by id s.(borrow_graph);
  full_immutable ← all_immutable full_borrows s;
  if negb full_immutable then Ok true
  else match label_opt with
       | None => any_res (fun '(_, borrows) => b ← all_immutable borrows s; Ok (negb b)) field_borrows
       | Some label =>
         match OrdMap.get label field_borrows with
         | Some borrows => b ← all_immutable borrows s; Ok (negb b)
         | None => Ok false
         end
       end.

Definition is_writable (id : RefID) (s : AbstractState) : R bool :=
  b ← is_mutable id s;
  debug_assert (b : bool);;
  borrowed ← has_consistent_borrows id None s;
  Ok (negb borrowed).

Definition is_freezable (id : RefID) (at_field_opt : option FieldHandleIndex) (s : AbstractState) : R bool :=
  b ← is_mutable id s;
  debug_assert (b : bool);;
  borrowed ← has_consistent_mutable_borrows id (option_map Label.Field at_field_opt) s;
  Ok (negb borrowed).

Definition is_readable (id : RefID) (at_field_opt : option FieldHandleIndex) (s : AbstractState) : R bool :=
  is_mutable ← is_mutable id s;
  if negb is_mutable then Ok true else is_freezable id at_field_opt s.

Definition is_local_borrowed (idx : LocalIndex) (s : AbstractState) : R bool :=
  has_consistent_borrows (frame_root s) (Some (Label.Local idx)) s.
Definition is_local_mutably_borrowed (idx : LocalIndex) (s : AbstractState) : R bool :=
  has_consistent_mutable_borrows (frame_root s) (Some (Label.Local idx)) s.
Definition is_global_borrowed (resource : StructDefinitionIndex) (s : AbstractState) : R bool :=
  has_consistent_borrows (frame_root s) (Some (Label.Global resource)) s.
Definition is_global_mutably_borrowed (resource : StructDefinitionIndex) (s : AbstractState) : R bool :=
  has_consistent_mutable_borrows (frame_root s) (Some (Label.Global resource)) s.
Definition is_frame_safe_to_destroy (s : AbstractState) : R bool :=
  b ← has_consistent_borrows (frame_root s) None s;
  Ok (negb b).

(** * Instruction entry points *)

Definition release_value (value : AbstractValue) : M () :=
  match value with
  | AbstractValue.Reference id => release id
  | AbstractValue.NonReference => mret ()
  end.

Definition copy_loc (local : LocalIndex) : M AbstractValue :=
  value ← ask (fun s => unwrap (BTreeMap.get local s.(locals)));
  match value with
  | AbstractValue.Reference id =>
    mut_ ← ask (is_mutable id);
    new_id ← new_ref mut_;
    add_copy id new_id;;
    mret (AbstractValue.Reference new_id)
  | AbstractValue.NonReference =>
    borrowed ← ask (is_local_mutably_borrowed local);
    fail_if borrowed COPYLOC_EXISTS_BORROW_ERROR;;
    mret AbstractValue.NonReference
  end.

Definition move_loc (local : LocalIndex) : M AbstractValue :=
  value ← ask (fun s => unwrap (BTreeMap.get local s.(locals)));
  (fun s => Ok ((), set_locals (BTreeMap.remove local s.(locals)) s));;
  match value with
  | AbstractValue.Reference id => mret (AbstractValue.Reference id)
  | AbstractValue.NonReference =>
    borrowed ← ask (is_local_borrowed local);
    fail_if borrowed MOVELOC_EXISTS_BORROW_ERROR;;
    mret AbstractValue.NonReference
  end.

Definition st_loc (local : LocalIndex) (new_value : AbstractValue) : M () :=
  old_value ← ask (fun s => Ok (BTreeMap.get local s.(locals)));
  (fun s => Ok ((), set_locals (BTreeMap.insert local new_value s.(locals)) s));;
  match old_value with
  | None => mret ()
  | Some (AbstractValue.Reference id) => release id
  | Some AbstractValue.NonReference =>
    borrowed ← ask (is_local_borrowed local);
    fail_if borrowed STLOC_UNSAFE_TO_DESTROY_ERROR
  end.

Definition freeze_ref (id : RefID) : M AbstractValue :=
  freezable ← ask (is_freezable id None);
  fail_if (negb freezable) FREEZEREF_EXISTS_MUTABLE_BORROW_ERROR;;
  frozen_id ← new_ref false;
  add_copy id frozen_id;;
  release id;;
  mret (AbstractValue.Reference frozen_id).

Definition comparison (v1 v2 : AbstractValue) : M AbstractValue :=
  match v1, v2 with
  | AbstractValue.Reference id1, AbstractValue.Reference id2 =>
    unreadable ← ask (fun s =>
      r1 ← is_readable id1 None s;
      if negb r1 then Ok true else r2 ← is_readable id2 None s; Ok (negb r2));
    fail_if unreadable READREF_EXISTS_MUTABLE_BORROW_ERROR;;
    release id1;;
    release id2
  | _, _ =>
    st_lift (debug_assert (AbstractValue.is_value v1));;
    st_lift (debug_assert (AbstractValue.is_value v2))
  end;;
  mret AbstractValue.NonReference.

Definition read_ref (id : RefID) : M AbstractValue :=
  readable ← ask (is_readable id None);
  fail_if (negb readable) READREF_EXISTS_MUTABLE_BORROW_ERROR;;
  release id;;
  mret AbstractValue.NonReference.

Definition write_ref (id : RefID) : M () :=
  writable ← ask (is_writable id);
  fail_if (negb writable) WRITEREF_EXISTS_BORROW_ERROR;;
  release id.

Definition borrow_loc (mut_ : bool) (local : LocalIndex) : M AbstractValue :=
  borrowed ← ask (fun s => if mut_ then Ok false else is_local_mutably_borrowed local s);
  fail_if borrowed BORROWLOC_EXISTS_BORROW_ERROR;;
  new_id ← new_ref mut_;
  add_local_borrow local new_id;;
  mret (AbstractValue.Reference new_id).

Definition borrow_field (mut_ : bool) (id : RefID) (field : FieldHandleIndex) : M AbstractValue :=
  bad ← ask (fun s =>
    if mut_ then has_full_borrows id s
    else readable ← is_readable id (Some field) s; Ok (negb readable));
  fail_if bad BORROWFIELD_EXISTS_MUTABLE_BORROW_ERROR;;
  field_borrow_id ← new_ref mut_;
  add_field_borrow id field field_borrow_id;;
  release id;;
  mret (AbstractValue.Reference field_borrow_id).

Definition borrow_global (mut_ : bool) (resource : StructDefinitionIndex) : M AbstractValue :=
  bad ← ask (fun s =>
    b ← (if mut_ then is_global_borrowed resource s else Ok false);
    if (b : bool) then Ok true else is_global_mutably_borrowed resource s);
  fail_if bad GLOBAL_REFERENCE_ERROR;;
  new_id ← new_ref mut_;
  add_resource_borrow resource new_id;;
  mret (AbstractValue.Reference new_id).

Definition move_from (resource : StructDefinitionIndex) : M AbstractValue :=
  borrowed ← ask (is_global_borrowed resource);
  fail_if borrowed GLOBAL_REFERENCE_ERROR;;
  mret AbstractValue.NonReference.

Definition vector_op (vector : AbstractValue) (mut_ : bool) : M () :=
  id ← st_lift (unwrap (AbstractValue.ref_id vector));
  bad ← ask (fun s => if mut_ then w ← is_writable id s; Ok (negb w) else Ok false);
  fail_if bad VEC_UPDATE_EXISTS_MUTABLE_BORROW_ERROR;;
  release id.

Definition vector_element_borrow (vector : AbstractValue) (mut_ : bool) : M AbstractValue :=
  vec_id ← st_lift (unwrap (AbstractValue.ref_id vector));
  bad ← ask (fun s => if mut_ then w ← is_writable vec_id s; Ok (negb w) else Ok false);
  fail_if bad VEC_BORROW_ELEMENT_EXISTS_MUTABLE_BORROW_ERROR;;
  elem_id ← new_ref mut_;
  add_borrow vec_id elem_id;;
  release vec_id;;
  mret (AbstractValue.Reference elem_id).

(** The loop of [call] over the references among the arguments: all of them, and the
    mutable ones. *)
Fixpoint check_arguments (ids : list RefID) (all_refs mutable_refs : BTreeSet) : M (BTreeSet * BTreeSet) :=
  match ids with
  | [] => mret (all_refs, mutable_refs)
  | id :: ids =>
    mutable ← ask (is_mutable id);
    (if (mutable : bool)
     then writable ← ask (is_writable id);
          fail_if (negb writable) CALL_BORROWED_MUTABLE_REFERENCE_ERROR
     else mret ());;
    check_arguments ids (BTreeSet.insert id all_refs)
      (if (mutable : bool) then BTreeSet.insert id mutable_refs else mutable_refs)
  end.

(** The closure that makes the value of a returned type. *)
Definition return_value (all_refs mutable_refs : BTreeSet) (return_type : SignatureToken) : M AbstractValue :=
  match return_type with
  | SignatureToken.MutableReference _ =>
    id ← new_ref true;
    st_for mutable_refs (fun parent => add_borrow parent id);;
    mret (AbstractValue.Reference id)
  | SignatureToken.Reference _ =>
    id ← new_ref false;
    st_for all_refs (fun parent => add_borrow parent id);;
    mret (AbstractValue.Reference id)
  | _ => mret AbstractValue.NonReference
  end.

(** [iter.map(f).collect()] for a closure that changes the state. *)
Fixpoint st_map {A B} (f : A -> M B) (l : list A) : M (list B) :=
  match l with
  | [] => mret []
  | x :: l => y ← f x; ys ← st_map f l; mret (y :: ys)
  end.

Definition call (arguments : list AbstractValue) (acquired_resources : BTreeSet) (return_ : Signature) :
    M (list AbstractValue) :=
  st_for acquired_resources (fun acquired_resource =>
    borrowed ← ask (is_global_borrowed acquired_resource);
    fail_if borrowed GLOBAL_REFERENCE_ERROR);;
  '(all_refs, mutable_refs) ←
    check_arguments (omap AbstractValue.ref_id arguments) BTreeSet.empty BTreeSet.empty;
  return_values ← st_map (return_value all_refs mutable_refs) return_;
  st_for all_refs release;;
  mret return_values.

(** The references in the locals. *)
Definition local_refs (s : AbstractState) : BTreeSet :=
  BTreeSet.collect (omap (fun '(_, value) => AbstractValue.ref_id value) s.(locals)).

Definition ret (values : list AbstractValue) : M () :=
  released ← ask (fun s => Ok (local_refs s));
  st_for released release;;
  safe ← ask is_frame_safe_to_destroy;
  fail_if (negb safe) UNSAFE_RET_LOCAL_OR_RESOURCE_STILL_BORROWED;;
  st_for (omap AbstractValue.ref_id values) (fun id =>
    bad ← ask (fun s =>
      mutable ← is_mutable id s;
      if (mutable : bool) then w ← is_writable id s; Ok (negb w) else Ok false);
    fail_if bad RET_BORROWED_MUTABLE_REFERENCE_ERROR).

(** * Abstract interpreter entry points *)

Definition canonical_value (local : LocalIndex) (value : AbstractValue) : AbstractValue :=
  match value with
  | AbstractValue.Reference _ => AbstractValue.Reference local
  | AbstractValue.NonReference => AbstractValue.NonReference
  end.

(** The new ids of the references: the frame root keeps its id, the reference in a local
    gets the number of the local. *)
Definition canonical_ids (s : AbstractState) : BTreeMap RefID :=
  foldl (fun id_map '(local, value) =>
    match AbstractValue.ref_id value with
    | Some old_id => BTreeMap.insert old_id local id_map
    | None => id_map
    end) (BTreeMap.insert (frame_root s) (frame_root s) BTreeMap.empty) s.(locals).

Definition construct_canonical_state (s : AbstractState) : R AbstractState :=
  let locals := map (fun '(local, value) => (local, canonical_value local value)) s.(locals) in
  '(_, borrow_graph) ← BorrowGraph.remap_refs (canonical_ids s) s.(borrow_graph);
  let canonical_state :=
    mk s.(current_function) locals borrow_graph s.(num_locals) (s.(num_locals) + 1) in
  debug_assert (is_canonical canonical_state);;
  Ok canonical_state.

Definition iter_locals (s : AbstractState) : list LocalIndex := seqZ 0 (as_local_index s.(num_locals)).

(** The loop of [join_] over the locals: the two graphs and the locals of the result. *)
Fixpoint join_locals (self_locals other_locals : BTreeMap AbstractValue) (idxs : list LocalIndex)
    (self_graph other_graph : Graph) (locals : BTreeMap AbstractValue) :
    R (Graph * Graph * BTreeMap AbstractValue) :=
  match idxs with
  | [] => Ok (self_graph, other_graph, locals)
  | local :: idxs =>
    match BTreeMap.get local self_locals, BTreeMap.get local other_locals with
    | None, None => join_locals self_locals other_locals idxs self_graph other_graph locals
    | Some v, None =>
      match v with
      | AbstractValue.Reference id =>
        '(_, self_graph) ← BorrowGraph.release id self_graph;
        join_locals self_locals other_locals idxs self_graph other_graph locals
      | AbstractValue.NonReference => join_locals self_locals other_locals idxs self_graph other_graph locals
      end
    | None, Some v =>
      match v with
      | AbstractValue.Reference id =>
        '(_, other_graph) ← BorrowGraph.release id other_graph;
        join_locals self_locals other_locals idxs self_graph other_graph locals
      | AbstractValue.NonReference => join_locals self_locals other_locals idxs self_graph other_graph locals
      end
    | Some v1, Some v2 =>
      debug_assert (bool_decide (v1 = v2));;
      debug_assert (negb (BTreeMap.contains_key local locals));;
      join_locals self_locals other_locals idxs self_graph other_graph (BTreeMap.insert local v1 locals)
    end
  end.

Definition join_ (self other : AbstractState) : R AbstractState :=
  debug_assert (bool_decide (self.(current_function) = other.(current_function)));;
  debug_assert (is_canonical self && is_canonical other);;
  debug_assert (self.(next_id) =? other.(next_id));;
  debug_assert (self.(num_locals) =? other.(num_locals));;
  '(self_graph, other_graph, locals) ←
    join_locals self.(locals) other.(locals) (iter_locals self) self.(borrow_graph) other.(borrow_graph)
      BTreeMap.empty;
  borrow_graph ← BorrowGraph.join self_graph other_graph;
  Ok (mk self.(current_function) locals borrow_graph self.(num_locals) self.(next_id)).

Definition join (self state : AbstractState) : R (AbstractState * JoinResult) :=
  joined ← join_ self state;
  debug_assert (is_canonical joined);;
  debug_assert (self.(num_locals) =? joined.(num_locals));;
  let locals_unchanged :=
    forallb (fun idx => bool_decide (BTreeMap.get idx self.(locals) = BTreeMap.get idx joined.(locals)))
      (iter_locals self) in
  borrow_graph_unchanged ← BorrowGraph.leq self.(borrow_graph) joined.(borrow_graph);
  Ok (if locals_unchanged && borrow_graph_unchanged then (self, Unchanged) else (joined, Changed)).
End ReferenceState.
Abbreviation ReferenceState := ReferenceState.AbstractState.

#[export] Instance reference_domain : AbstractDomain ReferenceState := {| join := ReferenceState.join |}.

(** * The analysis *)

Module ReferenceSafety.
Abbreviation R := (result StatusCode).

(** The stack of the analysis and the abstract state.  An error drops the state but not
    the stack, which belongs to the analysis and is used again for the next block. *)
Definition AM (A : Type) : Type :=
  list AbstractValue * ReferenceState -> R (list AbstractValue * (StatusCode + A * ReferenceState)).

#[export] Instance AM_ret : MRet AM := fun A a '(stack, state) => Ok (stack, inr (a, state)).
#[export] Instance AM_bind : MBind AM := fun A B f m s =>
  '(stack, r) ← m s;
  match r with
  | inl e => Ok (stack, inl e)
  | inr (a, state) => f a (stack, state)
  end.

Definition on_state {A} (m : ReferenceState.M A) : AM A := fun '(stack, state) =>
  match m state with
  | Ok (a, state) => Ok (stack, inr (a, state))
  | Err e => Ok (stack, inl e)
  | Panic => Panic
  | OutOfFuel => OutOfFuel
  end.
Definition lift {A} (r : R A) : AM A := on_state (st_lift r).
Definition pop : AM AbstractValue := fun '(stack, state) =>
  match stack with
  | value :: stack => Ok (stack, inr (value, state))
  | [] => Panic
  end.
Definition push (value : AbstractValue) : AM () := fun '(stack, state) => Ok (value :: stack, inr ((), state)).

(** [assert!(verifier.stack.pop().unwrap().is_value())] *)
Definition pop_value : AM () := v ← pop; lift (debug_assert (AbstractValue.is_value v)).
(** [verifier.stack.pop().unwrap().ref_id().unwrap()] *)
Definition pop_ref : AM RefID := v ← pop; lift (unwrap (AbstractValue.ref_id v)).

Fixpoint repeat_am {A} (n : nat) (m : AM A) : AM (list A) :=
  match n with
  | O => mret []
  | S n => x ← m; xs ← repeat_am n m; mret (x :: xs)
  end.

(** [for _ in 0..num { .. }] for a count of 64 bits: popping stops at the empty stack. *)
Fixpoint pop_values (fuel : nat) (num : Z) : AM () :=
  if num <=? 0 then mret ()
  else match fuel with
       | O => fun _ => OutOfFuel
       | S fuel => pop_value;; pop_values fuel (num - 1)
       end.

Definition pop_num (num : Z) : AM () := fun s => pop_values (S (length s.1)) num s.

(** [for value in values { verifier.stack.push(value) }] *)
Definition push_all (values : list AbstractValue) : AM () := fun '(stack, state) =>
  Ok (rev values ++ stack, inr ((), state)).

Section analysis.
Context (resolver : BinaryIndexedView) (function_view : FunctionView) (name_def_map : BTreeMap FunctionDefinitionIndex).

Definition acquired_resources (function_handle : FunctionHandle) : R BTreeSet :=
  match BTreeMap.get function_handle.(FunctionHandle.name) name_def_map with
  | Some idx =>
    func_def ← BinaryIndexedView.function_def_at resolver idx;
    fh ← BinaryIndexedView.function_handle_at resolver func_def.(FunctionDefinition.function);
    Ok (if bool_decide (function_handle = fh)
        then BTreeSet.collect func_def.(FunctionDefinition.acquires_global_resources)
        else BTreeSet.empty)
  | None => Ok BTreeSet.empty
  end.

(** The arguments are popped while the reversed iterator over the parameters is collected:
    the top of the stack comes first. *)
Definition call (function_handle : FunctionHandle) : AM () :=
  parameters ← lift (BinaryIndexedView.signature_at resolver function_handle.(FunctionHandle.parameters));
  arguments ← repeat_am (length parameters) pop;
  acquired_resources ← lift (acquired_resources function_handle);
  return_ ← lift (BinaryIndexedView.signature_at resolver function_handle.(FunctionHandle.return_));
  values ← on_state (ReferenceState.call arguments acquired_resources return_);
  push_all values.

Definition num_fields (struct_def : StructDefinition) : nat :=
  match struct_def.(StructDefinition.field_information) with
  | Native => 0
  | Declared fields => length fields
  end.

Definition pack (struct_def : StructDefinition) : AM () :=
  repeat_am (num_fields struct_def) pop_value;;
  push AbstractValue.NonReference.

Definition unpack (struct_def : StructDefinition) : AM () :=
  pop_value;;
  repeat_am (num_fields struct_def) (push AbstractValue.NonReference);;
  mret ().

Definition vec_element_type (idx : SignatureIndex) : R SignatureToken :=
  sig ← BinaryIndexedView.signature_at resolver idx;
  ok_or (head sig) VERIFIER_INVARIANT_VIOLATION.

(** [verifier.stack.push(state.f(..)?)] *)
Definition push_result (m : ReferenceState.M AbstractValue) : AM () := v ← on_state m; push v.

Definition struct_inst (idx : StructDefInstantiationIndex) : R StructDefInstantiation :=
  BinaryIndexedView.struct_instantiation_at resolver idx.
Definition struct_def_of_inst (idx : StructDefInstantiationIndex) : R StructDefinition :=
  struct_inst ← struct_inst idx;
  BinaryIndexedView.struct_def_at resolver struct_inst.(StructDefInstantiation.def).

Definition borrow_field_generic (mut_ : bool) (field_inst_index : FieldInstantiationIndex) : AM () :=
  field_inst ← lift (BinaryIndexedView.field_instantiation_at resolver field_inst_index);
  id ← pop_ref;
  push_result (ReferenceState.borrow_field mut_ id field_inst.(FieldInstantiation.handle)).
Definition borrow_global_generic (mut_ : bool) (idx : StructDefInstantiationIndex) : AM () :=
  pop_value;;
  struct_inst ← lift (struct_inst idx);
  push_result (ReferenceState.borrow_global mut_ struct_inst.(StructDefInstantiation.def)).

Definition execute_inner (bytecode : Bytecode) : AM () :=
  match bytecode with
  | Bytecode.Pop => v ← pop; on_state (ReferenceState.release_value v)
  | Bytecode.CopyLoc local => push_result (ReferenceState.copy_loc local)
  | Bytecode.MoveLoc local => push_result (ReferenceState.move_loc local)
  | Bytecode.StLoc local => v ← pop; on_state (ReferenceState.st_loc local v)
  | Bytecode.FreezeRef => id ← pop_ref; push_result (ReferenceState.freeze_ref id)
  | Bytecode.Eq | Bytecode.Neq => v1 ← pop; v2 ← pop; push_result (ReferenceState.comparison v1 v2)
  | Bytecode.ReadRef => id ← pop_ref; push_result (ReferenceState.read_ref id)
  | Bytecode.WriteRef => id ← pop_ref; pop_value;; on_state (ReferenceState.write_ref id)
  | Bytecode.MutBorrowLoc local => push_result (ReferenceState.borrow_loc true local)
  | Bytecode.ImmBorrowLoc local => push_result (ReferenceState.borrow_loc false local)
  | Bytecode.MutBorrowField idx => id ← pop_ref; push_result (ReferenceState.borrow_field true id idx)
  | Bytecode.MutBorrowFieldGeneric idx => borrow_field_generic true idx
  | Bytecode.ImmBorrowField idx => id ← pop_ref; push_result (ReferenceState.borrow_field false id idx)
  | Bytecode.ImmBorrowFieldGeneric idx => borrow_field_generic false idx
  | Bytecode.MutBorrowGlobal idx => pop_value;; push_result (ReferenceState.borrow_global true idx)
  | Bytecode.MutBorrowGlobalGeneric idx => borrow_global_generic true idx
  | Bytecode.ImmBorrowGlobal idx => pop_value;; push_result (ReferenceState.borrow_global false idx)
  | Bytecode.ImmBorrowGlobalGeneric idx => borrow_global_generic false idx
  | Bytecode.MoveFrom idx => pop_value;; push_result (ReferenceState.move_from idx)
  | Bytecode.MoveFromGeneric idx =>
    pop_value;;
    struct_inst ← lift (struct_inst idx);
    push_result (ReferenceState.move_from struct_inst.(StructDefInstantiation.def))
  | Bytecode.Call idx => handle ← lift (BinaryIndexedView.function_handle_at resolver idx); call handle
  | Bytecode.CallGeneric idx =>
    func_inst ← lift (BinaryIndexedView.function_instantiation_at resolver idx);
    handle ← lift (BinaryIndexedView.function_handle_at resolver func_inst.(FunctionInstantiation.handle));
    call handle
  | Bytecode.Ret =>
    return_values ← repeat_am (length function_view.(FunctionView.return_)) pop;
    on_state (ReferenceState.ret (rev return_values))
  | Bytecode.Branch _ | Bytecode.Nop | Bytecode.CastU8 | Bytecode.CastU64 | Bytecode.CastU128
  | Bytecode.Not | Bytecode.Exists _ | Bytecode.ExistsGeneric _ => mret ()
  | Bytecode.BrTrue _ | Bytecode.BrFalse _ | Bytecode.Abort => pop_value
  | Bytecode.MoveTo _ | Bytecode.MoveToGeneric _ =>
    pop_value;; v ← pop; on_state (ReferenceState.release_value v)
  | Bytecode.LdTrue | Bytecode.LdFalse => push_result (ReferenceState.value_for SignatureToken.Bool)
  | Bytecode.LdU8 _ => push_result (ReferenceState.value_for SignatureToken.U8)
  | Bytecode.LdU64 _ => push_result (ReferenceState.value_for SignatureToken.U64)
  | Bytecode.LdU128 _ => push_result (ReferenceState.value_for SignatureToken.U128)
  | Bytecode.LdConst idx =>
    constant ← lift (BinaryIndexedView.constant_at resolver idx);
    push_result (ReferenceState.value_for constant.(Constant.type_))
  | Bytecode.Add | Bytecode.Sub | Bytecode.Mul | Bytecode.Mod | Bytecode.Div | Bytecode.BitOr
  | Bytecode.BitAnd | Bytecode.Xor | Bytecode.Shl | Bytecode.Shr | Bytecode.Or | Bytecode.And
  | Bytecode.Lt | Bytecode.Gt | Bytecode.Le | Bytecode.Ge =>
    pop_value;; pop_value;; push AbstractValue.NonReference
  | Bytecode.Pack idx => d ← lift (BinaryIndexedView.struct_def_at resolver idx); pack d
  | Bytecode.PackGeneric idx => d ← lift (struct_def_of_inst idx); pack d
  | Bytecode.Unpack idx => d ← lift (BinaryIndexedView.struct_def_at resolver idx); unpack d
  | Bytecode.UnpackGeneric idx => d ← lift (struct_def_of_inst idx); unpack d
  | Bytecode.VecPack idx num =>
    pop_num num;;
    element_type ← lift (vec_element_type idx);
    push_result (ReferenceState.value_for (SignatureToken.Vector element_type))
  | Bytecode.VecLen _ =>
    vec_ref ← pop;
    on_state (ReferenceState.vector_op vec_ref false);;
    push_result (ReferenceState.value_for SignatureToken.U64)
  | Bytecode.VecImmBorrow _ =>
    pop_value;; vec_ref ← pop; push_result (ReferenceState.vector_element_borrow vec_ref false)
  | Bytecode.VecMutBorrow _ =>
    pop_value;; vec_ref ← pop; push_result (ReferenceState.vector_element_borrow vec_ref true)
  | Bytecode.VecPushBack _ => pop_value;; vec_ref ← pop; on_state (ReferenceState.vector_op vec_ref true)
  | Bytecode.VecPopBack idx =>
    vec_ref ← pop;
    on_state (ReferenceState.vector_op vec_ref true);;
    element_type ← lift (vec_element_type idx);
    push_result (ReferenceState.value_for element_type)
  | Bytecode.VecUnpack idx num =>
    pop_value;;
    element_type ← lift (vec_element_type idx);
    repeat_am (Z.to_nat num) (push_result (ReferenceState.value_for element_type));;
    mret ()
  | Bytecode.VecSwap _ =>
    pop_value;; pop_value;; vec_ref ← pop; on_state (ReferenceState.vector_op vec_ref true)
  end.

Definition execute (stack : list AbstractValue) (state : ReferenceState) (bytecode : Bytecode)
    (index last_index : CodeOffset) : R (list AbstractValue * (StatusCode + ReferenceState)) :=
  '(stack, r) ← execute_inner bytecode (stack, state);
  match r with
  | inl e => Ok (stack, inl e)
  | inr (_, state) =>
    if index =? last_index
    then debug_assert (match stack with [] => true | _ => false end);;
         state ← ReferenceState.construct_canonical_state state;
         Ok (stack, inr state)
    else Ok (stack, inr state)
  end.

Definition ReferenceSafetyAnalysis : TransferFunctions (list AbstractValue) ReferenceState StatusCode :=
  {| Absint.execute := execute |}.

Fixpoint report (inv_map : InvariantMap ReferenceState StatusCode) : R () :=
  match inv_map with
  | [] => Ok ()
  | (_, inv) :: inv_map =>
    match inv.(BlockInvariant.post) with
    | Error err => Err err
    | Unprocessed | Success => report inv_map
    end
  end.

(** A change of the precondition of a block makes a local unavailable or adds an edge
    between two of the references of locals and the frame root; a pair has at most
    [MAX_EDGE_SET_SIZE + 1] edge sets, one larger than the other. *)
Definition height (num_locals : nat) : nat :=
  let n := S num_locals in n * S (n * n * S MAX_EDGE_SET_SIZE).

Definition verify : R () :=
  initial_state ← ReferenceState.new function_view;
  '(_, inv_map) ← AbstractInterpreter.analyze_function
    (TransferFunctions0 := ReferenceSafetyAnalysis) function_view
    (height (Z.to_nat initial_state.(ReferenceState.num_locals))) [] initial_state;
  report inv_map.
End analysis.
End ReferenceSafety.
