(* ===== verification/Verifier.v ===== *)
(** The drivers: move-bytecode-verifier/src/verifier.rs, code_unit_verifier.rs and
    script_signature.rs.  The functions of other packages that the passes call are
    parameters: the decoding of constants (bcs), the topological sort and the strongly
    connected components (petgraph). *)
From S2P Require Import Prelude StatusCode Abilities Identifier FileFormat BinaryCommon Access BTree.
From S2P Require Import BoundsChecker ControlFlow ControlFlowGraph FunctionView.
From S2P Require Import StackUsage LocalsSafety SignatureChecker InstructionConsistency Constants TypeSafety.
From S2P Require Import DuplicationChecker StructDefs InstantiationLoops FieldAbilities Acquires Friends.
From S2P Require Import ReferenceSafety.

(** * Signatures of entry points *)

Module ScriptSignature.
Abbreviation R := (result StatusCode).
(** [idx as TableIndex] *)
Definition as_table_index (idx : Z) : TableIndex := idx mod 65536.

Definition FnCheckScriptSignature : Set :=
  BinaryIndexedView -> Visibility -> SignatureIndex -> option SignatureIndex -> R ().

Definition no_additional_script_signature_checks : FnCheckScriptSignature := fun _ _ _ _ => Ok ().

(** [iter.skip_while(p)] *)
Fixpoint skip_while {A} (p : A -> bool) (l : list A) : list A :=
  match l with
  | [] => []
  | x :: l' => if p x then skip_while p l' else l
  end.

Definition is_signer (typ : SignatureToken) : bool :=
  match typ with SignatureToken.Signer => true | _ => false end.
Definition is_signer_reference (typ : SignatureToken) : bool :=
  match typ with SignatureToken.Reference inner => is_signer inner | _ => false end.

Definition legacy_script_signature_checks : FnCheckScriptSignature :=
  fun resolver _ parameters_idx return_idx =>
  parameters ← BinaryIndexedView.signature_at resolver parameters_idx;
  return_types ← match return_idx with
                 | Some idx => BinaryIndexedView.signature_at resolver idx
                 | None => Ok []
                 end;
  let all_args_have_valid_type :=
    forallb SignatureToken.is_valid_for_constant
      (skip_while (if BinaryIndexedView.version resolver <=? VERSION_1 then is_signer_reference
                   else is_signer) parameters) in
  let has_valid_return_type := match return_types with [] => true | _ => false end in
  if negb all_args_have_valid_type || negb has_valid_return_type
  then Err INVALID_MAIN_FUNCTION_SIGNATURE
  else Ok ().

Section check.
Context (check_signature : FnCheckScriptSignature).

Definition verify_main_signature_impl (resolver : BinaryIndexedView) (visibility : Visibility)
    (parameters_idx : SignatureIndex) (return_idx : option SignatureIndex) : R () :=
  let deprecated_logic :=
    (BinaryIndexedView.version resolver <? VERSION_5) &&
    match visibility with Visibility.Script => true | _ => false end in
  (if deprecated_logic
   then legacy_script_signature_checks resolver visibility parameters_idx return_idx
   else Ok ());;
  check_signature resolver visibility parameters_idx return_idx.

Definition verify_script (script : CompiledScript) : R () :=
  if VERSION_5 <=? script.(CompiledScript.version) then Ok ()
  else verify_main_signature_impl (BinaryIndexedView.Script_ script) Visibility.Script
         script.(CompiledScript.parameters) None.

Definition verify_module_function_signature (module : CompiledModule) (idx : FunctionDefinitionIndex) : R () :=
  fdef ← ModuleAccess.function_def_at module idx;
  fhandle ← ModuleAccess.function_handle_at module fdef.(FunctionDefinition.function);
  verify_main_signature_impl (BinaryIndexedView.Module_ module) fdef.(FunctionDefinition.visibility)
    fhandle.(FunctionHandle.parameters) (Some fhandle.(FunctionHandle.return_)).

(** The loop over the definitions that are visible to scripts. *)
Fixpoint verify_script_functions (module : CompiledModule) (idx : Z)
    (defs : list FunctionDefinition) : R () :=
  match defs with
  | [] => Ok ()
  | fdef :: defs =>
    match fdef.(FunctionDefinition.visibility) with
    | Visibility.Script => verify_module_function_signature module (as_table_index idx)
    | _ => Ok ()
    end;;
    verify_script_functions module (idx + 1) defs
  end.

(** [iter().enumerate().find(..)]: the index of the first definition with a name. *)
Fixpoint find_function_def (module : CompiledModule) (name : Identifier) (idx : Z)
    (defs : list FunctionDefinition) : R (option FunctionDefinitionIndex) :=
  match defs with
  | [] => Ok None
  | fdef :: defs =>
    fhandle ← ModuleAccess.function_handle_at module fdef.(FunctionDefinition.function);
    fname ← ModuleAccess.identifier_at module fhandle.(FunctionHandle.name);
    if bool_decide (fname = name) then Ok (Some (as_table_index idx)) else find_function_def module name (idx + 1) defs
  end.

Definition verify_module_function_signature_by_name (module : CompiledModule) (name : Identifier) : R () :=
  fdef_opt ← find_function_def module name 0 module.(CompiledModule.function_defs);
  idx ← ok_or fdef_opt VERIFICATION_ERROR;
  verify_module_function_signature module idx.

Definition verify_module (module : CompiledModule) : R () :=
  if module.(CompiledModule.version) <? VERSION_5 then Ok ()
  else verify_script_functions module 0 module.(CompiledModule.function_defs).
End check.
End ScriptSignature.

(** * Function bodies *)

Module CodeUnitVerifier.
Abbreviation R := (result StatusCode).

Definition verify_common (resolver : BinaryIndexedView) (function_view : FunctionView)
    (name_def_map : BTreeMap FunctionDefinitionIndex) : R () :=
  StackUsageVerifier.verify resolver function_view;;
  TypeSafety.verify resolver function_view;;
  LocalsSafety.verify resolver function_view;;
  ReferenceSafety.verify resolver function_view name_def_map.

(** The definitions by the names of their handles; the last definition of a name counts. *)
Fixpoint name_defs (module : CompiledModule) (idx : Z) (defs : list FunctionDefinition)
    (name_def_map : BTreeMap FunctionDefinitionIndex) : R (BTreeMap FunctionDefinitionIndex) :=
  match defs with
  | [] => Ok name_def_map
  | func_def :: defs =>
    fh ← ModuleAccess.function_handle_at module func_def.(FunctionDefinition.function);
    name_defs module (idx + 1) defs (BTreeMap.insert fh.(FunctionHandle.name) (ScriptSignature.as_table_index idx) name_def_map)
  end.

Definition verify_function (module : CompiledModule) (index : FunctionDefinitionIndex)
    (function_definition : FunctionDefinition) : R () :=
  match function_definition.(FunctionDefinition.code) with
  | None => Ok ()
  | Some code =>
    function_handle ← ModuleAccess.function_handle_at module function_definition.(FunctionDefinition.function);
    ControlFlow.verify (Some index) code;;
    function_view ← FunctionView.function module index code function_handle;
    name_def_map ← name_defs module 0 module.(CompiledModule.function_defs) BTreeMap.empty;
    verify_common (BinaryIndexedView.Module_ module) function_view name_def_map;;
    AcquiresVerifier.verify module function_definition
  end.

Fixpoint verify_functions (module : CompiledModule) (index : Z)
    (defs : list FunctionDefinition) : R () :=
  match defs with
  | [] => Ok ()
  | function_definition :: defs =>
    verify_function module (ScriptSignature.as_table_index index) function_definition;;
    verify_functions module (index + 1) defs
  end.

Definition verify_module_impl (module : CompiledModule) : R () :=
  verify_functions module 0 module.(CompiledModule.function_defs).

Definition verify_script_impl (script : CompiledScript) : R () :=
  ControlFlow.verify None script.(CompiledScript.code);;
  function_view ← FunctionView.script script;
  verify_common (BinaryIndexedView.Script_ script) function_view BTreeMap.empty.
End CodeUnitVerifier.

(** * The passes in their order *)

Module Verifier.
Section verifier.
Context (from_bytes_seed : MoveTypeLayout -> list Z -> option MoveValue).
Context (toposort : list (Z * Z) -> Z + list Z).
Context (tarjan_scc : InstantiationLoopChecker.Graph -> list (list nat)).

Definition verify_module (module : CompiledModule) : result StatusCode () :=
  BoundsChecker.verify_module module;;
  DuplicationChecker.verify_module_impl module;;
  SignatureChecker.verify_module_impl module;;
  InstructionConsistency.verify_module_impl module;;
  verify_constants_module from_bytes_seed module;;
  Friends.verify_module_impl module;;
  AbilityFieldRequirements.verify_module_impl module;;
  RecursiveStructDefChecker.verify_module_impl toposort module;;
  InstantiationLoopChecker.verify_module_impl tarjan_scc module;;
  CodeUnitVerifier.verify_module_impl module;;
  ScriptSignature.verify_module ScriptSignature.no_additional_script_signature_checks module.

Definition verify_script (script : CompiledScript) : result StatusCode () :=
  BoundsChecker.verify_script script;;
  DuplicationChecker.verify_script_impl script;;
  SignatureChecker.verify_script_impl script;;
  InstructionConsistency.verify_script_impl script;;
  verify_constants_script from_bytes_seed script;;
  CodeUnitVerifier.verify_script_impl script;;
  ScriptSignature.verify_script ScriptSignature.no_additional_script_signature_checks script.
End verifier.
End Verifier.
