(* ===== verification/AccessPaths.v ===== *)
(** Access paths for the references of a borrow graph.  A reference stands for a place: a
    path from a local, from a global or from outside of the frame.  [aliasing rho root G L]
    says that the graph [G] accounts for how the places that [rho] gives to the live
    references [L] overlap; the operations of the graph that reference safety uses keep it.
    A negative answer to a question that reference safety asks of the graph excludes every
    live reference that the graph tracks below the place in question. *)
From stdpp Require Import relations.
From S2P Require Import Prelude StatusCode Access BTree BorrowGraph BorrowGraphFacts ReferenceSafety.
Abbreviation Graph := (BorrowGraph.BorrowGraph unit Label).
Abbreviation Edge := (BorrowEdge unit Label).
Abbreviation place := (list Label).
Implicit Types (G : Graph) (rho : RefID -> place) (e : Edge) (L : list RefID) (q : place).

(** Places in the frame: in a local or in a global of the module. *)
Definition rooted (p : place) : bool :=
  match p with Label.Local _ :: _ | Label.Global _ :: _ => true | _ => false end.
Definition overlap (p p' : place) : Prop := p `prefix_of` p' \/ p' `prefix_of` p.
Definition mut G (a : RefID) : Prop := mutability G a = Some true.

(** * Prefixes *)

Lemma overlap_sym p p' : overlap p p' -> overlap p' p.
Proof. unfold overlap. tauto. Qed.

Lemma prefix_comparable (p p' q : place) : p `prefix_of` q -> p' `prefix_of` q -> overlap p p'.
Proof. intros H H'. destruct (prefix_weak_total p p' q H H'); [by left|by right]. Qed.

(** What overlaps an extension of a place overlaps the place. *)
Lemma overlap_extend (p p' q : place) : p `prefix_of` q -> overlap p' q -> overlap p' p.
Proof.
  intros Hp [H|H]; [by eapply prefix_comparable|]. right. by transitivity q.
Qed.

Lemma prefix_antisym (p q : place) : p `prefix_of` q -> q `prefix_of` p -> p = q.
Proof. intros H H'. by apply (anti_symm prefix). Qed.

Lemma rooted_prefix (p q : place) : p <> [] -> p `prefix_of` q -> rooted q = rooted p.
Proof. intros Hne [t ->]. by destruct p. Qed.

(** * Tracking *)

Lemma tracked_prefix rho G a b : tracked rho G a b -> rho a `prefix_of` rho b.
Proof.
  induction 1 as [|a b c (q & _ & Hq) _ IH]; [done|]. etransitivity; [|exact IH]. rewrite Hq. by exists q.
Qed.

(** The first edge on the way from [a] to another reference. *)
Lemma tracked_first rho G a b :
  tracked rho G a b -> a <> b ->
  exists c s e q, out G a c = Some s /\ e ∈ s.(BorrowEdgeSet.edges) /\ covers e q /\
    rho c = rho a ++ q /\ tracked rho G c b.
Proof.
  intros H Hne. inversion H as [|? c ? (q & (s & Hs & e & He & Hc) & Hq) Ht]; subst; [done|].
  exists c, s, e, q. done.
Qed.

Lemma tracked_cong rho rho' G a b :
  (forall c, is_Some (mutability G c) -> rho' c = rho c) -> graph_ok G -> tracked rho G a b -> tracked rho' G a b.
Proof.
  intros Hrho [_ [Hoi _]]. apply rtc_congruence_step. clear a b. intros a b (q & Hl & Hq).
  assert (is_Some (out G a b)) as Ho by (destruct Hl as (s & -> & _); by exists s).
  apply rtc_once. exists q. split; [done|]. rewrite !Hrho; [done|by eapply out_node|by eapply inn_node, Hoi].
Qed.

(** An edge covers only extensions of its path. *)
Lemma covers_prefix e q : covers e q -> e.(BorrowEdge.path) `prefix_of` q.
Proof. unfold covers. destruct (BorrowEdge.strong e); [by intros ->|done]. Qed.

(** * The invariant *)

Record aliasing rho (root : RefID) G L : Prop := {
  al_graph : graph_ok G;
  al_root : mut G root;
  al_frame : rho root = [];
  al_nodup : NoDup (root :: L);
  al_place : forall b, b ∈ L -> rho b <> [];
  al_nodes : forall a, is_Some (mutability G a) <-> a = root \/ a ∈ L;
  (** Only mutable references are borrowed mutably. *)
  al_mut : forall a b, inn G a b -> mut G b -> mut G a;
  (** The graph tracks the borrows from the frame. *)
  al_rooted : forall b, b ∈ L -> rooted (rho b) = true -> tracked rho G root b;
  (** A mutable reference that overlaps another one borrows from it or is borrowed by it,
      the latter if the other one is immutable. *)
  al_overlap : forall a b, a ∈ L -> b ∈ L -> a <> b -> mut G a -> overlap (rho a) (rho b) ->
    tracked rho G a b \/ (mut G b /\ tracked rho G b a);
}.

#[export] Instance aliasing_perm rho root G : Proper (Permutation ==> iff) (aliasing rho root G).
Proof.
  assert (forall L L', L ≡ₚ L' -> aliasing rho root G L -> aliasing rho root G L') as H.
  { intros L L' HL [H1 H2 H3 H4 HP H5 H6 H7 H8]. split; try done.
    - by rewrite <- HL.
    - intros b. rewrite <- HL. apply HP.
    - intros a. by rewrite H5, HL.
    - intros b. rewrite <- HL. apply H7.
    - intros a b. rewrite <- HL. apply H8. }
  intros L L' HL. split; by apply H.
Qed.

Section inv.
Context (rho : RefID -> place) (root : RefID) (G : Graph) (L : list RefID).
Hypothesis (HA : aliasing rho root G L).

Lemma node_live a : a = root \/ a ∈ L -> is_Some (mutability G a).
Proof using HA. apply (al_nodes _ _ _ _ HA). Qed.

Lemma live_not_root a : a ∈ L -> a <> root.
Proof using HA. intros Ha ->. pose proof (al_nodup _ _ _ _ HA) as H. by apply list.NoDup_cons in H as [? _]. Qed.

Lemma mut_tracked a b : tracked rho G a b -> mut G b -> mut G a.
Proof using HA.
  induction 1 as [|a b c (q & (s & Hs & _) & _) _ IH]; [done|]. intros Hc%IH.
  eapply (al_mut _ _ _ _ HA); [|exact Hc]. destruct (al_graph _ _ _ _ HA) as [_ [Hoi _]].
  apply Hoi. by exists s.
Qed.

Lemma tracked_live a b : tracked rho G a b -> a <> b -> b <> root -> b ∈ L.
Proof using HA.
  intros Ht Hne Hb. destruct (rtc_inv_r _ _ Ht) as [-> |(c & _ & q & (s & Hs & _) & _)]; [done|].
  destruct (al_graph _ _ _ _ HA) as [_ [Hoi _]].
  destruct (proj1 (al_nodes _ _ _ _ HA b)); [|done|done]. eapply inn_node, Hoi. by exists s.
Qed.

(** Other paths for references that are not in the graph do not matter. *)
Lemma aliasing_cong rho' :
  (forall a, is_Some (mutability G a) -> rho' a = rho a) -> aliasing rho' root G L.
Proof using HA.
  intros Hrho. destruct HA as [H1 H2 H3 H4 HP H5 H6 H7 H8].
  assert (forall a, a ∈ L -> rho' a = rho a) as HL by (intros a Ha; apply Hrho, H5; by right).
  split; try done.
  - rewrite Hrho; [done|]. apply H5. by left.
  - intros b Hb. rewrite HL by done. by apply HP.
  - intros b Hb. rewrite HL by done. intros Hr. by apply (tracked_cong rho); [| |apply H7].
  - intros a b Ha Hb Hne Hm. rewrite !HL by done. intros Ho.
    destruct (H8 a b Ha Hb Hne Hm Ho) as [Ht|[Hm' Ht]]; [left|right; split; [done|]]; by apply (tracked_cong rho).
Qed.
End inv.

(** * Release *)

Lemma release_aliasing rho root G L id :
  aliasing rho root G (id :: L) ->
  exists G', BorrowGraph.release id G = (Ok ((), G') : result StatusCode _) /\ aliasing rho root G' L /\
    (forall a, a <> id -> mutability G' a = mutability G a) /\
    (forall a b, a <> id -> b <> id -> tracked rho G a b -> tracked rho G' a b).
Proof.
  intros HA. pose proof HA as [H1 H2 H3 H4 HP H5 H6 H7 H8].
  destruct (release_ok (E := StatusCode) id G H1) as (G' & HR & HG' & Hm & Hin & Ht).
  { apply H5. right. by left. }
  apply list.NoDup_cons in H4 as [Hroot [Hid HL]%list.NoDup_cons].
  assert (root <> id) as Hri by (intros ->; apply Hroot; by left).
  assert (forall a, a ∈ L -> a <> id) as Hne by (intros a Ha ->; done).
  assert (forall a, a <> id -> mutability G' a = mutability G a) as Hm'.
  { intros a Ha. by rewrite Hm, (proj2 (Z.eqb_neq _ _) Ha). }
  exists G'. split; [done|]. split; [|split; [done|by intros a b; apply Ht]]. split; try done.
  - unfold mut. by rewrite Hm'.
  - apply list.NoDup_cons. split; [|done]. intros ?. apply Hroot. by right.
  - intros b Hb. apply HP. by right.
  - intros a. rewrite Hm. destruct (Z.eqb_spec a id) as [-> |Ha].
    + split; [by intros [? ?]|]. intros [->|?]; [done|]. by destruct (Hne id).
    + rewrite H5. rewrite elem_of_cons. naive_solver.
  - intros a b Hab Hb. assert (b <> id) as Hb'.
    { intros ->. unfold mut in Hb. by rewrite Hm, Z.eqb_refl in Hb. }
    assert (mut G b) as Hmb by (unfold mut in *; by rewrite <- Hm').
    destruct (decide (a = id)) as [-> |Ha].
    { exfalso. destruct HG' as [_ [Hoi' _]]. apply Hoi', out_node in Hab. rewrite Hm, Z.eqb_refl in Hab.
      by destruct Hab. }
    unfold mut. rewrite Hm' by done. destruct (Hin _ _ Hab) as [?|[? ?]]; [by eapply H6|].
    eapply H6; [done|]. by eapply H6.
  - intros b Hb Hr. apply Ht; [done|by apply Hne|]. apply H7; [by right|done].
  - intros a b Ha Hb Hab Hmut Ho. unfold mut in *. rewrite Hm' in Hmut by auto. rewrite Hm' by auto.
    destruct (H8 a b) as [?|[? ?]]; [by right|by right|done|done|done|left|right; split; [done|]]; by apply Ht; auto.
Qed.

(** * Borrows *)

(** [a] borrows from [p] through an edge that extends [path]. *)
Definition below rho G (p : RefID) (path : place) (a : RefID) : Prop :=
  exists c s e q, out G p c = Some s /\ e ∈ s.(BorrowEdgeSet.edges) /\ path `prefix_of` e.(BorrowEdge.path) /\
    covers e q /\ rho c = rho p ++ q /\ tracked rho G c a.

(** A new reference [n] that has edges from and to other references only: what is left to
    show for the invariant. *)
Section extend.
Context (rho : RefID -> place) (root : RefID) (G G' : Graph) (L : list RefID) (n : RefID) (mu : bool).
Hypothesis (HA : aliasing rho root G L) (Hn : mutability G n = None) (HG' : graph_ok G').
Hypothesis (Hm : forall a, mutability G' a = if a =? n then Some mu else mutability G a).
Hypothesis (Ht : forall a b, tracked rho G a b -> tracked rho G' a b).

Lemma new_not_live a : is_Some (mutability G a) -> a <> n.
Proof using Hn. intros [? ?] ->. congruence. Qed.

Lemma mutability_old a : a <> n -> mutability G' a = mutability G a.
Proof using Hm. intros Ha. by rewrite Hm, (proj2 (Z.eqb_neq _ _) Ha). Qed.

Lemma mut_new : mut G' n <-> mu = true.
Proof using Hm. unfold mut. rewrite Hm, Z.eqb_refl. split; [by intros [= ->]|by intros ->]. Qed.

Lemma extend_aliasing :
  rho n <> [] -> (forall a b, inn G' a b -> mut G' b -> mut G' a) ->
  (rooted (rho n) = true -> tracked rho G' root n) ->
  (forall a, a ∈ L -> mut G a \/ mu = true -> overlap (rho a) (rho n) ->
     (mut G a /\ tracked rho G' a n) \/ (mu = true /\ tracked rho G' n a)) ->
  aliasing rho root G' (n :: L).
Proof using HA Hn HG' Hm Ht.
  intros Hplace Hmut Hroot Hov. pose proof HA as [H1 H2 H3 H4 HP H5 H6 H7 H8].
  assert (forall a, a = root \/ a ∈ L -> a <> n) as Hold by (intros a Ha%H5; by apply new_not_live).
  assert (forall a, a ∈ L -> mut G' a <-> mut G a) as HmL.
  { intros a Ha. unfold mut. rewrite mutability_old; [done|]. apply Hold. by right. }
  split; try done.
  - unfold mut. rewrite mutability_old; [done|]. apply Hold. by left.
  - apply list.NoDup_cons in H4 as [Hr HL]. apply list.NoDup_cons. split.
    + intros [->|?]%elem_of_cons; [|done]. destruct (Hold n); auto.
    + apply list.NoDup_cons. split; [|done]. intros Hin. by destruct (Hold n); [right|].
  - intros b [->|Hb]%elem_of_cons; [done|by apply HP].
  - intros a. rewrite Hm, elem_of_cons. destruct (Z.eqb_spec a n) as [-> |Ha]; [naive_solver|].
    rewrite H5. naive_solver.
  - intros b [->|Hb]%elem_of_cons Hr; [by apply Hroot|]. by apply Ht, H7.
  - intros a b [->|Ha]%elem_of_cons [->|Hb]%elem_of_cons Hne Hma Ho; [done|..].
    + apply mut_new in Hma. rewrite (HmL b Hb). apply overlap_sym in Ho.
      destruct (Hov b Hb (or_intror Hma) Ho) as [?|[_ ?]]; [by right|by left].
    + apply (HmL a Ha) in Hma. rewrite mut_new.
      destruct (Hov a Ha (or_introl Hma) Ho) as [[_ ?]|?]; [by left|by right].
    + apply (HmL a Ha) in Hma. rewrite (HmL b Hb).
      destruct (H8 a b Ha Hb Hne Hma Ho) as [?|[? ?]]; [left|right; split; [done|]]; by apply Ht.
Qed.
End extend.

(** A strong borrow of [path] below [p]. *)
Lemma strong_aliasing rho root G L n mu p path :
  aliasing rho root G L -> mutability G n = None -> p = root \/ p ∈ L -> (mu = true -> mut G p) ->
  (mu = false -> forall c s e, out G p c = Some s -> e ∈ s.(BorrowEdgeSet.edges) ->
     path `prefix_of` e.(BorrowEdge.path) -> ~ mut G c) ->
  rho n = rho p ++ path -> rho n <> [] -> (rooted (rho n) = true -> tracked rho G root p) ->
  (forall a, a ∈ L -> mut G a \/ mu = true -> overlap (rho a) (rho n) ->
     (mut G a /\ tracked rho G a p) \/ (mu = true /\ below rho G p path a)) ->
  exists G1 G', BorrowGraph.new_ref n mu G = (Ok ((), G1) : result StatusCode _) /\
    BorrowGraph.factor p tt path n G1 = (Ok ((), G') : result StatusCode _) /\
    aliasing rho root G' (n :: L) /\ (forall a, mutability G' a = if a =? n then Some mu else mutability G a).
Proof.
  intros HA Hn Hp Hmp Hmoved Hrho Hplace Hroot Hov. pose proof HA as [H1 H2 H3 H4 HP H5 H6 H7 H8].
  destruct (new_ref_ok (E := StatusCode) n mu G H1 Hn) as (G1 & R1 & HG1 & Hm1 & Hi1 & Ho1).
  apply H5 in Hp. pose proof (new_not_live G n Hn p Hp) as Hpn.
  assert (forall a, ~ inn G a n /\ ~ inn G n a) as Hfr.
  { destruct H1 as [_ [Hoi _]]. intros a. split.
    - intros [? ?]%inn_node. congruence.
    - intros [? ?]%Hoi%out_node. congruence. }
  destruct (factor_ok (E := StatusCode) p tt path n G1 HG1) as (G' & R2 & HG' & Hm2 & Hi2 & Ht2).
  { by rewrite Hm1, (proj2 (Z.eqb_neq _ _) Hpn). }
  { rewrite Hm1, Z.eqb_refl. by eexists. }
  { done. }
  { intros a. rewrite !Hi1. apply Hfr. }
  destruct (Ht2 rho Hrho) as (Hkeep & Hnew & Hmove).
  assert (forall a b, tracked rho G a b -> tracked rho G' a b) as Ht.
  { intros a b Hab. apply Hkeep. revert Hab. apply rtc_congruence_step. clear a b. intros a b (q & (s & Hs & Hc) & Hq).
    apply rtc_once. exists q. split; [|done]. exists s. by rewrite Ho1. }
  assert (forall a, mutability G' a = if a =? n then Some mu else mutability G a) as Hm.
  { intros a. by rewrite Hm2, Hm1. }
  exists G1, G'. do 2 (split; [done|]). split; [|done].
  eapply extend_aliasing; try done.
  - intros a b Hab Hb.
    assert (a <> n -> mut G' a <-> mut G a) as Ha by (intros ?; unfold mut; by rewrite (mutability_old G G' n mu)).
    assert (b <> n -> mut G' b <-> mut G b) as Hb' by (intros ?; unfold mut; by rewrite (mutability_old G G' n mu)).
    destruct (Hi2 _ _ Hab) as [?%Hi1|[[-> ->]|(-> & s & e & Hs & He & Hpre)]].
    + assert (a <> n) by (intros ->; by destruct (Hfr b)). assert (b <> n) by (intros ->; by destruct (Hfr a)).
      apply Ha; [done|]. eapply H6; [done|]. by apply Hb'.
    + apply Ha; [done|]. apply Hmp. by apply (mut_new G G' n mu).
    + apply (mut_new G G' n mu Hm). destruct mu; [done|]. exfalso. rewrite Ho1 in Hs.
      assert (b <> n). { intros ->. destruct H1 as [_ [Hoi _]]. apply (proj1 (Hfr p)), Hoi. by exists s. }
      apply (Hmoved eq_refl b s e); try done. by apply Hb'.
  - intros Hr. apply (rtc_r _ p); [by apply Ht, Hroot|done].
  - intros a Ha Hor Ho. destruct (Hov a Ha Hor Ho) as [[? Hap]|[? (c & s & e & q & Hs & He & Hpre & Hc & Hq & Hca)]].
    + left. split; [done|]. apply (rtc_r _ p); [by apply Ht|done].
    + right. split; [done|]. apply (rtc_l _ _ c); [|by apply Ht]. apply (Hmove c s e q); try done. by rewrite Ho1.
Qed.

(** Weak borrows of [path] below each of [ps], one of which is where [n] comes from. *)
Lemma weak_aliasing rho root G L n mu ps path p0 :
  aliasing rho root G L -> mutability G n = None ->
  (forall p, p ∈ ps -> (p = root \/ p ∈ L) /\ (mu = true -> mut G p)) ->
  p0 ∈ ps -> rho p0 ++ path `prefix_of` rho n -> rho n <> [] -> (rooted (rho n) = true -> tracked rho G root p0) ->
  (forall a, a ∈ L -> mut G a \/ mu = true -> overlap (rho a) (rho n) -> mut G a /\ tracked rho G a p0) ->
  exists G1 G', BorrowGraph.new_ref n mu G = (Ok ((), G1) : result StatusCode _) /\
    st_for ps (fun p => BorrowGraph.add_path p tt false path n) G1 = (Ok ((), G') : result StatusCode _) /\
    aliasing rho root G' (n :: L) /\ (forall a, mutability G' a = if a =? n then Some mu else mutability G a) /\
    (forall a b, tracked rho G a b -> tracked rho G' a b).
Proof.
  intros HA Hn Hps Hp0 Hrho Hplace Hroot Hov. pose proof HA as [H1 H2 H3 H4 HP H5 H6 H7 H8].
  destruct (new_ref_ok (E := StatusCode) n mu G H1 Hn) as (G1 & R1 & HG1 & Hm1 & Hi1 & Ho1).
  assert (forall p, p ∈ ps -> p <> n) as Hpn by (intros p Hp; apply (new_not_live G n Hn), H5; by apply Hps).
  assert (forall l G0, graph_ok G0 -> (forall a, mutability G0 a = mutability G1 a) -> (forall p, p ∈ l -> p ∈ ps) ->
    exists G', st_for l (fun p => BorrowGraph.add_path p tt false path n) G0 = (Ok ((), G') : result StatusCode _) /\
      graph_ok G' /\ (forall a, mutability G' a = mutability G1 a) /\
      (forall a b, inn G' a b -> inn G0 a b \/ (a ∈ l /\ b = n)) /\
      (forall a b, tracked rho G0 a b -> tracked rho G' a b) /\ (p0 ∈ l -> tracked rho G' p0 n)) as Hfor.
  { induction l as [|p l IH]; intros G0 HG0 Hm0 Hl.
    { exists G0. do 3 (split; [done|]). split; [by left|]. split; [done|]. by intros ?%elem_of_nil. }
    destruct (weak_borrow_ok (E := StatusCode) p tt path n G0 HG0) as (G2 & R2 & HG2 & Hm2 & Hi2 & Ht2).
    { rewrite Hm0, Hm1, (proj2 (Z.eqb_neq p n)) by (apply Hpn, Hl; by left). apply H5, Hps, Hl. by left. }
    { rewrite Hm0, Hm1, Z.eqb_refl. by eexists. }
    { apply Hpn, Hl. by left. }
    destruct (IH G2 HG2) as (G3 & R3 & HG3 & Hm3 & Hi3 & Ht3 & Hp3).
    { intros a. by rewrite Hm2. }
    { intros a Ha. apply Hl. by right. }
    exists G3. split; [cbn [st_for]; unfold mbind, ST_bind; by rewrite R2|].
    do 2 (split; [done|]). destruct (Ht2 rho) as [Hk Hb]. split; [|split].
    - intros a b [[?|[-> ->]]%Hi2|[? ->]]%Hi3; [by left|right|right]; (split; [|done]); [by left|by right].
    - intros a b Hab. by apply Ht3, Hk.
    - intros [<-|?]%elem_of_cons; [|by apply Hp3]. by apply Ht3, rtc_once, Hb. }
  destruct (Hfor ps G1 HG1 ltac:(done) ltac:(done)) as (G' & R2 & HG' & Hm2 & Hi2 & Ht2 & Hnew).
  specialize (Hnew Hp0). clear Hfor.
  assert (forall a b, tracked rho G a b -> tracked rho G' a b) as Ht.
  { intros a b Hab. apply Ht2. revert Hab. apply rtc_congruence_step. clear a b. intros a b (q & (s & Hs & Hc) & Hq).
    apply rtc_once. exists q. split; [|done]. exists s. by rewrite Ho1. }
  assert (forall a, mutability G' a = if a =? n then Some mu else mutability G a) as Hm.
  { intros a. by rewrite Hm2, Hm1. }
  exists G1, G'. do 2 (split; [done|]). split; [|done].
  eapply extend_aliasing; try done.
  - intros a b Hab Hb. destruct (Hi2 _ _ Hab) as [Hab'%Hi1|[Hin ->]].
    + destruct H1 as [_ [Hoi _]].
      assert (a <> n) by (apply (new_not_live G n Hn); by eapply out_node, Hoi).
      assert (b <> n) by (apply (new_not_live G n Hn); by eapply inn_node).
      unfold mut in *. rewrite (mutability_old G G' n mu) in Hb by done. rewrite (mutability_old G G' n mu) by done.
      by eapply H6.
    + unfold mut. rewrite (mutability_old G G' n mu) by auto. apply Hps; [done|]. by apply (mut_new G G' n mu).
  - intros Hr. etransitivity; [by apply Ht, Hroot|done].
  - intros a Ha Hor Ho. left. destruct (Hov a Ha Hor Ho) as [? ?]. split; [done|].
    etransitivity; [by apply Ht|done].
Qed.

(** * Maps with ordered keys *)

Section ordmap.
Context {A V : Set} `{LawfulOrd A}.

Lemma ordmap_get_insert (k k' : A) (v : V) m :
  OrdMap.get k' (OrdMap.insert k v m) = Some v /\ k' = k \/ OrdMap.get k' (OrdMap.insert k v m) = OrdMap.get k' m /\ k' <> k.
Proof.
  induction m as [|[x w] m IH]; simpl.
  - destruct (cmp k' k) eqn:E; [left; split; [done|by apply cmp_eq]|right|right]; (split; [done|]); intros ->;
      by rewrite cmp_refl in E.
  - destruct (cmp k x) eqn:Ekx; simpl.
    + apply cmp_eq in Ekx as ->. destruct (cmp k' x) eqn:E; [left; split; [done|by apply cmp_eq]|right|right];
        (split; [done|]); intros ->; by rewrite cmp_refl in E.
    + destruct (cmp k' k) eqn:E; [left; split; [done|by apply cmp_eq]|right|right]; (split; [done|]); intros ->;
        by rewrite cmp_refl in E.
    + destruct (cmp k' x) eqn:E; [|done|done]. right. split; [done|]. intros ->. congruence.
Qed.

Lemma ordmap_elem_insert (k k' : A) (v w : V) m : (k', w) ∈ OrdMap.insert k v m -> w = v \/ (k', w) ∈ m.
Proof.
  induction m as [|[x y] m IH]; simpl.
  - rewrite list_elem_of_singleton. intros [= -> ->]. by left.
  - destruct (cmp k x); rewrite !elem_of_cons.
    + intros [[= -> ->]|?]; [by left|by right; right].
    + intros [[= -> ->]|?]; [by left|by right].
    + intros [?|[?|?]%IH]; [by right; left|by left|by right; right].
Qed.

Lemma ordmap_get_elem (k : A) (v : V) m : OrdMap.get k m = Some v -> exists k', (k', v) ∈ m.
Proof.
  induction m as [|[x y] m IH]; simpl; [done|]. destruct (cmp k x).
  - intros [= ->]. exists x. by left.
  - intros [k' ?]%IH. exists k'. by right.
  - intros [k' ?]%IH. exists k'. by right.
Qed.
End ordmap.

(** * The borrowers of a reference *)

Abbreviation Borrows := (BTreeMap unit * list (Label * BTreeMap unit))%type.

(** [c] is among the borrowers along edges with this path. *)
Definition collected (acc : Borrows) (c : RefID) (path : place) : Prop :=
  match path with
  | [] => c ∈ BTreeMap.keys acc.1
  | f :: _ => exists m, OrdMap.get f acc.2 = Some m /\ c ∈ BTreeMap.keys m
  end.
(** All borrowers satisfy [P]. *)
Definition only (P : RefID -> Prop) (acc : Borrows) : Prop :=
  (forall c, c ∈ BTreeMap.keys acc.1 -> P c) /\ (forall f m c, (f, m) ∈ acc.2 -> c ∈ BTreeMap.keys m -> P c).

Lemma collect_step (acc : Borrows) c (e : Edge) :
  collected (BorrowGraph.collect_borrow acc (c, e)) c e.(BorrowEdge.path) /\
  (forall d p, collected acc d p -> collected (BorrowGraph.collect_borrow acc (c, e)) d p) /\
  (forall P : RefID -> Prop, only P acc -> P c -> only P (BorrowGraph.collect_borrow acc (c, e))).
Proof.
  destruct acc as [full field]. simpl. destruct (BorrowEdge.path e) as [|f p]; simpl.
  - split; [|split].
    + apply BTreeMap.keys_insert. by left.
    + intros d [|g p]; simpl; [|done]. intros Hd. apply BTreeMap.keys_insert. by right.
    + intros P [H1 H2] HP. split; simpl; [|done]. intros d [-> |?]%BTreeMap.keys_insert; auto.
  - set (ms := match OrdMap.get f field with Some m => m | None => BTreeMap.empty end).
    set (m := BTreeMap.insert c (BorrowEdge.loc e) ms). split; [|split].
    + exists m. split; [by destruct (ordmap_get_insert f f m field) as [[? _]|[_ ?]]|].
      apply BTreeMap.keys_insert. by left.
    + intros d [|g p']; simpl; [done|]. intros (m' & Hm' & Hd).
      destruct (ordmap_get_insert f g m field) as [[-> ->]|[-> _]]; [|by exists m'].
      exists m. split; [done|]. apply BTreeMap.keys_insert. right. unfold ms. by rewrite Hm'.
    + intros P [H1 H2] HP. split; simpl; [done|]. simpl in H2. intros g m' d [->|Hin]%ordmap_elem_insert Hd; [|by eapply H2].
      apply BTreeMap.keys_insert in Hd as [-> |Hd]; [done|]. unfold ms in Hd.
      destruct (OrdMap.get f field) as [m0|] eqn:E; [|by apply elem_of_nil in Hd].
      apply ordmap_get_elem in E as [f' ?]. by eapply H2.
Qed.

Lemma collect_all (es : list (RefID * Edge)) (acc : Borrows) :
  (forall c p, collected acc c p -> collected (foldl BorrowGraph.collect_borrow acc es) c p) /\
  (forall c e, (c, e) ∈ es -> collected (foldl BorrowGraph.collect_borrow acc es) c e.(BorrowEdge.path)) /\
  (forall P : RefID -> Prop, only P acc -> (forall c e, (c, e) ∈ es -> P c) ->
     only P (foldl BorrowGraph.collect_borrow acc es)).
Proof.
  revert acc. induction es as [|[c e] es IH]; intros acc; cbn [foldl].
  { split; [done|]. split; [by intros c e ?%elem_of_nil|done]. }
  destruct (IH (BorrowGraph.collect_borrow acc (c, e))) as (I1 & I2 & I3).
  destruct (collect_step acc c e) as (S1 & S2 & S3). split; [|split].
  - intros d p Hd. by apply I1, S2.
  - intros d e' [[= -> ->]|?]%elem_of_cons; [by apply I1|by apply I2].
  - intros P HP Hes. apply I3; [apply S3; [done|]|].
    + apply (Hes c e). by left.
    + intros d e' ?. apply (Hes d e'). by right.
Qed.

Lemma borrowed_by_ok (G : Graph) id :
  graph_ok G -> is_Some (mutability G id) ->
  exists bs, BorrowGraph.borrowed_by id G = (Ok bs : result StatusCode _) /\
    (forall c s e, out G id c = Some s -> e ∈ s.(BorrowEdgeSet.edges) -> collected bs c e.(BorrowEdge.path)) /\
    only (fun c => inn G id c) bs.
Proof.
  intros [HG [Hoi _]] [r Hr]%graph_node_get. destruct (rep_ref _ _ _ HG Hr) as (Hrs & _ & Hrset).
  destruct (out_edges_of_ok (E := StatusCode) r.(Ref.borrowed_by) Hrs Hrset) as (es & Hes & Hin).
  destruct (collect_all es (BTreeMap.empty, [])) as (_ & C2 & C3).
  eexists. split; [|split].
  - unfold BorrowGraph.borrowed_by. rewrite Hr. cbn [unwrap mbind result_bind]. rewrite Hes. reflexivity.
  - intros c s e Hs He. apply C2, Hin. exists s. unfold out in Hs. by rewrite Hr in Hs.
  - apply C3.
    + split; simpl; [by intros c ?%elem_of_nil|by intros f m c ?%elem_of_nil].
    + intros c e (s & Hs & _)%Hin. apply Hoi. exists s. unfold out. by rewrite Hr.
Qed.

(** * The questions *)

Import ReferenceState.

(** A path that begins with the label, if one is given; the empty path always counts. *)
Definition compatible (label_opt : option Label) (p : place) : Prop :=
  match p, label_opt with
  | l :: _, Some l' => l = l'
  | _, _ => True
  end.

Lemma compatible_prefix label_opt (p q : place) : p `prefix_of` q -> compatible label_opt q -> compatible label_opt p.
Proof. intros [t ->]. by destruct p. Qed.

Lemma any_res_ok {A} (f : A -> result StatusCode bool) (l : list A) :
  (forall x, x ∈ l -> exists b : bool, f x = Ok b) ->
  exists b : bool, any_res f l = Ok b /\ (b = false -> forall x, x ∈ l -> f x = Ok false).
Proof.
  induction l as [|x l IH]; intros Hf; simpl.
  { exists false. split; [done|]. by intros _ x ?%elem_of_nil. }
  destruct (Hf x ltac:(by left)) as [[] Hx]; rewrite Hx; cbn [mbind result_bind]; [by exists true|].
  destruct IH as (b & -> & Hb); [intros y Hy; apply Hf; by right|]. exists b. split; [done|].
  intros Hfalse y [-> |Hy]%elem_of_cons; [done|by apply Hb].
Qed.

Section questions.
Context (s : AbstractState) (id : RefID).
Abbreviation G := (s.(borrow_graph)).
Hypothesis (HG : graph_ok G) (Hid : is_Some (mutability G id)).

Lemma is_mutable_ok a mu : mutability G a = Some mu -> is_mutable a s = Ok mu.
Proof using.
  intros (r & Hr & <-)%mutability_some. unfold is_mutable, BorrowGraph.is_mutable. by rewrite Hr.
Qed.

Lemma all_immutable_ok (bs : BTreeMap unit) :
  (forall c, c ∈ BTreeMap.keys bs -> inn G id c) ->
  exists b : bool, all_immutable bs s = Ok b /\ (b = true -> forall c, c ∈ BTreeMap.keys bs -> ~ mut G c).
Proof using.
  intros Hin. unfold all_immutable.
  destruct (any_res_ok (fun x => is_mutable x s) (BTreeMap.keys bs)) as (b & -> & Hb).
  { intros c [mu Hmu]%Hin%inn_node. exists mu. by apply is_mutable_ok. }
  exists (negb b). split; [done|]. intros Hfalse%negb_true_iff c Hc Hm.
  specialize (Hb Hfalse c Hc). rewrite (is_mutable_ok _ _ Hm) in Hb. done.
Qed.

Lemma no_borrows_false (m : BTreeMap unit) c : c ∈ BTreeMap.keys m -> no_borrows m = false.
Proof using. destruct m; [by intros ?%elem_of_nil|done]. Qed.

Lemma has_full_borrows_ok :
  exists b : bool, has_full_borrows id s = Ok b /\
    (b = false -> forall c es (e : Edge), out G id c = Some es -> e ∈ es.(BorrowEdgeSet.edges) ->
       e.(BorrowEdge.path) <> []).
Proof using HG Hid.
  destruct (borrowed_by_ok G id HG Hid) as ([full field] & HR & Hc & _). unfold has_full_borrows. rewrite HR.
  eexists. split; [reflexivity|]. simpl. intros Hf c es e Hes He Hnil. specialize (Hc c es e Hes He).
  rewrite Hnil in Hc. simpl in Hc. by rewrite (no_borrows_false _ _ Hc) in Hf.
Qed.

Lemma has_consistent_borrows_ok label_opt :
  exists b : bool, has_consistent_borrows id label_opt s = Ok b /\
    (b = false -> forall c es (e : Edge), out G id c = Some es -> e ∈ es.(BorrowEdgeSet.edges) ->
       compatible label_opt e.(BorrowEdge.path) -> False).
Proof using HG Hid.
  destruct (borrowed_by_ok G id HG Hid) as ([full field] & HR & Hc & _). unfold has_consistent_borrows. rewrite HR.
  cbn [mbind result_bind]. destruct (no_borrows full) eqn:Efull; simpl; [|by exists true].
  assert (forall c es (e : Edge), out G id c = Some es -> e ∈ es.(BorrowEdgeSet.edges) ->
    exists f p m, e.(BorrowEdge.path) = f :: p /\ OrdMap.get f field = Some m /\ c ∈ BTreeMap.keys m) as Hfield.
  { intros c es e Hes He. specialize (Hc c es e Hes He). destruct (BorrowEdge.path e) as [|f p]; simpl in Hc.
    - by rewrite (no_borrows_false _ _ Hc) in Efull.
    - destruct Hc as (m & ? & ?). by exists f, p, m. }
  destruct label_opt as [l|].
  - destruct (OrdMap.get l field) as [m|] eqn:El; eexists; (split; [reflexivity|]).
    + intros Hf c es e Hes He Hcomp. destruct (Hfield c es e Hes He) as (f & p & m' & Hp & Hm & Hin).
      rewrite Hp in Hcomp. simpl in Hcomp. subst f. rewrite El in Hm. injection Hm as ->.
      by rewrite (no_borrows_false _ _ Hin) in Hf.
    + intros _ c es e Hes He Hcomp. destruct (Hfield c es e Hes He) as (f & p & m' & Hp & Hm & Hin).
      rewrite Hp in Hcomp. simpl in Hcomp. congruence.
  - eexists. split; [reflexivity|]. intros Hf c es e Hes He _.
    destruct (Hfield c es e Hes He) as (f & p & m & _ & Hm & Hin). apply ordmap_get_elem in Hm as [f' Hm].
    apply not_true_iff_false in Hf. apply Hf, existsb_exists. exists (f', m).
    split; [by apply list_elem_of_In|]. by rewrite (no_borrows_false _ _ Hin).
Qed.

Lemma has_consistent_mutable_borrows_ok label_opt :
  exists b : bool, has_consistent_mutable_borrows id label_opt s = Ok b /\
    (b = false -> forall c es (e : Edge), out G id c = Some es -> e ∈ es.(BorrowEdgeSet.edges) ->
       compatible label_opt e.(BorrowEdge.path) -> ~ mut G c).
Proof using HG Hid.
  destruct (borrowed_by_ok G id HG Hid) as ([full field] & HR & Hc & Hfull & Hin).
  unfold has_consistent_mutable_borrows. rewrite HR. cbn [mbind result_bind].
  destruct (all_immutable_ok full Hfull) as (bf & -> & Hbf). cbn [mbind result_bind].
  destruct bf; simpl; [|by exists true].
  assert (forall c es (e : Edge), out G id c = Some es -> e ∈ es.(BorrowEdgeSet.edges) -> mut G c ->
    exists f p m, e.(BorrowEdge.path) = f :: p /\ OrdMap.get f field = Some m /\ c ∈ BTreeMap.keys m) as Hfield.
  { intros c es e Hes He Hm. specialize (Hc c es e Hes He). destruct (BorrowEdge.path e) as [|f p]; simpl in Hc.
    - by apply Hbf in Hc.
    - destruct Hc as (m & ? & ?). by exists f, p, m. }
  destruct label_opt as [l|].
  - destruct (OrdMap.get l field) as [m|] eqn:El.
    + destruct (all_immutable_ok m) as (b & -> & Hb).
      { intros c Hcm. apply ordmap_get_elem in El as [f' ?]. by eapply Hin. }
      eexists. split; [reflexivity|]. intros Hf%negb_false_iff c es e Hes He Hcomp Hm.
      destruct (Hfield c es e Hes He Hm) as (f & p & m' & Hp & Hm' & Hcm). rewrite Hp in Hcomp. simpl in Hcomp.
      subst f. rewrite El in Hm'. injection Hm' as ->. by apply (Hb Hf) in Hcm.
    + eexists. split; [reflexivity|]. intros _ c es e Hes He Hcomp Hm.
      destruct (Hfield c es e Hes He Hm) as (f & p & m' & Hp & Hm' & _). rewrite Hp in Hcomp. simpl in Hcomp. congruence.
  - match goal with |- context [any_res ?f field] => destruct (any_res_ok f field) as (b & -> & Hb) end.
    { intros [f m] Hfm. destruct (all_immutable_ok m) as (b & -> & _); [intros c Hcm; by eapply Hin|].
      eexists. reflexivity. }
    exists b. split; [done|]. intros Hf c es e Hes He _ Hm.
    destruct (Hfield c es e Hes He Hm) as (f & p & m & _ & Hgm & Hcm). apply ordmap_get_elem in Hgm as [f' Hgm].
    specialize (Hb Hf _ Hgm). simpl in Hb. destruct (all_immutable_ok m) as (b' & Hb' & Himm); [intros d Hd; by eapply Hin|].
    rewrite Hb' in Hb. destruct b'; [by apply (Himm eq_refl) in Hcm|done].
Qed.
End questions.

(** From the edges of a reference to the references tracked below it. *)
Lemma tracked_below rho G id a label_opt (P : RefID -> Prop) :
  tracked rho G id a -> a <> id -> (forall c, tracked rho G c a -> P a -> P c) ->
  (forall r, rho a = rho id ++ r -> compatible label_opt r) ->
  (forall c es (e : Edge), out G id c = Some es -> e ∈ es.(BorrowEdgeSet.edges) ->
     compatible label_opt e.(BorrowEdge.path) -> ~ P c) -> ~ P a.
Proof.
  intros Ht Hne HP Hcomp Hno Ha. destruct (tracked_first _ _ _ _ Ht) as (c & es & e & q & Hes & He & Hq & Hc & Hca); [done|].
  apply (Hno c es e Hes He); [|by eapply HP]. apply tracked_prefix in Hca as [t Ht']. rewrite Hc, <- (assoc_L (++)) in Ht'.
  eapply compatible_prefix; [|by apply Hcomp]. etransitivity; [by apply covers_prefix|by exists t].
Qed.
