(* ===== verification/PlaceMachine.v ===== *)
(** A machine for references.  Its values are references to places and plain values, of
    which nothing is known; a step is one instruction.  It fixes what reference safety is
    about: which places an instruction reads, writes and takes, and what must not refer to
    them at that time.  Where it is not determined (the element of a vector, the account
    of a global, the results of a call) a step may go to any place that is possible. *)
From S2P Require Import Prelude StatusCode Abilities Identifier FileFormat Access BTree.
From S2P Require Import FunctionView BorrowGraph ReferenceSafety AccessPaths.

Module Machine.
Inductive Value : Set :=
| Ref (mut_ : bool) (at_ : place)
| Plain.

Record Frame : Set := mk { stack : list Value; locals : BTreeMap Value }.

Definition local_values (l : BTreeMap Value) : list Value := map snd l.
(** All values of the frame. *)
Definition values (c : Frame) : list Value := c.(stack) ++ local_values c.(locals).

(** * Access *)

(** To read through a reference, no mutable reference may refer to a part of the place; to
    write, no reference at all, and none that is immutable to the place itself.  (Mutable
    references to the same place are those that this reference was borrowed from; they
    are not used until it is gone.)  To inspect a local or a global of the frame, no
    mutable reference may refer into it, and to take or replace it none at all. *)
Inductive Access : Set := Read | Write | Inspect | Take.

Definition allowed (a : Access) (p : place) (others : list Value) : Prop :=
  forall mut_ p', Ref mut_ p' ∈ others -> p `prefix_of` p' ->
  match a with
  | Read => mut_ = true -> p' = p
  | Write => mut_ = true /\ p' = p
  | Inspect => mut_ = false
  | Take => False
  end.

Section machine.
Context (resolver : BinaryIndexedView) (name_def_map : BTreeMap FunctionDefinitionIndex) (num_locals : Z).
Abbreviation R := (result StatusCode).

(** * What the instructions refer to *)

(** Instructions that work on plain values only: how many they pop and push. *)
Definition plain_effect (b : Bytecode) : R (option (nat * nat)) :=
  match b with
  | Bytecode.Branch _ | Bytecode.Nop => Ok (Some (0, 0))
  | Bytecode.CastU8 | Bytecode.CastU64 | Bytecode.CastU128 | Bytecode.Not
  | Bytecode.Exists _ | Bytecode.ExistsGeneric _ => Ok (Some (1, 1))
  | Bytecode.BrTrue _ | Bytecode.BrFalse _ | Bytecode.Abort => Ok (Some (1, 0))
  | Bytecode.LdTrue | Bytecode.LdFalse | Bytecode.LdU8 _ | Bytecode.LdU64 _ | Bytecode.LdU128 _ =>
    Ok (Some (0, 1))
  | Bytecode.LdConst idx =>
    constant ← BinaryIndexedView.constant_at resolver idx;
    Ok (if SignatureToken.is_reference constant.(Constant.type_) then None else Some (0, 1))
  | Bytecode.Add | Bytecode.Sub | Bytecode.Mul | Bytecode.Mod | Bytecode.Div | Bytecode.BitOr
  | Bytecode.BitAnd | Bytecode.Xor | Bytecode.Shl | Bytecode.Shr | Bytecode.Or | Bytecode.And
  | Bytecode.Lt | Bytecode.Gt | Bytecode.Le | Bytecode.Ge => Ok (Some (2, 1))
  | Bytecode.Pack idx =>
    d ← BinaryIndexedView.struct_def_at resolver idx; Ok (Some (ReferenceSafety.num_fields d, 1))
  | Bytecode.PackGeneric idx =>
    d ← ReferenceSafety.struct_def_of_inst resolver idx; Ok (Some (ReferenceSafety.num_fields d, 1))
  | Bytecode.Unpack idx =>
    d ← BinaryIndexedView.struct_def_at resolver idx; Ok (Some (1, ReferenceSafety.num_fields d))
  | Bytecode.UnpackGeneric idx =>
    d ← ReferenceSafety.struct_def_of_inst resolver idx; Ok (Some (1, ReferenceSafety.num_fields d))
  | Bytecode.VecPack idx num =>
    _ ← ReferenceSafety.vec_element_type resolver idx; Ok (Some (Z.to_nat num, 1))
  | Bytecode.VecUnpack idx num =>
    t ← ReferenceSafety.vec_element_type resolver idx;
    Ok (if SignatureToken.is_reference t then None else Some (1, Z.to_nat num))
  | _ => Ok None
  end%nat.

(** The field that an instruction borrows, and whether mutably. *)
Definition borrowed_field (b : Bytecode) : R (option (bool * FieldHandleIndex)) :=
  match b with
  | Bytecode.MutBorrowField idx => Ok (Some (true, idx))
  | Bytecode.ImmBorrowField idx => Ok (Some (false, idx))
  | Bytecode.MutBorrowFieldGeneric idx =>
    inst ← BinaryIndexedView.field_instantiation_at resolver idx; Ok (Some (true, inst.(FieldInstantiation.handle)))
  | Bytecode.ImmBorrowFieldGeneric idx =>
    inst ← BinaryIndexedView.field_instantiation_at resolver idx; Ok (Some (false, inst.(FieldInstantiation.handle)))
  | _ => Ok None
  end.

(** The global that an instruction borrows, and whether mutably. *)
Definition borrowed_global (b : Bytecode) : R (option (bool * StructDefinitionIndex)) :=
  match b with
  | Bytecode.MutBorrowGlobal idx => Ok (Some (true, idx))
  | Bytecode.ImmBorrowGlobal idx => Ok (Some (false, idx))
  | Bytecode.MutBorrowGlobalGeneric idx =>
    inst ← ReferenceSafety.struct_inst resolver idx; Ok (Some (true, inst.(StructDefInstantiation.def)))
  | Bytecode.ImmBorrowGlobalGeneric idx =>
    inst ← ReferenceSafety.struct_inst resolver idx; Ok (Some (false, inst.(StructDefInstantiation.def)))
  | _ => Ok None
  end.

(** The global that an instruction moves out of an account. *)
Definition moved_global (b : Bytecode) : R (option StructDefinitionIndex) :=
  match b with
  | Bytecode.MoveFrom idx => Ok (Some idx)
  | Bytecode.MoveFromGeneric idx =>
    inst ← ReferenceSafety.struct_inst resolver idx; Ok (Some inst.(StructDefInstantiation.def))
  | _ => Ok None
  end.

(** The function that an instruction calls. *)
Definition called (b : Bytecode) : R (option FunctionHandle) :=
  match b with
  | Bytecode.Call idx => h ← BinaryIndexedView.function_handle_at resolver idx; Ok (Some h)
  | Bytecode.CallGeneric idx =>
    inst ← BinaryIndexedView.function_instantiation_at resolver idx;
    h ← BinaryIndexedView.function_handle_at resolver inst.(FunctionInstantiation.handle);
    Ok (Some h)
  | _ => Ok None
  end.

(** * Calls *)

(** A result of type [t] of a call with these arguments: a mutable reference is to a place
    in what a mutable argument refers to, an immutable one in what any argument refers to. *)
Definition result_from (arguments : list Value) (t : SignatureToken) (x : Value) : Prop :=
  match t with
  | SignatureToken.MutableReference _ => exists p p', x = Ref true p' /\ Ref true p ∈ arguments /\ p `prefix_of` p'
  | SignatureToken.Reference _ =>
    exists mut_ p p', x = Ref false p' /\ Ref mut_ p ∈ arguments /\ p `prefix_of` p'
  | _ => x = Plain
  end.

(** A mutable reference among the results overlaps none of the others. *)
Definition disjoint (xs : list Value) : Prop :=
  forall i j p mut_ p', i <> j -> xs !! i = Some (Ref true p) -> xs !! j = Some (Ref mut_ p') -> ~ overlap p p'.

(** A call: the handle, the resources acquired, and the types of arguments and results. *)
Record call_to (b : Bytecode) (h : FunctionHandle) (acquired : BTreeSet) (ps rs : Signature) : Prop := {
  ct_handle : called b = Ok (Some h);
  ct_acquired : ReferenceSafety.acquired_resources resolver name_def_map h = Ok acquired;
  ct_parameters : BinaryIndexedView.signature_at resolver h.(FunctionHandle.parameters) = Ok ps;
  ct_return : BinaryIndexedView.signature_at resolver h.(FunctionHandle.return_) = Ok rs;
}.

(** * Steps *)

Inductive step : Bytecode -> Frame -> Frame -> Prop :=
| step_plain b n m S L : plain_effect b = Ok (Some (n, m)) ->
    step b (mk (repeat Plain n ++ S) L) (mk (repeat Plain m ++ S) L)
| step_pop x S L : step Bytecode.Pop (mk (x :: S) L) (mk S L)
| step_copy_loc i x S L : BTreeMap.get i L = Some x -> step (Bytecode.CopyLoc i) (mk S L) (mk (x :: S) L)
| step_move_loc i x S L : BTreeMap.get i L = Some x ->
    step (Bytecode.MoveLoc i) (mk S L) (mk (x :: S) (BTreeMap.remove i L))
| step_st_loc i x S L : 0 <= i < num_locals ->
    step (Bytecode.StLoc i) (mk (x :: S) L) (mk S (BTreeMap.insert i x L))
| step_freeze p S L : step Bytecode.FreezeRef (mk (Ref true p :: S) L) (mk (Ref false p :: S) L)
| step_compare_refs b mut1 p1 mut2 p2 S L : b = Bytecode.Eq \/ b = Bytecode.Neq ->
    step b (mk (Ref mut1 p1 :: Ref mut2 p2 :: S) L) (mk (Plain :: S) L)
| step_compare_values b S L : b = Bytecode.Eq \/ b = Bytecode.Neq ->
    step b (mk (Plain :: Plain :: S) L) (mk (Plain :: S) L)
| step_read_ref mut_ p S L : step Bytecode.ReadRef (mk (Ref mut_ p :: S) L) (mk (Plain :: S) L)
| step_write_ref p S L : step Bytecode.WriteRef (mk (Ref true p :: Plain :: S) L) (mk S L)
| step_borrow_loc (mut_ : bool) i S L : 
    step (if mut_ then Bytecode.MutBorrowLoc i else Bytecode.ImmBorrowLoc i) (mk S L)
      (mk (Ref mut_ [Label.Local i] :: S) L)
| step_borrow_field b (mut_ mut0 : bool) f p S L :
    borrowed_field b = Ok (Some (mut_, f)) -> (mut_ = true -> mut0 = true) ->
    step b (mk (Ref mut0 p :: S) L) (mk (Ref mut_ (p ++ [Label.Field f]) :: S) L)
| step_borrow_global b mut_ sd q S L : borrowed_global b = Ok (Some (mut_, sd)) ->
    step b (mk (Plain :: S) L) (mk (Ref mut_ (Label.Global sd :: q) :: S) L)
| step_move_from b sd S L : moved_global b = Ok (Some sd) -> step b (mk (Plain :: S) L) (mk (Plain :: S) L)
| step_move_to b x mut_ p S L : b = Bytecode.MoveTo x \/ b = Bytecode.MoveToGeneric x ->
    step b (mk (Plain :: Ref mut_ p :: S) L) (mk S L)
| step_vec_len idx mut_ p S L : step (Bytecode.VecLen idx) (mk (Ref mut_ p :: S) L) (mk (Plain :: S) L)
| step_vec_borrow idx (mut_ mut0 : bool) p q S L : (mut_ = true -> mut0 = true) ->
    step (if mut_ then Bytecode.VecMutBorrow idx else Bytecode.VecImmBorrow idx)
      (mk (Plain :: Ref mut0 p :: S) L) (mk (Ref mut_ (p ++ q) :: S) L)
| step_vec_push_back idx p S L :
    step (Bytecode.VecPushBack idx) (mk (Plain :: Ref true p :: S) L) (mk S L)
| step_vec_pop_back idx t p S L :
    ReferenceSafety.vec_element_type resolver idx = Ok t -> SignatureToken.is_reference t = false ->
    step (Bytecode.VecPopBack idx) (mk (Ref true p :: S) L) (mk (Plain :: S) L)
| step_vec_swap idx p S L :
    step (Bytecode.VecSwap idx) (mk (Plain :: Plain :: Ref true p :: S) L) (mk S L)
| step_call b h acquired ps rs arguments results S L :
    call_to b h acquired ps rs -> length arguments = length ps ->
    Forall2 (result_from arguments) rs results -> disjoint results ->
    step b (mk (arguments ++ S) L) (mk (rev results ++ S) L).

(** * What the instructions access *)

(** [accesses b c a p others]: in the frame [c] the instruction accesses the place [p], and
    [others] are the values of the frame apart from the reference it uses for that. *)
Inductive accesses : Bytecode -> Frame -> Access -> place -> list Value -> Prop :=
| copies_local i c : BTreeMap.get i c.(locals) = Some Plain ->
    accesses (Bytecode.CopyLoc i) c Inspect [Label.Local i] (values c)
| moves_local i c : BTreeMap.get i c.(locals) = Some Plain ->
    accesses (Bytecode.MoveLoc i) c Take [Label.Local i] (values c)
| replaces_local i c : BTreeMap.get i c.(locals) = Some Plain ->
    accesses (Bytecode.StLoc i) c Take [Label.Local i] (values c)
| borrows_local i c : accesses (Bytecode.ImmBorrowLoc i) c Inspect [Label.Local i] (values c)
| freezes p S L : accesses Bytecode.FreezeRef (mk (Ref true p :: S) L) Read p (S ++ local_values L)
| compares_first b mut1 p1 mut2 p2 S L : b = Bytecode.Eq \/ b = Bytecode.Neq ->
    accesses b (mk (Ref mut1 p1 :: Ref mut2 p2 :: S) L) Read p1 (Ref mut2 p2 :: S ++ local_values L)
| compares_second b mut1 p1 mut2 p2 S L : b = Bytecode.Eq \/ b = Bytecode.Neq ->
    accesses b (mk (Ref mut1 p1 :: Ref mut2 p2 :: S) L) Read p2 (Ref mut1 p1 :: S ++ local_values L)
| reads mut_ p S L : accesses Bytecode.ReadRef (mk (Ref mut_ p :: S) L) Read p (S ++ local_values L)
| writes p S L : accesses Bytecode.WriteRef (mk (Ref true p :: S) L) Write p (S ++ local_values L)
| borrows_field b f mut_ p S L : borrowed_field b = Ok (Some (false, f)) ->
    accesses b (mk (Ref mut_ p :: S) L) Inspect (p ++ [Label.Field f]) (S ++ local_values L)
| borrows_global b (mut_ : bool) sd c : borrowed_global b = Ok (Some (mut_, sd)) ->
    accesses b c (if mut_ then Take else Inspect) [Label.Global sd] (values c)
| moves_global b sd c : moved_global b = Ok (Some sd) -> accesses b c Take [Label.Global sd] (values c)
| borrows_element idx (mut_ mut0 : bool) p S L : (mut_ = true -> mut0 = true) ->
    accesses (if mut_ then Bytecode.VecMutBorrow idx else Bytecode.VecImmBorrow idx)
      (mk (Plain :: Ref mut0 p :: S) L) (if mut_ then Write else Read) p (S ++ local_values L)
| pushes_back idx p S L :
    accesses (Bytecode.VecPushBack idx) (mk (Plain :: Ref true p :: S) L) Write p (S ++ local_values L)
| pops_back idx p S L :
    accesses (Bytecode.VecPopBack idx) (mk (Ref true p :: S) L) Write p (S ++ local_values L)
| swaps idx p S L :
    accesses (Bytecode.VecSwap idx) (mk (Plain :: Plain :: Ref true p :: S) L) Write p (S ++ local_values L)
| acquires b h acquired ps rs sd c : call_to b h acquired ps rs -> sd ∈ acquired ->
    accesses b c Take [Label.Global sd] (values c)
| passes b h acquired ps rs before p after S L : call_to b h acquired ps rs ->
    length (before ++ Ref true p :: after) = length ps ->
    accesses b (mk ((before ++ Ref true p :: after) ++ S) L) Write p
      ((before ++ after) ++ S ++ local_values L).

(** Every access of the instruction is allowed, and the arguments of a call are as the
    function that is called expects them. *)
Record permitted (b : Bytecode) (c : Frame) : Prop := {
  pm_accesses : forall a p others, accesses b c a p others -> allowed a p others;
  pm_arguments : forall h acquired ps rs arguments S,
    call_to b h acquired ps rs -> c.(stack) = arguments ++ S -> length arguments = length ps -> disjoint arguments;
}.

(** * Runs *)

(** A run of instructions in a row, each of which satisfies [P] in the frame it starts in. *)
Inductive run (P : Bytecode -> Frame -> Prop) : list Bytecode -> Frame -> Frame -> Prop :=
| run_nil c : run P [] c c
| run_cons b bs c c1 c2 : P b c -> step b c c1 -> run P bs c1 c2 -> run P (b :: bs) c c2.
End machine.

(** * Functions *)

(** The frame of a function when it is called. *)
Definition entry_frame (arguments : list Value) : Frame :=
  mk [] (imap (fun i x => (Z.of_nat i, x)) arguments).

(** The value is of the kind that the type says. *)
Definition fits (t : SignatureToken) (x : Value) : Prop :=
  match t with
  | SignatureToken.MutableReference _ => exists p, x = Ref true p
  | SignatureToken.Reference _ => exists p, x = Ref false p
  | _ => x = Plain
  end.

(** What the references to a place outside of the frame refer to. *)
Definition outside (p : place) : Prop := p <> [] /\ rooted p = false.

(** Arguments that a function may be called with: of the kinds of its parameters, outside
    of its frame, and no mutable reference overlaps another one. *)
Record callable (ps : list SignatureToken) (arguments : list Value) : Prop := {
  ca_fits : Forall2 fits ps arguments;
  ca_outside : forall mut_ p, Ref mut_ p ∈ arguments -> outside p;
  ca_disjoint : disjoint arguments;
}.
End Machine.
