(* ===== verification/ReferenceSoundness.v ===== *)
(** Soundness of the operations of reference safety: the abstract state stands for a frame
    of the machine of [PlaceMachine], its checks imply that the accesses are allowed, and
    each operation does not panic and leads to a state that stands for the next frame. *)
From stdpp Require Import relations.
From S2P Require Import Prelude StatusCode Abilities Identifier FileFormat Access BTree FunctionView.
From S2P Require Import BorrowGraph BorrowGraphFacts ReferenceSafety AccessPaths PlaceMachine.
Import ReferenceState Machine.

(** * The frame that a state stands for *)

#[export] Instance mut_dec G a : Decision (mut G a) := decide (mutability G a = Some true).

Definition conc rho G (v : AbstractValue) : Value :=
  match v with
  | AbstractValue.Reference id => Ref (bool_decide (mut G id)) (rho id)
  | AbstractValue.NonReference => Plain
  end.

Definition conc_locals rho G (l : BTreeMap AbstractValue) : BTreeMap Value :=
  map (fun '(i, v) => (i, conc rho G v)) l.
Definition frame_of rho (st : list AbstractValue) (s : AbstractState) : Frame :=
  Machine.mk (map (conc rho s.(borrow_graph)) st) (conc_locals rho s.(borrow_graph) s.(ReferenceState.locals)).

Lemma conc_ref rho G vs mut_ p :
  Ref mut_ p ∈ map (conc rho G) vs ->
  exists b, AbstractValue.Reference b ∈ vs /\ rho b = p /\ (mut_ = true <-> mut G b).
Proof.
  intros ([b|] & Hb & Hin)%list_elem_of_fmap; simplify_eq/=. exists b. by rewrite bool_decide_eq_true.
Qed.

Lemma conc_eq rho rho' G (G' : Graph) b :
  mutability G' b = mutability G b -> rho' b = rho b ->
  conc rho' G' (AbstractValue.Reference b) = conc rho G (AbstractValue.Reference b).
Proof. intros Hm Hr. simpl. rewrite Hr. f_equal. apply bool_decide_ext. unfold mut. by rewrite Hm. Qed.

Lemma conc_inj rho rho' G (G' : Graph) b :
  conc rho' G' (AbstractValue.Reference b) = conc rho G (AbstractValue.Reference b) ->
  rho' b = rho b /\ (mut G' b <-> mut G b).
Proof.
  simpl. intros [= Hm ->]. split; [done|].
  by rewrite <- (bool_decide_eq_true (mut G' b)), <- (bool_decide_eq_true (mut G b)), Hm.
Qed.

(** [Access] on the abstract side. *)
Lemma allowed_conc rho G (a : Access) (p : place) vs :
  (forall b, AbstractValue.Reference b ∈ vs -> p `prefix_of` rho b ->
     match a with
     | Read => mut G b -> rho b = p
     | Write => mut G b /\ rho b = p
     | Inspect => ~ mut G b
     | Take => False
     end) -> allowed a p (map (conc rho G) vs).
Proof.
  intros H mut_ p' (b & Hb & <- & Hm)%conc_ref Hp. specialize (H b Hb Hp). destruct a; simpl in *; try tauto.
  destruct mut_; [|done]. exfalso. by apply H, Hm.
Qed.

Section allowed.
Context (rho : RefID -> place) (root : RefID) (G : Graph) (L : list RefID).
Hypothesis (HA : aliasing rho root G L).

Lemma write_ok id b :
  id ∈ L -> mut G id ->
  (forall c es (e : Edge), out G id c = Some es -> e ∈ es.(BorrowEdgeSet.edges) -> False) ->
  b ∈ L -> b <> id -> rho id `prefix_of` rho b -> mut G b /\ rho b = rho id.
Proof using HA.
  intros Hid Hm Hno Hb Hne Hp.
  destruct (al_overlap _ _ _ _ HA id b) as [Ht|[Hmb Ht]]; [done|done|by apply not_eq_sym|done|by left|..].
  - destruct (tracked_first _ _ _ _ Ht) as (c & es & e & q & Hes & He & _); [done|]. by destruct (Hno c es e).
  - split; [done|]. apply prefix_antisym; [by eapply tracked_prefix|done].
Qed.

Lemma read_ok id b :
  id ∈ L ->
  (mut G id -> forall c es (e : Edge), out G id c = Some es -> e ∈ es.(BorrowEdgeSet.edges) -> ~ mut G c) ->
  b ∈ L -> b <> id -> mut G b -> rho id `prefix_of` rho b -> rho b = rho id.
Proof using HA.
  intros Hid Hno Hb Hne Hmb Hp.
  destruct (al_overlap _ _ _ _ HA b id) as [Ht|[Hm Ht]]; [done|done|done|done|by right|..].
  - apply prefix_antisym; [by eapply tracked_prefix|done].
  - exfalso. revert Hmb. apply (tracked_below rho G id b None); [done|done| |by intros []|].
    + intros c Hcb. by apply (mut_tracked _ _ _ _ HA).
    + intros c es e Hes He _. by eapply Hno.
Qed.

Lemma frame_ok l (P : RefID -> Prop) b :
  rooted [l] = true -> (forall c d, tracked rho G c d -> P d -> P c) ->
  (forall c es (e : Edge), out G root c = Some es -> e ∈ es.(BorrowEdgeSet.edges) ->
     compatible (Some l) e.(BorrowEdge.path) -> ~ P c) ->
  b ∈ L -> [l] `prefix_of` rho b -> ~ P b.
Proof using HA.
  intros Hl HP Hno Hb Hp. apply (tracked_below rho G root b (Some l)); [|by apply (live_not_root _ _ _ _ HA)|..].
  - apply (al_rooted _ _ _ _ HA); [done|]. by rewrite (rooted_prefix [l]).
  - intros c. apply HP.
  - intros r. rewrite (al_frame _ _ _ _ HA). intros Hr. destruct Hp as [t Ht]. rewrite Hr in Ht. simpl in Ht. by subst r.
  - done.
Qed.

Lemma field_ok id l b :
  id ∈ L ->
  (mut G id -> forall c es (e : Edge), out G id c = Some es -> e ∈ es.(BorrowEdgeSet.edges) ->
     compatible (Some l) e.(BorrowEdge.path) -> ~ mut G c) ->
  b ∈ L -> rho id ++ [l] `prefix_of` rho b -> ~ mut G b.
Proof using HA.
  intros Hid Hno Hb Hp Hmb. assert (forall x, rho b `prefix_of` rho id -> x) as Hlong.
  { intros x Hx. apply prefix_length in Hp, Hx. rewrite length_app in Hp. simpl in Hp. lia. }
  assert (b <> id) as Hne by (intros ->; by apply Hlong).
  assert (rho id `prefix_of` rho b) as Hp'.
  { etransitivity; [|exact Hp]. by exists [l]. }
  destruct (al_overlap _ _ _ _ HA b id) as [Ht|[Hm Ht]]; [done|done|done|done|by right|..].
  - by apply Hlong, (tracked_prefix _ _ _ _ Ht).
  - revert Hmb. apply (tracked_below rho G id b (Some l)); [done|done| | |by apply Hno].
    + intros c Hcb. by apply (mut_tracked _ _ _ _ HA).
    + intros r Hr. destruct Hp as [t Ht']. rewrite Hr, <- (assoc_L (++)) in Ht'. apply app_inv_head in Ht'. by subst r.
Qed.
End allowed.

(** * States *)

Definition refs (vs : list AbstractValue) : list RefID := omap AbstractValue.ref_id vs.

Lemma elem_of_refs vs b : b ∈ refs vs <-> AbstractValue.Reference b ∈ vs.
Proof.
  unfold refs. rewrite list_elem_of_omap. split; [intros ([c|] & Hc & Heq); by simplify_eq/=|]. intros Hb. by eexists.
Qed.

(** The values in locals. *)
Definition stored (s : AbstractState) : list AbstractValue := map snd s.(ReferenceState.locals).

(** [st]: the values on the stack and in use. *)
Record state_ok rho (st : list AbstractValue) (s : AbstractState) : Prop := {
  so_aliasing : aliasing rho (frame_root s) s.(borrow_graph) (refs (st ++ stored s));
  so_fresh : forall a, is_Some (mutability s.(borrow_graph) a) -> a < s.(next_id);
  so_sorted : BTreeMap.sorted s.(ReferenceState.locals);
  so_locals : forall i v, BTreeMap.get i s.(ReferenceState.locals) = Some v -> 0 <= i < s.(num_locals);
}.

#[export] Instance state_ok_perm rho : Proper (Permutation ==> eq ==> iff) (state_ok rho).
Proof.
  assert (forall st st' s, st ≡ₚ st' -> state_ok rho st s -> state_ok rho st' s) as H.
  { intros st st' s Hst [H1 H2 H3 H4]. split; try done. unfold refs in *. by rewrite <- Hst. }
  intros st st' Hst s _ <-. split; by apply H.
Qed.

(** What does not change between two states. *)
Definition same_frame rho rho' (st : list AbstractValue) (s s' : AbstractState) : Prop :=
  s'.(num_locals) = s.(num_locals) /\ s'.(ReferenceState.locals) = s.(ReferenceState.locals) /\
  forall v, v ∈ st ++ stored s -> conc rho' s'.(borrow_graph) v = conc rho s.(borrow_graph) v.

Lemma same_frame_stack rho rho' st s s' vs :
  same_frame rho rho' st s s' -> (forall v, v ∈ vs -> v ∈ st) ->
  map (conc rho' s'.(borrow_graph)) vs = map (conc rho s.(borrow_graph)) vs.
Proof.
  intros (_ & _ & H) Hvs. apply map_ext_in. intros v Hv%list_elem_of_In. apply H, elem_of_app. left. by apply Hvs.
Qed.

Lemma same_frame_locals rho rho' st s s' :
  same_frame rho rho' st s s' ->
  conc_locals rho' s'.(borrow_graph) s'.(ReferenceState.locals) =
  conc_locals rho s.(borrow_graph) s.(ReferenceState.locals).
Proof.
  intros (_ & -> & H). apply map_ext_in. intros [i v] Hv. f_equal. apply H, elem_of_app. right.
  apply list_elem_of_In, in_map_iff. by exists (i, v).
Qed.

Lemma same_frame_eq rho rho' st s s' : same_frame rho rho' st s s' -> frame_of rho' st s' = frame_of rho st s.
Proof.
  intros H. unfold frame_of. rewrite (same_frame_stack rho rho' st s s' st H) by done.
  by rewrite (same_frame_locals rho rho' st s s' H).
Qed.

Lemma same_frame_trans rho1 rho2 rho3 st st' s1 s2 s3 :
  same_frame rho1 rho2 st s1 s2 -> same_frame rho2 rho3 st' s2 s3 -> (forall v, v ∈ st' -> v ∈ st) ->
  same_frame rho1 rho3 st' s1 s3.
Proof.
  intros (N1 & L1 & H1) (N2 & L2 & H2) Hst. split; [congruence|]. split; [congruence|]. unfold stored in *.
  intros v Hv. rewrite H2 by (by rewrite L1). apply H1. set_solver.
Qed.

Lemma same_frame_refl rho st s : same_frame rho rho st s s.
Proof. done. Qed.

(** * Running operations *)

(** [m] does not panic, and if it succeeds the result and the state satisfy [Q]. *)
Definition wp {A} (m : M A) (s : AbstractState) (Q : A -> AbstractState -> Prop) : Prop :=
  match m s with
  | Ok (a, s') => Q a s'
  | Err _ => True
  | Panic | OutOfFuel => False
  end.

Section wp.
Context {A B : Type} (s : AbstractState).

Lemma wp_bind (m : M A) (f : A -> M B) Q : wp m s (fun a s' => wp (f a) s' Q) -> wp (a ← m; f a) s Q.
Proof. unfold wp, mbind, ST_bind. by destruct (m s) as [[a s']| | |]. Qed.

Lemma wp_run (m : M A) a s' (Q : A -> AbstractState -> Prop) : m s = Ok (a, s') -> Q a s' -> wp m s Q.
Proof. unfold wp. by intros ->. Qed.

Lemma wp_ret (a : A) (Q : A -> AbstractState -> Prop) : Q a s -> wp (mret a) s Q.
Proof. done. Qed.

Lemma wp_ask (f : AbstractState -> result StatusCode A) a (Q : A -> AbstractState -> Prop) :
  f s = Ok a -> Q a s -> wp (ask f) s Q.
Proof. unfold wp, ask. by intros ->. Qed.

Lemma wp_fail_if b e (Q : () -> AbstractState -> Prop) : (b = false -> Q () s) -> wp (fail_if b e) s Q.
Proof. destruct b; [done|]. intros H. by apply H. Qed.

Lemma wp_mono (m : M A) (Q Q' : A -> AbstractState -> Prop) :
  wp m s Q -> (forall a s', Q a s' -> Q' a s') -> wp m s Q'.
Proof. unfold wp. destruct (m s) as [[a s']| | |]; auto. Qed.
End wp.

(** * Release and new references *)

Lemma release_sound rho id st s :
  state_ok rho (AbstractValue.Reference id :: st) s ->
  wp (release id) s (fun _ s' => state_ok rho st s' /\ same_frame rho rho st s s').
Proof.
  intros [H1 H2 H3 H4]. cbn in H1. destruct (release_aliasing _ _ _ _ _ H1) as (G' & HR & HA & Hm & _).
  eapply wp_run; [unfold release, on_graph; by rewrite HR|].
  assert (is_Some (mutability G' id) -> False) as Hgone.
  { intros Hid. apply (al_nodes _ _ _ _ HA) in Hid. pose proof (al_nodup _ _ _ _ H1) as Hnd.
    apply list.NoDup_cons in Hnd as [Hr [Hl _]%list.NoDup_cons]. destruct Hid as [-> |?]; [|done]. apply Hr. by left. }
  split; [split; try done|split; [done|split; [done|]]].
  - intros a Ha. apply H2. simpl in Ha. destruct (decide (a = id)) as [-> |Hne]; [by destruct Hgone|].
    simpl. by rewrite <- Hm.
  - intros [b|] Hb; [|done]. apply conc_eq; [|done]. apply Hm.
    intros ->. apply Hgone. apply (al_nodes _ _ _ _ HA). right. by apply elem_of_refs.
Qed.

Lemma release_value_sound rho v st s :
  state_ok rho (v :: st) s ->
  wp (release_value v) s (fun _ s' => state_ok rho st s' /\ same_frame rho rho st s s').
Proof. destruct v as [id|]; simpl; [apply release_sound|]. intros H. apply wp_ret. split; [by destruct H|done]. Qed.

(** The paths with one more reference. *)
Definition upd rho (n : RefID) (p : place) : RefID -> place := fun a => if a =? n then p else rho a.

Lemma upd_eq rho n p : upd rho n p n = p.
Proof. unfold upd. by rewrite Z.eqb_refl. Qed.
Lemma upd_ne rho n p a : a <> n -> upd rho n p a = rho a.
Proof. unfold upd. intros Ha. by rewrite (proj2 (Z.eqb_neq _ _) Ha). Qed.

Section new.
Context (rho : RefID -> place) (st : list AbstractValue) (s : AbstractState) (mu : bool) (p0 : place).
Hypothesis (HS : state_ok rho st s).
Abbreviation n := (s.(next_id)).
Abbreviation rho' := (upd rho n p0).

Lemma next_fresh : mutability s.(borrow_graph) n = None.
Proof using HS.
  destruct (mutability _ n) as [m|] eqn:E; [|done]. assert (n < n); [|lia]. apply (so_fresh _ _ _ HS). by exists m.
Qed.

Lemma upd_node a : is_Some (mutability s.(borrow_graph) a) -> rho' a = rho a.
Proof using HS. intros Ha. apply upd_ne. intros ->. rewrite next_fresh in Ha. by destruct Ha. Qed.

Lemma upd_aliasing : aliasing rho' (frame_root s) s.(borrow_graph) (refs (st ++ stored s)).
Proof using HS. apply (aliasing_cong rho); [apply HS|]. intros a Ha. by apply upd_node. Qed.

(** The state once the graph has the new reference. *)
Lemma new_state (G2 : Graph) :
  aliasing rho' (frame_root s) G2 (n :: refs (st ++ stored s)) ->
  (forall a, mutability G2 a = if a =? n then Some mu else mutability s.(borrow_graph) a) ->
  let s' := set_graph G2 (set_next_id (n + 1) s) in
  state_ok rho' (AbstractValue.Reference n :: st) s' /\ same_frame rho rho' st s s' /\
  conc rho' G2 (AbstractValue.Reference n) = Ref mu p0.
Proof using HS.
  intros HA Hm s'. split; [split; [exact HA| |apply HS|apply HS]|split; [split; [done|split; [done|]]|]].
  - intros a Ha. unfold s' in *. simpl in *. rewrite Hm in Ha. destruct (Z.eqb_spec a (next_id s)) as [Heq|Hne]; [lia|].
    apply (so_fresh _ _ _ HS) in Ha. lia.
  - intros [b|] Hb; [|done]. assert (is_Some (mutability (borrow_graph s) b)) as Hnode.
    { apply (al_nodes _ _ _ _ (so_aliasing _ _ _ HS)). right. by apply elem_of_refs. }
    apply conc_eq; [|by apply upd_node]. simpl. rewrite (Hm b), (proj2 (Z.eqb_neq b n)); [done|].
    intros ->. rewrite next_fresh in Hnode. by destruct Hnode.
  - simpl. rewrite upd_eq. f_equal. specialize (Hm n). rewrite Z.eqb_refl in Hm. unfold mut. destruct mu.
    + by apply bool_decide_eq_true.
    + apply bool_decide_eq_false. congruence.
Qed.
End new.

(** [s'] is [s] with a new reference, on top of the stack, to [p]. *)
Definition borrowed rho (st : list AbstractValue) (s : AbstractState) (mu : bool) (p : place) (s' : AbstractState) : Prop :=
  let rho' := upd rho s.(next_id) p in
  state_ok rho' (AbstractValue.Reference s.(next_id) :: st) s' /\ same_frame rho rho' st s s' /\
  conc rho' s'.(borrow_graph) (AbstractValue.Reference s.(next_id)) = Ref mu p.

Lemma new_ref_run (s : AbstractState) (mu : bool) (G1 : Graph) :
  BorrowGraph.new_ref s.(next_id) mu s.(borrow_graph) = (Ok ((), G1) : result StatusCode _) ->
  ReferenceState.new_ref mu s = Ok (s.(next_id), set_next_id (s.(next_id) + 1) (set_graph G1 s)).
Proof. intros HR. unfold ReferenceState.new_ref, on_graph. by rewrite HR. Qed.

Section borrow.
Context (rho : RefID -> place) (st : list AbstractValue) (s : AbstractState) (mu : bool) (p : RefID) (path : place).
Hypothesis (HS : state_ok rho st s).
Abbreviation G := (s.(borrow_graph)).
Abbreviation L := (refs (st ++ stored s)).
Abbreviation root := (frame_root s).

Lemma upd_tracked p0 a b : tracked rho G a b <-> tracked (upd rho s.(next_id) p0) G a b.
Proof using HS.
  pose proof (al_graph _ _ _ _ (so_aliasing _ _ _ HS)) as HG.
  split; apply tracked_cong; try done; intros c Hc; [|symmetry]; by apply (upd_node rho st).
Qed.

(** The premises of [strong_aliasing] on the paths before the borrow. *)
Record strong_ok : Prop := {
  sk_parent : p = root \/ p ∈ L;
  sk_mut : mu = true -> mut G p;
  sk_moved : mu = false -> forall c es (e : Edge), out G p c = Some es -> e ∈ es.(BorrowEdgeSet.edges) ->
    path `prefix_of` e.(BorrowEdge.path) -> ~ mut G c;
  sk_place : rho p ++ path <> [];
  sk_rooted : rooted (rho p ++ path) = true -> tracked rho G root p;
  sk_overlap : forall a, a ∈ L -> mut G a \/ mu = true -> overlap (rho a) (rho p ++ path) ->
    (mut G a /\ tracked rho G a p) \/ (mu = true /\ below rho G p path a);
}.

Lemma strong_sound :
  strong_ok ->
  exists s1 s2, ReferenceState.new_ref mu s = Ok (s.(next_id), s1) /\
    s1.(num_locals) = s.(num_locals) /\
    on_graph (BorrowGraph.factor p tt path s.(next_id)) s1 = Ok ((), s2) /\
    borrowed rho st s mu (rho p ++ path) s2.
Proof using HS.
  intros [H1 H2 H3 HP H4 H5]. set (p0 := rho p ++ path) in *. pose proof (so_aliasing _ _ _ HS) as HA.
  assert (forall a, a = root \/ a ∈ L -> upd rho s.(next_id) p0 a = rho a) as Hu.
  { intros a Ha. by apply (upd_node rho st), (al_nodes _ _ _ _ HA). }
  destruct (strong_aliasing (upd rho s.(next_id) p0) root G L s.(next_id) mu p path) as (G1 & G2 & R1 & R2 & HA2 & Hm).
  - by apply upd_aliasing.
  - by eapply next_fresh.
  - done.
  - done.
  - done.
  - by rewrite upd_eq, Hu.
  - by rewrite upd_eq.
  - rewrite upd_eq. intros Hr. by apply upd_tracked, H4.
  - intros a Ha Hor. rewrite upd_eq, Hu by (by right). intros Ho.
    destruct (H5 a Ha Hor Ho) as [[? ?]|[? (c & es & e & q & Hes & He & Hpre & Hq & Hc & Hca)]]; [left|right; split; [done|]].
    + split; [done|]. by apply upd_tracked.
    + exists c, es, e, q. rewrite (Hu p H1). assert (upd rho s.(next_id) p0 c = rho c) as ->.
      { apply (upd_node rho st); [done|]. destruct (al_graph _ _ _ _ HA) as [_ [Hoi _]]. eapply inn_node, Hoi. by exists es. }
      repeat (split; [done|]). by apply upd_tracked.
  - eexists _, _. split; [by apply new_ref_run|]. split; [done|]. split; [unfold on_graph; simpl; by rewrite R2|].
    by apply (new_state rho st s mu p0 HS G2).
Qed.
End borrow.

(** Weak borrows at [path] from each of [ps], of a place below [p0]. *)
Lemma weak_sound rho st s mu ps path p0 p' :
  state_ok rho st s ->
  (forall p, p ∈ ps -> (p = frame_root s \/ p ∈ refs (st ++ stored s)) /\ (mu = true -> mut s.(borrow_graph) p)) ->
  p0 ∈ ps -> rho p0 ++ path `prefix_of` p' -> p' <> [] -> (rooted p' = true -> tracked rho s.(borrow_graph) (frame_root s) p0) ->
  (forall a, a ∈ refs (st ++ stored s) -> mut s.(borrow_graph) a \/ mu = true -> overlap (rho a) p' ->
     mut s.(borrow_graph) a /\ tracked rho s.(borrow_graph) a p0) ->
  exists s1 s2, ReferenceState.new_ref mu s = Ok (s.(next_id), s1) /\
    s1.(num_locals) = s.(num_locals) /\
    st_for ps (fun p => on_graph (BorrowGraph.add_path p tt false path s.(next_id))) s1 = Ok ((), s2) /\
    borrowed rho st s mu p' s2 /\
    (forall a b, tracked rho s.(borrow_graph) a b -> tracked (upd rho s.(next_id) p') s2.(borrow_graph) a b).
Proof.
  intros HS Hps Hp0 Hp' Hplace Hroot Hov. pose proof (so_aliasing _ _ _ HS) as HA. set (L := refs (st ++ stored s)) in *.
  assert (forall a, a = frame_root s \/ a ∈ L -> upd rho s.(next_id) p' a = rho a) as Hu.
  { intros a Ha. by apply (upd_node rho st), (al_nodes _ _ _ _ HA). }
  destruct (weak_aliasing (upd rho s.(next_id) p') (frame_root s) s.(borrow_graph) L s.(next_id) mu ps path p0)
    as (G1 & G2 & R1 & R2 & HA2 & Hm & Ht).
  - by apply upd_aliasing.
  - by eapply next_fresh.
  - done.
  - done.
  - rewrite upd_eq, Hu; [done|]. by apply Hps.
  - by rewrite upd_eq.
  - rewrite upd_eq. intros Hr. by apply (upd_tracked rho st), Hroot.
  - intros a Ha Hor. rewrite upd_eq, Hu by (by right). intros Ho. destruct (Hov a Ha Hor Ho) as [? ?].
    split; [done|]. by apply (upd_tracked rho st).
  - eexists _, _. split; [by apply new_ref_run|]. split; [done|].
    assert (forall l g g' s0, st_for l (fun p => BorrowGraph.add_path p tt false path s.(next_id)) g =
        (Ok ((), g') : result StatusCode _) ->
      st_for l (fun p => on_graph (BorrowGraph.add_path p tt false path s.(next_id))) (set_graph g s0) =
        Ok ((), set_graph g' s0)) as Hlift.
    { induction l as [|x l IH]; intros g g' s0; cbn [st_for]; unfold mret, ST_ret; [by intros [= ->]|].
      unfold mbind, ST_bind. intros Hg.
      destruct (BorrowGraph.add_path x tt false path (next_id s) g) as [[[] g1]| | |] eqn:E; try done.
      unfold on_graph at 1. simpl. rewrite E. simpl. exact (IH g1 g' s0 Hg). }
    split; [|split].
    + exact (Hlift ps G1 G2 (set_next_id (s.(next_id) + 1) s) R2).
    + by apply (new_state rho st s mu p' HS G2).
    + intros a b Hab. by apply Ht, (upd_tracked rho st).
Qed.

(** * The checks *)

Lemma local_values_conc rho G l : local_values (conc_locals rho G l) = map (conc rho G) (map snd l).
Proof. unfold local_values, conc_locals. rewrite !map_map. apply map_ext. by intros []. Qed.

Lemma values_frame rho st s : values (frame_of rho st s) = map (conc rho s.(borrow_graph)) (st ++ stored s).
Proof. unfold values. simpl. by rewrite local_values_conc, map_app. Qed.

Section checks.
Context (rho : RefID -> place) (st : list AbstractValue) (s : AbstractState).
Hypothesis (HS : state_ok rho st s).
Abbreviation G := (s.(borrow_graph)).
Abbreviation L := (refs (st ++ stored s)).
Abbreviation root := (frame_root s).

Lemma live_value id : AbstractValue.Reference id ∈ st ++ stored s -> id ∈ L.
Proof using. by rewrite elem_of_refs. Qed.

Lemma graph_valid : graph_ok G.
Proof using HS. apply (al_graph _ _ _ _ (so_aliasing _ _ _ HS)). Qed.

Lemma live_tracked id : id = root \/ id ∈ L -> is_Some (mutability G id).
Proof using HS. apply (al_nodes _ _ _ _ (so_aliasing _ _ _ HS)). Qed.

Lemma is_mutable_live id : id ∈ L -> is_mutable id s = Ok (bool_decide (mut G id)).
Proof using HS.
  intros Hid. destruct (live_tracked id) as [mu Hmu]; [by right|]. rewrite (is_mutable_ok _ _ _ Hmu). f_equal. unfold mut.
  destruct mu; symmetry; [by apply bool_decide_eq_true|]. apply bool_decide_eq_false. congruence.
Qed.

Lemma is_writable_ok id :
  id ∈ L -> mut G id ->
  exists b : bool, is_writable id s = Ok b /\
    (b = true -> forall c es (e : Edge), out G id c = Some es -> e ∈ es.(BorrowEdgeSet.edges) -> False).
Proof using HS.
  intros Hid Hm. unfold is_writable. rewrite is_mutable_live, (bool_decide_eq_true_2 _ Hm) by done.
  cbn [mbind result_bind debug_assert].
  destruct (has_consistent_borrows_ok s id graph_valid (live_tracked id (or_intror Hid)) None) as (b & -> & Hb).
  exists (negb b). split; [done|]. intros Hf%negb_true_iff c es e Hes He. apply (Hb Hf c es e Hes He).
  unfold compatible. by destruct (BorrowEdge.path e).
Qed.

Lemma is_freezable_ok id f :
  id ∈ L -> mut G id ->
  exists b : bool, is_freezable id f s = Ok b /\
    (b = true -> forall c es (e : Edge), out G id c = Some es -> e ∈ es.(BorrowEdgeSet.edges) ->
       compatible (option_map Label.Field f) e.(BorrowEdge.path) -> ~ mut G c).
Proof using HS.
  intros Hid Hm. unfold is_freezable. rewrite is_mutable_live, (bool_decide_eq_true_2 _ Hm) by done.
  cbn [mbind result_bind debug_assert].
  destruct (has_consistent_mutable_borrows_ok s id graph_valid (live_tracked id (or_intror Hid))
    (option_map Label.Field f)) as (b & -> & Hb).
  exists (negb b). split; [done|]. intros Hf%negb_true_iff. by apply Hb.
Qed.

Lemma is_readable_ok id f :
  id ∈ L ->
  exists b : bool, is_readable id f s = Ok b /\
    (b = true -> mut G id -> forall c es (e : Edge), out G id c = Some es -> e ∈ es.(BorrowEdgeSet.edges) ->
       compatible (option_map Label.Field f) e.(BorrowEdge.path) -> ~ mut G c).
Proof using HS.
  intros Hid. unfold is_readable. rewrite is_mutable_live by done. cbn [mbind result_bind].
  destruct (decide (mut G id)) as [Hm|Hm].
  - rewrite (bool_decide_eq_true_2 _ Hm). cbn [negb]. destruct (is_freezable_ok id f Hid Hm) as (b & -> & Hb).
    exists b. split; [done|]. by intros Hb' _; apply Hb.
  - rewrite (bool_decide_eq_false_2 _ Hm). cbn [negb]. by exists true.
Qed.

Lemma frame_borrowed_ok l :
  exists b : bool, has_consistent_borrows root (Some l) s = Ok b /\
    (b = false -> rooted [l] = true -> (forall a, a ∈ L -> [l] `prefix_of` rho a -> False) /\
       allowed Take [l] (values (frame_of rho st s))).
Proof using HS.
  destruct (has_consistent_borrows_ok s root graph_valid (live_tracked root (or_introl eq_refl)) (Some l)) as (b & -> & Hb).
  exists b. split; [done|]. intros Hf Hl.
  assert (forall a, a ∈ L -> [l] `prefix_of` rho a -> False) as Hid.
  { intros a Ha Hp. apply (frame_ok _ _ _ _ (so_aliasing _ _ _ HS) l (fun _ => True) a); try done.
    intros c es e Hes He Hcomp _. by apply (Hb Hf c es e). }
  split; [done|]. rewrite values_frame. apply allowed_conc. intros b' Hb'%live_value Hp. by apply (Hid b').
Qed.

Lemma frame_mutably_borrowed_ok l :
  exists b : bool, has_consistent_mutable_borrows root (Some l) s = Ok b /\
    (b = false -> (forall c es (e : Edge), out G root c = Some es -> e ∈ es.(BorrowEdgeSet.edges) ->
       compatible (Some l) e.(BorrowEdge.path) -> ~ mut G c) /\
       (rooted [l] = true -> (forall a, a ∈ L -> [l] `prefix_of` rho a -> ~ mut G a) /\
          allowed Inspect [l] (values (frame_of rho st s)))).
Proof using HS.
  destruct (has_consistent_mutable_borrows_ok s root graph_valid (live_tracked root (or_introl eq_refl)) (Some l))
    as (b & -> & Hb).
  exists b. split; [done|]. intros Hf. split; [by apply Hb|]. intros Hl.
  assert (forall a, a ∈ L -> [l] `prefix_of` rho a -> ~ mut G a) as Hid.
  { intros a Ha Hp. apply (frame_ok _ _ _ _ (so_aliasing _ _ _ HS) l (mut G) a); try done; [|by apply Hb].
    intros c d Hcd. by apply (mut_tracked _ _ _ _ (so_aliasing _ _ _ HS)). }
  split; [done|]. rewrite values_frame. apply allowed_conc. intros b' Hb'%live_value Hp. by apply (Hid b').
Qed.
End checks.

(** What a check of the operand [id] allows, with [vs] the other values in use. *)
Section operand.
Context (rho : RefID -> place) (id : RefID) (vs : list AbstractValue) (s : AbstractState).
Hypothesis (HS : state_ok rho (AbstractValue.Reference id :: vs) s).
Abbreviation G := (s.(borrow_graph)).

Lemma operand_live : id ∈ refs ((AbstractValue.Reference id :: vs) ++ stored s).
Proof using. apply elem_of_refs. by left. Qed.

Lemma other_live b :
  AbstractValue.Reference b ∈ vs ++ stored s -> b ∈ refs ((AbstractValue.Reference id :: vs) ++ stored s) /\ b <> id.
Proof using HS.
  intros Hb%elem_of_refs. pose proof (al_nodup _ _ _ _ (so_aliasing _ _ _ HS)) as Hnd.
  apply list.NoDup_cons in Hnd as [_ Hnd]. cbn in Hnd. apply list.NoDup_cons in Hnd as [Hid _].
  split; [by right|]. by intros ->.
Qed.

Lemma write_allowed :
  mut G id ->
  (forall c es (e : Edge), out G id c = Some es -> e ∈ es.(BorrowEdgeSet.edges) -> False) ->
  allowed Write (rho id) (map (conc rho G) (vs ++ stored s)).
Proof using HS.
  intros Hm Hno. apply allowed_conc. intros b [Hb Hne]%other_live Hp.
  by apply (write_ok _ _ _ _ (so_aliasing _ _ _ HS) id b operand_live).
Qed.

Lemma read_allowed :
  (mut G id -> forall c es (e : Edge), out G id c = Some es -> e ∈ es.(BorrowEdgeSet.edges) -> ~ mut G c) ->
  allowed Read (rho id) (map (conc rho G) (vs ++ stored s)).
Proof using HS.
  intros Hno. apply allowed_conc. intros b [Hb Hne]%other_live Hp Hm.
  by apply (read_ok _ _ _ _ (so_aliasing _ _ _ HS) id b operand_live).
Qed.

Lemma field_allowed f :
  (mut G id -> forall c es (e : Edge), out G id c = Some es -> e ∈ es.(BorrowEdgeSet.edges) ->
     compatible (Some f) e.(BorrowEdge.path) -> ~ mut G c) ->
  allowed Inspect (rho id ++ [f]) (map (conc rho G) (vs ++ stored s)).
Proof using HS.
  intros Hno. apply allowed_conc. intros b [Hb Hne]%other_live Hp.
  by apply (field_ok _ _ _ _ (so_aliasing _ _ _ HS) id f b operand_live).
Qed.
End operand.
