(* ===== verification/ReferenceSteps.v ===== *)
(** The steps of reference safety.  First the operations of
    reference_safety/abstract_state.rs, one by one, on references, locals and calls: none
    panics on a state that stands for a frame, what it checks allows the access, and the
    state after it stands for the frame after it.  Then the instructions: [execute_inner] on
    a state that stands for the frame before a step does not panic and, if it succeeds,
    everything that the instruction accesses is allowed and the new state stands for the
    frame after the step. *)
From stdpp Require Import relations.
From S2P Require Import Prelude StatusCode Abilities Identifier FileFormat Access BTree FunctionView.
From S2P Require Import BorrowGraph BorrowGraphFacts ReferenceSafety AccessPaths PlaceMachine.
From S2P Require Import ReferenceSoundness.
Import ReferenceState Machine.

(** * Maps of locals *)

Section values.
Context {V : Set}.
Implicit Types (m : BTreeMap V).

Lemma values_remove k v m : BTreeMap.get k m = Some v -> map snd m ≡ₚ v :: map snd (BTreeMap.remove k m).
Proof.
  induction m as [|[k' w] m IH]; simpl; [done|]. destruct (k =? k'); [by intros [= ->]|]. intros Hk. simpl.
  rewrite (IH Hk). apply Permutation_swap.
Qed.

Lemma values_insert_new k v m : BTreeMap.get k m = None -> map snd (BTreeMap.insert k v m) ≡ₚ v :: map snd m.
Proof.
  induction m as [|[k' w] m IH]; simpl; [done|]. destruct (k =? k') eqn:E; [done|]. intros Hk.
  destruct (k <? k'); simpl; [done|]. rewrite (IH Hk). apply Permutation_swap.
Qed.

Lemma values_insert_old k v w m :
  BTreeMap.sorted m -> BTreeMap.get k m = Some w -> w :: map snd (BTreeMap.insert k v m) ≡ₚ v :: map snd m.
Proof.
  unfold BTreeMap.sorted. induction m as [|[k' x] m IH]; simpl; [done|]. intros Hs. inversion Hs as [|? ? Hs' Hk']; subst.
  destruct (Z.eqb_spec k k') as [-> |Hne].
  - intros [= ->]. rewrite (proj2 (Z.ltb_ge k' k')) by lia. simpl. apply Permutation_swap.
  - intros Hk. destruct (Z.ltb_spec k k') as [Hlt|_].
    + exfalso. assert (k ∈ BTreeMap.keys m) as Hin by (apply BTreeMap.elem_of_keys; by exists w).
      rewrite Forall_forall in Hk'. apply list_elem_of_In, Hk' in Hin. lia.
    + simpl. rewrite Permutation_swap, (IH Hs' Hk). apply Permutation_swap.
Qed.
End values.

Section conc_locals.
Context (rho : RefID -> place) (G : Graph).

Lemma conc_get i l : BTreeMap.get i (conc_locals rho G l) = conc rho G <$> BTreeMap.get i l.
Proof. induction l as [|[j v] l IH]; simpl; [done|]. by destruct (i =? j). Qed.

Lemma conc_remove i l : conc_locals rho G (BTreeMap.remove i l) = BTreeMap.remove i (conc_locals rho G l).
Proof. induction l as [|[j v] l IH]; simpl; [done|]. destruct (i =? j); simpl; [done|]. by rewrite <- IH. Qed.

Lemma conc_insert i v l :
  conc_locals rho G (BTreeMap.insert i v l) = BTreeMap.insert i (conc rho G v) (conc_locals rho G l).
Proof.
  induction l as [|[j w] l IH]; simpl; [done|]. destruct (i <? j); simpl; [done|].
  destruct (i =? j); simpl; [done|]. by rewrite <- IH.
Qed.
End conc_locals.

(** * Results *)

(** The operation returns [v], which stands for [x]; the rest of the frame is as before. *)
Definition leads rho (st : list AbstractValue) (s : AbstractState) (x : Value) (v : AbstractValue) (s' : AbstractState) : Prop :=
  exists rho', state_ok rho' (v :: st) s' /\ same_frame rho rho' st s s' /\ conc rho' s'.(borrow_graph) v = x.

Lemma leads_plain rho st s : state_ok rho st s -> leads rho st s Plain AbstractValue.NonReference s.
Proof. intros HS. exists rho. split; [by destruct HS|]. split; [apply same_frame_refl|done]. Qed.

Lemma borrowed_leads rho st s mu p s' :
  borrowed rho st s mu p s' -> leads rho st s (Ref mu p) (AbstractValue.Reference s.(next_id)) s'.
Proof. intros (H1 & H2 & H3). by eexists. Qed.

(** The operand of an instruction is released last. *)
Lemma release_leads rho id st s x v s1 :
  leads rho (AbstractValue.Reference id :: st) s x v s1 ->
  wp (release id) s1 (fun _ s' => leads rho st s x v s').
Proof.
  intros (rho1 & H1 & H2 & H3).
  assert (state_ok rho1 (AbstractValue.Reference id :: v :: st) s1) as H1'.
  { by rewrite (Permutation_swap v (AbstractValue.Reference id)). }
  eapply wp_mono; [by apply release_sound|]. intros _ s' [H4 H5]. exists rho1. split; [done|]. split.
  - eapply same_frame_trans; [exact H2| |]. 2: by intros v' Hv'; right.
    destruct H5 as (N & Lc & H5). split; [done|]. split; [done|]. intros v' Hv'. apply H5. set_solver.
  - rewrite <- H3. apply H5. set_solver.
Qed.

Lemma in_frame_tracked rho (st : list AbstractValue) s id :
  state_ok rho st s -> id ∈ refs (st ++ stored s) -> rooted (rho id) = true ->
  tracked rho s.(borrow_graph) (frame_root s) id.
Proof. intros HS. apply (al_rooted _ _ _ _ (so_aliasing _ _ _ HS)). Qed.

(** A copy of a reference, mutable only if the reference is; an immutable copy of a mutable
    reference needs that it is not borrowed mutably. *)
Lemma copy_strong rho st s id (mu : bool) :
  state_ok rho st s -> id ∈ refs (st ++ stored s) -> (mu = true -> mut s.(borrow_graph) id) ->
  (mu = false -> forall c es (e : Edge), out s.(borrow_graph) id c = Some es -> e ∈ es.(BorrowEdgeSet.edges) ->
     ~ mut s.(borrow_graph) c) ->
  strong_ok rho st s mu id [].
Proof.
  intros HS Hid Hmu Hno. pose proof (so_aliasing _ _ _ HS) as HA. split.
  - by right.
  - done.
  - intros Hf c es e Hes He _. by eapply Hno.
  - rewrite app_nil_r. by apply (al_place _ _ _ _ HA).
  - rewrite app_nil_r. by apply (in_frame_tracked rho st).
  - intros a Ha Hor. rewrite app_nil_r. intros Ho. destruct (decide (a = id)) as [-> |Hne].
    { left. split; [|apply rtc_refl]. destruct Hor; [done|by apply Hmu]. }
    destruct mu.
    + destruct (al_overlap _ _ _ _ HA id a) as [Ht|?]; [done|done|done|by apply Hmu|by apply overlap_sym| |by left].
      right. split; [done|]. destruct (tracked_first _ _ _ _ Ht) as (c & es & e & q & Hes & He & Hq & Hc & Hca); [done|].
      exists c, es, e, q. split; [done|]. split; [done|]. split; [apply prefix_nil|done].
    + destruct Hor as [Hma|?]; [|done]. destruct (al_overlap _ _ _ _ HA a id) as [Ht|[Hm Ht]]; try done; [by left|].
      exfalso. revert Hma. apply (tracked_below rho s.(borrow_graph) id a None); [done|done| |by intros []|].
      * intros c Hc. by apply (mut_tracked _ _ _ _ HA).
      * intros c es e Hes He _. by apply (Hno eq_refl c es e).
Qed.

Section operations.
Context (rho : RefID -> place) (st : list AbstractValue) (s : AbstractState).

(** The values of the frame. *)
Abbreviation frame_values := (values (frame_of rho st s)).

Lemma stored_get i v :
  state_ok rho st s -> BTreeMap.get i s.(ReferenceState.locals) = Some v -> v ∈ stored s.
Proof using.
  intros HS Hv. apply list_elem_of_In, in_map_iff. exists (i, v). split; [done|].
  apply list_elem_of_In, BTreeMap.get_elem; [apply HS|done].
Qed.

Lemma copy_loc_sound i v :
  state_ok rho st s -> BTreeMap.get i s.(ReferenceState.locals) = Some v ->
  wp (copy_loc i) s (fun w s' => leads rho st s (conc rho s.(borrow_graph) v) w s' /\
    (v = AbstractValue.NonReference -> allowed Inspect [Label.Local i] frame_values)).
Proof using.
  intros HS Hv. pose proof (stored_get i v HS Hv) as Hst. unfold copy_loc.
  apply wp_bind. eapply wp_ask; [by rewrite Hv|]. destruct v as [id|].
  - assert (id ∈ refs (st ++ stored s)) as Hid by (apply elem_of_refs, elem_of_app; by right).
    apply wp_bind. eapply wp_ask; [by eapply is_mutable_live|]. set (mu := bool_decide _).
    assert (mu = true <-> mut s.(borrow_graph) id) as Hmu by apply bool_decide_eq_true.
    destruct (strong_sound rho st s mu id [] HS) as (s1 & s2 & R1 & _ & R2 & HB).
    { apply copy_strong; [done|done|by apply Hmu|]. intros Hf c es e Hes He Hc. rewrite Hf in Hmu.
      assert (false = true); [|done]. apply Hmu. eapply (al_mut _ _ _ _ (so_aliasing _ _ _ HS)); [|exact Hc].
      apply (proj2 (graph_valid rho st s HS)). by exists es. }
    apply wp_bind. eapply wp_run; [exact R1|]. apply wp_bind. eapply wp_run; [exact R2|].
    apply wp_ret. split; [|done]. rewrite app_nil_r in HB. by apply borrowed_leads.
  - apply wp_bind. destruct (frame_mutably_borrowed_ok rho st s HS (Label.Local i)) as (b & HR & Hb).
    eapply wp_ask; [exact HR|]. apply wp_bind, wp_fail_if. intros Hf. apply wp_ret.
    split; [by apply leads_plain|]. intros _. by apply Hb.
Qed.

Lemma read_ref_sound id :
  state_ok rho (AbstractValue.Reference id :: st) s ->
  wp (read_ref id) s (fun w s' => leads rho st s Plain w s' /\
    allowed Read (rho id) (map (conc rho s.(borrow_graph)) (st ++ stored s))).
Proof using.
  intros HS. unfold read_ref.
  destruct (is_readable_ok rho _ s HS id None (operand_live id st s)) as (b & HR & Hb).
  apply wp_bind. eapply wp_ask; [exact HR|]. apply wp_bind, wp_fail_if. intros Ht%negb_false_iff.
  apply wp_bind. eapply wp_mono; [by apply release_sound|]. intros _ s' [H1 H2]. apply wp_ret. split.
  - exists rho. split; [by destruct H1|done].
  - apply read_allowed; [done|]. intros Hm c es e Hes He. apply (Hb Ht Hm c es e Hes He). by destruct (BorrowEdge.path e).
Qed.

Lemma write_ref_sound id :
  state_ok rho (AbstractValue.Reference id :: st) s -> mut s.(borrow_graph) id ->
  wp (write_ref id) s (fun _ s' => (state_ok rho st s' /\ same_frame rho rho st s s') /\
    allowed Write (rho id) (map (conc rho s.(borrow_graph)) (st ++ stored s))).
Proof using.
  intros HS Hm. unfold write_ref. destruct (is_writable_ok rho _ s HS id (operand_live id st s) Hm) as (b & HR & Hb).
  apply wp_bind. eapply wp_ask; [exact HR|]. apply wp_bind, wp_fail_if. intros Ht%negb_false_iff.
  eapply wp_mono; [by apply release_sound|]. intros ? s' H. split; [done|]. apply write_allowed; [done|done|by apply Hb].
Qed.

(** A vector operation that writes, or one that only reads the length. *)
Lemma vector_op_sound id (mut_ : bool) :
  state_ok rho (AbstractValue.Reference id :: st) s -> (mut_ = true -> mut s.(borrow_graph) id) ->
  wp (vector_op (AbstractValue.Reference id) mut_) s (fun _ s' => (state_ok rho st s' /\ same_frame rho rho st s s') /\
    (mut_ = true -> allowed Write (rho id) (map (conc rho s.(borrow_graph)) (st ++ stored s)))).
Proof using.
  intros HS Hm. unfold vector_op. apply wp_bind. eapply wp_run; [reflexivity|]. destruct mut_.
  - destruct (is_writable_ok rho _ s HS id (operand_live id st s) (Hm eq_refl)) as (b & HR & Hb).
    apply wp_bind. eapply wp_ask; [by rewrite HR|]. apply wp_bind, wp_fail_if. intros Ht%negb_false_iff.
    eapply wp_mono; [by apply release_sound|]. intros ? s' H. split; [done|]. intros _.
    apply write_allowed; [done|by apply Hm|by apply Hb].
  - apply wp_bind. eapply wp_ask; [reflexivity|]. apply wp_bind, wp_fail_if. intros _.
    eapply wp_mono; [by apply release_sound|]. intros ? s' H. by split.
Qed.

Lemma freeze_ref_sound id :
  state_ok rho (AbstractValue.Reference id :: st) s -> mut s.(borrow_graph) id ->
  wp (freeze_ref id) s (fun w s' => leads rho st s (Ref false (rho id)) w s' /\
    allowed Read (rho id) (map (conc rho s.(borrow_graph)) (st ++ stored s))).
Proof using.
  intros HS Hm. unfold freeze_ref.
  destruct (is_freezable_ok rho _ s HS id None (operand_live id st s) Hm) as (b & HR & Hb).
  apply wp_bind. eapply wp_ask; [exact HR|]. apply wp_bind, wp_fail_if. intros Ht%negb_false_iff.
  assert (forall c es (e : Edge), out s.(borrow_graph) id c = Some es -> e ∈ es.(BorrowEdgeSet.edges) ->
    ~ mut s.(borrow_graph) c) as Hno.
  { intros c es e Hes He. apply (Hb Ht c es e Hes He). by destruct (BorrowEdge.path e). }
  destruct (strong_sound rho _ s false id [] HS) as (s1 & s2 & R1 & _ & R2 & HB).
  { apply copy_strong; [done|apply operand_live|done|by intros _]. }
  apply wp_bind. eapply wp_run; [exact R1|]. apply wp_bind. eapply wp_run; [exact R2|].
  rewrite app_nil_r in HB. apply wp_bind. eapply wp_mono; [by apply release_leads, borrowed_leads|].
  intros ? s' H. apply wp_ret. split; [done|]. apply read_allowed; [done|by intros _].
Qed.

Lemma comparison_refs_sound id1 id2 :
  state_ok rho (AbstractValue.Reference id1 :: AbstractValue.Reference id2 :: st) s ->
  wp (comparison (AbstractValue.Reference id1) (AbstractValue.Reference id2)) s (fun w s' => leads rho st s Plain w s' /\
    allowed Read (rho id1) (map (conc rho s.(borrow_graph)) (AbstractValue.Reference id2 :: st ++ stored s)) /\
    allowed Read (rho id2) (map (conc rho s.(borrow_graph)) (AbstractValue.Reference id1 :: st ++ stored s))).
Proof using.
  intros HS. assert (state_ok rho (AbstractValue.Reference id2 :: AbstractValue.Reference id1 :: st) s) as HS'.
  { by rewrite (Permutation_swap (AbstractValue.Reference id1)). }
  destruct (is_readable_ok rho _ s HS id1 None) as (b1 & R1 & Hb1); [apply operand_live|].
  destruct (is_readable_ok rho _ s HS' id2 None) as (b2 & R2 & Hb2); [apply operand_live|].
  unfold comparison. apply wp_bind, wp_bind. eapply wp_ask.
  { rewrite R1. cbn [mbind result_bind]. instantiate (1 := negb b1 || negb b2).
    destruct b1; simpl; [|done]. by rewrite R2. }
  apply wp_bind, wp_fail_if. intros [H1%negb_false_iff H2%negb_false_iff]%orb_false_iff.
  apply wp_bind. eapply wp_mono; [by apply release_sound|]. intros ? s1 [HS1 HF1].
  eapply wp_mono; [by apply release_sound|]. intros ? s2 [HS2 HF2]. apply wp_ret. split; [|split].
  - exists rho. split; [by destruct HS2|]. split; [|done]. eapply same_frame_trans; [exact HF1|exact HF2|].
    intros v Hv. by right.
  - apply (read_allowed rho id1 (AbstractValue.Reference id2 :: st)); [done|]. intros Hm c es e Hes He.
    apply (Hb1 H1 Hm c es e Hes He). by destruct (BorrowEdge.path e).
  - apply (read_allowed rho id2 (AbstractValue.Reference id1 :: st)); [done|]. intros Hm c es e Hes He.
    apply (Hb2 H2 Hm c es e Hes He). by destruct (BorrowEdge.path e).
Qed.

Lemma overlap_label (l : Label) (p q : place) : p <> [] -> overlap p (l :: q) -> exists r, p = l :: r.
Proof using. intros Hp [[t Ht]|[t ->]]; [|by eexists]. destruct p as [|x p]; [done|]. injection Ht as <- _. by eexists. Qed.

(** A mutable borrow of a local is sound as long as the frame has no edge with an empty
    path, which the source takes for granted. *)
Lemma borrow_loc_sound (mu : bool) i :
  state_ok rho st s -> (mu = true -> has_full_borrows (frame_root s) s = Ok false) ->
  wp (borrow_loc mu i) s (fun w s' => leads rho st s (Ref mu [Label.Local i]) w s' /\
    (mu = false -> allowed Inspect [Label.Local i] frame_values)).
Proof using.
  intros HS Hfull. pose proof (so_aliasing _ _ _ HS) as HA. set (l := Label.Local i).
  assert (exists b : bool, (if mu then Ok false else is_local_mutably_borrowed i s) = (Ok b : result StatusCode bool) /\
    (b = false -> mu = false -> (forall c es (e : Edge), out s.(borrow_graph) (frame_root s) c = Some es ->
        e ∈ es.(BorrowEdgeSet.edges) -> compatible (Some l) e.(BorrowEdge.path) -> ~ mut s.(borrow_graph) c) /\
      (forall a, a ∈ refs (st ++ stored s) -> [l] `prefix_of` rho a -> ~ mut s.(borrow_graph) a) /\
      allowed Inspect [l] frame_values)) as (b & HR & Hb).
  { destruct mu; [by exists false|]. destruct (frame_mutably_borrowed_ok rho st s HS l) as (b & HR & Hb).
    exists b. split; [done|]. intros Hf _. destruct (Hb Hf) as [? Hl]. by destruct (Hl eq_refl). }
  unfold borrow_loc. apply wp_bind. eapply wp_ask; [exact HR|]. apply wp_bind, wp_fail_if. intros Hf.
  destruct (strong_sound rho st s mu (frame_root s) [l] HS) as (s1 & s2 & R1 & N1 & R2 & HB).
  { pose proof (al_frame _ _ _ _ HA) as Hrho. split; rewrite ?Hrho; [by left|by intros _; apply HA| |done|by intros _; apply rtc_refl|].
    - intros Hmu c es e Hes He [t Ht]. destruct (Hb Hf Hmu) as [Hno _]. apply (Hno c es e Hes He). by rewrite Ht.
    - intros a Ha Hor Ho. destruct (overlap_label l (rho a) []) as [r Hr]; [by apply (al_place _ _ _ _ HA)|done|].
      destruct mu.
      + right. split; [done|]. assert (tracked rho s.(borrow_graph) (frame_root s) a) as Ht.
        { apply (al_rooted _ _ _ _ HA); [done|]. by rewrite Hr. }
        destruct (tracked_first _ _ _ _ Ht) as (c & es & e & q & Hes & He & Hq & Hc & Hca).
        { apply not_eq_sym. by apply (live_not_root _ _ _ _ HA). }
        exists c, es, e, q. split; [done|]. split; [done|]. split; [|done].
        destruct (has_full_borrows_ok s (frame_root s)) as (b' & HR' & Hb').
        { by apply (graph_valid rho st). }
        { apply (live_tracked rho st s HS). by left. }
        rewrite (Hfull eq_refl) in HR'. injection HR' as <-. specialize (Hb' eq_refl c es e Hes He).
        apply covers_prefix in Hq as [q' ->]. apply tracked_prefix in Hca as [t Hca]. rewrite Hc, Hrho, Hr in Hca.
        destruct (BorrowEdge.path e) as [|x p]; [done|]. injection Hca as <- _. by exists p.
      + exfalso. destruct Hor as [Hm|?]; [|done]. destruct (Hb Hf eq_refl) as (_ & Hno & _).
        apply (Hno a Ha); [|done]. rewrite Hr. by exists r. }
  apply wp_bind. eapply wp_run; [exact R1|]. apply wp_bind. unfold add_local_borrow. apply wp_bind.
  eapply wp_ask; [reflexivity|]. eapply wp_run; [unfold frame_root; rewrite N1; exact R2|].
  apply wp_ret. rewrite (al_frame _ _ _ _ HA) in HB. split; [by apply borrowed_leads|]. intros Hmu. by apply Hb.
Qed.

(** Every reference in the frame of an operand that overlaps a longer place overlaps its place. *)
Lemma overlap_operand id a q : overlap (rho a) (rho id ++ q) -> overlap (rho a) (rho id).
Proof using. apply overlap_extend. by exists q. Qed.

Lemma compatible_field (p r : place) l : overlap (p ++ r) (p ++ [l]) -> compatible (Some l) r.
Proof using.
  intros H. destruct r as [|x r]; [done|]. simpl.
  destruct H as [H%prefix_app_inv|H%prefix_app_inv]; destruct H as [t [= ]]; done.
Qed.

Lemma field_mut_strong (st' : list AbstractValue) id f :
  state_ok rho st' s -> id ∈ refs (st' ++ stored s) -> mut s.(borrow_graph) id ->
  (forall c es (e : Edge), out s.(borrow_graph) id c = Some es -> e ∈ es.(BorrowEdgeSet.edges) ->
     e.(BorrowEdge.path) <> []) ->
  strong_ok rho st' s true id [f].
Proof using.
  intros HS Hid Hm Hno. pose proof (so_aliasing _ _ _ HS) as HA. pose proof (al_place _ _ _ _ HA id Hid) as Hpl. split.
  - by right.
  - done.
  - done.
  - by destruct (rho id).
  - rewrite (rooted_prefix (rho id)); [by apply (in_frame_tracked rho st')|done|by exists [f]].
  - intros a Ha _ Ho. destruct (decide (a = id)) as [-> |Hne]; [left; split; [done|apply rtc_refl]|].
    destruct (al_overlap _ _ _ _ HA id a) as [Ht|?]; [done|done|by apply not_eq_sym|done|by eapply overlap_sym, overlap_operand| |by left].
    right. split; [done|]. destruct (tracked_first _ _ _ _ Ht) as (c & es & e & q & Hes & He & Hq & Hc & Hca); [by apply not_eq_sym|].
    exists c, es, e, q. split; [done|]. split; [done|]. split; [|done].
    pose proof (Hno c es e Hes He) as Hne'. apply covers_prefix in Hq as [q' ->]. apply tracked_prefix in Hca as [t Hca].
    rewrite Hca, Hc, <- !(assoc_L (++)) in Ho. apply compatible_field in Ho.
    destruct (BorrowEdge.path e) as [|x p]; [done|]. simpl in Ho. subst x. by exists p.
Qed.

Lemma field_imm_strong (st' : list AbstractValue) id f :
  state_ok rho st' s -> id ∈ refs (st' ++ stored s) ->
  (mut s.(borrow_graph) id -> forall c es (e : Edge), out s.(borrow_graph) id c = Some es ->
     e ∈ es.(BorrowEdgeSet.edges) -> compatible (Some f) e.(BorrowEdge.path) -> ~ mut s.(borrow_graph) c) ->
  strong_ok rho st' s false id [f].
Proof using.
  intros HS Hid Hno. pose proof (so_aliasing _ _ _ HS) as HA. pose proof (al_place _ _ _ _ HA id Hid) as Hpl. split.
  - by right.
  - done.
  - intros _ c es e Hes He [t Ht] Hc. assert (mut s.(borrow_graph) id) as Hm.
    { eapply (al_mut _ _ _ _ HA); [|exact Hc]. apply (proj2 (graph_valid rho st' s HS)). by exists es. }
    apply (Hno Hm c es e Hes He); [|done]. by rewrite Ht.
  - by destruct (rho id).
  - rewrite (rooted_prefix (rho id)); [by apply (in_frame_tracked rho st')|done|by exists [f]].
  - intros a Ha [Hm|?] Ho; [|done]. left. split; [done|]. destruct (decide (a = id)) as [-> |Hne]; [apply rtc_refl|].
    destruct (al_overlap _ _ _ _ HA a id) as [Ht|[Hmi Ht]]; [done|done|done|done|by eapply overlap_operand|done|].
    exfalso. revert Hm. apply (tracked_below rho s.(borrow_graph) id a (Some f)); [done|done| | |by apply Hno].
    + intros c Hc. by apply (mut_tracked _ _ _ _ HA).
    + intros r Hr. rewrite Hr in Ho. by eapply compatible_field.
Qed.

Lemma borrow_field_sound (mu : bool) id f :
  state_ok rho (AbstractValue.Reference id :: st) s -> (mu = true -> mut s.(borrow_graph) id) ->
  wp (borrow_field mu id f) s (fun w s' => leads rho st s (Ref mu (rho id ++ [Label.Field f])) w s' /\
    (mu = false -> allowed Inspect (rho id ++ [Label.Field f]) (map (conc rho s.(borrow_graph)) (st ++ stored s)))).
Proof using.
  intros HS Hmu. set (st' := AbstractValue.Reference id :: st) in *.
  assert (id ∈ refs (st' ++ stored s)) as Hid by apply operand_live.
  assert (exists b : bool, (if mu then has_full_borrows id s
      else readable ← is_readable id (Some f) s; Ok (negb readable)) = (Ok b : result StatusCode bool) /\
    (b = false -> strong_ok rho st' s mu id [Label.Field f] /\
      (mu = false -> allowed Inspect (rho id ++ [Label.Field f]) (map (conc rho s.(borrow_graph)) (st ++ stored s)))))
    as (b & HR & Hb).
  { destruct mu.
    - destruct (has_full_borrows_ok s id) as (b & HR & Hb); [by apply (graph_valid rho st')|by eapply live_tracked; [done|right]|].
      exists b. split; [done|]. intros Hf. split; [|done]. apply field_mut_strong; [done|done|by apply Hmu|by apply Hb].
    - destruct (is_readable_ok rho st' s HS id (Some f) Hid) as (b & HR & Hb). exists (negb b). split; [by rewrite HR|].
      intros Hf%negb_false_iff. split.
      + apply field_imm_strong; [done|done|by apply Hb].
      + intros _. apply field_allowed; [done|by apply Hb]. }
  unfold borrow_field. apply wp_bind. eapply wp_ask; [exact HR|]. apply wp_bind, wp_fail_if. intros Hf.
  destruct (Hb Hf) as [Hok Hal]. destruct (strong_sound rho st' s mu id [Label.Field f] HS Hok) as (s1 & s2 & R1 & _ & R2 & HB).
  apply wp_bind. eapply wp_run; [exact R1|]. apply wp_bind. eapply wp_run; [exact R2|].
  apply wp_bind. eapply wp_mono; [by apply release_leads, borrowed_leads|]. intros ? s' H. by apply wp_ret.
Qed.

(** A weak borrow from one reference. *)
Lemma weak_one_sound (st' : list AbstractValue) (mu : bool) p path p' :
  state_ok rho st' s -> p = frame_root s \/ p ∈ refs (st' ++ stored s) -> (mu = true -> mut s.(borrow_graph) p) ->
  rho p ++ path `prefix_of` p' -> p' <> [] -> (rooted p' = true -> tracked rho s.(borrow_graph) (frame_root s) p) ->
  (forall a, a ∈ refs (st' ++ stored s) -> mut s.(borrow_graph) a \/ mu = true -> overlap (rho a) p' ->
     mut s.(borrow_graph) a /\ tracked rho s.(borrow_graph) a p) ->
  exists s1 s2, ReferenceState.new_ref mu s = Ok (s.(next_id), s1) /\
    s1.(num_locals) = s.(num_locals) /\
    on_graph (BorrowGraph.add_path p tt false path s.(next_id)) s1 = Ok ((), s2) /\ borrowed rho st' s mu p' s2.
Proof using.
  intros HS Hp Hm Hpre Hne Hr Hov.
  destruct (weak_sound rho st' s mu [p] path p p' HS) as (s1 & s2 & R1 & N1 & R2 & HB & _); try done.
  - by intros x ->%list_elem_of_singleton.
  - by left.
  - exists s1, s2. do 2 (split; [done|]). split; [|done]. revert R2. cbn [st_for]. unfold mbind, ST_bind.
    by destruct (on_graph _ s1) as [[[] s3]| | |].
Qed.

Lemma borrow_global_sound (mu : bool) sd q :
  state_ok rho st s ->
  wp (borrow_global mu sd) s (fun w s' => leads rho st s (Ref mu (Label.Global sd :: q)) w s' /\
    allowed (if mu then Take else Inspect) [Label.Global sd] frame_values).
Proof using.
  intros HS. pose proof (so_aliasing _ _ _ HS) as HA. set (l := Label.Global sd).
  destruct (frame_borrowed_ok rho st s HS l) as (b1 & R1 & Hb1).
  destruct (frame_mutably_borrowed_ok rho st s HS l) as (b2 & R2 & Hb2).
  unfold borrow_global. apply wp_bind. eapply wp_ask.
  { instantiate (1 := (if mu then b1 else false) || b2). unfold is_global_borrowed, is_global_mutably_borrowed. fold l.
    destruct mu; cbn [mbind result_bind].
    - rewrite R1. cbn [mbind result_bind]. by destruct b1.
    - exact R2. }
  apply wp_bind, wp_fail_if. intros [Hf1 Hf2]%orb_false_iff.
  destruct (Hb2 Hf2) as [_ Hl]. destruct (Hl eq_refl) as [Hno2 Hal2].
  destruct (weak_one_sound st mu (frame_root s) [l] (l :: q)) as (s1 & s2 & N1 & M1 & N2 & HB).
  - done.
  - by left.
  - intros _. apply HA.
  - rewrite (al_frame _ _ _ _ HA). by exists q.
  - done.
  - intros _. apply rtc_refl.
  - intros a Ha Hor Ho. exfalso. apply overlap_label in Ho as [r Hr]; [|by apply (al_place _ _ _ _ HA)].
    assert ([l] `prefix_of` rho a) as Hp by (rewrite Hr; by exists r). destruct mu.
    + by apply (proj1 (Hb1 Hf1 eq_refl) a).
    + destruct Hor as [?|?]; [|done]. by apply (Hno2 a).
  - apply wp_bind. eapply wp_run; [exact N1|]. apply wp_bind. unfold add_resource_borrow. apply wp_bind.
    eapply wp_ask; [reflexivity|]. eapply wp_run; [unfold frame_root; rewrite M1; exact N2|].
    apply wp_ret. split; [by apply borrowed_leads|]. destruct mu; [|done]. by apply (Hb1 Hf1).
Qed.

Lemma move_from_sound sd :
  state_ok rho st s ->
  wp (move_from sd) s (fun w s' => leads rho st s Plain w s' /\ allowed Take [Label.Global sd] frame_values).
Proof using.
  intros HS. destruct (frame_borrowed_ok rho st s HS (Label.Global sd)) as (b & HR & Hb).
  unfold move_from. apply wp_bind. eapply wp_ask; [exact HR|]. apply wp_bind, wp_fail_if. intros Hf. apply wp_ret.
  split; [by apply leads_plain|]. by apply Hb.
Qed.

(** An immutable borrow of an element from a mutable reference needs what [freeze_ref]
    checks, and [vector_element_borrow] does not: that nothing is borrowed mutably. *)
Definition element_checked (mu : bool) id : Prop :=
  if mu then mut s.(borrow_graph) id
  else mut s.(borrow_graph) id -> is_freezable id None s = Ok true.

Lemma vector_element_borrow_sound (mu : bool) id q :
  state_ok rho (AbstractValue.Reference id :: st) s -> element_checked mu id ->
  wp (vector_element_borrow (AbstractValue.Reference id) mu) s (fun w s' => leads rho st s (Ref mu (rho id ++ q)) w s' /\
    allowed (if mu then Write else Read) (rho id) (map (conc rho s.(borrow_graph)) (st ++ stored s))).
Proof using.
  intros HS Hmu. set (st' := AbstractValue.Reference id :: st) in *. pose proof (so_aliasing _ _ _ HS) as HA.
  assert (id ∈ refs (st' ++ stored s)) as Hid by apply operand_live.
  assert (exists b : bool, (if mu then w ← is_writable id s; Ok (negb w) else Ok false) = (Ok b : result StatusCode bool) /\
    (b = false -> allowed (if mu then Write else Read) (rho id) (map (conc rho s.(borrow_graph)) (st ++ stored s)) /\
      (mu = true -> forall c es (e : Edge), out s.(borrow_graph) id c = Some es -> e ∈ es.(BorrowEdgeSet.edges) -> False) /\
      (mu = false -> mut s.(borrow_graph) id -> forall c es (e : Edge), out s.(borrow_graph) id c = Some es ->
        e ∈ es.(BorrowEdgeSet.edges) -> ~ mut s.(borrow_graph) c)))
    as (b & HR & Hb).
  { destruct mu.
    - rename Hmu into Hm. simpl in Hm.
      destruct (is_writable_ok rho st' s HS id Hid Hm) as (b & HR & Hb). exists (negb b). split; [by rewrite HR|].
      intros Hf%negb_false_iff. split; [by apply write_allowed; [| |apply Hb]|]. split; [|done]. intros _; by apply Hb.
    - exists false. split; [done|]. intros _. assert (mut s.(borrow_graph) id -> forall c es (e : Edge),
        out s.(borrow_graph) id c = Some es -> e ∈ es.(BorrowEdgeSet.edges) -> ~ mut s.(borrow_graph) c) as Hno.
      { intros Hm c es e Hes He. destruct (is_freezable_ok rho st' s HS id None Hid Hm) as (b & HR & Hb).
        rewrite (Hmu Hm) in HR. injection HR as <-. apply (Hb eq_refl c es e Hes He). by destruct (BorrowEdge.path e). }
      split; [by apply read_allowed|by split]. }
  unfold vector_element_borrow. apply wp_bind. eapply wp_run; [reflexivity|].
  apply wp_bind. eapply wp_ask; [exact HR|]. apply wp_bind, wp_fail_if. intros Hf. destruct (Hb Hf) as (Hal & Hno & Hno').
  destruct (weak_one_sound st' mu id [] (rho id ++ q)) as (s1 & s2 & R1 & _ & R2 & HB).
  - done.
  - by right.
  - by intros ->.
  - rewrite app_nil_r. by exists q.
  - pose proof (al_place _ _ _ _ HA id Hid). by destruct (rho id).
  - rewrite (rooted_prefix (rho id)); [by apply (in_frame_tracked rho st')|by apply (al_place _ _ _ _ HA)|by exists q].
  - intros a Ha Hor Ho%overlap_operand. destruct (decide (a = id)) as [-> |Hne].
    { split; [|apply rtc_refl]. destruct Hor as [?| ->]; [done|exact Hmu]. }
    destruct mu.
    + destruct (al_overlap _ _ _ _ HA id a) as [Ht|?]; [done|done|by apply not_eq_sym|exact Hmu|by apply overlap_sym| |done].
      exfalso. destruct (tracked_first _ _ _ _ Ht) as (c & es & e & ? & Hes & He & _); [by apply not_eq_sym|].
      by apply (Hno eq_refl c es e).
    + destruct Hor as [Hm|?]; [|done]. destruct (al_overlap _ _ _ _ HA a id) as [?|[Hmi Ht]]; try done.
      exfalso. revert Hm. apply (tracked_below rho s.(borrow_graph) id a None); [done|done| |by intros []|].
      * intros c Hc. by apply (mut_tracked _ _ _ _ HA).
      * intros c es e Hes He _. by apply (Hno' eq_refl Hmi c es e).
  - apply wp_bind. eapply wp_run; [exact R1|]. apply wp_bind. eapply wp_run; [exact R2|].
    apply wp_bind. eapply wp_mono; [by apply release_leads, borrowed_leads|]. intros ? s' H. by apply wp_ret.
Qed.
End operations.

Import ReferenceState Machine.

Lemma allowed_sub (a : Access) (p : place) (vs vs' : list Value) :
  (forall x, x ∈ vs -> x ∈ vs') -> allowed a p vs' -> allowed a p vs.
Proof. intros Hsub H mut_ p' Hin. by apply H, Hsub. Qed.

(** Only the references among the values in use matter. *)
Lemma state_ok_refs rho st st' s : refs st ≡ₚ refs st' -> state_ok rho st s -> state_ok rho st' s.
Proof.
  intros Hr [H1 H2 H3 H4]. split; try done. unfold refs in *. rewrite omap_app in *. by rewrite <- Hr.
Qed.

(** * Locals *)

Section locals.
Context (rho : RefID -> place) (st : list AbstractValue) (s : AbstractState).
Abbreviation G := (s.(borrow_graph)).

Lemma move_loc_sound i v :
  state_ok rho st s -> BTreeMap.get i s.(ReferenceState.locals) = Some v ->
  wp (move_loc i) s (fun w s' => w = v /\ s' = set_locals (BTreeMap.remove i s.(ReferenceState.locals)) s /\
    state_ok rho (v :: st) s' /\
    (v = AbstractValue.NonReference -> allowed Take [Label.Local i] (values (frame_of rho st s)))).
Proof using.
  intros HS Hv. set (s1 := set_locals (BTreeMap.remove i s.(ReferenceState.locals)) s).
  assert (stored s ≡ₚ v :: stored s1) as Hperm by by apply values_remove.
  assert (state_ok rho (v :: st) s1) as HS1.
  { destruct HS as [H1 H2 H3 H4]. split.
    - simpl. unfold refs in *. rewrite Hperm in H1. by rewrite <- Permutation_middle in H1.
    - done.
    - by apply BTreeMap.remove_sorted.
    - intros j w. simpl. rewrite BTreeMap.get_remove by done. destruct (j =? i); [done|]. apply H4. }
  unfold move_loc. apply wp_bind. eapply wp_ask; [by rewrite Hv|].
  apply wp_bind. eapply wp_run; [reflexivity|]. fold s1. destruct v as [id|]; [by apply wp_ret|].
  destruct (frame_borrowed_ok rho _ s1 HS1 (Label.Local i)) as (b & HR & Hb).
  apply wp_bind. eapply wp_ask; [exact HR|]. apply wp_bind, wp_fail_if. intros Hf. apply wp_ret.
  do 3 (split; [done|]). intros _. destruct (Hb Hf eq_refl) as [_ Hal]. eapply allowed_sub; [|exact Hal].
  intros x. rewrite !values_frame, Hperm. by rewrite <- Permutation_middle.
Qed.

Lemma st_loc_sound i v :
  state_ok rho (v :: st) s -> 0 <= i < s.(num_locals) ->
  wp (st_loc i v) s (fun _ s' => state_ok rho st s' /\ s'.(num_locals) = s.(num_locals) /\
    frame_of rho st s' = Machine.mk (map (conc rho G) st)
      (BTreeMap.insert i (conc rho G v) (conc_locals rho G s.(ReferenceState.locals))) /\
    (BTreeMap.get i s.(ReferenceState.locals) = Some AbstractValue.NonReference ->
       allowed Take [Label.Local i] (values (frame_of rho (v :: st) s)))).
Proof using.
  intros HS Hi. set (s1 := set_locals (BTreeMap.insert i v s.(ReferenceState.locals)) s).
  set (old := match BTreeMap.get i s.(ReferenceState.locals) with Some w => [w] | None => [] end).
  assert (old ++ stored s1 ≡ₚ v :: stored s) as Hperm.
  { unfold old, stored. simpl. destruct (BTreeMap.get i (ReferenceState.locals s)) as [w|] eqn:E.
    - apply values_insert_old; [apply HS|done].
    - by apply values_insert_new. }
  assert ((old ++ st) ++ stored s1 ≡ₚ (v :: st) ++ stored s) as Hall.
  { rewrite (Permutation_app_comm old st), <- (assoc_L (++)), Hperm. simpl. symmetry. apply Permutation_middle. }
  assert (state_ok rho (old ++ st) s1) as HS1.
  { destruct HS as [H1 H2 H3 H4]. split.
    - unfold refs in *. by rewrite Hall.
    - done.
    - by apply BTreeMap.insert_sorted.
    - intros j w. simpl. rewrite BTreeMap.get_insert. destruct (Z.eqb_spec j i) as [-> |]; [done|]. apply H4. }
  assert (frame_of rho st s1 = Machine.mk (map (conc rho G) st)
    (BTreeMap.insert i (conc rho G v) (conc_locals rho G s.(ReferenceState.locals)))) as HF.
  { unfold frame_of. simpl. by rewrite conc_insert. }
  unfold st_loc. apply wp_bind. eapply wp_ask; [reflexivity|].
  apply wp_bind. eapply wp_run; [reflexivity|]. fold s1. unfold old in *.
  destruct (BTreeMap.get i (ReferenceState.locals s)) as [[id|]|] eqn:E; simpl in HS1.
  - eapply wp_mono; [by apply release_sound|]. intros ? s2 [HS2 HF2]. split; [done|].
    split; [by destruct HF2 as [-> _]|]. split; [|done]. rewrite <- HF. by apply same_frame_eq.
  - destruct (frame_borrowed_ok rho _ s1 HS1 (Label.Local i)) as (b & HR & Hb).
    apply wp_bind. eapply wp_ask; [exact HR|]. apply wp_fail_if. intros Hf. split; [by destruct HS1|].
    do 2 (split; [done|]). intros _. destruct (Hb Hf eq_refl) as [_ Hal]. eapply allowed_sub; [|exact Hal].
    intros x. rewrite !values_frame. apply elem_of_Permutation_proper, Permutation_map.
    exact Hall.
  - by apply wp_ret.
Qed.

(** A value of a type that is not a reference. *)
Lemma value_for_plain t :
  SignatureToken.is_reference t = false -> value_for t s = Ok (AbstractValue.NonReference, s).
Proof using. by destruct t. Qed.
End locals.

(** * Calls *)

Lemma elem_of_rev_iff {A} (x : A) (l : list A) : x ∈ l <-> x ∈ rev l.
Proof. rewrite !list_elem_of_In. apply in_rev. Qed.


Section calls.
Context (rho : RefID -> place) (args st : list AbstractValue) (s : AbstractState).
Hypothesis (HS : state_ok rho (args ++ st) s).
Abbreviation G := (s.(borrow_graph)).

(** The loop over the resources that the callee acquires. *)
Lemma acquired_ok acquired :
  wp (st_for acquired (fun sd => borrowed ← ask (is_global_borrowed sd); fail_if borrowed GLOBAL_REFERENCE_ERROR)) s
    (fun _ s' => s' = s /\ forall sd, sd ∈ acquired ->
       allowed Take [Label.Global sd] (values (frame_of rho (args ++ st) s))).
Proof using HS.
  induction acquired as [|sd acquired IH]; cbn [st_for].
  { apply wp_ret. split; [done|]. by intros sd ?%elem_of_nil. }
  destruct (frame_borrowed_ok rho _ s HS (Label.Global sd)) as (b & HR & Hb).
  apply wp_bind, wp_bind. eapply wp_ask; [exact HR|]. apply wp_fail_if. intros Hf.
  eapply wp_mono; [exact IH|]. intros ? s' [-> H]. split; [done|].
  intros sd' [->|?]%elem_of_cons; [by apply Hb|by apply H].
Qed.

Definition no_edges (id : RefID) : Prop :=
  forall c es (e : Edge), out G id c = Some es -> e ∈ es.(BorrowEdgeSet.edges) -> False.

Lemma check_arguments_sound ids all_refs mutable_refs :
  BTreeSet.sorted all_refs -> (forall id, id ∈ ids -> id ∈ refs args) ->
  wp (check_arguments ids all_refs mutable_refs) s (fun '(all', mutable') s' => s' = s /\ BTreeSet.sorted all' /\
    (forall x, x ∈ all' <-> x ∈ all_refs \/ x ∈ ids) /\
    (forall x, x ∈ mutable' <-> x ∈ mutable_refs \/ (x ∈ ids /\ mut G x)) /\
    (forall x, x ∈ ids -> mut G x -> no_edges x)).
Proof using HS.
  revert all_refs mutable_refs. induction ids as [|id ids IH]; intros all_refs mutable_refs Hs Hin; cbn [check_arguments].
  { apply wp_ret. setoid_rewrite elem_of_nil. split; [done|]. split; [done|]. split; [tauto|]. split; [tauto|done]. }
  assert (id ∈ refs ((args ++ st) ++ stored s)) as Hid.
  { unfold refs. rewrite !omap_app, !elem_of_app. do 2 left. apply Hin. by left. }
  apply wp_bind. eapply wp_ask; [by apply (is_mutable_live rho _ s HS id Hid)|]. set (mu := bool_decide _).
  assert (mu = true <-> mut G id) as Hmu by apply bool_decide_eq_true.
  assert (wp (if mu then writable ← ask (is_writable id); fail_if (negb writable) CALL_BORROWED_MUTABLE_REFERENCE_ERROR
              else mret ()) s (fun _ s' => s' = s /\ (mut G id -> no_edges id))) as Hcheck.
  { destruct mu; [|apply wp_ret; split; [done|by intros ?%Hmu]].
    destruct (is_writable_ok rho _ s HS id Hid) as (b & HR & Hb); [by apply Hmu|].
    apply wp_bind. eapply wp_ask; [exact HR|]. apply wp_fail_if. intros Ht%negb_false_iff.
    split; [done|]. intros _. exact (Hb Ht). }
  apply wp_bind. eapply wp_mono; [exact Hcheck|]. intros ? s' [-> Hno].
  eapply wp_mono; [apply IH|].
  - by apply BTreeSet.set_insert_sorted.
  - intros x Hx. apply Hin. by right.
  - intros [all' mutable'] s' (-> & Hs' & Ha & Hm & Hw). split; [done|]. split; [done|]. split; [|split].
    + intros x. rewrite Ha, BTreeSet.elem_of_insert, elem_of_cons. tauto.
    + intros x. rewrite Hm, elem_of_cons. destruct mu eqn:E.
      * rewrite BTreeSet.elem_of_insert. assert (mut G id) by by apply Hmu. naive_solver.
      * assert (~ mut G id) by (intros ?%Hmu; done). naive_solver.
    + intros x [->|Hx]%elem_of_cons; [done|by apply Hw].
Qed.

(** * Results *)

Hypothesis (Hw : forall x, x ∈ refs args -> mut G x -> no_edges x).

(** The state after some of the results [done]. *)
Record results_ok rho1 (made : list AbstractValue) (s1 : AbstractState) : Prop := {
  ro_state : state_ok rho1 (made ++ args ++ st) s1;
  ro_frame : same_frame rho rho1 (args ++ st) s s1;
  ro_tracked : forall a b, tracked rho G a b -> tracked rho1 s1.(borrow_graph) a b;
}.

(** Where a result may come from. *)
Lemma overlap_result id (mu : bool) p' a :
  id ∈ refs args -> (mu = true -> mut G id) -> rho id `prefix_of` p' ->
  a ∈ refs ((args ++ st) ++ stored s) -> mut G a \/ mu = true -> overlap (rho a) p' ->
  mut G a /\ tracked rho G a id.
Proof using HS Hw.
  intros Hid Hm Hp Ha Hor Ho. pose proof (so_aliasing _ _ _ HS) as HA.
  assert (id ∈ refs ((args ++ st) ++ stored s)) as Hid'.
  { unfold refs. rewrite !omap_app, !elem_of_app. by do 2 left. }
  assert (overlap (rho a) (rho id)) as Ho' by by eapply overlap_extend.
  destruct (decide (a = id)) as [-> |Hne]; [split; [|apply rtc_refl]; destruct Hor; [done|by apply Hm]|].
  destruct (decide (mut G id)) as [Hmi|Hmi].
  - destruct (al_overlap _ _ _ _ HA id a) as [Ht|?]; [done|done|by apply not_eq_sym|done|by apply overlap_sym| |done].
    exfalso. destruct (tracked_first _ _ _ _ Ht) as (c & es & e & ? & Hes & He & _); [by apply not_eq_sym|].
    by apply (Hw id Hid Hmi c es e).
  - destruct Hor as [Hma|?%Hm]; [|done]. destruct (al_overlap _ _ _ _ HA a id) as [?|[? _]]; done.
Qed.

(** One result. *)
Lemma return_value_sound rho1 made s1 (mu : bool) id p' ps :
  results_ok rho1 made s1 -> id ∈ refs args -> (mu = true -> mut G id) -> rho id `prefix_of` p' ->
  id ∈ ps -> (forall x, x ∈ ps -> x ∈ refs args /\ (mu = true -> mut G x)) ->
  (forall b, b ∈ refs made -> mut s1.(borrow_graph) b \/ mu = true -> ~ overlap (rho1 b) p') ->
  exists s2 s3 rho3, ReferenceState.new_ref mu s1 = Ok (s1.(next_id), s2) /\
    st_for ps (fun parent => add_borrow parent s1.(next_id)) s2 = Ok ((), s3) /\
    results_ok rho3 (AbstractValue.Reference s1.(next_id) :: made) s3 /\
    (forall v, v ∈ made -> conc rho3 s3.(borrow_graph) v = conc rho1 s1.(borrow_graph) v) /\
    conc rho3 s3.(borrow_graph) (AbstractValue.Reference s1.(next_id)) = Ref mu p'.
Proof using HS Hw.
  intros [R1 R2 R3] Hid Hm Hp Hin Hps Hdis. pose proof (so_aliasing _ _ _ HS) as HA. pose proof (so_aliasing _ _ _ R1) as HA1.
  assert (stored s1 = stored s) as Est by (unfold stored; by destruct R2 as (_ & -> & _)).
  assert (frame_root s1 = frame_root s) as Eroot by (unfold frame_root; by destruct R2 as [-> _]).
  assert (forall b, b ∈ refs ((args ++ st) ++ stored s) -> rho1 b = rho b /\ (mut s1.(borrow_graph) b <-> mut G b)) as Hold.
  { intros b Hb%elem_of_refs. destruct R2 as (_ & _ & R2). by apply conc_inj, R2. }
  assert (forall b, b ∈ refs args -> b ∈ refs ((args ++ st) ++ stored s)) as Hargs.
  { intros b Hb. unfold refs. rewrite !omap_app, !elem_of_app. by do 2 left. }
  assert (refs ((made ++ args ++ st) ++ stored s1) = refs made ++ refs ((args ++ st) ++ stored s)) as Erefs.
  { rewrite Est, <- (assoc_L (++)). unfold refs. by rewrite omap_app. }
  pose proof (al_place _ _ _ _ HA id (Hargs id Hid)) as Hpl.
  destruct (weak_sound rho1 (made ++ args ++ st) s1 mu ps [] id p' R1) as (s2 & s3 & N1 & _ & N2 & (B1 & B2 & B3) & B4).
  - intros x Hx. destruct (Hps x Hx) as [Hxa Hxm]. split.
    + right. rewrite Erefs. apply elem_of_app. right. by apply Hargs.
    + intros Hmu. by apply (Hold x (Hargs x Hxa)), Hxm.
  - done.
  - rewrite app_nil_r. by rewrite (proj1 (Hold id (Hargs id Hid))).
  - destruct Hp as [t ->]. by destruct (rho id).
  - intros Hr. rewrite (rooted_prefix (rho id)) in Hr by done. rewrite Eroot.
    apply R3. apply (al_rooted _ _ _ _ HA); [by apply Hargs|done].
  - intros a Ha Hor Ho. rewrite Erefs in Ha. apply elem_of_app in Ha as [Ha|Ha].
    + exfalso. by apply (Hdis a Ha).
    + destruct (Hold a Ha) as [Hra Hma]. rewrite Hra in Ho. rewrite Hma in Hor |- *.
      destruct (overlap_result id mu p' a Hid Hm Hp Ha Hor Ho) as [? Ht]. split; [done|]. by apply R3.
  - exists s2, s3, (upd rho1 (next_id s1) p'). split; [done|]. split; [done|]. split; [split|split; [|done]].
    + done.
    + eapply same_frame_trans; [exact R2| |done]. destruct B2 as (E1 & E2 & E3). split; [done|]. split; [done|].
      intros v Hv. apply E3. set_solver.
    + intros a b Hab. by apply B4, R3.
    + intros v Hv. apply B2. set_solver.
Qed.

Context (all_refs mutable_refs : BTreeSet).
Hypothesis (Hall : forall x, x ∈ all_refs <-> x ∈ refs args).
Hypothesis (Hmut : forall x, x ∈ mutable_refs <-> x ∈ refs args /\ mut G x).

(** One result, whatever its type. *)
Lemma one_result rho1 made s1 t y (Q : AbstractValue -> AbstractState -> Prop) :
  results_ok rho1 made s1 -> result_from (map (conc rho G) args) t y ->
  (forall rho2 v s2, results_ok rho2 (v :: made) s2 ->
     map (conc rho2 s2.(borrow_graph)) made = map (conc rho1 s1.(borrow_graph)) made ->
     conc rho2 s2.(borrow_graph) v = y -> Q v s2) ->
  (forall mu p', y = Ref mu p' -> forall b, b ∈ refs made -> mut s1.(borrow_graph) b \/ mu = true ->
     ~ overlap (rho1 b) p') ->
  wp (return_value all_refs mutable_refs t) s1 Q.
Proof using HS Hw Hall Hmut.
  intros HR Hy HQ Hdis.
  assert (forall (mu : bool) id p' ps, y = Ref mu p' -> id ∈ refs args -> (mu = true -> mut G id) ->
    rho id `prefix_of` p' -> id ∈ ps -> (forall x, x ∈ ps -> x ∈ refs args /\ (mu = true -> mut G x)) ->
    wp (id ← ReferenceState.new_ref mu; st_for ps (fun parent => add_borrow parent id);;
        mret (AbstractValue.Reference id)) s1 Q) as Href.
  { intros mu id p' ps Hyr Hid Hm Hp Hin Hps.
    destruct (return_value_sound rho1 made s1 mu id p' ps) as (s2 & s3 & rho3 & N1 & N2 & HR3 & Hmade & Hnew); try done.
    { by apply Hdis. }
    apply wp_bind. eapply wp_run; [exact N1|]. apply wp_bind. eapply wp_run; [exact N2|]. apply wp_ret.
    apply (HQ rho3); [done| |by rewrite Hyr]. apply map_ext_in. intros v Hv%list_elem_of_In. by apply Hmade. }
  assert (y = Plain -> wp (mret AbstractValue.NonReference) s1 Q) as Hplain.
  { intros ->. apply wp_ret. apply (HQ rho1); [by destruct HR as [[] ? ?]|done|done]. }
  destruct t; simpl in Hy; try (by apply Hplain).
  - destruct Hy as (mu0 & p & p' & Hyr & (id & Hid%elem_of_refs & <- & _)%conc_ref & Hp).
    apply (Href false id p'); try done; [by apply Hall|]. intros x Hx%Hall. done.
  - destruct Hy as (p & p' & Hyr & (id & Hid%elem_of_refs & <- & Hm)%conc_ref & Hp).
    assert (mut G id) by by apply Hm. apply (Href true id p'); try done; [by apply Hmut|].
    intros x Hx%Hmut. naive_solver.
Qed.

(** All results: [made] stands for the results [xs] so far, and [ts] are the types of the
    results [ys] that are left. *)
Lemma results_sound ts ys : forall rho1 made xs s1,
  results_ok rho1 made s1 -> Forall2 (result_from (map (conc rho G) args)) ts ys -> disjoint (xs ++ ys) ->
  map (conc rho1 s1.(borrow_graph)) made = rev xs ->
  wp (st_map (return_value all_refs mutable_refs) ts) s1 (fun vs s2 => exists rho2,
    results_ok rho2 (rev vs ++ made) s2 /\ map (conc rho2 s2.(borrow_graph)) (rev vs ++ made) = rev (xs ++ ys)).
Proof using HS Hw Hall Hmut.
  revert ys. induction ts as [|t ts IH]; intros ys rho1 made xs s1 HR HF Hd Hmade; cbn [st_map].
  { apply Forall2_nil_inv_l in HF as ->. apply wp_ret. exists rho1. by rewrite app_nil_r. }
  apply Forall2_cons_inv_l in HF as (y & ys' & Hy & HF & ->). rename ys' into ys.
  assert (forall (mu : bool) p', y = Ref mu p' -> forall b, b ∈ refs made -> mut s1.(borrow_graph) b \/ mu = true ->
    ~ overlap (rho1 b) p') as Hdis.
  { intros mu p' -> b Hb%elem_of_refs Hor.
    assert (conc rho1 s1.(borrow_graph) (AbstractValue.Reference b) ∈ xs) as Hx.
    { apply elem_of_rev_iff. rewrite <- Hmade. by apply list_elem_of_fmap_2. }
    apply list_elem_of_lookup in Hx as [j Hj]. pose proof (lookup_lt_Some _ _ _ Hj) as Hlt.
    assert ((xs ++ Ref mu p' :: ys) !! j = Some (conc rho1 s1.(borrow_graph) (AbstractValue.Reference b))) as Hj'.
    { by rewrite lookup_app_l. }
    assert ((xs ++ Ref mu p' :: ys) !! length xs = Some (Ref mu p')) as Hi' by by apply list_lookup_middle.
    destruct Hor as [Hmb| ->].
    - simpl in Hj'. rewrite (bool_decide_eq_true_2 _ Hmb) in Hj'. apply (Hd j (length xs) _ _ _ ltac:(lia) Hj' Hi').
    - intros Ho%overlap_sym. revert Ho. apply (Hd (length xs) j _ _ _ ltac:(lia) Hi' Hj'). }
  assert (wp (return_value all_refs mutable_refs t) s1 (fun v s2 => exists rho2, results_ok rho2 (v :: made) s2 /\
    map (conc rho2 s2.(borrow_graph)) (v :: made) = rev (xs ++ [y]))) as Hone.
  { apply (one_result rho1 made s1 t y); [done|done|..].
    - intros rho2 v s2 H1 H2 H3. exists rho2. split; [done|]. rewrite rev_app_distr, <- Hmade. simpl. by rewrite H3, H2.
    - intros mu p' ->. by apply Hdis. }
  apply wp_bind. eapply wp_mono; [exact Hone|]. intros v s2 (rho2 & HR2 & Hm2).
  apply wp_bind. eapply wp_mono; [apply (IH ys rho2 (v :: made) (xs ++ [y]) s2); try done|].
  { by rewrite <- (assoc_L (++)). }
  intros vs s3 (rho3 & HR3 & Hm3). apply wp_ret. exists rho3.
  assert (rev (v :: vs) ++ made = rev vs ++ v :: made) as -> by (simpl; by rewrite <- (assoc_L (++))).
  split; [done|]. rewrite Hm3. by rewrite <- (assoc_L (++)).
Qed.
End calls.

(** * The whole call *)

Lemma release_all_sound rho ids : forall vs s,
  state_ok rho (map AbstractValue.Reference ids ++ vs) s ->
  wp (st_for ids release) s (fun _ s' => state_ok rho vs s' /\ same_frame rho rho vs s s').
Proof.
  induction ids as [|id ids IH]; intros vs s HS; cbn [st_for]; [by apply wp_ret|].
  apply wp_bind. eapply wp_mono; [exact (release_sound rho id (map AbstractValue.Reference ids ++ vs) s HS)|]. intros ? s1 [HS1 HF1].
  eapply wp_mono; [by apply IH|]. intros ? s2 [HS2 HF2]. split; [done|].
  eapply same_frame_trans; [exact HF1|exact HF2|]. intros v Hv. apply elem_of_app. by right.
Qed.

Lemma refs_app vs vs' : refs (vs ++ vs') = refs vs ++ refs vs'.
Proof. apply omap_app. Qed.

Lemma refs_references ids : refs (map AbstractValue.Reference ids) = ids.
Proof. unfold refs. induction ids as [|id ids IH]; cbn; [done|by f_equal]. Qed.

Lemma refs_arguments rho args st s ids :
  state_ok rho (args ++ st) s -> BTreeSet.sorted ids -> (forall x, x ∈ ids <-> x ∈ refs args) -> refs args ≡ₚ ids.
Proof.
  intros HS Hs Hids. pose proof (al_nodup _ _ _ _ (so_aliasing _ _ _ HS)) as Hnd.
  apply list.NoDup_cons in Hnd as [_ Hnd]. rewrite !refs_app in Hnd. do 2 apply list.NoDup_app in Hnd as [Hnd _].
  apply NoDup_Permutation; [done|by apply BTreeSet.sorted_NoDup|]. intros x. by rewrite Hids.
Qed.

Lemma call_sound rho args st s acquired rts ys :
  state_ok rho (args ++ st) s ->
  Forall2 (result_from (map (conc rho s.(borrow_graph)) args)) rts ys -> disjoint ys ->
  wp (ReferenceState.call args acquired rts) s (fun vs s' =>
    (exists rho', state_ok rho' (rev vs ++ st) s' /\ same_frame rho rho' st s s' /\
       map (conc rho' s'.(borrow_graph)) (rev vs) = rev ys) /\
    (forall sd, sd ∈ acquired -> allowed Take [Label.Global sd] (values (frame_of rho (args ++ st) s))) /\
    (forall id, id ∈ refs args -> mut s.(borrow_graph) id -> no_edges s id)).
Proof.
  intros HS HF Hd. unfold ReferenceState.call. apply wp_bind. eapply wp_mono; [by apply (acquired_ok rho)|].
  intros ? s' [-> Hacq]. apply wp_bind. eapply wp_mono.
  { apply (check_arguments_sound rho args st s HS); [constructor|done]. }
  intros [all_refs mutable_refs] s' (-> & Hs & Hall & Hmut & Hw).
  assert (forall x, x ∈ all_refs <-> x ∈ refs args) as Hall' by (intros x; rewrite Hall, elem_of_nil; tauto).
  assert (forall x, x ∈ mutable_refs <-> x ∈ refs args /\ mut s.(borrow_graph) x) as Hmut'.
  { intros x. rewrite Hmut, elem_of_nil. tauto. }
  apply wp_bind. eapply wp_mono.
  { apply (results_sound rho args st s HS Hw all_refs mutable_refs Hall' Hmut' rts ys rho [] [] s); try done. }
  intros vs s2 (rho2 & [R1 R2 _] & Hvs). rewrite app_nil_r in R1, Hvs. apply wp_bind.
  eapply wp_mono; [apply (release_all_sound rho2 all_refs (rev vs ++ st))|].
  { eapply state_ok_refs; [|exact R1]. rewrite !refs_app, refs_references.
    rewrite (refs_arguments rho args st s all_refs) by done.
    rewrite !(assoc_L (++)). by rewrite (Permutation_app_comm (refs (rev vs))). }
  intros ? s3 [HS3 HF3]. apply wp_ret. split; [|done]. exists rho2. split; [done|]. split.
  - eapply same_frame_trans; [exact R2| |by intros v Hv; apply elem_of_app; right].
    destruct HF3 as (E1 & E2 & E3). split; [done|]. split; [done|]. intros v Hv. apply E3. set_solver.
  - etransitivity; [|exact Hvs]. eapply same_frame_stack; [exact HF3|]. intros v Hv. apply elem_of_app. by left.
Qed.

Import ReferenceState ReferenceSafety Machine.

(** * Running the analysis *)

(** [m] does not panic and does not run out of fuel; if it succeeds, the result, the stack
    and the state satisfy [Q]. *)
Definition wpa {A} (m : AM A) (st : list AbstractValue) (s : ReferenceState)
    (Q : A -> list AbstractValue -> ReferenceState -> Prop) : Prop :=
  match m (st, s) with
  | Ok (st', inr (a, s')) => Q a st' s'
  | Ok (_, inl _) => True
  | Err _ | Panic | OutOfFuel => False
  end.

Section rules.
Context {A : Type} (st : list AbstractValue) (s : ReferenceState).

Lemma wpa_bind {B} (m : AM A) (f : A -> AM B) Q :
  wpa m st s (fun a st' s' => wpa (f a) st' s' Q) -> wpa (a ← m; f a) st s Q.
Proof. unfold wpa, mbind, AM_bind, mbind, result_bind. by destruct (m (st, s)) as [[st' [e|[a s']]]| | |]. Qed.

Lemma wpa_mono (m : AM A) (Q Q' : A -> list AbstractValue -> ReferenceState -> Prop) :
  wpa m st s Q -> (forall a st' s', Q a st' s' -> Q' a st' s') -> wpa m st s Q'.
Proof. unfold wpa. destruct (m (st, s)) as [[st' [e|[a s']]]| | |]; auto. Qed.

Lemma wpa_ret (a : A) (Q : A -> list AbstractValue -> ReferenceState -> Prop) : Q a st s -> wpa (mret a) st s Q.
Proof. done. Qed.

Lemma wpa_on_state (m : ReferenceState.M A) Q : wp m s (fun a s' => Q a st s') -> wpa (on_state m) st s Q.
Proof. unfold wp, wpa, on_state. by destruct (m s) as [[a s']| | |]. Qed.

Lemma wpa_lift (r : R A) a (Q : A -> list AbstractValue -> ReferenceState -> Prop) : r = Ok a -> Q a st s -> wpa (lift r) st s Q.
Proof. by intros ->. Qed.

Lemma wpa_push_result (m : ReferenceState.M AbstractValue) Q :
  wp m s (fun v s' => Q () (v :: st) s') -> wpa (push_result m) st s Q.
Proof. unfold wp, wpa, push_result, on_state, push, mbind, AM_bind, mbind, result_bind. by destruct (m s) as [[a s']| | |]. Qed.
End rules.

Section rules_stack.
Context (s : ReferenceState).

Lemma wpa_pop v st (Q : AbstractValue -> list AbstractValue -> ReferenceState -> Prop) : Q v st s -> wpa pop (v :: st) s Q.
Proof. done. Qed.

Lemma wpa_pop_value st (Q : () -> list AbstractValue -> ReferenceState -> Prop) :
  Q () st s -> wpa pop_value (AbstractValue.NonReference :: st) s Q.
Proof. done. Qed.

Lemma wpa_pop_ref id st (Q : RefID -> list AbstractValue -> ReferenceState -> Prop) :
  Q id st s -> wpa pop_ref (AbstractValue.Reference id :: st) s Q.
Proof. done. Qed.

Lemma wpa_repeat_pop vs : forall st (Q : list AbstractValue -> list AbstractValue -> ReferenceState -> Prop),
  Q vs st s -> wpa (repeat_am (length vs) pop) (vs ++ st) s Q.
Proof.
  induction vs as [|v vs IH]; intros st Q HQ; simpl; [done|].
  apply wpa_bind, wpa_pop, wpa_bind, IH. by apply wpa_ret.
Qed.

Lemma wpa_repeat_pop_value n : forall st (Q : list () -> list AbstractValue -> ReferenceState -> Prop),
  (forall us, Q us st s) -> wpa (repeat_am n pop_value) (repeat AbstractValue.NonReference n ++ st) s Q.
Proof.
  induction n as [|n IH]; intros st Q HQ; simpl; [by apply wpa_ret|].
  apply wpa_bind, wpa_pop_value, wpa_bind, IH. intros us. by apply wpa_ret.
Qed.

Lemma repeat_snoc {A} (x : A) n l : repeat x n ++ x :: l = x :: repeat x n ++ l.
Proof. induction n as [|n IH]; simpl; [done|]. by rewrite IH. Qed.

(** An operation that pushes a plain value, [n] times. *)
Lemma wpa_repeat_push {A} (m : AM A) n :
  (forall st Q, (forall u, Q u (AbstractValue.NonReference :: st) s) -> wpa m st s Q) ->
  forall st (Q : list A -> list AbstractValue -> ReferenceState -> Prop),
  (forall us, Q us (repeat AbstractValue.NonReference n ++ st) s) -> wpa (repeat_am n m) st s Q.
Proof.
  intros Hm. induction n as [|n IH]; intros st Q HQ; simpl; [by apply wpa_ret|].
  apply wpa_bind, Hm. intros u. apply wpa_bind, IH. intros us. apply wpa_ret. rewrite repeat_snoc. apply HQ.
Qed.

Lemma wpa_pop_values fuel : forall num st (Q : () -> list AbstractValue -> ReferenceState -> Prop),
  (Z.to_nat num <= fuel)%nat -> Q () st s ->
  wpa (pop_values fuel num) (repeat AbstractValue.NonReference (Z.to_nat num) ++ st) s Q.
Proof.
  induction fuel as [|fuel IH]; intros num st Q Hn HQ; simpl; destruct (Z.leb_spec num 0) as [Hle|Hgt]; try lia.
  - rewrite Z2Nat.nonpos by done. by apply wpa_ret.
  - rewrite Z2Nat.nonpos by done. by apply wpa_ret.
  - replace (Z.to_nat num) with (S (Z.to_nat (num - 1))) by lia. apply wpa_bind, wpa_pop_value, IH; [lia|done].
Qed.

Lemma wpa_pop_num num st (Q : () -> list AbstractValue -> ReferenceState -> Prop) :
  Q () st s -> wpa (pop_num num) (repeat AbstractValue.NonReference (Z.to_nat num) ++ st) s Q.
Proof. intros HQ. unfold pop_num. apply wpa_pop_values; [|done]. simpl. rewrite length_app, repeat_length. lia. Qed.
End rules_stack.

(** * Frames *)

(** The state stands for the frame [c] of a function with [n] locals. *)
Definition stands_for (n : Z) (st : list AbstractValue) (s : ReferenceState) (c : Frame) : Prop :=
  exists rho, state_ok rho st s /\ frame_of rho st s = c /\ s.(num_locals) = n.

Lemma leads_stands rho st s x v s' :
  leads rho st s x v s' ->
  stands_for s.(num_locals) (v :: st) s' (Machine.mk (x :: map (conc rho s.(borrow_graph)) st)
    (conc_locals rho s.(borrow_graph) s.(ReferenceState.locals))).
Proof.
  intros (rho' & H1 & H2 & H3). exists rho'. split; [done|]. split; [|apply H2]. unfold frame_of. simpl. rewrite H3.
  rewrite (same_frame_stack rho rho' st s s' st) by done. by rewrite (same_frame_locals rho rho' st s s').
Qed.

Lemma same_stands rho rho' st s s' : state_ok rho' st s' -> same_frame rho rho' st s s' ->
  stands_for s.(num_locals) st s' (frame_of rho st s).
Proof. intros H1 H2. exists rho'. split; [done|]. split; [by apply same_frame_eq|apply H2]. Qed.

Lemma other_values rho G st s :
  map (conc rho G) st ++ local_values (conc_locals rho G s.(ReferenceState.locals)) = map (conc rho G) (st ++ stored s).
Proof. by rewrite local_values_conc, map_app. Qed.

Lemma map_repeat_inv rho G st n S :
  map (conc rho G) st = repeat Plain n ++ S ->
  exists st', st = repeat AbstractValue.NonReference n ++ st' /\ S = map (conc rho G) st'.
Proof.
  revert st. induction n as [|n IH]; intros st; simpl; [by exists st|].
  destruct st as [|[id|] st]; simpl; [done|done|]. intros [= H]. destruct (IH st H) as (st' & -> & ->). by exists st'.
Qed.

(** * The instructions *)

Section instructions.
Context (resolver : BinaryIndexedView) (function_view : FunctionView) (name_def_map : BTreeMap FunctionDefinitionIndex).

Lemma pack_plain d st s (Q : () -> list AbstractValue -> ReferenceState -> Prop) :
  Q () (AbstractValue.NonReference :: st) s -> wpa (pack d) (repeat AbstractValue.NonReference (num_fields d) ++ st) s Q.
Proof. intros HQ. apply wpa_bind, wpa_repeat_pop_value. intros _. exact HQ. Qed.

Lemma unpack_plain d st s (Q : () -> list AbstractValue -> ReferenceState -> Prop) :
  Q () (repeat AbstractValue.NonReference (num_fields d) ++ st) s -> wpa (unpack d) (AbstractValue.NonReference :: st) s Q.
Proof.
  intros HQ. apply wpa_bind, wpa_pop_value, wpa_bind, wpa_repeat_push; [|by intros _; apply wpa_ret].
  intros st' Q' HQ'. apply HQ'.
Qed.

Lemma value_for_pushes t st s (Q : () -> list AbstractValue -> ReferenceState -> Prop) :
  SignatureToken.is_reference t = false -> Q () (AbstractValue.NonReference :: st) s ->
  wpa (push_result (ReferenceState.value_for t)) st s Q.
Proof. intros Ht HQ. apply wpa_push_result. eapply wp_run; [by apply value_for_plain|done]. Qed.

(** Instructions on plain values. *)
Lemma plain_values_sound b n m st s :
  plain_effect resolver b = Ok (Some (n, m)) ->
  wpa (execute_inner resolver function_view name_def_map b) (repeat AbstractValue.NonReference n ++ st) s
    (fun _ st' s' => st' = repeat AbstractValue.NonReference m ++ st /\ s' = s).
Proof.
  destruct b; cbn [plain_effect execute_inner]; intros H; simplify_eq/=; try done.
  all: apply res_bind_ok in H as (d & Hd & H); try (destruct (SignatureToken.is_reference _) eqn:Et; [done|]); simplify_eq/=.
  - apply wpa_bind. eapply wpa_lift; [exact Hd|]. by apply value_for_pushes.
  - apply wpa_bind. eapply wpa_lift; [exact Hd|]. by apply pack_plain.
  - apply wpa_bind. eapply wpa_lift; [exact Hd|]. by apply pack_plain.
  - apply wpa_bind. eapply wpa_lift; [exact Hd|]. by apply unpack_plain.
  - apply wpa_bind. eapply wpa_lift; [exact Hd|]. by apply unpack_plain.
  - apply wpa_bind, wpa_pop_num, wpa_bind. eapply wpa_lift; [exact Hd|]. by apply (value_for_pushes (SignatureToken.Vector d)).
  - apply wpa_bind, wpa_pop_value, wpa_bind. eapply wpa_lift; [exact Hd|].
    apply wpa_bind, wpa_repeat_push; [|by intros _; apply wpa_ret].
    intros st' Q' HQ'. by apply value_for_pushes.
Qed.

Lemma not_call_permitted b c :
  called resolver b = Ok None -> (forall a p others, accesses resolver name_def_map b c a p others -> allowed a p others) ->
  permitted resolver name_def_map b c.
Proof. intros Hb H. split; [done|]. intros h acquired ps rs arguments S [Hc _ _ _]. congruence. Qed.

(** They access nothing. *)
Lemma plain_permitted b nm c : plain_effect resolver b = Ok (Some nm) -> permitted resolver name_def_map b c.
Proof.
  intros Hb. apply not_call_permitted; [by destruct b|]. intros a p others Ha. exfalso.
  destruct Ha as [| | | | |b ? ? ? ? ? ? [-> | ->]|b ? ? ? ? ? ? [-> | ->]| | |b ? ? ? ? ? Hf|b ? ? ? Hf|b ? ? Hf| | | | |b ? ? ? ? ? ? [Hf _ _ _] _|b ? ? ? ? ? ? ? ? ? [Hf _ _ _] _];
    try done; try (by destruct b); by destruct mut_.
Qed.

Lemma allowed_plain (a : Access) (p : place) (vs : list Value) : allowed a p vs -> allowed a p (Plain :: vs).
Proof. intros H mut_ p' Hin. apply H. by apply elem_of_cons in Hin as [?|?]. Qed.

Definition sound b rho (st : list AbstractValue) (s : ReferenceState) (c' : Frame) : Prop :=
  wpa (execute_inner resolver function_view name_def_map b) st s
    (fun _ st' s' => permitted resolver name_def_map b (frame_of rho st s) /\ stands_for s.(num_locals) st' s' c').

(** From the access that one of the instructions makes. *)
Ltac accesses_of :=
  apply not_call_permitted; [done|]; intros ??? Ha; inversion Ha; clear Ha;
  repeat match goal with
  | H : _ \/ _ |- _ => destruct H as [H|H]; try done
  | H : (if ?m then _ else _) = _ |- _ => destruct m; try done
  | H : _ = (if ?m then _ else _) |- _ => destruct m; try done
  | H : call_to _ _ _ _ _ _ _ |- _ => by destruct H
  end; simplify_eq/=; try done; rewrite ?other_values; try done.

Section one.
Context (rho : RefID -> place) (st : list AbstractValue) (s : ReferenceState).
Abbreviation G := (s.(borrow_graph)).
Abbreviation cst := (map (conc rho G)).
Abbreviation L := (conc_locals rho G s.(ReferenceState.locals)).

Lemma step_plain_sound b n m :
  plain_effect resolver b = Ok (Some (n, m)) -> state_ok rho (repeat AbstractValue.NonReference n ++ st) s ->
  sound b rho (repeat AbstractValue.NonReference n ++ st) s (Machine.mk (repeat Plain m ++ cst st) L).
Proof.
  intros Hb HS. eapply wpa_mono; [by apply plain_values_sound|]. intros ? st' s' [-> ->].
  split; [by eapply plain_permitted|]. exists rho. split.
  - eapply state_ok_refs; [|exact HS]. rewrite !refs_app. assert (forall k, refs (repeat AbstractValue.NonReference k) = []) as Hr.
    { induction k as [|k IH]; [done|exact IH]. }
    by rewrite !Hr.
  - split; [|done]. unfold frame_of. by rewrite map_app, map_repeat.
Qed.

Lemma step_pop_sound v : state_ok rho (v :: st) s -> sound Bytecode.Pop rho (v :: st) s (Machine.mk (cst st) L).
Proof.
  intros HS. apply wpa_bind, wpa_pop, wpa_on_state. eapply wp_mono; [by apply (release_value_sound rho)|].
  intros ? s' [H1 H2]. split; [accesses_of|]. by apply (same_stands rho rho st s).
Qed.

Lemma plain_local i : BTreeMap.get i L = Some Plain -> BTreeMap.get i s.(ReferenceState.locals) = Some AbstractValue.NonReference.
Proof. rewrite conc_get. by destruct (BTreeMap.get i _) as [[id|]|]. Qed.

Lemma step_copy_loc_sound i v :
  state_ok rho st s -> BTreeMap.get i s.(ReferenceState.locals) = Some v ->
  sound (Bytecode.CopyLoc i) rho st s (Machine.mk (conc rho G v :: cst st) L).
Proof.
  intros HS Hv. apply wpa_push_result. eapply wp_mono; [by apply (copy_loc_sound rho st s)|].
  intros w s' [H1 H2]. split; [|by apply leads_stands]. accesses_of.
  apply H2. match goal with H : _ = Some Plain |- _ => apply plain_local in H end. congruence.
Qed.

Lemma step_move_loc_sound i v :
  state_ok rho st s -> BTreeMap.get i s.(ReferenceState.locals) = Some v ->
  sound (Bytecode.MoveLoc i) rho st s (Machine.mk (conc rho G v :: cst st) (BTreeMap.remove i L)).
Proof.
  intros HS Hv. apply wpa_push_result. eapply wp_mono; [by apply (move_loc_sound rho st s)|].
  intros w s' (-> & -> & H1 & H2). split.
  - accesses_of. apply H2. match goal with H : _ = Some Plain |- _ => apply plain_local in H end. congruence.
  - exists rho. split; [done|]. split; [|done]. unfold frame_of. simpl. by rewrite conc_remove.
Qed.

Lemma step_st_loc_sound i v :
  state_ok rho (v :: st) s -> 0 <= i < s.(num_locals) ->
  sound (Bytecode.StLoc i) rho (v :: st) s (Machine.mk (cst st) (BTreeMap.insert i (conc rho G v) L)).
Proof.
  intros HS Hi. apply wpa_bind, wpa_pop, wpa_on_state. eapply wp_mono; [by apply (st_loc_sound rho st s)|].
  intros ? s' (H1 & Hn & H2 & H3). split; [|by exists rho].
  accesses_of. apply H3. by apply plain_local.
Qed.

Lemma step_freeze_sound id :
  state_ok rho (AbstractValue.Reference id :: st) s -> mut G id ->
  sound Bytecode.FreezeRef rho (AbstractValue.Reference id :: st) s (Machine.mk (Ref false (rho id) :: cst st) L).
Proof.
  intros HS Hm. apply wpa_bind, wpa_pop_ref, wpa_push_result. eapply wp_mono; [by apply (freeze_ref_sound rho st s)|].
  intros w s' [H1 H2]. split; [accesses_of|by apply leads_stands].
Qed.

Lemma compare_run b v1 v2 Q :
  b = Bytecode.Eq \/ b = Bytecode.Neq -> wp (ReferenceState.comparison v1 v2) s (fun w s' => Q () (w :: st) s') ->
  wpa (execute_inner resolver function_view name_def_map b) (v1 :: v2 :: st) s Q.
Proof. intros [-> | ->] H; by apply wpa_bind, wpa_pop, wpa_bind, wpa_pop, wpa_push_result. Qed.

Lemma step_compare_refs_sound b id1 id2 :
  b = Bytecode.Eq \/ b = Bytecode.Neq ->
  state_ok rho (AbstractValue.Reference id1 :: AbstractValue.Reference id2 :: st) s ->
  sound b rho (AbstractValue.Reference id1 :: AbstractValue.Reference id2 :: st) s (Machine.mk (Plain :: cst st) L).
Proof.
  intros Hb HS. apply compare_run; [done|]. eapply wp_mono; [by apply (comparison_refs_sound rho st s)|].
  intros w s' (H1 & H2 & H3). split; [|by apply leads_stands]. destruct Hb as [-> | ->]; accesses_of.
Qed.

Lemma step_compare_values_sound b :
  b = Bytecode.Eq \/ b = Bytecode.Neq -> state_ok rho st s ->
  sound b rho (AbstractValue.NonReference :: AbstractValue.NonReference :: st) s (Machine.mk (Plain :: cst st) L).
Proof.
  intros Hb HS. apply compare_run; [done|]. eapply wp_run; [reflexivity|].
  split; [destruct Hb as [-> | ->]; accesses_of|]. apply (leads_stands rho st s), leads_plain, HS.
Qed.

Lemma step_read_ref_sound id :
  state_ok rho (AbstractValue.Reference id :: st) s ->
  sound Bytecode.ReadRef rho (AbstractValue.Reference id :: st) s (Machine.mk (Plain :: cst st) L).
Proof.
  intros HS. apply wpa_bind, wpa_pop_ref, wpa_push_result. eapply wp_mono; [by apply (read_ref_sound rho st s)|].
  intros w s' [H1 H2]. split; [accesses_of|by apply leads_stands].
Qed.

Lemma step_write_ref_sound id :
  state_ok rho (AbstractValue.Reference id :: st) s -> mut G id ->
  sound Bytecode.WriteRef rho (AbstractValue.Reference id :: AbstractValue.NonReference :: st) s (Machine.mk (cst st) L).
Proof.
  intros HS Hm. apply wpa_bind, wpa_pop_ref, wpa_bind, wpa_pop_value, wpa_on_state.
  eapply wp_mono; [by apply (write_ref_sound rho st s)|].
  intros ? s' [[H1 H2] H3]. split; [|by apply (same_stands rho rho st s)].
  accesses_of. by apply allowed_plain.
Qed.

Lemma step_borrow_loc_sound (mu : bool) i :
  state_ok rho st s -> (mu = true -> has_full_borrows (frame_root s) s = Ok false) ->
  sound (if mu then Bytecode.MutBorrowLoc i else Bytecode.ImmBorrowLoc i) rho st s
    (Machine.mk (Ref mu [Label.Local i] :: cst st) L).
Proof.
  intros HS Hf. pose proof (borrow_loc_sound rho st s mu i HS Hf) as H.
  destruct mu; apply wpa_push_result; (eapply wp_mono; [exact H|]); intros w s' [H1 H2];
    (split; [accesses_of; by apply H2|by apply leads_stands]).
Qed.

(** * Fields, globals and vectors *)

Lemma field_permitted b (mu : bool) f id :
  borrowed_field resolver b = Ok (Some (mu, f)) ->
  (mu = false -> allowed Inspect (rho id ++ [Label.Field f]) (map (conc rho G) (st ++ stored s))) ->
  permitted resolver name_def_map b (frame_of rho (AbstractValue.Reference id :: st) s).
Proof.
  intros Hb Hal. destruct b; cbn [borrowed_field] in Hb; try done; accesses_of.
  all: try (by apply Hal).
  all: match goal with H : _ = Ok (Some (false, _)) |- _ => rewrite Hb in H; injection H as -> -> end; by apply Hal.
Qed.

Lemma borrow_field_run b (mu : bool) f id Q :
  borrowed_field resolver b = Ok (Some (mu, f)) ->
  wp (ReferenceState.borrow_field mu id f) s (fun w s' => Q () (w :: st) s') ->
  wpa (execute_inner resolver function_view name_def_map b) (AbstractValue.Reference id :: st) s Q.
Proof.
  intros Hb H. destruct b; cbn [borrowed_field execute_inner] in *; try done; simplify_eq.
  all: try (by apply wpa_bind, wpa_pop_ref, wpa_push_result).
  all: apply res_bind_ok in Hb as (inst & Hinst & ?); simplify_eq/=; apply wpa_bind.
  all: (eapply wpa_lift; [exact Hinst|]); by apply wpa_bind, wpa_pop_ref, wpa_push_result.
Qed.

Lemma step_borrow_field_sound b (mu : bool) f id :
  borrowed_field resolver b = Ok (Some (mu, f)) -> (mu = true -> mut G id) ->
  state_ok rho (AbstractValue.Reference id :: st) s ->
  sound b rho (AbstractValue.Reference id :: st) s (Machine.mk (Ref mu (rho id ++ [Label.Field f]) :: cst st) L).
Proof.
  intros Hb Hm HS. eapply borrow_field_run; [done|]. eapply wp_mono; [by apply (borrow_field_sound rho st s)|].
  intros w s' [H1 H2]. split; [by eapply field_permitted|by apply leads_stands].
Qed.

(** What an instruction that borrows or moves a global accesses. *)
Lemma global_permitted b (mu : bool) sd c :
  borrowed_global resolver b = Ok (Some (mu, sd)) -> allowed (if mu then Take else Inspect) [Label.Global sd] (values c) ->
  permitted resolver name_def_map b c.
Proof.
  intros Hb Hal. destruct b; cbn [borrowed_global] in Hb; try done; accesses_of.
  all: match goal with H : _ = Ok (Some (_, _)) |- _ => rewrite Hb in H; injection H as -> -> end; done.
Qed.

Lemma moved_permitted b sd c :
  moved_global resolver b = Ok (Some sd) -> allowed Take [Label.Global sd] (values c) ->
  permitted resolver name_def_map b c.
Proof.
  intros Hb Hal. destruct b; cbn [moved_global] in Hb; try done; accesses_of.
  all: match goal with H : _ = Ok (Some _) |- _ => rewrite Hb in H; injection H as -> end; done.
Qed.

Lemma borrow_global_run b (mu : bool) sd Q :
  borrowed_global resolver b = Ok (Some (mu, sd)) ->
  wp (ReferenceState.borrow_global mu sd) s (fun w s' => Q () (w :: st) s') ->
  wpa (execute_inner resolver function_view name_def_map b) (AbstractValue.NonReference :: st) s Q.
Proof.
  intros Hb H. destruct b; cbn [borrowed_global execute_inner] in *; try done; simplify_eq.
  all: try apply res_bind_ok in Hb as (inst & Hinst & ?); simplify_eq/=; apply wpa_bind, wpa_pop_value.
  all: try (apply wpa_bind; eapply wpa_lift; [exact Hinst|]); by apply wpa_push_result.
Qed.

Lemma move_from_run b sd Q :
  moved_global resolver b = Ok (Some sd) ->
  wp (ReferenceState.move_from sd) s (fun w s' => Q () (w :: st) s') ->
  wpa (execute_inner resolver function_view name_def_map b) (AbstractValue.NonReference :: st) s Q.
Proof.
  intros Hb H. destruct b; cbn [moved_global execute_inner] in *; try done; simplify_eq.
  all: try apply res_bind_ok in Hb as (inst & Hinst & ?); simplify_eq/=; apply wpa_bind, wpa_pop_value.
  all: try (apply wpa_bind; eapply wpa_lift; [exact Hinst|]); by apply wpa_push_result.
Qed.

Lemma step_borrow_global_sound b (mu : bool) sd q :
  borrowed_global resolver b = Ok (Some (mu, sd)) -> state_ok rho st s ->
  sound b rho (AbstractValue.NonReference :: st) s (Machine.mk (Ref mu (Label.Global sd :: q) :: cst st) L).
Proof.
  intros Hb HS. eapply borrow_global_run; [done|]. eapply wp_mono; [by apply (borrow_global_sound rho st s _ _ q)|].
  intros w s' [H1 H2]. split; [|by apply leads_stands]. eapply global_permitted; [done|]. by apply allowed_plain.
Qed.

Lemma step_move_from_sound b sd :
  moved_global resolver b = Ok (Some sd) -> state_ok rho st s ->
  sound b rho (AbstractValue.NonReference :: st) s (Machine.mk (Plain :: cst st) L).
Proof.
  intros Hb HS. eapply move_from_run; [done|]. eapply wp_mono; [by apply (move_from_sound rho st s)|].
  intros w s' [H1 H2]. split; [|by apply leads_stands]. eapply moved_permitted; [done|]. by apply allowed_plain.
Qed.

Lemma step_move_to_sound b x v :
  b = Bytecode.MoveTo x \/ b = Bytecode.MoveToGeneric x -> state_ok rho (v :: st) s ->
  sound b rho (AbstractValue.NonReference :: v :: st) s (Machine.mk (cst st) L).
Proof.
  intros Hb HS. assert (wp (ReferenceState.release_value v) s (fun _ s' => stands_for s.(num_locals) st s' (Machine.mk (cst st) L))) as H.
  { eapply wp_mono; [by apply (release_value_sound rho)|]. intros ? s' [H1 H2]. by apply (same_stands rho rho st s). }
  destruct Hb as [-> | ->]; apply wpa_bind, wpa_pop_value, wpa_bind, wpa_pop, wpa_on_state;
    (eapply wp_mono; [exact H|]); intros ? s' Hs'; (split; [accesses_of|done]).
Qed.

Lemma step_vec_len_sound idx id :
  state_ok rho (AbstractValue.Reference id :: st) s ->
  sound (Bytecode.VecLen idx) rho (AbstractValue.Reference id :: st) s (Machine.mk (Plain :: cst st) L).
Proof.
  intros HS. apply wpa_bind, wpa_pop, wpa_bind, wpa_on_state.
  eapply wp_mono; [by apply (vector_op_sound rho st s id false)|]. intros ? s' [[H1 H2] _].
  apply value_for_pushes; [done|]. split; [accesses_of|]. apply (leads_stands rho st s). exists rho.
  split; [by destruct H1|by split].
Qed.

Lemma step_vec_borrow_sound (mu : bool) idx id q :
  state_ok rho (AbstractValue.Reference id :: st) s -> element_checked s mu id ->
  sound (if mu then Bytecode.VecMutBorrow idx else Bytecode.VecImmBorrow idx) rho
    (AbstractValue.NonReference :: AbstractValue.Reference id :: st) s (Machine.mk (Ref mu (rho id ++ q) :: cst st) L).
Proof.
  intros HS Hm. pose proof (vector_element_borrow_sound rho st s mu id q HS Hm) as H.
  destruct mu; apply wpa_bind, wpa_pop_value, wpa_bind, wpa_pop, wpa_push_result; (eapply wp_mono; [exact H|]);
    intros w s' [H1 H2]; (split; [accesses_of|by apply leads_stands]).
Qed.

(** A vector operation that writes. *)
Lemma vector_write_sound id :
  state_ok rho (AbstractValue.Reference id :: st) s -> mut G id ->
  wp (ReferenceState.vector_op (AbstractValue.Reference id) true) s (fun _ s' =>
    leads rho st s Plain AbstractValue.NonReference s' /\ stands_for s.(num_locals) st s' (Machine.mk (cst st) L) /\
    allowed Write (rho id) (cst (st ++ stored s))).
Proof.
  intros HS Hm. eapply wp_mono; [by apply (vector_op_sound rho st s id true)|]. intros ? s' [[H1 H2] H3].
  split; [|split; [by apply (same_stands rho rho st s)|by apply H3]]. exists rho. split; [by destruct H1|done].
Qed.

Lemma step_vec_push_back_sound idx id :
  state_ok rho (AbstractValue.Reference id :: st) s -> mut G id ->
  sound (Bytecode.VecPushBack idx) rho (AbstractValue.NonReference :: AbstractValue.Reference id :: st) s
    (Machine.mk (cst st) L).
Proof.
  intros HS Hm. apply wpa_bind, wpa_pop_value, wpa_bind, wpa_pop, wpa_on_state.
  eapply wp_mono; [by apply vector_write_sound|]. intros ? s' (_ & H2 & H3). split; [accesses_of|done].
Qed.

Lemma step_vec_pop_back_sound idx t id :
  vec_element_type resolver idx = Ok t -> SignatureToken.is_reference t = false ->
  state_ok rho (AbstractValue.Reference id :: st) s -> mut G id ->
  sound (Bytecode.VecPopBack idx) rho (AbstractValue.Reference id :: st) s (Machine.mk (Plain :: cst st) L).
Proof.
  intros Ht Hr HS Hm. apply wpa_bind, wpa_pop, wpa_bind, wpa_on_state.
  eapply wp_mono; [by apply vector_write_sound|]. intros ? s' (H1 & _ & H3).
  apply wpa_bind. eapply wpa_lift; [exact Ht|]. apply value_for_pushes; [done|].
  split; [accesses_of|by apply leads_stands].
Qed.

Lemma step_vec_swap_sound idx id :
  state_ok rho (AbstractValue.Reference id :: st) s -> mut G id ->
  sound (Bytecode.VecSwap idx) rho
    (AbstractValue.NonReference :: AbstractValue.NonReference :: AbstractValue.Reference id :: st) s
    (Machine.mk (cst st) L).
Proof.
  intros HS Hm. apply wpa_bind, wpa_pop_value, wpa_bind, wpa_pop_value, wpa_bind, wpa_pop, wpa_on_state.
  eapply wp_mono; [by apply vector_write_sound|]. intros ? s' (_ & H2 & H3). split; [accesses_of|done].
Qed.

(** * Calls *)

Lemma call_to_unique b h acquired ps rs h' acquired' ps' rs' :
  call_to resolver name_def_map b h acquired ps rs -> call_to resolver name_def_map b h' acquired' ps' rs' ->
  acquired' = acquired /\ ps' = ps.
Proof. intros [H1 H2 H3 _] [H1' H2' H3' _]. rewrite H1 in H1'. injection H1' as <-. split; congruence. Qed.

(** The only accesses of a call. *)
Lemma call_accesses b h acquired ps rs c a p others :
  call_to resolver name_def_map b h acquired ps rs -> accesses resolver name_def_map b c a p others ->
  (exists sd, sd ∈ acquired /\ a = Take /\ p = [Label.Global sd] /\ others = values c) \/
  (exists before after S L, a = Write /\ c = Machine.mk ((before ++ Ref true p :: after) ++ S) L /\
     others = (before ++ after) ++ S ++ local_values L /\ length (before ++ Ref true p :: after) = length ps).
Proof.
  intros Hc Ha. pose proof (ct_handle _ _ _ _ _ _ _ Hc) as Hb.
  destruct Ha as [| | | | |? ? ? ? ? ? ? [-> | ->]|? ? ? ? ? ? ? [-> | ->]| | |b ? ? ? ? ? Hf|b ? ? ? Hf|b ? ? Hf|? mut_| | | |
    b h' acq' ps' rs' sd c Hc' Hsd|b h' acq' ps' rs' before p after S L Hc' Hlen];
    try done; try (by destruct b); try (by destruct mut_).
  all: destruct (call_to_unique _ _ _ _ _ _ _ _ _ Hc Hc') as [-> ->].
  - left. by exists sd.
  - right. by exists before, after, S, L.
Qed.

Lemma call_run b h acquired ps rs args Q :
  call_to resolver name_def_map b h acquired ps rs -> length args = length ps ->
  wp (ReferenceState.call args acquired rs) s (fun vs s' => Q () (rev vs ++ st) s') ->
  wpa (execute_inner resolver function_view name_def_map b) (args ++ st) s Q.
Proof.
  intros [H1 H2 H3 H4] Hlen H.
  assert (wpa (ReferenceSafety.call resolver name_def_map h) (args ++ st) s Q) as Hcall.
  { apply wpa_bind. eapply wpa_lift; [exact H3|]. rewrite <- Hlen. apply wpa_bind, wpa_repeat_pop, wpa_bind.
    eapply wpa_lift; [exact H2|]. apply wpa_bind. eapply wpa_lift; [exact H4|]. apply wpa_bind, wpa_on_state.
    eapply wp_mono; [exact H|]. done. }
  destruct b; cbn [called execute_inner] in *; try done.
  - apply res_bind_ok in H1 as (h' & Hh & ?); simplify_eq/=. apply wpa_bind. by eapply wpa_lift; [exact Hh|].
  - apply res_bind_ok in H1 as (inst & Hi & H1), H1 as (h' & Hh & ?); simplify_eq/=.
    apply wpa_bind. eapply wpa_lift; [exact Hi|]. apply wpa_bind. by eapply wpa_lift; [exact Hh|].
Qed.

(** A mutable argument is not borrowed by any other value of the frame. *)
Lemma argument_allowed args before p after :
  state_ok rho (args ++ st) s -> (forall id, id ∈ refs args -> mut G id -> no_edges s id) ->
  cst args = before ++ Ref true p :: after ->
  allowed Write p ((before ++ after) ++ map (conc rho G) (st ++ stored s)).
Proof.
  intros HS Hw Hargs. apply map_eq_app in Hargs as (a1 & a2 & -> & Hb & Ha).
  destruct a2 as [|[id|] a2]; simplify_eq/=.
  assert (mut G id) as Hm by by apply (bool_decide_eq_true (mut G id)).
  rewrite <- map_app, <- map_app, (assoc_L (++)). apply write_allowed; [|done|].
  - eapply state_ok_perm; [|reflexivity|exact HS]. rewrite <- (assoc_L (++) a1). simpl. rewrite <- Permutation_middle.
    by rewrite (assoc_L (++)).
  - apply Hw; [|done]. apply elem_of_refs, elem_of_app. right. by left.
Qed.

(** References that borrow from the same argument, or one from the other, have an edge. *)
Lemma refs_inj vs i j id :
  NoDup (refs vs) -> vs !! i = Some (AbstractValue.Reference id) -> vs !! j = Some (AbstractValue.Reference id) -> i = j.
Proof.
  revert i j. induction vs as [|v vs IH]; intros i j Hnd Hi Hj; [done|].
  assert (forall k, vs !! k = Some (AbstractValue.Reference id) -> v <> AbstractValue.Reference id) as Hne.
  { intros k Hk ->. apply list.NoDup_cons in Hnd as [Hin _]. apply Hin, elem_of_refs. by eapply list_elem_of_lookup_2. }
  destruct i as [|i], j as [|j]; simplify_eq/=; [done|by destruct (Hne j)|by destruct (Hne i)|].
  f_equal. eapply IH; [|done..]. destruct v; [by apply list.NoDup_cons in Hnd as [_ ?]|done].
Qed.

(** Values whose mutable references are not borrowed. *)
Lemma unborrowed_disjoint vs :
  state_ok rho (vs ++ st) s -> (forall id, id ∈ refs vs -> mut G id -> no_edges s id) -> disjoint (cst vs).
Proof.
  intros HS Hw i j p mu p' Hij Hi Hj Ho. pose proof (so_aliasing _ _ _ HS) as HA.
  rewrite !list_lookup_fmap in Hi, Hj.
  destruct (vs !! i) as [[a|]|] eqn:Ei, (vs !! j) as [[b|]|] eqn:Ej; simplify_eq/=.
  assert (mut G a) as Hm by by apply (bool_decide_eq_true (mut G a)).
  assert (forall k x, vs !! k = Some (AbstractValue.Reference x) -> x ∈ refs vs) as Hin.
  { intros k x Hk. apply elem_of_refs. by eapply list_elem_of_lookup_2. }
  assert (forall x, x ∈ refs vs -> x ∈ refs ((vs ++ st) ++ stored s)) as Hall.
  { intros x Hx. rewrite !refs_app, !elem_of_app. by do 2 left. }
  assert (a <> b) as Hne.
  { intros ->. apply Hij. apply (refs_inj vs i j b); try done. pose proof (al_nodup _ _ _ _ HA) as Hnd.
    apply list.NoDup_cons in Hnd as [_ Hnd]. rewrite !refs_app in Hnd. by do 2 apply list.NoDup_app in Hnd as [Hnd _]. }
  assert (forall x y, x ∈ refs vs -> mut G x -> x <> y -> tracked rho G x y -> False) as Hno.
  { intros x y Hx Hmx Hxy (c & es & e & ? & Hes & He & _)%tracked_first; [|done]. by eapply (Hw x). }
  destruct (al_overlap _ _ _ _ HA a b) as [Ht|[Hmb Ht]]; eauto.
Qed.

Lemma step_call_sound b h acquired ps rs args ys :
  call_to resolver name_def_map b h acquired ps rs -> length args = length ps ->
  Forall2 (result_from (cst args)) rs ys -> disjoint ys -> state_ok rho (args ++ st) s ->
  sound b rho (args ++ st) s (Machine.mk (rev ys ++ cst st) L).
Proof.
  intros Hc Hlen HF Hd HS. eapply call_run; [done|done|]. eapply wp_mono; [by eapply (call_sound rho args st s)|].
  intros vs s' ((rho' & H1 & H2 & H3) & Hacq & Hw). split; [split|].
  - intros a p others [(sd & Hsd & -> & -> & ->)|(before & after & S & L' & -> & Hf & -> & Hl)]%(call_accesses _ _ _ _ _ _ _ _ _ Hc).
    + by apply Hacq.
    + unfold frame_of in Hf. injection Hf as Hf <-. rewrite map_app in Hf.
      apply app_inj_1 in Hf as [Hf <-]; [|by rewrite length_map, Hl].
      rewrite other_values. by eapply argument_allowed.
  - intros h' acquired' ps' rs' arguments S Hc' Hst Hl.
    destruct (call_to_unique _ _ _ _ _ _ _ _ _ Hc Hc') as [_ ->]. unfold frame_of in Hst. simpl in Hst.
    rewrite map_app in Hst. apply app_inj_1 in Hst as [<- _]; [|by rewrite length_map, Hl]. by apply unborrowed_disjoint.
  - exists rho'. split; [done|]. split; [|apply H2]. unfold frame_of. rewrite map_app, H3.
    rewrite (same_frame_stack rho rho' st s s' st) by done. by rewrite (same_frame_locals rho rho' st s s').
Qed.
End one.
End instructions.
