(* ===== verification/ReferenceSoundTheorems.v ===== *)
(** Soundness of reference safety: on the path of a run through one block, on entry to a
    function and on return from it, with where the references of a frame come from.
    Together these give the contract of a call that [Machine.step_call] takes for granted.
    Then modules that every earlier check accepts and on which reference_safety panics, and
    functions that it accepts with the runs in which they write under a live reference. *)
From stdpp Require Import relations.
From S2P Require Import Prelude StatusCode Abilities Identifier FileFormat WellFormed Access BTree.
From S2P Require Import ControlFlowGraph FunctionView StackUsage Absint LocalsSafety Constants TypeSafety.
From S2P Require Import BorrowGraph BorrowGraphFacts ReferenceSafety Verifier AccessPaths PlaceMachine.
From S2P Require Import ReferenceSoundness ReferenceSteps.
Import ReferenceState ReferenceSafety Machine.

(** * Return *)

(** The state once the references [vs] are left of the stack and of the locals; the state
    of the analysis keeps the locals that it has released. *)
Definition returning rho (vs : list AbstractValue) (s s0 : AbstractState) (s' : AbstractState) : Prop :=
  state_ok rho vs s0 /\ s' = set_locals s.(ReferenceState.locals) s0 /\ s0.(num_locals) = s.(num_locals) /\
  s0.(ReferenceState.locals) = [] /\
  forall v, v ∈ vs -> conc rho s0.(borrow_graph) v = conc rho s.(borrow_graph) v.

Lemma release_locals_sound rho ids : forall vs s s0 s1,
  returning rho (map AbstractValue.Reference ids ++ vs) s s0 s1 ->
  wp (st_for ids release) s1 (fun _ s' => exists s0', returning rho vs s s0' s').
Proof.
  induction ids as [|id ids IH]; intros vs s s0 s1 HR; cbn [st_for]; [apply wp_ret; by exists s0|].
  destruct HR as (HS & -> & Hn & Hl & Hc).
  pose proof (release_sound rho id (map AbstractValue.Reference ids ++ vs) s0 HS) as H.
  apply wp_bind. unfold wp, release, on_graph in *. simpl.
  destruct (BorrowGraph.release id (borrow_graph s0)) as [[[] G']| | |]; try done. simpl in H. destruct H as [H1 H2].
  apply (IH vs s (set_graph G' s0)). split; [done|]. split; [done|]. split; [done|]. split; [done|].
  intros v Hv. destruct H2 as (_ & _ & H2). etransitivity; [apply H2|apply Hc].
  - apply elem_of_app. by left.
  - by right.
Qed.

Lemma local_refs_stored rho st s :
  state_ok rho st s -> refs (stored s) ≡ₚ local_refs s.
Proof.
  intros HS. pose proof (al_nodup _ _ _ _ (so_aliasing _ _ _ HS)) as Hnd.
  apply list.NoDup_cons in Hnd as [_ Hnd]. rewrite refs_app in Hnd. apply list.NoDup_app in Hnd as (_ & _ & Hnd).
  assert (omap (fun '(_, value) => AbstractValue.ref_id value) s.(ReferenceState.locals) = refs (stored s)) as E.
  { unfold refs, stored. induction (ReferenceState.locals s) as [|[i v] l IH]; [done|]. cbn. rewrite IH. by destruct v. }
  unfold local_refs. rewrite E. apply NoDup_Permutation; [done|apply BTreeSet.sorted_NoDup, BTreeSet.set_collect_sorted|].
  intros x. by rewrite BTreeSet.elem_of_collect.
Qed.

(** The check of the returned references. *)
Lemma returned_sound rho vs s0 s1 ids :
  state_ok rho vs s0 -> borrow_graph s1 = borrow_graph s0 -> (forall id, id ∈ ids -> id ∈ refs vs) ->
  wp (st_for ids (fun id =>
    bad ← ask (fun s => mutable ← is_mutable id s; if (mutable : bool) then w ← is_writable id s; Ok (negb w) else Ok false);
    fail_if bad RET_BORROWED_MUTABLE_REFERENCE_ERROR)) s1
    (fun _ s' => s' = s1 /\ forall id, id ∈ ids -> mut (borrow_graph s0) id -> no_edges s0 id).
Proof.
  intros HS HG. induction ids as [|id ids IH]; intros Hin; cbn [st_for].
  { apply wp_ret. split; [done|]. by intros id ?%elem_of_nil. }
  assert (id ∈ refs (vs ++ stored s0)) as Hid.
  { rewrite refs_app, elem_of_app. left. apply Hin. by left. }
  assert (exists b : bool, (mutable ← is_mutable id s1; if (mutable : bool) then w ← is_writable id s1; Ok (negb w) else Ok false) =
    (Ok b : result StatusCode bool) /\ (b = false -> mut (borrow_graph s0) id -> no_edges s0 id)) as (b & HR & Hb).
  { assert (is_mutable id s1 = is_mutable id s0) as -> by (unfold is_mutable; by rewrite HG).
    rewrite (is_mutable_live rho vs s0 HS id Hid). cbn [mbind result_bind]. destruct (decide (mut (borrow_graph s0) id)) as [Hm|Hm].
    - rewrite (bool_decide_eq_true_2 _ Hm). destruct (is_writable_ok rho vs s0 HS id Hid Hm) as (b & HR & Hb).
      assert (is_writable id s1 = is_writable id s0) as ->.
      { unfold is_writable, is_mutable, has_consistent_borrows. by rewrite HG. }
      rewrite HR. exists (negb b). split; [done|]. intros Ht%negb_false_iff _. exact (Hb Ht).
    - rewrite (bool_decide_eq_false_2 _ Hm). by exists false. }
  apply wp_bind, wp_bind. eapply wp_ask; [exact HR|]. apply wp_fail_if. intros Hf.
  eapply wp_mono; [apply IH; intros x Hx; apply Hin; by right|]. intros ? s' [-> H]. split; [done|].
  intros x [->|Hx]%elem_of_cons; [by apply Hb|by apply H].
Qed.

Lemma ret_sound rho vs st s :
  state_ok rho (vs ++ st) s ->
  wp (ReferenceState.ret vs) s (fun _ _ =>
    (forall (mu : bool) p, Ref mu p ∈ map (conc rho s.(borrow_graph)) vs -> outside p) /\
    disjoint (map (conc rho s.(borrow_graph)) vs)).
Proof.
  intros HS. unfold ReferenceState.ret. apply wp_bind. eapply wp_ask; [reflexivity|].
  apply wp_bind. eapply wp_mono.
  { apply (release_locals_sound rho _ (vs ++ st) s (set_locals [] s)). split; [|by destruct s].
    destruct HS as [H1 H2 H3 H4] eqn:E. split; [|done|constructor|done].
    simpl. unfold stored. simpl. rewrite app_nil_r, refs_app, refs_references.
    rewrite <- (local_refs_stored rho _ s HS), Permutation_app_comm, <- refs_app. exact H1. }
  intros ? s1 (s0 & HS0 & -> & Hn & Hl & Hc). set (s1 := set_locals _ s0).
  pose proof (so_aliasing _ _ _ HS0) as HA.
  destruct (has_consistent_borrows_ok s0 (frame_root s0) (graph_valid _ _ _ HS0)
    (live_tracked _ _ _ HS0 (frame_root s0) (or_introl eq_refl)) None) as (b & HR & Hb).
  apply wp_bind. eapply (wp_ask s1 is_frame_safe_to_destroy (negb b)).
  { unfold is_frame_safe_to_destroy. assert (has_consistent_borrows (frame_root s1) None s1 = Ok b) as -> by exact HR. done. }
  apply wp_bind, wp_fail_if. rewrite negb_involutive. intros Hf. specialize (Hb Hf).
  eapply wp_mono; [apply (returned_sound rho (vs ++ st) s0 s1); [done|done|]|].
  { intros id Hid. rewrite refs_app, elem_of_app. by left. }
  intros ? s' [-> Hw].
  assert (map (conc rho s.(borrow_graph)) vs = map (conc rho s0.(borrow_graph)) vs) as ->.
  { apply map_ext_in. intros v Hv%list_elem_of_In. symmetry. apply Hc, elem_of_app. by left. }
  split; [|by eapply unborrowed_disjoint].
  intros mu p (id & Hid & <- & _)%conc_ref. assert (id ∈ refs ((vs ++ st) ++ stored s0)) as Hid'.
  { rewrite !refs_app, !elem_of_app. do 2 left. by apply elem_of_refs. }
  split; [by apply (al_place _ _ _ _ HA)|]. apply not_true_is_false. intros Hr%(al_rooted _ _ _ _ HA); [|done].
  apply tracked_first in Hr as (c & es & e & ? & Hes & He & _); [|by apply not_eq_sym, (live_not_root _ _ _ _ HA)].
  apply (Hb c es e Hes He). by destruct (BorrowEdge.path e).
Qed.

(** * Where references come from *)

(** A reference is to a place of the frame, or in what an argument refers to; in the second
    case it is mutable only if the argument is. *)
Definition derived (arguments : list Value) (x : Value) : Prop :=
  forall mu p, x = Ref mu p -> rooted p = true \/
    exists mu0 p0, Ref mu0 p0 ∈ arguments /\ (mu = true -> mu0 = true) /\ p0 `prefix_of` p.

Section derived.
Context (arguments : list Value).

Lemma derived_extend (mu mu' : bool) p q :
  derived arguments (Ref mu p) -> p `prefix_of` q -> (mu' = true -> mu = true) -> derived arguments (Ref mu' q).
Proof.
  intros H Hpre Hmu mu1 p1 [= <- <-]. destruct (H mu p eq_refl) as [Hr|(mu0 & p0 & H1 & H2 & H3)].
  - left. rewrite (rooted_prefix p); [done|by destruct p|done].
  - right. exists mu0, p0. split; [done|]. split; [by intros ?%Hmu%H2|]. by etransitivity.
Qed.

Lemma derived_result args t x :
  Forall (derived arguments) args -> result_from args t x -> derived arguments x.
Proof.
  intros Hargs Hx. rewrite Forall_forall in Hargs. destruct t; simpl in Hx; try by subst x.
  - destruct Hx as (mu & p & p' & -> & Hin & Hp). by apply (derived_extend mu false p p'); [apply Hargs, list_elem_of_In| |].
  - destruct Hx as (p & p' & -> & Hin & Hp). by apply (derived_extend true true p p'); [apply Hargs, list_elem_of_In| |].
Qed.

Lemma derived_results args ts xs :
  Forall (derived arguments) args -> Forall2 (result_from args) ts xs -> Forall (derived arguments) xs.
Proof. intros Hargs. induction 1 as [|t x ts xs Hx _ IH]; [done|]. constructor; [|done]. exact (derived_result args t x Hargs Hx). Qed.

Lemma local_values_remove i l : forall x, x ∈ local_values (BTreeMap.remove i l) -> x ∈ local_values l.
Proof.
  unfold local_values. induction l as [|[j y] l IH]; intros x; simpl; [done|]. destruct (i =? j); [by right|].
  intros [->|H]%elem_of_cons; [by left|]. right. by apply IH.
Qed.

Lemma local_values_insert i y l : forall x, x ∈ local_values (BTreeMap.insert i y l) -> x = y \/ x ∈ local_values l.
Proof.
  unfold local_values. induction l as [|[j z] l IH]; intros x; simpl.
  { intros ?%list_elem_of_singleton. by left. }
  destruct (i <? j); [|destruct (i =? j)]; simpl; rewrite !elem_of_cons; naive_solver.
Qed.

Lemma local_values_get i x l : BTreeMap.get i l = Some x -> x ∈ local_values l.
Proof.
  unfold local_values. induction l as [|[j y] l IH]; simpl; [done|].
  destruct (i =? j); [intros [= ->]; by left|]. intros H. right. by apply IH.
Qed.

Context (resolver : BinaryIndexedView) (name_def_map : BTreeMap FunctionDefinitionIndex) (n : Z).

Lemma step_derived b c c' :
  step resolver name_def_map n b c c' -> Forall (derived arguments) (values c) -> Forall (derived arguments) (values c').
Proof.
  unfold values. intros Hstep. rewrite !Forall_app. intros [HS HL]. assert (derived arguments Plain) as HP by done.
  assert (forall k, Forall (derived arguments) (repeat Plain k)) as Hrep by (intros k; induction k as [|k IH]; by constructor).
  assert (forall (mu : bool) p, rooted p = true -> derived arguments (Ref mu p)) as Hroot by (intros ?? Hr ?? [= <- <-]; by left).
  destruct Hstep; simpl in *; rewrite ?Forall_app, ?list.Forall_cons in *; destruct_and?; try done.
  all: repeat split; try done; try (by apply Hroot).
  - eapply list.Forall_forall; [exact HL|]. by eapply local_values_get.
  - eapply list.Forall_forall; [exact HL|]. by eapply local_values_get.
  - apply list.Forall_forall. intros y Hy. eapply list.Forall_forall; [exact HL|]. by eapply local_values_remove.
  - apply list.Forall_forall. intros y [->|Hy]%local_values_insert; [done|]. by eapply list.Forall_forall; [exact HL|].
  - by eapply derived_extend.
  - eapply derived_extend; [done|by eexists|done].
  - eapply derived_extend; [done|by eexists|done].
  - apply Forall_rev. match goal with H : Forall2 (result_from ?a) _ _, H' : Forall _ ?a |- _ => by apply (derived_results a _ _ H' H) end.
Qed.

Lemma run_derived P bs c c' :
  run resolver name_def_map n P bs c c' -> Forall (derived arguments) (values c) -> Forall (derived arguments) (values c').
Proof. induction 1 as [|b bs c c1 c2 _ Hstep _ IH]; [done|]. intros H. by eapply IH, step_derived. Qed.
End derived.

(** * Entry *)

Section entry.
Context (n : Z).

(** The mutability of the reference that stands for a parameter. *)
Definition kind (t : SignatureToken) : option bool :=
  if SignatureToken.is_reference t then Some (SignatureToken.is_mutable_reference t) else None.
Definition param_value (i : nat) (t : SignatureToken) : Z * AbstractValue :=
  (Z.of_nat i, if SignatureToken.is_reference t then AbstractValue.Reference (Z.of_nat i) else AbstractValue.NonReference).
Definition node_of (ps : list SignatureToken) (a : RefID) : option bool :=
  if 0 <=? a then ps !! Z.to_nat a ≫= kind else None.

(** The state after the parameters [ps]. *)
Record entered (ps : list SignatureToken) (s : AbstractState) : Prop := {
  en_graph : graph_ok s.(borrow_graph);
  en_edges : forall a b, ~ inn s.(borrow_graph) a b;
  en_nodes : forall a, mutability s.(borrow_graph) a = node_of ps a;
  en_locals : s.(ReferenceState.locals) = imap param_value ps;
  en_sorted : BTreeMap.sorted s.(ReferenceState.locals);
  en_num : s.(num_locals) = n;
  en_next : s.(next_id) = n + 1;
}.

Lemma node_of_snoc ps t a :
  node_of (ps ++ [t]) a = if a =? Z.of_nat (length ps) then kind t else node_of ps a.
Proof.
  unfold node_of. destruct (Z.eqb_spec a (Z.of_nat (length ps))) as [-> |Hne].
  - rewrite (proj2 (Z.leb_le _ _)), Nat2Z.id by lia. by rewrite lookup_app_r, Nat.sub_diag by lia.
  - destruct (Z.leb_spec 0 a); [|done]. destruct (decide (Z.to_nat a < length ps)%nat) as [Hlt|Hge].
    + by rewrite lookup_app_l.
    + rewrite lookup_app_r, lookup_ge_None_2, (lookup_ge_None_2 ps) by (simpl; lia). done.
Qed.

Lemma insert_last {V : Set} k (v : V) m :
  (forall k', k' ∈ BTreeMap.keys m -> k' < k) -> BTreeMap.insert k v m = m ++ [(k, v)].
Proof.
  unfold BTreeMap.keys. induction m as [|[k' w] m IH]; intros Hk; [done|]. simpl.
  assert (k' < k) by (apply Hk; by left). rewrite (proj2 (Z.ltb_ge _ _)), (proj2 (Z.eqb_neq _ _)) by lia.
  rewrite IH; [done|]. intros x Hx. apply Hk. by right.
Qed.

Lemma param_keys ps k : k ∈ BTreeMap.keys (imap param_value ps) -> k < Z.of_nat (length ps).
Proof.
  intros ([i v] & -> & Hin)%list_elem_of_fmap. apply elem_of_lookup_imap in Hin as (j & t & [= -> _] & Ht%lookup_lt_Some).
  simpl. lia.
Qed.

Lemma add_params_ok ps' : forall ps s,
  entered ps s -> Z.of_nat (length (ps ++ ps')) <= 256 ->
  exists s', add_params (Z.of_nat (length ps)) ps' s = Ok ((), s') /\ entered (ps ++ ps') s' /\
    s'.(current_function) = s.(current_function).
Proof.
  induction ps' as [|t ps' IH]; intros ps s HE Hlen.
  { exists s. by rewrite app_nil_r. }
  assert (as_local_index (Z.of_nat (length ps)) = Z.of_nat (length ps)) as Hidx.
  { unfold as_local_index. rewrite length_app in Hlen. simpl in Hlen. apply Z.mod_small. lia. }
  destruct HE as [H1 H2 H3 H4 HS H5 H6]. set (k := Z.of_nat (length ps)) in *.
  assert (BTreeMap.insert k (param_value (length ps) t).2 s.(ReferenceState.locals) = imap param_value (ps ++ [t])) as Hl.
  { rewrite insert_last, H4, imap_app; [|intros k' Hk'; rewrite H4 in Hk'; by apply param_keys].
    simpl. by rewrite Nat.add_0_r. }
  assert (Z.of_nat (length (ps ++ [t])) = k + 1) as Hk by (rewrite length_app; simpl; lia).
  assert (mutability s.(borrow_graph) k = None) as Hfresh.
  { rewrite H3. unfold node_of, k. rewrite (proj2 (Z.leb_le _ _)), Nat2Z.id by lia. by rewrite lookup_ge_None_2. }
  assert (Z.of_nat (length ((ps ++ [t]) ++ ps')) <= 256) as Hlen' by by rewrite <- (assoc_L (++)).
  assert (forall s1, entered (ps ++ [t]) s1 -> s1.(current_function) = s.(current_function) ->
    exists s', add_params (k + 1) ps' s1 = Ok ((), s') /\ entered (ps ++ t :: ps') s' /\
      s'.(current_function) = s.(current_function)) as Hrest.
  { intros s1 HE1 Hf. destruct (IH (ps ++ [t]) s1 HE1 Hlen') as (s' & HR & HE' & Hf'). rewrite Hk in HR.
    rewrite <- (assoc_L (++)) in HE'. exists s'. by rewrite <- Hf. }
  cbn [add_params]. rewrite Hidx. unfold param_value in Hl. simpl in Hl. fold k in Hl.
  destruct (SignatureToken.is_reference t) eqn:Et.
  - destruct (new_ref_ok (E := StatusCode) k (SignatureToken.is_mutable_reference t) _ H1 Hfresh) as (G' & HR & HG' & Hm & Hi & _).
    unfold mbind, ST_bind, on_graph at 1. rewrite HR. simpl. apply Hrest; [|done]. split; try done.
    3: by apply BTreeMap.insert_sorted.
    + intros a b. simpl. rewrite Hi. apply H2.
    + intros a. simpl. rewrite Hm, node_of_snoc, H3. unfold kind. rewrite Et. done.
  - unfold mbind, ST_bind. simpl. apply Hrest; [|done]. split; try done.
    2: by apply BTreeMap.insert_sorted.
    intros a. simpl. rewrite node_of_snoc, H3. unfold kind. rewrite Et. fold k.
    destruct (Z.eqb_spec a k) as [-> |]; [|done]. by rewrite <- H3.
Qed.

Lemma param_refs ps id :
  id ∈ refs (map snd (imap param_value ps)) <-> exists i t, ps !! i = Some t /\ SignatureToken.is_reference t = true /\ id = Z.of_nat i.
Proof.
  rewrite elem_of_refs, list_elem_of_fmap. split.
  - intros ([j v] & Hv & Hin). simpl in Hv. subst v. apply elem_of_lookup_imap in Hin as (i & t & [= -> Hv] & Ht).
    exists i, t. destruct (SignatureToken.is_reference t); by simplify_eq.
  - intros (i & t & Ht & Hr & ->). exists (param_value i t). unfold param_value. rewrite Hr. split; [done|].
    apply elem_of_lookup_imap. exists i, t. split; [|done]. unfold param_value. by rewrite Hr.
Qed.

Lemma param_refs_nodup ps : NoDup (refs (map snd (imap param_value ps))).
Proof.
  induction ps as [|t ps IH] using rev_ind; [constructor|]. rewrite imap_app, map_app, refs_app. apply list.NoDup_app.
  split; [done|]. cbn. rewrite Nat.add_0_r. destruct (SignatureToken.is_reference t); cbn; (split; [|repeat constructor]).
  - intros x (i & t' & Hi%lookup_lt_Some & _ & ->)%param_refs Hx%list_elem_of_singleton. lia.
  - by intros ?%elem_of_nil.
  - by intros x _ ?%elem_of_nil.
Qed.

Lemma node_of_param ps a : is_Some (node_of ps a) <-> a ∈ refs (map snd (imap param_value ps)).
Proof.
  rewrite param_refs. unfold node_of, kind. split.
  - intros [mu Hmu]. destruct (Z.leb_spec 0 a); [|done]. destruct (ps !! Z.to_nat a) as [t|] eqn:Et; [|done]. simpl in Hmu.
    exists (Z.to_nat a), t. destruct (SignatureToken.is_reference t); [|done]. repeat split; [done|lia].
  - intros (i & t & Ht & Hr & ->). rewrite (proj2 (Z.leb_le _ _)), Nat2Z.id, Ht by lia. simpl. rewrite Hr. by eexists.
Qed.

(** * The first state *)

Context (ps : list SignatureToken) (arguments : list Value).
Hypothesis (HC : callable ps arguments).

Definition argument_path (a : RefID) : place :=
  if 0 <=? a then match arguments !! Z.to_nat a with Some (Ref _ p) => p | _ => [] end else [].

Lemma argument_of i t :
  ps !! i = Some t -> exists x, arguments !! i = Some x /\
    (SignatureToken.is_reference t = true ->
       x = Ref (SignatureToken.is_mutable_reference t) (argument_path (Z.of_nat i)) /\ outside (argument_path (Z.of_nat i))) /\
    (SignatureToken.is_reference t = false -> x = Plain).
Proof using HC.
  intros Ht. destruct (Forall2_lookup_l _ _ _ _ _ (ca_fits _ _ HC) Ht) as (x & Hx & Hfits). exists x. split; [done|].
  assert (forall (mu : bool) p, x = Ref mu p -> argument_path (Z.of_nat i) = p /\ outside p) as Hp.
  { intros mu p ->. unfold argument_path. rewrite (proj2 (Z.leb_le _ _)), Nat2Z.id, Hx by lia. split; [done|].
    eapply (ca_outside _ _ HC). by eapply list_elem_of_lookup_2. }
  destruct t; simpl in *; (split; [|done]); intros Hr; try done; destruct Hfits as [p ->].
  all: by destruct (Hp _ _ eq_refl) as [-> ?].
Qed.

Lemma param_range a : a ∈ refs (map snd (imap param_value ps)) -> 0 <= a < Z.of_nat (length ps).
Proof using. intros (i & t & Ht%lookup_lt_Some & _ & ->)%param_refs. lia. Qed.

Lemma entry_aliasing G :
  Z.of_nat (length ps) <= n -> graph_ok G -> (forall a b, ~ inn G a b) ->
  (forall a, mutability G a = if a =? n then Some true else node_of ps a) ->
  aliasing argument_path n G (refs (map snd (imap param_value ps))).
Proof using HC.
  intros Hn HG Hi Hm. set (L := refs _).
  assert (forall a, a ∈ L -> exists i t, ps !! i = Some t /\ a = Z.of_nat i /\ outside (argument_path a) /\
    arguments !! i = Some (Ref (SignatureToken.is_mutable_reference t) (argument_path a)) /\
    mutability G a = Some (SignatureToken.is_mutable_reference t)) as HL.
  { intros a Ha. pose proof (param_range a Ha) as Hr. apply param_refs in Ha as (i & t & Ht & Href & ->).
    destruct (argument_of i t Ht) as (x & Hx & Hx1 & _). destruct (Hx1 Href) as [-> Hout].
    exists i, t. repeat split; try done; try apply Hout. rewrite Hm, (proj2 (Z.eqb_neq _ _)) by lia. unfold node_of, kind.
    rewrite (proj2 (Z.leb_le _ _)), Nat2Z.id, Ht by lia. simpl. by rewrite Href. }
  split.
  - done.
  - unfold mut. by rewrite Hm, Z.eqb_refl.
  - unfold argument_path. destruct (0 <=? n); [|done]. rewrite lookup_ge_None_2; [done|].
    pose proof (Forall2_length (ca_fits _ _ HC)) as E. lia.
  - constructor; [|apply param_refs_nodup]. intros Hin%param_range. lia.
  - intros b (i & t & _ & _ & [? _] & _)%HL. done.
  - intros a. rewrite Hm. destruct (Z.eqb_spec a n) as [Heq|Hne].
    + split; [by left|by eexists].
    + rewrite node_of_param. fold L. naive_solver.
  - by intros a b ?%Hi.
  - intros b (i & t & _ & _ & [_ Hr] & _)%HL. by rewrite Hr.
  - intros a b (i & t & _ & -> & _ & Hx & Hma)%HL (j & t' & _ & -> & _ & Hy & _)%HL Hne Hmut Ho. exfalso.
    unfold mut in Hmut. rewrite Hma in Hmut. injection Hmut as Hmut. rewrite Hmut in Hx.
    eapply (ca_disjoint _ _ HC i j); [|done|done|done]. intros ->. by apply Hne.
Qed.

Lemma entry_state s G :
  entered ps s -> Z.of_nat (length ps) <= n -> graph_ok G -> (forall a b, ~ inn G a b) ->
  (forall a, mutability G a = if a =? n then Some true else node_of ps a) ->
  state_ok argument_path [] (set_graph G s) /\ frame_of argument_path [] (set_graph G s) = entry_frame arguments.
Proof using HC.
  intros [_ _ _ H4 HS H5 H6] Hn HG Hi Hm. pose proof (entry_aliasing G Hn HG Hi Hm) as HA. split; [split|].
  - unfold stored, frame_root. simpl. by rewrite H4, H5.
  - intros a Ha%(al_nodes _ _ _ _ HA). simpl. destruct Ha as [-> |Ha%param_range]; lia.
  - done.
  - intros i v Hv. simpl in *. apply BTreeMap.get_elem in Hv; [|done]. rewrite H4 in Hv.
    apply elem_of_lookup_imap in Hv as (j & t & [= -> _] & Ht%lookup_lt_Some). lia.
  - unfold frame_of, entry_frame, conc_locals. simpl. rewrite H4. f_equal. apply list_eq. intros i.
    rewrite list_lookup_fmap, !list_lookup_imap.
    destruct (ps !! i) as [t|] eqn:Et.
    + destruct (argument_of i t Et) as (x & Hx & Hx1 & Hx2). rewrite Hx. simpl. do 2 f_equal.
      destruct (SignatureToken.is_reference t) eqn:Er; [|by rewrite Hx2]. destruct (Hx1 eq_refl) as [-> _].
      simpl. f_equal. assert (mutability G (Z.of_nat i) = kind t) as Hk.
      { pose proof (lookup_lt_Some _ _ _ Et). rewrite Hm, (proj2 (Z.eqb_neq _ _)) by lia. unfold node_of.
        by rewrite (proj2 (Z.leb_le _ _)), Nat2Z.id, Et by lia. }
      unfold mut, kind in *. rewrite Er in Hk. destruct (SignatureToken.is_mutable_reference t).
      * by apply bool_decide_eq_true.
      * apply bool_decide_eq_false. congruence.
    + rewrite lookup_ge_None_2; [done|]. apply lookup_ge_None in Et. pose proof (Forall2_length (ca_fits _ _ HC)) as E. lia.
Qed.
End entry.

Lemma new_sound (function_view : FunctionView) arguments :
  let n := zlen function_view.(FunctionView.parameters) + zlen function_view.(FunctionView.locals) in
  zlen function_view.(FunctionView.parameters) <= 256 -> callable function_view.(FunctionView.parameters) arguments ->
  exists s, ReferenceState.new function_view = Ok s /\ stands_for n [] s (entry_frame arguments).
Proof.
  intros n Hlen HC. unfold ReferenceState.new. fold n. set (s0 := ReferenceState.mk _ _ _ _ _).
  destruct (add_params_ok n function_view.(FunctionView.parameters) [] s0) as (s1 & HR & HE & _).
  { split; [apply empty_ok| | |done|constructor|done|done].
    - by intros a b (r & Hr & _).
    - intros a. unfold node_of. by destruct (0 <=? a). }
  { done. }
  change (Z.of_nat (length (@nil SignatureToken))) with 0 in HR. rewrite HR. cbn [mbind result_bind]. destruct HE as [H1 H2 H3 H4 HS H5 H6] eqn:EE.
  assert (frame_root s1 = n) as Er by done.
  assert (mutability s1.(borrow_graph) n = None) as Hfresh.
  { rewrite H3. destruct (node_of _ n) as [mu|] eqn:En; [|done]. exfalso.
    assert (n ∈ refs (map snd (imap param_value (FunctionView.parameters function_view)))) as Hin%param_range.
    { apply node_of_param. by exists mu. }
    subst n; lia. }
  destruct (new_ref_ok (E := StatusCode) n true _ H1 Hfresh) as (G & HG & HGok & Hm & Hi & _).
  unfold on_graph. rewrite Er, HG. cbn [mbind result_bind].
  assert (forall a, mutability G a = if a =? n then Some true else node_of (FunctionView.parameters function_view) a) as Hm'.
  { intros a. by rewrite Hm, H3. }
  destruct (entry_state n (FunctionView.parameters function_view) arguments HC s1 G HE) as [HS1 HF]; try done.
  { subst n. lia. }
  { intros a b. rewrite Hi. apply H2. }
  exists (set_graph G s1). split; [|by exists (argument_path arguments)].
  assert (is_canonical (set_graph G s1) = true) as ->; [|done].
  unfold is_canonical. simpl. rewrite H5, H6, Z.eqb_refl, H4. simpl. apply forallb_forall.
  intros [i v] (j & t & [= -> ->] & _)%list_elem_of_In%elem_of_lookup_imap.
  destruct (SignatureToken.is_reference t); [|done]. simpl. by rewrite Z.eqb_refl.
Qed.

Import ReferenceState ReferenceSafety Machine.

Section sound.
Context (resolver : BinaryIndexedView) (function_view : FunctionView) (name_def_map : BTreeMap FunctionDefinitionIndex).
Abbreviation exec := (execute_inner resolver function_view name_def_map).

(** What the source does not check.  [borrow_loc] takes for granted that the frame has no
    edge with an empty path when a local is borrowed mutably; [vector_element_borrow] does
    not ask, for an immutable element of a mutable reference, what [freeze_ref] asks of the
    reference: that nothing is borrowed mutably from it. *)
Record checked (b : Bytecode) (st : list AbstractValue) (s : ReferenceState) : Prop := {
  ck_local : forall i, b = Bytecode.MutBorrowLoc i -> has_full_borrows (frame_root s) s = Ok false;
  ck_element : forall idx v id st', b = Bytecode.VecImmBorrow idx -> st = v :: AbstractValue.Reference id :: st' ->
    mut s.(borrow_graph) id -> is_freezable id None s = Ok true;
}.

Lemma map_cons_inv rho G st x S :
  map (conc rho G) st = x :: S -> exists v st', st = v :: st' /\ conc rho G v = x /\ map (conc rho G) st' = S.
Proof. destruct st as [|v st']; [done|]. intros [= <- <-]. by exists v, st'. Qed.

Lemma conc_ref_inv rho G v (mu : bool) p :
  conc rho G v = Ref mu p -> exists id, v = AbstractValue.Reference id /\ p = rho id /\ (mu = true <-> mut G id).
Proof. destruct v as [id|]; [|done]. intros [= <- <-]. exists id. by rewrite bool_decide_eq_true. Qed.

Lemma conc_plain_inv rho G v : conc rho G v = Plain -> v = AbstractValue.NonReference.
Proof. by destruct v. Qed.

Lemma state_ok_plain rho st s : state_ok rho (AbstractValue.NonReference :: st) s -> state_ok rho st s.
Proof. by intros []. Qed.

(** From the stack of the frame to the stack of the analysis. *)
Ltac operands := repeat match goal with
  | H : _ :: _ = map (conc _ _) _ |- _ => symmetry in H
  | H : map (conc _ _) _ = _ :: _ |- _ => apply map_cons_inv in H as (? & ? & -> & ? & H)
  | H : conc _ _ _ = Ref _ _ |- _ => apply conc_ref_inv in H as (? & -> & -> & ?)
  | H : conc _ _ _ = Plain |- _ => apply conc_plain_inv in H as ->
  | H : true = true <-> ?P |- _ => assert P by (by apply H); clear H
  | H : state_ok _ (AbstractValue.NonReference :: _) _ |- _ => apply state_ok_plain in H
  end.

Lemma local_get rho s i x :
  BTreeMap.get i (conc_locals rho s.(borrow_graph) s.(ReferenceState.locals)) = Some x ->
  exists v, BTreeMap.get i s.(ReferenceState.locals) = Some v /\ x = conc rho s.(borrow_graph) v.
Proof. rewrite conc_get. destruct (BTreeMap.get i _) as [v|]; [|done]. intros [= <-]. by exists v. Qed.

Lemma step_sound rho st s b c' :
  state_ok rho st s -> step resolver name_def_map s.(num_locals) b (frame_of rho st s) c' -> checked b st s ->
  sound resolver function_view name_def_map b rho st s c'.
Proof.
  intros HS Hstep Hck. inversion Hstep; subst; operands; subst.
  - symmetry in H. apply map_repeat_inv in H as (st' & -> & ->). by apply step_plain_sound.
  - by apply step_pop_sound.
  - apply local_get in H3 as (v & Hv & ->). by apply step_copy_loc_sound.
  - apply local_get in H3 as (v & Hv & ->). by apply step_move_loc_sound.
  - by apply step_st_loc_sound.
  - by apply step_freeze_sound.
  - by apply step_compare_refs_sound.
  - by apply step_compare_values_sound.
  - by apply step_read_ref_sound.
  - apply step_write_ref_sound; [|done]. by apply state_ok_plain; rewrite Permutation_swap.
  - apply step_borrow_loc_sound; [done|]. intros ->. by eapply (ck_local _ _ _ Hck).
  - apply step_borrow_field_sound; naive_solver.
  - by apply step_borrow_global_sound.
  - by eapply step_move_from_sound.
  - by eapply step_move_to_sound.
  - by apply step_vec_len_sound.
  - apply step_vec_borrow_sound; [done|]. destruct mut_; simpl; [naive_solver|].
    by eapply (ck_element _ _ _ Hck).
  - by apply step_vec_push_back_sound.
  - by eapply step_vec_pop_back_sound.
  - by apply step_vec_swap_sound.
  - symmetry in H. apply map_eq_app in H as (args & st' & -> & <- & <-). eapply step_call_sound; try done.
    by match goal with H : length (map _ _) = _ |- _ => rewrite length_map in H end.
Qed.

(** [execute_block] before the last instruction of the block. *)
Fixpoint execute_all (bs : list Bytecode) : AM () :=
  match bs with
  | [] => mret ()
  | b :: bs => exec b;; execute_all bs
  end.

(** [checked] wherever the analysis comes by. *)
Fixpoint all_checked (bs : list Bytecode) (x : list AbstractValue * ReferenceState) : Prop :=
  match bs with
  | [] => True
  | b :: bs => checked b x.1 x.2 /\
      match exec b x with Ok (st', inr (_, s')) => all_checked bs (st', s') | _ => True end
  end.

Lemma block_sound bs : forall n st s c c' Q,
  stands_for n st s c -> run resolver name_def_map n (fun _ _ => True) bs c c' -> all_checked bs (st, s) ->
  (forall st' s', stands_for n st' s' c' -> run resolver name_def_map n (permitted resolver name_def_map) bs c c' -> Q () st' s') ->
  wpa (execute_all bs) st s Q.
Proof.
  induction bs as [|b bs IH]; intros n st s c c' Q Hc Hrun Hf HQ; inversion Hrun; subst.
  { apply wpa_ret, HQ; [done|constructor]. }
  destruct Hc as (rho & HS & <- & <-). destruct Hf as [Hf Hrest]. simpl in Hf.
  match goal with H : step _ _ _ _ _ _ |- _ => pose proof (step_sound rho st s b _ HS H Hf) as Hb end.
  unfold sound, wpa in Hb. cbn [execute_all]. unfold wpa, mbind, AM_bind, mbind, result_bind.
  destruct (exec b (st, s)) as [[st1 [e|[u s1]]]| | |] eqn:E; try done. simpl in Hb. destruct Hb as [Hp Hs].
  eapply IH; [done..|]. intros st2 s2 Hc2 Hrun2. apply HQ; [done|]. by econstructor.
Qed.

Lemma return_sound rho popped st s :
  state_ok rho (popped ++ st) s -> length popped = length function_view.(FunctionView.return_) ->
  wpa (exec Bytecode.Ret) (popped ++ st) s (fun _ _ _ =>
    (forall (mu : bool) p, Ref mu p ∈ map (conc rho s.(borrow_graph)) (rev popped) -> outside p) /\
    disjoint (map (conc rho s.(borrow_graph)) (rev popped))).
Proof.
  intros HS Hlen. cbn [execute_inner]. rewrite <- Hlen. apply wpa_bind, wpa_repeat_pop, wpa_on_state.
  eapply wp_mono; [apply (ret_sound rho (rev popped) st)|by intros].
  eapply state_ok_perm; [|reflexivity|exact HS]. by rewrite <- Permutation_rev.
Qed.

(** * Functions without branches *)

(** The function is one block, [bs] and a return. *)
Record straight_line (bs : list Bytecode) : Prop := {
  sl_code : function_view.(FunctionView.code).(CodeUnit.code) = bs ++ [Bytecode.Ret];
  sl_block : BTreeMap.get 0 function_view.(FunctionView.cfg).(VMControlFlowGraph.blocks) =
    Some (BasicBlock.mk (zlen bs) []);
  sl_next : BTreeMap.get 0 function_view.(FunctionView.cfg).(VMControlFlowGraph.traversal_successors) = None;
}.

Abbreviation execute_instrs := (AbstractInterpreter.execute_instrs
  (TransferFunctions0 := ReferenceSafetyAnalysis resolver function_view name_def_map) function_view).

Lemma execute_inv st s b i last st' s' :
  execute resolver function_view name_def_map st s b i last = Ok (st', inr s') ->
  exists st1 s1, exec b (st, s) = Ok (st1, inr ((), s1)) /\ (i <> last -> st1 = st' /\ s1 = s').
Proof.
  unfold execute. destruct (exec b (st, s)) as [[st1 [e|[[] s1]]]| | |]; try done. cbn [mbind result_bind].
  intros H. exists st1, s1. split; [done|]. intros Hne. rewrite (proj2 (Z.eqb_neq _ _) Hne) in H. by injection H as <- <-.
Qed.

(** The analysis of the block runs the instructions before the last one, and then it. *)
Lemma execute_instrs_all bs last : forall k st s st' s',
  drop k function_view.(FunctionView.code).(CodeUnit.code) = bs ++ [last] ->
  execute_instrs st s (Z.of_nat k + zlen bs) (seqZ (Z.of_nat k) (zlen bs + 1)) = Ok (st', inr s') ->
  exists st1 s1 st2 s2, execute_all bs (st, s) = Ok (st1, inr ((), s1)) /\ exec last (st1, s1) = Ok (st2, inr ((), s2)).
Proof.
  induction bs as [|b bs IH]; intros k st s st' s' Hcode;
    (rewrite (seqZ_cons _ _) by (simpl; lia)); cbn [AbstractInterpreter.execute_instrs]; rewrite Nat2Z.id;
    rewrite <- (Nat.add_0_r k) at 1; rewrite <- lookup_drop, Hcode; cbn [lookup list_lookup app unwrap mbind result_bind];
    cbn [Absint.execute ReferenceSafetyAnalysis].
  - destruct (execute _ _ _ _ _ _ _ _) as [[st1 [e|s1]]| | |] eqn:E; try done. intros _.
    apply execute_inv in E as (st2 & s2 & HR & _). by exists st, s, st2, s2.
  - destruct (execute _ _ _ _ _ _ _ _) as [[st1 [e|s1]]| | |] eqn:E; try done. cbn [mbind result_bind]. intros H.
    apply execute_inv in E as (st2 & s2 & HR & Heq). destruct Heq as [-> ->]; [simpl; lia|].
    destruct (IH (S k) st1 s1 st' s') as (st3 & s3 & st4 & s4 & H3 & H4).
    { rewrite <- (Nat.add_1_r k), <- drop_drop, Hcode. done. }
    { rewrite <- H. f_equal; [simpl; lia|]. f_equal; simpl; lia. }
    exists st3, s3, st4, s4. split; [|done]. cbn [execute_all]. unfold mbind, AM_bind, mbind, result_bind. by rewrite HR.
Qed.

(** A verified function without branches: the analysis of its block succeeds. *)
Lemma verify_straight_line bs :
  straight_line bs -> verify resolver function_view name_def_map = Ok () ->
  exists s st1 s1 st2 s2, ReferenceState.new function_view = Ok s /\
    execute_all bs ([], s) = Ok (st1, inr ((), s1)) /\ exec Bytecode.Ret (st1, s1) = Ok (st2, inr ((), s2)).
Proof.
  intros [H1 H2 H3]. unfold verify. destruct (ReferenceState.new function_view) as [s| | |]; try done. cbn [mbind result_bind].
  unfold AbstractInterpreter.analyze_function. set (fuel := AbstractInterpreter.analysis_fuel _ _).
  assert (exists f, fuel = S (S f)) as [f ->].
  { unfold fuel, AbstractInterpreter.analysis_fuel. eexists. by rewrite Nat.add_comm. }
  assert (VMControlFlowGraph.next_block function_view.(FunctionView.cfg) 0 = Ok None) as Hnext.
  { unfold VMControlFlowGraph.next_block. rewrite (proj2 (contains_key_some _ _)) by (by rewrite H2). cbn. by rewrite H3. }
  assert (VMControlFlowGraph.successors function_view.(FunctionView.cfg) 0 = Ok []) as Hsucc.
  { unfold VMControlFlowGraph.successors. by rewrite H2. }
  assert (forall self inv, AbstractInterpreter.analyze_loop (TransferFunctions0 := ReferenceSafetyAnalysis resolver function_view name_def_map)
    function_view (S f) self None inv = Ok (self, inv)) as Hend by done.
  set (f' := S f) in *. cbn [AbstractInterpreter.analyze_loop BTreeMap.get BTreeMap.insert]. clearbody f'.
  unfold VMControlFlowGraph.entry_block_id, VMControlFlowGraph.ENTRY_BLOCK_ID. rewrite BTreeMap.get_insert, Z.eqb_refl.
  cbn [BlockInvariant.pre].
  match goal with |- (?x ≫= _) ≫= _ = _ -> _ => destruct x as [[self [e|post]]| | |] eqn:E end; try done; cbn [mbind result_bind];
    rewrite Hnext; cbn [mbind result_bind].
  { rewrite Hend. simpl. done. }
  intros _. unfold AbstractInterpreter.execute_block, VMControlFlowGraph.instr_indexes, VMControlFlowGraph.block_end in E.
  rewrite H2 in E. cbn in E. change (VMControlFlowGraph.block_start 0) with 0 in E. rewrite Z.sub_0_r in E.
  exists s. destruct (execute_instrs_all bs Bytecode.Ret 0 [] s self post) as (st1 & s1 & st2 & s2 & HR); [done|exact E|].
  by exists st1, s1, st2, s2.
Qed.

(** * What verified functions do *)

Lemma results_from arguments rs results :
  Forall2 fits rs results -> Forall (derived arguments) results ->
  (forall (mu : bool) p, Ref mu p ∈ results -> outside p) -> Forall2 (result_from arguments) rs results.
Proof.
  intros HF. induction HF as [|t x rs results Hx _ IH]; [constructor|]. intros [Hd Hds]%list.Forall_cons Hout.
  constructor; [|apply IH; [done|]; intros mu p Hp; apply (Hout mu); by right].
  assert (forall mu p, x = Ref mu p -> exists mu0 p0, Ref mu0 p0 ∈ arguments /\ (mu = true -> mu0 = true) /\ p0 `prefix_of` p) as H.
  { intros mu p Heq. destruct (Hd mu p Heq) as [Hr|H]; [|done]. destruct (Hout mu p) as [_ Hf]; [rewrite Heq; by left|congruence]. }
  destruct t; simpl in *; try done; destruct Hx as [p ->]; destruct (H _ p eq_refl) as (mu0 & p0 & H1 & H2 & H3).
  - by exists mu0, p0, p.
  - exists p0, p. by rewrite H2 in H1.
Qed.

(** C8: In a block, whatever the state of the analysis stands for at its beginning:  the
    analysis of the instructions before the last one does not panic and, if it reports no
    error, every instruction of every run of the machine makes only allowed accesses, and
    the state after it stands for the frame after the run.  The premise [all_checked] is
    that two things hold in the states of the analysis that the source does not check:
    the frame root has no edge with an empty path where a local is borrowed mutably (an
    edge set that overflows gets one), and nothing is borrowed mutably from a mutable
    reference of which [VecImmBorrow] borrows an element.  Functions for which they do not
    hold may be unsafe, [reference_safety_unchecked_borrows]. *)
Theorem reference_safety_block_sound (n : Z) (bs : list Bytecode) (st : list AbstractValue) (s : ReferenceState)
    (c c' : Frame) :
  stands_for n st s c -> run resolver name_def_map n (fun _ _ => True) bs c c' -> all_checked bs (st, s) ->
  match execute_all bs (st, s) with
  | Ok (st', inr (_, s')) =>
    stands_for n st' s' c' /\ run resolver name_def_map n (permitted resolver name_def_map) bs c c'
  | Ok (_, inl _) => True
  | Err _ | Panic | OutOfFuel => False
  end.
Proof. intros Hc Hrun Hf. exact (block_sound bs n st s c c' _ Hc Hrun Hf (fun st' s' H1 H2 => conj H1 H2)). Qed.

(** C7: A verified function without branches, called with arguments of the kinds of its
    parameters that refer to places outside of its frame and of which no mutable one
    overlaps another one: every run makes only allowed accesses, and the results are as
    the analysis of a call assumes (a mutable one refers into what a mutable argument
    refers to, an immutable one into what any argument refers to, and no mutable one
    overlaps another result).  The function has at most 256 parameters, and the states of
    the analysis of its body satisfy [all_checked], as in [reference_safety_block_sound]. *)
Theorem reference_safety_straight_line_sound (bs : list Bytecode) (arguments results S : list Value) (L : BTreeMap Value) :
  let n := zlen function_view.(FunctionView.parameters) + zlen function_view.(FunctionView.locals) in
  straight_line bs -> zlen function_view.(FunctionView.parameters) <= 256 ->
  callable function_view.(FunctionView.parameters) arguments ->
  verify resolver function_view name_def_map = Ok () ->
  run resolver name_def_map n (fun _ _ => True) bs (entry_frame arguments) (Machine.mk (rev results ++ S) L) ->
  Forall2 fits function_view.(FunctionView.return_) results ->
  (forall s, ReferenceState.new function_view = Ok s -> all_checked bs ([], s)) ->
  run resolver name_def_map n (permitted resolver name_def_map) bs (entry_frame arguments) (Machine.mk (rev results ++ S) L) /\
  Forall2 (result_from arguments) function_view.(FunctionView.return_) results /\ disjoint results.
Proof.
  intros n Hbs Hlen HC Hv Hrun Hfits Hfull.
  destruct (verify_straight_line bs Hbs Hv) as (s & st1 & s1 & st2 & s2 & Hnew & Hall & Hret).
  destruct (new_sound function_view arguments Hlen HC) as (s' & Hnew' & Hs).
  rewrite Hnew in Hnew'. injection Hnew' as <-.
  assert (stands_for n st1 s1 (Machine.mk (rev results ++ S) L) /\
    run resolver name_def_map n (permitted resolver name_def_map) bs (entry_frame arguments) (Machine.mk (rev results ++ S) L))
    as [(rho & HS & HF & _) Hp].
  { pose proof (block_sound bs n [] s _ _ (fun _ st' s' => stands_for n st' s' (Machine.mk (rev results ++ S) L) /\ _) Hs Hrun (Hfull s Hnew)
      (fun st' s' H1 H2 => conj H1 H2)) as H. unfold wpa in H. by rewrite Hall in H. }
  split; [done|]. unfold frame_of in HF. injection HF as Hst _. apply map_eq_app in Hst as (popped & rest & -> & Hpop & _).
  assert (length popped = length function_view.(FunctionView.return_)) as Hl.
  { rewrite <- (length_map (conc rho (borrow_graph s1)) popped), Hpop, length_rev. symmetry. by eapply Forall2_length. }
  pose proof (return_sound rho popped rest s1 HS Hl) as H. unfold wpa in H. rewrite Hret in H.
  rewrite map_rev, Hpop, rev_involutive in H. destruct H as [Hout Hd]. split; [|done].
  apply results_from; [done| |exact Hout].
  assert (Forall (derived arguments) (values (Machine.mk (rev results ++ S) L))) as Hder.
  { eapply run_derived; [exact Hrun|]. apply list.Forall_forall. intros x Hx mu p ->. right. exists mu, p.
    split; [|done]. unfold values, entry_frame, local_values in Hx. simpl in Hx.
    apply list_elem_of_fmap in Hx as ([i y] & Hy & Hin). simpl in Hy. subst y.
    apply elem_of_lookup_imap in Hin as (j & y & [= -> <-] & Hj). by eapply list_elem_of_lookup_2. }
  unfold values in Hder. simpl in Hder. apply Forall_app in Hder as [[Hder _]%Forall_app _].
  rewrite <- (rev_involutive results). by apply Forall_rev.
Qed.
End sound.

(** * Instances *)

Import SignatureToken Bytecode.

(** A function that sets a local, reads an element of its argument and returns what it gets
    by calling itself. *)
Definition self_call_code : CodeUnit :=
  CodeUnit.mk 3 [LdU64 5; StLoc 1; LdU64 6; MutBorrowLoc 1; WriteRef; CopyLoc 0; LdU64 0; VecImmBorrow 3;
    ReadRef; Pop; MoveLoc 0; Call 0; Ret].
Definition self_call_module : CompiledModule :=
  CompiledModule.mk VERSION_MAX 0 [ModuleHandle.mk 0 0] [] [FunctionHandle.mk 0 0 1 2 []] [] [] [] [] []
    [[]; [MutableReference (Vector U64)]; [MutableReference U64]; [U64]] [Identifier.self_bytes] [AccountAddress_ZERO]
    [] [] [FunctionDefinition.mk 0 Visibility.Private [] (Some self_call_code)].
Definition self_call_view : FunctionView :=
  FunctionView.mk (Some 0) self_call_code [MutableReference (Vector U64)] [MutableReference U64] [U64] []
    (match VMControlFlowGraph.new self_call_code.(CodeUnit.code) with
     | Ok cfg => cfg
     | _ => VMControlFlowGraph.mk [] [] []
     end).
Definition self_call_body : list Bytecode :=
  [LdU64 5; StLoc 1; LdU64 6; MutBorrowLoc 1; WriteRef; CopyLoc 0; LdU64 0; VecImmBorrow 3; ReadRef; Pop; MoveLoc 0; Call 0].
Abbreviation self_call_run P := (run (BinaryIndexedView.Module_ self_call_module) [(0, 0)] 2 P self_call_body).

Example self_call_verified :
  Verifier.verify_module (fun _ _ => None) (fun _ => inr []) (fun _ => []) self_call_module = Ok () /\
  FunctionView.function self_call_module 0 self_call_code (FunctionHandle.mk 0 0 1 2 []) = Ok self_call_view.
Proof. split; vm_compute; reflexivity. Qed.

(** The argument is a mutable reference to a place outside; the inner call returns a
    reference to an element of it. *)
Definition caller_place : place := [Label.Field 3].
Definition element_place : place := [Label.Field 3; Label.Field 7].
Definition self_call_end : Frame := Machine.mk [Ref true element_place] [(1, Plain)].

Lemma no_overlap_one (x : Value) : disjoint [x].
Proof. intros [|i] [|j] p mu p' Hij Hi Hj; try done; by destruct i || destruct j. Qed.

Lemma self_call_callable : callable self_call_view.(FunctionView.parameters) [Ref true caller_place].
Proof.
  split; [|intros mu p H%list_elem_of_singleton; by simplify_eq|apply no_overlap_one].
  repeat constructor. by exists caller_place.
Qed.

Lemma self_call_runs : self_call_run (fun _ _ => True) (entry_frame [Ref true caller_place]) self_call_end.
Proof.
  eapply run_cons; [done|by apply (step_plain _ _ _ _ 0 1 [] _)|].
  eapply run_cons; [done|by apply step_st_loc|].
  eapply run_cons; [done|by apply (step_plain _ _ _ _ 0 1 [] _)|].
  eapply run_cons; [done|apply (step_borrow_loc _ _ _ true)|].
  eapply run_cons; [done|apply step_write_ref|].
  eapply run_cons; [done|by apply step_copy_loc|].
  eapply run_cons; [done|by apply (step_plain _ _ _ _ 0 1 [_] _)|].
  eapply run_cons; [done|by apply (step_vec_borrow _ _ _ _ false true caller_place [Label.Field 7])|].
  eapply run_cons; [done|apply step_read_ref|].
  eapply run_cons; [done|apply step_pop|].
  eapply run_cons; [done|by apply step_move_loc|].
  eapply run_cons; [done| |constructor].
  eapply (step_call _ _ _ _ _ _ _ _ [Ref true caller_place] [Ref true element_place] []).
  - by split.
  - done.
  - repeat constructor. exists caller_place, element_place. split; [done|]. split; [by left|by exists [Label.Field 7]].
  - apply no_overlap_one.
Qed.

Definition self_call_start : ReferenceState := Eval cbv in
  match ReferenceState.new self_call_view with Ok s => s | _ => ReferenceState.mk None [] [] 0 0 end.

Lemma self_call_new : ReferenceState.new self_call_view = Ok self_call_start.
Proof. vm_compute. reflexivity. Qed.

Lemma self_call_all_checked s :
  ReferenceState.new self_call_view = Ok s ->
  all_checked (BinaryIndexedView.Module_ self_call_module) self_call_view [(0, 0)] self_call_body ([], s).
Proof.
  rewrite self_call_new. intros [= <-]. vm_compute.
  repeat (split; [split; intros; simplify_eq; reflexivity|]). exact I.
Qed.

Lemma reference_safety_block_sound_witness : exists st' s',
  execute_all (BinaryIndexedView.Module_ self_call_module) self_call_view [(0, 0)] self_call_body ([], self_call_start) =
    Ok (st', inr ((), s')) /\ stands_for 2 st' s' self_call_end /\
  self_call_run (permitted (BinaryIndexedView.Module_ self_call_module) [(0, 0)])
    (entry_frame [Ref true caller_place]) self_call_end.
Proof.
  destruct (new_sound self_call_view [Ref true caller_place]) as (s & Hs & Hc); [done|apply self_call_callable|].
  rewrite self_call_new in Hs. injection Hs as <-.
  pose proof (reference_safety_block_sound (BinaryIndexedView.Module_ self_call_module) self_call_view [(0, 0)] 2
    self_call_body [] self_call_start _ _ Hc self_call_runs (self_call_all_checked _ self_call_new)) as H.
  assert (exists r, execute_all (BinaryIndexedView.Module_ self_call_module) self_call_view [(0, 0)] self_call_body
    ([], self_call_start) = Ok (r.1, inr ((), r.2))) as [[st' s'] E].
  { eexists (_, _). vm_compute. reflexivity. }
  rewrite E in H. exists st', s'. split; [exact E|exact H].
Defined.

Lemma reference_safety_straight_line_sound_witness :
  self_call_run (permitted (BinaryIndexedView.Module_ self_call_module) [(0, 0)])
    (entry_frame [Ref true caller_place]) self_call_end /\
  Forall2 (result_from [Ref true caller_place]) self_call_view.(FunctionView.return_) [Ref true element_place].
Proof.
  destruct (reference_safety_straight_line_sound (BinaryIndexedView.Module_ self_call_module) self_call_view [(0, 0)]
    self_call_body [Ref true caller_place] [Ref true element_place] [] [(1, Plain)]) as (H1 & H2 & _).
  - split; vm_compute; reflexivity.
  - done.
  - apply self_call_callable.
  - vm_compute. reflexivity.
  - exact self_call_runs.
  - repeat constructor. by exists element_place.
  - apply self_call_all_checked.
  - split; [exact H1|exact H2].
Defined.

Import SignatureToken Bytecode.

(** * Sample modules *)

(** A module with one function, of the given signatures and body. *)
Definition one_function (signatures : list Signature) (parameters locals : SignatureIndex)
    (body : list Bytecode) : CompiledModule :=
  CompiledModule.mk VERSION_MAX 0 [ModuleHandle.mk 0 0] [] [FunctionHandle.mk 0 0 parameters 0 []]
    [] [] [] [] [] signatures [Identifier.self_bytes] [AccountAddress_ZERO] [] []
    [FunctionDefinition.mk 0 Visibility.Private [] (Some (CodeUnit.mk locals body))].

(** Two mutable references change places before a branch. *)
Definition exchange_module : CompiledModule :=
  one_function [[]; [MutableReference U64; MutableReference U64]] 1 0
    [MoveLoc 0; MoveLoc 1; StLoc 0; StLoc 1; Branch 5; MoveLoc 0; Pop; MoveLoc 1; Pop; Ret].
(** The same without the branch. *)
Definition exchange_in_block_module : CompiledModule :=
  one_function [[]; [MutableReference U64; MutableReference U64]] 1 0
    [MoveLoc 0; MoveLoc 1; StLoc 0; StLoc 1; MoveLoc 0; Pop; MoveLoc 1; Pop; Ret].

(** The block at 2 assigns to a local that is borrowed, with values on the stack; the
    block at 9 is correct. *)
Definition leftover_module : CompiledModule :=
  one_function [[]; [Bool; U64]] 1 0
    [CopyLoc 0; BrTrue 9; LdU64 1; ImmBorrowLoc 1; LdU64 2; StLoc 1; Pop; Pop; Ret; Branch 10; Ret].

(** Local 3 is a reference to one of two parameters; [n] more locals are not used. *)
Definition many_locals_module (n : nat) : CompiledModule :=
  one_function [[]; [Bool; U64; U64]; Reference U64 :: repeat U64 n] 1 2
    [CopyLoc 0; BrTrue 5; ImmBorrowLoc 1; StLoc 3; Branch 7; ImmBorrowLoc 2; StLoc 3; CopyLoc 3; Pop; Ret].

(** The cases [k], .., [k + n - 1] of a selection: if parameter 0 equals [k], local [y]
    becomes a reference to parameter [k]; the last case does not test. *)
Fixpoint select_cases (n : nat) (k pc exit y : Z) : list Bytecode :=
  match n with
  | O => []
  | S n =>
    [CopyLoc 0; LdU64 k; Eq; BrFalse (match n with O => pc + 4 | _ => pc + 7 end);
     ImmBorrowLoc k; StLoc y; Branch exit] ++ select_cases n (k + 1) (pc + 7) exit y
  end.
(** A reference to one of [n] parameters is selected; then parameter 1 is written and the
    reference is read. *)
Definition selection_module (n : nat) : CompiledModule :=
  let y := Z.of_nat n + 1 in
  one_function [[]; U64 :: repeat U64 n; [Reference U64]] 1 2
    (select_cases n 1 0 (7 * Z.of_nat n) y ++
     [LdU64 7; MutBorrowLoc 1; WriteRef; MoveLoc y; ReadRef; Pop; Ret]).

(** The parameter is a mutable reference to a vector; element 0 is borrowed mutably, and
    then again, immutably, from a copy of the parameter after [prepare]; the first
    reference is written before the second is read. *)
Definition two_elements_module (prepare : list Bytecode) : CompiledModule :=
  one_function [[]; [MutableReference (Vector U64)]; [MutableReference U64; Reference U64]; [U64]] 1 2
    ([CopyLoc 0; LdU64 0; VecMutBorrow 3; StLoc 1; CopyLoc 0] ++ prepare ++
     [LdU64 0; VecImmBorrow 3; StLoc 2; LdU64 7; MoveLoc 1; WriteRef; MoveLoc 2; ReadRef; Pop; Ret]).

(** The whole verifier, for modules without structs, constants and generics. *)
Definition verify_sample : CompiledModule -> result StatusCode () :=
  Verifier.verify_module (fun _ _ => None) (fun _ => inr []) (fun _ => []).

(** The passes over the body of the function that come before reference safety. *)
Definition earlier_passes (m : CompiledModule) : result StatusCode () :=
  res_for m.(CompiledModule.function_defs) (fun d =>
    code ← unwrap d.(FunctionDefinition.code);
    h ← ModuleAccess.function_handle_at m d.(FunctionDefinition.function);
    fv ← FunctionView.function m 0 code h;
    StackUsageVerifier.verify (BinaryIndexedView.Module_ m) fv;;
    TypeSafety.verify (BinaryIndexedView.Module_ m) fv;;
    LocalsSafety.verify (BinaryIndexedView.Module_ m) fv).

(** Reference safety panics on three kinds of functions that the earlier passes accept.
    First, if two references change places between the locals of a block, renaming them at
    the end of the block loses one; without the branch the function is accepted.  Second,
    if a block is in error with values on the stack, these stay on the stack of the
    analysis and the assertion at the end of the next block fails, where an error should
    be reported.  Third, a function may have 256 locals, but a join visits
    [num_locals as u8] of them, which is none, and forgets all values; with 255 locals the
    function is accepted. *)
Example reference_safety_panics :
  (earlier_passes exchange_module = Ok () /\ verify_sample exchange_module = Panic /\
   verify_sample exchange_in_block_module = Ok ()) /\
  (earlier_passes leftover_module = Ok () /\ verify_sample leftover_module = Panic) /\
  (wf_module (many_locals_module 252) = true /\ earlier_passes (many_locals_module 252) = Ok () /\
   verify_sample (many_locals_module 252) = Panic /\ verify_sample (many_locals_module 251) = Ok ()).
Proof. repeat split; lazy; reflexivity. Qed.

(** * Unsafe functions that are accepted *)

(** The instructions at the offsets [pcs], each of which is a successor of the one before. *)
Fixpoint path_code (code : list Bytecode) (pcs : list CodeOffset) : option (list Bytecode) :=
  match pcs with
  | [] => Some []
  | pc :: pcs' =>
    let follows := match pcs', Bytecode.get_successors pc code with
      | [], _ => true
      | next :: _, Ok l => existsb (Z.eqb next) l
      | _, _ => false
      end in
    b ← code !! Z.to_nat pc;
    bs ← path_code code pcs';
    if follows then Some (b :: bs) else None
  end.

(** The function of the module, of the view [fv], has a path [pcs] from its entry on which
    a run writes the place [x] while there is an immutable reference to it, and reads the
    place through a reference afterwards. *)
Definition reads_overwritten (m : CompiledModule) (fv : FunctionView) (pcs : list CodeOffset) (arguments : list Value)
    (x : place) : Prop :=
  let n := zlen fv.(FunctionView.parameters) + zlen fv.(FunctionView.locals) in
  let running := run (BinaryIndexedView.Module_ m) [(0, 0)] n (fun _ _ => True) in
  exists before between c c1 c2 others others',
    path_code fv.(FunctionView.code).(CodeUnit.code) (0 :: pcs) = Some (before ++ WriteRef :: between ++ [ReadRef]) /\
    running before (entry_frame arguments) c /\
    accesses (BinaryIndexedView.Module_ m) [(0, 0)] WriteRef c Write x others /\ Ref false x ∈ others /\
    ~ permitted (BinaryIndexedView.Module_ m) [(0, 0)] WriteRef c /\
    step (BinaryIndexedView.Module_ m) [(0, 0)] n WriteRef c c1 /\ running between c1 c2 /\
    accesses (BinaryIndexedView.Module_ m) [(0, 0)] ReadRef c2 Read x others'.

(** The view of the only function of a sample. *)
Definition sample_view (m : CompiledModule) : result StatusCode FunctionView :=
  d ← unwrap (head m.(CompiledModule.function_defs));
  code ← unwrap d.(FunctionDefinition.code);
  h ← ModuleAccess.function_handle_at m d.(FunctionDefinition.function);
  FunctionView.function m 0 code h.

(** A write while there is an immutable reference to the place is not permitted. *)
Lemma write_forbidden resolver ndm b c x others :
  accesses resolver ndm b c Write x others -> Ref false x ∈ others -> ~ permitted resolver ndm b c.
Proof. intros Ha Hin [H _]. by destruct (H _ _ _ Ha false x Hin (reflexivity x)). Qed.

(** An instruction that works on plain values: it pops [n], pushes [m], and [S] is below. *)
Ltac run_plain n m S := eapply run_cons; [exact I|by apply (step_plain _ _ _ _ n m S _)|]; simpl app.

Lemma two_elements_run fv p q :
  sample_view (two_elements_module []) = Ok fv ->
  reads_overwritten (two_elements_module []) fv (seqZ 1 12) [Ref true p] (p ++ q).
Proof.
  intros [= <-]. eexists [_; _; _; _; _; _; _; _; _; _], [_], _, _, _, _, _.
  split; [vm_compute; reflexivity|]. split; [|split; [|split; [|split; [|split; [|split]]]]].
  - eapply run_cons; [done|by apply step_copy_loc|].
    run_plain 0%nat 1%nat [Ref true p].
    eapply run_cons; [done|by apply (step_vec_borrow _ _ _ _ true true p q)|].
    eapply run_cons; [done|by apply step_st_loc|].
    eapply run_cons; [done|by apply step_copy_loc|].
    run_plain 0%nat 1%nat [Ref true p].
    eapply run_cons; [done|by apply (step_vec_borrow _ _ _ _ false true p q)|].
    eapply run_cons; [done|by apply step_st_loc|].
    run_plain 0%nat 1%nat (@nil Value).
    eapply run_cons; [done|by apply step_move_loc|]. constructor.
  - apply writes.
  - set_solver.
  - eapply write_forbidden; [apply writes|set_solver].
  - apply step_write_ref.
  - eapply run_cons; [done|by apply step_move_loc|]. constructor.
  - apply reads.
Qed.

Lemma selection_run fv :
  sample_view (selection_module 11) = Ok fv ->
  reads_overwritten (selection_module 11) fv ([1; 2; 3; 4; 5; 6] ++ seqZ 77 5) (repeat Plain 12) [Label.Local 1].
Proof.
  intros H. vm_compute in H. injection H as <-. unfold reads_overwritten. cbn [FunctionView.code FunctionView.parameters FunctionView.locals CodeUnit.code].
  eexists [_; _; _; _; _; _; _; _; _], [_], _, _, _, _, _.
  split; [vm_compute; reflexivity|]. split; [|split; [|split; [|split; [|split; [|split]]]]].
  - eapply run_cons; [done|by apply step_copy_loc|].
    run_plain 0%nat 1%nat [Plain].
    eapply run_cons; [done|by apply step_compare_values; left|].
    run_plain 1%nat 0%nat (@nil Value).
    eapply run_cons; [done|by apply (step_borrow_loc _ _ _ false)|].
    eapply run_cons; [done|by apply step_st_loc|].
    run_plain 0%nat 0%nat (@nil Value).
    run_plain 0%nat 1%nat (@nil Value).
    eapply run_cons; [done|by apply (step_borrow_loc _ _ _ true)|]. constructor.
  - apply writes.
  - set_solver.
  - eapply write_forbidden; [apply writes|set_solver].
  - apply step_write_ref.
  - eapply run_cons; [done|by apply step_move_loc|]. constructor.
  - apply reads.
Qed.

Lemma two_elements_callable fv p :
  sample_view (two_elements_module []) = Ok fv -> outside p ->
  callable fv.(FunctionView.parameters) [Ref true p].
Proof.
  intros H Hp. vm_compute in H. injection H as <-. split; [repeat constructor; by exists p| |apply no_overlap_one].
  intros mu p' H%list_elem_of_singleton. by simplify_eq.
Qed.

Lemma selection_callable fv :
  sample_view (selection_module 11) = Ok fv -> callable fv.(FunctionView.parameters) (repeat Plain 12).
Proof.
  intros H. vm_compute in H. injection H as <-.
  assert (forall mu p, Ref mu p ∈ repeat Plain 12 -> False) as Hno by (intros mu p [= _]%list_elem_of_In%repeat_spec).
  split; [repeat constructor|by intros mu p []%Hno|]. intros i j p mu p' _ []%list_elem_of_lookup_2%Hno.
Qed.

(** C38: The conditions [all_checked] under which reference safety is sound are needed: the
    verifier accepts functions with runs, from arguments that a caller may pass, that write
    a place while there is an immutable reference to it, which is then read.
    [VecImmBorrow] of a mutable reference does not ask whether an element of the vector is
    borrowed mutably: for every place [p] that the argument refers to and every element [q],
    the function writes the element through one reference and reads it through the other.
    If the reference is frozen first, as the other instructions that make an immutable
    reference do, the function is rejected.  [MutBorrowLoc] asks nothing, since the frame is
    thought to have no edge with an empty path; but when the set of edges from the frame to
    one reference would have more than 10 edges it becomes a single edge with an empty
    path.  So a function that selects a reference to one of ten parameters, writes the first
    parameter and reads the reference is rejected; with eleven it is accepted, and it has a
    run that reads what was written. *)
Theorem reference_safety_unchecked_borrows (p q : place) :
  outside p ->
  (verify_sample (two_elements_module []) = Ok () /\
   verify_sample (two_elements_module [FreezeRef]) = Err FREEZEREF_EXISTS_MUTABLE_BORROW_ERROR /\
   exists fv, sample_view (two_elements_module []) = Ok fv /\ callable fv.(FunctionView.parameters) [Ref true p] /\
     reads_overwritten (two_elements_module []) fv (seqZ 1 12) [Ref true p] (p ++ q)) /\
  (verify_sample (selection_module 11) = Ok () /\
   verify_sample (selection_module 10) = Err WRITEREF_EXISTS_BORROW_ERROR /\
   exists fv, sample_view (selection_module 11) = Ok fv /\ callable fv.(FunctionView.parameters) (repeat Plain 12) /\
     reads_overwritten (selection_module 11) fv ([1; 2; 3; 4; 5; 6] ++ seqZ 77 5) (repeat Plain 12) [Label.Local 1]) /\
  wf_module (two_elements_module []) = true /\ wf_module (selection_module 11) = true.
Proof.
  assert (exists fv, sample_view (two_elements_module []) = Ok fv) as [fv1 H1] by (eexists; vm_compute; reflexivity).
  assert (exists fv, sample_view (selection_module 11) = Ok fv) as [fv2 H2] by (eexists; vm_compute; reflexivity).
  intros Hp. split; [|split; [|split; vm_compute; reflexivity]].
  - do 2 (split; [vm_compute; reflexivity|]). exists fv1. split; [done|].
    split; [by apply two_elements_callable|by apply two_elements_run].
  - do 2 (split; [vm_compute; reflexivity|]). exists fv2. split; [done|].
    split; [by apply selection_callable|by apply selection_run].
Qed.

Lemma reference_safety_unchecked_borrows_witness :
  verify_sample (two_elements_module []) = Ok () /\
  exists fv, sample_view (two_elements_module []) = Ok fv /\
    reads_overwritten (two_elements_module []) fv (seqZ 1 12) [Ref true caller_place] element_place.
Proof.
  destruct (reference_safety_unchecked_borrows caller_place [Label.Field 7]) as [(H1 & _ & fv & H2 & _ & H3) _].
  - split; [discriminate|reflexivity].
  - split; [exact H1|]. exists fv. split; [exact H2|exact H3].
Defined.
