(* ===== verification/Dependencies.v ===== *)
(** Linking: move-bytecode-verifier/src/dependencies.rs.  What a module or script takes
    from other modules is there and as it is declared.  Hash maps and ordered maps are
    finite maps; the order in which entries go into the two maps of the context does not
    matter, since the entries of different modules have different keys. *)
From stdpp Require Import gmap.
From S2P Require Import Prelude StatusCode Abilities Identifier FileFormat Access.

#[global] Instance ModuleId_eq_dec : EqDecision ModuleId.
Proof. unfold ModuleId, AccountAddress, Identifier, Identifier.Identifier. solve_decision. Defined.
#[global] Instance ModuleId_countable : Countable ModuleId.
Proof. unfold ModuleId, AccountAddress, Identifier, Identifier.Identifier. apply _. Defined.
#[global] Instance Identifier_eq_dec : EqDecision Identifier.
Proof. unfold Identifier, Identifier.Identifier. solve_decision. Defined.
#[global] Instance Identifier_countable : Countable Identifier.
Proof. unfold Identifier, Identifier.Identifier. apply _. Defined.
#[global] Instance Visibility_eq_dec : EqDecision Visibility.
Proof. solve_decision. Defined.

Module Context.
Abbreviation R := (result StatusCode).

Record Context : Set := mk {
  resolver : BinaryIndexedView;
  dependency_map : gmap ModuleId CompiledModule;
  struct_id_to_handle_map : gmap (ModuleId * Identifier) StructHandleIndex;
  func_id_to_handle_map : gmap (ModuleId * Identifier) FunctionHandleIndex;
  function_visibilities : gmap FunctionHandleIndex Visibility;
}.

(** [idx as TableIndex], an index of [enumerate]. *)
Definition as_table_index (idx : nat) : TableIndex := Z.of_nat idx mod 2 ^ 16.

(** A loop that puts entries into a map; the body may panic. *)
Fixpoint fill {A B} (f : A -> B -> R B) (l : list A) (acc : B) : R B :=
  match l with
  | [] => Ok acc
  | x :: l => acc ← f x acc; fill f l acc
  end.

(** [filter], [map] and [collect] over the dependencies. *)
Definition collect_dependencies (self_module : option ModuleId) (dependencies : list CompiledModule) :
    R (gmap ModuleId CompiledModule) :=
  fill (fun d acc =>
    id ← ModuleAccess.self_id d;
    Ok (if bool_decide (Some id = self_module) then acc else <[id := d]> acc)) dependencies ∅.

(** The loop over the struct definitions of a dependency. *)
Definition add_structs (module_id : ModuleId) (module : CompiledModule) :
    gmap (ModuleId * Identifier) StructHandleIndex -> R (gmap (ModuleId * Identifier) StructHandleIndex) :=
  fill (fun struct_def acc =>
    struct_handle ← ModuleAccess.struct_handle_at module struct_def.(StructDefinition.struct_handle);
    struct_name ← ModuleAccess.identifier_at module struct_handle.(StructHandle.name);
    Ok (<[(module_id, struct_name) := struct_def.(StructDefinition.struct_handle)]> acc))
    module.(CompiledModule.struct_defs).

Definition may_be_called (self_module : option ModuleId) (friend_module_ids : list ModuleId) (v : Visibility) : bool :=
  match v with
  | Visibility.Public | Visibility.Script => true
  | Visibility.Friend =>
    match self_module with Some self_id => bool_decide (self_id ∈ friend_module_ids) | None => false end
  | Visibility.Private => false
  end.

(** The loop over the function definitions of a dependency: the functions that may be
    called, and the visibilities of all. *)
Definition add_functions (self_module : option ModuleId) (module_id : ModuleId) (module : CompiledModule)
    (friend_module_ids : list ModuleId) :
    gmap (ModuleId * Identifier) FunctionHandleIndex * gmap (ModuleId * Identifier) Visibility ->
    R (gmap (ModuleId * Identifier) FunctionHandleIndex * gmap (ModuleId * Identifier) Visibility) :=
  fill (fun func_def '(funcs, visibilities) =>
    func_handle ← ModuleAccess.function_handle_at module func_def.(FunctionDefinition.function);
    func_name ← ModuleAccess.identifier_at module func_handle.(FunctionHandle.name);
    let visibility := func_def.(FunctionDefinition.visibility) in
    Ok (if may_be_called self_module friend_module_ids visibility
        then <[(module_id, func_name) := func_def.(FunctionDefinition.function)]> funcs else funcs,
        <[(module_id, func_name) := visibility]> visibilities))
    module.(CompiledModule.function_defs).

(** The last loop: the visibilities of the functions of other modules. *)
Definition add_visibilities (resolver : BinaryIndexedView)
    (dependency_visibilities : gmap (ModuleId * Identifier) Visibility) :
    gmap FunctionHandleIndex Visibility -> R (gmap FunctionHandleIndex Visibility) :=
  fill (fun '(idx, function_handle) acc =>
    if bool_decide (Some function_handle.(FunctionHandle.module) = BinaryIndexedView.self_handle_idx resolver)
    then Ok acc
    else
      module_handle ← BinaryIndexedView.module_handle_at resolver function_handle.(FunctionHandle.module);
      owner_module_id ← BinaryIndexedView.module_id_for_handle resolver module_handle;
      function_name ← BinaryIndexedView.identifier_at resolver function_handle.(FunctionHandle.name);
      Ok (match dependency_visibilities !! (owner_module_id, function_name) with
          | None => acc
          | Some vis => <[as_table_index idx := vis]> acc
          end))
    (imap pair (BinaryIndexedView.function_handles resolver)).

Definition new (resolver : BinaryIndexedView) (dependencies : list CompiledModule) : R Context :=
  self_module ← BinaryIndexedView.self_id resolver;
  let self_function_defs :=
    match resolver with
    | BinaryIndexedView.Module_ m => m.(CompiledModule.function_defs)
    | BinaryIndexedView.Script_ _ => []
    end in
  dependency_map ← collect_dependencies self_module dependencies;
  '(structs, funcs, dependency_visibilities) ←
    fill (fun '(module_id, module) '(structs, funcs, visibilities) =>
      friend_module_ids ← ModuleAccess.immediate_friends module;
      structs ← add_structs module_id module structs;
      '(funcs, visibilities) ← add_functions self_module module_id module friend_module_ids (funcs, visibilities);
      Ok (structs, funcs, visibilities)) (map_to_list dependency_map) (∅, ∅, ∅);
  let self_visibilities : gmap FunctionHandleIndex Visibility :=
    foldl (fun acc function_def =>
      <[function_def.(FunctionDefinition.function) := function_def.(FunctionDefinition.visibility)]> acc)
      ∅ self_function_defs in
  function_visibilities ← add_visibilities resolver dependency_visibilities self_visibilities;
  Ok (mk resolver dependency_map structs funcs function_visibilities).
End Context.
Abbreviation Context := Context.Context.

Module Dependencies.
Abbreviation R := (result StatusCode).
Import Context.

(** * Declarations *)

Definition compatible_struct_abilities (local_struct_abilities_declaration defined_struct_abilities : AbilitySet) : bool :=
  AbilitySet.is_subset local_struct_abilities_declaration defined_struct_abilities.

Definition compatible_type_parameter_constraints
    (local_type_parameter_constraints_declaration defined_type_parameter_constraints : AbilitySet) : bool :=
  AbilitySet.is_subset defined_type_parameter_constraints local_type_parameter_constraints_declaration.

Definition compatible_type_parameter_phantom_decl
    (local_type_parameter_declaration defined_type_parameter : StructTypeParameter) : bool :=
  negb local_type_parameter_declaration.(StructTypeParameter.is_phantom) ||
  defined_type_parameter.(StructTypeParameter.is_phantom).

Definition compatible_fun_type_parameters
    (local_type_parameters_declaration defined_type_parameters : list AbilitySet) : bool :=
  Nat.eqb (length local_type_parameters_declaration) (length defined_type_parameters) &&
  forallb (fun '(local, defined) => compatible_type_parameter_constraints local defined)
    (zip local_type_parameters_declaration defined_type_parameters).

Definition compatible_struct_type_parameters
    (local_type_parameters_declaration defined_type_parameters : list StructTypeParameter) : bool :=
  Nat.eqb (length local_type_parameters_declaration) (length defined_type_parameters) &&
  forallb (fun '(local, defined) =>
    compatible_type_parameter_phantom_decl local defined &&
    compatible_type_parameter_constraints local.(StructTypeParameter.constraints)
      defined.(StructTypeParameter.constraints))
    (zip local_type_parameters_declaration defined_type_parameters).

Section context.
Context (context : Context).
Abbreviation view := (context.(resolver)).
Abbreviation dependency_map := (context.(Context.dependency_map)).

(** * Types *)

Definition compare_structs (idx1 idx2 : StructHandleIndex) (def_module : CompiledModule) : R () :=
  struct_handle ← BinaryIndexedView.struct_handle_at view idx1;
  module_handle ← BinaryIndexedView.module_handle_at view struct_handle.(StructHandle.module);
  module_id ← BinaryIndexedView.module_id_for_handle view module_handle;
  struct_name ← BinaryIndexedView.identifier_at view struct_handle.(StructHandle.name);
  def_struct_handle ← ModuleAccess.struct_handle_at def_module idx2;
  def_module_handle ← ModuleAccess.module_handle_at def_module def_struct_handle.(StructHandle.module);
  def_module_id ← ModuleAccess.module_id_for_handle def_module def_module_handle;
  def_struct_name ← ModuleAccess.identifier_at def_module def_struct_handle.(StructHandle.name);
  if negb (bool_decide (module_id = def_module_id)) || negb (bool_decide (struct_name = def_struct_name))
  then Err TYPE_MISMATCH else Ok ().

(** [for (handle_type, def_type) in handle_sig.iter().zip(def_sig) { compare(..)? }] *)
Definition compare_zip (compare : SignatureToken -> SignatureToken -> R ()) :
    list SignatureToken -> list SignatureToken -> R () :=
  fix go handle_sig def_sig :=
    match handle_sig, def_sig with
    | handle_type :: handle_sig, def_type :: def_sig => compare handle_type def_type;; go handle_sig def_sig
    | _, _ => Ok ()
    end.

(** [compare_cross_module_signatures], given how it compares two types. *)
Definition compare_signatures_with (compare : SignatureToken -> SignatureToken -> R ())
    (handle_sig def_sig : list SignatureToken) : R () :=
  if negb (Nat.eqb (length handle_sig) (length def_sig)) then Err TYPE_MISMATCH
  else compare_zip compare handle_sig def_sig.

Fixpoint compare_types (def_module : CompiledModule) (handle_type def_type : SignatureToken) : R () :=
  match handle_type, def_type with
  | SignatureToken.Bool, SignatureToken.Bool
  | SignatureToken.U8, SignatureToken.U8
  | SignatureToken.U64, SignatureToken.U64
  | SignatureToken.U128, SignatureToken.U128
  | SignatureToken.Address, SignatureToken.Address
  | SignatureToken.Signer, SignatureToken.Signer => Ok ()
  | SignatureToken.Vector ty1, SignatureToken.Vector ty2 => compare_types def_module ty1 ty2
  | SignatureToken.Struct idx1, SignatureToken.Struct idx2 => compare_structs idx1 idx2 def_module
  | SignatureToken.StructInstantiation idx1 inst1, SignatureToken.StructInstantiation idx2 inst2 =>
    compare_structs idx1 idx2 def_module;;
    compare_signatures_with (compare_types def_module) inst1 inst2
  | SignatureToken.Reference ty1, SignatureToken.Reference ty2
  | SignatureToken.MutableReference ty1, SignatureToken.MutableReference ty2 => compare_types def_module ty1 ty2
  | SignatureToken.TypeParameter idx1, SignatureToken.TypeParameter idx2 =>
    if negb (idx1 =? idx2) then Err TYPE_MISMATCH else Ok ()
  | _, _ => Err TYPE_MISMATCH
  end.

Definition compare_cross_module_signatures (handle_sig def_sig : list SignatureToken) (def_module : CompiledModule) : R () :=
  compare_signatures_with (compare_types def_module) handle_sig def_sig.

(** * Handles *)

Definition verify_imported_modules : R () :=
  res_for (imap pair (BinaryIndexedView.module_handles view)) (fun '(idx, module_handle) =>
    module_id ← BinaryIndexedView.module_id_for_handle view module_handle;
    if negb (bool_decide (Some (as_table_index idx) = BinaryIndexedView.self_handle_idx view)) &&
       negb (bool_decide (is_Some (dependency_map !! module_id)))
    then Err MISSING_DEPENDENCY else Ok ()).

(** The owner of a handle of another module. *)
Definition owner_module_id (module : ModuleHandleIndex) : R ModuleId :=
  module_handle ← BinaryIndexedView.module_handle_at view module;
  BinaryIndexedView.module_id_for_handle view module_handle.

Definition verify_imported_structs : R () :=
  res_for (BinaryIndexedView.struct_handles view) (fun struct_handle =>
    if bool_decide (Some struct_handle.(StructHandle.module) = BinaryIndexedView.self_handle_idx view) then Ok ()
    else
      owner_module_id ← owner_module_id struct_handle.(StructHandle.module);
      owner_module ← unwrap (dependency_map !! owner_module_id);
      struct_name ← BinaryIndexedView.identifier_at view struct_handle.(StructHandle.name);
      match context.(struct_id_to_handle_map) !! (owner_module_id, struct_name) with
      | Some def_idx =>
        def_handle ← ModuleAccess.struct_handle_at owner_module def_idx;
        if negb (compatible_struct_abilities struct_handle.(StructHandle.abilities) def_handle.(StructHandle.abilities)) ||
           negb (compatible_struct_type_parameters struct_handle.(StructHandle.type_parameters)
             def_handle.(StructHandle.type_parameters))
        then Err TYPE_MISMATCH else Ok ()
      | None => Err LOOKUP_FAILED
      end).

(** [match context.dependency_map.get(&owner_module_id)], to read a signature of the owner. *)
Definition def_signature (owner_module_id : ModuleId) (idx : SignatureIndex) : R Signature :=
  match dependency_map !! owner_module_id with
  | Some module => ModuleAccess.signature_at module idx
  | None => Err LOOKUP_FAILED
  end.

Definition verify_imported_functions : R () :=
  res_for (BinaryIndexedView.function_handles view) (fun function_handle =>
    if bool_decide (Some function_handle.(FunctionHandle.module) = BinaryIndexedView.self_handle_idx view) then Ok ()
    else
      owner_module_id ← owner_module_id function_handle.(FunctionHandle.module);
      function_name ← BinaryIndexedView.identifier_at view function_handle.(FunctionHandle.name);
      owner_module ← unwrap (dependency_map !! owner_module_id);
      match context.(func_id_to_handle_map) !! (owner_module_id, function_name) with
      | Some def_idx =>
        def_handle ← ModuleAccess.function_handle_at owner_module def_idx;
        if negb (compatible_fun_type_parameters function_handle.(FunctionHandle.type_parameters)
             def_handle.(FunctionHandle.type_parameters))
        then Err TYPE_MISMATCH
        else
          handle_params ← BinaryIndexedView.signature_at view function_handle.(FunctionHandle.parameters);
          def_params ← def_signature owner_module_id def_handle.(FunctionHandle.parameters);
          compare_cross_module_signatures handle_params def_params owner_module;;
          handle_return ← BinaryIndexedView.signature_at view function_handle.(FunctionHandle.return_);
          def_return ← def_signature owner_module_id def_handle.(FunctionHandle.return_);
          compare_cross_module_signatures handle_return def_return owner_module
      | None => Err LOOKUP_FAILED
      end).

(** * Calls *)

Definition verify_script_visibility_usage (current_visibility : Visibility) (code : list Bytecode) : R () :=
  res_for code (fun instr =>
    fhandle_idx ←
      match instr with
      | Bytecode.Call fhandle_idx => Ok (Some fhandle_idx)
      | Bytecode.CallGeneric finst_idx =>
        inst ← BinaryIndexedView.function_instantiation_at view finst_idx;
        Ok (Some inst.(FunctionInstantiation.handle))
      | _ => Ok None
      end;
    match fhandle_idx with
    | None => Ok ()
    | Some fhandle_idx =>
      fhandle_vis ← unwrap (context.(function_visibilities) !! fhandle_idx);
      match current_visibility, fhandle_vis with
      | Visibility.Script, Visibility.Script => Ok ()
      | _, Visibility.Script => Err CALLED_SCRIPT_VISIBLE_FROM_NON_SCRIPT_VISIBLE
      | _, _ => Ok ()
      end
    end).

Definition verify_all_script_visibility_usage : R () :=
  match view with
  | BinaryIndexedView.Module_ m =>
    res_for m.(CompiledModule.function_defs) (fun fdef =>
      match fdef.(FunctionDefinition.code) with
      | None => Ok ()
      | Some code => verify_script_visibility_usage fdef.(FunctionDefinition.visibility) code.(CodeUnit.code)
      end)
  | BinaryIndexedView.Script_ s =>
    verify_script_visibility_usage Visibility.Script s.(CompiledScript.code).(CodeUnit.code)
  end.

(** The body of [verify_module_impl] and [verify_script_impl]. *)
Definition verify_context : R () :=
  verify_imported_modules;;
  verify_imported_structs;;
  verify_imported_functions;;
  verify_all_script_visibility_usage.
End context.

Definition verify_module_impl (module : CompiledModule) (dependencies : list CompiledModule) : R () :=
  context ← Context.new (BinaryIndexedView.Module_ module) dependencies;
  verify_context context.

Definition verify_script_impl (script : CompiledScript) (dependencies : list CompiledModule) : R () :=
  context ← Context.new (BinaryIndexedView.Script_ script) dependencies;
  verify_context context.
End Dependencies.
