(* ===== verification/CyclicDependencies.v ===== *)
(** Cycles between modules: move-bytecode-verifier/src/cyclic_dependencies.rs.  The
    neighbours of a module come from a function of the caller, which may fail.  The depth
    of the recursion is bounded by fuel, since nothing bounds the number of modules that
    the function may name. *)
From stdpp Require Import gmap.
From S2P Require Import Prelude StatusCode Abilities Identifier FileFormat Access Dependencies.

Module CyclicDependencies.
Abbreviation R := (result StatusCode).

Section collect.
Context (target_module_id : ModuleId) (immediate_nexts : ModuleId -> R (list ModuleId)).

(** The loop over the neighbours, and over the modules to start from: [explore] until one
    of them answers true. *)
Fixpoint explore_all (explore : ModuleId -> gset ModuleId -> R (bool * gset ModuleId)) (items : list ModuleId)
    (visited_modules : gset ModuleId) : R (bool * gset ModuleId) :=
  match items with
  | [] => Ok (false, visited_modules)
  | next :: items =>
    '(found, visited_modules) ← explore next visited_modules;
    if (found : bool) then Ok (true, visited_modules) else explore_all explore items visited_modules
  end.

Fixpoint collect_all_with_cycle_detection_recursive (fuel : nat) (cursor_module_id : ModuleId)
    (visited_modules : gset ModuleId) : R (bool * gset ModuleId) :=
  match fuel with
  | O => OutOfFuel
  | S fuel =>
    if bool_decide (cursor_module_id = target_module_id) then Ok (true, visited_modules)
    else if bool_decide (cursor_module_id ∈ visited_modules) then Ok (false, visited_modules)
    else
      nexts ← immediate_nexts cursor_module_id;
      explore_all (collect_all_with_cycle_detection_recursive fuel) nexts ({[cursor_module_id]} ∪ visited_modules)
  end.

Definition collect_all_with_cycle_detection (fuel : nat) (items_to_explore : list ModuleId)
    (error_on_cycle : StatusCode) : R (gset ModuleId) :=
  '(found, visited_modules) ← explore_all (collect_all_with_cycle_detection_recursive fuel) items_to_explore ∅;
  if (found : bool) then Err error_on_cycle else Ok visited_modules.
End collect.

Definition verify_module_impl (fuel : nat) (module : CompiledModule) (imm_deps imm_friends : ModuleId -> R (list ModuleId)) : R () :=
  self_id ← ModuleAccess.self_id module;
  deps ← ModuleAccess.immediate_dependencies module;
  all_deps ← collect_all_with_cycle_detection self_id imm_deps fuel deps CYCLIC_MODULE_DEPENDENCY;
  friends ← ModuleAccess.immediate_friends module;
  all_friends ← collect_all_with_cycle_detection self_id imm_friends fuel friends CYCLIC_MODULE_FRIENDSHIP;
  if bool_decide (all_deps ∩ all_friends = ∅) then Ok ()
  else Err INVALID_FRIEND_DECL_WITH_MODULES_IN_DEPENDENCIES.
End CyclicDependencies.
