(* ===== verification/Normalized.v ===== *)
(** Types and declarations that can be compared across modules: move-binary-format/src/
    normalized.rs, to the type tags of [Constants].
    The ordered maps of a module are finite maps. *)
From stdpp Require Import gmap.
From S2P Require Import Prelude StatusCode Abilities Identifier FileFormat Access Constants Dependencies.

(** * Types *)

Module Type_.
Inductive Type_ : Set :=
| Bool | U8 | U64 | U128 | Address | Signer
| Struct (address : AccountAddress) (module name : Identifier) (type_arguments : list Type_)
| Vector (ty : Type_)
| TypeParameter (idx : TypeParameterIndex)
| Reference (ty : Type_)
| MutableReference (ty : Type_).

(** The induction principle with a hypothesis for every type argument. *)
Section induction.
Context (P : Type_ -> Prop).
Hypothesis HBool : P Bool.
Hypothesis HU8 : P U8.
Hypothesis HU64 : P U64.
Hypothesis HU128 : P U128.
Hypothesis HAddress : P Address.
Hypothesis HSigner : P Signer.
Hypothesis HStruct : forall a m n tys, Forall P tys -> P (Struct a m n tys).
Hypothesis HVector : forall ty, P ty -> P (Vector ty).
Hypothesis HParam : forall i, P (TypeParameter i).
Hypothesis HRef : forall ty, P ty -> P (Reference ty).
Hypothesis HMut : forall ty, P ty -> P (MutableReference ty).

Fixpoint type_ind (t : Type_) : P t :=
  match t with
  | Bool => HBool
  | U8 => HU8
  | U64 => HU64
  | U128 => HU128
  | Address => HAddress
  | Signer => HSigner
  | Struct a m n tys =>
    HStruct a m n tys ((fix go tys : Forall P tys :=
      match tys with
      | [] => List.Forall_nil P
      | ty :: tys => List.Forall_cons P ty tys (type_ind ty) (go tys)
      end) tys)
  | Vector ty => HVector ty (type_ind ty)
  | TypeParameter i => HParam i
  | Reference ty => HRef ty (type_ind ty)
  | MutableReference ty => HMut ty (type_ind ty)
  end.
End induction.

#[export] Instance Type_eq_dec : EqDecision Type_.
Proof.
  unfold EqDecision, Decision. fix go 1. intros x y. decide equality; try apply (list_eq_dec Z.eq_dec); try apply Z.eq_dec.
  apply (list_eq_dec go).
Defined.

(** [Type::new], which asserts that a struct without type arguments has no type parameters. *)
Fixpoint new (m : CompiledModule) (s : SignatureToken) : result StatusCode Type_ :=
  match s with
  | SignatureToken.Struct shi =>
    s_handle ← ModuleAccess.struct_handle_at m shi;
    debug_assert (match s_handle.(StructHandle.type_parameters) with [] => true | _ => false end);;
    m_handle ← ModuleAccess.module_handle_at m s_handle.(StructHandle.module);
    address ← ModuleAccess.address_identifier_at m m_handle.(ModuleHandle.address);
    module ← ModuleAccess.identifier_at m m_handle.(ModuleHandle.name);
    name ← ModuleAccess.identifier_at m s_handle.(StructHandle.name);
    Ok (Struct address module name [])
  | SignatureToken.StructInstantiation shi type_actuals =>
    s_handle ← ModuleAccess.struct_handle_at m shi;
    m_handle ← ModuleAccess.module_handle_at m s_handle.(StructHandle.module);
    address ← ModuleAccess.address_identifier_at m m_handle.(ModuleHandle.address);
    module ← ModuleAccess.identifier_at m m_handle.(ModuleHandle.name);
    name ← ModuleAccess.identifier_at m s_handle.(StructHandle.name);
    type_arguments ← ModuleAccess.map_res (new m) type_actuals;
    Ok (Struct address module name type_arguments)
  | SignatureToken.Bool => Ok Bool
  | SignatureToken.U8 => Ok U8
  | SignatureToken.U64 => Ok U64
  | SignatureToken.U128 => Ok U128
  | SignatureToken.Address => Ok Address
  | SignatureToken.Signer => Ok Signer
  | SignatureToken.Vector t => t ← new m t; Ok (Vector t)
  | SignatureToken.TypeParameter i => Ok (TypeParameter i)
  | SignatureToken.Reference t => t ← new m t; Ok (Reference t)
  | SignatureToken.MutableReference t => t ← new m t; Ok (MutableReference t)
  end.

Fixpoint is_closed (self : Type_) : bool :=
  match self with
  | TypeParameter _ => false
  | Bool | U8 | U64 | U128 | Address | Signer => true
  | Struct _ _ _ type_arguments => forallb is_closed type_arguments
  | Vector t | Reference t | MutableReference t => is_closed t
  end.

(** [into_type_tag]; [expect] on the tag of an inner type panics.  The source tests
    whether the type is closed at each level. *)
Fixpoint into_type_tag (self : Type_) : result StatusCode (option TypeTag) :=
  if is_closed self then
    match self with
    | Reference _ | MutableReference _ => Ok None
    | Bool => Ok (Some TypeTag.Bool)
    | U8 => Ok (Some TypeTag.U8)
    | U64 => Ok (Some TypeTag.U64)
    | U128 => Ok (Some TypeTag.U128)
    | Address => Ok (Some TypeTag.Address)
    | Signer => Ok (Some TypeTag.Signer)
    | Vector t => tag ← into_type_tag t; tag ← unwrap tag; Ok (Some (TypeTag.Vector tag))
    | Struct address module name type_arguments =>
      type_params ← ModuleAccess.map_res (fun t => tag ← into_type_tag t; unwrap tag) type_arguments;
      Ok (Some (TypeTag.Struct (TypeTag.mk address module name type_params)))
    | TypeParameter _ => Panic
    end
  else Ok None.

Definition into_struct_tag (self : Type_) : result StatusCode (option StructTag) :=
  tag ← into_type_tag self;
  Ok (match tag with Some (TypeTag.Struct s) => Some s | _ => None end).

Fixpoint subst (self : Type_) (type_args : list Type_) : result StatusCode Type_ :=
  match self with
  | Bool | U8 | U64 | U128 | Address | Signer => Ok self
  | Reference ty => ty ← subst ty type_args; Ok (Reference ty)
  | MutableReference ty => ty ← subst ty type_args; Ok (MutableReference ty)
  | Vector t => t ← subst t type_args; Ok (Vector t)
  | Struct address module name type_arguments =>
    type_arguments ← ModuleAccess.map_res (fun t => subst t type_args) type_arguments;
    Ok (Struct address module name type_arguments)
  | TypeParameter i => unwrap (type_args !! Z.to_nat i)
  end.

(** [From<TypeTag>] *)
Fixpoint from (ty : TypeTag) : Type_ :=
  match ty with
  | TypeTag.Bool => Bool
  | TypeTag.U8 => U8
  | TypeTag.U64 => U64
  | TypeTag.U128 => U128
  | TypeTag.Address => Address
  | TypeTag.Signer => Signer
  | TypeTag.Vector ty => Vector (from ty)
  | TypeTag.Struct (TypeTag.mk address module name type_params) => Struct address module name (map from type_params)
  end.
End Type_.
Abbreviation Type_ := Type_.Type_.
Export (hints) Type_.

(** * Declarations *)

Module Field.
Record Field : Set := mk { name : Identifier; type_ : Type_ }.
#[export] Instance Field_eq_dec : EqDecision Field.
Proof. solve_decision. Defined.

Definition new (m : CompiledModule) (f : FieldDefinition) : result StatusCode Field :=
  name ← ModuleAccess.identifier_at m f.(FieldDefinition.name);
  type_ ← Type_.new m f.(FieldDefinition.signature);
  Ok (mk name type_).
End Field.
Abbreviation Field := Field.Field.
Export (hints) Field.

Module Struct.
Record Struct : Set := mk {
  abilities : AbilitySet;
  type_parameters : list StructTypeParameter;
  fields : list Field;
}.

Definition new (m : CompiledModule) (def : StructDefinition) : result StatusCode (Identifier * Struct) :=
  handle ← ModuleAccess.struct_handle_at m def.(StructDefinition.struct_handle);
  fields ←
    match def.(StructDefinition.field_information) with
    | Native => Panic
    | Declared fields => ModuleAccess.map_res (Field.new m) fields
    end;
  name ← ModuleAccess.identifier_at m handle.(StructHandle.name);
  Ok (name, mk handle.(StructHandle.abilities) handle.(StructHandle.type_parameters) fields).

Definition type_param_constraints (self : Struct) : list AbilitySet :=
  map StructTypeParameter.constraints self.(type_parameters).
End Struct.
Abbreviation NormalizedStruct := Struct.Struct.

Module Function_.
Record Function_ : Set := mk {
  visibility : Visibility;
  type_parameters : list AbilitySet;
  parameters : list Type_;
  return_ : list Type_;
}.

Definition new (m : CompiledModule) (def : FunctionDefinition) : result StatusCode (Identifier * Function_) :=
  fhandle ← ModuleAccess.function_handle_at m def.(FunctionDefinition.function);
  name ← ModuleAccess.identifier_at m fhandle.(FunctionHandle.name);
  parameters ← ModuleAccess.signature_at m fhandle.(FunctionHandle.parameters);
  parameters ← ModuleAccess.map_res (Type_.new m) parameters;
  return_ ← ModuleAccess.signature_at m fhandle.(FunctionHandle.return_);
  return_ ← ModuleAccess.map_res (Type_.new m) return_;
  Ok (name, mk def.(FunctionDefinition.visibility) fhandle.(FunctionHandle.type_parameters) parameters return_).

(** The loop of [new_from_name]. *)
Fixpoint find_by_name (m : CompiledModule) (func_name : Identifier) (defs : list FunctionDefinition) :
    result StatusCode (option Function_) :=
  match defs with
  | [] => Ok None
  | def :: defs =>
    fhandle ← ModuleAccess.function_handle_at m def.(FunctionDefinition.function);
    name ← ModuleAccess.identifier_at m fhandle.(FunctionHandle.name);
    if bool_decide (name = func_name)
    then '(_, f) ← new m def; Ok (Some f)
    else find_by_name m func_name defs
  end.

Definition new_from_name (m : CompiledModule) (func_name : Identifier) : result StatusCode (option Function_) :=
  find_by_name m func_name m.(CompiledModule.function_defs).
End Function_.
Abbreviation NormalizedFunction := Function_.Function_.

(** * Modules *)

Module NormalizedModule.
Record Module_ : Set := mk {
  address : AccountAddress;
  name : Identifier;
  friends : list ModuleId;
  structs : gmap Identifier NormalizedStruct;
  exposed_functions : gmap Identifier NormalizedFunction;
}.

(** [collect] into a map: a later entry replaces an earlier one. *)
Definition collect {V} (l : list (Identifier * V)) : gmap Identifier V :=
  foldl (fun m '(k, v) => <[k := v]> m) ∅ l.

Definition is_exposed (v : Visibility) : bool :=
  match v with
  | Visibility.Public | Visibility.Script | Visibility.Friend => true
  | Visibility.Private => false
  end.

Definition new (m : CompiledModule) : result StatusCode Module_ :=
  friends ← ModuleAccess.immediate_friends m;
  structs ← ModuleAccess.map_res (Struct.new m) m.(CompiledModule.struct_defs);
  exposed_functions ← ModuleAccess.map_res (Function_.new m)
    (List.filter (fun func_def => is_exposed func_def.(FunctionDefinition.visibility)) m.(CompiledModule.function_defs));
  address ← ModuleAccess.address m;
  name ← ModuleAccess.name m;
  Ok (mk address name friends (collect structs) (collect exposed_functions)).

Definition module_id (self : Module_) : ModuleId := (self.(address), self.(name)).
End NormalizedModule.
Abbreviation NormalizedModule := NormalizedModule.Module_.
