(* ===== verification/Compatibility.v ===== *)
(** Compatibility of two versions of a module: move-binary-format/src/compatibility.rs. *)
From stdpp Require Import gmap.
From S2P Require Import Prelude StatusCode Abilities Identifier FileFormat Access Dependencies Normalized.

Module Compatibility.
Record Compatibility : Set := mk {
  struct_and_function_linking : bool;
  struct_layout : bool;
}.

Definition is_fully_compatible (self : Compatibility) : bool :=
  self.(struct_and_function_linking) && self.(struct_layout).

Definition struct_abilities_compatibile (old_abilities new_abilities : AbilitySet) : bool :=
  AbilitySet.is_subset old_abilities new_abilities.

Definition type_parameter_constraints_compatibile (old_type_constraints new_type_constraints : AbilitySet) : bool :=
  AbilitySet.is_subset new_type_constraints old_type_constraints.

Definition type_parameter_phantom_decl_compatibile (old_type_parameter new_type_parameter : StructTypeParameter) : bool :=
  negb old_type_parameter.(StructTypeParameter.is_phantom) || new_type_parameter.(StructTypeParameter.is_phantom).

Definition fun_type_parameters_compatibile (old_type_parameters new_type_parameters : list AbilitySet) : bool :=
  Nat.eqb (length old_type_parameters) (length new_type_parameters) &&
  forallb (fun '(old, new) => type_parameter_constraints_compatibile old new)
    (zip old_type_parameters new_type_parameters).

Definition struct_type_parameters_compatibile (old_type_parameters new_type_parameters : list StructTypeParameter) : bool :=
  Nat.eqb (length old_type_parameters) (length new_type_parameters) &&
  forallb (fun '(old, new) =>
    type_parameter_phantom_decl_compatibile old new &&
    type_parameter_constraints_compatibile old.(StructTypeParameter.constraints) new.(StructTypeParameter.constraints))
    (zip old_type_parameters new_type_parameters).

(** The two flags; an iteration can only lower them. *)
Definition lower_linking (self : Compatibility) : Compatibility := mk false self.(struct_layout).
Definition lower_layout (self : Compatibility) : Compatibility := mk self.(struct_and_function_linking) false.

(** The body of the loop over the structs of the old module. *)
Definition check_struct (new_module : NormalizedModule) (self : Compatibility) (entry : Identifier * NormalizedStruct) :
    Compatibility :=
  let '(name, old_struct) := entry in
  match new_module.(NormalizedModule.structs) !! name with
  | None => lower_linking self
  | Some new_struct =>
    let self :=
      if negb (struct_abilities_compatibile old_struct.(Struct.abilities) new_struct.(Struct.abilities)) ||
         negb (struct_type_parameters_compatibile old_struct.(Struct.type_parameters) new_struct.(Struct.type_parameters))
      then lower_linking self else self in
    if negb (bool_decide (new_struct.(Struct.fields) = old_struct.(Struct.fields))) then lower_layout self else self
  end.

(** [is_vis_compatible]; a private function is never exposed. *)
Definition is_vis_compatible (old new : Visibility) : result StatusCode bool :=
  match old, new with
  | Visibility.Public, Visibility.Public => Ok true
  | Visibility.Public, _ => Ok false
  | Visibility.Script, Visibility.Script => Ok true
  | Visibility.Script, _ => Ok false
  | Visibility.Friend, Visibility.Public | Visibility.Friend, Visibility.Friend => Ok true
  | Visibility.Friend, _ => Ok false
  | Visibility.Private, _ => Panic
  end.

(** The body of the loop over the exposed functions of the old module. *)
Definition check_function (new_module : NormalizedModule) (entry : Identifier * NormalizedFunction) (self : Compatibility) :
    result StatusCode Compatibility :=
  let '(name, old_func) := entry in
  match new_module.(NormalizedModule.exposed_functions) !! name with
  | None => Ok (lower_linking self)
  | Some new_func =>
    is_vis_compatible ← is_vis_compatible old_func.(Function_.visibility) new_func.(Function_.visibility);
    Ok (if negb is_vis_compatible ||
           negb (bool_decide (old_func.(Function_.parameters) = new_func.(Function_.parameters))) ||
           negb (bool_decide (old_func.(Function_.return_) = new_func.(Function_.return_))) ||
           negb (fun_type_parameters_compatibile old_func.(Function_.type_parameters) new_func.(Function_.type_parameters))
        then lower_linking self else self)
  end.

Definition check (old_module new_module : NormalizedModule) : result StatusCode Compatibility :=
  let self := mk true true in
  let self :=
    if negb (bool_decide (old_module.(NormalizedModule.address) = new_module.(NormalizedModule.address) :> list Z)) ||
       negb (bool_decide (old_module.(NormalizedModule.name) = new_module.(NormalizedModule.name)))
    then lower_linking self else self in
  let self := foldl (check_struct new_module) self (map_to_list old_module.(NormalizedModule.structs)) in
  self ← Context.fill (check_function new_module) (map_to_list old_module.(NormalizedModule.exposed_functions)) self;
  let old_friend_module_ids : gset ModuleId := list_to_set old_module.(NormalizedModule.friends) in
  let new_friend_module_ids : gset ModuleId := list_to_set new_module.(NormalizedModule.friends) in
  Ok (if negb (bool_decide (old_friend_module_ids ⊆ new_friend_module_ids)) then lower_linking self else self).
End Compatibility.
Abbreviation Compatibility := Compatibility.Compatibility.
