(* ===== verification/LinkingChecks.v ===== *)
(** What linking means, and that the dependency checker decides it.  The types of two units
    are compared through their normalized forms; a module or script links with its
    dependencies if each module it names is one of them, each struct and function it takes
    from one is declared there compatibly, and only scripts and script functions call script
    functions.  On checked units the maps of the checker's context hold exactly the
    declarations of the dependencies, and its checks accept exactly the units that link. *)
From stdpp Require Import gmap.
From S2P Require Import Prelude StatusCode Abilities Identifier FileFormat WellFormed Access BoundsChecker.
From S2P Require Import BoundsSpec DuplicationChecker DuplicationTheorems Dependencies Normalized.
Import BinaryIndexedView.

(** * Names in a view *)

Section view.
Context (v : BinaryIndexedView).

Definition module_id_at (idx : ModuleHandleIndex) : result StatusCode ModuleId :=
  h ← BinaryIndexedView.module_handle_at v idx; BinaryIndexedView.module_id_for_handle v h.

Definition struct_id_at (idx : StructHandleIndex) : result StatusCode (ModuleId * Identifier) :=
  h ← BinaryIndexedView.struct_handle_at v idx;
  id ← module_id_at h.(StructHandle.module);
  name ← BinaryIndexedView.identifier_at v h.(StructHandle.name);
  Ok (id, name).

(** The normalized form of a type: [Type::new] on a view, without its assertion. *)
Fixpoint view_type (t : SignatureToken) : result StatusCode Type_ :=
  match t with
  | SignatureToken.Bool => Ok Type_.Bool
  | SignatureToken.U8 => Ok Type_.U8
  | SignatureToken.U64 => Ok Type_.U64
  | SignatureToken.U128 => Ok Type_.U128
  | SignatureToken.Address => Ok Type_.Address
  | SignatureToken.Signer => Ok Type_.Signer
  | SignatureToken.TypeParameter i => Ok (Type_.TypeParameter i)
  | SignatureToken.Vector t => t ← view_type t; Ok (Type_.Vector t)
  | SignatureToken.Reference t => t ← view_type t; Ok (Type_.Reference t)
  | SignatureToken.MutableReference t => t ← view_type t; Ok (Type_.MutableReference t)
  | SignatureToken.Struct idx =>
    '((address, module), name) ← struct_id_at idx; Ok (Type_.Struct address module name [])
  | SignatureToken.StructInstantiation idx ts =>
    '((address, module), name) ← struct_id_at idx;
    ts ← ModuleAccess.map_res view_type ts;
    Ok (Type_.Struct address module name ts)
  end.

(** * Totality in bounds *)

Hypothesis Hin : in_bounds v.

Lemma view_module_handle_at idx h :
  BinaryIndexedView.module_handles v !! into_index idx = Some h -> BinaryIndexedView.module_handle_at v idx = Ok h.
Proof using Hin.
  intros E. destruct (forall_lookup _ _ _ _ (module_handles_in _ Hin) E) as [Ha Hn].
  destruct v as [m|sc]; cbn in *; unfold ModuleAccess.module_handle_at, ScriptAccess.module_handle_at, index; rewrite E; simpl; [|done].
  by rewrite !in_pool_true.
Qed.

Lemma view_identifier_at idx : idx_ok (BinaryIndexedView.identifiers v) idx -> exists n, BinaryIndexedView.identifier_at v idx = Ok n.
Proof using. clear Hin. intros [n Hn]%idx_ok_lookup. exists n. destruct v; by apply index_ok. Qed.

Lemma view_module_id_for_handle h :
  module_handle_ok v h -> exists id, BinaryIndexedView.module_id_for_handle v h = Ok id.
Proof using.
  clear Hin. intros [[a Ha]%idx_ok_lookup [n Hn]%view_identifier_at]. exists (a, n). unfold BinaryIndexedView.module_id_for_handle.
  assert (BinaryIndexedView.address_identifier_at v (ModuleHandle.address h) = Ok a) as -> by (destruct v; by apply index_ok).
  cbn [mbind result_bind]. by rewrite Hn.
Qed.

Lemma module_id_at_ok idx : idx_ok (BinaryIndexedView.module_handles v) idx -> exists id, module_id_at idx = Ok id.
Proof using Hin.
  intros [h Hh]%idx_ok_lookup. unfold module_id_at. rewrite (view_module_handle_at _ _ Hh).
  apply view_module_id_for_handle. exact (forall_lookup _ _ _ _ (module_handles_in _ Hin) Hh).
Qed.

Lemma struct_id_at_ok idx :
  idx_ok (BinaryIndexedView.struct_handles v) idx -> exists k, struct_id_at idx = Ok k.
Proof using Hin.
  intros [h Hh]%idx_ok_lookup. unfold struct_id_at. rewrite (view_struct_handle_at v Hin _ _ Hh). cbn [mbind result_bind].
  destruct (forall_lookup _ _ _ _ (struct_handles_in _ Hin) Hh) as [[id Hid]%module_id_at_ok [n Hn]%view_identifier_at].
  rewrite Hid. cbn [mbind result_bind]. rewrite Hn. by exists (id, n).
Qed.

Lemma view_type_ok t : type_ok v t -> exists T, view_type t = Ok T.
Proof using Hin.
  induction t as [ | | | | | |tok IH|idx|idx toks IH|tok IH|tok IH|idx] using SignatureToken.token_ind; intros Ht;
    cbn [view_type]; try (by eexists); try (inversion Ht; subst; destruct IH as [T ->]; [done|]; by eexists).
  - inversion Ht as [| | | | | | | | | |? sh E Hn|]; subst. destruct (struct_id_at_ok idx) as [[[a m] n] ->]; [by apply idx_ok_lookup; eexists|].
    by eexists.
  - inversion Ht as [| | | | | | | | | | |? ? sh E Hn Ha]; subst.
    destruct (struct_id_at_ok idx) as [[[a m] n] ->]; [by apply idx_ok_lookup; eexists|]. cbn [mbind result_bind].
    assert (exists Ts, ModuleAccess.map_res view_type toks = Ok Ts) as [Ts ->]; [|by eexists].
    clear E Hn Ht. induction IH as [|x toks Hx _ IHl]; [by eexists|]. apply Forall_cons_iff in Ha as [Hax Ha].
    cbn [ModuleAccess.map_res]. destruct (Hx Hax) as [T ->]. destruct (IHl Ha) as [Ts HTs]. cbn [mbind result_bind].
    rewrite HTs. by eexists.
Qed.
End view.

(** [Type::new] on a module in bounds: its assertion holds. *)
Lemma type_new_view m t :
  in_bounds (BinaryIndexedView.Module_ m) -> type_ok (BinaryIndexedView.Module_ m) t ->
  Type_.new m t = view_type (BinaryIndexedView.Module_ m) t.
Proof.
  intros Hin. induction t as [ | | | | | |tok IH|idx|idx toks IH|tok IH|tok IH|idx] using SignatureToken.token_ind; intros Ht;
    cbn [view_type Type_.new]; try done; try (inversion Ht; subst; by rewrite IH).
  - inversion Ht as [| | | | | | | | | |? sh E Hn|]; subst.
    unfold struct_id_at, module_id_at, BinaryIndexedView.module_id_for_handle. cbn.
    pose proof (view_struct_handle_at _ Hin _ _ E) as Hsh. cbn in Hsh. rewrite Hsh. cbn. rewrite Hn. cbn.
    destruct (ModuleAccess.module_handle_at _ _) as [mh| | |]; try done. cbn.
    destruct (ModuleAccess.address_identifier_at _ _) as [a| | |]; try done. cbn.
    destruct (ModuleAccess.identifier_at m (ModuleHandle.name mh)) as [n| | |]; try done. cbn.
    by destruct (ModuleAccess.identifier_at _ _) as [n'| | |].
  - inversion Ht as [| | | | | | | | | | |? ? sh E Hn Ha]; subst.
    unfold struct_id_at, module_id_at, BinaryIndexedView.module_id_for_handle. cbn.
    pose proof (view_struct_handle_at _ Hin _ _ E) as Hsh. cbn in Hsh. rewrite Hsh. cbn.
    destruct (ModuleAccess.module_handle_at _ _) as [mh| | |]; try done. cbn.
    destruct (ModuleAccess.address_identifier_at _ _) as [a| | |]; try done. cbn.
    destruct (ModuleAccess.identifier_at m (ModuleHandle.name mh)) as [n| | |]; try done. cbn.
    destruct (ModuleAccess.identifier_at _ _) as [n'| | |]; try done. cbn.
    assert (ModuleAccess.map_res (Type_.new m) toks = ModuleAccess.map_res (view_type (BinaryIndexedView.Module_ m)) toks) as ->; [|done].
    clear E Hn Ht Hsh. induction IH as [|x toks Hx _ IHl]; [done|]. apply Forall_cons_iff in Ha as [Hax Ha].
    cbn [ModuleAccess.map_res]. by rewrite (Hx Hax), (IHl Ha).
Qed.

(** * Comparing types *)

(** The results of two equal computations are the same. *)
Ltac same_ok := repeat match goal with
  | H : ?a = Ok ?x, H' : ?a = Ok ?y |- _ => rewrite H in H'; injection H' as H'; subst
  end.

Lemma forall_in {A} (P : A -> Prop) l x : Forall P l -> x ∈ l -> P x.
Proof. rewrite list.Forall_forall. auto. Qed.

Lemma forallb_in {A} (f : A -> bool) l x : forallb f l = true -> x ∈ l -> f x = true.
Proof. rewrite forallb_Forall. apply (forall_in (fun x => f x = true)). Qed.

Lemma map_res_same_length {A B} (f : A -> result StatusCode B) l l' : ModuleAccess.map_res f l = Ok l' -> length l' = length l.
Proof.
  revert l'. induction l as [|x l IH]; intros l' H; cbn [ModuleAccess.map_res] in H; inv_ok; [done|]. simpl. f_equal. by apply IH.
Qed.

Lemma if_iff {A} (P Q : Prop) `{Decision P, Decision Q} (x y : A) :
  (P <-> Q) -> (if bool_decide P then x else y) = if bool_decide Q then x else y.
Proof. intros HPQ. by rewrite (bool_decide_ext P Q). Qed.

Section compare.
Context (ctx : Context) (m : CompiledModule).
Abbreviation v := (ctx.(Context.resolver)).
Abbreviation w := (BinaryIndexedView.Module_ m).
Hypothesis (Hv : in_bounds v) (Hm : in_bounds w).

Lemma compare_structs_ok i j k l :
  struct_id_at v i = Ok k -> struct_id_at w j = Ok l ->
  Dependencies.compare_structs ctx i j m = if bool_decide (k = l) then Ok () else Err TYPE_MISMATCH.
Proof using.
  unfold struct_id_at, module_id_at, Dependencies.compare_structs. intros Hk Hl. inv_ok.
  repeat match goal with H : _ = Ok _ |- _ => progress cbn in H || (rewrite H; cbn [mbind result_bind]) end.
  match goal with H : _ = Ok ?id |- _ => unfold ModuleAccess.module_id_for_handle; rewrite H; cbn [mbind result_bind] end.
  repeat case_bool_decide; simplify_eq/=; done.
Qed.

(** Two lists of types are the same if they have the same normalized forms. *)
Definition same_types (v w : BinaryIndexedView) (ts us : list SignatureToken) : Prop :=
  exists Ts, ModuleAccess.map_res (view_type v) ts = Ok Ts /\ ModuleAccess.map_res (view_type w) us = Ok Ts.

(** The comparison does not panic and accepts the types with the same normalized form. *)
Definition compares (t u : SignatureToken) : Prop :=
  exists T U, view_type v t = Ok T /\ view_type w u = Ok U /\
    Dependencies.compare_types ctx m t u = if bool_decide (T = U) then Ok () else Err TYPE_MISMATCH.

Lemma compare_list_ok ts us :
  (forall t u, t ∈ ts -> u ∈ us -> compares t u) ->
  Forall (type_ok v) ts -> Forall (type_ok w) us ->
  exists Ts Us, ModuleAccess.map_res (view_type v) ts = Ok Ts /\ ModuleAccess.map_res (view_type w) us = Ok Us /\
    Dependencies.compare_signatures_with (Dependencies.compare_types ctx m) ts us =
      if bool_decide (Ts = Us) then Ok () else Err TYPE_MISMATCH.
Proof using Hv Hm.
  intros Hc Hts Hus.
  assert (exists Ts, ModuleAccess.map_res (view_type v) ts = Ok Ts /\ length Ts = length ts) as (Ts & HTs & Hl).
  { clear Hc. induction Hts as [|t ts Ht _ (Ts & E & Hl)]; [by exists []|]. destruct (view_type_ok v Hv t Ht) as [T HT].
    exists (T :: Ts). cbn [ModuleAccess.map_res]. rewrite HT, E. simpl. by rewrite Hl. }
  assert (exists Us, ModuleAccess.map_res (view_type w) us = Ok Us /\ length Us = length us) as (Us & HUs & Hl').
  { clear Hc. induction Hus as [|t us Ht _ (Us & E & Hl')]; [by exists []|]. destruct (view_type_ok w Hm t Ht) as [T HT].
    exists (T :: Us). cbn [ModuleAccess.map_res]. rewrite HT, E. simpl. by rewrite Hl'. }
  exists Ts, Us. split; [done|]. split; [done|]. unfold Dependencies.compare_signatures_with.
  destruct (Nat.eqb_spec (length ts) (length us)) as [Heq|Hne]; simpl; [|by rewrite bool_decide_eq_false_2 by congruence].
  clear Hl Hl' Hts Hus. revert us Ts Us Hc HTs HUs Heq. induction ts as [|t ts IH]; intros [|u us] Ts Us Hc HTs HUs Heq;
    simplify_eq/=; [done|].
  inv_ok. destruct (Hc t u (list_elem_of_here _ _) (list_elem_of_here _ _)) as (T & U & HT & HU & E). simplify_eq/=.
  same_ok. rewrite E. cbn [ModuleAccess.map_res]. case_bool_decide as HTU; simpl.
  - subst U. erewrite IH; [|intros t' u' Ht' Hu'; apply Hc; by right|done..]. repeat case_bool_decide; simplify_eq; done.
  - by rewrite bool_decide_eq_false_2 by congruence.
Qed.

Lemma view_type_struct (x : BinaryIndexedView) idx T :
  view_type x (SignatureToken.Struct idx) = Ok T ->
  exists a n s, struct_id_at x idx = Ok ((a, n), s) /\ T = Type_.Struct a n s [].
Proof using.
  cbn [view_type]. intros H. apply res_bind_ok in H as ([[a n] s] & Hk & H). injection H as <-. by exists a, n, s.
Qed.

Lemma view_type_inst (x : BinaryIndexedView) idx ts T :
  view_type x (SignatureToken.StructInstantiation idx ts) = Ok T ->
  exists a n s Ts, struct_id_at x idx = Ok ((a, n), s) /\ ModuleAccess.map_res (view_type x) ts = Ok Ts /\ T = Type_.Struct a n s Ts.
Proof using.
  cbn [view_type]. intros H. apply res_bind_ok in H as ([[a n] s] & Hk & H). apply res_bind_ok in H as (Ts & HTs & H).
  injection H as <-. by exists a, n, s, Ts.
Qed.

(** Comparison below a constructor. *)
Lemma compare_inner (f : Type_ -> Type_) t u T U :
  (forall x y, f x = f y -> x = y) -> compares t u -> view_type v t = Ok T -> view_type w u = Ok U ->
  Dependencies.compare_types ctx m t u = if bool_decide (f T = f U) then Ok () else Err TYPE_MISMATCH.
Proof using.
  intros Hf (T' & U' & HT & HU & E) HT' HU'. same_ok. rewrite E. repeat case_bool_decide; try done; [congruence|].
  exfalso. naive_solver.
Qed.

(** Types without empty lists of type arguments, as deserialized ones are. *)
Lemma compare_types_ok t : forall u,
  wf_token t = true -> wf_token u = true -> type_ok v t -> type_ok w u -> compares t u.
Proof using Hv Hm.
  induction t as [ | | | | | |tok IH|idx|idx toks IH|tok IH|tok IH|idx] using SignatureToken.token_ind; intros u Ht Hu Htv Huw;
    destruct (view_type_ok v Hv _ Htv) as [T HT]; destruct (view_type_ok w Hm _ Huw) as [U HU];
    exists T, U; (split; [done|]); (split; [done|]); destruct u as [ | | | | | |tok'|idx'|idx' toks'|tok'|tok'|idx'].
  all: try (apply view_type_struct in HT as (a1 & n1 & s1 & Hk1 & ->)); try (apply view_type_struct in HU as (a2 & n2 & s2 & Hk2 & ->)).
  all: try (apply view_type_inst in HT as (a1 & n1 & s1 & Ts1 & Hk1 & Hm1 & ->));
    try (apply view_type_inst in HU as (a2 & n2 & s2 & Ts2 & Hk2 & Hm2 & ->)).
  all: try (cbn [view_type] in HT; inv_ok); try (cbn [view_type] in HU; inv_ok).
  all: try done; try (cbn [Dependencies.compare_types]; by rewrite bool_decide_eq_false_2).
  all: cbn [Dependencies.compare_types]; cbn [wf_token] in Ht, Hu; bool_hyps.
  - inversion Htv; inversion Huw; subst. eapply (compare_inner Type_.Vector); [congruence|by apply IH|done..].
  - rewrite (compare_structs_ok _ _ _ _ Hk1 Hk2). apply if_iff. naive_solver.
  - rewrite bool_decide_eq_false_2; [done|]. intros [= _ _ _ <-]. apply map_res_same_length in Hm2. by destruct toks'.
  - rewrite bool_decide_eq_false_2; [done|]. intros [= _ _ _ ->]. apply map_res_same_length in Hm1. by destruct toks.
  - rewrite (compare_structs_ok _ _ _ _ Hk1 Hk2).
    inversion Htv as [| | | | | | | | | | |? ? sh E Hn Ha]; inversion Huw as [| | | | | | | | | | |? ? sh' E' Hn' Ha']; subst.
    destruct (compare_list_ok toks toks') as (Ts & Us & HTs & HUs & E2); [|done..|].
    { intros t u Hin1 Hin2. rewrite list.Forall_forall in IH. apply IH; [done|..].
      - by apply (forallb_in _ toks).
      - by apply (forallb_in _ toks').
      - by apply (forall_in _ toks).
      - by apply (forall_in _ toks'). }
    same_ok. rewrite E2. repeat case_bool_decide; simplify_eq/=; try done; exfalso; naive_solver.
  - inversion Htv; inversion Huw; subst. eapply (compare_inner Type_.Reference); [congruence|by apply IH|done..].
  - inversion Htv; inversion Huw; subst. eapply (compare_inner Type_.MutableReference); [congruence|by apply IH|done..].
  - destruct (Z.eqb_spec idx idx'); case_bool_decide; simplify_eq/=; done.
Qed.
End compare.

(** * Units that link *)

(** What the bounds checker and the duplication checker establish before. *)
Definition checked_unit (v : BinaryIndexedView) : Prop :=
  match v with
  | Module_ m => wf_module m = true /\ in_bounds v /\ distinct_module m
  | Script_ s => wf_script s = true /\ script_in_bounds s
  end.

(** The declarations of a module, by name. *)
Definition declares_struct (d : CompiledModule) (name : Identifier) (def : StructDefinition) (h : StructHandle) : Prop :=
  def ∈ d.(CompiledModule.struct_defs) /\
  d.(CompiledModule.struct_handles) !! into_index def.(StructDefinition.struct_handle) = Some h /\
  d.(CompiledModule.identifiers) !! into_index h.(StructHandle.name) = Some name.

Definition declares_function (d : CompiledModule) (name : Identifier) (def : FunctionDefinition) (h : FunctionHandle) : Prop :=
  def ∈ d.(CompiledModule.function_defs) /\
  d.(CompiledModule.function_handles) !! into_index def.(FunctionDefinition.function) = Some h /\
  d.(CompiledModule.identifiers) !! into_index h.(FunctionHandle.name) = Some name.

(** The bodies of a unit, with the visibility of their functions; the entry of a script
    counts as a script function. *)
Definition body (v : BinaryIndexedView) (vis : Visibility) (code : list Bytecode) : Prop :=
  match v with
  | Module_ m => exists def c, def ∈ m.(CompiledModule.function_defs) /\ def.(FunctionDefinition.code) = Some c /\
      vis = def.(FunctionDefinition.visibility) /\ code = c.(CodeUnit.code)
  | Script_ s => vis = Visibility.Script /\ code = s.(CompiledScript.code).(CodeUnit.code)
  end.

(** The function that an instruction calls. *)
Definition call_target (v : BinaryIndexedView) (instr : Bytecode) (fh : FunctionHandleIndex) : Prop :=
  instr = Bytecode.Call fh \/
  exists idx inst, instr = Bytecode.CallGeneric idx /\ function_instantiations v !! into_index idx = Some inst /\
    inst.(FunctionInstantiation.handle) = fh.

Section links.
Context (v : BinaryIndexedView) (deps : list CompiledModule).

(** The module with a name, among the dependencies. *)
Definition dependency (id : ModuleId) (d : CompiledModule) : Prop :=
  d ∈ deps /\ ModuleAccess.self_id d = Ok id /\ self_id v <> Ok (Some id).

(** The dependency that a module handle of another module names. *)
Definition names (idx : ModuleHandleIndex) (d : CompiledModule) : Prop :=
  exists id, module_id_at v idx = Ok id /\ dependency id d.

Definition foreign (idx : ModuleHandleIndex) : Prop := Some idx <> self_handle_idx v.

(** Who may call a function of [d]. *)
Definition callable (d : CompiledModule) (vis : Visibility) : Prop :=
  match vis with
  | Visibility.Public | Visibility.Script => True
  | Visibility.Friend => exists id friends, self_id v = Ok (Some id) /\
      ModuleAccess.immediate_friends d = Ok friends /\ id ∈ friends
  | Visibility.Private => False
  end.

(** What a unit takes from a module is what the module declares, or something weaker: no
    ability that the struct does not have, no type argument that is not allowed, the same
    parameters and results. *)
Definition struct_links (h : StructHandle) : Prop :=
  exists d name def dh, names h.(StructHandle.module) d /\
    identifier_at v h.(StructHandle.name) = Ok name /\ declares_struct d name def dh /\
    Dependencies.compatible_struct_abilities h.(StructHandle.abilities) dh.(StructHandle.abilities) = true /\
    Dependencies.compatible_struct_type_parameters h.(StructHandle.type_parameters)
      dh.(StructHandle.type_parameters) = true.

Definition function_links (h : FunctionHandle) : Prop :=
  exists d name def dh ps dps rs drs, names h.(FunctionHandle.module) d /\
    identifier_at v h.(FunctionHandle.name) = Ok name /\ declares_function d name def dh /\
    callable d def.(FunctionDefinition.visibility) /\
    Dependencies.compatible_fun_type_parameters h.(FunctionHandle.type_parameters)
      dh.(FunctionHandle.type_parameters) = true /\
    signatures v !! into_index h.(FunctionHandle.parameters) = Some ps /\
    signatures (Module_ d) !! into_index dh.(FunctionHandle.parameters) = Some dps /\
    same_types v (Module_ d) ps dps /\
    signatures v !! into_index h.(FunctionHandle.return_) = Some rs /\
    signatures (Module_ d) !! into_index dh.(FunctionHandle.return_) = Some drs /\
    same_types v (Module_ d) rs drs.

(** The visibility of a function of the unit or of a dependency. *)
Definition has_visibility (fh : FunctionHandleIndex) (vis : Visibility) : Prop :=
  (exists m def, v = Module_ m /\ def ∈ m.(CompiledModule.function_defs) /\
    def.(FunctionDefinition.function) = fh /\ def.(FunctionDefinition.visibility) = vis) \/
  (exists h d name def dh, function_handles v !! into_index fh = Some h /\ foreign h.(FunctionHandle.module) /\
    names h.(FunctionHandle.module) d /\ identifier_at v h.(FunctionHandle.name) = Ok name /\
    declares_function d name def dh /\ def.(FunctionDefinition.visibility) = vis).

Record links : Prop := {
  link_modules idx : 0 <= idx -> idx_ok (module_handles v) idx -> foreign idx -> exists d, names idx d;
  link_structs h : h ∈ struct_handles v -> foreign h.(StructHandle.module) -> struct_links h;
  link_functions h : h ∈ function_handles v -> foreign h.(FunctionHandle.module) -> function_links h;
  link_calls vis code instr fh : body v vis code -> instr ∈ code -> call_target v instr fh ->
    has_visibility fh Visibility.Script -> vis = Visibility.Script }.
End links.

(** The dependency checker on a unit. *)
Definition verify_unit (v : BinaryIndexedView) (deps : list CompiledModule) : result StatusCode () :=
  match v with
  | Module_ m => Dependencies.verify_module_impl m deps
  | Script_ s => Dependencies.verify_script_impl s deps
  end.

(** Dependencies that have been checked and have different names. *)
Record checked_dependencies (deps : list CompiledModule) : Prop := {
  dependencies_checked d : d ∈ deps -> checked_unit (Module_ d);
  dependencies_distinct d d' id : d ∈ deps -> d' ∈ deps ->
    ModuleAccess.self_id d = Ok id -> ModuleAccess.self_id d' = Ok id -> d = d' }.

Import BinaryIndexedView.

(** [M]: a struct [Bar] and a public function [foo(&Bar)]. *)
Definition library : CompiledModule :=
  {| CompiledModule.version := CompiledModule.version basic_test_module;
     CompiledModule.module_handles := [{| ModuleHandle.address := 0; ModuleHandle.name := 0 |}];
     CompiledModule.self_module_handle_idx := 0;
     CompiledModule.identifiers := [[77]; [102; 111; 111]; [66; 97; 114]; [120]];
     CompiledModule.address_identifiers := [AccountAddress_ZERO];
     CompiledModule.constant_pool := [];
     CompiledModule.function_defs :=
       [{| FunctionDefinition.function := 0; FunctionDefinition.visibility := Visibility.Public;
           FunctionDefinition.acquires_global_resources := [];
           FunctionDefinition.code := Some {| CodeUnit.locals := 0; CodeUnit.code := [Bytecode.Ret] |} |}];
     CompiledModule.struct_defs :=
       [{| StructDefinition.struct_handle := 0;
           StructDefinition.field_information :=
             Declared [{| FieldDefinition.name := 3; FieldDefinition.signature := SignatureToken.U64 |}] |}];
     CompiledModule.struct_handles :=
       [{| StructHandle.module := 0; StructHandle.name := 2; StructHandle.abilities := AbilitySet.EMPTY;
           StructHandle.type_parameters := [] |}];
     CompiledModule.function_handles :=
       [{| FunctionHandle.module := 0; FunctionHandle.name := 1; FunctionHandle.parameters := 1;
           FunctionHandle.return_ := 0; FunctionHandle.type_parameters := [] |}];
     CompiledModule.field_handles := [];
     CompiledModule.friend_decls := [];
     CompiledModule.struct_def_instantiations := [];
     CompiledModule.function_instantiations := [];
     CompiledModule.field_instantiations := [];
     CompiledModule.signatures := [[]; [SignatureToken.Reference (SignatureToken.Struct 0)]] |}.

(** A later version: [Bar] has abilities, there is a second function [x(&Bar)], and the
    tables are in another order. *)
Definition library_upgrade : CompiledModule :=
  {| CompiledModule.version := CompiledModule.version basic_test_module;
     CompiledModule.module_handles := [{| ModuleHandle.address := 0; ModuleHandle.name := 1 |}];
     CompiledModule.self_module_handle_idx := 0;
     CompiledModule.identifiers := [[120]; [77]; [102; 111; 111]; [66; 97; 114]];
     CompiledModule.address_identifiers := [AccountAddress_ZERO];
     CompiledModule.constant_pool := [];
     CompiledModule.function_defs :=
       [{| FunctionDefinition.function := 0; FunctionDefinition.visibility := Visibility.Public;
           FunctionDefinition.acquires_global_resources := [];
           FunctionDefinition.code := Some {| CodeUnit.locals := 1; CodeUnit.code := [Bytecode.Ret] |} |};
        {| FunctionDefinition.function := 1; FunctionDefinition.visibility := Visibility.Public;
           FunctionDefinition.acquires_global_resources := [];
           FunctionDefinition.code := Some {| CodeUnit.locals := 1; CodeUnit.code := [Bytecode.Ret] |} |}];
     CompiledModule.struct_defs :=
       [{| StructDefinition.struct_handle := 0;
           StructDefinition.field_information :=
             Declared [{| FieldDefinition.name := 0; FieldDefinition.signature := SignatureToken.U64 |}] |}];
     CompiledModule.struct_handles :=
       [{| StructHandle.module := 0; StructHandle.name := 3; StructHandle.abilities := AbilitySet.PRIMITIVES;
           StructHandle.type_parameters := [] |}];
     CompiledModule.function_handles :=
       [{| FunctionHandle.module := 0; FunctionHandle.name := 0; FunctionHandle.parameters := 0;
           FunctionHandle.return_ := 1; FunctionHandle.type_parameters := [] |};
        {| FunctionHandle.module := 0; FunctionHandle.name := 2; FunctionHandle.parameters := 0;
           FunctionHandle.return_ := 1; FunctionHandle.type_parameters := [] |}];
     CompiledModule.field_handles := [];
     CompiledModule.friend_decls := [];
     CompiledModule.struct_def_instantiations := [];
     CompiledModule.function_instantiations := [];
     CompiledModule.field_instantiations := [];
     CompiledModule.signatures := [[SignatureToken.Reference (SignatureToken.Struct 0)]; []] |}.

(** [C]: a function [use(&M::Bar)] that calls [M::foo]. *)
Definition client : CompiledModule :=
  {| CompiledModule.version := CompiledModule.version basic_test_module;
     CompiledModule.module_handles :=
       [{| ModuleHandle.address := 0; ModuleHandle.name := 0 |}; {| ModuleHandle.address := 0; ModuleHandle.name := 1 |}];
     CompiledModule.self_module_handle_idx := 0;
     CompiledModule.identifiers := [[67]; [77]; [102; 111; 111]; [66; 97; 114]; [117; 115; 101]];
     CompiledModule.address_identifiers := [AccountAddress_ZERO];
     CompiledModule.constant_pool := [];
     CompiledModule.function_defs :=
       [{| FunctionDefinition.function := 1; FunctionDefinition.visibility := Visibility.Public;
           FunctionDefinition.acquires_global_resources := [];
           FunctionDefinition.code := Some {| CodeUnit.locals := 1;
             CodeUnit.code := [Bytecode.MoveLoc 0; Bytecode.Call 0; Bytecode.Ret] |} |}];
     CompiledModule.struct_defs := [];
     CompiledModule.struct_handles :=
       [{| StructHandle.module := 1; StructHandle.name := 3; StructHandle.abilities := AbilitySet.EMPTY;
           StructHandle.type_parameters := [] |}];
     CompiledModule.function_handles :=
       [{| FunctionHandle.module := 1; FunctionHandle.name := 2; FunctionHandle.parameters := 0;
           FunctionHandle.return_ := 1; FunctionHandle.type_parameters := [] |};
        {| FunctionHandle.module := 0; FunctionHandle.name := 4; FunctionHandle.parameters := 0;
           FunctionHandle.return_ := 1; FunctionHandle.type_parameters := [] |}];
     CompiledModule.field_handles := [];
     CompiledModule.friend_decls := [];
     CompiledModule.struct_def_instantiations := [];
     CompiledModule.function_instantiations := [];
     CompiledModule.field_instantiations := [];
     CompiledModule.signatures := [[SignatureToken.Reference (SignatureToken.Struct 0)]; []] |}.

(** The checkers that run before establish what the theorems assume. *)
Lemma checked_module m : wf_module m = true -> BoundsChecker.verify_module m = Ok () ->
  zlen m.(CompiledModule.struct_handles) <= 2 ^ 16 -> zlen m.(CompiledModule.function_handles) <= 2 ^ 16 ->
  DuplicationChecker.verify_module_impl m = Ok () -> checked_unit (Module_ m).
Proof.
  intros Hwf Hb Hs Hf Hd. pose proof (proj1 (verify_module_ok m) Hb) as [_ Hin]. split; [done|]. split; [done|].
  by apply (duplication_decides m Hwf Hb Hs Hf).
Qed.

Lemma library_checked : checked_unit (Module_ library).
Proof. apply checked_module; vm_compute; done. Qed.
Lemma library_upgrade_checked : checked_unit (Module_ library_upgrade).
Proof. apply checked_module; vm_compute; done. Qed.
Lemma client_checked : checked_unit (Module_ client).
Proof. apply checked_module; vm_compute; done. Qed.

Lemma checked_one m : checked_unit (Module_ m) -> checked_dependencies [m].
Proof.
  intros Hm. split; [by intros d ->%list_elem_of_singleton|].
  by intros d d' id ->%list_elem_of_singleton ->%list_elem_of_singleton.
Qed.

Import BinaryIndexedView.

(** * Filling a map *)

Section fill.
Context {A B K V : Type} (f : A -> B -> result StatusCode B) (look : B -> K -> option V) (P : A -> K -> V -> Prop).

(** A step puts the entries [P x] into the map, in place of those that were there. *)
Definition puts (E : K -> V -> Prop) (acc acc' : B) : Prop :=
  forall k w, look acc' k = Some w <-> E k w \/ (forall w', ~ E k w') /\ look acc k = Some w.

Lemma fill_spec l acc :
  (forall x acc, x ∈ l -> exists acc', f x acc = Ok acc' /\ puts (P x) acc acc') ->
  (forall x y k w w', x ∈ l -> y ∈ l -> P x k w -> P y k w' -> w = w') ->
  exists acc', Context.fill f l acc = Ok acc' /\ puts (fun k w => exists x, x ∈ l /\ P x k w) acc acc'.
Proof.
  revert acc. induction l as [|x l IH]; intros acc Hf Hfun; cbn [Context.fill].
  - exists acc. split; [done|]. intros k w. setoid_rewrite elem_of_nil. naive_solver.
  - destruct (Hf x acc) as (acc1 & -> & H1); [by left|]. cbn [mbind result_bind].
    destruct (IH acc1) as (acc' & -> & H2).
    { intros y a Hy. apply Hf. by right. }
    { intros y z k w w' Hy Hz. apply (Hfun y z); by right. }
    exists acc'. split; [done|]. intros k w. rewrite (H2 k w), (H1 k w). setoid_rewrite elem_of_cons. split.
    + intros [(y & Hy & HP)|[Hl [HP|[Hx Ha]]]]; [naive_solver..|]. right. naive_solver.
    + intros [(y & [->|Hy] & HP)|[Hno Ha]]; [|naive_solver|right; naive_solver].
      destruct (look acc' k) as [w'|] eqn:Ek.
      * apply H2 in Ek as [(y & Hy & HP')|[Hl _]]; [|right; naive_solver].
        assert (w = w') as -> by (apply (Hfun x y k); [by left|by right|done..]). left. by exists y.
      * right. split; [|by left]. intros w' (y & Hy & HP').
        assert (look acc' k = Some w') as E; [|congruence]. apply H2. left. by exists y.
Qed.

(** One entry. *)
Lemma puts_iff E E' acc acc' : (forall k w, E k w <-> E' k w) -> puts E acc acc' -> puts E' acc acc'.
Proof. intros HE H k w. rewrite (H k w). setoid_rewrite HE. done. Qed.

Lemma puts_empty E acc acc' k w :
  puts E acc acc' -> (forall k, look acc k = None) -> look acc' k = Some w <-> E k w.
Proof. intros H Hn. rewrite (H k w), Hn. naive_solver. Qed.
End fill.

Lemma puts_insert {K V B} `{Countable K} (proj : B -> gmap K V) acc acc' (k : K) (w : V) :
  proj acc' = <[k := w]> (proj acc) -> puts (fun a k => proj a !! k) (fun k' w' => k' = k /\ w' = w) acc acc'.
Proof.
  intros E k' w'. rewrite E. destruct (decide (k = k')) as [->|Hne].
  - rewrite lookup_insert_eq. naive_solver.
  - rewrite lookup_insert_ne by done. naive_solver.
Qed.

Lemma puts_same {K V B} (look : B -> K -> option V) acc acc' (E : K -> V -> Prop) :
  (forall k w, ~ E k w) -> (forall k, look acc' k = look acc k) -> puts look E acc acc'.
Proof. intros HE Hl k w. rewrite Hl. naive_solver. Qed.

(** * The declarations of a checked module *)

Lemma nodup_map_eq {A B} (f : A -> B) (l : list A) x y : NoDup (map f l) -> x ∈ l -> y ∈ l -> f x = f y -> x = y.
Proof.
  intros Hnd [i Hi]%list_elem_of_lookup [j Hj]%list_elem_of_lookup E.
  assert (i = j) as <-; [|congruence]. eapply (NoDup_lookup (f <$> l)); [exact Hnd| |].
  - by rewrite list_lookup_fmap, Hi.
  - by rewrite list_lookup_fmap, Hj, E.
Qed.

Lemma wf_u16 i : is_u16 i = true -> 0 <= i.
Proof. intros Hi%in_range_spec. lia. Qed.

(** A definition is known by the name of its handle. *)
Lemma named_unique {D H : Type} self (handles : list H) module_of (name_of : H -> IdentifierIndex) (defs : list D) handle_of
    (identifiers : list (list Z)) x y h k (n : list Z) :
  defines self handles module_of defs handle_of -> NoDup (map (fun h => (module_of h, name_of h)) handles) ->
  NoDup identifiers -> (forall d, d ∈ defs -> 0 <= handle_of d) -> (forall h, h ∈ handles -> 0 <= name_of h) ->
  x ∈ defs -> y ∈ defs ->
  handles !! into_index (handle_of x) = Some h -> handles !! into_index (handle_of y) = Some k ->
  identifiers !! into_index (name_of h) = Some n -> identifiers !! into_index (name_of k) = Some n -> x = y.
Proof.
  intros (Hnd & Hself & _) Hnames Hids Hz Hn Hx Hy Eh Ek En Em.
  destruct (Hself x Hx) as (h' & Eh' & Sh), (Hself y Hy) as (k' & Ek' & Sk).
  rewrite Eh in Eh'. injection Eh' as <-. rewrite Ek in Ek'. injection Ek' as <-.
  apply (nodup_map_eq handle_of defs); [done..|].
  assert (into_index (name_of h) = into_index (name_of k)) as E1 by (by eapply (NoDup_lookup identifiers)).
  pose proof (Hn h (list_elem_of_lookup_2 _ _ _ Eh)). pose proof (Hn k (list_elem_of_lookup_2 _ _ _ Ek)).
  pose proof (Hz x Hx). pose proof (Hz y Hy). unfold into_index in *.
  assert (Z.to_nat (handle_of x) = Z.to_nat (handle_of y)); [|lia].
  eapply (NoDup_lookup ((fun h => (module_of h, name_of h)) <$> handles)); [exact Hnames| |].
  - by rewrite list_lookup_fmap, Eh.
  - rewrite list_lookup_fmap, Ek. simpl. f_equal. f_equal; [congruence|lia].
Qed.

Section module.
Context (d : CompiledModule) (Hd : checked_unit (Module_ d)).

Lemma checked_module_in : in_bounds (Module_ d).
Proof using Hd. apply Hd. Qed.

Lemma struct_def_range def : def ∈ d.(CompiledModule.struct_defs) -> 0 <= def.(StructDefinition.struct_handle).
Proof using Hd.
  intros Hdef. destruct Hd as (Hwf & _). unfold wf_module in Hwf. wf_split.
  eapply (forall_in (fun d => wf_struct_definition d = true)) in Hdef; [|done]. unfold wf_struct_definition in Hdef. wf_split. lia.
Qed.

Lemma function_def_range def : def ∈ d.(CompiledModule.function_defs) -> 0 <= def.(FunctionDefinition.function).
Proof using Hd.
  intros Hdef. destruct Hd as (Hwf & _). unfold wf_module in Hwf. wf_split.
  eapply (forall_in (fun d => wf_function_definition d = true)) in Hdef; [|done]. unfold wf_function_definition in Hdef. wf_split. lia.
Qed.

Lemma struct_handle_range h : h ∈ d.(CompiledModule.struct_handles) -> 0 <= h.(StructHandle.name).
Proof using Hd.
  intros Hh. destruct Hd as (Hwf & _). unfold wf_module in Hwf. wf_split.
  eapply (forall_in (fun h => wf_struct_handle h = true)) in Hh; [|done]. unfold wf_struct_handle in Hh. wf_split. lia.
Qed.

Lemma function_handle_range h : h ∈ d.(CompiledModule.function_handles) -> 0 <= h.(FunctionHandle.name).
Proof using Hd.
  intros Hh. destruct Hd as (Hwf & _). unfold wf_module in Hwf. wf_split.
  eapply (forall_in (fun h => wf_function_handle h = true)) in Hh; [|done]. unfold wf_function_handle in Hh. wf_split. lia.
Qed.

Lemma declares_struct_unique name def def' h h' :
  declares_struct d name def h -> declares_struct d name def' h' -> def = def' /\ h = h'.
Proof using Hd.
  intros (H1 & H2 & H3) (H1' & H2' & H3'). assert (def = def') as <-; [|split; [done|congruence]].
  pose proof Hd as (_ & _ & Hdist).
  by eapply (named_unique _ _ _ _ _ _ _ def def' h h' name (structs_defined _ Hdist) (distinct_struct_handles _ Hdist)
    (distinct_identifiers _ Hdist) struct_def_range struct_handle_range).
Qed.

Lemma declares_function_unique name def def' h h' :
  declares_function d name def h -> declares_function d name def' h' -> def = def' /\ h = h'.
Proof using Hd.
  intros (H1 & H2 & H3) (H1' & H2' & H3'). assert (def = def') as <-; [|split; [done|congruence]].
  pose proof Hd as (_ & _ & Hdist).
  by eapply (named_unique _ _ _ _ _ _ _ def def' h h' name (functions_defined _ Hdist) (distinct_function_handles _ Hdist)
    (distinct_identifiers _ Hdist) function_def_range function_handle_range).
Qed.

(** Every definition has a name. *)
Lemma struct_def_named def : def ∈ d.(CompiledModule.struct_defs) -> exists name h, declares_struct d name def h.
Proof using Hd.
  intros Hdef. pose proof checked_module_in as Hin.
  destruct (forall_in _ _ _ (struct_defs_in _ Hin) Hdef) as (h & Hh & _).
  destruct (forall_lookup _ _ _ _ (struct_handles_in _ Hin) Hh) as [_ [name Hn]%idx_ok_lookup]. by exists name, h.
Qed.

Lemma function_def_named def : def ∈ d.(CompiledModule.function_defs) -> exists name h, declares_function d name def h.
Proof using Hd.
  intros Hdef. pose proof checked_module_in as Hin.
  destruct (forall_in _ _ _ (function_defs_in _ Hin) Hdef) as ([h Hh]%idx_ok_lookup & _).
  destruct (forall_lookup _ _ _ _ (function_handles_in _ Hin) Hh) as (_ & [name Hn]%idx_ok_lookup & _). by exists name, h.
Qed.

Lemma declares_struct_at name def h : declares_struct d name def h ->
  ModuleAccess.struct_handle_at d def.(StructDefinition.struct_handle) = Ok h /\
  ModuleAccess.identifier_at d h.(StructHandle.name) = Ok name.
Proof using Hd.
  intros (_ & Hh & Hn). split; [by apply (view_struct_handle_at _ checked_module_in)|by apply index_ok].
Qed.

Lemma declares_function_at name def h : declares_function d name def h ->
  ModuleAccess.function_handle_at d def.(FunctionDefinition.function) = Ok h /\
  ModuleAccess.identifier_at d h.(FunctionHandle.name) = Ok name.
Proof using Hd.
  intros (_ & Hh & Hn). split; [by apply (view_function_handle_at _ checked_module_in)|by apply index_ok].
Qed.

Lemma self_id_ok : exists id, ModuleAccess.self_id d = Ok id.
Proof using Hd.
  destruct (self_handle_ok d checked_module_in) as (h & E & Hh). unfold ModuleAccess.self_id. rewrite E. cbn [mbind result_bind].
  by apply module_id_ok.
Qed.

Lemma immediate_friends_ok : exists l, ModuleAccess.immediate_friends d = Ok l.
Proof using Hd.
  unfold ModuleAccess.immediate_friends. eapply map_res_ok; [intros h; apply module_id_ok|].
  apply (friend_decls_in _ checked_module_in).
Qed.
End module.

(** * The loops over the definitions of a dependency *)

Definition struct_entry (id : ModuleId) (d : CompiledModule) (k : ModuleId * Identifier) (w : StructHandleIndex) : Prop :=
  k.1 = id /\ exists def h, declares_struct d k.2 def h /\ w = def.(StructDefinition.struct_handle).

Definition function_entry (self : option ModuleId) (friends : list ModuleId) (id : ModuleId) (d : CompiledModule)
    (k : ModuleId * Identifier) (w : FunctionHandleIndex) : Prop :=
  k.1 = id /\ exists def h, declares_function d k.2 def h /\
    Context.may_be_called self friends def.(FunctionDefinition.visibility) = true /\ w = def.(FunctionDefinition.function).

Definition visibility_entry (id : ModuleId) (d : CompiledModule) (k : ModuleId * Identifier) (w : Visibility) : Prop :=
  k.1 = id /\ exists def h, declares_function d k.2 def h /\ w = def.(FunctionDefinition.visibility).

Section module.
Context (d : CompiledModule) (Hd : checked_unit (Module_ d)) (id : ModuleId).

Lemma add_structs_ok acc :
  exists acc', Context.add_structs id d acc = Ok acc' /\ puts (fun a k => a !! k) (struct_entry id d) acc acc'.
Proof using Hd.
  destruct (fill_spec (fun struct_def (acc : gmap (ModuleId * Identifier) StructHandleIndex) =>
    struct_handle ← ModuleAccess.struct_handle_at d struct_def.(StructDefinition.struct_handle);
    struct_name ← ModuleAccess.identifier_at d struct_handle.(StructHandle.name);
    Ok (<[(id, struct_name) := struct_def.(StructDefinition.struct_handle)]> acc)) (fun a k => a !! k)
    (fun def k w => k.1 = id /\ exists h, declares_struct d k.2 def h /\ w = def.(StructDefinition.struct_handle))
    d.(CompiledModule.struct_defs) acc) as (acc' & E & H).
  - intros def a Hdef. destruct (struct_def_named d Hd def Hdef) as (name & h & Hdecl).
    destruct (declares_struct_at d Hd _ _ _ Hdecl) as [-> En]. cbn [mbind result_bind]. rewrite En.
    eexists. split; [done|]. eapply puts_iff; [|by apply (puts_insert (fun a => a))].
    intros [id' n] w. split; [intros [[= -> ->] ->]; eauto|]. intros [<- (h' & Hdecl' & ->)]. cbn in *.
    destruct Hdecl as (_ & Eh & Ename), Hdecl' as (_ & Eh' & Ename'). rewrite Eh in Eh'. injection Eh' as <-.
    split; [|done]. f_equal. congruence.
  - intros x y k w w' _ _ (_ & h & Hx & ->) (_ & h' & Hy & ->). by destruct (declares_struct_unique d Hd _ _ _ _ _ Hx Hy) as [-> _].
  - exists acc'. split; [exact E|]. eapply puts_iff; [|exact H]. intros k w. unfold struct_entry, declares_struct. naive_solver.
Qed.

Abbreviation step self friends := (fun func_def '(funcs, visibilities) =>
  func_handle ← ModuleAccess.function_handle_at d func_def.(FunctionDefinition.function);
  func_name ← ModuleAccess.identifier_at d func_handle.(FunctionHandle.name);
  let visibility := func_def.(FunctionDefinition.visibility) in
  Ok (if Context.may_be_called self friends visibility
      then <[(id, func_name) := func_def.(FunctionDefinition.function)]> (funcs : gmap (ModuleId * Identifier) FunctionHandleIndex)
      else funcs,
      <[(id, func_name) := visibility]> (visibilities : gmap (ModuleId * Identifier) Visibility))).

Lemma add_functions_ok self friends acc :
  exists acc', Context.add_functions self id d friends acc = Ok acc' /\
    puts (fun a k => a !! k) (function_entry self friends id d) acc.1 acc'.1 /\
    puts (fun a k => a !! k) (visibility_entry id d) acc.2 acc'.2.
Proof using Hd.
  destruct (fill_spec (step self friends) (fun a k => a.1 !! k)
    (fun def k w => k.1 = id /\ exists h, declares_function d k.2 def h /\
      Context.may_be_called self friends def.(FunctionDefinition.visibility) = true /\ w = def.(FunctionDefinition.function))
    d.(CompiledModule.function_defs) acc) as (acc' & E & H).
  { intros def [a b] Hdef. destruct (function_def_named d Hd def Hdef) as (name & h & Hdecl).
    destruct (declares_function_at d Hd _ _ _ Hdecl) as [-> En]. cbn [mbind result_bind]. rewrite En.
    eexists. split; [done|]. destruct (Context.may_be_called _ _ _) eqn:Em; [|apply puts_same; naive_solver].
    eapply puts_iff; [|by apply (puts_insert fst)].
    intros [id' n] w. split; [intros [[= -> ->] ->]; eauto|]. intros [<- (h' & Hdecl' & _ & ->)]. cbn in *.
    destruct Hdecl as (_ & Eh & Ename), Hdecl' as (_ & Eh' & Ename'). rewrite Eh in Eh'. injection Eh' as <-.
    split; [|done]. f_equal. congruence. }
  { intros x y k w w' _ _ (_ & h & Hx & _ & ->) (_ & h' & Hy & _ & ->).
    by destruct (declares_function_unique d Hd _ _ _ _ _ Hx Hy) as [-> _]. }
  destruct (fill_spec (step self friends) (fun a k => a.2 !! k)
    (fun def k w => k.1 = id /\ exists h, declares_function d k.2 def h /\ w = def.(FunctionDefinition.visibility))
    d.(CompiledModule.function_defs) acc) as (acc'' & E' & H').
  { intros def [a b] Hdef. destruct (function_def_named d Hd def Hdef) as (name & h & Hdecl).
    destruct (declares_function_at d Hd _ _ _ Hdecl) as [-> En]. cbn [mbind result_bind]. rewrite En.
    eexists. split; [done|]. eapply puts_iff; [|by apply (puts_insert snd)].
    intros [id' n] w. split; [intros [[= -> ->] ->]; eauto|]. intros [<- (h' & Hdecl' & ->)]. cbn in *.
    destruct Hdecl as (_ & Eh & Ename), Hdecl' as (_ & Eh' & Ename'). rewrite Eh in Eh'. injection Eh' as <-.
    split; [|done]. f_equal. congruence. }
  { intros x y k w w' _ _ (_ & h & Hx & ->) (_ & h' & Hy & ->).
    by destruct (declares_function_unique d Hd _ _ _ _ _ Hx Hy) as [-> _]. }
  exists acc'. split; [exact E|]. rewrite E in E'. injection E' as <-.
  split; (eapply puts_iff; [|eassumption]); intros k w; unfold function_entry, visibility_entry, declares_function; naive_solver.
Qed.
End module.

(** Insertions that agree on their keys. *)
Lemma foldl_insert_lookup {A K V} `{Countable K} (key : A -> K) (val : A -> V) l (m : gmap K V) k w :
  (forall x y, x ∈ l -> y ∈ l -> key x = key y -> val x = val y) ->
  foldl (fun m x => <[key x := val x]> m) m l !! k = Some w <->
  (exists x, x ∈ l /\ key x = k /\ val x = w) \/ (forall x, x ∈ l -> key x <> k) /\ m !! k = Some w.
Proof.
  induction l as [|x l IH] using rev_ind; intros Hl.
  - cbn. setoid_rewrite elem_of_nil. naive_solver.
  - rewrite foldl_app. cbn [foldl]. setoid_rewrite elem_of_app. setoid_rewrite list_elem_of_singleton.
    destruct (decide (key x = k)) as [<-|Hne].
    + rewrite lookup_insert_eq. split; [naive_solver|]. intros [(y & Hy & E & <-)|[Hno _]]; [|naive_solver].
      f_equal. apply Hl; [set_solver..|congruence].
    + rewrite lookup_insert_ne by done. rewrite IH by (intros; apply Hl; set_solver). naive_solver.
Qed.

(** * The context *)

(** The context of [v] and [deps] holds what they declare. *)
Record context_ok (v : BinaryIndexedView) (deps : list CompiledModule) (ctx : Context) : Prop := {
  ctx_resolver : ctx.(Context.resolver) = v;
  ctx_dependencies id d : ctx.(Context.dependency_map) !! id = Some d <-> dependency v deps id d;
  ctx_structs id name idx : ctx.(Context.struct_id_to_handle_map) !! (id, name) = Some idx <->
    exists d def h, dependency v deps id d /\ declares_struct d name def h /\ idx = def.(StructDefinition.struct_handle);
  ctx_functions id name idx : ctx.(Context.func_id_to_handle_map) !! (id, name) = Some idx <->
    exists d def h, dependency v deps id d /\ declares_function d name def h /\
      callable v d def.(FunctionDefinition.visibility) /\ idx = def.(FunctionDefinition.function);
  ctx_visibilities fh vis : is_u16 fh = true ->
    ctx.(Context.function_visibilities) !! fh = Some vis <-> has_visibility v deps fh vis }.

Lemma checked_unit_in v : checked_unit v -> in_bounds v.
Proof. destruct v; [by intros (_ & ? & _)|by intros (_ & ? & _)]. Qed.

Section context.
Context (v : BinaryIndexedView) (deps : list CompiledModule).
Hypothesis (Hv : checked_unit v) (Hdeps : checked_dependencies deps).

Lemma view_self_id_ok : exists self, self_id v = Ok self.
Proof using Hv.
  destruct v as [m|s]; [|by exists None]. cbn. destruct (self_id_ok m Hv) as [id ->]. by exists (Some id).
Qed.

Lemma dependency_unique id d d' : dependency v deps id d -> dependency v deps id d' -> d = d'.
Proof using Hdeps. intros (H & E & _) (H' & E' & _). by apply (dependencies_distinct _ Hdeps d d' id). Qed.

Lemma dependency_checked id d : dependency v deps id d -> checked_unit (Module_ d).
Proof using Hdeps. intros (H & _). by apply (dependencies_checked _ Hdeps). Qed.

Lemma names_unique idx d d' : names v deps idx d -> names v deps idx d' -> d = d'.
Proof using Hdeps.
  intros (id & E & H) (id' & E' & H'). assert (id = id') as <- by congruence. by apply (dependency_unique id).
Qed.

Lemma collect_dependencies_ok self : self_id v = Ok self ->
  exists dm, Context.collect_dependencies self deps = Ok dm /\ forall id d, dm !! id = Some d <-> dependency v deps id d.
Proof using Hdeps.
  intros Hself.
  destruct (fill_spec (fun d (acc : gmap ModuleId CompiledModule) =>
    id ← ModuleAccess.self_id d;
    Ok (if bool_decide (Some id = self) then acc else <[id := d]> acc)) (fun a k => a !! k)
    (fun d id d' => ModuleAccess.self_id d = Ok id /\ d' = d /\ Some id <> self) deps ∅) as (dm & E & H).
  - intros d acc Hd. destruct (self_id_ok d (dependencies_checked _ Hdeps d Hd)) as [id Hid]. rewrite Hid. cbn [mbind result_bind].
    eexists. split; [done|]. case_bool_decide; [apply puts_same; naive_solver|].
    eapply puts_iff; [|by apply (puts_insert (fun a => a))]. naive_solver.
  - intros x y k w w' Hx Hy (E & -> & _) (E' & -> & _). by apply (dependencies_distinct _ Hdeps x y k).
  - exists dm. split; [exact E|]. intros id d. rewrite (puts_empty _ _ _ _ _ _ H) by apply lookup_empty.
    unfold dependency. rewrite Hself. naive_solver.
Qed.

Lemma may_be_called_ok self friends d vis : self_id v = Ok self -> ModuleAccess.immediate_friends d = Ok friends ->
  Context.may_be_called self friends vis = true <-> callable v d vis.
Proof using.
  intros Hs Hf. destruct vis; cbn; try done. rewrite Hs, Hf. destruct self as [id|].
  - rewrite bool_decide_eq_true. split; [intros Hin; by exists id, friends|]. intros (? & ? & [= ->] & [= ->] & ?). done.
  - split; [done|]. intros (? & ? & [=] & _).
Qed.

(** The loop over the dependencies. *)
Abbreviation add_dependency self := (fun '(module_id, module) '(structs, funcs, visibilities) =>
  friend_module_ids ← ModuleAccess.immediate_friends module;
  structs ← Context.add_structs module_id module structs;
  '(funcs, visibilities) ← Context.add_functions self module_id module friend_module_ids (funcs, visibilities);
  Ok (structs, funcs, visibilities)).

Lemma add_dependency_ok self id d acc : dependency v deps id d ->
  exists acc' friends, add_dependency self (id, d) acc = Ok acc' /\ ModuleAccess.immediate_friends d = Ok friends /\
    puts (fun a k => a !! k) (struct_entry id d) acc.1.1 acc'.1.1 /\
    puts (fun a k => a !! k) (function_entry self friends id d) acc.1.2 acc'.1.2 /\
    puts (fun a k => a !! k) (visibility_entry id d) acc.2 acc'.2.
Proof using Hdeps.
  destruct acc as [[structs funcs] vis]. intros Hd%dependency_checked. destruct (immediate_friends_ok d Hd) as [friends Hf].
  destruct (add_structs_ok d Hd id structs) as (structs' & Es & Hs).
  destruct (add_functions_ok d Hd id self friends (funcs, vis)) as ([funcs' vis'] & Ef & Hf' & Hvis).
  exists (structs', funcs', vis'), friends. rewrite Hf. cbn [mbind result_bind]. rewrite Es. cbn [mbind result_bind]. by rewrite Ef.
Qed.

Lemma add_dependencies_ok self (dm : gmap ModuleId CompiledModule) :
  self_id v = Ok self -> (forall id d, dm !! id = Some d <-> dependency v deps id d) ->
  exists structs funcs vis, Context.fill (add_dependency self) (map_to_list dm) (∅, ∅, ∅) = Ok (structs, funcs, vis) /\
    (forall id name w, structs !! (id, name) = Some w <-> exists d, dependency v deps id d /\ struct_entry id d (id, name) w) /\
    (forall id name w, funcs !! (id, name) = Some w <-> exists d friends, dependency v deps id d /\
      ModuleAccess.immediate_friends d = Ok friends /\ function_entry self friends id d (id, name) w) /\
    (forall id name w, vis !! (id, name) = Some w <-> exists d, dependency v deps id d /\ visibility_entry id d (id, name) w).
Proof using Hdeps.
  intros Hself Hdm.
  assert (forall id d, (id, d) ∈ map_to_list dm <-> dependency v deps id d) as Hl.
  { intros id d. by rewrite elem_of_map_to_list, Hdm. }
  destruct (fill_spec (add_dependency self) (fun a k => a.1.1 !! k) (fun p => struct_entry p.1 p.2) (map_to_list dm) (∅, ∅, ∅))
    as ([[structs funcs] vis] & E & Hs).
  { intros [id d] acc Hd%Hl. destruct (add_dependency_ok self id d acc Hd) as (acc' & fr & E & _ & H & _). by exists acc'. }
  { intros [id d] [id' d'] k w w' Hd%Hl Hd'%Hl (Ek & def & h & Hx & ->) (Ek' & def' & h' & Hy & ->).
    assert (id = id') as <- by (cbn in *; congruence). destruct (dependency_unique _ _ _ Hd Hd'). by destruct (declares_struct_unique d (dependency_checked _ _ Hd) _ _ _ _ _ Hx Hy) as [-> _]. }
  destruct (fill_spec (add_dependency self) (fun a k => a.1.2 !! k) (fun p k w => exists friends,
    ModuleAccess.immediate_friends p.2 = Ok friends /\ function_entry self friends p.1 p.2 k w) (map_to_list dm) (∅, ∅, ∅))
    as (r & E' & Hf).
  { intros [id d] acc Hd%Hl. destruct (add_dependency_ok self id d acc Hd) as (acc' & fr & E' & Hfr & _ & H & _). exists acc'.
    split; [done|]. eapply puts_iff; [|exact H]. cbn. intros k w. rewrite Hfr. naive_solver. }
  { intros [id d] [id' d'] k w w' Hd%Hl Hd'%Hl (fr & _ & Ek & def & h & Hx & _ & ->) (fr' & _ & Ek' & def' & h' & Hy & _ & ->).
    assert (id = id') as <- by (cbn in *; congruence). destruct (dependency_unique _ _ _ Hd Hd'). by destruct (declares_function_unique d (dependency_checked _ _ Hd) _ _ _ _ _ Hx Hy) as [-> _]. }
  rewrite E in E'. injection E' as <-.
  destruct (fill_spec (add_dependency self) (fun a k => a.2 !! k) (fun p => visibility_entry p.1 p.2) (map_to_list dm) (∅, ∅, ∅))
    as (r & E' & Hvis).
  { intros [id d] acc Hd%Hl. destruct (add_dependency_ok self id d acc Hd) as (acc' & fr & E' & _ & _ & _ & H). by exists acc'. }
  { intros [id d] [id' d'] k w w' Hd%Hl Hd'%Hl (Ek & def & h & Hx & ->) (Ek' & def' & h' & Hy & ->).
    assert (id = id') as <- by (cbn in *; congruence). destruct (dependency_unique _ _ _ Hd Hd'). by destruct (declares_function_unique d (dependency_checked _ _ Hd) _ _ _ _ _ Hx Hy) as [-> _]. }
  rewrite E in E'. injection E' as <-. exists structs, funcs, vis. split; [exact E|].
  split_and!; intros id name w.
  - rewrite (puts_empty _ _ _ _ (id, name) w Hs) by (intros k; apply lookup_empty). split.
    + intros ([id' d] & Hd%Hl & H). assert (id' = id) as -> by (by destruct H). eauto.
    + intros (d & Hd%Hl & H). by exists (id, d).
  - rewrite (puts_empty _ _ _ _ (id, name) w Hf) by (intros k; apply lookup_empty). split.
    + intros ([id' d] & Hd%Hl & fr & Hfr & H). assert (id' = id) as -> by (by destruct H). eauto.
    + intros (d & fr & Hd%Hl & H). exists (id, d). eauto.
  - rewrite (puts_empty _ _ _ _ (id, name) w Hvis) by (intros k; apply lookup_empty). split.
    + intros ([id' d] & Hd%Hl & H). assert (id' = id) as -> by (by destruct H). eauto.
    + intros (d & Hd%Hl & H). by exists (id, d).
Qed.

(** * The visibilities *)

Lemma module_id_at_steps idx id : module_id_at v idx = Ok id ->
  exists h, module_handle_at v idx = Ok h /\ module_id_for_handle v h = Ok id.
Proof using. intros (h & Hh & H)%res_bind_ok. by exists h. Qed.

(** A foreign function of a dependency with its visibility. *)
Definition foreign_visibility (h : FunctionHandle) (w : Visibility) : Prop :=
  foreign v h.(FunctionHandle.module) /\ exists d name def dh, names v deps h.(FunctionHandle.module) d /\
    identifier_at v h.(FunctionHandle.name) = Ok name /\ declares_function d name def dh /\
    def.(FunctionDefinition.visibility) = w.

Lemma foreign_visibility_unique h w w' : foreign_visibility h w -> foreign_visibility h w' -> w = w'.
Proof using Hdeps.
  intros (_ & d & name & def & dh & Hn & Ei & Hdecl & <-) (_ & d' & name' & def' & dh' & Hn' & Ei' & Hdecl' & <-).
  destruct (names_unique _ _ _ Hn Hn'). assert (name = name') as <- by congruence. destruct Hn as (id & _ & Hd).
  by destruct (declares_function_unique d (dependency_checked _ _ Hd) _ _ _ _ _ Hdecl Hdecl') as [-> _].
Qed.

Lemma table_index_inj (i j : nat) : Z.of_nat i < 2 ^ 16 -> Z.of_nat j < 2 ^ 16 ->
  Context.as_table_index i = Context.as_table_index j -> i = j.
Proof using. unfold Context.as_table_index. intros Hi Hj. rewrite !Z.mod_small by lia. lia. Qed.

Lemma add_visibilities_ok (vis : gmap (ModuleId * Identifier) Visibility) acc :
  zlen (function_handles v) <= 2 ^ 16 ->
  (forall id name w, vis !! (id, name) = Some w <-> exists d, dependency v deps id d /\ visibility_entry id d (id, name) w) ->
  exists acc', Context.add_visibilities v vis acc = Ok acc' /\
    puts (fun a k => a !! k) (fun k w => exists i h, function_handles v !! i = Some h /\ k = Context.as_table_index i /\
      foreign_visibility h w) acc acc'.
Proof using Hv Hdeps.
  intros Hlen Hvis. pose proof (checked_unit_in v Hv) as Hin.
  destruct (fill_spec (fun '(idx, function_handle) (acc : gmap FunctionHandleIndex Visibility) =>
    if bool_decide (Some function_handle.(FunctionHandle.module) = self_handle_idx v)
    then Ok acc
    else
      module_handle ← module_handle_at v function_handle.(FunctionHandle.module);
      owner_module_id ← module_id_for_handle v module_handle;
      function_name ← identifier_at v function_handle.(FunctionHandle.name);
      Ok (match vis !! (owner_module_id, function_name) with
          | None => acc
          | Some vis => <[Context.as_table_index idx := vis]> acc
          end)) (fun a k => a !! k)
    (fun p k w => k = Context.as_table_index p.1 /\ foreign_visibility p.2 w) (imap pair (function_handles v)) acc) as (acc' & E & H).
  - intros [i h] a (j & x & [= <- <-] & Hh)%elem_of_lookup_imap. destruct (forall_lookup _ _ _ _ (function_handles_in _ Hin) Hh)
      as ([id Hid]%(module_id_at_ok v Hin) & [name Hname]%view_identifier_at & _). case_bool_decide as Hself.
    + exists a. split; [done|]. apply puts_same; [|done]. intros k w (_ & Hforeign & _). by apply Hforeign.
    + destruct (module_id_at_steps _ _ Hid) as (mh & -> & Hmh). cbn [mbind result_bind]. rewrite Hmh. cbn [mbind result_bind].
      rewrite Hname. cbn [mbind result_bind]. eexists. split; [done|].
      destruct (vis !! (id, name)) as [w|] eqn:Ew.
      * apply Hvis in Ew as (d & Hd & _ & def & dh & Hdecl & ->). eapply puts_iff; [|by apply (puts_insert (fun a => a))].
        cbn in Hdecl. assert (foreign_visibility h (FunctionDefinition.visibility def)) as Hfv.
        { split; [done|]. exists d, name, def, dh. split_and!; try done. by exists id. }
        intros k w. cbn. split; [by intros [-> ->]|]. intros [-> Hw]. split; [done|]. by apply (foreign_visibility_unique h).
      * apply puts_same; [|done]. intros k w (_ & _ & d & name' & def & dh & (id' & Hid' & Hd) & Hname' & Hdecl & <-). cbn in *.
        assert (id' = id) as -> by congruence. assert (name' = name) as -> by congruence.
        assert (vis !! (id, name) = Some def.(FunctionDefinition.visibility)) as Ew'; [|congruence].
        apply Hvis. exists d. split; [done|]. split; [done|]. by exists def, dh.
  - intros [i h] [i' h'] k w w' (j & x & [= <- <-] & Hh)%elem_of_lookup_imap (j' & x' & [= <- <-] & Hh')%elem_of_lookup_imap.
    intros [-> Hw] [E Hw']. cbn in *. pose proof (lookup_lt_Some _ _ _ Hh). pose proof (lookup_lt_Some _ _ _ Hh').
    apply table_index_inj in E as <-; [|lia..]. rewrite Hh in Hh'. injection Hh' as <-. by apply (foreign_visibility_unique h).
  - exists acc'. split; [exact E|]. eapply puts_iff; [|exact H]. intros k w. split.
    + intros ([i h] & (j & x & [= <- <-] & Hh)%elem_of_lookup_imap & Hk). naive_solver.
    + intros (i & h & Hh & Hk). exists (i, h). split; [|done]. apply elem_of_lookup_imap. by exists i, h.
Qed.

(** The functions of the unit itself. *)
Definition self_function_defs : list FunctionDefinition :=
  match v with Module_ m => m.(CompiledModule.function_defs) | Script_ _ => [] end.

Lemma self_visibilities_ok fh vis :
  foldl (fun (acc : gmap FunctionHandleIndex Visibility) function_def =>
      <[function_def.(FunctionDefinition.function) := function_def.(FunctionDefinition.visibility)]> acc)
      ∅ self_function_defs !! fh = Some vis <->
  exists def, def ∈ self_function_defs /\ def.(FunctionDefinition.function) = fh /\ def.(FunctionDefinition.visibility) = vis.
Proof using Hv.
  unfold self_function_defs. rewrite (foldl_insert_lookup FunctionDefinition.function FunctionDefinition.visibility).
  - rewrite lookup_empty. naive_solver.
  - intros x y Hx Hy E. destruct v as [m|s]; [|by apply elem_of_nil in Hx]. destruct Hv as (_ & _ & Hd).
    destruct (functions_defined _ Hd) as (Hnd & _). by rewrite (nodup_map_eq _ _ _ _ Hnd Hx Hy E).
Qed.

(** A function of the unit is not foreign. *)
Lemma own_not_foreign def i h : def ∈ self_function_defs -> function_handles v !! i = Some h ->
  i = into_index def.(FunctionDefinition.function) -> ~ foreign v h.(FunctionHandle.module).
Proof using Hv.
  unfold self_function_defs. intros Hdef Hh -> Hf. destruct v as [m|s]; [|by apply elem_of_nil in Hdef].
  destruct Hv as (_ & _ & Hd). destruct (functions_defined _ Hd) as (_ & Hself & _).
  destruct (Hself def Hdef) as (h' & Hh' & E). cbn in Hh. rewrite Hh in Hh'. injection Hh' as <-. apply Hf. cbn. by rewrite E.
Qed.

Lemma u16_table_index fh i : is_u16 fh = true -> Z.of_nat i < 2 ^ 16 -> fh = Context.as_table_index i <-> i = into_index fh.
Proof using.
  intros Hfh%in_range_spec Hi. unfold Context.as_table_index, into_index. rewrite Z.mod_small by lia. lia.
Qed.

Lemma context_new_ok : zlen (function_handles v) <= 2 ^ 16 -> exists ctx, Context.new v deps = Ok ctx /\ context_ok v deps ctx.
Proof using Hv Hdeps.
  intros Hlen. unfold Context.new. destruct view_self_id_ok as [self Hself]. rewrite Hself. cbn [mbind result_bind].
  destruct (collect_dependencies_ok self Hself) as (dm & -> & Hdm). cbn [mbind result_bind].
  destruct (add_dependencies_ok self dm Hself Hdm) as (structs & funcs & vis & E & Hs & Hf & Hvis). rewrite E. cbn [mbind result_bind].
  fold self_function_defs.
  destruct (add_visibilities_ok vis (foldl (fun (acc : gmap FunctionHandleIndex Visibility) function_def =>
      <[function_def.(FunctionDefinition.function) := function_def.(FunctionDefinition.visibility)]> acc) ∅ self_function_defs) Hlen Hvis)
    as (fv & E' & Hfv). rewrite E'. cbn [mbind result_bind].
  eexists. split; [done|]. constructor; cbn [Context.resolver Context.dependency_map Context.struct_id_to_handle_map
    Context.func_id_to_handle_map Context.function_visibilities]; [done|done|..].
  - intros id name idx. rewrite Hs. unfold struct_entry. cbn. naive_solver.
  - intros id name idx. rewrite Hf. unfold function_entry. cbn. split.
    + intros (d & fr & Hd & Hfr & _ & def & h & Hdecl & Hm & ->). exists d, def, h. split_and!; try done.
      by apply (may_be_called_ok self fr d).
    + intros (d & def & h & Hd & Hdecl & Hc & ->). destruct (immediate_friends_ok d (dependency_checked _ _ Hd)) as [fr Hfr].
      exists d, fr. split_and!; try done. exists def, h. split_and!; try done. by apply (may_be_called_ok self fr d).
  - intros fh w Hfh. rewrite (Hfv fh w), self_visibilities_ok. unfold has_visibility. split.
    + intros [(i & h & Hh & E1 & Hforeign & H)|[Hno (def & Hdef & <- & <-)]].
      * right. pose proof (lookup_lt_Some _ _ _ Hh). apply u16_table_index in E1 as ->; [|done|lia]. naive_solver.
      * left. unfold self_function_defs in Hdef. destruct v as [m|s]; [|by apply elem_of_nil in Hdef]. by exists m, def.
    + intros [(m & def & Em & Hdef & <- & <-)|(h & d & name & def & dh & Hh & Hforeign & Hn & Hname & Hdecl & <-)].
      * right. assert (def ∈ self_function_defs) as Hdef' by (unfold self_function_defs; by rewrite Em).
        split; [|by exists def]. intros w' (i & h & Hh & E1 & Hforeign & _). pose proof (lookup_lt_Some _ _ _ Hh).
        apply u16_table_index in E1; [|done|lia]. by destruct (own_not_foreign def i h Hdef' Hh E1).
      * left. exists (into_index fh), h. split; [done|]. pose proof (lookup_lt_Some _ _ _ Hh).
        split; [by apply u16_table_index; [|lia|]|]. split; [done|]. by exists d, name, def, dh.
Qed.
End context.

Import BinaryIndexedView.

(** * Loops of checks *)

Lemma res_for_in {A} (f : A -> result StatusCode ()) (P : A -> Prop) l :
  (forall x, x ∈ l -> safe (f x) /\ (f x = Ok () <-> P x)) ->
  safe (res_for l f) /\ (res_for l f = Ok () <-> forall x, x ∈ l -> P x).
Proof.
  intros Hf. split; [apply res_for_safe; intros x Hx; by apply Hf|]. rewrite res_for_ok, list.Forall_forall.
  split; intros H x Hx; apply Hf; auto.
Qed.

Lemma spec_iff (r : result StatusCode ()) (P Q : Prop) :
  safe r /\ (r = Ok () <-> P) -> (P <-> Q) -> safe r /\ (r = Ok () <-> Q).
Proof. intros [? ?] ?. split; [done|tauto]. Qed.

Lemma spec_ok (P : Prop) : P -> safe (Ok () : result StatusCode ()) /\ (Ok () = Ok () :> result StatusCode () <-> P).
Proof. done. Qed.

Lemma spec_err e (P : Prop) : ~ P -> safe (Err e : result StatusCode ()) /\ (Err e = Ok () :> result StatusCode () <-> P).
Proof. done. Qed.

(** * What the unit is known to satisfy *)

Section unit.
Context (v : BinaryIndexedView) (Hv : checked_unit v).

(** A field of the tables of the unit is in the range of its type. *)
Ltac unit_wf := destruct v as [m|s]; [destruct Hv as (Hwf & _); unfold wf_module in Hwf|destruct Hv as (Hwf & _); unfold wf_script in Hwf]; wf_split.

Lemma unit_struct_handle h : h ∈ struct_handles v -> 0 <= h.(StructHandle.module).
Proof using Hv.
  intros Hh. unit_wf; (eapply (forall_in (fun h => wf_struct_handle h = true)) in Hh; [|done]); unfold wf_struct_handle in Hh; wf_split; lia.
Qed.

Lemma unit_function_handle h : h ∈ function_handles v -> 0 <= h.(FunctionHandle.module).
Proof using Hv.
  intros Hh. unit_wf; (eapply (forall_in (fun h => wf_function_handle h = true)) in Hh; [|done]); unfold wf_function_handle in Hh; wf_split; lia.
Qed.

Lemma unit_signature i sig : signatures v !! i = Some sig -> forallb wf_token sig = true /\ Forall (type_ok v) sig.
Proof using Hv.
  intros Hs. split; [|exact (forall_lookup _ _ _ _ (signatures_in _ (checked_unit_in v Hv)) Hs)].
  assert (wf_signature sig = true) as H; [|exact H].
  unit_wf; eapply (forall_lookup (fun s => wf_signature s = true)); done.
Qed.

Lemma unit_instantiation i inst : function_instantiations v !! i = Some inst -> is_u16 inst.(FunctionInstantiation.handle) = true.
Proof using Hv.
  intros Hi. assert (wf_function_instantiation inst = true) as [H _]%andb_true_iff; [|exact H].
  unit_wf; eapply (forall_lookup (fun s => wf_function_instantiation s = true)); done.
Qed.

Lemma unit_body vis code : body v vis code -> forallb wf_bytecode code = true /\ exists n cl l, Forall (instr_ok v n cl l) code.
Proof using Hv.
  destruct v as [m|s].
  - intros (def & c & Hdef & Hc & _ & ->). destruct Hv as (Hwf & Hin & _). split.
    + unfold wf_module in Hwf. wf_split.
      eapply (forall_in (fun d => wf_function_definition d = true)) in Hdef; [|done]. unfold wf_function_definition, wf_code_unit in Hdef.
      rewrite Hc in Hdef. by repeat apply andb_true_iff in Hdef as [? Hdef].
    + destruct (forall_in _ _ _ (function_defs_in _ Hin) Hdef) as (_ & _ & Hcode).
      destruct (Hcode c Hc) as (h & ps & ls & _ & _ & _ & _ & locals & _ & _ & H). eauto.
  - intros (_ & ->). destruct Hv as (Hwf & Hin & ps & _ & _ & locals & _ & _ & H). split; [|eauto].
    unfold wf_script, wf_code_unit in Hwf. by repeat apply andb_true_iff in Hwf as [? Hwf].
Qed.

(** The target of a call is a function handle. *)
Lemma unit_call vis code instr fh : body v vis code -> instr ∈ code -> call_target v instr fh ->
  is_u16 fh = true /\ idx_ok (function_handles v) fh.
Proof using Hv.
  intros (Hwf & n & cl & l & Hin)%unit_body Hi Ht. pose proof (forallb_in _ _ _ Hwf Hi) as Hw. pose proof (forall_in _ _ _ Hin Hi) as Ho.
  destruct Ht as [->|(idx & inst & -> & Hinst & <-)]; [by split|].
  split; [by apply (unit_instantiation (into_index idx))|].
  apply (forall_lookup _ _ _ _ (function_instantiations_in _ (checked_unit_in v Hv)) Hinst).
Qed.
End unit.

(** * The checks *)

Section checks.
Context (v : BinaryIndexedView) (deps : list CompiledModule) (ctx : Context).
Hypothesis (Hv : checked_unit v) (Hdeps : checked_dependencies deps) (Hctx : context_ok v deps ctx).
Let Hin : in_bounds v := checked_unit_in v Hv.
Let Hres : ctx.(Context.resolver) = v := ctx_resolver _ _ _ Hctx.

Lemma known_dependency id d : dependency v deps id d -> ctx.(Context.dependency_map) !! id = Some d.
Proof using Hctx. apply (ctx_dependencies _ _ _ Hctx). Qed.

Lemma verify_imported_modules_ok : zlen (module_handles v) <= 2 ^ 16 ->
  safe (Dependencies.verify_imported_modules ctx) /\
  (Dependencies.verify_imported_modules ctx = Ok () <->
    forall idx, 0 <= idx -> idx_ok (module_handles v) idx -> foreign v idx -> exists d, names v deps idx d).
Proof using Hv Hctx.
  intros Hlen. unfold Dependencies.verify_imported_modules. rewrite Hres.
  eapply spec_iff; [apply (res_for_in _ (fun p => foreign v (Context.as_table_index p.1) ->
    exists id d, module_id_for_handle v p.2 = Ok id /\ dependency v deps id d))|].
  - intros [i h] (j & x & [= <- <-] & Hh)%elem_of_lookup_imap. cbn [fst snd].
    destruct (view_module_id_for_handle v h (forall_lookup _ _ _ _ (module_handles_in _ Hin) Hh)) as [id ->]. cbn [mbind result_bind].
    case_bool_decide as Hs; cbn [negb andb]; [by apply spec_ok; intros []|].
    case_bool_decide as Hd; cbn [negb andb].
    + apply spec_ok. intros _. destruct Hd as [d Hd%(ctx_dependencies _ _ _ Hctx)]. eauto.
    + apply spec_err. intros H. destruct (H Hs) as (id' & d & [= <-] & Hd'%known_dependency). eauto.
  - split.
    + intros H idx Hz [h Hh]%idx_ok_lookup Hf. pose proof (lookup_lt_Some _ _ _ Hh) as Hlt.
      assert (Context.as_table_index (into_index idx) = idx) as E.
      { unfold Context.as_table_index, into_index in *. rewrite Z.mod_small; lia. }
      destruct (H (into_index idx, h)) as (id & d & Hid & Hd); [apply elem_of_lookup_imap; eauto|cbn; by rewrite E|].
      exists d, id. split; [|done]. unfold module_id_at. by rewrite (view_module_handle_at v Hin _ _ Hh).
    + intros H [i h] (j & x & [= <- <-] & Hh)%elem_of_lookup_imap Hf. cbn in *. pose proof (lookup_lt_Some _ _ _ Hh) as Hlt.
      assert (into_index (Context.as_table_index i) = i) as E.
      { unfold Context.as_table_index, into_index. rewrite Z.mod_small by lia. lia. }
      destruct (H (Context.as_table_index i)) as (d & id & Hid & Hd); [apply Z.mod_pos_bound; lia| |done|].
      { apply idx_ok_lookup. rewrite E. eauto. }
      unfold module_id_at in Hid. rewrite (view_module_handle_at v Hin _ h) in Hid by (by rewrite E). eauto.
Qed.

Hypothesis Hmods : forall idx, 0 <= idx -> idx_ok (module_handles v) idx -> foreign v idx -> exists d, names v deps idx d.

Lemma owner_ok idx d id : module_id_at v idx = Ok id -> dependency v deps id d ->
  Dependencies.owner_module_id ctx idx = Ok id /\ ctx.(Context.dependency_map) !! id = Some d.
Proof using Hctx.
  intros Hid Hd. split; [|by apply known_dependency]. unfold Dependencies.owner_module_id. by rewrite Hres.
Qed.

Lemma verify_imported_structs_ok :
  safe (Dependencies.verify_imported_structs ctx) /\
  (Dependencies.verify_imported_structs ctx = Ok () <->
    forall h, h ∈ struct_handles v -> foreign v h.(StructHandle.module) -> struct_links v deps h).
Proof using Hv Hdeps Hctx Hmods.
  unfold Dependencies.verify_imported_structs. rewrite Hres. apply res_for_in. intros h Hh.
  case_bool_decide as Hs; [by apply spec_ok|].
  apply (spec_iff _ (struct_links v deps h)); [|by split; [|auto]].
  destruct (forall_in _ _ _ (struct_handles_in _ Hin) Hh) as [Hm [name Hname]%view_identifier_at].
  destruct (Hmods _ (unit_struct_handle v Hv h Hh) Hm Hs) as (d & id & Hid & Hd).
  destruct (owner_ok _ _ _ Hid Hd) as [-> Emap]. cbn [mbind result_bind]. rewrite Emap. cbn [mbind result_bind unwrap].
  rewrite Hname. cbn [mbind result_bind].
  pose proof (dependency_checked v deps Hdeps _ _ Hd) as Hcd.
  destruct (Context.struct_id_to_handle_map ctx !! (id, name)) as [idx|] eqn:Es.
  - apply (ctx_structs _ _ _ Hctx) in Es as (d' & def & dh & Hd' & Hdecl & ->).
    destruct (dependency_unique v deps Hdeps _ _ _ Hd Hd').
    destruct (declares_struct_at d Hcd _ _ _ Hdecl) as [-> _]. cbn [mbind result_bind].
    assert (struct_links v deps h <->
      Dependencies.compatible_struct_abilities h.(StructHandle.abilities) dh.(StructHandle.abilities) = true /\
      Dependencies.compatible_struct_type_parameters h.(StructHandle.type_parameters) dh.(StructHandle.type_parameters) = true) as E.
    { split; [|intros [? ?]; exists d, name, def, dh; split_and!; try done; by exists id].
      intros (d2 & n2 & def2 & dh2 & Hnames & Hn2 & Hdecl2 & H1 & H2). assert (n2 = name) as -> by congruence.
      destruct (names_unique v deps Hdeps _ _ _ (ex_intro _ id (conj Hid Hd)) Hnames).
      by destruct (declares_struct_unique d Hcd _ _ _ _ _ Hdecl Hdecl2) as [_ <-]. }
    destruct (Dependencies.compatible_struct_abilities _ _) eqn:C1, (Dependencies.compatible_struct_type_parameters _ _) eqn:C2;
      cbn [negb orb]; first [apply spec_ok; by apply E|apply spec_err; intros [? ?]%E; congruence].
  - apply spec_err. intros (d2 & n2 & def2 & dh2 & (id2 & Hid2 & Hd2) & Hn2 & Hdecl2 & _).
    assert (n2 = name) as -> by congruence. assert (id2 = id) as -> by congruence.
    assert (Context.struct_id_to_handle_map ctx !! (id, name) = Some def2.(StructDefinition.struct_handle)) as E'; [|congruence].
    apply (ctx_structs _ _ _ Hctx). eauto 10.
Qed.

Lemma compare_signatures_ok d i j ts us : checked_unit (Module_ d) ->
  signatures v !! i = Some ts -> signatures (Module_ d) !! j = Some us ->
  safe (Dependencies.compare_cross_module_signatures ctx ts us d) /\
  (Dependencies.compare_cross_module_signatures ctx ts us d = Ok () <-> same_types v (Module_ d) ts us).
Proof using Hv Hctx.
  intros Hd [Hw Ht]%(unit_signature v Hv) [Hw' Ht']%(unit_signature _ Hd).
  destruct (compare_list_ok ctx d) with (ts := ts) (us := us) as (Ts & Us & HT & HU & E); rewrite ?Hres; try done; [by apply checked_unit_in|..].
  { intros t u Hti Hui. apply compare_types_ok; rewrite ?Hres; [done|by apply checked_unit_in|..].
    - by apply (forallb_in _ ts).
    - by apply (forallb_in _ us).
    - by apply (forall_in _ ts).
    - by apply (forall_in _ us). }
  unfold Dependencies.compare_cross_module_signatures. rewrite E. rewrite Hres in HT. unfold same_types. rewrite HT, HU.
  case_bool_decide as HTU; [destruct HTU; apply spec_ok; eauto|]. apply spec_err. intros (Ts' & [= <-] & [= <-]). done.
Qed.

Lemma function_sig_at i (h : FunctionHandle) (v' : BinaryIndexedView) : in_bounds v' -> function_handles v' !! i = Some h ->
  exists (ps rs : Signature), signatures v' !! into_index h.(FunctionHandle.parameters) = Some ps /\
    signatures v' !! into_index h.(FunctionHandle.return_) = Some rs.
Proof using.
  intros Hin' Hh. destruct (forall_lookup _ _ _ _ (function_handles_in _ Hin') Hh) as
    (_ & _ & [ps Hps]%idx_ok_lookup & [rs Hrs]%idx_ok_lookup & _). eauto.
Qed.

Lemma verify_imported_functions_ok :
  safe (Dependencies.verify_imported_functions ctx) /\
  (Dependencies.verify_imported_functions ctx = Ok () <->
    forall h, h ∈ function_handles v -> foreign v h.(FunctionHandle.module) -> function_links v deps h).
Proof using Hv Hdeps Hctx Hmods.
  unfold Dependencies.verify_imported_functions. rewrite Hres. apply res_for_in. intros h Hh.
  case_bool_decide as Hs; [by apply spec_ok|].
  apply (spec_iff _ (function_links v deps h)); [|by split; [|auto]].
  destruct (forall_in _ _ _ (function_handles_in _ Hin) Hh) as (Hm & [name Hname]%view_identifier_at & [ps Hps]%idx_ok_lookup & [rs Hrs]%idx_ok_lookup & _).
  destruct (Hmods _ (unit_function_handle v Hv h Hh) Hm Hs) as (d & id & Hid & Hd).
  destruct (owner_ok _ _ _ Hid Hd) as [-> Emap]. cbn [mbind result_bind]. rewrite Hname. cbn [mbind result_bind].
  rewrite Emap. cbn [mbind result_bind unwrap].
  pose proof (dependency_checked v deps Hdeps _ _ Hd) as Hcd.
  destruct (Context.func_id_to_handle_map ctx !! (id, name)) as [idx|] eqn:Es.
  - apply (ctx_functions _ _ _ Hctx) in Es as (d' & def & dh & Hd' & Hdecl & Hcall & ->).
    destruct (dependency_unique v deps Hdeps _ _ _ Hd Hd').
    destruct (declares_function_at d Hcd _ _ _ Hdecl) as [-> _]. cbn [mbind result_bind].
    destruct (function_sig_at _ dh (Module_ d) (checked_unit_in _ Hcd) (proj1 (proj2 Hdecl))) as (dps & drs & Hdps & Hdrs).
    assert (function_links v deps h <->
      Dependencies.compatible_fun_type_parameters h.(FunctionHandle.type_parameters) dh.(FunctionHandle.type_parameters) = true /\
      same_types v (Module_ d) ps dps /\ same_types v (Module_ d) rs drs) as E.
    { split; [|intros (? & ? & ?); exists d, name, def, dh, ps, dps, rs, drs; split_and!; try done; by exists id].
      intros (d2 & n2 & def2 & dh2 & ps2 & dps2 & rs2 & drs2 & Hnames & Hn2 & Hdecl2 & _ & H1 & H2 & H3 & H4 & H5 & H6 & H7).
      assert (n2 = name) as -> by congruence. destruct (names_unique v deps Hdeps _ _ _ (ex_intro _ id (conj Hid Hd)) Hnames).
      destruct (declares_function_unique d Hcd _ _ _ _ _ Hdecl Hdecl2) as [_ <-].
      pose proof (eq_trans (eq_sym Hps) H2) as [= <-]. pose proof (eq_trans (eq_sym Hdps) H3) as [= <-].
      pose proof (eq_trans (eq_sym Hrs) H5) as [= <-]. by pose proof (eq_trans (eq_sym Hdrs) H6) as [= <-]. }
    destruct (Dependencies.compatible_fun_type_parameters _ _); cbn [negb]; [|apply spec_err; by intros [? _]%E].
    rewrite (view_signature_at v _ _ Hps). cbn [mbind result_bind]. unfold Dependencies.def_signature. rewrite Emap.
    assert (ModuleAccess.signature_at d dh.(FunctionHandle.parameters) = Ok dps) as -> by (by apply index_ok). cbn [mbind result_bind].
    eapply spec_iff; [apply seq_spec; [by apply (compare_signatures_ok d _ _ ps dps Hcd Hps Hdps)|intros _]|].
    + rewrite (view_signature_at v _ _ Hrs). cbn [mbind result_bind].
      assert (ModuleAccess.signature_at d dh.(FunctionHandle.return_) = Ok drs) as -> by (by apply index_ok). cbn [mbind result_bind].
      by apply (compare_signatures_ok d _ _ rs drs Hcd Hrs Hdrs).
    + rewrite E. tauto.
  - apply spec_err. intros (d2 & n2 & def2 & dh2 & ps2 & dps2 & rs2 & drs2 & Hnames & Hn2 & Hdecl2 & Hcall & _).
    assert (n2 = name) as -> by congruence. destruct (names_unique v deps Hdeps _ _ _ (ex_intro _ id (conj Hid Hd)) Hnames).
    assert (Context.func_id_to_handle_map ctx !! (id, name) = Some def2.(FunctionDefinition.function)) as E'; [|congruence].
    apply (ctx_functions _ _ _ Hctx). eauto 10.
Qed.

(** * Calls *)

Hypothesis Hfuns : forall h, h ∈ function_handles v -> foreign v h.(FunctionHandle.module) -> function_links v deps h.

Lemma visibility_known fh : is_u16 fh = true -> idx_ok (function_handles v) fh -> exists vis, has_visibility v deps fh vis.
Proof using Hv Hfuns.
  intros Hfh%in_range_spec [h Hh]%idx_ok_lookup. destruct (decide (Some h.(FunctionHandle.module) = self_handle_idx v)) as [Hs|Hf].
  - clear Hin Hfuns Hmods Hres Hctx Hdeps. unfold has_visibility. destruct v as [m|s]; [|done]. cbn in Hs. injection Hs as Hs.
    pose proof Hv as (_ & _ & Hd). destruct (functions_defined _ Hd) as (_ & _ & Himpl).
    destruct (Himpl _ _ Hh Hs) as (def & Hdef & E). exists def.(FunctionDefinition.visibility). left. exists m, def.
    split_and!; try done. pose proof (function_def_range m Hv def Hdef). unfold into_index in E. lia.
  - destruct (Hfuns h) as (d & name & def & dh & _ & _ & _ & _ & Hn & Hname & Hdecl & _); [by eapply list_elem_of_lookup_2|done|].
    exists def.(FunctionDefinition.visibility). right. exists h, d, name, def, dh. done.
Qed.

Lemma verify_usage_ok vis code : body v vis code ->
  safe (Dependencies.verify_script_visibility_usage ctx vis code) /\
  (Dependencies.verify_script_visibility_usage ctx vis code = Ok () <->
    forall instr, instr ∈ code -> forall fh, call_target v instr fh ->
      has_visibility v deps fh Visibility.Script -> vis = Visibility.Script).
Proof using Hv Hctx Hfuns.
  clear Hmods. intros Hb. unfold Dependencies.verify_script_visibility_usage. rewrite Hres. apply res_for_in. intros instr Hi.
  assert (forall fh, call_target v instr fh -> (forall fh', call_target v instr fh' -> fh' = fh) ->
    let c := (fhandle_vis ← unwrap (Context.function_visibilities ctx !! fh);
      match vis, fhandle_vis with
      | Visibility.Script, Visibility.Script => Ok ()
      | _, Visibility.Script => Err CALLED_SCRIPT_VISIBLE_FROM_NON_SCRIPT_VISIBLE
      | _, _ => Ok ()
      end) : result StatusCode () in
    safe c /\ (c = Ok () <-> forall fh', call_target v instr fh' -> has_visibility v deps fh' Visibility.Script -> vis = Visibility.Script)) as Hcall.
  { intros fh Ht Hu. destruct (unit_call v Hv _ _ _ _ Hb Hi Ht) as [Hfh Hok].
    destruct (visibility_known fh Hfh Hok) as [w Hw]. apply (ctx_visibilities _ _ _ Hctx _ _ Hfh) in Hw as Ew.
    assert (unwrap (Context.function_visibilities ctx !! fh) = Ok w :> result StatusCode Visibility) as -> by exact (f_equal unwrap Ew).
    cbn [mbind result_bind].
    assert (has_visibility v deps fh Visibility.Script <-> w = Visibility.Script) as E.
    { split; [|by intros ->]. intros Hs%(ctx_visibilities _ _ _ Hctx _ _ Hfh). congruence. }
    eapply spec_iff with (w = Visibility.Script -> vis = Visibility.Script); [destruct vis, w; first [apply spec_ok; by intros|apply spec_err; by intros H%(fun H => H eq_refl)]|].
    rewrite <- E. split; [|by eauto]. intros H fh' Ht'. by rewrite (Hu fh' Ht'). }
  pose proof (unit_body v Hv _ _ Hb) as (_ & n & cl & l & Hok). pose proof (forall_in _ _ _ Hok Hi) as Hio.
  destruct instr as [| | | | | | | | | | | | | | | | | fh|idx| | | | | | | | | | | | | | | | | | | | | | | | | | | | | | | | | | | | | | | | | | | | | | | | | | | | ];
    try (cbn [mbind result_bind]; apply spec_ok; by intros fh [|(? & ? & ? & _)]).
  - apply (Hcall fh); [by left|]. by intros fh' [[=]|(? & ? & ? & _)].
  - destruct Hio as [[inst Hinst]%idx_ok_lookup _].
    assert (function_instantiation_at v idx = Ok inst) as -> by (destruct v; by apply index_ok). cbn [mbind result_bind].
    apply (Hcall inst.(FunctionInstantiation.handle)); [right; by exists idx, inst|].
    intros fh' [|(idx' & inst' & [= <-] & Hinst' & <-)]; [done|]. by pose proof (eq_trans (eq_sym Hinst) Hinst') as [= <-].
Qed.

Lemma verify_all_usage_ok :
  safe (Dependencies.verify_all_script_visibility_usage ctx) /\
  (Dependencies.verify_all_script_visibility_usage ctx = Ok () <->
    forall vis code instr fh, body v vis code -> instr ∈ code -> call_target v instr fh ->
      has_visibility v deps fh Visibility.Script -> vis = Visibility.Script).
Proof using Hv Hctx Hfuns.
  clear Hmods. unfold Dependencies.verify_all_script_visibility_usage. rewrite Hres.
  pose proof verify_usage_ok as Hu. unfold body in *.
  destruct v as [m|s]; [|eapply spec_iff; [by apply Hu|naive_solver]].
  eapply spec_iff; [apply (res_for_in _ (fun def => forall c, def.(FunctionDefinition.code) = Some c ->
    forall instr, instr ∈ c.(CodeUnit.code) -> forall fh, call_target (Module_ m) instr fh ->
      has_visibility (Module_ m) deps fh Visibility.Script -> def.(FunctionDefinition.visibility) = Visibility.Script))|].
  - intros def Hdef. destruct def.(FunctionDefinition.code) as [c|] eqn:Ec; [|by apply spec_ok].
    eapply spec_iff; [apply Hu; by exists def, c|naive_solver].
  - naive_solver.
Qed.
End checks.

Lemma verify_context_ok v deps ctx : checked_unit v -> checked_dependencies deps -> context_ok v deps ctx ->
  zlen (module_handles v) <= 2 ^ 16 ->
  safe (Dependencies.verify_context ctx) /\ (Dependencies.verify_context ctx = Ok () <-> links v deps).
Proof.
  intros Hv Hdeps Hctx Hlen. unfold Dependencies.verify_context.
  pose proof (verify_imported_modules_ok v deps ctx Hv Hctx Hlen) as H1.
  match goal with |- safe ?c /\ _ => assert (exists P, (safe c /\ (c = Ok () <-> P)) /\ (P <-> links v deps))
    as (P & [Hs HP] & Hd) end; [|split; [done|by rewrite HP]].
  eexists. split.
  - eapply seq_spec; [exact H1|intros E1]. pose proof (proj1 (proj2 H1) E1) as Hmods. clear E1.
    pose proof (verify_imported_functions_ok v deps ctx Hv Hdeps Hctx Hmods) as H3.
    eapply seq_spec; [by apply verify_imported_structs_ok|intros _]. eapply seq_spec; [exact H3|intros E3]. pose proof (proj1 (proj2 H3) E3) as Hfuns. clear E3.
    by apply verify_all_usage_ok.
  - split; [by intros (? & ? & ? & ?)|by intros []].
Qed.

Lemma verify_unit_ok v deps : checked_unit v -> checked_dependencies deps ->
  zlen (module_handles v) <= 2 ^ 16 -> zlen (function_handles v) <= 2 ^ 16 ->
  safe (verify_unit v deps) /\ (verify_unit v deps = Ok () <-> links v deps).
Proof.
  intros Hv Hdeps Hm Hf. destruct (context_new_ok v deps Hv Hdeps Hf) as (ctx & E & Hctx).
  destruct v; unfold verify_unit, Dependencies.verify_module_impl, Dependencies.verify_script_impl; rewrite E; cbn [mbind result_bind];
    by apply verify_context_ok.
Qed.
