(* ===== verification/LinkingTheorems.v ===== *)
(** Linking, cycles and upgrades: the exploration of the module graph visits exactly what can
    be reached, and the checker of cyclic dependencies reports exactly the cycles through the
    module and the friends among its dependencies; what the compatibility of two versions of
    a module means, that the check decides it on normalized modules, and that a unit that
    links with the old version links with the new one; the dependency checker accepts exactly
    the units that link with their dependencies. *)
From stdpp Require Import gmap relations.
From stdpp Require Import gmap.
From S2P Require Import Prelude StatusCode Abilities Identifier FileFormat WellFormed Access BoundsChecker.
From S2P Require Import BoundsSpec DuplicationChecker DuplicationTheorems Dependencies CyclicDependencies.
From S2P Require Import Normalized Compatibility LinkingChecks.
(** * Reachability *)

Section reach.
Context (nexts : ModuleId -> result StatusCode (list ModuleId)).

Definition edge (x y : ModuleId) : Prop := exists l, nexts x = Ok l /\ y ∈ l.

(** What the modules of a list lead to. *)
Definition reachable (items : list ModuleId) (x : ModuleId) : Prop := exists i, i ∈ items /\ rtc edge i x.

(** A finite set of modules that is closed under [nexts]. *)
Definition closed_under (U : gset ModuleId) : Prop :=
  forall x, x ∈ U -> exists l, nexts x = Ok l /\ forall y, y ∈ l -> y ∈ U.

Lemma reachable_cons i items x : reachable (i :: items) x <-> rtc edge i x \/ reachable items x.
Proof. unfold reachable. setoid_rewrite elem_of_cons. naive_solver. Qed.

Lemma reachable_one i x : reachable [i] x <-> rtc edge i x.
Proof. rewrite reachable_cons. unfold reachable. setoid_rewrite elem_of_nil. naive_solver. Qed.

Lemma reachable_edge i l x : nexts i = Ok l -> rtc edge i x <-> x = i \/ reachable l x.
Proof.
  intros Hl. split.
  - intros H. inversion H as [|? y ? (l' & Hl' & Hy) Hz]; subst; [by left|]. right. exists y. split; [|done]. congruence.
  - intros [->|(y & Hy & Hz)]; [done|]. eapply rtc_l; [|exact Hz]. by exists l.
Qed.

(** * The exploration *)

Context (target : ModuleId).

(** What [explore] may return when it is asked to visit [items]. *)
Inductive explored (items : list ModuleId) (V : gset ModuleId) : bool * gset ModuleId -> Prop :=
| explored_found V' : reachable items target -> explored items V (true, V')
| explored_all V' : V ⊆ V' -> target ∉ V' -> (forall i, i ∈ items -> i ∈ V') ->
    (forall x, x ∈ V' -> x ∈ V \/ reachable items x) ->
    (forall x y, x ∈ V' -> x ∉ V -> edge x y -> y ∈ V') -> explored items V (false, V').

Lemma explored_nil V : target ∉ V -> explored [] V (false, V).
Proof. intros Ht. constructor; [done|done|by intros i ?%elem_of_nil|auto|done]. Qed.

Lemma explored_cons i items V V1 r : explored [i] V (false, V1) -> explored items V1 r -> explored (i :: items) V r.
Proof.
  intros H1 H2. inversion H1 as [|V1' HV Ht Hi Hr Hc]; subst.
  inversion H2 as [V2 Hf|V2 HV2 Ht2 Hi2 Hr2 Hc2]; subst; constructor.
  - rewrite reachable_cons. by right.
  - set_solver.
  - done.
  - intros j [->|Hj]%elem_of_cons; [|auto]. apply HV2, Hi. by left.
  - intros x Hx. rewrite reachable_cons. destruct (Hr2 x Hx) as [Hx1|]; [|tauto].
    destruct (Hr x Hx1) as [|Hx2]; [tauto|]. apply reachable_one in Hx2. tauto.
  - intros x y Hx Hn He. destruct (decide (x ∈ V1)) as [H|H]; [apply HV2; by eapply Hc|by eapply Hc2].
Qed.

Lemma explored_node i l V r : nexts i = Ok l -> i <> target -> i ∉ V ->
  explored l ({[i]} ∪ V) r -> explored [i] V r.
Proof.
  intros Hl Hne Hi H. inversion H as [V' Hf|V' HV Ht Hin Hr Hc]; subst; constructor.
  - apply reachable_one, (reachable_edge i l); auto.
  - set_solver.
  - done.
  - intros j ->%list_elem_of_singleton. set_solver.
  - intros x Hx. rewrite reachable_one, (reachable_edge i l) by done. destruct (Hr x Hx); set_solver.
  - intros x y Hx Hn (l' & Hl' & Hy). destruct (decide (x = i)) as [->|Hxi]; [apply Hin; congruence|].
    apply (Hc x); [done|set_solver|by exists l'].
Qed.

Section loop.
Context (U : gset ModuleId) (fuel : nat) (explore : ModuleId -> gset ModuleId -> result StatusCode (bool * gset ModuleId)).
Hypothesis Hexplore : forall i V, i ∈ U -> target ∉ V -> (size (U ∖ V) < fuel)%nat ->
  exists r, explore i V = Ok r /\ explored [i] V r.

Lemma explore_all_ok items V : (forall i, i ∈ items -> i ∈ U) -> target ∉ V -> (size (U ∖ V) < fuel)%nat ->
  exists r, CyclicDependencies.explore_all explore items V = Ok r /\ explored items V r.
Proof using Hexplore.
  revert V. induction items as [|i items IH]; intros V Hi Ht Hf; cbn [CyclicDependencies.explore_all].
  - exists (false, V). split; [done|]. by apply explored_nil.
  - destruct (Hexplore i V) as ([[] V1] & -> & H); [apply Hi; by left|done|done|..]; cbn [mbind result_bind].
    + exists (true, V1). split; [done|]. constructor. inversion H; subst. rewrite reachable_cons. left. by apply reachable_one.
    + inversion H as [|V1' HV Ht1 _ _ _]; subst. destruct (IH V1) as (r & -> & Hr); [intros j Hj; apply Hi; by right|done| |].
      * assert (size (U ∖ V1) <= size (U ∖ V))%nat; [apply subseteq_size; set_solver|lia].
      * exists r. split; [done|]. by eapply explored_cons.
Qed.
End loop.

Lemma recursive_ok U fuel i V : closed_under U -> i ∈ U -> target ∉ V -> (size (U ∖ V) < fuel)%nat ->
  exists r, CyclicDependencies.collect_all_with_cycle_detection_recursive target nexts fuel i V = Ok r /\ explored [i] V r.
Proof.
  intros HU. revert i V. induction fuel as [|fuel IH]; intros i V Hi Ht Hf; [lia|].
  cbn [CyclicDependencies.collect_all_with_cycle_detection_recursive]. case_bool_decide as E.
  { eexists. split; [done|]. constructor. apply reachable_one. by rewrite E. }
  case_bool_decide as Hv.
  { eexists. split; [done|]. constructor; [done|done|by intros j ->%list_elem_of_singleton|auto|done]. }
  destruct (HU i Hi) as (l & Hl & Hclosed). rewrite Hl. cbn [mbind result_bind].
  destruct (explore_all_ok U fuel _ (fun j W => IH j W) l ({[i]} ∪ V)) as (r & Hr & He); [done|set_solver| |].
  - assert (size (U ∖ ({[i]} ∪ V)) < size (U ∖ V))%nat; [|lia]. apply subset_size. split; [set_solver|]. intros H. assert (i ∈ U ∖ ({[i]} ∪ V)) by (apply H; set_solver). set_solver.
  - exists r. split; [exact Hr|]. by eapply explored_node.
Qed.

(** The set that is collected. *)
Lemma collect_ok U fuel items status : closed_under U -> (forall i, i ∈ items -> i ∈ U) -> (size U < fuel)%nat ->
  (reachable items target /\
    CyclicDependencies.collect_all_with_cycle_detection target nexts fuel items status = Err status) \/
  (~ reachable items target /\ exists V, (forall x, x ∈ V <-> reachable items x) /\
    CyclicDependencies.collect_all_with_cycle_detection target nexts fuel items status = Ok V).
Proof.
  intros HU Hi Hf. unfold CyclicDependencies.collect_all_with_cycle_detection.
  destruct (explore_all_ok U fuel (CyclicDependencies.collect_all_with_cycle_detection_recursive target nexts fuel)
    (fun j W => recursive_ok U fuel j W HU) items ∅) as (r & -> & H); [done|set_solver|by rewrite difference_empty_L|].
  cbn [mbind result_bind]. destruct H as [V' H|V' _ Ht Hin Hr Hc]; [by left|]. right.
  assert (forall x, reachable items x -> x ∈ V') as Hall.
  { intros x (i & Hi' & Hx). specialize (Hin i Hi'). clear Hi'. induction Hx as [|x y z He _ IH]; [done|].
    apply IH, (Hc x y); [done|set_solver|done]. }
  split; [intros Hr'; by apply Ht, Hall|]. exists V'. split; [|done]. intros x. split; [|apply Hall].
  intros Hx. destruct (Hr x Hx); [set_solver|done].
Qed.
End reach.

(** * The checker *)

(** The three conditions that the checker reports, in the order in which it looks for them. *)
Lemma cyclic_cases m fuel imm_deps imm_friends U self deps friends :
  ModuleAccess.self_id m = Ok self -> ModuleAccess.immediate_dependencies m = Ok deps -> ModuleAccess.immediate_friends m = Ok friends ->
  closed_under imm_deps U -> closed_under imm_friends U ->
  (forall x, x ∈ deps -> x ∈ U) -> (forall x, x ∈ friends -> x ∈ U) -> (size U < fuel)%nat ->
  let verify := CyclicDependencies.verify_module_impl fuel m imm_deps imm_friends in
  reachable imm_deps deps self /\ verify = Err CYCLIC_MODULE_DEPENDENCY \/
  ~ reachable imm_deps deps self /\
  (reachable imm_friends friends self /\ verify = Err CYCLIC_MODULE_FRIENDSHIP \/
   ~ reachable imm_friends friends self /\
   ((exists x, reachable imm_deps deps x /\ reachable imm_friends friends x) /\
      verify = Err INVALID_FRIEND_DECL_WITH_MODULES_IN_DEPENDENCIES \/
    (forall x, reachable imm_deps deps x -> ~ reachable imm_friends friends x) /\ verify = Ok ())).
Proof.
  intros Hself Hdeps Hfriends Hd Hf HUd HUf Hfuel verify. subst verify. unfold CyclicDependencies.verify_module_impl.
  rewrite Hself, Hdeps, Hfriends. cbn [mbind result_bind].
  destruct (collect_ok imm_deps self U fuel deps CYCLIC_MODULE_DEPENDENCY Hd HUd Hfuel) as [[H ->]|(H & V & HV & ->)]; cbn [mbind result_bind];
    [by left|right; split; [done|]].
  destruct (collect_ok imm_friends self U fuel friends CYCLIC_MODULE_FRIENDSHIP Hf HUf Hfuel) as [[H' ->]|(H' & W & HW & ->)]; cbn [mbind result_bind];
    [by left|right; split; [done|]].
  case_bool_decide as E; [right|left]; (split; [|done]).
  - intros x Hx%HV Hy%HW. set_solver.
  - destruct (set_choose_L _ E) as [x Hx]. exists x. rewrite <- HV, <- HW. set_solver.
Qed.

(** C18: cycles between modules, decided.  Given the neighbours of a finite set of modules that
    is closed under dependency and friendship, the checker returns, with more rounds of
    recursion than there are modules; it reports a dependency cycle exactly if the
    dependencies of the module lead back to it, then a friendship cycle exactly if its friends
    lead back to it, then an overlap exactly if some module is both among the transitive
    dependencies and among the transitive friends, and otherwise accepts. *)
Theorem cyclic_exact (m : CompiledModule) (fuel : nat) (imm_deps imm_friends : ModuleId -> result StatusCode (list ModuleId))
    (U : gset ModuleId) :
  BoundsChecker.verify_module m = Ok () -> closed_under imm_deps U -> closed_under imm_friends U ->
  (forall deps, ModuleAccess.immediate_dependencies m = Ok deps -> forall x, x ∈ deps -> x ∈ U) ->
  (forall friends, ModuleAccess.immediate_friends m = Ok friends -> forall x, x ∈ friends -> x ∈ U) ->
  (size U < fuel)%nat ->
  exists self deps friends, ModuleAccess.self_id m = Ok self /\ ModuleAccess.immediate_dependencies m = Ok deps /\
    ModuleAccess.immediate_friends m = Ok friends /\
    let verify := CyclicDependencies.verify_module_impl fuel m imm_deps imm_friends in
    (reachable imm_deps deps self /\ verify = Err CYCLIC_MODULE_DEPENDENCY \/
     ~ reachable imm_deps deps self /\
     (reachable imm_friends friends self /\ verify = Err CYCLIC_MODULE_FRIENDSHIP \/
      ~ reachable imm_friends friends self /\
      ((exists x, reachable imm_deps deps x /\ reachable imm_friends friends x) /\
         verify = Err INVALID_FRIEND_DECL_WITH_MODULES_IN_DEPENDENCIES \/
       (forall x, reachable imm_deps deps x -> ~ reachable imm_friends friends x) /\ verify = Ok ()))).
Proof.
  intros [_ Hin]%verify_module_ok Hd Hf HUd HUf Hfuel. destruct (self_handle_ok m Hin) as (h & Eh & Hh).
  destruct (module_id_ok m h Hh) as [self Eid]. destruct (immediate_dependencies_ok m Hin) as [deps Ed].
  assert (exists friends, ModuleAccess.immediate_friends m = Ok friends) as [friends Ef].
  { eapply map_res_ok; [intros x; apply (module_id_ok m)|]. apply (friend_decls_in _ Hin). }
  assert (ModuleAccess.self_id m = Ok self) as Hself by (unfold ModuleAccess.self_id; by rewrite Eh).
  exists self, deps, friends. split; [done|]. split; [done|]. split; [done|]. apply (cyclic_cases m fuel _ _ U); eauto.
Qed.

(** The two modules of the instance. *)
Definition id_C : ModuleId := (AccountAddress_ZERO, [67]).
Definition id_M : ModuleId := (AccountAddress_ZERO, [77]).

Lemma closed_const l : (forall y, y ∈ l -> y = id_C) -> closed_under (fun _ => Ok l) {[id_C; id_M]}.
Proof. intros Hl x _. exists l. split; [done|]. intros y ->%Hl. set_solver. Qed.

(** [C] depends on [M]; it is a cycle if [M] depends on [C]. *)
Lemma cyclic_exact_witness :
  reachable (fun _ => Ok [id_C]) [id_M] id_C /\ ~ reachable (fun _ => Ok []) [id_M] id_C.
Proof.
  split.
  - destruct (cyclic_exact client 3 (fun _ => Ok [id_C]) (fun _ => Ok []) {[id_C; id_M]}) as (self & deps & friends & Hs & Hd & Hf & H);
      [reflexivity|apply closed_const; by intros y ->%list_elem_of_singleton|apply closed_const; by intros y ?%elem_of_nil
      |intros deps [= <-] x ->%list_elem_of_singleton; apply elem_of_union_r, elem_of_singleton; reflexivity
      |intros fr [= <-] x Hx; by apply elem_of_nil in Hx|vm_compute; lia|].
    injection Hs as <-. injection Hd as <-. destruct H as [[H _]|[_ [[_ H]|[_ [[_ H]|[_ H]]]]]]; [exact H|vm_compute in H; discriminate H..].
  - destruct (cyclic_exact client 3 (fun _ => Ok []) (fun _ => Ok []) {[id_C; id_M]}) as (self & deps & friends & Hs & Hd & Hf & H);
      [reflexivity|apply closed_const; by intros y ?%elem_of_nil|apply closed_const; by intros y ?%elem_of_nil
      |intros deps [= <-] x ->%list_elem_of_singleton; apply elem_of_union_r, elem_of_singleton; reflexivity
      |intros fr [= <-] x Hx; by apply elem_of_nil in Hx|vm_compute; lia|].
    injection Hs as <-. injection Hd as <-. destruct H as [[_ H]|[H _]]; [vm_compute in H; discriminate H|exact H].
Defined.

Import BinaryIndexedView.

(** * The specification *)

(** A unit that may call the old function may call the new one, and a script function
    stays one. *)
Definition vis_compatible (old new : Visibility) : Prop :=
  match old with
  | Visibility.Public => new = Visibility.Public
  | Visibility.Script => new = Visibility.Script
  | Visibility.Friend => new = Visibility.Public \/ new = Visibility.Friend
  | Visibility.Private => True
  end.

(** The new declaration allows every use of the old one. *)
Definition struct_compatible (old new : NormalizedStruct) : Prop :=
  Compatibility.struct_abilities_compatibile old.(Struct.abilities) new.(Struct.abilities) = true /\
  Compatibility.struct_type_parameters_compatibile old.(Struct.type_parameters) new.(Struct.type_parameters) = true.

Definition function_compatible (old new : NormalizedFunction) : Prop :=
  vis_compatible old.(Function_.visibility) new.(Function_.visibility) /\
  old.(Function_.parameters) = new.(Function_.parameters) /\ old.(Function_.return_) = new.(Function_.return_) /\
  Compatibility.fun_type_parameters_compatibile old.(Function_.type_parameters) new.(Function_.type_parameters) = true.

Record linking_compatible (old new : NormalizedModule) : Prop := {
  same_name : NormalizedModule.module_id old = NormalizedModule.module_id new;
  structs_kept name s : old.(NormalizedModule.structs) !! name = Some s ->
    exists s', new.(NormalizedModule.structs) !! name = Some s' /\ struct_compatible s s';
  functions_kept name f : old.(NormalizedModule.exposed_functions) !! name = Some f ->
    exists f', new.(NormalizedModule.exposed_functions) !! name = Some f' /\ function_compatible f f';
  friends_kept id : id ∈ old.(NormalizedModule.friends) -> id ∈ new.(NormalizedModule.friends) }.

(** A struct of both modules has the same fields. *)
Definition layout_compatible (old new : NormalizedModule) : Prop :=
  forall name s s', old.(NormalizedModule.structs) !! name = Some s ->
    new.(NormalizedModule.structs) !! name = Some s' -> s'.(Struct.fields) = s.(Struct.fields).

(** * The check *)

Lemma is_vis_compatible_ok old new : NormalizedModule.is_exposed old = true ->
  exists b, Compatibility.is_vis_compatible old new = Ok b /\ (b = true <-> vis_compatible old new).
Proof. destruct old, new; cbn; try done; intros _; eexists; (split; [done|]); naive_solver. Qed.

(** Two flags, each lowered by the entries that fail its test. *)
Definition lowers (self self' : Compatibility) (P Q : Prop) : Prop :=
  (self'.(Compatibility.struct_and_function_linking) = true <->
    self.(Compatibility.struct_and_function_linking) = true /\ P) /\
  (self'.(Compatibility.struct_layout) = true <-> self.(Compatibility.struct_layout) = true /\ Q).

Lemma lowers_iff self self' P P' Q Q' : (P <-> P') -> (Q <-> Q') -> lowers self self' P Q -> lowers self self' P' Q'.
Proof. unfold lowers. tauto. Qed.

Lemma lowers_trans a b c P P' Q Q' : lowers a b P Q -> lowers b c P' Q' -> lowers a c (P /\ P') (Q /\ Q').
Proof. unfold lowers. tauto. Qed.

Lemma lowers_linking self (b : bool) (P : Prop) : (b = false <-> P) ->
  lowers self (if b then Compatibility.lower_linking self else self) P True.
Proof. destruct b; unfold lowers, Compatibility.lower_linking; cbn; naive_solver. Qed.

Lemma lowers_layout self (b : bool) (Q : Prop) : (b = false <-> Q) ->
  lowers self (if b then Compatibility.lower_layout self else self) True Q.
Proof. destruct b; unfold lowers, Compatibility.lower_layout; cbn; naive_solver. Qed.

(** A property of the entries of a list. *)
Lemma entries_cons {A B} (P : A -> B -> Prop) a b l :
  P a b /\ (forall x y, (x, y) ∈ l -> P x y) <-> forall x y, (x, y) ∈ (a, b) :: l -> P x y.
Proof.
  setoid_rewrite elem_of_cons. split; [by intros [H Hl] x y [[= -> ->]|?]; auto|]. intros H. split; [apply H; by left|auto].
Qed.

Section check.
Context (old new : NormalizedModule).

Lemma check_struct_ok self name s :
  lowers self (Compatibility.check_struct new self (name, s))
    (exists s', new.(NormalizedModule.structs) !! name = Some s' /\ struct_compatible s s')
    (forall s', new.(NormalizedModule.structs) !! name = Some s' -> s'.(Struct.fields) = s.(Struct.fields)).
Proof.
  cbn [Compatibility.check_struct]. destruct (NormalizedModule.structs new !! name) as [s'|].
  - eapply lowers_iff; [| |eapply lowers_trans; [apply lowers_linking|apply lowers_layout]].
    3: { rewrite orb_false_iff, !negb_false_iff. reflexivity. }
    3: { rewrite negb_false_iff, bool_decide_eq_true. reflexivity. }
    all: unfold struct_compatible; naive_solver.
  - unfold lowers, Compatibility.lower_linking. cbn. naive_solver.
Qed.

Lemma check_structs_ok self l :
  lowers self (foldl (Compatibility.check_struct new) self l)
    (forall name s, (name, s) ∈ l -> exists s', new.(NormalizedModule.structs) !! name = Some s' /\ struct_compatible s s')
    (forall name s, (name, s) ∈ l ->
      forall s', new.(NormalizedModule.structs) !! name = Some s' -> s'.(Struct.fields) = s.(Struct.fields)).
Proof.
  revert self. induction l as [|[name s] l IH]; intros self; cbn [foldl].
  - unfold lowers. setoid_rewrite elem_of_nil. naive_solver.
  - eapply lowers_iff; [apply entries_cons|apply entries_cons|]. eapply lowers_trans; [apply check_struct_ok|apply IH].
Qed.

Lemma check_function_ok self name f : NormalizedModule.is_exposed f.(Function_.visibility) = true ->
  exists self', Compatibility.check_function new (name, f) self = Ok self' /\
    lowers self self' (exists f', new.(NormalizedModule.exposed_functions) !! name = Some f' /\ function_compatible f f') True.
Proof.
  intros He. cbn [Compatibility.check_function]. destruct (NormalizedModule.exposed_functions new !! name) as [f'|].
  - destruct (is_vis_compatible_ok _ f'.(Function_.visibility) He) as (b & -> & Hb). cbn [mbind result_bind].
    eexists. split; [done|]. eapply lowers_iff; [|reflexivity|apply lowers_linking].
    2: { rewrite !orb_false_iff, !negb_false_iff, !bool_decide_eq_true, Hb. reflexivity. }
    unfold function_compatible. naive_solver.
  - eexists. split; [done|]. unfold lowers, Compatibility.lower_linking. cbn. naive_solver.
Qed.

Lemma check_functions_ok self l : (forall name f, (name, f) ∈ l -> NormalizedModule.is_exposed f.(Function_.visibility) = true) ->
  exists self', Context.fill (Compatibility.check_function new) l self = Ok self' /\
    lowers self self' (forall name f, (name, f) ∈ l ->
      exists f', new.(NormalizedModule.exposed_functions) !! name = Some f' /\ function_compatible f f') True.
Proof.
  revert self. induction l as [|[name f] l IH]; intros self Hl; cbn [Context.fill].
  - exists self. split; [done|]. unfold lowers. setoid_rewrite elem_of_nil. naive_solver.
  - destruct (check_function_ok self name f) as (self1 & -> & H1); [apply (Hl name); by left|]. cbn [mbind result_bind].
    destruct (IH self1) as (self' & -> & H2); [intros n g Hg; apply (Hl n); by right|]. exists self'. split; [done|].
    eapply lowers_iff; [apply entries_cons|by apply (and_True True)|]. eapply lowers_trans; [exact H1|exact H2].
Qed.

Lemma check_ok : (forall name f, old.(NormalizedModule.exposed_functions) !! name = Some f ->
    NormalizedModule.is_exposed f.(Function_.visibility) = true) ->
  exists c, Compatibility.check old new = Ok c /\
    (c.(Compatibility.struct_and_function_linking) = true <-> linking_compatible old new) /\
    (c.(Compatibility.struct_layout) = true <-> layout_compatible old new).
Proof.
  intros Hexp. unfold Compatibility.check.
  match goal with |- context [foldl _ (if ?b then _ else _)] => set (b0 := b) end.
  pose proof (lowers_linking (Compatibility.mk true true) b0 (NormalizedModule.module_id old = NormalizedModule.module_id new)) as H1.
  match goal with |- context [foldl ?f ?s ?l] => pose proof (check_structs_ok s l) as H2; set (s1 := foldl f s l) in * end.
  destruct (check_functions_ok s1 (map_to_list old.(NormalizedModule.exposed_functions))) as (s2 & -> & H3).
  { intros name f Hf%elem_of_map_to_list. by apply (Hexp name). }
  cbn [mbind result_bind]. eexists. split; [done|].
  match goal with |- context [if ?b then Compatibility.lower_linking s2 else _] =>
    pose proof (lowers_linking s2 b (forall id, id ∈ old.(NormalizedModule.friends) -> id ∈ new.(NormalizedModule.friends))) as H4 end.
  assert (b0 = false <-> NormalizedModule.module_id old = NormalizedModule.module_id new) as E1%H1.
  { unfold b0. rewrite orb_false_iff, !negb_false_iff, !bool_decide_eq_true. unfold NormalizedModule.module_id.
    split; [by intros [-> ->]|by intros [= ? ?]]. }
  match type of H4 with ?A -> _ => assert A as E4%H4 end.
  { rewrite negb_false_iff, bool_decide_eq_true. unfold subseteq, set_subseteq_instance. by setoid_rewrite elem_of_list_to_set. }
  destruct (lowers_trans _ _ _ _ _ _ _ (lowers_trans _ _ _ _ _ _ _ (lowers_trans _ _ _ _ _ _ _ E1 H2) H3) E4) as [E5 E6].
  rewrite E5, E6. clear.
cbn [Compatibility.struct_and_function_linking Compatibility.struct_layout].
  setoid_rewrite elem_of_map_to_list. unfold layout_compatible. split; [|naive_solver].
  split; [by intros (_ & ((? & ?) & ?) & ?); constructor|by intros []].
Qed.
End check.

(** * Normalized modules *)

Lemma map_res_elem {A B} (f : A -> result StatusCode B) l l' y :
  ModuleAccess.map_res f l = Ok l' -> y ∈ l' <-> exists x, x ∈ l /\ f x = Ok y.
Proof.
  revert l'. induction l as [|x l IH]; intros l' H; cbn [ModuleAccess.map_res] in H; inv_ok.
  - setoid_rewrite elem_of_nil. naive_solver.
  - setoid_rewrite elem_of_cons. rewrite IH by eassumption. split; [intros [->|(x' & ? & ?)]; eauto|].
    intros (x' & [->|?] & E); [left; congruence|eauto].
Qed.

Lemma map_res_total {A B} (f : A -> result StatusCode B) l l' : ModuleAccess.map_res f l = Ok l' ->
  forall x, x ∈ l -> exists y, f x = Ok y.
Proof.
  revert l'. induction l as [|x l IH]; intros l' H; cbn [ModuleAccess.map_res] in H; inv_ok; [by intros x ?%elem_of_nil|].
  intros y [->|Hy]%elem_of_cons; eauto.
Qed.

Lemma map_res_ext {A B} (f g : A -> result StatusCode B) l : (forall x, x ∈ l -> f x = g x) ->
  ModuleAccess.map_res f l = ModuleAccess.map_res g l.
Proof.
  induction l as [|x l IH]; intros H; cbn [ModuleAccess.map_res]; [done|]. rewrite (H x) by (by left). by rewrite IH by (intros; apply H; by right).
Qed.

Lemma collect_lookup {V} (l : list (Identifier * V)) k w :
  (forall k w w', (k, w) ∈ l -> (k, w') ∈ l -> w = w') -> NormalizedModule.collect l !! k = Some w <-> (k, w) ∈ l.
Proof.
  intros Hl. unfold NormalizedModule.collect.
  assert (foldl (fun m '(k, v) => <[k := v]> m) (∅ : gmap Identifier V) l = foldl (fun m p => <[p.1 := p.2]> m) ∅ l) as ->.
  { generalize (∅ : gmap Identifier V). induction l as [|[k' w'] l IH]; intros g; [done|]. apply IH.
    intros k1 w1 w2 H1 H2. apply (Hl k1); by right. }
  rewrite foldl_insert_lookup.
  - rewrite lookup_empty. split; [|by left; exists (k, w)]. intros [([k' w'] & Hin & <- & <-)|[_ [=]]]. done.
  - intros [k1 w1] [k2 w2] H1 H2 [= <-]. by apply (Hl k1).
Qed.

(** What is in a normalized declaration. *)
Definition normal_struct (h : StructHandle) (s : NormalizedStruct) : Prop :=
  s.(Struct.abilities) = h.(StructHandle.abilities) /\ s.(Struct.type_parameters) = h.(StructHandle.type_parameters).

Definition normal_function (m : CompiledModule) (def : FunctionDefinition) (h : FunctionHandle) (f : NormalizedFunction) : Prop :=
  f.(Function_.visibility) = def.(FunctionDefinition.visibility) /\
  f.(Function_.type_parameters) = h.(FunctionHandle.type_parameters) /\
  exists ps rs, signatures (Module_ m) !! into_index h.(FunctionHandle.parameters) = Some ps /\
    signatures (Module_ m) !! into_index h.(FunctionHandle.return_) = Some rs /\
    ModuleAccess.map_res (view_type (Module_ m)) ps = Ok f.(Function_.parameters) /\
    ModuleAccess.map_res (view_type (Module_ m)) rs = Ok f.(Function_.return_).

(** The types of a signature of a module in bounds. *)
Lemma types_new_view m i sig : in_bounds (Module_ m) -> m.(CompiledModule.signatures) !! i = Some sig ->
  ModuleAccess.map_res (Type_.new m) sig = ModuleAccess.map_res (view_type (Module_ m)) sig.
Proof.
  intros Hin Hs. apply map_res_ext. intros t Ht. apply type_new_view; [done|].
  exact (forall_in _ _ _ (forall_lookup _ _ _ _ (signatures_in _ Hin) Hs) Ht).
Qed.

Section normalized.
Context (m : CompiledModule) (o : NormalizedModule).
Hypothesis (Hm : checked_unit (Module_ m)) (Ho : NormalizedModule.new m = Ok o).
Abbreviation exposed_defs := (List.filter (fun func_def => NormalizedModule.is_exposed func_def.(FunctionDefinition.visibility))
  m.(CompiledModule.function_defs)).

Lemma normalized_parts : exists structs funcs,
  ModuleAccess.immediate_friends m = Ok o.(NormalizedModule.friends) /\
  ModuleAccess.map_res (Struct.new m) m.(CompiledModule.struct_defs) = Ok structs /\
  ModuleAccess.map_res (Function_.new m) exposed_defs = Ok funcs /\
  ModuleAccess.self_id m = Ok (NormalizedModule.module_id o) /\
  o.(NormalizedModule.structs) = NormalizedModule.collect structs /\
  o.(NormalizedModule.exposed_functions) = NormalizedModule.collect funcs.
Proof using Ho.
  unfold NormalizedModule.new in Ho. inv_ok. do 2 eexists. split_and!; try done.
  unfold ModuleAccess.self_id, ModuleAccess.address, ModuleAccess.name, ModuleAccess.module_id_for_handle in *. inv_ok.
  same_ok. repeat match goal with H : ?a = Ok _ |- context [?a] => rewrite H; cbn [mbind result_bind] end. done.
Qed.

Lemma struct_new_ok def name s : def ∈ m.(CompiledModule.struct_defs) -> Struct.new m def = Ok (name, s) ->
  exists h, declares_struct m name def h /\ normal_struct h s.
Proof using Hm.
  intros Hdef H. destruct (struct_def_named m Hm def Hdef) as (name' & h & Hdecl).
  destruct (declares_struct_at m Hm _ _ _ Hdecl) as [Eh En]. exists h. unfold Struct.new in H. rewrite Eh in H. cbn [mbind result_bind] in H.
  inv_ok. rewrite En in *. match goal with H : Ok name' = Ok _ |- _ => injection H as <- end. done.
Qed.

Lemma function_new_ok def name f : def ∈ m.(CompiledModule.function_defs) -> Function_.new m def = Ok (name, f) ->
  exists h, declares_function m name def h /\ normal_function m def h f.
Proof using Hm.
  intros Hdef H. destruct (function_def_named m Hm def Hdef) as (name' & h & Hdecl).
  destruct (declares_function_at m Hm _ _ _ Hdecl) as [Eh En]. exists h. unfold Function_.new in H. rewrite Eh in H. cbn [mbind result_bind] in H.
  rewrite En in H. cbn [mbind result_bind] in H. inv_ok. split; [done|]. split; [done|]. split; [done|].
  repeat match goal with H : ModuleAccess.signature_at m _ = Ok ?x |- _ => apply index_ok in H end.
  do 2 eexists. split_and!; try done; cbn; (erewrite <- types_new_view; [done|by apply checked_unit_in|done]).
Qed.

Lemma normalized_structs name : (forall s, o.(NormalizedModule.structs) !! name = Some s ->
    exists def h, declares_struct m name def h /\ normal_struct h s) /\
  (forall def h, declares_struct m name def h -> exists s, o.(NormalizedModule.structs) !! name = Some s /\ normal_struct h s).
Proof using Hm Ho.
  destruct normalized_parts as (structs & funcs & _ & Hs & _ & _ & -> & _).
  assert (forall s, NormalizedModule.collect structs !! name = Some s <-> (name, s) ∈ structs) as E.
  { intros s. apply collect_lookup. intros k w w' H1 H2.
    apply (map_res_elem _ _ _ _ Hs) in H1 as (x & Hx & Ex). apply (map_res_elem _ _ _ _ Hs) in H2 as (y & Hy & Ey).
    destruct (struct_new_ok _ _ _ Hx Ex) as (h & Hdx & _), (struct_new_ok _ _ _ Hy Ey) as (h' & Hdy & _).
    destruct (declares_struct_unique m Hm _ _ _ _ _ Hdx Hdy) as [<- _]. rewrite Ex in Ey. by injection Ey. }
  split.
  - intros s [def [Hdef Hnew]]%E%(map_res_elem _ _ _ _ Hs). destruct (struct_new_ok _ _ _ Hdef Hnew) as (h & H & H'). eauto.
  - intros def h Hdecl. destruct (map_res_total _ _ _ Hs _ (proj1 Hdecl)) as [[name' s] Hnew].
    destruct (struct_new_ok _ _ _ (proj1 Hdecl) Hnew) as (h' & (_ & Eh & En) & H'). destruct Hdecl as (Hdef & Eh2 & En2).
    pose proof (eq_trans (eq_sym Eh) Eh2) as [= ->]. pose proof (eq_trans (eq_sym En) En2) as [= ->].
    exists s. split; [|done]. apply E, (map_res_elem _ _ _ _ Hs). eauto.
Qed.

Lemma normalized_functions name : (forall f, o.(NormalizedModule.exposed_functions) !! name = Some f ->
    exists def h, declares_function m name def h /\ NormalizedModule.is_exposed def.(FunctionDefinition.visibility) = true /\
      normal_function m def h f) /\
  (forall def h, declares_function m name def h -> NormalizedModule.is_exposed def.(FunctionDefinition.visibility) = true ->
    exists f, o.(NormalizedModule.exposed_functions) !! name = Some f /\ normal_function m def h f).
Proof using Hm Ho.
  destruct normalized_parts as (structs & funcs & _ & _ & Hs & _ & _ & ->).
  assert (forall def, def ∈ exposed_defs <-> def ∈ m.(CompiledModule.function_defs) /\
    NormalizedModule.is_exposed def.(FunctionDefinition.visibility) = true) as Hexp.
  { intros def. by rewrite !list_elem_of_In, filter_In. }
  assert (forall s, NormalizedModule.collect funcs !! name = Some s <-> (name, s) ∈ funcs) as E.
  { intros s. apply collect_lookup. intros k w w' H1 H2.
    apply (map_res_elem _ _ _ _ Hs) in H1 as (x & [Hx _]%Hexp & Ex). apply (map_res_elem _ _ _ _ Hs) in H2 as (y & [Hy _]%Hexp & Ey).
    destruct (function_new_ok _ _ _ Hx Ex) as (h & Hdx & _), (function_new_ok _ _ _ Hy Ey) as (h' & Hdy & _).
    destruct (declares_function_unique m Hm _ _ _ _ _ Hdx Hdy) as [<- _]. rewrite Ex in Ey. by injection Ey. }
  split.
  - intros s [def [[Hdef Hv]%Hexp Hnew]]%E%(map_res_elem _ _ _ _ Hs). destruct (function_new_ok _ _ _ Hdef Hnew) as (h & H & H'). eauto 6.
  - intros def h Hdecl Hv. assert (def ∈ exposed_defs) as Hdef' by (apply Hexp; by split; [apply Hdecl|]).
    destruct (map_res_total _ _ _ Hs _ Hdef') as [[name' s] Hnew].
    destruct (function_new_ok _ _ _ (proj1 Hdecl) Hnew) as (h' & (_ & Eh & En) & H'). destruct Hdecl as (Hdef & Eh2 & En2).
    pose proof (eq_trans (eq_sym Eh) Eh2) as [= ->]. pose proof (eq_trans (eq_sym En) En2) as [= ->].
    exists s. split; [|done]. apply E, (map_res_elem _ _ _ _ Hs). eauto.
Qed.
End normalized.

(** * Normalization is defined *)

Definition no_native_struct (m : CompiledModule) : Prop :=
  forall def, def ∈ m.(CompiledModule.struct_defs) -> def.(StructDefinition.field_information) <> Native.

Lemma map_res_all {A B} (f : A -> result StatusCode B) l : (forall x, x ∈ l -> exists y, f x = Ok y) ->
  exists ys, ModuleAccess.map_res f l = Ok ys.
Proof.
  intros Hf. apply (map_res_ok f (fun x => x ∈ l)); [done|]. apply list.Forall_forall. done.
Qed.

Section total.
Context (m : CompiledModule) (Hm : checked_unit (Module_ m)).
Let Hin : in_bounds (Module_ m) := checked_unit_in _ Hm.

Lemma type_new_ok t : type_ok (Module_ m) t -> exists T, Type_.new m t = Ok T.
Proof using Hm. intros Ht. rewrite type_new_view by done. by apply view_type_ok. Qed.

Lemma struct_new_total def : def ∈ m.(CompiledModule.struct_defs) -> def.(StructDefinition.field_information) <> Native ->
  exists r, Struct.new m def = Ok r.
Proof using Hm.
  intros Hdef Hn. destruct (struct_def_named m Hm def Hdef) as (name & h & Hdecl).
  destruct (declares_struct_at m Hm _ _ _ Hdecl) as [Eh En]. unfold Struct.new. rewrite Eh. cbn [mbind result_bind].
  destruct (StructDefinition.field_information def) as [|fields] eqn:Ef; [done|].
  assert (exists fs, ModuleAccess.map_res (Field.new m) fields = Ok fs) as [fs ->].
  { destruct (forall_in _ _ _ (struct_defs_in _ Hin) Hdef) as (sh & _ & Hfields). specialize (Hfields fields Ef).
    apply map_res_all. intros f Hf. destruct (forall_in _ _ _ Hfields Hf) as ([n Hnm]%view_identifier_at & [T HT]%type_new_ok & _).
    unfold Field.new. cbn in Hnm. rewrite Hnm. cbn [mbind result_bind]. rewrite HT. by eexists. }
  cbn [mbind result_bind]. rewrite En. by eexists.
Qed.

Lemma function_new_total def : def ∈ m.(CompiledModule.function_defs) -> exists r, Function_.new m def = Ok r.
Proof using Hm.
  intros Hdef. destruct (function_def_named m Hm def Hdef) as (name & h & Hdecl).
  destruct (declares_function_at m Hm _ _ _ Hdecl) as [Eh En]. unfold Function_.new. rewrite Eh. cbn [mbind result_bind].
  rewrite En. cbn [mbind result_bind]. destruct Hdecl as (_ & Hh & _).
  destruct (forall_lookup _ _ _ _ (function_handles_in _ Hin) Hh) as (_ & _ & [ps Hps]%idx_ok_lookup & [rs Hrs]%idx_ok_lookup & _).
  assert (forall i sig, m.(CompiledModule.signatures) !! into_index i = Some sig ->
    ModuleAccess.signature_at m i = Ok sig /\ exists Ts, ModuleAccess.map_res (Type_.new m) sig = Ok Ts) as Hsig.
  { intros i sig Hs. split; [by apply index_ok|]. apply map_res_all. intros t Ht. apply type_new_ok.
    exact (forall_in _ _ _ (forall_lookup _ _ _ _ (signatures_in _ Hin) Hs) Ht). }
  destruct (Hsig _ _ Hps) as [-> [Ts HTs]], (Hsig _ _ Hrs) as [Er [Us HUs]]. cbn [mbind result_bind]. rewrite HTs.
  cbn [mbind result_bind]. rewrite Er. cbn [mbind result_bind]. rewrite HUs. by eexists.
Qed.

Lemma normalized_total : no_native_struct m -> exists o, NormalizedModule.new m = Ok o.
Proof using Hm.
  intros Hn. unfold NormalizedModule.new. destruct (immediate_friends_ok m Hm) as [fr ->]. cbn [mbind result_bind].
  destruct (map_res_all (Struct.new m) m.(CompiledModule.struct_defs)) as [ss ->]; [intros d Hd; apply struct_new_total; [done|by apply Hn]|].
  cbn [mbind result_bind].
  destruct (map_res_all (Function_.new m) (List.filter (fun func_def =>
    NormalizedModule.is_exposed func_def.(FunctionDefinition.visibility)) m.(CompiledModule.function_defs))) as [fs ->].
  { intros d Hd. apply function_new_total. apply list_elem_of_In, filter_In in Hd as [Hd _]. by apply list_elem_of_In. }
  cbn [mbind result_bind]. destruct (self_handle_ok m Hin) as (h & Eh & Hh). destruct (module_id_ok m h Hh) as [[a n] Eid].
  unfold ModuleAccess.module_id_for_handle in Eid. inv_ok. unfold ModuleAccess.address, ModuleAccess.name. rewrite Eh. cbn [mbind result_bind].
  repeat match goal with H : ?a = Ok _ |- context [?a] => rewrite H; cbn [mbind result_bind] end. by eexists.
Qed.
End total.

Import BinaryIndexedView.

(** * Compatibility composes *)

#[export] Instance is_subset_transitive : Transitive (fun a b => AbilitySet.is_subset a b = true).
Proof.
  intros a b c. unfold AbilitySet.is_subset, AbilitySet.is_subset_bits. rewrite !Z.eqb_eq. intros H H'.
  rewrite <- H at 1. by rewrite <- Z.land_assoc, H'.
Qed.

(** Two lists compared element by element. *)
Lemma zip_forall {A} (f : A -> A -> bool) l k :
  Nat.eqb (length l) (length k) && forallb (fun '(x, y) => f x y) (zip l k) = true <-> Forall2 (fun x y => f x y = true) l k.
Proof.
  rewrite andb_true_iff, Nat.eqb_eq. revert k. induction l as [|x l IH]; intros [|y k]; cbn; try (split; [by intros []|by inversion 1]).
  rewrite Forall2_cons_iff, <- IH, andb_true_iff. naive_solver.
Qed.

Lemma fun_parameters_trans a b c :
  Dependencies.compatible_fun_type_parameters a b = true -> Compatibility.fun_type_parameters_compatibile b c = true ->
  Dependencies.compatible_fun_type_parameters a c = true.
Proof.
  intros H%zip_forall H'%zip_forall. apply zip_forall. eapply list.Forall2_trans; [|exact H|exact H'].
  intros x y z Hx Hy. exact (is_subset_transitive _ _ _ Hy Hx).
Qed.

Lemma struct_parameters_trans a b c :
  Dependencies.compatible_struct_type_parameters a b = true -> Compatibility.struct_type_parameters_compatibile b c = true ->
  Dependencies.compatible_struct_type_parameters a c = true.
Proof.
  intros H%zip_forall H'%zip_forall. apply zip_forall. eapply list.Forall2_trans; [|exact H|exact H'].
  intros x y z [Hp Hx]%andb_true_iff [Hp' Hy]%andb_true_iff. apply andb_true_iff. split; [|exact (is_subset_transitive _ _ _ Hy Hx)].
  unfold Dependencies.compatible_type_parameter_phantom_decl, Compatibility.type_parameter_phantom_decl_compatibile in *.
  by destruct (StructTypeParameter.is_phantom x), (StructTypeParameter.is_phantom y).
Qed.

(** * Upgrades *)

Section upgrade.
Context (v : BinaryIndexedView) (deps : list CompiledModule) (i : nat) (old new : CompiledModule) (o n : NormalizedModule).
Hypothesis (Hv : checked_unit v) (Hdeps : checked_dependencies deps) (Hold : deps !! i = Some old).
Hypothesis (Hnew : checked_unit (Module_ new)) (Ho : NormalizedModule.new old = Ok o) (Hn : NormalizedModule.new new = Ok n).
Hypothesis Hcompat : linking_compatible o n.
Abbreviation deps' := (<[i := new]> deps).

Lemma old_checked : checked_unit (Module_ old).
Proof using Hdeps Hold. eapply dependencies_checked; [done|]. by eapply list_elem_of_lookup_2. Qed.

Lemma same_self_id : ModuleAccess.self_id old = ModuleAccess.self_id new.
Proof using Ho Hn Hcompat.
  destruct (normalized_parts _ _ Ho) as (? & ? & _ & _ & _ & -> & _), (normalized_parts _ _ Hn) as (? & ? & _ & _ & _ & -> & _).
  by rewrite (same_name _ _ Hcompat).
Qed.

(** The module that a dependency has become. *)
Definition upgraded (d d' : CompiledModule) : Prop := d' = d \/ d = old /\ d' = new.

Lemma upgraded_dependency id d : dependency v deps id d -> exists d', upgraded d d' /\ dependency v deps' id d'.
Proof using Ho Hn Hcompat Hold.
  intros ([j Hj]%list_elem_of_lookup & Hid & Hself). pose proof (lookup_lt_Some _ _ _ Hold) as Hi. destruct (decide (i = j)) as [<-|Hne].
  - assert (d = old) as -> by congruence. exists new. split; [by right|]. split; [|by rewrite <- same_self_id].
    eapply list_elem_of_lookup_2. by apply list_lookup_insert_eq.
  - exists d. split; [by left|]. split; [|done]. eapply list_elem_of_lookup_2. rewrite list_lookup_insert_ne by done. exact Hj.
Qed.

Lemma dependency_upgraded id d' : dependency v deps' id d' -> exists d, upgraded d d' /\ dependency v deps id d.
Proof using Ho Hn Hcompat Hold.
  intros ([j Hj]%list_elem_of_lookup & Hid & Hself). pose proof (lookup_lt_Some _ _ _ Hold) as Hi. destruct (decide (i = j)) as [<-|Hne].
  - rewrite list_lookup_insert_eq in Hj by done. injection Hj as <-. exists old. split; [by right|].
    split; [by eapply list_elem_of_lookup_2|by rewrite same_self_id].
  - exists d'. split; [by left|]. split; [|done]. rewrite list_lookup_insert_ne in Hj by done. by eapply list_elem_of_lookup_2.
Qed.

Lemma upgraded_names idx d : names v deps idx d -> exists d', upgraded d d' /\ names v deps' idx d'.
Proof using Ho Hn Hcompat Hold.
  intros (id & Hid & (d' & Hu & Hd)%upgraded_dependency). exists d'. split; [done|]. by exists id.
Qed.

(** A struct of the old module is in the new one. *)
Lemma struct_kept name def h : declares_struct old name def h -> exists def' h', declares_struct new name def' h' /\
  AbilitySet.is_subset h.(StructHandle.abilities) h'.(StructHandle.abilities) = true /\
  Compatibility.struct_type_parameters_compatibile h.(StructHandle.type_parameters) h'.(StructHandle.type_parameters) = true.
Proof using Ho Hn Hcompat Hnew Hdeps Hold.
  intros Hdecl. destruct (proj2 (normalized_structs _ _ old_checked Ho name) _ _ Hdecl) as (s & Hs & Ha & Hp).
  destruct (structs_kept _ _ Hcompat _ _ Hs) as (s' & Hs' & Hsa & Hsp).
  destruct (proj1 (normalized_structs _ _ Hnew Hn name) _ Hs') as (def' & h' & Hdecl' & Ha' & Hp').
  exists def', h'. by rewrite <- Ha, <- Ha', <- Hp, <- Hp'.
Qed.

(** A function of the old module that others may call is in the new one. *)
Lemma function_kept name def h : declares_function old name def h ->
  NormalizedModule.is_exposed def.(FunctionDefinition.visibility) = true ->
  exists f f' def' h', declares_function new name def' h' /\ normal_function old def h f /\ normal_function new def' h' f' /\
    function_compatible f f'.
Proof using Ho Hn Hcompat Hnew Hdeps Hold.
  intros Hdecl Hexp. destruct (proj2 (normalized_functions _ _ old_checked Ho name) _ _ Hdecl Hexp) as (f & Hf & Hnf).
  destruct (functions_kept _ _ Hcompat _ _ Hf) as (f' & Hf' & Hc).
  destruct (proj1 (normalized_functions _ _ Hnew Hn name) _ Hf') as (def' & h' & Hdecl' & _ & Hnf'). by exists f, f', def', h'.
Qed.

Lemma callable_exposed d vis : callable v d vis -> NormalizedModule.is_exposed vis = true.
Proof using. by destruct vis. Qed.

Lemma callable_kept vis vis' : callable v old vis -> vis_compatible vis vis' -> callable v new vis'.
Proof using Ho Hn Hcompat.
  destruct vis; cbn; [done|by intros _ ->..|].
  intros (id & fr & Hid & Hfr & Hin) [->| ->]; [done|].
  destruct (normalized_parts _ _ Ho) as (? & ? & Hfo & _), (normalized_parts _ _ Hn) as (? & ? & Hfn & _).
  rewrite Hfr in Hfo. injection Hfo as ->. exists id, n.(NormalizedModule.friends). split_and!; try done. by apply (friends_kept _ _ Hcompat).
Qed.

Lemma struct_links_kept h : struct_links v deps h -> struct_links v deps' h.
Proof using Ho Hn Hcompat Hnew Hdeps Hold.
  intros (d & name & def & dh & (d' & [->|[-> ->]] & Hd')%upgraded_names & Hname & Hdecl & Ha & Hp).
  - by exists d, name, def, dh.
  - destruct (struct_kept _ _ _ Hdecl) as (def' & dh' & Hdecl' & Ha' & Hp'). exists new, name, def', dh'. split_and!; try done.
    + exact (is_subset_transitive _ _ _ Ha Ha').
    + by eapply struct_parameters_trans.
Qed.

(** The types of a function that is kept. *)
Lemma same_types_kept sig dsig dsig' Ts : same_types v (Module_ old) sig dsig ->
  ModuleAccess.map_res (view_type (Module_ old)) dsig = Ok Ts -> ModuleAccess.map_res (view_type (Module_ new)) dsig' = Ok Ts ->
  same_types v (Module_ new) sig dsig'.
Proof using. intros (Us & H & H') E E'. rewrite E in H'. injection H' as ->. by exists Us. Qed.

Lemma function_links_kept h : function_links v deps h -> function_links v deps' h.
Proof using Ho Hn Hcompat Hnew Hdeps Hold.
  intros (d & name & def & dh & ps & dps & rs & drs & (d' & [->|[-> ->]] & Hd')%upgraded_names & Hname & Hdecl & Hcall & Hp & H1 & H2 & H3 & H4 & H5 & H6).
  - by exists d, name, def, dh, ps, dps, rs, drs.
  - destruct (function_kept _ _ _ Hdecl (callable_exposed _ _ Hcall)) as (f & f' & def' & dh' & Hdecl' & Hf & Hf' & Hvis & Eps & Ers & Htp).
    destruct Hf as (Ev & Et & ps1 & rs1 & Hps1 & Hrs1 & Tps & Trs), Hf' as (Ev' & Et' & ps2 & rs2 & Hps2 & Hrs2 & Tps' & Trs').
    pose proof (eq_trans (eq_sym H2) Hps1) as [= <-]. pose proof (eq_trans (eq_sym H5) Hrs1) as [= <-].
    rewrite Ev, Ev' in Hvis. rewrite Et, Et' in Htp. rewrite <- Eps in Tps'. rewrite <- Ers in Trs'.
    exists new, name, def', dh', ps, ps2, rs, rs2. split_and!; try done.
    + by eapply callable_kept.
    + by eapply fun_parameters_trans.
    + exact (same_types_kept _ _ _ _ H3 Tps Tps').
    + exact (same_types_kept _ _ _ _ H6 Trs Trs').
Qed.

(** A function that is a script function now was one before. *)
Lemma script_before fh : links v deps -> has_visibility v deps' fh Visibility.Script -> has_visibility v deps fh Visibility.Script.
Proof using Ho Hn Hcompat Hnew Hdeps Hold.
  intros Hlinks [H|(h & d' & name & def & dh & Hh & Hforeign & (id & Hid & (d & [->|[-> ->]] & Hd)%dependency_upgraded) & Hname & Hdecl & Hvis)];
    [by left|right|right].
  - exists h, d, name, def, dh. split_and!; try done. by exists id.
  - destruct (link_functions _ _ Hlinks h) as (d2 & name2 & def2 & dh2 & ? & ? & ? & ? & Hnames & Hname2 & Hdecl2 & Hcall & _);
      [by eapply list_elem_of_lookup_2|done|].
    assert (name2 = name) as -> by congruence. destruct (names_unique v deps Hdeps _ _ _ (ex_intro _ id (conj Hid Hd)) Hnames).
    destruct (function_kept _ _ _ Hdecl2 (callable_exposed _ _ Hcall)) as (f & f' & def' & dh' & Hdecl' & Hf & Hf' & Hv' & _).
    destruct (declares_function_unique new Hnew _ _ _ _ _ Hdecl Hdecl') as [<- <-]. destruct Hf as (Ev & _), Hf' as (Ev' & _).
    rewrite Ev, Ev', Hvis in Hv'. exists h, old, name, def2, dh2. split_and!; try done.
    by destruct (FunctionDefinition.visibility def2) eqn:E2; cbn in *; first [done|destruct Hv'].
Qed.

Lemma upgraded_checked : NoDup deps -> checked_dependencies deps'.
Proof using Ho Hn Hcompat Hnew Hdeps Hold.
  intros Hnd. pose proof (lookup_lt_Some _ _ _ Hold) as Hi.
  assert (forall j d, deps' !! j = Some d -> exists e, deps !! j = Some e /\ ModuleAccess.self_id e = ModuleAccess.self_id d /\
    (d = e /\ i <> j \/ d = new /\ i = j)) as Hget.
  { intros j d Hj. destruct (decide (i = j)) as [<-|Hne].
    - rewrite list_lookup_insert_eq in Hj by done. injection Hj as <-. exists old. split; [done|]. split; [apply same_self_id|by right].
    - rewrite list_lookup_insert_ne in Hj by done. exists d. split; [done|]. split; [done|by left]. }
  split.
  - intros d [j (e & He & _ & [[-> _]|[-> _]])%Hget]%list_elem_of_lookup; [|done]. eapply dependencies_checked; [done|]. by eapply list_elem_of_lookup_2.
  - intros d d' id [j (e & He & E & Hd)%Hget]%list_elem_of_lookup [k (e' & He' & E' & Hd')%Hget]%list_elem_of_lookup Hid Hid'.
    assert (e = e') as <-. { apply (dependencies_distinct _ Hdeps _ _ id); [by eapply list_elem_of_lookup_2..|congruence|congruence]. }
    assert (j = k) as <- by (by eapply (NoDup_lookup deps)). destruct Hd as [[-> ?]|[-> ?]], Hd' as [[-> ?]|[-> ?]]; done.
Qed.

Lemma links_kept : links v deps -> links v deps'.
Proof using Ho Hn Hcompat Hnew Hdeps Hold.
  intros Hlinks. constructor.
  - intros idx Hz Hidx Hf. destruct (link_modules _ _ Hlinks idx Hz Hidx Hf) as (d & (d' & _ & Hd)%upgraded_names). by exists d'.
  - intros h Hh Hf. by apply struct_links_kept, (link_structs _ _ Hlinks).
  - intros h Hh Hf. by apply function_links_kept, (link_functions _ _ Hlinks).
  - intros vis code instr fh Hb Hi Ht Hs. apply (link_calls _ _ Hlinks vis code instr fh Hb Hi Ht). by apply script_before.
Qed.
End upgrade.

Import BinaryIndexedView.

(** * Linking *)

(** C16: linking, decided.  On every module that the bounds and duplication checkers accept,
    with such dependencies of different names and at most 2^16 handles, the dependency
    checker returns, and it accepts exactly the modules that link: each module they name is
    one of the dependencies, each struct and function they take from one is declared there
    with abilities, type parameters and types (compared by their full names) that allow the
    use, may be called from the module, and no function but a script function calls a
    script function.  The same holds of scripts. *)
Theorem dependencies_exact (v : BinaryIndexedView) (deps : list CompiledModule) :
  checked_unit v -> checked_dependencies deps ->
  zlen (module_handles v) <= 2 ^ 16 -> zlen (function_handles v) <= 2 ^ 16 ->
  let verify := match v with
                | Module_ m => Dependencies.verify_module_impl m deps
                | Script_ s => Dependencies.verify_script_impl s deps
                end in
  safe verify /\ (verify = Ok () <-> links v deps).
Proof. apply verify_unit_ok. Qed.

Lemma dependencies_exact_witness : links (Module_ client) [library] /\ ~ links (Module_ client) [].
Proof.
  split.
  - apply (dependencies_exact (Module_ client) [library] client_checked (checked_one _ library_checked));
      vm_compute; done.
  - intros H. apply (dependencies_exact (Module_ client) []) in H; [vm_compute in H; discriminate H|apply client_checked| |vm_compute; done..].
    split; intros d; [intros Hd|intros d' id Hd]; by apply elem_of_nil in Hd.
Defined.

(** * Upgrades *)

(** C17: compatibility, decided.  The normalized forms of two modules that the bounds and
    duplication checkers accept, without native structs, are defined; their check returns;
    its first flag says exactly that the new module has the old name and friends, a
    declaration for each old struct that allows all its uses, and for each old function
    that others may call one with the same types that all its callers may call; and its
    second flag says exactly that the structs of both modules have the same fields. *)
Theorem compatibility_exact (old new : CompiledModule) :
  checked_unit (Module_ old) -> checked_unit (Module_ new) -> no_native_struct old -> no_native_struct new ->
  exists o n c, NormalizedModule.new old = Ok o /\ NormalizedModule.new new = Ok n /\ Compatibility.check o n = Ok c /\
    (c.(Compatibility.struct_and_function_linking) = true <-> linking_compatible o n) /\
    (c.(Compatibility.struct_layout) = true <-> layout_compatible o n).
Proof.
  intros Hold Hnew (o & Ho)%(normalized_total _ Hold) (n & Hn)%(normalized_total _ Hnew). exists o, n.
  destruct (check_ok o n) as (c & Hc & H); [|by exists c].
  intros name f Hf. destruct (proj1 (normalized_functions _ _ Hold Ho name) _ Hf) as (def & h & _ & Hexp & Hvis & _).
  by rewrite Hvis.
Qed.

Lemma compatibility_exact_witness : exists o n, NormalizedModule.new library = Ok o /\
  NormalizedModule.new library_upgrade = Ok n /\ linking_compatible o n /\ ~ linking_compatible n o.
Proof.
  destruct (compatibility_exact library library_upgrade library_checked library_upgrade_checked) as (o & n & c & Ho & Hn & Hc & Hl & _);
    [by intros d ->%list_elem_of_singleton|by intros d ->%list_elem_of_singleton|].
  destruct (compatibility_exact library_upgrade library library_upgrade_checked library_checked) as (o' & n' & c' & Ho' & Hn' & Hc' & Hl' & _);
    [by intros d ->%list_elem_of_singleton|by intros d ->%list_elem_of_singleton|].
  exists o, n. split; [exact Ho|]. split; [exact Hn|].
  vm_compute in Ho, Hn, Ho', Hn'. injection Ho as <-. injection Hn as <-. injection Ho' as <-. injection Hn' as <-.
  vm_compute in Hc, Hc'. injection Hc as <-. injection Hc' as <-. split; [apply Hl; reflexivity|].
  intros H. apply Hl' in H. discriminate H.
Defined.

(** C9: an upgrade that the compatibility check allows breaks no dependent.  If a unit passes
    the dependency checker and one of its dependencies is replaced by a module that the
    checkers accept and of which [Compatibility::check] says that struct and function linking
    is preserved, then the unit passes the dependency checker with the new module. *)
Theorem upgrade_preserves_linking (v : BinaryIndexedView) (deps : list CompiledModule) (i : nat)
    (old new : CompiledModule) (o n : NormalizedModule) (c : Compatibility) :
  checked_unit v -> checked_dependencies deps -> NoDup deps ->
  zlen (module_handles v) <= 2 ^ 16 -> zlen (function_handles v) <= 2 ^ 16 ->
  deps !! i = Some old -> checked_unit (Module_ new) ->
  NormalizedModule.new old = Ok o -> NormalizedModule.new new = Ok n ->
  Compatibility.check o n = Ok c -> c.(Compatibility.struct_and_function_linking) = true ->
  verify_unit v deps = Ok () -> verify_unit v (<[i := new]> deps) = Ok ().
Proof.
  intros Hv Hdeps Hnd Hm Hf Hold Hnew Ho Hn Hc Hl Hlinks%verify_unit_ok; [|done..].
  pose proof (old_checked deps i old Hdeps Hold) as Hco.
  assert (linking_compatible o n) as Hcompat.
  { destruct (check_ok o n) as (c' & Hc' & H & _); [|by rewrite Hc in Hc'; injection Hc' as <-; apply H].
    intros name f Hfn. destruct (proj1 (normalized_functions _ _ Hco Ho name) _ Hfn) as (def & h & _ & Hexp & Hvis & _).
    by rewrite Hvis. }
  apply verify_unit_ok; [done| |done..|].
  - by eapply upgraded_checked.
  - by eapply links_kept.
Qed.

Lemma upgrade_preserves_linking_witness : verify_unit (Module_ client) [library_upgrade] = Ok ().
Proof.
  destruct (NormalizedModule.new library) as [o| | |] eqn:Ho; [|discriminate Ho..].
  destruct (NormalizedModule.new library_upgrade) as [n| | |] eqn:Hn; [|discriminate Hn..].
  destruct (Compatibility.check o n) as [c| | |] eqn:Hc;
    [|vm_compute in Ho, Hn; injection Ho as <-; injection Hn as <-; vm_compute in Hc; discriminate Hc..].
  apply (upgrade_preserves_linking (Module_ client) [library] 0 library library_upgrade o n c client_checked
    (checked_one _ library_checked)); [apply NoDup_singleton|vm_compute; discriminate|vm_compute; discriminate|reflexivity
    |exact library_upgrade_checked|exact Ho|exact Hn|exact Hc| |vm_compute; reflexivity].
  vm_compute in Ho, Hn. injection Ho as <-. injection Hn as <-. vm_compute in Hc. injection Hc as <-. reflexivity.
Defined.
