(* ===== verification/VmValues.v ===== *)
(** The values of the virtual machine: move-vm/types/src/values/values_impl.rs, with the
    types of loaded_data/runtime_types.rs.

    Containers live in [Rc<RefCell<..>>] and are shared by references.  The store maps the
    address of each reference-counted box to its strong count and contents; cloning and
    dropping a pointer are explicit.  An operation that takes its argument by value drops
    it before it returns.  After an error nothing is dropped, since an error ends the
    execution and the store with it.  The types of the pointers rule out that a box has
    contents of another kind, or is gone; the model panics there. *)
From stdpp Require Import gmap.
From S2P Require Import Prelude StatusCode Abilities Identifier FileFormat Access.

(** [PartialVMError]: the message, the execution state, indices and offsets are not recorded. *)
Record PartialVMError : Set := mk_error { major_status : StatusCode; sub_status : option Z }.
Definition vm_error (status : StatusCode) : PartialVMError := mk_error status None.

(** * Runtime types *)

Module RuntimeType.
Definition TYPE_DEPTH_MAX : Z := 256.

Inductive Type_ : Set :=
| Bool | U8 | U64 | U128 | Address | Signer
| Vector (ty : Type_)
| Struct (idx : Z)
| StructInstantiation (idx : Z) (instantiation : list Type_)
| Reference (ty : Type_)
| MutableReference (ty : Type_)
| TyParam (idx : Z).

Abbreviation R := (result PartialVMError).

Fixpoint apply_subst (subst : Z -> Z -> R Type_) (self : Type_) (depth : Z) : R Type_ :=
  if TYPE_DEPTH_MAX <? depth then Err (vm_error VM_MAX_TYPE_DEPTH_REACHED)
  else
    match self with
    | TyParam idx => subst idx depth
    | Bool => Ok Bool
    | U8 => Ok U8
    | U64 => Ok U64
    | U128 => Ok U128
    | Address => Ok Address
    | Signer => Ok Signer
    | Vector ty => ty ← apply_subst subst ty (depth + 1); Ok (Vector ty)
    | Reference ty => ty ← apply_subst subst ty (depth + 1); Ok (Reference ty)
    | MutableReference ty => ty ← apply_subst subst ty (depth + 1); Ok (MutableReference ty)
    | Struct def_idx => Ok (Struct def_idx)
    | StructInstantiation def_idx instantiation =>
      inst ← (fix go (l : list Type_) : R (list Type_) :=
        match l with
        | [] => Ok []
        | ty :: l => ty ← apply_subst subst ty (depth + 1); l ← go l; Ok (ty :: l)
        end) instantiation;
      Ok (StructInstantiation def_idx inst)
    end.

Definition clone_impl (self : Type_) (depth : Z) : R Type_ := apply_subst (fun idx _ => Ok (TyParam idx)) self depth.

Definition subst (self : Type_) (ty_args : list Type_) : R Type_ :=
  apply_subst (fun idx depth =>
    match ty_args !! Z.to_nat idx with
    | Some ty => clone_impl ty depth
    | None => Err (vm_error UNKNOWN_INVARIANT_VIOLATION_ERROR)
    end) self 1.
End RuntimeType.

(** * The representation *)

(** The address of a reference-counted box. *)
Abbreviation loc := positive.

Inductive Container : Set :=
| Locals (r : loc)
| Vec (r : loc)
| Struct (r : loc)
| VecU8 (r : loc)
| VecU64 (r : loc)
| VecU128 (r : loc)
| VecBool (r : loc)
| VecAddress (r : loc).

Inductive GlobalDataStatus : Set := Clean | Dirty.

Inductive ContainerRef : Set :=
| Local (container : Container)
| Global (status : loc) (container : Container).

Module IndexedRef.
Record IndexedRef : Set := mk { idx : Z; container_ref : ContainerRef }.
End IndexedRef.
Abbreviation IndexedRef := IndexedRef.IndexedRef.

Inductive ReferenceImpl : Set :=
| ReferenceIndexed (r : IndexedRef)
| ReferenceContainer (r : ContainerRef).

Module ValueImpl.
Inductive ValueImpl : Set :=
| Invalid
| U8 (x : Z)
| U64 (x : Z)
| U128 (x : Z)
| Bool (x : bool)
| Address (x : AccountAddress)
| Container_ (c : Container)
| ContainerRef_ (r : ContainerRef)
| IndexedRef_ (r : IndexedRef).
End ValueImpl.
Abbreviation ValueImpl := ValueImpl.ValueImpl.

(** [Value] wraps a [ValueImpl]. *)
Abbreviation Value := ValueImpl.

(** What a box holds: [Vec<ValueImpl>], a vector of one of the primitive types, or the
    status of a global. *)
Inductive Contents : Set :=
| Values (l : list ValueImpl)
| U8s (l : list Z)
| U64s (l : list Z)
| U128s (l : list Z)
| Bools (l : list bool)
| Addresses (l : list AccountAddress)
| Status (s : GlobalDataStatus).

Module RcBox.
Record RcBox : Set := mk { strong : Z; contents : Contents }.
End RcBox.
Abbreviation RcBox := RcBox.RcBox.

Abbreviation Store := (gmap loc RcBox).
Abbreviation M := (ST Store PartialVMError).
Definition fail {A} (status : StatusCode) : M A := st_err (vm_error status).

(** * Reference counting *)

Module Rc.
Definition get (r : loc) : M RcBox := fun h => match h !! r with Some b => Ok (b, h) | None => Panic end.
Definition put (r : loc) (b : RcBox) : M () := fun h => Ok ((), <[r := b]> h).
Definition free (r : loc) : M () := fun h => Ok ((), delete r h).

(** [Rc::new(RefCell::new(..))] *)
Definition new (c : Contents) : M loc := fun h => let r := fresh (dom h) in Ok (r, <[r := RcBox.mk 1 c]> h).

Definition clone (r : loc) : M loc :=
  b ← get r; put r (RcBox.mk (b.(RcBox.strong) + 1) b.(RcBox.contents));; mret r.

Definition strong_count (r : loc) : M Z := b ← get r; mret b.(RcBox.strong).

(** [r.borrow()] and an assignment to [*r.borrow_mut()]; what was there is returned. *)
Definition borrow (r : loc) : M Contents := b ← get r; mret b.(RcBox.contents).
Definition replace (r : loc) (c : Contents) : M Contents :=
  b ← get r; put r (RcBox.mk b.(RcBox.strong) c);; mret b.(RcBox.contents).
End Rc.

(** The pointers in a value, in the order in which they are dropped. *)
Definition container_loc (c : Container) : loc :=
  match c with
  | Locals r | Vec r | Struct r | VecU8 r | VecU64 r | VecU128 r | VecBool r | VecAddress r => r
  end.
Definition ref_pointers (r : ContainerRef) : list loc :=
  match r with
  | Local container => [container_loc container]
  | Global status container => [status; container_loc container]
  end.
Definition pointers (v : ValueImpl) : list loc :=
  match v with
  | ValueImpl.Container_ c => [container_loc c]
  | ValueImpl.ContainerRef_ r => ref_pointers r
  | ValueImpl.IndexedRef_ r => ref_pointers r.(IndexedRef.container_ref)
  | _ => []
  end.
Definition contents_pointers (c : Contents) : list loc :=
  match c with Values l => l ≫= pointers | _ => [] end.

(** [drop] of a pointer; the last one drops the box. *)
Fixpoint drop_loc (fuel : nat) (r : loc) : M () :=
  match fuel with
  | O => fun _ => OutOfFuel
  | S fuel =>
    b ← Rc.get r;
    if b.(RcBox.strong) =? 1
    then Rc.free r;; st_for (contents_pointers b.(RcBox.contents)) (drop_loc fuel)
    else Rc.put r (RcBox.mk (b.(RcBox.strong) - 1) b.(RcBox.contents))
  end.

(** No more boxes can be dropped than there are. *)
Definition drop_locs (l : list loc) : M () := fun h => st_for l (drop_loc (S (size h))) h.
Definition drop_value (v : Value) : M () := drop_locs (pointers v).
Definition drop_ref (r : ContainerRef) : M () := drop_locs (ref_pointers r).
Definition drop_contents (c : Contents) : M () := drop_locs (contents_pointers c).

Definition take_unique_ownership (r : loc) : M Contents :=
  b ← Rc.get r;
  if b.(RcBox.strong) =? 1 then Rc.free r;; mret b.(RcBox.contents)
  else fail UNKNOWN_INVARIANT_VIOLATION_ERROR.

(** The contents that the type of a pointer promises. *)
Definition as_values (c : Contents) : M (list ValueImpl) := match c with Values l => mret l | _ => st_panic end.
Definition as_u8s (c : Contents) : M (list Z) := match c with U8s l => mret l | _ => st_panic end.
Definition as_u64s (c : Contents) : M (list Z) := match c with U64s l => mret l | _ => st_panic end.
Definition as_u128s (c : Contents) : M (list Z) := match c with U128s l => mret l | _ => st_panic end.
Definition as_bools (c : Contents) : M (list bool) := match c with Bools l => mret l | _ => st_panic end.
Definition as_addresses (c : Contents) : M (list AccountAddress) := match c with Addresses l => mret l | _ => st_panic end.
Definition as_status (c : Contents) : M GlobalDataStatus := match c with Status s => mret s | _ => st_panic end.

(** [r.borrow()], with the type of [r]. *)
Definition borrow_values (r : loc) : M (list ValueImpl) := Rc.borrow r ≫= as_values.
Definition borrow_u8s (r : loc) : M (list Z) := Rc.borrow r ≫= as_u8s.
Definition borrow_u64s (r : loc) : M (list Z) := Rc.borrow r ≫= as_u64s.
Definition borrow_u128s (r : loc) : M (list Z) := Rc.borrow r ≫= as_u128s.
Definition borrow_bools (r : loc) : M (list bool) := Rc.borrow r ≫= as_bools.
Definition borrow_addresses (r : loc) : M (list AccountAddress) := Rc.borrow r ≫= as_addresses.
Definition borrow_status (r : loc) : M GlobalDataStatus := Rc.borrow r ≫= as_status.

(** [&v[idx]] *)
Definition at_index {A} (l : list A) (idx : Z) : M A := match l !! Z.to_nat idx with Some x => mret x | None => st_panic end.

(** [iter().map(f).collect()] *)
Fixpoint st_map {A B} (f : A -> M B) (l : list A) : M (list B) :=
  match l with
  | [] => mret []
  | x :: l => y ← f x; ys ← st_map f l; mret (y :: ys)
  end.

(** * Containers *)

Module Container.
Definition len (self : Container) : M Z :=
  match self with
  | Locals r | Struct r | Vec r => l ← borrow_values r; mret (zlen l)
  | VecU8 r => l ← borrow_u8s r; mret (zlen l)
  | VecU64 r => l ← borrow_u64s r; mret (zlen l)
  | VecU128 r => l ← borrow_u128s r; mret (zlen l)
  | VecBool r => l ← borrow_bools r; mret (zlen l)
  | VecAddress r => l ← borrow_addresses r; mret (zlen l)
  end.

Definition rc_count (self : Container) : M Z := Rc.strong_count (container_loc self).

Definition signer (x : AccountAddress) : M Container := r ← Rc.new (Values [ValueImpl.Address x]); mret (Struct r).

Definition copy_by_ref (self : Container) : M Container := Rc.clone (container_loc self);; mret self.

(** [copy_value], given how it copies the elements. *)
Definition copy_value (copy : ValueImpl -> M ValueImpl) (self : Container) : M Container :=
  match self with
  | Vec r => l ← borrow_values r; l ← st_map copy l; r ← Rc.new (Values l); mret (Vec r)
  | Struct r => l ← borrow_values r; l ← st_map copy l; r ← Rc.new (Values l); mret (Struct r)
  | VecU8 r => l ← borrow_u8s r; r ← Rc.new (U8s l); mret (VecU8 r)
  | VecU64 r => l ← borrow_u64s r; r ← Rc.new (U64s l); mret (VecU64 r)
  | VecU128 r => l ← borrow_u128s r; r ← Rc.new (U128s l); mret (VecU128 r)
  | VecBool r => l ← borrow_bools r; r ← Rc.new (Bools l); mret (VecBool r)
  | VecAddress r => l ← borrow_addresses r; r ← Rc.new (Addresses l); mret (VecAddress r)
  | Locals _ => fail UNKNOWN_INVARIANT_VIOLATION_ERROR
  end.

(** The loop over the elements of two containers. *)
Fixpoint equal_elements (equals : ValueImpl -> ValueImpl -> M bool) (l r : list ValueImpl) : M bool :=
  match l, r with
  | v1 :: l, v2 :: r => b ← equals v1 v2; if negb (b : bool) then mret false else equal_elements equals l r
  | _, _ => mret true
  end.

Definition equals (equals : ValueImpl -> ValueImpl -> M bool) (self other : Container) : M bool :=
  match self, other with
  | Vec l, Vec r | Struct l, Struct r =>
    l ← borrow_values l;
    r ← borrow_values r;
    if negb (Nat.eqb (length l) (length r)) then mret false else equal_elements equals l r
  | VecU8 l, VecU8 r => l ← borrow_u8s l; r ← borrow_u8s r; mret (bool_decide (l = r))
  | VecU64 l, VecU64 r => l ← borrow_u64s l; r ← borrow_u64s r; mret (bool_decide (l = r))
  | VecU128 l, VecU128 r => l ← borrow_u128s l; r ← borrow_u128s r; mret (bool_decide (l = r))
  | VecBool l, VecBool r => l ← borrow_bools l; r ← borrow_bools r; mret (bool_decide (l = r))
  | VecAddress l, VecAddress r =>
    l ← borrow_addresses l; r ← borrow_addresses r; mret (bool_decide ((l : list (list Z)) = r))
  | _, _ => fail INTERNAL_TYPE_ERROR
  end.
End Container.

Module ContainerRef.
Definition container (self : ContainerRef) : Container :=
  match self with Local container | Global _ container => container end.

Definition mark_dirty (self : ContainerRef) : M () :=
  match self with
  | Global status _ => Rc.replace status (Status Dirty);; mret ()
  | Local _ => mret ()
  end.

Definition copy_value (self : ContainerRef) : M ContainerRef :=
  match self with
  | Local container => container ← Container.copy_by_ref container; mret (Local container)
  | Global status container =>
    status ← Rc.clone status; container ← Container.copy_by_ref container; mret (Global status container)
  end.
End ContainerRef.

Definition IndexedRef_copy_value (self : IndexedRef) : M IndexedRef :=
  r ← ContainerRef.copy_value self.(IndexedRef.container_ref); mret (IndexedRef.mk self.(IndexedRef.idx) r).

(** [VMValueRef]: a reference to a primitive value. *)
Definition value_ref_u8 (self : ValueImpl) : M Z :=
  match self with ValueImpl.U8 x => mret x | _ => fail INTERNAL_TYPE_ERROR end.
Definition value_ref_u64 (self : ValueImpl) : M Z :=
  match self with ValueImpl.U64 x => mret x | _ => fail INTERNAL_TYPE_ERROR end.
Definition value_ref_u128 (self : ValueImpl) : M Z :=
  match self with ValueImpl.U128 x => mret x | _ => fail INTERNAL_TYPE_ERROR end.
Definition value_ref_bool (self : ValueImpl) : M bool :=
  match self with ValueImpl.Bool x => mret x | _ => fail INTERNAL_TYPE_ERROR end.
Definition value_ref_address (self : ValueImpl) : M AccountAddress :=
  match self with ValueImpl.Address x => mret x | _ => fail INTERNAL_TYPE_ERROR end.

(** * Copying *)

Fixpoint copy_value_fuel (fuel : nat) (self : ValueImpl) : M ValueImpl :=
  match fuel with
  | O => fun _ => OutOfFuel
  | S fuel =>
    match self with
    | ValueImpl.ContainerRef_ r => r ← ContainerRef.copy_value r; mret (ValueImpl.ContainerRef_ r)
    | ValueImpl.IndexedRef_ r => r ← IndexedRef_copy_value r; mret (ValueImpl.IndexedRef_ r)
    | ValueImpl.Container_ c => c ← Container.copy_value (copy_value_fuel fuel) c; mret (ValueImpl.Container_ c)
    | _ => mret self
    end
  end.

(** A value without a cycle nests no deeper than there are boxes. *)
Definition copy_value (self : Value) : M Value := fun h => copy_value_fuel (S (size h)) self h.
Definition copy_container (self : Container) : M Container := fun h =>
  Container.copy_value (copy_value_fuel (S (size h))) self h.

(** * Equality *)

(** An element of a container with one of the primitive types. *)
Definition elem_u8 (r : loc) (idx : Z) : M Z := l ← borrow_u8s r; at_index l idx.
Definition elem_u64 (r : loc) (idx : Z) : M Z := l ← borrow_u64s r; at_index l idx.
Definition elem_u128 (r : loc) (idx : Z) : M Z := l ← borrow_u128s r; at_index l idx.
Definition elem_bool (r : loc) (idx : Z) : M bool := l ← borrow_bools r; at_index l idx.
Definition elem_address (r : loc) (idx : Z) : M AccountAddress := l ← borrow_addresses r; at_index l idx.
Definition elem_value (r : loc) (idx : Z) : M ValueImpl := l ← borrow_values r; at_index l idx.

Definition IndexedRef_equals (equals : ValueImpl -> ValueImpl -> M bool) (self other : IndexedRef) : M bool :=
  let i := self.(IndexedRef.idx) in
  let j := other.(IndexedRef.idx) in
  match ContainerRef.container self.(IndexedRef.container_ref), ContainerRef.container other.(IndexedRef.container_ref) with
  | Vec r1, Vec r2 | Vec r1, Struct r2 | Vec r1, Locals r2
  | Struct r1, Vec r2 | Struct r1, Struct r2 | Struct r1, Locals r2
  | Locals r1, Vec r2 | Locals r1, Struct r2 | Locals r1, Locals r2 =>
    x ← elem_value r1 i; y ← elem_value r2 j; equals x y
  | VecU8 r1, VecU8 r2 => x ← elem_u8 r1 i; y ← elem_u8 r2 j; mret (x =? y)
  | VecU64 r1, VecU64 r2 => x ← elem_u64 r1 i; y ← elem_u64 r2 j; mret (x =? y)
  | VecU128 r1, VecU128 r2 => x ← elem_u128 r1 i; y ← elem_u128 r2 j; mret (x =? y)
  | VecBool r1, VecBool r2 => x ← elem_bool r1 i; y ← elem_bool r2 j; mret (Bool.eqb x y)
  | VecAddress r1, VecAddress r2 => x ← elem_address r1 i; y ← elem_address r2 j; mret (bool_decide ((x : list Z) = y))
  | Locals r1, VecU8 r2 | Struct r1, VecU8 r2 =>
    x ← (elem_value r1 i ≫= value_ref_u8); y ← elem_u8 r2 j; mret (x =? y)
  | VecU8 r1, Locals r2 | VecU8 r1, Struct r2 =>
    x ← elem_u8 r1 i; y ← (elem_value r2 j ≫= value_ref_u8); mret (x =? y)
  | Locals r1, VecU64 r2 | Struct r1, VecU64 r2 =>
    x ← (elem_value r1 i ≫= value_ref_u64); y ← elem_u64 r2 j; mret (x =? y)
  | VecU64 r1, Locals r2 | VecU64 r1, Struct r2 =>
    x ← elem_u64 r1 i; y ← (elem_value r2 j ≫= value_ref_u64); mret (x =? y)
  | Locals r1, VecU128 r2 | Struct r1, VecU128 r2 =>
    x ← (elem_value r1 i ≫= value_ref_u128); y ← elem_u128 r2 j; mret (x =? y)
  | VecU128 r1, Locals r2 | VecU128 r1, Struct r2 =>
    x ← elem_u128 r1 i; y ← (elem_value r2 j ≫= value_ref_u128); mret (x =? y)
  | Locals r1, VecBool r2 | Struct r1, VecBool r2 =>
    x ← (elem_value r1 i ≫= value_ref_bool); y ← elem_bool r2 j; mret (Bool.eqb x y)
  | VecBool r1, Locals r2 | VecBool r1, Struct r2 =>
    x ← elem_bool r1 i; y ← (elem_value r2 j ≫= value_ref_bool); mret (Bool.eqb x y)
  | Locals r1, VecAddress r2 | Struct r1, VecAddress r2 =>
    x ← (elem_value r1 i ≫= value_ref_address); y ← elem_address r2 j; mret (bool_decide ((x : list Z) = y))
  | VecAddress r1, Locals r2 | VecAddress r1, Struct r2 =>
    x ← elem_address r1 i; y ← (elem_value r2 j ≫= value_ref_address); mret (bool_decide ((x : list Z) = y))
  | _, _ => fail INTERNAL_TYPE_ERROR
  end.

Fixpoint equals_fuel (fuel : nat) (self other : ValueImpl) : M bool :=
  match fuel with
  | O => fun _ => OutOfFuel
  | S fuel =>
    match self, other with
    | ValueImpl.U8 l, ValueImpl.U8 r => mret (l =? r)
    | ValueImpl.U64 l, ValueImpl.U64 r => mret (l =? r)
    | ValueImpl.U128 l, ValueImpl.U128 r => mret (l =? r)
    | ValueImpl.Bool l, ValueImpl.Bool r => mret (Bool.eqb l r)
    | ValueImpl.Address l, ValueImpl.Address r => mret (bool_decide ((l : list Z) = r))
    | ValueImpl.Container_ l, ValueImpl.Container_ r => Container.equals (equals_fuel fuel) l r
    | ValueImpl.ContainerRef_ l, ValueImpl.ContainerRef_ r =>
      Container.equals (equals_fuel fuel) (ContainerRef.container l) (ContainerRef.container r)
    | ValueImpl.IndexedRef_ l, ValueImpl.IndexedRef_ r => IndexedRef_equals (equals_fuel fuel) l r
    | _, _ => fail INTERNAL_TYPE_ERROR
    end
  end.

(** A reference adds two levels to the nesting of boxes.  A cyclic value, which only
    unverified code can build, has no depth: there the recursion of the source never ends. *)
Definition equals (self other : Value) : M bool := fun h => equals_fuel (S (S (size h))) self other h.

(** * References *)

Definition ContainerRef_read_ref (self : ContainerRef) : M Value :=
  c ← copy_container (ContainerRef.container self);
  drop_ref self;;
  mret (ValueImpl.Container_ c).

Definition IndexedRef_read_ref (self : IndexedRef) : M Value :=
  let idx := self.(IndexedRef.idx) in
  res ← match ContainerRef.container self.(IndexedRef.container_ref) with
        | Locals r | Vec r | Struct r => elem_value r idx ≫= copy_value
        | VecU8 r => x ← elem_u8 r idx; mret (ValueImpl.U8 x)
        | VecU64 r => x ← elem_u64 r idx; mret (ValueImpl.U64 x)
        | VecU128 r => x ← elem_u128 r idx; mret (ValueImpl.U128 x)
        | VecBool r => x ← elem_bool r idx; mret (ValueImpl.Bool x)
        | VecAddress r => x ← elem_address r idx; mret (ValueImpl.Address x)
        end;
  drop_ref self.(IndexedRef.container_ref);;
  mret res.

Definition ReferenceImpl_read_ref (self : ReferenceImpl) : M Value :=
  match self with
  | ReferenceContainer r => ContainerRef_read_ref r
  | ReferenceIndexed r => IndexedRef_read_ref r
  end.

(** [assign!]: the contents of the container that is written replace those of [r1]. *)
Definition assign (r1 r : loc) : M () :=
  new ← take_unique_ownership r;
  old ← Rc.replace r1 new;
  drop_contents old.

Definition ContainerRef_write_ref (self : ContainerRef) (v : Value) : M () :=
  match v with
  | ValueImpl.Container_ c =>
    match ContainerRef.container self, c with
    | Struct r1, Struct r
    | Vec r1, Vec r
    | VecU8 r1, VecU8 r
    | VecU64 r1, VecU64 r
    | VecU128 r1, VecU128 r
    | VecBool r1, VecBool r
    | VecAddress r1, VecAddress r => assign r1 r
    | _, _ => fail UNKNOWN_INVARIANT_VIOLATION_ERROR
    end;;
    ContainerRef.mark_dirty self;;
    drop_ref self
  | _ => fail UNKNOWN_INVARIANT_VIOLATION_ERROR
  end.

(** [v[idx] = x] *)
Definition set_index {A} (l : list A) (idx : Z) (x : A) : M (list A) :=
  match l !! Z.to_nat idx with Some _ => mret (<[Z.to_nat idx := x]> l) | None => st_panic end.

Definition IndexedRef_write_ref (self : IndexedRef) (x : Value) : M () :=
  let idx := self.(IndexedRef.idx) in
  match x with
  | ValueImpl.IndexedRef_ _ | ValueImpl.ContainerRef_ _ | ValueImpl.Invalid | ValueImpl.Container_ _ =>
    fail UNKNOWN_INVARIANT_VIOLATION_ERROR
  | _ =>
    match ContainerRef.container self.(IndexedRef.container_ref), x with
    | Locals r, _ | Vec r, _ | Struct r, _ =>
      l ← borrow_values r;
      old ← at_index l idx;
      l ← set_index l idx x;
      Rc.replace r (Values l);;
      drop_value old
    | VecU8 r, ValueImpl.U8 x => l ← borrow_u8s r; l ← set_index l idx x; Rc.replace r (U8s l);; mret ()
    | VecU64 r, ValueImpl.U64 x => l ← borrow_u64s r; l ← set_index l idx x; Rc.replace r (U64s l);; mret ()
    | VecU128 r, ValueImpl.U128 x =>
      l ← borrow_u128s r; l ← set_index l idx x; Rc.replace r (U128s l);; mret ()
    | VecBool r, ValueImpl.Bool x => l ← borrow_bools r; l ← set_index l idx x; Rc.replace r (Bools l);; mret ()
    | VecAddress r, ValueImpl.Address x =>
      l ← borrow_addresses r; l ← set_index l idx x; Rc.replace r (Addresses l);; mret ()
    | _, _ => fail INTERNAL_TYPE_ERROR
    end;;
    ContainerRef.mark_dirty self.(IndexedRef.container_ref);;
    drop_ref self.(IndexedRef.container_ref)
  end.

Definition ReferenceImpl_write_ref (self : ReferenceImpl) (x : Value) : M () :=
  match self with
  | ReferenceContainer r => ContainerRef_write_ref r x
  | ReferenceIndexed r => IndexedRef_write_ref r x
  end.

(** * Borrowing *)

Definition ContainerRef_borrow_elem (self : ContainerRef) (idx : Z) : M ValueImpl :=
  len ← Container.len (ContainerRef.container self);
  if len <=? idx then fail UNKNOWN_INVARIANT_VIOLATION_ERROR
  else
    match ContainerRef.container self with
    | Locals r | Vec r | Struct r =>
      v ← elem_value r idx;
      match v with
      | ValueImpl.Container_ container =>
        r ← match self with
            | Local _ => container ← Container.copy_by_ref container; mret (Local container)
            | Global status _ =>
              status ← Rc.clone status; container ← Container.copy_by_ref container; mret (Global status container)
            end;
        mret (ValueImpl.ContainerRef_ r)
      | _ => r ← ContainerRef.copy_value self; mret (ValueImpl.IndexedRef_ (IndexedRef.mk idx r))
      end
    | _ => r ← ContainerRef.copy_value self; mret (ValueImpl.IndexedRef_ (IndexedRef.mk idx r))
    end.

(** [StructRef::borrow_field] and [SignerRef::borrow_signer] *)
Definition borrow_field (self : ContainerRef) (idx : Z) : M Value := ContainerRef_borrow_elem self idx.
Definition borrow_signer (self : ContainerRef) : M Value := ContainerRef_borrow_elem self 0.

(** * Locals *)

Module Locals.
(** [Locals] is a pointer to the vector of locals. *)
Definition new (n : Z) : M loc := Rc.new (Values (replicate (Z.to_nat n) ValueImpl.Invalid)).

Definition borrow_loc (self : loc) (idx : Z) : M Value :=
  v ← borrow_values self;
  if zlen v <=? idx then fail UNKNOWN_INVARIANT_VIOLATION_ERROR
  else
    x ← at_index v idx;
    match x with
    | ValueImpl.Container_ c => c ← Container.copy_by_ref c; mret (ValueImpl.ContainerRef_ (Local c))
    | ValueImpl.U8 _ | ValueImpl.U64 _ | ValueImpl.U128 _ | ValueImpl.Bool _ | ValueImpl.Address _ =>
      r ← Rc.clone self; mret (ValueImpl.IndexedRef_ (IndexedRef.mk idx (Local (Locals r))))
    | ValueImpl.ContainerRef_ _ | ValueImpl.Invalid | ValueImpl.IndexedRef_ _ => fail UNKNOWN_INVARIANT_VIOLATION_ERROR
    end.

Definition copy_loc (self : loc) (idx : Z) : M Value :=
  v ← borrow_values self;
  match v !! Z.to_nat idx with
  | Some ValueImpl.Invalid => fail UNKNOWN_INVARIANT_VIOLATION_ERROR
  | Some v => copy_value v
  | None => fail VERIFIER_INVARIANT_VIOLATION
  end.

Definition swap_loc (self : loc) (idx : Z) (x : Value) : M Value :=
  v ← borrow_values self;
  match v !! Z.to_nat idx with
  | Some old =>
    dangling ← match old with
               | ValueImpl.Container_ c => n ← Container.rc_count c; mret (1 <? n)
               | _ => mret false
               end;
    if (dangling : bool) then fail UNKNOWN_INVARIANT_VIOLATION_ERROR
    else Rc.replace self (Values (<[Z.to_nat idx := x]> v));; mret old
  | None => fail VERIFIER_INVARIANT_VIOLATION
  end.

Definition move_loc (self : loc) (idx : Z) : M Value :=
  v ← swap_loc self idx ValueImpl.Invalid;
  match v with
  | ValueImpl.Invalid => fail UNKNOWN_INVARIANT_VIOLATION_ERROR
  | v => mret v
  end.

Definition store_loc (self : loc) (idx : Z) (x : Value) : M () := old ← swap_loc self idx x; drop_value old.
End Locals.

(** * Constructors and casts *)

Definition signer (x : AccountAddress) : M Value := c ← Container.signer x; mret (ValueImpl.Container_ c).
Definition signer_reference (x : AccountAddress) : M Value := c ← Container.signer x; mret (ValueImpl.ContainerRef_ (Local c)).
Definition struct_ (fields : list ValueImpl) : M Value := r ← Rc.new (Values fields); mret (ValueImpl.Container_ (Struct r)).
Definition vector_u8 (it : list Z) : M Value := r ← Rc.new (U8s it); mret (ValueImpl.Container_ (VecU8 r)).
Definition vector_u64 (it : list Z) : M Value := r ← Rc.new (U64s it); mret (ValueImpl.Container_ (VecU64 r)).
Definition vector_u128 (it : list Z) : M Value := r ← Rc.new (U128s it); mret (ValueImpl.Container_ (VecU128 r)).
Definition vector_bool (it : list bool) : M Value := r ← Rc.new (Bools it); mret (ValueImpl.Container_ (VecBool r)).
Definition vector_address (it : list AccountAddress) : M Value := r ← Rc.new (Addresses it); mret (ValueImpl.Container_ (VecAddress r)).

(** [VMValueCast] *)
Definition cast_value_u8 (self : Value) : M Z := match self with ValueImpl.U8 x => mret x | _ => fail INTERNAL_TYPE_ERROR end.
Definition cast_value_u64 (self : Value) : M Z := match self with ValueImpl.U64 x => mret x | _ => fail INTERNAL_TYPE_ERROR end.
Definition cast_value_u128 (self : Value) : M Z := match self with ValueImpl.U128 x => mret x | _ => fail INTERNAL_TYPE_ERROR end.
Definition cast_value_bool (self : Value) : M bool := match self with ValueImpl.Bool x => mret x | _ => fail INTERNAL_TYPE_ERROR end.
Definition cast_value_address (self : Value) : M AccountAddress :=
  match self with ValueImpl.Address x => mret x | _ => fail INTERNAL_TYPE_ERROR end.
Definition cast_container (self : Value) : M Container :=
  match self with ValueImpl.Container_ c => mret c | _ => fail INTERNAL_TYPE_ERROR end.
(** [StructRef], [SignerRef] and [VectorRef] wrap a [ContainerRef]. *)
Definition cast_container_ref (self : Value) : M ContainerRef :=
  match self with ValueImpl.ContainerRef_ r => mret r | _ => fail INTERNAL_TYPE_ERROR end.
Definition cast_reference (self : Value) : M ReferenceImpl :=
  match self with
  | ValueImpl.ContainerRef_ r => mret (ReferenceContainer r)
  | ValueImpl.IndexedRef_ r => mret (ReferenceIndexed r)
  | _ => fail INTERNAL_TYPE_ERROR
  end.
Definition cast_struct (self : Value) : M (list ValueImpl) :=
  match self with
  | ValueImpl.Container_ (Struct r) => take_unique_ownership r ≫= as_values
  | _ => fail INTERNAL_TYPE_ERROR
  end.
Definition cast_vec_u8 (self : Value) : M (list Z) :=
  match self with
  | ValueImpl.Container_ (VecU8 r) => take_unique_ownership r ≫= as_u8s
  | _ => fail INTERNAL_TYPE_ERROR
  end.

(** * Integers *)

Module IntegerValue.
Inductive IntegerValue : Set := U8 (x : Z) | U64 (x : Z) | U128 (x : Z).
Abbreviation R := (result PartialVMError).

Definition cast (self : Value) : R IntegerValue :=
  match self with
  | ValueImpl.U8 x => Ok (U8 x)
  | ValueImpl.U64 x => Ok (U64 x)
  | ValueImpl.U128 x => Ok (U128 x)
  | _ => Err (vm_error INTERNAL_TYPE_ERROR)
  end.

(** [u8::checked_add] and the like: [None] if the result is not a value of the type. *)
Definition checked (max x : Z) : option Z := if in_range max x then Some x else None.
(** [u8::checked_div] and [u8::checked_rem]: [None] if the divisor is zero. *)
Definition checked_div (l r : Z) : option Z := if r =? 0 then None else Some (l / r).
Definition checked_rem (l r : Z) : option Z := if r =? 0 then None else Some (l mod r).

Definition ok_or_arithmetic (o : option IntegerValue) : R IntegerValue := ok_or o (vm_error ARITHMETIC_ERROR).

Definition add_checked (self other : IntegerValue) : R IntegerValue :=
  match self, other with
  | U8 l, U8 r => ok_or_arithmetic (U8 <$> checked u8_max (l + r))
  | U64 l, U64 r => ok_or_arithmetic (U64 <$> checked u64_max (l + r))
  | U128 l, U128 r => ok_or_arithmetic (U128 <$> checked u128_max (l + r))
  | _, _ => Err (vm_error INTERNAL_TYPE_ERROR)
  end.
Definition sub_checked (self other : IntegerValue) : R IntegerValue :=
  match self, other with
  | U8 l, U8 r => ok_or_arithmetic (U8 <$> checked u8_max (l - r))
  | U64 l, U64 r => ok_or_arithmetic (U64 <$> checked u64_max (l - r))
  | U128 l, U128 r => ok_or_arithmetic (U128 <$> checked u128_max (l - r))
  | _, _ => Err (vm_error INTERNAL_TYPE_ERROR)
  end.
Definition mul_checked (self other : IntegerValue) : R IntegerValue :=
  match self, other with
  | U8 l, U8 r => ok_or_arithmetic (U8 <$> checked u8_max (l * r))
  | U64 l, U64 r => ok_or_arithmetic (U64 <$> checked u64_max (l * r))
  | U128 l, U128 r => ok_or_arithmetic (U128 <$> checked u128_max (l * r))
  | _, _ => Err (vm_error INTERNAL_TYPE_ERROR)
  end.
Definition div_checked (self other : IntegerValue) : R IntegerValue :=
  match self, other with
  | U8 l, U8 r => ok_or_arithmetic (U8 <$> checked_div l r)
  | U64 l, U64 r => ok_or_arithmetic (U64 <$> checked_div l r)
  | U128 l, U128 r => ok_or_arithmetic (U128 <$> checked_div l r)
  | _, _ => Err (vm_error INTERNAL_TYPE_ERROR)
  end.
Definition rem_checked (self other : IntegerValue) : R IntegerValue :=
  match self, other with
  | U8 l, U8 r => ok_or_arithmetic (U8 <$> checked_rem l r)
  | U64 l, U64 r => ok_or_arithmetic (U64 <$> checked_rem l r)
  | U128 l, U128 r => ok_or_arithmetic (U128 <$> checked_rem l r)
  | _, _ => Err (vm_error INTERNAL_TYPE_ERROR)
  end.

Definition bit_or (self other : IntegerValue) : R IntegerValue :=
  match self, other with
  | U8 l, U8 r => Ok (U8 (Z.lor l r))
  | U64 l, U64 r => Ok (U64 (Z.lor l r))
  | U128 l, U128 r => Ok (U128 (Z.lor l r))
  | _, _ => Err (vm_error INTERNAL_TYPE_ERROR)
  end.
Definition bit_and (self other : IntegerValue) : R IntegerValue :=
  match self, other with
  | U8 l, U8 r => Ok (U8 (Z.land l r))
  | U64 l, U64 r => Ok (U64 (Z.land l r))
  | U128 l, U128 r => Ok (U128 (Z.land l r))
  | _, _ => Err (vm_error INTERNAL_TYPE_ERROR)
  end.
Definition bit_xor (self other : IntegerValue) : R IntegerValue :=
  match self, other with
  | U8 l, U8 r => Ok (U8 (Z.lxor l r))
  | U64 l, U64 r => Ok (U64 (Z.lxor l r))
  | U128 l, U128 r => Ok (U128 (Z.lxor l r))
  | _, _ => Err (vm_error INTERNAL_TYPE_ERROR)
  end.

(** [x << n] loses the bits above the width. *)
Definition shl_checked (self : IntegerValue) (n_bits : Z) : R IntegerValue :=
  match self with
  | U8 x => if 8 <=? n_bits then Err (vm_error ARITHMETIC_ERROR) else Ok (U8 (Z.shiftl x n_bits mod 2 ^ 8))
  | U64 x => if 64 <=? n_bits then Err (vm_error ARITHMETIC_ERROR) else Ok (U64 (Z.shiftl x n_bits mod 2 ^ 64))
  | U128 x => if 128 <=? n_bits then Err (vm_error ARITHMETIC_ERROR) else Ok (U128 (Z.shiftl x n_bits mod 2 ^ 128))
  end.
Definition shr_checked (self : IntegerValue) (n_bits : Z) : R IntegerValue :=
  match self with
  | U8 x => if 8 <=? n_bits then Err (vm_error ARITHMETIC_ERROR) else Ok (U8 (Z.shiftr x n_bits))
  | U64 x => if 64 <=? n_bits then Err (vm_error ARITHMETIC_ERROR) else Ok (U64 (Z.shiftr x n_bits))
  | U128 x => if 128 <=? n_bits then Err (vm_error ARITHMETIC_ERROR) else Ok (U128 (Z.shiftr x n_bits))
  end.

(** The four comparisons, given the one of their type. *)
Definition compare_with (f : Z -> Z -> bool) (self other : IntegerValue) : R bool :=
  match self, other with
  | U8 l, U8 r | U64 l, U64 r | U128 l, U128 r => Ok (f l r)
  | _, _ => Err (vm_error INTERNAL_TYPE_ERROR)
  end.
Definition lt : IntegerValue -> IntegerValue -> R bool := compare_with Z.ltb.
Definition le : IntegerValue -> IntegerValue -> R bool := compare_with Z.leb.
Definition gt : IntegerValue -> IntegerValue -> R bool := compare_with Z.gtb.
Definition ge : IntegerValue -> IntegerValue -> R bool := compare_with Z.geb.

(** [value_as]: [VMValueCast] of an integer to the type it has. *)
Definition value_as_u8 (self : IntegerValue) : R Z := match self with U8 x => Ok x | _ => Err (vm_error INTERNAL_TYPE_ERROR) end.
Definition value_as_u64 (self : IntegerValue) : R Z := match self with U64 x => Ok x | _ => Err (vm_error INTERNAL_TYPE_ERROR) end.
Definition value_as_u128 (self : IntegerValue) : R Z := match self with U128 x => Ok x | _ => Err (vm_error INTERNAL_TYPE_ERROR) end.

Definition into_value (self : IntegerValue) : Value :=
  match self with U8 x => ValueImpl.U8 x | U64 x => ValueImpl.U64 x | U128 x => ValueImpl.U128 x end.

Definition cast_u8 (self : IntegerValue) : R Z :=
  match self with
  | U8 x => Ok x
  | U64 x | U128 x => if x >? u8_max then Err (vm_error ARITHMETIC_ERROR) else Ok (x mod 2 ^ 8)
  end.
Definition cast_u64 (self : IntegerValue) : R Z :=
  match self with
  | U8 x => Ok x
  | U64 x => Ok x
  | U128 x => if x >? u64_max then Err (vm_error ARITHMETIC_ERROR) else Ok (x mod 2 ^ 64)
  end.
Definition cast_u128 (self : IntegerValue) : R Z := match self with U8 x | U64 x | U128 x => Ok x end.
End IntegerValue.
Abbreviation IntegerValue := IntegerValue.IntegerValue.

(** * Vectors *)

Definition INDEX_OUT_OF_BOUNDS : Z := 1.
Definition POP_EMPTY_VEC : Z := 2.
Definition VEC_UNPACK_PARITY_MISMATCH : Z := 3.
Definition vector_error (sub : Z) : PartialVMError := mk_error VECTOR_OPERATION_ERROR (Some sub).

Definition check_elem_layout (ty : RuntimeType.Type_) (v : Container) : M () :=
  match ty, v with
  | RuntimeType.U8, VecU8 _
  | RuntimeType.U64, VecU64 _
  | RuntimeType.U128, VecU128 _
  | RuntimeType.Bool, VecBool _
  | RuntimeType.Address, VecAddress _
  | RuntimeType.Signer, Struct _
  | RuntimeType.Vector _, Vec _
  | RuntimeType.Struct _, Vec _
  | RuntimeType.Signer, Vec _
  | RuntimeType.StructInstantiation _ _, Vec _ => mret ()
  | _, _ => fail UNKNOWN_INVARIANT_VIOLATION_ERROR
  end.

Module VectorRef.
Definition len (self : ContainerRef) (type_param : RuntimeType.Type_) : M Value :=
  let c := ContainerRef.container self in
  check_elem_layout type_param c;;
  match c with
  | Locals _ | Struct _ => st_panic
  | _ => len ← Container.len c; mret (ValueImpl.U64 len)
  end.

Definition push_back (self : ContainerRef) (e : Value) (type_param : RuntimeType.Type_) : M () :=
  let c := ContainerRef.container self in
  check_elem_layout type_param c;;
  match c with
  | VecU8 r => x ← cast_value_u8 e; l ← borrow_u8s r; Rc.replace r (U8s (l ++ [x]));; mret ()
  | VecU64 r => x ← cast_value_u64 e; l ← borrow_u64s r; Rc.replace r (U64s (l ++ [x]));; mret ()
  | VecU128 r => x ← cast_value_u128 e; l ← borrow_u128s r; Rc.replace r (U128s (l ++ [x]));; mret ()
  | VecBool r => x ← cast_value_bool e; l ← borrow_bools r; Rc.replace r (Bools (l ++ [x]));; mret ()
  | VecAddress r => x ← cast_value_address e; l ← borrow_addresses r; Rc.replace r (Addresses (l ++ [x]));; mret ()
  | Vec r => l ← borrow_values r; Rc.replace r (Values (l ++ [e]));; mret ()
  | Locals _ | Struct _ => st_panic
  end;;
  ContainerRef.mark_dirty self.

Definition borrow_elem (self : ContainerRef) (idx : Z) (type_param : RuntimeType.Type_) : M Value :=
  let c := ContainerRef.container self in
  check_elem_layout type_param c;;
  len ← Container.len c;
  if len <=? idx then st_err (vector_error INDEX_OUT_OF_BOUNDS) else ContainerRef_borrow_elem self idx.

(** [pop] of a vector: its elements without the last, and the last. *)
Definition pop_last {A} (l : list A) : M (list A * A) :=
  match l !! (length l - 1)%nat with
  | Some x => mret (take (length l - 1) l, x)
  | None => st_err (vector_error POP_EMPTY_VEC)
  end.

Definition pop (self : ContainerRef) (type_param : RuntimeType.Type_) : M Value :=
  let c := ContainerRef.container self in
  check_elem_layout type_param c;;
  res ←
    match c with
    | VecU8 r => '(l, x) ← (borrow_u8s r ≫= pop_last); Rc.replace r (U8s l);; mret (ValueImpl.U8 x)
    | VecU64 r => '(l, x) ← (borrow_u64s r ≫= pop_last); Rc.replace r (U64s l);; mret (ValueImpl.U64 x)
    | VecU128 r => '(l, x) ← (borrow_u128s r ≫= pop_last); Rc.replace r (U128s l);; mret (ValueImpl.U128 x)
    | VecBool r => '(l, x) ← (borrow_bools r ≫= pop_last); Rc.replace r (Bools l);; mret (ValueImpl.Bool x)
    | VecAddress r => '(l, x) ← (borrow_addresses r ≫= pop_last); Rc.replace r (Addresses l);; mret (ValueImpl.Address x)
    | Vec r => '(l, x) ← (borrow_values r ≫= pop_last); Rc.replace r (Values l);; mret x
    | Locals _ | Struct _ => st_panic
    end;
  ContainerRef.mark_dirty self;;
  mret res.

(** [swap!] *)
Definition swap_elements {A} (idx1 idx2 : Z) (v : list A) : M (list A) :=
  if (zlen v <=? idx1) || (zlen v <=? idx2) then st_err (vector_error INDEX_OUT_OF_BOUNDS)
  else x ← at_index v idx1; y ← at_index v idx2; mret (<[Z.to_nat idx2 := x]> (<[Z.to_nat idx1 := y]> v)).

Definition swap (self : ContainerRef) (idx1 idx2 : Z) (type_param : RuntimeType.Type_) : M () :=
  let c := ContainerRef.container self in
  check_elem_layout type_param c;;
  match c with
  | VecU8 r => l ← (borrow_u8s r ≫= swap_elements idx1 idx2); Rc.replace r (U8s l);; mret ()
  | VecU64 r => l ← (borrow_u64s r ≫= swap_elements idx1 idx2); Rc.replace r (U64s l);; mret ()
  | VecU128 r => l ← (borrow_u128s r ≫= swap_elements idx1 idx2); Rc.replace r (U128s l);; mret ()
  | VecBool r => l ← (borrow_bools r ≫= swap_elements idx1 idx2); Rc.replace r (Bools l);; mret ()
  | VecAddress r => l ← (borrow_addresses r ≫= swap_elements idx1 idx2); Rc.replace r (Addresses l);; mret ()
  | Vec r => l ← (borrow_values r ≫= swap_elements idx1 idx2); Rc.replace r (Values l);; mret ()
  | Locals _ | Struct _ => st_panic
  end;;
  ContainerRef.mark_dirty self.
End VectorRef.

Module Vector.
Definition pack (type_param : RuntimeType.Type_) (elements : list Value) : M Value :=
  match type_param with
  | RuntimeType.U8 => l ← st_map cast_value_u8 elements; vector_u8 l
  | RuntimeType.U64 => l ← st_map cast_value_u64 elements; vector_u64 l
  | RuntimeType.U128 => l ← st_map cast_value_u128 elements; vector_u128 l
  | RuntimeType.Bool => l ← st_map cast_value_bool elements; vector_bool l
  | RuntimeType.Address => l ← st_map cast_value_address elements; vector_address l
  | RuntimeType.Signer | RuntimeType.Vector _ | RuntimeType.Struct _ | RuntimeType.StructInstantiation _ _ =>
    r ← Rc.new (Values elements); mret (ValueImpl.Container_ (Vec r))
  | RuntimeType.Reference _ | RuntimeType.MutableReference _ | RuntimeType.TyParam _ => fail UNKNOWN_INVARIANT_VIOLATION_ERROR
  end.

Definition empty (type_param : RuntimeType.Type_) : M Value := pack type_param [].

Definition unpack (self : Container) (type_param : RuntimeType.Type_) (expected_num : Z) : M (list Value) :=
  check_elem_layout type_param self;;
  elements ←
    match self with
    | VecU8 r => l ← (take_unique_ownership r ≫= as_u8s); mret (map ValueImpl.U8 l)
    | VecU64 r => l ← (take_unique_ownership r ≫= as_u64s); mret (map ValueImpl.U64 l)
    | VecU128 r => l ← (take_unique_ownership r ≫= as_u128s); mret (map ValueImpl.U128 l)
    | VecBool r => l ← (take_unique_ownership r ≫= as_bools); mret (map ValueImpl.Bool l)
    | VecAddress r => l ← (take_unique_ownership r ≫= as_addresses); mret (map ValueImpl.Address l)
    | Vec r => take_unique_ownership r ≫= as_values
    | Locals _ | Struct _ => st_panic
    end;
  if expected_num =? zlen (elements : list Value) then mret elements else st_err (vector_error VEC_UNPACK_PARITY_MISMATCH).

Definition destroy_empty (self : Container) (type_param : RuntimeType.Type_) : M () :=
  l ← unpack self type_param 0; st_for l drop_value.

Definition to_vec_u8 (self : Container) : M (list Z) :=
  check_elem_layout RuntimeType.U8 self;;
  match self with
  | VecU8 r => take_unique_ownership r ≫= as_u8s
  | _ => fail UNKNOWN_INVARIANT_VIOLATION_ERROR
  end.
End Vector.

(** * Structs *)

(** A [Struct] is the vector of its fields. *)
Definition pack (vals : list Value) : list ValueImpl := vals.
Definition unpack (fields : list ValueImpl) : M (list Value) := mret fields.

(** * Global values *)

Inductive GlobalValueEffect (T : Set) : Set :=
| NoEffect
| DeletedEffect
| Changed (v : T).
Arguments NoEffect {T}.
Arguments DeletedEffect {T}.
Arguments Changed {T} v.

Module GlobalValue.
Inductive GlobalValueImpl : Set :=
| None
| Fresh (fields : loc)
| Cached (fields status : loc)
| Deleted.

Definition cached_impl (val : ValueImpl) (status : GlobalDataStatus) : M GlobalValueImpl :=
  match val with
  | ValueImpl.Container_ (Struct fields) => status ← Rc.new (Status status); mret (Cached fields status)
  | _ => fail UNKNOWN_INVARIANT_VIOLATION_ERROR
  end.

Definition fresh (val : ValueImpl) : M GlobalValueImpl :=
  match val with
  | ValueImpl.Container_ (Struct fields) => mret (Fresh fields)
  | _ => fail UNKNOWN_INVARIANT_VIOLATION_ERROR
  end.

(** The operations that take [&mut self] also return the new state. *)
Definition move_from (self : GlobalValueImpl) : M (GlobalValueImpl * Value) :=
  '(self, fields) ←
    match self with
    | None | Deleted => fail MISSING_DATA
    | Fresh fields => mret (None, fields)
    | Cached fields status => drop_locs [status];; mret (Deleted, fields)
    end;
  n ← Rc.strong_count fields;
  if negb (n =? 1) then fail UNKNOWN_INVARIANT_VIOLATION_ERROR
  else mret (self, ValueImpl.Container_ (Struct fields)).

Definition move_to (self : GlobalValueImpl) (val : Value) : M GlobalValueImpl :=
  match self with
  | Fresh _ | Cached _ _ => fail RESOURCE_ALREADY_EXISTS
  | None => fresh val
  | Deleted => cached_impl val Dirty
  end.

Definition exists_ (self : GlobalValueImpl) : bool :=
  match self with
  | Fresh _ | Cached _ _ => true
  | None | Deleted => false
  end.

Definition borrow_global (self : GlobalValueImpl) : M Value :=
  match self with
  | None | Deleted => fail MISSING_DATA
  | Fresh fields => fields ← Rc.clone fields; mret (ValueImpl.ContainerRef_ (Local (Struct fields)))
  | Cached fields status =>
    fields ← Rc.clone fields;
    status ← Rc.clone status;
    mret (ValueImpl.ContainerRef_ (Global status (Struct fields)))
  end.

Definition into_effect (self : GlobalValueImpl) : M (GlobalValueEffect Value) :=
  match self with
  | None => mret NoEffect
  | Deleted => mret DeletedEffect
  | Fresh fields => mret (Changed (ValueImpl.Container_ (Struct fields)))
  | Cached fields status =>
    s ← borrow_status status;
    match s with
    | Dirty => drop_locs [status];; mret (Changed (ValueImpl.Container_ (Struct fields)))
    | Clean => drop_locs [fields; status];; mret NoEffect
    end
  end.

Definition is_mutated (self : GlobalValueImpl) : M bool :=
  match self with
  | None => mret false
  | Deleted => mret true
  | Fresh _ => mret true
  | Cached _ status =>
    s ← borrow_status status;
    match s with
    | Dirty => mret true
    | Clean => mret false
    end
  end.

Definition none : GlobalValueImpl := None.
Definition cached (val : Value) : M GlobalValueImpl := cached_impl val Clean.
End GlobalValue.
Abbreviation GlobalValue := GlobalValue.GlobalValueImpl.

(** * Abstract memory sizes *)

Definition CONST_SIZE : Z := 16.
Definition REFERENCE_SIZE : Z := 8.
Definition STRUCT_SIZE : Z := 2.
Definition MIN_EXISTS_DATA_SIZE : Z := 100.

(** The result of an operation on [u64], which panics on overflow. *)
Definition u64_result (x : Z) : M Z := if in_range u64_max x then mret x else st_panic.

Module Size.
(** [size_impl], given the size of the fields. *)
Fixpoint size_impl (size : ValueImpl -> M Z) (acc : Z) (fields : list ValueImpl) : M Z :=
  match fields with
  | [] => mret acc
  | v :: fields => n ← size v; acc ← u64_result (acc + n); size_impl size acc fields
  end.

Definition container_size (size : ValueImpl -> M Z) (self : Container) : M Z :=
  match self with
  | Locals r | Vec r | Struct r => l ← borrow_values r; size_impl size STRUCT_SIZE l
  | VecU8 r => l ← borrow_u8s r; u64_result (zlen l * 1)
  | VecU64 r => l ← borrow_u64s r; u64_result (zlen l * 8)
  | VecU128 r => l ← borrow_u128s r; u64_result (zlen l * 16)
  | VecBool r => l ← borrow_bools r; u64_result (zlen l * 1)
  | VecAddress r => l ← borrow_addresses r; u64_result (zlen l * Z.of_nat AccountAddress_LENGTH)
  end.

Fixpoint size_fuel (fuel : nat) (self : ValueImpl) : M Z :=
  match fuel with
  | O => fun _ => OutOfFuel
  | S fuel =>
    match self with
    | ValueImpl.Invalid | ValueImpl.U8 _ | ValueImpl.U64 _ | ValueImpl.U128 _ | ValueImpl.Bool _ => mret CONST_SIZE
    | ValueImpl.Address _ => mret (Z.of_nat AccountAddress_LENGTH)
    | ValueImpl.ContainerRef_ _ | ValueImpl.IndexedRef_ _ => mret REFERENCE_SIZE
    | ValueImpl.Container_ c => container_size (size_fuel fuel) c
    end
  end.

Definition size (self : Value) : M Z := fun h => size_fuel (S (stdpp.base.size h)) self h.

Definition global_size (self : GlobalValue) : Z :=
  match self with
  | GlobalValue.Fresh _ | GlobalValue.Cached _ _ => REFERENCE_SIZE
  | GlobalValue.Deleted | GlobalValue.None => MIN_EXISTS_DATA_SIZE
  end.
End Size.
