(* ===== verification/VmOwnership.v ===== *)
(** What the values of the virtual machine mean: a tree without sharing, held in boxes of
    the store that no other part of the value uses.  Copying a value, comparing two values
    and dropping one, in terms of these trees. *)
From stdpp Require Import gmap.
From S2P Require Import Prelude StatusCode FileFormat VmValues.

(** * Trees *)

Inductive layout : Set :=
| LBool | LU8 | LU64 | LU128 | LAddress | LSigner
| LVector (ly : layout)
| LStruct (fields : list layout).

Inductive tree : Set :=
| TBool (b : bool)
| TU8 (x : Z)
| TU64 (x : Z)
| TU128 (x : Z)
| TAddress (a : AccountAddress)
| TSigner (a : AccountAddress)
| TVector (l : list tree)
| TStruct (l : list tree).

(** The values that are not containers. *)
Inductive prim : layout -> ValueImpl -> tree -> Prop :=
| prim_bool x : prim LBool (ValueImpl.Bool x) (TBool x)
| prim_u8 x : prim LU8 (ValueImpl.U8 x) (TU8 x)
| prim_u64 x : prim LU64 (ValueImpl.U64 x) (TU64 x)
| prim_u128 x : prim LU128 (ValueImpl.U128 x) (TU128 x)
| prim_address x : prim LAddress (ValueImpl.Address x) (TAddress x).

(** The vectors whose elements are stored unboxed. *)
Inductive prim_vec : layout -> (loc -> Container) -> Contents -> list tree -> Prop :=
| prim_vec_bool l : prim_vec LBool VecBool (Bools l) (map TBool l)
| prim_vec_u8 l : prim_vec LU8 VecU8 (U8s l) (map TU8 l)
| prim_vec_u64 l : prim_vec LU64 VecU64 (U64s l) (map TU64 l)
| prim_vec_u128 l : prim_vec LU128 VecU128 (U128s l) (map TU128 l)
| prim_vec_address l : prim_vec LAddress VecAddress (Addresses l) (map TAddress l).

(** The layouts of containers, the elements of [Container::Vec]. *)
Definition boxed (ly : layout) : Prop :=
  match ly with LSigner | LVector _ | LStruct _ => True | _ => False end.

Definition box (h : Store) (r : loc) (c : Contents) : Prop := RcBox.contents <$> h !! r = Some c.

(** [rep h ly v t L]: in the store [h] the value [v] of layout [ly] is the tree [t], and its
    containers are the boxes [L]. *)
Inductive rep (h : Store) : layout -> ValueImpl -> tree -> list loc -> Prop :=
| rep_prim ly v t : prim ly v t -> rep h ly v t []
| rep_prim_vec ly mk c ts r : prim_vec ly mk c ts -> box h r c ->
    rep h (LVector ly) (ValueImpl.Container_ (mk r)) (TVector ts) [r]
| rep_vec ly r vs ts L : boxed ly -> box h r (Values vs) -> reps h (replicate (length vs) ly) vs ts L -> r ∉ L ->
    rep h (LVector ly) (ValueImpl.Container_ (Vec r)) (TVector ts) (r :: L)
| rep_struct lys r vs ts L : box h r (Values vs) -> reps h lys vs ts L -> r ∉ L ->
    rep h (LStruct lys) (ValueImpl.Container_ (Struct r)) (TStruct ts) (r :: L)
| rep_signer r a : box h r (Values [ValueImpl.Address a]) ->
    rep h LSigner (ValueImpl.Container_ (Struct r)) (TSigner a) [r]
with reps (h : Store) : list layout -> list ValueImpl -> list tree -> list loc -> Prop :=
| reps_nil : reps h [] [] [] []
| reps_cons ly lys v vs t ts L1 L2 : rep h ly v t L1 -> reps h lys vs ts L2 -> L1 ## L2 ->
    reps h (ly :: lys) (v :: vs) (t :: ts) (L1 ++ L2).

Scheme rep_mut := Minimality for rep Sort Prop with reps_mut := Minimality for reps Sort Prop.
Combined Scheme rep_reps_ind from rep_mut, reps_mut.

#[export] Hint Constructors prim prim_vec rep reps : vm.

(** * Footprints *)

Definition same_contents (h h' : Store) (L : list loc) : Prop :=
  forall r, r ∈ L -> RcBox.contents <$> h' !! r = RcBox.contents <$> h !! r.

Lemma same_contents_app h h' L1 L2 : same_contents h h' (L1 ++ L2) <-> same_contents h h' L1 /\ same_contents h h' L2.
Proof. unfold same_contents. setoid_rewrite elem_of_app. naive_solver. Qed.

Lemma same_contents_cons h h' r L :
  same_contents h h' (r :: L) <-> RcBox.contents <$> h' !! r = RcBox.contents <$> h !! r /\ same_contents h h' L.
Proof. unfold same_contents. setoid_rewrite elem_of_cons. naive_solver. Qed.

Lemma box_frame h h' r c : box h r c -> RcBox.contents <$> h' !! r = RcBox.contents <$> h !! r -> box h' r c.
Proof. unfold box. congruence. Qed.

Ltac split_contents :=
  repeat match goal with
  | H : same_contents _ _ (_ :: _) |- _ => apply same_contents_cons in H as [? ?]
  | H : same_contents _ _ (_ ++ _) |- _ => apply same_contents_app in H as [? ?]
  end.

Lemma rep_frame_both h h' :
  (forall ly v t L, rep h ly v t L -> same_contents h h' L -> rep h' ly v t L) /\
  (forall lys vs ts L, reps h lys vs ts L -> same_contents h h' L -> reps h' lys vs ts L).
Proof. apply rep_reps_ind; intros; split_contents; eauto using box_frame with vm. Qed.
Definition rep_frame h h' := proj1 (rep_frame_both h h').
Definition reps_frame h h' := proj2 (rep_frame_both h h').

(** Counts do not matter, and the boxes of a value are there, each once. *)
Lemma box_lookup h r c : box h r c -> exists n, h !! r = Some (RcBox.mk n c).
Proof. unfold box. destruct (h !! r) as [[n c']|] eqn:E; simpl; [intros [= ->]; eauto|discriminate]. Qed.

Lemma box_is_Some h r c : box h r c -> is_Some (h !! r).
Proof. intros [n E]%box_lookup. eauto. Qed.

Lemma rep_dom_both h :
  (forall ly v t L, rep h ly v t L -> forall r, r ∈ L -> is_Some (h !! r)) /\
  (forall lys vs ts L, reps h lys vs ts L -> forall r, r ∈ L -> is_Some (h !! r)).
Proof.
  apply rep_reps_ind; intros;
    repeat match goal with
    | H : _ ∈ [] |- _ => by apply elem_of_nil in H
    | H : _ ∈ _ :: _ |- _ => apply elem_of_cons in H as [->|H]
    | H : _ ∈ _ ++ _ |- _ => apply elem_of_app in H as [H|H]
    end; eauto using box_is_Some.
Qed.
Definition rep_dom h := proj1 (rep_dom_both h).
Definition reps_dom h := proj2 (rep_dom_both h).

Lemma rep_NoDup_both h :
  (forall ly v t L, rep h ly v t L -> NoDup L) /\ (forall lys vs ts L, reps h lys vs ts L -> NoDup L).
Proof.
  apply rep_reps_ind; intros; rewrite ?list.NoDup_app, ?list.NoDup_cons; repeat split; auto using NoDup_nil_2;
    try (by rewrite elem_of_nil); set_solver.
Qed.
Definition rep_NoDup h := proj1 (rep_NoDup_both h).
Definition reps_NoDup h := proj2 (rep_NoDup_both h).

Lemma footprint_size (h : Store) (L : list loc) : NoDup L -> (forall r, r ∈ L -> is_Some (h !! r)) -> (length L <= size h)%nat.
Proof.
  intros HN HD. pose proof (size_dom (D := gset loc) h) as Es. pose proof (size_list_to_set (C := gset loc) L HN) as El.
  rewrite <- El. etrans; [apply subseteq_size|exact (Nat.eq_le_incl _ _ Es)]. intros r Hr%elem_of_list_to_set. by apply elem_of_dom, HD.
Qed.

Lemma rep_size h ly v t L : rep h ly v t L -> (length L <= size h)%nat.
Proof. intros HR. eapply footprint_size; eauto using rep_NoDup, rep_dom. Qed.

Lemma reps_length h lys vs ts L : reps h lys vs ts L -> length lys = length vs /\ length ts = length vs.
Proof. induction 1; simpl; naive_solver lia. Qed.

(** * The steps on the store *)


Lemma get_lookup h r b : h !! r = Some b -> Rc.get r h = Ok (b, h).
Proof. unfold Rc.get. by intros ->. Qed.

Lemma get_none h r : h !! r = None -> Rc.get r h = Panic.
Proof. unfold Rc.get. by intros ->. Qed.

Lemma put_run r b h : Rc.put r b h = Ok ((), <[r := b]> h).
Proof. done. Qed.

Lemma free_run r h : Rc.free r h = Ok ((), delete r h).
Proof. done. Qed.

Lemma borrow_box h r c : box h r c -> Rc.borrow r h = Ok (c, h).
Proof. intros [n E]%box_lookup. unfold Rc.borrow, mbind, ST_bind. by rewrite (get_lookup _ _ _ E). Qed.

Lemma replace_box h r n c c' : h !! r = Some (RcBox.mk n c) -> Rc.replace r c' h = Ok (c, <[r := RcBox.mk n c']> h).
Proof. intros E. unfold Rc.replace, mbind, ST_bind. by rewrite (get_lookup _ _ _ E). Qed.

Lemma borrow_values_box h r l : box h r (Values l) -> borrow_values r h = Ok (l, h).
Proof. intros E. unfold borrow_values, mbind, ST_bind. by rewrite (borrow_box _ _ _ E). Qed.

(** Run the next step of a monadic program. *)
Lemma st_bind_run {A B} (m : M A) (f : A -> M B) h a h1 : m h = Ok (a, h1) -> (m ≫= f) h = f a h1.
Proof. unfold mbind, ST_bind. by intros ->. Qed.

(** * Copying *)

(** From [h1] to [h2] the boxes [L] were allocated, each with one pointer to it, and nothing
    else changed. *)
Definition allocates (h1 h2 : Store) (L : list loc) : Prop :=
  h1 ⊆ h2 /\ (forall r, r ∈ L <-> h1 !! r = None /\ is_Some (h2 !! r)) /\
  (forall r, r ∈ L -> exists c, h2 !! r = Some (RcBox.mk 1 c)).

Lemma allocates_nil h : allocates h h [].
Proof.
  split_and!; [done| |by intros r ?%elem_of_nil].
  intros r. split; [by intros ?%elem_of_nil|intros [E [b Hb]]; congruence].
Qed.

Lemma allocates_disjoint h1 h2 h3 L1 L2 : allocates h1 h2 L1 -> allocates h2 h3 L2 -> L1 ## L2.
Proof. intros (_ & H1 & _) (_ & H2 & _) r [_ [b Hb]]%H1 [E _]%H2. congruence. Qed.

Lemma allocates_trans h1 h2 h3 L1 L2 : allocates h1 h2 L1 -> allocates h2 h3 L2 -> allocates h1 h3 (L1 ++ L2).
Proof.
  intros (HS1 & H1 & HC1) (HS2 & H2 & HC2). split_and!; [by etrans| |].
  - intros r. rewrite elem_of_app, H1, H2. split.
    + intros [[E [b Hb]]|[E Hs]]; split; eauto using lookup_weaken, lookup_weaken_None.
    + intros [E Hs]. destruct (h2 !! r) eqn:E2; eauto.
  - intros r [Hr|Hr]%elem_of_app; [|by apply HC2]. destruct (HC1 r Hr) as [c Hc]. eauto using lookup_weaken.
Qed.

Lemma allocates_last h1 h2 L r : allocates h1 h2 (L ++ [r]) -> allocates h1 h2 (r :: L).
Proof.
  assert (forall r', r' ∈ r :: L <-> r' ∈ L ++ [r]) as HE by (intros; rewrite elem_of_app, elem_of_cons, list_elem_of_singleton; tauto).
  intros (HS & HL & HC). split_and!; [done| |]; intros r'; rewrite HE; auto.
Qed.

Lemma allocates_new c h : exists r, Rc.new c h = Ok (r, <[r := RcBox.mk 1 c]> h) /\ allocates h (<[r := RcBox.mk 1 c]> h) [r] /\
  box (<[r := RcBox.mk 1 c]> h) r c.
Proof.
  exists (fresh (dom h : gset loc)). set (r := fresh _). assert (h !! r = None) as Hr by apply not_elem_of_dom, is_fresh.
  split; [done|]. unfold box. rewrite lookup_insert_eq. split; [|done]. split_and!; [by apply insert_subseteq| |].
  - intros r'. rewrite list_elem_of_singleton. split; [intros ->; rewrite lookup_insert_eq; eauto|].
    intros [E Hs]. destruct (decide (r = r')) as [|Hne]; [done|]. rewrite lookup_insert_ne, E in Hs by done. by destruct Hs.
  - intros r' ->%list_elem_of_singleton. rewrite lookup_insert_eq. eauto.
Qed.

Lemma subseteq_contents (h h' : Store) L : h ⊆ h' -> (forall r, r ∈ L -> is_Some (h !! r)) -> same_contents h h' L.
Proof. intros HS HD r Hr. destruct (HD r Hr) as [b Hb]. by rewrite Hb, (lookup_weaken _ _ _ _ Hb HS). Qed.

Lemma rep_weaken h h' ly v t L : h ⊆ h' -> rep h ly v t L -> rep h' ly v t L.
Proof. intros HS HR. eapply rep_frame; [done|]. eapply subseteq_contents; eauto using rep_dom. Qed.
Lemma reps_weaken h h' lys vs ts L : h ⊆ h' -> reps h lys vs ts L -> reps h' lys vs ts L.
Proof. intros HS HR. eapply reps_frame; [done|]. eapply subseteq_contents; eauto using reps_dom. Qed.
Lemma box_weaken h h' r c : h ⊆ h' -> box h r c -> box h' r c.
Proof. intros HS [n E]%box_lookup. unfold box. by rewrite (lookup_weaken _ _ _ _ E HS). Qed.

#[local] Opaque Rc.new Rc.get Rc.put Rc.free Rc.borrow Rc.replace Rc.clone.

(** [m] run in [h1] gives a new value that is the tree [t]. *)
Definition makes {A} (h1 : Store) (m : M A) (P : Store -> A -> list loc -> Prop) : Prop :=
  exists a h2 L, m h1 = Ok (a, h2) /\ allocates h1 h2 L /\ P h2 a L.

Lemma makes_bind {A B} h1 (m : M A) (f : A -> B) P (Q : Store -> B -> list loc -> Prop) :
  makes h1 m P -> (forall h2 a L, P h2 a L -> Q h2 (f a) L) -> makes h1 (a ← m; mret (f a)) Q.
Proof. intros (a & h2 & L & E & HA & HP) HQ. exists (f a), h2, L. by rewrite (st_bind_run _ _ _ _ _ E); auto. Qed.

Lemma copy_prim fuel h ly v t : prim ly v t -> (0 < fuel)%nat -> copy_value_fuel fuel v h = Ok (v, h).
Proof. destruct fuel; [lia|]. by destruct 1. Qed.

Lemma copy_prim_vec fuel h1 ly mk c ts r : prim_vec ly mk c ts -> box h1 r c -> (0 < fuel)%nat ->
  makes h1 (copy_value_fuel fuel (ValueImpl.Container_ (mk r))) (fun h2 v L => rep h2 (LVector ly) v (TVector ts) L).
Proof.
  intros HP HB Hf. destruct fuel as [|fuel]; [lia|]. destruct (allocates_new c h1) as (r' & Hn & HA & HB').
  exists (ValueImpl.Container_ (mk r')), (<[r' := RcBox.mk 1 c]> h1), [r']. split_and!; [|done|by econstructor].
  destruct HP; cbn [copy_value_fuel Container.copy_value]; unfold mbind, ST_bind;
    unfold borrow_bools, borrow_u8s, borrow_u64s, borrow_u128s, borrow_addresses, mbind, ST_bind;
    rewrite (borrow_box _ _ _ HB); simpl; by rewrite Hn.
Qed.

(** The fields of a signer. *)
Lemma reps_address h a : reps h [LAddress] [ValueImpl.Address a] [TAddress a] [].
Proof. apply (reps_cons _ _ _ _ _ _ _ [] []); [repeat constructor..|]. by intros r ?%elem_of_nil. Qed.

Lemma reps_address_inv h vs a L : reps h [LAddress] vs [TAddress a] L -> vs = [ValueImpl.Address a] /\ L = [].
Proof.
  inversion 1 as [|???? ?? L1 L2 HR1 HR2]; subst. inversion HR2; subst.
  inversion HR1 as [??? HP| | | |]; subst. by inversion HP; subst.
Qed.

(** The boxes of the elements, then the box that holds them. *)
Lemma makes_container {A} (mk : loc -> A) h1 (copy : ValueImpl -> M ValueImpl) r vs lys ts :
  box h1 r (Values vs) -> makes h1 (st_map copy vs) (fun h2 vs' L => reps h2 lys vs' ts L) ->
  makes h1 (l ← borrow_values r; l ← st_map copy l; r ← Rc.new (Values l); mret (mk r)) (fun h2 a L =>
    exists r' vs' L', a = mk r' /\ L = r' :: L' /\ box h2 r' (Values vs') /\ reps h2 lys vs' ts L' /\ r' ∉ L').
Proof.
  intros HB (vs' & h2 & L & Hm & HA & HR). destruct (allocates_new (Values vs') h2) as (r' & Hn & HA' & HB').
  exists (mk r'), (<[r' := RcBox.mk 1 (Values vs')]> h2), (r' :: L). split_and!.
  - rewrite (st_bind_run _ _ _ _ _ (borrow_values_box _ _ _ HB)), (st_bind_run _ _ _ _ _ Hm), (st_bind_run _ _ _ _ _ Hn). done.
  - by eapply allocates_last, allocates_trans.
  - exists r', vs', L. split_and!; [done..| |].
    + eapply reps_weaken; [apply HA'|done].
    + intros Hr. by apply (allocates_disjoint _ _ _ _ _ HA HA' r' Hr), list_elem_of_singleton.
Qed.

Lemma copy_reps_both h :
  (forall ly v t L, rep h ly v t L -> forall fuel h1, h ⊆ h1 -> (length L < fuel)%nat ->
    makes h1 (copy_value_fuel fuel v) (fun h2 v' L' => rep h2 ly v' t L')) /\
  (forall lys vs ts L, reps h lys vs ts L -> forall fuel h1, h ⊆ h1 -> (length L < fuel)%nat ->
    makes h1 (st_map (copy_value_fuel fuel) vs) (fun h2 vs' L' => reps h2 lys vs' ts L')).
Proof.
  apply rep_reps_ind.
  - intros ly v t HP fuel h1 HS Hf. exists v, h1, []. split_and!; [by eapply copy_prim|apply allocates_nil|by constructor].
  - intros ly mk c ts r HP HB fuel h1 HS Hf. apply (copy_prim_vec fuel h1 ly mk c ts r HP); [by eapply box_weaken|]. simpl in Hf. lia.
  - intros ly r vs ts L Hly HB HR IH Hr [|fuel] h1 HS Hf; [lia|].
    eapply makes_bind; [eapply (makes_container Vec); [eapply box_weaken; eassumption|apply IH; [done|simpl in Hf; lia]]|].
    intros ??? (r' & vs' & L' & -> & -> & HB' & HR' & Hr'). apply (rep_vec _ _ _ vs'); [done..| |done]. pose proof (reps_length _ _ _ _ _ HR) as [_ E1]. pose proof (reps_length _ _ _ _ _ HR') as [_ E2].
    by rewrite <- E2, E1.
  - intros lys r vs ts L HB HR IH Hr [|fuel] h1 HS Hf; [lia|].
    eapply makes_bind; [eapply (makes_container Struct); [eapply box_weaken; eassumption|apply IH; [done|simpl in Hf; lia]]|].
    intros ??? (r' & vs' & L' & -> & -> & HB' & HR' & Hr'). by apply (rep_struct _ _ _ vs').
  - intros r a HB [|fuel] h1 HS Hf; [lia|].
    eapply makes_bind; [apply (makes_container Struct _ _ _ [ValueImpl.Address a] [LAddress] [TAddress a]); [by eapply box_weaken|]|].
    + destruct fuel as [|fuel]; [simpl in Hf; lia|]. exists [ValueImpl.Address a], h1, [].
      split_and!; [done|apply allocates_nil|apply reps_address].
    + intros ??? (r' & vs' & L' & -> & -> & HB' & [-> ->]%reps_address_inv & Hr'). by constructor.
  - intros fuel h1 HS Hf. exists [], h1, []. split_and!; [done|apply allocates_nil|constructor].
  - intros ly lys v vs t ts L1 L2 HR1 IH1 HR2 IH2 HD fuel h1 HS Hf. rewrite length_app in Hf.
    destruct (IH1 fuel h1 HS ltac:(lia)) as (v' & h2 & L1' & E1 & HA1 & HR1').
    destruct (IH2 fuel h2 ltac:(etrans; [done|apply HA1]) ltac:(lia)) as (vs' & h3 & L2' & E2 & HA2 & HR2').
    exists (v' :: vs'), h3, (L1' ++ L2'). split_and!.
    + simpl. by rewrite (st_bind_run _ _ _ _ _ E1), (st_bind_run _ _ _ _ _ E2).
    + by eapply allocates_trans.
    + constructor; [eapply rep_weaken; [apply HA2|done]|done|by eapply allocates_disjoint].
Qed.

(** [copy_value]: the copy is the same tree in boxes of its own. *)
Lemma copy_value_makes h ly v t L : rep h ly v t L -> makes h (copy_value v) (fun h2 v' L' => rep h2 ly v' t L').
Proof.
  intros HR. pose proof (rep_size _ _ _ _ _ HR) as Hs. unfold makes, copy_value.
  eapply (proj1 (copy_reps_both h)); [done..|]. lia.
Qed.

(** * Comparing *)

Lemma map_inj {A B} (f : A -> B) l1 l2 : (forall x y, f x = f y -> x = y) -> map f l1 = map f l2 <-> l1 = l2.
Proof.
  intros Hf. split; [|by intros ->]. revert l2. induction l1 as [|x l1 IH]; intros [|y l2]; try done.
  simpl. intros [= E1%Hf E2%IH]. by subst.
Qed.

(** The comparison returns, without touching the store, whether [P]. *)
Definition decides (h : Store) (m : M bool) (P : Prop) : Prop := exists b, m h = Ok (b, h) /\ (b = true <-> P).

Lemma decides_iff h m P Q : decides h m P -> (P <-> Q) -> decides h m Q.
Proof. intros (b & E & HP) HQ. exists b. by rewrite <- HQ. Qed.

(** A comparison of two primitive values. *)
Ltac decide_prims := eexists; (split; [done|]); rewrite ?eqb_true_iff, ?Z.eqb_eq, ?bool_decide_eq_true; split; congruence.

Lemma equals_prim fuel h ly v1 v2 t1 t2 : prim ly v1 t1 -> prim ly v2 t2 -> (0 < fuel)%nat ->
  decides h (equals_fuel fuel v1 v2) (t1 = t2).
Proof.
  intros H1 H2 Hf. destruct fuel as [|fuel]; [lia|]. destruct H1; inversion H2; subst; decide_prims.
Qed.

Lemma borrow_u8s_box h r l : box h r (U8s l) -> borrow_u8s r h = Ok (l, h).
Proof. intros E. unfold borrow_u8s, mbind, ST_bind. by rewrite (borrow_box _ _ _ E). Qed.
Lemma borrow_u64s_box h r l : box h r (U64s l) -> borrow_u64s r h = Ok (l, h).
Proof. intros E. unfold borrow_u64s, mbind, ST_bind. by rewrite (borrow_box _ _ _ E). Qed.
Lemma borrow_u128s_box h r l : box h r (U128s l) -> borrow_u128s r h = Ok (l, h).
Proof. intros E. unfold borrow_u128s, mbind, ST_bind. by rewrite (borrow_box _ _ _ E). Qed.
Lemma borrow_bools_box h r l : box h r (Bools l) -> borrow_bools r h = Ok (l, h).
Proof. intros E. unfold borrow_bools, mbind, ST_bind. by rewrite (borrow_box _ _ _ E). Qed.
Lemma borrow_addresses_box h r l : box h r (Addresses l) -> borrow_addresses r h = Ok (l, h).
Proof. intros E. unfold borrow_addresses, mbind, ST_bind. by rewrite (borrow_box _ _ _ E). Qed.
Lemma borrow_status_box h r s : box h r (Status s) -> borrow_status r h = Ok (s, h).
Proof. intros E. unfold borrow_status, mbind, ST_bind. by rewrite (borrow_box _ _ _ E). Qed.
#[export] Hint Resolve borrow_values_box borrow_u8s_box borrow_u64s_box borrow_u128s_box borrow_bools_box
  borrow_addresses_box borrow_status_box : run.

(** One step whose effect a lemma of [run] states. *)
Ltac step := erewrite st_bind_run by eauto with run.

Lemma equals_prim_vec fuel h ly mk1 mk2 c1 c2 ts1 ts2 r1 r2 :
  prim_vec ly mk1 c1 ts1 -> prim_vec ly mk2 c2 ts2 -> box h r1 c1 -> box h r2 c2 ->
  decides h (Container.equals (equals_fuel fuel) (mk1 r1) (mk2 r2)) (TVector ts1 = TVector ts2).
Proof.
  intros H1 H2 HB1 HB2.
  destruct H1; inversion H2; subst; cbn [Container.equals]; unfold decides; do 2 step; eexists; (split; [done|]);
    rewrite bool_decide_eq_true; (split; [by intros ->|]); intros [= E]; apply map_inj in E; congruence.
Qed.

Lemma prim_vec_not_boxed ly mk c ts : prim_vec ly mk c ts -> boxed ly -> False.
Proof. by destruct 1. Qed.

(** The comparison of two boxes of elements. *)
Lemma equals_elements h (eq : ValueImpl -> ValueImpl -> M bool) r1 r2 vs1 vs2 (ts1 ts2 : list tree) mk :
  (mk = Vec \/ mk = Struct) -> box h r1 (Values vs1) -> box h r2 (Values vs2) ->
  length ts1 = length vs1 -> length ts2 = length vs2 ->
  (length vs1 = length vs2 -> decides h (Container.equal_elements eq vs1 vs2) (ts1 = ts2)) ->
  decides h (Container.equals eq (mk r1) (mk r2)) (ts1 = ts2).
Proof.
  intros Hmk HB1 HB2 E1 E2 HD. assert (Container.equals eq (mk r1) (mk r2) =
    (l ← borrow_values r1; r ← borrow_values r2;
     if negb (Nat.eqb (length l) (length r)) then mret false else Container.equal_elements eq l r)) as -> by (by destruct Hmk; subst).
  unfold decides. do 2 step. destruct (Nat.eqb_spec (length vs1) (length vs2)) as [E|E]; [by apply HD|].
  exists false. split; [done|]. split; [done|]. intros ->. congruence.
Qed.

Lemma equals_reps_both h :
  (forall ly v1 t1 L1, rep h ly v1 t1 L1 -> forall fuel v2 t2 L2, rep h ly v2 t2 L2 -> (length L1 < fuel)%nat ->
    decides h (equals_fuel fuel v1 v2) (t1 = t2)) /\
  (forall lys vs1 ts1 L1, reps h lys vs1 ts1 L1 -> forall fuel vs2 ts2 L2, reps h lys vs2 ts2 L2 -> (length L1 < fuel)%nat ->
    decides h (Container.equal_elements (equals_fuel fuel) vs1 vs2) (ts1 = ts2)).
Proof.
  apply rep_reps_ind.
  - intros ly v1 t1 HP fuel v2 t2 L2 HR Hf. apply (equals_prim fuel h ly); [done| |done].
    destruct HR; [done|by inversion HP..].
  - intros ly mk c ts r HP HB [|fuel] v2 t2 L2 HR Hf; [lia|]. inversion HR as [??? HP2|????? HP2 HB2|????? Hb| |]; subst.
    + by inversion HP2.
    + by apply (equals_prim_vec fuel h ly mk mk0 c c0 ts ts0 r r0).
    + by destruct (prim_vec_not_boxed _ _ _ _ HP).
  - intros ly r vs ts L Hly HB HR IH Hr [|fuel] v2 t2 L2 HR2 Hf; [lia|]. simpl in Hf.
    inversion HR2 as [??? HP2|????? HP2 HB2|???? L2' Hb HB2 HRs Hr2| |]; subst.
    + by inversion HP2.
    + by destruct (prim_vec_not_boxed _ _ _ _ HP2).
    + apply (decides_iff _ _ (ts = ts0)); [|split; congruence].
      eapply (equals_elements _ _ _ _ _ _ _ _ Vec); [auto|done..| | |]; [by eapply reps_length..|].
      intros E. rewrite <- E in HRs. eapply IH; [done|lia].
  - intros lys r vs ts L HB HR IH Hr [|fuel] v2 t2 L2 HR2 Hf; [lia|]. simpl in Hf.
    inversion HR2 as [??? HP2| | |???? L2' HB2 HRs Hr2|]; subst; [by inversion HP2|].
    apply (decides_iff _ _ (ts = ts0)); [|split; congruence].
    eapply (equals_elements _ _ _ _ _ _ _ _ Struct); [auto|done..| | |]; [by eapply reps_length..|].
    intros E. eapply IH; [done|lia].
  - intros r a HB [|fuel] v2 t2 L2 HR2 Hf; [lia|]. inversion HR2 as [??? HP2| | | |r2 a2 HB2]; subst; [by inversion HP2|].
    apply (decides_iff _ _ ([TAddress a] = [TAddress a2])); [|split; congruence].
    eapply (equals_elements _ _ _ _ _ _ _ _ Struct); [auto|done..|]. intros _.
    destruct fuel as [|fuel]; [simpl in Hf; lia|]. exists (bool_decide ((a : list Z) = a2)). split.
    + simpl. unfold mbind, ST_bind, mret, ST_ret. by destruct (bool_decide _).
    + rewrite bool_decide_eq_true. split; congruence.
  - intros fuel vs2 ts2 L2 HR _. inversion HR; subst. by exists true.
  - intros ly lys v vs t ts L1 L2 HR1 IH1 HR2 IH2 HD fuel vs2 ts2 L2' HR Hf. rewrite length_app in Hf.
    inversion HR as [|??? ws ? us ?? HS1 HS2]; subst. destruct (IH1 fuel _ _ _ HS1 ltac:(lia)) as (b & Eb & Hb).
    unfold decides. cbn [Container.equal_elements]. rewrite (st_bind_run _ _ _ _ _ Eb). destruct b; simpl.
    + destruct (IH2 fuel _ _ _ HS2 ltac:(lia)) as (b & Eb' & Hb'). exists b. split; [done|]. rewrite Hb'.
      destruct (proj1 Hb eq_refl). split; congruence.
    + exists false. split; [done|]. split; [done|]. intros [= -> _]. by apply Hb.
Qed.

Lemma equals_decides h ly v1 v2 t1 t2 L1 L2 : rep h ly v1 t1 L1 -> rep h ly v2 t2 L2 -> decides h (equals v1 v2) (t1 = t2).
Proof.
  intros HR1 HR2. pose proof (rep_size _ _ _ _ _ HR1) as Hs. unfold decides, equals.
  eapply (proj1 (equals_reps_both h)); [done..|]. lia.
Qed.

(** * Dropping *)

Definition unique (h : Store) (L : list loc) : Prop := forall r, r ∈ L -> exists c, h !! r = Some (RcBox.mk 1 c).

(** From [h1] to [h2] no more than pointers to the boxes [L] were dropped; the boxes are gone
    if these were the last ones. *)
Definition dropped (h1 h2 : Store) (L : list loc) : Prop :=
  (forall r, r ∉ L -> h2 !! r = h1 !! r) /\ (unique h1 L -> forall r, r ∈ L -> h2 !! r = None).

Definition drops (h1 : Store) (m : M ()) (L : list loc) : Prop := exists h2, m h1 = Ok ((), h2) /\ dropped h1 h2 L.

Lemma dropped_nil h : dropped h h [].
Proof. split; [done|]. by intros _ r ?%elem_of_nil. Qed.

Lemma dropped_app h1 h2 h3 L1 L2 : L1 ## L2 -> dropped h1 h2 L1 -> dropped h2 h3 L2 -> dropped h1 h3 (L1 ++ L2).
Proof.
  intros HD [H1 U1] [H2 U2]. split.
  - intros r Hr. rewrite elem_of_app in Hr. rewrite H2, H1; tauto.
  - intros HU r [Hr|Hr]%elem_of_app.
    + rewrite H2 by (intros Hr2; by apply (HD r)). apply U1; [|done]. intros r' Hr'. apply HU, elem_of_app. auto.
    + apply U2; [|done]. intros r' Hr'. rewrite H1; [apply HU, elem_of_app; auto|]. intros Hr''. by apply (HD r').
Qed.

Lemma dropped_contents h h1 h2 L1 L2 : L1 ## L2 -> dropped h1 h2 L1 -> same_contents h h1 L2 -> same_contents h h2 L2.
Proof. intros HD [HO _] HS r Hr. rewrite HO; [by apply HS|]. intros Hr1. by apply (HD r). Qed.

(** Dropping the pointer to a box whose contents are dropped by [IH]. *)
Lemma drop_loc_box fuel h1 r c L : box h1 r c -> r ∉ L ->
  (forall h, h = delete r h1 -> drops h (st_for (contents_pointers c) (drop_loc fuel)) L) ->
  drops h1 (st_for [r] (drop_loc (S fuel))) (r :: L).
Proof.
  intros [n E]%box_lookup Hr IH.
  assert (forall h2, drop_loc (S fuel) r h1 = Ok ((), h2) -> st_for [r] (drop_loc (S fuel)) h1 = Ok ((), h2)) as Hone.
  { intros h2 E2. cbn [st_for]. by rewrite (st_bind_run _ _ _ _ _ E2). }
  destruct (Z.eqb_spec n 1) as [->|Hn].
  - destruct (IH _ eq_refl) as (h2 & E2 & HO & HU). exists h2. split.
    + apply Hone. cbn [drop_loc]. rewrite (st_bind_run _ _ _ _ _ (get_lookup _ _ _ E)). simpl.
      by rewrite (st_bind_run _ _ _ _ _ (free_run _ _)).
    + split.
      * intros r' [Hne Hr']%not_elem_of_cons. rewrite HO by done. by apply lookup_delete_ne.
      * intros HU1 r' [->|Hr']%elem_of_cons; [rewrite HO by done; apply lookup_delete_eq|].
        apply HU; [|done]. intros r2 Hr2. rewrite lookup_delete_ne by (intros ->; done). apply HU1, elem_of_cons. auto.
  - exists (<[r := RcBox.mk (n - 1) c]> h1). split.
    + apply Hone. cbn [drop_loc]. rewrite (st_bind_run _ _ _ _ _ (get_lookup _ _ _ E)). simpl.
      apply Z.eqb_neq in Hn as ->. by rewrite put_run.
    + split; [intros r' [Hne Hr']%not_elem_of_cons; by apply lookup_insert_ne|].
      intros HU. destruct (HU r) as [c' E']; [apply elem_of_cons; auto|]. congruence.
Qed.

Lemma drops_run h1 (m : M ()) (f : M ()) L1 L2 : L1 ## L2 -> drops h1 m L1 -> (forall h2, dropped h1 h2 L1 -> drops h2 f L2) ->
  drops h1 (m;; f) (L1 ++ L2).
Proof.
  intros HD (h2 & E & H1) Hf. destruct (Hf h2 H1) as (h3 & E3 & H2). exists h3.
  split; [by rewrite (st_bind_run _ _ _ _ _ E)|by eapply dropped_app].
Qed.

Lemma drop_for_app {A} (l1 l2 : list A) (f : A -> M ()) h : st_for (l1 ++ l2) f h = (st_for l1 f;; st_for l2 f) h.
Proof.
  revert h. induction l1 as [|x l1 IH]; intros h; [done|]. simpl. unfold mbind, ST_bind in *.
  destruct (f x h) as [[[] h']| | |]; [apply IH|done..].
Qed.

Lemma drop_reps_both h :
  (forall ly v t L, rep h ly v t L -> forall fuel h1, same_contents h h1 L -> (length L <= fuel)%nat ->
    drops h1 (st_for (pointers v) (drop_loc fuel)) L) /\
  (forall lys vs ts L, reps h lys vs ts L -> forall fuel h1, same_contents h h1 L -> (length L <= fuel)%nat ->
    drops h1 (st_for (vs ≫= pointers) (drop_loc fuel)) L).
Proof.
  assert (forall r L fuel h1 (c : Contents), box h r c -> r ∉ L -> same_contents h h1 (r :: L) -> (length (r :: L) <= fuel)%nat ->
    (forall fuel h1, same_contents h h1 L -> (length L <= fuel)%nat -> drops h1 (st_for (contents_pointers c) (drop_loc fuel)) L) ->
    drops h1 (st_for [r] (drop_loc fuel)) (r :: L)) as Hbox.
  { intros r L [|fuel] h1 c HB Hr [HC HS]%same_contents_cons Hf IH; simpl in Hf; [lia|].
    apply (drop_loc_box fuel h1 r c); [by eapply box_frame|done|].
    intros h' ->. apply IH; [|lia]. intros r' Hr'. rewrite lookup_delete_ne by (intros ->; done). by apply HS. }
  apply rep_reps_ind.
  - intros ly v t HP fuel h1 HS Hf. exists h1. destruct HP; split; done || apply dropped_nil.
  - intros ly mk c ts r HP HB fuel h1 HS Hf.
    assert (pointers (ValueImpl.Container_ (mk r)) = [r]) as -> by (by destruct HP).
    apply (Hbox r [] fuel h1 c HB); [by intros ?%elem_of_nil|done..|]. intros fuel' h1' _ _. exists h1'.
    split; [by destruct HP|apply dropped_nil].
  - intros ly r vs ts L Hly HB HR IH Hr fuel h1 HS Hf. by apply (Hbox r L fuel h1 (Values vs)).
  - intros lys r vs ts L HB HR IH Hr fuel h1 HS Hf. by apply (Hbox r L fuel h1 (Values vs)).
  - intros r a HB fuel h1 HS Hf. apply (Hbox r [] fuel h1 _ HB); [by intros ?%elem_of_nil|done..|]. intros fuel' h1' _ _.
    exists h1'. split; [done|apply dropped_nil].
  - intros fuel h1 _ _. exists h1. split; [done|apply dropped_nil].
  - intros ly lys v vs t ts L1 L2 HR1 IH1 HR2 IH2 HD fuel h1 [HS1 HS2]%same_contents_app Hf. rewrite length_app in Hf.
    destruct (drops_run h1 (st_for (pointers v) (drop_loc fuel)) (st_for (vs ≫= pointers) (drop_loc fuel)) L1 L2 HD) as (h3 & E & HX).
    + apply IH1; [done|lia].
    + intros h2 H2. apply IH2; [by eapply dropped_contents|lia].
    + exists h3. split; [|done]. rewrite <- E. apply drop_for_app.
Qed.

(** [drop] of a value, and of the contents of a box. *)
Lemma drop_value_drops h ly v t L : rep h ly v t L -> drops h (drop_value v) L.
Proof.
  intros HR. pose proof (rep_size _ _ _ _ _ HR) as Hs. unfold drops, drop_value, drop_locs.
  eapply (proj1 (drop_reps_both h)); [done..|]. lia.
Qed.

Lemma drop_values_drops h h1 lys vs ts L : reps h lys vs ts L -> same_contents h h1 L -> drops h1 (drop_contents (Values vs)) L.
Proof.
  intros HR HS. pose proof (reps_frame _ _ _ _ _ _ HR HS) as HR1.
  assert (length L <= size h1)%nat as Hs by eauto using footprint_size, reps_NoDup, reps_dom.
  unfold drops, drop_contents, drop_locs. eapply (proj2 (drop_reps_both h1)); [done..|]. lia.
Qed.

(** * Sizes *)

(** A size, or the panic of an overflow. *)
Definition size_result (o : option Z) (h : Store) : result PartialVMError (Z * Store) :=
  match o with Some n => Ok (n, h) | None => Panic end.

(** The two computations have the same outcome. *)
Definition same_size (h : Store) (m : M Z) (h' : Store) (m' : M Z) : Prop :=
  exists o, m h = size_result o h /\ m' h' = size_result o h'.

Lemma same_size_bind h m h' m' (k k' : Z -> M Z) : same_size h m h' m' -> (forall n, same_size h (k n) h' (k' n)) ->
  same_size h (n ← m; k n) h' (n ← m'; k' n).
Proof.
  intros ([n|] & E & E') Hk; unfold same_size, mbind, ST_bind; rewrite E, E'; [apply Hk|by exists None].
Qed.

Lemma same_size_u64 h h' x : same_size h (u64_result x) h' (u64_result x).
Proof. unfold u64_result, same_size. destruct (in_range _ _); [by exists (Some x)|by exists None]. Qed.

Lemma same_size_values h r vs h' r' vs' (size size' : ValueImpl -> M Z) : box h r (Values vs) -> box h' r' (Values vs') ->
  same_size h (Size.size_impl size STRUCT_SIZE vs) h' (Size.size_impl size' STRUCT_SIZE vs') ->
  same_size h (l ← borrow_values r; Size.size_impl size STRUCT_SIZE l) h' (l ← borrow_values r'; Size.size_impl size' STRUCT_SIZE l).
Proof. intros HB HB' HS. unfold same_size. do 2 step. done. Qed.

Lemma size_reps_both h :
  (forall ly v t L, rep h ly v t L -> forall fuel h' v' L' fuel', rep h' ly v' t L' -> (length L < fuel)%nat -> (length L' < fuel')%nat ->
    same_size h (Size.size_fuel fuel v) h' (Size.size_fuel fuel' v')) /\
  (forall lys vs ts L, reps h lys vs ts L -> forall fuel h' vs' L' fuel' acc, reps h' lys vs' ts L' -> (length L < fuel)%nat -> (length L' < fuel')%nat ->
    same_size h (Size.size_impl (Size.size_fuel fuel) acc vs) h' (Size.size_impl (Size.size_fuel fuel') acc vs')).
Proof.
  apply rep_reps_ind.
  - intros ly v t HP [|fuel] h' v' L' [|fuel'] HR Hf Hf'; [lia..|]. inversion HR as [? ? ? HP'| | | |]; subst; try (by inversion HP).
    destruct HP; inversion HP'; subst; by eexists (Some _).
  - intros ly mk c ts r HP HB [|fuel] h' v' L' [|fuel'] HR Hf Hf'; [lia..|].
    inversion HR as [? ? ? HP'|? mk' c' ? r' HP' HB'|? ? ? ? ? Hb| |]; subst; [by inversion HP'| |by destruct (prim_vec_not_boxed _ _ _ _ HP)].
    remember ts as ts' eqn:E in HP'. destruct HP; inversion HP'; subst; cbn [Size.size_fuel Size.container_size]; unfold same_size; do 2 step;
      match goal with E : map _ _ = map _ _ |- _ => apply (f_equal length) in E; rewrite !length_map in E; rewrite E end; apply same_size_u64.
  - intros ly r vs ts L Hly HB HRs IH Hr [|fuel] h' v' L' [|fuel'] HR Hf Hf'; [lia..|].
    inversion HR as [? ? ? HP'|? ? ? ? ? HP'|? r' vs' ? L0 Hb HB' HRs' Hr'| |]; subst; [by inversion HP'|by destruct (prim_vec_not_boxed _ _ _ _ HP')|].
    destruct (reps_length _ _ _ _ _ HRs) as [_ E1]. destruct (reps_length _ _ _ _ _ HRs') as [_ E2]. rewrite <- E2, E1 in HRs'.
    eapply same_size_values; [done..|]. simpl in Hf, Hf'. eapply IH; [done|lia..].
  - intros lys r vs ts L HB HRs IH Hr [|fuel] h' v' L' [|fuel'] HR Hf Hf'; [lia..|].
    inversion HR as [? ? ? HP'| | |? r' vs' ? L0 HB' HRs' Hr'|]; subst; [by inversion HP'|].
    eapply same_size_values; [done..|]. simpl in Hf, Hf'. eapply IH; [done|lia..].
  - intros r a HB [|[|fuel]] h' v' L' [|[|fuel']] HR Hf Hf'; try (simpl in *; lia).
    + inversion HR as [? ? ? HP'| | | |]; subst; [by inversion HP'|]. simpl in *. lia.
    + inversion HR as [? ? ? HP'| | | |r' ? HB']; subst; [by inversion HP'|]. eapply same_size_values; [done..|]. by eexists (Some _).
  - intros fuel h' vs' L' fuel' acc HR _ _. inversion HR; subst. by exists (Some acc).
  - intros ly lys v vs t ts L1 L2 HR1 IH1 HR2 IH2 HD fuel h' vs' L' fuel' acc HR Hf Hf'.
    inversion HR as [|? ? w ws ? ? K1 K2 HS1 HS2]; subst. rewrite length_app in Hf, Hf'. cbn [Size.size_impl].
    apply same_size_bind; [eapply IH1; [done|lia..]|]. intros n. apply same_size_bind; [apply same_size_u64|].
    intros acc'. eapply IH2; [done|lia..].
Qed.

Lemma size_determined h h' ly v v' t L L' : rep h ly v t L -> rep h' ly v' t L' -> same_size h (Size.size v) h' (Size.size v').
Proof.
  intros HR HR'. pose proof (rep_size _ _ _ _ _ HR) as H1. pose proof (rep_size _ _ _ _ _ HR') as H2. unfold same_size, Size.size.
  eapply (proj1 (size_reps_both h)); [done..|lia|lia].
Qed.
