(* ===== verification/VmReferences.v ===== *)
(** References of the virtual machine as paths in a tree: a reference that is [p] steps
    below a container reads and writes the tree of the container at [p]. *)
From stdpp Require Import gmap.
From S2P Require Import Prelude StatusCode FileFormat VmValues VmOwnership.

(** * Paths *)

Definition children (t : tree) : option (list tree) :=
  match t with
  | TVector l | TStruct l => Some l
  | TSigner a => Some [TAddress a]
  | _ => None
  end.

Definition with_children (t : tree) (ts : list tree) : tree :=
  match t, ts with
  | TVector _, _ => TVector ts
  | TStruct _, _ => TStruct ts
  | TSigner _, [TAddress a] => TSigner a
  | _, _ => t
  end.

Fixpoint tree_at (t : tree) (p : list nat) : option tree :=
  match p with
  | [] => Some t
  | i :: p => ts ← children t; t ← ts !! i; tree_at t p
  end.

Fixpoint tree_update (t : tree) (p : list nat) (x : tree) : tree :=
  match p with
  | [] => x
  | i :: p =>
    match children t with
    | Some ts => match ts !! i with Some t' => with_children t (<[i := tree_update t' p x]> ts) | None => t end
    | None => t
    end
  end.

Fixpoint layout_at (ly : layout) (p : list nat) : option layout :=
  match p with
  | [] => Some ly
  | i :: p =>
    match ly with
    | LVector ly => layout_at ly p
    | LStruct lys => ly ← lys !! i; layout_at ly p
    | LSigner => if Nat.eqb i 0 then layout_at LAddress p else None
    | _ => None
    end
  end.

(** The box of a container with boxed elements. *)
Definition values_loc (c : Container) : option loc := match c with Locals r | Vec r | Struct r => Some r | _ => None end.

(** [reaches h c p c']: the container [c'] is [p] steps below [c]. *)
Inductive reaches (h : Store) : Container -> list nat -> Container -> Prop :=
| reaches_here c : reaches h c [] c
| reaches_below c r vs i c1 p c2 :
    values_loc c = Some r -> box h r (Values vs) -> vs !! i = Some (ValueImpl.Container_ c1) -> reaches h c1 p c2 ->
    reaches h c (i :: p) c2.

(** The element [i] of [c] is the value [v], which is not a container. *)
Inductive prim_elem (h : Store) : Container -> nat -> layout -> ValueImpl -> tree -> Prop :=
| prim_elem_values c r vs i ly v t :
    values_loc c = Some r -> box h r (Values vs) -> vs !! i = Some v -> prim ly v t -> prim_elem h c i ly v t
| prim_elem_bool r l i x : box h r (Bools l) -> l !! i = Some x -> prim_elem h (VecBool r) i LBool (ValueImpl.Bool x) (TBool x)
| prim_elem_u8 r l i x : box h r (U8s l) -> l !! i = Some x -> prim_elem h (VecU8 r) i LU8 (ValueImpl.U8 x) (TU8 x)
| prim_elem_u64 r l i x : box h r (U64s l) -> l !! i = Some x -> prim_elem h (VecU64 r) i LU64 (ValueImpl.U64 x) (TU64 x)
| prim_elem_u128 r l i x : box h r (U128s l) -> l !! i = Some x -> prim_elem h (VecU128 r) i LU128 (ValueImpl.U128 x) (TU128 x)
| prim_elem_address r l i x : box h r (Addresses l) -> l !! i = Some x ->
    prim_elem h (VecAddress r) i LAddress (ValueImpl.Address x) (TAddress x).

(** The reference is [p] steps below [c]. *)
Inductive ref_at (h : Store) (c : Container) : list nat -> ReferenceImpl -> Prop :=
| ref_at_container p cr : reaches h c p (ContainerRef.container cr) -> ref_at h c p (ReferenceContainer cr)
| ref_at_indexed p i cr ly v t :
    reaches h c p (ContainerRef.container cr) -> prim_elem h (ContainerRef.container cr) i ly v t ->
    ref_at h c (p ++ [i]) (ReferenceIndexed (IndexedRef.mk (Z.of_nat i) cr)).

(** * Replacing a part of a value *)

(** The boxes of a value outside a part of it. *)
Definition rest (L part : list loc) : list loc := list_difference L part.

Lemma elem_of_rest r L part : r ∈ rest L part <-> r ∈ L /\ r ∉ part.
Proof. apply list_elem_of_difference. Qed.

Lemma reps_focus h lys vs ts L i v : reps h lys vs ts L -> vs !! i = Some v ->
  exists ly t Li, lys !! i = Some ly /\ ts !! i = Some t /\ rep h ly v t Li /\ Li ⊆ L /\
  forall h' v' t' Li', rep h' ly v' t' Li' -> same_contents h h' (rest L Li) -> Li' ## rest L Li ->
    exists L', reps h' lys (<[i := v']> vs) (<[i := t']> ts) L' /\ forall r, r ∈ L' <-> r ∈ Li' \/ r ∈ rest L Li.
Proof.
  intros HR. revert i. induction HR as [|ly lys v1 vs t1 ts L1 L2 HR1 HR2 IH HD]; intros i Hi; [by rewrite lookup_nil in Hi|].
  destruct i as [|i]; simpl in Hi.
  - injection Hi as ->. exists ly, t1, L1. split_and!; [done..|set_solver|]. intros h' v' t' Li' HR' HS HD'.
    exists (Li' ++ L2). split; [|intros r; rewrite elem_of_app, elem_of_rest, elem_of_app; set_solver].
    assert (forall r, r ∈ L2 -> r ∈ rest (L1 ++ L2) L1) as Hin by (intros r; rewrite elem_of_rest, elem_of_app; set_solver).
    constructor; [done| |set_solver]. eapply reps_frame; [done|]. intros r Hr. by apply HS, Hin.
  - destruct (IH i Hi) as (ly' & t & Li & Hly & Ht & HRi & Hsub & Hput). exists ly', t, Li. split_and!; [done..|set_solver|].
    intros h' v' t' Li' HR' HS HD'.
    assert (forall r, r ∈ L1 \/ r ∈ rest L2 Li <-> r ∈ rest (L1 ++ L2) Li) as Hin.
    { intros r. rewrite !elem_of_rest, elem_of_app. set_solver. }
    destruct (Hput h' v' t' Li' HR') as (L' & HR2' & HL').
    { intros r Hr. apply HS, Hin. auto. }
    { intros r Hr1 Hr2. apply (HD' r Hr1), Hin. auto. }
    exists (L1 ++ L'). split.
    + apply reps_cons; [|done|].
      * eapply rep_frame; [done|]. intros r Hr. apply HS, Hin. auto.
      * intros r Hr1 [Hr2|[Hr2 _]%elem_of_rest]%HL'; [|by apply (HD r)]. apply (HD' r Hr2), Hin. auto.
    + intros r. rewrite elem_of_app, HL', <- Hin. tauto.
Qed.

(** The children of a container whose elements are values. *)
Lemma rep_values h ly c t L r vs : rep h ly (ValueImpl.Container_ c) t L -> values_loc c = Some r -> box h r (Values vs) ->
  exists lys ts L0, L = r :: L0 /\ r ∉ L0 /\ reps h lys vs ts L0 /\ children t = Some ts /\
  (forall i p ly', lys !! i = Some ly' -> layout_at ly (i :: p) = layout_at ly' p) /\
  forall h' vs' ts' L0', box h' r (Values vs') -> length vs' = length vs -> reps h' lys vs' ts' L0' -> r ∉ L0' ->
    rep h' ly (ValueImpl.Container_ c) (with_children t ts') (r :: L0').
Proof.
  intros HR Hc HB. inversion HR as [??? HP|??? ? ? HP|ly1 r1 vs1 ts L0 Hly HB1 HRs Hr|lys r1 vs1 ts L0 HB1 HRs Hr|r1 a HB1]; subst.
  - inversion HP.
  - by destruct HP.
  - simpl in Hc. injection Hc as ->. unfold box in *. rewrite HB1 in HB. injection HB as ->.
    exists (replicate (length vs) ly1), ts, L0. split_and!; [done..| |].
    + intros i p ly' [-> _]%lookup_replicate. done.
    + intros h' vs' ts' L0' HB' E HR' Hr'. apply (rep_vec _ _ _ vs'); [done..| |done]. by rewrite E.
  - simpl in Hc. injection Hc as ->. unfold box in *. rewrite HB1 in HB. injection HB as ->.
    exists lys, ts, L0. split_and!; [done..| |].
    + intros i p ly' Hi. simpl. by rewrite Hi.
    + intros h' vs' ts' L0' HB' E HR' Hr'. by apply (rep_struct _ _ _ vs').
  - simpl in Hc. injection Hc as ->. unfold box in *. rewrite HB1 in HB. injection HB as <-.
    exists [LAddress], [TAddress a], []. split_and!; [done..| |apply reps_address|done| |].
    + by intros ?%elem_of_nil.
    + intros [|i] p ly' Hi; [|done]. by injection Hi as <-.
    + intros h' vs' ts' L0' HB' E HR' Hr'. inversion HR' as [|????? ts1 L1 L2 HR1 HR2]; subst. inversion HR2; subst.
      inversion HR1 as [??? HP| | | |]; subst. inversion HP; subst. by constructor.
Qed.

Lemma child_focus h ly c t L r vs i v : rep h ly (ValueImpl.Container_ c) t L ->
  values_loc c = Some r -> box h r (Values vs) -> vs !! i = Some v ->
  exists ts ly1 t1 L1, children t = Some ts /\ (forall p, layout_at ly (i :: p) = layout_at ly1 p) /\ ts !! i = Some t1 /\
  rep h ly1 v t1 L1 /\ L1 ⊆ L /\ r ∈ rest L L1 /\
  forall h' v' t' L1', rep h' ly1 v' t' L1' -> box h' r (Values (<[i := v']> vs)) ->
    same_contents h h' (rest L (r :: L1)) -> L1' ## rest L L1 ->
    exists L', rep h' ly (ValueImpl.Container_ c) (with_children t (<[i := t']> ts)) L' /\
      forall r', r' ∈ L' <-> r' ∈ L1' \/ r' ∈ rest L L1.
Proof.
  intros HR Hc HB Hi. destruct (rep_values _ _ _ _ _ _ _ HR Hc HB) as (lys & ts & L0 & -> & Hr & HRs & Hts & Hly & Hput).
  destruct (reps_focus _ _ _ _ _ _ _ HRs Hi) as (ly1 & t1 & L1 & Hly1 & Ht1 & HR1 & Hsub & Hput1).
  assert (r ∉ L1) as Hr1 by set_solver. assert (forall r', r' ∈ rest (r :: L0) L1 <-> r' = r \/ r' ∈ rest L0 L1) as Hrest.
  { intros r'. rewrite !elem_of_rest, elem_of_cons. set_solver. }
  exists ts, ly1, t1, L1. split_and!; [done|eauto|done|done|set_solver|apply Hrest; auto|].
  intros h' v' t' L1' HR' HB' HS HD. destruct (Hput1 h' v' t' L1' HR') as (L' & HR'' & HL').
  { intros r' [Hr' Hr'']%elem_of_rest. apply HS, elem_of_rest. rewrite !elem_of_cons. split; [auto|]. intros [->|?]; done. }
  { intros r' H1 H2. apply (HD r' H1), Hrest. auto. }
  exists (r :: L'). split.
  - apply (Hput _ (<[i := v']> vs)); [done|by rewrite length_insert|done|].
    intros [H1|[H1 _]%elem_of_rest]%HL'; [|done]. apply (HD r H1), Hrest. auto.
  - intros r'. rewrite elem_of_cons, HL', Hrest. tauto.
Qed.

Lemma tree_at_app t p q : tree_at t (p ++ q) = t' ← tree_at t p; tree_at t' q.
Proof.
  revert t. induction p as [|i p IH]; intros t; [done|]. simpl. destruct (children t) as [ts|]; [|done]. simpl.
  destruct (ts !! i); [|done]. apply IH.
Qed.

Lemma tree_update_app t p q t' x : tree_at t p = Some t' -> tree_update t (p ++ q) x = tree_update t p (tree_update t' q x).
Proof.
  revert t. induction p as [|i p IH]; intros t; simpl; [by intros [= ->]|]. destruct (children t) as [ts|]; [|done]. simpl.
  destruct (ts !! i); [|done]. simpl. intros E. by rewrite IH.
Qed.

Lemma layout_at_app ly p q : layout_at ly (p ++ q) = ly' ← layout_at ly p; layout_at ly' q.
Proof.
  revert ly. induction p as [|i p IH]; intros ly; [done|]. destruct ly; simpl; try done.
  - destruct (Nat.eqb i 0); [|done]. apply (IH LAddress).
  - destruct (fields !! i); [|done]. apply IH.
Qed.

(** A container below another, and what writing it does to the other. *)
Lemma path_focus h c p c' : reaches h c p c' -> forall ly t L, rep h ly (ValueImpl.Container_ c) t L ->
  exists ly' t' L', tree_at t p = Some t' /\ layout_at ly p = Some ly' /\ rep h ly' (ValueImpl.Container_ c') t' L' /\ L' ⊆ L /\
  forall h' t'' L'', rep h' ly' (ValueImpl.Container_ c') t'' L'' -> same_contents h h' (rest L L') -> L'' ## rest L L' ->
    exists Ln, rep h' ly (ValueImpl.Container_ c) (tree_update t p t'') Ln /\ forall r, r ∈ Ln <-> r ∈ L'' \/ r ∈ rest L L'.
Proof.
  induction 1 as [c|c r vs i c1 p c2 Hc HB Hi Hreach IH]; intros ly t L HR.
  - exists ly, t, L. split_and!; [done..|]. intros h' t'' L'' HR' _ _. exists L''. split; [done|].
    intros r. rewrite elem_of_rest. tauto.
  - destruct (child_focus _ _ _ _ _ _ _ _ _ HR Hc HB Hi) as (ts & ly1 & t1 & L1 & Hts & Hly & Ht1 & HR1 & Hsub1 & Hr & Hput1).
    destruct (IH _ _ _ HR1) as (ly2 & t2 & L2 & Ht2 & Hly2 & HR2 & Hsub2 & Hput2). exists ly2, t2, L2.
    split_and!; [by simpl; rewrite Hts; simpl; rewrite Ht1|by rewrite Hly|done|set_solver|].
    assert (forall r', r' ∈ rest L L2 <-> r' ∈ rest L1 L2 \/ r' ∈ rest L L1) as Hrest.
    { intros r'. rewrite !elem_of_rest. destruct (decide (r' ∈ L1)); set_solver. }
    assert (r ∉ L1) as Hr1 by (by apply elem_of_rest in Hr as [_ ?]).
    intros h' t'' L'' HR' HS HD.
    destruct (Hput2 h' t'' L'' HR') as (Ln1 & HRn1 & HL1).
    { intros r' Hr'. apply HS, Hrest. auto. }
    { intros r' H1 H2. apply (HD r' H1), Hrest. auto. }
    destruct (Hput1 h' (ValueImpl.Container_ c1) (tree_update t1 p t'') Ln1 HRn1) as (Ln & HRn & HLn).
    { rewrite list_insert_id by done. eapply box_frame; [done|]. apply HS, Hrest. auto. }
    { intros r' [Hr' Hn]%elem_of_rest. apply HS, Hrest. right. apply elem_of_rest. split; [done|]. set_solver. }
    { intros r' [H1|H1]%HL1 H2; [apply (HD r' H1), Hrest; auto|].
      apply elem_of_rest in H1 as [H1 _]. by apply elem_of_rest in H2 as [_ H2]. }
    exists Ln. split; [simpl; by rewrite Hts, Ht1|]. intros r'. rewrite HLn, HL1, Hrest. tauto.
Qed.

(** * The box of a container *)

Definition with_loc (c : Container) (r : loc) : Container :=
  match c with
  | Locals _ => Locals r | Vec _ => Vec r | Struct _ => Struct r
  | VecU8 _ => VecU8 r | VecU64 _ => VecU64 r | VecU128 _ => VecU128 r
  | VecBool _ => VecBool r | VecAddress _ => VecAddress r
  end.

(** The contents of the box can be dropped, and mean the same in another box. *)
Lemma rep_root h ly c t L : rep h ly (ValueImpl.Container_ c) t L ->
  exists L0 cnt, L = container_loc c :: L0 /\ container_loc c ∉ L0 /\ box h (container_loc c) cnt /\
  (forall h1, same_contents h h1 L0 -> drops h1 (drop_contents cnt) L0) /\
  (forall h' r', box h' r' cnt -> same_contents h h' L0 -> r' ∉ L0 -> rep h' ly (ValueImpl.Container_ (with_loc c r')) t (r' :: L0)).
Proof.
  intros HR. inversion HR as [??? HP|ly1 mk cnt ts r HP HB|ly1 r vs ts L0 Hly HB HRs Hr|lys r vs ts L0 HB HRs Hr|r a HB]; subst.
  - inversion HP.
  - exists [], cnt. assert (container_loc (mk r) = r) as -> by (by destruct HP).
    split_and!; [done|by intros ?%elem_of_nil|done| |].
    + intros h1 _. exists h1. split; [by destruct HP|apply dropped_nil].
    + intros h' r' HB' _ _. assert (with_loc (mk r) r' = mk r') as -> by (by destruct HP). by apply (rep_prim_vec _ _ _ cnt).
  - exists L0, (Values vs). split_and!; [done..| |].
    + intros h1 HS. by eapply drop_values_drops.
    + intros h' r' HB' HS Hr'. apply (rep_vec _ _ _ vs); [done..|by eapply reps_frame|done].
  - exists L0, (Values vs). split_and!; [done..| |].
    + intros h1 HS. by eapply drop_values_drops.
    + intros h' r' HB' HS Hr'. apply (rep_struct _ _ _ vs); [done|by eapply reps_frame|done].
  - exists [], (Values [ValueImpl.Address a]). split_and!; [done|by intros ?%elem_of_nil|done| |].
    + intros h1 HS. exists h1. split; [done|apply dropped_nil].
    + intros h' r' HB' HS Hr'. by constructor.
Qed.

(** The layout determines the kind of the container. *)
Lemma rep_same_kind h ly c1 t1 L1 c2 t2 L2 :
  rep h ly (ValueImpl.Container_ c1) t1 L1 -> rep h ly (ValueImpl.Container_ c2) t2 L2 -> c2 = with_loc c1 (container_loc c2).
Proof.
  intros HR1 HR2. inversion HR1 as [??? HP|????? HP| | |]; subst; [by inversion HP|..];
    inversion HR2 as [??? HP2|????? HP2| | |]; subst; try (by inversion HP2); try done; try (by destruct HP2); try (by destruct HP).
  by destruct HP; inversion HP2.
Qed.

Lemma drop_contents_frame h1 m L h2 r : m h1 = Ok ((), h2) -> drops h1 m L -> r ∉ L -> h2 !! r = h1 !! r.
Proof. intros E (h2' & E' & HO & _) Hr. rewrite E in E'. injection E' as <-. by apply HO. Qed.

(** [assign!] *)
Lemma assign_rep h ly c t L x tx Lx cx : rep h ly (ValueImpl.Container_ c) t L -> rep h ly (ValueImpl.Container_ x) tx Lx -> L ## Lx ->
  h !! container_loc x = Some (RcBox.mk 1 cx) ->
  exists h' L' n cnt, assign (container_loc c) (container_loc x) h = Ok ((), h') /\
  rep h' ly (ValueImpl.Container_ c) tx (container_loc c :: L') /\ L' ⊆ Lx /\ h !! container_loc c = Some (RcBox.mk n cnt) /\
  h' !! container_loc c = Some (RcBox.mk n cx) /\ forall r, r ∉ L -> r <> container_loc x -> h' !! r = h !! r.
Proof.
  intros HR HRx HD Hx. pose proof (rep_same_kind _ _ _ _ _ _ _ _ HRx HR) as Ec.
  destruct (rep_root _ _ _ _ _ HR) as (L0 & cnt & -> & Hr & HB & Hdrop & _).
  destruct (rep_root _ _ _ _ _ HRx) as (Lx0 & cx' & -> & Hrx & HBx & _ & Hmove).
  assert (cx' = cx) as -> by (unfold box in HBx; rewrite Hx in HBx; simpl in HBx; congruence).
  set (r := container_loc c) in *. set (rx := container_loc x) in *. apply box_lookup in HB as [n Hn].
  assert (r <> rx) as Hne by (intros E; apply (HD r); apply elem_of_cons; auto).
  assert (forall r', r' ∈ Lx0 -> r' ∉ r :: L0) as HD' by (intros r' H1 H2; apply (HD r' H2), elem_of_cons; auto).
  set (h1 := <[r := RcBox.mk n cx]> (delete rx h)).
  destruct (Hdrop h1) as (h2 & E2 & HO & _).
  { intros r' Hr'. unfold h1. rewrite lookup_insert_ne by (intros E; by rewrite E in Hr).
    rewrite lookup_delete_ne; [done|]. intros E. apply (HD r'); apply elem_of_cons; auto. }
  assert (forall r', r' ∉ r :: L0 -> r' <> rx -> h2 !! r' = h !! r') as Hframe.
  { intros r' [Hr1 Hr2]%not_elem_of_cons Hr3. rewrite HO by done. unfold h1.
    by rewrite lookup_insert_ne, lookup_delete_ne. }
  assert (h2 !! r = Some (RcBox.mk n cx)) as Hr2 by (rewrite HO by done; unfold h1; apply lookup_insert_eq).
  exists h2, Lx0, n, cnt. split_and!; [|..].
  - unfold assign, take_unique_ownership.
    erewrite st_bind_run; [|erewrite st_bind_run by (by apply get_lookup); simpl; by erewrite st_bind_run by apply free_run].
    erewrite st_bind_run; [exact E2|]. apply replace_box. by rewrite lookup_delete_ne.
  - rewrite Ec. apply Hmove.
    + unfold box. by rewrite Hr2.
    + intros r' Hr'. rewrite Hframe; [done|by apply HD'|]. intros E. by rewrite E in Hr'.
    + intros H. apply (HD' r H), elem_of_cons. auto.
  - intros r' Hr'. apply elem_of_cons. auto.
  - done.
  - done.
  - done.
Qed.

(** * Elements that are not containers *)

(** The contents of a box in which the element [i] is [x]. *)
Definition set_elem (cnt : Contents) (i : nat) (x : ValueImpl) : Contents :=
  match cnt, x with
  | Values l, _ => Values (<[i := x]> l)
  | Bools l, ValueImpl.Bool x => Bools (<[i := x]> l)
  | U8s l, ValueImpl.U8 x => U8s (<[i := x]> l)
  | U64s l, ValueImpl.U64 x => U64s (<[i := x]> l)
  | U128s l, ValueImpl.U128 x => U128s (<[i := x]> l)
  | Addresses l, ValueImpl.Address x => Addresses (<[i := x]> l)
  | _, _ => cnt
  end.

Lemma prim_vec_update ly mk c ts i x tx : prim_vec ly mk c ts -> prim ly x tx -> prim_vec ly mk (set_elem c i x) (<[i := tx]> ts).
Proof. destruct 1; inversion 1; subst; simpl; rewrite <- list_fmap_insert; constructor. Qed.

Lemma prim_vec_elem h ly mk c ts r i ly1 v t1 : prim_vec ly mk c ts -> box h r c -> prim_elem h (mk r) i ly1 v t1 ->
  ly1 = ly /\ ts !! i = Some t1.
Proof.
  unfold box. intros HP HB HE. destruct HP; inversion HE as [? ? ? ? ? ? ? Hc|? ? ? ? HB' Hi|? ? ? ? HB' Hi|? ? ? ? HB' Hi|? ? ? ? HB' Hi|? ? ? ? HB' Hi]; subst;
    try discriminate; unfold box in HB'; rewrite HB' in HB; injection HB as ->; (split; [done|]);
    by rewrite list_lookup_fmap, Hi.
Qed.

Lemma prim_footprint h ly v t L t' : rep h ly v t L -> prim ly v t' -> t = t' /\ L = [].
Proof. intros HR HP. destruct HR as [? ? ? HP2| | | |]; [destruct HP2; by inversion HP; subst|inversion HP..]. Qed.

(** What a container means after one of its elements is written. *)
Lemma elem_focus h ly c t L i ly1 v t1 : rep h ly (ValueImpl.Container_ c) t L -> prim_elem h c i ly1 v t1 ->
  tree_at t [i] = Some t1 /\ layout_at ly [i] = Some ly1 /\
  forall h' x tx cnt, prim ly1 x tx -> box h (container_loc c) cnt -> box h' (container_loc c) (set_elem cnt i x) ->
    same_contents h h' (rest L [container_loc c]) ->
    exists L', rep h' ly (ValueImpl.Container_ c) (tree_update t [i] tx) L' /\ forall r, r ∈ L' <-> r ∈ L.
Proof.
  intros HR HE. destruct (values_loc c) as [r|] eqn:Hc.
  - inversion HE as [? r' vs ? ? ? ? Hc' HB Hi HP| | | | |]; subst; try discriminate. rewrite Hc in Hc'. injection Hc' as <-.
    destruct (child_focus _ _ _ _ _ _ _ _ _ HR Hc HB Hi) as (ts & ly2 & t2 & L2 & Hts & Hly & Ht2 & HR2 & _ & Hr & Hput).
    assert (ly2 = ly1) as -> by (destruct HR2 as [? ? ? HP2| | | |]; [by destruct HP2; inversion HP|by inversion HP..]).
    destruct (prim_footprint _ _ _ _ _ _ HR2 HP) as [-> ->].
    assert (container_loc c = r) as -> by (destruct c; simpl in *; congruence).
    split_and!; [simpl; by rewrite Hts; simpl; rewrite Ht2|by rewrite Hly|].
    intros h' x tx cnt Hx HB1 HB' HS. assert (cnt = Values vs) as -> by (unfold box in *; congruence).
    destruct (Hput h' x tx [] (rep_prim _ _ _ _ Hx) HB' HS) as (L' & HR' & HL'); [by intros ? ?%elem_of_nil|].
    exists L'. split; [simpl; by rewrite Hts, Ht2|]. intros r'. rewrite HL', elem_of_rest, elem_of_nil. tauto.
  - inversion HR as [??? HP|ly2 mk cnt ts r HP HB| | |]; subst; [by inversion HP| |discriminate..].
    destruct (prim_vec_elem _ _ _ _ _ _ _ _ _ _ HP HB HE) as [-> Hi]. split_and!; [simpl; by rewrite Hi|done|].
    assert (container_loc (mk r) = r) as -> by (by destruct HP). intros h' x tx cnt' Hx HB1 HB' HS.
    assert (cnt' = cnt) as -> by (unfold box in *; congruence). exists [r]. split; [|done]. simpl. rewrite Hi.
    eapply rep_prim_vec; [by apply prim_vec_update|done].
Qed.

(** * Reading and writing *)

#[local] Opaque Rc.new Rc.get Rc.put Rc.free Rc.borrow Rc.replace Rc.clone.

(** There is another pointer to the box. *)
Definition shared (h : Store) (r : loc) : Prop := exists n c, h !! r = Some (RcBox.mk n c) /\ 2 <= n.

(** The reference is not the last pointer to its boxes, and its status is one. *)
Definition held (h : Store) (cr : ContainerRef) : Prop :=
  shared h (container_loc (ContainerRef.container cr)) /\
  match cr with
  | Local _ => True
  | Global status c => shared h status /\ status <> container_loc c /\ exists s, box h status (Status s)
  end.

Definition only_counts (h h' : Store) : Prop := forall r, RcBox.contents <$> h' !! r = RcBox.contents <$> h !! r.

Lemma only_counts_refl h : only_counts h h.
Proof. by intros r. Qed.
Lemma only_counts_trans h1 h2 h3 : only_counts h1 h2 -> only_counts h2 h3 -> only_counts h1 h3.
Proof. intros H1 H2 r. by rewrite H2. Qed.
Lemma only_counts_insert h r n n' c : h !! r = Some (RcBox.mk n c) -> only_counts h (<[r := RcBox.mk n' c]> h).
Proof.
  intros E r'. destruct (decide (r' = r)) as [->|Hne]; [by rewrite lookup_insert_eq, E|by rewrite lookup_insert_ne].
Qed.
Lemma rep_counts h h' ly v t L : only_counts h h' -> rep h ly v t L -> rep h' ly v t L.
Proof. intros HC HR. eapply rep_frame; [done|]. intros r _. apply HC. Qed.

Lemma drop_shared fuel h r n c : h !! r = Some (RcBox.mk n c) -> 2 <= n ->
  drop_loc (S fuel) r h = Ok ((), <[r := RcBox.mk (n - 1) c]> h).
Proof.
  intros E Hn. cbn [drop_loc]. rewrite (st_bind_run _ _ _ _ _ (get_lookup _ _ _ E)). simpl.
  assert ((n =? 1) = false) as -> by (apply Z.eqb_neq; lia). by rewrite put_run.
Qed.

Lemma drop_ref_held h cr : held h cr ->
  exists h', drop_ref cr h = Ok ((), h') /\ only_counts h h' /\ forall r, r ∉ ref_pointers cr -> h' !! r = h !! r.
Proof.
  unfold drop_ref, drop_locs. generalize (size h) as fuel. intros fuel [(n & c & E & Hn) Hs]. destruct cr as [c0|status c0]; simpl in *.
  - eexists. rewrite (st_bind_run _ _ _ _ _ (drop_shared fuel _ _ _ _ E Hn)). split_and!; [done|by eapply only_counts_insert|].
    intros r [Hr _]%not_elem_of_cons. by rewrite lookup_insert_ne.
  - destruct Hs as ((m & cs & Es & Hm) & Hne & _). eexists. rewrite (st_bind_run _ _ _ _ _ (drop_shared fuel _ _ _ _ Es Hm)).
    assert (<[status := RcBox.mk (m - 1) cs]> h !! container_loc c0 = Some (RcBox.mk n c)) as E' by (by rewrite lookup_insert_ne).
    rewrite (st_bind_run _ _ _ _ _ (drop_shared fuel _ _ _ _ E' Hn)). split_and!; [done| |].
    + eapply only_counts_trans; by eapply only_counts_insert.
    + intros r [H1 [H2 _]%not_elem_of_cons]%not_elem_of_cons. by rewrite !lookup_insert_ne.
Qed.

Lemma held_weaken h h' cr : h ⊆ h' -> held h cr -> held h' cr.
Proof.
  intros HS [Hc Hs]. assert (forall r, shared h r -> shared h' r) as Hm.
  { intros r (n & c & E & Hn). exists n, c. eauto using lookup_weaken. }
  split; [by apply Hm|]. destruct cr; [done|]. destruct Hs as (H1 & H2 & s & H3). split_and!; eauto using box_weaken.
Qed.

(** [read_ref] of a container. *)
Lemma copy_container_makes h ly c t L : rep h ly (ValueImpl.Container_ c) t L ->
  makes h (copy_container c) (fun h2 c' L' => rep h2 ly (ValueImpl.Container_ c') t L').
Proof.
  intros HR. destruct (proj1 (copy_reps_both h) _ _ _ _ HR (S (S (size h))) h) as (v & h2 & L' & E & HA & HR'); [done| |].
  { pose proof (rep_size _ _ _ _ _ HR). lia. }
  cbn [copy_value_fuel] in E. apply st_bind_ok in E as (c' & h2' & E & [= <- <-]). by exists c', h2', L'.
Qed.

Lemma at_index_run {A} (l : list A) i x h : l !! i = Some x -> at_index l (Z.of_nat i) h = Ok (x, h).
Proof. intros E. unfold at_index. by rewrite Nat2Z.id, E. Qed.
#[local] Hint Resolve at_index_run : run.

Lemma elem_value_run h r vs i v : box h r (Values vs) -> vs !! i = Some v -> elem_value r (Z.of_nat i) h = Ok (v, h).
Proof. intros HB Hi. unfold elem_value. step. by apply at_index_run. Qed.

(** [read_ref] of an element. *)
Lemma elem_read h cr i ly v t : prim_elem h (ContainerRef.container cr) i ly v t ->
  IndexedRef_read_ref (IndexedRef.mk (Z.of_nat i) cr) h = (drop_ref cr;; mret v) h.
Proof.
  intros HE. unfold IndexedRef_read_ref. cbn [IndexedRef.idx IndexedRef.container_ref]. refine (st_bind_run _ _ _ v h _).
  destruct HE as [c r vs i ly v t Hc HB Hi HP|r l i x HB Hi|r l i x HB Hi|r l i x HB Hi|r l i x HB Hi|r l i x HB Hi].
  { assert ((elem_value r (Z.of_nat i) ≫= copy_value) h = Ok (v, h)) as E; [|by destruct c; simplify_eq/=].
    rewrite (st_bind_run _ _ _ _ _ (elem_value_run _ _ _ _ _ HB Hi)). unfold copy_value. apply (copy_prim _ h ly v t HP). lia. }
  all: unfold elem_bool, elem_u8, elem_u64, elem_u128, elem_address; erewrite st_bind_run; [done|]; step; by apply at_index_run.
Qed.

Lemma set_index_run {A} (l : list A) i x y h : l !! i = Some x -> set_index l (Z.of_nat i) y h = Ok (<[i := y]> l, h).
Proof. intros E. unfold set_index. by rewrite Nat2Z.id, E. Qed.
#[local] Hint Resolve set_index_run replace_box : run.

Lemma drop_prim h ly v t : prim ly v t -> drop_value v h = Ok ((), h).
Proof. by destruct 1. Qed.

(** The assignment of an element of a box of values. *)
Lemma set_values_run h r n vs i v ly t x : h !! r = Some (RcBox.mk n (Values vs)) -> vs !! i = Some v -> prim ly v t ->
  (l ← borrow_values r; old ← at_index l (Z.of_nat i); l ← set_index l (Z.of_nat i) x; Rc.replace r (Values l);; drop_value old) h
  = Ok ((), <[r := RcBox.mk n (Values (<[i := x]> vs))]> h).
Proof.
  intros Hr Hi HP. assert (box h r (Values vs)) as HB by (unfold box; by rewrite Hr). do 4 step. by eapply drop_prim.
Qed.

(** [write_ref] of an element: the box is changed, then the reference is released. *)
Lemma elem_write h cr i ly v t x tx n cnt : prim_elem h (ContainerRef.container cr) i ly v t -> prim ly x tx ->
  h !! container_loc (ContainerRef.container cr) = Some (RcBox.mk n cnt) ->
  IndexedRef_write_ref (IndexedRef.mk (Z.of_nat i) cr) x h =
    (ContainerRef.mark_dirty cr;; drop_ref cr) (<[container_loc (ContainerRef.container cr) := RcBox.mk n (set_elem cnt i x)]> h).
Proof.
  intros HE Hx Hr. unfold IndexedRef_write_ref. cbn [IndexedRef.idx IndexedRef.container_ref].
  destruct HE as [c r vs i ly v t Hc HB Hi HP|r l i y HB Hi|r l i y HB Hi|r l i y HB Hi|r l i y HB Hi|r l i y HB Hi].
  { assert (container_loc c = r) as E by (destruct c; simpl in *; congruence). rewrite E in *.
    assert (cnt = Values vs) as -> by (unfold box in HB; rewrite Hr in HB; simpl in HB; congruence).
    pose proof (set_values_run _ _ _ _ _ _ _ _ x Hr Hi HP) as Hset.
    destruct Hx, c; simplify_eq/=; exact (st_bind_run _ _ _ _ _ Hset). }
  all: simpl in Hr; inversion Hx; subst; pose proof HB as HB'; unfold box in HB'; rewrite Hr in HB'; injection HB' as ->;
    refine (st_bind_run _ _ _ () _ _); do 3 step; done.
Qed.

(** What a write through the reference leaves: the status is dirty, the reference is gone. *)
Lemma release_run h cr : held h cr ->
  exists h', (ContainerRef.mark_dirty cr;; drop_ref cr) h = Ok ((), h') /\
  (forall r, (forall c, cr <> Global r c) -> RcBox.contents <$> h' !! r = RcBox.contents <$> h !! r) /\
  (forall s c, cr = Global s c -> box h' s (Status Dirty)) /\ forall r, r ∉ ref_pointers cr -> h' !! r = h !! r.
Proof.
  intros Hh. destruct cr as [c|status c].
  - destruct (drop_ref_held _ _ Hh) as (h' & E & HC & HF). exists h'. split_and!; [done|auto|done|done].
  - destruct Hh as [(n & cnt & E & Hn) ((m & cs & Es & Hm) & Hne & s & Hs)]. simpl in *.
    set (h1 := <[status := RcBox.mk m (Status Dirty)]> h).
    destruct (drop_ref_held h1 (Global status c)) as (h' & E' & HC & HF).
    { split; simpl; unfold h1.
      - exists n, cnt. by rewrite lookup_insert_ne.
      - split_and!; [exists m, (Status Dirty); by rewrite lookup_insert_eq|done|exists Dirty; unfold box; by rewrite lookup_insert_eq]. }
    exists h'. split_and!.
    + rewrite (st_bind_run _ _ _ () h1); [done|]. cbn [ContainerRef.mark_dirty]. by step.
    + intros r Hr. rewrite HC. unfold h1. rewrite lookup_insert_ne; [done|]. intros ->. by apply (Hr c).
    + intros s' c' [= <- <-]. unfold box. rewrite HC. unfold h1. by rewrite lookup_insert_eq.
    + intros r Hr. rewrite HF by done. apply not_elem_of_cons in Hr as [Hr _]. unfold h1. by rewrite lookup_insert_ne.
Qed.

Definition ref_of (r : ReferenceImpl) : ContainerRef :=
  match r with ReferenceContainer cr => cr | ReferenceIndexed r => r.(IndexedRef.container_ref) end.

(** No box of a value holds a status. *)
Lemma rep_no_status_both h :
  (forall ly v t L, rep h ly v t L -> forall r s, r ∈ L -> ~ box h r (Status s)) /\
  (forall lys vs ts L, reps h lys vs ts L -> forall r s, r ∈ L -> ~ box h r (Status s)).
Proof.
  apply rep_reps_ind; unfold box; intros;
    repeat match goal with
    | H : _ ∈ [] |- _ => by apply elem_of_nil in H
    | H : _ ∈ _ :: _ |- _ => apply elem_of_cons in H as [->|H]
    | H : _ ∈ _ ++ _ |- _ => apply elem_of_app in H as [H|H]
    end; eauto; try congruence.
  intros E. match goal with H : prim_vec _ _ _ _ |- _ => destruct H end; congruence.
Qed.
Definition rep_no_status h := proj1 (rep_no_status_both h).

Lemma held_status h s c ly v t L : held h (Global s c) -> rep h ly v t L -> s ∉ L.
Proof. intros (_ & _ & _ & st & Hs) HR Hin. by apply (rep_no_status _ _ _ _ _ HR s st Hin). Qed.

Lemma rep_container h h' ly c t L x tx Lx : rep h ly (ValueImpl.Container_ c) t L -> rep h' ly x tx Lx ->
  exists cx, x = ValueImpl.Container_ cx.
Proof.
  intros HR HRx. destruct HRx as [ly x tx HP| | | |]; [|eauto..]. exfalso.
  destruct HP; inversion HR as [? ? ? HP| | | |]; inversion HP.
Qed.

(** * [read_ref] *)

Lemma read_ref_at h ly c t L p r : rep h ly (ValueImpl.Container_ c) t L -> ref_at h c p r -> held h (ref_of r) ->
  exists t' ly' v h' L', tree_at t p = Some t' /\ layout_at ly p = Some ly' /\ ReferenceImpl_read_ref r h = Ok (v, h') /\
  rep h' ly' v t' L' /\ (forall r', r' ∈ L' -> h !! r' = None) /\ unique h' L' /\
  (forall r', is_Some (h !! r') -> RcBox.contents <$> h' !! r' = RcBox.contents <$> h !! r').
Proof.
  intros HR HA Hh. destruct HA as [p cr Hp|p i cr ly1 v t1 Hp HE]; cbn [ref_of ReferenceImpl_read_ref IndexedRef.container_ref] in *.
  - destruct (path_focus _ _ _ _ Hp _ _ _ HR) as (ly' & t' & L' & Ht & Hly & HR' & _).
    destruct (copy_container_makes _ _ _ _ _ HR') as (c2 & h2 & L2 & E2 & HA & HR2).
    pose proof HA as (HS & HL2 & HU).
    destruct (drop_ref_held h2 cr) as (h3 & E3 & HC & HF); [by eapply held_weaken|].
    exists t', ly', (ValueImpl.Container_ c2), h3, L2. split_and!; [done..| |by eapply rep_counts| | |].
    + unfold ContainerRef_read_ref. by rewrite (st_bind_run _ _ _ _ _ E2), (st_bind_run _ _ _ _ _ E3).
    + intros r' Hr'. by apply HL2.
    + intros r' Hr'. rewrite HF; [by apply HU|]. intros Hp'. apply HL2 in Hr' as [Hn _].
      destruct Hh as [(n & cc & E & _) Hst]. destruct cr as [c0|s c0]; simpl in *.
      * apply list_elem_of_singleton in Hp' as ->. congruence.
      * destruct Hst as ((m & cs & Es & _) & _). rewrite elem_of_cons, list_elem_of_singleton in Hp'.
        destruct Hp' as [->| ->]; congruence.
    + intros r' [b Hb]. rewrite HC. by rewrite Hb, (lookup_weaken _ _ _ _ Hb HS).
  - destruct (path_focus _ _ _ _ Hp _ _ _ HR) as (ly' & t' & L' & Ht & Hly & HR' & _).
    destruct (elem_focus _ _ _ _ _ _ _ _ _ HR' HE) as (Ht1 & Hly1 & _).
    destruct (drop_ref_held h cr Hh) as (h3 & E3 & HC & HF).
    exists t1, ly1, v, h3, []. split_and!.
    + by rewrite tree_at_app, Ht.
    + by rewrite layout_at_app, Hly.
    + rewrite (elem_read _ _ _ _ _ _ HE). by rewrite (st_bind_run _ _ _ _ _ E3).
    + constructor. by destruct HE; [|constructor..].
    + by intros r' ?%elem_of_nil.
    + by intros r' ?%elem_of_nil.
    + intros r' _. apply HC.
Qed.

(** * [write_ref] *)

(** The container is overwritten, then the reference is released. *)
Lemma container_write h cr ly t L x tx Lx cx : rep h ly (ValueImpl.Container_ (ContainerRef.container cr)) t L ->
  rep h ly (ValueImpl.Container_ x) tx Lx -> L ## Lx -> h !! container_loc x = Some (RcBox.mk 1 cx) -> held h cr ->
  exists h1 L', ContainerRef_write_ref cr (ValueImpl.Container_ x) h = (ContainerRef.mark_dirty cr;; drop_ref cr) h1 /\
  rep h1 ly (ValueImpl.Container_ (ContainerRef.container cr)) tx (container_loc (ContainerRef.container cr) :: L') /\ L' ⊆ Lx /\
  held h1 cr /\ forall r, r ∉ L -> r <> container_loc x -> h1 !! r = h !! r.
Proof.
  intros HR HRx HD Hx Hh. destruct (assign_rep _ _ _ _ _ _ _ _ _ HR HRx HD Hx) as (h1 & L' & n & cnt & E & HR' & HL' & Hn & Hn' & HF).
  exists h1, L'. split_and!; [|done..| |done].
  - unfold ContainerRef_write_ref. pose proof (rep_same_kind _ _ _ _ _ _ _ _ HR HRx) as Ek.
    refine (st_bind_run _ _ _ () h1 _). rewrite Ek. destruct (ContainerRef.container cr) eqn:Ec; simpl in *; try done.
    inversion HR as [? ? ? HP|? ? ? ? ? HP| | |]; [inversion HP|by destruct HP].
  - destruct Hh as [(m & cm & Em & Hm) Hs]. split; [exists n, cx; split; [done|congruence]|].
    destruct cr as [c|s c]; [done|]. simpl in *. destruct Hs as ((k & ck & Ek & Hk) & Hne & st & Hst).
    assert (s ∉ L) as Hs1 by (intros Hin; by apply (rep_no_status _ _ _ _ _ HR s st Hin)).
    assert (s ∉ Lx) as Hs2 by (intros Hin; by apply (rep_no_status _ _ _ _ _ HRx s st Hin)).
    assert (h1 !! s = h !! s) as Es.
    { apply HF; [done|]. intros ->. destruct (rep_root _ _ _ _ _ HRx) as (Lx0 & ? & -> & _). apply Hs2, elem_of_cons. auto. }
    unfold shared, box. rewrite Es. eauto 10.
Qed.

Lemma rep_root_in h ly c t L : rep h ly (ValueImpl.Container_ c) t L -> container_loc c ∈ L.
Proof. intros (L0 & ? & -> & _)%rep_root. apply elem_of_cons. auto. Qed.

Lemma prim_elem_prim h h' c i ly v t x tx Lx : prim_elem h c i ly v t -> rep h' ly x tx Lx -> prim ly x tx /\ Lx = [].
Proof.
  intros HE HR. assert (prim ly v t) as HP by (destruct HE; [done|constructor..]).
  destruct HR; [done|inversion HP..].
Qed.

Lemma held_insert h cr n cnt cnt' : held h cr -> h !! container_loc (ContainerRef.container cr) = Some (RcBox.mk n cnt) ->
  held (<[container_loc (ContainerRef.container cr) := RcBox.mk n cnt']> h) cr.
Proof.
  intros [(m & cm & Em & Hm) Hs] En. split; [exists n, cnt'; rewrite lookup_insert_eq; split; [done|congruence]|].
  destruct cr as [c|s c]; [done|]. simpl in *. destruct Hs as (Hsh & Hne & Hb).
  unfold shared, box. rewrite lookup_insert_ne by done. eauto 10.
Qed.

(** What a write does to the value that the reference is below. *)
Lemma write_ref_at h ly c t L p r lyx x tx Lx : rep h ly (ValueImpl.Container_ c) t L -> ref_at h c p r -> held h (ref_of r) ->
  layout_at ly p = Some lyx -> rep h lyx x tx Lx -> L ## Lx -> unique h Lx ->
  exists h' L', ReferenceImpl_write_ref r x h = Ok ((), h') /\
  rep h' ly (ValueImpl.Container_ c) (tree_update t p tx) L' /\ L' ⊆ L ++ Lx /\
  (forall s c', ref_of r = Global s c' -> box h' s (Status Dirty)) /\
  forall r', r' ∉ L -> r' ∉ Lx -> r' ∉ ref_pointers (ref_of r) -> h' !! r' = h !! r'.
Proof.
  intros HR HA Hh Hlyx HRx HD HU. destruct HA as [p cr Hp|p i cr ly1 v t1 Hp HE]; cbn [ref_of ReferenceImpl_write_ref IndexedRef.container_ref] in *.
  - destruct (path_focus _ _ _ _ Hp _ _ _ HR) as (ly' & t' & L' & Ht & Hly & HR' & Hsub & Hput).
    assert (ly' = lyx) as -> by congruence. destruct (rep_container _ _ _ _ _ _ _ _ _ HR' HRx) as [cx ->].
    destruct (HU _ (rep_root_in _ _ _ _ _ HRx)) as [cc Hcc].
    destruct (container_write h cr lyx t' L' cx tx Lx cc) as (h1 & L1 & E1 & HR1 & HL1 & Hh1 & HF1); [done..|set_solver|done|done|].
    destruct (release_run h1 cr Hh1) as (h' & E' & HC & HDirty & HF).
    assert (forall r, r ∈ L \/ r ∈ L1 -> forall c0, cr <> Global r c0) as Hns.
    { intros r0 Hr0 c0 ->. destruct Hr0 as [Hr0|Hr0]; [apply (held_status _ _ _ _ _ _ _ Hh HR), Hr0|].
      apply (held_status _ _ _ _ _ _ _ Hh HRx), HL1, Hr0. }
    destruct (Hput h' tx (container_loc (ContainerRef.container cr) :: L1)) as (Ln & HRn & HLn).
    { eapply rep_frame; [done|]. intros r0 [->|Hr0]%elem_of_cons; apply HC, Hns; [|by right].
      left. apply Hsub, (rep_root_in _ _ _ _ _ HR'). }
    { intros r0 [Hr0 Hr1]%elem_of_rest. rewrite HC by (apply Hns; auto). rewrite HF1; [done..|].
      intros ->. apply (HD (container_loc cx)); [done|apply (rep_root_in _ _ _ _ _ HRx)]. }
    { intros r0 [->|Hr0]%elem_of_cons [Hr1 Hr2]%elem_of_rest; [apply Hr2, (rep_root_in _ _ _ _ _ HR')|]. by apply (HD r0), HL1. }
    exists h', Ln. split_and!; [by rewrite E1|done| |done|].
    + intros r0 [[->|Hr0]%elem_of_cons|[Hr0 _]%elem_of_rest]%HLn; apply elem_of_app; [left|right|left]; auto.
      apply Hsub, (rep_root_in _ _ _ _ _ HR').
    + intros r0 H1 H2 H3. rewrite HF by done. apply HF1; [set_solver|]. intros ->. apply H2, (rep_root_in _ _ _ _ _ HRx).
  - destruct (path_focus _ _ _ _ Hp _ _ _ HR) as (ly' & t' & L' & Ht & Hly & HR' & Hsub & Hput).
    destruct (elem_focus _ _ _ _ _ _ _ _ _ HR' HE) as (Ht1 & Hly1 & Hput1).
    rewrite layout_at_app, Hly in Hlyx. change (layout_at ly' [i] = Some lyx) in Hlyx. rewrite Hly1 in Hlyx. injection Hlyx as <-.
    destruct (prim_elem_prim _ _ _ _ _ _ _ _ _ _ HE HRx) as [Hx ->]. pose proof (rep_root_in _ _ _ _ _ HR') as Hin.
    set (r0 := container_loc (ContainerRef.container cr)) in *. destruct (proj1 Hh) as (n & cnt & En & Hn). fold r0 in En.
    set (h1 := <[r0 := RcBox.mk n (set_elem cnt i x)]> h).
    destruct (release_run h1 cr) as (h' & E' & HC & HDirty & HF); [by eapply held_insert|].
    assert (forall r, r ∈ L -> forall c0, cr <> Global r c0) as Hns.
    { intros r Hr c0 ->. apply (held_status _ _ _ _ _ _ _ Hh HR), Hr. }
    assert (forall r, r ∈ L -> r <> r0 -> RcBox.contents <$> h' !! r = RcBox.contents <$> h !! r) as Hsame.
    { intros r Hr Hne. rewrite HC by auto. unfold h1. by rewrite lookup_insert_ne. }
    destruct (Hput1 h' x tx cnt Hx) as (L1 & HR1 & HL1).
    { unfold box. by rewrite En. }
    { unfold box. rewrite HC by auto. unfold h1. by rewrite lookup_insert_eq. }
    { intros r [Hr Hne]%elem_of_rest. rewrite list_elem_of_singleton in Hne. auto. }
    destruct (Hput h' (tree_update t' [i] tx) L1 HR1) as (Ln & HRn & HLn).
    { intros r [Hr Hne]%elem_of_rest. apply Hsame; [done|]. intros ->. done. }
    { intros r Hr%HL1 [_ Hne]%elem_of_rest. done. }
    exists h', Ln. split_and!; [by rewrite (elem_write _ _ _ _ _ _ _ _ _ _ HE Hx En)| | |done|].
    + by rewrite (tree_update_app _ _ _ _ _ Ht).
    + intros r [Hr%HL1|[Hr _]%elem_of_rest]%HLn; apply elem_of_app; auto.
    + intros r H1 _ H3. rewrite HF by done. unfold h1. apply lookup_insert_ne. intros <-. auto.
Qed.

(** * Borrowing *)

Definition live (h : Store) (r : loc) : Prop := exists n c, h !! r = Some (RcBox.mk n c) /\ 1 <= n.

Definition live_ref (h : Store) (cr : ContainerRef) : Prop :=
  live h (container_loc (ContainerRef.container cr)) /\
  match cr with
  | Local _ => True
  | Global status c => live h status /\ exists s, box h status (Status s)
  end.

#[local] Transparent Rc.clone.
Lemma clone_run h r n c : h !! r = Some (RcBox.mk n c) -> Rc.clone r h = Ok (r, <[r := RcBox.mk (n + 1) c]> h).
Proof. intros E. unfold Rc.clone. by rewrite (st_bind_run _ _ _ _ _ (get_lookup _ _ _ E)), (st_bind_run _ _ _ _ _ (put_run _ _ _)). Qed.
#[local] Opaque Rc.clone.

(** A new pointer to a box. *)
Lemma clone_live h r : live h r -> exists h', Rc.clone r h = Ok (r, h') /\ only_counts h h' /\ shared h' r /\
  forall r', live h r' -> live h' r' /\ (shared h r' -> shared h' r').
Proof.
  intros (n & c & E & Hn). eexists. split_and!; [by apply clone_run|by eapply only_counts_insert| |].
  - exists (n + 1), c. rewrite lookup_insert_eq. split; [done|lia].
  - intros r' (m & d & E' & Hm). destruct (decide (r = r')) as [<-|Hne].
    + split; [|intros _]; exists (n + 1), c; rewrite lookup_insert_eq; (split; [done|lia]).
    + split; [exists m, d; by rewrite lookup_insert_ne|]. intros (k & e & E2 & Hk). exists k, e. by rewrite lookup_insert_ne.
Qed.

Lemma copy_by_ref_live h c : live h (container_loc c) -> exists h', Container.copy_by_ref c h = Ok (c, h') /\
  only_counts h h' /\ shared h' (container_loc c) /\ forall r', live h r' -> live h' r' /\ (shared h r' -> shared h' r').
Proof.
  intros Hl. destruct (clone_live _ _ Hl) as (h' & E & Hrest). exists h'. split; [|done].
  unfold Container.copy_by_ref. by rewrite (st_bind_run _ _ _ _ _ E).
Qed.

(** The new reference of a borrow: to the container [c] with the status of [cr]. *)
Definition reborrow (cr : ContainerRef) (c : Container) : ContainerRef :=
  match cr with Local _ => Local c | Global status _ => Global status c end.

Lemma reborrow_run {A} h cr c (k : ContainerRef -> A) : live_ref h cr -> live h (container_loc c) ->
  (forall s c', cr = Global s c' -> s <> container_loc c) ->
  exists h', (r ← match cr with
                  | Local _ => c ← Container.copy_by_ref c; mret (Local c)
                  | Global status _ => status ← Rc.clone status; c ← Container.copy_by_ref c; mret (Global status c)
                  end; mret (k r)) h = Ok (k (reborrow cr c), h') /\
  only_counts h h' /\ held h' (reborrow cr c) /\ forall r', live h r' -> live h' r' /\ (shared h r' -> shared h' r').
Proof.
  intros [Hl Hs] Hc Hne. destruct cr as [c0|s c0]; simpl.
  - destruct (copy_by_ref_live _ _ Hc) as (h' & E & HC & HS & HM). exists h'. split_and!; [|done|by split|done].
    erewrite st_bind_run; [done|]. by rewrite (st_bind_run _ _ _ _ _ E).
  - destruct Hs as (Hs & st & Hst). destruct (clone_live _ _ Hs) as (h1 & E1 & HC1 & HS1 & HM1).
    destruct (copy_by_ref_live h1 c) as (h2 & E2 & HC2 & HS2 & HM2); [by apply HM1|]. exists h2. split_and!.
    + erewrite st_bind_run; [done|]. by rewrite (st_bind_run _ _ _ _ _ E1), (st_bind_run _ _ _ _ _ E2).
    + by eapply only_counts_trans.
    + split; [done|]. split_and!; [apply HM2; [by apply HM1|done]|by eapply Hne|]. exists st. unfold box. by rewrite HC2, HC1.
    + intros r' Hr'. destruct (HM1 r' Hr') as [H1 H2]. destruct (HM2 r' H1). auto.
Qed.

(** An element is a container or not. *)
Lemma elem_kinds h ly c t L ts : rep h ly (ValueImpl.Container_ c) t L -> children t = Some ts ->
  Container.len c h = Ok (zlen ts, h) /\
  forall i, (i < length ts)%nat ->
    (exists r vs c1, values_loc c = Some r /\ box h r (Values vs) /\ vs !! i = Some (ValueImpl.Container_ c1)) \/
    (exists ly1 v t1, prim_elem h c i ly1 v t1).
Proof.
  intros HR Hts. destruct (values_loc c) as [r|] eqn:Hc.
  - assert (exists vs, box h r (Values vs)) as [vs HB].
    { inversion HR as [? ? ? HP|? ? ? ? ? HP| | |]; subst; simpl in *; [by inversion HP|by destruct HP|..]; simplify_eq; eauto. }
    destruct (rep_values _ _ _ _ _ _ _ HR Hc HB) as (lys & ts' & L0 & _ & _ & HRs & Hts' & _). simplify_eq.
    destruct (reps_length _ _ _ _ _ HRs) as [_ El]. split.
    + destruct c; simplify_eq/=; step; unfold mret, ST_ret; by rewrite El.
    + intros i Hi. rewrite El in Hi. apply lookup_lt_is_Some in Hi as [v Hv].
      destruct (reps_focus _ _ _ _ _ _ _ HRs Hv) as (ly1 & t1 & L1 & _ & _ & HR1 & _).
      destruct HR1; [right; eauto using prim_elem|left; eauto 10..].
  - inversion HR as [? ? ? HP|ly2 mk cnt ts' r HP HB| | |]; subst; [by inversion HP| |discriminate..]. simplify_eq/=.
    destruct HP; (split; [cbn [Container.len]; step; by rewrite length_map|]); intros i Hi; rewrite length_map in Hi;
      apply lookup_lt_is_Some in Hi as [x Hx]; right; eauto using prim_elem.
Qed.

Lemma reaches_counts h h' c p c' : only_counts h h' -> reaches h c p c' -> reaches h' c p c'.
Proof. intros HC HR. induction HR; [constructor|]. econstructor; [done| |done|done]. eapply box_frame; [done|apply HC]. Qed.

Lemma prim_elem_counts h h' c i ly v t : only_counts h h' -> prim_elem h c i ly v t -> prim_elem h' c i ly v t.
Proof.
  intros HC HE. assert (forall r cnt, box h r cnt -> box h' r cnt) as HB by (intros r cnt Hb; eapply box_frame; [done|apply HC]).
  destruct HE; eauto using prim_elem.
Qed.

Lemma reaches_step h c p c1 r vs i c2 : reaches h c p c1 -> values_loc c1 = Some r -> box h r (Values vs) ->
  vs !! i = Some (ValueImpl.Container_ c2) -> reaches h c (p ++ [i]) c2.
Proof. intros HR Hc HB Hi. induction HR; simpl; econstructor; eauto; constructor. Qed.

Lemma tree_at_snoc t p t1 i : tree_at t p = Some t1 -> tree_at t (p ++ [i]) = ts ← children t1; ts !! i.
Proof. intros E. rewrite tree_at_app, E. simpl. destruct (children t1) as [ts|]; [|done]. simpl. by destruct (ts !! i). Qed.

(** [borrow_elem]: a reference one step further down, or an error if there is no such
    element. *)
Lemma borrow_elem_at h ly c t L p cr i : rep h ly (ValueImpl.Container_ c) t L -> reaches h c p (ContainerRef.container cr) ->
  (forall r, r ∈ L -> live h r) -> live_ref h cr ->
  match tree_at t (p ++ [i]) with
  | Some _ => exists v r h', ContainerRef_borrow_elem cr (Z.of_nat i) h = Ok (v, h') /\ cast_reference v h' = Ok (r, h') /\
      only_counts h h' /\ ref_at h' c (p ++ [i]) r /\ held h' (ref_of r) /\ exists c', ref_of r = reborrow cr c'
  | None => ContainerRef_borrow_elem cr (Z.of_nat i) h = Err (vm_error UNKNOWN_INVARIANT_VIOLATION_ERROR)
  end.
Proof.
  intros HR Hp HL Hcr. destruct (path_focus _ _ _ _ Hp _ _ _ HR) as (ly' & t' & L' & Ht & Hly & HR' & Hsub & _).
  rewrite (tree_at_snoc _ _ _ _ Ht). destruct (children t') as [ts|] eqn:Hts.
  2:{ inversion HR' as [? ? ? HP| | | |]; subst; try done. inversion HP. }
  destruct (elem_kinds _ _ _ _ _ _ HR' Hts) as [Hlen Hkinds]. unfold ContainerRef_borrow_elem. simpl.
  rewrite (st_bind_run _ _ _ _ _ Hlen). destruct (ts !! i) as [ti|] eqn:Hi.
  2:{ apply lookup_ge_None in Hi. assert ((zlen ts <=? Z.of_nat i) = true) as -> by (apply Z.leb_le; lia). done. }
  apply lookup_lt_Some in Hi. assert ((zlen ts <=? Z.of_nat i) = false) as -> by (apply Z.leb_gt; lia).
  assert (forall s c', cr = Global s c' -> s ∉ L) as Hstatus.
  { intros s c' -> Hin. destruct Hcr as (_ & _ & st & Hst). by apply (rep_no_status _ _ _ _ _ HR s st Hin). }
  destruct (Hkinds i Hi) as [(r & vs & c1 & Hc & HB & Hv)|(ly1 & v & t1 & HE)].
  - destruct (child_focus _ _ _ _ _ _ _ _ _ HR' Hc HB Hv) as (_ & ly1 & t1 & L1 & _ & _ & _ & HR1 & Hsub1 & _).
    pose proof (rep_root_in _ _ _ _ _ HR1) as Hin1.
    destruct (reborrow_run h cr c1 ValueImpl.ContainerRef_ Hcr) as (h' & E & HC & Hh & _); [auto|by intros s c' Es ->; eapply Hstatus; eauto|].
    exists (ValueImpl.ContainerRef_ (reborrow cr c1)), (ReferenceContainer (reborrow cr c1)), h'.
    assert (ContainerRef.container (reborrow cr c1) = c1) as Hc1 by (by destruct cr). split_and!; [|done|done| |done|by exists c1].
    + rewrite <- E. pose proof (elem_value_run _ _ _ _ _ HB Hv) as Ev.
      destruct (ContainerRef.container cr) eqn:Ec; simplify_eq/=; exact (st_bind_run _ _ _ _ _ Ev).
    + constructor. rewrite Hc1. eapply reaches_counts; [done|]. by eapply reaches_step.
  - pose proof (rep_root_in _ _ _ _ _ HR') as Hin1.
    destruct (reborrow_run h cr (ContainerRef.container cr) (fun r => ValueImpl.IndexedRef_ (IndexedRef.mk (Z.of_nat i) r)) Hcr)
      as (h' & E & HC & Hh & _); [auto|by intros s c' Es ->; eapply Hstatus; eauto|].
    assert (reborrow cr (ContainerRef.container cr) = cr) as Ecr by (by destruct cr). rewrite Ecr in *.
    exists (ValueImpl.IndexedRef_ (IndexedRef.mk (Z.of_nat i) cr)), (ReferenceIndexed (IndexedRef.mk (Z.of_nat i) cr)), h'.
    split_and!; [|done|done| |done|by exists (ContainerRef.container cr)].
    + rewrite <- E. assert (forall k, match cr with
        | Local _ => c ← Container.copy_by_ref (ContainerRef.container cr); mret (Local c)
        | Global status _ => status ← Rc.clone status; c ← Container.copy_by_ref (ContainerRef.container cr); mret (Global status c)
        end ≫= k = ContainerRef.copy_value cr ≫= k :> M ValueImpl) as -> by (by destruct cr).
      destruct HE as [c0 r vs i ly2 v t2 Hc HB Hv HP| | | | |]; try done.
      pose proof (elem_value_run _ _ _ _ _ HB Hv) as Ev.
      destruct c0; simplify_eq/=; rewrite (st_bind_run _ _ _ _ _ Ev); by destruct HP.
    + econstructor; [by eapply reaches_counts|by eapply prim_elem_counts].
Qed.
