(* ===== verification/VmVectors.v ===== *)
(** The vector operations of the virtual machine, as operations on the list of trees of a
    vector that a reference points to, anywhere below a container. *)
From stdpp Require Import gmap.
From S2P Require Import Prelude StatusCode FileFormat VmValues VmOwnership VmReferences.

#[local] Opaque Rc.new Rc.get Rc.put Rc.free Rc.borrow Rc.replace Rc.clone.
#[local] Hint Resolve replace_box : run.

(** The type of the elements, as the instructions give it. *)
Definition elem_type (ty : RuntimeType.Type_) (ly : layout) : Prop :=
  match ty, ly with
  | RuntimeType.Bool, LBool | RuntimeType.U8, LU8 | RuntimeType.U64, LU64 | RuntimeType.U128, LU128
  | RuntimeType.Address, LAddress | RuntimeType.Signer, LSigner | RuntimeType.Vector _, LVector _
  | RuntimeType.Struct _, LStruct _ | RuntimeType.StructInstantiation _ _, LStruct _ => True
  | _, _ => False
  end.

(** * Lists of elements *)

Lemma reps_app h lys1 lys2 vs1 vs2 ts1 ts2 L1 L2 : reps h lys1 vs1 ts1 L1 -> reps h lys2 vs2 ts2 L2 -> L1 ## L2 ->
  reps h (lys1 ++ lys2) (vs1 ++ vs2) (ts1 ++ ts2) (L1 ++ L2).
Proof.
  induction 1 as [|ly lys v vs t ts K1 K2 HR HRs IH HD]; intros HR2 HD2; [done|]. simpl. rewrite <- app_assoc.
  constructor; [done|apply IH; [done|set_solver]|set_solver].
Qed.

Lemma reps_split h lys1 lys2 vs1 vs2 ts L : reps h (lys1 ++ lys2) (vs1 ++ vs2) ts L -> length lys1 = length vs1 ->
  exists ts1 ts2 L1 L2, ts = ts1 ++ ts2 /\ L = L1 ++ L2 /\ reps h lys1 vs1 ts1 L1 /\ reps h lys2 vs2 ts2 L2 /\ L1 ## L2.
Proof.
  revert vs1 ts L. induction lys1 as [|ly lys1 IH]; intros [|v vs1] ts L HR E; simplify_eq/=.
  - exists [], ts, [], L. split_and!; [done..|constructor|done|]. by intros r ?%elem_of_nil.
  - inversion HR as [|? ? ? ? t ts' K1 K2 HR1 HR2 HD]; subst. destruct (IH _ _ _ HR2 E) as (ts1 & ts2 & L1 & L2 & -> & -> & H1 & H2 & H3).
    exists (t :: ts1), ts2, (K1 ++ L1), L2. rewrite <- app_assoc. split_and!; [done..|constructor; [done..|set_solver]|done|set_solver].
Qed.

(** The order of the elements does not matter to their boxes. *)
Lemma reps_perm h ly (ps ps' : list (ValueImpl * tree)) L : ps ≡ₚ ps' -> reps h (replicate (length ps) ly) ps.*1 ps.*2 L ->
  exists L', reps h (replicate (length ps') ly) ps'.*1 ps'.*2 L' /\ L' ≡ₚ L.
Proof.
  intros HP. revert L. induction HP as [|[v t] ps ps' HP IH|[v1 t1] [v2 t2] ps|ps1 ps2 ps3 HP1 IH1 HP2 IH2]; intros L HR; simpl in *.
  - by exists L.
  - inversion HR as [|? ? ? ? ? ? K1 K2 HR1 HR2 HD]; subst. destruct (IH _ HR2) as (L' & HR' & HL').
    exists (K1 ++ L'). split; [constructor; [done..|]|by rewrite HL']. intros r H1 H2. rewrite HL' in H2. by apply (HD r).
  - inversion HR as [|? ? ? ? ? ? K1 K2 HR1 HR2 HD]; subst. inversion HR2 as [|? ? ? ? ? ? K3 K4 HR3 HR4 HD2]; subst.
    exists (K3 ++ K1 ++ K4). split; [repeat constructor; [done..| |]; set_solver|]. rewrite !app_assoc. by rewrite (Permutation_app_comm K3 K1).
  - destruct (IH1 _ HR) as (L1 & HR1 & HL1). destruct (IH2 _ HR1) as (L2 & HR2 & HL2). exists L2. split; [done|]. by rewrite HL2.
Qed.

Definition swapped {A} (i j : nat) (x y : A) (l : list A) : list A := <[j := x]> (<[i := y]> l).

Lemma length_swapped {A} i j (x y : A) l : length (swapped i j x y l) = length l.
Proof. unfold swapped. by rewrite !length_insert. Qed.

Lemma swapped_perm {A} i j (x y : A) l : l !! i = Some x -> l !! j = Some y -> swapped i j x y l ≡ₚ l.
Proof.
  intros Hi Hj. apply Permutation_inj. unfold swapped. split; [by rewrite !length_insert|].
  exists (fun k => if decide (k = i) then j else if decide (k = j) then i else k). split.
  - intros a b. repeat case_decide; congruence.
  - intros k. destruct (decide (k = j)) as [->|Hne].
    + rewrite list_lookup_insert_eq by (rewrite length_insert; by eapply lookup_lt_Some). repeat case_decide; congruence.
    + rewrite list_lookup_insert_ne by done. destruct (decide (k = i)) as [->|Hne2].
      * rewrite list_lookup_insert_eq by (by eapply lookup_lt_Some). done.
      * by rewrite list_lookup_insert_ne.
Qed.

(** * The box of a vector *)

Lemma vector_inv h ly c ts L : rep h (LVector ly) (ValueImpl.Container_ c) (TVector ts) L ->
  (exists mk cnt r, prim_vec ly mk cnt ts /\ c = mk r /\ box h r cnt /\ L = [r]) \/
  (exists r vs L0, boxed ly /\ c = Vec r /\ box h r (Values vs) /\ reps h (replicate (length vs) ly) vs ts L0 /\ r ∉ L0 /\ L = r :: L0).
Proof. inversion 1 as [? ? ? HP|? mk cnt ? r HP HB|? r vs ? L0 Hb HB HRs Hr| |]; subst; [by inversion HP|left; eauto 10|right; eauto 15]. Qed.

Lemma check_elem_layout_run h ly c ts L ty : rep h (LVector ly) (ValueImpl.Container_ c) (TVector ts) L -> elem_type ty ly ->
  check_elem_layout ty c h = Ok ((), h).
Proof.
  intros [(mk & cnt & r & HP & -> & _)|(r & vs & L0 & Hb & -> & _)]%vector_inv Hty.
  - by destruct HP, ty.
  - by destruct ly, ty.
Qed.

Lemma rep_prim_vec_elem h ly mk cnt ts e te Le : prim_vec ly mk cnt ts -> rep h ly e te Le -> prim ly e te /\ Le = [].
Proof. intros HP HR. destruct HP; by inversion HR as [? ? ? HP| | | |]; subst. Qed.

(** Storing new contents in one box. *)
Lemma insert_contents (h : Store) r b (L : list loc) : r ∉ L -> same_contents h (<[r := b]> h) L.
Proof. intros Hr r' Hr'. rewrite lookup_insert_ne; [done|]. by intros ->. Qed.

Lemma box_insert (h : Store) r n cnt : box (<[r := RcBox.mk n cnt]> h) r cnt.
Proof. unfold box. by rewrite lookup_insert_eq. Qed.

Lemma vector_len h ly cr ts L ty : rep h (LVector ly) (ValueImpl.Container_ (ContainerRef.container cr)) (TVector ts) L -> elem_type ty ly ->
  VectorRef.len cr ty h = Ok (ValueImpl.U64 (zlen ts), h).
Proof.
  intros HR Hty. unfold VectorRef.len. rewrite (st_bind_run _ _ _ _ _ (check_elem_layout_run _ _ _ _ _ _ HR Hty)).
  destruct (elem_kinds _ _ _ _ _ ts HR eq_refl) as [Hlen _].
  apply vector_inv in HR as [(mk & cnt & r & HP & Ec & _)|(r & vs & L0 & Hb & Ec & _)]; rewrite Ec in *;
    [destruct HP|]; by rewrite (st_bind_run _ _ _ _ _ Hlen).
Qed.

(** [m] changes the vector to [ts'] and then marks the reference. *)
Definition becomes {A} (h : Store) (cr : ContainerRef) (ly : layout) (m k : M A) (ts' : list tree) (P : Store -> list loc -> Prop) : Prop :=
  exists h1 L1, m h = k h1 /\ rep h1 (LVector ly) (ValueImpl.Container_ (ContainerRef.container cr)) (TVector ts') L1 /\ P h1 L1 /\
  forall r, r <> container_loc (ContainerRef.container cr) -> h1 !! r = h !! r.

Lemma vector_push h ly cr ts L ty e te Le : rep h (LVector ly) (ValueImpl.Container_ (ContainerRef.container cr)) (TVector ts) L ->
  elem_type ty ly -> rep h ly e te Le -> L ## Le ->
  becomes h cr ly (VectorRef.push_back cr e ty) (ContainerRef.mark_dirty cr) (ts ++ [te]) (fun _ L1 => L1 ≡ₚ L ++ Le).
Proof.
  intros HR Hty He HD. unfold becomes, VectorRef.push_back.
  rewrite (st_bind_run _ _ _ _ _ (check_elem_layout_run _ _ _ _ _ _ HR Hty)).
  apply vector_inv in HR as [(mk & cnt & r & HP & -> & HB & ->)|(r & vs & L0 & Hb & -> & HB & HRs & Hr & ->)];
    pose proof (box_lookup _ _ _ HB) as [n Hn].
  - destruct (rep_prim_vec_elem _ _ _ _ _ _ _ _ HP He) as [Hp ->].
    destruct HP; inversion Hp; subst; eexists _, [r]; (split_and!; [refine (st_bind_run _ _ _ () _ _); do 3 step; done| |done|]);
      try (intros r' Hne; by apply lookup_insert_ne); rewrite <- map_last; eapply rep_prim_vec; try apply box_insert; constructor.
  - eexists _, (r :: L0 ++ Le). split_and!.
    + refine (st_bind_run _ _ _ () _ _). do 2 step. done.
    + apply (rep_vec _ _ _ (vs ++ [e])); [done|apply box_insert| |set_solver]. rewrite length_app, replicate_add.
      rewrite <- (app_nil_r Le). apply reps_app; [|apply reps_cons; [|constructor|]|].
      * eapply reps_frame; [done|]. by apply insert_contents.
      * eapply rep_frame; [done|]. apply insert_contents. set_solver.
      * by intros r' _ ?%elem_of_nil.
      * rewrite app_nil_r. set_solver.
    + done.
    + intros r' Hne. by apply lookup_insert_ne.
Qed.

(** The last element. *)
Lemma last_snoc {A} (l : list A) x : (l ++ [x]) !! (length (l ++ [x]) - 1)%nat = Some x /\ take (length (l ++ [x]) - 1) (l ++ [x]) = l.
Proof.
  rewrite length_app. simpl. replace (length l + 1 - 1)%nat with (length l) by lia.
  split; [by rewrite lookup_app_r, Nat.sub_diag|apply take_app_length].
Qed.

Lemma pop_last_snoc {A} (l : list A) x h : VectorRef.pop_last (l ++ [x]) h = Ok ((l, x), h).
Proof. unfold VectorRef.pop_last. destruct (last_snoc l x) as [-> ->]. done. Qed.

Lemma pop_last_nil {A} h : VectorRef.pop_last (A := A) [] h = Err (vector_error POP_EMPTY_VEC).
Proof. done. Qed.

Lemma map_snoc_inv {A B} (f : A -> B) l ts t : map f l = ts ++ [t] -> exists l' x, l = l' ++ [x] /\ map f l' = ts /\ f x = t.
Proof.
  intros E. destruct (exists_last (l := l)) as (l' & x & ->); [intros ->; by destruct ts|].
  rewrite map_app in E. apply app_inj_tail in E as [E1 E2]. eauto.
Qed.

Lemma vector_pop h ly cr ts t L ty : rep h (LVector ly) (ValueImpl.Container_ (ContainerRef.container cr)) (TVector (ts ++ [t])) L ->
  elem_type ty ly ->
  exists v Lv, becomes h cr ly (VectorRef.pop cr ty) (ContainerRef.mark_dirty cr;; mret v) ts (fun h1 L1 => rep h1 ly v t Lv /\ L ≡ₚ L1 ++ Lv).
Proof.
  intros HR Hty. unfold becomes, VectorRef.pop.
  setoid_rewrite (st_bind_run _ _ _ _ _ (check_elem_layout_run _ _ _ _ _ _ HR Hty)).
  apply vector_inv in HR as [(mk & cnt & r & HP & -> & HB & ->)|(r & vs & L0 & Hb & -> & HB & HRs & Hr & ->)];
    pose proof (box_lookup _ _ _ HB) as [n Hn].
  - remember (ts ++ [t]) as ts0 eqn:E. destruct HP; apply map_snoc_inv in E as (l' & x & -> & <- & <-).
    all: eexists _, [], _, [r]; split_and!; [| |repeat constructor|done|].
    all: try (intros r' Hne; by apply lookup_insert_ne).
    all: try (eapply rep_prim_vec; [constructor|apply box_insert]).
    all: refine (st_bind_run _ _ _ _ _ _); erewrite st_bind_run by (step; apply pop_last_snoc); cbv beta iota; by step.
  - destruct (exists_last (l := vs)) as (vs' & v & ->).
    { intros ->. destruct (reps_length _ _ _ _ _ HRs) as [_ El]. rewrite length_app in El. simpl in El. lia. }
    rewrite length_app, replicate_add in HRs.
    destruct (reps_split _ _ _ _ _ _ _ HRs) as (ts1 & ts2 & L1 & L2 & Ets & -> & HR1 & HR2 & HD); [by rewrite length_replicate|].
    inversion HR2 as [|? ? ? ? t2 ts3 L3 L4 HRv HRn HD2]; subst. inversion HRn; subst. apply app_inj_tail in Ets as [<- <-].
    rewrite app_nil_r in *. eexists v, L3, _, (r :: L1). split_and!.
    + refine (st_bind_run _ _ _ _ _ _). erewrite st_bind_run by (step; apply pop_last_snoc). cbv beta iota. by step.
    + apply (rep_vec _ _ _ vs'); [done|apply box_insert| |set_solver]. eapply reps_frame; [done|]. apply insert_contents. set_solver.
    + eapply rep_frame; [done|]. apply insert_contents. set_solver.
    + done.
    + intros r' Hne. by apply lookup_insert_ne.
Qed.

Lemma st_bind_err {A B} (m : M A) (k : A -> M B) h e : m h = Err e -> (m ≫= k) h = Err e.
Proof. unfold mbind, ST_bind. by intros ->. Qed.

Lemma vector_pop_empty h ly cr L ty : rep h (LVector ly) (ValueImpl.Container_ (ContainerRef.container cr)) (TVector []) L ->
  elem_type ty ly -> VectorRef.pop cr ty h = Err (vector_error POP_EMPTY_VEC).
Proof.
  intros HR Hty. unfold VectorRef.pop. rewrite (st_bind_run _ _ _ _ _ (check_elem_layout_run _ _ _ _ _ _ HR Hty)).
  apply vector_inv in HR as [(mk & cnt & r & HP & -> & HB & ->)|(r & vs & L0 & Hb & -> & HB & HRs & Hr & ->)].
  - remember ([] : list tree) as ts0 eqn:E. destruct HP; apply map_eq_nil in E as ->; do 2 apply st_bind_err; by step.
  - destruct (reps_length _ _ _ _ _ HRs) as [_ El]. destruct vs; [|done]. do 2 apply st_bind_err. by step.
Qed.

Lemma swap_elements_run {A} (i j : nat) (l : list A) x y h : l !! i = Some x -> l !! j = Some y ->
  VectorRef.swap_elements (Z.of_nat i) (Z.of_nat j) l h = Ok (swapped i j x y l, h).
Proof.
  intros Hi Hj. unfold VectorRef.swap_elements. pose proof (lookup_lt_Some _ _ _ Hi). pose proof (lookup_lt_Some _ _ _ Hj).
  assert ((zlen l <=? Z.of_nat i) || (zlen l <=? Z.of_nat j) = false) as -> by (apply orb_false_iff; rewrite !Z.leb_gt; lia).
  rewrite (st_bind_run _ _ _ _ _ (at_index_run _ _ _ _ Hi)), (st_bind_run _ _ _ _ _ (at_index_run _ _ _ _ Hj)). by rewrite !Nat2Z.id.
Qed.

Lemma swap_elements_bounds {A} (i j : nat) (l : list A) h : l !! i = None \/ l !! j = None ->
  VectorRef.swap_elements (Z.of_nat i) (Z.of_nat j) l h = Err (vector_error INDEX_OUT_OF_BOUNDS).
Proof.
  intros HN. unfold VectorRef.swap_elements.
  assert ((zlen l <=? Z.of_nat i) || (zlen l <=? Z.of_nat j) = true) as ->; [|done].
  apply orb_true_iff. rewrite !Z.leb_le, !lookup_ge_None in *. lia.
Qed.

Lemma reps_swapped h ly n vs ts L i j v1 v2 t1 t2 : reps h (replicate n ly) vs ts L ->
  vs !! i = Some v1 -> vs !! j = Some v2 -> ts !! i = Some t1 -> ts !! j = Some t2 ->
  exists L', reps h (replicate n ly) (swapped i j v1 v2 vs) (swapped i j t1 t2 ts) L' /\ L' ≡ₚ L.
Proof.
  intros HR H1 H2 H3 H4. destruct (reps_length _ _ _ _ _ HR) as [En El]. rewrite length_replicate in En. subst n.
  assert (length (zip vs ts) = length vs) as Ez by (rewrite length_zip_with; lia).
  destruct (reps_perm h ly (zip vs ts) (zip (swapped i j v1 v2 vs) (swapped i j t1 t2 ts)) L) as (L' & HR' & HL').
  - unfold swapped. rewrite <- !insert_zip_with. symmetry. apply swapped_perm; by rewrite lookup_zip_with, ?H1, ?H2, ?H3, ?H4.
  - rewrite fst_zip, snd_zip, Ez by lia. done.
  - exists L'. split; [|done]. revert HR'. rewrite fst_zip, snd_zip by (unfold swapped; rewrite !length_insert; lia).
    rewrite length_zip_with. unfold swapped. rewrite !length_insert, El, Nat.min_id. done.
Qed.

Lemma map_swapped {A B} (f : A -> B) i j x y l : map f (swapped i j x y l) = swapped i j (f x) (f y) (map f l).
Proof. unfold swapped. rewrite <- !list_fmap_insert. done. Qed.

Lemma vector_swap h ly cr ts L ty i j t1 t2 : rep h (LVector ly) (ValueImpl.Container_ (ContainerRef.container cr)) (TVector ts) L ->
  elem_type ty ly -> ts !! i = Some t1 -> ts !! j = Some t2 ->
  becomes h cr ly (VectorRef.swap cr (Z.of_nat i) (Z.of_nat j) ty) (ContainerRef.mark_dirty cr) (swapped i j t1 t2 ts) (fun _ L1 => L1 ≡ₚ L).
Proof.
  intros HR Hty Hi Hj. unfold becomes, VectorRef.swap.
  rewrite (st_bind_run _ _ _ _ _ (check_elem_layout_run _ _ _ _ _ _ HR Hty)).
  apply vector_inv in HR as [(mk & cnt & r & HP & -> & HB & ->)|(r & vs & L0 & Hb & -> & HB & HRs & Hr & ->)];
    pose proof (box_lookup _ _ _ HB) as [n Hn].
  - destruct HP; rewrite list_lookup_fmap in Hi, Hj; apply fmap_Some in Hi as (x & Hx & ->), Hj as (y & Hy & ->).
    all: eexists _, [r]; split_and!; [| |done|]; try (intros r' Hne; by apply lookup_insert_ne).
    all: try (rewrite <- map_swapped; eapply rep_prim_vec; [constructor|apply box_insert]).
    all: refine (st_bind_run _ _ _ () _ _); erewrite st_bind_run by (step; by apply swap_elements_run); by step.
  - destruct (reps_length _ _ _ _ _ HRs) as [_ El].
    destruct (lookup_lt_is_Some_2 vs i) as [v1 Hv1]; [rewrite <- El; by eapply lookup_lt_Some|].
    destruct (lookup_lt_is_Some_2 vs j) as [v2 Hv2]; [rewrite <- El; by eapply lookup_lt_Some|].
    destruct (reps_swapped _ _ _ _ _ _ _ _ _ _ _ _ HRs Hv1 Hv2 Hi Hj) as (L' & HR' & HL').
    eexists _, (r :: L'). split_and!; [| |by rewrite HL'|intros r' Hne; by apply lookup_insert_ne].
    + refine (st_bind_run _ _ _ () _ _). erewrite st_bind_run by (step; by apply swap_elements_run). by step.
    + apply (rep_vec _ _ _ (swapped i j v1 v2 vs)); [done|apply box_insert| |by rewrite HL'].
      rewrite length_swapped. eapply reps_frame; [done|]. apply insert_contents. by rewrite HL'.
Qed.

Lemma vector_swap_bounds h ly cr ts L ty i j : rep h (LVector ly) (ValueImpl.Container_ (ContainerRef.container cr)) (TVector ts) L ->
  elem_type ty ly -> ts !! i = None \/ ts !! j = None ->
  VectorRef.swap cr (Z.of_nat i) (Z.of_nat j) ty h = Err (vector_error INDEX_OUT_OF_BOUNDS).
Proof.
  intros HR Hty HN. unfold VectorRef.swap. rewrite (st_bind_run _ _ _ _ _ (check_elem_layout_run _ _ _ _ _ _ HR Hty)).
  apply vector_inv in HR as [(mk & cnt & r & HP & -> & HB & ->)|(r & vs & L0 & Hb & -> & HB & HRs & Hr & ->)].
  - destruct HP; rewrite !list_lookup_fmap, !fmap_None in HN; do 2 apply st_bind_err; step; by apply swap_elements_bounds.
  - destruct (reps_length _ _ _ _ _ HRs) as [_ El]. do 2 apply st_bind_err. step. apply swap_elements_bounds.
    rewrite !lookup_ge_None in *. lia.
Qed.

(** * A vector below a container *)

Definition status_ok (h : Store) (cr : ContainerRef) : Prop :=
  match cr with Local _ => True | Global s _ => exists st, box h s (Status st) end.

Lemma mark_dirty_run h cr : status_ok h cr ->
  exists h', ContainerRef.mark_dirty cr h = Ok ((), h') /\ (forall r, (forall c, cr <> Global r c) -> h' !! r = h !! r) /\
  (forall s c, cr = Global s c -> box h' s (Status Dirty)).
Proof.
  destruct cr as [c|s c]; [by exists h|]. intros [st [n Hn]%box_lookup]. eexists. split_and!.
  - cbn [ContainerRef.mark_dirty]. by step.
  - intros r Hr. rewrite lookup_insert_ne; [done|]. intros ->. by apply (Hr c).
  - intros s' c' [= <- <-]. apply box_insert.
Qed.

(** What the operation leaves of the container, if it ends by marking the reference. *)
Lemma vector_at h ly0 c t L p cr ly ts : rep h ly0 (ValueImpl.Container_ c) t L -> reaches h c p (ContainerRef.container cr) ->
  layout_at ly0 p = Some (LVector ly) -> tree_at t p = Some (TVector ts) -> status_ok h cr ->
  exists L', rep h (LVector ly) (ValueImpl.Container_ (ContainerRef.container cr)) (TVector ts) L' /\ L' ⊆ L /\
  forall h1 L1 ts', rep h1 (LVector ly) (ValueImpl.Container_ (ContainerRef.container cr)) (TVector ts') L1 ->
    (forall r, r <> container_loc (ContainerRef.container cr) -> h1 !! r = h !! r) -> (forall r, r ∈ L1 -> r ∈ L -> r ∈ L') ->
    exists h' Ln, ContainerRef.mark_dirty cr h1 = Ok ((), h') /\ rep h' ly0 (ValueImpl.Container_ c) (tree_update t p (TVector ts')) Ln /\
    (forall r, r ∈ Ln <-> r ∈ L1 \/ r ∈ rest L L') /\
    (forall s c', cr = Global s c' -> box h' s (Status Dirty)) /\ (forall r, (forall c, cr <> Global r c) -> h' !! r = h1 !! r).
Proof.
  intros HR Hp Hly Ht Hs. destruct (path_focus _ _ _ _ Hp _ _ _ HR) as (ly' & t' & L' & Ht' & Hly' & HR' & Hsub & Hput).
  simplify_eq. exists L'. split_and!; [done..|]. intros h1 L1 ts' HR1 HF HL1. pose proof (rep_root_in _ _ _ _ _ HR') as Hin.
  assert (forall s c', cr = Global s c' -> s ∉ L /\ s <> container_loc (ContainerRef.container cr)) as Hst.
  { intros s c' ->. destruct Hs as [st Hst]. assert (s ∉ L) as Hn by (intros Hi; by apply (rep_no_status _ _ _ _ _ HR s st Hi)).
    split; [done|]. intros E. apply Hn, Hsub. by rewrite E. }
  destruct (mark_dirty_run h1 cr) as (h' & E & HF' & HD).
  { destruct cr as [|s c']; [done|]. destruct (Hst s c' eq_refl) as [_ Hne]. destruct Hs as [st Hs]. exists st. unfold box. by rewrite HF. }
  assert (forall r, r ∈ L \/ r ∈ L1 -> forall c, cr <> Global r c) as Hns.
  { intros r [Hr|Hr] c' ->; [by destruct (Hst r c' eq_refl)|]. destruct (Hst r c' eq_refl) as [_ Hne]. destruct Hs as [st Hs].
    apply (rep_no_status _ _ _ _ _ HR1 r st Hr). unfold box. by rewrite HF. }
  destruct (Hput h' (TVector ts') L1) as (Ln & HRn & HLn).
  - eapply rep_frame; [done|]. intros r Hr. rewrite HF'; [done|]. apply Hns. auto.
  - intros r [Hr Hr']%elem_of_rest. rewrite HF' by (apply Hns; auto). rewrite HF; [done|]. by intros ->.
  - intros r Hr [Hr1 Hr2]%elem_of_rest. auto.
  - exists h', Ln. done.
Qed.

Definition marked (cr : ContainerRef) (h : Store) : Prop := forall s c, cr = Global s c -> box h s (Status Dirty).

Section below.
  Context (h : Store) (ly0 : layout) (c : Container) (t : tree) (L : list loc) (p : list nat) (cr : ContainerRef) (ly : layout)
    (ts : list tree) (ty : RuntimeType.Type_).
  Hypotheses (HR : rep h ly0 (ValueImpl.Container_ c) t L) (Hp : reaches h c p (ContainerRef.container cr))
    (Hly : layout_at ly0 p = Some (LVector ly)) (Ht : tree_at t p = Some (TVector ts)) (Hs : status_ok h cr) (Hty : elem_type ty ly).

(** The container afterwards, with the vector [ts']. *)
Definition below (h' : Store) (ts' : list tree) (L' : list loc) : Prop :=
  rep h' ly0 (ValueImpl.Container_ c) (tree_update t p (TVector ts')) L' /\ marked cr h'.

Lemma push_below e te Le : rep h ly e te Le -> L ## Le ->
  exists h' L', VectorRef.push_back cr e ty h = Ok ((), h') /\ below h' (ts ++ [te]) L'.
Proof.
  intros He HD. destruct (vector_at _ _ _ _ _ _ _ _ _ HR Hp Hly Ht Hs) as (Lv & HRv & Hsub & Hend).
  destruct (vector_push _ _ _ _ _ _ _ _ _ HRv Hty He) as (h1 & L1 & E & HR1 & HL1 & HF); [set_solver|].
  destruct (Hend h1 L1 _ HR1 HF) as (h' & Ln & E' & HRn & _ & HM & _).
  { intros r Hr1 Hr2. rewrite HL1, elem_of_app in Hr1. destruct Hr1 as [|Hr1]; [done|]. by destruct (HD r). }
  exists h', Ln. split; [by rewrite E|done].
Qed.

Lemma swap_below i j : match ts !! i, ts !! j with
  | Some t1, Some t2 => exists h' L', VectorRef.swap cr (Z.of_nat i) (Z.of_nat j) ty h = Ok ((), h') /\ below h' (swapped i j t1 t2 ts) L'
  | _, _ => VectorRef.swap cr (Z.of_nat i) (Z.of_nat j) ty h = Err (vector_error INDEX_OUT_OF_BOUNDS)
  end.
Proof.
  destruct (vector_at _ _ _ _ _ _ _ _ _ HR Hp Hly Ht Hs) as (Lv & HRv & Hsub & Hend).
  destruct (ts !! i) as [t1|] eqn:Hi; [destruct (ts !! j) as [t2|] eqn:Hj|];
    [|eapply vector_swap_bounds; [done..|auto]|eapply vector_swap_bounds; [done..|auto]].
  destruct (vector_swap _ _ _ _ _ _ _ _ _ _ HRv Hty Hi Hj) as (h1 & L1 & E & HR1 & HL1 & HF).
  destruct (Hend h1 L1 _ HR1 HF) as (h' & Ln & E' & HRn & _ & HM & _).
  { intros r Hr1 _. by rewrite HL1 in Hr1. }
  exists h', Ln. split; [by rewrite E|done].
Qed.

Lemma pop_below : match ts with
  | [] => VectorRef.pop cr ty h = Err (vector_error POP_EMPTY_VEC)
  | _ => exists ts0 t0 v h' L' Lv, ts = ts0 ++ [t0] /\ VectorRef.pop cr ty h = Ok (v, h') /\ below h' ts0 L' /\ rep h' ly v t0 Lv /\ L' ## Lv
  end.
Proof.
  destruct (vector_at _ _ _ _ _ _ _ _ _ HR Hp Hly Ht Hs) as (Lv & HRv & Hsub & Hend). destruct ts as [|tx tsx] eqn:Ets.
  { by eapply vector_pop_empty. }
  rewrite <- Ets in *. destruct (exists_last (l := ts)) as (ts0 & t0 & E0); [by rewrite Ets|]. exists ts0, t0. rewrite E0 in HRv.
  destruct (vector_pop _ _ _ _ _ _ _ HRv Hty) as (v & Lx & h1 & L1 & E & HR1 & [HRx HLx] & HF).
  pose proof (rep_NoDup _ _ _ _ _ HRv) as HND. rewrite HLx in HND. apply list.NoDup_app in HND as (_ & HD & _).
  destruct (Hend h1 L1 _ HR1 HF) as (h' & Ln & E' & HRn & HLn & HM & HF').
  { intros r Hr1 _. rewrite HLx, elem_of_app. auto. }
  exists v, h', Ln, Lx. split_and!; [done|by rewrite E, (st_bind_run _ _ _ _ _ E')|done| |].
  - eapply rep_frame; [done|]. intros r Hr. rewrite HF'; [done|]. intros c0 ->. destruct Hs as [st Hst].
    apply (rep_no_status _ _ _ _ _ HRv r st); [|done]. rewrite HLx, elem_of_app. auto.
  - intros r [Hr|[_ Hr]%elem_of_rest]%HLn Hr2; [by apply (HD r)|]. apply Hr. rewrite HLx, elem_of_app. auto.
Qed.
End below.

(** * Packing and unpacking *)

Lemma reps_prims h ly mk cnt ts0 vs ts L : prim_vec ly mk cnt ts0 -> reps h (replicate (length vs) ly) vs ts L ->
  Forall2 (prim ly) vs ts.
Proof.
  intros HP. revert ts L. induction vs as [|v vs IH]; intros ts L HR; inversion HR as [|? ? ? ? ? ? ? ? HR1 HR2]; subst; constructor; eauto.
  by eapply (rep_prim_vec_elem _ _ _ _ _ _ _ _ HP).
Qed.

Lemma reps_prims_nil h ly n vs ts L : reps h (replicate n ly) vs ts L -> (forall v t L', rep h ly v t L' -> L' = []) -> L = [].
Proof.
  intros HR HN. revert n HR. induction vs as [|v vs IH] in ts, L |- *; intros [|n] HR; inversion HR as [|? ? ? ? ? ? ? ? HR1 HR2]; subst; [done|].
  rewrite (HN _ _ _ HR1). by eapply IH.
Qed.

(** The casts of the elements undo the constructor. *)
Lemma cast_elements {A} (cast : Value -> M A) (f : A -> ValueImpl) ly vs ts h :
  (forall v t, prim ly v t -> exists x, v = f x) -> (forall x h, cast (f x) h = Ok (x, h)) ->
  Forall2 (prim ly) vs ts -> exists l, st_map cast vs h = Ok (l, h) /\ vs = map f l.
Proof.
  intros Hf Hc. induction 1 as [|v t vs ts Hp _ (l & E & ->)]; [by exists []|]. destruct (Hf _ _ Hp) as [x ->].
  exists (x :: l). simpl. rewrite (st_bind_run _ _ _ _ _ (Hc x h)), (st_bind_run _ _ _ _ _ E). done.
Qed.

Lemma take_unique_run h r cnt : h !! r = Some (RcBox.mk 1 cnt) -> take_unique_ownership r h = Ok (cnt, delete r h).
Proof.
  intros E. unfold take_unique_ownership. rewrite (st_bind_run _ _ _ _ _ (get_lookup _ _ _ E)). simpl.
  by rewrite (st_bind_run _ _ _ _ _ (free_run _ _)).
Qed.

Lemma delete_insert_new (h : Store) r b : h !! r = None -> delete r (<[r := b]> h) = h.
Proof. intros E. rewrite delete_insert_eq. by apply delete_id. Qed.

(** The box that [pack] makes, and what [unpack] makes of it. *)
Definition packs (h : Store) (ly : layout) (ty : RuntimeType.Type_) (vs : list Value) (ts : list tree) (L : list loc) (n : Z) : Prop :=
  exists c h1 Lc, Vector.pack ty vs h = Ok (ValueImpl.Container_ c, h1) /\
  rep h1 (LVector ly) (ValueImpl.Container_ c) (TVector ts) Lc /\ h ⊆ h1 /\ Lc ≡ₚ container_loc c :: L /\
  Vector.unpack c ty n h1 = if n =? zlen vs then Ok (vs, h) else Err (vector_error VEC_UNPACK_PARITY_MISMATCH).

(** [unpack] after the elements are taken out. *)
Lemma unpack_end h c ty n (vs : list Value) (m : M (list Value)) h1 :
  check_elem_layout ty c h1 = Ok ((), h1) -> m h1 = Ok (vs, h) ->
  (check_elem_layout ty c;; elements ← m; if n =? zlen (elements : list Value) then mret elements
   else st_err (vector_error VEC_UNPACK_PARITY_MISMATCH)) h1
  = if n =? zlen vs then Ok (vs, h) else Err (vector_error VEC_UNPACK_PARITY_MISMATCH).
Proof. intros E1 E2. rewrite (st_bind_run _ _ _ _ _ E1), (st_bind_run _ _ _ _ _ E2). by destruct (n =? _). Qed.

Lemma pack_unpack_prim {A} h ly ty (vs : list Value) ts n (cast : Value -> M A) (f : A -> ValueImpl) (g : A -> tree)
    (cnt : list A -> Contents) (mk : loc -> Container) (as_ : Contents -> M (list A)) :
  Forall2 (prim ly) vs ts -> elem_type ty ly -> (forall v t, prim ly v t -> exists x, v = f x /\ t = g x) ->
  (forall x h, cast (f x) h = Ok (x, h)) -> (forall l h, as_ (cnt l) h = Ok (l, h)) ->
  (forall l, prim_vec ly mk (cnt l) (map g l)) -> (forall r, container_loc (mk r) = r) ->
  Vector.pack ty vs = (l ← st_map cast vs; r ← Rc.new (cnt l); mret (ValueImpl.Container_ (mk r))) ->
  (forall r, Vector.unpack (mk r) ty n = (check_elem_layout ty (mk r);;
     elements ← (l ← (take_unique_ownership r ≫= as_); mret (map f l));
     if n =? zlen (elements : list Value) then mret elements else st_err (vector_error VEC_UNPACK_PARITY_MISMATCH))) ->
  packs h ly ty vs ts [] n.
Proof.
  intros HF Hty Hfg Hcast Has Hvec Hmk Hpack Hunpack.
  destruct (cast_elements cast f ly vs ts h) as (l & El & ->); [by intros v t (x & -> & _)%Hfg; eauto|done..|].
  assert (ts = map g l) as ->.
  { clear El Hpack. revert ts HF. induction l as [|x l IH]; intros ts HF; inversion HF as [|? t ? ts' Hp HF']; subst; [done|].
    destruct (Hfg _ _ Hp) as (y & Ey & ->). simpl. rewrite <- (IH _ HF'). pose proof (Hcast x h) as E1. rewrite Ey, Hcast in E1. by injection E1 as ->. }
  destruct (allocates_new (cnt l) h) as (r & Er & (HS & HA & _) & HB).
  assert (h !! r = None) as Hr by (by apply HA, list_elem_of_singleton).
  assert (rep (<[r := RcBox.mk 1 (cnt l)]> h) (LVector ly) (ValueImpl.Container_ (mk r)) (TVector (map g l)) [r]) as HR
    by (eapply rep_prim_vec; [apply Hvec|done]).
  exists (mk r), (<[r := RcBox.mk 1 (cnt l)]> h), [r]. split_and!; [|done|done|by rewrite Hmk|].
  - rewrite Hpack. by rewrite (st_bind_run _ _ _ _ _ El), (st_bind_run _ _ _ _ _ Er).
  - rewrite Hunpack. apply unpack_end; [by eapply check_elem_layout_run|].
    erewrite st_bind_run; [done|]. erewrite st_bind_run by (apply take_unique_run, lookup_insert_eq). by rewrite delete_insert_new.
Qed.

Lemma pack_unpack_boxed h ly ty vs ts L n : reps h (replicate (length vs) ly) vs ts L -> elem_type ty ly -> boxed ly ->
  packs h ly ty vs ts L n.
Proof.
  intros HR Hty Hb. destruct (allocates_new (Values vs) h) as (r & Er & (HS & HA & _) & HB).
  assert (h !! r = None) as Hr by (by apply HA, list_elem_of_singleton).
  assert (r ∉ L) as HrL. { intros Hin. destruct (reps_dom _ _ _ _ _ HR r Hin). congruence. }
  set (h1 := <[r := RcBox.mk 1 (Values vs)]> h) in *.
  assert (rep h1 (LVector ly) (ValueImpl.Container_ (Vec r)) (TVector ts) (r :: L)) as HRv
    by (apply (rep_vec _ _ _ vs); [done|done|by eapply reps_weaken|done]).
  exists (Vec r), h1, (r :: L). split_and!; [|done|done|done|].
  - destruct ty, ly; try done; unfold Vector.pack; by rewrite (st_bind_run _ _ _ _ _ Er).
  - apply unpack_end; [by eapply check_elem_layout_run|].
    erewrite st_bind_run by (apply take_unique_run, lookup_insert_eq). simpl. unfold h1. by rewrite delete_insert_new.
Qed.

(** The vectors with elements of one of the primitive types. *)
Ltac prims nil lem :=
  match goal with HL : forall _ _ _, prim_vec _ _ _ _ -> _, HR : reps _ _ _ _ _ |- _ =>
    rewrite (HL _ _ _ nil); pose proof (reps_prims _ _ _ _ _ _ _ _ nil HR); apply lem; eauto using prim_vec; inversion 1; subst; eauto
  end.

Lemma pack_unpack h ly ty vs ts L n : reps h (replicate (length vs) ly) vs ts L -> elem_type ty ly -> packs h ly ty vs ts L n.
Proof.
  intros HR Hty. assert (forall mk cnt ts0, prim_vec ly mk cnt ts0 -> L = []) as HL.
  { intros mk cnt ts0 HP. apply (reps_prims_nil _ _ _ _ _ _ HR). intros v t L' HRv. by eapply (rep_prim_vec_elem _ _ _ _ _ _ _ _ HP). }
  destruct ly; try (by apply pack_unpack_boxed); destruct ty; try done.
  - prims (prim_vec_bool []) (pack_unpack_prim h LBool RuntimeType.Bool vs ts n cast_value_bool ValueImpl.Bool TBool Bools VecBool as_bools).
  - prims (prim_vec_u8 []) (pack_unpack_prim h LU8 RuntimeType.U8 vs ts n cast_value_u8 ValueImpl.U8 TU8 U8s VecU8 as_u8s).
  - prims (prim_vec_u64 []) (pack_unpack_prim h LU64 RuntimeType.U64 vs ts n cast_value_u64 ValueImpl.U64 TU64 U64s VecU64 as_u64s).
  - prims (prim_vec_u128 []) (pack_unpack_prim h LU128 RuntimeType.U128 vs ts n cast_value_u128 ValueImpl.U128 TU128 U128s VecU128 as_u128s).
  - prims (prim_vec_address []) (pack_unpack_prim h LAddress RuntimeType.Address vs ts n cast_value_address ValueImpl.Address TAddress Addresses VecAddress as_addresses).
Qed.
