(* ===== verification/VmValueTheorems.v ===== *)
(** Theorems on the values of the virtual machine: copies, equality, references, locals,
    vectors, global storage, integers and the substitution of types; first the lemmas on the
    slots of global storage and the locals of a frame. *)
From stdpp Require Import gmap.
From S2P Require Import Prelude StatusCode FileFormat VmValues VmOwnership VmReferences VmVectors.
#[local] Opaque Rc.new Rc.get Rc.put Rc.free Rc.borrow Rc.replace Rc.clone.
#[local] Hint Resolve replace_box : run.

(** * Slots of global storage *)

(** The slot [g] held [init] when the transaction started, and holds [cur] now. *)
Definition slot (lys : list layout) (init : option tree) (g : GlobalValue) (h : Store) (cur : option tree) : Prop :=
  match g with
  | GlobalValue.None => init = None /\ cur = None
  | GlobalValue.Deleted => is_Some init /\ cur = None
  | GlobalValue.Fresh f => init = None /\ exists t L, cur = Some t /\ rep h (LStruct lys) (ValueImpl.Container_ (Struct f)) t L
  | GlobalValue.Cached f s =>
    exists t0 t L st, init = Some t0 /\ cur = Some t /\ rep h (LStruct lys) (ValueImpl.Container_ (Struct f)) t L /\
      box h s (Status st) /\ (st = Clean -> t = t0)
  end.

(** The reference was borrowed from the slot. *)
Definition from_slot (g : GlobalValue) (h : Store) (p : list nat) (r : ReferenceImpl) : Prop :=
  match g with
  | GlobalValue.Fresh f => ref_at h (Struct f) p r /\ exists c, ref_of r = Local c
  | GlobalValue.Cached f s => ref_at h (Struct f) p r /\ exists c, ref_of r = Global s c
  | _ => False
  end.

Definition slot_fields (g : GlobalValue) : option loc :=
  match g with GlobalValue.Fresh f | GlobalValue.Cached f _ => Some f | _ => None end.

(** No box that is there changes its contents. *)
Definition keeps (h h' : Store) : Prop := forall r b, h !! r = Some b -> RcBox.contents <$> h' !! r = Some b.(RcBox.contents).

Lemma keeps_same h h' L : keeps h h' -> (forall r, r ∈ L -> is_Some (h !! r)) -> same_contents h h' L.
Proof. intros HK HD r Hr. destruct (HD r Hr) as [b Hb]. rewrite Hb. by apply HK. Qed.
Lemma keeps_box h h' r c : keeps h h' -> box h r c -> box h' r c.
Proof. intros HK [n E]%box_lookup. apply (HK _ _ E). Qed.
Lemma keeps_rep h h' ly v t L : keeps h h' -> rep h ly v t L -> rep h' ly v t L.
Proof. intros HK HR. eapply rep_frame; [done|]. eapply keeps_same; eauto using rep_dom. Qed.
Lemma only_counts_keeps h h' : only_counts h h' -> keeps h h'.
Proof. intros HC r b Hb. by rewrite HC, Hb. Qed.
Lemma subseteq_keeps (h h' : Store) : h ⊆ h' -> keeps h h'.
Proof. intros HS r b Hb. by rewrite (lookup_weaken _ _ _ _ Hb HS). Qed.

Lemma slot_keeps lys init g h h' cur : keeps h h' -> slot lys init g h cur -> slot lys init g h' cur.
Proof.
  intros HK. destruct g as [|f|f s|]; simpl; [done| | |done].
  - intros (-> & t & L & -> & HR). eauto 10 using keeps_rep.
  - intros (t0 & t & L & st & -> & -> & HR & HB & HE). exists t0, t, L, st. eauto 10 using keeps_rep, keeps_box.
Qed.

(** Dropping the pointer to a status. *)
Lemma drop_status h s st : box h s (Status st) ->
  exists h', drop_locs [s] h = Ok ((), h') /\ forall r, r <> s -> h' !! r = h !! r.
Proof.
  intros HB. destruct (drop_loc_box (size h) h s (Status st) [] HB) as (h' & E & HF & _); [by intros ?%elem_of_nil| |].
  { intros h1 ->. exists (delete s h). split; [done|apply dropped_nil]. }
  exists h'. split; [done|]. intros r Hr. apply HF. by rewrite list_elem_of_singleton.
Qed.

Lemma status_apart h s st ly v t L : box h s (Status st) -> rep h ly v t L -> forall h', (forall r, r <> s -> h' !! r = h !! r) ->
  rep h' ly v t L.
Proof.
  intros HB HR h' HF. eapply rep_frame; [done|]. intros r Hr. rewrite HF; [done|]. intros ->. by apply (rep_no_status _ _ _ _ _ HR s st Hr).
Qed.

Lemma slot_cached lys v t L g h h' : rep h (LStruct lys) v t L -> GlobalValue.cached v h = Ok (g, h') -> slot lys (Some t) g h' (Some t).
Proof.
  intros HR E. inversion HR as [? ? ? HP| | |? f vs ts L0 HB HRs Hr|]; subst; [by inversion HP|].
  destruct (allocates_new (Status Clean) h) as (s & Es & (HS & _) & HBs). unfold GlobalValue.cached, GlobalValue.cached_impl in E.
  rewrite (st_bind_run _ _ _ _ _ Es) in E. injection E as <- <-.
  exists (TStruct ts), (TStruct ts), (f :: L0), Clean. split_and!; [done..|by eapply rep_weaken|done|done].
Qed.

Lemma slot_move_to lys init g h v t L g' h' : slot lys init g h None -> rep h (LStruct lys) v t L ->
  GlobalValue.move_to g v h = Ok (g', h') -> slot lys init g' h' (Some t).
Proof.
  intros Hslot HR E. inversion HR as [? ? ? HP| | |? f vs ts L0 HB HRs Hr|]; subst; [by inversion HP|].
  destruct g as [|f0|f0 s0|]; simpl in *; [| by destruct Hslot as (_ & ? & ? & ? & _)|by destruct Hslot as (? & ? & ? & ? & _ & ? & _)|].
  - destruct Hslot as [-> _]. injection E as <- <-. simpl. eauto 10.
  - destruct Hslot as [[t0 ->] _]. destruct (allocates_new (Status Dirty) h) as (s & Es & (HS & _) & HBs).
    rewrite (st_bind_run _ _ _ _ _ Es) in E. injection E as <- <-.
    exists t0, (TStruct ts), (f :: L0), Dirty. split_and!; [done..|by eapply rep_weaken|done|done].
Qed.

(** Taking the fields out of a slot needs the only pointer to them. *)
Lemma move_from_end (g' : GlobalValue) f h r : (n ← Rc.strong_count f;
    if negb (n =? 1) then fail UNKNOWN_INVARIANT_VIOLATION_ERROR else mret (g', ValueImpl.Container_ (Struct f))) h = Ok r ->
  r = ((g', ValueImpl.Container_ (Struct f)), h).
Proof.
  destruct r as [[g v] h1]. intros (n & h2 & E1 & E2)%st_bind_ok. unfold Rc.strong_count in E1.
  apply st_bind_ok in E1 as (b & h3 & E3 & [= <- <-]).
  assert (h3 = h) as ->.
  { destruct (h !! f) as [b'|] eqn:Ef; [rewrite (get_lookup _ _ _ Ef) in E3; by injection E3|]. by rewrite (get_none _ _ Ef) in E3. }
  destruct (negb _); [done|]. by injection E2 as <- <- <-.
Qed.

Lemma slot_move_from lys init g h cur g' v h' : slot lys init g h cur -> GlobalValue.move_from g h = Ok ((g', v), h') ->
  slot lys init g' h' None /\ exists t L, cur = Some t /\ rep h' (LStruct lys) v t L.
Proof.
  intros Hslot E. unfold GlobalValue.move_from in E. destruct g as [|f|f s|]; simpl in Hslot; [done| | |done].
  - destruct Hslot as (-> & t & L & -> & HR). rewrite (st_bind_run _ _ h (GlobalValue.None, f) h) in E by done.
    apply move_from_end in E as [= -> -> ->]. split; [done|]. eauto.
  - destruct Hslot as (t0 & t & L & st & -> & -> & HR & HB & _). destruct (drop_status _ _ _ HB) as (h1 & E1 & HF).
    rewrite (st_bind_run _ _ h (GlobalValue.Deleted, f) h1) in E by (by rewrite (st_bind_run _ _ _ _ _ E1)).
    apply move_from_end in E as [= -> -> ->]. split; [done|]. exists t, L. split; [done|]. by eapply status_apart.
Qed.

(** [borrow_global]: a reference to the whole resource. *)
Lemma slot_borrow lys init g h cur : slot lys init g h cur -> (forall r, is_Some (h !! r) -> live h r) ->
  match cur with
  | None => GlobalValue.borrow_global g h = Err (vm_error MISSING_DATA)
  | Some _ => exists v r h', GlobalValue.borrow_global g h = Ok (v, h') /\ cast_reference v h' = Ok (r, h') /\
      only_counts h h' /\ from_slot g h' [] r /\ held h' (ref_of r)
  end.
Proof.
  intros Hslot Hlive. destruct g as [|f|f s|]; simpl in Hslot.
  - by destruct Hslot as [_ ->].
  - destruct Hslot as (-> & t & L & -> & HR). pose proof (rep_dom _ _ _ _ _ HR f (rep_root_in _ _ _ _ _ HR)) as Hf.
    destruct (clone_live h f (Hlive _ Hf)) as (h' & E & HC & HS & _).
    eexists _, _, h'. split_and!; [cbn [GlobalValue.borrow_global]; by rewrite (st_bind_run _ _ _ _ _ E)|done|done| |done].
    split; [repeat constructor|]. by eexists.
  - destruct Hslot as (t0 & t & L & st & -> & -> & HR & HB & _).
    pose proof (rep_dom _ _ _ _ _ HR f (rep_root_in _ _ _ _ _ HR)) as Hf.
    destruct (clone_live h f (Hlive _ Hf)) as (h1 & E1 & HC1 & HS1 & HM1).
    destruct (clone_live h1 s) as (h2 & E2 & HC2 & HS2 & HM2); [apply HM1, Hlive; by eapply box_is_Some|].
    eexists _, _, h2. split_and!.
    + cbn [GlobalValue.borrow_global]. by rewrite (st_bind_run _ _ _ _ _ E1), (st_bind_run _ _ _ _ _ E2).
    + done.
    + by eapply only_counts_trans.
    + split; [repeat constructor|]. by eexists.
    + split; [apply HM2; [by apply HM1, Hlive|done]|]. simpl. split_and!; [done| |exists st; unfold box; by rewrite HC2, HC1].
      intros ->. by apply (rep_no_status _ _ _ _ _ HR f st (rep_root_in _ _ _ _ _ HR)).
  - by destruct Hslot as [_ ->].
Qed.

(** A write through a reference into the slot. *)
Lemma slot_write lys init g h t p r lyx x tx L Lx f : slot lys init g h (Some t) -> slot_fields g = Some f ->
  rep h (LStruct lys) (ValueImpl.Container_ (Struct f)) t L -> from_slot g h p r -> held h (ref_of r) ->
  layout_at (LStruct lys) p = Some lyx -> rep h lyx x tx Lx -> L ## Lx -> unique h Lx ->
  exists h', ReferenceImpl_write_ref r x h = Ok ((), h') /\ slot lys init g h' (Some (tree_update t p tx)).
Proof.
  intros Hslot Hf HR Hr Hh Hly HRx HD HU.
  assert (ref_at h (Struct f) p r) as Hat by (destruct g; simplify_eq/=; by destruct Hr).
  destruct (write_ref_at _ _ _ _ _ _ _ _ _ _ _ HR Hat Hh Hly HRx HD HU) as (h' & L' & E & HR' & _ & HDirty & _).
  exists h'. split; [done|]. destruct g as [|f0|f0 s|]; simplify_eq/=.
  - destruct Hslot as (-> & _). eauto.
  - destruct Hr as (_ & c & Ec). destruct Hslot as (t0 & _ & _ & st & -> & _). exists t0, (tree_update t p tx), L', Dirty.
    split_and!; [done..|by eapply HDirty|done].
Qed.

(** * Effects *)

Definition effect_of (lys : list layout) (init cur : option tree) (h : Store) (e : GlobalValueEffect Value) : Prop :=
  match e with
  | NoEffect => cur = init
  | DeletedEffect => is_Some init /\ cur = None
  | Changed v => exists t L, cur = Some t /\ rep h (LStruct lys) v t L
  end.

(** Dropping the fields and the status. *)
Lemma drop_slot h f s ly t L st : rep h ly (ValueImpl.Container_ (Struct f)) t L -> box h s (Status st) ->
  exists h', drop_locs [f; s] h = Ok ((), h').
Proof.
  intros HR HB. unfold drop_locs. pose proof (rep_size _ _ _ _ _ HR) as Hs. generalize (size h) as fuel, Hs. intros fuel Hf.
  destruct (proj1 (drop_reps_both h) _ _ _ _ HR (S fuel) h) as (h1 & E1 & HF & _); [done|lia|].
  destruct (drop_loc_box fuel h1 s (Status st) []) as (h2 & E2 & _).
  { unfold box. rewrite HF; [done|]. intros Hin. by apply (rep_no_status _ _ _ _ _ HR s st Hin). }
  { by intros ?%elem_of_nil. }
  { intros h2 ->. eexists. split; [done|apply dropped_nil]. }
  exists h2. refine (eq_trans (drop_for_app [f] [s] (drop_loc (S fuel)) h) _). by rewrite (st_bind_run _ _ _ _ _ E1).
Qed.

Lemma slot_effect lys init g h cur : slot lys init g h cur ->
  exists e h' b, GlobalValue.into_effect g h = Ok (e, h') /\ effect_of lys init cur h' e /\
  GlobalValue.is_mutated g h = Ok (b, h) /\ (b = false <-> e = NoEffect).
Proof.
  destruct g as [|f|f s|]; simpl.
  - intros [-> ->]. by exists NoEffect, h, false.
  - intros (-> & t & L & -> & HR). eexists (Changed _), h, true. split_and!; [done|by eexists _, _|done|done].
  - intros (t0 & t & L & st & -> & -> & HR & HB & HE).
    assert (forall (A : Type) (k : GlobalDataStatus -> M A), (borrow_status s ≫= k) h = k st h) as Hb by (intros; by step).
    setoid_rewrite Hb. destruct st.
    + destruct (drop_slot _ _ _ _ _ _ _ HR HB) as (h' & E). exists NoEffect, h', false.
      split_and!; [by rewrite (st_bind_run _ _ _ _ _ E)|by rewrite HE|done|done].
    + destruct (drop_status _ _ _ HB) as (h1 & E1 & HF). eexists (Changed _), h1, true.
      split_and!; [by rewrite (st_bind_run _ _ _ _ _ E1)|exists t, L; split; [done|by eapply status_apart]|done|done].
  - intros [Hi ->]. exists DeletedEffect, h, true. by split_and!.
Qed.

(** * Transactions *)

(** What a transaction can do with a slot: [cur] is the tree it holds.  The steps that do not
    write it, such as reads and borrows, keep the contents of every box. *)
Inductive transaction (lys : list layout) (init : option tree) : GlobalValue -> Store -> option tree -> Prop :=
| tx_none h : init = None -> transaction lys init GlobalValue.none h None
| tx_cached h v t L g h' :
    rep h (LStruct lys) v t L -> init = Some t -> GlobalValue.cached v h = Ok (g, h') -> transaction lys init g h' (Some t)
| tx_move_from g h cur g' v h' :
    transaction lys init g h cur -> GlobalValue.move_from g h = Ok ((g', v), h') -> transaction lys init g' h' None
| tx_move_to g h v t L g' h' :
    transaction lys init g h None -> rep h (LStruct lys) v t L -> GlobalValue.move_to g v h = Ok (g', h') ->
    transaction lys init g' h' (Some t)
| tx_borrow g h cur v h' :
    transaction lys init g h cur -> (forall r, is_Some (h !! r) -> live h r) -> GlobalValue.borrow_global g h = Ok (v, h') ->
    transaction lys init g h' cur
| tx_write g h t p r lyx x tx L Lx f h' :
    transaction lys init g h (Some t) -> slot_fields g = Some f -> rep h (LStruct lys) (ValueImpl.Container_ (Struct f)) t L ->
    from_slot g h p r -> held h (ref_of r) -> layout_at (LStruct lys) p = Some lyx -> rep h lyx x tx Lx -> L ## Lx -> unique h Lx ->
    ReferenceImpl_write_ref r x h = Ok ((), h') -> transaction lys init g h' (Some (tree_update t p tx))
| tx_other g h cur h' : transaction lys init g h cur -> keeps h h' -> transaction lys init g h' cur.

Lemma transaction_slot lys init g h cur : transaction lys init g h cur -> slot lys init g h cur.
Proof.
  induction 1 as [h ->|h v t L g h' HR -> E|g h cur g' v h' _ IH E|g h v t L g' h' _ IH HR E|g h cur v h' _ IH HL E
    |g h t p r lyx x tx L Lx f h' _ IH Hf HR Hr Hh Hly HRx HD HU E|g h cur h' _ IH HK].
  - done.
  - by eapply slot_cached.
  - by eapply slot_move_from.
  - by eapply slot_move_to.
  - pose proof (slot_borrow _ _ _ _ _ IH HL) as HB. destruct cur as [t|].
    + destruct HB as (v' & r & h2 & E2 & _ & HC & _). rewrite E in E2. injection E2 as <- <-.
      eapply slot_keeps; [by apply only_counts_keeps|done].
    + by rewrite E in HB.
  - destruct (slot_write _ _ _ _ _ _ _ _ _ _ _ _ _ IH Hf HR Hr Hh Hly HRx HD HU) as (h2 & E2 & Hs).
    rewrite E in E2. by injection E2 as <-.
  - by eapply slot_keeps.
Qed.

(** * Locals *)

Lemma read_prim h cr i ly v t : prim_elem h (ContainerRef.container cr) i ly v t -> held h cr ->
  exists h', ReferenceImpl_read_ref (ReferenceIndexed (IndexedRef.mk (Z.of_nat i) cr)) h = Ok (v, h') /\ only_counts h h'.
Proof.
  intros HE Hh. destruct (drop_ref_held _ _ Hh) as (h' & E & HC & _). exists h'. split; [|done].
  cbn [ReferenceImpl_read_ref]. by rewrite (elem_read _ _ _ _ _ _ HE), (st_bind_run _ _ _ _ _ E).
Qed.

(** [borrow_loc] of an initialized local: reading the reference copies the local, writing it
    changes that local and no other. *)
Lemma borrow_loc_at h r vs i ly v t L : box h r (Values vs) -> vs !! i = Some v -> rep h ly v t L -> r ∉ L ->
  live h r -> (forall r', r' ∈ L -> live h r') ->
  exists vr ref h1, Locals.borrow_loc r (Z.of_nat i) h = Ok (vr, h1) /\ cast_reference vr h1 = Ok (ref, h1) /\ only_counts h h1 /\
  (exists v' h2 L', ReferenceImpl_read_ref ref h1 = Ok (v', h2) /\ rep h2 ly v' t L' /\ box h2 r (Values vs)) /\
  (forall x tx Lx, rep h1 ly x tx Lx -> r ∉ Lx -> L ## Lx -> unique h1 Lx ->
    exists h2 x' L', ReferenceImpl_write_ref ref x h1 = Ok ((), h2) /\ rep h2 ly x' tx L' /\ box h2 r (Values (<[i := x']> vs))).
Proof.
  intros HB Hi HR Hr Hlr HL. unfold Locals.borrow_loc. pose proof (lookup_lt_Some _ _ _ Hi) as Hlt.
  assert (forall (k : list ValueImpl -> M Value), (borrow_values r ≫= k) h = k vs h) as -> by (intros; by step).
  assert ((zlen vs <=? Z.of_nat i) = false) as -> by (apply Z.leb_gt; lia).
  rewrite (st_bind_run _ _ _ _ _ (at_index_run _ _ _ h Hi)).
  assert ((exists c, v = ValueImpl.Container_ c) \/ prim ly v t /\ L = []) as [[c ->]|[HP ->]].
  { destruct HR; eauto. }
  - pose proof (rep_root_in _ _ _ _ _ HR) as Hin. destruct (copy_by_ref_live h c (HL _ Hin)) as (h1 & E & HC & HS & _).
    pose proof (rep_counts _ _ _ _ _ _ HC HR) as HR1. assert (held h1 (Local c)) as Hh by (by split).
    assert (box h1 r (Values vs)) as HB1 by (eapply box_frame; [done|apply HC]).
    assert (ref_at h1 c [] (ReferenceContainer (Local c))) as Hat by (repeat constructor).
    exists (ValueImpl.ContainerRef_ (Local c)), (ReferenceContainer (Local c)), h1.
    split_and!; [by rewrite (st_bind_run _ _ _ _ _ E)|done|done| |].
    + destruct (read_ref_at _ _ _ _ _ _ _ HR1 Hat Hh) as (t' & ly' & v' & h2 & L' & [= <-] & [= <-] & E2 & HR2 & _ & _ & HK).
      exists v', h2, L'. split_and!; [done..|]. eapply box_frame; [done|]. apply HK. by eapply box_is_Some.
    + intros x tx Lx HRx HrLx HD HU.
      destruct (write_ref_at _ _ _ _ _ _ _ _ _ _ _ HR1 Hat Hh eq_refl HRx HD HU) as (h2 & L' & E2 & HR2 & _ & _ & HF).
      exists h2, (ValueImpl.Container_ c), L'. split_and!; [done..|]. rewrite list_insert_id by done. unfold box.
      rewrite HF; [done..|]. simpl. rewrite list_elem_of_singleton. by intros ->.
  - destruct (clone_live h r Hlr) as (h1 & E & HC & HS & _). assert (box h1 r (Values vs)) as HB1 by (eapply box_frame; [done|apply HC]).
    assert (held h1 (Local (Locals r))) as Hh by (by split).
    assert (prim_elem h1 (Locals r) i ly v t) as HE by (by eapply prim_elem_values).
    exists (ValueImpl.IndexedRef_ (IndexedRef.mk (Z.of_nat i) (Local (Locals r)))),
      (ReferenceIndexed (IndexedRef.mk (Z.of_nat i) (Local (Locals r)))), h1.
    split_and!; [by destruct HP; rewrite (st_bind_run _ _ _ _ _ E)|done|done| |].
    + destruct (read_prim h1 (Local (Locals r)) i ly v t HE Hh) as (h2 & E2 & HC2). exists v, h2, [].
      split_and!; [done|by constructor|]. eapply box_frame; [done|apply HC2].
    + intros x tx Lx HRx _ _ _. destruct (prim_elem_prim _ _ _ _ _ _ _ _ _ _ HE HRx) as [Hx ->].
      destruct (proj1 Hh) as (n & cnt & En & Hn). simpl in En.
      assert (cnt = Values vs) as -> by (unfold box in HB1; rewrite En in HB1; simpl in HB1; congruence).
      destruct (release_run (<[r := RcBox.mk n (Values (<[i := x]> vs))]> h1) (Local (Locals r))) as (h2 & E2 & HC2 & _).
      { by apply (held_insert _ (Local (Locals r)) n (Values vs)). }
      exists h2, x, []. split_and!; [|by constructor|].
      * cbn [ReferenceImpl_write_ref]. by rewrite (elem_write _ (Local (Locals r)) _ _ _ _ _ _ _ _ HE Hx En).
      * unfold box. rewrite HC2 by done. by rewrite lookup_insert_eq.
Qed.

(** * Integers *)

Module Integers.
Import IntegerValue.

Definition width (a : IntegerValue) : Z := match a with U8 _ => 8 | U64 _ => 64 | U128 _ => 128 end.
Definition value (a : IntegerValue) : Z := match a with U8 x | U64 x | U128 x => x end.
Definition with_value (a : IntegerValue) (x : Z) : IntegerValue := match a with U8 _ => U8 x | U64 _ => U64 x | U128 _ => U128 x end.
Definition wf (a : IntegerValue) : Prop := 0 <= value a < 2 ^ width a.

Inductive op : Set := Add | Sub | Mul | Div | Rem | BitOr | BitAnd | BitXor.

Definition run (o : op) : IntegerValue -> IntegerValue -> R IntegerValue :=
  match o with
  | Add => add_checked | Sub => sub_checked | Mul => mul_checked | Div => div_checked | Rem => rem_checked
  | BitOr => bit_or | BitAnd => bit_and | BitXor => bit_xor
  end.

(** The operation on integers without bounds; a division by zero has no result. *)
Definition exact (o : op) (x y : Z) : option Z :=
  match o with
  | Add => Some (x + y) | Sub => Some (x - y) | Mul => Some (x * y)
  | Div => if y =? 0 then None else Some (x / y)
  | Rem => if y =? 0 then None else Some (x mod y)
  | BitOr => Some (Z.lor x y) | BitAnd => Some (Z.land x y) | BitXor => Some (Z.lxor x y)
  end.

(** The result of a type, or why there is none. *)
Definition fits (a : IntegerValue) (r : option Z) : R IntegerValue :=
  match r with
  | Some z => if (0 <=? z) && (z <? 2 ^ width a) then Ok (with_value a z) else Err (vm_error ARITHMETIC_ERROR)
  | None => Err (vm_error ARITHMETIC_ERROR)
  end.

Lemma bit_bound w x : 0 <= w -> 0 <= x -> (forall i, w <= i -> Z.testbit x i = false) -> x < 2 ^ w.
Proof.
  intros Hw Hx Hb. destruct (Z.eq_dec x 0) as [->|Hne]; [by apply Z.pow_pos_nonneg|].
  apply Z.log2_lt_pow2; [lia|]. destruct (Z.lt_ge_cases (Z.log2 x) w); [done|].
  pose proof (Z.bit_log2 x ltac:(lia)) as E. by rewrite Hb in E.
Qed.

Lemma bits_above w x i : 0 <= x < 2 ^ w -> 0 <= w <= i -> Z.testbit x i = false.
Proof.
  intros [H0 H1] Hi. destruct (Z.eq_dec x 0) as [->|Hne]; [apply Z.testbit_0_l|].
  apply Z.bits_above_log2; [done|]. apply Z.log2_lt_pow2; [lia|]. eapply Z.lt_le_trans; [done|]. apply Z.pow_le_mono_r; lia.
Qed.

(** The operations without a check stay in range. *)
Lemma exact_in_range o x y w z : 0 <= w -> 0 <= x < 2 ^ w -> 0 <= y < 2 ^ w ->
  match o with Add | Sub | Mul => False | _ => True end -> exact o x y = Some z -> 0 <= z < 2 ^ w.
Proof.
  intros Hw Hx Hy Ho. destruct o; try done; simpl.
  - destruct (Z.eqb_spec y 0); [done|]. intros [= <-]. split; [apply Z.div_pos; lia|].
    apply Z.div_lt_upper_bound; nia.
  - destruct (Z.eqb_spec y 0); [done|]. intros [= <-]. pose proof (Z.mod_pos_bound x y). lia.
  - intros [= <-]. assert (0 <= Z.lor x y) by (apply Z.lor_nonneg; lia). split; [done|]. apply bit_bound; [done..|].
    intros i Hi. by rewrite Z.lor_spec, !(bits_above w) by lia.
  - intros [= <-]. assert (0 <= Z.land x y) by (apply Z.land_nonneg; lia). split; [done|]. apply bit_bound; [done..|].
    intros i Hi. by rewrite Z.land_spec, !(bits_above w) by lia.
  - intros [= <-]. assert (0 <= Z.lxor x y) by (apply Z.lxor_nonneg; lia). split; [done|]. apply bit_bound; [done..|].
    intros i Hi. by rewrite Z.lxor_spec, !(bits_above w) by lia.
Qed.

Lemma checked_fits a max z : max = 2 ^ width a - 1 -> ok_or_arithmetic (with_value a <$> checked max z) = fits a (Some z).
Proof.
  intros ->. unfold checked, in_range, fits. assert ((z <=? 2 ^ width a - 1) = (z <? 2 ^ width a)) as -> by lia.
  by destruct ((0 <=? z) && (z <? 2 ^ width a)).
Qed.

Lemma unchecked_fits a o x y z : wf a -> 0 <= x < 2 ^ width a -> 0 <= y < 2 ^ width a ->
  match o with Add | Sub | Mul => False | _ => True end -> exact o x y = Some z -> fits a (exact o x y) = Ok (with_value a z).
Proof.
  intros _ Hx Hy Ho E. assert (0 <= z < 2 ^ width a) as [H0 H1] by (apply (exact_in_range o x y); [by destruct a|done..]).
  rewrite E. simpl. apply Z.leb_le in H0. apply Z.ltb_lt in H1. by rewrite H0, H1.
Qed.

(** An operation on two integers. *)
Definition apply_op (o : op) (a b : IntegerValue) : R IntegerValue :=
  if width a =? width b then fits a (exact o (value a) (value b)) else Err (vm_error INTERNAL_TYPE_ERROR).

Lemma run_exact o a b : wf a -> wf b -> run o a b = apply_op o a b.
Proof.
  intros Ha Hb. unfold apply_op. destruct a as [x|x|x], b as [y|y|y]; try (by destruct o); unfold wf in *; simpl width in *; simpl value in *.
  all: cbn [Z.eqb Pos.eqb]; destruct o.
  all: try exact (checked_fits (U8 x) u8_max _ eq_refl); try exact (checked_fits (U64 x) u64_max _ eq_refl);
    try exact (checked_fits (U128 x) u128_max _ eq_refl).
  all: match goal with |- run ?o ?a _ = fits ?a (exact ?o ?x ?y) =>
    destruct (exact o x y) as [z|] eqn:E; [pose proof (unchecked_fits a o x y z Ha Ha Hb I E) as EF; rewrite E in EF; rewrite EF|] end.
  all: simpl in E; cbn [run div_checked rem_checked bit_or bit_and bit_xor]; unfold checked_div, checked_rem;
    try (destruct (y =? 0)); simplify_eq/=; done.
Qed.

Lemma shifts_exact a n : wf a -> 0 <= n ->
  shl_checked a n = (if n <? width a then Ok (with_value a ((value a * 2 ^ n) mod 2 ^ width a)) else Err (vm_error ARITHMETIC_ERROR)) /\
  shr_checked a n = (if n <? width a then Ok (with_value a (value a / 2 ^ n)) else Err (vm_error ARITHMETIC_ERROR)) /\
  (n < width a -> 0 <= value a / 2 ^ n < 2 ^ width a).
Proof.
  intros [H0 H1] Hn. assert (0 <= value a / 2 ^ n < 2 ^ width a).
  { split; [apply Z.div_pos; lia|]. apply Z.div_lt_upper_bound; [lia|]. pose proof (Z.pow_pos_nonneg 2 n ltac:(lia) Hn). nia. }
  split_and!; [| |done]; destruct a as [x|x|x]; simpl; rewrite Z.ltb_antisym; destruct (_ <=? n); simpl; [done| |done| |done| |done| |done| |done|];
    rewrite ?Z.shiftl_mul_pow2, ?Z.shiftr_div_pow2 by done; done.
Qed.

(** A cast keeps the value, if the target type has it. *)
Definition cast_result (a : IntegerValue) (w : Z) : R Z := if value a <? 2 ^ w then Ok (value a) else Err (vm_error ARITHMETIC_ERROR).

Lemma casts_exact a : wf a -> cast_u8 a = cast_result a 8 /\ cast_u64 a = cast_result a 64 /\ cast_u128 a = cast_result a 128.
Proof.
  intros [H0 H1]. unfold cast_result. split_and!; destruct a as [x|x|x]; simpl in *; unfold u8_max, u64_max;
    match goal with |- _ = if ?b then _ else _ => destruct b eqn:E end; try done; try (exfalso; lia);
    match goal with |- (if ?b then _ else _) = _ => destruct b eqn:E' end; try done; try (exfalso; lia); by rewrite Z.mod_small by lia.
Qed.
End Integers.

(** * Types *)

Module Types.
Import RuntimeType.

Section induction.
  Variable P : Type_ -> Prop.
  Hypotheses (HBool : P Bool) (HU8 : P U8) (HU64 : P U64) (HU128 : P U128) (HAddress : P Address) (HSigner : P Signer)
    (HVector : forall ty, P ty -> P (Vector ty)) (HStruct : forall idx, P (Struct idx))
    (HInst : forall idx l, Forall P l -> P (StructInstantiation idx l))
    (HRef : forall ty, P ty -> P (Reference ty)) (HMut : forall ty, P ty -> P (MutableReference ty))
    (HParam : forall idx, P (TyParam idx)).

Fixpoint type_ind (ty : Type_) : P ty :=
  match ty with
  | Bool => HBool | U8 => HU8 | U64 => HU64 | U128 => HU128 | Address => HAddress | Signer => HSigner
  | Vector ty => HVector ty (type_ind ty)
  | Struct idx => HStruct idx
  | StructInstantiation idx l =>
    HInst idx l ((fix go l : Forall P l := match l with [] => Forall_nil_2 P | ty :: l => Forall_cons_2 P ty l (type_ind ty) (go l) end) l)
  | Reference ty => HRef ty (type_ind ty)
  | MutableReference ty => HMut ty (type_ind ty)
  | TyParam idx => HParam idx
  end.
End induction.

(** The number of levels of a type. *)
Fixpoint depth (ty : Type_) : Z :=
  match ty with
  | Vector ty | Reference ty | MutableReference ty => 1 + depth ty
  | StructInstantiation _ l => 1 + fold_right (fun ty m => Z.max (depth ty) m) 0 l
  | _ => 1
  end.

(** The type with its parameters replaced, if each has a replacement. *)
Fixpoint replace (f : Z -> option Type_) (ty : Type_) : option Type_ :=
  match ty with
  | TyParam idx => f idx
  | Vector ty => Vector <$> replace f ty
  | Reference ty => Reference <$> replace f ty
  | MutableReference ty => MutableReference <$> replace f ty
  | StructInstantiation idx l =>
    StructInstantiation idx <$> (fix go (l : list Type_) : option (list Type_) :=
      match l with
      | [] => Some []
      | ty :: l => ty ← replace f ty; l ← go l; Some (ty :: l)
      end) l
  | _ => Some ty
  end.

Definition subst_error (r : R Type_) : Prop :=
  r = Err (vm_error VM_MAX_TYPE_DEPTH_REACHED) \/ r = Err (vm_error UNKNOWN_INVARIANT_VIOLATION_ERROR).

(** What a substitution at a depth computes. *)
Definition computes (r : R Type_) (o : option Type_) (d : Z) : Prop :=
  (forall ty, r = Ok ty <-> o = Some ty /\ d + depth ty <= TYPE_DEPTH_MAX + 1) /\ ((exists ty, r = Ok ty) \/ subst_error r).

Lemma depth_pos ty : 1 <= depth ty.
Proof.
  assert (forall l : list Type_, 0 <= fold_right (fun ty m => Z.max (depth ty) m) 0 l) by (induction l; simpl; lia).
  induction ty using type_ind; simpl; try lia. specialize (H l). lia.
Qed.

Lemma replace_param ty : replace (fun idx => Some (TyParam idx)) ty = Some ty.
Proof.
  induction ty as [| | | | | |ty IH| |idx l IH|ty IH|ty IH|] using type_ind; simpl; try done; rewrite ?IH; try done.
  match goal with |- StructInstantiation idx <$> ?r = _ => assert (r = Some l) as ->; [|done] end.
  induction IH as [|ty l E _ IHl]; [done|]. by rewrite E, IHl.
Qed.

(** One level more. *)
Lemma computes_level (mk : Type_ -> Type_) r o d : (forall ty, depth (mk ty) = 1 + depth ty) -> computes r o (d + 1) ->
  computes (ty ← r; Ok (mk ty)) (mk <$> o) d.
Proof.
  intros Hmk [HC HE]. split.
  - intros ty. rewrite res_bind_ok. split.
    + intros (ty1 & [-> Hd]%HC & [= <-]). split; [done|]. rewrite Hmk. lia.
    + intros [(ty1 & -> & ->)%fmap_Some Hd]. exists ty1. split; [|done]. apply HC. rewrite Hmk in Hd. split; [done|lia].
  - destruct HE as [[ty ->]|[-> | ->]]; [left; by eexists|right; by left|right; by right].
Qed.

Section substitution.
  Variables (sub : Z -> Z -> R Type_) (f : Z -> option Type_).
  Hypothesis Hsub : forall idx d, d <= TYPE_DEPTH_MAX -> computes (sub idx d) (f idx) d.

Lemma computes_leaf (ty : Type_) d : depth ty = 1 -> d <= TYPE_DEPTH_MAX -> computes (Ok ty) (Some ty) d.
Proof.
  intros E Hd. split; [|left; by eexists]. intros ty'. split; [intros [= <-]; split; [done|lia]|]. by intros [[= <-] _].
Qed.

Lemma computes_deep (ty : Type_) o d : TYPE_DEPTH_MAX < d -> computes (Err (vm_error VM_MAX_TYPE_DEPTH_REACHED)) o d.
Proof. intros Hd. split; [|right; by left]. intros ty'. split; [done|]. intros [_ H]. pose proof (depth_pos ty'). lia. Qed.

Lemma apply_subst_computes ty d : computes (apply_subst sub ty d) (replace f ty) d.
Proof.
  revert d. induction ty as [| | | | | |ty IH| |idx l IH|ty IH|ty IH|] using type_ind; intros d; simpl;
    destruct (Z.ltb_spec TYPE_DEPTH_MAX d) as [Hd|Hd]; try (by apply (computes_deep Bool)); try (by apply computes_leaf);
    try (by apply computes_level); try (by apply Hsub).
  (* The arguments of an instantiation. *)
  match goal with |- computes (inst ← ?r; _) (_ <$> ?o) _ => assert ((forall l', r = Ok l' <-> o = Some l' /\
    Forall (fun ty => d + 1 + depth ty <= TYPE_DEPTH_MAX + 1) l') /\ ((exists l', r = Ok l') \/ (exists e, r = Err e /\ subst_error (Err e)))) as [HC HE] end.
  { induction IH as [|ty l Hty _ IHl]; [split; [|left; by eexists]; intros l'; split; [by intros [= <-]|by intros [[= <-] _]]|].
    destruct (Hty (d + 1)) as [HC1 HE1]. destruct IHl as [HC2 HE2]. split.
    - intros l'. rewrite res_bind_ok. setoid_rewrite res_bind_ok. split.
      + intros (ty1 & [-> Hd1]%HC1 & l1 & [E1 Hl1]%HC2 & [= <-]). simpl. rewrite E1. split; [done|by constructor].
      + intros [(ty1 & E1 & (l1 & E2 & [= <-])%bind_Some)%bind_Some [H1 H2]%Forall_cons_iff].
        exists ty1. split; [by apply HC1|]. exists l1. split; [by apply HC2|done].
    - destruct HE1 as [[ty1 ->]|[-> | ->]]; [|right; eexists; split; [done|by left]|right; eexists; split; [done|by right]].
      destruct HE2 as [[l1 ->]|(e & -> & He)]; [left; by eexists|right; by eexists]. }
  assert (forall l', Forall (fun ty => d + 1 + depth ty <= TYPE_DEPTH_MAX + 1) l' <-> d + depth (StructInstantiation idx l') <= TYPE_DEPTH_MAX + 1) as HD.
  { intros l'. simpl. unfold TYPE_DEPTH_MAX in *. induction l' as [|ty l' IHl]; simpl; [split; [lia|done]|]. rewrite Forall_cons_iff, IHl. lia. }
  split.
  - intros ty. rewrite res_bind_ok. split.
    + intros (l1 & [-> Hl]%HC & [= <-]). split; [done|]. by apply HD.
    + intros [(l1 & E & ->)%fmap_Some Hl]. exists l1. split; [|done]. apply HC. split; [done|]. by apply HD.
  - destruct HE as [[l1 ->]|(e & -> & He)]; [left; by eexists|by right].
Qed.
End substitution.

Lemma clone_computes ty d : computes (clone_impl ty d) (Some ty) d.
Proof.
  rewrite <- (replace_param ty). apply apply_subst_computes. intros idx d' Hd. by apply computes_leaf.
Qed.

(** [subst]: the type with its parameters replaced, or an error if it is too deep. *)
Lemma subst_computes ty args : computes (subst ty args) (replace (fun idx => args !! Z.to_nat idx) ty) 1.
Proof.
  apply apply_subst_computes. intros idx d Hd. destruct (args !! Z.to_nat idx) as [a|]; [apply clone_computes|].
  split; [|right; by right]. intros ty'. by split; [|intros [? _]].
Qed.
End Types.

(** * Equality of references *)

#[local] Opaque Rc.new Rc.get Rc.put Rc.free Rc.borrow Rc.replace Rc.clone.
#[local] Hint Resolve at_index_run : run.

Definition not_vec (c : Container) : Prop := match c with Vec _ => False | _ => True end.

(** References to elements of structs, of locals and of vectors of primitive values. *)
Lemma equals_indexed h cr1 cr2 i j ly v1 v2 t1 t2 :
  prim_elem h (ContainerRef.container cr1) i ly v1 t1 -> prim_elem h (ContainerRef.container cr2) j ly v2 t2 ->
  not_vec (ContainerRef.container cr1) -> not_vec (ContainerRef.container cr2) ->
  decides h (equals (ValueImpl.IndexedRef_ (IndexedRef.mk (Z.of_nat i) cr1)) (ValueImpl.IndexedRef_ (IndexedRef.mk (Z.of_nat j) cr2))) (t1 = t2).
Proof.
  intros HE1 HE2 HN1 HN2. unfold decides, equals. cbn [equals_fuel]. generalize (size h) as fuel. intros fuel.
  unfold IndexedRef_equals. cbn [IndexedRef.idx IndexedRef.container_ref].
  destruct HE1 as [c1 r1 vs1 i ly v1 t1 Hc1 HB1 Hi1 HP1|r1 l1 i x1 HB1 Hi1|r1 l1 i x1 HB1 Hi1|r1 l1 i x1 HB1 Hi1|r1 l1 i x1 HB1 Hi1|r1 l1 i x1 HB1 Hi1];
  inversion HE2 as [c2 r2 vs2 j' ly2 v2' t2' Hc2 HB2 Hi2 HP2|r2 l2 j' x2 HB2 Hi2|r2 l2 j' x2 HB2 Hi2|r2 l2 j' x2 HB2 Hi2|r2 l2 j' x2 HB2 Hi2|r2 l2 j' x2 HB2 Hi2]; subst.
  1:{ destruct (equals_prim (S fuel) h _ _ _ _ _ HP1 HP2 ltac:(lia)) as (b & E & Hb). exists b. split; [|done].
    pose proof (elem_value_run _ _ _ _ _ HB1 Hi1) as E1. pose proof (elem_value_run _ _ _ _ _ HB2 Hi2) as E2.
    destruct c1, (ContainerRef.container cr2); simplify_eq/=; rewrite (st_bind_run _ _ _ _ _ E1), (st_bind_run _ _ _ _ _ E2); done. }
  all: unfold elem_bool, elem_u8, elem_u64, elem_u128, elem_address.
  1-5: pose proof (elem_value_run _ _ _ _ _ HB1 Hi1) as E1; inversion HP1; subst; destruct c1; try discriminate Hc1; try (by destruct HN1);
    injection Hc1 as ->; erewrite st_bind_run by (rewrite (st_bind_run _ _ _ _ _ E1); reflexivity);
    erewrite st_bind_run by (step; by apply at_index_run);
    decide_prims.
  all: try (do 2 erewrite st_bind_run by (step; by apply at_index_run);
    decide_prims).
  all: pose proof (elem_value_run _ _ _ _ _ HB2 Hi2) as E2; inversion HP2; subst; destruct (ContainerRef.container cr2); try discriminate Hc2;
    try (by destruct HN2); injection Hc2 as ->; erewrite st_bind_run by (step; by apply at_index_run);
    erewrite st_bind_run by (rewrite (st_bind_run _ _ _ _ _ E2); reflexivity);
    decide_prims.
Qed.

(** * An example *)

(** A struct with an integer and a vector of bytes, in a slot with a status; another vector
    of bytes; a frame whose local 0 is an integer and local 1 the struct. *)
Module Example.
Definition fields : loc := 1.
Definition bytes : loc := 2.
Definition status : loc := 3.
Definition other : loc := 4.
Definition frame : loc := 5.
Definition store : Store :=
  <[fields := RcBox.mk 2 (Values [ValueImpl.U64 7; ValueImpl.Container_ (VecU8 bytes)])]>
  (<[bytes := RcBox.mk 2 (U8s [1; 2])]> (<[status := RcBox.mk 2 (Status Clean)]> (<[other := RcBox.mk 1 (U8s [9])]>
  (<[frame := RcBox.mk 2 (Values [ValueImpl.U64 5; ValueImpl.Container_ (Struct fields)])]> ∅)))).
Definition struct_layout : list layout := [LU64; LVector LU8].
Definition value : ValueImpl := ValueImpl.Container_ (Struct fields).
Definition meaning : tree := TStruct [TU64 7; TVector [TU8 1; TU8 2]].
Definition new_bytes : ValueImpl := ValueImpl.Container_ (VecU8 other).

Lemma bytes_rep : rep store (LVector LU8) (ValueImpl.Container_ (VecU8 bytes)) (TVector [TU8 1; TU8 2]) [bytes].
Proof. eapply (rep_prim_vec _ LU8 VecU8); [apply (prim_vec_u8 [1; 2])|reflexivity]. Qed.

Lemma new_bytes_rep : rep store (LVector LU8) new_bytes (TVector [TU8 9]) [other].
Proof. eapply (rep_prim_vec _ LU8 VecU8); [apply (prim_vec_u8 [9])|reflexivity]. Qed.

Lemma value_rep : rep store (LStruct struct_layout) value meaning [fields; bytes].
Proof.
  apply (rep_struct _ _ _ [ValueImpl.U64 7; ValueImpl.Container_ (VecU8 bytes)] _ [bytes]); [reflexivity| |by intros ?%list_elem_of_singleton].
  apply (reps_cons _ _ _ _ _ _ _ [] [bytes]); [repeat constructor| |by intros ? ?%elem_of_nil].
  apply (reps_cons _ _ _ _ _ _ _ [bytes] []); [apply bytes_rep|constructor|by intros ? _ ?%elem_of_nil].
Qed.

Lemma disjoint : [fields; bytes] ## [other].
Proof. intros r H1 ->%list_elem_of_singleton. apply elem_of_cons in H1 as [H1|H1%list_elem_of_singleton]; discriminate H1. Qed.

Lemma other_unique : unique store [other].
Proof. intros r ->%list_elem_of_singleton. by eexists. Qed.

Lemma boxes_live r : r ∈ [fields; bytes] -> live store r.
Proof. rewrite elem_of_cons, list_elem_of_singleton. intros [-> | ->]; eexists _, _; (split; [reflexivity|lia]). Qed.

(** The vector below the struct. *)
Lemma bytes_below : reaches store (Struct fields) [1%nat] (VecU8 bytes).
Proof. eapply (reaches_below _ _ fields); [done..|constructor]. Qed.

Lemma held_global c : container_loc c = fields \/ container_loc c = bytes -> held store (Global status c).
Proof.
  intros Hc. split; [destruct Hc as [E|E]; unfold shared; simpl; rewrite E; eexists _, _; (split; [done|lia])|].
  split_and!; [eexists _, _; split; [done|lia]|by destruct Hc as [-> | ->]|by exists Clean].
Qed.
End Example.

(** * Copies *)

(** C21: [copy_value] is a deep copy: the copy is the same tree in boxes of its own, each with
    one pointer to it, with the same abstract memory size; the store is otherwise unchanged,
    and dropping the copy leaves exactly the store from before. *)
Theorem copy_value_deep h ly v t L : rep h ly v t L ->
  exists v' h1 L', copy_value v h = Ok (v', h1) /\ allocates h h1 L' /\ rep h1 ly v' t L' /\ rep h1 ly v t L /\
  drop_value v' h1 = Ok ((), h) /\ same_size h (Size.size v) h1 (Size.size v').
Proof.
  intros HR. destruct (copy_value_makes _ _ _ _ _ HR) as (v' & h1 & L' & E & HA & HR'). pose proof HA as (HS & HL' & HU).
  destruct (drop_value_drops _ _ _ _ _ HR') as (h2 & E2 & HF & HN). exists v', h1, L'.
  split_and!; [done..|by eapply rep_weaken| |by eapply size_determined]. rewrite E2. do 2 f_equal. apply map_eq. intros r. destruct (decide (r ∈ L')) as [Hr|Hr].
  - rewrite HN by done. symmetry. by apply HL'.
  - rewrite HF by done. destruct (h !! r) as [b|] eqn:Eb; [by eapply lookup_weaken|].
    destruct (h1 !! r) eqn:E1; [|done]. exfalso. apply Hr, HL'. eauto.
Qed.

Lemma copy_value_deep_witness : exists v' h1 L', copy_value Example.value Example.store = Ok (v', h1) /\
  allocates Example.store h1 L' /\ rep h1 (LStruct Example.struct_layout) v' Example.meaning L' /\
  rep h1 (LStruct Example.struct_layout) Example.value Example.meaning [Example.fields; Example.bytes] /\
  drop_value v' h1 = Ok ((), Example.store) /\ same_size Example.store (Size.size Example.value) h1 (Size.size v').
Proof. apply copy_value_deep, Example.value_rep. Defined.

(** * Equality *)

(** C22: [equals] on two values of one layout, on two references to containers of one layout
    and on two references to primitive elements of one type returns, without changing the
    store, whether the trees are equal. *)
Theorem equals_exact h ly t1 t2 :
  (forall v1 v2 L1 L2, rep h ly v1 t1 L1 -> rep h ly v2 t2 L2 ->
    exists b, equals v1 v2 h = Ok (b, h) /\ (b = true <-> t1 = t2)) /\
  (forall r1 r2 L1 L2, rep h ly (ValueImpl.Container_ (ContainerRef.container r1)) t1 L1 ->
    rep h ly (ValueImpl.Container_ (ContainerRef.container r2)) t2 L2 ->
    exists b, equals (ValueImpl.ContainerRef_ r1) (ValueImpl.ContainerRef_ r2) h = Ok (b, h) /\ (b = true <-> t1 = t2)) /\
  (forall r1 r2 i j v1 v2, prim_elem h (ContainerRef.container r1) i ly v1 t1 -> prim_elem h (ContainerRef.container r2) j ly v2 t2 ->
    not_vec (ContainerRef.container r1) -> not_vec (ContainerRef.container r2) ->
    exists b, equals (ValueImpl.IndexedRef_ (IndexedRef.mk (Z.of_nat i) r1)) (ValueImpl.IndexedRef_ (IndexedRef.mk (Z.of_nat j) r2)) h = Ok (b, h) /\
      (b = true <-> t1 = t2)).
Proof.
  split_and!.
  - intros v1 v2 L1 L2 H1 H2. by eapply equals_decides.
  - intros r1 r2 L1 L2 H1 H2. exact (equals_decides _ _ _ _ _ _ _ _ H1 H2).
  - intros r1 r2 i j v1 v2 H1 H2 H3 H4. by apply (equals_indexed h r1 r2 i j ly v1 v2).
Qed.

Lemma equals_exact_witness : exists b, equals (ValueImpl.Container_ (VecU8 Example.bytes)) Example.new_bytes Example.store = Ok (b, Example.store) /\
  (b = true <-> TVector [TU8 1; TU8 2] = TVector [TU8 9]).
Proof.
  exact (proj1 (equals_exact Example.store (LVector LU8) (TVector [TU8 1; TU8 2]) (TVector [TU8 9])) _ _ _ _ Example.bytes_rep Example.new_bytes_rep).
Defined.

(** * References *)

(** [borrow_elem] on a reference that is [p] steps below a container returns a reference
    that is one step further down, keeps the contents of every box, passes on the status of
    a global, and fails exactly if the tree has no such child. *)
Theorem borrow_elem_exact h ly c t L p cr i : rep h ly (ValueImpl.Container_ c) t L -> reaches h c p (ContainerRef.container cr) ->
  (forall r, r ∈ L -> live h r) -> live_ref h cr ->
  match tree_at t (p ++ [i]) with
  | Some _ => exists v r h', borrow_field cr (Z.of_nat i) h = Ok (v, h') /\ cast_reference v h' = Ok (r, h') /\
      only_counts h h' /\ ref_at h' c (p ++ [i]) r /\ held h' (ref_of r) /\ exists c', ref_of r = reborrow cr c'
  | None => borrow_field cr (Z.of_nat i) h = Err (vm_error UNKNOWN_INVARIANT_VIOLATION_ERROR)
  end.
Proof. apply borrow_elem_at. Qed.

Lemma borrow_elem_exact_witness : exists v r h', borrow_field (Global Example.status (Struct Example.fields)) 1 Example.store = Ok (v, h') /\
  cast_reference v h' = Ok (r, h') /\ only_counts Example.store h' /\ ref_at h' (Struct Example.fields) [1%nat] r /\ held h' (ref_of r) /\
  exists c', ref_of r = reborrow (Global Example.status (Struct Example.fields)) c'.
Proof.
  refine (borrow_elem_exact Example.store _ (Struct Example.fields) _ _ [] (Global Example.status (Struct Example.fields)) 1 Example.value_rep _ _ _).
  - constructor.
  - apply Example.boxes_live.
  - split; [apply Example.boxes_live, elem_of_cons; by left|]. split; [eexists _, _; split; [reflexivity|lia]|by exists Clean].
Defined.

(** C20: A reference [p] steps below a container stands for the path [p] in its tree:
    [read_ref] returns a copy of the tree there, and [write_ref] of a value of the same layout
    replaces that tree and no other part, marks a global as dirty, and changes no box outside
    the container, the value and the reference. *)
Theorem references_are_paths h ly c t L p r : rep h ly (ValueImpl.Container_ c) t L -> ref_at h c p r -> held h (ref_of r) ->
  (exists t' ly' v h' L', tree_at t p = Some t' /\ layout_at ly p = Some ly' /\ ReferenceImpl_read_ref r h = Ok (v, h') /\
    rep h' ly' v t' L' /\ (forall r', r' ∈ L' -> h !! r' = None) /\ unique h' L' /\ rep h' ly (ValueImpl.Container_ c) t L) /\
  (forall lyx x tx Lx, layout_at ly p = Some lyx -> rep h lyx x tx Lx -> L ## Lx -> unique h Lx ->
    exists h' L', ReferenceImpl_write_ref r x h = Ok ((), h') /\
    rep h' ly (ValueImpl.Container_ c) (tree_update t p tx) L' /\ L' ⊆ L ++ Lx /\ marked (ref_of r) h' /\
    forall r', r' ∉ L -> r' ∉ Lx -> r' ∉ ref_pointers (ref_of r) -> h' !! r' = h !! r').
Proof.
  intros HR Hat Hh. split.
  - destruct (read_ref_at _ _ _ _ _ _ _ HR Hat Hh) as (t' & ly' & v & h' & L' & Ht & Hly & E & HR' & HN & HU & HK).
    exists t', ly', v, h', L'. split_and!; [done..|]. eapply rep_frame; [done|]. intros r' Hr'. eapply HK, rep_dom; eauto.
  - intros lyx x tx Lx Hly HRx HD HU. exact (write_ref_at _ _ _ _ _ _ _ _ _ _ _ HR Hat Hh Hly HRx HD HU).
Qed.

Lemma references_are_paths_witness : exists h' L',
  ReferenceImpl_write_ref (ReferenceContainer (Global Example.status (VecU8 Example.bytes))) Example.new_bytes Example.store = Ok ((), h') /\
  rep h' (LStruct Example.struct_layout) Example.value (TStruct [TU64 7; TVector [TU8 9]]) L'.
Proof.
  destruct (references_are_paths Example.store _ (Struct Example.fields) _ _ [1%nat]
    (ReferenceContainer (Global Example.status (VecU8 Example.bytes))) Example.value_rep) as [_ HW].
  - constructor. apply Example.bytes_below.
  - apply Example.held_global. by right.
  - destruct (HW _ _ _ _ eq_refl Example.new_bytes_rep Example.disjoint Example.other_unique) as (h' & L' & E & HR & _).
    exists h', L'. exact (conj E HR).
Defined.

(** * Locals *)

(** [borrow_loc] of an initialized local returns a reference whose [read_ref] copies the
    local and whose [write_ref] of a value of the same layout makes the local that value and
    leaves every other local as it was. *)
Theorem borrow_loc_exact h r vs i ly v t L : box h r (Values vs) -> vs !! i = Some v -> rep h ly v t L -> r ∉ L ->
  live h r -> (forall r', r' ∈ L -> live h r') ->
  exists vr ref h1, Locals.borrow_loc r (Z.of_nat i) h = Ok (vr, h1) /\ cast_reference vr h1 = Ok (ref, h1) /\ only_counts h h1 /\
  (exists v' h2 L', ReferenceImpl_read_ref ref h1 = Ok (v', h2) /\ rep h2 ly v' t L' /\ box h2 r (Values vs)) /\
  (forall x tx Lx, rep h1 ly x tx Lx -> r ∉ Lx -> L ## Lx -> unique h1 Lx ->
    exists h2 x' L', ReferenceImpl_write_ref ref x h1 = Ok ((), h2) /\ rep h2 ly x' tx L' /\ box h2 r (Values (<[i := x']> vs))).
Proof. apply borrow_loc_at. Qed.

Lemma borrow_loc_exact_witness : exists vr ref h1, Locals.borrow_loc Example.frame 1 Example.store = Ok (vr, h1) /\
  cast_reference vr h1 = Ok (ref, h1) /\
  exists v' h2 L', ReferenceImpl_read_ref ref h1 = Ok (v', h2) /\ rep h2 (LStruct Example.struct_layout) v' Example.meaning L'.
Proof.
  destruct (borrow_loc_exact Example.store Example.frame [ValueImpl.U64 5; Example.value] 1 _ _ _ _ eq_refl eq_refl Example.value_rep)
    as (vr & ref & h1 & E1 & E2 & _ & (v' & h2 & L' & E3 & HR & _) & _).
  - intros H%elem_of_cons. destruct H as [H|H%list_elem_of_singleton]; discriminate H.
  - eexists _, _. split; [reflexivity|lia].
  - apply Example.boxes_live.
  - exists vr, ref, h1. split; [exact E1|]. split; [exact E2|]. exists v', h2, L'. exact (conj E3 HR).
Defined.

(** * Vectors *)

(** C23: Through a reference to a vector anywhere below a container, [len] returns the length
    of the list of trees, [push_back] appends, [pop] removes and returns the last tree or
    fails on an empty vector, and [swap] exchanges two trees or fails exactly if an index is
    out of bounds; each change marks a global as dirty and leaves the rest of the container. *)
Theorem vector_operations_exact h ly0 c t L p cr ly ts ty :
  rep h ly0 (ValueImpl.Container_ c) t L -> reaches h c p (ContainerRef.container cr) ->
  layout_at ly0 p = Some (LVector ly) -> tree_at t p = Some (TVector ts) -> status_ok h cr -> elem_type ty ly ->
  VectorRef.len cr ty h = Ok (ValueImpl.U64 (zlen ts), h) /\
  (forall e te Le, rep h ly e te Le -> L ## Le ->
    exists h' L', VectorRef.push_back cr e ty h = Ok ((), h') /\ below ly0 c t p cr h' (ts ++ [te]) L') /\
  match ts with
  | [] => VectorRef.pop cr ty h = Err (vector_error POP_EMPTY_VEC)
  | _ => exists ts0 t0 v h' L' Lv, ts = ts0 ++ [t0] /\ VectorRef.pop cr ty h = Ok (v, h') /\ below ly0 c t p cr h' ts0 L' /\
      rep h' ly v t0 Lv /\ L' ## Lv
  end /\
  (forall i j, match ts !! i, ts !! j with
    | Some t1, Some t2 => exists h' L', VectorRef.swap cr (Z.of_nat i) (Z.of_nat j) ty h = Ok ((), h') /\ below ly0 c t p cr h' (swapped i j t1 t2 ts) L'
    | _, _ => VectorRef.swap cr (Z.of_nat i) (Z.of_nat j) ty h = Err (vector_error INDEX_OUT_OF_BOUNDS)
    end).
Proof.
  intros HR Hp Hly Ht Hs Hty. split_and!.
  - destruct (vector_at _ _ _ _ _ _ _ _ _ HR Hp Hly Ht Hs) as (Lv & HRv & _). by eapply vector_len.
  - intros e te Le He HD. by apply (push_below h ly0 c t L p cr ly ts ty HR Hp Hly Ht Hs Hty e te Le).
  - exact (pop_below h ly0 c t L p cr ly ts ty HR Hp Hly Ht Hs Hty).
  - exact (swap_below h ly0 c t L p cr ly ts ty HR Hp Hly Ht Hs Hty).
Qed.

Lemma vector_operations_exact_witness : exists h' L',
  VectorRef.swap (Global Example.status (VecU8 Example.bytes)) 0 1 RuntimeType.U8 Example.store = Ok ((), h') /\
  rep h' (LStruct Example.struct_layout) Example.value (TStruct [TU64 7; TVector [TU8 2; TU8 1]]) L' /\ box h' Example.status (Status Dirty).
Proof.
  destruct (vector_operations_exact Example.store _ (Struct Example.fields) _ _ [1%nat] (Global Example.status (VecU8 Example.bytes)) LU8
    [TU8 1; TU8 2] RuntimeType.U8 Example.value_rep Example.bytes_below eq_refl eq_refl (ex_intro _ Clean eq_refl) I) as (_ & _ & _ & Hswap).
  destruct (Hswap 0%nat 1%nat) as (h' & L' & E & HR & HM). exists h', L'. split; [exact E|]. split; [exact HR|].
  exact (HM Example.status (VecU8 Example.bytes) eq_refl).
Defined.

(** [Vector::pack] makes a vector of the trees of its arguments, and [Vector::unpack] of it
    returns the arguments and leaves exactly the store from before, or fails exactly if the
    expected number is another. *)
Theorem vector_pack_unpack h ly ty vs ts L n : reps h (replicate (length vs) ly) vs ts L -> elem_type ty ly ->
  exists c h1 Lc, Vector.pack ty vs h = Ok (ValueImpl.Container_ c, h1) /\
  rep h1 (LVector ly) (ValueImpl.Container_ c) (TVector ts) Lc /\ h ⊆ h1 /\ Lc ≡ₚ container_loc c :: L /\
  Vector.unpack c ty n h1 = if n =? zlen vs then Ok (vs, h) else Err (vector_error VEC_UNPACK_PARITY_MISMATCH).
Proof. apply pack_unpack. Qed.

Lemma vector_pack_unpack_witness : exists c h1, Vector.pack (RuntimeType.Vector RuntimeType.U8) [Example.new_bytes] Example.store
    = Ok (ValueImpl.Container_ c, h1) /\
  Vector.unpack c (RuntimeType.Vector RuntimeType.U8) 1 h1 = Ok ([Example.new_bytes], Example.store).
Proof.
  destruct (vector_pack_unpack Example.store (LVector LU8) (RuntimeType.Vector RuntimeType.U8) [Example.new_bytes] [TVector [TU8 9]]
    ([Example.other] ++ []) 1) as (c & h1 & Lc & E1 & _ & _ & _ & E2).
  - apply reps_cons; [apply Example.new_bytes_rep|constructor|by intros ? _ ?%elem_of_nil].
  - exact I.
  - exists c, h1. exact (conj E1 E2).
Defined.

(** * Global storage *)

(** C19: Whatever a transaction did to a slot of global storage (publishing, removing,
    borrowing, writing through references into the resource), [into_effect] returns; no
    effect means that the slot holds what it held at the start, a deletion that it held
    something and is empty, and a change carries the tree it holds now.  [is_mutated] tells
    whether there is an effect, and [borrow_global] finds the resource exactly if the slot
    holds one. *)
Theorem global_effects_exact lys init g h cur : transaction lys init g h cur ->
  (exists e h' b, GlobalValue.into_effect g h = Ok (e, h') /\ effect_of lys init cur h' e /\
    GlobalValue.is_mutated g h = Ok (b, h) /\ (b = false <-> e = NoEffect)) /\
  (GlobalValue.exists_ g = true <-> is_Some cur) /\
  (cur = None -> GlobalValue.move_from g h = Err (vm_error MISSING_DATA) /\ GlobalValue.borrow_global g h = Err (vm_error MISSING_DATA)) /\
  (is_Some cur -> forall v, GlobalValue.move_to g v h = Err (vm_error RESOURCE_ALREADY_EXISTS)).
Proof.
  intros Hs%transaction_slot. split; [by apply slot_effect|]. destruct g as [|f|f s|]; simpl in *.
  - destruct Hs as [_ ->]. split_and!; [by split; [|intros []]|done|by intros []].
  - destruct Hs as (_ & t & L & -> & _). split_and!; [by split; eauto|done|done].
  - destruct Hs as (t0 & t & L & st & _ & -> & _). split_and!; [by split; eauto|done|done].
  - destruct Hs as [_ ->]. split_and!; [by split; [|intros []]|done|by intros []].
Qed.

(** A run: the slot is loaded and borrowed, and its first field is written. *)
Definition loaded : GlobalValue * Store :=
  match GlobalValue.cached Example.value Example.store with Ok r => r | _ => (GlobalValue.None, ∅) end.
Definition borrowed : Store := match GlobalValue.borrow_global loaded.1 loaded.2 with Ok (_, h) => h | _ => ∅ end.
Definition loaded_status : loc := match loaded.1 with GlobalValue.Cached _ s => s | _ => 1%positive end.
Definition first_field : ReferenceImpl := ReferenceIndexed (IndexedRef.mk 0 (Global loaded_status (Struct Example.fields))).
Definition written : Store := match ReferenceImpl_write_ref first_field (ValueImpl.U64 8) borrowed with Ok (_, h) => h | _ => ∅ end.

Lemma loaded_live r : is_Some (loaded.2 !! r) -> live loaded.2 r.
Proof.
  intros [[n c] Hb]. exists n, c. split; [done|].
  assert (map_Forall (fun _ b => 1 <= b.(RcBox.strong)) loaded.2) as HF by (apply (proj1 (bool_decide_eq_true _)); vm_compute; reflexivity).
  exact (HF r _ Hb).
Qed.

Lemma example_transaction : transaction Example.struct_layout (Some Example.meaning) loaded.1 written
  (Some (TStruct [TU64 8; TVector [TU8 1; TU8 2]])).
Proof.
  assert (transaction Example.struct_layout (Some Example.meaning) loaded.1 borrowed (Some Example.meaning)) as HT.
  { eapply tx_borrow; [|exact loaded_live|vm_compute; reflexivity].
    eapply tx_cached; [exact Example.value_rep|reflexivity|vm_compute; reflexivity]. }
  assert (rep borrowed (LStruct Example.struct_layout) Example.value Example.meaning [Example.fields; Example.bytes]) as HR.
  { eapply rep_frame; [exact Example.value_rep|]. intros r. rewrite elem_of_cons, list_elem_of_singleton. by intros [-> | ->]. }
  apply (tx_write _ _ _ borrowed Example.meaning [0%nat] first_field LU64 (ValueImpl.U64 8) (TU64 8) _ [] Example.fields _ HT eq_refl HR).
  - split; [|by eexists]. eapply (ref_at_indexed _ _ [] 0%nat _ LU64 (ValueImpl.U64 7) (TU64 7)); [constructor|].
    by eapply (prim_elem_values _ _ Example.fields); [..|constructor].
  - split; [eexists _, _; split; [vm_compute; reflexivity|lia]|].
    split_and!; [eexists _, _; split; [vm_compute; reflexivity|lia]|by vm_compute|by exists Clean].
  - reflexivity.
  - repeat constructor.
  - by intros ? _ ?%elem_of_nil.
  - by intros ? ?%elem_of_nil.
  - vm_compute. reflexivity.
Qed.

Lemma global_effects_exact_witness : exists e h' b, GlobalValue.into_effect loaded.1 written = Ok (e, h') /\
  effect_of Example.struct_layout (Some Example.meaning) (Some (TStruct [TU64 8; TVector [TU8 1; TU8 2]])) h' e /\
  GlobalValue.is_mutated loaded.1 written = Ok (b, written) /\ (b = false <-> e = NoEffect).
Proof. exact (proj1 (global_effects_exact _ _ _ _ _ example_transaction)). Defined.

(** * Integers *)

(** C24: On integers in range, the binary operations return the exact result if it fits the
    common type, an arithmetic error if it does not or for a division by zero, and a type
    error on different types; shifts by less than the width lose exactly the bits that do not
    fit and by more fail; casts keep the value or fail exactly if it does not fit. *)
Theorem integer_operations_exact (a : IntegerValue) : Integers.wf a ->
  (forall o b, Integers.wf b -> Integers.run o a b = Integers.apply_op o a b) /\
  (forall n, 0 <= n ->
    IntegerValue.shl_checked a n = (if n <? Integers.width a
      then Ok (Integers.with_value a ((Integers.value a * 2 ^ n) mod 2 ^ Integers.width a)) else Err (vm_error ARITHMETIC_ERROR)) /\
    IntegerValue.shr_checked a n = (if n <? Integers.width a
      then Ok (Integers.with_value a (Integers.value a / 2 ^ n)) else Err (vm_error ARITHMETIC_ERROR)) /\
    (n < Integers.width a -> 0 <= Integers.value a / 2 ^ n < 2 ^ Integers.width a)) /\
  IntegerValue.cast_u8 a = Integers.cast_result a 8 /\ IntegerValue.cast_u64 a = Integers.cast_result a 64 /\
  IntegerValue.cast_u128 a = Integers.cast_result a 128.
Proof.
  intros Ha. split_and!; [intros; by apply Integers.run_exact|intros; by apply Integers.shifts_exact|by apply Integers.casts_exact..].
Qed.

Lemma integer_operations_exact_witness :
  Integers.run Integers.Add (IntegerValue.U8 200) (IntegerValue.U8 100) = Err (vm_error ARITHMETIC_ERROR) /\
  IntegerValue.cast_u8 (IntegerValue.U8 200) = Ok 200.
Proof.
  assert (Integers.wf (IntegerValue.U8 200)) as Ha by (split; reflexivity || discriminate).
  destruct (integer_operations_exact _ Ha) as (Hrun & _ & Hc & _). split; [|exact Hc].
  rewrite (Hrun Integers.Add (IntegerValue.U8 100)); [reflexivity|split; reflexivity || discriminate].
Defined.

(** * Substitution *)

(** C25: [Type::subst] returns the type with its parameters replaced by the arguments exactly if
    every parameter has an argument and the result has at most 256 levels; otherwise it
    returns one of the two errors. *)
Theorem type_subst_exact ty args :
  (forall ty', RuntimeType.subst ty args = Ok ty' <->
    Types.replace (fun idx => args !! Z.to_nat idx) ty = Some ty' /\ Types.depth ty' <= RuntimeType.TYPE_DEPTH_MAX) /\
  ((exists ty', RuntimeType.subst ty args = Ok ty') \/ Types.subst_error (RuntimeType.subst ty args)).
Proof.
  destruct (Types.subst_computes ty args) as [HC HE]. split; [|done]. intros ty'. rewrite HC. split; intros [E Hd]; split; [done|lia|done|lia].
Qed.
