(* ===== verification/Runtime.v ===== *)
(** What the interpreter of the virtual machine runs on: gas metering
    (move-vm/types/src/gas_schedule.rs and move-core/types/src/gas_schedule.rs), loaded
    functions, modules and scripts with the resolver (move-vm/runtime/src/loader.rs), native
    functions and the data store (move-vm/types/src/data_store.rs).

    Amounts of gas and sizes are [u64]; an operation on them that overflows panics. *)
From stdpp Require Import gmap.
From S2P Require Import Prelude StatusCode Abilities Identifier FileFormat BinaryCommon Access Dependencies.
From S2P Require Import VmValues.

(** * Gas *)

Definition LARGE_TRANSACTION_CUTOFF : Z := 600.
Definition DEFAULT_ACCOUNT_SIZE : Z := 800.
Definition MAX_TRANSACTION_SIZE_IN_BYTES : Z := 4096.

Module GasConstants.
Record GasConstants : Set := mk {
  global_memory_per_byte_cost : Z;
  global_memory_per_byte_write_cost : Z;
  min_transaction_gas_units : Z;
  large_transaction_cutoff : Z;
  intrinsic_gas_per_byte : Z;
  maximum_number_of_gas_units : Z;
  min_price_per_gas_unit : Z;
  max_price_per_gas_unit : Z;
  max_transaction_size_in_bytes : Z;
  gas_unit_scaling_factor : Z;
  default_account_size : Z }.

Definition default : GasConstants :=
  mk 4 9 600 LARGE_TRANSACTION_CUTOFF 8 4000000 0 10000 MAX_TRANSACTION_SIZE_IN_BYTES 1000 DEFAULT_ACCOUNT_SIZE.
End GasConstants.
Abbreviation GasConstants := GasConstants.GasConstants.

(** [GasAlgebra]: the operations on the carrier. *)
Module GasAlgebra.
Abbreviation R := (result PartialVMError).
Definition checked (x : Z) : R Z := if in_range u64_max x then Ok x else Panic.
Definition add (x y : Z) : R Z := checked (x + y).
Definition sub (x y : Z) : R Z := checked (x - y).
Definition mul (x y : Z) : R Z := checked (x * y).
Definition div (x y : Z) : R Z := if y =? 0 then Panic else Ok (x / y).
End GasAlgebra.

Module GasCost.
Record GasCost : Set := new { instruction_gas : Z; memory_gas : Z }.
Definition total (self : GasCost) : result PartialVMError Z := GasAlgebra.add self.(instruction_gas) self.(memory_gas).
End GasCost.
Abbreviation GasCost := GasCost.GasCost.

Module CostTable.
Record CostTable : Set := mk {
  instruction_table : list GasCost;
  native_table : list GasCost;
  gas_constants : GasConstants }.

Definition instruction_cost (self : CostTable) (instr_index : Z) : result PartialVMError GasCost :=
  if (0 <? instr_index) && (instr_index <=? zlen self.(instruction_table) mod 2 ^ 8)
  then unwrap (self.(instruction_table) !! Z.to_nat (instr_index - 1)) else Panic.
Definition native_cost (self : CostTable) (native_index : Z) : result PartialVMError GasCost :=
  if native_index <? zlen self.(native_table) mod 2 ^ 8 then unwrap (self.(native_table) !! Z.to_nat native_index) else Panic.
End CostTable.
Abbreviation CostTable := CostTable.CostTable.

Module GasStatus.
Abbreviation R := (result PartialVMError).
Record GasStatus : Set := mk { cost_table : CostTable; gas_left : Z; charge : bool }.

(** [GasStatus::new], with [GasConstants::to_internal_units], and [remaining_gas], with
    [to_external_units]. *)
Definition new (cost_table : CostTable) (gas_left : Z) : R GasStatus :=
  gas_left ← GasAlgebra.mul gas_left cost_table.(CostTable.gas_constants).(GasConstants.gas_unit_scaling_factor);
  Ok (mk cost_table gas_left true).
Definition remaining_gas (self : GasStatus) : R Z :=
  GasAlgebra.div self.(gas_left) self.(cost_table).(CostTable.gas_constants).(GasConstants.gas_unit_scaling_factor).
Definition set_metering (self : GasStatus) (enabled : bool) : GasStatus := mk self.(cost_table) self.(gas_left) enabled.

(** The status afterwards, also when the gas does not suffice, and what is returned. *)
Definition deduct_gas (self : GasStatus) (amount : Z) : GasStatus * R () :=
  if negb self.(charge) then (self, Ok ())
  else if amount <=? self.(gas_left) then (mk self.(cost_table) (self.(gas_left) - amount) self.(charge), Ok ())
  else (mk self.(cost_table) 0 self.(charge), Err (vm_error OUT_OF_GAS)).

(** The same with the status threaded: an error ends the run. *)
Abbreviation G := (ST GasStatus PartialVMError).
Definition deduct (amount : Z) : G () := fun self =>
  match deduct_gas self amount with
  | (self, Ok _) => Ok ((), self)
  | (_, Err e) => Err e
  | (_, Panic) => Panic
  | (_, OutOfFuel) => OutOfFuel
  end.

(** [self.cost_table.instruction_cost(opcode as u8).total()] *)
Definition cost_of (self : GasStatus) (opcode : Opcodes) : R Z :=
  CostTable.instruction_cost self.(cost_table) (Opcodes.as_u8 opcode) ≫= GasCost.total.

Definition charge_instr_with_size (opcode : Opcodes) (size : Z) : G () := fun self =>
  (cost ← st_lift (cost_of self opcode);
   amount ← st_lift (GasAlgebra.mul cost (Z.max 1 size));
   deduct amount) self.

Definition charge_instr (opcode : Opcodes) : G () := fun self =>
  (cost ← st_lift (cost_of self opcode); deduct cost) self.

Definition calculate_intrinsic_gas (transaction_size : Z) (gas_constants : GasConstants) : R Z :=
  if transaction_size <=? MAX_TRANSACTION_SIZE_IN_BYTES
  then
    let min_transaction_fee := gas_constants.(GasConstants.min_transaction_gas_units) in
    if gas_constants.(GasConstants.large_transaction_cutoff) <? transaction_size
    then
      excess ← GasAlgebra.sub transaction_size gas_constants.(GasConstants.large_transaction_cutoff);
      fee ← GasAlgebra.mul gas_constants.(GasConstants.intrinsic_gas_per_byte) excess;
      GasAlgebra.add min_transaction_fee fee
    else Ok min_transaction_fee
  else Panic.

Definition charge_intrinsic_gas (intrinsic_cost : Z) : G () := fun self =>
  (cost ← st_lift (calculate_intrinsic_gas intrinsic_cost self.(cost_table).(CostTable.gas_constants)); deduct cost) self.
End GasStatus.
Abbreviation GasStatus := GasStatus.GasStatus.

(** * The cost schedule *)

Module CostSchedule.
Import Bytecode.

(** [sort_by_key]: a stable sort. *)
Fixpoint insert_by {A} (key : A -> Z) (x : A) (l : list A) : list A :=
  match l with
  | [] => [x]
  | y :: l' => if key x <=? key y then x :: l else y :: insert_by key x l'
  end.
Fixpoint sort_by_key {A} (key : A -> Z) (l : list A) : list A :=
  match l with
  | [] => []
  | x :: l => insert_by key x (sort_by_key key l)
  end.

(** [Bytecode::VARIANT_COUNT] *)
Definition VARIANT_COUNT : Z := 71.

Definition instructions_covered (instrs : list (Bytecode * GasCost)) : Z :=
  zlen (List.filter (fun '(index, instr) => Z.of_nat index =? instruction_key (fst instr) - 1)
          (zip (seq 0 (length instrs)) instrs)).

(** The [debug_assert!] on the table is kept: a table that misses an instruction panics. *)
Definition new_from_instructions (instrs : list (Bytecode * GasCost)) (native_table : list GasCost) :
    result PartialVMError CostTable :=
  let instrs := sort_by_key (fun cost => instruction_key (fst cost)) instrs in
  if instructions_covered instrs =? VARIANT_COUNT
  then Ok (CostTable.mk (map snd instrs) native_table GasConstants.default) else Panic.

Abbreviation cost := GasCost.new.

Definition bytecode_instruction_costs : list (Bytecode * GasCost) :=
  [ (MoveTo 0, cost 13 1); (MoveToGeneric 0, cost 27 1); (MoveFrom 0, cost 459 1); (MoveFromGeneric 0, cost 13 1);
    (BrTrue 0, cost 1 1); (WriteRef, cost 1 1); (Mul, cost 1 1); (MoveLoc 0, cost 1 1); (And, cost 1 1);
    (Pop, cost 1 1); (BitAnd, cost 2 1); (ReadRef, cost 1 1); (Sub, cost 1 1); (MutBorrowField 0, cost 1 1);
    (MutBorrowFieldGeneric 0, cost 1 1); (ImmBorrowField 0, cost 1 1); (ImmBorrowFieldGeneric 0, cost 1 1);
    (Add, cost 1 1); (CopyLoc 0, cost 1 1); (StLoc 0, cost 1 1); (Ret, cost 638 1); (Lt, cost 1 1);
    (LdU8 0, cost 1 1); (LdU64 0, cost 1 1); (LdU128 0, cost 1 1); (CastU8, cost 2 1); (CastU64, cost 1 1);
    (CastU128, cost 1 1); (Abort, cost 1 1); (MutBorrowLoc 0, cost 2 1); (ImmBorrowLoc 0, cost 1 1);
    (LdConst 0, cost 1 1); (Ge, cost 1 1); (Xor, cost 1 1); (Shl, cost 2 1); (Shr, cost 1 1); (Neq, cost 1 1);
    (Not, cost 1 1); (Call 0, cost 1132 1); (CallGeneric 0, cost 582 1); (Le, cost 2 1); (Branch 0, cost 1 1);
    (Unpack 0, cost 2 1); (UnpackGeneric 0, cost 2 1); (Or, cost 2 1); (LdFalse, cost 1 1); (LdTrue, cost 1 1);
    (Mod, cost 1 1); (BrFalse 0, cost 1 1); (Exists 0, cost 41 1); (ExistsGeneric 0, cost 34 1); (BitOr, cost 2 1);
    (FreezeRef, cost 1 1); (MutBorrowGlobal 0, cost 21 1); (MutBorrowGlobalGeneric 0, cost 15 1);
    (ImmBorrowGlobal 0, cost 23 1); (ImmBorrowGlobalGeneric 0, cost 14 1); (Div, cost 3 1); (Eq, cost 1 1);
    (Gt, cost 1 1); (Pack 0, cost 2 1); (PackGeneric 0, cost 2 1); (Nop, cost 1 1); (VecPack 0 0, cost 84 1);
    (VecLen 0, cost 98 1); (VecImmBorrow 0, cost 1334 1); (VecMutBorrow 0, cost 1902 1); (VecPushBack 0, cost 53 1);
    (VecPopBack 0, cost 227 1); (VecUnpack 0 0, cost 572 1); (VecSwap 0, cost 1436 1) ].

(** The native table of [INITIAL_COST_SCHEDULE], indexed by [NativeCostIndex]. *)
Inductive NativeCostIndex : Set :=
| SHA2_256 | SHA3_256 | ED25519_VERIFY | ED25519_THRESHOLD_VERIFY | BCS_TO_BYTES | LENGTH | EMPTY | BORROW
| BORROW_MUT | PUSH_BACK | POP_BACK | DESTROY_EMPTY | SWAP | ED25519_VALIDATE_KEY | SIGNER_BORROW
| CREATE_SIGNER | DESTROY_SIGNER | EMIT_EVENT.
Definition native_index (n : NativeCostIndex) : Z :=
  match n with
  | SHA2_256 => 0 | SHA3_256 => 1 | ED25519_VERIFY => 2 | ED25519_THRESHOLD_VERIFY => 3 | BCS_TO_BYTES => 4
  | LENGTH => 5 | EMPTY => 6 | BORROW => 7 | BORROW_MUT => 8 | PUSH_BACK => 9 | POP_BACK => 10
  | DESTROY_EMPTY => 11 | SWAP => 12 | ED25519_VALIDATE_KEY => 13 | SIGNER_BORROW => 14 | CREATE_SIGNER => 15
  | DESTROY_SIGNER => 16 | EMIT_EVENT => 17
  end.
Definition native_costs : list (NativeCostIndex * GasCost) :=
  [ (SHA2_256, cost 21 1); (SHA3_256, cost 64 1); (ED25519_VERIFY, cost 61 1); (ED25519_THRESHOLD_VERIFY, cost 3351 1);
    (BCS_TO_BYTES, cost 181 1); (LENGTH, cost 98 1); (EMPTY, cost 84 1); (BORROW, cost 1334 1);
    (BORROW_MUT, cost 1902 1); (PUSH_BACK, cost 53 1); (POP_BACK, cost 227 1); (DESTROY_EMPTY, cost 572 1);
    (SWAP, cost 1436 1); (ED25519_VALIDATE_KEY, cost 26 1); (SIGNER_BORROW, cost 353 1); (CREATE_SIGNER, cost 24 1);
    (DESTROY_SIGNER, cost 212 1); (EMIT_EVENT, cost 52 1) ].

Definition INITIAL_COST_SCHEDULE : result PartialVMError CostTable :=
  let instrs := sort_by_key (fun cost => instruction_key (fst cost)) bytecode_instruction_costs in
  let native_table := sort_by_key (fun cost => native_index (fst cost)) native_costs in
  new_from_instructions instrs (map snd native_table).

(** The instructions of [zero_cost_schedule] are those of [bytecode_instruction_costs]. *)
Definition zero_cost_schedule (num_of_native_funcs : Z) : result PartialVMError CostTable :=
  let instrs := map (fun '(instr, _) => (instr, cost 0 0)) bytecode_instruction_costs in
  let num_of_native_funcs := Z.max num_of_native_funcs 18 in
  new_from_instructions instrs (replicate (Z.to_nat num_of_native_funcs) (cost 0 0)).

Definition NUMBER_OF_NATIVE_FUNCTIONS : Z := 18.

(** [GasStatus::new_unmetered] *)
Definition new_unmetered : result PartialVMError GasStatus :=
  cost_table ← zero_cost_schedule NUMBER_OF_NATIVE_FUNCTIONS; Ok (GasStatus.mk cost_table 0 false).
End CostSchedule.

(** * Errors with a location *)

(** [Location], and [VMError] of which the index, the offset, the message and the execution
    state are not recorded. *)
Module Location.
Inductive Location : Set := Undefined | Script | Module_ (id : ModuleId).
End Location.
Abbreviation Location := Location.Location.

Module VMError.
Record VMError : Set := mk { major_status : StatusCode; sub_status : option Z; location : Location }.
Definition finish (location : Location) (e : PartialVMError) : VMError :=
  mk e.(VmValues.major_status) e.(VmValues.sub_status) location.
End VMError.
Abbreviation VMError := VMError.VMError.

(** * Loaded code *)

Module Scope.
Inductive Scope : Set := Module_ (id : ModuleId) | Script (hash : list Z).
End Scope.
Abbreviation Scope := Scope.Scope.

(** [Function]; a native function is a pointer of type [NF]. *)
Module Function.
Section function.
Context {NF : Type}.
Record Function : Type := mk {
  file_format_version : Z;
  index : FunctionDefinitionIndex;
  code : list Bytecode;
  parameters : Signature;
  return_ : Signature;
  locals : Signature;
  type_parameters : list AbilitySet;
  native : option NF;
  scope : Scope;
  name : Identifier }.

Definition module_id (self : Function) : option ModuleId :=
  match self.(scope) with Scope.Module_ module_id => Some module_id | Scope.Script _ => None end.
Definition local_count (self : Function) : Z := zlen self.(locals).
Definition arg_count (self : Function) : Z := zlen self.(parameters).
Definition is_native (self : Function) : bool := match self.(native) with Some _ => true | None => false end.
Definition get_native (self : Function) : result PartialVMError NF := ok_or self.(native) (vm_error UNREACHABLE).
End function.
Arguments Function : clear implicits.

(** [Function::new]; [resolve] looks up a native function by the address and the name of
    its module and its own. *)
Definition new {NF} (resolve : AccountAddress -> Identifier -> Identifier -> option NF) (index : FunctionDefinitionIndex)
    (def : FunctionDefinition) (module : CompiledModule) : result StatusCode (Function NF) :=
  handle ← ModuleAccess.function_handle_at module def.(FunctionDefinition.function);
  name ← ModuleAccess.identifier_at module handle.(FunctionHandle.name);
  module_id ← ModuleAccess.self_id module;
  let native := if FunctionDefinition.is_native def then resolve (fst module_id) (snd module_id) name else None in
  parameters ← ModuleAccess.signature_at module handle.(FunctionHandle.parameters);
  '(code, locals) ←
    match def.(FunctionDefinition.code) with
    | Some code =>
      locals ← ModuleAccess.signature_at module code.(CodeUnit.locals);
      Ok (code.(CodeUnit.code), parameters ++ locals)
    | None => Ok ([], [])
    end;
  return_ ← ModuleAccess.signature_at module handle.(FunctionHandle.return_);
  Ok (mk module.(CompiledModule.version) index code parameters return_ locals
        handle.(FunctionHandle.type_parameters) native (Scope.Module_ module_id) name).
End Function.
Abbreviation Function := Function.Function.

Module LoadedModule.
(** [CachedStructIndex] and the tables of a loaded module. *)
Record StructDef : Set := mk_struct_def { field_count : Z; idx : Z }.
Record StructInstantiation : Set := mk_struct_instantiation {
  instance_field_count : Z; def : Z; struct_instantiation : list RuntimeType.Type_ }.
Record FunctionInstantiation : Set := mk_function_instantiation { handle : Z; instantiation : list RuntimeType.Type_ }.
Record FieldHandle : Set := mk_field_handle { offset : Z; owner : Z }.
Record FieldInstantiation : Set := mk_field_instantiation { instance_offset : Z; instance_owner : Z }.

(** [Module] *)
Record Module_ : Set := mk {
  id : ModuleId;
  module : CompiledModule;
  struct_refs : list Z;
  structs : list StructDef;
  struct_instantiations : list StructInstantiation;
  function_refs : list Z;
  function_instantiations : list FunctionInstantiation;
  field_handles : list FieldHandle;
  field_instantiations : list FieldInstantiation;
  function_map : gmap Identifier Z;
  struct_map : gmap Identifier Z;
  single_signature_token_map : gmap SignatureIndex RuntimeType.Type_ }.
End LoadedModule.
Abbreviation LoadedModule := LoadedModule.Module_.

(** [Script] *)
Module LoadedScript.
Section script.
Context {NF : Type}.
Record Script : Type := mk {
  script : CompiledScript;
  struct_refs : list Z;
  function_refs : list Z;
  function_instantiations : list LoadedModule.FunctionInstantiation;
  main : Function NF;
  parameter_tys : list RuntimeType.Type_;
  return_tys : list RuntimeType.Type_;
  single_signature_token_map : gmap SignatureIndex RuntimeType.Type_ }.
End script.
Arguments Script : clear implicits.
End LoadedScript.
Abbreviation LoadedScript := LoadedScript.Script.

(** What the interpreter reads of the [Loader]: the tables of its module and script caches. *)
Module Loader.
Section loader.
Context {NF : Type}.
Abbreviation R := (result PartialVMError).
Record Loader : Type := mk {
  functions : list (Function NF);
  modules : gmap ModuleId LoadedModule;
  scripts : gmap (list Z) (LoadedScript NF) }.

Definition function_at (self : Loader) (idx : Z) : R (Function NF) := unwrap (self.(functions) !! Z.to_nat idx).
Definition get_module (self : Loader) (idx : ModuleId) : R LoadedModule := unwrap (self.(modules) !! idx).
Definition get_script (self : Loader) (hash : list Z) : R (LoadedScript NF) := unwrap (self.(scripts) !! hash).
End loader.
Arguments Loader : clear implicits.
End Loader.
Abbreviation Loader := Loader.Loader.

(** * The resolver *)

Module Resolver.
Section resolver.
Context {NF : Type}.
Abbreviation R := (result PartialVMError).

Inductive BinaryType : Type := Module_ (module : LoadedModule) | Script (script : LoadedScript NF).
Record Resolver : Type := mk { loader : Loader NF; binary : BinaryType }.

(** [Function::get_resolver] *)
Definition get_resolver (function : Function NF) (loader : Loader NF) : R Resolver :=
  match function.(Function.scope) with
  | Scope.Module_ module_id => module ← Loader.get_module loader module_id; Ok (mk loader (Module_ module))
  | Scope.Script script_hash => script ← Loader.get_script loader script_hash; Ok (mk loader (Script script))
  end.

(** [&v[idx as usize]] *)
Definition index {A} (v : list A) (idx : Z) : R A := unwrap (v !! Z.to_nat idx).

(** An index that the pool of constants does not have panics. *)
Definition constant_at (self : Resolver) (idx : ConstantPoolIndex) : R Constant :=
  match self.(binary) with
  | Module_ module => index module.(LoadedModule.module).(CompiledModule.constant_pool) idx
  | Script script => index script.(LoadedScript.script).(CompiledScript.constant_pool) idx
  end.

Definition function_from_handle (self : Resolver) (idx : FunctionHandleIndex) : R (Function NF) :=
  idx ← match self.(binary) with
        | Module_ module => index module.(LoadedModule.function_refs) idx
        | Script script => index script.(LoadedScript.function_refs) idx
        end;
  Loader.function_at self.(loader) idx.

Definition function_instantiation_at (self : Resolver) (idx : FunctionInstantiationIndex) :
    R LoadedModule.FunctionInstantiation :=
  match self.(binary) with
  | Module_ module => index module.(LoadedModule.function_instantiations) idx
  | Script script => index script.(LoadedScript.function_instantiations) idx
  end.

Definition function_from_instantiation (self : Resolver) (idx : FunctionInstantiationIndex) : R (Function NF) :=
  func_inst ← function_instantiation_at self idx;
  Loader.function_at self.(loader) func_inst.(LoadedModule.handle).

(** [iter().map(|ty| ty.subst(ty_args)).collect()] *)
Fixpoint subst_all (ty_args : list RuntimeType.Type_) (tys : list RuntimeType.Type_) : R (list RuntimeType.Type_) :=
  match tys with
  | [] => Ok []
  | ty :: tys => ty ← RuntimeType.subst ty ty_args; tys ← subst_all ty_args tys; Ok (ty :: tys)
  end.

Definition instantiate_generic_function (self : Resolver) (idx : FunctionInstantiationIndex)
    (type_params : list RuntimeType.Type_) : R (list RuntimeType.Type_) :=
  func_inst ← function_instantiation_at self idx; subst_all type_params func_inst.(LoadedModule.instantiation).

Definition type_params_count (self : Resolver) (idx : FunctionInstantiationIndex) : R Z :=
  func_inst ← function_instantiation_at self idx; Ok (zlen func_inst.(LoadedModule.instantiation)).

(** The module; scripts have no instructions with types or fields. *)
Definition own_module (self : Resolver) : R LoadedModule :=
  match self.(binary) with Module_ module => Ok module | Script _ => Panic end.

Definition get_struct_type (self : Resolver) (idx : StructDefinitionIndex) : R RuntimeType.Type_ :=
  module ← own_module self;
  struct_def ← index module.(LoadedModule.structs) idx;
  Ok (RuntimeType.Struct struct_def.(LoadedModule.idx)).

Definition instantiate_generic_type (self : Resolver) (idx : StructDefInstantiationIndex)
    (ty_args : list RuntimeType.Type_) : R RuntimeType.Type_ :=
  module ← own_module self;
  struct_inst ← index module.(LoadedModule.struct_instantiations) idx;
  tys ← subst_all ty_args struct_inst.(LoadedModule.struct_instantiation);
  Ok (RuntimeType.StructInstantiation struct_inst.(LoadedModule.def) tys).

Definition single_type_at (self : Resolver) (idx : SignatureIndex) : R RuntimeType.Type_ :=
  match self.(binary) with
  | Module_ module => unwrap (module.(LoadedModule.single_signature_token_map) !! idx)
  | Script script => unwrap (script.(LoadedScript.single_signature_token_map) !! idx)
  end.

Definition instantiate_single_type (self : Resolver) (idx : SignatureIndex) (ty_args : list RuntimeType.Type_) :
    R RuntimeType.Type_ :=
  ty ← single_type_at self idx; RuntimeType.subst ty ty_args.

Definition field_offset (self : Resolver) (idx : FieldHandleIndex) : R Z :=
  module ← own_module self; f ← index module.(LoadedModule.field_handles) idx; Ok f.(LoadedModule.offset).
Definition field_instantiation_offset (self : Resolver) (idx : FieldInstantiationIndex) : R Z :=
  module ← own_module self; f ← index module.(LoadedModule.field_instantiations) idx; Ok f.(LoadedModule.instance_offset).
Definition field_count (self : Resolver) (idx : StructDefinitionIndex) : R Z :=
  module ← own_module self; s ← index module.(LoadedModule.structs) idx; Ok s.(LoadedModule.field_count).
Definition field_instantiation_count (self : Resolver) (idx : StructDefInstantiationIndex) : R Z :=
  module ← own_module self;
  s ← index module.(LoadedModule.struct_instantiations) idx; Ok s.(LoadedModule.instance_field_count).
End resolver.
Arguments Resolver : clear implicits.
Arguments BinaryType : clear implicits.
End Resolver.
Abbreviation Resolver := Resolver.Resolver.

(** * The data store *)

(** The trait [DataStore], as far as the instructions use it.  [load_resource] returns a
    mutable reference to the slot of a resource: the value of the slot, which
    [set_resource] replaces. *)
Class DataStore (DS : Type) : Type := {
  load_resource : AccountAddress -> RuntimeType.Type_ -> ST (DS * Store) PartialVMError GlobalValue;
  set_resource : AccountAddress -> RuntimeType.Type_ -> GlobalValue -> DS -> DS }.

(** [NativeResult]: the cost, and the values or the code of an abort. *)
Record NativeResult : Type := mk_native_result { cost : Z; result_ : list Value + Z }.
