(* ===== verification/Interpreter.v ===== *)
(** The interpreter of the virtual machine: move-vm/runtime/src/interpreter.rs.

    The machine holds what the interpreter changes while it runs: the boxes of the values,
    the operand and the call stack, the gas status, the data store and the state of the
    extensions of native functions.  A value that goes out of scope is dropped where the
    source drops it.  After an error nothing is dropped, since an error ends the run.

    Parameters are the loader, which does not change during a run, what the native
    functions do (they see the machine and the resolver and can change the boxes, the data
    store and the extensions) and the deserialization of constants, which is that of bcs.
    Logging, tracing and core dumps are left out. *)
From stdpp Require Import gmap.
From S2P Require Import Prelude StatusCode Abilities Identifier FileFormat BinaryCommon Access Dependencies.
From S2P Require Import VmValues Runtime.

(** * Loops with fuel *)

(** A computation with loops that may not end: [None] if the fuel does not suffice. *)
Definition FT (S E A : Type) : Type := S -> option (result E (A * S)).

#[export] Instance FT_ret {S E} : MRet (FT S E) := fun A a s => Some (Ok (a, s)).
#[export] Instance FT_bind {S E} : MBind (FT S E) := fun A B f m s =>
  match m s with
  | Some (Ok (a, s')) => f a s'
  | Some (Err e) => Some (Err e)
  | Some Panic => Some Panic
  | Some OutOfFuel => Some OutOfFuel
  | None => None
  end.
Definition ft_lift {S E A} (m : ST S E A) : FT S E A := fun s => Some (m s).

(** [map_err(f)] *)
Definition err_map {E F A} (f : E -> F) (r : result E A) : result F A :=
  match r with
  | Ok a => Ok a
  | Err e => Err (f e)
  | Panic => Panic
  | OutOfFuel => OutOfFuel
  end.

(** * The machine *)

Module Frame.
Record Frame {NF : Type} : Type := mk {
  pc : Z;
  locals : loc;
  function : Function NF;
  ty_args : list RuntimeType.Type_ }.
Arguments Frame : clear implicits.

Definition new {NF} (function : Function NF) (ty_args : list RuntimeType.Type_) (locals : loc) : Frame NF :=
  mk NF 0 locals function ty_args.
Definition set_pc {NF} (self : Frame NF) (pc : Z) : Frame NF := mk NF pc self.(locals) self.(function) self.(ty_args).
Definition location {NF} (self : Frame NF) : Location :=
  match Function.module_id self.(function) with
  | None => Location.Script
  | Some id => Location.Module_ id
  end.
End Frame.
Abbreviation Frame := Frame.Frame.

(** An [ExitCode] from [execute_code]. *)
Inductive ExitCode : Set := Return | Call (idx : FunctionHandleIndex) | CallGeneric (idx : FunctionInstantiationIndex).

Module Machine.
Record Machine {NF DS Ext : Type} : Type := mk {
  heap : Store;
  operand_stack : list Value;
  call_stack : list (Frame NF);
  gas_status : GasStatus;
  data_store : DS;
  extensions : Ext }.
Arguments Machine : clear implicits.
Arguments mk {NF DS Ext}.
End Machine.
Abbreviation Machine := Machine.Machine.

(** What a run depends on. *)
Record Env (NF DS Ext : Type) : Type := mk_env {
  loader : Loader NF;
  call_native_function : NF -> Machine NF DS Ext -> Resolver NF -> list RuntimeType.Type_ -> list Value ->
    ST (Store * DS * Ext) PartialVMError NativeResult;
  deserialize_constant : Constant -> M (option Value) }.
Arguments loader {NF DS Ext}.
Arguments call_native_function {NF DS Ext}.
Arguments deserialize_constant {NF DS Ext}.

Definition OPERAND_STACK_SIZE_LIMIT : Z := 1024.
Definition CALL_STACK_SIZE_LIMIT : Z := 1024.

Module Interpreter.
Section interpreter.
Context {NF DS Ext : Type} `{!DataStore DS} (env : Env NF DS Ext).
Abbreviation X := (ST (Machine NF DS Ext) PartialVMError).

(** The parts of the machine. *)
Definition on_heap {A} (m : M A) : X A := fun s =>
  match m s.(Machine.heap) with
  | Ok (a, h) => Ok (a, Machine.mk h s.(Machine.operand_stack) s.(Machine.call_stack) s.(Machine.gas_status)
                          s.(Machine.data_store) s.(Machine.extensions))
  | Err e => Err e
  | Panic => Panic
  | OutOfFuel => OutOfFuel
  end.
Definition on_gas {A} (m : GasStatus.G A) : X A := fun s =>
  match m s.(Machine.gas_status) with
  | Ok (a, g) => Ok (a, Machine.mk s.(Machine.heap) s.(Machine.operand_stack) s.(Machine.call_stack) g
                          s.(Machine.data_store) s.(Machine.extensions))
  | Err e => Err e
  | Panic => Panic
  | OutOfFuel => OutOfFuel
  end.
Definition on_data {A} (m : ST (DS * Store) PartialVMError A) : X A := fun s =>
  match m (s.(Machine.data_store), s.(Machine.heap)) with
  | Ok (a, (d, h)) => Ok (a, Machine.mk h s.(Machine.operand_stack) s.(Machine.call_stack) s.(Machine.gas_status) d
                               s.(Machine.extensions))
  | Err e => Err e
  | Panic => Panic
  | OutOfFuel => OutOfFuel
  end.
Definition get_stack : X (list Value) := fun s => Ok (s.(Machine.operand_stack), s).
Definition put_stack (l : list Value) : X () := fun s =>
  Ok ((), Machine.mk s.(Machine.heap) l s.(Machine.call_stack) s.(Machine.gas_status) s.(Machine.data_store)
            s.(Machine.extensions)).

Definition charge_instr (opcode : Opcodes) : X () := on_gas (GasStatus.charge_instr opcode).
Definition charge_instr_with_size (opcode : Opcodes) (size : Z) : X () :=
  on_gas (GasStatus.charge_instr_with_size opcode size).

(** ** The operand stack; its top is the last element. *)

Definition push (value : Value) : X () :=
  stack ← get_stack;
  if zlen (stack : list Value) <? OPERAND_STACK_SIZE_LIMIT then put_stack (stack ++ [value])
  else st_err (vm_error EXECUTION_STACK_OVERFLOW).

Definition pop : X Value :=
  stack ← get_stack;
  match (stack : list Value) !! (length stack - 1)%nat with
  | Some value => put_stack (take (length stack - 1) stack);; mret value
  | None => st_err (vm_error EMPTY_VALUE_STACK)
  end.

Definition pop_as {T} (cast : Value -> M T) : X T := value ← pop; on_heap (cast value).

Definition popn (n : Z) : X (list Value) :=
  stack ← get_stack;
  let remaining_stack_size := zlen (stack : list Value) - n in
  if remaining_stack_size <? 0 then st_err (vm_error EMPTY_VALUE_STACK)
  else put_stack (take (Z.to_nat remaining_stack_size) stack);; mret (drop (Z.to_nat remaining_stack_size) stack).

(** [VMValueCast<IntegerValue>] *)
Definition cast_integer (v : Value) : M IntegerValue := st_lift (IntegerValue.cast v).

Definition binop {T} (cast : Value -> M T) (f : T -> T -> result PartialVMError Value) : X () :=
  rhs ← pop_as cast;
  lhs ← pop_as cast;
  result ← st_lift (f lhs rhs);
  push result.

Definition binop_int (f : IntegerValue -> IntegerValue -> result PartialVMError IntegerValue) : X () :=
  binop cast_integer (fun lhs rhs => x ← f lhs rhs; Ok (IntegerValue.into_value x)).

Definition binop_bool {T} (cast : Value -> M T) (f : T -> T -> result PartialVMError bool) : X () :=
  binop cast (fun lhs rhs => b ← f lhs rhs; Ok (ValueImpl.Bool b)).

(** ** Global storage *)

Definition borrow_global (addr : AccountAddress) (ty : RuntimeType.Type_) : X Z :=
  gv ← on_data (load_resource addr ty);
  g ← on_heap (GlobalValue.borrow_global gv);
  size ← on_heap (Size.size g);
  push g;;
  mret size.

Definition exists_ (addr : AccountAddress) (ty : RuntimeType.Type_) : X Z :=
  gv ← on_data (load_resource addr ty);
  let mem_size := Size.global_size gv in
  push (ValueImpl.Bool (GlobalValue.exists_ gv));;
  mret mem_size.

(** The assignment through the reference to the slot. *)
Definition set_slot (addr : AccountAddress) (ty : RuntimeType.Type_) (gv : GlobalValue) : X () :=
  on_data (fun '(d, h) => Ok ((), (set_resource addr ty gv d, h))).

Definition move_from (addr : AccountAddress) (ty : RuntimeType.Type_) : X Z :=
  gv ← on_data (load_resource addr ty);
  '(gv, resource) ← on_heap (GlobalValue.move_from gv);
  set_slot addr ty gv;;
  size ← on_heap (Size.size resource);
  push resource;;
  mret size.

Definition move_to (addr : AccountAddress) (ty : RuntimeType.Type_) (resource : Value) : X Z :=
  size ← on_heap (Size.size resource);
  gv ← on_data (load_resource addr ty);
  gv ← on_heap (GlobalValue.move_to gv resource);
  set_slot addr ty gv;;
  mret size.

(** The address of the signer that [MoveTo] gets a reference to. *)
Definition signer_address (signer_reference : ContainerRef) : X AccountAddress :=
  field ← on_heap (borrow_field signer_reference 0);
  reference ← on_heap (cast_reference field);
  value ← on_heap (ReferenceImpl_read_ref reference);
  on_heap (cast_value_address value).

(** ** Instructions *)

(** What happens after an instruction: on to the next, on at an offset, or out of the body. *)
Inductive Flow : Set := Next | Jump (offset : CodeOffset) | Exit (code : ExitCode).

Section instruction.
Context (resolver : Resolver NF) (self : Frame NF).

Definition instantiate_single_type (si : SignatureIndex) : X RuntimeType.Type_ :=
  st_lift (Resolver.instantiate_single_type resolver si self.(Frame.ty_args)).

(** [PackGeneric] and [Pack] *)
Definition execute_pack (opcode : Opcodes) (field_count : Z) : X () :=
  args ← popn field_count;
  size ← on_heap (Size.size_impl Size.size field_count args);
  charge_instr_with_size opcode size;;
  value ← on_heap (struct_ (pack args));
  push value.

(** [UnpackGeneric] and [Unpack] *)
Definition execute_unpack (opcode : Opcodes) (field_count : Z) : X () :=
  struct_ ← pop_as cast_struct;
  charge_instr_with_size opcode field_count;;
  values ← on_heap (unpack struct_);
  st_for values (fun value =>
    size ← on_heap (Size.size value);
    charge_instr_with_size opcode size;;
    push value).

(** The four instructions that borrow a field. *)
Definition execute_borrow_field (opcode : Opcodes) (offset : result PartialVMError Z) : X () :=
  charge_instr opcode;;
  reference ← pop_as cast_container_ref;
  offset ← st_lift offset;
  field_ref ← on_heap (borrow_field reference offset);
  push field_ref;;
  on_heap (drop_ref reference).

(** [Eq] and [Neq]: the values are compared after the charge and dropped at the end. *)
Definition execute_equality (opcode : Opcodes) (result_of : bool -> bool) : X () :=
  lhs ← pop;
  rhs ← pop;
  lhs_size ← on_heap (Size.size lhs);
  rhs_size ← on_heap (Size.size rhs);
  size ← st_lift (GasAlgebra.add lhs_size rhs_size);
  charge_instr_with_size opcode size;;
  b ← on_heap (equals lhs rhs);
  push (ValueImpl.Bool (result_of b));;
  on_heap (drop_value rhs);;
  on_heap (drop_value lhs).

(** The instructions on global storage, given the type of the resource. *)
Definition execute_borrow_global (opcode : Opcodes) (ty : result PartialVMError RuntimeType.Type_) : X () :=
  addr ← pop_as cast_value_address;
  ty ← st_lift ty;
  size ← borrow_global addr ty;
  charge_instr_with_size opcode size.
Definition execute_exists (opcode : Opcodes) (ty : result PartialVMError RuntimeType.Type_) : X () :=
  addr ← pop_as cast_value_address;
  ty ← st_lift ty;
  size ← exists_ addr ty;
  charge_instr_with_size opcode size.
Definition execute_move_from (opcode : Opcodes) (ty : result PartialVMError RuntimeType.Type_) : X () :=
  addr ← pop_as cast_value_address;
  ty ← st_lift ty;
  size ← move_from addr ty;
  charge_instr_with_size opcode size.
Definition execute_move_to (opcode : Opcodes) (ty : result PartialVMError RuntimeType.Type_) : X () :=
  resource ← pop;
  signer_reference ← pop_as cast_container_ref;
  addr ← signer_address signer_reference;
  ty ← st_lift ty;
  size ← move_to addr ty resource;
  charge_instr_with_size opcode size;;
  on_heap (drop_ref signer_reference).

(** [VecImmBorrow] and [VecMutBorrow] *)
Definition execute_vec_borrow (opcode : Opcodes) (si : SignatureIndex) : X () :=
  idx ← pop_as cast_value_u64;
  vec_ref ← pop_as cast_container_ref;
  charge_instr opcode;;
  ty ← instantiate_single_type si;
  value ← on_heap (VectorRef.borrow_elem vec_ref idx ty);
  push value;;
  on_heap (drop_ref vec_ref).

Definition execute_cast (opcode : Opcodes) (cast : IntegerValue -> result PartialVMError Value) : X () :=
  charge_instr opcode;;
  integer_value ← pop_as cast_integer;
  value ← st_lift (cast integer_value);
  push value.

(** [Shl] and [Shr] *)
Definition execute_shift (opcode : Opcodes) (shift : IntegerValue -> Z -> result PartialVMError IntegerValue) : X () :=
  charge_instr opcode;;
  rhs ← pop_as cast_value_u8;
  lhs ← pop_as cast_integer;
  value ← st_lift (shift lhs rhs);
  push (IntegerValue.into_value value).

Definition next (m : X ()) : X Flow := m;; mret Next.

(** The body of the loop of [execute_code_impl]. *)
Definition execute_instruction (instruction : Bytecode) : X Flow :=
  match instruction with
  | Bytecode.Pop => next (charge_instr Opcodes.POP;; value ← pop; on_heap (drop_value value))
  | Bytecode.Ret => charge_instr Opcodes.RET;; mret (Exit Return)
  | Bytecode.BrTrue offset =>
    charge_instr Opcodes.BR_TRUE;;
    b ← pop_as cast_value_bool;
    mret (if (b : bool) then Jump offset else Next)
  | Bytecode.BrFalse offset =>
    charge_instr Opcodes.BR_FALSE;;
    b ← pop_as cast_value_bool;
    mret (if negb (b : bool) then Jump offset else Next)
  | Bytecode.Branch offset => charge_instr Opcodes.BRANCH;; mret (Jump offset)
  | Bytecode.LdU8 int_const => next (charge_instr Opcodes.LD_U8;; push (ValueImpl.U8 int_const))
  | Bytecode.LdU64 int_const => next (charge_instr Opcodes.LD_U64;; push (ValueImpl.U64 int_const))
  | Bytecode.LdU128 int_const => next (charge_instr Opcodes.LD_U128;; push (ValueImpl.U128 int_const))
  | Bytecode.LdConst idx =>
    next (constant ← st_lift (Resolver.constant_at resolver idx);
          charge_instr_with_size Opcodes.LD_CONST (zlen constant.(Constant.data));;
          value ← on_heap (env.(deserialize_constant) constant);
          value ← st_lift (ok_or value (vm_error VERIFIER_INVARIANT_VIOLATION));
          push value)
  | Bytecode.LdTrue => next (charge_instr Opcodes.LD_TRUE;; push (ValueImpl.Bool true))
  | Bytecode.LdFalse => next (charge_instr Opcodes.LD_FALSE;; push (ValueImpl.Bool false))
  | Bytecode.CopyLoc idx =>
    next (local ← on_heap (Locals.copy_loc self.(Frame.locals) idx);
          size ← on_heap (Size.size local);
          charge_instr_with_size Opcodes.COPY_LOC size;;
          push local)
  | Bytecode.MoveLoc idx =>
    next (local ← on_heap (Locals.move_loc self.(Frame.locals) idx);
          size ← on_heap (Size.size local);
          charge_instr_with_size Opcodes.MOVE_LOC size;;
          push local)
  | Bytecode.StLoc idx =>
    next (value_to_store ← pop;
          size ← on_heap (Size.size value_to_store);
          charge_instr_with_size Opcodes.ST_LOC size;;
          on_heap (Locals.store_loc self.(Frame.locals) idx value_to_store))
  | Bytecode.Call idx => mret (Exit (Call idx))
  | Bytecode.CallGeneric idx => mret (Exit (CallGeneric idx))
  | Bytecode.MutBorrowLoc idx | Bytecode.ImmBorrowLoc idx =>
    let opcode := match instruction with
                  | Bytecode.MutBorrowLoc _ => Opcodes.MUT_BORROW_LOC
                  | _ => Opcodes.IMM_BORROW_LOC
                  end in
    next (charge_instr opcode;;
          value ← on_heap (Locals.borrow_loc self.(Frame.locals) idx);
          push value)
  | Bytecode.ImmBorrowField fh_idx | Bytecode.MutBorrowField fh_idx =>
    let opcode := match instruction with
                  | Bytecode.MutBorrowField _ => Opcodes.MUT_BORROW_FIELD
                  | _ => Opcodes.IMM_BORROW_FIELD
                  end in
    next (execute_borrow_field opcode (Resolver.field_offset resolver fh_idx))
  | Bytecode.ImmBorrowFieldGeneric fi_idx | Bytecode.MutBorrowFieldGeneric fi_idx =>
    let opcode := match instruction with
                  | Bytecode.MutBorrowField _ => Opcodes.MUT_BORROW_FIELD_GENERIC
                  | _ => Opcodes.IMM_BORROW_FIELD_GENERIC
                  end in
    next (execute_borrow_field opcode (Resolver.field_instantiation_offset resolver fi_idx))
  | Bytecode.Pack sd_idx =>
    next (field_count ← st_lift (Resolver.field_count resolver sd_idx); execute_pack Opcodes.PACK field_count)
  | Bytecode.PackGeneric si_idx =>
    next (field_count ← st_lift (Resolver.field_instantiation_count resolver si_idx);
          execute_pack Opcodes.PACK_GENERIC field_count)
  | Bytecode.Unpack sd_idx =>
    next (field_count ← st_lift (Resolver.field_count resolver sd_idx); execute_unpack Opcodes.UNPACK field_count)
  | Bytecode.UnpackGeneric si_idx =>
    next (field_count ← st_lift (Resolver.field_instantiation_count resolver si_idx);
          execute_unpack Opcodes.UNPACK_GENERIC field_count)
  | Bytecode.ReadRef =>
    next (reference ← pop_as cast_reference;
          value ← on_heap (ReferenceImpl_read_ref reference);
          size ← on_heap (Size.size value);
          charge_instr_with_size Opcodes.READ_REF size;;
          push value)
  | Bytecode.WriteRef =>
    next (reference ← pop_as cast_reference;
          value ← pop;
          size ← on_heap (Size.size value);
          charge_instr_with_size Opcodes.WRITE_REF size;;
          on_heap (ReferenceImpl_write_ref reference value))
  | Bytecode.CastU8 => next (execute_cast Opcodes.CAST_U8 (fun x => x ← IntegerValue.cast_u8 x; Ok (ValueImpl.U8 x)))
  | Bytecode.CastU64 => next (execute_cast Opcodes.CAST_U64 (fun x => x ← IntegerValue.cast_u64 x; Ok (ValueImpl.U64 x)))
  | Bytecode.CastU128 =>
    next (execute_cast Opcodes.CAST_U128 (fun x => x ← IntegerValue.cast_u128 x; Ok (ValueImpl.U128 x)))
  | Bytecode.Add => next (charge_instr Opcodes.ADD;; binop_int IntegerValue.add_checked)
  | Bytecode.Sub => next (charge_instr Opcodes.SUB;; binop_int IntegerValue.sub_checked)
  | Bytecode.Mul => next (charge_instr Opcodes.MUL;; binop_int IntegerValue.mul_checked)
  | Bytecode.Mod => next (charge_instr Opcodes.MOD;; binop_int IntegerValue.rem_checked)
  | Bytecode.Div => next (charge_instr Opcodes.DIV;; binop_int IntegerValue.div_checked)
  | Bytecode.BitOr => next (charge_instr Opcodes.BIT_OR;; binop_int IntegerValue.bit_or)
  | Bytecode.BitAnd => next (charge_instr Opcodes.BIT_AND;; binop_int IntegerValue.bit_and)
  | Bytecode.Xor => next (charge_instr Opcodes.XOR;; binop_int IntegerValue.bit_xor)
  | Bytecode.Shl => next (execute_shift Opcodes.SHL IntegerValue.shl_checked)
  | Bytecode.Shr => next (execute_shift Opcodes.SHR IntegerValue.shr_checked)
  | Bytecode.Or => next (charge_instr Opcodes.OR;; binop_bool cast_value_bool (fun l r => Ok (l || r)))
  | Bytecode.And => next (charge_instr Opcodes.AND;; binop_bool cast_value_bool (fun l r => Ok (l && r)))
  | Bytecode.Lt => next (charge_instr Opcodes.LT;; binop_bool cast_integer IntegerValue.lt)
  | Bytecode.Gt => next (charge_instr Opcodes.GT;; binop_bool cast_integer IntegerValue.gt)
  | Bytecode.Le => next (charge_instr Opcodes.LE;; binop_bool cast_integer IntegerValue.le)
  | Bytecode.Ge => next (charge_instr Opcodes.GE;; binop_bool cast_integer IntegerValue.ge)
  | Bytecode.Abort =>
    charge_instr Opcodes.ABORT;;
    error_code ← pop_as cast_value_u64;
    st_err (mk_error ABORTED (Some error_code))
  | Bytecode.Eq => next (execute_equality Opcodes.EQ (fun b => b))
  | Bytecode.Neq => next (execute_equality Opcodes.NEQ negb)
  | Bytecode.MutBorrowGlobal sd_idx | Bytecode.ImmBorrowGlobal sd_idx =>
    next (execute_borrow_global Opcodes.MUT_BORROW_GLOBAL (Resolver.get_struct_type resolver sd_idx))
  | Bytecode.MutBorrowGlobalGeneric si_idx | Bytecode.ImmBorrowGlobalGeneric si_idx =>
    next (execute_borrow_global Opcodes.MUT_BORROW_GLOBAL_GENERIC
            (Resolver.instantiate_generic_type resolver si_idx self.(Frame.ty_args)))
  | Bytecode.Exists sd_idx => next (execute_exists Opcodes.EXISTS (Resolver.get_struct_type resolver sd_idx))
  | Bytecode.ExistsGeneric si_idx =>
    next (execute_exists Opcodes.EXISTS_GENERIC (Resolver.instantiate_generic_type resolver si_idx self.(Frame.ty_args)))
  | Bytecode.MoveFrom sd_idx => next (execute_move_from Opcodes.MOVE_FROM (Resolver.get_struct_type resolver sd_idx))
  | Bytecode.MoveFromGeneric si_idx =>
    next (execute_move_from Opcodes.MOVE_FROM_GENERIC
            (Resolver.instantiate_generic_type resolver si_idx self.(Frame.ty_args)))
  | Bytecode.MoveTo sd_idx => next (execute_move_to Opcodes.MOVE_TO (Resolver.get_struct_type resolver sd_idx))
  | Bytecode.MoveToGeneric si_idx =>
    next (execute_move_to Opcodes.MOVE_TO_GENERIC
            (Resolver.instantiate_generic_type resolver si_idx self.(Frame.ty_args)))
  | Bytecode.FreezeRef => next (charge_instr Opcodes.FREEZE_REF)
  | Bytecode.Not =>
    next (charge_instr Opcodes.NOT;; value ← pop_as cast_value_bool; push (ValueImpl.Bool (negb value)))
  | Bytecode.Nop => next (charge_instr Opcodes.NOP)
  | Bytecode.VecPack si num =>
    next (elements ← popn (num mod 2 ^ 16);
          charge_instr_with_size Opcodes.VEC_PACK num;;
          ty ← instantiate_single_type si;
          value ← on_heap (Vector.pack ty elements);
          push value)
  | Bytecode.VecLen si =>
    next (vec_ref ← pop_as cast_container_ref;
          charge_instr Opcodes.VEC_LEN;;
          ty ← instantiate_single_type si;
          value ← on_heap (VectorRef.len vec_ref ty);
          push value;;
          on_heap (drop_ref vec_ref))
  | Bytecode.VecImmBorrow si => next (execute_vec_borrow Opcodes.VEC_IMM_BORROW si)
  | Bytecode.VecMutBorrow si => next (execute_vec_borrow Opcodes.VEC_MUT_BORROW si)
  | Bytecode.VecPushBack si =>
    next (elem ← pop;
          vec_ref ← pop_as cast_container_ref;
          size ← on_heap (Size.size elem);
          charge_instr_with_size Opcodes.VEC_PUSH_BACK size;;
          ty ← instantiate_single_type si;
          on_heap (VectorRef.push_back vec_ref elem ty);;
          on_heap (drop_ref vec_ref))
  | Bytecode.VecPopBack si =>
    next (vec_ref ← pop_as cast_container_ref;
          charge_instr Opcodes.VEC_POP_BACK;;
          ty ← instantiate_single_type si;
          value ← on_heap (VectorRef.pop vec_ref ty);
          push value;;
          on_heap (drop_ref vec_ref))
  | Bytecode.VecUnpack si num =>
    next (vec_val ← pop_as cast_container;
          charge_instr_with_size Opcodes.VEC_UNPACK num;;
          ty ← instantiate_single_type si;
          elements ← on_heap (Vector.unpack vec_val ty num);
          st_for elements push)
  | Bytecode.VecSwap si =>
    next (idx2 ← pop_as cast_value_u64;
          idx1 ← pop_as cast_value_u64;
          vec_ref ← pop_as cast_container_ref;
          charge_instr Opcodes.VEC_SWAP;;
          ty ← instantiate_single_type si;
          on_heap (VectorRef.swap vec_ref idx1 idx2 ty);;
          on_heap (drop_ref vec_ref))
  end.
End instruction.

(** ** The body of a function *)

(** [self.pc += 1] *)
Definition advance {E} (self : Frame NF) : result E (Frame NF) :=
  if in_range u16_max (self.(Frame.pc) + 1) then Ok (Frame.set_pc self (self.(Frame.pc) + 1)) else Panic.

(** The loop over the instructions from [self.pc] on: it ends with an exit code, or without
    at a branch or behind the last instruction. *)
Fixpoint execute_instructions (resolver : Resolver NF) (instrs : list Bytecode) (self : Frame NF) :
    X (Frame NF * option ExitCode) :=
  match instrs with
  | [] => mret (self, None)
  | instruction :: instrs =>
    flow ← execute_instruction resolver self instruction;
    match flow with
    | Exit code => mret (self, Some code)
    | Jump offset => mret (Frame.set_pc self offset, None)
    | Next => self ← st_lift (advance self); execute_instructions resolver instrs self
    end
  end.

(** The frame afterwards and the exit code.  [&code[self.pc as usize..]] panics if [self.pc]
    is behind the end. *)
Fixpoint execute_code_impl (fuel : nat) (resolver : Resolver NF) (self : Frame NF) :
    FT (Machine NF DS Ext) PartialVMError (Frame NF * ExitCode) :=
  match fuel with
  | O => fun _ => None
  | S fuel =>
    let code := self.(Frame.function).(Function.code) in
    if zlen code <? self.(Frame.pc) then ft_lift st_panic
    else
      '(self, exit) ← ft_lift (execute_instructions resolver (drop (Z.to_nat self.(Frame.pc)) code) self);
      match exit with
      | Some code => mret (self, code)
      | None =>
        if zlen code <=? self.(Frame.pc) then ft_lift (st_err (vm_error PC_OVERFLOW))
        else execute_code_impl fuel resolver self
      end
  end.

(** ** Errors *)

(** [CallStack::current_location] and [set_location] *)
Definition current_location (call_stack : list (Frame NF)) : Location :=
  match call_stack !! (length call_stack - 1)%nat with
  | Some frame => Frame.location frame
  | None => Location.Undefined
  end.
Definition set_location (call_stack : list (Frame NF)) (err : PartialVMError) : VMError :=
  VMError.finish (current_location call_stack) err.

(** A verification error during a run becomes an invariant violation. *)
Definition maybe_core_dump (err : VMError) : VMError :=
  match status_type err.(VMError.major_status) with
  | Verification => VMError.mk VERIFICATION_ERROR None err.(VMError.location)
  | _ => err
  end.

(** [set_err_info!] *)
Definition set_err_info (frame : Frame NF) (err : PartialVMError) : VMError := VMError.finish (Frame.location frame) err.

Abbreviation F := (FT (Machine NF DS Ext) VMError).

(** [m.map_err(f)?], where the error may need the call stack. *)
Definition attempt {A} (f : list (Frame NF) -> PartialVMError -> VMError) (m : X A) : F A := fun s =>
  Some (err_map (f s.(Machine.call_stack)) (m s)).

Definition execute_code (fuel : nat) (resolver : Resolver NF) (self : Frame NF) : F (Frame NF * ExitCode) := fun s =>
  option_map (err_map (set_err_info self)) (execute_code_impl fuel resolver self s).

(** ** Calls *)

Definition push_frame (frame : Frame NF) : F () := fun s =>
  if zlen s.(Machine.call_stack) <? CALL_STACK_SIZE_LIMIT
  then Some (Ok ((), Machine.mk s.(Machine.heap) s.(Machine.operand_stack) (s.(Machine.call_stack) ++ [frame])
                       s.(Machine.gas_status) s.(Machine.data_store) s.(Machine.extensions)))
  else Some (Err (maybe_core_dump (set_err_info frame (vm_error CALL_STACK_OVERFLOW)))).

Definition pop_frame : F (option (Frame NF)) := fun s =>
  let n := (length s.(Machine.call_stack) - 1)%nat in
  Some (Ok (s.(Machine.call_stack) !! n,
            Machine.mk s.(Machine.heap) s.(Machine.operand_stack) (take n s.(Machine.call_stack))
              s.(Machine.gas_status) s.(Machine.data_store) s.(Machine.extensions))).

(** The arguments are popped, the last one first, and stored in the first locals. *)
Definition make_call_frame (func : Function NF) (ty_args : list RuntimeType.Type_) : X (Frame NF) :=
  locals ← on_heap (Locals.new (Function.local_count func));
  let arg_count := Function.arg_count func in
  st_for (seqZ 0 arg_count) (fun i =>
    value ← pop;
    on_heap (Locals.store_loc locals (arg_count - i - 1) value));;
  mret (Frame.new func ty_args locals).

(** A native function runs on the boxes, the data store and the extensions. *)
Definition run_native (native_function : NF) (resolver : Resolver NF) (ty_args : list RuntimeType.Type_)
    (arguments : list Value) : X NativeResult := fun s =>
  match env.(call_native_function) native_function s resolver ty_args arguments
          (s.(Machine.heap), s.(Machine.data_store), s.(Machine.extensions)) with
  | Ok (r, (h, d, x)) => Ok (r, Machine.mk h s.(Machine.operand_stack) s.(Machine.call_stack) s.(Machine.gas_status) d x)
  | Err e => Err e
  | Panic => Panic
  | OutOfFuel => OutOfFuel
  end.

Definition call_native_impl (resolver : Resolver NF) (function : Function NF) (ty_args : list RuntimeType.Type_) : X () :=
  popped ← st_repeat (Z.to_nat (Function.arg_count function)) pop;
  let arguments := rev popped in
  native_function ← st_lift (Function.get_native function);
  result ← run_native native_function resolver ty_args arguments;
  on_gas (GasStatus.deduct result.(cost));;
  match result.(result_) with
  | inl return_values => st_for return_values push
  | inr code => st_err (mk_error ABORTED (Some code))
  end.

Definition call_native (resolver : Resolver NF) (function : Function NF) (ty_args : list RuntimeType.Type_) : F () :=
  attempt (fun call_stack e =>
    match Function.module_id function with
    | Some id => VMError.finish (Location.Module_ id) e
    | None => set_location call_stack (vm_error UNKNOWN_INVARIANT_VIOLATION_ERROR)
    end) (call_native_impl resolver function ty_args).

(** What [Call] and [CallGeneric] do with the function and its type arguments: the frame
    that runs next. *)
Definition enter (resolver : Resolver NF) (current_frame : Frame NF) (func : Function NF)
    (ty_args : list RuntimeType.Type_) : F (Frame NF) :=
  if Function.is_native func
  then call_native resolver func ty_args;; ft_lift (st_lift (advance current_frame))
  else
    frame ← attempt (fun call_stack e => maybe_core_dump (set_location call_stack e)) (make_call_frame func ty_args);
    push_frame current_frame;;
    mret frame.

Definition execute_call (resolver : Resolver NF) (current_frame : Frame NF) (fh_idx : FunctionHandleIndex) : F (Frame NF) :=
  let on_err := fun (_ : list (Frame NF)) => set_err_info current_frame in
  attempt on_err (charge_instr_with_size Opcodes.CALL 1);;
  func ← attempt on_err (st_lift (Resolver.function_from_handle resolver fh_idx));
  attempt on_err (charge_instr_with_size Opcodes.CALL (Function.arg_count func));;
  enter resolver current_frame func [].

Definition execute_call_generic (resolver : Resolver NF) (current_frame : Frame NF) (idx : FunctionInstantiationIndex) :
    F (Frame NF) :=
  let on_err := fun (_ : list (Frame NF)) => set_err_info current_frame in
  arity ← attempt on_err (st_lift (Resolver.type_params_count resolver idx));
  attempt on_err (charge_instr_with_size Opcodes.CALL_GENERIC (arity + 1));;
  ty_args ← attempt on_err (st_lift (Resolver.instantiate_generic_function resolver idx current_frame.(Frame.ty_args)));
  func ← attempt on_err (st_lift (Resolver.function_from_instantiation resolver idx));
  attempt on_err (charge_instr_with_size Opcodes.CALL_GENERIC (Function.arg_count func));;
  enter resolver current_frame func ty_args.

(** What [execute_main] does with an exit code: the frame that runs next, or none at the end.
    The frame that returns is dropped with its locals. *)
Definition handle_exit (resolver : Resolver NF) (current_frame : Frame NF) (exit_code : ExitCode) : F (option (Frame NF)) :=
  match exit_code with
  | Return =>
    caller ← pop_frame;
    attempt (fun _ => set_err_info current_frame) (on_heap (drop_locs [current_frame.(Frame.locals)]));;
    match caller with
    | Some frame => frame ← ft_lift (st_lift (advance frame)); mret (Some frame)
    | None => mret None
    end
  | Call fh_idx => frame ← execute_call resolver current_frame fh_idx; mret (Some frame)
  | CallGeneric idx => frame ← execute_call_generic resolver current_frame idx; mret (Some frame)
  end.

(** One round of the loop of [execute_main]. *)
Definition execute_round (fuel : nat) (current_frame : Frame NF) : F (option (Frame NF)) :=
  resolver ← ft_lift (st_lift (err_map (set_err_info current_frame)
                        (Resolver.get_resolver current_frame.(Frame.function) env.(loader))));
  '(current_frame, exit_code) ←
    (fun s => option_map (err_map maybe_core_dump) (execute_code fuel resolver current_frame s));
  handle_exit resolver current_frame exit_code.

Fixpoint execute_frames (fuel : nat) (current_frame : Frame NF) : F (list Value) :=
  match fuel with
  | O => fun _ => None
  | S fuel =>
    next ← execute_round (S fuel) current_frame;
    match next with
    | Some frame => execute_frames fuel frame
    | None => ft_lift (fun s => Ok (s.(Machine.operand_stack),
                 Machine.mk s.(Machine.heap) [] s.(Machine.call_stack) s.(Machine.gas_status) s.(Machine.data_store)
                   s.(Machine.extensions)))
    end
  end.

(** [store_loc] of the arguments, in order. *)
Fixpoint store_args (locals : loc) (i : Z) (args : list Value) : M () :=
  match args with
  | [] => mret ()
  | value :: args => Locals.store_loc locals i value;; store_args locals (i + 1) args
  end.

(** The locals of the function, with the arguments in the first ones. *)
Definition setup_locals (function : Function NF) (args : list Value) : M loc :=
  locals ← Locals.new (Function.local_count function); store_args locals 0 args;; mret locals.

Definition execute_main (fuel : nat) (function : Function NF) (ty_args : list RuntimeType.Type_) (args : list Value) :
    F (list Value) :=
  locals ← attempt set_location (on_heap (setup_locals function args));
  execute_frames fuel (Frame.new function ty_args locals).

(** [Interpreter::entrypoint]: a new interpreter, with the stacks empty. *)
Definition entrypoint (fuel : nat) (function : Function NF) (ty_args : list RuntimeType.Type_) (args : list Value)
    (heap : Store) (data_store : DS) (gas_status : GasStatus) (extensions : Ext) :
    option (result VMError (list Value * Machine NF DS Ext)) :=
  execute_main fuel function ty_args args (Machine.mk heap [] [] gas_status data_store extensions).
End interpreter.
End Interpreter.
