(* ===== verification/InterpreterFacts.v ===== *)
(** The operations of the interpreter, one by one: what they take from the gas, what they
    do to the operand stack, and which errors they report. *)
From stdpp Require Import gmap.
From S2P Require Import Prelude StatusCode Abilities Identifier FileFormat BinaryCommon Access Dependencies.
From S2P Require Import StackUsage VmValues Runtime Interpreter.
Import Interpreter.

(** A read that succeeds. *)
Lemma st_lift_ok {S E A} (r : result E A) (s : S) a s' : st_lift r s = Ok (a, s') <-> r = Ok a /\ s' = s.
Proof. unfold st_lift. destruct r; naive_solver. Qed.

(** * Gas *)

Create HintDb gas.

Section gas.
Context {NF DS Ext : Type} `{!DataStore DS} (env : Env NF DS Ext) (table : CostTable).
Abbreviation Mach := (Machine NF DS Ext).
Abbreviation X := (ST Mach PartialVMError).

(** Every cost in the table is at least 1. *)
Definition positive_costs : Prop :=
  forall opcode cost, (CostTable.instruction_cost table (Opcodes.as_u8 opcode) ≫= GasCost.total) = Ok cost -> 1 <= cost.

(** Native functions report costs that are not negative. *)
Definition native_costs_ok : Prop :=
  forall nf (s : Mach) r ty_args args w res w', env.(call_native_function) nf s r ty_args args w = Ok (res, w') -> 0 <= res.(cost).

Abbreviation gas s := (s.(Machine.gas_status).(GasStatus.gas_left)).

(** Metering is on, with the table. *)
Definition metered (s : Mach) : Prop :=
  s.(Machine.gas_status).(GasStatus.charge) = true /\ s.(Machine.gas_status).(GasStatus.cost_table) = table /\ 0 <= gas s.

(** A successful run uses at least [n], and leaves the call stack alone. *)
Definition uses {E A} (n : Z) (m : ST Mach E A) : Prop :=
  forall s a s', metered s -> m s = Ok (a, s') ->
  metered s' /\ gas s' + n <= gas s /\ s'.(Machine.call_stack) = s.(Machine.call_stack).

Lemma uses_ret {E A} (a : A) : uses (E := E) 0 (mret a).
Proof. intros s ? s' Hs [= <- <-]. split_and!; [done|lia|done]. Qed.
Lemma uses_err {E A} n (e : E) : uses (A := A) n (st_err e).
Proof. by intros s ? s' _ [=]. Qed.
Lemma uses_lift {E A} (r : result E A) : uses 0 (st_lift r).
Proof. intros s ? s' Hs H. unfold st_lift in H. destruct r; simplify_eq. split_and!; [done|lia|done]. Qed.
Lemma uses_bind {E A B} n k (m : ST Mach E A) (f : A -> ST Mach E B) :
  uses n m -> (forall a, uses k (f a)) -> uses (n + k) (m ≫= f).
Proof.
  intros Hm Hf s b s' Hs (a & s1 & H1 & H2)%st_bind_ok.
  destruct (Hm s a s1 Hs H1) as (Hs1 & ? & C). destruct (Hf a s1 b s' Hs1 H2) as (? & ? & C').
  split_and!; [done|lia|by rewrite C'].
Qed.
Lemma uses_seq {E A B} (m : ST Mach E A) (f : A -> ST Mach E B) :
  uses 0 m -> (forall a, uses 0 (f a)) -> uses 0 (m ≫= f).
Proof. apply (uses_bind 0 0). Qed.
Lemma pays_first {E A B} (m : ST Mach E A) (f : A -> ST Mach E B) :
  uses 1 m -> (forall a, uses 0 (f a)) -> uses 1 (m ≫= f).
Proof. apply (uses_bind 1 0). Qed.
Lemma pays_later {E A B} (m : ST Mach E A) (f : A -> ST Mach E B) :
  uses 0 m -> (forall a, uses 1 (f a)) -> uses 1 (m ≫= f).
Proof. apply (uses_bind 0 1). Qed.
Lemma uses_less {E A} (m : ST Mach E A) : uses 1 m -> uses 0 m.
Proof. intros H s a s' Hs E'. destruct (H s a s' Hs E') as (? & ? & ?). split_and!; [done|lia|done]. Qed.

Lemma uses_heap {A} (m : M A) : uses 0 (on_heap m : X A).
Proof. intros s a s' Hs H. unfold on_heap in H. destruct (m _) as [[? ?]| | |]; simplify_eq. split_and!; [exact Hs|simpl; lia|done]. Qed.
Lemma uses_data {A} (m : ST (DS * Store) PartialVMError A) : uses 0 (on_data m : X A).
Proof. intros s a s' Hs H. unfold on_data in H. destruct (m _) as [[? [? ?]]| | |]; simplify_eq. split_and!; [exact Hs|simpl; lia|done]. Qed.
Lemma uses_push v : uses 0 (push v : X ()).
Proof. intros s a s' Hs H. unfold push in H. inv_ok. unfold get_stack in *. simplify_eq. destruct (_ <? _); [|done].
  unfold put_stack in *. simplify_eq. split_and!; [exact Hs|simpl; lia|done]. Qed.
Lemma uses_pop : uses 0 (pop : X Value).
Proof. intros s a s' Hs H. unfold pop in H. inv_ok. unfold get_stack in *. simplify_eq.
  destruct (_ !! _); [|done]. inv_ok. unfold put_stack in *. simplify_eq. split_and!; [exact Hs|simpl; lia|done]. Qed.
Lemma uses_popn n : uses 0 (popn n : X (list Value)).
Proof. intros s a s' Hs H. unfold popn in H. inv_ok. unfold get_stack in *. simplify_eq.
  destruct (_ <? _); [done|]. inv_ok. unfold put_stack in *. simplify_eq. split_and!; [exact Hs|simpl; lia|done]. Qed.

Lemma uses_deduct amount : 0 <= amount -> uses amount (on_gas (GasStatus.deduct amount) : X ()).
Proof.
  intros Ha s a s' (Hc & Ht & Hg) H. unfold on_gas, GasStatus.deduct, GasStatus.deduct_gas in H. rewrite Hc in H. simpl in H.
  destruct (Z.leb_spec amount (gas s)); simplify_eq. unfold metered. simpl. split_and!; [done|done|lia|lia|done].
Qed.

Hypothesis Hpos : positive_costs.

Lemma cost_positive g opcode (c : Z) (g' : GasStatus) :
  g.(GasStatus.cost_table) = table -> st_lift (GasStatus.cost_of g opcode) g = Ok (c, g') -> 1 <= c /\ g' = g.
Proof.
  intros Ht [Hc ->]%st_lift_ok. split; [|done]. unfold GasStatus.cost_of in Hc. rewrite Ht in Hc. by eapply Hpos.
Qed.

(** A charge is a deduction of at least 1. *)
Lemma pays_deduction (m : GasStatus.G ()) :
  (forall g g', g.(GasStatus.cost_table) = table -> m g = Ok ((), g') ->
     exists amount, 1 <= amount /\ GasStatus.deduct amount g = Ok ((), g')) ->
  uses 1 (on_gas m : X ()).
Proof.
  intros Hm s [] s' Hs H. unfold on_gas in H. destruct (m _) as [[[] g]| | |] eqn:E; simplify_eq.
  destruct (Hm _ _ (proj1 (proj2 Hs)) E) as (n & Hn & Hd).
  destruct (uses_deduct n ltac:(lia) s ()
    (Machine.mk s.(Machine.heap) s.(Machine.operand_stack) s.(Machine.call_stack) g s.(Machine.data_store) s.(Machine.extensions)) Hs)
    as (? & ? & ?); [unfold on_gas; by rewrite Hd|]. split_and!; [done|lia|done].
Qed.

Lemma pays_charge_with_size opcode size : uses 1 (charge_instr_with_size opcode size : X ()).
Proof.
  apply pays_deduction. intros g g' Ht H. unfold GasStatus.charge_instr_with_size in H.
  apply st_bind_ok in H as (c & g1 & Hc & H). apply cost_positive in Hc as [Hc ->]; [|done].
  apply st_bind_ok in H as (x & g1 & [Hx ->]%st_lift_ok & H). exists x. split; [|done].
  unfold GasAlgebra.mul, GasAlgebra.checked in Hx. destruct (in_range _ _); simplify_eq. nia.
Qed.
Lemma pays_charge opcode : uses 1 (charge_instr opcode : X ()).
Proof.
  apply pays_deduction. intros g g' Ht H. unfold GasStatus.charge_instr in H.
  apply st_bind_ok in H as (c & g1 & Hc & H). apply cost_positive in Hc as [Hc ->]; [|done]. by exists c.
Qed.

Lemma uses_for {E A} (l : list A) (f : A -> ST Mach E ()) : (forall x, uses 0 (f x)) -> uses 0 (st_for l f).
Proof. intros Hf. induction l; [apply uses_ret|]. by apply uses_seq. Qed.
Lemma uses_repeat {E A} n (m : ST Mach E A) : uses 0 m -> uses 0 (st_repeat n m).
Proof. intros Hm. induction n; [apply uses_ret|]. apply uses_seq; [done|intros ?]. apply uses_seq; [done|intros ?]. apply uses_ret. Qed.

(** An instruction that does not call uses gas; a call is charged when the frame is made. *)
Definition exit_cost (flow : Flow) : Z :=
  match flow with Exit (Call _) | Exit (CallGeneric _) => 0 | _ => 1 end.
End gas.

#[export] Hint Resolve uses_ret uses_err uses_lift uses_heap uses_data uses_push uses_pop uses_popn uses_for : gas.
#[export] Hint Resolve uses_seq pays_charge pays_charge_with_size | 1 : gas.
#[export] Hint Resolve pays_first | 2 : gas.
#[export] Hint Resolve pays_later | 3 : gas.
#[export] Hint Resolve uses_less | 5 : gas.
#[export] Hint Extern 1 (uses _ _ (match ?x with _ => _ end)) => destruct x : gas.

Section instructions.
Context {NF DS Ext : Type} `{!DataStore DS} (env : Env NF DS Ext) (table : CostTable) (Hpos : positive_costs table).

Definition is_call (b : Bytecode) : bool := match b with Bytecode.Call _ | Bytecode.CallGeneric _ => true | _ => false end.

Lemma instruction_pays r f b : is_call b = false -> uses table 1 (execute_instruction env r f b).
Proof using Hpos.
  intros Hb. destruct b; try done; cbn [execute_instruction];
    unfold next, pop_as, execute_pack, execute_unpack, execute_borrow_field, execute_equality, execute_borrow_global,
      execute_exists, execute_move_from, execute_move_to, execute_vec_borrow, execute_cast, execute_shift, binop_int,
      binop_bool, binop, borrow_global, exists_, set_slot, move_from, move_to, signer_address, instantiate_single_type.
  all: eauto 40 with gas.
Qed.

Abbreviation gas s := (s.(Machine.gas_status).(GasStatus.gas_left)).

(** What a body has used when it stops: a return or a branch is charged, a call is not yet. *)
Lemma instructions_gas r instrs (f : Frame NF) s f' exit s' :
  metered table s -> execute_instructions env r instrs f s = Ok ((f', exit), s') ->
  metered table s' /\ f'.(Frame.function) = f.(Frame.function) /\
  gas s' + match exit with Some (Call _) | Some (CallGeneric _) => 0 | Some Return => 1 | None => if instrs is [] then 0 else 1 end <= gas s.
Proof using Hpos.
  revert f s. induction instrs as [|b instrs IH]; intros f s Hs H; cbn [execute_instructions] in H.
  { inv_ok. simplify_eq. split_and!; [done|done|lia]. }
  apply st_bind_ok in H as (flow & s1 & Hb & H). destruct (is_call b) eqn:Ec.
  { destruct b; try done; injection Hb as <- <-; inv_ok; simplify_eq; (split_and!; [done|done|lia]). }
  destruct (instruction_pays r f b Ec s flow s1 Hs Hb) as (Hs1 & Hg1 & _). destruct flow as [|offset|code].
  - apply st_bind_ok in H as (f1 & s2 & [Hf1 ->]%st_lift_ok & H). destruct (IH _ _ Hs1 H) as (Hs' & Hf & Hg).
    split; [done|]. unfold advance in Hf1. destruct (in_range _ _); simplify_eq. split; [done|].
    destruct exit as [[]|]; [lia..|]. destruct instrs; lia.
  - inv_ok. simplify_eq. split_and!; [done|done|lia].
  - inv_ok. simplify_eq. split_and!; [done|done|]. destruct code; lia.
Qed.

(** A successful computation with loops uses at least [n]. *)
Definition fuses {E A} (n : Z) (m : FT (Machine NF DS Ext) E A) : Prop :=
  forall s a s', metered table s -> m s = Some (Ok (a, s')) -> metered table s' /\ gas s' + n <= gas s.

Lemma fuses_ret {E A} (a : A) : fuses (E := E) 0 (mret a).
Proof. intros s ? s' Hs [= <- <-]. split; [done|lia]. Qed.
Lemma fuses_bind {E A B} n k (m : FT (Machine NF DS Ext) E A) (f : A -> FT (Machine NF DS Ext) E B) :
  fuses n m -> (forall a, fuses k (f a)) -> fuses (n + k) (m ≫= f).
Proof.
  intros Hm Hf s b s' Hs H. unfold mbind, FT_bind in H. destruct (m s) as [[[a s1]| | |]|] eqn:E1; simplify_eq.
  destruct (Hm s a s1 Hs E1) as [Hs1 ?]. destruct (Hf a s1 b s' Hs1 H). split; [done|lia].
Qed.
Lemma fuses_lift {E A} n (m : ST (Machine NF DS Ext) E A) : uses table n m -> fuses n (ft_lift m).
Proof. intros Hm s a s' Hs [= H]. by destruct (Hm s a s' Hs H) as (? & ? & _). Qed.
Lemma fuses_attempt {A} n g (m : ST (Machine NF DS Ext) PartialVMError A) : uses table n m -> fuses n (attempt g m).
Proof. intros Hm s a s' Hs H. unfold attempt, err_map in H. destruct (m s) as [[? ?]| | |] eqn:E; simplify_eq. by destruct (Hm _ _ _ Hs E) as (? & ? & _). Qed.
Lemma fuses_pop_frame : fuses 0 (pop_frame : FT (Machine NF DS Ext) VMError _).
Proof. intros s a s' Hs [= <- <-]. split; [exact Hs|simpl; lia]. Qed.
Lemma fuses_push_frame f : fuses 0 (push_frame f : FT (Machine NF DS Ext) VMError _).
Proof. intros s a s' Hs H. unfold push_frame in H. destruct (_ <? _); simplify_eq. split; [exact Hs|simpl; lia]. Qed.
End instructions.

#[export] Hint Resolve fuses_ret fuses_lift fuses_attempt fuses_pop_frame fuses_push_frame : gas.
#[export] Hint Extern 1 (fuses _ _ (match ?x with _ => _ end)) => destruct x : gas.

Section calls.
Context {NF DS Ext : Type} `{!DataStore DS} (env : Env NF DS Ext) (table : CostTable) (Hpos : positive_costs table).
Context (Hnative : native_costs_ok env).
Abbreviation gas s := (s.(Machine.gas_status).(GasStatus.gas_left)).
Abbreviation F := (FT (Machine NF DS Ext) VMError).

Lemma fuses_seq {A B} (m : F A) (f : A -> F B) : fuses table 0 m -> (forall a, fuses table 0 (f a)) -> fuses table 0 (m ≫= f).
Proof. apply (fuses_bind table 0 0). Qed.
Lemma fpays_first {A B} (m : F A) (f : A -> F B) : fuses table 1 m -> (forall a, fuses table 0 (f a)) -> fuses table 1 (m ≫= f).
Proof. apply (fuses_bind table 1 0). Qed.
Lemma fpays_later {A B} (m : F A) (f : A -> F B) : fuses table 0 m -> (forall a, fuses table 1 (f a)) -> fuses table 1 (m ≫= f).
Proof. apply (fuses_bind table 0 1). Qed.

Lemma uses_run_native nf r ty_args args s (res : NativeResult) s' :
  metered table s -> run_native env nf r ty_args args s = Ok (res, s') -> metered table s' /\ gas s' <= gas s /\ 0 <= res.(cost) /\
  s'.(Machine.call_stack) = s.(Machine.call_stack).
Proof using Hnative.
  intros Hs H. unfold run_native in H. destruct (call_native_function _ _ _ _ _ _ _) as [[? [[? ?] ?]]| | |] eqn:E; simplify_eq.
  apply Hnative in E. split_and!; [exact Hs|simpl; lia|done|done].
Qed.

Lemma uses_native_impl r f ty_args : uses table 0 (call_native_impl env r f ty_args).
Proof using Hnative.
  unfold call_native_impl. apply uses_seq; [apply uses_repeat, uses_pop|intros args].
  apply uses_seq; [apply uses_lift|intros nf]. intros s [] s' Hs H.
  apply st_bind_ok in H as (res & s1 & (Hs1 & Hg1 & Hc & C1)%uses_run_native & H); [|done].
  apply st_bind_ok in H as ([] & s2 & Hd & H). destruct (uses_deduct table _ Hc _ _ _ Hs1 Hd) as (Hs2 & Hg2 & C2).
  destruct (result_ res) as [vs|code]; [|done].
  destruct (uses_for table vs push (uses_push table) _ _ _ Hs2 H) as (? & ? & C3). split_and!; [done|lia|congruence].
Qed.

Lemma fuses_enter r f g ty_args : fuses table 0 (enter env r f g ty_args).
Proof using Hnative.
  unfold enter, call_native, make_call_frame. destruct (Function.is_native g).
  - apply fuses_seq; [apply fuses_attempt, uses_native_impl|eauto with gas].
  - apply fuses_seq; [apply fuses_attempt|intros ?; apply fuses_seq; eauto with gas]. eauto 10 with gas.
Qed.

Lemma fpays_call r f idx : fuses table 1 (execute_call env r f idx).
Proof using Hpos Hnative.
  unfold execute_call. apply fpays_first; [eauto with gas|intros _].
  apply fuses_seq; [eauto with gas|intros g]. apply fuses_seq; [eauto with gas|intros _]. apply fuses_enter.
Qed.
Lemma fpays_call_generic r f idx : fuses table 1 (execute_call_generic env r f idx).
Proof using Hpos Hnative.
  unfold execute_call_generic. apply fpays_later; [eauto with gas|intros arity]. apply fpays_first; [eauto with gas|intros _].
  apply fuses_seq; [eauto with gas|intros tys]. apply fuses_seq; [eauto with gas|intros g].
  apply fuses_seq; [eauto with gas|intros _]. apply fuses_enter.
Qed.

(** With more fuel than gas the loop over the body ends. *)
Lemma code_gas fuel r f s :
  metered table s -> gas s < Z.of_nat fuel -> 0 <= f.(Frame.pc) \/ f.(Frame.function).(Function.code) <> [] ->
  match execute_code_impl env fuel r f s with
  | Some (Ok ((f', exit), s')) => metered table s' /\ gas s' + (if exit is Return then 1 else 0) <= gas s
  | Some _ => True
  | None => False
  end.
Proof using Hpos.
  revert f s. induction fuel as [|fuel IH]; intros f s Hs Hg Hf; [destruct Hs as (_ & _ & ?); lia|].
  cbn [execute_code_impl]. set (code := f.(Frame.function).(Function.code)) in *. destruct (Z.ltb_spec (zlen code) f.(Frame.pc)); [done|].
  unfold mbind, FT_bind, ft_lift. destruct (execute_instructions env r _ f s) as [[[f1 exit] s1]| | |] eqn:E; try done.
  destruct (instructions_gas env table Hpos r _ f s f1 exit s1 Hs E) as (Hs1 & Hf1 & Hg1).
  destruct exit as [exit|]; [destruct exit; simpl; split; (done || lia)|].
  destruct (Z.leb_spec (zlen code) f1.(Frame.pc)) as [|Hpc]; [done|].
  destruct (drop (Z.to_nat f.(Frame.pc)) code) as [|b instrs] eqn:Ed.
  { exfalso. simpl in E. inv_ok. simplify_eq. assert (length (drop (Z.to_nat (Frame.pc f1)) code) = 0%nat) as El by by rewrite Ed.
    rewrite length_drop in El. destruct Hf as [?|Hne]; [lia|]. destruct code; [done|simpl in *; lia]. }
  specialize (IH f1 s1 Hs1 ltac:(lia)). rewrite Hf1 in IH.
  assert (0 <= Frame.pc f1 ∨ Function.code (Frame.function f) ≠ []) as Hne.
  { right. intros E0. change (code = []) in E0. rewrite E0, drop_nil in Ed. done. }
  specialize (IH Hne). destruct (execute_code_impl env fuel r f1 s1) as [[[[f2 exit] s2]| | |]|]; try done.
  destruct IH as [? ?]. split; [done|lia].
Qed.

(** Computations without loops do not run out of fuel. *)
Definition total {A} (m : F A) : Prop := forall s, m s <> None.
Definition returns {A} (P : A -> Prop) (m : F A) : Prop := forall s a s', m s = Some (Ok (a, s')) -> P a.

Lemma total_ft_lift {A} (m : ST (Machine NF DS Ext) VMError A) : total (ft_lift m).
Proof. done. Qed.
Lemma total_attempt {A} g (m : ST (Machine NF DS Ext) PartialVMError A) : total (attempt g m).
Proof. done. Qed.
Lemma total_ft_ret {A} (a : A) : total (mret a).
Proof. done. Qed.
Lemma total_ft_bind {A B} (m : F A) (f : A -> F B) : total m -> (forall a, total (f a)) -> total (m ≫= f).
Proof. intros Hm Hf s. unfold mbind, FT_bind. specialize (Hm s). destruct (m s) as [[[a s1]| | |]|]; try done. apply Hf. Qed.
Lemma total_push_frame f : total (push_frame f).
Proof. intros s. unfold push_frame. by destruct (_ <? _). Qed.
Lemma total_pop_frame : total pop_frame.
Proof. done. Qed.
Lemma returns_ft_bind {A B} P (m : F A) (f : A -> F B) : (forall a, returns P (f a)) -> returns P (m ≫= f).
Proof. intros Hf s b s' H. unfold mbind, FT_bind in H. destruct (m s) as [[[a s1]| | |]|]; simplify_eq. by eapply Hf. Qed.

Hint Resolve total_ft_lift total_attempt total_ft_ret total_ft_bind total_push_frame total_pop_frame : gas.
Hint Extern 1 (total (match ?x with _ => _ end)) => destruct x : gas.

Lemma total_enter r f g ty_args : total (enter env r f g ty_args).
Proof. unfold enter, call_native. eauto 10 with gas. Qed.
Hint Resolve total_enter : gas.
Lemma total_handle_exit r f exit : total (handle_exit env r f exit).
Proof. unfold handle_exit, execute_call, execute_call_generic. destruct exit; eauto 20 with gas. Qed.

Lemma advance_nonneg (f : Frame NF) : returns (fun f' => 0 <= f'.(Frame.pc)) (ft_lift (st_lift (advance f))).
Proof.
  intros s f' s' [= [H ->]%st_lift_ok]. unfold advance in H. destruct (in_range _ _) eqn:E; simplify_eq.
  apply in_range_spec in E. simpl. lia.
Qed.
Lemma make_frame_nonneg g ty_args h : returns (fun f' => 0 <= f'.(Frame.pc)) (attempt h (make_call_frame g ty_args)).
Proof.
  intros s f' s' H. unfold attempt, err_map in H. destruct (make_call_frame _ _ _) as [[? ?]| | |] eqn:E; simplify_eq.
  unfold make_call_frame in E. inv_ok. done.
Qed.
Lemma enter_nonneg r f g ty_args : returns (fun f' => 0 <= f'.(Frame.pc)) (enter env r f g ty_args).
Proof.
  unfold enter. destruct (Function.is_native g); [apply returns_ft_bind; intros; apply advance_nonneg|].
  intros s f' s' H. unfold mbind, FT_bind in H. destruct (attempt _ _ s) as [[[f1 s1]| | |]|] eqn:E; simplify_eq.
  apply make_frame_nonneg in E. destruct (push_frame f s1) as [[[[] s2]| | |]|]; simplify_eq. by injection H as <- <-.
Qed.

Lemma handle_exit_nonneg r f exit :
  returns (fun o => forall f', o = Some f' -> 0 <= f'.(Frame.pc)) (handle_exit env r f exit).
Proof.
  assert (forall m : F (Frame NF), returns (fun f' => 0 <= f'.(Frame.pc)) m ->
    returns (fun o => forall f', o = Some f' -> 0 <= f'.(Frame.pc)) (frame ← m; mret (Some frame))) as Hsome.
  { intros m Hm s o s' H f' ->. unfold mbind, FT_bind in H. destruct (m s) as [[[f1 s1]| | |]|] eqn:E; simplify_eq.
    injection H as <- <-. by eapply Hm. }
  unfold handle_exit, execute_call, execute_call_generic. destruct exit.
  - do 2 (apply returns_ft_bind; intros ?). destruct a; [apply Hsome, advance_nonneg|]. by intros s o s' [= <- <-].
  - apply Hsome. do 3 (apply returns_ft_bind; intros ?). apply enter_nonneg.
  - apply Hsome. do 5 (apply returns_ft_bind; intros ?). apply enter_nonneg.
Qed.

Lemma handle_exit_gas r f exit : fuses table (if exit is Return then 0 else 1) (handle_exit env r f exit).
Proof using Hpos Hnative.
  unfold handle_exit. destruct exit; [|apply fpays_first; [apply fpays_call|eauto with gas]
    |apply fpays_first; [apply fpays_call_generic|eauto with gas]].
  apply fuses_seq; [eauto with gas|intros caller]. apply fuses_seq; [eauto with gas|intros _].
  destruct caller; [apply fuses_seq; eauto with gas|eauto with gas].
Qed.

(** A round of the main loop uses gas. *)
Lemma round_gas fuel f s :
  metered table s -> gas s < Z.of_nat fuel -> 0 <= f.(Frame.pc) ->
  match execute_round env fuel f s with
  | Some (Ok (next, s')) => metered table s' /\ gas s' + 1 <= gas s /\ forall f', next = Some f' -> 0 <= f'.(Frame.pc)
  | Some _ => True
  | None => False
  end.
Proof using Hpos Hnative.
  intros Hs Hg Hf. unfold execute_round, mbind, FT_bind, ft_lift, st_lift, execute_code.
  destruct (err_map _ _) as [r| | |]; try done.
  pose proof (code_gas fuel r f s Hs Hg (or_introl Hf)) as Hc.
  destruct (execute_code_impl env fuel r f s) as [[[[f1 exit] s1]| | |]|]; simpl; try done.
  destruct Hc as [Hs1 Hg1]. pose proof (total_handle_exit r f1 exit s1) as Ht.
  destruct (handle_exit env r f1 exit s1) as [[[next s2]| | |]|] eqn:Eh; try done.
  destruct (handle_exit_gas r f1 exit s1 next s2 Hs1 Eh) as [Hs2 Hg2]. split; [done|].
  split; [destruct exit; lia|]. by eapply handle_exit_nonneg.
Qed.

Lemma frames_gas fuel f s :
  metered table s -> gas s < Z.of_nat fuel -> 0 <= f.(Frame.pc) -> execute_frames env fuel f s <> None.
Proof using Hpos Hnative.
  revert f s. induction fuel as [|fuel IH]; intros f s Hs Hg Hf; [destruct Hs as (_ & _ & ?); lia|].
  cbn [execute_frames]. pose proof (round_gas (S fuel) f s Hs Hg Hf) as Hr. unfold mbind, FT_bind.
  destruct (execute_round env (S fuel) f s) as [[[[f'|] s']| | |]|]; try done.
  destruct Hr as (Hs' & Hg' & Hf'). apply IH; [done|lia|by apply Hf'].
Qed.
End calls.

(** * More fuel *)

Section fuel.
Context {NF DS Ext : Type} `{!DataStore DS} (env : Env NF DS Ext).

Lemma code_more fuel r f (s : Machine NF DS Ext) x :
  execute_code_impl env fuel r f s = Some x -> execute_code_impl env (S fuel) r f s = Some x.
Proof.
  revert f s. induction fuel as [|fuel IH]; intros f s; [done|]. cbn [execute_code_impl].
  destruct (_ <? _); [done|]. unfold mbind, FT_bind, ft_lift.
  destruct (execute_instructions _ _ _ _ _) as [[[f1 [exit|]] s1]| | |]; try done.
  destruct (_ <=? _); [done|]. intros H. exact (IH f1 s1 H).
Qed.

Lemma round_more fuel f (s : Machine NF DS Ext) x :
  execute_round env fuel f s = Some x -> execute_round env (S fuel) f s = Some x.
Proof.
  unfold execute_round, mbind, FT_bind, ft_lift, execute_code. destruct (st_lift _ s) as [[r s1]| | |]; try done.
  destruct (execute_code_impl env fuel r f s1) as [y|] eqn:E; [|done]. by rewrite (code_more _ _ _ _ _ E).
Qed.

Lemma frames_more fuel f (s : Machine NF DS Ext) x :
  execute_frames env fuel f s = Some x -> execute_frames env (S fuel) f s = Some x.
Proof.
  revert f s. induction fuel as [|fuel IH]; intros f s; [done|].
  change (execute_frames env (S fuel) f s = Some x -> execute_frames env (S (S fuel)) f s = Some x).
  intros H. cbn [execute_frames] in H |- *. unfold mbind, FT_bind in H |- *.
  destruct (execute_round env (S fuel) f s) as [y|] eqn:E; [|done]. rewrite (round_more _ _ _ _ E).
  destruct y as [[[f'|] s']| | |]; try done. by apply IH.
Qed.

Lemma frames_enough fuel fuel' f (s : Machine NF DS Ext) x :
  (fuel <= fuel')%nat -> execute_frames env fuel f s = Some x -> execute_frames env fuel' f s = Some x.
Proof. induction 1 as [|fuel' _ IH]; [done|]. intros H. by apply frames_more, IH. Qed.
End fuel.

(** * Errors of the values *)

(** The errors of a stack that is too low and of a body that is left at its end. *)
Definition stack_status (status : StatusCode) : Prop := status = EMPTY_VALUE_STACK \/ status = PC_OVERFLOW.

(** A computation that does not report them. *)
Definition quiet {S A} (m : ST S PartialVMError A) : Prop := forall s e, m s = Err e -> ~ stack_status e.(major_status).
Definition quiet_result {A} (r : result PartialVMError A) : Prop := forall e, r = Err e -> ~ stack_status e.(major_status).

Create HintDb quiet.

Lemma quiet_ret {S A} (a : A) : quiet (S := S) (mret a).
Proof. by intros s e. Qed.
Lemma quiet_panic {S A} : quiet (S := S) (A := A) st_panic.
Proof. by intros s e. Qed.
Lemma quiet_err {S A} e : ~ stack_status e.(major_status) -> quiet (S := S) (A := A) (st_err e).
Proof. by intros H s e' [= <-]. Qed.
Lemma quiet_bind {S A B} (m : ST S PartialVMError A) (f : A -> ST S PartialVMError B) :
  quiet m -> (forall a, quiet (f a)) -> quiet (m ≫= f).
Proof. intros Hm Hf s e H. unfold mbind, ST_bind in H. destruct (m s) as [[a s1]| | |] eqn:E; simplify_eq; [by eapply Hf|by eapply Hm]. Qed.
Lemma quiet_lift {S A} (r : result PartialVMError A) : quiet_result r -> quiet (S := S) (st_lift r).
Proof. intros Hr s e H. unfold st_lift in H. destruct r; simplify_eq. by apply Hr. Qed.
Lemma quiet_for {S A} (l : list A) (f : A -> ST S PartialVMError ()) : (forall x, quiet (f x)) -> quiet (st_for l f).
Proof. intros Hf. induction l; [apply quiet_ret|]. by apply quiet_bind. Qed.
Lemma quiet_map {A B} (l : list A) (f : A -> M B) : (forall x, quiet (f x)) -> quiet (st_map f l).
Proof. intros Hf. induction l; [apply quiet_ret|]. apply quiet_bind; [done|intros ?]. apply quiet_bind; [done|intros ?]. apply quiet_ret. Qed.
Lemma quiet_get r : quiet (Rc.get r).
Proof. intros h e H. unfold Rc.get in H. by destruct (h !! r). Qed.
Lemma quiet_put r b : quiet (Rc.put r b).
Proof. by intros h e. Qed.
Lemma quiet_free r : quiet (Rc.free r).
Proof. by intros h e. Qed.
Lemma quiet_new c : quiet (Rc.new c).
Proof. by intros h e. Qed.

#[export] Hint Resolve quiet_ret quiet_panic quiet_lift quiet_for quiet_map quiet_get quiet_put quiet_free quiet_new : quiet.
#[export] Hint Extern 1 (quiet (st_err _)) => (apply quiet_err; by intros [?|?]) : quiet.
#[export] Hint Extern 1 (quiet (fail _)) => (apply quiet_err; by intros [?|?]) : quiet.
#[export] Hint Extern 1 (quiet (fun _ => OutOfFuel)) => (by intros ? ?) : quiet.

(** Unfold the small operations and go through the code. *)
Ltac quiet_unfold :=
  unfold elem_value, elem_u8, elem_u64, elem_u128, elem_bool, elem_address, cast_struct, borrow_values,
    borrow_u8s, borrow_u64s, borrow_u128s, borrow_bools, borrow_addresses, borrow_status, value_ref_u8,
    value_ref_u64, value_ref_u128, value_ref_bool, value_ref_address, Container.copy_by_ref,
    ContainerRef.copy_value, ContainerRef.mark_dirty, IndexedRef_copy_value, cast_value_u8, cast_value_u64,
    cast_value_u128, cast_value_bool, cast_value_address, cast_container, cast_container_ref, cast_reference,
    vector_u8, vector_u64, vector_u128, vector_bool, vector_address, struct_, u64_result, as_values, as_u8s,
    as_u64s, as_u128s, as_bools, as_addresses, as_status.
Ltac quiet_tac :=
  intros; do 3 quiet_unfold;
  repeat (intros; first
    [ solve [eauto 4 with quiet]
    | match goal with |- quiet (match ?x with _ => _ end) => destruct x end
    | apply quiet_bind | apply quiet_map ]).

Lemma quiet_clone r : quiet (Rc.clone r).
Proof. unfold Rc.clone. quiet_tac. Qed.
Lemma quiet_strong_count r : quiet (Rc.strong_count r).
Proof. unfold Rc.strong_count. quiet_tac. Qed.
Lemma quiet_borrow r : quiet (Rc.borrow r).
Proof. unfold Rc.borrow. quiet_tac. Qed.
Lemma quiet_replace r c : quiet (Rc.replace r c).
Proof. unfold Rc.replace. quiet_tac. Qed.
#[export] Hint Resolve quiet_clone quiet_strong_count quiet_borrow quiet_replace : quiet.

Lemma quiet_drop_loc fuel r : quiet (drop_loc fuel r).
Proof. revert r. induction fuel; intros r; cbn [drop_loc]; quiet_tac. Qed.
#[export] Hint Resolve quiet_drop_loc : quiet.
Lemma quiet_drop_locs l : quiet (drop_locs l).
Proof. intros h e. apply quiet_for. intros r. apply quiet_drop_loc. Qed.
#[export] Hint Resolve quiet_drop_locs : quiet.
Lemma quiet_drop_value v : quiet (drop_value v).
Proof. apply quiet_drop_locs. Qed.
Lemma quiet_drop_ref r : quiet (drop_ref r).
Proof. apply quiet_drop_locs. Qed.
Lemma quiet_drop_contents c : quiet (drop_contents c).
Proof. apply quiet_drop_locs. Qed.
Lemma quiet_take r : quiet (take_unique_ownership r).
Proof. unfold take_unique_ownership. quiet_tac. Qed.
#[export] Hint Resolve quiet_drop_value quiet_drop_ref quiet_drop_contents quiet_take : quiet.

Lemma quiet_at_index {A} (l : list A) i : quiet (at_index l i).
Proof. unfold at_index. quiet_tac. Qed.
Lemma quiet_set_index {A} (l : list A) i x : quiet (set_index l i x).
Proof. unfold set_index. quiet_tac. Qed.
Lemma quiet_len c : quiet (Container.len c).
Proof. unfold Container.len. quiet_tac. Qed.
#[export] Hint Resolve quiet_at_index quiet_set_index quiet_len : quiet.

Lemma quiet_copy_container copy c : (forall v, quiet (copy v)) -> quiet (Container.copy_value copy c).
Proof. unfold Container.copy_value. quiet_tac. Qed.
#[export] Hint Resolve quiet_copy_container : quiet.
Lemma quiet_copy_fuel fuel v : quiet (copy_value_fuel fuel v).
Proof. revert v. induction fuel; intros v; cbn [copy_value_fuel]; quiet_tac. Qed.
#[export] Hint Resolve quiet_copy_fuel : quiet.
Lemma quiet_copy v : quiet (copy_value v).
Proof. intros h e. apply quiet_copy_fuel. Qed.
Lemma quiet_copy_container_value c : quiet (copy_container c).
Proof. intros h e. apply quiet_copy_container. intros v. apply quiet_copy_fuel. Qed.
#[export] Hint Resolve quiet_copy quiet_copy_container_value : quiet.

Lemma quiet_equal_elements eq l r : (forall v w, quiet (eq v w)) -> quiet (Container.equal_elements eq l r).
Proof. intros Heq. revert r. induction l as [|v l IH]; intros [|w r]; cbn [Container.equal_elements]; quiet_tac. Qed.
#[export] Hint Resolve quiet_equal_elements : quiet.
Lemma quiet_container_equals eq c d : (forall v w, quiet (eq v w)) -> quiet (Container.equals eq c d).
Proof. unfold Container.equals. quiet_tac. Qed.
#[export] Hint Resolve quiet_container_equals : quiet.
Lemma quiet_indexed_equals eq r s : (forall v w, quiet (eq v w)) -> quiet (IndexedRef_equals eq r s).
Proof. unfold IndexedRef_equals. quiet_tac. Qed.
#[export] Hint Resolve quiet_indexed_equals : quiet.
Lemma quiet_equals_fuel fuel v w : quiet (equals_fuel fuel v w).
Proof. revert v w. induction fuel; intros v w; cbn [equals_fuel]; quiet_tac. Qed.
#[export] Hint Resolve quiet_equals_fuel : quiet.
Lemma quiet_equals v w : quiet (equals v w).
Proof. intros h e. apply quiet_equals_fuel. Qed.

Lemma quiet_read r : quiet (ReferenceImpl_read_ref r).
Proof. unfold ReferenceImpl_read_ref, ContainerRef_read_ref, IndexedRef_read_ref. quiet_tac. Qed.
Lemma quiet_assign r1 r : quiet (assign r1 r).
Proof. unfold assign. quiet_tac. Qed.
#[export] Hint Resolve quiet_equals quiet_read quiet_assign : quiet.
Lemma quiet_write r v : quiet (ReferenceImpl_write_ref r v).
Proof. unfold ReferenceImpl_write_ref, ContainerRef_write_ref, IndexedRef_write_ref. quiet_tac. Qed.
Lemma quiet_borrow_elem r i : quiet (ContainerRef_borrow_elem r i).
Proof. unfold ContainerRef_borrow_elem. quiet_tac. Qed.
#[export] Hint Resolve quiet_write quiet_borrow_elem : quiet.

Lemma quiet_locals_new n : quiet (Locals.new n).
Proof. apply quiet_new. Qed.
Lemma quiet_borrow_loc l i : quiet (Locals.borrow_loc l i).
Proof. unfold Locals.borrow_loc. quiet_tac. Qed.
Lemma quiet_copy_loc l i : quiet (Locals.copy_loc l i).
Proof. unfold Locals.copy_loc. quiet_tac. Qed.
Lemma quiet_swap_loc l i v : quiet (Locals.swap_loc l i v).
Proof. unfold Locals.swap_loc, Container.rc_count. quiet_tac. Qed.
#[export] Hint Resolve quiet_locals_new quiet_borrow_loc quiet_copy_loc quiet_swap_loc : quiet.
Lemma quiet_move_loc l i : quiet (Locals.move_loc l i).
Proof. unfold Locals.move_loc. quiet_tac. Qed.
Lemma quiet_store_loc l i v : quiet (Locals.store_loc l i v).
Proof. unfold Locals.store_loc. quiet_tac. Qed.
#[export] Hint Resolve quiet_move_loc quiet_store_loc : quiet.

Lemma quiet_layout ty c : quiet (check_elem_layout ty c).
Proof. unfold check_elem_layout. quiet_tac. Qed.
#[export] Hint Resolve quiet_layout : quiet.
Lemma quiet_vec_len r ty : quiet (VectorRef.len r ty).
Proof. unfold VectorRef.len. quiet_tac. Qed.
Lemma quiet_vec_push r v ty : quiet (VectorRef.push_back r v ty).
Proof. unfold VectorRef.push_back. quiet_tac. Qed.
Lemma quiet_vec_borrow r i ty : quiet (VectorRef.borrow_elem r i ty).
Proof. unfold VectorRef.borrow_elem. quiet_tac. Qed.
Lemma quiet_pop_last {A} (l : list A) : quiet (VectorRef.pop_last l).
Proof. unfold VectorRef.pop_last. quiet_tac. Qed.
Lemma quiet_swap_elements {A} i j (l : list A) : quiet (VectorRef.swap_elements i j l).
Proof. unfold VectorRef.swap_elements. quiet_tac. Qed.
#[export] Hint Resolve quiet_vec_len quiet_vec_push quiet_vec_borrow quiet_pop_last quiet_swap_elements : quiet.
Lemma quiet_vec_pop r ty : quiet (VectorRef.pop r ty).
Proof. unfold VectorRef.pop. quiet_tac. Qed.
Lemma quiet_vec_swap r i j ty : quiet (VectorRef.swap r i j ty).
Proof. unfold VectorRef.swap. quiet_tac. Qed.
Lemma quiet_vec_pack ty l : quiet (Vector.pack ty l).
Proof. unfold Vector.pack. quiet_tac. Qed.
Lemma quiet_vec_unpack c ty n : quiet (Vector.unpack c ty n).
Proof. unfold Vector.unpack. quiet_tac. Qed.
#[export] Hint Resolve quiet_vec_pop quiet_vec_swap quiet_vec_pack quiet_vec_unpack : quiet.

Lemma quiet_size_impl size acc l : (forall v, quiet (size v)) -> quiet (Size.size_impl size acc l).
Proof. intros Hs. revert acc. induction l; intros acc; cbn [Size.size_impl]; quiet_tac. Qed.
#[export] Hint Resolve quiet_size_impl : quiet.
Lemma quiet_size_fuel fuel v : quiet (Size.size_fuel fuel v).
Proof. revert v. induction fuel; intros v; cbn [Size.size_fuel]; [quiet_tac|]. unfold Size.container_size. quiet_tac. Qed.
#[export] Hint Resolve quiet_size_fuel : quiet.
Lemma quiet_size v : quiet (Size.size v).
Proof. intros h e. apply quiet_size_fuel. Qed.

Lemma quiet_global_borrow gv : quiet (GlobalValue.borrow_global gv).
Proof. unfold GlobalValue.borrow_global. quiet_tac. Qed.
Lemma quiet_global_move_from gv : quiet (GlobalValue.move_from gv).
Proof. unfold GlobalValue.move_from. quiet_tac. Qed.
Lemma quiet_global_move_to gv v : quiet (GlobalValue.move_to gv v).
Proof. unfold GlobalValue.move_to, GlobalValue.fresh, GlobalValue.cached_impl. quiet_tac. Qed.
#[export] Hint Resolve quiet_size quiet_global_borrow quiet_global_move_from quiet_global_move_to : quiet.
