(* ===== verification/InterpreterSteps.v ===== *)
(** The interpreter and the stack usage verifier.  First what each instruction does to the
    operand stack, against the effect that the verifier computes for it; then the loops of
    the interpreter as a machine that makes one step per instruction, call or return; what
    its steps take from the gas; and the invariant of that machine on verified code. *)
From stdpp Require Import gmap relations.
From S2P Require Import Prelude StatusCode Abilities Identifier FileFormat BinaryCommon WellFormed Access BoundsSpec BoundsTheorems.
From S2P Require Import ControlFlow ControlFlowTheorems FunctionView GraphLaws StackUsage StackUsageTheorems Dependencies.
From S2P Require Import VmValues Runtime Interpreter InterpreterFacts.
Import Interpreter.

(** * Linked code *)

(** The resolver of a function agrees with the view that the verifier had of it: structs have
    as many fields, and functions as many parameters and results. *)
Record resolves {NF} (r : Resolver NF) (v : BinaryIndexedView) : Prop := {
  resolves_fields idx def n :
    BinaryIndexedView.struct_def_at v idx = Ok def -> Resolver.field_count r idx = Ok n ->
    n = StackUsageVerifier.field_count def;
  resolves_instance_fields idx inst def n :
    BinaryIndexedView.struct_instantiation_at v idx = Ok inst ->
    BinaryIndexedView.struct_def_at v inst.(StructDefInstantiation.def) = Ok def ->
    Resolver.field_instantiation_count r idx = Ok n -> n = StackUsageVerifier.field_count def;
  resolves_function idx handle parameters return_ g :
    BinaryIndexedView.function_handle_at v idx = Ok handle ->
    BinaryIndexedView.signature_at v handle.(FunctionHandle.parameters) = Ok parameters ->
    BinaryIndexedView.signature_at v handle.(FunctionHandle.return_) = Ok return_ ->
    Resolver.function_from_handle r idx = Ok g ->
    length g.(Function.parameters) = length parameters /\ length g.(Function.return_) = length return_;
  resolves_instance idx inst handle parameters return_ g :
    BinaryIndexedView.function_instantiation_at v idx = Ok inst ->
    BinaryIndexedView.function_handle_at v inst.(FunctionInstantiation.handle) = Ok handle ->
    BinaryIndexedView.signature_at v handle.(FunctionHandle.parameters) = Ok parameters ->
    BinaryIndexedView.signature_at v handle.(FunctionHandle.return_) = Ok return_ ->
    Resolver.function_from_instantiation r idx = Ok g ->
    length g.(Function.parameters) = length parameters /\ length g.(Function.return_) = length return_ }.

(** * Errors of the resolver *)

Lemma quiet_ok {A} (a : A) : quiet_result (Ok a).
Proof. by intros e. Qed.
Lemma quiet_result_bind {A B} (r : result PartialVMError A) (f : A -> result PartialVMError B) :
  quiet_result r -> (forall a, quiet_result (f a)) -> quiet_result (r ≫= f).
Proof. intros Hr Hf e H. destruct r; simpl in H; simplify_eq; [by eapply Hf|by apply Hr]. Qed.
Lemma quiet_unwrap {A} (o : option A) : quiet_result (unwrap o).
Proof. by destruct o. Qed.
Lemma quiet_error {A} st x : ~ stack_status st -> quiet_result (A := A) (Err (mk_error st x)).
Proof. by intros H e [= <-]. Qed.
#[export] Hint Resolve quiet_ok quiet_unwrap quiet_result_bind : quiet.
#[export] Hint Extern 1 (quiet_result (Err _)) => (apply quiet_error; by intros [?|?]) : quiet.

Lemma quiet_apply_subst subst (ty : RuntimeType.Type_) depth :
  (forall i d, quiet_result (subst i d)) -> quiet_result (RuntimeType.apply_subst subst ty depth).
Proof.
  intros Hs. revert ty depth. fix IH 1. intros [| | | | | |ty| |idx tys|ty|ty|] depth; cbn [RuntimeType.apply_subst];
    destruct (_ <? _); auto with quiet.
  apply quiet_result_bind; [|auto with quiet]. induction tys as [|ty tys IHl]; auto with quiet.
Qed.
Lemma quiet_subst ty ty_args : quiet_result (RuntimeType.subst ty ty_args).
Proof.
  apply quiet_apply_subst. intros i d. destruct (ty_args !! _); auto with quiet.
  apply quiet_apply_subst. auto with quiet.
Qed.
#[export] Hint Resolve quiet_subst : quiet.
Lemma quiet_subst_all ty_args tys : quiet_result (Resolver.subst_all ty_args tys).
Proof. induction tys; cbn [Resolver.subst_all]; auto 6 with quiet. Qed.
#[export] Hint Resolve quiet_subst_all : quiet.

Section resolver.
Context {NF : Type} (r : Resolver NF).

Lemma quiet_own_module : quiet_result (Resolver.own_module r).
Proof. unfold Resolver.own_module. destruct (Resolver.binary r); by intros e. Qed.
Lemma quiet_index {A} (l : list A) i : quiet_result (Resolver.index l i).
Proof. apply quiet_unwrap. Qed.
Hint Resolve quiet_own_module quiet_index : quiet.
Lemma quiet_constant_at i : quiet_result (Resolver.constant_at r i).
Proof. unfold Resolver.constant_at. destruct (Resolver.binary r); auto with quiet. Qed.
Lemma quiet_instantiation_at i : quiet_result (Resolver.function_instantiation_at r i).
Proof. unfold Resolver.function_instantiation_at. destruct (Resolver.binary r); auto with quiet. Qed.
Lemma quiet_function_at i : quiet_result (Loader.function_at (Resolver.loader r) i).
Proof. apply quiet_unwrap. Qed.
Hint Resolve quiet_instantiation_at quiet_function_at : quiet.
Lemma quiet_function_from_handle i : quiet_result (Resolver.function_from_handle r i).
Proof. unfold Resolver.function_from_handle. destruct (Resolver.binary r); auto with quiet. Qed.
Lemma quiet_function_from_instantiation i : quiet_result (Resolver.function_from_instantiation r i).
Proof. unfold Resolver.function_from_instantiation. auto with quiet. Qed.
Lemma quiet_type_params_count i : quiet_result (Resolver.type_params_count r i).
Proof. unfold Resolver.type_params_count. auto with quiet. Qed.
Lemma quiet_instantiate_function i tys : quiet_result (Resolver.instantiate_generic_function r i tys).
Proof. unfold Resolver.instantiate_generic_function. auto with quiet. Qed.
Lemma quiet_struct_type i : quiet_result (Resolver.get_struct_type r i).
Proof. unfold Resolver.get_struct_type. auto with quiet. Qed.
Lemma quiet_generic_type i tys : quiet_result (Resolver.instantiate_generic_type r i tys).
Proof. unfold Resolver.instantiate_generic_type. auto 8 with quiet. Qed.
Lemma quiet_single_type i tys : quiet_result (Resolver.instantiate_single_type r i tys).
Proof.
  unfold Resolver.instantiate_single_type, Resolver.single_type_at. destruct (Resolver.binary r); auto with quiet.
Qed.
Lemma quiet_field_offset i : quiet_result (Resolver.field_offset r i).
Proof. unfold Resolver.field_offset. auto with quiet. Qed.
Lemma quiet_field_instantiation_offset i : quiet_result (Resolver.field_instantiation_offset r i).
Proof. unfold Resolver.field_instantiation_offset. auto with quiet. Qed.
Lemma quiet_field_count i : quiet_result (Resolver.field_count r i).
Proof. unfold Resolver.field_count. auto with quiet. Qed.
Lemma quiet_field_instantiation_count i : quiet_result (Resolver.field_instantiation_count r i).
Proof. unfold Resolver.field_instantiation_count. auto with quiet. Qed.
End resolver.
#[export] Hint Resolve quiet_constant_at quiet_instantiation_at quiet_struct_type quiet_generic_type quiet_single_type
  quiet_field_offset quiet_field_instantiation_offset quiet_field_count quiet_field_instantiation_count : quiet.

Lemma quiet_integer_cast v : quiet_result (IntegerValue.cast v).
Proof. destruct v; simpl; auto with quiet. Qed.
Lemma quiet_arithmetic (o : option IntegerValue) : quiet_result (IntegerValue.ok_or_arithmetic o).
Proof. destruct o; [apply quiet_ok|]. intros e [= <-]. by intros [?|?]. Qed.
#[export] Hint Resolve quiet_integer_cast quiet_arithmetic : quiet.

(** The operations on two integers. *)
Ltac quiet_int := intros; repeat match goal with |- quiet_result (match ?x with _ => _ end) => destruct x end; auto with quiet.
Lemma quiet_binary_operations :
  Forall (fun f => forall x y, quiet_result (f x y))
    [IntegerValue.add_checked; IntegerValue.sub_checked; IntegerValue.mul_checked; IntegerValue.rem_checked;
     IntegerValue.div_checked; IntegerValue.bit_or; IntegerValue.bit_and; IntegerValue.bit_xor].
Proof.
  repeat constructor; intros x y; unfold IntegerValue.add_checked, IntegerValue.sub_checked, IntegerValue.mul_checked,
    IntegerValue.rem_checked, IntegerValue.div_checked, IntegerValue.bit_or, IntegerValue.bit_and, IntegerValue.bit_xor; quiet_int.
Qed.
Lemma quiet_compare f x y : quiet_result (IntegerValue.compare_with f x y).
Proof. unfold IntegerValue.compare_with. quiet_int. Qed.
Lemma quiet_shl x n : quiet_result (IntegerValue.shl_checked x n).
Proof. unfold IntegerValue.shl_checked. quiet_int. Qed.
Lemma quiet_shr x n : quiet_result (IntegerValue.shr_checked x n).
Proof. unfold IntegerValue.shr_checked. quiet_int. Qed.
Lemma quiet_cast_u8 x : quiet_result (IntegerValue.cast_u8 x).
Proof. unfold IntegerValue.cast_u8. quiet_int. Qed.
Lemma quiet_cast_u64 x : quiet_result (IntegerValue.cast_u64 x).
Proof. unfold IntegerValue.cast_u64. quiet_int. Qed.
Lemma quiet_cast_u128 x : quiet_result (IntegerValue.cast_u128 x).
Proof. unfold IntegerValue.cast_u128. quiet_int. Qed.
Lemma quiet_gas_add x y : quiet_result (GasAlgebra.add x y).
Proof. unfold GasAlgebra.add, GasAlgebra.checked. by destruct (in_range _ _). Qed.
#[export] Hint Resolve quiet_compare quiet_shl quiet_shr quiet_cast_u8 quiet_cast_u64 quiet_cast_u128 quiet_gas_add : quiet.

(** * Effects on the operand stack *)

(** What the data store, native functions and the deserializer report. *)
Class QuietEnv {NF DS Ext : Type} `{!DataStore DS} (env : Env NF DS Ext) : Prop := {
  quiet_constants c : quiet (env.(deserialize_constant) c);
  quiet_data addr ty : quiet (load_resource (DS := DS) addr ty);
  quiet_natives nf s r ty_args args : quiet (env.(call_native_function) nf s r ty_args args) }.

Section effects.
Context {NF DS Ext : Type} `{!DataStore DS} (env : Env NF DS Ext) `{!QuietEnv env}.
Abbreviation Mach := (Machine NF DS Ext).
Abbreviation X := (ST Mach PartialVMError).
Abbreviation stack s := (s.(Machine.operand_stack)).

(** From the state [s], the top [p] values are replaced by [q] values, what is below stays,
    and so does the call stack; a stack that is too low is only reported if it is lower
    than [p]. *)
Definition effect_at {A} (s : Mach) (p q : nat) (m : X A) : Prop :=
  match m s with
  | Ok (_, s') => exists base vs ws, stack s = base ++ vs /\ length vs = p /\ stack s' = base ++ ws /\ length ws = q /\
      s'.(Machine.call_stack) = s.(Machine.call_stack) /\
      (zlen (stack s) <= OPERAND_STACK_SIZE_LIMIT -> zlen (stack s') <= OPERAND_STACK_SIZE_LIMIT)
  | Err e => stack_status e.(major_status) -> (length (stack s) < p)%nat
  | Panic | OutOfFuel => True
  end.
Definition effect {A} (p q : nat) (m : X A) : Prop := forall s, effect_at s p q m.

Lemma effect_at_bind {A B} s p1 q1 p2 q2 (m : X A) (f : A -> X B) :
  effect_at s p1 q1 m -> (forall a s1, m s = Ok (a, s1) -> effect_at s1 p2 q2 (f a)) ->
  effect_at s (p1 + (p2 - q1)) (q2 + (q1 - p2)) (m ≫= f).
Proof.
  unfold effect_at, mbind, ST_bind. intros Hm Hf. destruct (m s) as [[a s1]|e| |]; [|intros He; specialize (Hm He); lia|done|done].
  specialize (Hf a s1 eq_refl). destruct Hm as (b1 & v1 & w1 & E1 & L1 & E1' & L1' & C1 & B1).
  destruct (f a s1) as [[b s2]|e| |]; [|intros He; specialize (Hf He); rewrite E1' in Hf; rewrite E1;
    rewrite length_app in *; lia|done|done].
  destruct Hf as (b2 & v2 & w2 & E2 & L2 & E2' & L2' & C2 & B2). rewrite E1' in E2.
  destruct (app_eq_app _ _ _ _ E2) as (l & [[-> ->]|[-> ->]]); rewrite length_app in *.
  - exists b2, (l ++ v1), w2. rewrite length_app. split_and!; [by rewrite E1, app_assoc|lia|done|lia|congruence|auto].
  - exists b1, v1, (l ++ w2). rewrite length_app. split_and!; [done|lia|by rewrite E2', app_assoc|lia|congruence|auto].
Qed.

Lemma effect_bind {A B} p1 q1 p2 q2 (m : X A) (f : A -> X B) :
  effect p1 q1 m -> (forall a, effect p2 q2 (f a)) -> effect (p1 + (p2 - q1)) (q2 + (q1 - p2)) (m ≫= f).
Proof. intros Hm Hf s. apply effect_at_bind; [apply Hm|]. intros a s1 _. apply Hf. Qed.

Lemma effect_eq {A} s p q p' q' (m : X A) : effect_at s p q m -> p = p' -> q = q' -> effect_at s p' q' m.
Proof. by intros H -> ->. Qed.

Lemma effect_skip {A B} s p q (m : X A) (f : A -> X B) :
  effect 0 0 m -> (forall a s1, m s = Ok (a, s1) -> effect_at s1 p q (f a)) -> effect_at s p q (m ≫= f).
Proof. intros Hm Hf. eapply effect_eq; [apply (effect_at_bind s 0 0 p q); [apply Hm|done]|lia|lia]. Qed.

(** A computation that leaves the stacks alone. *)
Lemma effect_none {A} (m : X A) :
  quiet m -> (forall s a s', m s = Ok (a, s') -> stack s' = stack s /\ s'.(Machine.call_stack) = s.(Machine.call_stack)) ->
  effect 0 0 m.
Proof.
  intros Hq Hm s. unfold effect_at. destruct (m s) as [[a s']|e| |] eqn:E; [|intros He; by destruct (Hq s e E)|done|done].
  destruct (Hm s a s' E) as [Hs Hc]. exists (stack s), [], []. rewrite !app_nil_r, Hs. done.
Qed.
Lemma effect_ret {A} (a : A) : effect 0 0 (mret a : X A).
Proof. apply effect_none; [apply quiet_ret|]. by intros s ? s' [= <- <-]. Qed.
Lemma effect_lift {A} (r : result PartialVMError A) : quiet_result r -> effect 0 0 (st_lift r : X A).
Proof. intros Hr. apply effect_none; [by apply quiet_lift|]. by intros s ? s' [_ ->]%st_lift_ok. Qed.
Lemma effect_heap {A} (m : M A) : quiet m -> effect 0 0 (on_heap m : X A).
Proof.
  intros Hm. apply effect_none.
  - intros s e H. unfold on_heap in H. destruct (m _) as [[? ?]|e'| |] eqn:E; simplify_eq. by eapply Hm.
  - intros s a s' H. unfold on_heap in H. by destruct (m _) as [[? ?]| | |]; simplify_eq.
Qed.
Lemma effect_data {A} (m : ST (DS * Store) PartialVMError A) : quiet m -> effect 0 0 (on_data m : X A).
Proof.
  intros Hm. apply effect_none.
  - intros s e H. unfold on_data in H. destruct (m _) as [[? [? ?]]|e'| |] eqn:E; simplify_eq. by eapply Hm.
  - intros s a s' H. unfold on_data in H. by destruct (m _) as [[? [? ?]]| | |]; simplify_eq.
Qed.
Lemma effect_gas {A} (m : GasStatus.G A) : quiet m -> effect 0 0 (on_gas m : X A).
Proof.
  intros Hm. apply effect_none.
  - intros s e H. unfold on_gas in H. destruct (m _) as [[? ?]|e'| |] eqn:E; simplify_eq. by eapply Hm.
  - intros s a s' H. unfold on_gas in H. by destruct (m _) as [[? ?]| | |]; simplify_eq.
Qed.
Lemma quiet_deduct n : quiet (GasStatus.deduct n).
Proof.
  intros g e H. unfold GasStatus.deduct, GasStatus.deduct_gas in H. destruct (negb _); [done|].
  destruct (_ <=? _); simplify_eq. by intros [?|?].
Qed.
Lemma quiet_cost_of g opcode : quiet_result (GasStatus.cost_of g opcode).
Proof.
  unfold GasStatus.cost_of, CostTable.instruction_cost, GasCost.total.
  apply quiet_result_bind; [destruct (_ && _); [apply quiet_unwrap|by intros e]|intros c; apply quiet_gas_add].
Qed.
Lemma effect_charge opcode : effect 0 0 (charge_instr opcode : X ()).
Proof.
  apply effect_gas. intros g e. unfold GasStatus.charge_instr. revert g e.
  intros g. apply (quiet_bind (st_lift (GasStatus.cost_of g opcode))); [apply quiet_lift, quiet_cost_of|apply quiet_deduct].
Qed.
Lemma effect_charge_size opcode size : effect 0 0 (charge_instr_with_size opcode size : X ()).
Proof.
  apply effect_gas. intros g. unfold GasStatus.charge_instr_with_size.
  apply (quiet_bind (st_lift (GasStatus.cost_of g opcode))); [apply quiet_lift, quiet_cost_of|intros c].
  apply quiet_bind; [|intros; apply quiet_deduct]. apply quiet_lift. unfold GasAlgebra.mul, GasAlgebra.checked.
  by destruct (in_range _ _).
Qed.

Lemma effect_err {A} e : ~ stack_status e.(major_status) -> effect 0 0 (st_err e : X A).
Proof. intros He s. unfold effect_at, st_err. intros H. by destruct He. Qed.
Lemma effect_push v : effect 0 1 (push v : X ()).
Proof.
  intros s. unfold effect_at, push, get_stack, put_stack, mbind, ST_bind. destruct (Z.ltb_spec (zlen (stack s)) OPERAND_STACK_SIZE_LIMIT).
  - exists (stack s), [], [v]. rewrite app_nil_r. split_and!; try done. intros _. simpl. rewrite length_app. simpl. lia.
  - by intros [?|?].
Qed.
Lemma last_split {A} (l : list A) x : l !! (length l - 1)%nat = Some x -> l = take (length l - 1) l ++ [x].
Proof.
  intros H. rewrite <- (take_drop (length l - 1) l) at 1. f_equal. rewrite (drop_S _ _ _ H), drop_ge; [done|].
  pose proof (lookup_lt_Some _ _ _ H). lia.
Qed.
Lemma effect_pop : effect 1 0 (pop : X Value).
Proof.
  intros s. unfold effect_at, pop, get_stack, put_stack, mbind, ST_bind.
  destruct (stack s !! _) as [v|] eqn:E; [|intros _; apply lookup_ge_None in E; simpl; lia].
  eexists (take (length (stack s) - 1) (stack s)), [v], []. rewrite app_nil_r. split_and!; try done; [by apply last_split|].
  simpl. rewrite length_take. lia.
Qed.
Lemma effect_popn n : 0 <= n -> effect (Z.to_nat n) 0 (popn n : X (list Value)).
Proof.
  intros Hn s. unfold effect_at, popn, get_stack, put_stack, mbind, ST_bind.
  destruct (Z.ltb_spec (zlen (stack s) - n) 0); [intros _; lia|]. set (k := Z.to_nat (zlen (stack s) - n)).
  exists (take k (stack s)), (drop k (stack s)), []. rewrite app_nil_r, take_drop, length_drop. split_and!; try done; [lia|].
  simpl. rewrite length_take. lia.
Qed.
Lemma effect_pop_as {T} (cast : Value -> M T) : (forall v, quiet (cast v)) -> effect 1 0 (pop_as cast : X T).
Proof. intros Hc. apply (effect_bind 1 0 0 0); [apply effect_pop|intros v; by apply effect_heap]. Qed.
Lemma effect_for {B} (l : list B) (f : B -> X ()) : (forall x, effect 0 1 (f x)) -> effect 0 (length l) (st_for l f).
Proof.
  intros Hf. induction l as [|x l IH]; [apply effect_ret|]. cbn [st_for length]. intros s.
  eapply effect_eq; [apply (effect_at_bind s 0 1 0 (length l)); [apply Hf|intros; apply IH]|lia|lia].
Qed.

(** ** Unpacking *)

(** A struct on top of the stack has [n] fields. *)
Definition unpacks (s : Mach) (n : nat) : Prop :=
  forall base r b l, stack s = base ++ [ValueImpl.Container_ (Struct r)] -> s.(Machine.heap) !! r = Some b ->
    b.(RcBox.contents) = Values l -> length l = n.

(** The struct that [Unpack] finds has as many fields as its type. *)
Definition shaped (r : Resolver NF) (b : Bytecode) (s : Mach) : Prop :=
  match b with
  | Bytecode.Unpack idx => forall n, Resolver.field_count r idx = Ok n -> unpacks s (Z.to_nat n)
  | Bytecode.UnpackGeneric idx => forall n, Resolver.field_instantiation_count r idx = Ok n -> unpacks s (Z.to_nat n)
  | _ => True
  end.

Lemma pop_struct_length s l s1 n : pop_as cast_struct s = Ok (l, s1) -> unpacks s n -> length l = n.
Proof.
  intros H Hn. unfold pop_as in H. apply st_bind_ok in H as (v & s2 & Hp & H).
  unfold pop, get_stack, put_stack, mbind, ST_bind in Hp. destruct (stack s !! _) as [v'|] eqn:E; simplify_eq.
  injection Hp as -> <-. unfold on_heap in H. simpl in H.
  destruct v; try done. destruct c; try done. cbn [cast_struct] in H.
  destruct ((take_unique_ownership r ≫= as_values) (Machine.heap s)) as [[l' h']| | |] eqn:Et; simplify_eq.
  apply st_bind_ok in Et as (c & h1 & Ht & Ha). destruct c; try done. injection Ha as <- <-.
  unfold take_unique_ownership in Ht. apply st_bind_ok in Ht as (b & h2 & Hg & Ht). unfold Rc.get in Hg.
  destruct (Machine.heap s !! r) as [b'|] eqn:Eb; simplify_eq.
  destruct (_ =? _); [|done]. apply st_bind_ok in Ht as ([] & h3 & _ & Ht). injection Ht as Hc _.
  eapply Hn; [by apply last_split|done|done].
Qed.

Hint Resolve effect_ret effect_lift effect_heap effect_data effect_charge effect_charge_size effect_push effect_pop
  effect_pop_as effect_popn : quiet.

Lemma effect_unpack s opcode fc n : unpacks s n -> effect_at s 1 n (execute_unpack opcode fc).
Proof.
  intros Hn. unfold execute_unpack. eapply effect_eq; [eapply (effect_at_bind s 1 0 0 n)|lia|lia].
  { apply effect_pop_as. quiet_tac. }
  intros l s1 Hl. rewrite <- (pop_struct_length _ _ _ _ Hl Hn).
  apply effect_skip; [auto with quiet|intros _ s2 _]. apply effect_skip; [apply effect_heap, quiet_ret|].
  intros l' s3 Hl'. unfold unpack, on_heap in Hl'. injection Hl' as <- <-. apply effect_for. intros v.
  apply (effect_bind 0 0 0 1); [auto with quiet|intros size]. apply (effect_bind 0 0 0 1); auto with quiet.
Qed.

Lemma vec_unpack_length c ty n h l h' : Vector.unpack c ty n h = Ok (l, h') -> zlen l = n.
Proof.
  intros H. unfold Vector.unpack in H. do 2 apply st_bind_ok in H as (? & ? & _ & H).
  destruct (Z.eqb_spec n (zlen x1)) as [->|]; [|done]. by injection H as <- <-.
Qed.

(** Compute the effect of a sequence of operations. *)
Ltac effects :=
  lazymatch goal with
  | |- effect _ _ (mret _) => apply effect_ret
  | |- effect _ _ (_ ≫= _) => eapply effect_bind; [effects|intros ?; effects]
  | |- effect _ _ (match ?x with _ => _ end) => destruct x; effects
  | |- effect _ _ (pop_as _) => apply effect_pop_as; quiet_tac
  | |- effect _ _ (on_heap _) => apply effect_heap; quiet_tac
  | |- effect _ _ (on_data (load_resource _ _)) => apply effect_data, quiet_data
  | |- effect _ _ (on_data _) => apply effect_data; by intros [? ?] ?
  | |- effect _ _ (st_lift _) => apply effect_lift; auto 6 with quiet
  | |- _ => solve [auto with quiet]
  end.

(** ** The instructions *)

Definition is_exit (b : Bytecode) : bool :=
  match b with Bytecode.Ret | Bytecode.Call _ | Bytecode.CallGeneric _ => true | _ => false end.

Lemma binary_quiet f x y :
  f ∈ [IntegerValue.add_checked; IntegerValue.sub_checked; IntegerValue.mul_checked; IntegerValue.rem_checked;
       IntegerValue.div_checked; IntegerValue.bit_or; IntegerValue.bit_and; IntegerValue.bit_xor] -> quiet_result (f x y).
Proof. intros Hf. pose proof quiet_binary_operations as H. rewrite Forall_forall in H. by apply H, list_elem_of_In. Qed.
Hint Extern 1 (quiet_result (_ _ _)) => (apply binary_quiet; set_solver) : quiet.
Lemma quiet_ok_or {A} (o : option A) st : ~ stack_status st -> quiet_result (ok_or o (vm_error st)).
Proof. intros H. destruct o; [apply quiet_ok|by apply quiet_error]. Qed.
Hint Extern 1 (quiet_result (ok_or _ _)) => (apply quiet_ok_or; by intros [?|?]) : quiet.
Hint Resolve quiet_constants : quiet.
Hint Extern 1 (effect _ _ (st_err _)) => (apply effect_err; by intros [?|?]) : quiet.

Lemma effect_widen {A} s p q k (m : X A) : effect_at s p q m -> (p + k <= length (stack s))%nat -> effect_at s (k + p) (k + q) m.
Proof.
  unfold effect_at. intros Hm Hk. destruct (m s) as [[a s']|e| |]; [|intros He; specialize (Hm He); lia|done|done].
  destruct Hm as (base & vs & ws & E & Lv & E' & Lw & C & B). rewrite E, length_app in Hk.
  exists (take (length base - k) base), (drop (length base - k) base ++ vs), (drop (length base - k) base ++ ws).
  rewrite !app_assoc, take_drop, !length_app, length_drop. split_and!; try done; lia.
Qed.

Lemma effect_computed {A} s p q p' q' (m : X A) : effect p q m -> p = p' -> q = q' -> effect_at s p' q' m.
Proof. by intros H <- <-. Qed.

Lemma simple_effects ver b p q (r : Resolver NF) f s :
  StackUsageVerifier.instruction_effect ver b = Ok (p, q) -> is_exit b = false ->
  match b with
  | Bytecode.Pack _ | Bytecode.PackGeneric _ | Bytecode.Unpack _ | Bytecode.UnpackGeneric _
  | Bytecode.VecPack _ _ | Bytecode.VecUnpack _ _ | Bytecode.FreezeRef => False
  | _ => True
  end -> effect_at s (Z.to_nat p) (Z.to_nat q) (execute_instruction env r f b).
Proof.
  intros He Hx Hb. destruct b; try done; clear Hb Hx; cbn in He; injection He as <- <-; cbn [execute_instruction];
    unfold next, execute_borrow_field, execute_equality, execute_borrow_global,
      execute_exists, execute_move_from, execute_move_to, execute_vec_borrow, execute_cast, execute_shift, binop_int,
      binop_bool, binop, borrow_global, exists_, move_from, move_to, set_slot, signer_address, instantiate_single_type,
      cast_integer, borrow_field, IntegerValue.lt, IntegerValue.le, IntegerValue.gt, IntegerValue.ge.
  all: eapply effect_computed; [effects|reflexivity|reflexivity].
Qed.
Lemma effect_next s p q (m : X ()) : effect_at s p q m -> effect_at s p q (next m).
Proof. intros Hm. eapply effect_eq; [apply (effect_at_bind s p q 0 0); [done|intros; apply effect_ret]|lia|lia]. Qed.
Lemma effect_counted s (r : result PartialVMError Z) p q (g : Z -> X ()) :
  quiet_result r -> (forall n, r = Ok n -> effect_at s p q (g n)) -> effect_at s p q (n ← st_lift r; g n).
Proof. intros Hq Hg. apply effect_skip; [by apply effect_lift|]. intros n s1 [Hn ->]%st_lift_ok. by apply Hg. Qed.
Lemma field_count_nonneg def : 0 <= StackUsageVerifier.field_count def.
Proof. unfold StackUsageVerifier.field_count. destruct (StructDefinition.field_information def); lia. Qed.

Lemma effect_pack opcode n : 0 <= n -> effect (Z.to_nat n) 1 (execute_pack opcode n).
Proof. intros Hn s. unfold execute_pack. eapply effect_computed; [effects|lia|lia]. Qed.

Lemma effect_vec_unpack r f si num s : 0 <= num ->
  effect_at s 1 (Z.to_nat num) (execute_instruction env r f (Bytecode.VecUnpack si num)).
Proof.
  intros Hn. cbn [execute_instruction]. unfold next, instantiate_single_type.
  eapply effect_eq; [eapply (effect_at_bind s 1 (Z.to_nat num) 0 0)|lia|lia]; [|intros; apply effect_ret].
  eapply effect_eq; [eapply (effect_at_bind s 1 0 0 (Z.to_nat num))|lia|lia]; [apply effect_pop_as; quiet_tac|intros c s1 _].
  apply effect_skip; [auto with quiet|intros _ s2 _]. apply effect_skip; [auto with quiet|intros ty s3 _].
  apply effect_skip; [auto with quiet|intros l s4 Hl]. unfold on_heap in Hl.
  destruct (Vector.unpack _ _ _ _) as [[l' h]| | |] eqn:E; simplify_eq. apply vec_unpack_length in E.
  rewrite <- E, Nat2Z.id. apply effect_for, effect_push.
Qed.

Lemma instruction_effects (ver : StackUsageVerifier) b p q (r : Resolver NF) f s :
  resolves r ver.(StackUsageVerifier.resolver) -> StackUsageVerifier.instruction_effect ver b = Ok (p, q) ->
  wf_bytecode b = true -> is_exit b = false -> shaped r b s ->
  p <= zlen (stack s) -> zlen (stack s) <= OPERAND_STACK_SIZE_LIMIT ->
  effect_at s (Z.to_nat p) (Z.to_nat q) (execute_instruction env r f b).
Proof.
  intros Hr He Hw Hx Hs Hp Hl. destruct b; try done; try (by eapply simple_effects).
  - cbn in He. apply res_bind_ok in He as (d & Hd & [= <- <-]). apply effect_next, effect_counted; [auto with quiet|intros n Hn].
    rewrite (resolves_fields _ _ Hr _ _ _ Hd Hn). apply effect_pack. apply field_count_nonneg.
  - cbn in He. apply res_bind_ok in He as (i & Hi & He). apply res_bind_ok in He as (d & Hd & [= <- <-]).
    apply effect_next, effect_counted; [auto with quiet|intros n Hn].
    rewrite (resolves_instance_fields _ _ Hr _ _ _ _ Hi Hd Hn). apply effect_pack. apply field_count_nonneg.
  - cbn in He. apply res_bind_ok in He as (d & Hd & [= <- <-]). apply effect_next, effect_counted; [auto with quiet|intros n Hn].
    rewrite <- (resolves_fields _ _ Hr _ _ _ Hd Hn). by apply effect_unpack, Hs.
  - cbn in He. apply res_bind_ok in He as (i & Hi & He). apply res_bind_ok in He as (d & Hd & [= <- <-]).
    apply effect_next, effect_counted; [auto with quiet|intros n Hn].
    rewrite <- (resolves_instance_fields _ _ Hr _ _ _ _ Hi Hd Hn). by apply effect_unpack, Hs.
  - injection He as <- <-. apply effect_next. apply (effect_widen s 0 0 1); [apply effect_charge|simpl; lia].
  - injection He as <- <-. apply andb_true_iff in Hw as [_ Hw%in_range_spec]. unfold OPERAND_STACK_SIZE_LIMIT in *.
    cbn [execute_instruction]. rewrite Z.mod_small by lia. unfold next, instantiate_single_type.
    eapply effect_computed; [eapply effect_bind; [eapply effect_bind; [apply effect_popn; lia|intros ?; effects]|intros ?; effects]|lia|lia].
  - injection He as <- <-. apply andb_true_iff in Hw as [_ Hw%in_range_spec]. apply effect_vec_unpack. lia.
Qed.
End effects.

(** * Flow *)

Definition exit_of (b : Bytecode) : option ExitCode :=
  match b with
  | Bytecode.Ret => Some Return
  | Bytecode.Call idx => Some (Call idx)
  | Bytecode.CallGeneric idx => Some (CallGeneric idx)
  | _ => None
  end.

Lemma is_exit_of b : is_exit b = false <-> exit_of b = None.
Proof. by destruct b. Qed.

(** A body that ends with a branch does not run over its end. *)
Lemma falls_through code pc b :
  ends_with_branch code -> code !! Z.to_nat pc = Some b -> Bytecode.is_unconditional_branch b = false -> 0 <= pc ->
  pc + 1 < zlen code.
Proof.
  intros (b' & Hl & Hb') Hb Hn H0. pose proof (lookup_lt_Some _ _ _ Hb). destruct (decide (pc + 1 = zlen code)) as [E|]; [|lia].
  rewrite last_lookup in Hl. replace (Init.Nat.pred (length code)) with (Z.to_nat pc) in Hl by lia. congruence.
Qed.
Lemma verify_ends f c : ControlFlow.verify f c = Ok () -> ends_with_branch c.(CodeUnit.code).
Proof.
  intros H. unfold ControlFlow.verify in H. unfold ends_with_branch.
  destruct (list.last c.(CodeUnit.code)) as [b|]; [|done]. exists b. split; [done|].
  by destruct (Bytecode.is_unconditional_branch b).
Qed.

Section flow.
Context {NF DS Ext : Type} `{!DataStore DS} (env : Env NF DS Ext).

Lemma instruction_flow (r : Resolver NF) f b (s : Machine NF DS Ext) flow s' :
  execute_instruction env r f b s = Ok (flow, s') ->
  match flow with
  | Next => Bytecode.is_unconditional_branch b = false /\ exit_of b = None
  | Jump o => Bytecode.offset b = Some o /\ exit_of b = None
  | Exit c => exit_of b = Some c
  end.
Proof.
  intros H. destruct b; cbn [execute_instruction] in H; unfold next in H;
    repeat (apply st_bind_ok in H as (? & ? & _ & H)); try discriminate H; injection H as <- _; try done.
  all: by destruct x1.
Qed.
End flow.

(** * Calls *)

(** A native function returns as many values as its signature says. *)
Definition native_returns {NF DS Ext} (env : Env NF DS Ext) (g : Function NF) : Prop :=
  forall nf s r ty_args args w res w' vs,
    g.(Function.native) = Some nf -> env.(call_native_function) nf s r ty_args args w = Ok (res, w') ->
    res.(result_) = inl vs -> length vs = length g.(Function.return_).

Section calls.
Context {NF DS Ext : Type} `{!DataStore DS} (env : Env NF DS Ext) `{!QuietEnv env}.
Abbreviation Mach := (Machine NF DS Ext).
Abbreviation X := (ST Mach PartialVMError).
Abbreviation stack s := (s.(Machine.operand_stack)).
Abbreviation limit := OPERAND_STACK_SIZE_LIMIT.

Lemma effect_pops {B} (l : list B) (f : B -> X ()) : (forall x, effect 1 0 (f x)) -> effect (length l) 0 (st_for l f).
Proof.
  intros Hf. induction l as [|x l IH]; [apply effect_ret|]. cbn [st_for length]. intros s.
  eapply effect_eq; [apply (effect_at_bind s 1 0 (length l) 0); [apply Hf|intros; apply IH]|lia|lia].
Qed.
Lemma effect_make_frame g ty_args : effect (length g.(Function.parameters)) 0 (make_call_frame g ty_args : X _).
Proof.
  unfold make_call_frame. intros s. apply effect_skip; [apply effect_heap, quiet_locals_new|intros l s1 _].
  eapply effect_eq; [apply effect_at_bind; [apply (effect_pops (seqZ 0 (Function.arg_count g)))|intros; apply effect_ret]|..].
  - intros i. apply (effect_bind 1 0 0 0); [apply effect_pop|intros v]. apply effect_heap. quiet_tac.
  - rewrite length_seqZ. unfold Function.arg_count. lia.
  - lia.
Qed.
Lemma effect_repeat n : effect n 0 (st_repeat n pop : X (list Value)).
Proof.
  induction n as [|n IH]; [apply effect_ret|]. cbn [st_repeat]. intros s.
  eapply effect_eq; [apply (effect_at_bind s 1 0 n 0); [apply effect_pop|intros v s1 _]|lia|lia].
  eapply effect_eq; [apply (effect_at_bind s1 n 0 0 0); [apply IH|intros vs s2 _; apply effect_ret]|lia|lia].
Qed.

Lemma effect_native r g ty_args : native_returns env g ->
  effect (length g.(Function.parameters)) (length g.(Function.return_)) (call_native_impl env r g ty_args).
Proof using QuietEnv0.
  intros Hg s. unfold call_native_impl.
  eapply effect_eq; [apply (effect_at_bind s (length g.(Function.parameters)) 0 0 (length g.(Function.return_)))|lia|lia].
  { unfold Function.arg_count. rewrite Nat2Z.id. apply effect_repeat. }
  intros args s1 _. apply effect_skip; [apply effect_lift; unfold Function.get_native; apply quiet_ok_or; by intros [?|?]|].
  intros nf s2 [Hn ->]%st_lift_ok. apply effect_skip.
  { apply effect_none.
    - intros x e H. unfold run_native in H. destruct (call_native_function _ _ _ _ _ _ _) as [[? [[? ?] ?]]| | |] eqn:E; simplify_eq.
      by eapply quiet_natives.
    - intros x a x' H. unfold run_native in H. by destruct (call_native_function _ _ _ _ _ _ _) as [[? [[? ?] ?]]| | |]; simplify_eq. }
  intros res s3 Hr. apply effect_skip; [apply effect_gas, quiet_deduct|intros [] s4 _].
  destruct (result_ res) as [vs|code] eqn:Ev; [|unfold effect_at, st_err; by intros [?|?]].
  unfold run_native in Hr. destruct (call_native_function _ _ _ _ _ _ _) as [[res' [[? ?] ?]]| | |] eqn:E in Hr; simplify_eq.
  unfold Function.get_native, ok_or in Hn. destruct (Function.native g) eqn:En; simplify_eq.
  rewrite <- (Hg _ _ _ _ _ _ _ _ _ En E Ev). apply effect_for, effect_push.
Qed.

(** Where the error of a computation is placed, its status stays, or is not one of a stack. *)
Definition keeps_status (h : list (Frame NF) -> PartialVMError -> VMError) : Prop :=
  forall cs e, stack_status (h cs e).(VMError.major_status) -> stack_status e.(major_status).

Lemma core_dump_status e : stack_status (maybe_core_dump e).(VMError.major_status) -> stack_status e.(VMError.major_status).
Proof. unfold maybe_core_dump. destruct (status_type _); try done. by intros [?|?]. Qed.
Lemma keeps_err_info (f : Frame NF) : keeps_status (fun _ => set_err_info f).
Proof. by intros cs e. Qed.
Lemma keeps_location : keeps_status (fun cs e => maybe_core_dump (set_location cs e)).
Proof. intros cs e H%core_dump_status. done. Qed.
Lemma keeps_native (g : Function NF) : keeps_status (fun cs e =>
  match Function.module_id g with
  | Some id => VMError.finish (Location.Module_ id) e
  | None => set_location cs (vm_error UNKNOWN_INVARIANT_VIOLATION_ERROR)
  end).
Proof. intros cs e. destruct (Function.module_id g); [done|]. by intros [?|?]. Qed.

(** The outcome of a call of [g] from the frame [f]: a native function leaves its results on
    the stack and the caller goes on; otherwise the arguments are in the locals of a new
    frame above the caller's. *)
Inductive entered (f : Frame NF) (g : Function NF) (s : Mach) : Frame NF -> Mach -> Prop :=
| entered_native f' s' base vs ws :
    Function.is_native g = true -> advance (E := VMError) f = Ok f' ->
    stack s = base ++ vs -> length vs = length g.(Function.parameters) ->
    stack s' = base ++ ws -> length ws = length g.(Function.return_) ->
    s'.(Machine.call_stack) = s.(Machine.call_stack) -> (zlen (stack s) <= limit -> zlen (stack s') <= limit) ->
    entered f g s f' s'
| entered_frame ty_args locals s' base vs :
    Function.is_native g = false -> stack s = base ++ vs -> length vs = length g.(Function.parameters) ->
    stack s' = base -> s'.(Machine.call_stack) = s.(Machine.call_stack) ++ [f] ->
    zlen s.(Machine.call_stack) < CALL_STACK_SIZE_LIMIT -> (zlen (stack s) <= limit -> zlen (stack s') <= limit) ->
    entered f g s (Frame.new g ty_args locals) s'.

(** A computation that reports no error of the stack and ends as [P] says. *)
Definition yields {B} (s : Mach) (m : FT Mach VMError B) (P : B -> Mach -> Prop) : Prop :=
  match m s with
  | Some (Ok (b, s')) => P b s'
  | Some (Err e) => ~ stack_status e.(VMError.major_status)
  | Some _ => True
  | None => False
  end.
Lemma yields_ft_bind {B C} s (m : FT Mach VMError B) (f : B -> FT Mach VMError C) (P : B -> Mach -> Prop) Q :
  yields s m P -> (forall b s1, P b s1 -> yields s1 (f b) Q) -> yields s (m ≫= f) Q.
Proof. unfold yields, mbind, FT_bind. intros Hm Hf. destruct (m s) as [[[b s1]| | |]|]; try done. by apply Hf. Qed.
Lemma yields_mono {B} s (m : FT Mach VMError B) (P Q : B -> Mach -> Prop) :
  yields s m P -> (forall b s', P b s' -> Q b s') -> yields s m Q.
Proof. unfold yields. intros Hm HPQ. destruct (m s) as [[[b s']| | |]|]; try done. by apply HPQ. Qed.
Lemma yields_attempt {A} s p q h (m : X A) :
  effect_at s p q m -> (p <= length (stack s))%nat -> keeps_status h ->
  yields s (attempt h m) (fun a s' => m s = Ok (a, s') /\
    exists base vs ws, stack s = base ++ vs /\ length vs = p /\ stack s' = base ++ ws /\ length ws = q /\
      s'.(Machine.call_stack) = s.(Machine.call_stack) /\ (zlen (stack s) <= limit -> zlen (stack s') <= limit)).
Proof.
  unfold effect_at, yields, attempt. intros Hm Hp Hh. destruct (m s) as [[a s']|e| |]; simpl; [done| |done|done].
  intros He%Hh. specialize (Hm He). lia.
Qed.
Lemma yields_advance s (f : Frame NF) : yields s (ft_lift (st_lift (advance f))) (fun f' s' => advance (E := VMError) f = Ok f' /\ s' = s).
Proof.
  unfold yields, ft_lift, st_lift. destruct (advance f) as [f'|e| |] eqn:Ef; try done.
  unfold advance in Ef. by destruct (in_range _ _).
Qed.

Lemma enter_entered r f g ty_args s :
  (Function.is_native g = true -> native_returns env g) -> (length g.(Function.parameters) <= length (stack s))%nat ->
  yields s (enter env r f g ty_args) (entered f g s).
Proof using QuietEnv0.
  intros Hg Hp. unfold enter. destruct (Function.is_native g) eqn:En.
  - eapply yields_ft_bind; [apply (yields_attempt s _ _ _ _ (effect_native r g ty_args (Hg eq_refl) s) Hp (keeps_native g))|].
    intros [] s1 (_ & base & vs & ws & ? & ? & ? & ? & ? & ?). eapply yields_mono; [apply yields_advance|].
    intros f' s' [? ->]. by eapply entered_native.
  - eapply yields_ft_bind; [apply (yields_attempt s _ _ _ _ (effect_make_frame g ty_args s) Hp keeps_location)|].
    intros f' s1 (Hm & base & vs & ws & E & Lv & E1 & Lw & C & B). destruct ws; [|done]. rewrite app_nil_r in E1.
    unfold yields, push_frame, mbind, FT_bind.
    destruct (Z.ltb_spec (zlen (Machine.call_stack s1)) CALL_STACK_SIZE_LIMIT) as [Hc|].
    + unfold make_call_frame in Hm. do 2 apply st_bind_ok in Hm as (? & ? & _ & Hm). injection Hm as <- <-.
      simpl. rewrite C in Hc. eapply entered_frame; simpl; try done. by rewrite C.
    + intros He%core_dump_status. by destruct He.
Qed.

(** The charges and look-ups before a call leave the stacks alone. *)
Lemma before_call {A B} s h (m : X A) (f : A -> FT Mach VMError B) (P : B -> Mach -> Prop) :
  effect 0 0 m -> keeps_status h ->
  (forall a s1, m s = Ok (a, s1) -> stack s1 = stack s -> s1.(Machine.call_stack) = s.(Machine.call_stack) -> yields s1 (f a) P) ->
  yields s (attempt h m ≫= f) P.
Proof.
  intros Hm Hh Hf. eapply yields_ft_bind; [apply (yields_attempt s 0 0 h m (Hm s) ltac:(lia) Hh)|].
  intros a s1 (E & base & vs & ws & Es & Lv & E1 & Lw & C & _). destruct vs; [|done]. destruct ws; [|done].
  apply Hf; congruence.
Qed.

(** What a call does, with the function that it finds. *)
Definition called (found : Function NF -> Prop) (p q : Z) (f : Frame NF) (s : Mach) (f' : Frame NF) (s' : Mach) : Prop :=
  exists g s0, found g /\ zlen g.(Function.parameters) = p /\ zlen g.(Function.return_) = q /\
    stack s0 = stack s /\ s0.(Machine.call_stack) = s.(Machine.call_stack) /\ entered f g s0 f' s'.

(** The function that a call finds has the signature that the verifier saw. *)
Lemma call_entered (ver : StackUsageVerifier) r f idx s p q :
  resolves r ver.(StackUsageVerifier.resolver) -> StackUsageVerifier.call_effect ver idx = Ok (p, q) ->
  (forall g, Resolver.function_from_handle r idx = Ok g -> Function.is_native g = true -> native_returns env g) ->
  p <= zlen (stack s) ->
  yields s (execute_call env r f idx) (called (fun g => Resolver.function_from_handle r idx = Ok g) p q f s).
Proof using QuietEnv0.
  intros Hr He Hn Hp. unfold StackUsageVerifier.call_effect in He.
  apply res_bind_ok in He as (handle & Hh & He). apply res_bind_ok in He as (ps & Hps & He).
  apply res_bind_ok in He as (rs & Hrs & [= <- <-]). unfold execute_call.
  apply before_call; [apply effect_charge_size|apply keeps_err_info|intros [] s1 _ E1 C1].
  apply before_call; [apply effect_lift, quiet_function_from_handle|apply keeps_err_info|intros g s2 [Hg ->]%st_lift_ok E2 C2].
  destruct (resolves_function _ _ Hr _ _ _ _ _ Hh Hps Hrs Hg) as [Lp Lr].
  apply before_call; [apply effect_charge_size|apply keeps_err_info|intros [] s3 _ E3 C3].
  eapply yields_mono; [apply enter_entered; [by apply Hn|rewrite E3, E1; lia]|].
  intros f' s' H. exists g, s3. split_and!; [done|lia|lia|congruence|congruence|done].
Qed.

Lemma call_generic_entered (ver : StackUsageVerifier) r f idx s p q :
  resolves r ver.(StackUsageVerifier.resolver) ->
  StackUsageVerifier.instruction_effect ver (Bytecode.CallGeneric idx) = Ok (p, q) ->
  (forall g, Resolver.function_from_instantiation r idx = Ok g -> Function.is_native g = true -> native_returns env g) ->
  p <= zlen (stack s) ->
  yields s (execute_call_generic env r f idx) (called (fun g => Resolver.function_from_instantiation r idx = Ok g) p q f s).
Proof using QuietEnv0.
  intros Hr He Hn Hp. cbn in He. unfold StackUsageVerifier.call_effect in He. apply res_bind_ok in He as (inst & Hi & He).
  apply res_bind_ok in He as (handle & Hh & He). apply res_bind_ok in He as (ps & Hps & He).
  apply res_bind_ok in He as (rs & Hrs & [= <- <-]). unfold execute_call_generic.
  apply before_call; [apply effect_lift, quiet_type_params_count|apply keeps_err_info|intros arity s1 [_ ->]%st_lift_ok _ _].
  apply before_call; [apply effect_charge_size|apply keeps_err_info|intros [] s1 _ E1 C1].
  apply before_call; [apply effect_lift, quiet_instantiate_function|apply keeps_err_info|intros tys s2 [_ ->]%st_lift_ok _ _].
  apply before_call; [apply effect_lift, quiet_function_from_instantiation|apply keeps_err_info|intros g s2 [Hg ->]%st_lift_ok _ _].
  destruct (resolves_instance _ _ Hr _ _ _ _ _ _ Hi Hh Hps Hrs Hg) as [Lp Lr].
  apply before_call; [apply effect_charge_size|apply keeps_err_info|intros [] s3 _ E3 C3].
  eapply yields_mono; [apply enter_entered; [by apply Hn|rewrite E3, E1; lia]|].
  intros f' s' H. exists g, s3. split_and!; [done|lia|lia|congruence|congruence|done].
Qed.
End calls.

(** * The machine *)

Section machine.
Context {NF DS Ext : Type} `{!DataStore DS} (env : Env NF DS Ext).
Abbreviation Mach := (Machine NF DS Ext).
Abbreviation stack s := (s.(Machine.operand_stack)).
Abbreviation code f := (f.(Frame.function).(Function.code)).

(** The instruction that a frame is at runs. *)
Definition at_instruction (f : Frame NF) (s : Mach) (r : Resolver NF) (b : Bytecode) (flow : Flow) (s' : Mach) : Prop :=
  Resolver.get_resolver f.(Frame.function) env.(loader) = Ok r /\ code f !! Z.to_nat f.(Frame.pc) = Some b /\
  execute_instruction env r f b s = Ok (flow, s').

(** One instruction, call or return. *)
Inductive step : Frame NF * Mach -> Frame NF * Mach -> Prop :=
| step_next f s r b f' s' : at_instruction f s r b Next s' -> advance (E := PartialVMError) f = Ok f' -> step (f, s) (f', s')
| step_jump f s r b o s' : at_instruction f s r b (Jump o) s' -> o < zlen (code f) -> step (f, s) (Frame.set_pc f o, s')
| step_exit f s r b c s1 f' s' :
    at_instruction f s r b (Exit c) s1 -> handle_exit env r f c s1 = Some (Ok (Some f', s')) -> step (f, s) (f', s').

(** How a run ends: with the values on the stack, or with an error. *)
Definition frame_error (f : Frame NF) (e : PartialVMError) : VMError := maybe_core_dump (set_err_info f e).
Inductive stops : Frame NF * Mach -> result VMError (list Value) -> Prop :=
| stops_return f s r b c s1 s' :
    at_instruction f s r b (Exit c) s1 -> handle_exit env r f c s1 = Some (Ok (None, s')) -> stops (f, s) (Ok (stack s'))
| stops_exit f s r b c s1 e :
    at_instruction f s r b (Exit c) s1 -> handle_exit env r f c s1 = Some (Err e) -> stops (f, s) (Err e)
| stops_instruction f s r b e :
    Resolver.get_resolver f.(Frame.function) env.(loader) = Ok r -> code f !! Z.to_nat f.(Frame.pc) = Some b ->
    execute_instruction env r f b s = Err e -> stops (f, s) (Err (frame_error f e))
| stops_end f s : zlen (code f) <= f.(Frame.pc) -> stops (f, s) (Err (frame_error f (vm_error PC_OVERFLOW)))
| stops_jump f s r b o s' :
    at_instruction f s r b (Jump o) s' -> zlen (code f) <= o -> stops (f, s) (Err (frame_error f (vm_error PC_OVERFLOW))).

(** The execution of one instruction has no end of its own: the recursion through a value,
    or in what the environment provides, does not end. *)
Definition spins (c : Frame NF * Mach) : Prop :=
  exists r b, Resolver.get_resolver (fst c).(Frame.function) env.(loader) = Ok r /\
    code (fst c) !! Z.to_nat (fst c).(Frame.pc) = Some b /\
    (execute_instruction env r (fst c) b (snd c) = OutOfFuel \/
     exists code s1, execute_instruction env r (fst c) b (snd c) = Ok (Exit code, s1) /\
       handle_exit env r (fst c) code s1 = Some OutOfFuel).
Definition reaches_spin (c : Frame NF * Mach) : Prop := exists c', rtc step c c' /\ spins c'.

Lemma spin_after_steps c c' : rtc step c c' -> reaches_spin c' -> reaches_spin c.
Proof. intros H (c2 & H2 & Hx). exists c2. split; [by etrans|done]. Qed.

(** ** The loops make these steps *)

(** The branches of a body have offsets. *)
Definition offsets_ok (g : Function NF) : Prop := Forall (fun b => forall o, Bytecode.offset b = Some o -> 0 <= o) g.(Function.code).

Definition reaches (c : Frame NF * Mach) (x : result VMError (list Value)) : Prop := exists c', rtc step c c' /\ stops c' x.

Lemma reaches_after_step c c' x : step c c' -> reaches c' x -> reaches c x.
Proof. intros H (c2 & H2 & Hx). exists c2. split; [by eapply rtc_l|done]. Qed.
Lemma reaches_steps c c' x : rtc step c c' -> reaches c' x -> reaches c x.
Proof. intros H (c2 & H2 & Hx). exists c2. split; [by etrans|done]. Qed.

Lemma instructions_steps r instrs (f : Frame NF) (s : Mach) :
  Resolver.get_resolver f.(Frame.function) env.(loader) = Ok r -> offsets_ok f.(Frame.function) ->
  0 <= f.(Frame.pc) -> instrs = drop (Z.to_nat f.(Frame.pc)) (code f) ->
  match execute_instructions env r instrs f s with
  | Ok ((f', Some c), s') => exists s1 b, rtc step (f, s) (f', s1) /\ f'.(Frame.function) = f.(Frame.function) /\
      at_instruction f' s1 r b (Exit c) s'
  | Ok ((f', None), s') => f'.(Frame.function) = f.(Frame.function) /\ 0 <= f'.(Frame.pc) /\
      (f'.(Frame.pc) < zlen (code f) -> rtc step (f, s) (f', s')) /\
      (zlen (code f) <= f'.(Frame.pc) -> reaches (f, s) (Err (frame_error f (vm_error PC_OVERFLOW))))
  | Err e => reaches (f, s) (Err (frame_error f e))
  | Panic => True
  | OutOfFuel => reaches_spin (f, s)
  end.
Proof.
  intros Hr Ho. revert f s Hr Ho. induction instrs as [|b instrs IH]; intros f s Hr Ho H0 Hd.
  { simpl. split_and!; [done|done|done|]. intros Hl. exists (f, s). split; [done|]. by apply stops_end. }
  cbn [execute_instructions].
  assert (code f !! Z.to_nat f.(Frame.pc) = Some b) as Hb.
  { rewrite <- (Nat.add_0_r (Z.to_nat _)), <- lookup_drop, <- Hd. done. }
  unfold mbind, ST_bind. destruct (execute_instruction env r f b s) as [[[|o|c] s1]|e| |] eqn:E; try done.
  - unfold st_lift. destruct (advance f) as [f1|e| |] eqn:Ef; [|unfold advance in Ef; by destruct (in_range _ _)|done|unfold advance in Ef; by destruct (in_range _ _)].
    assert (step (f, s) (f1, s1)) as Hstep by (by eapply step_next).
    unfold advance in Ef. destruct (in_range _ _) eqn:Er; simplify_eq. apply in_range_spec in Er.
    specialize (IH (Frame.set_pc f (f.(Frame.pc) + 1)) s1 Hr Ho ltac:(simpl; lia)). simpl in IH.
    replace (Z.to_nat (f.(Frame.pc) + 1)) with (S (Z.to_nat f.(Frame.pc))) in IH by lia.
    specialize (IH ltac:(rewrite <- Nat.add_1_r, <- drop_drop, <- Hd; done)).
    destruct (execute_instructions env r instrs _ s1) as [[[f' [c|]] s']|e| |]; try done.
    + destruct IH as (s2 & b' & Hs & Hf & Ha). exists s2, b'. split; [by eapply rtc_l|done].
    + destruct IH as (Hf & H0' & Hin & Hout). split_and!; [done|done|intros; eapply rtc_l; [done|by apply Hin]|].
      intros Hl. eapply reaches_after_step; [done|by apply Hout].
    + by eapply reaches_after_step.
    + by eapply spin_after_steps; [by apply rtc_once|].
  - simpl. assert (0 <= o) as Hoff.
    { destruct (instruction_flow env r f b s _ _ E) as [Hb' _]. unfold offsets_ok in Ho. rewrite Forall_forall in Ho.
      eapply Ho; [|exact Hb']. by eapply list_elem_of_In, list_elem_of_lookup_2. }
    split_and!; [done|done|intros Hl; apply rtc_once; by eapply step_jump|].
    intros Hl. exists (f, s). split; [done|]. by eapply stops_jump.
  - exists s, b. by split_and!.
  - exists (f, s). split; [done|]. by eapply stops_instruction.
  - exists (f, s). split; [done|]. exists r, b. split_and!; [done|done|by left].
Qed.

Lemma frame_error_function f f' e : f'.(Frame.function) = f.(Frame.function) -> frame_error f' e = frame_error f e.
Proof. intros E. unfold frame_error, set_err_info, Frame.location. by rewrite E. Qed.

Lemma code_steps fuel r (f : Frame NF) (s : Mach) :
  Resolver.get_resolver f.(Frame.function) env.(loader) = Ok r -> offsets_ok f.(Frame.function) -> 0 <= f.(Frame.pc) ->
  match execute_code_impl env fuel r f s with
  | Some (Ok ((f', c), s')) => exists s1 b, rtc step (f, s) (f', s1) /\ f'.(Frame.function) = f.(Frame.function) /\
      at_instruction f' s1 r b (Exit c) s'
  | Some (Err e) => reaches (f, s) (Err (frame_error f e))
  | Some OutOfFuel => reaches_spin (f, s)
  | _ => True
  end.
Proof.
  revert f s. induction fuel as [|fuel IH]; intros f s Hr Ho H0; [done|]. cbn [execute_code_impl].
  destruct (_ <? _); [done|]. unfold mbind, FT_bind, ft_lift.
  pose proof (instructions_steps r _ f s Hr Ho H0 eq_refl) as Hi.
  destruct (execute_instructions env r _ f s) as [[[f1 [c|]] s1]|e| |]; try done.
  destruct Hi as (Hf & H1 & Hin & Hout). destruct (Z.leb_spec (zlen (code f)) f1.(Frame.pc)) as [Hl|Hl]; [by apply Hout|].
  specialize (IH f1 s1). rewrite Hf in IH. specialize (IH Hr Ho H1). specialize (Hin Hl).
  destruct (execute_code_impl env fuel r f1 s1) as [[[[f2 c] s2]|e| |]|]; try done.
  - destruct IH as (s3 & b & Hs & Hf2 & Ha). exists s3, b. split; [by etrans|done].
  - rewrite <- (frame_error_function f f1 e Hf). by eapply reaches_steps.
  - by eapply spin_after_steps.
Qed.

(** Where every frame is at an offset of its body, the main loop makes the steps of the
    machine and returns what it stops with; or else [other] holds. *)
Lemma frames_steps (other : Prop) fuel (f : Frame NF) (s : Mach) :
  (forall c, rtc step (f, s) c -> (offsets_ok (fst c).(Frame.function) /\ 0 <= (fst c).(Frame.pc)) \/ other) ->
  match execute_frames env fuel f s with
  | Some (Ok (vs, _)) => reaches (f, s) (Ok vs) \/ other
  | Some (Err e) => reaches (f, s) (Err e) \/ other
  | Some OutOfFuel => reaches_spin (f, s) \/ other
  | Some Panic | None => True
  end.
Proof.
  revert f s. induction fuel as [|fuel IH]; intros f s Hc; [done|].
  destruct (Hc (f, s) (rtc_refl _ _)) as [[Ho H0]|Hother].
  2: { destruct (execute_frames env (S fuel) f s) as [[[? ?]|?| |]|]; try done; by right. }
  cbn [execute_frames]. simpl in Ho, H0.
  unfold execute_round, mbind, FT_bind, ft_lift, st_lift, execute_code.
  destruct (Resolver.get_resolver _ _) as [r|e| |] eqn:Hr; simpl; try done.
  2-3: exfalso; unfold Resolver.get_resolver in Hr; destruct (Function.scope _);
    unfold Loader.get_module, Loader.get_script in Hr; by destruct (_ !! _).
  pose proof (code_steps (S fuel) r f s Hr Ho H0) as Hs. cbn [execute_code_impl] in Hs |- *.
  destruct (if _ <? _ then _ else _) as [[[[f1 c] s1]|e| |]|]; simpl; try done; [|by left|by left].
  destruct Hs as (s2 & b & Hs & Hf & Ha).
  destruct (handle_exit env r f1 c s1) as [[[[f'|] s']|e| |]|] eqn:Eh; try done.
  - assert (rtc step (f, s) (f', s')) as Hs' by (eapply rtc_r; [exact Hs|by eapply step_exit]).
    specialize (IH f' s' ltac:(intros c' Hc'; apply Hc; by etrans)).
    destruct (execute_frames env fuel f' s') as [[[vs s3]|e| |]|]; try done;
      (destruct IH as [IH|IH]; [left; first [by eapply reaches_steps|by eapply spin_after_steps]|by right]).
  - left. exists (f1, s2). split; [done|]. by eapply stops_return.
  - left. exists (f1, s2). split; [done|]. by eapply stops_exit.
  - left. exists (f1, s2). split; [done|]. destruct Ha as (Hr1 & Hb & He). exists r, b. split_and!; [done|done|right; by exists c, s1].
Qed.
End machine.

(** Where resolved functions come from. *)
Section resolved.
Context {NF : Type}.
Lemma resolver_loader (g : Function NF) l r : Resolver.get_resolver g l = Ok r -> Resolver.loader r = l.
Proof. unfold Resolver.get_resolver. destruct (Function.scope g); intros H; inv_ok; done. Qed.
Lemma handle_in_loader (r : Resolver NF) idx g :
  Resolver.function_from_handle r idx = Ok g -> exists n, (Resolver.loader r).(Loader.functions) !! n = Some g.
Proof.
  unfold Resolver.function_from_handle, Loader.function_at, unwrap. intros H. apply res_bind_ok in H as (i & _ & H).
  destruct (_ !! _) eqn:E; simplify_eq. by eexists.
Qed.
Lemma instance_in_loader (r : Resolver NF) idx g :
  Resolver.function_from_instantiation r idx = Ok g -> exists n, (Resolver.loader r).(Loader.functions) !! n = Some g.
Proof.
  unfold Resolver.function_from_instantiation, Loader.function_at, unwrap. intros H. apply res_bind_ok in H as (i & _ & H).
  destruct (_ !! _) eqn:E; simplify_eq. by eexists.
Qed.
End resolved.

(** * Metered runs *)

Section metered_run.
Context {NF DS Ext : Type} `{!DataStore DS} (env : Env NF DS Ext) (table : CostTable).
Context (Hpos : positive_costs table) (Hnative : native_costs_ok env).
Context (Hoffsets : forall idx g, env.(loader).(Loader.functions) !! idx = Some g -> offsets_ok g).
Abbreviation Mach := (Machine NF DS Ext).
Abbreviation gas s := (s.(Machine.gas_status).(GasStatus.gas_left)).

(** Every step uses gas. *)
Lemma step_gas c c' :
  step env c c' -> metered table (snd c) -> metered table (snd c') /\ gas (snd c') + 1 <= gas (snd c).
Proof using Hpos Hnative.
  assert (forall r f b s flow s', execute_instruction env r f b s = Ok (flow, s') -> metered table s ->
    metered table s' /\ gas s' + exit_cost flow <= gas s) as Hi.
  { intros r f b s flow s' He Hs. destruct (is_call b) eqn:Eb.
    - destruct b; try done; injection He as <- <-; (split; [done|simpl; lia]).
    - destruct (instruction_pays env table Hpos r f b Eb _ _ _ Hs He) as (? & ? & _). split; [done|]. destruct flow as [| |[]]; simpl; lia. }
  intros Hstep Hs. destruct Hstep as [f s r b f' s' (_ & _ & He) _|f s r b o s' (_ & _ & He) _|f s r b c s1 f' s' (_ & _ & He) Hx];
    simpl in *; destruct (Hi _ _ _ _ _ _ He Hs) as [Hs1 Hg]; [done|done|].
  destruct (handle_exit_gas env table Hpos Hnative r f c _ _ _ Hs1 Hx) as [Hs' Hg']. split; [done|]. destruct c; simpl in *; lia.
Qed.

Lemma run_gas n c c' :
  nsteps (step env) n c c' -> metered table (snd c) -> metered table (snd c') /\ gas (snd c') + Z.of_nat n <= gas (snd c).
Proof using Hpos Hnative.
  induction 1 as [|n c c1 c' H1 _ IH]; intros Hs; [split; [done|lia]|].
  destruct (step_gas c c1 H1 Hs) as [Hs1 Hg1]. destruct (IH Hs1) as [Hs' Hg']. split; [done|lia].
Qed.

(** Every frame is at an offset that is not negative, of a body with such offsets. *)
Definition placed (f : Frame NF) : Prop := offsets_ok f.(Frame.function) /\ 0 <= f.(Frame.pc).
Definition located (s : Mach) : Prop := metered table s /\ Forall placed s.(Machine.call_stack).

Definition stays {A} (P : A -> Prop) (m : FT Mach VMError A) : Prop :=
  forall s a s', located s -> m s = Some (Ok (a, s')) -> located s' /\ P a.

Lemma stays_bind {A B} P Q (m : FT Mach VMError A) (f : A -> FT Mach VMError B) :
  stays P m -> (forall a, P a -> stays Q (f a)) -> stays Q (m ≫= f).
Proof.
  intros Hm Hf s b s' Hs H. unfold mbind, FT_bind in H. destruct (m s) as [[[a s1]| | |]|] eqn:E; simplify_eq.
  destruct (Hm _ _ _ Hs E) as [Hs1 Ha]. by apply (Hf a Ha s1).
Qed.
Lemma stays_ret {A} (P : A -> Prop) a : P a -> stays P (mret a).
Proof. intros Ha s ? s' Hs [= <- <-]. done. Qed.
Lemma stays_attempt {A} P h (m : ST Mach PartialVMError A) :
  uses table 0 m -> (forall s a s', m s = Ok (a, s') -> P a) -> stays P (attempt h m).
Proof.
  intros Hm HP s a s' [Hs Hc] H. unfold attempt, err_map in H. destruct (m s) as [[a1 s1]| | |] eqn:E; simplify_eq.
  destruct (Hm _ _ _ Hs E) as (Hs1 & _ & C). split; [split; [done|by rewrite C]|by eapply HP].
Qed.
Lemma stays_advance f : placed f -> stays placed (ft_lift (st_lift (advance f))).
Proof.
  intros [Ho Hp] s f' s' Hs [= [H ->]%st_lift_ok]. unfold advance in H. destruct (in_range _ _) eqn:E; simplify_eq.
  split; [done|]. split; [done|]. simpl. lia.
Qed.
Lemma stays_push f : placed f -> stays (fun _ => True) (push_frame f).
Proof.
  intros Hf s a s' [Hs Hc] H. unfold push_frame in H. destruct (_ <? _); simplify_eq. split; [|done].
  split; [exact Hs|]. simpl. apply Forall_app. split; [done|]. by constructor.
Qed.
Lemma stays_pop : stays (fun o => forall f, o = Some f -> placed f) (pop_frame (NF := NF) (DS := DS) (Ext := Ext)).
Proof.
  intros s o s' [Hs Hc] [= <- <-]. split; [split; [exact Hs|by apply Forall_take]|].
  intros f Hf. by eapply forall_lookup.
Qed.

Lemma stays_charge (f : Frame NF) opcode size :
  stays (fun _ => True) (attempt (fun (_ : list (Frame NF)) => set_err_info f) (charge_instr_with_size opcode size : ST Mach _ ())).
Proof using Hpos. apply stays_attempt; [eauto with gas|done]. Qed.
Lemma stays_read {A} (f : Frame NF) (r : result PartialVMError A) :
  stays (fun a => r = Ok a) (attempt (fun _ => set_err_info f) (st_lift r : ST Mach _ A)).
Proof. apply stays_attempt; [eauto with gas|]. by intros s a s' [H _]%st_lift_ok. Qed.

Lemma stays_enter r f g ty_args : placed f -> offsets_ok g -> stays placed (enter env r f g ty_args).
Proof using Hnative.
  intros Hf Hg. unfold enter, call_native. destruct (Function.is_native g).
  - apply (stays_bind (fun _ => True)); [by apply stays_attempt; [apply uses_native_impl|]|intros _ _; by apply stays_advance].
  - apply (stays_bind placed).
    + apply stays_attempt; [unfold make_call_frame; eauto 10 with gas|].
      intros s f' s' H. unfold make_call_frame in H. inv_ok. split; simpl; [done|lia].
    + intros f' Hf'. apply (stays_bind (fun _ => True)); [by apply stays_push|]. intros _ _. by apply stays_ret.
Qed.

Lemma stays_exit r f exit :
  Resolver.loader r = env.(loader) -> placed f ->
  stays (fun o => forall f', o = Some f' -> placed f') (handle_exit env r f exit).
Proof using Hpos Hnative Hoffsets.
  intros Hr Hf. assert (forall m : FT Mach VMError (Frame NF), stays placed m ->
    stays (fun o => forall f', o = Some f' -> placed f') (frame ← m; mret (Some frame))) as Hsome.
  { intros m Hm. eapply stays_bind; [exact Hm|]. intros f' Hf'. apply stays_ret. by intros ? [= <-]. }
  destruct exit as [|idx|idx]; cbn [handle_exit].
  - eapply stays_bind; [apply stays_pop|]. intros caller Hcaller.
    apply (stays_bind (fun _ => True)); [apply stays_attempt; [eauto with gas|done]|]. intros _ _.
    destruct caller as [f'|]; [|by apply stays_ret]. by apply Hsome, stays_advance, Hcaller.
  - apply Hsome. unfold execute_call. eapply stays_bind; [apply stays_charge|intros _ _].
    eapply stays_bind; [apply stays_read|intros g Hg]. eapply stays_bind; [apply stays_charge|intros _ _].
    apply stays_enter; [done|]. apply handle_in_loader in Hg as [n Hg]. eapply Hoffsets. by rewrite <- Hr.
  - apply Hsome. unfold execute_call_generic. eapply stays_bind; [apply stays_read|intros arity _].
    eapply stays_bind; [apply stays_charge|intros _ _]. eapply stays_bind; [apply stays_read|intros tys _].
    eapply stays_bind; [apply stays_read|intros g Hg]. eapply stays_bind; [apply stays_charge|intros _ _].
    apply stays_enter; [done|]. apply instance_in_loader in Hg as [n Hg]. eapply Hoffsets. by rewrite <- Hr.
Qed.

(** A step keeps every frame at an offset of its body. *)
Lemma step_located c c' :
  step env c c' -> placed (fst c) -> located (snd c) -> placed (fst c') /\ located (snd c').
Proof using Hpos Hnative Hoffsets.
  intros Hstep. pose proof (step_gas c c' Hstep) as Hgas.
  assert (forall r f b s flow s', execute_instruction env r f b s = Ok (flow, s') -> located s -> located s') as Hi.
  { intros r f b s flow s' He [Hs Hc]. destruct (is_call b) eqn:Eb; [by destruct b; try done; injection He as <- <-|].
    destruct (instruction_pays env table Hpos r f b Eb _ _ _ Hs He) as (? & _ & C). split; [done|by rewrite C]. }
  destruct Hstep as [f s r b f' s' (_ & _ & He) Hf|f s r b o s' (Hr & Hb & He) _|f s r b c s1 f' s' (Hr & _ & He) Hx];
    simpl in *; intros Hp Hl; pose proof (Hi _ _ _ _ _ _ He Hl) as Hl1.
  - split; [|done]. destruct Hp as [Ho H0]. unfold advance in Hf. destruct (in_range _ _); simplify_eq. split; simpl; [done|lia].
  - split; [|done]. destruct Hp as [Ho H0]. split; [done|]. destruct (instruction_flow env r f b s _ _ He) as [Hoff _].
    by eapply (forall_lookup _ _ _ _ Ho Hb).
  - destruct (stays_exit r f c (resolver_loader _ _ _ Hr) Hp _ _ _ Hl1 Hx) as [Hl' Hf']. split; [by apply Hf'|done].
Qed.

Lemma run_located c c' :
  rtc (step env) c c' -> placed (fst c) -> located (snd c) -> placed (fst c').
Proof using Hpos Hnative Hoffsets.
  induction 1 as [|c c1 c' H1 _ IH]; [done|]. intros Hp Hl. destruct (step_located c c1 H1 Hp Hl). by apply IH.
Qed.
End metered_run.

(** * The stack discipline *)

Section discipline.
Context {NF DS Ext : Type} `{!DataStore DS} (env : Env NF DS Ext).
Abbreviation Mach := (Machine NF DS Ext).
Abbreviation stack s := (s.(Machine.operand_stack)).
Abbreviation code f := (f.(Frame.function).(Function.code)).

(** A function with a body that passed the verifier under a view with which its resolver
    agrees. *)
Record verified (g : Function NF) (v : BinaryIndexedView) (fv : FunctionView) : Prop := {
  verified_view : checked_view v fv;
  verified_stack : StackUsageVerifier.verify v fv = Ok ();
  verified_code : g.(Function.code) = fv.(FunctionView.code).(CodeUnit.code);
  verified_return : g.(Function.return_) = fv.(FunctionView.return_);
  verified_resolver r : Resolver.get_resolver g env.(loader) = Ok r -> resolves r v }.

(** What the loader promises of the functions it holds. *)
Class VerifiedProgram : Prop := {
  program_verified idx g : env.(loader).(Loader.functions) !! idx = Some g -> Function.is_native g = false ->
    exists v fv, verified g v fv;
  program_natives idx g : env.(loader).(Loader.functions) !! idx = Some g -> native_returns env g }.

(** The functions that a run can call. *)
Definition owned (entry g : Function NF) : Prop := g = entry \/ exists n, env.(loader).(Loader.functions) !! n = Some g.

(** The frames that wait for [g] to return, each at its call, the first in [entry], with
    [base] values on the stack below those of [g]. *)
Inductive callers (entry : Function NF) : list (Frame NF) -> Function NF -> Z -> Prop :=
| callers_nil : callers entry [] entry 0
| callers_snoc fs f g v fv b c h p q base :
    callers entry fs f.(Frame.function) base -> owned entry f.(Frame.function) -> verified f.(Frame.function) v fv -> 0 <= base ->
    0 <= f.(Frame.pc) -> code f !! Z.to_nat f.(Frame.pc) = Some b -> exit_of b = Some c -> c <> Return ->
    StackUsageVerifier.instruction_effect (verifier_of v fv) b = Ok (p, q) -> runs_to (verifier_of v fv) f.(Frame.pc) h ->
    p <= h -> zlen g.(Function.return_) = q -> callers entry (fs ++ [f]) g (base + h - p).

(** The frame has, above the values of its callers, as many values as the verifier computed
    for its offset. *)
Record disciplined (entry : Function NF) (f : Frame NF) (s : Mach) v fv (h base : Z) : Prop := {
  disc_owned : owned entry f.(Frame.function);
  disc_verified : verified f.(Frame.function) v fv;
  disc_pc : 0 <= f.(Frame.pc);
  disc_runs : runs_to (verifier_of v fv) f.(Frame.pc) h;
  disc_callers : callers entry s.(Machine.call_stack) f.(Frame.function) base;
  disc_height : zlen (stack s) = base + h;
  disc_base : 0 <= base;
  disc_limit : zlen (stack s) <= OPERAND_STACK_SIZE_LIMIT;
  disc_depth : zlen s.(Machine.call_stack) <= CALL_STACK_SIZE_LIMIT }.

(** What the verifier knows of the instruction at an offset that runs. *)
Record checked_at (g : Function NF) v fv (pc h : Z) (b : Bytecode) (p q : Z) : Prop := {
  at_code : g.(Function.code) !! Z.to_nat pc = Some b;
  at_effect : StackUsageVerifier.instruction_effect (verifier_of v fv) b = Ok (p, q);
  at_height : p <= h;
  at_return : b = Bytecode.Ret -> h = zlen g.(Function.return_);
  at_wf : wf_bytecode b = true;
  at_pops : 0 <= p;
  at_pushes : 0 <= q;
  at_falls : Bytecode.is_unconditional_branch b = false -> 0 <= pc -> pc + 1 < zlen g.(Function.code) }.

Lemma verified_at g v fv pc h : verified g v fv -> runs_to (verifier_of v fv) pc h -> exists b p q, checked_at g v fv pc h b p q.
Proof.
  intros [Hv Hs Hc Hret _] Hrun. pose proof (checked_view_ok v fv Hv) as Hok. pose proof Hok as [Hin [order HG] _ Hwf _ _].
  pose proof (verify_blocks v fv Hs) as Hb.
  pose proof (runs_height (verifier_of v fv) _ order Hb pc h Hrun) as Hh.
  destruct (height_at_effect (verifier_of v fv) _ order Hb pc h Hh) as (b & p & q & Hcode & He & Hp & _ & Hr).
  assert (wf_bytecode b = true) as Hw by (eapply (forall_lookup _ _ _ _ Hwf), Hcode).
  destruct (instruction_effect_nonneg _ _ _ _ _ Hw He).
  exists b, p, q. split; rewrite ?Hc, ?Hret; try done. intros Hn Hpc.
  destruct Hv as [m d c hd i fv Hm Hbd Hd Hdc Hfh Hcf Hl Ef|m fv Hm Hbd Hcf Hl Ef].
  - eapply falls_through; [|exact Hcode|done|done]. apply (verify_ends (Some i)).
    unfold FunctionView.function in Ef. inv_ok. done.
  - eapply falls_through; [|exact Hcode|done|done]. apply (verify_ends None).
    unfold FunctionView.script in Ef. inv_ok. done.
Qed.
Lemma runs_on g v fv pc h b p q s :
  verified g v fv -> runs_to (verifier_of v fv) pc h -> checked_at g v fv pc h b p q ->
  successor g.(Function.code) pc b s -> runs_to (verifier_of v fv) s (h - p + q).
Proof.
  intros Hv Hrun [Hcode Heff Hp _ _ _ _ _] Hs. rewrite (verified_code _ _ _ Hv) in Hcode, Hs. by eapply runs_step.
Qed.
(** A call and a return lead to the next instruction. *)
Lemma runs_past g v fv pc h b p q :
  verified g v fv -> runs_to (verifier_of v fv) pc h -> checked_at g v fv pc h b p q ->
  Bytecode.is_unconditional_branch b = false -> 0 <= pc -> runs_to (verifier_of v fv) (pc + 1) (h - p + q).
Proof.
  intros Hv Hrun Hat Hn Hpc. eapply runs_on; [done..|]. right. split; [done|]. split; [|done].
  by apply (at_falls _ _ _ _ _ _ _ _ Hat).
Qed.

Lemma verified_offsets g v fv : verified g v fv -> offsets_ok g.
Proof.
  intros Hv. pose proof (view_wf _ _ (checked_view_ok v fv (verified_view _ _ _ Hv))) as Hwf.
  unfold offsets_ok. rewrite (verified_code _ _ _ Hv). eapply List.Forall_impl; [|exact Hwf]. intros b Hb o. by apply wf_offset.
Qed.

Context `{!QuietEnv env} (Hprog : VerifiedProgram) (entry : Function NF).

(** The struct that an [Unpack] is about to take apart has the fields of its type. *)
Definition shaped_at (c : Frame NF * Mach) : Prop :=
  forall r b, Resolver.get_resolver (fst c).(Frame.function) env.(loader) = Ok r ->
    code (fst c) !! Z.to_nat (fst c).(Frame.pc) = Some b -> shaped r b (snd c).

(** The number of fields of the type that an instruction unpacks. *)
Definition unpack_count (r : Resolver NF) (b : Bytecode) : option Z :=
  match match b with
        | Bytecode.Unpack idx => Resolver.field_count r idx
        | Bytecode.UnpackGeneric idx => Resolver.field_instantiation_count r idx
        | _ => Panic
        end with
  | Ok n => Some n
  | _ => None
  end.

(** An [Unpack] is about to take apart a struct with another number of fields. *)
Definition misshapen (c : Frame NF * Mach) : Prop :=
  exists r b n base struct_ box fields,
    Resolver.get_resolver (fst c).(Frame.function) env.(loader) = Ok r /\
    code (fst c) !! Z.to_nat (fst c).(Frame.pc) = Some b /\ unpack_count r b = Some n /\
    stack (snd c) = base ++ [ValueImpl.Container_ (Struct struct_)] /\
    (snd c).(Machine.heap) !! struct_ = Some box /\ box.(RcBox.contents) = Values fields /\
    length fields <> Z.to_nat n.

Lemma unpacks_dec (s : Mach) n :
  unpacks s n \/ exists base r box l, stack s = base ++ [ValueImpl.Container_ (Struct r)] /\
    s.(Machine.heap) !! r = Some box /\ box.(RcBox.contents) = Values l /\ length l <> n.
Proof.
  assert (stack s = [] \/ exists base v, stack s = base ++ [v]) as [E|(base & v & E)].
  { induction (stack s) using rev_ind; [by left|right; by eexists _, _]. }
  - left. intros base' r' b' l' E'. rewrite E in E'. by destruct base'.
  - assert (forall r' b' l', v = ValueImpl.Container_ (Struct r') -> Machine.heap s !! r' = Some b' ->
      RcBox.contents b' = Values l' -> length l' = n -> unpacks s n) as Hyes.
    { intros r' b' l' -> Hb Hl Hn base2 r2 b2 l2 E2. rewrite E in E2. apply app_inj_tail in E2 as [_ [= <-]]. congruence. }
    assert ((forall r' b' l', v = ValueImpl.Container_ (Struct r') -> Machine.heap s !! r' = Some b' ->
      RcBox.contents b' = Values l' -> False) -> unpacks s n) as Hno.
    { intros Hno base2 r2 b2 l2 E2 Hb Hl. rewrite E in E2. apply app_inj_tail in E2 as [_ ->]. by destruct (Hno r2 b2 l2). }
    destruct v as [| | | | | |c| |]; try (left; by apply Hno). destruct c as [| |r| | | | |]; try (left; by apply Hno).
    destruct (Machine.heap s !! r) as [box|] eqn:Eb; [|left; apply Hno; intros ? ? ? [= <-]; congruence].
    destruct (RcBox.contents box) as [l| | | | | |] eqn:El; try (left; apply Hno; intros ? ? ? [= <-]; congruence).
    destruct (decide (length l = n)) as [Hl|Hl]; [left; by eapply Hyes|]. right. by exists base, r, box, l.
Qed.

Lemma shaped_or_misshapen c : shaped_at c \/ misshapen c.
Proof.
  destruct c as [f s]. unfold shaped_at, misshapen. simpl.
  destruct (Resolver.get_resolver _ _) as [r| | |] eqn:Hr; [|by left..].
  destruct (code f !! _) as [b|] eqn:Hb; [|by left].
  destruct (unpack_count r b) as [n|] eqn:Hn.
  - destruct (unpacks_dec s (Z.to_nat n)) as [Hu|(base & l & box & fields & Hu)]; [left|right; by exists r, b, n, base, l, box, fields].
    intros ? ? [= <-] [= <-]. unfold unpack_count in Hn. destruct b; try done; simpl; intros n' Hn'; rewrite Hn' in Hn; by simplify_eq.
  - left. intros ? ? [= <-] [= <-]. unfold unpack_count in Hn. destruct b; try done; simpl; intros n' Hn'; by rewrite Hn' in Hn.
Qed.

(** A step from a state in which [Unpack] finds what its type says. *)
Definition shaped_step (c c' : Frame NF * Mach) : Prop := shaped_at c /\ step env c c'.

(** A run consists of such steps, or of some up to a struct of another shape. *)
Lemma shaped_run c c' :
  rtc (step env) c c' -> rtc shaped_step c c' \/ exists c1, rtc shaped_step c c1 /\ misshapen c1.
Proof.
  induction 1 as [|c c1 c2 Hstep _ IH]; [by left|].
  destruct (shaped_or_misshapen c) as [Hs|Hm]; [|right; by exists c].
  assert (shaped_step c c1) as Hs1 by done.
  destruct IH as [IH|(c3 & IH & Hm)]; [left; by eapply rtc_l|right; exists c3; split; [by eapply rtc_l|done]].
Qed.

(** An instruction that does not leave the body. *)
Lemma inner_step f s v fv h base r b p q :
  disciplined entry f s v fv h base -> checked_at f.(Frame.function) v fv f.(Frame.pc) h b p q ->
  Resolver.get_resolver f.(Frame.function) env.(loader) = Ok r -> shaped r b s -> exit_of b = None ->
  match execute_instruction env r f b s with
  | Ok (_, s') => zlen (stack s') = base + (h - p + q) /\ s'.(Machine.call_stack) = s.(Machine.call_stack) /\
      zlen (stack s') <= OPERAND_STACK_SIZE_LIMIT
  | Err e => ~ stack_status e.(major_status)
  | Panic | OutOfFuel => True
  end.
Proof using QuietEnv0.
  intros Hd Hat Hr Hs Hx. pose proof (disc_height _ _ _ _ _ _ _ Hd) as Hh. pose proof (disc_base _ _ _ _ _ _ _ Hd).
  pose proof (disc_limit _ _ _ _ _ _ _ Hd) as Hl. pose proof (at_height _ _ _ _ _ _ _ _ Hat).
  pose proof (at_pops _ _ _ _ _ _ _ _ Hat). pose proof (at_pushes _ _ _ _ _ _ _ _ Hat).
  pose proof (instruction_effects env (verifier_of v fv) b p q r f s) as He. unfold effect_at in He.
  specialize (He (verified_resolver _ _ _ (disc_verified _ _ _ _ _ _ _ Hd) r Hr) (at_effect _ _ _ _ _ _ _ _ Hat)
    (at_wf _ _ _ _ _ _ _ _ Hat) (proj2 (is_exit_of b) Hx) Hs ltac:(lia) Hl).
  destruct (execute_instruction env r f b s) as [[flow s']|e| |]; [|intros He'; specialize (He He'); lia|done|done].
  destruct He as (bs & vs & ws & E & Lv & E' & Lw & C & B). rewrite E, length_app in Hh. split_and!; [|done|by apply B].
  rewrite E', length_app. lia.
Qed.

Definition some_disciplined (f : Frame NF) (s : Mach) : Prop := exists v fv h base, disciplined entry f s v fv h base.

(** An instruction that leaves the body only charges gas. *)
Lemma leaving_step r f b c s :
  exit_of b = Some c -> effect_at s 0 0 (execute_instruction env r f b).
Proof using QuietEnv0.
  intros Hb. destruct b; simplify_eq/=; [|apply effect_ret|apply effect_ret].
  apply effect_skip; [apply effect_charge|intros; apply effect_ret].
Qed.

(** A call that [f] makes. *)
Lemma called_disciplined f s v fv h base b c p q s' f' found :
  disciplined entry f s v fv h base -> checked_at f.(Frame.function) v fv f.(Frame.pc) h b p q ->
  exit_of b = Some c -> c <> Return ->
  (forall g, found g -> exists n, env.(loader).(Loader.functions) !! n = Some g) ->
  called found p q f s f' s' -> some_disciplined f' s'.
Proof using Hprog.
  intros [Ho Hv H0 Hrun Hcs Hh Hb Hl Hd] Hat Hx Hc Hfound (g & s0 & Hg & Lp & Lr & Es & Ec & He).
  pose proof Hat as [Hcode Heff Hp _ Hwf Hp0 Hq0 Hfall].
  destruct He as [f' s' bs vs ws En Ef E Lv E' Lw C B|ty_args locals s' bs vs En E Lv E' C Cd B].
  - unfold advance in Ef. destruct (in_range _ _) eqn:Er; simplify_eq. apply in_range_spec in Er.
    assert (Bytecode.is_unconditional_branch b = false) as Hn by (destruct b; simplify_eq/=; done).
    exists v, fv, (h - zlen g.(Function.parameters) + zlen g.(Function.return_)), base.
    rewrite Es in E, B. split; simpl; try done; [lia| |by rewrite C, Ec| |by apply B|by rewrite C, Ec].
    + by eapply runs_past.
    + rewrite E, length_app in Hh. rewrite E', length_app. lia.
  - destruct (Hfound g Hg) as [n Hn]. destruct (program_verified n g Hn En) as (v' & fv' & Hv').
    rewrite Es in E, B. rewrite Ec in C, Cd. exists v', fv', 0, (base + h - p).
    split; simpl; try done; [by right; exists n|apply runs_entry| | |lia|by apply B|].
    + rewrite C. by eapply callers_snoc.
    + rewrite E, length_app in Hh. rewrite E'. lia.
    + rewrite C, length_app. simpl. lia.
Qed.

(** A return to the caller. *)
Lemma return_disciplined f s v fv h base s1 :
  disciplined entry f s v fv h base -> h = zlen f.(Frame.function).(Function.return_) ->
  stack s1 = stack s -> s1.(Machine.call_stack) = s.(Machine.call_stack) ->
  forall r, yields s1 (handle_exit env r f Return) (fun o s' =>
    match o with
    | Some f' => some_disciplined f' s'
    | None => zlen (stack s') = zlen entry.(Function.return_)
    end).
Proof.
  intros [Ho Hv H0 Hrun Hcs Hh Hb Hl Hd] Hret Es Ec r. cbn [handle_exit].
  eapply yields_ft_bind with (P := fun o s2 => stack s2 = stack s /\ s.(Machine.call_stack) =
    match o with Some f' => s2.(Machine.call_stack) ++ [f'] | None => [] end).
  { unfold yields, pop_frame. simpl. split; [done|]. rewrite Ec. destruct (_ !! _) as [f'|] eqn:E; [by apply last_split|].
    apply lookup_ge_None in E. apply nil_length_inv. lia. }
  intros o s2 [E2 C2]. apply before_call; [apply effect_heap; quiet_tac|apply keeps_err_info|intros [] s3 _ E3 C3].
  destruct o as [f'|]; [|unfold yields; simpl].
  2: { rewrite E3, E2. rewrite C2 in Hcs. inversion Hcs; subst; [lia|]. by destruct fs. }
  eapply yields_ft_bind; [apply yields_advance|]. intros f2 s4 [Ef ->]. unfold yields. simpl.
  rewrite C2 in Hcs. inversion Hcs as [E|fs f1 g v1 fv1 b c h1 p q base1 Hcs1 Ho1 Hv1 Hb1 Hpc1 Hcode Hx Hc Heff Hrun1 Hp Hr E Eg Eb];
    [by destruct (Machine.call_stack s2)|].
  apply app_inj_2 in E as [-> [= ->]]; [|done]. subst.
  destruct (verified_at _ v1 fv1 _ _ Hv1 Hrun1) as (b' & p' & q' & Hat). pose proof Hat as [Hcode' Heff' _ _ _ _ _ Hfall].
  rewrite Hcode in Hcode'. injection Hcode' as <-. rewrite Heff in Heff'. injection Heff' as <- <-.
  unfold advance in Ef. destruct (in_range _ _) eqn:Er; simplify_eq. apply in_range_spec in Er.
  assert (Bytecode.is_unconditional_branch b = false) as Hn by (by destruct b; simplify_eq/=).
  exists v1, fv1, (h1 - p + zlen (Function.return_ (Frame.function f))), base1.
  split; simpl; try done; [lia| |by rewrite C3|rewrite E3, E2; lia|by rewrite E3, E2|].
  + by eapply runs_past.
  + rewrite C3. rewrite C2, length_app in Hd. simpl in Hd. lia.
Qed.

Lemma exit_disciplined f s v fv h base r b c s1 :
  disciplined entry f s v fv h base -> at_instruction env f s r b (Exit c) s1 ->
  yields s1 (handle_exit env r f c) (fun o s' =>
    match o with
    | Some f' => some_disciplined f' s'
    | None => zlen (stack s') = zlen entry.(Function.return_)
    end).
Proof using Hprog QuietEnv0.
  intros Hd (Hr & Hcode & He). pose proof (instruction_flow env r f b s _ _ He) as Hx. simpl in Hx.
  destruct (verified_at _ v fv _ _ (disc_verified _ _ _ _ _ _ _ Hd) (disc_runs _ _ _ _ _ _ _ Hd)) as (b' & p & q & Hat).
  pose proof (at_code _ _ _ _ _ _ _ _ Hat) as Hcode'. rewrite Hcode in Hcode'. injection Hcode' as <-.
  pose proof (leaving_step r f b c s Hx) as Hl. unfold effect_at in Hl. rewrite He in Hl.
  destruct Hl as (bs & vs & ws & E & Lv & E' & Lw & C & _). destruct vs; [|done]. destruct ws; [|done].
  assert (stack s1 = stack s) as Es by congruence.
  pose proof (verified_resolver _ _ _ (disc_verified _ _ _ _ _ _ _ Hd) r Hr) as Hres. pose proof (resolver_loader _ _ _ Hr) as Hld.
  pose proof (disc_height _ _ _ _ _ _ _ Hd). pose proof (disc_base _ _ _ _ _ _ _ Hd). pose proof (at_height _ _ _ _ _ _ _ _ Hat).
  pose proof (at_effect _ _ _ _ _ _ _ _ Hat) as Heff.
  assert (disciplined entry f s1 v fv h base) as Hd1 by (destruct Hd; split; by rewrite ?Es, ?C).
  destruct c.
  - apply (return_disciplined f s v fv h base); [done| |done|done].
    apply (at_return _ _ _ _ _ _ _ _ Hat). by destruct b; simplify_eq/=.
  - assert (b = Bytecode.Call idx) as -> by (clear -Hx; destruct b; simpl in Hx; congruence).
    assert (forall g, Resolver.function_from_handle r idx = Ok g -> exists n, env.(loader).(Loader.functions) !! n = Some g) as Hin
      by (intros g Hg%handle_in_loader; by rewrite Hld in Hg).
    cbn [handle_exit]. eapply yields_ft_bind.
    { eapply (call_entered env (verifier_of v fv)); [exact Hres|exact Heff| |rewrite Es; lia].
      intros g [n Hn]%Hin _. by eapply program_natives. }
    intros f' s' Hcall. eapply (called_disciplined f s1 v fv h base (Bytecode.Call idx) (Call idx)); [done..|exact Hin|exact Hcall].
  - assert (b = Bytecode.CallGeneric idx) as -> by (clear -Hx; destruct b; simpl in Hx; congruence).
    assert (forall g, Resolver.function_from_instantiation r idx = Ok g -> exists n, env.(loader).(Loader.functions) !! n = Some g) as Hin
      by (intros g Hg%instance_in_loader; by rewrite Hld in Hg).
    cbn [handle_exit]. eapply yields_ft_bind.
    { eapply (call_generic_entered env (verifier_of v fv)); [exact Hres|exact Heff| |rewrite Es; lia].
      intros g [n Hn]%Hin _. by eapply program_natives. }
    intros f' s' Hcall.
    eapply (called_disciplined f s1 v fv h base (Bytecode.CallGeneric idx) (CallGeneric idx)); [done..|exact Hin|exact Hcall].
Qed.

(** The instruction of a frame that keeps the discipline. *)
Lemma at_disciplined f s v fv h base b :
  disciplined entry f s v fv h base -> code f !! Z.to_nat f.(Frame.pc) = Some b ->
  exists p q, checked_at f.(Frame.function) v fv f.(Frame.pc) h b p q.
Proof.
  intros Hd Hcode. destruct (verified_at _ v fv _ _ (disc_verified _ _ _ _ _ _ _ Hd) (disc_runs _ _ _ _ _ _ _ Hd)) as (b' & p & q & Hat).
  pose proof (at_code _ _ _ _ _ _ _ _ Hat) as Hcode'. rewrite Hcode in Hcode'. injection Hcode' as <-. by exists p, q.
Qed.

(** An instruction within the body keeps the discipline at each of its successors. *)
Lemma inner_disciplined f s v fv h base r b flow s' t :
  disciplined entry f s v fv h base -> shaped_at (f, s) -> at_instruction env f s r b flow s' -> exit_of b = None ->
  successor (code f) f.(Frame.pc) b t -> 0 <= t -> some_disciplined (Frame.set_pc f t) s'.
Proof using QuietEnv0.
  intros Hd Hs (Hr & Hcode & He) Hx Ht Ht0. destruct (at_disciplined f s v fv h base b Hd Hcode) as (p & q & Hat).
  pose proof (inner_step f s v fv h base r b p q Hd Hat Hr (Hs r b Hr Hcode) Hx) as Hi. rewrite He in Hi.
  destruct Hi as (Hh & C & Hl). destruct Hd as [Ho Hv H0 Hrun Hcs _ Hb _ Hdepth].
  exists v, fv, (h - p + q), base. split; simpl; try done; [by eapply runs_on|by rewrite C|by rewrite C].
Qed.

Lemma step_disciplined f s c : some_disciplined f s -> shaped_at (f, s) -> step env (f, s) c -> some_disciplined (fst c) (snd c).
Proof using Hprog QuietEnv0.
  intros (v & fv & h & base & Hd) Hs Hstep.
  inversion Hstep as [? ? r b f' s' Ha Hf|? ? r b o s' Ha Ho|? ? r b c0 s1 f' s' Ha Hx]; subst; simpl.
  - pose proof Ha as (_ & Hcode & He). destruct (instruction_flow env r f b s _ _ He) as [Hn Hx].
    unfold advance in Hf. destruct (in_range _ _) eqn:Er; simplify_eq. apply in_range_spec in Er.
    destruct (at_disciplined f s v fv h base b Hd Hcode) as (p & q & Hat).
    eapply inner_disciplined; [done..| |lia]. right. split; [done|]. split; [|done].
    apply (at_falls _ _ _ _ _ _ _ _ Hat Hn), (disc_pc _ _ _ _ _ _ _ Hd).
  - pose proof Ha as (_ & Hcode & He). destruct (instruction_flow env r f b s _ _ He) as [Hoff Hx].
    destruct (at_disciplined f s v fv h base b Hd Hcode) as (p & q & Hat).
    eapply inner_disciplined; [done..|by left|]. eapply wf_offset; [apply (at_wf _ _ _ _ _ _ _ _ Hat)|done].
  - pose proof (exit_disciplined f s v fv h base r b c0 s1 Hd Ha) as Hy. unfold yields in Hy. by rewrite Hx in Hy.
Qed.

Lemma stops_disciplined f s x : some_disciplined f s -> shaped_at (f, s) -> stops env (f, s) x ->
  match x with
  | Ok vs => zlen vs = zlen entry.(Function.return_)
  | Err e => ~ stack_status e.(VMError.major_status)
  | Panic | OutOfFuel => True
  end.
Proof using Hprog QuietEnv0.
  intros (v & fv & h & base & Hd) Hs Hstop.
  inversion Hstop as [? ? r b c s1 s' Ha Hx|? ? r b c s1 e Ha Hx|? ? r b e Hr Hcode He|? ? Hl|? ? r b o s' Ha Ho]; subst.
  - pose proof (exit_disciplined f s v fv h base r b c s1 Hd Ha) as Hy. unfold yields in Hy. by rewrite Hx in Hy.
  - pose proof (exit_disciplined f s v fv h base r b c s1 Hd Ha) as Hy. unfold yields in Hy. by rewrite Hx in Hy.
  - intros Hst%core_dump_status. simpl in Hst. destruct (at_disciplined f s v fv h base b Hd Hcode) as (p & q & Hat).
    destruct (exit_of b) as [c|] eqn:Hx.
    + pose proof (leaving_step r f b c s Hx) as Hl. unfold effect_at in Hl. rewrite He in Hl. specialize (Hl Hst). lia.
    + pose proof (inner_step f s v fv h base r b p q Hd Hat Hr (Hs r b Hr Hcode) Hx) as Hi. by rewrite He in Hi.
  - exfalso. destruct (verified_at _ v fv _ _ (disc_verified _ _ _ _ _ _ _ Hd) (disc_runs _ _ _ _ _ _ _ Hd)) as (b & p & q & Hat).
    pose proof (lookup_lt_Some _ _ _ (at_code _ _ _ _ _ _ _ _ Hat)). pose proof (disc_pc _ _ _ _ _ _ _ Hd). lia.
  - exfalso. pose proof Ha as (_ & Hcode & He). destruct (instruction_flow env r f b s _ _ He) as [Hoff Hx].
    destruct (at_disciplined f s v fv h base b Hd Hcode) as (p & q & Hat).
    assert (0 <= o) by (eapply wf_offset; [apply (at_wf _ _ _ _ _ _ _ _ Hat)|done]).
    destruct (inner_disciplined f s v fv h base r b _ s' o Hd Hs Ha Hx (or_introl Hoff) ltac:(done)) as (v' & fv' & h' & base' & Hd').
    destruct (verified_at _ v' fv' _ _ (disc_verified _ _ _ _ _ _ _ Hd') (disc_runs _ _ _ _ _ _ _ Hd')) as (b' & p' & q' & Hat').
    pose proof (lookup_lt_Some _ _ _ (at_code _ _ _ _ _ _ _ _ Hat')). simpl in *. lia.
Qed.

(** Every state that a run reaches keeps the discipline, if each [Unpack] on the way finds
    the fields of its type. *)
Lemma reachable_disciplined c c' :
  some_disciplined (fst c) (snd c) -> rtc shaped_step c c' -> some_disciplined (fst c') (snd c').
Proof using Hprog QuietEnv0.
  intros Hd Hr. revert Hd. induction Hr as [|[f s] [f1 s1] c2 [Hs H1] H2 IH]; intros Hd; [done|].
  apply IH. by eapply (step_disciplined f s (f1, s1)).
Qed.
End discipline.
