(* ===== verification/Loading.v ===== *)
(** Loading code: the module cache, loaded modules and scripts and the loader of
    move-vm/runtime/src/loader.rs with the type cache, the publication of modules of
    move-vm/runtime/src/runtime.rs and the data cache of move-vm/runtime/src/data_cache.rs.

    An error is its status code; locations and messages are not recorded.  The locks are
    left out: a loader is used by one thread at a time.  The cache keeps what was loaded
    before an error, so an error comes with the cache. *)
From stdpp Require Import gmap.
From S2P Require Import Prelude StatusCode Abilities Identifier FileFormat BinaryCommon Access BoundsChecker Constants InstantiationLoops.
From S2P Require Import Verifier Dependencies CyclicDependencies Normalized Compatibility VmValues Runtime.

Abbreviation R := (result StatusCode).

(** * Caches *)

Module BinaryCache.
Section cache.
Context {K V : Type} `{Countable K}.
Record BinaryCache : Type := mk { id_map : gmap K Z; binaries : list V }.

Definition new : BinaryCache := mk ∅ [].
Definition insert (self : BinaryCache) (key : K) (binary : V) : BinaryCache :=
  let binaries := self.(binaries) ++ [binary] in
  mk (<[key := zlen binaries - 1]> self.(id_map)) binaries.
Definition get (self : BinaryCache) (key : K) : option V :=
  idx ← self.(id_map) !! key; self.(binaries) !! Z.to_nat idx.
End cache.
Arguments BinaryCache K V {_ _}.
End BinaryCache.
Abbreviation BinaryCache := BinaryCache.BinaryCache.

Module StructType.
Record StructType : Set := mk {
  fields : list RuntimeType.Type_;
  abilities : AbilitySet;
  type_parameters : list StructTypeParameter;
  name : Identifier;
  module : ModuleId;
  struct_def : StructDefinitionIndex }.
Definition type_param_constraints (self : StructType) : list AbilitySet :=
  map StructTypeParameter.constraints self.(type_parameters).
End StructType.
Abbreviation StructType := StructType.StructType.

(** [iter().enumerate().rev()] until an entry of another module or one with the name. *)
Inductive Search : Set := Found (idx : Z) | Foreign | Exhausted.
Fixpoint search_entries {A} (own named : A -> bool) (entries : list (nat * A)) : Search :=
  match entries with
  | [] => Exhausted
  | (idx, x) :: entries =>
    if negb (own x) then Foreign else if named x then Found (Z.of_nat idx) else search_entries own named entries
  end.
Definition search_back {A} (own named : A -> bool) (l : list A) : Search := search_entries own named (rev (imap pair l)).

Module ModuleCache.
Section cache.
Context {NF : Type}.
Record ModuleCache : Type := mk {
  modules : BinaryCache ModuleId LoadedModule;
  structs : list StructType;
  functions : list (Function NF) }.

Definition new : ModuleCache := mk BinaryCache.new [] [].

Definition module_at (self : ModuleCache) (id : ModuleId) : option LoadedModule := BinaryCache.get self.(modules) id.
Definition function_at (self : ModuleCache) (idx : Z) : R (Function NF) := unwrap (self.(functions) !! Z.to_nat idx).
Definition struct_at (self : ModuleCache) (idx : Z) : R StructType := unwrap (self.(structs) !! Z.to_nat idx).
Definition has_module (self : ModuleCache) (module_id : ModuleId) : bool :=
  bool_decide (is_Some (self.(modules).(BinaryCache.id_map) !! module_id)).

Definition resolve_struct_by_name (self : ModuleCache) (struct_name : Identifier) (module_id : ModuleId) :
    R (Z * StructType) :=
  match (module ← module_at self module_id; module.(LoadedModule.struct_map) !! struct_name) with
  | Some struct_idx => struct_type ← struct_at self struct_idx; Ok (struct_idx, struct_type)
  | None => Err TYPE_RESOLUTION_FAILURE
  end.

Definition resolve_function_by_name (self : ModuleCache) (func_name : Identifier) (module_id : ModuleId) : R Z :=
  match (module ← module_at self module_id; module.(LoadedModule.function_map) !! func_name) with
  | Some func_idx => Ok func_idx
  | None => Err FUNCTION_RESOLUTION_FAILURE
  end.

(** ** Types *)

(** The name of a struct and of its module. *)
Definition struct_and_module (module : BinaryIndexedView) (sh_idx : StructHandleIndex) : R (Identifier * ModuleId) :=
  struct_handle ← BinaryIndexedView.struct_handle_at module sh_idx;
  struct_name ← BinaryIndexedView.identifier_at module struct_handle.(StructHandle.name);
  module_handle ← BinaryIndexedView.module_handle_at module struct_handle.(StructHandle.module);
  module_id ← BinaryIndexedView.module_id_for_handle module module_handle;
  Ok (struct_name, module_id).

Fixpoint make_type_internal (module : BinaryIndexedView) (resolver : Identifier -> ModuleId -> R Z)
    (tok : SignatureToken) : R RuntimeType.Type_ :=
  match tok with
  | SignatureToken.Bool => Ok RuntimeType.Bool
  | SignatureToken.U8 => Ok RuntimeType.U8
  | SignatureToken.U64 => Ok RuntimeType.U64
  | SignatureToken.U128 => Ok RuntimeType.U128
  | SignatureToken.Address => Ok RuntimeType.Address
  | SignatureToken.Signer => Ok RuntimeType.Signer
  | SignatureToken.TypeParameter idx => Ok (RuntimeType.TyParam idx)
  | SignatureToken.Vector inner_tok =>
    inner_type ← make_type_internal module resolver inner_tok; Ok (RuntimeType.Vector inner_type)
  | SignatureToken.Reference inner_tok =>
    inner_type ← make_type_internal module resolver inner_tok; Ok (RuntimeType.Reference inner_type)
  | SignatureToken.MutableReference inner_tok =>
    inner_type ← make_type_internal module resolver inner_tok; Ok (RuntimeType.MutableReference inner_type)
  | SignatureToken.Struct sh_idx =>
    '(struct_name, module_id) ← struct_and_module module sh_idx;
    def_idx ← resolver struct_name module_id;
    Ok (RuntimeType.Struct def_idx)
  | SignatureToken.StructInstantiation sh_idx tys =>
    type_parameters ← ModuleAccess.map_res (make_type_internal module resolver) tys;
    '(struct_name, module_id) ← struct_and_module module sh_idx;
    def_idx ← resolver struct_name module_id;
    Ok (RuntimeType.StructInstantiation def_idx type_parameters)
  end.

Definition make_type (self : ModuleCache) (module : BinaryIndexedView) (tok : SignatureToken) : R RuntimeType.Type_ :=
  make_type_internal module (fun struct_name module_id =>
    '(idx, _) ← resolve_struct_by_name self struct_name module_id; Ok idx) tok.

(** While a module is loaded, its own structs are the last ones of the cache. *)
Definition make_type_while_loading (self : ModuleCache) (module : CompiledModule) (tok : SignatureToken) :
    R RuntimeType.Type_ :=
  self_id ← ModuleAccess.self_id module;
  make_type_internal (BinaryIndexedView.Module_ module) (fun struct_name module_id =>
    if bool_decide (module_id = self_id) then
      match search_back (fun st => bool_decide (st.(StructType.module) = module_id))
              (fun st => bool_decide (st.(StructType.name) = struct_name)) self.(structs) with
      | Found idx => Ok idx
      | Foreign | Exhausted => Err TYPE_RESOLUTION_FAILURE
      end
    else '(idx, _) ← resolve_struct_by_name self struct_name module_id; Ok idx) tok.

(** ** Definitions *)

Definition make_struct_type (module : CompiledModule) (struct_def : StructDefinition) (idx : StructDefinitionIndex) :
    R StructType :=
  struct_handle ← ModuleAccess.struct_handle_at module struct_def.(StructDefinition.struct_handle);
  name ← ModuleAccess.identifier_at module struct_handle.(StructHandle.name);
  id ← ModuleAccess.self_id module;
  Ok (StructType.mk [] struct_handle.(StructHandle.abilities) struct_handle.(StructHandle.type_parameters) name id idx).

(** The types of the fields of all the structs of the module. *)
Definition field_types (self : ModuleCache) (module : CompiledModule) : R (list (list RuntimeType.Type_)) :=
  ModuleAccess.map_res (fun struct_def =>
    match struct_def.(StructDefinition.field_information) with
    | Native => Panic
    | Declared fields => ModuleAccess.map_res (fun field => make_type_while_loading self module field.(FieldDefinition.signature)) fields
    end) module.(CompiledModule.struct_defs).

(** [struct_type.fields = fields] for the structs from [struct_idx] on. *)
Fixpoint set_fields (structs : list StructType) (struct_idx : nat) (field_types : list (list RuntimeType.Type_)) :
    R (list StructType) :=
  match field_types with
  | [] => Ok structs
  | fields :: field_types =>
    st ← unwrap (structs !! struct_idx);
    set_fields (<[struct_idx := StructType.mk fields st.(StructType.abilities) st.(StructType.type_parameters)
                                  st.(StructType.name) st.(StructType.module) st.(StructType.struct_def)]> structs)
      (S struct_idx) field_types
  end.

Definition load_field_types (self : ModuleCache) (module : CompiledModule) (starting_idx : nat) : R ModuleCache :=
  field_types ← field_types self module;
  structs ← set_fields self.(structs) starting_idx field_types;
  Ok (mk self.(modules) structs self.(functions)).

(** [iter().enumerate()], with the index as a table index. *)
Definition enumerate {A} (l : list A) : list (TableIndex * A) := imap (fun i x => (Context.as_table_index i, x)) l.

(** The cache afterwards; the structs are removed again when their fields do not load, so
    that an error leaves the cache as it was. *)
Definition add_module (resolve : AccountAddress -> Identifier -> Identifier -> option NF) (self : ModuleCache)
    (module : CompiledModule) : R ModuleCache :=
  let starting_idx := length self.(structs) in
  sts ← ModuleAccess.map_res (fun '(idx, struct_def) => make_struct_type module struct_def idx)
          (enumerate module.(CompiledModule.struct_defs));
  self ← load_field_types (mk self.(modules) (self.(structs) ++ sts) self.(functions)) module starting_idx;
  fs ← ModuleAccess.map_res (fun '(findex, func) => Function.new resolve findex func module)
         (enumerate module.(CompiledModule.function_defs));
  Ok (mk self.(modules) self.(structs) (self.(functions) ++ fs)).
End cache.
Arguments ModuleCache : clear implicits.
End ModuleCache.
Abbreviation ModuleCache := ModuleCache.ModuleCache.

(** * Loaded modules and scripts *)

(** The signature of a vector instruction. *)
Definition vector_signature (bc : Bytecode) : option SignatureIndex :=
  match bc with
  | Bytecode.VecPack si _ | Bytecode.VecLen si | Bytecode.VecImmBorrow si | Bytecode.VecMutBorrow si
  | Bytecode.VecPushBack si | Bytecode.VecPopBack si | Bytecode.VecUnpack si _ | Bytecode.VecSwap si => Some si
  | _ => None
  end.

(** The types of the vector instructions of a body. *)
Definition add_single_signatures (signature_at : SignatureIndex -> R Signature)
    (make_type : SignatureToken -> R RuntimeType.Type_) (code : list Bytecode) :
    gmap SignatureIndex RuntimeType.Type_ -> R (gmap SignatureIndex RuntimeType.Type_) :=
  Context.fill (fun bc single_signature_token_map =>
    match vector_signature bc with
    | Some si =>
      if bool_decide (is_Some (single_signature_token_map !! si)) then Ok single_signature_token_map
      else
        signature ← signature_at si;
        sig_token ← ok_or (head signature) VERIFIER_INVARIANT_VIOLATION;
        ty ← make_type sig_token;
        Ok (<[si := ty]> single_signature_token_map)
    | None => Ok single_signature_token_map
    end) code.

(** [Module::new] *)
Module NewModule.
Section module.
Context {NF : Type} (module : CompiledModule) (cache : ModuleCache NF) (id : ModuleId).

(** The body of the loop over the struct handles: at the end of the structs nothing is
    pushed. *)
Definition push_struct_ref (struct_handle : StructHandle) (struct_refs : list Z) : R (list Z) :=
  struct_name ← ModuleAccess.identifier_at module struct_handle.(StructHandle.name);
  module_handle ← ModuleAccess.module_handle_at module struct_handle.(StructHandle.module);
  module_id ← ModuleAccess.module_id_for_handle module module_handle;
  if bool_decide (module_id = id) then
    match search_back (fun st => bool_decide (st.(StructType.module) = module_id))
            (fun st => bool_decide (st.(StructType.name) = struct_name)) cache.(ModuleCache.structs) with
    | Found idx => Ok (struct_refs ++ [idx])
    | Foreign => Err TYPE_RESOLUTION_FAILURE
    | Exhausted => Ok struct_refs
    end
  else '(idx, _) ← ModuleCache.resolve_struct_by_name cache struct_name module_id; Ok (struct_refs ++ [idx]).

Definition push_struct (struct_refs : list Z) (struct_def : StructDefinition)
    (acc : list LoadedModule.StructDef * gmap Identifier Z) : R (list LoadedModule.StructDef * gmap Identifier Z) :=
  let '(structs, struct_map) := acc in
  idx ← index struct_refs struct_def.(StructDefinition.struct_handle);
  struct_type ← ModuleCache.struct_at cache idx;
  let field_count := zlen struct_type.(StructType.fields) mod 2 ^ 16 in
  struct_handle ← ModuleAccess.struct_handle_at module struct_def.(StructDefinition.struct_handle);
  name ← ModuleAccess.identifier_at module struct_handle.(StructHandle.name);
  Ok (structs ++ [LoadedModule.mk_struct_def field_count idx], <[name := idx]> struct_map).

Definition types_at (idx : SignatureIndex) : R (list RuntimeType.Type_) :=
  signature ← ModuleAccess.signature_at module idx;
  ModuleAccess.map_res (ModuleCache.make_type_while_loading cache module) signature.

Definition struct_instantiation (structs : list LoadedModule.StructDef) (struct_inst : StructDefInstantiation) :
    R LoadedModule.StructInstantiation :=
  struct_def ← index structs struct_inst.(StructDefInstantiation.def);
  instantiation ← types_at struct_inst.(StructDefInstantiation.type_parameters);
  Ok (LoadedModule.mk_struct_instantiation struct_def.(LoadedModule.field_count) struct_def.(LoadedModule.idx) instantiation).

Definition push_function_ref (func_handle : FunctionHandle) (function_refs : list Z) : R (list Z) :=
  func_name ← ModuleAccess.identifier_at module func_handle.(FunctionHandle.name);
  module_handle ← ModuleAccess.module_handle_at module func_handle.(FunctionHandle.module);
  module_id ← ModuleAccess.module_id_for_handle module module_handle;
  if bool_decide (module_id = id) then
    match search_back (fun f => bool_decide (Function.module_id f = Some module_id))
            (fun f => bool_decide (f.(Function.name) = func_name)) cache.(ModuleCache.functions) with
    | Found idx => Ok (function_refs ++ [idx])
    | Foreign => Err FUNCTION_RESOLUTION_FAILURE
    | Exhausted => Ok function_refs
    end
  else idx ← ModuleCache.resolve_function_by_name cache func_name module_id; Ok (function_refs ++ [idx]).

Definition add_function (function_refs : list Z) (func_def : FunctionDefinition)
    (acc : gmap Identifier Z * gmap SignatureIndex RuntimeType.Type_) :
    R (gmap Identifier Z * gmap SignatureIndex RuntimeType.Type_) :=
  let '(function_map, single_signature_token_map) := acc in
  idx ← index function_refs func_def.(FunctionDefinition.function);
  handle ← ModuleAccess.function_handle_at module func_def.(FunctionDefinition.function);
  name ← ModuleAccess.identifier_at module handle.(FunctionHandle.name);
  single_signature_token_map ←
    match func_def.(FunctionDefinition.code) with
    | Some code_unit =>
      add_single_signatures (ModuleAccess.signature_at module) (ModuleCache.make_type_while_loading cache module)
        code_unit.(CodeUnit.code) single_signature_token_map
    | None => Ok single_signature_token_map
    end;
  Ok (<[name := idx]> function_map, single_signature_token_map).

Definition function_instantiation (function_refs : list Z) (func_inst : FunctionInstantiation) :
    R LoadedModule.FunctionInstantiation :=
  handle ← index function_refs func_inst.(FunctionInstantiation.handle);
  instantiation ← types_at func_inst.(FunctionInstantiation.type_parameters);
  Ok (LoadedModule.mk_function_instantiation handle instantiation).

Definition field_handle (structs : list LoadedModule.StructDef) (f_handle : FieldHandle) : R LoadedModule.FieldHandle :=
  owner ← index structs f_handle.(FieldHandle.owner);
  Ok (LoadedModule.mk_field_handle f_handle.(FieldHandle.field) owner.(LoadedModule.idx)).

Definition field_instantiation (field_handles : list LoadedModule.FieldHandle) (f_inst : FieldInstantiation) :
    R LoadedModule.FieldInstantiation :=
  handle ← index field_handles f_inst.(FieldInstantiation.handle);
  Ok (LoadedModule.mk_field_instantiation handle.(LoadedModule.offset) handle.(LoadedModule.owner)).
End module.

Definition new {NF} (module : CompiledModule) (cache : ModuleCache NF) : R LoadedModule :=
  id ← ModuleAccess.self_id module;
  struct_refs ← Context.fill (push_struct_ref module cache id) module.(CompiledModule.struct_handles) [];
  '(structs, struct_map) ← Context.fill (push_struct module cache struct_refs) module.(CompiledModule.struct_defs) ([], ∅);
  struct_instantiations ←
    ModuleAccess.map_res (struct_instantiation module cache structs) module.(CompiledModule.struct_def_instantiations);
  function_refs ← Context.fill (push_function_ref module cache id) module.(CompiledModule.function_handles) [];
  '(function_map, single_signature_token_map) ←
    Context.fill (add_function module cache function_refs) module.(CompiledModule.function_defs) (∅, ∅);
  function_instantiations ←
    ModuleAccess.map_res (function_instantiation module cache function_refs) module.(CompiledModule.function_instantiations);
  field_handles ← ModuleAccess.map_res (field_handle structs) module.(CompiledModule.field_handles);
  field_instantiations ← ModuleAccess.map_res (field_instantiation field_handles) module.(CompiledModule.field_instantiations);
  Ok (LoadedModule.mk id module struct_refs structs struct_instantiations function_refs function_instantiations
        field_handles field_instantiations function_map struct_map single_signature_token_map).
End NewModule.

(** [Script::new] *)
Module NewScript.
Section script.
Context {NF : Type} (script : CompiledScript) (cache : ModuleCache NF).
Abbreviation view := (BinaryIndexedView.Script_ script).

(** The name and the module of a handle. *)
Definition resolve_handle {A} (resolve : Identifier -> ModuleId -> R A) (name : IdentifierIndex) (module : ModuleHandleIndex) : R A :=
  name ← BinaryIndexedView.identifier_at view name;
  module_handle ← BinaryIndexedView.module_handle_at view module;
  module_id ← BinaryIndexedView.module_id_for_handle view module_handle;
  resolve name module_id.

Definition struct_ref (struct_handle : StructHandle) : R Z :=
  '(idx, _) ← resolve_handle (ModuleCache.resolve_struct_by_name cache) struct_handle.(StructHandle.name)
                struct_handle.(StructHandle.module);
  Ok idx.
Definition function_ref (func_handle : FunctionHandle) : R Z :=
  resolve_handle (ModuleCache.resolve_function_by_name cache) func_handle.(FunctionHandle.name)
    func_handle.(FunctionHandle.module).

Definition function_instantiation (function_refs : list Z) (func_inst : FunctionInstantiation) :
    R LoadedModule.FunctionInstantiation :=
  handle ← index function_refs func_inst.(FunctionInstantiation.handle);
  signature ← BinaryIndexedView.signature_at view func_inst.(FunctionInstantiation.type_parameters);
  instantiation ← ModuleAccess.map_res (ModuleCache.make_type cache view) signature;
  Ok (LoadedModule.mk_function_instantiation handle instantiation).

(** [Identifier::new("main")] *)
Definition main_name : Identifier := [109; 97; 105; 110].

Definition new (script_hash : list Z) : R (LoadedScript NF) :=
  struct_refs ← ModuleAccess.map_res struct_ref script.(CompiledScript.struct_handles);
  function_refs ← ModuleAccess.map_res function_ref script.(CompiledScript.function_handles);
  function_instantiations ← ModuleAccess.map_res (function_instantiation function_refs) script.(CompiledScript.function_instantiations);
  let code := script.(CompiledScript.code).(CodeUnit.code) in
  parameters ← BinaryIndexedView.signature_at view script.(CompiledScript.parameters);
  parameter_tys ← ModuleAccess.map_res (ModuleCache.make_type cache view) parameters;
  code_locals ← BinaryIndexedView.signature_at view script.(CompiledScript.code).(CodeUnit.locals);
  let main := Function.mk script.(CompiledScript.version) 0 code parameters [] (parameters ++ code_locals)
                script.(CompiledScript.type_parameters) None (Scope.Script script_hash) main_name in
  single_signature_token_map ←
    add_single_signatures (BinaryIndexedView.signature_at view) (ModuleCache.make_type cache view) code ∅;
  Ok (LoadedScript.mk script struct_refs function_refs function_instantiations main parameter_tys [] single_signature_token_map).
End script.
End NewScript.

(** * The loader *)

(** The operations of the trait [DataStore] on modules. *)
Module ModuleStore.
Class ModuleStore (DS : Type) : Type := {
  load_module : DS -> ModuleId -> R (list Z);
  exists_module : DS -> ModuleId -> R bool;
  publish_module : ModuleId -> list Z -> DS -> R DS }.

(** What the loader relies on: publication replaces one module. *)
Class PublishLaw (DS : Type) `{!ModuleStore DS} : Prop :=
  load_published : forall id blob (ds ds' : DS), publish_module id blob ds = Ok ds' ->
    forall id', load_module ds' id' = if decide (id' = id) then Ok blob else load_module ds id'.
End ModuleStore.
Abbreviation ModuleStore := ModuleStore.ModuleStore.
Abbreviation PublishLaw := ModuleStore.PublishLaw.

(** What a [Loader] changes; the natives are a parameter, and the type cache is
    the state of [TypeLoader] below. *)
Module LoaderState.
Record LoaderState {NF : Type} : Type := mk {
  scripts : BinaryCache (list Z) (LoadedScript NF);
  module_cache : ModuleCache NF }.
Arguments LoaderState : clear implicits.
Arguments mk {NF}.

Definition new {NF} : LoaderState NF := mk BinaryCache.new ModuleCache.new.

(** What the interpreter reads of it. *)
Definition loader {NF} (self : LoaderState NF) : Loader NF :=
  let cache := self.(module_cache) in
  Loader.mk cache.(ModuleCache.functions)
    (omap (fun idx => cache.(ModuleCache.modules).(BinaryCache.binaries) !! Z.to_nat idx) cache.(ModuleCache.modules).(BinaryCache.id_map))
    (omap (fun idx => self.(scripts).(BinaryCache.binaries) !! Z.to_nat idx) self.(scripts).(BinaryCache.id_map)).
End LoaderState.
Abbreviation LoaderState := LoaderState.LoaderState.

(** Computations on the loader: an error comes with the state it leaves. *)
Definition LM (S A : Type) : Type := S -> result (StatusCode * S) (A * S).

#[export] Instance LM_ret {S} : MRet (LM S) := fun A a s => Ok (a, s).
#[export] Instance LM_bind {S} : MBind (LM S) := fun A B f m s =>
  match m s with
  | Ok (a, s') => f a s'
  | Err e => Err e
  | Panic => Panic
  | OutOfFuel => OutOfFuel
  end.
Definition lm_lift {S A} (r : R A) : LM S A := fun s =>
  match r with
  | Ok a => Ok (a, s)
  | Err e => Err (e, s)
  | Panic => Panic
  | OutOfFuel => OutOfFuel
  end.
Definition lm_get {S} : LM S S := fun s => Ok (s, s).
Definition lm_out_of_fuel {S A} : LM S A := fun _ => OutOfFuel.

(** [map_err(f)] *)
Definition map_err {A} (f : StatusCode -> StatusCode) (r : R A) : R A :=
  match r with Err e => Err (f e) | _ => r end.

(** Code from the data store was verified before it was stored. *)
Definition expect_no_verification_errors (err : StatusCode) : StatusCode :=
  match status_type err with
  | Deserialization => UNEXPECTED_DESERIALIZATION_ERROR
  | Verification => UNEXPECTED_VERIFIER_ERROR
  | _ => err
  end.

(** A [BTreeSet] of module ids is iterated in the order of the addresses and the names. *)
Fixpoint lex_leb (a b : list Z) : bool :=
  match a, b with
  | [], _ => true
  | _ :: _, [] => false
  | x :: a, y :: b => if x =? y then lex_leb a b else x <? y
  end.
Definition ModuleId_leb (a b : ModuleId) : bool :=
  if bool_decide (a.1 = b.1 :> list Z) then lex_leb a.2 b.2 else lex_leb a.1 b.1.
Fixpoint insert_sorted (x : ModuleId) (l : list ModuleId) : list ModuleId :=
  match l with
  | [] => [x]
  | y :: l' => if ModuleId_leb x y then x :: l else y :: insert_sorted x l'
  end.
Definition sorted_elements (s : gset ModuleId) : list ModuleId := foldr insert_sorted [] (elements s).

Module CodeLoader.
Section loader.
Context {NF DS : Type} `{!ModuleStore DS}.
Context (resolve : AccountAddress -> Identifier -> Identifier -> option NF).
Context (from_bytes_seed : MoveTypeLayout -> list Z -> option MoveValue).
Context (toposort : list (Z * Z) -> Z + list Z).
Context (tarjan_scc : InstantiationLoopChecker.Graph -> list (list nat)).
Context (sha3_256 : list Z -> list Z).
Abbreviation L := (LM (LoaderState NF)).
Abbreviation verify := (Verifier.verify_module from_bytes_seed toposort tarjan_scc).

Definition get_cache : L (ModuleCache NF) := s ← lm_get; mret s.(LoaderState.module_cache).

(** [ModuleCache::insert]: the structs and functions that were pushed are removed when the
    module cannot be made, so an error leaves the cache as it was. *)
Definition insert (id : ModuleId) (module : CompiledModule) : L LoadedModule := fun s =>
  let cache := s.(LoaderState.module_cache) in
  match ModuleCache.module_at cache id with
  | Some cached => Ok (cached, s)
  | None =>
    match ModuleCache.add_module resolve cache module with
    | Ok cache =>
      let structs := cache.(ModuleCache.structs) in
      let functions := cache.(ModuleCache.functions) in
      match NewModule.new module cache with
      | Ok m =>
        Ok (m, LoaderState.mk s.(LoaderState.scripts)
                 (ModuleCache.mk (BinaryCache.insert cache.(ModuleCache.modules) id m) structs functions))
      | Err err =>
        let struct_def_count := length module.(CompiledModule.struct_defs) in
        let function_count := length module.(CompiledModule.function_defs) in
        Err (err, LoaderState.mk s.(LoaderState.scripts)
                    (ModuleCache.mk cache.(ModuleCache.modules) (take (length structs - struct_def_count) structs)
                       (take (length functions - function_count) functions)))
      | Panic => Panic
      | OutOfFuel => OutOfFuel
      end
    | Err err => Err (err, s)
    | Panic => Panic
    | OutOfFuel => OutOfFuel
    end
  end.

(** ** Modules *)

Definition check_natives (module : CompiledModule) : R () :=
  res_for (List.filter FunctionDefinition.is_native module.(CompiledModule.function_defs)) (fun native_function =>
    fh ← ModuleAccess.function_handle_at module native_function.(FunctionDefinition.function);
    mh ← ModuleAccess.module_handle_at module fh.(FunctionHandle.module);
    address ← ModuleAccess.address_identifier_at module mh.(ModuleHandle.address);
    module_name ← ModuleAccess.identifier_at module mh.(ModuleHandle.name);
    name ← ModuleAccess.identifier_at module fh.(FunctionHandle.name);
    ok_or (resolve address module_name name) MISSING_DEPENDENCY;; Ok ());;
  res_for module.(CompiledModule.struct_defs) (fun struct_def =>
    match struct_def.(StructDefinition.field_information) with
    | Native => Err MISSING_DEPENDENCY
    | Declared _ => Ok ()
    end).

Definition load_and_verify_module (id : ModuleId) (data_store : DS) (allow_loading_failure : bool) : R CompiledModule :=
  bytes ← map_err (if allow_loading_failure then fun err => err else expect_no_verification_errors)
            (ModuleStore.load_module data_store id);
  module ← map_err (fun _ => expect_no_verification_errors CODE_DESERIALIZATION_ERROR) (deserialize_module bytes);
  map_err expect_no_verification_errors (verify module);;
  map_err expect_no_verification_errors (check_natives module);;
  Ok module.

(** What loading collects besides: the modules on the way, and the friends of all. *)
Abbreviation Collected := (gset ModuleId * gset ModuleId)%type.

(** The loop over the dependencies of a module: those of the bundle, the loaded ones and
    what was collected. *)
Fixpoint load_dependencies (load : ModuleId -> Collected -> L (LoadedModule * Collected))
    (bundle_verified : gmap ModuleId CompiledModule) (deps : list ModuleId) (collected : Collected) :
    L (list CompiledModule * list LoadedModule * Collected) :=
  match deps with
  | [] => mret ([], [], collected)
  | module_id :: deps =>
    match bundle_verified !! module_id with
    | Some cached =>
      '(bundle_deps, cached_deps, collected) ← load_dependencies load bundle_verified deps collected;
      mret (cached :: bundle_deps, cached_deps, collected)
    | None =>
      cache ← get_cache;
      '(loaded, collected) ← match ModuleCache.module_at cache module_id with
                             | None => load module_id collected
                             | Some cached => mret (cached, collected)
                             end;
      '(bundle_deps, cached_deps, collected) ← load_dependencies load bundle_verified deps collected;
      mret (bundle_deps, loaded :: cached_deps, collected)
    end
  end.

Definition load_and_verify_dependencies (load : ModuleId -> Collected -> L (LoadedModule * Collected))
    (module : CompiledModule) (bundle_verified : gmap ModuleId CompiledModule) (collected : Collected)
    (allow_dependency_loading_failure : bool) : L Collected :=
  deps ← lm_lift (ModuleAccess.immediate_dependencies module);
  '(bundle_deps, cached_deps, collected) ← load_dependencies load bundle_verified deps collected;
  let all_imm_deps := bundle_deps ++ map LoadedModule.module cached_deps in
  let result := Dependencies.verify_module_impl module all_imm_deps in
  lm_lift (if allow_dependency_loading_failure then result else map_err expect_no_verification_errors result);;
  mret collected.

Fixpoint load_and_verify_module_and_dependencies (fuel : nat) (bundle_verified : gmap ModuleId CompiledModule)
    (data_store : DS) (allow_module_loading_failure : bool) (id : ModuleId) (collected : Collected) :
    L (LoadedModule * Collected) :=
  match fuel with
  | O => lm_out_of_fuel
  | S fuel =>
    let '(visited, friends_discovered) := collected in
    if bool_decide (id ∈ visited) then lm_lift (Err CYCLIC_MODULE_DEPENDENCY)
    else
      module ← lm_lift (load_and_verify_module id data_store allow_module_loading_failure);
      friends ← lm_lift (ModuleAccess.immediate_friends module);
      collected ← load_and_verify_dependencies
        (load_and_verify_module_and_dependencies fuel bundle_verified data_store false) module bundle_verified
        ({[id]} ∪ visited, list_to_set friends ∪ friends_discovered) false;
      module_ref ← insert id module;
      mret (module_ref, collected)
  end.

(** The friends that are still to be loaded. *)
Definition new_friends (cache : ModuleCache NF) (bundle_verified : gmap ModuleId CompiledModule)
    (bundle_unverified : gset ModuleId) (friends_discovered : gset ModuleId) : list ModuleId :=
  List.filter (fun mid => negb (ModuleCache.has_module cache mid) && negb (bool_decide (is_Some (bundle_verified !! mid))) &&
                     negb (bool_decide (mid ∈ bundle_unverified))) (sorted_elements friends_discovered).

(** [for x in l { f(x)?; }] *)
Fixpoint lm_for {S A} (l : list A) (f : A -> LM S ()) : LM S () :=
  match l with
  | [] => mret ()
  | x :: l => f x;; lm_for l f
  end.

Definition load_and_verify_friends (load : ModuleId -> L LoadedModule) (friends_discovered : gset ModuleId)
    (bundle_verified : gmap ModuleId CompiledModule) (bundle_unverified : gset ModuleId) : L () :=
  cache ← get_cache;
  lm_for (new_friends cache bundle_verified bundle_unverified friends_discovered) (fun module_id => load module_id;; mret ()).

Fixpoint load_and_verify_module_and_dependencies_and_friends (fuel : nat) (bundle_verified : gmap ModuleId CompiledModule)
    (bundle_unverified : gset ModuleId) (data_store : DS) (allow_module_loading_failure : bool) (id : ModuleId) :
    L LoadedModule :=
  match fuel with
  | O => lm_out_of_fuel
  | S fuel =>
    '(module_ref, collected) ←
      load_and_verify_module_and_dependencies (S fuel) bundle_verified data_store allow_module_loading_failure id (∅, ∅);
    load_and_verify_friends
      (load_and_verify_module_and_dependencies_and_friends fuel bundle_verified bundle_unverified data_store false)
      collected.2 bundle_verified bundle_unverified;;
    mret module_ref
  end.

(** A module of the bundle or of the cache. *)
Definition known_module (cache : ModuleCache NF) (bundle_verified : gmap ModuleId CompiledModule) (module_id : ModuleId) :
    R CompiledModule :=
  ok_or (match bundle_verified !! module_id with
         | Some m => Some m
         | None => LoadedModule.module <$> ModuleCache.module_at cache module_id
         end) MISSING_DEPENDENCY.

Definition verify_module_cyclic_relations (fuel : nat) (cache : ModuleCache NF) (module : CompiledModule)
    (bundle_verified : gmap ModuleId CompiledModule) (bundle_unverified : gset ModuleId) : R () :=
  CyclicDependencies.verify_module_impl fuel module
    (fun module_id => m ← known_module cache bundle_verified module_id; ModuleAccess.immediate_dependencies m)
    (fun module_id =>
       if bool_decide (module_id ∈ bundle_unverified) then Ok []
       else m ← known_module cache bundle_verified module_id; ModuleAccess.immediate_friends m).

Definition load_module_internal (fuel : nat) (id : ModuleId) (bundle_verified : gmap ModuleId CompiledModule)
    (bundle_unverified : gset ModuleId) (data_store : DS) : L LoadedModule :=
  cache ← get_cache;
  match ModuleCache.module_at cache id with
  | Some cached => mret cached
  | None =>
    module_ref ← load_and_verify_module_and_dependencies_and_friends fuel bundle_verified bundle_unverified data_store true id;
    cache ← get_cache;
    lm_lift (map_err expect_no_verification_errors
      (verify_module_cyclic_relations fuel cache module_ref.(LoadedModule.module) bundle_verified bundle_unverified));;
    mret module_ref
  end.

Definition load_module (fuel : nat) (id : ModuleId) (data_store : DS) : L LoadedModule :=
  load_module_internal fuel id ∅ ∅ data_store.

(** ** Types *)

Definition lm_map {S A B} (f : A -> LM S B) : list A -> LM S (list B) :=
  fix go l := match l with
              | [] => mret []
              | x :: l => y ← f x; ys ← go l; mret (y :: ys)
              end.

Fixpoint abilities (cache : ModuleCache NF) (ty : RuntimeType.Type_) : R AbilitySet :=
  match ty with
  | RuntimeType.Bool | RuntimeType.U8 | RuntimeType.U64 | RuntimeType.U128 | RuntimeType.Address => Ok AbilitySet.PRIMITIVES
  | RuntimeType.Reference _ | RuntimeType.MutableReference _ => Ok AbilitySet.REFERENCES
  | RuntimeType.Signer => Ok AbilitySet.SIGNER
  | RuntimeType.TyParam _ => Err UNREACHABLE
  | RuntimeType.Vector ty => a ← abilities cache ty; AbilitySet.polymorphic_abilities AbilitySet.VECTOR [false] [a]
  | RuntimeType.Struct idx => st ← ModuleCache.struct_at cache idx; Ok st.(StructType.abilities)
  | RuntimeType.StructInstantiation idx type_args =>
    struct_type ← ModuleCache.struct_at cache idx;
    type_argument_abilities ← ModuleAccess.map_res (abilities cache) type_args;
    AbilitySet.polymorphic_abilities struct_type.(StructType.abilities)
      (map StructTypeParameter.is_phantom struct_type.(StructType.type_parameters)) type_argument_abilities
  end.

Definition verify_ty_args (cache : ModuleCache NF) (constraints : list AbilitySet) (ty_args : list RuntimeType.Type_) : R () :=
  if negb (Nat.eqb (length constraints) (length ty_args)) then Err NUMBER_OF_TYPE_ARGUMENTS_MISMATCH
  else
    res_for (zip ty_args constraints) (fun '(ty, expected_k) =>
      a ← abilities cache ty;
      if AbilitySet.is_subset expected_k a then Ok () else Err CONSTRAINT_NOT_SATISFIED).

Fixpoint load_type (fuel : nat) (data_store : DS) (type_tag : TypeTag) : L RuntimeType.Type_ :=
  match type_tag with
  | TypeTag.Bool => mret RuntimeType.Bool
  | TypeTag.U8 => mret RuntimeType.U8
  | TypeTag.U64 => mret RuntimeType.U64
  | TypeTag.U128 => mret RuntimeType.U128
  | TypeTag.Address => mret RuntimeType.Address
  | TypeTag.Signer => mret RuntimeType.Signer
  | TypeTag.Vector tag => ty ← load_type fuel data_store tag; mret (RuntimeType.Vector ty)
  | TypeTag.Struct struct_tag => load_struct_tag fuel data_store struct_tag
  end
with load_struct_tag (fuel : nat) (data_store : DS) (struct_tag : StructTag) : L RuntimeType.Type_ :=
  match struct_tag with
  | TypeTag.mk address module name type_params =>
    load_module fuel (address, module) data_store;;
    cache ← get_cache;
    '(idx, struct_type) ← lm_lift (ModuleCache.resolve_struct_by_name cache name (address, module));
    match struct_type.(StructType.type_parameters), type_params with
    | [], [] => mret (RuntimeType.Struct idx)
    | _, _ =>
      type_params ← lm_map (load_type fuel data_store) type_params;
      cache ← get_cache;
      lm_lift (verify_ty_args cache (StructType.type_param_constraints struct_type) type_params);;
      mret (RuntimeType.StructInstantiation idx type_params)
    end
  end.

(** ** Functions and scripts *)

(** [LoadedFunctionInstantiation] of session.rs *)
Record LoadedFunctionInstantiation : Set := mk_instantiation {
  type_arguments : list RuntimeType.Type_;
  parameters : list RuntimeType.Type_;
  return_ : list RuntimeType.Type_ }.

Definition load_function (fuel : nat) (module_id : ModuleId) (function_name : Identifier) (ty_args : list TypeTag)
    (data_store : DS) : L (LoadedModule * Function NF * LoadedFunctionInstantiation) :=
  module ← load_module fuel module_id data_store;
  cache ← get_cache;
  idx ← lm_lift (ModuleCache.resolve_function_by_name cache function_name module_id);
  func ← lm_lift (ModuleCache.function_at cache idx);
  let make_type := ModuleCache.make_type cache (BinaryIndexedView.Module_ module.(LoadedModule.module)) in
  parameters ← lm_lift (ModuleAccess.map_res make_type func.(Function.parameters));
  return_ ← lm_lift (ModuleAccess.map_res make_type func.(Function.return_));
  type_arguments ← lm_map (load_type fuel data_store) ty_args;
  cache ← get_cache;
  lm_lift (verify_ty_args cache func.(Function.type_parameters) type_arguments);;
  mret (module, func, mk_instantiation type_arguments parameters return_).

Definition deserialize_and_verify_script (fuel : nat) (script : list Z) (data_store : DS) : L CompiledScript :=
  script ← lm_lift (map_err (fun _ => CODE_DESERIALIZATION_ERROR) (deserialize_script script));
  lm_lift (Verifier.verify_script from_bytes_seed script);;
  deps ← lm_lift (ScriptAccess.immediate_dependencies script);
  loaded_deps ← lm_map (fun module_id => load_module fuel module_id data_store) deps;
  lm_lift (Dependencies.verify_script_impl script (map LoadedModule.module loaded_deps));;
  mret script.

(** [ScriptCache::insert] *)
Definition insert_script (hash : list Z) (script : LoadedScript NF) : L (LoadedScript NF) := fun s =>
  match BinaryCache.get s.(LoaderState.scripts) hash with
  | Some cached => Ok (cached, s)
  | None => Ok (script, LoaderState.mk (BinaryCache.insert s.(LoaderState.scripts) hash script) s.(LoaderState.module_cache))
  end.

Definition load_script (fuel : nat) (script_blob : list Z) (ty_args : list TypeTag) (data_store : DS) :
    L (Function NF * LoadedFunctionInstantiation) :=
  let hash_value := sha3_256 script_blob in
  s ← lm_get;
  script ← match BinaryCache.get s.(LoaderState.scripts) hash_value with
           | Some cached => mret cached
           | None =>
             ver_script ← deserialize_and_verify_script fuel script_blob data_store;
             cache ← get_cache;
             script ← lm_lift (NewScript.new ver_script cache hash_value);
             insert_script hash_value script
           end;
  type_arguments ← lm_map (load_type fuel data_store) ty_args;
  cache ← get_cache;
  let main := script.(LoadedScript.main) in
  lm_lift (verify_ty_args cache main.(Function.type_parameters) type_arguments);;
  mret (main, mk_instantiation type_arguments script.(LoadedScript.parameter_tys) script.(LoadedScript.return_tys)).

(** ** Publication *)

Definition verify_module_for_publication (fuel : nat) (module : CompiledModule)
    (bundle_verified : gmap ModuleId CompiledModule) (bundle_unverified : gset ModuleId) (data_store : DS) : L () :=
  lm_lift (verify module);;
  lm_lift (check_natives module);;
  self_id ← lm_lift (ModuleAccess.self_id module);
  friends ← lm_lift (ModuleAccess.immediate_friends module);
  '(_, friends_discovered) ← load_and_verify_dependencies
    (load_and_verify_module_and_dependencies fuel bundle_verified data_store true) module bundle_verified
    ({[self_id]}, list_to_set friends) true;
  load_and_verify_friends
    (load_and_verify_module_and_dependencies_and_friends fuel bundle_verified bundle_unverified data_store true)
    friends_discovered bundle_verified bundle_unverified;;
  cache ← get_cache;
  lm_lift (verify_module_cyclic_relations fuel cache module bundle_verified bundle_unverified).

Fixpoint verify_bundle (fuel : nat) (modules : list CompiledModule) (bundle_verified : gmap ModuleId CompiledModule)
    (bundle_unverified : gset ModuleId) (data_store : DS) : L () :=
  match modules with
  | [] => mret ()
  | module :: modules =>
    module_id ← lm_lift (ModuleAccess.self_id module);
    let bundle_unverified := bundle_unverified ∖ {[module_id]} in
    verify_module_for_publication fuel module bundle_verified bundle_unverified data_store;;
    verify_bundle fuel modules (<[module_id := module]> bundle_verified) bundle_unverified data_store
  end.
Definition verify_module_bundle_for_publication (fuel : nat) (modules : list CompiledModule) (data_store : DS) : L () :=
  ids ← lm_lift (ModuleAccess.map_res ModuleAccess.self_id modules);
  verify_bundle fuel modules ∅ (list_to_set ids) data_store.

(** The check of a module against the version that is published, and of the names of the
    bundle. *)
Fixpoint check_bundle (fuel : nat) (modules : list CompiledModule) (bundle_unverified : gset ModuleId) (data_store : DS) : L () :=
  match modules with
  | [] => mret ()
  | module :: modules =>
    module_id ← lm_lift (ModuleAccess.self_id module);
    exists_ ← lm_lift (ModuleStore.exists_module data_store module_id);
    (if (exists_ : bool) then
       old_module_ref ← load_module fuel module_id data_store;
       old_m ← lm_lift (NormalizedModule.new old_module_ref.(LoadedModule.module));
       new_m ← lm_lift (NormalizedModule.new module);
       compat ← lm_lift (Compatibility.check old_m new_m);
       if Compatibility.is_fully_compatible compat then mret () else lm_lift (Err BACKWARD_INCOMPATIBLE_MODULE_UPDATE)
     else mret ());;
    if bool_decide (module_id ∈ bundle_unverified) then lm_lift (Err DUPLICATE_MODULE_NAME)
    else check_bundle fuel modules ({[module_id]} ∪ bundle_unverified) data_store
  end.

(** [zip] and [publish_module] *)
Fixpoint publish_all (modules : list CompiledModule) (blobs : list (list Z)) (data_store : DS) : R DS :=
  match modules, blobs with
  | module :: modules, blob :: blobs =>
    id ← ModuleAccess.self_id module;
    data_store ← ModuleStore.publish_module id blob data_store;
    publish_all modules blobs data_store
  | _, _ => Ok data_store
  end.

(** [VMRuntime::publish_module_bundle]: the data store afterwards. *)
Definition publish_module_bundle (fuel : nat) (modules : list (list Z)) (sender : AccountAddress) (data_store : DS) : L DS :=
  compiled_modules ← lm_lift (ModuleAccess.map_res deserialize_module modules);
  lm_lift (res_for compiled_modules (fun module =>
    address ← ModuleAccess.address module;
    if bool_decide (address = sender :> list Z) then Ok () else Err MODULE_ADDRESS_DOES_NOT_MATCH_SENDER));;
  check_bundle fuel compiled_modules ∅ data_store;;
  verify_module_bundle_for_publication fuel compiled_modules data_store;;
  lm_lift (publish_all compiled_modules modules data_store).
End loader.
End CodeLoader.

(** * The tags and the layouts of types *)

(** Types are keys of maps. *)
Section countable.
Import RuntimeType.
Fixpoint encode_type (ty : Type_) : gen_tree Z :=
  match ty with
  | Bool => GenLeaf 0
  | U8 => GenLeaf 1
  | U64 => GenLeaf 2
  | U128 => GenLeaf 3
  | Address => GenLeaf 4
  | Signer => GenLeaf 5
  | Vector ty => GenNode 0 [encode_type ty]
  | Struct idx => GenNode 1 [GenLeaf idx]
  | StructInstantiation idx instantiation => GenNode 2 (GenLeaf idx :: map encode_type instantiation)
  | Reference ty => GenNode 3 [encode_type ty]
  | MutableReference ty => GenNode 4 [encode_type ty]
  | TyParam idx => GenNode 5 [GenLeaf idx]
  end.
Fixpoint decode_type (t : gen_tree Z) : Type_ :=
  match t with
  | GenLeaf 1 => U8
  | GenLeaf 2 => U64
  | GenLeaf 3 => U128
  | GenLeaf 4 => Address
  | GenLeaf 5 => Signer
  | GenNode 0 [t] => Vector (decode_type t)
  | GenNode 1 [GenLeaf idx] => Struct idx
  | GenNode 2 (GenLeaf idx :: ts) => StructInstantiation idx (map decode_type ts)
  | GenNode 3 [t] => Reference (decode_type t)
  | GenNode 4 [t] => MutableReference (decode_type t)
  | GenNode 5 [GenLeaf idx] => TyParam idx
  | _ => Bool
  end.
Lemma decode_encode_type : forall ty, decode_type (encode_type ty) = ty.
Proof.
  fix IH 1. intros [| | | | | |ty|idx|idx tys|ty|ty|idx]; simpl; rewrite ?IH; try done.
  f_equal. rewrite map_map. induction tys as [|ty tys IHl]; simpl; by rewrite ?IH, ?IHl.
Qed.
#[global] Instance Type_eq_dec : EqDecision Type_.
Proof.
  intros x y. destruct (decide (encode_type x = encode_type y)) as [H|H]; [left|right; congruence].
  by rewrite <- (decode_encode_type x), H, decode_encode_type.
Defined.
#[global] Instance Type_countable : Countable Type_ := inj_countable' encode_type decode_type decode_encode_type.
End countable.

Module StructInfo.
Record StructInfo : Set := mk { struct_tag : option StructTag; struct_layout : option MoveTypeLayout.MoveStructLayout }.
Definition new : StructInfo := mk None None.
End StructInfo.
Abbreviation StructInfo := StructInfo.StructInfo.

Module TypeCache.
Record TypeCache : Set := mk { structs : gmap Z (gmap (list RuntimeType.Type_) StructInfo) }.
Definition new : TypeCache := mk ∅.

(** [structs.get(&gidx)?.get(ty_args)] *)
Definition get (self : TypeCache) (gidx : Z) (ty_args : list RuntimeType.Type_) : option StructInfo :=
  struct_map ← self.(structs) !! gidx; struct_map !! ty_args.
(** [structs.entry(gidx).or_insert_with(HashMap::new).entry(ty_args).or_insert_with(StructInfo::new)],
    changed by [f]. *)
Definition update (self : TypeCache) (gidx : Z) (ty_args : list RuntimeType.Type_) (f : StructInfo -> StructInfo) : TypeCache :=
  let struct_map := default ∅ (self.(structs) !! gidx) in
  let info := default StructInfo.new (struct_map !! ty_args) in
  mk (<[gidx := <[ty_args := f info]> struct_map]> self.(structs)).
End TypeCache.
Abbreviation TypeCache := TypeCache.TypeCache.

Module TypeLoader.
Definition VALUE_DEPTH_MAX : Z := 128.

Section types.
Context {NF : Type} (module_cache : ModuleCache NF).
Abbreviation T := (LM TypeCache).

(** The status of a [PartialVMError]. *)
Definition status_of {A} (r : result PartialVMError A) : R A :=
  match r with
  | Ok a => Ok a
  | Err e => Err e.(major_status)
  | Panic => Panic
  | OutOfFuel => OutOfFuel
  end.

Definition lm_update (f : TypeCache -> TypeCache) : T () := fun s => Ok ((), f s).

Definition struct_gidx_to_type_tag (type_to_type_tag : RuntimeType.Type_ -> T TypeTag) (gidx : Z)
    (ty_args : list RuntimeType.Type_) : T StructTag :=
  type_cache ← lm_get;
  match TypeCache.get type_cache gidx ty_args ≫= StructInfo.struct_tag with
  | Some struct_tag => mret struct_tag
  | None =>
    ty_arg_tags ← CodeLoader.lm_map type_to_type_tag ty_args;
    struct_type ← lm_lift (ModuleCache.struct_at module_cache gidx);
    let struct_tag := TypeTag.mk struct_type.(StructType.module).1 struct_type.(StructType.module).2
                        struct_type.(StructType.name) ty_arg_tags in
    lm_update (fun s => TypeCache.update s gidx ty_args (fun info => StructInfo.mk (Some struct_tag) info.(StructInfo.struct_layout)));;
    mret struct_tag
  end.

Fixpoint type_to_type_tag (ty : RuntimeType.Type_) : T TypeTag :=
  match ty with
  | RuntimeType.Bool => mret TypeTag.Bool
  | RuntimeType.U8 => mret TypeTag.U8
  | RuntimeType.U64 => mret TypeTag.U64
  | RuntimeType.U128 => mret TypeTag.U128
  | RuntimeType.Address => mret TypeTag.Address
  | RuntimeType.Signer => mret TypeTag.Signer
  | RuntimeType.Vector ty => tag ← type_to_type_tag ty; mret (TypeTag.Vector tag)
  | RuntimeType.Struct gidx => tag ← struct_gidx_to_type_tag type_to_type_tag gidx []; mret (TypeTag.Struct tag)
  | RuntimeType.StructInstantiation gidx ty_args =>
    tag ← struct_gidx_to_type_tag type_to_type_tag gidx ty_args; mret (TypeTag.Struct tag)
  | RuntimeType.Reference _ | RuntimeType.MutableReference _ | RuntimeType.TyParam _ =>
    lm_lift (Err UNKNOWN_INVARIANT_VIOLATION_ERROR)
  end.

Definition struct_gidx_to_type_layout (type_to_type_layout_impl : RuntimeType.Type_ -> Z -> T MoveTypeLayout) (gidx : Z)
    (ty_args : list RuntimeType.Type_) (depth : Z) : T MoveTypeLayout.MoveStructLayout :=
  type_cache ← lm_get;
  match TypeCache.get type_cache gidx ty_args ≫= StructInfo.struct_layout with
  | Some layout => mret layout
  | None =>
    struct_type ← lm_lift (ModuleCache.struct_at module_cache gidx);
    field_tys ← lm_lift (ModuleAccess.map_res (fun ty => status_of (RuntimeType.subst ty ty_args)) struct_type.(StructType.fields));
    field_layouts ← CodeLoader.lm_map (fun ty => type_to_type_layout_impl ty (depth + 1)) field_tys;
    let struct_layout := MoveTypeLayout.Runtime field_layouts in
    lm_update (fun s => TypeCache.update s gidx ty_args (fun info => StructInfo.mk info.(StructInfo.struct_tag) (Some struct_layout)));;
    mret struct_layout
  end.

(** The depth bounds the recursion: [VALUE_DEPTH_MAX] rounds are enough from depth 1. *)
Fixpoint type_to_type_layout_impl (fuel : nat) (ty : RuntimeType.Type_) (depth : Z) : T MoveTypeLayout :=
  if VALUE_DEPTH_MAX <? depth then lm_lift (Err VM_MAX_VALUE_DEPTH_REACHED)
  else
    match fuel with
    | O => lm_out_of_fuel
    | S fuel =>
      match ty with
      | RuntimeType.Bool => mret MoveTypeLayout.Bool
      | RuntimeType.U8 => mret MoveTypeLayout.U8
      | RuntimeType.U64 => mret MoveTypeLayout.U64
      | RuntimeType.U128 => mret MoveTypeLayout.U128
      | RuntimeType.Address => mret MoveTypeLayout.Address
      | RuntimeType.Signer => mret MoveTypeLayout.Signer
      | RuntimeType.Vector ty => l ← type_to_type_layout_impl fuel ty (depth + 1); mret (MoveTypeLayout.Vector l)
      | RuntimeType.Struct gidx =>
        l ← struct_gidx_to_type_layout (type_to_type_layout_impl fuel) gidx [] depth; mret (MoveTypeLayout.Struct l)
      | RuntimeType.StructInstantiation gidx ty_args =>
        l ← struct_gidx_to_type_layout (type_to_type_layout_impl fuel) gidx ty_args depth; mret (MoveTypeLayout.Struct l)
      | RuntimeType.Reference _ | RuntimeType.MutableReference _ | RuntimeType.TyParam _ =>
        lm_lift (Err UNKNOWN_INVARIANT_VIOLATION_ERROR)
      end
    end.
Definition type_to_type_layout (ty : RuntimeType.Type_) : T MoveTypeLayout :=
  type_to_type_layout_impl (Z.to_nat VALUE_DEPTH_MAX) ty 1.
End types.
End TypeLoader.

(** * The data cache of a transaction *)

(** [MoveResolver]: the storage below the cache. *)
Record MoveResolver : Type := mk_resolver {
  get_module : ModuleId -> result () (option (list Z));
  get_resource : AccountAddress -> StructTag -> result () (option (list Z)) }.

Module AccountDataCache.
Record AccountDataCache : Type := mk {
  data_map : gmap RuntimeType.Type_ (MoveTypeLayout * GlobalValue);
  module_map : gmap Identifier (list Z) }.
Definition new : AccountDataCache := mk ∅ ∅.
End AccountDataCache.
Abbreviation AccountDataCache := AccountDataCache.AccountDataCache.

(** The cache shares the loader: its modules are an argument of the operations that use
    them, its type cache is a field. *)
Module TransactionDataCache.
Record TransactionDataCache : Type := mk {
  remote : MoveResolver;
  type_cache : TypeCache;
  account_map : gmap AccountAddress AccountDataCache;
  event_data : list (list Z * Z * RuntimeType.Type_ * MoveTypeLayout * Value) }.

Definition new (remote : MoveResolver) (type_cache : TypeCache) : TransactionDataCache := mk remote type_cache ∅ [].

(** [get_mut_or_insert_with(&mut self.account_map, addr, AccountDataCache::new)] *)
Definition account (self : TransactionDataCache) (addr : AccountAddress) : AccountDataCache :=
  default AccountDataCache.new (self.(account_map) !! addr).
Definition with_account (self : TransactionDataCache) (addr : AccountAddress) (a : AccountDataCache) : TransactionDataCache :=
  mk self.(remote) self.(type_cache) (<[addr := a]> self.(account_map)) self.(event_data).
Definition with_types (self : TransactionDataCache) (type_cache : TypeCache) : TransactionDataCache :=
  mk self.(remote) type_cache self.(account_map) self.(event_data).

(** ** Modules *)

Definition load_module (self : TransactionDataCache) (module_id : ModuleId) : R (list Z) :=
  match (account_cache ← self.(account_map) !! module_id.1; account_cache.(AccountDataCache.module_map) !! module_id.2) with
  | Some blob => Ok blob
  | None =>
    match get_module self.(remote) module_id with
    | Ok (Some bytes) => Ok bytes
    | Ok None => Err LINKER_ERROR
    | Err _ => Err UNKNOWN_INVARIANT_VIOLATION_ERROR
    | Panic => Panic
    | OutOfFuel => OutOfFuel
    end
  end.

Definition publish_module (module_id : ModuleId) (blob : list Z) (self : TransactionDataCache) : R TransactionDataCache :=
  let account_cache := account self module_id.1 in
  Ok (with_account self module_id.1
        (AccountDataCache.mk account_cache.(AccountDataCache.data_map)
           (<[module_id.2 := blob]> account_cache.(AccountDataCache.module_map)))).

Definition exists_module (self : TransactionDataCache) (module_id : ModuleId) : R bool :=
  if bool_decide (is_Some (account_cache ← self.(account_map) !! module_id.1;
                           account_cache.(AccountDataCache.module_map) !! module_id.2)) then Ok true
  else
    match get_module self.(remote) module_id with
    | Ok m => Ok (bool_decide (is_Some m))
    | Err _ => Err STORAGE_ERROR
    | Panic => Panic
    | OutOfFuel => OutOfFuel
    end.

(** ** Resources *)

Section resources.
Context {NF : Type} (module_cache : ModuleCache NF).
Context (simple_deserialize : list Z -> MoveTypeLayout -> Store -> option (Value * Store)).
Abbreviation X := (ST (TransactionDataCache * Store) PartialVMError).

Definition on_types {A} (m : LM TypeCache A) : X A := fun '(self, heap) =>
  match m self.(type_cache) with
  | Ok (a, tc) => Ok (a, (with_types self tc, heap))
  | Err (e, _) => Err (vm_error e)
  | Panic => Panic
  | OutOfFuel => OutOfFuel
  end.
Definition on_store {A} (m : ST Store PartialVMError A) : X A := fun '(self, heap) =>
  match m heap with
  | Ok (a, heap) => Ok (a, (self, heap))
  | Err e => Err e
  | Panic => Panic
  | OutOfFuel => OutOfFuel
  end.

Definition insert_resource (addr : AccountAddress) (ty : RuntimeType.Type_) (layout : MoveTypeLayout) (gv : GlobalValue)
    (self : TransactionDataCache) : TransactionDataCache :=
  let account_cache := account self addr in
  with_account self addr
    (AccountDataCache.mk (<[ty := (layout, gv)]> account_cache.(AccountDataCache.data_map))
       account_cache.(AccountDataCache.module_map)).

(** The slot of a resource that is not in the cache. *)
Definition fetch_resource (addr : AccountAddress) (ty_tag : StructTag) (ty_layout : MoveTypeLayout) : X GlobalValue := fun '(self, heap) =>
  match get_resource self.(remote) addr ty_tag with
  | Ok (Some blob) =>
    match simple_deserialize blob ty_layout heap with
    | Some (val, heap) => on_store (GlobalValue.cached val) (self, heap)
    | None => Err (vm_error FAILED_TO_DESERIALIZE_RESOURCE)
    end
  | Ok None => Ok (GlobalValue.none, (self, heap))
  | Err _ => Err (vm_error UNKNOWN_INVARIANT_VIOLATION_ERROR)
  | Panic => Panic
  | OutOfFuel => OutOfFuel
  end.
Definition read_resource (addr : AccountAddress) (ty : RuntimeType.Type_) : X (MoveTypeLayout * GlobalValue) :=
  ty_tag ← on_types (TypeLoader.type_to_type_tag module_cache ty);
  s_tag ← match ty_tag with TypeTag.Struct s_tag => mret s_tag | _ => st_err (vm_error INTERNAL_TYPE_ERROR) end;
  ty_layout ← on_types (TypeLoader.type_to_type_layout module_cache ty);
  gv ← fetch_resource addr s_tag ty_layout;
  mret (ty_layout, gv).

Definition load_resource (addr : AccountAddress) (ty : RuntimeType.Type_) : X GlobalValue := fun '(self, heap) =>
  let account_cache := account self addr in
  match account_cache.(AccountDataCache.data_map) !! ty with
  | Some (_, gv) => Ok (gv, (with_account self addr account_cache, heap))
  | None =>
    match read_resource addr ty (with_account self addr account_cache, heap) with
    | Ok ((ty_layout, gv), (self, heap)) => Ok (gv, (insert_resource addr ty ty_layout gv self, heap))
    | Err e => Err e
    | Panic => Panic
    | OutOfFuel => OutOfFuel
    end
  end.

(** A write through the reference that [load_resource] returns. *)
Definition set_resource (addr : AccountAddress) (ty : RuntimeType.Type_) (gv : GlobalValue) (self : TransactionDataCache) :
    TransactionDataCache :=
  match (account self addr).(AccountDataCache.data_map) !! ty with
  | Some (ty_layout, _) => insert_resource addr ty ty_layout gv self
  | None => self
  end.

(** [num_mutated_accounts]: the sender's account always counts.  The statuses are only read,
    so the order of the accounts does not matter. *)
Definition any_mutated (a : AccountDataCache) : ST Store PartialVMError bool :=
  foldr (fun '(_, (_, v)) rest => m ← GlobalValue.is_mutated v; if (m : bool) then mret true else rest) (mret false)
    (map_to_list a.(AccountDataCache.data_map)).
Definition num_mutated_accounts (self : TransactionDataCache) (sender : AccountAddress) : ST Store PartialVMError Z :=
  foldr (fun '(addr, entry) rest =>
    total ← rest;
    if bool_decide (addr = sender) then mret total
    else m ← any_mutated entry; mret (if (m : bool) then total + 1 else total)) (mret 1) (map_to_list self.(account_map)).

(** ** Events *)

Definition push_event (event : list Z * Z * RuntimeType.Type_ * MoveTypeLayout * Value) : X () := fun '(self, heap) =>
  Ok ((), (mk self.(remote) self.(type_cache) self.(account_map) (self.(event_data) ++ [event]), heap)).
Definition emit_event (guid : list Z) (seq_num : Z) (ty : RuntimeType.Type_) (val : Value) : X () :=
  ty_layout ← on_types (TypeLoader.type_to_type_layout module_cache ty);
  push_event (guid, seq_num, ty, ty_layout, val).
End resources.
End TransactionDataCache.
Abbreviation TransactionDataCache := TransactionDataCache.TransactionDataCache.

#[global] Instance data_cache_modules : ModuleStore TransactionDataCache := {|
  ModuleStore.load_module := TransactionDataCache.load_module;
  ModuleStore.exists_module := TransactionDataCache.exists_module;
  ModuleStore.publish_module := TransactionDataCache.publish_module |}.
