(* ===== verification/LoadingFacts.v ===== *)
(** The invariant of the loader.  Every module of the cache passed the deserializer, the
    verifier and the linker, every function of the cache is a definition of such a module,
    and the tables of a loaded module lead to what its handles declare.  Loading keeps the
    invariant, also when it fails; a loader that satisfies it holds a verified program. *)
From stdpp Require Import gmap.
From S2P Require Import Prelude StatusCode Abilities Identifier FileFormat WellFormed BinaryCommon Access Deserializer DeserializerSafety BoundsChecker BoundsSpec BoundsTheorems.
From S2P Require Import ControlFlow FunctionView GraphLaws StackUsage DuplicationChecker DuplicationTheorems Constants InstantiationLoops Verifier.
From S2P Require Import Dependencies Normalized Compatibility LinkingChecks VmValues Runtime Loading Interpreter InterpreterSteps.

(** * Accepted modules *)

(** The limits of the format: indices have 16 bits, and so do offsets in a body. *)
Record small_module (m : CompiledModule) : Prop := {
  small_module_handles : zlen m.(CompiledModule.module_handles) <= 2 ^ 16;
  small_struct_handles : zlen m.(CompiledModule.struct_handles) <= 2 ^ 16;
  small_function_handles : zlen m.(CompiledModule.function_handles) <= 2 ^ 16;
  small_bodies def c : def ∈ m.(CompiledModule.function_defs) -> def.(FunctionDefinition.code) = Some c ->
    zlen c.(CodeUnit.code) <= u16_max - 1;
  small_fields def fields : def ∈ m.(CompiledModule.struct_defs) ->
    def.(StructDefinition.field_information) = Declared fields -> zlen fields < 2 ^ 16 }.

(** * Loops *)

Lemma fill_push {A B C} (proj : C -> list B) (f : A -> C -> R C) (P : A -> B -> Prop) l acc acc' :
  (forall x a a', x ∈ l -> f x a = Ok a' -> exists b, proj a' = proj a ++ [b] /\ P x b) ->
  Context.fill f l acc = Ok acc' -> exists bs, proj acc' = proj acc ++ bs /\ Forall2 P l bs.
Proof.
  revert acc. induction l as [|x l IH]; intros acc Hf H; cbn [Context.fill] in H.
  - injection H as ->. exists []. by rewrite app_nil_r.
  - apply res_bind_ok in H as (a1 & H1 & H2). destruct (Hf x acc a1) as (b & Eb & Hb); [by left|done|].
    destruct (IH a1) as (bs & Ebs & Hbs); [intros y a a' Hy; apply Hf; by right|done|].
    exists (b :: bs). split; [by rewrite Ebs, Eb, <- app_assoc|by constructor].
Qed.

Lemma fill_inv {A C} (I : C -> Prop) (f : A -> C -> R C) l acc acc' :
  (forall x a a', x ∈ l -> f x a = Ok a' -> I a -> I a') -> I acc -> Context.fill f l acc = Ok acc' -> I acc'.
Proof.
  revert acc. induction l as [|x l IH]; intros acc Hf Ha H; cbn [Context.fill] in H; [by injection H as ->|].
  apply res_bind_ok in H as (a1 & H1 & H2). apply (IH a1); [intros y a a' Hy; apply Hf; by right| |done].
  eapply Hf; [by left|done|done].
Qed.

Lemma res_list_forall2 {A B} (f : A -> R B) l ys : ModuleAccess.map_res f l = Ok ys -> Forall2 (fun x y => f x = Ok y) l ys.
Proof.
  revert ys. induction l as [|x l IH]; intros ys H; cbn [ModuleAccess.map_res] in H; inv_ok; [done|]. constructor; [done|by apply IH].
Qed.

(** * Searches *)

Lemma search_entries_found {A} (own named : A -> bool) entries idx :
  search_entries own named entries = Found idx ->
  exists i x, (i, x) ∈ entries /\ idx = Z.of_nat i /\ own x = true /\ named x = true.
Proof.
  induction entries as [|[i x] entries IH]; cbn [search_entries]; [done|].
  destruct (own x) eqn:Eo; [|done]. destruct (named x) eqn:En; simpl.
  - intros [= <-]. exists i, x. split_and!; [by left|done..].
  - intros (j & y & Hin & ? & ? & ?)%IH. exists j, y. split_and!; [by right|done..].
Qed.
Lemma search_entries_exhausted {A} (own named : A -> bool) entries i x :
  search_entries own named entries = Exhausted -> (i, x) ∈ entries -> named x = false.
Proof.
  induction entries as [|[j y] entries IH]; cbn [search_entries]; [by intros _ ?%elem_of_nil|].
  destruct (own y); [|done]. destruct (named y) eqn:En; [done|]. simpl.
  intros H [[= -> ->]|Hin]%elem_of_cons; [done|by apply IH].
Qed.
Lemma elem_of_rev_imap {A} (l : list A) i x : (i, x) ∈ rev (imap pair l) <-> l !! i = Some x.
Proof.
  rewrite list_elem_of_In, <- in_rev, <- list_elem_of_In, list_elem_of_lookup. split.
  - intros [j Hj]. rewrite list_lookup_imap in Hj. destruct (l !! j) eqn:El; simplify_eq/=. done.
  - intros Hi. exists i. by rewrite list_lookup_imap, Hi.
Qed.

Lemma search_back_found {A} (own named : A -> bool) l idx : search_back own named l = Found idx ->
  exists x, 0 <= idx /\ l !! Z.to_nat idx = Some x /\ own x = true /\ named x = true.
Proof.
  intros (i & x & Hin%elem_of_rev_imap & -> & Ho & Hn)%search_entries_found. exists x. by rewrite Nat2Z.id; split_and!; [lia|..].
Qed.
Lemma search_back_exhausted {A} (own named : A -> bool) l i x :
  search_back own named l = Exhausted -> l !! i = Some x -> named x = false.
Proof. intros H Hi%elem_of_rev_imap. by eapply search_entries_exhausted. Qed.

Section loading.
Context {NF DS : Type} `{!ModuleStore DS}.
Context (resolve : AccountAddress -> Identifier -> Identifier -> option NF).
Context (from_bytes_seed : MoveTypeLayout -> list Z -> option MoveValue).
Context (toposort : list (Z * Z) -> Z + list Z).
Context (tarjan_scc : InstantiationLoopChecker.Graph -> list (list nat)).
Abbreviation verify := (Verifier.verify_module from_bytes_seed toposort tarjan_scc).

Record accepted (m : CompiledModule) : Prop := {
  accepted_wf : wf_module m = true;
  accepted_verified : verify m = Ok ();
  accepted_natives : CodeLoader.check_natives resolve m = Ok ();
  accepted_small : small_module m }.

Section accepted.
Context (m : CompiledModule) (Hm : accepted m).

Lemma accepted_passes : BoundsChecker.verify_module m = Ok () /\ DuplicationChecker.verify_module_impl m = Ok () /\
  CodeUnitVerifier.verify_module_impl m = Ok ().
Proof using Hm. pose proof (accepted_verified m Hm) as Hv. unfold Verifier.verify_module in Hv. inv_ok. by repeat match goal with x : () |- _ => destruct x end. Qed.

Lemma accepted_checked : checked_unit (BinaryIndexedView.Module_ m).
Proof using Hm.
  destruct accepted_passes as (Hb & Hd & _). destruct Hm as [Hwf _ _ [_ Hs Hf _ _]]. by apply checked_module.
Qed.

Lemma verify_functions_in i defs def : CodeUnitVerifier.verify_functions m i defs = Ok () -> def ∈ defs ->
  exists idx, CodeUnitVerifier.verify_function m idx def = Ok ().
Proof using.
  revert i. induction defs as [|d defs IH]; intros i; [by intros _ ?%elem_of_nil|]. cbn [CodeUnitVerifier.verify_functions].
  intros ([] & H1 & H2)%res_bind_ok. intros [->|Hin]%elem_of_cons; [by eexists|by eapply IH].
Qed.

(** The view of a body that the verifier ran on. *)
Lemma accepted_body def c h : def ∈ m.(CompiledModule.function_defs) -> def.(FunctionDefinition.code) = Some c ->
  ModuleAccess.function_handle_at m def.(FunctionDefinition.function) = Ok h ->
  exists fv, checked_view (BinaryIndexedView.Module_ m) fv /\ StackUsageVerifier.verify (BinaryIndexedView.Module_ m) fv = Ok () /\
    fv.(FunctionView.code) = c /\ ModuleAccess.signature_at m h.(FunctionHandle.return_) = Ok fv.(FunctionView.return_).
Proof using Hm.
  intros Hdef Hc Hh. destruct accepted_passes as (Hb & _ & Hu).
  destruct (verify_functions_in _ _ _ Hu Hdef) as [idx Hf]. unfold CodeUnitVerifier.verify_function in Hf. rewrite Hc, Hh in Hf.
  unfold CodeUnitVerifier.verify_common in Hf. cbn [mbind result_bind] in Hf. inv_ok.
  repeat match goal with x : () |- _ => destruct x end.
  match goal with H : FunctionView.function m idx c h = Ok ?fv |- _ => rename H into Hview; exists fv end.
  split; [|split; [done|]].
  - eapply checked_function; [apply (accepted_wf m Hm)|done|done|done|done|done| |done].
    by apply (small_bodies m (accepted_small m Hm) def).
  - unfold FunctionView.function in Hview. inv_ok. done.
Qed.
End accepted.

(** * Functions of a module *)

(** The loaded function of the definition [name] of [m]. *)
Definition made_of (m : CompiledModule) (name : Identifier) (g : Function NF) : Prop :=
  exists i def h, def ∈ m.(CompiledModule.function_defs) /\ declares_function m name def h /\ Function.new resolve i def m = Ok g.

Lemma function_new_parts i def m (g : Function NF) : Function.new resolve i def m = Ok g ->
  exists h id, ModuleAccess.function_handle_at m def.(FunctionDefinition.function) = Ok h /\
    ModuleAccess.identifier_at m h.(FunctionHandle.name) = Ok g.(Function.name) /\ ModuleAccess.self_id m = Ok id /\
    ModuleAccess.signature_at m h.(FunctionHandle.parameters) = Ok g.(Function.parameters) /\
    ModuleAccess.signature_at m h.(FunctionHandle.return_) = Ok g.(Function.return_) /\
    g.(Function.scope) = Scope.Module_ id /\
    (forall c, def.(FunctionDefinition.code) = Some c -> g.(Function.code) = c.(CodeUnit.code)) /\
    (FunctionDefinition.is_native def = true -> g.(Function.native) = resolve id.1 id.2 g.(Function.name)).
Proof.
  unfold Function.new. intros H. inv_ok. destruct (FunctionDefinition.code def) as [c|] eqn:Hc; inv_ok; simpl;
    repeat match goal with p : _ * _ |- _ => destruct p end; simplify_eq/=; eexists _, _; split_and!; try done; intros; simplify_eq; try done; by case_match.
Qed.

(** * Adding a module *)

Lemma declared_at m name def h : checked_unit (BinaryIndexedView.Module_ m) -> def ∈ m.(CompiledModule.function_defs) ->
  ModuleAccess.function_handle_at m def.(FunctionDefinition.function) = Ok h ->
  ModuleAccess.identifier_at m h.(FunctionHandle.name) = Ok name -> declares_function m name def h.
Proof.
  intros Hm Hdef Hh Hn. split; [done|]. split; [|by apply index_ok].
  unfold ModuleAccess.function_handle_at in Hh. inv_ok. by apply index_ok.
Qed.
Lemma struct_declared_at m name def h : def ∈ m.(CompiledModule.struct_defs) ->
  ModuleAccess.struct_handle_at m def.(StructDefinition.struct_handle) = Ok h ->
  ModuleAccess.identifier_at m h.(StructHandle.name) = Ok name -> declares_struct m name def h.
Proof.
  intros Hdef Hh Hn. split; [done|]. split; [|by apply index_ok].
  unfold ModuleAccess.struct_handle_at in Hh. inv_ok. by apply index_ok.
Qed.

(** The loaded struct of a definition of [m]. *)
Definition struct_made_of (m : CompiledModule) (def : StructDefinition) (st : StructType) : Prop :=
  (exists h, declares_struct m st.(StructType.name) def h) /\
  ModuleAccess.self_id m = Ok st.(StructType.module) /\
  exists fields, def.(StructDefinition.field_information) = Declared fields /\ zlen st.(StructType.fields) = zlen fields.

Definition with_fields (st : StructType) (fields : list RuntimeType.Type_) : StructType :=
  StructType.mk fields st.(StructType.abilities) st.(StructType.type_parameters) st.(StructType.name) st.(StructType.module)
    st.(StructType.struct_def).

Lemma set_fields_ok pre sts fts l : length sts = length fts -> ModuleCache.set_fields (pre ++ sts) (length pre) fts = Ok l ->
  l = pre ++ zip_with with_fields sts fts.
Proof.
  revert pre fts. induction sts as [|st sts IH]; intros pre [|f fts] Hlen H; simplify_eq/=; inv_ok; [done|].
  rewrite list_lookup_middle in H0 by done. injection H0 as <-.
  rewrite (insert_app_r_alt _ _ (length pre)), Nat.sub_diag in H by lia. simpl in H.
  rewrite (cons_middle (with_fields _ _)), app_assoc in H |- *. eapply IH; [done|].
  rewrite length_app, Nat.add_1_r. exact H.
Qed.

Lemma forall2_zip_with {A B C D} (P : A -> B -> Prop) (Q : A -> C -> Prop) (S : A -> D -> Prop) (f : B -> C -> D) l k k' :
  (forall x y z, x ∈ l -> P x y -> Q x z -> S x (f y z)) -> Forall2 P l k -> Forall2 Q l k' -> Forall2 S l (zip_with f k k').
Proof.
  intros Hf HP. revert k'. induction HP as [|x y l k Hxy _ IH]; intros k' HQ; inversion HQ; subst; [constructor|].
  simpl. constructor; [by apply Hf; [left|..]|]. apply IH; [|done]. intros ? ? ? Hin. apply Hf. by right.
Qed.

Lemma forall2_enumerate {A B} (P : A -> B -> Prop) (f : Z * A -> R B) l k :
  (forall i x y, x ∈ l -> f (i, x) = Ok y -> P x y) -> Forall2 (fun x y => f x = Ok y) (ModuleCache.enumerate l) k -> Forall2 P l k.
Proof.
  intros Hf H. apply Forall2_same_length_lookup_2.
  { apply Forall2_length in H. unfold ModuleCache.enumerate in H. by rewrite length_imap in H. }
  intros i x y Hx Hy. eapply (Hf (Context.as_table_index i)); [by eapply list_elem_of_lookup_2|].
  apply (Forall2_lookup_lr (fun x y => f x = Ok y) _ _ i _ _ H); [|exact Hy]. unfold ModuleCache.enumerate. by rewrite list_lookup_imap, Hx.
Qed.

Lemma add_module_ok m c c' : ModuleCache.add_module resolve c m = Ok c' ->
  c'.(ModuleCache.modules) = c.(ModuleCache.modules) /\
  exists sts fs, c'.(ModuleCache.structs) = c.(ModuleCache.structs) ++ sts /\ c'.(ModuleCache.functions) = c.(ModuleCache.functions) ++ fs /\
    Forall2 (struct_made_of m) m.(CompiledModule.struct_defs) sts /\
    Forall2 (fun def g => exists i, Function.new resolve i def m = Ok g) m.(CompiledModule.function_defs) fs.
Proof.
  intros H. unfold ModuleCache.add_module, ModuleCache.load_field_types in H. inv_ok. simpl in *.
  match goal with H : ModuleAccess.map_res _ (ModuleCache.enumerate (CompiledModule.struct_defs m)) = Ok ?l |- _ =>
    rename H into Hsts; rename l into sts; apply res_list_forall2 in Hsts end.
  match goal with H : ModuleAccess.map_res _ (ModuleCache.enumerate (CompiledModule.function_defs m)) = Ok ?l |- _ =>
    rename H into Hfs; rename l into fs; apply res_list_forall2 in Hfs end.
  match goal with H : ModuleCache.field_types _ _ = Ok ?l |- _ => rename H into Hfts; rename l into fts; apply res_list_forall2 in Hfts end.
  match goal with H : ModuleCache.set_fields _ _ _ = Ok ?l |- _ => rename H into Hset end.
  split; [done|].
  exists (zip_with with_fields sts fts), fs. split_and!; [|done| |].
  - eapply set_fields_ok; [|exact Hset]. apply Forall2_length in Hfts, Hsts. unfold ModuleCache.enumerate in Hsts. rewrite length_imap in Hsts. lia.
  - eapply (forall2_zip_with (fun def st => (exists h, declares_struct m st.(StructType.name) def h) /\ ModuleAccess.self_id m = Ok st.(StructType.module)));
      [|eapply forall2_enumerate; [|exact Hsts]|exact Hfts].
    + intros def st ftys _ [Hn Hid] Hf. split; [done|]. split; [done|]. destruct (StructDefinition.field_information def) as [|fields]; [done|].
      exists fields. split; [done|]. simpl. apply res_list_forall2, Forall2_length in Hf. lia.
    + intros i def st Hdef Hst. unfold ModuleCache.make_struct_type in Hst. inv_ok. simpl. split; [|done].
      eexists. by apply struct_declared_at.
  - eapply forall2_enumerate; [|exact Hfs]. intros i def g _ Hg. by exists i.
Qed.

(** * Loaded modules *)

(** The function takes and returns as many values as the handle says. *)
Definition fits (v : BinaryIndexedView) (h : FunctionHandle) (g : Function NF) : Prop :=
  forall ps rs, BinaryIndexedView.signatures v !! into_index h.(FunctionHandle.parameters) = Some ps ->
    BinaryIndexedView.signatures v !! into_index h.(FunctionHandle.return_) = Some rs ->
    length g.(Function.parameters) = length ps /\ length g.(Function.return_) = length rs.

(** The tables of a loaded module lead to functions of [fs] that fit its handles, and its
    structs have the fields of their definitions. *)
Record module_ok (fs : list (Function NF)) (id : ModuleId) (M : LoadedModule) : Prop := {
  module_accepted : accepted M.(LoadedModule.module);
  module_self_id : ModuleAccess.self_id M.(LoadedModule.module) = Ok id;
  module_functions name idx : M.(LoadedModule.function_map) !! name = Some idx ->
    exists g, fs !! Z.to_nat idx = Some g /\ made_of M.(LoadedModule.module) name g;
  module_refs : Forall2 (fun h idx => exists g, fs !! Z.to_nat idx = Some g /\ fits (BinaryIndexedView.Module_ M.(LoadedModule.module)) h g)
    M.(LoadedModule.module).(CompiledModule.function_handles) M.(LoadedModule.function_refs);
  module_structs : Forall2 (fun def sd => sd.(LoadedModule.field_count) = StackUsageVerifier.field_count def)
    M.(LoadedModule.module).(CompiledModule.struct_defs) M.(LoadedModule.structs);
  module_struct_instances : Forall2 (fun inst si => exists sd,
      M.(LoadedModule.structs) !! into_index inst.(StructDefInstantiation.def) = Some sd /\
      si.(LoadedModule.instance_field_count) = sd.(LoadedModule.field_count))
    M.(LoadedModule.module).(CompiledModule.struct_def_instantiations) M.(LoadedModule.struct_instantiations);
  module_function_instances : Forall2 (fun inst fi =>
      M.(LoadedModule.function_refs) !! into_index inst.(FunctionInstantiation.handle) = Some fi.(LoadedModule.handle))
    M.(LoadedModule.module).(CompiledModule.function_instantiations) M.(LoadedModule.function_instantiations) }.

Lemma module_ok_app fs fs' id M : module_ok fs id M -> module_ok (fs ++ fs') id M.
Proof.
  intros [Ha Hid Hf Hr Hs Hi Hg]. split; try done.
  - intros name idx (g & Hg' & Hm)%Hf. exists g. split; [by apply lookup_app_l_Some|done].
  - eapply Forall2_impl; [|exact Hr]. intros h idx (g & Hg' & Hm). exists g. split; [by apply lookup_app_l_Some|done].
Qed.

(** Handles of the module itself name its definitions. *)
Section own.
Context (m : CompiledModule) (Hm : accepted m) (id : ModuleId) (Hid : ModuleAccess.self_id m = Ok id).
Abbreviation self := (ModuleAccess.self_handle_idx m).

Lemma own_handle_id mh : ModuleAccess.module_handle_at m self = Ok mh -> ModuleAccess.module_id_for_handle m mh = Ok id.
Proof using Hid.
  clear Hm. intros H. unfold ModuleAccess.self_id, ModuleAccess.self_handle in Hid. rewrite H in Hid. clear H.
  apply res_bind_ok in Hid as (mh' & H & Hid). simpl in H. apply res_bind_ok in H as (_ & _ & H).
  apply res_bind_ok in H as (_ & _ & [= <-]). exact Hid.
Qed.

Lemma own_function_declared h name : h ∈ m.(CompiledModule.function_handles) -> h.(FunctionHandle.module) = self ->
  ModuleAccess.identifier_at m h.(FunctionHandle.name) = Ok name -> exists def, declares_function m name def h.
Proof using Hm.
  intros [i Hi]%list_elem_of_lookup Hself Hn. destruct (accepted_checked m Hm) as (_ & _ & Hdist).
  destruct (functions_defined _ Hdist) as (_ & _ & Hdef). destruct (Hdef i h Hi Hself) as (def & Hin & Hidx).
  exists def. split; [done|]. rewrite Hidx. split; [done|by apply index_ok].
Qed.
Lemma own_struct_declared h name : h ∈ m.(CompiledModule.struct_handles) -> h.(StructHandle.module) = self ->
  ModuleAccess.identifier_at m h.(StructHandle.name) = Ok name -> exists def, declares_struct m name def h.
Proof using Hm.
  intros [i Hi]%list_elem_of_lookup Hself Hn. destruct (accepted_checked m Hm) as (_ & _ & Hdist).
  destruct (structs_defined _ Hdist) as (_ & _ & Hdef). destruct (Hdef i h Hi Hself) as (def & Hin & Hidx).
  exists def. split; [done|]. rewrite Hidx. split; [done|by apply index_ok].
Qed.

Lemma made_of_fits name def h g : declares_function m name def h -> made_of m name g -> fits (BinaryIndexedView.Module_ m) h g.
Proof using Hm.
  intros Hd (i & def' & h' & _ & Hd' & Hg). destruct (declares_function_unique m (accepted_checked m Hm) _ _ _ _ _ Hd Hd') as [<- <-].
  destruct (function_new_parts _ _ _ _ Hg) as (h' & _ & Hh & _ & _ & Hp & Hr & _).
  rewrite (proj1 (declares_function_at m (accepted_checked m Hm) _ _ _ Hd)) in Hh. injection Hh as <-.
  intros ps rs Hps Hrs. apply index_ok in Hp, Hr. pose proof (eq_trans (eq_sym Hp) Hps) as [= ->].
  by pose proof (eq_trans (eq_sym Hr) Hrs) as [= ->].
Qed.
End own.

(** A cache to which the definitions of [m] were added, and in which the functions that [m]
    takes from other modules can be found. *)
Record prepared (m : CompiledModule) (id : ModuleId) (c : ModuleCache NF) : Prop := {
  prepared_function idx g : c.(ModuleCache.functions) !! idx = Some g -> Function.module_id g = Some id ->
    made_of m g.(Function.name) g;
  prepared_functions name def h : declares_function m name def h ->
    exists idx g, c.(ModuleCache.functions) !! idx = Some g /\ g.(Function.name) = name;
  prepared_struct idx st : c.(ModuleCache.structs) !! idx = Some st -> st.(StructType.module) = id ->
    exists def, struct_made_of m def st;
  prepared_structs name def h : declares_struct m name def h ->
    exists idx st, c.(ModuleCache.structs) !! idx = Some st /\ st.(StructType.name) = name;
  prepared_foreign_struct h : h ∈ m.(CompiledModule.struct_handles) -> h.(StructHandle.module) <> ModuleAccess.self_handle_idx m ->
    exists id', module_id_at (BinaryIndexedView.Module_ m) h.(StructHandle.module) = Ok id' /\ id' <> id;
  prepared_foreign h : h ∈ m.(CompiledModule.function_handles) -> h.(FunctionHandle.module) <> ModuleAccess.self_handle_idx m ->
    exists id', module_id_at (BinaryIndexedView.Module_ m) h.(FunctionHandle.module) = Ok id' /\ id' <> id /\
      forall name idx, ModuleAccess.identifier_at m h.(FunctionHandle.name) = Ok name ->
        ModuleCache.resolve_function_by_name c name id' = Ok idx ->
        exists g, c.(ModuleCache.functions) !! Z.to_nat idx = Some g /\ fits (BinaryIndexedView.Module_ m) h g }.

Section new_module.
Context (m : CompiledModule) (Hm : accepted m) (id : ModuleId) (Hid : ModuleAccess.self_id m = Ok id).
Context (c : ModuleCache NF) (Hc : prepared m id c).
Abbreviation self := (ModuleAccess.self_handle_idx m).

Lemma same_id idx mh mid id' : ModuleAccess.module_handle_at m idx = Ok mh -> ModuleAccess.module_id_for_handle m mh = Ok mid ->
  module_id_at (BinaryIndexedView.Module_ m) idx = Ok id' -> mid = id'.
Proof using.
  intros Hmh Hmid H. unfold module_id_at in H. simpl in H. rewrite Hmh in H. simpl in H. unfold BinaryIndexedView.module_id_for_handle in H.
  simpl in H. unfold ModuleAccess.module_id_for_handle in Hmid. congruence.
Qed.

Lemma push_function_ref_ok h a a' : h ∈ m.(CompiledModule.function_handles) ->
  NewModule.push_function_ref m c id h a = Ok a' ->
  exists idx, a' = a ++ [idx] /\ exists g, c.(ModuleCache.functions) !! Z.to_nat idx = Some g /\ fits (BinaryIndexedView.Module_ m) h g /\
    (h.(FunctionHandle.module) = self -> forall name, ModuleAccess.identifier_at m h.(FunctionHandle.name) = Ok name -> made_of m name g).
Proof using Hm Hid Hc.
  intros Hh H. unfold NewModule.push_function_ref in H. apply res_bind_ok in H as (name & Hn & H).
  apply res_bind_ok in H as (mh & Hmh & H). apply res_bind_ok in H as (mid & Hmid & H).
  destruct (decide (h.(FunctionHandle.module) = self)) as [Hself|Hself].
  - rewrite Hself in Hmh. rewrite (own_handle_id m id Hid mh Hmh) in Hmid. injection Hmid as <-. rewrite bool_decide_true in H by done.
    destruct (own_function_declared m Hm h name Hh Hself Hn) as [def Hd].
    destruct (search_back _ _ _) as [idx| |] eqn:Es; [|done|].
    + injection H as <-. apply search_back_found in Es as (g & _ & Hg & Ho%bool_decide_eq_true & Hnm%bool_decide_eq_true).
      exists idx. split; [done|]. exists g. split; [done|].
      assert (made_of m name g) as Hmade by (rewrite <- Hnm; by eapply (prepared_function m id c Hc)).
      split; [by eapply (made_of_fits m Hm)|]. intros _ name'. rewrite Hn. by intros [= <-].
    + destruct (prepared_functions m id c Hc _ _ _ Hd) as (i & g & Hg & Hgn).
      pose proof (search_back_exhausted _ _ _ _ _ Es Hg) as Hf. rewrite bool_decide_eq_false in Hf. by destruct Hf.
  - destruct (prepared_foreign m id c Hc h Hh Hself) as (id' & Hid' & Hne & Hres).
    rewrite (same_id _ _ _ _ Hmh Hmid Hid') in *. rewrite bool_decide_false in H by done. apply res_bind_ok in H as (idx & Hr & H). injection H as <-.
    exists idx. split; [done|]. destruct (Hres name idx Hn Hr) as (g & Hg & Hfits). by exists g.
Qed.

Lemma push_struct_ref_ok h a a' : h ∈ m.(CompiledModule.struct_handles) -> NewModule.push_struct_ref m c id h a = Ok a' ->
  exists idx, a' = a ++ [idx] /\ (h.(StructHandle.module) = self -> exists st def name, c.(ModuleCache.structs) !! Z.to_nat idx = Some st /\
    declares_struct m name def h /\ struct_made_of m def st).
Proof using Hm Hid Hc.
  intros Hh H. unfold NewModule.push_struct_ref in H. apply res_bind_ok in H as (name & Hn & H).
  apply res_bind_ok in H as (mh & Hmh & H). apply res_bind_ok in H as (mid & Hmid & H).
  destruct (decide (h.(StructHandle.module) = self)) as [Hself|Hself].
  - rewrite Hself in Hmh. rewrite (own_handle_id m id Hid mh Hmh) in Hmid. injection Hmid as <-. rewrite bool_decide_true in H by done.
    destruct (own_struct_declared m Hm h name Hh Hself Hn) as [def Hd].
    destruct (search_back _ _ _) as [idx| |] eqn:Es; [|done|].
    + injection H as <-. apply search_back_found in Es as (st & _ & Hst & Ho%bool_decide_eq_true & Hnm%bool_decide_eq_true).
      exists idx. split; [done|]. intros _. exists st, def, name. split; [done|]. split; [done|].
      destruct (prepared_struct m id c Hc _ _ Hst Ho) as (def' & Hmade). pose proof Hmade as [[h' Hd'] _]. rewrite Hnm in Hd'.
      by destruct (declares_struct_unique m (accepted_checked m Hm) _ _ _ _ _ Hd Hd') as [<- _].
    + destruct (prepared_structs m id c Hc _ _ _ Hd) as (i & st & Hst & Hsn).
      pose proof (search_back_exhausted _ _ _ _ _ Es Hst) as Hf. rewrite bool_decide_eq_false in Hf. by destruct Hf.
  - destruct (prepared_foreign_struct m id c Hc h Hh Hself) as (id' & Hid' & Hne). rewrite (same_id _ _ _ _ Hmh Hmid Hid') in *.
    rewrite bool_decide_false in H by done. inv_ok. destruct x as [idx st]. injection H as <-. by eexists.
Qed.

Lemma push_struct_ok struct_refs def acc acc' : def ∈ m.(CompiledModule.struct_defs) ->
  Forall2 (fun h idx => h.(StructHandle.module) = self -> exists st def name, c.(ModuleCache.structs) !! Z.to_nat idx = Some st /\
    declares_struct m name def h /\ struct_made_of m def st) m.(CompiledModule.struct_handles) struct_refs ->
  NewModule.push_struct m c struct_refs def acc = Ok acc' ->
  exists sd, acc'.1 = acc.1 ++ [sd] /\ sd.(LoadedModule.field_count) = StackUsageVerifier.field_count def.
Proof using Hm.
  intros Hdef Hrefs H. destruct acc as [structs struct_map]. unfold NewModule.push_struct in H. inv_ok. simpl. eexists. split; [done|]. simpl.
  destruct (accepted_checked m Hm) as (_ & _ & Hdist). destruct (structs_defined _ Hdist) as (_ & Hown & _).
  destruct (Hown def Hdef) as (h & Hh & Hself).
  match goal with H : index struct_refs _ = Ok _ |- _ => apply index_ok in H; rename H into Hidx end.
  destruct (Forall2_lookup_lr _ _ _ _ _ _ Hrefs Hh Hidx Hself) as (st & def' & name & Hst & Hd & Hmade).
  match goal with H : ModuleCache.struct_at c _ = Ok _ |- _ => unfold ModuleCache.struct_at in H; rewrite Hst in H; injection H as <- end.
  assert (def' = def) as ->.
  { assert (declares_struct m name def h) as Hd' by (destruct Hd as (_ & _ & Hn); by split_and!).
    by destruct (declares_struct_unique m (accepted_checked m Hm) _ _ _ _ _ Hd Hd'). }
  destruct Hmade as (_ & _ & fields & Hf & ->). unfold StackUsageVerifier.field_count. rewrite Hf.
  apply Z.mod_small. pose proof (small_fields m (accepted_small m Hm) def fields Hdef Hf). lia.
Qed.

(** The map of functions holds the definitions. *)
Lemma add_functions_named function_refs acc :
  Forall2 (fun h idx => exists g, c.(ModuleCache.functions) !! Z.to_nat idx = Some g /\ (h.(FunctionHandle.module) = self ->
    forall name, ModuleAccess.identifier_at m h.(FunctionHandle.name) = Ok name -> made_of m name g)) m.(CompiledModule.function_handles) function_refs ->
  Context.fill (NewModule.add_function m c function_refs) m.(CompiledModule.function_defs) (∅, ∅) = Ok acc ->
  forall name idx, acc.1 !! name = Some idx -> exists g, c.(ModuleCache.functions) !! Z.to_nat idx = Some g /\ made_of m name g.
Proof using Hm.
  intros Hrefs. eapply (fill_inv (fun acc => forall name idx, acc.1 !! name = Some idx ->
    exists g, c.(ModuleCache.functions) !! Z.to_nat idx = Some g /\ made_of m name g)); [|done].
  intros def [fm sm] acc' Hdef H HI name idx. unfold NewModule.add_function in H. inv_ok. simpl in *.
  destruct (accepted_checked m Hm) as (_ & _ & Hdist). destruct (functions_defined _ Hdist) as (_ & Hown & _).
  destruct (Hown def Hdef) as (h & Hh & Hself).
  match goal with H : index function_refs _ = Ok _ |- _ => apply index_ok in H; rename H into Hidx end.
  match goal with H : ModuleAccess.function_handle_at m _ = Ok ?h' |- _ => rename H into Hh'; assert (h' = h) as -> end.
  { unfold ModuleAccess.function_handle_at in Hh'. inv_ok.
    match goal with H : index _ _ = Ok _ |- _ => apply index_ok in H; rewrite Hh in H; by injection H end. }
  destruct (Forall2_lookup_lr _ _ _ _ _ _ Hrefs Hh Hidx) as (g & Hg & Hmade).
  destruct (decide (name = x1)) as [->|Hne]; [rewrite lookup_insert_eq|rewrite lookup_insert_ne by done; apply HI].
  intros [= <-]. exists g. split; [done|]. by apply Hmade.
Qed.

(** The map of structs holds structs of that name. *)
Definition named_struct (structs : list StructType) (id : ModuleId) (name : Identifier) (idx : Z) : Prop :=
  exists st, structs !! Z.to_nat idx = Some st /\ st.(StructType.name) = name /\ st.(StructType.module) = id.

Lemma push_structs_named struct_refs acc :
  Forall2 (fun h idx => h.(StructHandle.module) = self -> exists st def name, c.(ModuleCache.structs) !! Z.to_nat idx = Some st /\
    declares_struct m name def h /\ struct_made_of m def st) m.(CompiledModule.struct_handles) struct_refs ->
  Context.fill (NewModule.push_struct m c struct_refs) m.(CompiledModule.struct_defs) ([], ∅) = Ok acc ->
  forall name idx, acc.2 !! name = Some idx -> named_struct c.(ModuleCache.structs) id name idx.
Proof using Hm Hid.
  intros Hrefs. eapply (fill_inv (fun acc => forall name idx, acc.2 !! name = Some idx -> named_struct c.(ModuleCache.structs) id name idx)); [|done].
  intros def [sds sm] acc' Hdef H HI name idx. unfold NewModule.push_struct in H. inv_ok. simpl in *.
  destruct (accepted_checked m Hm) as (_ & _ & Hdist). destruct (structs_defined _ Hdist) as (_ & Hown & _).
  destruct (Hown def Hdef) as (h & Hh & Hself).
  match goal with H : index struct_refs _ = Ok _ |- _ => apply index_ok in H; rename H into Hidx end.
  match goal with H : ModuleAccess.struct_handle_at m _ = Ok ?h' |- _ => rename H into Hh'; assert (h' = h) as -> end.
  { unfold ModuleAccess.struct_handle_at in Hh'. inv_ok.
    match goal with H : index _ _ = Ok _ |- _ => apply index_ok in H; rewrite Hh in H; by injection H end. }
  destruct (Forall2_lookup_lr _ _ _ _ _ _ Hrefs Hh Hidx Hself) as (st & def' & name' & Hst & (_ & Hh2 & Hn2) & (h3 & _ & Hh3 & Hn3) & Hsid & _).
  match goal with H : ModuleAccess.identifier_at m _ = Ok ?n |- _ => apply index_ok in H; rename H into Hn; rename n into name0 end.
  destruct (decide (name = name0)) as [->|Hne]; [rewrite lookup_insert_eq|rewrite lookup_insert_ne by done; apply HI].
  intros [= <-]. exists st. split; [done|]. split; congruence.
Qed.

Lemma new_module_ok M : NewModule.new m c = Ok M -> M.(LoadedModule.module) = m /\ module_ok c.(ModuleCache.functions) id M /\
  forall name idx, M.(LoadedModule.struct_map) !! name = Some idx -> named_struct c.(ModuleCache.structs) id name idx.
Proof using Hm Hid Hc.
  unfold NewModule.new. rewrite Hid. cbn [mbind result_bind]. intros H.
  apply res_bind_ok in H as (struct_refs & Hsr & H). apply res_bind_ok in H as ([structs struct_map] & Hst & H).
  apply res_bind_ok in H as (sis & Hsi & H). apply res_bind_ok in H as (frs & Hfr & H).
  apply res_bind_ok in H as ([fm sm] & Hfm & H). apply res_bind_ok in H as (fis & Hfi & H). inv_ok. split; [done|].
  apply (fill_push (fun l => l) _ _ _ _ _ push_struct_ref_ok) in Hsr as (bs & -> & Hsr). simpl in *.
  split; [|by apply (push_structs_named bs (structs, struct_map))].
  apply (fill_push fst _ _ _ _ _ (fun def acc acc' Hdef => push_struct_ok bs def acc acc' Hdef Hsr)) in Hst as (sds & Hsds & Hst). simpl in Hsds; subst sds.
  apply (fill_push (fun l => l) _ _ _ _ _ push_function_ref_ok) in Hfr as (refs & -> & Hfr). simpl in *.
  split; simpl; [done|done| | |done| |].
  - apply (add_functions_named refs (fm, sm)); [|done]. eapply Forall2_impl; [|exact Hfr]. naive_solver.
  - eapply Forall2_impl; [|exact Hfr]. naive_solver.
  - eapply Forall2_impl; [|apply res_list_forall2, Hsi]. intros inst si Hi. unfold NewModule.struct_instantiation in Hi. inv_ok.
    eexists. split; [by apply index_ok|done].
  - eapply Forall2_impl; [|apply res_list_forall2, Hfi]. intros inst fi Hi. unfold NewModule.function_instantiation in Hi. inv_ok.
    by apply index_ok.
Qed.
End new_module.

(** * The cache *)

Record cache_ok (c : ModuleCache NF) : Prop := {
  cache_ids id idx : c.(ModuleCache.modules).(BinaryCache.id_map) !! id = Some idx ->
    0 <= idx < zlen c.(ModuleCache.modules).(BinaryCache.binaries);
  cache_modules id M : ModuleCache.module_at c id = Some M -> module_ok c.(ModuleCache.functions) id M;
  cache_functions g : g ∈ c.(ModuleCache.functions) ->
    exists id M name, ModuleCache.module_at c id = Some M /\ made_of M.(LoadedModule.module) name g;
  cache_structs st : st ∈ c.(ModuleCache.structs) -> is_Some (ModuleCache.module_at c st.(StructType.module));
  cache_struct_maps id M name idx : ModuleCache.module_at c id = Some M -> M.(LoadedModule.struct_map) !! name = Some idx ->
    named_struct c.(ModuleCache.structs) id name idx }.

(** Modules, structs and functions are only added. *)
Definition extends (c c' : ModuleCache NF) : Prop :=
  (forall id M, ModuleCache.module_at c id = Some M -> ModuleCache.module_at c' id = Some M) /\
  c.(ModuleCache.structs) `prefix_of` c'.(ModuleCache.structs) /\
  c.(ModuleCache.functions) `prefix_of` c'.(ModuleCache.functions).

#[global] Instance extends_preorder : PreOrder extends.
Proof.
  split; [by intros c; split|]. intros c1 c2 c3 (H1 & S1 & F1) (H2 & S2 & F2). split; [auto|]. split; by etrans.
Qed.

Lemma cache_new_ok : cache_ok ModuleCache.new.
Proof.
  assert (forall id M, ModuleCache.module_at (NF:=NF) ModuleCache.new id <> Some M) as Hnone.
  { intros id M H. unfold ModuleCache.module_at, BinaryCache.get in H.
    change (((∅ : gmap ModuleId Z) !! id ≫= fun idx => ([] : list LoadedModule) !! Z.to_nat idx) = Some M) in H. by rewrite lookup_empty in H. }
  split; [intros id idx H|by intros id M ?%Hnone|by intros g ?%elem_of_nil..|by intros id M name idx ?%Hnone].
  change ((∅ : gmap ModuleId Z) !! id = Some idx) in H. by rewrite lookup_empty in H.
Qed.

Lemma made_of_scope m name g : made_of m name g -> exists id, ModuleAccess.self_id m = Ok id /\ g.(Function.scope) = Scope.Module_ id.
Proof. intros (i & def & h & _ & _ & Hg). destruct (function_new_parts _ _ _ _ Hg) as (_ & id & _ & _ & Hid & _ & _ & Hs & _). eauto. Qed.

(** What a unit that links takes from the modules of the cache. *)
Section linked.
Context (c : ModuleCache NF) (Hc : cache_ok c) (v : BinaryIndexedView) (deps : list CompiledModule) (Hlinks : links v deps).
Context (Hdeps : forall d, d ∈ deps -> exists id' M, ModuleCache.module_at c id' = Some M /\ M.(LoadedModule.module) = d).

Lemma names_other idx d : names v deps idx d -> exists id M, module_id_at v idx = Ok id /\ BinaryIndexedView.self_id v <> Ok (Some id) /\
  ModuleCache.module_at c id = Some M /\ M.(LoadedModule.module) = d.
Proof using Hdeps Hc.
  intros (id & Hid & Hd & Hself & Hother). destruct (Hdeps d Hd) as (id' & M & HM & <-).
  pose proof (module_self_id _ _ _ (cache_modules c Hc _ _ HM)) as Hs. rewrite Hself in Hs. injection Hs as <-. by exists id, M.
Qed.

Lemma foreign_fits (c' : ModuleCache NF) h : c'.(ModuleCache.modules) = c.(ModuleCache.modules) ->
  h ∈ BinaryIndexedView.function_handles v -> foreign v h.(FunctionHandle.module) ->
  exists id, module_id_at v h.(FunctionHandle.module) = Ok id /\ BinaryIndexedView.self_id v <> Ok (Some id) /\
    forall name idx, BinaryIndexedView.identifier_at v h.(FunctionHandle.name) = Ok name ->
      ModuleCache.resolve_function_by_name c' name id = Ok idx ->
      exists g, c.(ModuleCache.functions) !! Z.to_nat idx = Some g /\ fits v h g.
Proof using All.
  intros Emod Hh Hne. destruct (link_functions _ _ Hlinks h Hh Hne) as (d & name & def & dh & ps & dps & rs & drs & Hnames & Hname & Hd & _ & _ &
    Hps & Hdps & (Ts & HT1 & HT2) & Hrs & Hdrs & (Us & HU1 & HU2)).
  destruct (names_other _ _ Hnames) as (id & M & Hid & Hother & HM & <-). exists id. split_and!; [done..|].
  intros name' idx Hname' Hres. rewrite Hname in Hname'. injection Hname' as <-.
  unfold ModuleCache.resolve_function_by_name, ModuleCache.module_at in Hres. rewrite Emod in Hres.
  unfold ModuleCache.module_at in HM. rewrite HM in Hres. simpl in Hres.
  destruct (LoadedModule.function_map M !! name) as [idx'|] eqn:Ef; [|done]. injection Hres as <-.
  pose proof (cache_modules c Hc id M HM) as HMok. destruct (module_functions _ _ _ HMok _ _ Ef) as (g & Hg & Hmade).
  exists g. split; [done|]. destruct (made_of_fits _ (module_accepted _ _ _ HMok) _ _ _ _ Hd Hmade dps drs Hdps Hdrs) as [Ep Er].
  intros ps' rs' Hps' Hrs'. rewrite Hps in Hps'. rewrite Hrs in Hrs'. injection Hps' as <-. injection Hrs' as <-.
  rewrite Ep, Er, <- (map_res_same_length _ _ _ HT1), <- (map_res_same_length _ _ _ HU1).
  by rewrite (map_res_same_length _ _ _ HT2), (map_res_same_length _ _ _ HU2).
Qed.
End linked.

Section insert.
Context (c : ModuleCache NF) (Hc : cache_ok c) (m : CompiledModule) (Hm : accepted m) (id : ModuleId) (Hid : ModuleAccess.self_id m = Ok id).
Context (Hnew : ModuleCache.module_at c id = None) (deps : list CompiledModule) (Hlinks : links (BinaryIndexedView.Module_ m) deps).
Context (Hdeps : forall d, d ∈ deps -> exists id' M, ModuleCache.module_at c id' = Some M /\ M.(LoadedModule.module) = d).

Lemma not_self id' : BinaryIndexedView.self_id (BinaryIndexedView.Module_ m) <> Ok (Some id') -> id' <> id.
Proof using Hid. intros H ->. apply H. simpl. by rewrite Hid. Qed.

Lemma added_prepared c' : ModuleCache.add_module resolve c m = Ok c' -> prepared m id c'.
Proof using All.
  intros Hadd. destruct (add_module_ok _ _ _ Hadd) as (Emod & sts & fs & Est & Efs & Hsts & Hfs). split.
  - intros idx g Hg Hgid. rewrite Efs in Hg. apply lookup_app_Some in Hg as [Hg|[_ Hg]].
    + destruct (cache_functions c Hc g (list_elem_of_lookup_2 _ _ _ Hg)) as (id0 & M & name & HM & Hmade).
      destruct (made_of_scope _ _ _ Hmade) as (id1 & Hid1 & Hs). rewrite (module_self_id _ _ _ (cache_modules c Hc _ _ HM)) in Hid1.
      injection Hid1 as <-. unfold Function.module_id in Hgid. rewrite Hs in Hgid. injection Hgid as ->. congruence.
    + destruct (Forall2_lookup_r _ _ _ _ _ Hfs Hg) as (def & Hdef & i & Hnewf). pose proof (list_elem_of_lookup_2 _ _ _ Hdef) as Hin.
      destruct (function_new_parts _ _ _ _ Hnewf) as (h & _ & Hh & Hn & _). exists i, def, h. split_and!; [done| |done].
      by apply declared_at; [apply accepted_checked|..].
  - intros name def h (Hin & Hh & Hn). apply list_elem_of_lookup in Hin as [j Hj].
    destruct (Forall2_lookup_l _ _ _ _ _ Hfs Hj) as (g & Hg & i & Hnewf). exists (length c.(ModuleCache.functions) + j)%nat, g.
    rewrite Efs, lookup_app_r, Nat.add_sub' by lia. split; [done|]. destruct (function_new_parts _ _ _ _ Hnewf) as (h' & _ & Hh' & Hn' & _).
    pose proof (list_elem_of_lookup_2 _ _ _ Hj) as Hin. destruct (declared_at _ _ _ _ (accepted_checked m Hm) Hin Hh' Hn') as (_ & Hh2 & Hn2). congruence.
  - intros idx st Hst Hsid. rewrite Est in Hst. apply lookup_app_Some in Hst as [Hst|[_ Hst]].
    + destruct (cache_structs c Hc st (list_elem_of_lookup_2 _ _ _ Hst)) as [M HM]. congruence.
    + destruct (Forall2_lookup_r _ _ _ _ _ Hsts Hst) as (def & Hdef & Hmade). by exists def.
  - intros name def h (Hin & Hh & Hn). apply list_elem_of_lookup in Hin as [j Hj].
    destruct (Forall2_lookup_l _ _ _ _ _ Hsts Hj) as (st & Hst & (h' & Hd') & _). exists (length c.(ModuleCache.structs) + j)%nat, st.
    rewrite Est, lookup_app_r, Nat.add_sub' by lia. split; [done|]. destruct Hd' as (_ & Hh2 & Hn2). congruence.
  - intros h Hh Hne. destruct (link_structs _ _ Hlinks h Hh) as (d & name & def & dh & Hnames & _); [unfold foreign; simpl; congruence|].
    destruct (names_other c Hc _ _ Hdeps _ _ Hnames) as (id' & M & Hid' & Hne'%not_self & _). eauto.
  - intros h Hh Hne. destruct (foreign_fits c Hc _ _ Hlinks Hdeps c' h Emod Hh) as (id' & Hid' & Hne'%not_self & Hf); [unfold foreign; simpl; congruence|]. exists id'. split_and!; [done..|].
    intros name idx Hn Hres. destruct (Hf name idx Hn Hres) as (g & Hg & Hfits). exists g. rewrite Efs. split; [by apply lookup_app_l_Some|done].
Qed.
End insert.

Lemma cache_insert_get {K V} `{Countable K} (b : BinaryCache K V) (id id' : K) (M : V) :
  (forall id idx, b.(BinaryCache.id_map) !! id = Some idx -> 0 <= idx < zlen b.(BinaryCache.binaries)) ->
  BinaryCache.get (BinaryCache.insert b id M) id' = if decide (id' = id) then Some M else BinaryCache.get b id'.
Proof.
  intros Hb. unfold BinaryCache.get, BinaryCache.insert. simpl. destruct (decide (id' = id)) as [->|Hne].
  - rewrite lookup_insert_eq. simpl. rewrite length_app. simpl.
    replace (Z.to_nat (Z.of_nat (length b.(BinaryCache.binaries) + 1) - 1)) with (length b.(BinaryCache.binaries)) by lia.
    by rewrite list_lookup_middle.
  - rewrite lookup_insert_ne by done. destruct (b.(BinaryCache.id_map) !! id') as [idx|] eqn:E; [|done]. simpl.
    apply lookup_app_l. apply Hb in E. lia.
Qed.

(** Loading a module leaves a good cache with what was there before. *)
Record grows (s s' : LoaderState NF) : Prop := {
  grows_cache : cache_ok s'.(LoaderState.module_cache);
  grows_extends : extends s.(LoaderState.module_cache) s'.(LoaderState.module_cache);
  grows_scripts : s'.(LoaderState.scripts) = s.(LoaderState.scripts) }.

Definition runs {A} (s : LoaderState NF) (m : LM (LoaderState NF) A) (Q : A -> LoaderState NF -> Prop) : Prop :=
  match m s with
  | Ok (a, s') => grows s s' /\ Q a s'
  | Err (_, s') => grows s s'
  | Panic | OutOfFuel => True
  end.

Lemma loader_grows_refl s : cache_ok s.(LoaderState.module_cache) -> grows s s.
Proof. by split. Qed.
Lemma loader_grows_trans s1 s2 s3 : grows s1 s2 -> grows s2 s3 -> grows s1 s3.
Proof. intros [_ H2 E2] [H3 H4 E3]. split; [done|by etransitivity|congruence]. Qed.

Lemma runs_bind {A B} s (m : LM (LoaderState NF) A) (f : A -> LM (LoaderState NF) B) Q Q' :
  runs s m Q -> (forall a s', grows s s' -> Q a s' -> runs s' (f a) Q') -> runs s (m ≫= f) Q'.
Proof.
  unfold runs, mbind, LM_bind. destruct (m s) as [[a s1]|[e s1]| |]; [|done..]. intros [Hg HQ] Hf. pose proof (Hf a s1 Hg HQ) as H.
  destruct (f a s1) as [[b s2]|[e s2]| |]; [destruct H; split; [by eapply loader_grows_trans|done]|by eapply loader_grows_trans|done..].
Qed.
Lemma runs_ret {A} s (a : A) (Q : A -> LoaderState NF -> Prop) : cache_ok s.(LoaderState.module_cache) -> Q a s -> runs s (mret a) Q.
Proof. intros Hs HQ. by split; [apply loader_grows_refl|]. Qed.
Lemma runs_lift {A} s (r : R A) : cache_ok s.(LoaderState.module_cache) -> runs s (lm_lift r) (fun a s' => s' = s /\ r = Ok a).
Proof. intros Hs. unfold runs, lm_lift. destruct r; [split; [by apply loader_grows_refl|done]|by apply loader_grows_refl|done..]. Qed.
Lemma runs_get s : cache_ok s.(LoaderState.module_cache) -> runs s CodeLoader.get_cache (fun c s' => s' = s /\ c = s.(LoaderState.module_cache)).
Proof. intros Hs. split; [by apply loader_grows_refl|done]. Qed.
Lemma runs_impl {A} s (m : LM (LoaderState NF) A) (Q Q' : A -> LoaderState NF -> Prop) :
  runs s m Q -> (forall a s', grows s s' -> Q a s' -> Q' a s') -> runs s m Q'.
Proof. unfold runs. destruct (m s) as [[a s1]|[e s1]| |]; naive_solver. Qed.

(** An error leaves the loader exactly as it was. *)
Lemma insert_error id m s e s' : CodeLoader.insert resolve id m s = Err (e, s') -> s' = s.
Proof.
  unfold CodeLoader.insert. destruct (ModuleCache.module_at _ _); [done|].
  destruct (ModuleCache.add_module _ _ _) as [c|e0| |] eqn:Hadd; [|by intros [= _ ->]|done..].
  destruct (add_module_ok _ _ _ Hadd) as (Emod & sts & fs & Est & Efs & Hsts%Forall2_length & Hfs%Forall2_length).
  destruct (NewModule.new m c); [done| |done..]. intros [= _ <-]. rewrite Emod, Est, Efs, !length_app, Hsts, Hfs, !Nat.add_sub, !take_app_length.
  by destruct s as [scripts []].
Qed.

Lemma insert_runs s id m deps : cache_ok s.(LoaderState.module_cache) -> accepted m -> ModuleAccess.self_id m = Ok id ->
  links (BinaryIndexedView.Module_ m) deps ->
  (forall d, d ∈ deps -> exists id' M, ModuleCache.module_at s.(LoaderState.module_cache) id' = Some M /\ M.(LoadedModule.module) = d) ->
  runs s (CodeLoader.insert resolve id m) (fun M s' => ModuleCache.module_at s'.(LoaderState.module_cache) id = Some M).
Proof.
  intros Hs Hm Hid Hlinks Hdeps. unfold runs. destruct (CodeLoader.insert resolve id m s) as [[M s']|[e s']| |] eqn:Hins;
    [|apply insert_error in Hins as ->; by apply loader_grows_refl|done..].
  unfold CodeLoader.insert in Hins. destruct (ModuleCache.module_at _ _) as [M0|] eqn:Hnew; [injection Hins as <- <-; split; [by apply loader_grows_refl|done]|].
  destruct (ModuleCache.add_module _ _ _) as [c| | |] eqn:Hadd; [|done..]. destruct (NewModule.new m c) as [M1| | |] eqn:HM; [|done..].
  injection Hins as <- <-. pose proof (added_prepared _ Hs m Hm id Hid Hnew deps Hlinks Hdeps c Hadd) as Hprep.
  destruct (new_module_ok m Hm id Hid c Hprep M1 HM) as (EM & HMok & Hnamed).
  destruct (add_module_ok _ _ _ Hadd) as (Emod & sts & fs & Est & Efs & Hsts & Hfs).
  assert (forall id', ModuleCache.module_at (ModuleCache.mk (BinaryCache.insert c.(ModuleCache.modules) id M1) c.(ModuleCache.structs) c.(ModuleCache.functions)) id' =
    if decide (id' = id) then Some M1 else ModuleCache.module_at s.(LoaderState.module_cache) id') as Hat.
  { intros id'. unfold ModuleCache.module_at. simpl. rewrite Emod. apply cache_insert_get, cache_ids, Hs. }
  split; [|simpl; by rewrite Hat, decide_True]. split; simpl; [|split; [|split; [by exists sts|by exists fs]]|done].
  - split; simpl.
    + intros id' idx. rewrite Emod, length_app. simpl. destruct (decide (id' = id)) as [->|Hne].
      * rewrite lookup_insert_eq. intros [= <-]. lia.
      * rewrite lookup_insert_ne by done. intros H%(cache_ids _ Hs). lia.
    + intros id' M. rewrite Hat. destruct (decide (id' = id)) as [->|Hne]; [by intros [= <-]|].
      intros H%(cache_modules _ Hs). rewrite Efs. by apply module_ok_app.
    + intros g. setoid_rewrite Hat. rewrite Efs. intros [Hg|Hg]%elem_of_app.
      * destruct (cache_functions _ Hs g Hg) as (id0 & M & name & HM0 & Hmade). exists id0, M, name. split; [|done].
        rewrite decide_False; [done|]. intros ->. congruence.
      * exists id, M1, g.(Function.name). split; [by rewrite decide_True|]. rewrite EM.
        apply list_elem_of_lookup in Hg as [j Hj]. destruct (Forall2_lookup_r _ _ _ _ _ Hfs Hj) as (def & _ & i & Hnf).
        apply (prepared_function m id c Hprep (length s.(LoaderState.module_cache).(ModuleCache.functions) + j)%nat);
          [rewrite Efs, lookup_app_r, Nat.add_sub' by lia; done|].
        destruct (function_new_parts _ _ _ _ Hnf) as (_ & id0 & _ & _ & Hid0 & _ & _ & Hsc & _). unfold Function.module_id.
        rewrite Hsc. congruence.
    + intros st. rewrite Hat, Est. intros [Hst|Hst]%elem_of_app.
      * destruct (cache_structs _ Hs st Hst) as [M HM0]. by destruct (decide _).
      * apply list_elem_of_lookup in Hst as [j Hj]. destruct (Forall2_lookup_r _ _ _ _ _ Hsts Hj) as (def & _ & _ & Hid0 & _).
        rewrite Hid in Hid0. injection Hid0 as <-. by rewrite decide_True.
    + intros id' M name idx. rewrite Hat. destruct (decide (id' = id)) as [->|Hne]; [intros [= <-]; apply Hnamed|].
      intros HM0 Hi. destruct (cache_struct_maps _ Hs _ _ _ _ HM0 Hi) as (st & Hst & Hn). exists st. split; [|done]. rewrite Est. by apply lookup_app_l_Some.
  - intros id' M H. rewrite Hat. destruct (decide (id' = id)) as [->|]; [congruence|done].
Qed.

(** * Loading *)

(** What is stored as a module with a name is that module, and within the limits. *)
Definition store_ok (data_store : DS) : Prop := forall id bytes m,
  ModuleStore.load_module data_store id = Ok bytes -> deserialize_module bytes = Ok m ->
  wf_bytes bytes = true /\ ModuleAccess.self_id m = Ok id /\ small_module m.

Lemma map_err_ok {A} f (r : R A) a : map_err f r = Ok a <-> r = Ok a.
Proof. by destruct r. Qed.

Abbreviation cached s id := (ModuleCache.module_at s.(LoaderState.module_cache) id).

Section store.
Context (data_store : DS) (Hstore : store_ok data_store).
Abbreviation load_one := (CodeLoader.load_and_verify_module resolve from_bytes_seed toposort tarjan_scc).

Lemma load_one_ok id allow m : load_one id data_store allow = Ok m -> accepted m /\ ModuleAccess.self_id m = Ok id.
Proof using Hstore.
  unfold CodeLoader.load_and_verify_module. intros H. inv_ok. repeat match goal with x : () |- _ => destruct x end.
  repeat match goal with H : map_err _ _ = Ok _ |- _ => apply map_err_ok in H end.
  destruct (Hstore _ _ _ ltac:(eassumption) ltac:(eassumption)) as (Hb & Hid & Hsmall). split; [|done]. split; [|done..].
  match goal with H : deserialize_module _ = Ok _ |- _ => unfold deserialize_module in H; inv_ok end. by eapply deserialize_module_wf.
Qed.

(** What the computations below promise: the module is in the cache. *)
Abbreviation Collected := (gset ModuleId * gset ModuleId)%type.
Definition loads {A} (load : ModuleId -> A -> LM (LoaderState NF) (LoadedModule * A)) : Prop :=
  forall s id x, cache_ok s.(LoaderState.module_cache) -> runs s (load id x) (fun r s' => cached s' id = Some r.1).

Lemma grows_cached s s' id M : grows s s' -> cached s id = Some M -> cached s' id = Some M.
Proof using. clear Hstore. intros [_ [H _] _]. apply H. Qed.

Lemma load_dependencies_runs load deps : loads load -> forall s (coll : Collected), cache_ok s.(LoaderState.module_cache) ->
  runs s (CodeLoader.load_dependencies load ∅ deps coll)
    (fun r s' => r.1.1 = [] /\ Forall2 (fun id M => cached s' id = Some M) deps r.1.2).
Proof using.
  clear Hstore. intros Hload. induction deps as [|id deps IH]; intros s coll Hs; cbn [CodeLoader.load_dependencies]; [by apply runs_ret|].
  rewrite lookup_empty. eapply runs_bind; [by apply runs_get|]. intros c s1 Hg1 [-> ->].
  eapply (runs_bind _ _ _ (fun r s' => cached s' id = Some r.1)).
  - destruct (ModuleCache.module_at _ id) eqn:E; [by apply runs_ret|by apply Hload].
  - intros [M coll'] s2 Hg2 HM. eapply runs_bind; [apply IH, Hg2|]. intros [[bd cd] coll''] s3 Hg3 [Hb Hcd].
    apply runs_ret; [apply Hg3|]. simpl in *. split; [done|]. constructor; [by eapply grows_cached|done].
Qed.

(** The modules of a cache are good dependencies. *)
Lemma cached_dependencies s ids Ms : cache_ok s.(LoaderState.module_cache) -> Forall2 (fun id M => cached s id = Some M) ids Ms ->
  checked_dependencies (map LoadedModule.module Ms) /\
  forall d, d ∈ map LoadedModule.module Ms -> exists id M, cached s id = Some M /\ M.(LoadedModule.module) = d.
Proof using.
  clear Hstore. intros Hs Hall.
  assert (forall d, d ∈ map LoadedModule.module Ms -> exists id M, cached s id = Some M /\ M.(LoadedModule.module) = d) as Hin.
  { intros d (M & -> & HM)%list_elem_of_fmap. apply list_elem_of_lookup in HM as [i Hi].
    destruct (Forall2_lookup_r _ _ _ _ _ Hall Hi) as (id & _ & Hid). eauto. }
  split; [|done]. split.
  - intros d (id & M & HM & <-)%Hin. apply accepted_checked. by eapply module_accepted, (cache_modules _ Hs).
  - intros d d' id (i & M & HM & <-)%Hin (i' & M' & HM' & <-)%Hin Hid Hid'.
    rewrite (module_self_id _ _ _ (cache_modules _ Hs _ _ HM)) in Hid. rewrite (module_self_id _ _ _ (cache_modules _ Hs _ _ HM')) in Hid'.
    simplify_eq. done.
Qed.

Lemma dependencies_runs load m s (coll : Collected) allow : loads load -> cache_ok s.(LoaderState.module_cache) ->
  runs s (CodeLoader.load_and_verify_dependencies load m ∅ coll allow) (fun _ s' => exists ids Ms,
    Forall2 (fun id M => cached s' id = Some M) ids Ms /\ Dependencies.verify_module_impl m (map LoadedModule.module Ms) = Ok ()).
Proof using.
  clear Hstore. intros Hload Hs. unfold CodeLoader.load_and_verify_dependencies.
  eapply runs_bind; [by apply runs_lift|]. intros deps s1 _ [-> _].
  eapply runs_bind; [by apply load_dependencies_runs|]. intros [[bd cd] coll'] s2 Hg2 [Hb Hcd]. simpl in Hb, Hcd. subst bd.
  eapply runs_bind; [apply runs_lift, Hg2|]. intros [] s3 _ [-> Hv]. apply runs_ret; [apply Hg2|].
  exists deps, cd. split; [done|]. simpl in Hv. destruct allow; [done|by apply map_err_ok in Hv].
Qed.

Lemma link_runs load m s (coll : Collected) allow : loads load -> accepted m -> cache_ok s.(LoaderState.module_cache) ->
  runs s (CodeLoader.load_and_verify_dependencies load m ∅ coll allow) (fun _ s' => exists deps, links (BinaryIndexedView.Module_ m) deps /\
    forall d, d ∈ deps -> exists id M, cached s' id = Some M /\ M.(LoadedModule.module) = d).
Proof using.
  clear Hstore. intros Hload Hm Hs. eapply runs_impl; [by apply dependencies_runs|]. intros _ s' Hg (ids & Ms & HMs & Hok).
  destruct (cached_dependencies s' ids Ms (grows_cache _ _ Hg) HMs) as [Hck Hin]. exists (map LoadedModule.module Ms). split; [|done].
  destruct (accepted_small m Hm) as [H1 _ H2 _ _]. by apply (verify_unit_ok (BinaryIndexedView.Module_ m) _ (accepted_checked m Hm) Hck H1 H2).
Qed.

Abbreviation load_deps fuel := (CodeLoader.load_and_verify_module_and_dependencies resolve from_bytes_seed toposort tarjan_scc fuel ∅ data_store).

Lemma load_deps_runs fuel allow : loads (load_deps fuel allow).
Proof using Hstore.
  revert allow. induction fuel as [|fuel IH]; intros allow s id [visited friends] Hs; [done|].
  cbn [CodeLoader.load_and_verify_module_and_dependencies]. destruct (bool_decide _).
  { eapply runs_impl; [by apply runs_lift|]. by intros a s' _ [_ ?]. }
  eapply runs_bind; [by apply runs_lift|]. intros m s1 _ [-> [Hm Hid]%load_one_ok].
  eapply runs_bind; [by apply runs_lift|]. intros fs s2 _ [-> _].
  eapply runs_bind; [by apply (link_runs _ m _ _ _ (IH false))|]. intros coll s3 Hg3 (deps & Hlinks & Hdeps).
  eapply runs_bind; [by eapply insert_runs; [apply Hg3|..]|]. intros M s4 Hg4 HM. by apply runs_ret; [apply Hg4|].
Qed.

Abbreviation load_all fuel := (CodeLoader.load_and_verify_module_and_dependencies_and_friends resolve from_bytes_seed toposort tarjan_scc fuel ∅ ∅ data_store).
Abbreviation is_cached id := (fun M s' => cached s' id = Some M).

Lemma runs_for {A} (l : list A) (f : A -> LM (LoaderState NF) ()) : (forall s x, cache_ok s.(LoaderState.module_cache) -> runs s (f x) (fun _ _ => True)) ->
  forall s, cache_ok s.(LoaderState.module_cache) -> runs s (CodeLoader.lm_for l f) (fun _ _ => True).
Proof using.
  clear Hstore. intros Hf. induction l as [|x l IH]; intros s Hs; cbn [CodeLoader.lm_for]; [by apply runs_ret|].
  eapply runs_bind; [by apply Hf|]. intros _ s1 Hg _. apply IH, Hg.
Qed.

Lemma friends_runs (load : ModuleId -> LM (LoaderState NF) LoadedModule) friends s :
  (forall s id, cache_ok s.(LoaderState.module_cache) -> runs s (load id) (is_cached id)) -> cache_ok s.(LoaderState.module_cache) ->
  runs s (CodeLoader.load_and_verify_friends load friends ∅ ∅) (fun _ _ => True).
Proof using.
  clear Hstore. intros Hload Hs. unfold CodeLoader.load_and_verify_friends. eapply runs_bind; [by apply runs_get|]. intros c s1 _ [-> ->].
  apply runs_for; [|done]. intros s2 x Hs2. eapply runs_bind; [by apply Hload|]. intros M s3 Hg3 _. by apply runs_ret; [apply Hg3|].
Qed.

Lemma load_all_runs fuel allow s id : cache_ok s.(LoaderState.module_cache) -> runs s (load_all fuel allow id) (is_cached id).
Proof using Hstore.
  revert allow s id. induction fuel as [|fuel IH]; intros allow s id Hs; [done|].
  cbn [CodeLoader.load_and_verify_module_and_dependencies_and_friends].
  eapply runs_bind; [by apply load_deps_runs|]. intros [M coll] s1 Hg1 HM. simpl in HM.
  eapply runs_bind; [apply friends_runs; [apply IH|apply Hg1]|]. intros _ s2 Hg2 _. apply runs_ret; [apply Hg2|]. by eapply grows_cached.
Qed.

Abbreviation load_module fuel id := (CodeLoader.load_module resolve from_bytes_seed toposort tarjan_scc fuel id data_store).
Abbreviation load_type fuel := (CodeLoader.load_type resolve from_bytes_seed toposort tarjan_scc fuel data_store).

Lemma load_module_runs fuel s id : cache_ok s.(LoaderState.module_cache) -> runs s (load_module fuel id) (is_cached id).
Proof using Hstore.
  intros Hs. unfold CodeLoader.load_module, CodeLoader.load_module_internal. eapply runs_bind; [by apply runs_get|].
  intros c s1 _ [-> ->]. destruct (ModuleCache.module_at _ id) as [M|] eqn:E; [by apply runs_ret|].
  eapply runs_bind; [by apply load_all_runs|]. intros M s2 Hg2 HM.
  eapply runs_bind; [apply runs_get, Hg2|]. intros c s3 _ [-> ->]. eapply runs_bind; [apply runs_lift, Hg2|].
  intros [] s4 _ [-> _]. by apply runs_ret; [apply Hg2|].
Qed.

Lemma runs_map {A B} (f : A -> LM (LoaderState NF) B) (Q : A -> B -> LoaderState NF -> Prop) (l : list A) :
  (forall x, x ∈ l -> forall s, cache_ok s.(LoaderState.module_cache) -> runs s (f x) (Q x)) ->
  (forall x y s s', grows s s' -> Q x y s -> Q x y s') -> forall s, cache_ok s.(LoaderState.module_cache) ->
  runs s (CodeLoader.lm_map f l) (fun ys s' => Forall2 (fun x y => Q x y s') l ys).
Proof using.
  clear Hstore. intros Hf HQ. induction l as [|x l IH]; intros s Hs; cbn [CodeLoader.lm_map]; [by apply runs_ret|].
  eapply runs_bind; [by apply Hf; [left|]|]. intros y s1 Hg1 Hy. eapply runs_bind; [eapply IH; [|apply Hg1]|].
  { intros z Hz. apply Hf. by right. }
  intros ys s2 Hg2 Hys. apply runs_ret; [apply Hg2|]. constructor; [by eapply HQ|done].
Qed.

Lemma load_type_runs fuel : forall ty s, cache_ok s.(LoaderState.module_cache) -> runs s (load_type fuel ty) (fun _ _ => True).
Proof using Hstore.
  fix IH 1. intros ty s Hs. destruct ty as [| | | | | |ty|[address module name tys]]; cbn [CodeLoader.load_type CodeLoader.load_struct_tag]; try (by apply runs_ret).
  - eapply runs_bind; [by apply IH|]. intros t s1 Hg1 _. by apply runs_ret; [apply Hg1|].
  - eapply runs_bind; [by apply load_module_runs|]. intros M s1 Hg1 _. eapply runs_bind; [apply runs_get, Hg1|]. intros c s2 _ [-> ->].
    eapply runs_bind; [apply runs_lift, Hg1|]. intros [idx st] s3 _ [-> _].
    assert (runs s1 (type_params ← CodeLoader.lm_map (load_type fuel) tys; cache ← CodeLoader.get_cache;
      lm_lift (CodeLoader.verify_ty_args cache (StructType.type_param_constraints st) type_params);;
      mret (RuntimeType.StructInstantiation idx type_params)) (fun _ _ => True)) as Hgen.
    { eapply (runs_bind _ _ _ (fun _ _ => True)).
      - generalize (grows_cache _ _ Hg1). clear Hs Hg1. generalize s1. clear s1. induction tys as [|ty tys IHl]; intros s1 Hs1; [by apply runs_ret|].
        cbn [CodeLoader.lm_map]. eapply runs_bind; [by apply IH|]. intros t s2 Hg2 _. eapply runs_bind; [apply IHl, Hg2|].
        intros ts s3 Hg3 _. by apply runs_ret; [apply Hg3|].
      - intros ts s2 Hg2 _. eapply runs_bind; [apply runs_get, Hg2|]. intros c s3 _ [-> ->]. eapply runs_bind; [apply runs_lift, Hg2|].
        intros [] s4 _ [-> _]. by apply runs_ret; [apply Hg2|]. }
    destruct (StructType.type_parameters st), tys; try exact Hgen. by apply runs_ret; [apply Hg1|].
Qed.

(** A function that was loaded is in the cache. *)
Lemma load_function_runs fuel id name ty_args s : cache_ok s.(LoaderState.module_cache) ->
  runs s (CodeLoader.load_function resolve from_bytes_seed toposort tarjan_scc fuel id name ty_args data_store)
    (fun r s' => r.1.2 ∈ s'.(LoaderState.module_cache).(ModuleCache.functions)).
Proof using Hstore.
  intros Hs. unfold CodeLoader.load_function. eapply runs_bind; [by apply load_module_runs|]. intros M s1 Hg1 HM.
  eapply runs_bind; [apply runs_get, Hg1|]. intros c s2 _ [-> ->].
  eapply runs_bind; [apply runs_lift, Hg1|]. intros idx s3 _ [-> _]. eapply runs_bind; [apply runs_lift, Hg1|]. intros g s4 _ [-> Hg].
  eapply runs_bind; [apply runs_lift, Hg1|]. intros ps s5 _ [-> _]. eapply runs_bind; [apply runs_lift, Hg1|]. intros rs s6 _ [-> _].
  eapply runs_bind; [apply (runs_map (load_type fuel) (fun _ _ _ => True)); [intros; by apply load_type_runs|done|apply Hg1]|]. intros tys s7 Hg7 _.
  eapply runs_bind; [apply runs_get, Hg7|]. intros c s8 _ [-> ->]. eapply runs_bind; [apply runs_lift, Hg7|]. intros [] s9 _ [-> _].
  apply runs_ret; [apply Hg7|]. simpl. destruct (grows_extends _ _ Hg7) as (_ & _ & fs & ->). apply elem_of_app. left.
  unfold ModuleCache.function_at in Hg. destruct (_ !! _) eqn:E; simplify_eq/=. by eapply list_elem_of_lookup_2.
Qed.
End store.

(** * Publication of one module *)

Section publish.
Context (data_store : DS) (Hstore : store_ok data_store).

(** What is checked of a module before it is published. *)
Record publishable (fuel : nat) (m : CompiledModule) (s : LoaderState NF) : Prop := {
  publishable_verified : verify m = Ok ();
  publishable_natives : CodeLoader.check_natives resolve m = Ok ();
  publishable_linked : exists ids Ms, Forall2 (fun id M => cached s id = Some M) ids Ms /\
    Dependencies.verify_module_impl m (map LoadedModule.module Ms) = Ok ();
  publishable_acyclic : CodeLoader.verify_module_cyclic_relations fuel s.(LoaderState.module_cache) m ∅ ∅ = Ok () }.

Lemma verify_publication_runs fuel m s : cache_ok s.(LoaderState.module_cache) ->
  runs s (CodeLoader.verify_module_for_publication resolve from_bytes_seed toposort tarjan_scc fuel m ∅ ∅ data_store)
    (fun _ s' => publishable fuel m s').
Proof using Hstore.
  intros Hs. unfold CodeLoader.verify_module_for_publication. eapply runs_bind; [by apply runs_lift|]. intros [] s1 _ [-> Hv].
  eapply runs_bind; [by apply runs_lift|]. intros [] s2 _ [-> Hn]. eapply runs_bind; [by apply runs_lift|]. intros id s3 _ [-> _].
  eapply runs_bind; [by apply runs_lift|]. intros fs s4 _ [-> _].
  eapply runs_bind; [apply dependencies_runs; [by apply load_deps_runs|done]|]. intros [visited friends] s5 Hg5 (ids & Ms & HMs & Hlink).
  eapply runs_bind; [apply friends_runs; [intros; by apply load_all_runs|apply Hg5]|]. intros _ s6 Hg6 _.
  eapply runs_bind; [apply runs_get, Hg6|]. intros c s7 _ [-> ->]. eapply runs_impl; [apply runs_lift, Hg6|].
  intros [] s8 _ [-> Hc]. split; try done. exists ids, Ms. split; [|done].
  eapply Forall2_impl; [|exact HMs]. intros id' M. by apply grows_cached.
Qed.

(** A module that is in the data store is only replaced by a compatible one. *)
Definition compatible_upgrade (m : CompiledModule) (s : LoaderState NF) : Prop :=
  forall id, ModuleAccess.self_id m = Ok id -> ModuleStore.exists_module data_store id = Ok true ->
  exists M old_m new_m compat, cached s id = Some M /\ NormalizedModule.new M.(LoadedModule.module) = Ok old_m /\
    NormalizedModule.new m = Ok new_m /\ Compatibility.Compatibility.check old_m new_m = Ok compat /\
    Compatibility.Compatibility.is_fully_compatible compat = true.

Lemma check_one_runs fuel m s : cache_ok s.(LoaderState.module_cache) ->
  runs s (CodeLoader.check_bundle resolve from_bytes_seed toposort tarjan_scc fuel [m] ∅ data_store) (fun _ s' => compatible_upgrade m s').
Proof using Hstore.
  intros Hs. cbn [CodeLoader.check_bundle]. eapply runs_bind; [by apply runs_lift|]. intros id s1 _ [-> Hid].
  eapply runs_bind; [by apply runs_lift|]. intros b s2 _ [-> Hb]. eapply (runs_bind _ _ _ (fun _ s' => compatible_upgrade m s')).
  - destruct b; [|by apply runs_ret; [|intros id' Hid' Hb'; congruence]]. eapply runs_bind; [by apply load_module_runs|]. intros M s3 Hg3 HM.
    eapply runs_bind; [apply runs_lift, Hg3|]. intros o s4 _ [-> Ho]. eapply runs_bind; [apply runs_lift, Hg3|]. intros n s5 _ [-> Hn].
    eapply runs_bind; [apply runs_lift, Hg3|]. intros compat s6 _ [-> Hcompat].
    destruct (Compatibility.Compatibility.is_fully_compatible compat) eqn:Hfull; [|by eapply runs_impl; [apply runs_lift, Hg3|intros ? ? _ [_ ?]]].
    apply runs_ret; [apply Hg3|]. intros id' Hid' _. assert (id' = id) as -> by congruence. by exists M, o, n, compat.
  - intros _ s3 Hg3 Hup. destruct (bool_decide _); [by eapply runs_impl; [apply runs_lift, Hg3|intros ? ? _ [_ ?]]|]. by apply runs_ret; [apply Hg3|].
Qed.

Lemma publish_one_runs fuel blob sender s : cache_ok s.(LoaderState.module_cache) ->
  runs s (CodeLoader.publish_module_bundle resolve from_bytes_seed toposort tarjan_scc fuel [blob] sender data_store) (fun ds' s' => exists m id,
    deserialize_module blob = Ok m /\ ModuleAccess.self_id m = Ok id /\ ModuleAccess.address m = Ok sender /\ compatible_upgrade m s' /\
    publishable fuel m s' /\ ModuleStore.publish_module id blob data_store = Ok ds').
Proof using Hstore.
  intros Hs. unfold CodeLoader.publish_module_bundle. eapply runs_bind; [by apply runs_lift|]. intros ms s1 _ [-> Hms].
  cbn [ModuleAccess.map_res] in Hms. inv_ok. match goal with H : deserialize_module blob = Ok ?m' |- _ => rename H into Hm; rename m' into m end.
  eapply runs_bind; [by apply runs_lift|]. intros [] s2 _ [-> Haddr]. eapply runs_bind; [by apply check_one_runs|]. intros [] s3 Hg3 Hup.
  eapply (runs_bind _ _ _ (fun _ s' => publishable fuel m s')).
  - unfold CodeLoader.verify_module_bundle_for_publication. eapply runs_bind; [apply runs_lift, Hg3|]. intros ids s4 _ [-> Hids].
    cbn [ModuleAccess.map_res] in Hids. inv_ok. cbn [CodeLoader.verify_bundle]. eapply runs_bind; [apply runs_lift, Hg3|]. intros id s5 _ [-> Hid].
    assert (id = x) as -> by congruence. assert (list_to_set [x] ∖ {[x]} = (∅ : gset ModuleId)) as -> by set_solver.
    eapply runs_bind; [apply verify_publication_runs, Hg3|]. intros [] s6 Hg6 Hpub. by apply runs_ret; [apply Hg6|].
  - intros _ s4 Hg4 Hpub. eapply runs_impl; [apply runs_lift, Hg4|]. intros ds' s5 _ [-> Hp]. cbn [CodeLoader.publish_all] in Hp. inv_ok.
    cbn [res_for] in Haddr. inv_ok. match goal with H : (if bool_decide (_ = sender) then _ else _) = _ |- _ => case_bool_decide; [subst|done] end.
    eexists m, _. split_and!; [done|done|done| |done|done].
    intros id Hid Hb. destruct (Hup id Hid Hb) as (M & o & n & compat & HM & Hrest). exists M, o, n, compat. split; [by eapply grows_cached|done].
Qed.
End publish.

(** * Scripts *)

Record small_script (sc : CompiledScript) : Prop := {
  small_script_module_handles : zlen sc.(CompiledScript.module_handles) <= 2 ^ 16;
  small_script_function_handles : zlen sc.(CompiledScript.function_handles) <= 2 ^ 16;
  small_script_body : zlen sc.(CompiledScript.code).(CodeUnit.code) <= u16_max - 1 }.

Record accepted_script (sc : CompiledScript) : Prop := {
  accepted_script_wf : wf_script sc = true;
  accepted_script_verified : Verifier.verify_script from_bytes_seed sc = Ok ();
  accepted_script_small : small_script sc }.

Lemma accepted_script_checked sc : accepted_script sc -> checked_unit (BinaryIndexedView.Script_ sc).
Proof.
  intros [Hwf Hv _]. unfold Verifier.verify_script in Hv. inv_ok. repeat match goal with x : () |- _ => destruct x end.
  split; [done|]. by apply verify_script_ok.
Qed.

Lemma accepted_script_body sc : accepted_script sc ->
  exists fv, checked_view (BinaryIndexedView.Script_ sc) fv /\ StackUsageVerifier.verify (BinaryIndexedView.Script_ sc) fv = Ok () /\
    fv.(FunctionView.code) = sc.(CompiledScript.code) /\ fv.(FunctionView.return_) = [].
Proof.
  intros [Hwf Hv Hsmall]. unfold Verifier.verify_script, CodeUnitVerifier.verify_script_impl, CodeUnitVerifier.verify_common in Hv. inv_ok.
  repeat match goal with x : () |- _ => destruct x end.
  match goal with H : FunctionView.script sc = Ok ?fv |- _ => rename H into Hview; exists fv end.
  split; [|split; [done|unfold FunctionView.script in Hview; inv_ok; done]]. by eapply checked_script; [done|done|done|apply Hsmall|done].
Qed.

(** A loaded script: its entry point and the functions it calls. *)
Record script_ok (fs : list (Function NF)) (hash : list Z) (S : LoadedScript NF) : Prop := {
  script_accepted : accepted_script S.(LoadedScript.script);
  script_scope : S.(LoadedScript.main).(Function.scope) = Scope.Script hash;
  script_code : S.(LoadedScript.main).(Function.code) = S.(LoadedScript.script).(CompiledScript.code).(CodeUnit.code);
  script_return : S.(LoadedScript.main).(Function.return_) = [];
  script_refs : Forall2 (fun h idx => exists g, fs !! Z.to_nat idx = Some g /\ fits (BinaryIndexedView.Script_ S.(LoadedScript.script)) h g)
    S.(LoadedScript.script).(CompiledScript.function_handles) S.(LoadedScript.function_refs);
  script_function_instances : Forall2 (fun inst fi =>
      S.(LoadedScript.function_refs) !! into_index inst.(FunctionInstantiation.handle) = Some fi.(LoadedModule.handle))
    S.(LoadedScript.script).(CompiledScript.function_instantiations) S.(LoadedScript.function_instantiations) }.

Lemma script_ok_app fs fs' hash S : script_ok fs hash S -> script_ok (fs ++ fs') hash S.
Proof.
  intros [Ha Hs Hc Hr Hf Hi]. split; try done.
  eapply Forall2_impl; [|exact Hf]. intros h idx (g & Hg' & Hm). exists g. split; [by apply lookup_app_l_Some|done].
Qed.

Lemma forall2_in {A B} (P : A -> B -> Prop) l k (Q : A -> B -> Prop) : Forall2 P l k -> (forall x y, x ∈ l -> P x y -> Q x y) -> Forall2 Q l k.
Proof.
  intros H. induction H as [|x y l k Hxy _ IH]; intros HPQ; [done|]. constructor; [by apply HPQ; [left|]|].
  apply IH. intros ? ? Hin. apply HPQ. by right.
Qed.

Lemma new_script_ok sc c hash S deps : cache_ok c -> accepted_script sc -> links (BinaryIndexedView.Script_ sc) deps ->
  (forall d, d ∈ deps -> exists id M, ModuleCache.module_at c id = Some M /\ M.(LoadedModule.module) = d) ->
  NewScript.new sc c hash = Ok S -> script_ok c.(ModuleCache.functions) hash S.
Proof.
  intros Hc Hsc Hlinks Hdeps H. unfold NewScript.new in H. apply res_bind_ok in H as (srs & _ & H). apply res_bind_ok in H as (frs & Hfr & H).
  apply res_bind_ok in H as (fis & Hfi & H). inv_ok. split; simpl; [done..| |].
  - apply res_list_forall2 in Hfr. eapply forall2_in; [exact Hfr|]. intros h idx Hh Hr.
    destruct (foreign_fits c Hc _ _ Hlinks Hdeps c h eq_refl Hh) as (id & Hid & _ & Hf); [done|].
    unfold NewScript.function_ref, NewScript.resolve_handle in Hr. apply res_bind_ok in Hr as (name & Hn & Hr).
    apply res_bind_ok in Hr as (mh & Hmh & Hr). apply res_bind_ok in Hr as (mid & Hmid & Hr).
    assert (mid = id) as ->; [|by eapply Hf]. unfold module_id_at in Hid. rewrite Hmh in Hid. simpl in Hid. simpl in Hmid. congruence.
  - eapply Forall2_impl; [|apply res_list_forall2, Hfi]. intros inst fi Hi. unfold NewScript.function_instantiation in Hi. inv_ok.
    by apply index_ok.
Qed.

(** * The state of the loader *)

Record state_ok (s : LoaderState NF) : Prop := {
  state_cache : cache_ok s.(LoaderState.module_cache);
  state_script_ids hash idx : s.(LoaderState.scripts).(BinaryCache.id_map) !! hash = Some idx ->
    0 <= idx < zlen s.(LoaderState.scripts).(BinaryCache.binaries);
  state_scripts hash S : BinaryCache.get s.(LoaderState.scripts) hash = Some S ->
    script_ok s.(LoaderState.module_cache).(ModuleCache.functions) hash S }.

Lemma state_new_ok : state_ok LoaderState.new.
Proof.
  split; [apply cache_new_ok| |].
  - intros hash idx H. change ((∅ : gmap (list Z) Z) !! hash = Some idx) in H. by rewrite lookup_empty in H.
  - intros hash S H. unfold BinaryCache.get in H.
    change (((∅ : gmap (list Z) Z) !! hash ≫= fun idx => ([] : list (LoadedScript NF)) !! Z.to_nat idx) = Some S) in H. by rewrite lookup_empty in H.
Qed.

Lemma grows_state s s' : state_ok s -> grows s s' -> state_ok s'.
Proof.
  intros [_ Hids Hscripts] [Hc (_ & _ & fs & Efs) Es]. split; rewrite ?Es; [done..|]. intros hash S HS. rewrite Efs. by apply script_ok_app, Hscripts.
Qed.

Definition keeps {A} (s : LoaderState NF) (m : LM (LoaderState NF) A) (Q : A -> LoaderState NF -> Prop) : Prop :=
  match m s with
  | Ok (a, s') => state_ok s' /\ Q a s'
  | Err (_, s') => state_ok s'
  | Panic | OutOfFuel => True
  end.

Lemma runs_keeps {A} s (m : LM (LoaderState NF) A) Q : state_ok s -> runs s m Q -> keeps s m (fun a s' => grows s s' /\ Q a s').
Proof.
  intros Hs. unfold runs, keeps. destruct (m s) as [[a s']|[e s']| |]; [|by apply grows_state|done..]. intros [Hg HQ]. split; [by eapply grows_state|done].
Qed.
Lemma keeps_bind {A B} s (m : LM (LoaderState NF) A) (f : A -> LM (LoaderState NF) B) Q Q' :
  keeps s m Q -> (forall a s', state_ok s' -> Q a s' -> keeps s' (f a) Q') -> keeps s (m ≫= f) Q'.
Proof. unfold keeps, mbind, LM_bind. destruct (m s) as [[a s1]|[e s1]| |]; [|done..]. intros [Hs HQ] Hf. by apply Hf. Qed.

Lemma insert_script_keeps s hash S : state_ok s -> script_ok s.(LoaderState.module_cache).(ModuleCache.functions) hash S ->
  keeps s (CodeLoader.insert_script hash S) (fun S' s' => BinaryCache.get s'.(LoaderState.scripts) hash = Some S').
Proof.
  intros Hs HS. unfold keeps, CodeLoader.insert_script. destruct (BinaryCache.get _ _) as [S0|] eqn:E; [done|].
  pose proof (state_script_ids s Hs) as Hids. split; [split; simpl|].
  - apply Hs.
  - intros h idx. rewrite length_app. simpl. destruct (decide (h = hash)) as [->|Hne].
    + rewrite lookup_insert_eq. intros [= <-]. lia.
    + rewrite lookup_insert_ne by done. intros H%Hids. lia.
  - intros h S'. rewrite cache_insert_get by done. destruct (decide (h = hash)) as [->|]; [by intros [= <-]|apply (state_scripts s Hs)].
  - simpl. by rewrite cache_insert_get, decide_True.
Qed.

Section script.
Context (data_store : DS) (Hstore : store_ok data_store) (sha3_256 : list Z -> list Z).
Context (script_blob : list Z) (Hblob : wf_bytes script_blob = true).
Context (Hsmall : forall sc, deserialize_script script_blob = Ok sc -> small_script sc).

Lemma script_links_runs fuel s : cache_ok s.(LoaderState.module_cache) ->
  runs s (CodeLoader.deserialize_and_verify_script resolve from_bytes_seed toposort tarjan_scc fuel script_blob data_store)
    (fun sc s' => accepted_script sc /\ exists deps, links (BinaryIndexedView.Script_ sc) deps /\
       forall d, d ∈ deps -> exists id M, cached s' id = Some M /\ M.(LoadedModule.module) = d).
Proof using Hstore Hblob Hsmall.
  intros Hs. unfold CodeLoader.deserialize_and_verify_script. eapply runs_bind; [by apply runs_lift|]. intros sc s1 _ [-> Hsc%map_err_ok].
  eapply runs_bind; [by apply runs_lift|]. intros [] s2 _ [-> Hv]. eapply runs_bind; [by apply runs_lift|]. intros deps s3 _ [-> _].
  assert (accepted_script sc) as Hacc.
  { split; [|done|by apply Hsmall]. unfold deserialize_script in Hsc. inv_ok. by eapply deserialize_script_wf. }
  eapply runs_bind; [apply (runs_map _ (fun id M s' => cached s' id = Some M)); [|intros; by eapply grows_cached|done]|].
  { intros id _ s' Hs'. by apply load_module_runs. }
  intros Ms s4 Hg4 HMs. destruct (cached_dependencies s4 deps Ms (grows_cache _ _ Hg4) HMs) as [Hck Hin].
  eapply runs_bind; [apply runs_lift, Hg4|]. intros [] s5 _ [-> Hlink]. apply runs_ret; [apply Hg4|]. split; [done|].
  exists (map LoadedModule.module Ms). split; [|done]. destruct (accepted_script_small sc Hacc) as [H1 H2 _].
  by apply (verify_unit_ok (BinaryIndexedView.Script_ sc) _ (accepted_script_checked sc Hacc) Hck H1 H2).
Qed.

Lemma load_script_keeps fuel ty_args s : state_ok s ->
  keeps s (CodeLoader.load_script resolve from_bytes_seed toposort tarjan_scc sha3_256 fuel script_blob ty_args data_store)
    (fun r s' => exists hash S, BinaryCache.get s'.(LoaderState.scripts) hash = Some S /\ S.(LoadedScript.main) = r.1).
Proof using Hstore Hblob Hsmall.
  intros Hs. unfold CodeLoader.load_script. set (hash := sha3_256 script_blob).
  eapply (keeps_bind _ _ _ (fun s0 s' => s0 = s /\ s' = s)); [done|]. intros s0 s1 _ [-> ->].
  eapply (keeps_bind _ _ _ (fun S s' => BinaryCache.get s'.(LoaderState.scripts) hash = Some S)).
  - destruct (BinaryCache.get _ hash) as [S|] eqn:E; [done|].
    eapply keeps_bind; [apply runs_keeps; [done|apply script_links_runs, Hs]|]. intros sc s2 Hs2 (_ & Hacc & deps & Hlinks & Hdeps).
    eapply keeps_bind; [apply runs_keeps; [done|apply runs_get, Hs2]|]. intros c s3 Hs3 (_ & -> & ->).
    eapply keeps_bind; [apply runs_keeps; [done|apply runs_lift, Hs2]|]. intros S s4 Hs4 (_ & -> & HS).
    apply insert_script_keeps; [done|]. by eapply new_script_ok; [apply Hs2|..].
  - intros S s2 Hs2 HS. eapply keeps_bind.
    { apply runs_keeps; [done|]. apply (runs_map _ (fun _ _ _ => True)); [intros; by apply load_type_runs|done|apply Hs2]. }
    intros tys s3 Hs3 [Hg3 _]. eapply keeps_bind; [apply runs_keeps; [done|apply runs_get, Hs3]|]. intros c s4 Hs4 (_ & -> & ->).
    eapply keeps_bind; [apply runs_keeps; [done|apply runs_lift, Hs3]|]. intros [] s5 Hs5 (_ & -> & _).
    split; [done|]. exists hash, S. by rewrite (grows_scripts _ _ Hg3).
Qed.
End script.

(** * The program of a loader *)

(** The resolver of a loaded module agrees with the module. *)
Lemma forall2_at {A B} (P : A -> B -> Prop) l k idx x y : Forall2 P l k -> index (E:=StatusCode) l idx = Ok x -> Resolver.index k idx = Ok y -> P x y.
Proof.
  intros H Hx Hy. apply index_ok in Hx. unfold Resolver.index in Hy. destruct (k !! Z.to_nat idx) eqn:E; simplify_eq/=.
  by eapply (Forall2_lookup_lr P _ _ _ _ _ H).
Qed.

Lemma fits_at (v : BinaryIndexedView) h (g : Function NF) ps rs : fits v h g -> BinaryIndexedView.signature_at v h.(FunctionHandle.parameters) = Ok ps ->
  BinaryIndexedView.signature_at v h.(FunctionHandle.return_) = Ok rs ->
  length g.(Function.parameters) = length ps /\ length g.(Function.return_) = length rs.
Proof. intros Hf Hps Hrs. apply Hf; destruct v; by apply index_ok. Qed.

Lemma function_at_fits (v : BinaryIndexedView) (l : Loader NF) h idx (g g' : Function NF) :
  l.(Loader.functions) !! Z.to_nat idx = Some g' -> fits v h g' -> Loader.function_at l idx = Ok g -> fits v h g.
Proof. intros Hg Hf H. unfold Loader.function_at in H. rewrite Hg in H. by injection H as <-. Qed.

Lemma module_resolves (l : Loader NF) id M : module_ok l.(Loader.functions) id M ->
  resolves (Resolver.mk l (Resolver.Module_ M)) (BinaryIndexedView.Module_ M.(LoadedModule.module)).
Proof.
  intros [Hm _ _ Hr Hs Hi Hfi]. split; simpl.
  - intros idx def n Hd Hn. unfold Resolver.field_count in Hn. simpl in Hn. inv_ok. by eapply (forall2_at _ _ _ _ _ _ Hs).
  - intros idx inst def n Hinst Hd Hn. unfold Resolver.field_instantiation_count in Hn. simpl in Hn. inv_ok.
    destruct (forall2_at _ _ _ _ _ _ Hi Hinst ltac:(eassumption)) as (sd & Hsd & ->).
    eapply (Forall2_lookup_lr _ _ _ _ _ _ Hs); [|exact Hsd]. by apply index_ok.
  - intros idx h ps rs g Hh Hps Hrs Hg. unfold Resolver.function_from_handle in Hg. simpl in Hg. inv_ok.
    unfold ModuleAccess.function_handle_at in Hh. inv_ok. destruct (forall2_at _ _ _ _ _ _ Hr ltac:(eassumption) ltac:(eassumption)) as (g' & Hg' & Hf).
    by eapply (fits_at (BinaryIndexedView.Module_ _)); [by eapply function_at_fits|..].
  - intros idx inst h ps rs g Hinst Hh Hps Hrs Hg. unfold Resolver.function_from_instantiation in Hg. simpl in Hg. inv_ok.
    pose proof (forall2_at _ _ _ _ _ _ Hfi Hinst ltac:(eassumption)) as Href. simpl in Href.
    unfold ModuleAccess.function_handle_at in Hh. inv_ok.
    match goal with H : index _ _ = Ok _ |- _ => apply index_ok in H; destruct (Forall2_lookup_lr _ _ _ _ _ _ Hr H Href) as (g' & Hg' & Hf) end.
    by eapply (fits_at (BinaryIndexedView.Module_ _)); [by eapply function_at_fits|..].
Qed.

Lemma script_resolves (l : Loader NF) hash S : script_ok l.(Loader.functions) hash S ->
  resolves (Resolver.mk l (Resolver.Script S)) (BinaryIndexedView.Script_ S.(LoadedScript.script)).
Proof.
  intros [Hsc _ _ _ Hr Hfi]. split; simpl; [done|done| |].
  - intros idx h ps rs g Hh Hps Hrs Hg. unfold Resolver.function_from_handle in Hg. simpl in Hg. inv_ok.
    unfold ScriptAccess.function_handle_at in Hh. inv_ok. destruct (forall2_at _ _ _ _ _ _ Hr ltac:(eassumption) ltac:(eassumption)) as (g' & Hg' & Hf).
    by eapply (fits_at (BinaryIndexedView.Script_ _)); [by eapply function_at_fits|..].
  - intros idx inst h ps rs g Hinst Hh Hps Hrs Hg. unfold Resolver.function_from_instantiation in Hg. simpl in Hg. inv_ok.
    pose proof (forall2_at _ _ _ _ _ _ Hfi Hinst ltac:(eassumption)) as Href. simpl in Href.
    unfold ScriptAccess.function_handle_at in Hh. inv_ok.
    match goal with H : index _ _ = Ok _ |- _ => apply index_ok in H; destruct (Forall2_lookup_lr _ _ _ _ _ _ Hr H Href) as (g' & Hg' & Hf) end.
    by eapply (fits_at (BinaryIndexedView.Script_ _)); [by eapply function_at_fits|..].
Qed.

(** A native definition has a native function. *)
Lemma native_resolved m id def h name : accepted m -> ModuleAccess.self_id m = Ok id -> declares_function m name def h ->
  FunctionDefinition.is_native def = true -> is_Some (resolve id.1 id.2 name).
Proof.
  intros Hm Hid Hd Hn. destruct (accepted_checked m Hm) as (_ & _ & Hdist). destruct (functions_defined _ Hdist) as (_ & Hown & _).
  pose proof (declares_function_at m (accepted_checked m Hm) _ _ _ Hd) as [Hh Hname]. destruct Hd as (Hin & Hlk & _).
  destruct (Hown def Hin) as (h' & Hh' & Hself). rewrite Hlk in Hh'. injection Hh' as <-.
  pose proof (accepted_natives m Hm) as Hc. unfold CodeLoader.check_natives in Hc. apply res_bind_ok in Hc as ([] & Hc & _).
  apply res_for_ok in Hc. rewrite Forall_forall in Hc. specialize (Hc def). rewrite filter_In, <- list_elem_of_In in Hc.
  specialize (Hc (conj Hin Hn)). rewrite Hh in Hc. simpl in Hc. rewrite Hself in Hc. apply res_bind_ok in Hc as (mh & Hmh & Hc).
  pose proof (own_handle_id m id Hid mh Hmh) as Hmid. unfold ModuleAccess.module_id_for_handle in Hmid.
  apply res_bind_ok in Hmid as (a & Ha & Hmid). apply res_bind_ok in Hmid as (n & Hnm & [= <-]). rewrite Ha, Hnm, Hname in Hc. simpl in *.
  destruct (resolve a n name); [by eexists|done].
Qed.

Section program.
Context {DS' Ext : Type} `{!DataStore DS'} (env : Env NF DS' Ext) (s : LoaderState NF).
Context (Hs : state_ok s) (Henv : env.(loader) = LoaderState.loader s).

Lemma loader_get_module id : Loader.get_module env.(loader) id = unwrap (cached s id).
Proof using Henv.
  clear Hs. rewrite Henv. unfold Loader.get_module, LoaderState.loader, ModuleCache.module_at, BinaryCache.get. simpl. by rewrite lookup_omap.
Qed.
Lemma loader_get_script hash : Loader.get_script env.(loader) hash = unwrap (BinaryCache.get s.(LoaderState.scripts) hash).
Proof using Henv.
  clear Hs. rewrite Henv. unfold Loader.get_script, LoaderState.loader, BinaryCache.get. simpl. by rewrite lookup_omap.
Qed.

Lemma function_verified g : g ∈ s.(LoaderState.module_cache).(ModuleCache.functions) -> Function.is_native g = false ->
  exists v fv, verified env g v fv.
Proof using Hs Henv.
  intros Hg Hn. destruct (cache_functions _ (state_cache s Hs) g Hg) as (id & M & name & HM & i & def & h & Hin & Hd & Hnew).
  pose proof (cache_modules _ (state_cache s Hs) _ _ HM) as HMok. pose proof (module_accepted _ _ _ HMok) as Hm.
  destruct (function_new_parts _ _ _ _ Hnew) as (h' & id' & Hh & Hname & Hid & _ & Hret & Hscope & Hcode & Hnat).
  rewrite (module_self_id _ _ _ HMok) in Hid. injection Hid as <-.
  pose proof (declares_function_at _ (accepted_checked _ Hm) _ _ _ Hd) as [Hh2 Hname2]. rewrite Hh in Hh2. injection Hh2 as ->.
  rewrite Hname in Hname2. injection Hname2 as Hgname.
  destruct (FunctionDefinition.code def) as [c|] eqn:Ec.
  - destruct (accepted_body _ Hm def c h Hin Ec Hh) as (fv & Hview & Hstack & Hfc & Hfr).
    exists (BinaryIndexedView.Module_ M.(LoadedModule.module)), fv. split; [done|done| | |].
    + rewrite Hfc. by apply Hcode.
    + rewrite Hret in Hfr. by injection Hfr.
    + intros r Hr. unfold Resolver.get_resolver in Hr. rewrite Hscope, loader_get_module, HM in Hr. injection Hr as <-.
      apply (module_resolves _ id). rewrite Henv. exact HMok.
  - assert (FunctionDefinition.is_native def = true) as Hdn by (unfold FunctionDefinition.is_native; by rewrite Ec).
    destruct (native_resolved _ id _ _ _ Hm (module_self_id _ _ _ HMok) Hd Hdn) as [nf Hnf].
    unfold Function.is_native in Hn. rewrite (Hnat Hdn), Hgname, Hnf in Hn. done.
Qed.

Lemma script_verified hash S : BinaryCache.get s.(LoaderState.scripts) hash = Some S -> exists v fv, verified env S.(LoadedScript.main) v fv.
Proof using Hs Henv.
  intros HS. pose proof (state_scripts s Hs _ _ HS) as Hok. destruct (accepted_script_body _ (script_accepted _ _ _ Hok)) as (fv & Hview & Hstack & Hfc & Hfr).
  exists (BinaryIndexedView.Script_ S.(LoadedScript.script)), fv. split; [done|done| | |].
  - rewrite Hfc. apply (script_code _ _ _ Hok).
  - rewrite Hfr. apply (script_return _ _ _ Hok).
  - intros r Hr. unfold Resolver.get_resolver in Hr. rewrite (script_scope _ _ _ Hok), loader_get_script, HS in Hr. injection Hr as <-.
    apply (script_resolves _ hash). rewrite Henv. exact Hok.
Qed.

(** The program is verified, given that its native functions return what they declare. *)
Lemma loaded_program : (forall g, g ∈ s.(LoaderState.module_cache).(ModuleCache.functions) -> native_returns env g) -> VerifiedProgram env.
Proof using Hs Henv.
  intros Hnat. split; rewrite Henv; simpl.
  - intros idx g Hg. apply function_verified. by eapply list_elem_of_lookup_2.
  - intros idx g Hg. apply Hnat. by eapply list_elem_of_lookup_2.
Qed.
End program.

(** * Every state of the loader *)

Section reachable.
Context (sha3_256 : list Z -> list Z) `{!PublishLaw DS}.

(** The state that a computation leaves, also when it fails. *)
Inductive leaves {A} : result (StatusCode * LoaderState NF) (A * LoaderState NF) -> LoaderState NF -> Prop :=
| leaves_ok a s : leaves (Ok (a, s)) s
| leaves_err e s : leaves (Err (e, s)) s.

Lemma runs_leaves {A} s (m : LM (LoaderState NF) A) Q s' : state_ok s -> runs s m Q -> leaves (m s) s' -> state_ok s'.
Proof using.
  intros Hs Hr Hl. unfold runs in Hr. inversion Hl as [a s1 E|e s1 E]; subst; rewrite <- E in Hr; [destruct Hr as [Hr _]|]; by eapply grows_state.
Qed.

(** A data store and a loader: a new loader loads modules, functions and scripts and
    publishes modules, one at a time, from one data store after another. *)
Inductive system : DS -> LoaderState NF -> Prop :=
| system_new ds : store_ok ds -> system ds LoaderState.new
| system_store ds ds' s : system ds s -> store_ok ds' -> system ds' s
| system_load_module ds s s' fuel id : system ds s ->
    leaves (CodeLoader.load_module resolve from_bytes_seed toposort tarjan_scc fuel id ds s) s' -> system ds s'
| system_load_function ds s s' fuel id name ty_args : system ds s ->
    leaves (CodeLoader.load_function resolve from_bytes_seed toposort tarjan_scc fuel id name ty_args ds s) s' -> system ds s'
| system_load_script ds s s' fuel blob ty_args : system ds s -> wf_bytes blob = true ->
    (forall sc, deserialize_script blob = Ok sc -> small_script sc) ->
    leaves (CodeLoader.load_script resolve from_bytes_seed toposort tarjan_scc sha3_256 fuel blob ty_args ds s) s' -> system ds s'
| system_publish ds ds' s s' fuel blob sender : system ds s -> wf_bytes blob = true ->
    (forall m, deserialize_module blob = Ok m -> small_module m) ->
    CodeLoader.publish_module_bundle resolve from_bytes_seed toposort tarjan_scc fuel [blob] sender ds s = Ok (ds', s') -> system ds' s'
| system_publish_error ds e s s' fuel blob sender : system ds s ->
    CodeLoader.publish_module_bundle resolve from_bytes_seed toposort tarjan_scc fuel [blob] sender ds s = Err (e, s') -> system ds s'.

Lemma published_ok ds ds' id blob m : store_ok ds -> deserialize_module blob = Ok m -> ModuleAccess.self_id m = Ok id ->
  wf_bytes blob = true -> small_module m -> ModuleStore.publish_module id blob ds = Ok ds' -> store_ok ds'.
Proof using All.
  intros Hds Hm Hid Hwf Hsmall Hp id' bytes m' Hl Hm'. rewrite (ModuleStore.load_published _ _ _ _ Hp) in Hl.
  destruct (decide (id' = id)) as [->|]; [|by eapply Hds]. injection Hl as <-. rewrite Hm in Hm'. by injection Hm' as <-.
Qed.

Lemma system_ok ds s : system ds s -> store_ok ds /\ state_ok s.
Proof using All.
  intros H. induction H as [ds Hds|ds ds' s _ [_ Hs] Hds'|ds s s' fuel id _ [Hds Hs] Hl|ds s s' fuel id name tys _ [Hds Hs] Hl
    |ds s s' fuel blob tys _ [Hds Hs] Hwf Hsm Hl|ds ds' s s' fuel blob sender _ [Hds Hs] Hwf Hsm Hp|ds e s s' fuel blob sender _ [Hds Hs] Hp].
  - split; [done|apply state_new_ok].
  - done.
  - split; [done|]. by eapply runs_leaves; [exact Hs|apply load_module_runs, Hs|].
  - split; [done|]. by eapply runs_leaves; [exact Hs|apply load_function_runs, Hs|].
  - split; [done|]. pose proof (load_script_keeps ds Hds sha3_256 blob Hwf Hsm fuel tys s Hs) as Hk. unfold keeps in Hk.
    inversion Hl as [a s1 E|e s1 E]; subst; rewrite <- E in Hk; [apply Hk|done].
  - pose proof (publish_one_runs ds Hds fuel blob sender s (state_cache s Hs)) as Hr. unfold runs in Hr. rewrite Hp in Hr.
    destruct Hr as (Hg & m & id & Hm & Hid & _ & _ & _ & Hpub). split; [|by eapply grows_state]. eapply published_ok; [exact Hds|exact Hm|done|done|by apply Hsm|done].
  - pose proof (publish_one_runs ds Hds fuel blob sender s (state_cache s Hs)) as Hr. unfold runs in Hr. rewrite Hp in Hr.
    split; [done|by eapply grows_state].
Qed.

(** Where execution starts: a function that [load_function] finds, or the entry point of a
    script. *)
Inductive entry_point (s : LoaderState NF) : Function NF -> Prop :=
| entry_function g : g ∈ s.(LoaderState.module_cache).(ModuleCache.functions) -> Function.is_native g = false -> entry_point s g
| entry_script hash S : BinaryCache.get s.(LoaderState.scripts) hash = Some S -> entry_point s S.(LoadedScript.main).

Lemma entry_verified {DS' Ext} `{!DataStore DS'} (env : Env NF DS' Ext) s g : state_ok s -> env.(loader) = LoaderState.loader s ->
  entry_point s g -> exists v fv, verified env g v fv.
Proof using. intros Hs He [g' Hin Hn|hash S HS]; [by eapply function_verified|by eapply script_verified]. Qed.
End reachable.
End loading.
