(* ===== verification/LoadingTheorems.v ===== *)
(** Theorems on loading: the tags and the layouts of types through the type cache, what the
    publication of a bundle checks, and the data cache of a transaction. *)
From stdpp Require Import gmap.
From S2P Require Import Prelude StatusCode Abilities Identifier FileFormat WellFormed BinaryCommon Access BoundsChecker Constants InstantiationLoops Serializer Deserializer.
From S2P Require Import Verifier Dependencies CyclicDependencies Normalized Compatibility LinkingChecks VmValues VmValueTheorems Runtime Loading LoadingFacts.

(** * The type cache *)

Section types.
Context {NF : Type} (c : ModuleCache NF).
Abbreviation Ty := RuntimeType.Type_.

(** The tag of a type, without the cache. *)
Definition struct_tag_of (gidx : Z) (tags : list TypeTag) : R StructTag :=
  st ← ModuleCache.struct_at c gidx;
  Ok (TypeTag.mk st.(StructType.module).1 st.(StructType.module).2 st.(StructType.name) tags).
Fixpoint tag_of (ty : Ty) : R TypeTag :=
  match ty with
  | RuntimeType.Bool => Ok TypeTag.Bool
  | RuntimeType.U8 => Ok TypeTag.U8
  | RuntimeType.U64 => Ok TypeTag.U64
  | RuntimeType.U128 => Ok TypeTag.U128
  | RuntimeType.Address => Ok TypeTag.Address
  | RuntimeType.Signer => Ok TypeTag.Signer
  | RuntimeType.Vector ty => tag ← tag_of ty; Ok (TypeTag.Vector tag)
  | RuntimeType.Struct gidx => tag ← struct_tag_of gidx []; Ok (TypeTag.Struct tag)
  | RuntimeType.StructInstantiation gidx ty_args =>
    tags ← ModuleAccess.map_res tag_of ty_args; tag ← struct_tag_of gidx tags; Ok (TypeTag.Struct tag)
  | RuntimeType.Reference _ | RuntimeType.MutableReference _ | RuntimeType.TyParam _ => Err UNKNOWN_INVARIANT_VIOLATION_ERROR
  end.

(** The layout of a type of at most [n] levels, without the cache. *)
Fixpoint layout_of (n : nat) (ty : Ty) : R MoveTypeLayout :=
  match n with
  | O => Err VM_MAX_VALUE_DEPTH_REACHED
  | S n =>
    let struct_layout gidx ty_args :=
      st ← ModuleCache.struct_at c gidx;
      tys ← ModuleAccess.map_res (fun ty => TypeLoader.status_of (RuntimeType.subst ty ty_args)) st.(StructType.fields);
      layouts ← ModuleAccess.map_res (layout_of n) tys;
      Ok (MoveTypeLayout.Struct (MoveTypeLayout.Runtime layouts)) in
    match ty with
    | RuntimeType.Bool => Ok MoveTypeLayout.Bool
    | RuntimeType.U8 => Ok MoveTypeLayout.U8
    | RuntimeType.U64 => Ok MoveTypeLayout.U64
    | RuntimeType.U128 => Ok MoveTypeLayout.U128
    | RuntimeType.Address => Ok MoveTypeLayout.Address
    | RuntimeType.Signer => Ok MoveTypeLayout.Signer
    | RuntimeType.Vector ty => l ← layout_of n ty; Ok (MoveTypeLayout.Vector l)
    | RuntimeType.Struct gidx => struct_layout gidx []
    | RuntimeType.StructInstantiation gidx ty_args => struct_layout gidx ty_args
    | RuntimeType.Reference _ | RuntimeType.MutableReference _ | RuntimeType.TyParam _ => Err UNKNOWN_INVARIANT_VIOLATION_ERROR
    end
  end.

(** A cache holds the tags and the layouts of its structs. *)
Record type_cache_ok (tc : TypeCache) : Prop := {
  cached_tags gidx ty_args info tag : TypeCache.get tc gidx ty_args = Some info -> info.(StructInfo.struct_tag) = Some tag ->
    (tags ← ModuleAccess.map_res tag_of ty_args; struct_tag_of gidx tags) = Ok tag;
  cached_layouts gidx ty_args info l : TypeCache.get tc gidx ty_args = Some info -> info.(StructInfo.struct_layout) = Some l ->
    exists n, layout_of n (RuntimeType.StructInstantiation gidx ty_args) = Ok (MoveTypeLayout.Struct l) }.

Lemma type_cache_new : type_cache_ok TypeCache.new.
Proof.
  assert (forall g a, TypeCache.get TypeCache.new g a = None) as H.
  { intros g a. unfold TypeCache.get. simpl. by rewrite lookup_empty. }
  split; intros gidx ty_args info ?; by rewrite H.
Qed.

Lemma cache_get_update tc gidx ty_args f gidx' ty_args' :
  TypeCache.get (TypeCache.update tc gidx ty_args f) gidx' ty_args' =
  if decide (gidx' = gidx /\ ty_args' = ty_args) then Some (f (default StructInfo.new (TypeCache.get tc gidx ty_args)))
  else TypeCache.get tc gidx' ty_args'.
Proof.
  unfold TypeCache.get, TypeCache.update. simpl. destruct (decide (gidx' = gidx)) as [->|Hg].
  - rewrite lookup_insert_eq. simpl. destruct (decide (ty_args' = ty_args)) as [->|Ha].
    + rewrite decide_True, lookup_insert_eq by done. by destruct (TypeCache.structs tc !! gidx); simpl; rewrite ?lookup_empty.
    + rewrite decide_False, lookup_insert_ne by naive_solver. by destruct (TypeCache.structs tc !! gidx); simpl; rewrite ?lookup_empty.
  - rewrite lookup_insert_ne, decide_False by naive_solver. done.
Qed.

(** A computation with the cache returns what one without it does. *)
Definition agrees_at {A} (tc : TypeCache) (m : LM TypeCache A) (r : R A) : Prop :=
  match m tc with
  | Ok (a, tc') => r = Ok a /\ type_cache_ok tc'
  | Err (e, tc') => r = Err e /\ type_cache_ok tc'
  | Panic => r = Panic
  | OutOfFuel => False
  end.
Definition agrees {A} (m : LM TypeCache A) (r : R A) : Prop := forall tc, type_cache_ok tc -> agrees_at tc m r.

Lemma agrees_ret {A} (a : A) : agrees (mret a) (Ok a).
Proof. by intros tc H. Qed.
Lemma agrees_bind {A B} (m : LM TypeCache A) (f : A -> LM TypeCache B) r (g : A -> R B) :
  agrees m r -> (forall a, r = Ok a -> agrees (f a) (g a)) -> agrees (m ≫= f) (r ≫= g).
Proof.
  intros Hm Hf tc H. specialize (Hm tc H). unfold agrees_at, mbind, LM_bind in *. destruct (m tc) as [[a tc']|[e tc']| |]; [..|done].
  - destruct Hm as [-> H']. by apply Hf.
  - destruct Hm as [-> H']. done.
  - by rewrite Hm.
Qed.
Lemma agrees_lift {A} (r : R A) : r <> OutOfFuel -> agrees (lm_lift r) r.
Proof. intros Hr tc H. unfold agrees_at, lm_lift. by destruct r. Qed.
Lemma agrees_get {A} (k : TypeCache -> LM TypeCache A) r : (forall tc, type_cache_ok tc -> agrees_at tc (k tc) r) -> agrees (lm_get ≫= k) r.
Proof. intros Hk tc H. by apply Hk. Qed.
Lemma agrees_update f : (forall tc, type_cache_ok tc -> type_cache_ok (f tc)) -> agrees (TypeLoader.lm_update f) (Ok ()).
Proof. intros Hf tc H. split; [done|by apply Hf]. Qed.
Lemma agrees_map {A B} (f : A -> LM TypeCache B) (g : A -> R B) l : (forall x, x ∈ l -> agrees (f x) (g x)) ->
  agrees (CodeLoader.lm_map f l) (ModuleAccess.map_res g l).
Proof.
  induction l as [|x l IH]; intros Hf; cbn [CodeLoader.lm_map ModuleAccess.map_res]; [apply agrees_ret|].
  apply agrees_bind; [apply Hf; by left|]. intros y _. apply agrees_bind; [apply IH; intros z Hz; apply Hf; by right|]. intros ys _. apply agrees_ret.
Qed.

Lemma struct_at_no_fuel gidx : ModuleCache.struct_at c gidx <> OutOfFuel.
Proof. unfold ModuleCache.struct_at. by destruct (_ !! _). Qed.

Lemma update_tag_ok tc gidx ty_args tag : type_cache_ok tc -> (tags ← ModuleAccess.map_res tag_of ty_args; struct_tag_of gidx tags) = Ok tag ->
  type_cache_ok (TypeCache.update tc gidx ty_args (fun info => StructInfo.mk (Some tag) info.(StructInfo.struct_layout))).
Proof.
  intros [Ht Hl] Htag. split; intros gidx' ty_args' info x; rewrite cache_get_update; destruct (decide _) as [[-> ->]|_]; try by eauto.
  - intros [= <-] [= <-]. done.
  - intros [= <-]. simpl. destruct (TypeCache.get tc gidx ty_args) as [i|] eqn:E; [simpl; by eapply Hl|done].
Qed.
Lemma update_layout_ok tc gidx ty_args l n : type_cache_ok tc ->
  layout_of n (RuntimeType.StructInstantiation gidx ty_args) = Ok (MoveTypeLayout.Struct l) ->
  type_cache_ok (TypeCache.update tc gidx ty_args (fun info => StructInfo.mk info.(StructInfo.struct_tag) (Some l))).
Proof.
  intros [Ht Hl] Hlay. split; intros gidx' ty_args' info x; rewrite cache_get_update; destruct (decide _) as [[-> ->]|_]; try by eauto.
  - intros [= <-]. simpl. destruct (TypeCache.get tc gidx ty_args) as [i|] eqn:E; [simpl; by eapply Ht|done].
  - intros [= <-] [= <-]. by exists n.
Qed.

Lemma struct_tag_agrees gidx ty_args (f : Ty -> LM TypeCache TypeTag) : (forall ty, ty ∈ ty_args -> agrees (f ty) (tag_of ty)) ->
  agrees (TypeLoader.struct_gidx_to_type_tag c f gidx ty_args) (tags ← ModuleAccess.map_res tag_of ty_args; struct_tag_of gidx tags).
Proof.
  intros Hf. apply agrees_get. intros tc Htc. destruct (_ ≫= StructInfo.struct_tag) as [tag|] eqn:Hhit.
  { apply bind_Some in Hhit as (info & Hi & Hs). split; [by eapply cached_tags|done]. }
  revert tc Htc Hhit. intros tc Htc _. revert tc Htc. apply agrees_bind; [by apply agrees_map|]. intros tags Htags.
  apply agrees_bind; [apply agrees_lift, struct_at_no_fuel|]. intros st Hst.
  set (tag := TypeTag.mk _ _ _ _). change (Ok tag) with (Ok () ≫= fun _ : () => (Ok tag : R StructTag)).
  apply agrees_bind; [|intros _ _; apply agrees_ret]. apply agrees_update. intros tc Htc. apply update_tag_ok; [done|].
  rewrite Htags. simpl. unfold struct_tag_of. by rewrite Hst.
Qed.

(** The tag does not depend on the cache. *)
Lemma type_tag_agrees : forall ty, agrees (TypeLoader.type_to_type_tag c ty) (tag_of ty).
Proof.
  intros ty. induction ty as [| | | | | |ty IH|idx|idx tys IH|ty IH|ty IH|idx] using Types.type_ind;
    cbn [TypeLoader.type_to_type_tag tag_of]; try apply agrees_ret; try by apply agrees_lift.
  - apply agrees_bind; [exact IH|]. intros t _. apply agrees_ret.
  - apply agrees_bind; [apply (struct_tag_agrees idx []); by intros ? ?%elem_of_nil|]. intros t _. apply agrees_ret.
  - assert (forall ty, ty ∈ tys -> agrees (TypeLoader.type_to_type_tag c ty) (tag_of ty)) as Htys by (by apply list.Forall_forall).
    pose proof (struct_tag_agrees idx tys _ Htys) as Hs.
    replace (tags ← ModuleAccess.map_res tag_of tys; tag ← struct_tag_of idx tags; Ok (TypeTag.Struct tag))
      with ((tags ← ModuleAccess.map_res tag_of tys; struct_tag_of idx tags) ≫= fun tag => Ok (TypeTag.Struct tag)) by (by destruct (ModuleAccess.map_res _ _)).
    apply agrees_bind; [exact Hs|]. intros t _. apply agrees_ret.
Qed.
End types.

(** More structs do not change a tag. *)
Lemma struct_at_extends {NF} (c c' : ModuleCache NF) gidx st : c.(ModuleCache.structs) `prefix_of` c'.(ModuleCache.structs) ->
  ModuleCache.struct_at c gidx = Ok st -> ModuleCache.struct_at c' gidx = Ok st.
Proof.
  intros Hp. unfold ModuleCache.struct_at. destruct (c.(ModuleCache.structs) !! _) eqn:E; [|done]. intros [= ->].
  by rewrite (prefix_lookup_Some _ _ _ _ E Hp).
Qed.
Lemma map_res_impl {A B} (f g : A -> R B) l ys : Forall (fun x => forall y, f x = Ok y -> g x = Ok y) l ->
  ModuleAccess.map_res f l = Ok ys -> ModuleAccess.map_res g l = Ok ys.
Proof.
  intros H. revert ys. induction H as [|x l Hx _ IH]; intros ys Hys; [done|]. cbn [ModuleAccess.map_res] in *. inv_ok.
  by rewrite (Hx _ ltac:(eassumption)), (IH _ ltac:(eassumption)).
Qed.
Lemma tag_of_extends {NF} (c c' : ModuleCache NF) : c.(ModuleCache.structs) `prefix_of` c'.(ModuleCache.structs) ->
  forall ty tag, tag_of c ty = Ok tag -> tag_of c' ty = Ok tag.
Proof.
  intros Hp ty. induction ty as [| | | | | |ty IH|idx|idx tys IH|ty IH|ty IH|idx] using Types.type_ind; intros tag; cbn [tag_of]; try done.
  - intros H. inv_ok. by rewrite (IH _ ltac:(eassumption)).
  - unfold struct_tag_of. intros H. inv_ok. by rewrite (struct_at_extends c c' _ _ Hp ltac:(eassumption)).
  - unfold struct_tag_of. intros H. inv_ok. rewrite (map_res_impl _ _ _ _ IH ltac:(eassumption)). simpl.
    by rewrite (struct_at_extends c c' _ _ Hp ltac:(eassumption)).
Qed.
Lemma layout_of_extends {NF} (c c' : ModuleCache NF) n : c.(ModuleCache.structs) `prefix_of` c'.(ModuleCache.structs) ->
  forall ty l, layout_of c n ty = Ok l -> layout_of c' n ty = Ok l.
Proof.
  intros Hp. induction n as [|n IH]; intros ty l; [done|]. cbn [layout_of]. destruct ty; try done; intros H; inv_ok.
  1: by rewrite (IH _ _ ltac:(eassumption)).
  all: rewrite (struct_at_extends c c' _ _ Hp ltac:(eassumption)); simpl;
    match goal with H : ModuleAccess.map_res _ (StructType.fields _) = _ |- _ => rewrite H end; simpl;
    by rewrite (map_res_impl (layout_of c n) (layout_of c' n) _ _ ltac:(apply list.Forall_forall; intros; by apply IH) ltac:(eassumption)).
Qed.
Lemma type_cache_extends {NF} (c c' : ModuleCache NF) tc : c.(ModuleCache.structs) `prefix_of` c'.(ModuleCache.structs) ->
  type_cache_ok c tc -> type_cache_ok c' tc.
Proof.
  intros Hp [Ht Hl]. split.
  - intros gidx ty_args info tag Hi Htag. pose proof (Ht _ _ _ _ Hi Htag) as H. unfold struct_tag_of in *. inv_ok.
    rewrite (map_res_impl (tag_of c) (tag_of c') _ _ ltac:(apply list.Forall_forall; intros; by eapply tag_of_extends) ltac:(eassumption)). simpl.
    by rewrite (struct_at_extends c c' _ _ Hp ltac:(eassumption)).
  - intros gidx ty_args info l Hi Hlay. destruct (Hl _ _ _ _ Hi Hlay) as [n Hn]. exists n. by eapply layout_of_extends.
Qed.

(** * Layouts *)

Lemma apply_subst_no_fuel subst : (forall idx depth, subst idx depth <> OutOfFuel) ->
  forall ty depth, RuntimeType.apply_subst subst ty depth <> OutOfFuel.
Proof.
  intros Hs ty. induction ty as [| | | | | |ty IH|idx|idx tys IH|ty IH|ty IH|idx] using Types.type_ind; intros depth;
    cbn [RuntimeType.apply_subst]; destruct (_ <? _); try done; try apply Hs.
  1, 3, 4: specialize (IH (depth + 1)); by destruct (RuntimeType.apply_subst _ _ _).
  match goal with |- ?m ≫= _ <> _ => assert (m <> OutOfFuel) as Hm end; [|by destruct (_ tys)].
  induction IH as [|ty tys Hty _ IHl]; [done|]. specialize (Hty (depth + 1)). simpl in *.
  destruct (RuntimeType.apply_subst _ _ _); try done. simpl. by destruct (_ tys).
Qed.
Lemma subst_no_fuel ty ty_args : RuntimeType.subst ty ty_args <> OutOfFuel.
Proof. apply apply_subst_no_fuel. intros idx depth. destruct (_ !! _); [|done]. by apply apply_subst_no_fuel. Qed.
Lemma map_res_no_fuel {A B} (f : A -> R B) l : (forall x, f x <> OutOfFuel) -> ModuleAccess.map_res f l <> OutOfFuel.
Proof.
  intros Hf. induction l as [|x l IH]; [done|]. cbn [ModuleAccess.map_res]. specialize (Hf x). destruct (f x); try done. simpl.
  by destruct (ModuleAccess.map_res f l).
Qed.

Section layouts.
Context {NF : Type} (c : ModuleCache NF).
Abbreviation Ty := RuntimeType.Type_.
Abbreviation field_types st ty_args := (ModuleAccess.map_res (fun ty => TypeLoader.status_of (RuntimeType.subst ty ty_args)) st.(StructType.fields)).

Lemma layout_struct n gidx : layout_of c n (RuntimeType.Struct gidx) = layout_of c n (RuntimeType.StructInstantiation gidx []).
Proof. by destruct n. Qed.

Lemma layout_of_mono n n' ty l : (n <= n')%nat -> layout_of c n ty = Ok l -> layout_of c n' ty = Ok l.
Proof.
  revert n' ty l. induction n as [|n IH]; intros [|n'] ty l Hn; [done|done|lia|]. apply le_S_n in Hn. cbn [layout_of]. destruct ty; try done; intros H; inv_ok.
  1: by rewrite (IH n' _ _ Hn ltac:(eassumption)).
  all: match goal with H : ModuleCache.struct_at _ _ = _ |- _ => rewrite H end; simpl;
    match goal with H : ModuleAccess.map_res _ (StructType.fields _) = _ |- _ => rewrite H end; simpl;
    by rewrite (map_res_impl (layout_of c n) (layout_of c n') _ _ ltac:(apply list.Forall_forall; intros; by apply IH) ltac:(eassumption)).
Qed.
Lemma layout_of_det n n' ty l l' : layout_of c n ty = Ok l -> layout_of c n' ty = Ok l' -> l = l'.
Proof.
  intros H%(layout_of_mono _ (n `max` n')) H'%(layout_of_mono _ (n `max` n')); [|lia..]. rewrite H in H'. by injection H'.
Qed.

(** The layouts that come out are those of the types, and the depth bounds the recursion. *)
Definition safe {A} (m : LM TypeCache A) (Q : A -> Prop) : Prop := forall tc, type_cache_ok c tc ->
  match m tc with
  | Ok (a, tc') => type_cache_ok c tc' /\ Q a
  | Err (_, tc') => type_cache_ok c tc'
  | Panic => True
  | OutOfFuel => False
  end.
Lemma types_ret {A} (a : A) (Q : A -> Prop) : Q a -> safe (mret a) Q.
Proof. by intros H tc Htc. Qed.
Lemma types_bind {A B} (m : LM TypeCache A) (f : A -> LM TypeCache B) Q Q' :
  safe m Q -> (forall a, Q a -> safe (f a) Q') -> safe (m ≫= f) Q'.
Proof.
  intros Hm Hf tc Htc. specialize (Hm tc Htc). unfold mbind, LM_bind. destruct (m tc) as [[a tc']|[e tc']| |]; try done.
  destruct Hm as [Htc' Ha]. by apply Hf.
Qed.
Lemma types_lift {A} (r : R A) : r <> OutOfFuel -> safe (lm_lift r) (fun a => r = Ok a).
Proof. intros Hr tc Htc. unfold lm_lift. by destruct r. Qed.
Lemma types_map {A} (f : A -> LM TypeCache MoveTypeLayout) (ty : A -> Ty) xs :
  (forall x, x ∈ xs -> safe (f x) (fun l => exists n, layout_of c n (ty x) = Ok l)) ->
  safe (CodeLoader.lm_map f xs) (fun ls => exists n, ModuleAccess.map_res (fun x => layout_of c n (ty x)) xs = Ok ls).
Proof.
  induction xs as [|x xs IH]; intros Hf; cbn [CodeLoader.lm_map ModuleAccess.map_res]; [apply types_ret; by exists O|].
  eapply types_bind; [apply Hf; by left|]. intros l [n Hn]. eapply types_bind; [apply IH; intros y Hy; apply Hf; by right|]. intros ls [n' Hn'].
  apply types_ret. exists (n `max` n')%nat. rewrite (layout_of_mono n (n `max` n') _ _ ltac:(lia) Hn). simpl.
  rewrite (map_res_impl (fun x => layout_of c n' (ty x)) (fun x => layout_of c (n `max` n') (ty x)) xs ls); [done| |done].
  apply list.Forall_forall. intros y _ l' Hl'. eapply layout_of_mono; [|exact Hl']. lia.
Qed.

Lemma struct_layout_safe (f : Ty -> Z -> LM TypeCache MoveTypeLayout) gidx ty_args depth :
  (forall ty, safe (f ty (depth + 1)) (fun l => exists n, layout_of c n ty = Ok l)) ->
  safe (TypeLoader.struct_gidx_to_type_layout c f gidx ty_args depth)
    (fun l => exists n, layout_of c n (RuntimeType.StructInstantiation gidx ty_args) = Ok (MoveTypeLayout.Struct l)).
Proof.
  intros Hf tc Htc. unfold TypeLoader.struct_gidx_to_type_layout. unfold mbind at 1, LM_bind at 1, lm_get.
  destruct (TypeCache.get tc gidx ty_args ≫= StructInfo.struct_layout) as [l|] eqn:Hhit.
  { apply bind_Some in Hhit as (info & Hi & Hl). split; [done|]. by eapply (cached_layouts c tc Htc). }
  revert tc Htc Hhit. intros tc Htc _. revert tc Htc. eapply types_bind; [apply types_lift, struct_at_no_fuel|]. intros st Hst.
  eapply types_bind; [apply types_lift, map_res_no_fuel; intros ty; pose proof (subst_no_fuel ty ty_args); by destruct (RuntimeType.subst ty ty_args)|].
  intros tys Htys. eapply types_bind; [apply (types_map _ (fun ty => ty)); intros ty _; apply Hf|]. intros ls [n Hn].
  assert (layout_of c (S n) (RuntimeType.StructInstantiation gidx ty_args) = Ok (MoveTypeLayout.Struct (MoveTypeLayout.Runtime ls))) as Hlay.
  { cbn [layout_of]. rewrite Hst. simpl. rewrite Htys. simpl. change (fun x => layout_of c n x) with (layout_of c n) in Hn. by rewrite Hn. }
  eapply (types_bind _ _ (fun _ => True)); [intros tc Htc; split; [by eapply update_layout_ok|done]|]. intros _ _. apply types_ret. by exists (S n).
Qed.

Lemma layout_safe fuel : forall ty depth, TypeLoader.VALUE_DEPTH_MAX + 1 - depth <= Z.of_nat fuel ->
  safe (TypeLoader.type_to_type_layout_impl c fuel ty depth) (fun l => exists n, layout_of c n ty = Ok l).
Proof.
  induction fuel as [|fuel IH]; intros ty depth Hfuel; cbn [TypeLoader.type_to_type_layout_impl].
  { destruct (Z.ltb_spec TypeLoader.VALUE_DEPTH_MAX depth); [|lia]. by intros tc Htc. }
  destruct (Z.ltb_spec TypeLoader.VALUE_DEPTH_MAX depth); [by intros tc Htc|].
  assert (forall ty, safe (TypeLoader.type_to_type_layout_impl c fuel ty (depth + 1)) (fun l => exists n, layout_of c n ty = Ok l)) as IH'.
  { intros ty'. apply IH. lia. }
  destruct ty as [| | | | | |ty|gidx|gidx ty_args|ty|ty|idx]; try (apply types_ret; by exists 1%nat); try by intros tc Htc.
  - eapply types_bind; [apply IH'|]. intros l [n Hn]. apply types_ret. exists (S n). cbn [layout_of]. by rewrite Hn.
  - eapply types_bind; [by apply struct_layout_safe|]. intros l [n Hn]. apply types_ret. exists n. by rewrite layout_struct.
  - eapply types_bind; [by apply struct_layout_safe|]. intros l [n Hn]. apply types_ret. by exists n.
Qed.

(** A layout within the limit is found, whatever the cache holds. *)
Definition finds {A} (m : LM TypeCache A) (a : A) : Prop := forall tc, type_cache_ok c tc ->
  exists tc', m tc = Ok (a, tc') /\ type_cache_ok c tc'.
Lemma finds_ret {A} (a : A) : finds (mret a) a.
Proof. intros tc Htc. by exists tc. Qed.
Lemma finds_lift {A} (r : R A) a : r = Ok a -> finds (lm_lift r) a.
Proof. intros -> tc Htc. by exists tc. Qed.
Lemma finds_bind {A B} (m : LM TypeCache A) (f : A -> LM TypeCache B) a b : finds m a -> finds (f a) b -> finds (m ≫= f) b.
Proof. intros Hm Hf tc Htc. destruct (Hm tc Htc) as (tc' & E & Htc'). unfold mbind, LM_bind. rewrite E. by apply Hf. Qed.
Lemma finds_map (f : Ty -> LM TypeCache MoveTypeLayout) n tys ls : (forall ty l, layout_of c n ty = Ok l -> finds (f ty) l) ->
  ModuleAccess.map_res (layout_of c n) tys = Ok ls -> finds (CodeLoader.lm_map f tys) ls.
Proof.
  intros Hf. revert ls. induction tys as [|ty tys IH]; intros ls H; cbn [CodeLoader.lm_map ModuleAccess.map_res] in *; inv_ok; [apply finds_ret|].
  eapply finds_bind; [by apply Hf|]. eapply finds_bind; [by apply IH|]. apply finds_ret.
Qed.

Lemma struct_layout_finds (f : Ty -> Z -> LM TypeCache MoveTypeLayout) n gidx ty_args depth l :
  (forall ty l, layout_of c n ty = Ok l -> finds (f ty (depth + 1)) l) ->
  layout_of c (S n) (RuntimeType.StructInstantiation gidx ty_args) = Ok l ->
  finds (l' ← TypeLoader.struct_gidx_to_type_layout c f gidx ty_args depth; mret (MoveTypeLayout.Struct l')) l.
Proof.
  intros Hf Hlay. pose proof Hlay as H. cbn [layout_of] in H. inv_ok. eapply finds_bind; [|apply finds_ret]. intros tc Htc.
  unfold TypeLoader.struct_gidx_to_type_layout. unfold mbind at 1, LM_bind at 1, lm_get.
  destruct (TypeCache.get tc gidx ty_args ≫= StructInfo.struct_layout) as [l|] eqn:Hhit.
  { apply bind_Some in Hhit as (info & Hi & Hl). destruct (cached_layouts c tc Htc _ _ _ _ Hi Hl) as [n' Hn'].
    pose proof (layout_of_det _ _ _ _ _ Hlay Hn') as [= <-]. by exists tc. }
  revert tc Htc Hhit. intros tc Htc _. revert tc Htc. eapply finds_bind; [by apply finds_lift|]. eapply finds_bind; [by apply finds_lift|].
  eapply finds_bind; [by apply (finds_map _ n); [exact Hf|]|]. eapply (finds_bind _ _ ()); [|apply finds_ret].
  intros tc Htc. eexists. split; [reflexivity|]. by eapply update_layout_ok.
Qed.

Lemma layout_finds n : forall fuel ty depth l, layout_of c n ty = Ok l -> Z.of_nat n <= TypeLoader.VALUE_DEPTH_MAX + 1 - depth -> (n <= fuel)%nat ->
  finds (TypeLoader.type_to_type_layout_impl c fuel ty depth) l.
Proof.
  induction n as [|n IH]; intros fuel ty depth l Hl Hd Hfuel; [done|]. destruct fuel as [|fuel]; [lia|]. cbn [TypeLoader.type_to_type_layout_impl].
  destruct (Z.ltb_spec TypeLoader.VALUE_DEPTH_MAX depth); [lia|].
  assert (forall ty l, layout_of c n ty = Ok l -> finds (TypeLoader.type_to_type_layout_impl c fuel ty (depth + 1)) l) as IH'.
  { intros ty' l' Hl'. apply IH; [done|lia|lia]. }
  destruct ty as [| | | | | |ty|gidx|gidx ty_args|ty|ty|idx]; try (injection Hl as <-; apply finds_ret); try done.
  - cbn [layout_of] in Hl. inv_ok. eapply finds_bind; [by apply IH'|apply finds_ret].
  - rewrite layout_struct in Hl. by apply (struct_layout_finds _ n).
  - by apply (struct_layout_finds _ n).
Qed.
End layouts.

(** * Loading a type *)

Section loading.
Context {NF DS : Type} `{!ModuleStore DS}.
Context (resolve : AccountAddress -> Identifier -> Identifier -> option NF).
Context (from_bytes_seed : MoveTypeLayout -> list Z -> option MoveValue).
Context (toposort : list (Z * Z) -> Z + list Z).
Context (tarjan_scc : InstantiationLoopChecker.Graph -> list (list nat)).
Abbreviation cache_ok := (cache_ok resolve from_bytes_seed toposort tarjan_scc).
Abbreviation runs := (runs resolve from_bytes_seed toposort tarjan_scc).
Abbreviation cached_in s := s.(LoaderState.module_cache).

Section types.
Context (data_store : DS) (Hstore : store_ok data_store).
Abbreviation load_type fuel := (CodeLoader.load_type resolve from_bytes_seed toposort tarjan_scc fuel data_store).
Abbreviation has_tag tag := (fun ty s' => tag_of (cached_in s') ty = Ok tag).

Lemma load_types_tags (load : TypeTag -> LM (LoaderState NF) RuntimeType.Type_) tags :
  Forall (fun tag => forall s, cache_ok (cached_in s) -> runs s (load tag) (has_tag tag)) tags ->
  forall s, cache_ok (cached_in s) -> runs s (CodeLoader.lm_map load tags) (fun tys s' => ModuleAccess.map_res (tag_of (cached_in s')) tys = Ok tags).
Proof using.
  induction 1 as [|tag tags Htag _ IH]; intros s Hs; cbn [CodeLoader.lm_map]; [by apply runs_ret|].
  eapply runs_bind; [by apply Htag|]. intros ty s1 Hg1 Hty. eapply runs_bind; [apply IH, Hg1|]. intros tys s2 Hg2 Htys.
  apply runs_ret; [apply Hg2|]. cbn [ModuleAccess.map_res]. destruct (grows_extends _ _ _ _ _ _ Hg2) as (_ & Hp & _).
  by rewrite (tag_of_extends _ _ Hp _ _ Hty), Htys.
Qed.

(** [load_type] returns a type with the tag that it was asked for. *)
Lemma load_type_tag fuel : forall tag s, cache_ok (cached_in s) -> runs s (load_type fuel tag) (has_tag tag).
Proof using Hstore.
  fix IH 1. intros tag s Hs. destruct tag as [| | | | | |tag|[address module name tags]]; cbn [CodeLoader.load_type CodeLoader.load_struct_tag]; try (by apply runs_ret).
  - eapply runs_bind; [by apply IH|]. intros t s1 Hg1 Ht. apply runs_ret; [apply Hg1|]. cbn [tag_of]. by rewrite Ht.
  - assert (Forall (fun tag => forall s, cache_ok (cached_in s) -> runs s (load_type fuel tag) (has_tag tag)) tags) as Htags.
    { clear -IH. induction tags as [|t tags IHl]; constructor; [apply IH|apply IHl]. }
    clear IH. eapply runs_bind; [by apply load_module_runs|]. intros M s1 Hg1 HM. eapply runs_bind; [apply runs_get, Hg1|]. intros c s2 _ [-> ->].
    eapply runs_bind; [apply runs_lift, Hg1|]. intros [idx st] s3 _ [-> Hres].
    assert (ModuleCache.struct_at (cached_in s1) idx = Ok st /\ st.(StructType.name) = name /\ st.(StructType.module) = (address, module)) as (Hat & Hn & Hm).
    { unfold ModuleCache.resolve_struct_by_name in Hres. destruct (ModuleCache.module_at _ _) as [M'|] eqn:EM; [|done]. simpl in Hres.
      destruct (M'.(LoadedModule.struct_map) !! name) as [i|] eqn:Ei; [|done]. inv_ok.
      destruct (cache_struct_maps _ _ _ _ _ (grows_cache _ _ _ _ _ _ Hg1) _ _ _ _ EM Ei) as (st' & Hst' & Hn & Hm).
      match goal with H : ModuleCache.struct_at _ _ = Ok _ |- _ => pose proof H as Hat; unfold ModuleCache.struct_at in H; rewrite Hst' in H; injection H as -> end. done. }
    assert (runs s1 (type_params ← CodeLoader.lm_map (load_type fuel) tags; cache ← CodeLoader.get_cache;
      lm_lift (CodeLoader.verify_ty_args cache (StructType.type_param_constraints st) type_params);;
      mret (RuntimeType.StructInstantiation idx type_params)) (has_tag (TypeTag.Struct (TypeTag.mk address module name tags)))) as Hgen.
    { eapply runs_bind; [apply load_types_tags; [done|apply Hg1]|]. intros tys s2 Hg2 Htys.
      eapply runs_bind; [apply runs_get, Hg2|]. intros c s3 _ [-> ->]. eapply runs_bind; [apply runs_lift, Hg2|].
      intros [] s4 _ [-> _]. apply runs_ret; [apply Hg2|]. cbn [tag_of]. rewrite Htys. simpl. unfold struct_tag_of.
      destruct (grows_extends _ _ _ _ _ _ Hg2) as (_ & Hp & _). rewrite (struct_at_extends _ _ _ _ Hp Hat). simpl. by rewrite Hm, Hn. }
    destruct (StructType.type_parameters st), tags; try exact Hgen. apply runs_ret; [apply Hg1|]. cbn [tag_of]. unfold struct_tag_of. rewrite Hat. simpl. by rewrite Hm, Hn.
Qed.
End types.
End loading.

(** * The data cache *)

#[global] Instance data_cache_publish : PublishLaw TransactionDataCache.
Proof.
  intros [a n] blob ds ds' [= <-] [a' n']. unfold ModuleStore.load_module, data_cache_modules, TransactionDataCache.load_module. simpl.
  destruct (decide (a' = a)) as [->|Ha].
  - rewrite lookup_insert_eq. simpl. destruct (decide (n' = n)) as [->|Hn]; [by rewrite lookup_insert_eq, decide_True|].
    rewrite lookup_insert_ne, decide_False by congruence. unfold TransactionDataCache.account.
    by destruct (TransactionDataCache.account_map ds !! a); simpl; rewrite ?lookup_empty.
  - by rewrite lookup_insert_ne, decide_False by congruence.
Qed.

(** What the cache holds. *)
Definition slot (ds : TransactionDataCache) (addr : AccountAddress) (ty : RuntimeType.Type_) : option (MoveTypeLayout * GlobalValue) :=
  (TransactionDataCache.account ds addr).(AccountDataCache.data_map) !! ty.

Lemma account_with_account ds addr a addr' : TransactionDataCache.account (TransactionDataCache.with_account ds addr a) addr' =
  if decide (addr' = addr) then a else TransactionDataCache.account ds addr'.
Proof.
  unfold TransactionDataCache.account, TransactionDataCache.with_account. simpl.
  destruct (decide _) as [->|]; [by rewrite lookup_insert_eq|by rewrite lookup_insert_ne].
Qed.
Lemma slot_insert ds addr ty layout gv addr' ty' : slot (TransactionDataCache.insert_resource addr ty layout gv ds) addr' ty' =
  if decide (addr' = addr /\ ty' = ty) then Some (layout, gv) else slot ds addr' ty'.
Proof.
  unfold slot, TransactionDataCache.insert_resource. rewrite account_with_account. destruct (decide (addr' = addr)) as [->|Ha]; simpl.
  - destruct (decide (ty' = ty)) as [->|Ht]; [by rewrite lookup_insert_eq, decide_True|by rewrite lookup_insert_ne, decide_False by naive_solver].
  - by rewrite decide_False by naive_solver.
Qed.
Lemma slot_touch ds addr addr' ty' : slot (TransactionDataCache.with_account ds addr (TransactionDataCache.account ds addr)) addr' ty' = slot ds addr' ty'.
Proof. unfold slot. rewrite account_with_account. by destruct (decide _) as [->|]. Qed.

(** The modules that two caches hold are the same. *)
Definition same_modules (ds ds' : TransactionDataCache) : Prop :=
  ds'.(TransactionDataCache.remote) = ds.(TransactionDataCache.remote) /\
  forall addr, (TransactionDataCache.account ds' addr).(AccountDataCache.module_map) = (TransactionDataCache.account ds addr).(AccountDataCache.module_map).

Lemma load_module_account ds id : TransactionDataCache.load_module ds id =
  match (TransactionDataCache.account ds id.1).(AccountDataCache.module_map) !! id.2 with
  | Some blob => Ok blob
  | None =>
    match get_module ds.(TransactionDataCache.remote) id with
    | Ok (Some bytes) => Ok bytes
    | Ok None => Err LINKER_ERROR
    | Err _ => Err UNKNOWN_INVARIANT_VIOLATION_ERROR
    | Panic => Panic
    | OutOfFuel => OutOfFuel
    end
  end.
Proof.
  unfold TransactionDataCache.load_module, TransactionDataCache.account. destruct (TransactionDataCache.account_map ds !! id.1); simpl; [done|].
  by rewrite lookup_empty.
Qed.
Lemma same_modules_load ds ds' id : same_modules ds ds' -> TransactionDataCache.load_module ds' id = TransactionDataCache.load_module ds id.
Proof. intros [Hr Hm]. by rewrite !load_module_account, Hr, Hm. Qed.

Section resources.
Context {NF : Type} (c : ModuleCache NF) (simple_deserialize : list Z -> MoveTypeLayout -> Store -> option (Value * Store)).
Abbreviation types ds := ds.(TransactionDataCache.type_cache).

(** Where the slot of a resource comes from: the cache, or the storage, under the tag of the
    type and read at its layout. *)
Inductive resource_source (ds : TransactionDataCache) (heap : Store) (addr : AccountAddress) (ty : RuntimeType.Type_)
    (layout : MoveTypeLayout) (gv : GlobalValue) (heap' : Store) : Prop :=
| from_cache : slot ds addr ty = Some (layout, gv) -> heap' = heap -> resource_source ds heap addr ty layout gv heap'
| from_storage tag blob val h n : slot ds addr ty = None -> tag_of c ty = Ok (TypeTag.Struct tag) -> layout_of c n ty = Ok layout ->
    get_resource ds.(TransactionDataCache.remote) addr tag = Ok (Some blob) -> simple_deserialize blob layout heap = Some (val, h) ->
    GlobalValue.cached val h = Ok (gv, heap') -> resource_source ds heap addr ty layout gv heap'
| from_nowhere tag n : slot ds addr ty = None -> tag_of c ty = Ok (TypeTag.Struct tag) -> layout_of c n ty = Ok layout ->
    get_resource ds.(TransactionDataCache.remote) addr tag = Ok None -> gv = GlobalValue.none -> heap' = heap ->
    resource_source ds heap addr ty layout gv heap'.

Lemma type_layout_safe ty : safe c (TypeLoader.type_to_type_layout c ty) (fun l => exists n, layout_of c n ty = Ok l).
Proof. by apply layout_safe. Qed.

Lemma read_resource_ok ds heap addr ty l gv ds' heap' : type_cache_ok c (types ds) ->
  TransactionDataCache.read_resource c simple_deserialize addr ty (ds, heap) = Ok ((l, gv), (ds', heap')) ->
  (exists tc, type_cache_ok c tc /\ ds' = TransactionDataCache.with_types ds tc) /\
  (slot ds addr ty = None -> resource_source ds heap addr ty l gv heap').
Proof.
  intros Htc. unfold TransactionDataCache.read_resource, mbind, ST_bind, TransactionDataCache.on_types.
  pose proof (type_tag_agrees c ty _ Htc) as Htag. unfold agrees_at in Htag.
  destruct (TypeLoader.type_to_type_tag c ty _) as [[tag tc]|[e tc]| |]; [|done..]. destruct Htag as [Htag Htc1]. cbn.
  destruct tag as [| | | | | | |tag]; try done. cbn. pose proof (type_layout_safe ty tc Htc1) as Hlay.
  destruct (TypeLoader.type_to_type_layout c ty tc) as [[layout tc']|[e tc']| |]; [|done..]. destruct Hlay as [Htc2 [n Hn]].
  unfold TransactionDataCache.fetch_resource. cbn. destruct (get_resource _ addr tag) as [[blob|]|e| |] eqn:Hget; try done.
  - destruct (simple_deserialize blob layout heap) as [[val h]|] eqn:Hd; [|done]. unfold TransactionDataCache.on_store.
    destruct (GlobalValue.cached val h) as [[gv0 h']| | |] eqn:Hc; [|done..]. intros [= <- <- <- <-].
    split; [by exists tc'|]. intros Hs. by eapply from_storage.
  - intros [= <- <- <- <-]. split; [by exists tc'|]. intros Hs. by eapply from_nowhere.
Qed.

(** The slot of a loaded resource can be read again and written. *)
Lemma load_slot ds heap addr ty l gv : slot ds addr ty = Some (l, gv) ->
  exists ds', TransactionDataCache.load_resource c simple_deserialize addr ty (ds, heap) = Ok (gv, (ds', heap)) /\
    types ds' = types ds /\ same_modules ds ds' /\ forall a t, slot ds' a t = slot ds a t.
Proof.
  intros Hs. exists (TransactionDataCache.with_account ds addr (TransactionDataCache.account ds addr)).
  unfold TransactionDataCache.load_resource. unfold slot in Hs. rewrite Hs. split; [done|]. split; [done|]. split; [split; [done|]|apply slot_touch].
  intros a. rewrite account_with_account. by destruct (decide _) as [->|].
Qed.
Lemma load_missing ds ds' heap heap' addr ty gv : type_cache_ok c (types ds) -> slot ds addr ty = None ->
  TransactionDataCache.load_resource c simple_deserialize addr ty (ds, heap) = Ok (gv, (ds', heap')) ->
  type_cache_ok c (types ds') /\ same_modules ds ds' /\
  exists l, resource_source ds heap addr ty l gv heap' /\
    forall a t, slot ds' a t = if decide (a = addr /\ t = ty) then Some (l, gv) else slot ds a t.
Proof.
  intros Htc Hs. unfold TransactionDataCache.load_resource. pose proof Hs as Hs'. unfold slot in Hs'. rewrite Hs'.
  set (ds0 := TransactionDataCache.with_account ds addr (TransactionDataCache.account ds addr)).
  destruct (TransactionDataCache.read_resource _ _ _ _ _) as [[[l gv0] [ds1 h1]]| | |] eqn:E; [|done..]. intros [= <- <- <-].
  destruct (read_resource_ok ds0 heap addr ty l gv0 ds1 h1 Htc E) as [(tc & Htc1 & ->) Hsrc]. split; [done|]. split.
  - split; [done|]. intros a. unfold TransactionDataCache.insert_resource. rewrite account_with_account.
    change (TransactionDataCache.account (TransactionDataCache.with_types ds0 tc)) with (TransactionDataCache.account ds0).
    unfold ds0. rewrite !account_with_account. by destruct (decide (a = addr)) as [->|]; [destruct (decide _)|].
  - exists l. split.
    + assert (slot ds0 addr ty = None) as Hs0 by (by unfold ds0; rewrite slot_touch). destruct (Hsrc Hs0) as [H| |]; [congruence|..].
      * by eapply from_storage.
      * by eapply from_nowhere.
    + intros a t. rewrite slot_insert. destruct (decide _); [done|]. change (slot (TransactionDataCache.with_types ds0 tc) a t) with (slot ds0 a t).
      apply slot_touch.
Qed.
End resources.

(** * A sample store *)

Module Boxes.
(** [Box<T>] holds a [T], [Coin] a number. *)
Definition module : CompiledModule :=
  CompiledModule.mk VERSION_MAX 0 [ModuleHandle.mk 0 0]
    [StructHandle.mk 0 1 7 [StructTypeParameter.mk 0 false]; StructHandle.mk 0 2 12 []] [] [] [] [] [] []
    [[]] [Identifier.self_bytes; [66]; [67]; [118]] [AccountAddress_ZERO] []
    [StructDefinition.mk 0 (Declared [FieldDefinition.mk 3 (SignatureToken.TypeParameter 0)]);
     StructDefinition.mk 1 (Declared [FieldDefinition.mk 3 SignatureToken.U64])] [].
Definition id : ModuleId := (AccountAddress_ZERO, Identifier.self_bytes).
Definition bytes : list Z := match serialize_module module [] with Ok b => b | _ => [] end.

Definition resolve (address : AccountAddress) (module name : Identifier) : option () := None.
Definition from_bytes_seed (layout : MoveTypeLayout) (b : list Z) : option MoveValue := None.
Definition toposort (edges : list (Z * Z)) : Z + list Z := inr [].
Definition tarjan_scc (graph : InstantiationLoopChecker.Graph) : list (list nat) := [].
Definition sha3_256 (b : list Z) : list Z := b.
Abbreviation system := (system resolve from_bytes_seed toposort tarjan_scc sha3_256).

(** A storage without modules; every resource is five. *)
Definition remote : MoveResolver := mk_resolver (fun _ => Ok None) (fun _ _ => Ok (Some [5])).
Definition simple_deserialize (blob : list Z) (layout : MoveTypeLayout) (heap : Store) : option (Value * Store) :=
  match VmValues.struct_ [ValueImpl.U64 (nth 0 blob 0)] heap with Ok r => Some r | _ => None end.
Definition empty_store : TransactionDataCache := TransactionDataCache.new remote TypeCache.new.

(** The module is published, then the type [Box<Coin>] is loaded. *)
Definition published : result (StatusCode * LoaderState ()) (TransactionDataCache * LoaderState ()) :=
  CodeLoader.publish_module_bundle resolve from_bytes_seed toposort tarjan_scc 5 [bytes] AccountAddress_ZERO empty_store LoaderState.new.
Definition ds : TransactionDataCache := match published with Ok (d, _) => d | _ => empty_store end.
Definition after_publish : LoaderState () := match published with Ok (_, s) => s | _ => LoaderState.new end.
Definition box_coin : TypeTag :=
  TypeTag.Struct (TypeTag.mk AccountAddress_ZERO Identifier.self_bytes [66]
    [TypeTag.Struct (TypeTag.mk AccountAddress_ZERO Identifier.self_bytes [67] [])]).
Definition loaded : result (StatusCode * LoaderState ()) (RuntimeType.Type_ * LoaderState ()) :=
  CodeLoader.load_type resolve from_bytes_seed toposort tarjan_scc 5 ds box_coin after_publish.
Definition state : LoaderState () := match loaded with Ok (_, s) => s | _ => LoaderState.new end.
Abbreviation cache := state.(LoaderState.module_cache).
Definition Coin : RuntimeType.Type_ := RuntimeType.Struct 1.
Definition BoxCoin : RuntimeType.Type_ := RuntimeType.StructInstantiation 0 [Coin].

Lemma box_published : published = Ok (ds, after_publish).
Proof. unfold ds, after_publish. destruct published as [[d s]| | |] eqn:E; [done|vm_compute in E; discriminate E..]. Qed.
Lemma box_loaded : loaded = Ok (BoxCoin, state).
Proof. unfold state. destruct loaded as [[t s]| | |] eqn:E; vm_compute in E; [injection E as <- <-; done|discriminate E..]. Qed.

Lemma empty_store_ok : store_ok empty_store.
Proof.
  intros mid b m H. unfold ModuleStore.load_module, data_cache_modules, TransactionDataCache.load_module in H.
  change (account_cache ← (∅ : gmap AccountAddress AccountDataCache) !! mid.1; account_cache.(AccountDataCache.module_map) !! mid.2) with
    ((∅ : gmap AccountAddress AccountDataCache) !! mid.1 ≫= fun a => a.(AccountDataCache.module_map) !! mid.2) in H.
  simpl in H. by rewrite lookup_empty in H.
Qed.
Lemma deserialized : deserialize_module bytes = Ok module.
Proof. vm_compute. reflexivity. Qed.
Lemma small m : deserialize_module bytes = Ok m -> small_module m.
Proof.
  rewrite deserialized. intros [= <-]. split; [vm_compute; discriminate..| |].
  - intros def b []%elem_of_nil.
  - intros def fields Hin. repeat (apply elem_of_cons in Hin as [->|Hin]; [intros [= <-]; done|]). by apply elem_of_nil in Hin.
Qed.
Lemma wf : wf_bytes bytes = true.
Proof. vm_compute. reflexivity. Qed.
Lemma start : system empty_store LoaderState.new.
Proof. apply system_new, empty_store_ok. Qed.
Lemma box_reached : system ds after_publish.
Proof. eapply (system_publish _ _ _ _ _ _ _ _ _ 5 bytes AccountAddress_ZERO start wf small). apply box_published. Qed.

(** A coin is read. *)
Definition heap : Store := ∅.
Definition coin : result PartialVMError (GlobalValue * (TransactionDataCache * Store)) :=
  TransactionDataCache.load_resource cache simple_deserialize AccountAddress_ZERO Coin (ds, heap).
Definition coin_slot : GlobalValue := match coin with Ok (gv, _) => gv | _ => GlobalValue.none end.
Definition coin_store : TransactionDataCache := match coin with Ok (_, (d, _)) => d | _ => ds end.
Definition coin_heap : Store := match coin with Ok (_, (_, h)) => h | _ => heap end.
Lemma coin_ok : TransactionDataCache.load_resource cache simple_deserialize AccountAddress_ZERO Coin (ds, heap) =
  Ok (coin_slot, (coin_store, coin_heap)).
Proof. fold coin. unfold coin_slot, coin_store, coin_heap. destruct coin as [[gv [d h]]| | |] eqn:E; [done|vm_compute in E; discriminate E..]. Qed.
Lemma types_ok : type_cache_ok cache ds.(TransactionDataCache.type_cache).
Proof. replace (TransactionDataCache.type_cache ds) with TypeCache.new by (vm_compute; reflexivity). apply type_cache_new. Qed.
End Boxes.

(** * Publication *)

(** C11: what is published was checked.  Take any loader and data store that a sequence of
    loads and publications reached, and publish one module, given by its bytes.  If
    [publish_module_bundle] succeeds, the bytes deserialize to a module at the sender's
    address that passes the bytecode verifier, every native function of it has an
    implementation, its handles link with modules that the loader holds, it closes no cycle
    of dependencies or friends, and if the data store had a module of that name then the
    loader holds one and the new module is fully compatible with it.  Afterwards the data
    store holds the bytes under the name of the module and is otherwise unchanged, and the
    loader is again in a state from which this can be repeated. *)
Theorem publication_checked {NF DS : Type} `{!ModuleStore DS} `{!PublishLaw DS}
    (resolve : AccountAddress -> Identifier -> Identifier -> option NF)
    (from_bytes_seed : MoveTypeLayout -> list Z -> option MoveValue) (toposort : list (Z * Z) -> Z + list Z)
    (tarjan_scc : InstantiationLoopChecker.Graph -> list (list nat)) (sha3_256 : list Z -> list Z)
    (ds ds' : DS) (s s' : LoaderState NF) (fuel : nat) (blob : list Z) (sender : AccountAddress) :
  system resolve from_bytes_seed toposort tarjan_scc sha3_256 ds s -> wf_bytes blob = true ->
  (forall m, deserialize_module blob = Ok m -> small_module m) ->
  CodeLoader.publish_module_bundle resolve from_bytes_seed toposort tarjan_scc fuel [blob] sender ds s = Ok (ds', s') ->
  exists m id, deserialize_module blob = Ok m /\ ModuleAccess.self_id m = Ok id /\ ModuleAccess.address m = Ok sender /\
    Verifier.verify_module from_bytes_seed toposort tarjan_scc m = Ok () /\ CodeLoader.check_natives resolve m = Ok () /\
    (exists deps, links (BinaryIndexedView.Module_ m) deps /\ forall d, d ∈ deps -> exists id' M,
       ModuleCache.module_at s'.(LoaderState.module_cache) id' = Some M /\ M.(LoadedModule.module) = d) /\
    CodeLoader.verify_module_cyclic_relations fuel s'.(LoaderState.module_cache) m ∅ ∅ = Ok () /\
    compatible_upgrade ds m s' /\
    (forall id', ModuleStore.load_module ds' id' = if decide (id' = id) then Ok blob else ModuleStore.load_module ds id') /\
    system resolve from_bytes_seed toposort tarjan_scc sha3_256 ds' s'.
Proof.
  intros Hsys Hwf Hsmall Hp. pose proof (system_ok _ _ _ _ _ _ _ Hsys) as [Hds Hs].
  pose proof (publish_one_runs resolve from_bytes_seed toposort tarjan_scc ds Hds fuel blob sender s (state_cache _ _ _ _ _ Hs)) as Hr.
  unfold runs in Hr. rewrite Hp in Hr. destruct Hr as (Hg & m & id & Hm & Hid & Ha & Hup & [Hv Hn (ids & Ms & HMs & Hlink) Hc] & Hpub).
  assert (accepted resolve from_bytes_seed toposort tarjan_scc m) as Hacc.
  { split; [|done|done|by apply Hsmall]. unfold deserialize_module in Hm. inv_ok. by eapply DeserializerSafety.deserialize_module_wf. }
  exists m, id. split_and!; try done; [| |by eapply system_publish].
  - destruct (cached_dependencies _ _ _ _ s' ids Ms (grows_cache _ _ _ _ _ _ Hg) HMs) as [Hck Hin]. exists (map LoadedModule.module Ms).
    split; [|done]. pose proof (Hsmall m Hm) as [H1 _ H2 _ _].
    by apply (verify_unit_ok (BinaryIndexedView.Module_ m) _ (accepted_checked _ _ _ _ m Hacc) Hck H1 H2).
  - by apply ModuleStore.load_published.
Qed.

(** The sample module is published in an empty data cache. *)
Lemma publication_checked_witness : exists m id, deserialize_module Boxes.bytes = Ok m /\ ModuleAccess.self_id m = Ok id /\
  ModuleStore.load_module Boxes.ds id = Ok Boxes.bytes.
Proof.
  destruct (publication_checked Boxes.resolve Boxes.from_bytes_seed Boxes.toposort Boxes.tarjan_scc Boxes.sha3_256
    Boxes.empty_store Boxes.ds LoaderState.new Boxes.after_publish 5 Boxes.bytes AccountAddress_ZERO
    Boxes.start Boxes.wf Boxes.small Boxes.box_published) as (m & id & Hm & Hid & _ & _ & _ & _ & _ & _ & Hl & _).
  exists m, id. split; [exact Hm|]. split; [exact Hid|]. rewrite Hl. by rewrite decide_True.
Defined.

(** * Types *)

(** C12: a type stands for its tag.  When [load_type] succeeds on a tag, in any loader that a
    sequence of loads and publications reached, [type_to_type_tag] gives that tag back for
    the type: at once or with any cache of more structs later, and whatever tags and layouts
    the type cache holds already.  The key of a resource in the storage is the tag of its
    type, so two tags never share a type. *)
Theorem load_type_round_trip {NF DS : Type} `{!ModuleStore DS} `{!PublishLaw DS}
    (resolve : AccountAddress -> Identifier -> Identifier -> option NF)
    (from_bytes_seed : MoveTypeLayout -> list Z -> option MoveValue) (toposort : list (Z * Z) -> Z + list Z)
    (tarjan_scc : InstantiationLoopChecker.Graph -> list (list nat)) (sha3_256 : list Z -> list Z)
    (ds : DS) (s s' : LoaderState NF) (fuel : nat) (tag : TypeTag) (ty : RuntimeType.Type_) :
  system resolve from_bytes_seed toposort tarjan_scc sha3_256 ds s ->
  CodeLoader.load_type resolve from_bytes_seed toposort tarjan_scc fuel ds tag s = Ok (ty, s') ->
  forall (c : ModuleCache NF) tc, s'.(LoaderState.module_cache).(ModuleCache.structs) `prefix_of` c.(ModuleCache.structs) ->
  type_cache_ok c tc ->
  exists tc', TypeLoader.type_to_type_tag c ty tc = Ok (tag, tc') /\ type_cache_ok c tc'.
Proof.
  intros Hsys Hl c tc Hp Htc. pose proof (system_ok _ _ _ _ _ _ _ Hsys) as [Hds Hs].
  pose proof (load_type_tag resolve from_bytes_seed toposort tarjan_scc ds Hds fuel tag s (state_cache _ _ _ _ _ Hs)) as Hr.
  unfold runs in Hr. rewrite Hl in Hr. destruct Hr as [_ Htag]. apply (tag_of_extends _ _ Hp) in Htag.
  pose proof (type_tag_agrees c ty tc Htc) as H. unfold agrees_at in H. rewrite Htag in H.
  destruct (TypeLoader.type_to_type_tag c ty tc) as [[t tc']|[e tc']| |]; [|by destruct H|done..].
  destruct H as [[= <-] H]. by exists tc'.
Qed.

Lemma load_type_round_trip_witness : exists tc',
  TypeLoader.type_to_type_tag Boxes.cache Boxes.BoxCoin TypeCache.new = Ok (Boxes.box_coin, tc') /\ type_cache_ok Boxes.cache tc'.
Proof.
  apply (load_type_round_trip Boxes.resolve Boxes.from_bytes_seed Boxes.toposort Boxes.tarjan_scc Boxes.sha3_256
    Boxes.ds Boxes.after_publish Boxes.state 5 Boxes.box_coin Boxes.BoxCoin);
    [apply Boxes.box_reached|apply Boxes.box_loaded|reflexivity|apply type_cache_new].
Defined.

(** C14: the type cache does not change layouts.  [type_to_type_layout] ends, its recursion
    bounded by the depth; what it returns is the layout of the type, the same as without a
    cache, and what it adds to the cache is right; and a type of at most 128 levels gets its
    layout from any cache.  (A type of more levels may or may not get one:
    [layout_depth_depends_on_cache].) *)
Theorem type_layout_exact {NF : Type} (c : ModuleCache NF) (ty : RuntimeType.Type_) (tc : TypeCache) :
  type_cache_ok c tc ->
  match TypeLoader.type_to_type_layout c ty tc with
  | Ok (l, tc') => type_cache_ok c tc' /\ (exists n, layout_of c n ty = Ok l) /\ forall n l', layout_of c n ty = Ok l' -> l' = l
  | Err (_, tc') => type_cache_ok c tc' /\ forall l, layout_of c (Z.to_nat TypeLoader.VALUE_DEPTH_MAX) ty <> Ok l
  | Panic => forall l, layout_of c (Z.to_nat TypeLoader.VALUE_DEPTH_MAX) ty <> Ok l
  | OutOfFuel => False
  end.
Proof.
  intros Htc. pose proof (type_layout_safe c ty tc Htc) as H.
  assert (forall l, layout_of c (Z.to_nat TypeLoader.VALUE_DEPTH_MAX) ty = Ok l ->
    exists tc', TypeLoader.type_to_type_layout c ty tc = Ok (l, tc') /\ type_cache_ok c tc') as Hfinds.
  { intros l Hl. by apply (layout_finds c _ _ _ _ _ Hl). }
  destruct (TypeLoader.type_to_type_layout c ty tc) as [[l tc']|[e tc']| |]; [|split; [done|]|..|done].
  - destruct H as [Htc' [n Hn]]. split_and!; [done|by exists n|]. intros n' l' Hl'. by eapply layout_of_det.
  - intros l Hl. by destruct (Hfinds l Hl) as (tc0 & ? & _).
  - intros l Hl. by destruct (Hfinds l Hl) as (tc0 & ? & _).
Qed.

Lemma type_layout_exact_witness : exists l tc',
  TypeLoader.type_to_type_layout Boxes.cache Boxes.BoxCoin TypeCache.new = Ok (l, tc') /\ type_cache_ok Boxes.cache tc' /\
  exists n, layout_of Boxes.cache n Boxes.BoxCoin = Ok l.
Proof.
  pose proof (type_layout_exact Boxes.cache Boxes.BoxCoin TypeCache.new (type_cache_new _)) as H.
  destruct (TypeLoader.type_to_type_layout Boxes.cache Boxes.BoxCoin TypeCache.new) as [[l tc']|[e tc']| |] eqn:E; vm_compute in E; [|discriminate E..].
  destruct H as (Htc & Hl & _). by exists l, tc'.
Defined.

(** ** The depth of a type and the cache *)

(** A type of [n] more levels. *)
Definition nested (n : nat) (ty : RuntimeType.Type_) : RuntimeType.Type_ := Nat.iter n RuntimeType.Vector ty.

(** The type is the struct [gidx] with these type arguments. *)
Definition struct_of (ty : RuntimeType.Type_) (gidx : Z) (ty_args : list RuntimeType.Type_) : Prop :=
  ty = RuntimeType.StructInstantiation gidx ty_args \/ (ty = RuntimeType.Struct gidx /\ ty_args = []).

Definition cached_layout (tc : TypeCache) (gidx : Z) (ty_args : list RuntimeType.Type_) : option MoveTypeLayout.MoveStructLayout :=
  TypeCache.get tc gidx ty_args ≫= StructInfo.struct_layout.

Section depth.
Context {NF : Type} (c : ModuleCache NF).
Abbreviation layout_impl := (TypeLoader.type_to_type_layout_impl c).
Abbreviation struct_layout f := (TypeLoader.struct_gidx_to_type_layout c f).

Lemma layout_impl_eq ty tc : TypeLoader.type_to_type_layout c ty tc = layout_impl (Z.to_nat TypeLoader.VALUE_DEPTH_MAX) ty 1 tc.
Proof. reflexivity. Qed.

(** The vectors around a type only count levels. *)
Lemma nested_layout k : forall fuel depth ty tc, Z.of_nat k + depth <= TypeLoader.VALUE_DEPTH_MAX ->
  layout_impl (k + fuel) (nested k ty) depth tc =
  (l ← layout_impl fuel ty (Z.of_nat k + depth); mret (Nat.iter k MoveTypeLayout.Vector l)) tc.
Proof.
  induction k as [|k IH]; intros fuel depth ty tc Hd.
  { change (Z.of_nat 0 + depth) with depth. change (nested 0 ty) with ty. change (0 + fuel)%nat with fuel.
    unfold mbind, LM_bind. by destruct (layout_impl fuel ty depth tc) as [[? ?]| | |]. }
  change (nested (S k) ty) with (RuntimeType.Vector (nested k ty)).
  change (S k + fuel)%nat with (S (k + fuel)). cbn [TypeLoader.type_to_type_layout_impl].
  rewrite (proj2 (Z.ltb_ge _ _)) by lia. unfold mbind at 1, LM_bind at 1.
  rewrite IH by lia. replace (Z.of_nat k + (depth + 1)) with (Z.of_nat (S k) + depth) by lia.
  unfold mbind, LM_bind. by destruct (layout_impl fuel ty _ tc) as [[? ?]| | |].
Qed.

Lemma struct_layout_of ty gidx ty_args fuel depth : struct_of ty gidx ty_args -> depth <= TypeLoader.VALUE_DEPTH_MAX ->
  layout_impl (S fuel) ty depth =
  (l ← struct_layout (layout_impl fuel) gidx ty_args depth; mret (MoveTypeLayout.Struct l)).
Proof.
  intros Hty Hd. cbn [TypeLoader.type_to_type_layout_impl]. rewrite (proj2 (Z.ltb_ge _ _)) by lia. by destruct Hty as [->|[-> ->]].
Qed.

(** A struct with a field that is not in the cache needs a level more than is left. *)
Lemma struct_too_deep f gidx ty_args depth st tys tc :
  cached_layout tc gidx ty_args = None -> ModuleCache.struct_at c gidx = Ok st ->
  ModuleAccess.map_res (fun ty => TypeLoader.status_of (RuntimeType.subst ty ty_args)) st.(StructType.fields) = Ok tys -> tys <> [] ->
  (forall ty tc, f ty (depth + 1) tc = Err (VM_MAX_VALUE_DEPTH_REACHED, tc)) ->
  struct_layout f gidx ty_args depth tc = Err (VM_MAX_VALUE_DEPTH_REACHED, tc).
Proof.
  unfold cached_layout. intros Hc Hst Htys Hne Hf. unfold TypeLoader.struct_gidx_to_type_layout.
  unfold mbind at 1, LM_bind at 1, lm_get. rewrite Hc. unfold mbind, LM_bind, lm_lift. rewrite Hst, Htys. destruct tys as [|ty tys]; [done|]. cbn [CodeLoader.lm_map]. unfold mbind, LM_bind. by rewrite Hf.
Qed.

(** A layout that was found is in the cache, and the fields were found. *)
Lemma struct_layout_cached f gidx ty_args depth st tc l tc' :
  cached_layout tc gidx ty_args = None -> ModuleCache.struct_at c gidx = Ok st ->
  struct_layout f gidx ty_args depth tc = Ok (l, tc') ->
  cached_layout tc' gidx ty_args = Some l /\
  exists tys, ModuleAccess.map_res (fun ty => TypeLoader.status_of (RuntimeType.subst ty ty_args)) st.(StructType.fields) = Ok tys.
Proof.
  unfold cached_layout. intros Hc Hst. unfold TypeLoader.struct_gidx_to_type_layout.
  unfold mbind at 1, LM_bind at 1, lm_get. rewrite Hc. unfold mbind at 1 2 3 4, LM_bind, lm_lift. rewrite Hst. destruct (ModuleAccess.map_res _ _) as [tys| | |]; try done.
  destruct (CodeLoader.lm_map _ _ _) as [[ls tc1]| | |]; try done. unfold TypeLoader.lm_update. intros [= <- <-].
  split; [|by exists tys]. rewrite cache_get_update, decide_True by done. done.
Qed.

(** A layout in the cache is returned at any depth. *)
Lemma struct_layout_hit f gidx ty_args depth tc l :
  cached_layout tc gidx ty_args = Some l -> struct_layout f gidx ty_args depth tc = Ok (l, tc).
Proof. unfold cached_layout. intros Hc. unfold TypeLoader.struct_gidx_to_type_layout.
  unfold mbind at 1, LM_bind at 1, lm_get. by rewrite Hc. Qed.

Lemma ret_ok {S A B} (m : LM S A) (f : A -> B) s b s' :
  (a ← m; mret (f a)) s = Ok (b, s') -> exists a, m s = Ok (a, s') /\ f a = b.
Proof. unfold mbind, LM_bind. destruct (m s) as [[a s1]| | |]; intros [=]; subst. by exists a. Qed.

(** A struct around which there are as many vectors as there are levels but one. *)
Section nested.
Context (k fuel : nat) (ty : RuntimeType.Type_) (gidx : Z) (ty_args : list RuntimeType.Type_) (st : StructType).
Hypothesis (Hfuel : fuel = S k) (Hk : Z.of_nat k + 1 = TypeLoader.VALUE_DEPTH_MAX) (Hty : struct_of ty gidx ty_args).
Hypothesis (Hst : ModuleCache.struct_at c gidx = Ok st).

Lemma nested_alone tc l tc' : layout_impl fuel ty 1 tc = Ok (l, tc') ->
  exists sl, struct_layout (layout_impl k) gidx ty_args 1 tc = Ok (sl, tc') /\ l = MoveTypeLayout.Struct sl.
Proof using Hfuel Hk Hty.
  rewrite Hfuel, (struct_layout_of ty gidx ty_args k 1 Hty) by lia. intros (sl & H & <-)%ret_ok. by exists sl.
Qed.

Lemma nested_inside tc : layout_impl fuel (nested k ty) 1 tc =
  (l ← layout_impl 1 ty TypeLoader.VALUE_DEPTH_MAX; mret (Nat.iter k MoveTypeLayout.Vector l)) tc.
Proof using Hfuel Hk. rewrite Hfuel, <- Nat.add_1_r, (nested_layout k 1 1 ty), Hk by lia. done. Qed.

Lemma nested_deep tc tys : cached_layout tc gidx ty_args = None ->
  ModuleAccess.map_res (fun ty => TypeLoader.status_of (RuntimeType.subst ty ty_args)) st.(StructType.fields) = Ok tys -> tys <> [] ->
  layout_impl 1 ty TypeLoader.VALUE_DEPTH_MAX tc = Err (VM_MAX_VALUE_DEPTH_REACHED, tc).
Proof using Hty Hst.
  intros Hc Htys Hne. rewrite (struct_layout_of ty gidx ty_args 0 _ Hty) by apply Z.le_refl. unfold mbind, LM_bind.
  rewrite (struct_too_deep _ gidx ty_args _ st tys tc Hc Hst Htys Hne); [done|].
  intros ty' tc0. cbn [TypeLoader.type_to_type_layout_impl]. by rewrite (proj2 (Z.ltb_lt _ _)) by (clear; lia).
Qed.

Lemma nested_hit tc sl : cached_layout tc gidx ty_args = Some sl ->
  layout_impl 1 ty TypeLoader.VALUE_DEPTH_MAX tc = Ok (MoveTypeLayout.Struct sl, tc).
Proof using Hty.
  intros Hc. rewrite (struct_layout_of ty gidx ty_args 0 _ Hty) by apply Z.le_refl. unfold mbind, LM_bind.
  by rewrite (struct_layout_hit _ _ _ _ _ _ Hc).
Qed.

Lemma nested_depth tc tc' l :
  st.(StructType.fields) <> [] -> cached_layout tc gidx ty_args = None -> layout_impl fuel ty 1 tc = Ok (l, tc') ->
  layout_impl fuel (nested k ty) 1 tc = Err (VM_MAX_VALUE_DEPTH_REACHED, tc) /\
  layout_impl fuel (nested k ty) 1 tc' = Ok (Nat.iter k MoveTypeLayout.Vector l, tc').
Proof using Hfuel Hk Hty Hst.
  intros Hne Hc (sl & Hs & ->)%nested_alone. destruct (struct_layout_cached _ _ _ _ _ _ _ _ Hc Hst Hs) as [Hc' [tys Htys]].
  assert (tys <> []) as Hne' by (intros ->; apply map_res_length in Htys; by destruct (StructType.fields st)).
  rewrite !nested_inside. unfold mbind, LM_bind. by rewrite (nested_deep tc tys Hc Htys Hne'), (nested_hit tc' sl Hc').
Qed.
End nested.
End depth.

(** C40: whether a type is too deep depends on what was loaded before.  Take any struct type
    with a field whose layout the cache does not hold, and which has a layout.  Then 127
    nested vectors of it have none: the recursion reports VM_MAX_VALUE_DEPTH_REACHED.  But
    after the layout of the struct alone was asked for, they have one, since a cached layout
    is returned without counting its levels. *)
Theorem layout_depth_depends_on_cache {NF : Type} (c : ModuleCache NF) (ty : RuntimeType.Type_) (gidx : Z)
    (ty_args : list RuntimeType.Type_) (st : StructType) (tc tc' : TypeCache) (l : MoveTypeLayout) :
  struct_of ty gidx ty_args -> ModuleCache.struct_at c gidx = Ok st -> st.(StructType.fields) <> [] ->
  cached_layout tc gidx ty_args = None ->
  TypeLoader.type_to_type_layout c ty tc = Ok (l, tc') ->
  TypeLoader.type_to_type_layout c (nested 127 ty) tc = Err (VM_MAX_VALUE_DEPTH_REACHED, tc) /\
  TypeLoader.type_to_type_layout c (nested 127 ty) tc' = Ok (Nat.iter 127 MoveTypeLayout.Vector l, tc').
Proof.
  assert (Z.of_nat 127 + 1 = TypeLoader.VALUE_DEPTH_MAX) as Hk by reflexivity. revert Hk. generalize 127%nat as k.
  intros k Hk Hty Hst Hne Hc. rewrite !layout_impl_eq. apply (nested_depth c k _ ty gidx ty_args st); try done. lia.
Qed.

(** In a loader that one publication and one load reached, [Coin] is such a struct. *)
Lemma layout_depth_depends_on_cache_witness : exists tc' l,
  TypeLoader.type_to_type_layout Boxes.cache Boxes.Coin TypeCache.new = Ok (l, tc') /\
  TypeLoader.type_to_type_layout Boxes.cache (nested 127 Boxes.Coin) TypeCache.new = Err (VM_MAX_VALUE_DEPTH_REACHED, TypeCache.new) /\
  TypeLoader.type_to_type_layout Boxes.cache (nested 127 Boxes.Coin) tc' = Ok (Nat.iter 127 MoveTypeLayout.Vector l, tc').
Proof.
  assert (exists st, ModuleCache.struct_at Boxes.cache 1 = Ok st /\ st.(StructType.fields) <> []) as (st & H1 & H2).
  { eexists. split; [vm_compute; reflexivity|discriminate]. }
  assert (exists l tc', TypeLoader.type_to_type_layout Boxes.cache Boxes.Coin TypeCache.new = Ok (l, tc')) as (l & tc' & H3).
  { eexists _, _. vm_compute. reflexivity. }
  exists tc', l. split; [exact H3|].
  assert (struct_of Boxes.Coin 1 []) as H4 by (right; split; reflexivity).
  assert (cached_layout TypeCache.new 1 [] = None) as H5 by reflexivity.
  exact (layout_depth_depends_on_cache Boxes.cache Boxes.Coin 1 [] st TypeCache.new tc' l H4 H1 H2 H5 H3).
Defined.

(** * Resources *)

(** C13: the data cache reads each resource once.  [load_resource] on a cache with a correct
    type cache returns the slot of the resource: the one it holds, without another change,
    or else what the storage holds under the tag of the type, read at the layout of the
    type, or an empty slot if the storage has nothing.  Afterwards the cache holds that slot
    and, apart from it, the slots and modules it held.  Whatever is then written to the slot
    is what the next [load_resource] returns, and the other slots are unchanged. *)
Theorem load_resource_exact {NF : Type} (c : ModuleCache NF)
    (simple_deserialize : list Z -> MoveTypeLayout -> Store -> option (Value * Store))
    (ds ds' : TransactionDataCache) (heap heap' : Store) (addr : AccountAddress) (ty : RuntimeType.Type_) (gv : GlobalValue) :
  type_cache_ok c ds.(TransactionDataCache.type_cache) ->
  TransactionDataCache.load_resource c simple_deserialize addr ty (ds, heap) = Ok (gv, (ds', heap')) ->
  type_cache_ok c ds'.(TransactionDataCache.type_cache) /\ same_modules ds ds' /\
  exists l, resource_source c simple_deserialize ds heap addr ty l gv heap' /\
    (forall a t, slot ds' a t = if decide (a = addr /\ t = ty) then Some (l, gv) else slot ds a t) /\
    forall gv' h, exists ds'',
      TransactionDataCache.load_resource c simple_deserialize addr ty (TransactionDataCache.set_resource addr ty gv' ds', h) =
        Ok (gv', (ds'', h)) /\
      forall a t, slot ds'' a t = if decide (a = addr /\ t = ty) then Some (l, gv') else slot ds a t.
Proof.
  intros Htc Hload.
  assert (type_cache_ok c ds'.(TransactionDataCache.type_cache) /\ same_modules ds ds' /\
    exists l, resource_source c simple_deserialize ds heap addr ty l gv heap' /\
      forall a t, slot ds' a t = if decide (a = addr /\ t = ty) then Some (l, gv) else slot ds a t) as (Htc' & Hm & l & Hsrc & Hslots).
  { destruct (slot ds addr ty) as [[l gv0]|] eqn:Hs.
    - destruct (load_slot c simple_deserialize ds heap addr ty l gv0 Hs) as (ds0 & E & Et & Hm & Hsl). rewrite E in Hload. injection Hload as <- <- <-.
      split; [by rewrite Et|]. split; [done|]. exists l. split; [by apply from_cache|]. intros a t. rewrite Hsl.
      by destruct (decide _) as [[-> ->]|].
    - by apply load_missing. }
  split; [done|]. split; [done|]. exists l. split; [done|]. split; [done|]. intros gv' h.
  assert (forall a t, slot (TransactionDataCache.set_resource addr ty gv' ds') a t =
    if decide (a = addr /\ t = ty) then Some (l, gv') else slot ds a t) as Hset.
  { intros a t. unfold TransactionDataCache.set_resource. pose proof (Hslots addr ty) as Hat. rewrite decide_True in Hat by done.
    unfold slot in Hat at 1. rewrite Hat, slot_insert. destruct (decide _); [done|]. by rewrite Hslots, decide_False. }
  pose proof (Hset addr ty) as Hat. rewrite decide_True in Hat by done.
  destruct (load_slot c simple_deserialize _ h addr ty l gv' Hat) as (ds'' & E & _ & _ & Hsl). exists ds''. split; [done|].
  intros a t. by rewrite Hsl.
Qed.

(** A coin is read from the storage, then replaced by an empty slot. *)
Lemma load_resource_exact_witness : exists ds'',
  TransactionDataCache.load_resource Boxes.cache Boxes.simple_deserialize AccountAddress_ZERO Boxes.Coin
    (TransactionDataCache.set_resource AccountAddress_ZERO Boxes.Coin GlobalValue.none Boxes.coin_store, Boxes.coin_heap) =
    Ok (GlobalValue.none, (ds'', Boxes.coin_heap)).
Proof.
  destruct (load_resource_exact Boxes.cache Boxes.simple_deserialize Boxes.ds Boxes.coin_store Boxes.heap Boxes.coin_heap AccountAddress_ZERO Boxes.Coin
    Boxes.coin_slot Boxes.types_ok Boxes.coin_ok) as (_ & _ & l & _ & _ & H).
  destruct (H GlobalValue.none Boxes.coin_heap) as (ds'' & E & _). exists ds''. exact E.
Defined.
